(* ===== verification/_CoqProject ===== *)
-Q . S2P
Prelude.v
ByteOps.v
Sroar.v
RoaringSet.v
RangeSegment.v
RangeMemtable.v
RangeReader.v
RangeCompactor.v
RangeInMemory.v
ReplicationFSM.v
ReplicationInvariant.v
ReplicationRouting.v
Bitset.v
HashTree.v
HashTreeDiff.v
CompactHashTree.v
SegmentIndex.v
IndexLayout.v
DiskTree.v
IndexWalk.v
RBTree.v
SearchTree.v
MemtableTree.v
RoaringTree.v
DistributedTask.v
DistributedTaskInvariant.v
DistributedTaskQueries.v
RejectionWire.v
ReplaceNode.v
SegmentFile.v
ReplaceSegment.v
ReplaceCompactor.v
ReplaceBucket.v
CompactionPolicy.v
ReplaceCursor.v
CommitLog.v
LogReplay.v
StoreRecovery.v
Varenc.v
Sharding.v
TenantSchema.v
SchemaState.v
PriorityQueue.v
Bm25Terms.v
PostingMerge.v
PostingList.v
TopK.v
Wand.v
BlockMax.v
BlockFile.v
BlockWriter.v
BlockMaxAnd.v
BlockMaxWand.v
CreateTerm.v
SearchResults.v
KeywordSearch.v
