(* ===== verification/Prelude.v ===== *)
(** * Weaviate: a verification of its storage structures, keyword search, replicated state
    machines and hash trees

    Weaviate is a vector database written in Go.  A node keeps objects in LSM
    buckets: writes go to red-black trees in memory, which are flushed to
    immutable segments found through a search tree in their bytes, and neighbouring
    segments are compacted into one.  The inverted
    index of numeric properties is answered from bit-sliced bitmaps ("range
    bitmaps") held in memtables, segments and an optional in-memory segment; a keyword
    search ranks the documents of the words of a query and keeps the best ones.
    Nodes form a cluster: a raft log drives deterministic state machines, one of
    which keeps the schema, with the tenants of every collection and the nodes their
    shards are placed on, one tracks the copies and moves of shard replicas and decides which replicas
    may serve reads and writes, and another the long-running tasks all nodes work
    on.  Replicas of a shard compare their content by hash trees and repair the
    differences.  These cores are modelled; each is a shallow embedding,
    definition by definition, of the Go files named below.

    ** Conventions

    - A Go call that can fail is a value of [outcome] (this file): [Ok], an
      [error] as [Err], [Panic], or [OutOfFuel] where a loop is bounded by the
      model.  [let!] threads it.  Theorems that say what a call returns conclude
      with an [Ok] or [Err], so they exclude panics and running out of fuel.
    - Unsigned machine integers are [Z] with the wrap-around written ([u64],
      [u32], ...); bytes are [Z] below 256; big- and little-endian encodings are
      [be_split]/[be_combine] and [le_split]/[le_combine].
    - Methods that mutate their receiver return the new value.  A lock makes the
      method under it one atomic step; where the code releases it in between
      (the in-memory segment) the interleavings are a step relation.
    - Third-party code is a parameter: the bitmap library
      (github.com/weaviate/sroar) is the classes [Sroar] and [SroarLaws] of
      Sroar.v with its documented set semantics, murmur3 is the class [Murmur3] of
      HashTree.v, of which only the word size of the result is assumed, and the
      bloom filter is the class [Bloom] of SegmentFile.v, of which only the absence
      of false negatives is assumed.  All three have instances ([gset Z]; a toy
      hash; the list of the keys added) on which the witnesses evaluate.
      What a task's payload means (conflict detectors, extractors), the sizes of
      Go structs, [strings.EqualFold] and the clock are arguments.

    ** Range bitmaps: usecases/byteops, adapters/repos/db/roaringset and
       roaringsetrange

    - ByteOps.v: [usecases/byteops/byteops.go], the cursor over a buffer that the
      segment nodes are written and read with; checked reads do not panic.
    - Sroar.v: the interface of the bitmap library.
    - RoaringSet.v: [roaringset/layers.go], [helpers.go]: layers of additions and
      deletions; flattening and merging ([flatten_correct],
      [merge_preserves_flatten]).
    - RangeSegment.v: [roaringsetrange/segment_node.go], [segment_cursor.go]: the byte
      layout of a node, the mmap cursor and the gapless cursor.  The class [CursorLaws] is what a segment cursor promises; the mmap
      cursor is shown to satisfy it, and readers and compactor are proved against
      it ([segment_payload_roundtrip], [gapless_complete]).
    - RangeMemtable.v: [memtable.go].  A memtable refines an id-to-value store, and
      its flushed nodes are the bit-sliced form of its content
      ([memtable_refines_store], [memtable_nodes_represent]).
    - RangeReader.v: [segment_reader.go], [reader.go] and the reader of
      [segment_in_memory.go].  Each comparison
      answers exactly the ids whose newest value satisfies it
      ([segment_reader_correct], [memory_reader_correct],
      [combined_read_correct]); errors and cancellation ([combined_read_fails],
      [merge_gte_cancelled], [read_equal_cancelled_partial]).
    - RangeCompactor.v: [compactor.go]; the compaction of two segments represents
      the overlay of their contents, and swapping it in changes no read
      ([compaction_correct], [compaction_transparent]).
    - RangeInMemory.v: [segment_in_memory.go], a step relation over flushes, the
      background merge and readers; open readers see a consistent prefix and the
      queue drains ([readers_consistent], [merge_eventually]).

    The notion all of these share is the [delta] of RangeMemtable.v: the finite map
    of ids to values a source sets and the set of ids it deletes.  Memtables,
    segments and bitmaps represent deltas, and reads, merges and compaction are
    overlays of deltas.

    ** Memtable trees: adapters/repos/db/lsmkv and roaringset

    - RBTree.v: [rbtree/rbtree.go] over a heap of nodes with parent pointers, nil
      pointers and nil interfaces told apart; [Rebalance] terminates and restores
      the red-black invariant ([rebalance_terminates]).
    - SearchTree.v: the walks the four trees share, generic in the payload of a node
      and in what an insert of an equal key does; they refine the operations of a
      finite map ([insert_refines], [find_refines], [flatten_refines],
      [refines_balanced]).
    - MemtableTree.v: [binary_search_tree.go], [_map.go] and [_multi.go]: strategy
      "replace" is a finite map with tombstones ([replace_tree_refines],
      [replace_tree_balanced], [count_stats_exact]); "map" keeps the last pair of a
      map key ([map_tree_last_wins], [map_tree_flatten]); "set" keeps all values in
      order ([multi_tree_appends]).
    - RoaringTree.v: [roaringset/binary_search_tree.go] and its cursor; a layer
      stands for the writes of its key ([roaring_tree_layers],
      [roaring_tree_size], [cursor_seek_exact]).

    ** Replication state machine: cluster/replication

    - ReplicationFSM.v: [shard_replication_op_state.go], [_fsm.go] and [_apply.go]:
      the record with its nine indices and the gauge, admission, and one
      definition per command and per query.
    - ReplicationInvariant.v: [reachable], the states any log of commands leads
      to; all indices agree, removal is exact, CANCELLED is final, convergence is
      stable, MOVE is exclusive ([fsm_invariant], [remove_op_exact],
      [cancelled_final], [converged_stable], [move_admission]).
    - ReplicationRouting.v: the routing filters against their specification, the
      sweep of stale operations, snapshots ([routing_correct],
      [finished_removal_neutral], [select_stale_oldest], [sweep_gates_neutral],
      [restore_snapshot]); [ready_removal_not_neutral] is the case in which the
      removal of a READY operation does change routing.

    ** Distributed tasks: cluster/distributedtask

    - DistributedTask.v: [types.go] and [manager.go]: tasks, units, acknowledgements,
      one definition per command of the log, the removals the schema triggers, the
      queries, snapshot and restore, and the dispatch of [Store.Apply].
    - DistributedTaskInvariant.v: [reachable], the states any log, clocks and
      snapshots lead to; the invariant of a task, the preparation barrier, the
      lifecycle, finality and snapshots ([dtask_invariant], [swap_barrier],
      [dtask_lifecycle], [terminal_final], [snapshot_restores]).
    - DistributedTaskQueries.v: display order and removals
      ([display_order_deterministic], [purge_all_or_nothing],
      [delete_collection_exact]), and concrete runs on which the code departs from
      its comments ([early_acks_wedge], [finalize_without_acks],
      [add_replaces_swapping], [retry_resets_progress],
      [cleanup_depends_on_clock]).
    - RejectionWire.v: [errors.go]; a rejection keeps its identity over gRPC
      ([rejection_roundtrip]).

    Progress is a rational number: the comparisons of float32 values, without NaN.

    ** Hash trees: usecases/replica/hashtree

    - Bitset.v: [bitset.go]; decoding is total and yields consistent sets
      ([bitset_marshal]).
    - HashTree.v: [hashtree.go], [digest.go]; the lazily synced root is the Merkle
      root ([merkle]) of the aggregated content ([root_of_content]).
    - HashTreeDiff.v: [Level], [LevelDiff], [Diff]; differences are found exactly,
      up to collisions at the nodes above a leaf ([diff_exact]).
    - CompactHashTree.v: [compact_hashtree*.go], [hashtree_serialization.go]: the
      grouping of positions, the range reader and the file formats
      ([compact_diff_exact], [serialization_roundtrip]).

    ** Segment index: adapters/repos/db/lsmkv/segmentindex

    - SegmentIndex.v: the writers of [tree.go]: a balanced tree over sorted keys in
      heap order, written in van Emde Boas order and linked by byte offsets.
    - IndexLayout.v: the heap array holds the tree, the order lists every node
      once, the bytes are a linked image of it ([encodes]).
    - DiskTree.v: [disk_tree.go], lookups in the bytes.  On an image they are
      lookups in the sorted keys ([index_lookup_correct], [index_lookup_redux]);
      on arbitrary bytes they are safe ([lookup_safe]).
    - IndexWalk.v: sequential and split scans see every node once
      ([index_walk_complete]).

    ** The store of strategy "replace": adapters/repos/db/lsmkv

    The strategy objects are kept in: a key has one value, newer values replace
    older ones, deletes are tombstones.

    - ReplaceNode.v: [segment_serialization.go]: the bytes of a node and the parsers
      that read them, streaming, by pread, from memory and in digest form
      ([replace_node_roundtrip]).
    - SegmentFile.v: [segmentindex/header.go], [indexes.go], the secondary indexes of
      [tree.go], [segment_file.go] and [newSegment] of [segment.go]: a file is a
      header, the nodes, the offset table, the indexes and a checksum; opening it
      finds them again.
    - ReplaceSegment.v: [memtable_flush.go], [segment_replace_strategy.go] and the
      reusable cursor of [cursor_segment_replace.go].  [seg_holds s count flat] says
      that a segment holds the entries [flat]; a flushed memtable opens to such
      a segment, and lookups and cursors answer from the list ([flush_then_open]).
    - ReplaceCompactor.v: [compactor_replace.go] and [compactor/compactor.go]: two
      segments become one in which the newer entry wins ([compaction_merges]);
      [empty_key_drops_segment] is the run in which an empty key read by
      pread ends the merge early.
    - ReplaceBucket.v: [memtable.go], [bucket.go], [segment_group.go],
      [segment_group_replacer.go] and the "replace" branch of
      [segment_group_compaction.go].  [reaches b m]: any interleaving of writes,
      memtable switches, flushes and compactions; the bucket then answers as
      the finite map [m] ([bucket_refines_map]), maintenance cannot fail
      ([maintenance_succeeds]) and a flush drains the memtables
      ([flush_and_switch_drains]).
    - CompactionPolicy.v: [findCompactionCandidates]: the chosen pair keeps the levels
      in order ([candidates_keep_order]) and repeated compaction stops
      ([compaction_terminates]).
    - ReplaceCursor.v: [cursor_bucket_replace.go], [cursor_memtable_replace.go].  The
      class [InnerCursorLaws] is what the merging cursor relies on; memtable and
      segment cursors satisfy it, and a scan lists the map of the bucket in order
      ([scan_lists_map]).
    - CommitLog.v: [commitlogger.go], the parser of [commitlogger_parser*.go] and the
      resumable checksum: a log cut at any byte gives back the records before the
      cut ([parse_log_cut]), and a log is continued with the right checksum.
    - LogReplay.v: the replay of the parsed nodes into a memtable, in any order of the
      map ([doReplace_cut]); [replay_drops_empty_secondary_key] is the write it loses.
    - StoreRecovery.v: a bucket with its directory, [bucket_recover_from_wal.go],
      [newSegmentGroup] and [NewBucket].  [store_reaches s h]: any interleaving of
      writes, switches, flushes, compactions and crashes.  A crash cuts the logs
      anywhere, during a flush or between the renames of a compaction; opening the
      bucket restores exactly the complete writes ([crash_recovery],
      [compaction_crash]), unless a log has less than four bytes
      ([short_log_blocks_opening]).

    The bounds of these theorems are those of the format: keys are bytes, not empty
    and below 2^32 long, values are below 2^48, a memtable flushed at once takes less
    than 2^34 bytes, as does a log, a record of the log less than 2^32, a compacted file
    less than 2^48.  Go allocates no larger
    slices, and the offsets then stay within 63 bits.

    ** Packed integers: adapters/repos/db/lsmkv/varenc

    - Varenc.v: the delta and bit-packing encoders the inverted index stores its blocks with, in
      their 64-bit arithmetic.  Decoding what was encoded gives the values back
      for widths up to 58 bits ([varenc_roundtrip], [varenc_decode_fields]); blocks that need
      64 bits are lost ([varenc_width_64]), and 58 cannot be raised ([varenc_width_limit]).

    ** Keyword search: adapters/repos/db/priorityqueue, inverted and lsmkv

    - PriorityQueue.v: [priorityqueue/queue.go], the heap of the best results.  The class
      [DistanceLaws] is what it assumes of distances, [StrictWeak] what an order of items has to be;
      the three orders of the code satisfy it, and a queue gives its items back sorted
      ([queue_orders]), unless [DeleteItem] is used ([delete_item_breaks_order]).
    - Bm25Terms.v: [inverted/terms/terms.go]: documents of a word, their merge, and the terms over
      which a search advances ([Pivot_correct], [ScoreNext_correct]).
    - PostingMerge.v: the merge keeps the newest version of every document ([merger_Do_correct]).
    - PostingList.v: [docPointerWithScoreListFromConsistentView] of [lsmkv/bucket.go] over segments and the
      memtable trees of MemtableTree.v: what a bucket answers for a word ([word_documents]).
    - TopK.v: what a search keeps in its queue, over any candidates and scores ([top_k]), and what it has to
      return ([best_results]), also when bounds may be off ([near_best]); Wand.v and the block-max searches are proved against it.
    - Wand.v: [DoWand] of [lsmkv/search_segment.go].  The class [SortLaws] is what it needs of
      [sort.Sort]; skipping documents that cannot reach the worst score kept loses none ([wand_correct]).
    - BlockMax.v: the iterators of [lsmkv/segment_blockmax.go] over compressed blocks.  An iterator stands for the
      list of documents it has left, also before a block that is not decoded ([iter_ok], [left_docs]); no document scores more than
      the bound of its block and the error that the bounds have ([bounds_within], [iter_impact]).
    - BlockFile.v: the bytes of blocks and their entries ([inverted/terms/terms_block.go], [inverted/blockenc/blockenc.go]) and how
      an iterator loads them from a mapped segment ([load_term]).
    - BlockWriter.v: [createAndEncodeBlocksTest] of [lsmkv/segment_serialization_inverted.go].  What is written is loaded by BlockFile.v as
      blocks that BlockMax.v can go over; the entries bound their blocks when the search uses the constants of the writer
      ([written_blocks_ok]).
    - BlockMaxAnd.v: [DoBlockMaxAnd] of [lsmkv/search_segment.go]: what it finds is right and complete up to the limit, and the best up to the errors
      of the bounds ([block_max_and_best]); [flush_average_loses] is a loss by such an error.
    - BlockMaxWand.v: [DoBlockMaxWand] of the same file.  Without a limit it finds every document ([block_max_wand_all]);
      with one that is reached an exhausted term in front hides documents ([exhausted_front_drops]), and the best document can be
      missed ([block_max_wand_misses]).
    - CreateTerm.v: [createTerm] of [inverted/bm25_searcher.go]: the properties of a word become one
      list with frequencies and lengths added up ([createTerm_correct]).
    - SearchResults.v: [getTopKObjects] and the combination of results in [bm25_searcher_block.go]; the class
      [SorterLaws] is what the sorters promise ([combined_results_best], [explanations_shifted]).
    - KeywordSearch.v: [wandFromStats], from the words of a query to objects.  What is returned is what scoring
      every document would give ([keyword_search_top_k]); [and_operator_one_word] is the query for all words
      that one word satisfies.

    Scores, frequencies and lengths are exact rational numbers ([Qc]) instead of floats, so NaN and the rounding of scores
    are not covered; the bounds of blocks are rounded by an argument, of which nothing is assumed. [math.Log] is an argument that is not negative from 1 on.  Tokenizers, the buckets that
    hold documents and objects, the order of Go's maps and cancellation are arguments too.

    ** Sharding and the schema: usecases/sharding and cluster/schema

    - Sharding.v: [usecases/sharding/state.go], [config/*.go] and
      [usecases/cluster/iterator.go]: the configuration, the placement of shards
      and tenants on nodes, the ring of virtual shards, replicas and migrations.
      The class [InitLaws] is what is assumed of the random numbers, the orders of maps and
      murmur3; an instance evaluates the examples.  Replicas are on different
      nodes and evenly dealt, and every object belongs to one shard
      ([sharding_initialised], [partitions_placed], [replicas_invariant]);
      [virtual_count_unchecked] is the configuration that makes it panic.
      Percentages are exact fractions, kept as their numerators.
    - TenantSchema.v: [cluster/schema/meta_class.go]: the commands that add, delete
      and update tenants, and the processes that freeze and unfreeze them
      ([tenants_added], [tenant_record_deterministic]).  The claims that name a
      failure show the runs in which nodes or statuses diverge
      ([aborted_unfreeze_wedges], and the lemmas [unfreeze_node_dependent],
      [aborted_freeze_reported_frozen]).
    - SchemaState.v: [cluster/schema/schema.go] over the two files above: collections,
      namespaces, aliases, snapshots and the published counts, which
      [schema_reaches] keeps exact ([schema_counts_exact]); a snapshot
      forgets the processes of tenants ([snapshot_forgets_processes]).

    ** Fuel

    The gapless cursor skips at most 256 keys per call (keys are bytes); a read
    streams at most 66 nodes (65 keys and the end); the compaction loop is given
    one turn per node of both segments; the tree loops run over the exact number
    of nodes or levels; [height_loop] has 65 turns for 64-bit values, and the
    range iteration one more turn than there are leaves.  The descent of a disk
    tree has the step limit the code itself has; walks have one turn per byte.  The
    walks of a memtable tree have the number of heap cells, and [Rebalance] one turn
    per node on the path to the root.  The merge of two segments has one turn per
    node of both, a scan one turn per entry of all its sources, and the parser of a log
    one turn per byte; the loop that looks for a node that is not yet first for a shard has one turn per
    node.  A heap operation has one turn per item, a merge of documents and a search one per document ([DoBlockMaxWand] is
    given its turns as an argument, since no bound is proved for searches that skip blocks), and the
    loop over batches of objects one per document.  Each theorem that claims a result proves these
    to be enough.

    ** Not modelled

    File and network I/O (the pread cursor of range bitmaps, writers that fail), the
    bounded worker pools that read layers concurrently (their results are combined
    in order), metrics and logging, JSON forms, lookups by
    secondary key, net counts and the segment files of the other strategies, the terms of a block-max search, filters, tokenizers,
    reference
    counts, the edit operations on segments and the periodic cleanup, the engine that executes replication operations, the scheduler and
    providers of distributed tasks and the guards they put on schema changes, and
    the rest of the system (vector indexes, the properties of classes and other state machines,
    APIs and modules).

    ** What could come next

    Lookups by secondary key, the segment files of the strategies "set", "map", "inverted" and roaring set, on
    which terms of a block-max search and filters work, then the replication manager and the task scheduler. *)

From stdpp Require Export base tactics list gmap.
From Stdlib Require Export ZArith Lia Sorted.

#[global] Open Scope Z_scope.

(** * Go outcomes

    A Go call either returns, returns a non-nil [error], or panics.  [outcome]
    keeps the three apart; [E] is the component's error type.  [OutOfFuel] is
    the model's own: a bounded loop met its bound; the theorems that say a call
    returns exclude it. *)

Inductive outcome (E A : Type) : Type :=
| Ok (a : A)
| Err (e : E)
| Panic
| OutOfFuel.
Arguments Ok {E A} _.
Arguments Err {E A} _.
Arguments Panic {E A}.
Arguments OutOfFuel {E A}.

#[export] Instance outcome_eq_dec {E A : Type} `{EqDecision E, EqDecision A} :
  EqDecision (outcome E A).
Proof. solve_decision. Defined.

Definition obind {E A B : Type} (m : outcome E A) (f : A -> outcome E B) : outcome E B :=
  match m with
  | Ok a => f a
  | Err e => Err e
  | Panic => Panic
  | OutOfFuel => OutOfFuel
  end.

Declare Scope go_scope.
Delimit Scope go_scope with go.
Notation "'let!' x ':=' m 'in' k" := (obind m (fun x => k))
  (at level 10, x pattern, m at level 100, k at level 200) : go_scope.
#[global] Open Scope go_scope.

Definition omap_err {E F A : Type} (f : E -> F) (m : outcome E A) : outcome F A :=
  match m with
  | Ok a => Ok a
  | Err e => Err (f e)
  | Panic => Panic
  | OutOfFuel => OutOfFuel
  end.

Lemma obind_Ok_inv {E A B : Type} (m : outcome E A) (f : A -> outcome E B) b :
  obind m f = Ok b -> exists a, m = Ok a /\ f a = Ok b.
Proof. destruct m; simpl; intros; try discriminate; eauto. Qed.

(** * Machine integers: unsigned values at width 64, 32, 16 and 8 *)

Definition u64_max : Z := 2 ^ 64 - 1.
Definition u64 (z : Z) : Z := z mod 2 ^ 64.
Definition u32 (z : Z) : Z := z mod 2 ^ 32.
Definition u16 (z : Z) : Z := z mod 2 ^ 16.
Definition u8 (z : Z) : Z := z mod 2 ^ 8.

Definition is_u64 (z : Z) : Prop := 0 <= z < 2 ^ 64.
Definition is_u32 (z : Z) : Prop := 0 <= z < 2 ^ 32.
Definition is_byte (z : Z) : Prop := 0 <= z < 256.

Lemma u64_small z : is_u64 z -> u64 z = z.
Proof. apply Z.mod_small. Qed.

Lemma u32_small z : is_u32 z -> u32 z = z.
Proof. apply Z.mod_small. Qed.

Lemma u64_range z : is_u64 (u64 z).
Proof. apply Z.mod_pos_bound. lia. Qed.

(** [int64(z)] of a uint64 and [int32(z)] of an int *)
Definition to_int (z : Z) : Z := if z <? 2 ^ 63 then z else z - 2 ^ 64.
Definition i32 (z : Z) : Z :=
  let m := z mod 2 ^ 32 in if m <? 2 ^ 31 then m else m - 2 ^ 32.

Lemma i32_small z : 0 <= z < 2 ^ 31 -> i32 z = z.
Proof. intros Hz. unfold i32. rewrite Z.mod_small by lia. destruct (Z.ltb_spec z (2 ^ 31)); lia. Qed.

(** An offset stored as [uint64(int64)] is read back by [int64(uint64)]. *)
Lemma to_int_u64 z : -1 <= z < 2 ^ 63 -> to_int (u64 z) = z.
Proof.
  intros Hz. unfold to_int, u64. destruct (Z.eq_dec z (-1)) as [->|]; [reflexivity|].
  rewrite Z.mod_small by lia. destruct (Z.ltb_spec z (2 ^ 63)); lia.
Qed.

(** [key & (1 << bit) != 0], the bit test of the Go sources. *)
Definition bit_set (v : Z) (bit : Z) : bool :=
  negb (Z.land v (Z.shiftl 1 bit) =? 0).

Lemma bit_set_testbit v bit : 0 <= bit -> bit_set v bit = Z.testbit v bit.
Proof.
  intros Hb. unfold bit_set.
  rewrite Z.shiftl_mul_pow2, Z.mul_1_l by lia.
  destruct (Z.testbit v bit) eqn:E.
  - apply negb_true_iff, Z.eqb_neq. intros H0.
    assert (Ht : Z.testbit (Z.land v (2 ^ bit)) bit = true)
      by (rewrite Z.land_spec, E, Z.pow2_bits_true by lia; done).
    rewrite H0, Z.bits_0 in Ht. discriminate.
  - apply negb_false_iff, Z.eqb_eq, Z.bits_inj'. intros n Hn.
    rewrite Z.land_spec, Z.bits_0, Z.pow2_bits_eqb by lia.
    destruct (Z.eqb_spec bit n) as [<-|]; [by rewrite E|apply andb_false_r].
Qed.

(** * Little-endian integers ([encoding/binary.LittleEndian]) *)

Fixpoint le_combine (bs : list Z) : Z :=
  match bs with
  | [] => 0
  | b :: bs' => b + 256 * le_combine bs'
  end.

Fixpoint le_split (n : nat) (v : Z) : list Z :=
  match n with
  | O => []
  | S n' => (v mod 256) :: le_split n' (v / 256)
  end.

Lemma length_le_split n v : length (le_split n v) = n.
Proof. revert v; induction n; intros; simpl; auto. Qed.

Lemma le_split_bytes n v : Forall is_byte (le_split n v).
Proof.
  revert v; induction n; intros v; simpl; constructor; auto.
  apply Z.mod_pos_bound. lia.
Qed.

Lemma le_combine_split n v :
  0 <= v < 256 ^ Z.of_nat n -> le_combine (le_split n v) = v.
Proof.
  revert v; induction n as [|n IH]; intros v Hv.
  - simpl in *. lia.
  - rewrite Nat2Z.inj_succ, Z.pow_succ_r in Hv by lia.
    cbn [le_split le_combine].
    rewrite IH.
    + pose proof (Z.div_mod v 256). lia.
    + split; [apply Z.div_pos; lia|apply Z.div_lt_upper_bound; lia].
Qed.

Lemma le_combine_range bs :
  Forall is_byte bs -> 0 <= le_combine bs < 256 ^ Z.of_nat (length bs).
Proof.
  induction 1 as [|b bs Hb Hbs IH].
  - simpl. lia.
  - cbn [length le_combine]. rewrite Nat2Z.inj_succ, Z.pow_succ_r by lia.
    unfold is_byte in Hb. nia.
Qed.

Lemma le_split_combine bs :
  Forall is_byte bs -> le_split (length bs) (le_combine bs) = bs.
Proof.
  induction 1 as [|b bs Hb Hbs IH]; [done|].
  cbn [length le_split le_combine]. unfold is_byte in Hb.
  rewrite (Z.mul_comm 256), Z.mod_add, Z.div_add, Z.mod_small, Z.div_small by lia.
  by rewrite Z.add_0_l, IH.
Qed.

(** * Big-endian integers ([encoding/binary.BigEndian]) *)

Definition be_combine (bs : list Z) : Z := le_combine (rev bs).
Definition be_split (n : nat) (v : Z) : list Z := rev (le_split n v).

Lemma length_be_split n v : length (be_split n v) = n.
Proof. unfold be_split. by rewrite length_rev, length_le_split. Qed.

Lemma be_combine_split n v : 0 <= v < 256 ^ Z.of_nat n -> be_combine (be_split n v) = v.
Proof. intros Hv. unfold be_combine, be_split. rewrite rev_involutive. by apply le_combine_split. Qed.

Lemma be_split_bytes n v : Forall is_byte (be_split n v).
Proof. unfold be_split. apply Forall_rev, le_split_bytes. Qed.

Lemma be_combine_range bs :
  Forall is_byte bs -> 0 <= be_combine bs < 256 ^ Z.of_nat (length bs).
Proof.
  intros Hb. unfold be_combine. rewrite <- (length_rev bs). by apply le_combine_range, Forall_rev.
Qed.

Lemma be_split_inj n v w :
  0 <= v < 256 ^ Z.of_nat n -> 0 <= w < 256 ^ Z.of_nat n -> be_split n v = be_split n w -> v = w.
Proof.
  intros Hv Hw E. rewrite <- (be_combine_split n v Hv), E. by apply be_combine_split.
Qed.

(** * Lists *)

(** The [n] bytes of [l] from index [i] replaced by [bs]. *)
Definition write_at {A : Type} (l : list A) (i : nat) (bs : list A) : list A :=
  take i l ++ bs ++ drop (i + length bs) l.

Lemma length_write_at {A} (l : list A) i bs :
  (i + length bs <= length l)%nat -> length (write_at l i bs) = length l.
Proof.
  intros H. unfold write_at.
  rewrite !length_app, length_take, length_drop. lia.
Qed.

Lemma write_at_app {A} (p q r bs : list A) :
  length q = length bs -> write_at (p ++ q ++ r) (length p) bs = p ++ bs ++ r.
Proof.
  intros H. unfold write_at.
  rewrite take_app_length. f_equal. f_equal.
  rewrite <- H, drop_app_add'; [|done]. by rewrite drop_app_length.
Qed.

Lemma filter_all {A} (P : A -> Prop) `{forall x, Decision (P x)} (l : list A) :
  (forall x, x ∈ l -> P x) -> filter P l = l.
Proof.
  induction l as [|a l IH]; intros Hl; [done|].
  rewrite filter_cons, decide_True by set_solver. f_equal. apply IH. set_solver.
Qed.

Lemma filter_none {A} (P : A -> Prop) `{forall x, Decision (P x)} (l : list A) :
  (forall x, x ∈ l -> ~ P x) -> filter P l = [].
Proof.
  induction l as [|a l IH]; intros Hl; [done|].
  rewrite filter_cons, decide_False by (apply Hl; left). apply IH. set_solver.
Qed.

Lemma filter_ext_in {A} (P Q : A -> Prop) `{forall x, Decision (P x)} `{forall x, Decision (Q x)}
    (l : list A) :
  (forall x, x ∈ l -> P x <-> Q x) -> filter P l = filter Q l.
Proof.
  induction l as [|a l IH]; intros Hl; [done|].
  rewrite !filter_cons, IH by set_solver. specialize (Hl a ltac:(set_solver)).
  do 2 case_decide; tauto || done.
Qed.

Lemma take_drop_mid {A} (p q r : list A) :
  take (length q) (drop (length p) (p ++ q ++ r)) = q.
Proof. by rewrite drop_app_length, take_app_length. Qed.

(** * Byte strings in the order of [bytes.Compare] *)

(** [bytes.Compare] *)
Fixpoint bytes_compare (a b : list Z) : comparison :=
  match a, b with
  | [], [] => Eq
  | [], _ => Lt
  | _, [] => Gt
  | x :: a, y :: b => match x ?= y with Eq => bytes_compare a b | c => c end
  end.

Lemma bytes_compare_eq a : forall b, bytes_compare a b = Eq <-> a = b.
Proof.
  induction a as [|x a IH]; intros [|y b]; cbn; try done.
  destruct (Z.compare_spec x y) as [->|H|H].
  - rewrite IH. split; congruence.
  - split; [done|]. intros [= -> ->]. lia.
  - split; [done|]. intros [= -> ->]. lia.
Qed.

Lemma bytes_compare_antisym a : forall b, bytes_compare b a = CompOpp (bytes_compare a b).
Proof.
  induction a as [|x a IH]; intros [|y b]; cbn; try done.
  rewrite (Z.compare_antisym x y). destruct (x ?= y); cbn; auto.
Qed.

Lemma bytes_compare_trans a : forall b c,
  bytes_compare a b = Lt -> bytes_compare b c = Lt -> bytes_compare a c = Lt.
Proof.
  induction a as [|x a IH]; intros [|y b] [|z c]; cbn; try done.
  intros H1 H2. destruct (Z.compare_spec x y) as [->|Hxy|Hxy]; [|destruct (Z.compare_spec y z) as [->|Hyz|Hyz]|done].
  - destruct (y ?= z); eauto.
  - by rewrite (proj2 (Z.compare_lt_iff _ _) Hxy).
  - rewrite (proj2 (Z.compare_lt_iff x z)); [done|lia].
  - done.
Qed.

(** [key < x < y] and [x < y <= key] *)
Lemma compare_below key x y :
  bytes_compare key x = Lt -> bytes_compare x y = Lt -> bytes_compare key y = Lt.
Proof. apply bytes_compare_trans. Qed.

Lemma compare_above key x y :
  bytes_compare key y <> Lt -> bytes_compare x y = Lt -> bytes_compare key x = Gt.
Proof.
  intros Hk Hxy. destruct (bytes_compare key y) eqn:E; [| |].
  - apply bytes_compare_eq in E as ->. by rewrite bytes_compare_antisym, Hxy.
  - done.
  - rewrite bytes_compare_antisym. rewrite bytes_compare_antisym in E.
    assert (Hy : bytes_compare y key = Lt) by (by destruct (bytes_compare y key)).
    by rewrite (bytes_compare_trans _ _ _ Hxy Hy).
Qed.

(** * Automation *)

Create HintDb weaviate discriminated.
#[export] Hint Resolve u64_range le_split_bytes : weaviate.
Create Rewrite HintDb lens.
#[export] Hint Rewrite @length_app @length_take @length_drop @length_le_split @length_be_split
  @length_cons @length_fmap @repeat_length : lens.

(** Case split on the boolean comparison of an [if] in the goal. *)
Ltac case_if :=
  match goal with
  | |- context [if (?a =? ?b) then _ else _] => destruct (Z.eqb_spec a b)
  | |- context [if (?a <? ?b) then _ else _] => destruct (Z.ltb_spec a b)
  | |- context [if (?a <=? ?b) then _ else _] => destruct (Z.leb_spec a b)
  | |- context [if decide ?P then _ else _] => destruct (decide P)
  | |- context [if ?b then _ else _] => destruct b eqn:?
  end; simpl.

Ltac lens := autorewrite with lens in *; simpl in *; lia.

(** Peel one monadic bind off a hypothesis that says the whole call succeeded. *)
Ltac inv_ok H :=
  let a := fresh "a" in let Ha := fresh "Ha" in
  apply obind_Ok_inv in H as (a & Ha & H).
