(* ===== verification/ByteOps.v ===== *)
(** * usecases/byteops/byteops.go: the [ReadWriter] cursor over a byte buffer

    A Go slice is modelled with its capacity: [buf_mem] is the memory from the
    start of the slice to the end of its capacity and [buf_len] its length, so
    that the difference between the unchecked readers (bounded by capacity) and
    the checked ones (bounded by length) can be stated.  [Position] is a uint64
    and wraps around. *)

From S2P Require Import Prelude.

Inductive byteops_error : Type :=
| ErrBufferOverrun
| ErrCopyFromBuffer
| ErrCopyToBuffer
| ErrEOF.

#[export] Instance byteops_error_eq_dec : EqDecision byteops_error.
Proof. solve_decision. Defined.

Record buffer : Type := Buf { buf_mem : list Z; buf_len : nat }.

#[export] Instance buffer_eq_dec : EqDecision buffer.
Proof. solve_decision. Defined.

Definition buf_cap (b : buffer) : nat := length (buf_mem b).
Definition buf_bytes (b : buffer) : list Z := take (buf_len b) (buf_mem b).
Definition buf_ok (b : buffer) : Prop := (buf_len b <= buf_cap b)%nat.
(** A buffer that owns exactly its bytes ([make([]byte, n)] and the like). *)
Definition buf_of (bs : list Z) : buffer := Buf bs (length bs).

(** [b[lo:hi]]: panics unless [lo <= hi <= cap(b)]. *)
Definition slice (b : buffer) (lo hi : Z) : outcome byteops_error buffer :=
  if (0 <=? lo) && (lo <=? hi) && (hi <=? Z.of_nat (buf_cap b))
  then Ok (Buf (drop (Z.to_nat lo) (buf_mem b)) (Z.to_nat (hi - lo)))
  else Panic.

(** [b[i]]: panics unless [i < len(b)]. *)
Definition index (b : buffer) (i : Z) : outcome byteops_error Z :=
  if (0 <=? i) && (i <? Z.of_nat (buf_len b))
  then Ok (nth (Z.to_nat i) (buf_mem b) 0) else Panic.

(** [binary.LittleEndian.UintNN(b)]: panics when [b] is shorter than [n] bytes. *)
Definition le_uint (n : nat) (b : buffer) : outcome byteops_error Z :=
  if decide (n <= buf_len b)%nat then Ok (le_combine (take n (buf_mem b))) else Panic.

Record ReadWriter : Type := RW { Position : Z; Buffer : buffer }.

#[export] Instance ReadWriter_eq_dec : EqDecision ReadWriter.
Proof. solve_decision. Defined.

Definition Uint64Len : Z := 8.
Definition Uint32Len : Z := 4.
Definition Uint16Len : Z := 2.
Definition Uint8Len : Z := 1.

Abbreviation rw_result A := (outcome byteops_error (A * ReadWriter)).

Definition NewReadWriter (buf : buffer) : ReadWriter := RW 0 buf.
Definition NewReadWriterWithPosition (buf : buffer) (pos : Z) : ReadWriter := RW pos buf.
Definition ResetBuffer (bo : ReadWriter) (buf : buffer) : ReadWriter := RW 0 buf.

(** [bo.Position += n] *)
Definition advance (bo : ReadWriter) (n : Z) : ReadWriter :=
  RW (u64 (Position bo + n)) (Buffer bo).

(** ** Unchecked readers *)

Definition ReadUint64 (bo : ReadWriter) : rw_result Z :=
  let bo := advance bo Uint64Len in
  let! s := slice (Buffer bo) (u64 (Position bo - Uint64Len)) (Position bo) in
  let! v := le_uint 8 s in Ok (v, bo).

Definition ReadUint16 (bo : ReadWriter) : rw_result Z :=
  let bo := advance bo Uint16Len in
  let! s := slice (Buffer bo) (u64 (Position bo - Uint16Len)) (Position bo) in
  let! v := le_uint 2 s in Ok (v, bo).

Definition ReadUint32 (bo : ReadWriter) : rw_result Z :=
  let bo := advance bo Uint32Len in
  let! s := slice (Buffer bo) (u64 (Position bo - Uint32Len)) (Position bo) in
  let! v := le_uint 4 s in Ok (v, bo).

Definition ReadUint8 (bo : ReadWriter) : rw_result Z :=
  let bo := advance bo Uint8Len in
  let! v := index (Buffer bo) (u64 (Position bo - Uint8Len)) in Ok (v, bo).

(** [copy(out, src)] into an [out] of [n] bytes: [min] of both lengths is copied. *)
Definition copy_into (out : list Z) (src : list Z) : list Z * nat :=
  let n := Nat.min (length out) (length src) in
  (take n src ++ drop n out, n).

Definition CopyBytesFromBuffer (bo : ReadWriter) (len : Z) (out : option (list Z))
  : rw_result (list Z) :=
  let out := match out with Some o => o | None => repeat 0 (Z.to_nat len) end in
  let bo := advance bo len in
  let! s := slice (Buffer bo) (u64 (Position bo - len)) (Position bo) in
  let '(out, n) := copy_into out (buf_bytes s) in
  if Z.of_nat n =? len then Ok (out, bo) else Err ErrCopyFromBuffer.

Definition ReadBytesFromBuffer (bo : ReadWriter) (len : Z) : rw_result buffer :=
  let! s := slice (Buffer bo) (Position bo) (u64 (Position bo + len)) in
  Ok (s, advance bo len).

Definition ReadBytesFromBufferWithUint64LengthIndicator (bo : ReadWriter) : rw_result buffer :=
  let! (bufLen, bo) := ReadUint64 bo in
  let bo := advance bo bufLen in
  let! s := slice (Buffer bo) (u64 (Position bo - bufLen)) (Position bo) in
  Ok (s, bo).

Definition DiscardBytesFromBufferWithUint64LengthIndicator (bo : ReadWriter) : rw_result Z :=
  let! (bufLen, bo) := ReadUint64 bo in
  Ok (bufLen, advance bo bufLen).

Definition ReadBytesFromBufferWithUint32LengthIndicator (bo : ReadWriter) : rw_result buffer :=
  let! (bufLen, bo) := ReadUint32 bo in
  let bo := advance bo bufLen in
  let! s := slice (Buffer bo) (u64 (Position bo - bufLen)) (Position bo) in
  Ok (s, bo).

Definition DiscardBytesFromBufferWithUint32LengthIndicator (bo : ReadWriter) : rw_result Z :=
  let! (bufLen, bo) := ReadUint32 bo in
  Ok (bufLen, advance bo bufLen).

(** ** Checked readers *)

Definition Remaining (bo : ReadWriter) : Z :=
  let len := Z.of_nat (buf_len (Buffer bo)) in
  if len <=? Position bo then 0 else u64 (len - Position bo).

Definition canRead (bo : ReadWriter) (len : Z) : bool :=
  let pos := Position bo in
  let size := Z.of_nat (buf_len (Buffer bo)) in
  (pos <=? size) && (len <=? u64 (size - pos)).

Definition ReadUint16Checked (bo : ReadWriter) : rw_result Z :=
  if negb (canRead bo Uint16Len) then Err ErrBufferOverrun else ReadUint16 bo.

Definition ReadUint32Checked (bo : ReadWriter) : rw_result Z :=
  if negb (canRead bo Uint32Len) then Err ErrBufferOverrun else ReadUint32 bo.

Definition ReadBytesFromBufferChecked (bo : ReadWriter) (len : Z) : rw_result buffer :=
  if negb (canRead bo len) then Err ErrBufferOverrun else ReadBytesFromBuffer bo len.

Definition CopyBytesFromBufferChecked (bo : ReadWriter) (len : Z) (out : option (list Z))
  : rw_result (list Z) :=
  if negb (canRead bo len) then Err ErrBufferOverrun else CopyBytesFromBuffer bo len out.

Definition ReadBytesFromBufferWithUint32LengthIndicatorChecked (bo : ReadWriter)
  : rw_result buffer :=
  let! (len, bo) := ReadUint32Checked bo in
  ReadBytesFromBufferChecked bo len.

Definition SkipChecked (bo : ReadWriter) (len : Z) : rw_result unit :=
  if negb (canRead bo len) then Err ErrBufferOverrun else Ok (tt, advance bo len).

(** ** Writers *)

(** Overwrite the slice [Buffer[lo:hi]] with [copy(slice, bs)]; the slice bounds
    are checked against the capacity, the bytes beyond them are kept. *)
Definition copy_to (bo : ReadWriter) (lo hi : Z) (bs : list Z)
  : outcome byteops_error (ReadWriter * nat) :=
  let! s := slice (Buffer bo) lo hi in
  let n := Nat.min (buf_len s) (length bs) in
  Ok (RW (Position bo)
         (Buf (write_at (buf_mem (Buffer bo)) (Z.to_nat lo) (take n bs))
              (buf_len (Buffer bo))), n).

(** [binary.LittleEndian.PutUintNN(Buffer[Position-n:Position], value)] after
    [Position += n]. *)
Definition put_uint (n : nat) (bo : ReadWriter) (value : Z) : rw_result unit :=
  let bo := advance bo (Z.of_nat n) in
  let! (bo', _) :=
    copy_to bo (u64 (Position bo - Z.of_nat n)) (Position bo) (le_split n value) in
  Ok (tt, bo').

Definition WriteUint64 (bo : ReadWriter) (value : Z) : rw_result unit := put_uint 8 bo value.
Definition WriteUint32 (bo : ReadWriter) (value : Z) : rw_result unit := put_uint 4 bo value.
Definition WriteUint16 (bo : ReadWriter) (value : Z) : rw_result unit := put_uint 2 bo value.

Definition CopyBytesToBuffer (bo : ReadWriter) (copyBytes : list Z) : rw_result unit :=
  let lenCopyBytes := u64 (Z.of_nat (length copyBytes)) in
  let bo := advance bo lenCopyBytes in
  let! (bo, n) := copy_to bo (u64 (Position bo - lenCopyBytes)) (Position bo) copyBytes in
  if Z.of_nat n =? lenCopyBytes then Ok (tt, bo) else Err ErrCopyToBuffer.

(** The [io.Writer] method: the position moves even when the write is refused. *)
Definition Write (bo : ReadWriter) (p : list Z)
  : outcome byteops_error (Z * option byteops_error * ReadWriter) :=
  let lenCopyBytes := u64 (Z.of_nat (length p)) in
  let bo := advance bo lenCopyBytes in
  if Z.of_nat (buf_len (Buffer bo)) <? Position bo then Ok (0, Some ErrEOF, bo)
  else let! (bo, n) := copy_to bo (u64 (Position bo - lenCopyBytes)) (Position bo) p in
       Ok (Z.of_nat n, None, bo).

Definition CopyBytesToBufferWithUint64LengthIndicator (bo : ReadWriter) (copyBytes : list Z)
  : rw_result unit :=
  let lenCopyBytes := u64 (Z.of_nat (length copyBytes)) in
  let! (_, bo) := put_uint 8 bo lenCopyBytes in
  let bo := advance bo lenCopyBytes in
  let! (bo, n) := copy_to bo (u64 (Position bo - lenCopyBytes)) (Position bo) copyBytes in
  if Z.of_nat n =? lenCopyBytes then Ok (tt, bo) else Err ErrCopyToBuffer.

Definition CopyBytesToBufferWithUint32LengthIndicator (bo : ReadWriter) (copyBytes : list Z)
  : rw_result unit :=
  let lenCopyBytes := u32 (Z.of_nat (length copyBytes)) in
  let! (_, bo) := put_uint 4 bo lenCopyBytes in
  let bo := advance bo lenCopyBytes in
  let! (bo, n) := copy_to bo (u64 (Position bo - lenCopyBytes)) (Position bo) copyBytes in
  if Z.of_nat n =? lenCopyBytes then Ok (tt, bo) else Err ErrCopyToBuffer.

Definition MoveBufferPositionForward (bo : ReadWriter) (len : Z) : ReadWriter := advance bo len.
Definition MoveBufferToAbsolutePosition (bo : ReadWriter) (pos : Z) : ReadWriter :=
  RW pos (Buffer bo).

Definition WriteByte (bo : ReadWriter) (b : Z) : rw_result unit :=
  let! _ := index (Buffer bo) (Position bo) in
  Ok (tt, advance (RW (Position bo)
                      (Buf (write_at (buf_mem (Buffer bo)) (Z.to_nat (Position bo)) [b])
                           (buf_len (Buffer bo)))) 1).

(** * Lemmas *)

(** Every Go slice has [len <= cap], and both are non-negative [int]s. *)
Definition go_buffer (b : buffer) : Prop :=
  buf_ok b /\ Z.of_nat (buf_cap b) < 2 ^ 63.

Lemma slice_mid p q r n :
  slice (Buf (p ++ q ++ r) n) (Z.of_nat (length p)) (Z.of_nat (length p) + Z.of_nat (length q))
  = Ok (Buf (q ++ r) (length q)).
Proof.
  unfold slice, buf_cap; simpl.
  rewrite !(proj2 (Z.leb_le _ _)) by (rewrite ?length_app; lia). simpl.
  rewrite Nat2Z.id, drop_app_length. do 2 f_equal. lia.
Qed.

Lemma copy_to_mid pos p q r n bs :
  length bs = length q ->
  copy_to (RW pos (Buf (p ++ q ++ r) n)) (Z.of_nat (length p))
          (Z.of_nat (length p) + Z.of_nat (length q)) bs
  = Ok (RW pos (Buf (p ++ bs ++ r) n), length bs).
Proof.
  intros H. unfold copy_to. cbn [Buffer Position]. rewrite slice_mid. simpl.
  rewrite <- H, Nat.min_id, firstn_all, Nat2Z.id, write_at_app by done. done.
Qed.

Lemma advance_pos_small (pos n : Z) b :
  0 <= pos -> 0 <= n -> pos + n < 2 ^ 64 -> advance (RW pos b) n = RW (pos + n) b.
Proof. intros. unfold advance; simpl. rewrite u64_small by (unfold is_u64; lia). done. Qed.

Lemma le_uint_app n v r m :
  (n <= m)%nat -> 0 <= v < 256 ^ Z.of_nat n ->
  le_uint n (Buf (le_split n v ++ r) m) = Ok v.
Proof.
  intros Hm Hv. unfold le_uint; simpl. rewrite decide_True by done.
  rewrite <- (length_le_split n v) at 1. rewrite take_app_length, le_combine_split by done.
  done.
Qed.

(** Reading back an [n]-byte integer that starts at the cursor. *)
Lemma read_uint_mid (n : nat) p v r m :
  Z.of_nat (length p) + Z.of_nat n < 2 ^ 64 -> 0 <= v < 256 ^ Z.of_nat n ->
  (let bo := advance (RW (Z.of_nat (length p)) (Buf (p ++ le_split n v ++ r) m)) (Z.of_nat n) in
   let! s := slice (Buffer bo) (u64 (Position bo - Z.of_nat n)) (Position bo) in
   let! x := le_uint n s in Ok (x, bo))
  = Ok (v, RW (Z.of_nat (length p + n)) (Buf (p ++ le_split n v ++ r) m)).
Proof.
  intros Hl Hv. rewrite advance_pos_small by lia. cbv zeta. cbn [Buffer Position].
  rewrite Z.add_simpl_r, u64_small by (unfold is_u64; lia).
  pose proof (slice_mid p (le_split n v) r m) as Hs.
  rewrite length_le_split in Hs. rewrite Hs. cbn [obind].
  rewrite le_uint_app by lia. cbn [obind]. rewrite Nat2Z.inj_add. done.
Qed.

Lemma ReadUint64_mid p v r m :
  Z.of_nat (length p) + 8 < 2 ^ 64 -> is_u64 v ->
  ReadUint64 (RW (Z.of_nat (length p)) (Buf (p ++ le_split 8 v ++ r) m))
  = Ok (v, RW (Z.of_nat (length p + 8)) (Buf (p ++ le_split 8 v ++ r) m)).
Proof. intros Hl Hv. apply (read_uint_mid 8); [lia|done]. Qed.

(** A length-prefixed block that starts at the cursor is read back whole. *)
Lemma read_block64_mid p q r m :
  Z.of_nat (length p) + 8 + Z.of_nat (length q) < 2 ^ 64 ->
  ReadBytesFromBufferWithUint64LengthIndicator
    (RW (Z.of_nat (length p)) (Buf (p ++ le_split 8 (Z.of_nat (length q)) ++ q ++ r) m))
  = Ok (Buf (q ++ r) (length q),
        RW (Z.of_nat (length p + 8 + length q))
           (Buf (p ++ le_split 8 (Z.of_nat (length q)) ++ q ++ r) m)).
Proof.
  intros Hl. unfold ReadBytesFromBufferWithUint64LengthIndicator.
  rewrite ReadUint64_mid by (unfold is_u64; lia). cbn [obind].
  rewrite advance_pos_small by lia. cbn [Buffer Position].
  rewrite Z.add_simpl_r, u64_small by (unfold is_u64; lia).
  rewrite app_assoc. pose proof (slice_mid (p ++ le_split 8 (Z.of_nat (length q))) q r m) as Hs.
  rewrite length_app, length_le_split in Hs. rewrite Hs. cbn [obind].
  do 3 f_equal. lia.
Qed.

Lemma discard_block64_mid p q r m :
  Z.of_nat (length p) + 8 + Z.of_nat (length q) < 2 ^ 64 ->
  DiscardBytesFromBufferWithUint64LengthIndicator
    (RW (Z.of_nat (length p)) (Buf (p ++ le_split 8 (Z.of_nat (length q)) ++ q ++ r) m))
  = Ok (Z.of_nat (length q),
        RW (Z.of_nat (length p + 8 + length q))
           (Buf (p ++ le_split 8 (Z.of_nat (length q)) ++ q ++ r) m)).
Proof.
  intros Hl. unfold DiscardBytesFromBufferWithUint64LengthIndicator.
  rewrite ReadUint64_mid by (unfold is_u64; lia). cbn [obind].
  rewrite advance_pos_small by lia. do 3 f_equal. lia.
Qed.

Lemma put_uint_mid n p q r m v :
  length q = n -> Z.of_nat (length p) + Z.of_nat n < 2 ^ 64 ->
  put_uint n (RW (Z.of_nat (length p)) (Buf (p ++ q ++ r) m)) v
  = Ok (tt, RW (Z.of_nat (length p + n)) (Buf (p ++ le_split n v ++ r) m)).
Proof.
  intros Hq Hl. unfold put_uint. rewrite advance_pos_small by lia. cbn [Position].
  rewrite Z.add_simpl_r, u64_small by (unfold is_u64; lia).
  rewrite <- Hq, copy_to_mid by (rewrite length_le_split; done). cbn [obind].
  rewrite Nat2Z.inj_add. done.
Qed.

(** Writing a length-prefixed block over [8 + length bs] bytes at the cursor. *)
Lemma write_block64_mid p h q r m bs :
  length h = 8%nat -> length q = length bs ->
  Z.of_nat (length p) + 8 + Z.of_nat (length bs) < 2 ^ 64 ->
  CopyBytesToBufferWithUint64LengthIndicator
    (RW (Z.of_nat (length p)) (Buf (p ++ h ++ q ++ r) m)) bs
  = Ok (tt, RW (Z.of_nat (length p + 8 + length bs))
               (Buf (p ++ le_split 8 (Z.of_nat (length bs)) ++ bs ++ r) m)).
Proof.
  intros Hh Hq Hl. unfold CopyBytesToBufferWithUint64LengthIndicator.
  rewrite (u64_small (Z.of_nat (length bs))) by (unfold is_u64; lia).
  rewrite put_uint_mid by lia. cbn [obind].
  rewrite advance_pos_small by lia. cbn [Position].
  rewrite Z.add_simpl_r, u64_small by (unfold is_u64; lia).
  rewrite app_assoc.
  set (pp := p ++ le_split 8 (Z.of_nat (length bs))).
  replace (Z.of_nat (length p + 8)) with (Z.of_nat (length pp)) by (subst pp; lens).
  rewrite <- Hq, copy_to_mid by done. cbn [obind]. rewrite Hq, Z.eqb_refl.
  subst pp. rewrite <- app_assoc. do 3 f_equal. lens.
Qed.

Lemma copy_bytes_mid p q r m bs :
  length q = length bs -> Z.of_nat (length p) + Z.of_nat (length bs) < 2 ^ 64 ->
  CopyBytesToBuffer (RW (Z.of_nat (length p)) (Buf (p ++ q ++ r) m)) bs
  = Ok (tt, RW (Z.of_nat (length p + length bs)) (Buf (p ++ bs ++ r) m)).
Proof.
  intros Hq Hl. unfold CopyBytesToBuffer.
  rewrite (u64_small (Z.of_nat (length bs))) by (unfold is_u64; lia).
  rewrite advance_pos_small by lia. cbn [Position].
  rewrite Z.add_simpl_r, u64_small by (unfold is_u64; lia).
  rewrite <- Hq, copy_to_mid by done. cbn [obind]. rewrite Hq, Z.eqb_refl.
  do 3 f_equal. lia.
Qed.

(** ** Checked reads *)

Lemma canRead_spec bo len :
  go_buffer (Buffer bo) -> is_u64 (Position bo) -> is_u64 len ->
  canRead bo len = true <-> Position bo + len <= Z.of_nat (buf_len (Buffer bo)).
Proof.
  intros [Hok Hcap] Hp Hlen. unfold canRead, buf_ok, is_u64 in *.
  rewrite andb_true_iff, !Z.leb_le. split.
  - intros [H1 H2]. rewrite u64_small in H2 by (unfold is_u64; lia). lia.
  - intros H. rewrite u64_small by (unfold is_u64; lia). lia.
Qed.

Lemma ReadBytesFromBufferChecked_ok bo len :
  go_buffer (Buffer bo) -> is_u64 (Position bo) -> is_u64 len ->
  Position bo + len <= Z.of_nat (buf_len (Buffer bo)) ->
  exists s, ReadBytesFromBufferChecked bo len = Ok (s, RW (Position bo + len) (Buffer bo))
    /\ buf_bytes s = take (Z.to_nat len) (drop (Z.to_nat (Position bo)) (buf_bytes (Buffer bo))).
Proof.
  intros Hg Hp Hl Hle. pose proof (canRead_spec bo len Hg Hp Hl) as Hc.
  destruct Hg as [Hok Hcap]. unfold buf_ok, is_u64 in *.
  unfold ReadBytesFromBufferChecked. rewrite (proj2 Hc Hle). simpl.
  unfold ReadBytesFromBuffer, slice.
  rewrite u64_small by (unfold is_u64; lia).
  rewrite !(proj2 (Z.leb_le _ _)) by lia. simpl.
  eexists; split.
  - f_equal. f_equal. destruct bo as [pos b]. apply advance_pos_small; simpl in *; lia.
  - unfold buf_bytes. simpl. rewrite skipn_firstn_comm, take_take.
    f_equal. lia.
Qed.

Lemma ReadUint32Checked_total bo :
  go_buffer (Buffer bo) -> is_u64 (Position bo) -> Forall is_byte (buf_mem (Buffer bo)) ->
  (ReadUint32Checked bo = Err ErrBufferOverrun) \/
  (exists v, ReadUint32Checked bo = Ok (v, RW (Position bo + 4) (Buffer bo))
     /\ is_u32 v /\ Position bo + 4 <= Z.of_nat (buf_len (Buffer bo))).
Proof.
  intros Hg Hp Hb. unfold ReadUint32Checked.
  pose proof (canRead_spec bo Uint32Len Hg Hp ltac:(unfold is_u64, Uint32Len; lia)) as Hc.
  destruct (canRead bo Uint32Len) eqn:E; [right|by left].
  simpl. destruct Hc as [Hc _]. specialize (Hc eq_refl). unfold Uint32Len in *.
  destruct bo as [pos b], Hg as [Hok Hcap]. unfold buf_ok, is_u64 in *. simpl in *.
  unfold ReadUint32, Uint32Len. rewrite advance_pos_small by lia. cbn [Position Buffer].
  rewrite Z.add_simpl_r, u64_small by (unfold is_u64; lia). unfold slice.
  rewrite !(proj2 (Z.leb_le _ _)) by lia. simpl.
  unfold le_uint. simpl. rewrite decide_True by lia. simpl.
  eexists; split; [done|]. split; [|lia].
  set (w := take 4 (drop (Z.to_nat pos) (buf_mem b))).
  assert (Hw : Forall is_byte w) by (apply Forall_take, Forall_drop; done).
  pose proof (le_combine_range w Hw).
  assert (length w = 4%nat) as Hlw.
  { subst w. unfold buf_cap in *. rewrite length_take, length_drop. lia. }
  rewrite Hlw in *. unfold is_u32. lia.
Qed.

(** Writing a block with its uint64 length indicator and reading it back
    from the same position returns exactly the bytes written, leaves both
    cursors just behind the block and every other byte of the buffer as it
    was. *)
Lemma block64_roundtrip (p h q r bs : list Z) (m : nat) :
  length h = 8%nat -> length q = length bs ->
  Z.of_nat (length p) + 8 + Z.of_nat (length bs) < 2 ^ 64 ->
  exists bo,
    CopyBytesToBufferWithUint64LengthIndicator
      (RW (Z.of_nat (length p)) (Buf (p ++ h ++ q ++ r) m)) bs = Ok (tt, bo)
    /\ take (length p) (buf_mem (Buffer bo)) = p
    /\ drop (length p + 8 + length bs) (buf_mem (Buffer bo)) = r
    /\ exists s,
         ReadBytesFromBufferWithUint64LengthIndicator
           (MoveBufferToAbsolutePosition bo (Z.of_nat (length p))) = Ok (s, bo)
         /\ buf_bytes s = bs.
Proof.
  intros Hh Hq Hl. rewrite write_block64_mid by done.
  eexists; split; [done|]. cbn [Buffer buf_mem MoveBufferToAbsolutePosition].
  split; [by rewrite take_app_length|]. split.
  - rewrite !app_assoc, drop_app_length'; [done|lens].
  - unfold MoveBufferToAbsolutePosition. cbn [Buffer].
    rewrite read_block64_mid by lia. eexists; split; [done|].
    unfold buf_bytes; simpl. by rewrite take_app_length.
Qed.

(** * Properties *)

(** A checked read never panics and never yields a byte beyond the
    buffer's length.  [ReadBytesFromBufferWithUint32LengthIndicatorChecked], whose length
    comes out of the (arbitrary) data itself, either reports
    [ErrBufferOverrun] or returns a sub-slice of the buffer's own bytes and
    leaves the cursor inside the buffer. *)
Lemma checked_block_read_safe (bo : ReadWriter) :
  go_buffer (Buffer bo) -> is_u64 (Position bo) -> Forall is_byte (buf_mem (Buffer bo)) ->
  ReadBytesFromBufferWithUint32LengthIndicatorChecked bo = Err ErrBufferOverrun \/
  exists s len pos',
    ReadBytesFromBufferWithUint32LengthIndicatorChecked bo = Ok (s, RW pos' (Buffer bo))
    /\ pos' = Position bo + 4 + Z.of_nat len
    /\ pos' <= Z.of_nat (buf_len (Buffer bo))
    /\ buf_bytes s =
       take len (drop (Z.to_nat (Position bo + 4)) (buf_bytes (Buffer bo))).
Proof.
  intros Hg Hp Hb. unfold ReadBytesFromBufferWithUint32LengthIndicatorChecked.
  destruct (ReadUint32Checked_total bo Hg Hp Hb) as [->|(v & -> & Hv & Hle)]; [by left|].
  cbn [obind]. set (bo' := RW (Position bo + 4) (Buffer bo)).
  assert (Hp' : is_u64 (Position bo')).
  { destruct Hg as [Hok Hcap]. unfold buf_ok, is_u64 in *. subst bo'. simpl. lia. }
  assert (Hv' : is_u64 v) by (unfold is_u64, is_u32 in *; lia).
  destruct (decide (Position bo' + v <= Z.of_nat (buf_len (Buffer bo')))) as [Hr|Hr].
  - right. destruct (ReadBytesFromBufferChecked_ok bo' v Hg Hp' Hv' Hr) as (s & -> & Hs).
    exists s, (Z.to_nat v), (Position bo' + v). subst bo'; simpl in *.
    unfold is_u32 in Hv. repeat split; [lia|lia|done].
  - left. unfold ReadBytesFromBufferChecked.
    destruct (canRead bo' v) eqn:E; [|done].
    by apply (canRead_spec bo' v Hg Hp' Hv') in E.
Qed.

Lemma checked_block_read_safe_witness :
  ReadBytesFromBufferWithUint32LengthIndicatorChecked
    (RW 0 (Buf [3; 0; 0; 0; 7; 8; 9; 1; 1] 7)) <> Panic.
Proof.
  destruct (checked_block_read_safe (RW 0 (Buf [3; 0; 0; 0; 7; 8; 9; 1; 1] 7)))
    as [->|(s & l & pos & -> & _)]; try discriminate.
  - split; vm_compute; [lia|done].
  - unfold is_u64; simpl; lia.
  - repeat constructor; unfold is_byte; lia.
Defined.
