(* ===== verification/Sroar.v ===== *)
(** * The interface of github.com/weaviate/sroar

    sroar is a third-party package, so a bitmap is a parameter of the model:
    [Sroar B] lists the operations the code calls and [SroarLaws B] what the
    code relies on.  A Go [*sroar.Bitmap] that may be nil is an [option B]:
    operands and the receivers of [Clone], [IsEmpty] and [ToBuffer] may be
    nil and then count as an empty bitmap (layers.go:83-88, 151-157, 198-203);
    a nil receiver of [Set], [And], [Or] or [AndNot] is a panic and is never
    built by the definitions.  In-place operations return the new contents of
    their receiver. *)

From S2P Require Import Prelude.

Class Sroar (B : Type) : Type := {
  bm_new : B;                              (* NewBitmap *)
  bm_set : B -> Z -> B;                    (* Set *)
  bm_and : B -> option B -> B;             (* And, AndConc *)
  bm_or : B -> option B -> B;              (* Or, OrConc *)
  bm_andnot : B -> option B -> B;          (* AndNot, AndNotConc *)
  bm_clone : option B -> B;                (* Clone *)
  bm_isempty : option B -> bool;           (* IsEmpty *)
  bm_tobuffer : option B -> list Z;        (* ToBuffer *)
  bm_frombuffer : list Z -> B;             (* FromBuffer, FromBufferWithCopy *)
  bm_elems : B -> gset Z                   (* the members, ToArray *)
}.

(** Members of a possibly-nil bitmap. *)
Definition oelems {B} `{Sroar B} (o : option B) : gset Z :=
  match o with Some b => bm_elems b | None => ∅ end.

Class SroarLaws (B : Type) `{Sroar B} : Prop := {
  elems_new : bm_elems bm_new = ∅;
  elems_set b z : bm_elems (bm_set b z) = {[z]} ∪ bm_elems b;
  elems_and b o : bm_elems (bm_and b o) = bm_elems b ∩ oelems o;
  elems_or b o : bm_elems (bm_or b o) = bm_elems b ∪ oelems o;
  elems_andnot b o : bm_elems (bm_andnot b o) = bm_elems b ∖ oelems o;
  elems_clone o : bm_elems (bm_clone o) = oelems o;
  isempty_spec o : bm_isempty o = true <-> oelems o = ∅;
  tobuffer_empty o : bm_tobuffer o = [] <-> oelems o = ∅;
  tobuffer_bytes o : Forall is_byte (bm_tobuffer o);
  elems_frombuffer o : bm_elems (bm_frombuffer (bm_tobuffer o)) = oelems o
}.

Create Rewrite HintDb bm.
#[export] Hint Rewrite @elems_new @elems_set @elems_and @elems_or @elems_andnot
  @elems_clone @elems_frombuffer using (apply _) : bm.

(** Normalise the members of a bitmap expression and solve the set goal. *)
Ltac bm_simpl := repeat progress (autorewrite with bm in *; cbn [oelems] in *).
Ltac bm_solver := bm_simpl; set_solver.

(** * Bitmaps built by a loop of [Set] *)

Section SetLoop.
Context {B : Type} `{SroarLaws B}.

Definition bm_setmany (b : B) (vs : list Z) : B := foldl bm_set b vs.

Lemma elems_setmany vs b : bm_elems (bm_setmany b vs) = bm_elems b ∪ list_to_set vs.
Proof.
  unfold bm_setmany. revert b; induction vs as [|v vs IH]; intros b; simpl.
  - set_solver.
  - rewrite IH, elems_set. set_solver.
Qed.

Lemma isempty_false o : bm_isempty o = false <-> oelems o <> ∅.
Proof. rewrite <- not_true_iff_false, isempty_spec. done. Qed.
End SetLoop.

(** * An executable instance: a bitmap is its set of members

    [ToBuffer] writes the countable encoding of the set in little-endian
    bytes; it only serves to show that the laws can hold together. *)

Module SetBitmap.
Definition to_buffer (s : gset Z) : list Z :=
  if decide (s = ∅) then []
  else let p := encode s in le_split (Pos.size_nat p) (Zpos p).

Definition from_buffer (bs : list Z) : gset Z :=
  match bs with
  | [] => ∅
  | _ => default ∅ (decode (Z.to_pos (le_combine bs)))
  end.

Lemma size_nat_bound p : Zpos p < 256 ^ Z.of_nat (Pos.size_nat p).
Proof.
  induction p as [p IH|p IH|]; cbn [Pos.size_nat];
    rewrite ?Nat2Z.inj_succ, ?Z.pow_succ_r by lia; try lia.
Qed.

Lemma from_to s : from_buffer (to_buffer s) = s.
Proof.
  unfold from_buffer, to_buffer. case_decide as E; [done|].
  set (p := encode s). pose proof (size_nat_bound p) as Hb.
  destruct (le_split (Pos.size_nat p) (Zpos p)) as [|z l] eqn:El.
  { exfalso. apply (f_equal length) in El. rewrite length_le_split in El.
    destruct p; discriminate. }
  rewrite <- El, le_combine_split by lia. simpl. subst p. by rewrite decode_encode.
Qed.

#[export] Instance gset_sroar : Sroar (gset Z) := {|
  bm_new := ∅;
  bm_set b z := {[z]} ∪ b;
  bm_and b o := b ∩ default ∅ o;
  bm_or b o := b ∪ default ∅ o;
  bm_andnot b o := b ∖ default ∅ o;
  bm_clone o := default ∅ o;
  bm_isempty o := bool_decide (default ∅ o = (∅ : gset Z));
  bm_tobuffer o := to_buffer (default ∅ o);
  bm_frombuffer := from_buffer;
  bm_elems b := b
|}.

Lemma oelems_default (o : option (gset Z)) : oelems o = default ∅ o.
Proof. by destruct o. Qed.

#[export] Instance gset_sroar_laws : SroarLaws (gset Z).
Proof.
  split; intros; rewrite ?oelems_default; cbn; try done.
  - apply bool_decide_eq_true.
  - unfold to_buffer. case_decide as E; [done|]. split; [|done].
    intros El. apply (f_equal length) in El. rewrite length_le_split in El.
    by destruct (encode (default ∅ o)).
  - unfold to_buffer. case_decide; [constructor|apply le_split_bytes].
  - apply from_to.
Qed.
End SetBitmap.
