(* ===== verification/RoaringSet.v ===== *)
(** * adapters/repos/db/roaringset: bitmap layers

    A layer is the delta one segment or memtable holds for a key; [Flatten],
    [LayerMerger] and [Merge] of layers.go combine layers.  The abstract
    reading of a layer is the function [apply_layer] on sets of ids. *)

From S2P Require Import Prelude Sroar.

Section Layers.
Context {B : Type} `{SroarLaws B}.

Record BitmapLayer : Type := Layer {
  Additions : option B;
  Deletions : option B
}.

Inductive layers_error : Type := ErrMergeTwoSegments.

(** helpers.go *)
Definition NewBitmap (values : list Z) : B := bm_setmany bm_new values.
Definition Condense (bm : option B) : B := bm_or bm_new bm.

(** layers.go *)
Definition Clone (l : BitmapLayer) : BitmapLayer :=
  Layer (match Additions l with Some a => Some (bm_clone (Some a)) | None => None end)
        (match Deletions l with Some d => Some (bm_clone (Some d)) | None => None end).

Definition LenInBytes (l : BitmapLayer) : Z :=
  Z.of_nat (length (bm_tobuffer (Additions l))) + Z.of_nat (length (bm_tobuffer (Deletions l))).

(** [if buf := b.ToBuffer(); len(buf) > 0 { FromBufferWithCopy(buf) }], nil otherwise *)
Definition copy_nonempty (o : option B) : option B :=
  match bm_tobuffer o with
  | [] => None
  | buf => Some (bm_frombuffer buf)
  end.

Definition CloneIfWithin (l : BitmapLayer) (budget : Z) : BitmapLayer * Z * bool :=
  let cost := LenInBytes l in
  if budget <? cost then (Layer None None, cost, false)
  else (Layer (copy_nonempty (Additions l)) (copy_nonempty (Deletions l)), cost, true).

(** One iteration of the fold: remove the deletions, then add the additions. *)
Definition fold_layer (merged : B) (l : BitmapLayer) : B :=
  bm_or (bm_andnot merged (Deletions l)) (Additions l).

Definition Flatten (clone : bool) (bml : list BitmapLayer) : B :=
  match bml with
  | [] => bm_new
  | l0 :: rest =>
      let merged :=
        if clone then bm_clone (Additions l0)
        else match Additions l0 with None => bm_new | Some b => b end in
      foldl fold_layer merged rest
  end.

Record LayerMerger : Type := Merger { merged : option B }.

Definition NewLayerMerger (base : option B) (clone : bool) : LayerMerger :=
  match base with
  | Some b => if clone then Merger (Some (bm_clone (Some b))) else Merger base
  | None => Merger base
  end.

Definition Add (m : LayerMerger) (layer : BitmapLayer) : LayerMerger :=
  match merged m with
  | None => Merger (Additions layer)
  | Some b => Merger (Some (fold_layer b layer))
  end.

Definition Result (m : LayerMerger) : B :=
  match merged m with None => bm_new | Some b => b end.

Definition Merge (bml : list BitmapLayer) : outcome layers_error BitmapLayer :=
  match bml with
  | [l; r] =>
      let additions := bm_clone (Additions l) in
      let additions := bm_andnot additions (Deletions r) in
      let additions := bm_or additions (Additions r) in
      let deletions := bm_clone (Deletions l) in
      let deletions := bm_andnot deletions (Additions r) in
      let deletions := bm_or deletions (Deletions r) in
      Ok (Layer (Some additions) (Some deletions))
  | _ => Err ErrMergeTwoSegments
  end.

(** ** Abstract reading *)

Definition adds (l : BitmapLayer) : gset Z := oelems (Additions l).
Definition dels (l : BitmapLayer) : gset Z := oelems (Deletions l).
Definition apply_layer (s : gset Z) (l : BitmapLayer) : gset Z := (s ∖ dels l) ∪ adds l.

(** The set a stack of layers, oldest first, stands for. *)
Definition flatten_spec (bml : list BitmapLayer) : gset Z := foldl apply_layer ∅ bml.

(** "An element is either a net addition or a net deletion in a layer." *)
Definition layer_wf (l : BitmapLayer) : Prop := adds l ## dels l.

(** ** Lemmas *)

Lemma elems_fold_layer m l : bm_elems (fold_layer m l) = apply_layer (bm_elems m) l.
Proof. unfold fold_layer, apply_layer, adds, dels. bm_solver. Qed.

Lemma elems_foldl_layers bml m :
  bm_elems (foldl fold_layer m bml) = foldl apply_layer (bm_elems m) bml.
Proof.
  revert m; induction bml as [|l bml IH]; intros m; simpl; [done|].
  by rewrite IH, elems_fold_layer.
Qed.

Lemma apply_layer_empty l : apply_layer ∅ l = adds l.
Proof. unfold apply_layer. set_solver. Qed.

Lemma Add_elems m l :
  oelems (merged (Add m l)) = apply_layer (oelems (merged m)) l.
Proof.
  unfold Add. destruct (merged m) as [b|] eqn:E; simpl.
  - apply elems_fold_layer.
  - by rewrite apply_layer_empty.
Qed.

Lemma foldl_Add_elems bml m :
  oelems (merged (foldl Add m bml)) = foldl apply_layer (oelems (merged m)) bml.
Proof.
  revert m; induction bml as [|l bml IH]; intros m; simpl; [done|].
  by rewrite IH, Add_elems.
Qed.

Lemma Result_elems m : bm_elems (Result m) = oelems (merged m).
Proof. unfold Result. destruct (merged m); simpl; bm_solver. Qed.

Lemma elems_Condense o : bm_elems (Condense o) = oelems o.
Proof. unfold Condense. bm_solver. Qed.

Lemma buffer_copy_spec (o : option B) :
  oelems (copy_nonempty o) = oelems o /\ (oelems o = ∅ <-> copy_nonempty o = None).
Proof.
  unfold copy_nonempty. pose proof (elems_frombuffer o) as Hf.
  pose proof (tobuffer_empty o) as [Ht1 Ht2].
  destruct (bm_tobuffer o) eqn:E; simpl.
  - specialize (Ht1 eq_refl). rewrite Ht1. done.
  - split; [done|]. split; [intros Ho; by apply Ht2 in Ho|done].
Qed.

Lemma merge_adds_dels l r m :
  Merge [l; r] = Ok m ->
  adds m = (adds l ∖ dels r) ∪ adds r /\ dels m = (dels l ∖ adds r) ∪ dels r.
Proof.
  unfold Merge. intros [= <-]. unfold adds, dels. simpl. bm_simpl. split; set_solver.
Qed.

Lemma apply_merge s l r m :
  Merge [l; r] = Ok m -> apply_layer s m = apply_layer (apply_layer s l) r.
Proof.
  intros Hm. apply merge_adds_dels in Hm as [Ha Hd].
  unfold apply_layer. rewrite Ha, Hd. apply set_eq. intros x.
  destruct (decide (x ∈ adds r)), (decide (x ∈ dels r)); set_solver.
Qed.

Lemma elems_Flatten clone bml : bm_elems (Flatten clone bml) = flatten_spec bml.
Proof.
  unfold flatten_spec. destruct bml as [|l bml]; [simpl; bm_solver|].
  cbn [Flatten foldl]. rewrite elems_foldl_layers, apply_layer_empty. f_equal.
  unfold adds. destruct clone; [bm_solver|]. destruct (Additions l); bm_solver.
Qed.

(** * Properties *)

(** Flattening a stack of layers yields exactly the set obtained by
    applying the deltas oldest-first, whether or not the first bitmap is
    cloned, and the incremental [LayerMerger], fed the same layers one at a
    time from a nil base, ends in a bitmap with the same members. *)
Lemma flatten_correct (clone : bool) (bml : list BitmapLayer) :
  bm_elems (Flatten clone bml) = flatten_spec bml /\
  bm_elems (Result (foldl Add (NewLayerMerger None clone) bml))
  = bm_elems (Flatten clone bml).
Proof.
  rewrite elems_Flatten. split; [done|].
  rewrite Result_elems, foldl_Add_elems. done.
Qed.

(** Compacting two neighbouring layers with [Merge], wherever in the stack
    they are, never changes what the stack flattens to, and keeps additions
    and deletions of the merged layer mutually exclusive. *)
Lemma merge_preserves_flatten (clone : bool) (below above : list BitmapLayer)
    (l r m : BitmapLayer) :
  Merge [l; r] = Ok m ->
  bm_elems (Flatten clone (below ++ [m] ++ above))
  = bm_elems (Flatten clone (below ++ [l; r] ++ above)) /\
  (layer_wf l -> layer_wf r -> layer_wf m).
Proof.
  intros Hm. split.
  - rewrite !elems_Flatten. unfold flatten_spec. rewrite !foldl_app. simpl.
    by rewrite (apply_merge _ _ _ _ Hm).
  - apply merge_adds_dels in Hm as [Ha Hd]. unfold layer_wf. rewrite Ha, Hd.
    set_solver.
Qed.

(** [CloneIfWithin] refuses exactly the layers whose serialised size
    exceeds the budget; otherwise the copy has the same members on both
    sides and an empty side of it is nil. *)
Lemma clone_if_within_spec (l : BitmapLayer) (budget : Z) :
  let '(c, cost, ok) := CloneIfWithin l budget in
  cost = LenInBytes l /\ (ok = true <-> cost <= budget) /\
  (ok = true -> adds c = adds l /\ dels c = dels l /\
                (adds l = ∅ <-> Additions c = None) /\ (dels l = ∅ <-> Deletions c = None)).
Proof.
  unfold CloneIfWithin. destruct (Z.ltb_spec budget (LenInBytes l)) as [Hlt|Hge].
  { split; [done|]. split; [split; [discriminate|lia]|discriminate]. }
  split; [done|]. split; [split; [lia|done]|]. intros _.
  destruct (buffer_copy_spec (Additions l)), (buffer_copy_spec (Deletions l)).
  unfold adds, dels. done.
Qed.
End Layers.
Arguments BitmapLayer B : clear implicits.

(** * Witnesses *)

Section Witnesses.
Import SetBitmap.
Definition wit_l1 : BitmapLayer (gset Z) := Layer (Some {[1; 2]}) None.
Definition wit_l2 : BitmapLayer (gset Z) := Layer (Some {[3]}) (Some {[2]}).
Definition wit_l3 : BitmapLayer (gset Z) := Layer None (Some {[3; 9]}).

Lemma flatten_correct_witness :
  bm_elems (Flatten false [wit_l1; wit_l2]) = flatten_spec [wit_l1; wit_l2] /\
  flatten_spec [wit_l1; wit_l2] = ({[1; 3]} : gset Z).
Proof. split; [apply (flatten_correct false [wit_l1; wit_l2])|vm_compute; reflexivity]. Defined.

Lemma merge_preserves_flatten_witness :
  exists m, Merge [wit_l2; wit_l3] = Ok m /\
    bm_elems (Flatten true [wit_l1; m]) = bm_elems (Flatten true [wit_l1; wit_l2; wit_l3]).
Proof.
  eexists; split; [reflexivity|].
  apply (merge_preserves_flatten true [wit_l1] [] wit_l2 wit_l3); reflexivity.
Defined.

Lemma clone_if_within_spec_witness :
  (CloneIfWithin wit_l3 1000).2 = true /\ LenInBytes wit_l3 <= 1000 .
Proof.
  pose proof (clone_if_within_spec wit_l3 1000) as Hc.
  assert (Hl : LenInBytes wit_l3 <= 1000) by (vm_compute; discriminate).
  destruct (CloneIfWithin wit_l3 1000) as [[c cost] ok]. destruct Hc as (-> & Hok & _).
  split; [apply Hok, Hl|exact Hl].
Defined.
End Witnesses.
