(* ===== verification/RangeSegment.v ===== *)
(** * adapters/repos/db/roaringsetrange: segment nodes and cursors

    [SegmentNode] is the byte layout of one key of a rangeable segment
    (segment_node.go); [SegmentCursorMmap] walks a payload of such nodes and
    [GaplessSegmentCursor] fills the keys a segment leaves out
    (segment_cursor.go).  [SegmentCursor] is the Go interface and
    [CursorLaws] its contract: readers and compactor are verified against it,
    and both cursors discharge it. *)

From S2P Require Import Prelude Sroar ByteOps RoaringSet.

Inductive range_error : Type :=
| ErrCtx                       (* ctx.Err() *)
| ErrOperator                  (* operator not supported *)
| ErrInvalidFirstKey           (* invalid first key of merged segment *)
| ErrInvalidKey (k : Z)        (* key exceeds the rangeable bitmap count *)
| ErrLeftMissingKey0
| ErrRightMissingKey0
| ErrNode (e : byteops_error). (* NewSegmentNode *)

#[export] Instance range_error_eq_dec : EqDecision range_error.
Proof. solve_decision. Defined.

Section Nodes.
Context {B : Type} `{SroarLaws B}.

Definition node : Type := Z * BitmapLayer B.
Definition empty_layer : BitmapLayer B := Layer None None.

(** ** segment_node.go *)

Record SegmentNode : Type := SN { data : buffer }.

Definition sn_Len (sn : SegmentNode) : outcome byteops_error Z :=
  let! s := slice (data sn) 0 8 in le_uint 8 s.

Definition sn_Key (sn : SegmentNode) : outcome byteops_error Z :=
  let rw := MoveBufferToAbsolutePosition (NewReadWriter (data sn)) 8 in
  let! (k, _) := ReadUint8 rw in Ok k.

Definition sn_Additions (sn : SegmentNode) : outcome byteops_error B :=
  let rw := MoveBufferToAbsolutePosition (NewReadWriter (data sn)) 9 in
  let! (buf, _) := ReadBytesFromBufferWithUint64LengthIndicator rw in
  Ok (bm_frombuffer (buf_bytes buf)).

Definition sn_Deletions (sn : SegmentNode) : outcome byteops_error (option B) :=
  let rw := MoveBufferToAbsolutePosition (NewReadWriter (data sn)) 8 in
  let! (key, rw) := ReadUint8 rw in
  if negb (key =? 0) then Ok None
  else
    let! (_, rw) := DiscardBytesFromBufferWithUint64LengthIndicator rw in
    let! (buf, _) := ReadBytesFromBufferWithUint64LengthIndicator rw in
    Ok (Some (bm_frombuffer (buf_bytes buf))).

(** [CopyBytesToBuffer([]byte{key})]'s error is discarded by the code; the
    in-range key write cannot fail, so its outcome is bound like the others. *)
Definition NewSegmentNode (key : Z) (additions deletions : option B)
  : outcome byteops_error SegmentNode :=
  let additionsBuf := bm_tobuffer additions in
  let expectedSize := (8 + 1 + 8 + length additionsBuf)%nat in
  let '(deletionsBuf, expectedSize) :=
    if key =? 0 then let d := bm_tobuffer deletions in (d, (expectedSize + (8 + length d))%nat)
    else ([], expectedSize) in
  let rw := NewReadWriter (buf_of (repeat 0 expectedSize)) in
  let rw := MoveBufferPositionForward rw 8 in
  let! (_, rw) := CopyBytesToBuffer rw [key] in
  let! (_, rw) := CopyBytesToBufferWithUint64LengthIndicator rw additionsBuf in
  let! (_, rw) := (if key =? 0 then CopyBytesToBufferWithUint64LengthIndicator rw deletionsBuf
                   else Ok (tt, rw)) in
  let offset := Position rw in
  let rw := MoveBufferToAbsolutePosition rw 0 in
  let! (_, rw) := WriteUint64 rw offset in
  Ok (SN (Buffer rw)).

Definition sn_ToBuffer (sn : SegmentNode) : outcome byteops_error buffer :=
  let! len := sn_Len sn in slice (data sn) 0 len.

Definition NewSegmentNodeFromBuffer (buf : buffer) : SegmentNode := SN buf.

(** ** segment_cursor.go *)

Class SegmentCursor (C : Type) : Type := {
  cur_First : C -> outcome range_error (Z * BitmapLayer B * bool * C);
  cur_Next : C -> outcome range_error (Z * BitmapLayer B * bool * C)
}.

(** [cur_inv c all rest]: the cursor [c] iterates over the nodes [all] and has
    [rest] of them still to come. *)
Class CursorLaws (C : Type) `{SegmentCursor C} : Type := {
  cur_inv : C -> list node -> list node -> Prop;
  first_nil c rest : cur_inv c [] rest ->
    exists c', cur_First c = Ok (0, empty_layer, false, c') /\ cur_inv c' [] [];
  first_cons c k l ns rest : cur_inv c ((k, l) :: ns) rest ->
    exists c', cur_First c = Ok (k, l, true, c') /\ cur_inv c' ((k, l) :: ns) ns;
  next_nil c all : cur_inv c all [] ->
    exists c', cur_Next c = Ok (0, empty_layer, false, c') /\ cur_inv c' all [];
  next_cons c all k l ns : cur_inv c all ((k, l) :: ns) ->
    exists c', cur_Next c = Ok (k, l, true, c') /\ cur_inv c' all ns
}.

(** *** SegmentCursorMmap *)

Record SegmentCursorMmap : Type := CursorMmap { mmap_data : buffer; nextOffset : Z }.

Definition NewSegmentCursorMmap (d : buffer) : SegmentCursorMmap := CursorMmap d 0.

Definition mmap_Next (c : SegmentCursorMmap)
  : outcome byteops_error (Z * BitmapLayer B * bool * SegmentCursorMmap) :=
  if Z.of_nat (buf_len (mmap_data c)) <=? nextOffset c
  then Ok (0, empty_layer, false, c)
  else
    let! rest := slice (mmap_data c) (nextOffset c) (Z.of_nat (buf_len (mmap_data c))) in
    let sn := NewSegmentNodeFromBuffer rest in
    let! len := sn_Len sn in
    let c := CursorMmap (mmap_data c) (u64 (nextOffset c + len)) in
    let! key := sn_Key sn in
    let! a := sn_Additions sn in
    let! d := sn_Deletions sn in
    Ok (key, Layer (Some a) d, true, c).

Definition mmap_First (c : SegmentCursorMmap)
  : outcome byteops_error (Z * BitmapLayer B * bool * SegmentCursorMmap) :=
  mmap_Next (CursorMmap (mmap_data c) 0).

#[export] Instance mmap_cursor : SegmentCursor SegmentCursorMmap := {|
  cur_First c := omap_err ErrNode (mmap_First c);
  cur_Next c := omap_err ErrNode (mmap_Next c)
|}.

(** *** GaplessSegmentCursor *)

Section Gapless.
Context {C : Type} `{SegmentCursor C}.

Record GaplessSegmentCursor : Type := Gapless {
  g_cursor : C;
  g_started : bool;
  g_key : Z;
  g_readKey : Z;
  g_readLayer : BitmapLayer B;
  g_readOk : bool
}.

Definition NewGaplessSegmentCursor (c : C) : GaplessSegmentCursor :=
  Gapless c false 0 0 empty_layer false.

Definition gapless_First (c : GaplessSegmentCursor)
  : outcome range_error (Z * BitmapLayer B * bool * GaplessSegmentCursor) :=
  let! (k, l, ok, cur) := cur_First (g_cursor c) in
  let c := Gapless cur true 1 k l ok in
  if ok && (k =? 0) then Ok (k, l, ok, c) else Ok (0, empty_layer, true, c).

(** [for c.readOk && c.readKey < c.key { ... = c.cursor.Next() }] *)
Fixpoint gapless_skip (fuel : nat) (c : GaplessSegmentCursor)
  : outcome range_error GaplessSegmentCursor :=
  if g_readOk c && (g_readKey c <? g_key c) then
    match fuel with
    | O => OutOfFuel
    | S fuel =>
        let! (k, l, ok, cur) := cur_Next (g_cursor c) in
        gapless_skip fuel (Gapless cur (g_started c) (g_key c) k l ok)
    end
  else Ok c.

(** The keys are uint8, so 256 rounds exhaust any increasing key sequence. *)
Definition gapless_fuel : nat := 256.

Definition gapless_Next (c : GaplessSegmentCursor)
  : outcome range_error (Z * BitmapLayer B * bool * GaplessSegmentCursor) :=
  if negb (g_started c) then gapless_First c
  else if 65 <=? g_key c then Ok (0, empty_layer, false, c)
  else
    let! c := gapless_skip gapless_fuel c in
    let currKey := g_key c in
    let c := Gapless (g_cursor c) (g_started c) (u8 (g_key c + 1))
                     (g_readKey c) (g_readLayer c) (g_readOk c) in
    if g_readOk c && (g_readKey c =? currKey)
    then Ok (currKey, g_readLayer c, true, c)
    else Ok (currKey, empty_layer, true, c).

#[export] Instance gapless_cursor : SegmentCursor GaplessSegmentCursor := {|
  cur_First := gapless_First;
  cur_Next := gapless_Next
|}.
End Gapless.
Arguments GaplessSegmentCursor C : clear implicits.

(** * The byte layout *)

Definition node_body (key : Z) (ab db : list Z) : list Z :=
  [key] ++ le_split 8 (Z.of_nat (length ab)) ++ ab ++
  (if key =? 0 then le_split 8 (Z.of_nat (length db)) ++ db else []).

Definition node_bytes (key : Z) (ab db : list Z) : list Z :=
  let body := node_body key ab db in
  le_split 8 (8 + Z.of_nat (length body)) ++ body.

Definition encode_node (n : node) : list Z :=
  node_bytes n.1 (bm_tobuffer (Additions n.2)) (bm_tobuffer (Deletions n.2)).

Definition encode_nodes (ns : list node) : list Z := concat (map encode_node ns).

(** What reading an encoded node gives back: both bitmaps rebuilt from their
    buffers, no deletions unless the key is 0. *)
Definition reload (n : node) : node :=
  (n.1, Layer (Some (bm_frombuffer (bm_tobuffer (Additions n.2))))
              (if n.1 =? 0 then Some (bm_frombuffer (bm_tobuffer (Deletions n.2))) else None)).

Lemma reload_adds n : adds (reload n).2 = adds n.2.
Proof. unfold adds, reload; simpl. apply elems_frombuffer. Qed.

Lemma reload_dels l : dels (reload (0, l)).2 = dels l.
Proof. unfold dels, reload; simpl. apply elems_frombuffer. Qed.

Lemma length_node_bytes key ab db :
  length (node_bytes key ab db) = (8 + length (node_body key ab db))%nat.
Proof. unfold node_bytes. rewrite length_app, length_le_split. done. Qed.

(** ** Encoding *)

Definition node_fits (n : node) : Prop := Z.of_nat (length (encode_node n)) < 2 ^ 63.

Lemma length_encode_node n :
  length (encode_node n) =
  (17 + length (bm_tobuffer (Additions n.2)) +
   if Z.eqb n.1 0 then 8 + length (bm_tobuffer (Deletions n.2)) else 0)%nat.
Proof.
  unfold encode_node. rewrite length_node_bytes. unfold node_body.
  destruct (Z.eqb n.1 0); lens.
Qed.

(** The key and the additions block, written over a zeroed prefix. *)
Lemma write_key_additions {A} key ab tail m (k : ReadWriter -> outcome byteops_error A) :
  Z.of_nat (length ab) + 17 < 2 ^ 64 ->
  (let! (_, rw) := CopyBytesToBuffer (RW 8 (Buf (repeat 0 (17 + length ab) ++ tail) m)) [key] in
   let! (_, rw) := CopyBytesToBufferWithUint64LengthIndicator rw ab in k rw)
  = k (RW (Z.of_nat (17 + length ab))
          (Buf (repeat 0 8 ++ [key] ++ le_split 8 (Z.of_nat (length ab)) ++ ab ++ tail) m)).
Proof.
  intros Hl.
  replace (repeat 0 (17 + length ab) ++ tail)
    with (repeat 0 8 ++ [0] ++ repeat 0 8 ++ repeat 0 (length ab) ++ tail)
    by (rewrite repeat_app; simpl; done).
  rewrite (copy_bytes_mid (repeat 0 8)) by (simpl; lia). cbn [obind].
  rewrite app_assoc, (write_block64_mid (repeat 0 8 ++ [key]))
    by (simpl; rewrite ?repeat_length; lia).
  cbn [obind]. rewrite <- !app_assoc. done.
Qed.

(** The total length, written last over the reserved first eight bytes. *)
Lemma write_total h body m v :
  length h = 8%nat ->
  WriteUint64 (RW 0 (Buf (h ++ body) m)) v = Ok (tt, RW 8 (Buf (le_split 8 v ++ body) m)).
Proof. intros Hh. apply (put_uint_mid 8 []); [done|simpl; lia]. Qed.

(** [NewSegmentNode] lays the node out as documented. *)
Lemma NewSegmentNode_encode key a d :
  node_fits (key, Layer a d) ->
  NewSegmentNode key a d = Ok (SN (buf_of (encode_node (key, Layer a d)))).
Proof.
  unfold node_fits. rewrite length_encode_node. cbn [fst snd Additions Deletions].
  intros Hfit. unfold NewSegmentNode, encode_node, node_bytes, node_body.
  cbn [fst snd Additions Deletions].
  set (ab := bm_tobuffer a) in *. set (db := bm_tobuffer d) in *.
  unfold buf_of, NewReadWriter, MoveBufferPositionForward, MoveBufferToAbsolutePosition.
  destruct (key =? 0) eqn:Ek; cbv beta iota zeta; rewrite advance_pos_small by lia;
    replace (8 + 1 + 8 + length ab)%nat with (17 + length ab)%nat by lia.
  - rewrite (repeat_app 0 (17 + length ab) (8 + length db)), (repeat_app 0 8 (length db)).
    rewrite write_key_additions by lia.
    set (body := [key] ++ le_split 8 (Z.of_nat (length ab)) ++ ab).
    rewrite <- (app_nil_r (repeat 0 (length db))).
    replace (repeat 0 8 ++ [key] ++ le_split 8 (Z.of_nat (length ab)) ++ ab ++ _)
      with ((repeat 0 8 ++ body) ++ repeat 0 8 ++ repeat 0 (length db) ++ [])
      by (subst body; by rewrite <- !app_assoc).
    assert (Hb : length (repeat 0 8 ++ body) = (17 + length ab)%nat) by (subst body; lens).
    rewrite <- Hb, write_block64_mid by (rewrite ?repeat_length; lia).
    cbn [obind Position Buffer]. rewrite <- app_assoc, write_total by done. cbn [obind Buffer].
    do 3 f_equal; [|lens]. subst body. rewrite <- !app_assoc, app_nil_r.
    f_equal. f_equal. lens.
  - rewrite <- (app_nil_r (repeat 0 (17 + length ab))), write_key_additions by lia.
    cbn [obind Position Buffer]. rewrite write_total by done. cbn [obind Buffer].
    do 3 f_equal; [|lens]. f_equal. f_equal. lens.
Qed.

(** ** Decoding *)

Lemma encode_node_unfold n :
  encode_node n = le_split 8 (Z.of_nat (length (encode_node n))) ++ [n.1] ++
    le_split 8 (Z.of_nat (length (bm_tobuffer (Additions n.2)))) ++ bm_tobuffer (Additions n.2) ++
    (if n.1 =? 0 then le_split 8 (Z.of_nat (length (bm_tobuffer (Deletions n.2)))) ++
                      bm_tobuffer (Deletions n.2) else []).
Proof.
  unfold encode_node at 1 2. rewrite length_node_bytes, Nat2Z.inj_add. done.
Qed.

Lemma slice_total v r m :
  slice (Buf (le_split 8 v ++ r) m) 0 8 = Ok (Buf (le_split 8 v ++ r) 8).
Proof. exact (slice_mid [] (le_split 8 v) r m). Qed.

Section Decode.
Context (n : node) (r : list Z) (m : nat).
Context (Hfit : node_fits n) (Hm : (length (encode_node n) <= m)%nat).
Let sn := SN (Buf (encode_node n ++ r) m).

Lemma sn_Len_encode : sn_Len sn = Ok (Z.of_nat (length (encode_node n))).
Proof.
  unfold sn_Len, sn. rewrite encode_node_unfold at 1. rewrite <- !app_assoc.
  cbn [data]. rewrite slice_total. cbn [obind].
  apply le_uint_app; [done|]. unfold node_fits in Hfit. lia.
Qed.

Lemma read_key_encode :
  ReadUint8 (RW 8 (data sn)) = Ok (n.1, RW 9 (data sn)).
Proof.
  unfold ReadUint8, Uint8Len. unfold sn. cbn [data]. rewrite advance_pos_small by lia.
  cbn [Buffer Position]. rewrite u64_small by (unfold is_u64; lia).
  change (8 + 1 - 1) with 8. unfold index. cbn [buf_len buf_mem].
  rewrite length_encode_node in Hm.
  rewrite (proj2 (Z.ltb_lt _ _)) by lia. cbn [andb Z.leb obind].
  rewrite encode_node_unfold. rewrite <- app_assoc, app_nth2 by lens.
  by rewrite length_le_split.
Qed.

Lemma sn_Key_encode : sn_Key sn = Ok n.1.
Proof.
  unfold sn_Key, MoveBufferToAbsolutePosition. cbn [Buffer NewReadWriter].
  by rewrite read_key_encode.
Qed.

Lemma sn_Additions_encode :
  sn_Additions sn = Ok (bm_frombuffer (bm_tobuffer (Additions n.2))).
Proof.
  unfold node_fits in Hfit. rewrite length_encode_node in Hfit.
  unfold sn_Additions, MoveBufferToAbsolutePosition, sn. cbn [Buffer NewReadWriter data].
  rewrite encode_node_unfold, <- !app_assoc, (app_assoc (le_split 8 _) [n.1]).
  rewrite (read_block64_mid (le_split 8 _ ++ [n.1])) by lens.
  cbn [obind]. unfold buf_bytes. cbn. by rewrite take_app_length.
Qed.

Lemma sn_Deletions_encode :
  sn_Deletions sn = Ok (if n.1 =? 0 then Some (bm_frombuffer (bm_tobuffer (Deletions n.2)))
                        else None).
Proof.
  unfold node_fits in Hfit. rewrite length_encode_node in Hfit.
  unfold sn_Deletions, MoveBufferToAbsolutePosition. cbn [Buffer NewReadWriter].
  rewrite read_key_encode. cbn [obind]. destruct (n.1 =? 0) eqn:Ek; [|done]. cbn [negb].
  unfold sn. cbn [data].
  rewrite encode_node_unfold, Ek, <- !app_assoc, (app_assoc (le_split 8 _) [n.1]).
  rewrite (discard_block64_mid (le_split 8 _ ++ [n.1])) by lens. cbn [obind].
  rewrite (app_assoc (le_split 8 (Z.of_nat (length (bm_tobuffer (Additions n.2)))))).
  rewrite (app_assoc (le_split 8 _ ++ [n.1])).
  match goal with |- context [Buf (?pre ++ le_split 8 (Z.of_nat (length (bm_tobuffer (Deletions _)))) ++ _)] =>
    replace (length (le_split 8 (Z.of_nat (length (encode_node n))) ++ [n.1]) + 8 +
             length (bm_tobuffer (Additions n.2)))%nat with (length pre) by lens
  end.
  rewrite read_block64_mid by lens.
  cbn [obind]. unfold buf_bytes. cbn. by rewrite take_app_length.
Qed.
End Decode.

Lemma encode_nodes_app ns ms : encode_nodes (ns ++ ms) = encode_nodes ns ++ encode_nodes ms.
Proof. unfold encode_nodes. by rewrite map_app, concat_app. Qed.

Lemma encode_nodes_cons n ns : encode_nodes (n :: ns) = encode_node n ++ encode_nodes ns.
Proof. done. Qed.

(** The payload of the nodes [pre ++ post], read up to [pre]; the mapping may
    continue behind the payload with other bytes ([junk]). *)
Definition mmap_inv (c : SegmentCursorMmap) (all rest : list node) : Prop :=
  exists pre post junk,
    all = map reload (pre ++ post) /\ rest = map reload post /\
    mmap_data c = Buf (encode_nodes (pre ++ post) ++ junk) (length (encode_nodes (pre ++ post))) /\
    nextOffset c = Z.of_nat (length (encode_nodes pre)) /\
    Z.of_nat (length (encode_nodes (pre ++ post))) < 2 ^ 63.

Lemma mmap_Next_spec c all rest :
  mmap_inv c all rest ->
  match rest with
  | [] => mmap_Next c = Ok (0, empty_layer, false, c)
  | (k, l) :: rest' => exists c', mmap_Next c = Ok (k, l, true, c') /\ mmap_inv c' all rest'
  end.
Proof.
  intros (pre & post & junk & -> & -> & Hd & Ho & Hs).
  rewrite encode_nodes_app in Hd, Hs. rewrite length_app in Hs.
  unfold mmap_Next. rewrite Hd, Ho. cbn [buf_len]. rewrite length_app.
  destruct post as [|n post]; cbn [map].
  - rewrite (proj2 (Z.leb_le _ _)) by (simpl; lia). done.
  - rewrite encode_nodes_cons, length_app in *.
    pose proof (length_encode_node n) as Hl.
    rewrite (proj2 (Z.leb_gt _ _)) by lia.
    set (es := encode_node n ++ encode_nodes post).
    rewrite <- app_assoc, <- (length_app (encode_node n)), Nat2Z.inj_add.
    fold es. rewrite slice_mid. cbn [obind]. unfold NewSegmentNodeFromBuffer.
    subst es. rewrite <- app_assoc.
    assert (Hf : node_fits n) by (unfold node_fits; lia).
    rewrite sn_Len_encode, sn_Key_encode, sn_Additions_encode, sn_Deletions_encode
      by (rewrite ?length_app; auto with lia).
    cbn [obind]. eexists; split; [reflexivity|].
    exists (pre ++ [n]), post, junk.
    replace ((pre ++ [n]) ++ post) with (pre ++ n :: post) by (rewrite <- app_assoc; done).
    rewrite !encode_nodes_app, !encode_nodes_cons. cbn [mmap_data nextOffset].
    split; [done|]. split; [done|]. split; [f_equal; [by rewrite <- !app_assoc|lens]|].
    split; [|lens].
    rewrite u64_small by (unfold is_u64; lia). simpl. rewrite app_nil_r. lens.
Qed.

#[export] Program Instance mmap_cursor_laws : CursorLaws SegmentCursorMmap := {|
  cur_inv := mmap_inv
|}.
Next Obligation.
  intros c rest (pre & post & junk & Hall & Hr & Hd & Ho & Hs).
  assert (Hi : mmap_inv (CursorMmap (mmap_data c) 0) [] []).
  { symmetry in Hall. apply map_eq_nil in Hall. exists [], [], junk.
    rewrite Hall in *. done. }
  eexists; split; [|exact Hi]. cbn. unfold mmap_First.
  by rewrite (mmap_Next_spec _ _ _ Hi).
Qed.
Next Obligation.
  intros c k l ns rest (pre & post & junk & Hall & Hr & Hd & Ho & Hs).
  assert (Hi : mmap_inv (CursorMmap (mmap_data c) 0) ((k, l) :: ns) ((k, l) :: ns)).
  { exists [], (pre ++ post), junk. done. }
  destruct (mmap_Next_spec _ _ _ Hi) as (c' & Hn & Hi'). exists c'. split; [|done].
  cbn. unfold mmap_First. by rewrite Hn.
Qed.
Next Obligation.
  intros c all Hi. exists c. split; [|done]. cbn. by rewrite (mmap_Next_spec _ _ _ Hi).
Qed.
Next Obligation.
  intros c all k l ns Hi. destruct (mmap_Next_spec _ _ _ Hi) as (c' & Hn & Hi').
  exists c'. split; [|done]. cbn. by rewrite Hn.
Qed.

(** ** The gapless view of a segment *)

(** The layer stored under [k]; a missing key reads as an empty layer. *)
Fixpoint layer_at (ns : list node) (k : Z) : BitmapLayer B :=
  match ns with
  | [] => empty_layer
  | n :: ns' => if n.1 =? k then n.2 else layer_at ns' k
  end.

Definition keys_sorted (ns : list node) : Prop := StronglySorted Z.lt (map fst ns).

Definition gapless_from (ns : list node) (j : Z) : list node :=
  map (fun k => (k, layer_at ns k)) (seqZ j (65 - j)).

Lemma layer_at_none ns k : (forall n, n ∈ ns -> n.1 <> k) -> layer_at ns k = empty_layer.
Proof.
  induction ns as [|n ns IH]; intros Hk; cbn; [done|].
  rewrite (proj2 (Z.eqb_neq _ _)) by (apply Hk; set_solver). set_solver.
Qed.

Lemma layer_at_app pre k l post :
  (forall n, n ∈ pre -> n.1 <> k) -> layer_at (pre ++ (k, l) :: post) k = l.
Proof.
  induction pre as [|n pre IH]; intros Hk; cbn.
  - by rewrite Z.eqb_refl.
  - rewrite (proj2 (Z.eqb_neq _ _)) by (apply Hk; set_solver). set_solver.
Qed.

Lemma sorted_app_lt (pre post : list node) n n' :
  keys_sorted (pre ++ post) -> n ∈ pre -> n' ∈ post -> n.1 < n'.1.
Proof.
  unfold keys_sorted. rewrite map_app.
  induction pre as [|a pre IH]; [set_solver|]. cbn [map app].
  intros Hs Hn Hn'. inversion Hs as [|? ? Hs' Hall]; subst.
  apply elem_of_cons in Hn as [->|Hn]; [|by apply IH].
  rewrite Forall_forall in Hall. apply Hall, elem_of_app. right.
  apply (list_elem_of_fmap_2 fst) in Hn'. exact Hn'.
Qed.

Lemma sorted_mid_lt pre x (rest : list node) n :
  keys_sorted (pre ++ x :: rest) -> n ∈ rest -> x.1 < n.1.
Proof.
  intros Hs. apply (sorted_app_lt (pre ++ [x]) rest); [|set_solver].
  rewrite <- app_assoc. done.
Qed.

Section GaplessLaws.
Context {C : Type} `{CursorLaws C}.

(** Position of the inner cursor when the next key to return is [j]. *)
Definition gapless_at (c : GaplessSegmentCursor C) (ns : list node) (j : Z) : Prop :=
  g_started c = true /\ g_key c = j /\ 1 <= j <= 65 /\ keys_sorted ns /\
  exists rest, cur_inv (g_cursor c) ns rest /\
    if g_readOk c then
      exists pre, ns = pre ++ (g_readKey c, g_readLayer c) :: rest /\
        (forall n, n ∈ pre -> n.1 < j) /\ j - 1 <= g_readKey c
    else rest = [] /\ (forall n, n ∈ ns -> n.1 < j).

Lemma gapless_skip_stop f (c : GaplessSegmentCursor C) :
  g_readOk c && (g_readKey c <? g_key c) = false -> gapless_skip f c = Ok c.
Proof. intros Hc. destruct f; cbn; by rewrite Hc. Qed.

(** The skip loop stops at the first key that is not below [j]. *)
Lemma gapless_skip_spec f c ns j :
  gapless_at c ns j ->
  exists c', gapless_skip (S f) c = Ok c' /\
    g_started c' = true /\ g_key c' = j /\ keys_sorted ns /\
    exists rest, cur_inv (g_cursor c') ns rest /\
      if g_readOk c' then
        exists pre, ns = pre ++ (g_readKey c', g_readLayer c') :: rest /\
          (forall n, n ∈ pre -> n.1 < j) /\ j <= g_readKey c'
      else rest = [] /\ (forall n, n ∈ ns -> n.1 < j).
Proof.
  intros (Hst & Hk & Hj & Hs & rest & Hi & Hr).
  destruct (g_readOk c) eqn:Eok;
    [|exists c; rewrite gapless_skip_stop, Eok by (by rewrite Eok); eauto 10].
  destruct Hr as (pre & Hns & Hpre & Hge).
  destruct (Z.ltb_spec (g_readKey c) (g_key c)) as [Hlt|Hnlt];
    [|exists c; rewrite gapless_skip_stop, Eok by (by rewrite Eok, (proj2 (Z.ltb_ge _ _)));
      repeat split; auto; exists rest; split; auto; exists pre; repeat split; auto; lia].
  cbn [gapless_skip].
  rewrite Eok, (proj2 (Z.ltb_lt _ _)) by lia. cbn [andb].
  destruct rest as [|[k l] rest'].
  - destruct (next_nil _ _ Hi) as (cur' & Hn & Hi'). rewrite Hn. cbn [obind].
    rewrite gapless_skip_stop by done.
    eexists; split; [done|]. cbn. repeat split; auto. exists []. split; [done|].
    split; [done|]. intros n. rewrite Hns. intros [Hin|Hin]%elem_of_app; [auto|].
    apply list_elem_of_singleton in Hin as ->. simpl. lia.
  - destruct (next_cons _ _ _ _ _ Hi) as (cur' & Hn & Hi'). rewrite Hn. cbn [obind].
    assert (Hkl : g_readKey c < k).
    { rewrite Hns in Hs. apply (sorted_mid_lt _ _ _ (k, l) Hs). set_solver. }
    rewrite gapless_skip_stop by (cbn; apply Z.ltb_ge; lia).
    eexists; split; [done|]. cbn. repeat split; auto. exists rest'. split; [done|].
    exists (pre ++ [(g_readKey c, g_readLayer c)]). rewrite <- app_assoc. repeat split; [done| |lia].
    intros n [Hin|Hin]%elem_of_app; [auto|].
    apply list_elem_of_singleton in Hin as ->. simpl. lia.
Qed.

Lemma gapless_Next_spec c ns j :
  gapless_at c ns j ->
  if decide (j < 65) then
    exists c', gapless_Next c = Ok (j, layer_at ns j, true, c') /\ gapless_at c' ns (j + 1)
  else gapless_Next c = Ok (0, empty_layer, false, c).
Proof.
  intros Hat. pose proof Hat as (Hst & Hk & Hj & Hs & _).
  unfold gapless_Next. rewrite Hst, Hk. cbn [negb].
  case_decide; [|by rewrite (proj2 (Z.leb_le _ _)) by lia].
  rewrite (proj2 (Z.leb_gt _ _)) by lia.
  change gapless_fuel with (S 255).
  destruct (gapless_skip_spec 255 c ns j Hat) as (c' & -> & Hst' & Hk' & _ & rest & Hi & Hr).
  cbn [obind g_readOk g_readKey g_readLayer g_key]. rewrite Hk', Hst'.
  assert (Hu : u8 (j + 1) = j + 1) by (apply Z.mod_small; lia).
  assert (Hnext : gapless_at (Gapless (g_cursor c') true (u8 (j + 1)) (g_readKey c')
                                (g_readLayer c') (g_readOk c')) ns (j + 1)).
  { repeat split; cbn; auto; try lia. exists rest. split; [done|].
    destruct (g_readOk c').
    - destruct Hr as (pre & ? & Hpre & ?). exists pre. repeat split; auto; [|lia].
      intros n Hn. specialize (Hpre n Hn). lia.
    - destruct Hr as [? Hn]. split; [done|]. intros n Hin. specialize (Hn n Hin). lia. }
  destruct (g_readOk c'); cbn [andb].
  - destruct Hr as (pre & Hns & Hpre & Hge).
    destruct (Z.eqb_spec (g_readKey c') j) as [Heq|Hne].
    + eexists; split; [|exact Hnext]. rewrite <- Heq, Hns, layer_at_app; [done|].
      intros n Hn. specialize (Hpre n Hn). lia.
    + eexists; split; [|exact Hnext]. rewrite layer_at_none; [done|].
      rewrite Hns. intros n [Hn|[->|Hn]%elem_of_cons]%elem_of_app.
      * specialize (Hpre n Hn). lia.
      * done.
      * rewrite Hns in Hs. pose proof (sorted_mid_lt _ _ _ n Hs Hn). simpl in *. lia.
  - destruct Hr as [-> Hn]. eexists; split; [|exact Hnext].
    rewrite layer_at_none; [done|]. intros n Hin. specialize (Hn n Hin). lia.
Qed.

Definition keys_nonneg (ns : list node) : Prop := Forall (fun n => 0 <= n.1) ns.

Definition gapless_inv (c : GaplessSegmentCursor C) (all rest : list node) : Prop :=
  exists ns, keys_sorted ns /\ keys_nonneg ns /\ all = gapless_from ns 0 /\
    ((g_started c = false /\ rest = all /\ exists r, cur_inv (g_cursor c) ns r) \/
     exists j, gapless_at c ns j /\ rest = gapless_from ns j).

Lemma gapless_from_cons ns j :
  j < 65 -> gapless_from ns j = (j, layer_at ns j) :: gapless_from ns (j + 1).
Proof.
  intros Hj. unfold gapless_from. rewrite (seqZ_cons j) by lia. cbn [map].
  do 3 f_equal; lia.
Qed.

Lemma gapless_inv_inner c all rest :
  gapless_inv c all rest ->
  exists ns r, keys_sorted ns /\ keys_nonneg ns /\ all = gapless_from ns 0 /\
    cur_inv (g_cursor c) ns r.
Proof.
  intros (ns & Hs & Hn & Hall & [(_ & _ & r & Hr)|(j & (_ & _ & _ & _ & r & Hr & _) & _)]);
    eauto 10.
Qed.

Lemma gapless_First_spec c ns r :
  keys_sorted ns -> keys_nonneg ns -> cur_inv (g_cursor c) ns r ->
  exists c', gapless_First c = Ok (0, layer_at ns 0, true, c') /\ gapless_at c' ns 1.
Proof.
  intros Hs Hn Hi. unfold gapless_First. destruct ns as [|[k l] ns].
  - destruct (first_nil _ _ Hi) as (cur' & -> & Hi'). cbn [obind andb].
    eexists; split; [done|]. repeat split; cbn; auto; try lia.
    exists []. split; [done|]. split; [done|]. set_solver.
  - destruct (first_cons _ _ _ _ _ Hi) as (cur' & -> & Hi'). cbn [obind andb].
    inversion Hn as [|? ? Hk _]; subst. cbn in Hk.
    assert (Hat : gapless_at (Gapless cur' true 1 k l true) ((k, l) :: ns) 1).
    { repeat split; cbn; auto; try lia. exists ns. split; [done|].
      exists []. repeat split; [set_solver|lia]. }
    destruct (Z.eqb_spec k 0) as [->|Hne].
    + eexists; split; [|exact Hat]. done.
    + eexists; split; [|exact Hat]. rewrite layer_at_none; [done|].
      intros n [->|Hin]%elem_of_cons; [done|].
      pose proof (sorted_mid_lt [] (k, l) ns n Hs Hin). simpl in *. lia.
Qed.

#[export] Program Instance gapless_cursor_laws : CursorLaws (GaplessSegmentCursor C) := {|
  cur_inv := gapless_inv
|}.
Next Obligation.
  intros c rest (ns & _ & _ & Hall & _). by rewrite gapless_from_cons in Hall by lia.
Qed.
Next Obligation.
  intros c k l ns' rest Hinv. apply gapless_inv_inner in Hinv as (ns & r & Hs & Hn & Hall & Hi).
  destruct (gapless_First_spec c ns r Hs Hn Hi) as (c' & Hf & Hat).
  rewrite Hall. rewrite gapless_from_cons in Hall by lia. simplify_eq.
  exists c'. split; [done|]. exists ns. repeat split; auto. right. exists 1. done.
Qed.
Next Obligation.
  intros c all (ns & Hs & Hn & Hall & [(_ & Hr & _)|(j & Hat & Hr)]).
  - rewrite <- Hr in Hall. by rewrite gapless_from_cons in Hall by lia.
  - pose proof (gapless_Next_spec c ns j Hat) as Hnx. case_decide as Hj.
    + by rewrite gapless_from_cons in Hr by lia.
    + exists c. split; [done|]. exists ns. eauto 10.
Qed.
Next Obligation.
  intros c all k l rest (ns & Hs & Hn & Hall & [(Hst & Hr & r & Hi)|(j & Hat & Hr)]).
  - destruct (gapless_First_spec c ns r Hs Hn Hi) as (c' & Hf & Hat).
    rewrite <- Hr in Hall. rewrite gapless_from_cons in Hall by lia. simplify_eq.
    exists c'. split; [cbn; unfold gapless_Next; by rewrite Hst|].
    exists ns. rewrite (gapless_from_cons ns 0) by lia. repeat split; auto.
    right. exists 1. done.
  - pose proof (gapless_Next_spec c ns j Hat) as Hnx. case_decide as Hj.
    + destruct Hnx as (c' & Hnx & Hat'). rewrite gapless_from_cons in Hr by lia.
      simplify_eq. exists c'. split; [done|]. exists ns. eauto 10.
    + exfalso. destruct Hat as (_ & _ & Hj' & _). replace j with 65 in Hr by lia. done.
Qed.
End GaplessLaws.

(** A fresh gapless cursor over any cursor of [ns] delivers keys 0 to 64. *)
Lemma gapless_new {C} `{CursorLaws C} (c : C) ns r :
  keys_sorted ns -> keys_nonneg ns -> cur_inv c ns r ->
  cur_inv (NewGaplessSegmentCursor c) (gapless_from ns 0) (gapless_from ns 0).
Proof. intros. exists ns. repeat split; auto. left. eauto. Qed.

(** ** Iterating to the end *)

Section Drain.
Context {C : Type} `{SegmentCursor C}.

(** [for k, l, ok := c.Next(); ok; k, l, ok = c.Next() { yield }] *)
Fixpoint next_all (fuel : nat) (c : C) : outcome range_error (list node * C) :=
  match fuel with
  | O => OutOfFuel
  | S fuel =>
      let! (k, l, ok, c) := cur_Next c in
      if (ok : bool) then
        let! (ns, c) := next_all fuel c in Ok ((k, l) :: ns, c)
      else Ok ([], c)
  end.

(** The same loop started with [First]. *)
Definition read_all (fuel : nat) (c : C) : outcome range_error (list node * C) :=
  let! (k, l, ok, c) := cur_First c in
  if (ok : bool) then let! (ns, c) := next_all fuel c in Ok ((k, l) :: ns, c)
  else Ok ([], c).

Context `{!CursorLaws C}.

Lemma next_all_spec rest : forall fuel c all,
  cur_inv c all rest -> (length rest < fuel)%nat ->
  exists c', next_all fuel c = Ok (rest, c') /\ cur_inv c' all [].
Proof.
  induction rest as [|[k l] rest IH]; intros fuel c all Hi Hf;
    (destruct fuel as [|fuel]; [simpl in Hf; lia|]); cbn [next_all].
  - destruct (next_nil _ _ Hi) as (c' & -> & Hi'). cbn. eauto.
  - destruct (next_cons _ _ _ _ _ Hi) as (c' & -> & Hi'). cbn [obind].
    destruct (IH fuel c' all Hi') as (c'' & -> & Hi''); [simpl in Hf; lia|]. cbn. eauto.
Qed.

Lemma read_all_spec fuel c all rest :
  cur_inv c all rest -> (length all <= fuel)%nat -> (0 < fuel)%nat ->
  exists c', read_all fuel c = Ok (all, c') /\ cur_inv c' all [].
Proof.
  intros Hi Hf H0f. unfold read_all. destruct all as [|[k l] ns].
  - destruct (first_nil _ _ Hi) as (c' & -> & Hi'). cbn. eauto.
  - destruct (first_cons _ _ _ _ _ Hi) as (c' & -> & Hi'). cbn [obind].
    destruct (next_all_spec ns fuel c' _ Hi') as (c'' & -> & Hi''); [simpl in Hf; lia|].
    cbn. eauto.
Qed.
End Drain.

(** ** Writing a payload

    Each node is built by [NewSegmentNode] and its [ToBuffer] appended, as the
    memtable flush and the compactor do. *)

Fixpoint write_nodes (ns : list node) : outcome byteops_error (list Z) :=
  match ns with
  | [] => Ok []
  | (k, l) :: ns =>
      let! sn := NewSegmentNode k (Additions l) (Deletions l) in
      let! buf := sn_ToBuffer sn in
      let! rest := write_nodes ns in
      Ok (buf_bytes buf ++ rest)
  end.

Definition nodes_fit (ns : list node) : Prop := Z.of_nat (length (encode_nodes ns)) < 2 ^ 63.

Lemma sn_ToBuffer_encode n :
  node_fits n -> sn_ToBuffer (SN (buf_of (encode_node n))) = Ok (buf_of (encode_node n)).
Proof.
  intros Hf. unfold sn_ToBuffer, buf_of.
  pose proof (sn_Len_encode n [] (length (encode_node n)) Hf) as Hl. rewrite app_nil_r in Hl.
  rewrite Hl by lia. cbn [obind data].
  pose proof (slice_mid [] (encode_node n) [] (length (encode_node n))) as Hs.
  rewrite app_nil_r in Hs. exact Hs.
Qed.

Lemma write_nodes_encode ns : nodes_fit ns -> write_nodes ns = Ok (encode_nodes ns).
Proof.
  unfold nodes_fit. induction ns as [|[k l] ns IH]; intros Hf; [done|].
  cbn [write_nodes]. rewrite encode_nodes_cons, length_app in Hf.
  destruct l as [a d]. cbn [Additions Deletions].
  rewrite NewSegmentNode_encode by (unfold node_fits; lia). cbn [obind].
  rewrite sn_ToBuffer_encode by (unfold node_fits; lia). cbn [obind].
  rewrite IH by lia. cbn [obind]. unfold buf_bytes, buf_of. cbn.
  by rewrite firstn_all.
Qed.

(** A node read back from disk: same key, same members on both sides; the
    deletions of a key other than 0 are not stored. *)
Definition same_node (n m : node) : Prop :=
  m.1 = n.1 /\ adds m.2 = adds n.2 /\
  (if decide (n.1 = 0) then dels m.2 = dels n.2 else Deletions m.2 = None).

Lemma same_node_reload n : same_node n (reload n).
Proof.
  split; [done|]. split; [apply reload_adds|]. destruct n as [k l]. cbn.
  case_decide as E; subst; [apply reload_dels|].
  by rewrite (proj2 (Z.eqb_neq _ _) E).
Qed.

Lemma mmap_inv_new ns junk :
  nodes_fit ns ->
  mmap_inv (NewSegmentCursorMmap (Buf (encode_nodes ns ++ junk) (length (encode_nodes ns))))
           (map reload ns) (map reload ns).
Proof. intros Hf. exists [], ns, junk. repeat split; auto. Qed.

(** * Properties *)

(** A payload written node by node with [NewSegmentNode]/[ToBuffer] and
    read with [SegmentCursorMmap] comes back complete and in order: [First]
    followed by [Next] until it reports the end yields every node with its
    key, additions and (for key 0) deletions, whatever bytes follow the
    payload in the mapping, and without a panic. *)
Lemma segment_payload_roundtrip (ns : list node) (junk : list Z) :
  nodes_fit ns ->
  exists bytes ns' c',
    write_nodes ns = Ok bytes /\
    read_all (S (length ns)) (NewSegmentCursorMmap (Buf (bytes ++ junk) (length bytes)))
    = Ok (ns', c') /\
    Forall2 same_node ns ns'.
Proof.
  intros Hf. exists (encode_nodes ns), (map reload ns).
  pose proof (read_all_spec (S (length ns)) _ _ _ (mmap_inv_new ns junk Hf)) as Hr.
  rewrite length_map in Hr. destruct Hr as (c' & Hr & _); [lia|lia|].
  exists c'. split; [by apply write_nodes_encode|]. split; [exact Hr|].
  clear Hr Hf. induction ns as [|n ns IH]; [by constructor|].
  constructor; [apply same_node_reload|exact IH].
Qed.

(** A [GaplessSegmentCursor] over any cursor of a segment with increasing
    keys delivers exactly the 65 keys 0..64 in order, each with the layer the
    segment stores for it or an empty layer when it stores none, and then
    ends; no key is skipped or repeated. *)
Lemma gapless_complete {C : Type} `{CursorLaws C} (c : C) (ns rest : list node) :
  keys_sorted ns -> keys_nonneg ns -> cur_inv c ns rest ->
  exists c', read_all 65 (NewGaplessSegmentCursor c)
    = Ok (map (fun k => (k, layer_at ns k)) (seqZ 0 65), c').
Proof.
  intros Hs Hn Hi.
  destruct (read_all_spec (C := GaplessSegmentCursor C) 65 _ _ _ (gapless_new c ns rest Hs Hn Hi))
    as (c' & Hr & _); [done|lia|]. eauto.
Qed.
End Nodes.
Arguments node B : clear implicits.
Arguments GaplessSegmentCursor B C : clear implicits.
Arguments SegmentCursor B C : clear implicits.
Arguments CursorLaws B C {_}.

(** * Witnesses *)

Section Witnesses.
Import SetBitmap.
Definition wit_two_nodes : list (node (gset Z)) :=
  [(0, Layer (Some {[5]}) (Some {[5; 7]})); (3, Layer (Some {[5]}) None)].

Lemma segment_payload_roundtrip_witness :
  exists bytes ns' c', write_nodes wit_two_nodes = Ok bytes /\
    read_all (B := gset Z) 3 (NewSegmentCursorMmap (Buf (bytes ++ [1; 2; 3; 4]) (length bytes)))
    = Ok (ns', c') /\ Forall2 same_node wit_two_nodes ns'.
Proof. apply (segment_payload_roundtrip wit_two_nodes [1; 2; 3; 4]). vm_compute. reflexivity. Defined.

Lemma gapless_complete_witness :
  exists c', read_all (B := gset Z) 65 (NewGaplessSegmentCursor
               (NewSegmentCursorMmap (Buf (encode_nodes wit_two_nodes ++ []) (length (encode_nodes wit_two_nodes)))))
    = Ok (map (fun k => (k, layer_at (map reload wit_two_nodes) k)) (seqZ 0 65), c').
Proof.
  apply (gapless_complete _ (map reload wit_two_nodes) (map reload wit_two_nodes)).
  - repeat constructor.
  - repeat constructor; discriminate.
  - apply mmap_inv_new. vm_compute. reflexivity.
Defined.
End Witnesses.
