(* ===== verification/RangeMemtable.v ===== *)
(** * adapters/repos/db/roaringsetrange/memtable.go and memtable_reader.go

    The rangeable memtable (one value per document id), the nodes it is
    flushed as, and its reader.  The abstract view of a memtable or segment is
    a [delta]: the ids it assigns a value and the ids whose older values it
    hides.  [segment_rep] relates a list of nodes (bit-sliced bitmaps) to the
    delta it stands for.

    A Go [range] over a map visits the entries in an unspecified order; the
    loops run over [map_to_list], and every statement about them is about the
    members of the bitmaps built, which do not depend on the order. *)

From S2P Require Import Prelude Sroar ByteOps RoaringSet RangeSegment.

(** entities/filters/filters.go *)
Inductive Operator : Type :=
| OperatorEqual
| OperatorNotEqual
| OperatorGreaterThan
| OperatorGreaterThanEqual
| OperatorLessThan
| OperatorLessThanEqual
| OperatorAnd
| OperatorOr
| OperatorWithinGeoRange
| OperatorLike
| OperatorIsNull
| ContainsAny
| ContainsAll
| ContainsNone
| OperatorNot.

#[export] Instance Operator_eq_dec : EqDecision Operator.
Proof. solve_decision. Defined.

(** The comparison a rangeable read supports, if any: stored key against value. *)
Definition compare_op (op : Operator) : option (Z -> Z -> bool) :=
  match op with
  | OperatorEqual => Some (fun k v => k =? v)
  | OperatorNotEqual => Some (fun k v => negb (k =? v))
  | OperatorLessThan => Some (fun k v => k <? v)
  | OperatorLessThanEqual => Some (fun k v => k <=? v)
  | OperatorGreaterThan => Some (fun k v => v <? k)
  | OperatorGreaterThanEqual => Some (fun k v => v <=? k)
  | _ => None
  end.

(** What [ctx.Err()] answers while a read runs: never cancelled, cancelled
    before the read starts, or cancelled while the nodes are streamed, after
    [n] of them were delivered. *)
Inductive context : Type :=
| CtxLive
| CtxCancelled
| CtxCancelledAfter (n : nat).

Definition ctx_err_on_entry (ctx : context) : bool :=
  match ctx with CtxCancelled => true | _ => false end.

(** ** Deltas *)

Record delta : Type := Delta { d_adds : gmap Z Z; d_dels : gset Z }.

Definition apply_delta (m : gmap Z Z) (d : delta) : gmap Z Z :=
  d_adds d ∪ filter (fun kv => kv.1 ∉ d_dels d) m.

(** A later delta on top of an earlier one, as one delta. *)
Definition compose_delta (d1 d2 : delta) : delta :=
  Delta (apply_delta (d_adds d1) d2) (d_dels d1 ∪ d_dels d2).

(** Every id a delta assigns is also hidden in older layers. *)
Definition delta_ok (d : delta) : Prop := dom (d_adds d) ⊆ d_dels d.

Definition matching (f : Z -> bool) (m : gmap Z Z) : gset Z :=
  dom (filter (fun kv => f kv.2 = true) m).

Lemma elem_of_matching f m d :
  d ∈ matching f m <-> exists k, m !! d = Some k /\ f k = true.
Proof.
  unfold matching. rewrite elem_of_dom. unfold is_Some.
  setoid_rewrite map_lookup_filter_Some. done.
Qed.

Lemma matching_subseteq f m : matching f m ⊆ dom m.
Proof. apply dom_filter_subseteq. Qed.

Lemma lookup_apply_delta m d i k :
  apply_delta m d !! i = Some k <->
  d_adds d !! i = Some k \/ (d_adds d !! i = None /\ i ∉ d_dels d /\ m !! i = Some k).
Proof.
  unfold apply_delta. rewrite lookup_union_Some_raw, map_lookup_filter_Some. simpl. naive_solver.
Qed.

(** Reading a comparison from a stack is reading it layer by layer. *)
Lemma matching_apply f m d :
  delta_ok d ->
  matching f (apply_delta m d) = (matching f m ∖ d_dels d) ∪ matching f (d_adds d).
Proof.
  intros Hok. apply set_eq. intros i.
  rewrite elem_of_union, elem_of_difference, !elem_of_matching.
  setoid_rewrite lookup_apply_delta. split.
  - intros (k & [Ha|(Hn & Hd & Hm)] & Hf); [right|left]; eauto.
  - intros [[(k & Hm & Hf) Hd]|(k & Ha & Hf)]; [|eauto].
    exists k. split; [right|done]. split; [|done].
    apply not_elem_of_dom. set_solver.
Qed.

Lemma compose_delta_ok d1 d2 : delta_ok d1 -> delta_ok d2 -> delta_ok (compose_delta d1 d2).
Proof.
  unfold delta_ok. intros H1 H2. cbn. intros i. rewrite elem_of_dom. intros [k Hk].
  apply lookup_apply_delta in Hk as [Hk|(_ & _ & Hk)]; apply elem_of_dom_2 in Hk; set_solver.
Qed.

Lemma apply_compose m d1 d2 :
  delta_ok d2 ->
  apply_delta m (compose_delta d1 d2) = apply_delta (apply_delta m d1) d2.
Proof.
  intros H2. apply map_eq. intros i. apply option_eq. intros k.
  rewrite !lookup_apply_delta. cbn. rewrite elem_of_union.
  destruct (apply_delta (d_adds d1) d2 !! i) as [x|] eqn:E.
  - pose proof E as E'. apply lookup_apply_delta in E'. naive_solver.
  - assert (En : ~ exists x, apply_delta (d_adds d1) d2 !! i = Some x) by (intros [x Hx]; congruence).
    setoid_rewrite lookup_apply_delta in En.
    destruct (d_adds d2 !! i) as [y|] eqn:E2; [exfalso; apply En; eauto|].
    destruct (d_adds d1 !! i) as [z|] eqn:E1.
    + assert (i ∈ d_dels d2) by (destruct (decide (i ∈ d_dels d2)); [done|exfalso; apply En; eauto 10]).
      naive_solver.
    + naive_solver.
Qed.

Section Rep.
Context {B : Type} `{SroarLaws B}.

(** The nodes [ns] of a segment stand for the delta [d]: key 0 holds the
    assigned ids and the hidden ids, key [b+1] the ids whose value has bit
    [b] set. *)
Record segment_rep (ns : list (node B)) (d : delta) : Prop := {
  rep_sorted : keys_sorted ns;
  rep_keys : Forall (fun n => 0 <= n.1 <= 64) ns;
  rep_first : forall k l ns', ns = (k, l) :: ns' -> k = 0;
  rep_adds : adds (layer_at ns 0) = dom (d_adds d);
  rep_dels : dels (layer_at ns 0) = d_dels d;
  rep_bits : forall b i, 0 <= b < 64 ->
    i ∈ adds (layer_at ns (b + 1)) <->
    exists k, d_adds d !! i = Some k /\ Z.testbit k b = true;
  rep_u64 : forall i k, d_adds d !! i = Some k -> is_u64 k
}.

Lemma rep_nonneg ns d : segment_rep ns d -> keys_nonneg ns.
Proof. intros Hr. eapply Forall_impl; [apply (rep_keys _ _ Hr)|]. simpl. lia. Qed.

Lemma rep_empty : segment_rep [] (Delta ∅ ∅).
Proof.
  split; cbn.
  - constructor.
  - constructor.
  - done.
  - unfold adds; simpl. by rewrite dom_empty_L.
  - done.
  - intros b i _. unfold adds; simpl. split; [set_solver|]. intros (k & Hk & _).
    by rewrite lookup_empty in Hk.
  - intros i k. by rewrite lookup_empty.
Qed.

(** ** memtable.go *)

Record Memtable : Type := MT { additions : gmap Z Z; deletions : gset Z }.

Definition NewMemtable : Memtable := MT ∅ ∅.

Definition mt_Insert (m : Memtable) (key : Z) (values : list Z) : Memtable :=
  match values with
  | [] => m
  | _ => MT (foldl (fun a v => <[v := key]> a) (additions m) values) (deletions m)
  end.

Definition mt_Delete (m : Memtable) (key : Z) (values : list Z) : Memtable :=
  match values with
  | [] => m
  | _ => foldl (fun m v => MT (delete v (additions m)) ({[v]} ∪ deletions m)) m values
  end.

Definition mt_Clone (m : Memtable) : Memtable := MT (additions m) (deletions m).

(** [range m.additions], [range m.deletions] *)
Definition entries (m : Memtable) : list (Z * Z) := map_to_list (additions m).
Definition deleted (m : Memtable) : list Z := elements (deletions m).

Definition mt_Additions (m : Memtable) : gmap Z B :=
  foldl (fun acc '(v, k) =>
           match acc !! k with
           | Some bm => <[k := bm_set bm v]> acc
           | None => <[k := NewBitmap [v]]> acc
           end) ∅ (entries m).

Definition mt_Deletions (m : Memtable) : B :=
  let dels := foldl bm_set bm_new (deleted m) in
  foldl (fun b '(v, _) => bm_set b v) dels (entries m).

Record MemtableNode : Type := MNode {
  mn_Key : Z;
  mn_Additions : B;
  mn_Deletions : option B
}.

Definition routines : Z := 8.

(** [bitsAdditions[bit].Set(value)], allocating on first use *)
Definition set_in (value : Z) (o : option B) : option B :=
  Some (bm_set (match o with Some b => b | None => bm_new end) value).

(** [for bit := firstBit; bit < 64; bit += routines] *)
Definition worker_bits (firstBit : Z) : list Z :=
  map (fun j => firstBit + routines * j) (seqZ 0 ((64 - firstBit + routines - 1) / routines)).

Definition fillBitsAdditions (m : Memtable) (firstBit : Z) (arr : list (option B))
  : list (option B) :=
  foldl (fun arr '(value, key) =>
    foldl (fun arr bit =>
      if bit_set key bit then alter (set_in value) (Z.to_nat bit) arr else arr)
      arr (worker_bits firstBit)) arr (entries m).

(** The seven background workers and the calling goroutine own disjoint bits
    (see [worker_bits_own]), so they can be run one after the other. *)
Definition bitsAdditions (m : Memtable) : list (option B) :=
  foldl (fun arr i => fillBitsAdditions m i arr) (replicate 64 None) (seqZ 0 routines).

Definition mt_Nodes (m : Memtable) : list MemtableNode :=
  if decide (additions m = ∅ /\ deletions m = ∅) then []
  else
    let nnDeletions := foldl bm_set bm_new (deleted m) in
    let '(nnDeletions, nnAdditions) :=
      foldl (fun '(d, a) '(v, _) => (bm_set d v, bm_set a v)) (nnDeletions, bm_new) (entries m) in
    MNode 0 nnAdditions (Some nnDeletions) ::
    omap (fun '(bit, o) => match (o : option B) with
                           | Some b => Some (MNode (u8 bit + 1) b None)
                           | None => None
                           end)
         (zip (seqZ 0 64) (bitsAdditions m)).

(** The layer written for a memtable node. *)
Definition mnode_node (n : MemtableNode) : node B :=
  (mn_Key n, Layer (Some (mn_Additions n)) (mn_Deletions n)).

(** The delta a memtable stands for. *)
Definition memtable_delta (m : Memtable) : delta :=
  Delta (additions m) (deletions m ∪ dom (additions m)).

(** ** memtable_reader.go *)

Definition mr_read (m : Memtable) (predicate : Z -> bool) : BitmapLayer B :=
  let '(a, d) :=
    foldl (fun '(a, d) '(v, k) => (if predicate k then bm_set a v else a, bm_set d v))
          (bm_new, bm_new) (entries m) in
  let d := foldl bm_set d (deleted m) in
  Layer (Some a) (Some d).

Definition mr_Read (m : Memtable) (ctx : context) (value : Z) (operator : Operator)
  : outcome range_error (BitmapLayer B) :=
  if ctx_err_on_entry ctx then Err ErrCtx
  else match operator with
       | OperatorEqual => Ok (mr_read m (fun k => k =? value))
       | OperatorNotEqual => Ok (mr_read m (fun k => negb (k =? value)))
       | OperatorLessThan => Ok (mr_read m (fun k => k <? value))
       | OperatorLessThanEqual => Ok (mr_read m (fun k => k <=? value))
       | OperatorGreaterThan => Ok (mr_read m (fun k => value <? k))
       | OperatorGreaterThanEqual => Ok (mr_read m (fun k => value <=? k))
       | _ => Err ErrOperator
       end.

(** * Lemmas *)

Lemma entries_fst m : list_to_set (entries m).*1 = dom (additions m).
Proof.
  apply set_eq. intros i. rewrite elem_of_list_to_set, list_elem_of_fmap, elem_of_dom.
  unfold entries. split.
  - intros ([v k] & -> & Hin). apply elem_of_map_to_list in Hin. simpl. eauto.
  - intros [k Hk]. exists (i, k). split; [done|]. by apply elem_of_map_to_list.
Qed.

Lemma deleted_set m : list_to_set (deleted m) = deletions m.
Proof. unfold deleted. by rewrite list_to_set_elements_L. Qed.

Lemma elems_fold_set l (b : B) :
  bm_elems (foldl bm_set b l) = bm_elems b ∪ list_to_set l.
Proof. apply elems_setmany. Qed.

Lemma fold_set_fst (l : list (Z * Z)) (b : B) :
  foldl (fun b '(v, _) => bm_set b v) b l = foldl bm_set b l.*1.
Proof. revert b; induction l as [|[v k] l IH]; intros b; simpl; auto. Qed.

Lemma nn_fold (l : list (Z * Z)) (d a : B) :
  foldl (fun '(d, a) '(v, _) => (bm_set d v, bm_set a v)) (d, a) l
  = (foldl bm_set d l.*1, foldl bm_set a l.*1).
Proof. revert d a; induction l as [|[v k] l IH]; intros d a; simpl; auto. Qed.

Lemma elems_mr_additions (p : Z -> bool) (l : list (Z * Z)) (a d : B) :
  foldl (fun '(a, d) '(v, k) => (if p k then bm_set a v else a, bm_set d v)) (a, d) l
  = (foldl bm_set a (filter (fun vk => p vk.2 = true) l).*1, foldl bm_set d l.*1).
Proof.
  revert a d; induction l as [|[v k] l IH]; intros a d; [done|].
  cbn [foldl fmap list_fmap]. rewrite IH, filter_cons. cbn [snd].
  destruct (p k); [rewrite decide_True by done|rewrite decide_False by done]; done.
Qed.

Lemma entries_matching (p : Z -> bool) m :
  list_to_set (filter (fun vk => p vk.2 = true) (entries m)).*1 = matching p (additions m).
Proof.
  apply set_eq. intros i.
  rewrite elem_of_list_to_set, list_elem_of_fmap, elem_of_matching. unfold entries. split.
  - intros ([v k] & -> & Hin). apply list_elem_of_filter in Hin as [Hp Hin].
    apply elem_of_map_to_list in Hin. simpl in *. eauto.
  - intros (k & Hk & Hp). exists (i, k). split; [done|].
    apply list_elem_of_filter. split; [done|]. by apply elem_of_map_to_list.
Qed.

Lemma mr_read_spec m p :
  adds (mr_read m p) = matching p (additions m) /\
  dels (mr_read m p) = d_dels (memtable_delta m).
Proof.
  unfold mr_read. rewrite elems_mr_additions. unfold adds, dels. simpl.
  rewrite !elems_fold_set, entries_matching, entries_fst, deleted_set. bm_simpl.
  split; set_solver.
Qed.

(** ** The bit workers *)

(** What one array slot accumulates over the entries. *)
Definition bit_fold (bit : Z) (l : list (Z * Z)) (o : option B) : option B :=
  foldl (fun o '(v, k) => if bit_set k bit then set_in v o else o) o l.

Lemma elems_bit_fold bit l : forall o i,
  i ∈ oelems (bit_fold bit l o) <->
  i ∈ oelems o \/ exists k, (i, k) ∈ l /\ bit_set k bit = true.
Proof.
  unfold bit_fold. induction l as [|[v k] l IH]; intros o i; cbn [foldl].
  - set_solver.
  - rewrite IH. setoid_rewrite elem_of_cons.
    destruct (bit_set k bit) eqn:E; cycle 1.
    { split; [intros [Hi|(k0 & Hin & Hb)]; eauto|].
      intros [Hi|(k0 & [Heq|Hin] & Hb)]; [by left| |right; eauto].
      simplify_eq. congruence. }
    assert (Hs : oelems (set_in v o) = {[v]} ∪ oelems o)
      by (unfold set_in; destruct o; simpl; bm_solver).
    rewrite Hs, elem_of_union, elem_of_singleton. split.
    + intros [[->|Hi]|(k0 & Hin & Hb)]; eauto.
    + intros [Hi|(k0 & [Heq|Hin] & Hb)]; [by left; right| |right; eauto].
      simplify_eq. left; by left.
Qed.

Lemma fold_bits_lookup key (g : option B -> option B) bits : forall (arr : list (option B)) n,
  NoDup bits -> Forall (fun b => 0 <= b) bits ->
  foldl (fun arr bit => if bit_set key bit then alter g (Z.to_nat bit) arr else arr) arr bits !! n
  = if decide (Z.of_nat n ∈ bits) then
      (if bit_set key (Z.of_nat n) then g <$> arr !! n else arr !! n)
    else arr !! n.
Proof.
  induction bits as [|b bits IH]; intros arr n Hd Hp; cbn [foldl].
  { by rewrite decide_False by set_solver. }
  inversion_clear Hd as [|? ? Hnb Hd']. inversion_clear Hp as [|? ? Hb Hp'].
  rewrite IH by done. destruct (decide (b = Z.of_nat n)) as [->|Hne].
  - rewrite (decide_False (P := Z.of_nat n ∈ bits)) by done.
    rewrite decide_True by set_solver.
    destruct (bit_set key (Z.of_nat n)); [|done]. by rewrite Nat2Z.id, list_lookup_alter_eq.
  - assert (Hl : (if bit_set key b then alter g (Z.to_nat b) arr else arr) !! n = arr !! n).
    { destruct (bit_set key b); [|done]. apply list_lookup_alter_ne. lia. }
    rewrite Hl. destruct (decide (Z.of_nat n ∈ bits)).
    + by rewrite decide_True by set_solver.
    + by rewrite decide_False by set_solver.
Qed.

Lemma worker_bits_own f b :
  0 <= f < routines -> b ∈ worker_bits f <-> 0 <= b < 64 /\ b mod routines = f.
Proof.
  unfold worker_bits, routines. intros Hf. rewrite list_elem_of_fmap. setoid_rewrite elem_of_seqZ.
  split.
  - intros (j & -> & Hj). rewrite Z.mul_comm, Z.mod_add, Z.mod_small by lia.
    assert ((64 - f + 8 - 1) / 8 = 8) as Hq; [|lia].
    symmetry. apply (Z.div_unique _ 8 8 (7 - f)); lia.
  - intros [Hb Hm]. exists (b / 8). pose proof (Z.div_mod b 8). split; [lia|].
    assert ((64 - f + 8 - 1) / 8 = 8) as ->.
    { symmetry. apply (Z.div_unique _ 8 8 (7 - f)); lia. }
    split; [apply Z.div_pos; lia|apply Z.div_lt_upper_bound; lia].
Qed.

Lemma worker_bits_nodup f : NoDup (worker_bits f).
Proof. unfold worker_bits, routines. apply NoDup_fmap_2; [intros x y; lia|apply NoDup_seqZ]. Qed.

Lemma worker_bits_nonneg f : 0 <= f < routines -> Forall (fun b => 0 <= b) (worker_bits f).
Proof. intros Hf. apply Forall_forall. intros b Hb. apply worker_bits_own in Hb; lia. Qed.

Lemma fill_lookup l f : forall (arr : list (option B)) n,
  0 <= f < routines ->
  foldl (fun arr '(value, key) =>
    foldl (fun arr bit =>
      if bit_set key bit then alter (set_in value) (Z.to_nat bit) arr else arr)
      arr (worker_bits f)) arr l !! n
  = if decide (Z.of_nat n ∈ worker_bits f) then bit_fold (Z.of_nat n) l <$> arr !! n
    else arr !! n.
Proof.
  induction l as [|[v k] l IH]; intros arr n Hf; cbn [foldl].
  - destruct (decide _); [|done]. by destruct (arr !! n).
  - rewrite IH, fold_bits_lookup by auto using worker_bits_nodup, worker_bits_nonneg.
    destruct (decide _); [|done]. unfold bit_fold. cbn [foldl].
    destruct (bit_set k (Z.of_nat n)), (arr !! n); done.
Qed.

Lemma bitsAdditions_lookup m n :
  (n < 64)%nat ->
  bitsAdditions m !! n = Some (bit_fold (Z.of_nat n) (entries m) None).
Proof.
  intros Hn. unfold bitsAdditions.
  set (b := Z.of_nat n). set (P := fun arr : list (option B) => arr !! n).
  assert (Hstep : forall js arr, NoDup js -> Forall (fun j => 0 <= j < routines) js ->
    foldl (fun arr i => fillBitsAdditions m i arr) arr js !! n
    = if decide (b mod routines ∈ js) then bit_fold b (entries m) <$> arr !! n else arr !! n).
  { induction js as [|j js IH]; intros arr Hd Hj; cbn [foldl].
    { by rewrite decide_False by set_solver. }
    inversion_clear Hd as [|? ? Hnj Hd']. inversion_clear Hj as [|? ? Hj' Hjs].
    rewrite IH by done. unfold fillBitsAdditions. rewrite fill_lookup by done. fold b.
    assert (Hown : b ∈ worker_bits j <-> b mod routines = j).
    { rewrite worker_bits_own by done. subst b. lia. }
    destruct (decide (b mod routines ∈ js)), (decide (b ∈ worker_bits j)),
      (decide (b mod routines ∈ j :: js)); try set_solver; done. }
  rewrite Hstep.
  - rewrite decide_True.
    + by rewrite lookup_replicate_2 by lia.
    + apply elem_of_seqZ. unfold routines. pose proof (Z.mod_pos_bound b 8). lia.
  - apply NoDup_seqZ.
  - apply Forall_forall. intros j Hj. apply elem_of_seqZ in Hj. lia.
Qed.

Lemma length_bitsAdditions m : length (bitsAdditions m) = 64%nat.
Proof.
  unfold bitsAdditions.
  assert (Hf : forall f arr, length (fillBitsAdditions m f arr) = length arr).
  { intros f arr. unfold fillBitsAdditions. revert arr.
    induction (entries m) as [|[v k] l IH]; intros arr; [done|]. cbn [foldl]. rewrite IH.
    generalize (worker_bits f). intros bits. revert arr.
    induction bits as [|b bits IHb]; intros arr; [done|]. cbn [foldl]. rewrite IHb.
    destruct (bit_set k b); [apply length_alter|done]. }
  generalize (seqZ 0 routines). intros js. rewrite <- (length_replicate 64 (None : option B)) at 2.
  generalize (replicate 64 (None : option B)).
  induction js as [|j js IH]; intros arr; cbn [foldl]; [done|]. by rewrite IH, Hf.
Qed.

(** ** The nodes of a memtable *)

(** The nodes emitted for the array slots [s], [s+1], ... *)
Definition bit_nodes (s : Z) (arr : list (option B)) : list (node B) :=
  map mnode_node
    (omap (fun '(bit, o) => match (o : option B) with
                            | Some b => Some (MNode (u8 bit + 1) b None)
                            | None => None
                            end) (zip (seqZ s (Z.of_nat (length arr))) arr)).

Lemma bit_nodes_cons s o arr :
  0 <= s < 256 ->
  bit_nodes s (o :: arr)
  = match o with
    | Some b => (s + 1, Layer (Some b) None) :: bit_nodes (s + 1) arr
    | None => bit_nodes (s + 1) arr
    end.
Proof.
  intros Hs. unfold bit_nodes. rewrite seqZ_cons by (simpl; lia).
  replace (Z.pred (Z.of_nat (length (o :: arr)))) with (Z.of_nat (length arr)) by (simpl; lia).
  change (Z.succ s) with (s + 1). cbn [zip omap list_omap].
  assert (Hu : u8 s = s) by (apply Z.mod_small; lia).
  destruct o; cbn; [|done]. unfold mnode_node at 1. cbn. by rewrite Hu.
Qed.

Lemma bit_nodes_keys arr : forall s,
  0 <= s -> s + Z.of_nat (length arr) <= 256 ->
  keys_sorted (bit_nodes s arr) /\
  Forall (fun n => s + 1 <= n.1 <= s + Z.of_nat (length arr)) (bit_nodes s arr).
Proof.
  induction arr as [|o arr IH]; intros s Hs Hl; simpl in Hl.
  { split; [apply SSorted_nil|constructor]. }
  destruct (IH (s + 1)) as [Hk Hf]; [lia|lia|].
  rewrite bit_nodes_cons by lia.
  assert (Hf' : Forall (fun n => s + 1 <= n.1 <= s + Z.of_nat (length (o :: arr)))
                  (bit_nodes (s + 1) arr)).
  { eapply Forall_impl; [exact Hf|]. simpl. intros. lia. }
  destruct o; [|done]. split; [|constructor; [simpl; lia|done]].
  unfold keys_sorted. cbn [map]. constructor; [done|].
  apply Forall_fmap. eapply Forall_impl; [exact Hf|]. simpl. intros. lia.
Qed.

Lemma bit_nodes_layer arr : forall s i,
  0 <= s -> s + Z.of_nat (length arr) <= 256 -> (i < length arr)%nat ->
  adds (layer_at (bit_nodes s arr) (s + Z.of_nat i + 1)) = oelems (mjoin (arr !! i)).
Proof.
  induction arr as [|o arr IH]; intros s i Hs Hl Hi; simpl in Hl, Hi; [lia|].
  destruct (bit_nodes_keys arr (s + 1)) as [_ Hf]; [lia|lia|].
  rewrite bit_nodes_cons by lia. destruct i as [|i].
  - replace (s + Z.of_nat 0 + 1) with (s + 1) by lia.
    destruct o as [b|]; cbn [layer_at fst snd].
    + by rewrite Z.eqb_refl.
    + rewrite layer_at_none; [done|]. intros n Hn.
      rewrite Forall_forall in Hf. specialize (Hf n Hn). simpl in Hf. lia.
  - replace (s + Z.of_nat (S i) + 1) with (s + 1 + Z.of_nat i + 1) by lia.
    destruct o as [b|]; cbn [layer_at fst snd].
    + rewrite (proj2 (Z.eqb_neq _ _)) by lia. apply IH; lia.
    + apply IH; lia.
Qed.

Lemma mt_Nodes_shape m :
  ~ (additions m = ∅ /\ deletions m = ∅) ->
  exists a d, map mnode_node (mt_Nodes m)
              = (0, Layer (Some a) (Some d)) :: bit_nodes 0 (bitsAdditions m) /\
    bm_elems a = dom (additions m) /\ bm_elems d = d_dels (memtable_delta m).
Proof.
  intros Hne. unfold mt_Nodes. rewrite decide_False by done. rewrite nn_fold.
  eexists _, _. split.
  - unfold bit_nodes. rewrite length_bitsAdditions. reflexivity.
  - cbn [mn_Additions mn_Deletions memtable_delta d_dels].
    rewrite !elems_fold_set, entries_fst, deleted_set. bm_simpl. split; set_solver.
Qed.

Lemma mt_Nodes_rep m :
  (forall i k, additions m !! i = Some k -> is_u64 k) ->
  segment_rep (map mnode_node (mt_Nodes m)) (memtable_delta m).
Proof.
  intros Hu. destruct (decide (additions m = ∅ /\ deletions m = ∅)) as [[Ha Hd]|Hne].
  { unfold mt_Nodes, memtable_delta. rewrite decide_True, Ha, Hd, dom_empty_L by done.
    rewrite union_empty_l_L. apply rep_empty. }
  destruct (mt_Nodes_shape m Hne) as (a & d & Heq & Ha & Hd). rewrite Heq.
  pose proof (length_bitsAdditions m) as Hlen.
  destruct (bit_nodes_keys (bitsAdditions m) 0) as [Hks Hkb]; [lia|rewrite Hlen; lia|].
  rewrite Hlen in Hkb. split.
  - unfold keys_sorted. cbn [map]. constructor; [done|].
    apply Forall_fmap. eapply Forall_impl; [exact Hkb|]. simpl. lia.
  - constructor; [simpl; lia|]. eapply Forall_impl; [exact Hkb|]. simpl. lia.
  - intros k l ns' [=]. done.
  - unfold adds. done.
  - unfold dels. done.
  - intros b i Hb. cbn [layer_at fst snd]. rewrite (proj2 (Z.eqb_neq _ _)) by lia.
    replace (b + 1) with (0 + Z.of_nat (Z.to_nat b) + 1) by lia.
    rewrite bit_nodes_layer, bitsAdditions_lookup, Z2Nat.id by lia. cbn [mjoin option_join].
    rewrite elems_bit_fold. cbn [oelems memtable_delta d_adds].
    setoid_rewrite bit_set_testbit; [|lia].
    unfold entries. setoid_rewrite elem_of_map_to_list. set_solver.
  - done.
Qed.

Lemma memtable_delta_ok m : delta_ok (memtable_delta m).
Proof. unfold delta_ok. cbn. set_solver. Qed.

(** ** Histories of writes *)

Inductive write_op : Type :=
| OpInsert (key : Z) (values : list Z)
| OpDelete (key : Z) (values : list Z).

Definition mt_step (m : Memtable) (op : write_op) : Memtable :=
  match op with
  | OpInsert k vs => mt_Insert m k vs
  | OpDelete k vs => mt_Delete m k vs
  end.

(** The same write on the abstract store: an id has at most one value. *)
Definition store_step (s : gmap Z Z) (op : write_op) : gmap Z Z :=
  match op with
  | OpInsert k vs => foldl (fun s v => <[v := k]> s) s vs
  | OpDelete _ vs => foldl (fun s v => delete v s) s vs
  end.

Definition op_ok (op : write_op) : Prop :=
  match op with OpInsert k _ => is_u64 k | OpDelete _ _ => True end.

Lemma apply_insert1 s a ds k v :
  apply_delta s (Delta (<[v := k]> a) (ds ∪ dom (<[v := k]> a)))
  = <[v := k]> (apply_delta s (Delta a (ds ∪ dom a))).
Proof.
  apply map_eq. intros i. apply option_eq. intros x.
  rewrite lookup_insert_Some, !lookup_apply_delta. cbn.
  rewrite lookup_insert_Some, lookup_insert_None, !elem_of_union, !elem_of_dom,
    lookup_insert_is_Some.
  destruct (decide (v = i)); naive_solver.
Qed.

Lemma apply_delete1 s a ds v :
  apply_delta s (Delta (delete v a) (({[v]} ∪ ds) ∪ dom (delete v a)))
  = delete v (apply_delta s (Delta a (ds ∪ dom a))).
Proof.
  apply map_eq. intros i. apply option_eq. intros x.
  rewrite lookup_delete_Some, !lookup_apply_delta. cbn.
  rewrite lookup_delete_Some, lookup_delete_None, !elem_of_union, !elem_of_dom,
    elem_of_singleton, lookup_delete_is_Some. unfold is_Some.
  destruct (decide (v = i)); naive_solver.
Qed.

Lemma mt_step_refines s m op :
  apply_delta s (memtable_delta (mt_step m op))
  = store_step (apply_delta s (memtable_delta m)) op.
Proof.
  destruct op as [k vs|k vs]; cbn [mt_step store_step].
  - assert (Hi : mt_Insert m k vs
      = MT (foldl (fun a v => <[v := k]> a) (additions m) vs) (deletions m))
      by (destruct vs; [by destruct m|done]).
    rewrite Hi. clear Hi. unfold memtable_delta. cbn [additions deletions].
    generalize (additions m). induction vs as [|v vs IH]; intros a; [done|].
    cbn [foldl]. by rewrite IH, apply_insert1.
  - assert (Hi : mt_Delete m k vs
      = foldl (fun m v => MT (delete v (additions m)) ({[v]} ∪ deletions m)) m vs)
      by (by destruct vs).
    rewrite Hi. clear Hi. revert m. induction vs as [|v vs IH]; intros m; [done|].
    cbn [foldl]. rewrite IH. f_equal. unfold memtable_delta. cbn [additions deletions].
    apply apply_delete1.
Qed.

Lemma mt_run_u64 ops : forall m,
  (forall i k, additions m !! i = Some k -> is_u64 k) -> Forall op_ok ops ->
  forall i k, additions (foldl mt_step m ops) !! i = Some k -> is_u64 k.
Proof.
  induction ops as [|op ops IH]; intros m Hm Hops; [done|].
  inversion_clear Hops as [|? ? Hop Hops']. apply IH; [|done]. clear IH ops Hops'.
  destruct op as [k vs|k vs]; cbn [mt_step op_ok] in *.
  - destruct vs as [|v0 vs]; [done|]. unfold mt_Insert. cbn [additions].
    generalize (v0 :: vs). clear v0 vs. intros vs. revert Hm. generalize (additions m).
    induction vs as [|v vs IH]; intros a Ha; [done|]. cbn [foldl]. apply IH.
    intros i x. rewrite lookup_insert_Some. naive_solver.
  - destruct vs as [|v0 vs]; [done|]. unfold mt_Delete. generalize (v0 :: vs). clear v0 vs.
    intros vs. revert m Hm. induction vs as [|v vs IH]; intros m Hm; [done|]. cbn [foldl].
    apply IH. cbn. intros i x. rewrite lookup_delete_Some. naive_solver.
Qed.

(** * Properties *)

(** A memtable refines the abstract store: laying the delta of the memtable
    obtained by any history of inserts and deletes over any older state gives
    exactly the store obtained by running that history on that state. *)
Lemma memtable_refines_store (s : gmap Z Z) (ops : list write_op) :
  apply_delta s (memtable_delta (foldl mt_step NewMemtable ops)) = foldl store_step s ops.
Proof.
  clear dependent B.
  assert (H0s : forall m, apply_delta s (memtable_delta (foldl mt_step m ops))
                     = foldl store_step (apply_delta s (memtable_delta m)) ops).
  { induction ops as [|op ops IH] using rev_ind; intros m; [done|].
    rewrite !foldl_app. cbn [foldl]. by rewrite mt_step_refines, IH. }
  rewrite H0s. f_equal. apply map_eq. intros i. apply option_eq. intros k.
  rewrite lookup_apply_delta. cbn. set_solver.
Qed.

(** The nodes a memtable is flushed as, after any history of writes of
    uint64 keys, represent its delta in bit-sliced form: key 0 holds the
    assigned ids and the hidden ids, key [b+1] exactly the ids whose value
    has bit [b] set, in increasing key order and with no other key. *)
Lemma memtable_nodes_represent (ops : list write_op) :
  Forall op_ok ops ->
  segment_rep (map mnode_node (mt_Nodes (foldl mt_step NewMemtable ops)))
              (memtable_delta (foldl mt_step NewMemtable ops)).
Proof.
  intros Hops. apply mt_Nodes_rep. apply (mt_run_u64 ops); [|done].
  intros i k. cbn. by rewrite lookup_empty.
Qed.
End Rep.

(** * Witnesses *)

Section Witnesses.
Import SetBitmap.
Definition wit_ops : list write_op := [OpInsert 5 [1; 2]; OpDelete 5 [2]; OpInsert 8 [1]].

Lemma memtable_nodes_represent_witness :
  segment_rep (B := gset Z) (map mnode_node (mt_Nodes (foldl mt_step NewMemtable wit_ops)))
              (memtable_delta (foldl mt_step NewMemtable wit_ops)).
Proof.
  apply memtable_nodes_represent. repeat constructor; simpl; lia.
Defined.
End Witnesses.
