(* ===== verification/RangeReader.v ===== *)
(** * adapters/repos/db/roaringsetrange: readers

    [SegmentReader] (segment_reader.go) answers a comparison from the bit-sliced
    nodes of one disk segment, [segmentInMemoryReader] (segment_in_memory.go)
    from the 65 bitmaps kept in memory, and [CombinedReader] (reader.go) folds
    the answers of all readers of a bucket.

    sroar's [And]/[Or]/[AndNot] change their receiver in place: a definition
    whose Go counterpart mutates the bitmap it is given returns the new contents,
    and its callers do not look at the old ones again.  The merge concurrency
    budget has no effect on results and is left out. *)

From S2P Require Import Prelude Sroar ByteOps RoaringSet RangeSegment RangeMemtable.

(** A bit test against [1 << (bit-1)] where [bit] is a uint8. *)
Definition node_bit (value key : Z) : bool :=
  negb (Z.land value (u64 (Z.shiftl 1 (u8 (key - 1)))) =? 0).

Section SegmentReader.
Context {B : Type} `{SroarLaws B} {C : Type} `{SC : SegmentCursor B C}.

(** The cursor is the reader's whole state; each call threads it. *)
Definition read_result (A : Type) : Type := outcome range_error (A * C).

Definition firstLayer (r : C) : read_result (B * B * bool) :=
  let! (_, layer, ok, r) := cur_First r in
  if negb ok then Ok (bm_new, bm_new, false, r)
  else
    let deletions :=
      match Deletions layer with None => bm_new | Some d => bm_clone (Some d) end in
    if bm_isempty (Additions layer) then Ok (bm_new, deletions, false, r)
    else Ok (bm_clone (Additions layer), deletions, true, r).

(** The producer goroutine: it streams the remaining entries until the cursor
    ends or it sees the context cancelled. *)
Definition entries_sent (ctx : context) (es : list (node B)) : list (node B) :=
  match ctx with
  | CtxLive => es
  | CtxCancelled => []
  | CtxCancelledAfter n => take n es
  end.

(** The gapless cursor delivers at most 64 entries after the first. *)
Definition stream_fuel : nat := 66.

(** One round of the consumer loop, for the accumulator [result]. *)
Definition merge_step (value : Z) (st : bool * B) (e : node B) : bool * B :=
  let '(ANDed, result) := st in
  if node_bit value e.1 then (true, bm_and result (Additions e.2))
  else if ANDed then (ANDed, bm_or result (Additions e.2))
  else (ANDed, result).

Definition mergeGreaterThanEqual (ctx : context) (value : Z) (all : B) (r : C)
  : read_result B :=
  let! (es, r) := next_all stream_fuel r in
  let '(_, result) := foldl (merge_step value) (false, all) (entries_sent ctx es) in
  match ctx with
  | CtxLive => Ok (result, r)
  | _ => Err ErrCtx
  end.

(** No [ctx.Err()] check follows the loop here. *)
Definition mergeBetween (ctx : context) (valueMinInc valueMaxExc : Z) (all : B) (r : C)
  : read_result B :=
  let resultMin := bm_clone (Some all) in
  let! (es, r) := next_all stream_fuel r in
  let '((_, resultMin), (_, resultMax)) :=
    foldl (fun '(mn, mx) e => (merge_step valueMinInc mn e, merge_step valueMaxExc mx e))
          ((false, resultMin), (false, all)) (entries_sent ctx es) in
  Ok (bm_andnot resultMin (Some resultMax), r).

Definition layer_of (a d : B) : BitmapLayer B := Layer (Some a) (Some d).

Definition readLessThan (ctx : context) (value : Z) (r : C) : read_result (BitmapLayer B) :=
  let! (additions, deletions, ok, r) := firstLayer r in
  if negb ok then Ok (layer_of additions deletions, r)
  else if value =? 0 then Ok (layer_of bm_new deletions, r)
  else
    let lt := bm_clone (Some additions) in
    let! (gte, r) := mergeGreaterThanEqual ctx value additions r in
    Ok (layer_of (bm_andnot lt (Some gte)) deletions, r).

Definition readLessThanEqual (ctx : context) (value : Z) (r : C) : read_result (BitmapLayer B) :=
  let! (additions, deletions, ok, r) := firstLayer r in
  if negb ok then Ok (layer_of additions deletions, r)
  else if value =? u64_max then Ok (layer_of additions deletions, r)
  else
    let lte := bm_clone (Some additions) in
    let! (gte1, r) := mergeGreaterThanEqual ctx (u64 (value + 1)) additions r in
    Ok (layer_of (bm_andnot lte (Some gte1)) deletions, r).

Definition readGreaterThan (ctx : context) (value : Z) (r : C) : read_result (BitmapLayer B) :=
  let! (additions, deletions, ok, r) := firstLayer r in
  if negb ok then Ok (layer_of additions deletions, r)
  else if value =? u64_max then Ok (layer_of bm_new deletions, r)
  else
    let! (gte1, r) := mergeGreaterThanEqual ctx (u64 (value + 1)) additions r in
    Ok (layer_of gte1 deletions, r).

Definition readGreaterThanEqual (ctx : context) (value : Z) (r : C)
  : read_result (BitmapLayer B) :=
  let! (additions, deletions, ok, r) := firstLayer r in
  if negb ok then Ok (layer_of additions deletions, r)
  else if value =? 0 then Ok (layer_of additions deletions, r)
  else
    let! (gte, r) := mergeGreaterThanEqual ctx value additions r in
    Ok (layer_of gte deletions, r).

Definition readEqual (ctx : context) (value : Z) (r : C) : read_result (BitmapLayer B) :=
  if value =? 0 then readLessThanEqual ctx value r
  else if value =? u64_max then readGreaterThanEqual ctx value r
  else
    let! (additions, deletions, ok, r) := firstLayer r in
    if negb ok then Ok (layer_of additions deletions, r)
    else
      let! (eq, r) := mergeBetween ctx value (u64 (value + 1)) additions r in
      Ok (layer_of eq deletions, r).

Definition readNotEqual (ctx : context) (value : Z) (r : C) : read_result (BitmapLayer B) :=
  if value =? 0 then readGreaterThan ctx value r
  else if value =? u64_max then readLessThan ctx value r
  else
    let! (additions, deletions, ok, r) := firstLayer r in
    if negb ok then Ok (layer_of additions deletions, r)
    else
      let neq := bm_clone (Some additions) in
      let! (eq, r) := mergeBetween ctx value (u64 (value + 1)) additions r in
      Ok (layer_of (bm_andnot neq (Some eq)) deletions, r).

Definition sr_Read (ctx : context) (value : Z) (operator : Operator) (r : C)
  : read_result (BitmapLayer B) :=
  if ctx_err_on_entry ctx then Err ErrCtx
  else match operator with
       | OperatorEqual => readEqual ctx value r
       | OperatorNotEqual => readNotEqual ctx value r
       | OperatorLessThan => readLessThan ctx value r
       | OperatorLessThanEqual => readLessThanEqual ctx value r
       | OperatorGreaterThan => readGreaterThan ctx value r
       | OperatorGreaterThanEqual => readGreaterThanEqual ctx value r
       | _ => Err ErrOperator
       end.
End SegmentReader.

(** ** segment_in_memory.go: the reader *)

Section InMemoryReader.
Context {B : Type} `{SroarLaws B}.

(** [rangeBitmaps], a [65]*sroar.Bitmap, is a list of length 65. *)
Definition bitmap_at (bms : list B) (i : nat) : option B := bms !! i.

(** [for bit := 1; bit < len(r.bitmaps); bit++] as the entries visited *)
Definition mem_entries (bms : list B) : list (node B) :=
  match bms with
  | [] => []
  | _ :: rest => imap (fun i b => (Z.of_nat (S i), Layer (Some b) None)) rest
  end.

Definition im_mergeGreaterThanEqual (bms : list B) (value : Z) : B :=
  let result := bm_clone (bitmap_at bms 0) in
  (foldl (merge_step value) (false, result) (mem_entries bms)).2.

Definition im_mergeBetween (bms : list B) (valueMinInc valueMaxExc : Z) : B :=
  let resultMin := bm_clone (bitmap_at bms 0) in
  let resultMax := bm_clone (bitmap_at bms 0) in
  let '((_, resultMin), (_, resultMax)) :=
    foldl (fun '(mn, mx) e => (merge_step valueMinInc mn e, merge_step valueMaxExc mx e))
          ((false, resultMin), (false, resultMax)) (mem_entries bms) in
  bm_andnot resultMin (Some resultMax).

Definition im_readLessThan (bms : list B) (value : Z) : BitmapLayer B :=
  if value =? 0 then Layer (Some bm_new) None
  else
    let gte := im_mergeGreaterThanEqual bms value in
    Layer (Some (bm_andnot (bm_clone (bitmap_at bms 0)) (Some gte))) None.

Definition im_readLessThanEqual (bms : list B) (value : Z) : BitmapLayer B :=
  if value =? u64_max then Layer (Some (bm_clone (bitmap_at bms 0))) None
  else
    let gte1 := im_mergeGreaterThanEqual bms (u64 (value + 1)) in
    Layer (Some (bm_andnot (bm_clone (bitmap_at bms 0)) (Some gte1))) None.

Definition im_readGreaterThan (bms : list B) (value : Z) : BitmapLayer B :=
  if value =? u64_max then Layer (Some bm_new) None
  else Layer (Some (im_mergeGreaterThanEqual bms (u64 (value + 1)))) None.

Definition im_readGreaterThanEqual (bms : list B) (value : Z) : BitmapLayer B :=
  if value =? 0 then Layer (Some (bm_clone (bitmap_at bms 0))) None
  else Layer (Some (im_mergeGreaterThanEqual bms value)) None.

Definition im_readEqual (bms : list B) (value : Z) : BitmapLayer B :=
  if value =? 0 then im_readLessThanEqual bms value
  else if value =? u64_max then im_readGreaterThanEqual bms value
  else Layer (Some (im_mergeBetween bms value (u64 (value + 1)))) None.

Definition im_readNotEqual (bms : list B) (value : Z) : BitmapLayer B :=
  if value =? 0 then im_readGreaterThan bms value
  else if value =? u64_max then im_readLessThan bms value
  else
    let eq := im_mergeBetween bms value (u64 (value + 1)) in
    Layer (Some (bm_andnot (bm_clone (bitmap_at bms 0)) (Some eq))) None.

Definition im_Read (bms : list B) (ctx : context) (value : Z) (operator : Operator)
  : outcome range_error (BitmapLayer B) :=
  if ctx_err_on_entry ctx then Err ErrCtx
  else match operator with
       | OperatorEqual => Ok (im_readEqual bms value)
       | OperatorNotEqual => Ok (im_readNotEqual bms value)
       | OperatorLessThan => Ok (im_readLessThan bms value)
       | OperatorLessThanEqual => Ok (im_readLessThanEqual bms value)
       | OperatorGreaterThan => Ok (im_readGreaterThan bms value)
       | OperatorGreaterThanEqual => Ok (im_readGreaterThanEqual bms value)
       | _ => Err ErrOperator
       end.
End InMemoryReader.

(** ** reader.go *)

Section Combined.
Context {B : Type} `{SroarLaws B}.

(** The Go interface has the single method [Read]. *)
Record InnerReader : Type := Reader {
  ir_Read : context -> Z -> Operator -> outcome range_error (BitmapLayer B)
}.

(** The errors the compounder collects, in the order they were added. *)
Definition errs_of {A} (o : outcome range_error A) : list range_error :=
  match o with Err e => [e] | _ => [] end.

(** One received response: folded into the accumulator only while no error
    has been collected. *)
Definition merge_response (acc : option B * list range_error)
    (o : outcome range_error (BitmapLayer B)) : outcome range_error (option B * list range_error) :=
  let '(layer, ec) := acc in
  match o with
  | Panic => Panic
  | OutOfFuel => OutOfFuel
  | Err e => Ok (layer, ec ++ [e])
  | Ok resp =>
      if decide (ec = []) then
        match layer with
        | Some b => Ok (Some (bm_or (bm_andnot b (Deletions resp)) (Additions resp)), ec)
        | None => Panic
        end
      else Ok (layer, ec)
  end.

Fixpoint merge_responses (acc : option B * list range_error)
    (os : list (outcome range_error (BitmapLayer B)))
  : outcome range_error (option B * list range_error) :=
  match os with
  | [] => Ok acc
  | o :: os => let! acc := merge_response acc o in merge_responses acc os
  end.

(** [ctxs] gives each inner reader its context: the error group cancels the
    others when one of them fails. *)
Definition cr_Read (readers : list (InnerReader * context)) (value : Z) (operator : Operator)
  : outcome (list range_error) (option B) :=
  match readers with
  | [] => Ok (Some bm_new)
  | [(r, ctx)] =>
      let! layer := omap_err (fun e => [e]) (ir_Read r ctx value operator) in
      Ok (Additions layer)
  | (r0, ctx0) :: rest =>
      let first := ir_Read r0 ctx0 value operator in
      let! acc0 := match first with
                   | Ok l => Ok (Additions l, [])
                   | Err e => Ok (None, [e])
                   | Panic => Panic
                   | OutOfFuel => OutOfFuel
                   end in
      let! (layer, ec) :=
        omap_err (fun e => [e])
          (merge_responses acc0 (map (fun '(r, ctx) => ir_Read r ctx value operator) rest)) in
      if decide (ec = []) then Ok layer else Err ec
  end.
End Combined.
Arguments InnerReader B : clear implicits.

(** * Bit-sliced comparison *)

Lemma mod_pow2_succ x b :
  0 <= b -> x mod 2 ^ (b + 1) = (if Z.testbit x b then 2 ^ b else 0) + x mod 2 ^ b.
Proof.
  intros Hb. rewrite Z.pow_add_r, Z.pow_1_r, Z.rem_mul_r by lia.
  rewrite <- Z.testbit_spec' by lia. destruct (Z.testbit x b); cbn [Z.b2z]; lia.
Qed.

Lemma node_bit_testbit value b :
  0 <= b < 64 -> node_bit value (b + 1) = Z.testbit value b.
Proof.
  intros Hb. unfold node_bit. rewrite Z.add_simpl_r.
  replace (u8 b) with b by (symmetry; apply Z.mod_small; lia).
  replace (u64 (Z.shiftl 1 b)) with (Z.shiftl 1 b).
  - apply bit_set_testbit. lia.
  - symmetry. apply u64_small. unfold is_u64.
    rewrite Z.shiftl_mul_pow2, Z.mul_1_l by lia.
    split; [lia|]. apply Z.pow_lt_mono_r; lia.
Qed.

Lemma matching_ext f g m :
  (forall i k, m !! i = Some k -> f k = g k) -> matching f m = matching g m.
Proof.
  intros Hfg. apply set_eq. intros i. rewrite !elem_of_matching.
  split; intros (k & Hk & He); exists k; (split; [done|]).
  - by rewrite <- (Hfg i k Hk).
  - by rewrite (Hfg i k Hk).
Qed.

Lemma matching_neg f m : dom m ∖ matching f m = matching (fun k => negb (f k)) m.
Proof.
  apply set_eq. intros i. rewrite elem_of_difference, elem_of_dom, !elem_of_matching. split.
  - intros [[k Hk] Hn]. exists k. split; [done|].
    apply negb_true_iff, not_true_iff_false. intros Hf. apply Hn. eauto.
  - intros (k & Hk & Hf). split; [eauto|]. intros (k' & Hk' & Hf'). simplify_eq.
    by rewrite Hf' in Hf.
Qed.

Lemma matching_minus f g m :
  matching f m ∖ matching g m = matching (fun k => f k && negb (g k)) m.
Proof.
  apply set_eq. intros i. rewrite elem_of_difference, !elem_of_matching. split.
  - intros [(k & Hk & Hf) Hn]. exists k. rewrite Hf. split; [done|].
    apply negb_true_iff, not_true_iff_false. intros Hg. apply Hn. eauto.
  - intros (k & Hk & Hfg). apply andb_true_iff in Hfg as [Hf Hg]. split; [eauto|].
    intros (k' & Hk' & Hg'). simplify_eq. by rewrite Hg' in Hg.
Qed.

Lemma matching_true m : matching (fun _ => true) m = dom m.
Proof.
  apply set_eq. intros i. rewrite elem_of_matching, elem_of_dom.
  split; [intros (k & Hk & _); eauto|intros [k Hk]; eauto].
Qed.

Lemma matching_false f m : (forall i k, m !! i = Some k -> f k = false) -> matching f m = ∅.
Proof.
  intros Hf. apply set_eq. intros i. rewrite elem_of_matching. split; [|set_solver].
  intros (k & Hk & Ht). by rewrite (Hf i k Hk) in Ht.
Qed.

Section Compare.
Context {B : Type} `{SroarLaws B}.
Context (L : Z -> BitmapLayer B) (vals : gmap Z Z).
(** [L (b+1)] holds the ids whose value has bit [b] set. *)
Hypothesis Hbits : forall b i, 0 <= b < 64 ->
  i ∈ adds (L (b + 1)) <-> exists k, vals !! i = Some k /\ Z.testbit k b = true.

Definition slices (j : Z) : list (node B) := map (fun k => (k, L k)) (seqZ 1 j).

Lemma slice_matching b :
  0 <= b < 64 -> adds (L (b + 1)) = matching (fun k => Z.testbit k b) vals.
Proof. intros Hb. apply set_eq. intros i. rewrite elem_of_matching. by apply Hbits. Qed.

(** A set bit of [v]: of the ids in [res], those with that bit stay. *)
Lemma and_step v b :
  0 <= b -> Z.testbit v b = true ->
  matching (fun k => v mod 2 ^ b <=? k mod 2 ^ b) vals ∩ matching (fun k => Z.testbit k b) vals
  = matching (fun k => v mod 2 ^ (b + 1) <=? k mod 2 ^ (b + 1)) vals.
Proof.
  intros Hb Ev. assert (H2 : 0 < 2 ^ b) by (apply Z.pow_pos_nonneg; lia).
  pose proof (Z.mod_pos_bound v (2 ^ b) H2) as Hv.
  apply set_eq. intros i. rewrite elem_of_intersection, !elem_of_matching. split.
  - intros [(k & Hk & Hle) (k' & Hk' & Ht)]. simplify_eq. exists k. split; [done|].
    rewrite !mod_pow2_succ, Ht, Ev by lia. apply Z.leb_le in Hle. apply Z.leb_le. lia.
  - intros (k & Hk & Hle). apply Z.leb_le in Hle. rewrite !mod_pow2_succ, Ev in Hle by lia.
    pose proof (Z.mod_pos_bound k (2 ^ b) H2). destruct (Z.testbit k b) eqn:Ek; [|lia].
    split; exists k; (split; [done|]); [apply Z.leb_le; lia|done].
Qed.

(** A clear bit of [v]: the ids with that bit are larger and join. *)
Lemma or_step v b :
  0 <= b -> Z.testbit v b = false ->
  matching (fun k => v mod 2 ^ b <=? k mod 2 ^ b) vals ∪ matching (fun k => Z.testbit k b) vals
  = matching (fun k => v mod 2 ^ (b + 1) <=? k mod 2 ^ (b + 1)) vals.
Proof.
  intros Hb Ev. assert (H2 : 0 < 2 ^ b) by (apply Z.pow_pos_nonneg; lia).
  pose proof (Z.mod_pos_bound v (2 ^ b) H2) as Hv.
  assert (Hk2 : forall k : Z, 0 <= k mod 2 ^ b < 2 ^ b) by (intros; by apply Z.mod_pos_bound).
  apply set_eq. intros i. rewrite elem_of_union, !elem_of_matching. split.
  - intros [(k & Hk & Hle)|(k & Hk & Ht)]; exists k; (split; [done|]);
      rewrite !mod_pow2_succ, Ev by lia; specialize (Hk2 k); apply Z.leb_le.
    + apply Z.leb_le in Hle. destruct (Z.testbit k b); lia.
    + rewrite Ht. lia.
  - intros (k & Hk & Hle). apply Z.leb_le in Hle. rewrite !mod_pow2_succ, Ev in Hle by lia.
    specialize (Hk2 k). destruct (Z.testbit k b) eqn:Ek; [right|left]; exists k;
      (split; [done|]); [done|apply Z.leb_le; lia].
Qed.

(** After the [j] lowest bits the accumulator holds the ids whose value is
    at least [v] modulo [2^j]. *)
Lemma merge_fold_low v all (j : nat) :
  bm_elems all = dom vals -> (j <= 64)%nat ->
  exists res,
    foldl (merge_step v) (false, all) (slices (Z.of_nat j))
    = (negb (v mod 2 ^ Z.of_nat j =? 0), res) /\
    bm_elems res = matching (fun k => v mod 2 ^ Z.of_nat j <=? k mod 2 ^ Z.of_nat j) vals.
Proof.
  intros Hall. induction j as [|j IH]; intros Hj.
  { exists all. split; [by rewrite Z.mod_1_r|]. rewrite Hall, <- matching_true.
    apply matching_ext. intros i k _. by rewrite !Z.mod_1_r. }
  destruct IH as (res & Hf & Hres); [lia|].
  set (b := Z.of_nat j) in *. replace (Z.of_nat (S j)) with (b + 1) by lia.
  unfold slices. rewrite seqZ_app by lia. rewrite map_app, foldl_app.
  fold (slices b). rewrite Hf. replace (1 + b) with (b + 1) by lia.
  change (seqZ (b + 1) 1) with [0 + (b + 1)].
  rewrite Z.add_0_l. cbn [map foldl merge_step fst snd]. rewrite node_bit_testbit by lia.
  assert (H2 : 0 < 2 ^ b) by (apply Z.pow_pos_nonneg; lia).
  pose proof (Z.mod_pos_bound v (2 ^ b) H2) as Hv.
  pose proof (mod_pow2_succ v b ltac:(lia)) as Hsucc.
  destruct (Z.testbit v b) eqn:Ev.
  - eexists; split; [f_equal; symmetry; apply negb_true_iff, Z.eqb_neq; lia|].
    rewrite elems_and. fold (adds (L (b + 1))). rewrite Hres, slice_matching by lia.
    by apply and_step; [lia|].
  - rewrite <- or_step by (done || lia). rewrite Hsucc, Z.add_0_l.
    destruct (Z.eqb_spec (v mod 2 ^ b) 0) as [E0|E0]; cbn [negb].
    + exists res. split; [done|]. rewrite Hres. apply set_eq. intros i.
      rewrite elem_of_union, !elem_of_matching. split; [by left|]. intros [?|(k & Hk & _)]; [done|].
      exists k. split; [done|]. rewrite E0. apply Z.leb_le. by apply Z.mod_pos_bound.
    + eexists; split; [f_equal; symmetry; apply negb_true_iff, Z.eqb_neq; lia|].
      rewrite elems_or. fold (adds (L (b + 1))). by rewrite Hres, slice_matching by lia.
Qed.

Hypothesis Hu64 : forall i k, vals !! i = Some k -> is_u64 k.

(** All 64 slices: exactly the ids whose value is at least [v]. *)
Lemma merge_fold_gte v all :
  bm_elems all = dom vals -> is_u64 v ->
  bm_elems (foldl (merge_step v) (false, all) (slices 64)).2
  = matching (fun k => v <=? k) vals.
Proof.
  intros Hall Hv. destruct (merge_fold_low v all 64 Hall) as (res & Hf & Hres); [lia|].
  change (Z.of_nat 64) with 64 in *. rewrite Hf. cbn [snd]. rewrite Hres.
  apply matching_ext. intros i k Hk. specialize (Hu64 i k Hk).
  by rewrite !Z.mod_small.
Qed.

Lemma foldl_pair {X Y E} (f : X -> E -> X) (g : Y -> E -> Y) (es : list E) : forall x y,
  foldl (fun '(x, y) e => (f x e, g y e)) (x, y) es = (foldl f x es, foldl g y es).
Proof. induction es as [|e es IH]; intros x y; cbn [foldl]; [done|apply IH]. Qed.

Lemma merge_fold_between v a1 a2 :
  bm_elems a1 = dom vals -> bm_elems a2 = dom vals -> is_u64 v -> v <> u64_max ->
  let '((_, mn), (_, mx)) :=
    foldl (fun '(mn, mx) e => (merge_step v mn e, merge_step (u64 (v + 1)) mx e))
          ((false, a1), (false, a2)) (slices 64) in
  bm_elems mn ∖ bm_elems mx = matching (fun k => k =? v) vals.
Proof.
  intros H1 H2 Hv Hm. rewrite foldl_pair.
  assert (Hv1 : is_u64 (v + 1)) by (unfold is_u64, u64_max in *; lia).
  rewrite (u64_small (v + 1)) by done.
  pose proof (merge_fold_gte v a1 H1 Hv) as G1.
  pose proof (merge_fold_gte (v + 1) a2 H2 Hv1) as G2.
  destruct (foldl (merge_step v) _ _) as [? mn], (foldl (merge_step (v + 1)) _ _) as [? mx].
  cbn [snd] in *. rewrite G1, G2, matching_minus. apply matching_ext. intros i k _. lia.
Qed.
End Compare.

(** * The disk-segment reader *)

Section SegmentReaderSpec.
Context {B : Type} `{SroarLaws B} {C : Type} `{CL : CursorLaws B C}.
Context (ns : list (node B)) (d : delta) (Hrep : segment_rep ns d).

(** A cursor that delivers the gapless view of [ns]. *)
Definition at_start (r : C) : Prop :=
  exists rest, cur_inv r (gapless_from ns 0) rest.
Definition after_first (r : C) : Prop :=
  cur_inv r (gapless_from ns 0) (gapless_from ns 1).

Lemma firstLayer_spec r :
  at_start r ->
  exists a dl r', firstLayer r = Ok (a, dl, negb (bool_decide (dom (d_adds d) = ∅)), r') /\
    bm_elems a = dom (d_adds d) /\ bm_elems dl = d_dels d /\ after_first r'.
Proof.
  intros [rest Hi]. unfold firstLayer. rewrite gapless_from_cons in Hi by lia.
  destruct (first_cons _ _ _ _ _ Hi) as (r' & -> & Hi'). cbn [obind negb].
  pose proof (rep_adds _ _ Hrep) as Ha. pose proof (rep_dels _ _ Hrep) as Hd.
  set (dl := match Deletions (layer_at ns 0) with None => bm_new | Some x => bm_clone (Some x) end).
  assert (Hdl : bm_elems dl = d_dels d).
  { subst dl. unfold dels in Hd. destruct (Deletions (layer_at ns 0)); bm_simpl; done. }
  unfold adds in Ha.
  destruct (bm_isempty (Additions (layer_at ns 0))) eqn:E.
  - apply isempty_spec in E. rewrite Ha in E. rewrite bool_decide_true by done.
    eexists _, _, r'. split; [done|]. rewrite elems_new, E. split; [done|].
    split; [done|]. unfold after_first. by rewrite gapless_from_cons by lia.
  - apply isempty_false in E. rewrite Ha in E. rewrite bool_decide_false by done.
    eexists _, _, r'. split; [done|]. rewrite elems_clone, Ha. split; [done|].
    split; [done|]. unfold after_first. by rewrite gapless_from_cons by lia.
Qed.

Lemma stream_spec r :
  after_first r -> exists r', next_all stream_fuel r = Ok (slices (layer_at ns) 64, r').
Proof.
  intros Hi. destruct (next_all_spec _ stream_fuel r _ Hi) as (r' & Hn & _); [vm_compute; lia|].
  exists r'. exact Hn.
Qed.

Lemma mergeGreaterThanEqual_spec v all r :
  after_first r -> bm_elems all = dom (d_adds d) -> is_u64 v ->
  exists res r', mergeGreaterThanEqual CtxLive v all r = Ok (res, r') /\
    bm_elems res = matching (fun k => v <=? k) (d_adds d).
Proof.
  intros Hi Ha Hv. unfold mergeGreaterThanEqual.
  destruct (stream_spec r Hi) as (r' & ->). cbn [obind entries_sent].
  pose proof (merge_fold_gte (layer_at ns) (d_adds d) (rep_bits _ _ Hrep) (rep_u64 _ _ Hrep)
    v all Ha Hv) as Hg.
  destruct (foldl _ _ _) as [? res]. eauto.
Qed.

Lemma mergeBetween_spec v all r :
  after_first r -> bm_elems all = dom (d_adds d) -> is_u64 v -> v <> u64_max ->
  exists res r', mergeBetween CtxLive v (u64 (v + 1)) all r = Ok (res, r') /\
    bm_elems res = matching (fun k => k =? v) (d_adds d).
Proof.
  intros Hi Ha Hv Hm. unfold mergeBetween.
  destruct (stream_spec r Hi) as (r' & ->). cbn [obind entries_sent].
  pose proof (merge_fold_between (layer_at ns) (d_adds d) (rep_bits _ _ Hrep) (rep_u64 _ _ Hrep)
    v (bm_clone (Some all)) all) as Hg.
  rewrite elems_clone in Hg. specialize (Hg Ha Ha Hv Hm).
  destruct (foldl _ _ _) as [[? mn] [? mx]]. eexists _, r'. split; [done|].
  rewrite elems_andnot. exact Hg.
Qed.

(** The answer a reader of the delta [d] owes for the comparison [f]. *)
Definition answers (o : outcome range_error (BitmapLayer B * C)) (f : Z -> bool) : Prop :=
  exists l r', o = Ok (l, r') /\ Additions l <> None /\
    adds l = matching f (d_adds d) /\ dels l = d_dels d.

Ltac start r Hs a dl r' Ha Hd Hi :=
  let Hf := fresh in
  destruct (firstLayer_spec r Hs) as (a & dl & r' & Hf & Ha & Hd & Hi);
  rewrite Hf; cbn [obind];
  destruct (bool_decide_reflect (dom (d_adds d) = ∅)) as [Hemp|Hemp]; cbn [negb];
  [eexists _, _; split; [reflexivity|]; split; [discriminate|]; split; [|exact Hd];
   unfold adds; cbn [layer_of oelems Additions]; rewrite Ha, Hemp; symmetry;
   pose proof (matching_subseteq) as Hsub; set_solver|].

Ltac answer := eexists _, _; split; [reflexivity|]; split; [discriminate|]; split; [|assumption];
  unfold adds; cbn [layer_of oelems Additions].

Lemma readLessThan_spec v r : at_start r -> is_u64 v ->
  answers (readLessThan CtxLive v r) (fun k => k <? v).
Proof.
  intros Hs Hv. unfold readLessThan. start r Hs a dl r' Ha Hd Hi.
  destruct (Z.eqb_spec v 0) as [->|Hn].
  - answer. rewrite elems_new. symmetry. apply matching_false. intros i k Hk.
    apply (rep_u64 _ _ Hrep) in Hk. unfold is_u64 in Hk. lia.
  - destruct (mergeGreaterThanEqual_spec v a r' Hi Ha Hv) as (res & r'' & -> & Hres).
    cbn [obind]. answer. rewrite elems_andnot, elems_clone. cbn [oelems].
    rewrite Ha, Hres, matching_neg. apply matching_ext. intros i k _. lia.
Qed.

Lemma readGreaterThanEqual_spec v r : at_start r -> is_u64 v ->
  answers (readGreaterThanEqual CtxLive v r) (fun k => v <=? k).
Proof.
  intros Hs Hv. unfold readGreaterThanEqual. start r Hs a dl r' Ha Hd Hi.
  destruct (Z.eqb_spec v 0) as [->|Hn].
  - answer. rewrite Ha, <- matching_true. apply matching_ext. intros i k Hk.
    apply (rep_u64 _ _ Hrep) in Hk. unfold is_u64 in Hk. lia.
  - destruct (mergeGreaterThanEqual_spec v a r' Hi Ha Hv) as (res & r'' & -> & Hres).
    cbn [obind]. answer. exact Hres.
Qed.

Lemma succ_u64 v : is_u64 v -> v <> u64_max -> is_u64 (v + 1) /\ u64 (v + 1) = v + 1.
Proof.
  intros Hv Hm. assert (Hi : is_u64 (v + 1)) by (unfold is_u64, u64_max in *; lia).
  split; [done|by apply u64_small].
Qed.

Lemma readLessThanEqual_spec v r : at_start r -> is_u64 v ->
  answers (readLessThanEqual CtxLive v r) (fun k => k <=? v).
Proof.
  intros Hs Hv. unfold readLessThanEqual. start r Hs a dl r' Ha Hd Hi.
  destruct (Z.eqb_spec v u64_max) as [->|Hn].
  - answer. rewrite Ha, <- matching_true. apply matching_ext. intros i k Hk.
    apply (rep_u64 _ _ Hrep) in Hk. unfold is_u64, u64_max in *. lia.
  - destruct (succ_u64 v Hv Hn) as [Hv1 ->].
    destruct (mergeGreaterThanEqual_spec (v + 1) a r' Hi Ha Hv1) as (res & r'' & -> & Hres).
    cbn [obind]. answer. rewrite elems_andnot, elems_clone. cbn [oelems].
    rewrite Ha, Hres, matching_neg. apply matching_ext. intros i k _. lia.
Qed.

Lemma readGreaterThan_spec v r : at_start r -> is_u64 v ->
  answers (readGreaterThan CtxLive v r) (fun k => v <? k).
Proof.
  intros Hs Hv. unfold readGreaterThan. start r Hs a dl r' Ha Hd Hi.
  destruct (Z.eqb_spec v u64_max) as [->|Hn].
  - answer. rewrite elems_new. symmetry. apply matching_false. intros i k Hk.
    apply (rep_u64 _ _ Hrep) in Hk. unfold is_u64, u64_max in *. lia.
  - destruct (succ_u64 v Hv Hn) as [Hv1 ->].
    destruct (mergeGreaterThanEqual_spec (v + 1) a r' Hi Ha Hv1) as (res & r'' & -> & Hres).
    cbn [obind]. answer. rewrite Hres. apply matching_ext. intros i k _. lia.
Qed.

Lemma answers_ext o f g :
  (forall k, is_u64 k -> f k = g k) -> answers o f -> answers o g.
Proof.
  intros Hfg (l & r' & Ho & Hn & Ha & Hd). exists l, r'. repeat split; auto.
  rewrite Ha. apply matching_ext. intros i k Hk. apply Hfg, (rep_u64 _ _ Hrep i k Hk).
Qed.

Lemma readEqual_spec v r : at_start r -> is_u64 v ->
  answers (readEqual CtxLive v r) (fun k => k =? v).
Proof.
  intros Hs Hv. unfold readEqual. destruct (Z.eqb_spec v 0) as [->|H0v].
  { eapply answers_ext; [|by apply readLessThanEqual_spec]. unfold is_u64. intros; cbn; lia. }
  destruct (Z.eqb_spec v u64_max) as [->|Hm].
  { eapply answers_ext; [|by apply readGreaterThanEqual_spec].
    unfold is_u64, u64_max. intros; cbn; lia. }
  start r Hs a dl r' Ha Hd Hi.
  destruct (mergeBetween_spec v a r' Hi Ha Hv Hm) as (res & r'' & -> & Hres).
  cbn [obind]. answer. exact Hres.
Qed.

Lemma readNotEqual_spec v r : at_start r -> is_u64 v ->
  answers (readNotEqual CtxLive v r) (fun k => negb (k =? v)).
Proof.
  intros Hs Hv. unfold readNotEqual. destruct (Z.eqb_spec v 0) as [->|H0v].
  { eapply answers_ext; [|by apply readGreaterThan_spec]. unfold is_u64. intros; cbn; lia. }
  destruct (Z.eqb_spec v u64_max) as [->|Hm].
  { eapply answers_ext; [|by apply readLessThan_spec].
    unfold is_u64, u64_max. intros; cbn; lia. }
  start r Hs a dl r' Ha Hd Hi.
  destruct (mergeBetween_spec v a r' Hi Ha Hv Hm) as (res & r'' & -> & Hres).
  cbn [obind]. answer. rewrite elems_andnot, elems_clone. cbn [oelems].
  by rewrite Ha, Hres, matching_neg.
Qed.

Lemma sr_Read_spec v op f r :
  at_start r -> is_u64 v -> compare_op op = Some f ->
  answers (sr_Read CtxLive v op r) (fun k => f k v).
Proof.
  intros Hs Hv Hop. unfold sr_Read. cbn [ctx_err_on_entry].
  destruct op; cbn in Hop; simplify_eq; auto using readEqual_spec, readNotEqual_spec,
    readLessThan_spec, readLessThanEqual_spec, readGreaterThan_spec, readGreaterThanEqual_spec.
Qed.
End SegmentReaderSpec.

(** * The in-memory reader *)

Section InMemorySpec.
Context {B : Type} `{SroarLaws B}.

(** The 65 bitmaps stand for the assignment [m]. *)
Record mem_rep (bms : list B) (m : gmap Z Z) : Prop := {
  mem_len : length bms = 65%nat;
  mem_all : oelems (bms !! 0%nat) = dom m;
  mem_bits : forall b i, 0 <= b < 64 ->
    i ∈ oelems (bms !! Z.to_nat (b + 1)) <-> exists k, m !! i = Some k /\ Z.testbit k b = true;
  mem_u64 : forall i k, m !! i = Some k -> is_u64 k
}.

Definition mem_layer (bms : list B) (k : Z) : BitmapLayer B :=
  Layer (bms !! Z.to_nat k) None.

Lemma mem_entries_slices bms :
  length bms = 65%nat -> mem_entries bms = slices (mem_layer bms) 64.
Proof.
  intros Hl. destruct bms as [|b0 rest]; [done|]. cbn [mem_entries].
  unfold slices. apply list_eq. intros i.
  rewrite list_lookup_imap. change (map ?f ?l) with (f <$> l). rewrite list_lookup_fmap.
  simpl in Hl. destruct (decide (i < 64)%nat) as [Hi|Hi].
  - rewrite lookup_seqZ_lt by lia. cbn [fmap option_fmap option_map].
    destruct (lookup_lt_is_Some_2 rest i) as [x Hx]; [lia|].
    assert (Hb : (b0 :: rest) !! Z.to_nat (1 + Z.of_nat i) = Some x)
      by (replace (Z.to_nat (1 + Z.of_nat i)) with (S i) by lia; exact Hx).
    unfold mem_layer. rewrite Hb, Hx. cbn [option_fmap option_map fmap].
    do 2 f_equal. lia.
  - rewrite lookup_seqZ_ge, lookup_ge_None_2 by lia. done.
Qed.

Context (bms : list B) (m : gmap Z Z) (Hrep : mem_rep bms m).

Lemma clone_all : bm_elems (bm_clone (bitmap_at bms 0)) = dom m.
Proof. rewrite elems_clone. apply (mem_all _ _ Hrep). Qed.

Lemma im_gte_spec v :
  is_u64 v -> bm_elems (im_mergeGreaterThanEqual bms v) = matching (fun k => v <=? k) m.
Proof.
  intros Hv. unfold im_mergeGreaterThanEqual.
  rewrite mem_entries_slices by apply (mem_len _ _ Hrep).
  apply merge_fold_gte; auto using clone_all.
  - intros b i Hb. unfold adds, mem_layer. cbn [Additions]. apply (mem_bits _ _ Hrep); lia.
  - apply (mem_u64 _ _ Hrep).
Qed.

Lemma im_between_spec v :
  is_u64 v -> v <> u64_max ->
  bm_elems (im_mergeBetween bms v (u64 (v + 1))) = matching (fun k => k =? v) m.
Proof.
  intros Hv Hm. unfold im_mergeBetween.
  rewrite mem_entries_slices by apply (mem_len _ _ Hrep).
  pose proof (merge_fold_between (mem_layer bms) m) as Hg.
  specialize (Hg ltac:(intros b i Hb; apply (mem_bits _ _ Hrep); lia) (mem_u64 _ _ Hrep) v
    (bm_clone (bitmap_at bms 0)) (bm_clone (bitmap_at bms 0)) clone_all clone_all Hv Hm).
  destruct (foldl _ _ _) as [[? mn] [? mx]]. rewrite elems_andnot. exact Hg.
Qed.

Ltac mem_case := unfold adds; cbn [oelems Additions];
  rewrite ?elems_andnot, ?elems_new, ?clone_all; cbn [oelems].
Ltac mem_ext := apply matching_ext; intros i k Hk; apply (mem_u64 _ _ Hrep) in Hk;
  unfold is_u64, u64_max in *; lia.

Lemma im_lt_spec v : is_u64 v -> adds (im_readLessThan bms v) = matching (fun k => k <? v) m.
Proof.
  intros Hv. unfold im_readLessThan. destruct (Z.eqb_spec v 0) as [->|Hn]; mem_case.
  - symmetry. apply matching_false. intros i k Hk. apply (mem_u64 _ _ Hrep) in Hk.
    unfold is_u64 in Hk. lia.
  - rewrite im_gte_spec, matching_neg by done. mem_ext.
Qed.

Lemma im_ge_spec v :
  is_u64 v -> adds (im_readGreaterThanEqual bms v) = matching (fun k => v <=? k) m.
Proof.
  intros Hv. unfold im_readGreaterThanEqual. destruct (Z.eqb_spec v 0) as [->|Hn]; mem_case.
  - rewrite <- matching_true. mem_ext.
  - by rewrite im_gte_spec.
Qed.

Lemma im_le_spec v :
  is_u64 v -> adds (im_readLessThanEqual bms v) = matching (fun k => k <=? v) m.
Proof.
  intros Hv. unfold im_readLessThanEqual. destruct (Z.eqb_spec v u64_max) as [->|Hn]; mem_case.
  - rewrite <- matching_true. mem_ext.
  - destruct (succ_u64 v Hv Hn) as [Hv1 ->]. rewrite im_gte_spec, matching_neg by done. mem_ext.
Qed.

Lemma im_gt_spec v : is_u64 v -> adds (im_readGreaterThan bms v) = matching (fun k => v <? k) m.
Proof.
  intros Hv. unfold im_readGreaterThan. destruct (Z.eqb_spec v u64_max) as [->|Hn]; mem_case.
  - symmetry. apply matching_false. intros i k Hk. apply (mem_u64 _ _ Hrep) in Hk.
    unfold is_u64, u64_max in *. lia.
  - destruct (succ_u64 v Hv Hn) as [Hv1 ->]. rewrite im_gte_spec by done. mem_ext.
Qed.

Lemma im_eq_spec v : is_u64 v -> adds (im_readEqual bms v) = matching (fun k => k =? v) m.
Proof.
  intros Hv. unfold im_readEqual.
  destruct (Z.eqb_spec v 0) as [E0|H0v]; [rewrite im_le_spec by done; mem_ext|].
  destruct (Z.eqb_spec v u64_max) as [Em|Hm]; [rewrite im_ge_spec by done; mem_ext|].
  mem_case. by apply im_between_spec.
Qed.

Lemma im_ne_spec v :
  is_u64 v -> adds (im_readNotEqual bms v) = matching (fun k => negb (k =? v)) m.
Proof.
  intros Hv. unfold im_readNotEqual.
  destruct (Z.eqb_spec v 0) as [E0|H0v]; [rewrite im_gt_spec by done; mem_ext|].
  destruct (Z.eqb_spec v u64_max) as [Em|Hm]; [rewrite im_lt_spec by done; mem_ext|].
  mem_case. by rewrite im_between_spec, matching_neg by done.
Qed.

Lemma im_Read_spec v op f :
  is_u64 v -> compare_op op = Some f ->
  exists l, im_Read bms CtxLive v op = Ok l /\ adds l = matching (fun k => f k v) m /\
    Additions l <> None /\ Deletions l = None.
Proof.
  intros Hv Hop. unfold im_Read. cbn [ctx_err_on_entry].
  destruct op; cbn in Hop; simplify_eq; eexists; (split; [reflexivity|]); split;
    auto using im_lt_spec, im_ge_spec, im_le_spec, im_gt_spec, im_eq_spec, im_ne_spec;
    unfold im_readEqual, im_readNotEqual, im_readLessThan, im_readLessThanEqual,
      im_readGreaterThan, im_readGreaterThanEqual;
    repeat case_match; done.
Qed.
End InMemorySpec.

(** * The combined reader *)

Section CombinedSpec.
Context {B : Type} `{SroarLaws B}.

Definition NewSegmentReader {C} `{SegmentCursor B C} (c : GaplessSegmentCursor B C)
  : InnerReader B :=
  Reader (fun ctx v op => let! (l, _) := sr_Read ctx v op c in Ok l).
Definition NewMemtableReader (m : Memtable) : InnerReader B := Reader (mr_Read m).
Definition NewInMemoryReader (bms : list B) : InnerReader B := Reader (im_Read bms).

(** What an inner reader promises the combined one: on a live context it
    answers every supported comparison with the matching ids of its own
    assignment; [reads_delta] also fixes the ids it hides. *)
Definition reads_base (r : InnerReader B) (m : gmap Z Z) : Prop :=
  forall v op f, is_u64 v -> compare_op op = Some f ->
    exists l, ir_Read r CtxLive v op = Ok l /\ Additions l <> None /\
      adds l = matching (fun k => f k v) m.

Definition reads_delta (r : InnerReader B) (d : delta) : Prop :=
  forall v op f, is_u64 v -> compare_op op = Some f ->
    exists l, ir_Read r CtxLive v op = Ok l /\ Additions l <> None /\
      adds l = matching (fun k => f k v) (d_adds d) /\ dels l = d_dels d.

Lemma reads_delta_base r d : reads_delta r d -> reads_base r (d_adds d).
Proof. intros Hr v op f Hv Hop. destruct (Hr v op f Hv Hop) as (l & ? & ? & ? & _). eauto. Qed.

Lemma memtable_reads_delta m : reads_delta (NewMemtableReader m) (memtable_delta m).
Proof.
  intros v op f Hv Hop. cbn [NewMemtableReader ir_Read]. unfold mr_Read.
  cbn [ctx_err_on_entry].
  destruct op; cbn in Hop; simplify_eq; eexists; (split; [reflexivity|]);
    (split; [unfold mr_read; by rewrite elems_mr_additions|]); apply mr_read_spec.
Qed.

Lemma segment_reads_delta {C} `{CL : CursorLaws B C} (c : C) ns d rest :
  segment_rep ns d -> cur_inv c ns rest ->
  reads_delta (NewSegmentReader (NewGaplessSegmentCursor c)) d.
Proof.
  intros Hrep Hi v op f Hv Hop. cbn [NewSegmentReader ir_Read].
  pose proof (gapless_new c ns rest (rep_sorted _ _ Hrep) (rep_nonneg _ _ Hrep) Hi) as Hg.
  assert (Hs : at_start (C := GaplessSegmentCursor B C) ns (NewGaplessSegmentCursor c))
    by (eexists; exact Hg).
  destruct (sr_Read_spec ns d Hrep v op f _ Hs Hv Hop) as (l & r' & -> & Hn & Ha & Hd).
  cbn. eauto.
Qed.

Lemma memory_reads_base bms m : mem_rep bms m -> reads_base (NewInMemoryReader bms) m.
Proof.
  intros Hrep v op f Hv Hop. destruct (im_Read_spec bms m Hrep v op f Hv Hop) as (l & ? & ? & ? & _).
  eauto.
Qed.

(** ** Merging the responses *)

Lemma merge_responses_ok v op f (rs : list (InnerReader B)) (ds : list delta) :
  is_u64 v -> compare_op op = Some f ->
  Forall2 reads_delta rs ds -> Forall delta_ok ds ->
  forall b m, bm_elems b = matching (fun k => f k v) m ->
  exists b', merge_responses (Some b, []) (map (fun r => ir_Read r CtxLive v op) rs)
             = Ok (Some b', []) /\
    bm_elems b' = matching (fun k => f k v) (foldl apply_delta m ds).
Proof.
  intros Hv Hop Hrs. induction Hrs as [|r d rs ds Hr Hrs IH]; intros Hok b m Hb; cbn.
  { eauto. }
  inversion_clear Hok as [|? ? Hd Hok'].
  destruct (Hr v op f Hv Hop) as (l & -> & _ & Ha & Hdl). cbn.
  apply IH; [done|]. rewrite elems_or, elems_andnot. fold (adds l) (dels l).
  by rewrite Ha, Hdl, Hb, matching_apply.
Qed.

Lemma cr_Read_ok r0 m0 rs ds v op f :
  is_u64 v -> compare_op op = Some f ->
  reads_base r0 m0 -> Forall2 reads_delta rs ds -> Forall delta_ok ds ->
  exists b, cr_Read (map (fun r => (r, CtxLive)) (r0 :: rs)) v op = Ok (Some b) /\
    bm_elems b = matching (fun k => f k v) (foldl apply_delta m0 ds).
Proof.
  intros Hv Hop Hr0 Hrs Hok. destruct (Hr0 v op f Hv Hop) as (l0 & H0l & Hn & Ha0).
  destruct l0 as [[a0|] dl0]; [|done]. unfold adds in Ha0. cbn in Ha0.
  destruct (merge_responses_ok v op f rs ds Hv Hop Hrs Hok a0 m0 Ha0) as (b & Hm & Hb).
  destruct rs as [|r1 rs].
  - inversion Hrs; subst. cbn. rewrite H0l. cbn. eauto.
  - cbn [map cr_Read]. rewrite H0l. cbn [obind Additions].
    cbn [map] in Hm. rewrite map_map. rewrite Hm. cbn. eauto.
Qed.

(** Any failing reader makes the merged response list carry an error. *)
Lemma merge_responses_err os : forall acc acc',
  merge_responses acc os = Ok acc' ->
  acc.2 <> [] \/ (exists e, Err e ∈ os) -> acc'.2 <> [].
Proof.
  induction os as [|o os IH]; intros [layer ec] acc' Hm Hor.
  - cbn in Hm. simplify_eq. destruct Hor as [?|[e He]]; [done|set_solver].
  - cbn [merge_responses] in Hm. apply obind_Ok_inv in Hm as ([layer' ec'] & Hs & Hm).
    apply (IH _ _ Hm). cbn in *.
    destruct o as [resp|e| |]; cbn in Hs; simplify_eq.
    + destruct (decide (ec = [])) as [->|Hec].
      * right. destruct Hor as [?|[e He]]; [done|]. exists e. set_solver.
      * left. simplify_eq. done.
    + left. simplify_eq. by destruct ec.
Qed.
End CombinedSpec.

(** * Properties *)

Section Claims.
Context {B : Type} `{SroarLaws B}.

(** A [SegmentReader] over a gapless cursor of a segment that represents
    the delta [d] answers each of the six comparisons with exactly the ids of
    [d] whose value satisfies it and exactly the ids [d] hides; operators that
    are not comparisons are refused with an error. *)
Lemma segment_reader_correct {C : Type} `{CL : CursorLaws B C} (c : C)
    (ns rest : list (node B)) (d : delta) (v : Z) (op : Operator) :
  segment_rep ns d -> cur_inv c ns rest -> is_u64 v ->
  match compare_op op with
  | Some f => exists l,
      ir_Read (NewSegmentReader (NewGaplessSegmentCursor c)) CtxLive v op = Ok l /\
      adds l = matching (fun k => f k v) (d_adds d) /\ dels l = d_dels d
  | None =>
      ir_Read (NewSegmentReader (NewGaplessSegmentCursor c)) CtxLive v op = Err ErrOperator
  end.
Proof.
  intros Hrep Hi Hv. destruct (compare_op op) as [f|] eqn:Hop.
  - destruct (segment_reads_delta c ns d rest Hrep Hi v op f Hv Hop) as (l & ? & _ & ? & ?).
    eauto.
  - destruct op; cbn in Hop; simplify_eq; done.
Qed.

(** The in-memory reader over bitmaps that represent the assignment [m]
    answers each comparison with exactly the ids whose value satisfies it and
    hides nothing. *)
Lemma memory_reader_correct (bms : list B) (m : gmap Z Z) (v : Z) (op : Operator) :
  mem_rep bms m -> is_u64 v ->
  match compare_op op with
  | Some f => exists l, im_Read bms CtxLive v op = Ok l /\
      adds l = matching (fun k => f k v) m /\ dels l = ∅
  | None => im_Read bms CtxLive v op = Err ErrOperator
  end.
Proof.
  intros Hrep Hv. destruct (compare_op op) as [f|] eqn:Hop.
  - destruct (im_Read_spec bms m Hrep v op f Hv Hop) as (l & ? & ? & _ & Hd).
    exists l. unfold dels. rewrite Hd. done.
  - destruct op; cbn in Hop; simplify_eq; done.
Qed.

(** C30: end to end, a bucket whose base reader holds the assignment [m0] and
    whose later segments and memtables hold the deltas [ds] (oldest first)
    answers a comparison with exactly the ids whose latest value satisfies
    it: deltas override and hide older values in order. *)
Theorem combined_read_correct (r0 : InnerReader B) (m0 : gmap Z Z)
    (rs : list (InnerReader B)) (ds : list delta) (v : Z) (op : Operator) (f : Z -> Z -> bool) :
  reads_base r0 m0 -> Forall2 reads_delta rs ds -> Forall delta_ok ds ->
  is_u64 v -> compare_op op = Some f ->
  exists b, cr_Read (map (fun r => (r, CtxLive)) (r0 :: rs)) v op = Ok (Some b) /\
    forall i, i ∈ bm_elems b <->
      exists k, foldl apply_delta m0 ds !! i = Some k /\ f k v = true.
Proof.
  intros Hr0 Hrs Hok Hv Hop.
  destruct (cr_Read_ok r0 m0 rs ds v op f Hv Hop Hr0 Hrs Hok) as (b & Hb & He).
  exists b. split; [done|]. intros i. rewrite He, elem_of_matching. done.
Qed.

(** A combined read never hides a failure: whenever one of the inner
    readers returns an error, the combined read does not return a bitmap. *)
Lemma combined_read_fails (readers : list (InnerReader B * context)) (v : Z)
    (op : Operator) (r : InnerReader B) (ctx : context) (e : range_error) :
  (r, ctx) ∈ readers -> ir_Read r ctx v op = Err e ->
  forall b, cr_Read readers v op <> Ok b.
Proof.
  intros Hin He b Hb. destruct readers as [|[r0 c0] rest]; [set_solver|].
  destruct rest as [|rc1 rest].
  { apply list_elem_of_singleton in Hin. simplify_eq. cbn in Hb. rewrite He in Hb. done. }
  set (rs := rc1 :: rest) in *.
  assert (Hb' : exists acc acc', merge_responses acc
      (map (fun '(r, ctx) => ir_Read r ctx v op) rs) = Ok acc' /\ acc'.2 = [] /\
      (forall e', ir_Read r0 c0 v op = Err e' -> acc.2 <> [])).
  { unfold cr_Read in Hb. fold rs in Hb. subst rs. cbn beta iota in Hb.
    destruct (ir_Read r0 c0 v op) as [l|e0| |] eqn:E0; try discriminate; cbn [obind] in Hb;
    (destruct (merge_responses _ _) as [[lay ec]|e1| |] eqn:Em in Hb; try discriminate);
    cbn in Hb; (case_decide; [|discriminate]); subst;
    eexists _, _; (split; [exact Em|]); (split; [done|]); intros e' He'; simplify_eq; done. }
  destruct Hb' as (acc & acc' & Hm & Hnil & H0e).
  apply (merge_responses_err _ _ _ Hm); [|done].
  apply elem_of_cons in Hin as [Heq|Hin].
  - left. simplify_eq. eauto.
  - right. exists e. apply list_elem_of_fmap. exists (r, ctx). done.
Qed.

(** Once the context is cancelled while nodes are streamed, a
    greater-or-equal merge reports the cancellation and never returns the
    partially merged bitmap. *)
Lemma merge_gte_cancelled {C : Type} `{CL : CursorLaws B C} (n : nat) (v : Z) (all : B)
    (c : C) (all_nodes rest : list (node B)) :
  cur_inv c all_nodes rest -> (length rest < stream_fuel)%nat ->
  mergeGreaterThanEqual (CtxCancelledAfter n) v all c = Err ErrCtx.
Proof.
  intros Hi Hf. unfold mergeGreaterThanEqual.
  destruct (next_all_spec rest stream_fuel c all_nodes Hi Hf) as (c' & -> & _).
  cbn [obind]. by destruct (foldl _ _ _).
Qed.
End Claims.

(** * Witnesses *)

Section Witnesses.
Import SetBitmap.

(** One document, id 7, with the value 6. *)
Definition wit_mt : Memtable := mt_Insert NewMemtable 6 [7].
Definition wit_ns : list (node (gset Z)) := map reload (map mnode_node (mt_Nodes wit_mt)).
Definition wit_payload : list Z := encode_nodes (map mnode_node (mt_Nodes (B := gset Z) wit_mt)).
Definition wit_rcur : SegmentCursorMmap := NewSegmentCursorMmap (Buf (wit_payload ++ []) (length wit_payload)).

Lemma witness_rep : segment_rep wit_ns (memtable_delta wit_mt).
Proof.
  assert (Hr : segment_rep (B := gset Z) (map mnode_node (mt_Nodes wit_mt)) (memtable_delta wit_mt)).
  { apply mt_Nodes_rep. intros i k. unfold wit_mt, mt_Insert, NewMemtable. cbn [additions foldl].
    rewrite lookup_insert_Some, lookup_empty. unfold is_u64. naive_solver lia. }
  assert (Hns : wit_ns = map mnode_node (mt_Nodes wit_mt)) by (vm_compute; reflexivity).
  rewrite Hns. exact Hr.
Qed.

Lemma witness_cursor : cur_inv (B := gset Z) wit_rcur wit_ns wit_ns.
Proof. apply mmap_inv_new. vm_compute. reflexivity. Qed.

Lemma segment_reader_correct_witness :
  exists l, ir_Read (NewSegmentReader (NewGaplessSegmentCursor wit_rcur)) CtxLive 6 OperatorEqual = Ok l
    /\ adds l = ({[7]} : gset Z).
Proof.
  destruct (segment_reader_correct wit_rcur wit_ns wit_ns (memtable_delta wit_mt) 6 OperatorEqual
    witness_rep witness_cursor ltac:(unfold is_u64; lia)) as (l & Hl & Ha & _).
  exists l. split; [exact Hl|]. rewrite Ha. vm_compute. reflexivity.
Defined.

Lemma witness_mem_rep : mem_rep (B := gset Z) (repeat ∅ 65) ∅.
Proof.
  split; [done|by rewrite dom_empty_L| |intros i k; by rewrite lookup_empty].
  intros b i Hb. change (repeat ?x ?n) with (replicate n x).
  rewrite lookup_replicate_2 by lia. cbn. split; [set_solver|].
  intros (k & Hk & _). by rewrite lookup_empty in Hk.
Qed.

Lemma memory_reader_correct_witness :
  exists l, im_Read (B := gset Z) (repeat ∅ 65) CtxLive 3 OperatorLessThan = Ok l /\ dels l = ∅.
Proof.
  destruct (memory_reader_correct (repeat ∅ 65) ∅ 3 OperatorLessThan witness_mem_rep
    ltac:(unfold is_u64; lia)) as (l & Hl & _ & Hd).
  exists l. split; [exact Hl|exact Hd].
Defined.

Lemma combined_read_correct_witness :
  exists b, cr_Read (B := gset Z) (map (fun r => (r, CtxLive))
    [NewInMemoryReader (repeat ∅ 65); NewMemtableReader wit_mt]) 5 OperatorGreaterThan = Ok (Some b)
    /\ 7 ∈ bm_elems b.
Proof.
  destruct (combined_read_correct (NewInMemoryReader (repeat ∅ 65)) ∅
    [NewMemtableReader wit_mt] [memtable_delta wit_mt] 5 OperatorGreaterThan (fun k v => v <? k))
    as (b & Hb & Hi).
  - apply memory_reads_base, witness_mem_rep.
  - repeat constructor. apply memtable_reads_delta.
  - repeat constructor. apply memtable_delta_ok.
  - unfold is_u64; lia.
  - reflexivity.
  - exists b. split; [exact Hb|]. apply Hi. exists 6. split; vm_compute; reflexivity.
Defined.

Lemma combined_read_fails_witness :
  cr_Read (B := gset Z) [(NewMemtableReader wit_mt, CtxLive); (NewMemtableReader wit_mt, CtxCancelled)]
    6 OperatorEqual <> Ok None.
Proof.
  apply (combined_read_fails _ 6 OperatorEqual (NewMemtableReader wit_mt) CtxCancelled ErrCtx).
  - right. left.
  - reflexivity.
Defined.

Lemma merge_gte_cancelled_witness :
  mergeGreaterThanEqual (B := gset Z) (CtxCancelledAfter 1) 6 {[7]} wit_rcur = Err ErrCtx.
Proof.
  apply (merge_gte_cancelled 1 6 {[7]} wit_rcur wit_ns wit_ns witness_cursor). vm_compute. lia.
Defined.

Definition wit_seg : InnerReader (gset Z) := NewSegmentReader (NewGaplessSegmentCursor wit_rcur).

Definition read_adds (r : InnerReader (gset Z)) (ctx : context) (v : Z) (op : Operator)
  : outcome range_error (gset Z) :=
  let! l := ir_Read r ctx v op in Ok (adds l).

(** The equality merge lacks that check.  On a segment whose only document
    (id 7) has the value 6, [Equal 6] answers {7} on a live context; when the
    context is cancelled before the first node is streamed it answers the
    empty set, and [NotEqual 6] answers {7}, both without an error, where
    [GreaterThanEqual 6] reports the cancellation. *)
Lemma read_equal_cancelled_partial :
  read_adds wit_seg CtxLive 6 OperatorEqual = Ok {[7]} /\
  read_adds wit_seg (CtxCancelledAfter 0) 6 OperatorEqual = Ok ∅ /\
  read_adds wit_seg (CtxCancelledAfter 0) 6 OperatorNotEqual = Ok {[7]} /\
  read_adds wit_seg (CtxCancelledAfter 0) 6 OperatorGreaterThanEqual = Err ErrCtx.
Proof. repeat split; vm_compute; reflexivity. Qed.
End Witnesses.
