(* ===== verification/RangeCompactor.v ===== *)
(** * adapters/repos/db/roaringsetrange/compactor.go

    [nodeCompactor] walks the cursors of an older (left) and a newer (right)
    segment in key order and writes the merged nodes.  The writer's own I/O
    errors are not modelled; [ctx i] is what [ctx.Err()] answers in iteration
    [i] (it is probed every [AbortCheckEveryN] iterations). *)

From S2P Require Import Prelude Sroar ByteOps RoaringSet RangeSegment RangeMemtable RangeReader.

Definition AbortCheckEveryN : nat := 1024.

Section Compactor.
Context {B : Type} `{SroarLaws B}.

Record nodeCompactor : Type := NC {
  nc_out : list Z;            (* the bytes handed to bufw *)
  nc_written : Z
}.

Definition cleanupLayer (cleanupDeletions : bool) (key : Z) (layer : BitmapLayer B)
  : option (BitmapLayer B) :=
  if bm_isempty (Additions layer) then
    if negb (key =? 0) || cleanupDeletions || bm_isempty (Deletions layer) then None
    else Some (Layer (Some bm_new) (Some (Condense (Deletions layer))))
  else
    let additions := Condense (Additions layer) in
    let deletions :=
      if key =? 0 then
        if cleanupDeletions || bm_isempty (Deletions layer) then Some bm_new
        else Some (Condense (Deletions layer))
      else None in
    Some (Layer (Some additions) deletions).

Definition writeLayer (cleanupDeletions : bool) (nc : nodeCompactor) (key : Z)
    (layer : BitmapLayer B) : outcome range_error nodeCompactor :=
  match cleanupLayer cleanupDeletions key layer with
  | None => Ok nc
  | Some clean =>
      let! sn := omap_err ErrNode (NewSegmentNode key (Additions clean) (Deletions clean)) in
      let! buf := omap_err ErrNode (sn_ToBuffer sn) in
      let bs := buf_bytes buf in
      Ok (NC (nc_out nc ++ bs) (nc_written nc + Z.of_nat (length bs)))
  end.

Definition mergeLayers (deletionsLeft deletionsRight : B) (key : Z)
    (additionsLeft additionsRight : option B) : BitmapLayer B :=
  let additions := bm_clone additionsLeft in
  let additions := bm_andnot additions (Some deletionsRight) in
  let additions := bm_or additions additionsRight in
  let deletions :=
    if key =? 0 then Some (bm_or (bm_clone (Some deletionsLeft)) (Some deletionsRight))
    else None in
  Layer (Some additions) deletions.

(** [if i % AbortCheckEveryN == 0 { if ctx.Err() != nil ... }] *)
Definition aborted (ctx : nat -> bool) (i : nat) : bool :=
  (i mod AbortCheckEveryN =? 0)%nat && ctx i.

Section Loops.
Context {C1 C2 : Type} `{SegmentCursor B C1, SegmentCursor B C2}.
Context (cleanupDeletions : bool) (ctx : nat -> bool).

(** One segment is empty: take the other one. *)
Fixpoint copy_loop {C} `{SegmentCursor B C} (fuel : nat) (i : nat) (nc : nodeCompactor)
    (key : Z) (layer : BitmapLayer B) (ok : bool) (c : C) : outcome range_error nodeCompactor :=
  if negb ok then Ok nc
  else match fuel with
       | O => OutOfFuel
       | S fuel =>
           if aborted ctx i then Err ErrCtx
           else
             let! nc := writeLayer cleanupDeletions nc key layer in
             let! (key, layer, ok, c) := cur_Next c in
             copy_loop fuel (S i) nc key layer ok c
       end.

Fixpoint merge_loop (deletionsLeft deletionsRight : B) (fuel : nat) (i : nat)
    (nc : nodeCompactor)
    (keyLeft : Z) (layerLeft : BitmapLayer B) (okLeft : bool) (left_ : C1)
    (keyRight : Z) (layerRight : BitmapLayer B) (okRight : bool) (right_ : C2)
  : outcome range_error nodeCompactor :=
  if negb (okLeft || okRight) then Ok nc
  else match fuel with
       | O => OutOfFuel
       | S fuel =>
           if aborted ctx i then Err ErrCtx
           else if okLeft && (negb okRight || (keyLeft <? keyRight)) then
             let m := mergeLayers deletionsLeft deletionsRight keyLeft
                        (Additions layerLeft) (Some bm_new) in
             let! nc := writeLayer cleanupDeletions nc keyLeft m in
             let! (keyLeft, layerLeft, okLeft, left_) := cur_Next left_ in
             merge_loop deletionsLeft deletionsRight fuel (S i) nc
               keyLeft layerLeft okLeft left_ keyRight layerRight okRight right_
           else if okRight && (negb okLeft || (keyRight <? keyLeft)) then
             let m := mergeLayers deletionsLeft deletionsRight keyRight
                        (Some bm_new) (Additions layerRight) in
             let! nc := writeLayer cleanupDeletions nc keyRight m in
             let! (keyRight, layerRight, okRight, right_) := cur_Next right_ in
             merge_loop deletionsLeft deletionsRight fuel (S i) nc
               keyLeft layerLeft okLeft left_ keyRight layerRight okRight right_
           else
             let m := mergeLayers deletionsLeft deletionsRight keyLeft
                        (Additions layerLeft) (Additions layerRight) in
             let! nc := writeLayer cleanupDeletions nc keyLeft m in
             let! (keyLeft, layerLeft, okLeft, left_) := cur_Next left_ in
             let! (keyRight, layerRight, okRight, right_) := cur_Next right_ in
             merge_loop deletionsLeft deletionsRight fuel (S i) nc
               keyLeft layerLeft okLeft left_ keyRight layerRight okRight right_
       end.

Definition loopThroughKeys (fuel : nat) (left_ : C1) (right_ : C2)
  : outcome range_error nodeCompactor :=
  let! (keyLeft, layerLeft, okLeft, left_) := cur_First left_ in
  let! (keyRight, layerRight, okRight, right_) := cur_First right_ in
  let nc := NC [] 0 in
  if okLeft && negb (keyLeft =? 0) then Err ErrLeftMissingKey0
  else if okRight && negb (keyRight =? 0) then Err ErrRightMissingKey0
  else if negb okLeft && negb okRight then Ok nc
  else if negb okLeft then copy_loop fuel 0 nc keyRight layerRight okRight right_
  else if negb okRight then copy_loop fuel 0 nc keyLeft layerLeft okLeft left_
  else
    let deletionsLeft :=
      if negb (bm_isempty (Deletions layerLeft)) then bm_clone (Deletions layerLeft) else bm_new in
    let deletionsRight :=
      if negb (bm_isempty (Deletions layerRight)) then bm_clone (Deletions layerRight) else bm_new in
    merge_loop deletionsLeft deletionsRight fuel 0 nc
      keyLeft layerLeft okLeft left_ keyRight layerRight okRight right_.
End Loops.

(** * The nodes a compaction writes *)

Definition clean_node (cleanup : bool) (n : node B) : option (node B) :=
  match cleanupLayer cleanup n.1 n.2 with
  | Some l => Some (n.1, l)
  | None => None
  end.

Fixpoint merge_nodes (dl dr : B) (ns1 : list (node B)) : list (node B) -> list (node B) :=
  fix go (ns2 : list (node B)) : list (node B) :=
    match ns1, ns2 with
    | [], [] => []
    | (k1, l1) :: r1, [] =>
        (k1, mergeLayers dl dr k1 (Additions l1) (Some bm_new)) :: merge_nodes dl dr r1 []
    | [], (k2, l2) :: r2 =>
        (k2, mergeLayers dl dr k2 (Some bm_new) (Additions l2)) :: go r2
    | (k1, l1) :: r1, (k2, l2) :: r2 =>
        if k1 <? k2 then
          (k1, mergeLayers dl dr k1 (Additions l1) (Some bm_new)) :: merge_nodes dl dr r1 ns2
        else if k2 <? k1 then
          (k2, mergeLayers dl dr k2 (Some bm_new) (Additions l2)) :: go r2
        else
          (k1, mergeLayers dl dr k1 (Additions l1) (Additions l2)) :: merge_nodes dl dr r1 r2
    end.

Lemma merge_nodes_eq dl dr ns1 ns2 :
  merge_nodes dl dr ns1 ns2 =
  match ns1, ns2 with
  | [], [] => []
  | (k1, l1) :: r1, [] =>
      (k1, mergeLayers dl dr k1 (Additions l1) (Some bm_new)) :: merge_nodes dl dr r1 []
  | [], (k2, l2) :: r2 =>
      (k2, mergeLayers dl dr k2 (Some bm_new) (Additions l2)) :: merge_nodes dl dr [] r2
  | (k1, l1) :: r1, (k2, l2) :: r2 =>
      if k1 <? k2 then
        (k1, mergeLayers dl dr k1 (Additions l1) (Some bm_new)) :: merge_nodes dl dr r1 ns2
      else if k2 <? k1 then
        (k2, mergeLayers dl dr k2 (Some bm_new) (Additions l2)) :: merge_nodes dl dr ns1 r2
      else
        (k1, mergeLayers dl dr k1 (Additions l1) (Additions l2)) :: merge_nodes dl dr r1 r2
  end.
Proof. by destruct ns1 as [|[k1 l1] r1], ns2 as [|[k2 l2] r2]. Qed.

Definition compact_nodes (cleanup : bool) (dl dr : B) (ns1 ns2 : list (node B))
  : list (node B) :=
  match ns1, ns2 with
  | [], _ => omap (clean_node cleanup) ns2
  | _, [] => omap (clean_node cleanup) ns1
  | _, _ => omap (clean_node cleanup) (merge_nodes dl dr ns1 ns2)
  end.

(** The deletions taken from the first node of a segment. *)
Definition first_deletions (ns : list (node B)) : B :=
  match ns with
  | (_, l) :: _ => if negb (bm_isempty (Deletions l)) then bm_clone (Deletions l) else bm_new
  | [] => bm_new
  end.

(** ** The loops write exactly these nodes *)

(** [nc'] is [nc] after the nodes [ns] were written. *)
Definition appended (nc nc' : nodeCompactor) (ns : list (node B)) : Prop :=
  nc_out nc' = nc_out nc ++ encode_nodes ns /\
  nc_written nc' = nc_written nc + Z.of_nat (length (encode_nodes ns)).

Lemma appended_trans nc nc' nc'' ns ms :
  appended nc nc' ns -> appended nc' nc'' ms -> appended nc nc'' (ns ++ ms).
Proof.
  intros [H1 W1] [H2 W2]. split.
  - by rewrite H2, H1, encode_nodes_app, app_assoc.
  - rewrite W2, W1, encode_nodes_app. lens.
Qed.

Lemma writeLayer_spec cleanup nc key layer :
  Forall node_fits (omap (clean_node cleanup) [(key, layer)]) ->
  exists nc', writeLayer cleanup nc key layer = Ok nc' /\
    appended nc nc' (omap (clean_node cleanup) [(key, layer)]).
Proof.
  unfold writeLayer, clean_node, appended. cbn [omap list_omap fst snd].
  destruct (cleanupLayer cleanup key layer) as [[a dd]|]; intros Hf.
  - inversion_clear Hf as [|? ? Hn _]. cbn [Additions Deletions].
    rewrite NewSegmentNode_encode by done. cbn [omap_err obind].
    rewrite sn_ToBuffer_encode by done. cbn [omap_err obind].
    eexists; split; [done|]. cbn [nc_out nc_written].
    unfold buf_bytes, buf_of. cbn [buf_len buf_mem]. rewrite firstn_all.
    unfold encode_nodes. cbn. by rewrite app_nil_r.
  - eexists; split; [done|]. cbn. rewrite app_nil_r. split; [done|lia].
Qed.

(** The cursor [c], whose last answer was [(key, layer, ok)], still has [ns] to
    deliver, that answer included. *)
Definition on_nodes {C} `{CursorLaws B C} (c : C) (all : list (node B))
    (key : Z) (layer : BitmapLayer B) (ok : bool) (ns : list (node B)) : Prop :=
  if ok then exists rest, ns = (key, layer) :: rest /\ cur_inv c all rest
  else ns = [] /\ cur_inv c all [].

Lemma next_on {C} `{CursorLaws B C} (c : C) all rest :
  cur_inv c all rest ->
  exists k l ok c', cur_Next c = Ok (k, l, ok, c') /\ on_nodes c' all k l ok rest.
Proof.
  intros Hi. destruct rest as [|[k l] rest].
  - destruct (next_nil _ _ Hi) as (c' & -> & Hi'). eexists _, _, false, c'. done.
  - destruct (next_cons _ _ _ _ _ Hi) as (c' & -> & Hi'). eexists k, l, true, c'.
    split; [done|]. eexists; done.
Qed.

Lemma first_on {C} `{CursorLaws B C} (c : C) all rest :
  cur_inv c all rest ->
  exists k l ok c', cur_First c = Ok (k, l, ok, c') /\ on_nodes c' all k l ok all.
Proof.
  intros Hi. destruct all as [|[k l] ns].
  - destruct (first_nil _ _ Hi) as (c' & -> & Hi'). eexists _, _, false, c'. done.
  - destruct (first_cons _ _ _ _ _ Hi) as (c' & -> & Hi'). eexists k, l, true, c'.
    split; [done|]. eexists; done.
Qed.

Lemma omap_clean_cons cleanup n ns :
  omap (clean_node cleanup) (n :: ns)
  = omap (clean_node cleanup) [n] ++ omap (clean_node cleanup) ns.
Proof. cbn. by destruct (clean_node cleanup n). Qed.

Section LoopSpecs.
Context (cleanup : bool) (ctx : nat -> bool) (Hctx : forall i, ctx i = false).

Lemma not_aborted i : aborted ctx i = false.
Proof. unfold aborted. by rewrite Hctx, andb_false_r. Qed.

Lemma copy_loop_spec {C} `{CursorLaws B C} all ns : forall fuel i nc key layer ok (c : C),
  on_nodes c all key layer ok ns -> (length ns <= fuel)%nat ->
  Forall node_fits (omap (clean_node cleanup) ns) ->
  exists nc', copy_loop cleanup ctx fuel i nc key layer ok c = Ok nc' /\
    appended nc nc' (omap (clean_node cleanup) ns).
Proof.
  induction ns as [|n ns IH]; intros fuel i nc key layer ok c Hon Hf Hfit;
    destruct ok; cbn in Hon.
  - by destruct Hon as (rest & Hr & _).
  - exists nc. split; [by destruct fuel|]. split; cbn; [by rewrite app_nil_r|lia].
  - destruct Hon as (rest & Hr & Hi). simplify_eq.
    destruct fuel as [|fuel]; [simpl in Hf; lia|]. cbn [copy_loop negb].
    rewrite not_aborted. rewrite omap_clean_cons in Hfit |- *.
    apply Forall_app in Hfit as [Hfn Hfr].
    destruct (writeLayer_spec cleanup nc key layer Hfn) as (nc1 & -> & Ha1). cbn [obind].
    destruct (next_on c all rest Hi) as (k' & l' & ok' & c' & -> & Hon'). cbn [obind].
    destruct (IH fuel (S i) nc1 k' l' ok' c' Hon') as (nc2 & -> & Ha2);
      [simpl in Hf; lia|done|]. eauto using appended_trans.
  - by destruct Hon.
Qed.

(** Writing one merged node and going on. *)
Lemma write_then nc n ns (k : nodeCompactor -> outcome range_error nodeCompactor) :
  Forall node_fits (omap (clean_node cleanup) (n :: ns)) ->
  (forall nc1, Forall node_fits (omap (clean_node cleanup) ns) ->
     exists nc2, k nc1 = Ok nc2 /\ appended nc1 nc2 (omap (clean_node cleanup) ns)) ->
  exists nc2, obind (writeLayer cleanup nc n.1 n.2) k = Ok nc2 /\
    appended nc nc2 (omap (clean_node cleanup) (n :: ns)).
Proof.
  destruct n as [key l]. intros Hfn Hk. rewrite omap_clean_cons in Hfn |- *.
  apply Forall_app in Hfn as [Hfn Hfr].
  destruct (writeLayer_spec cleanup nc key l Hfn) as (nc1 & Hw & Ha1).
  cbn [fst snd]. rewrite Hw. cbn [obind].
  destruct (Hk nc1 Hfr) as (nc2 & -> & Ha2). eauto using appended_trans.
Qed.

Lemma merge_loop_spec {C1 C2} `{CursorLaws B C1, CursorLaws B C2} dl dr all1 all2 :
  forall fuel ns1 ns2 i nc k1 l1 ok1 (c1 : C1) k2 l2 ok2 (c2 : C2),
  on_nodes c1 all1 k1 l1 ok1 ns1 -> on_nodes c2 all2 k2 l2 ok2 ns2 ->
  (length ns1 + length ns2 <= fuel)%nat ->
  Forall node_fits (omap (clean_node cleanup) (merge_nodes dl dr ns1 ns2)) ->
  exists nc', merge_loop cleanup ctx dl dr fuel i nc k1 l1 ok1 c1 k2 l2 ok2 c2 = Ok nc' /\
    appended nc nc' (omap (clean_node cleanup) (merge_nodes dl dr ns1 ns2)).
Proof.
  induction fuel as [|fuel IH];
    intros ns1 ns2 i nc k1 l1 ok1 c1 k2 l2 ok2 c2 Hon1 Hon2 Hf Hfit.
  { destruct ns1, ns2; simpl in Hf; try lia. destruct ok1; [by destruct Hon1 as (? & ? & _)|].
    destruct ok2; [by destruct Hon2 as (? & ? & _)|].
    exists nc. split; [done|]. split; cbn; [by rewrite app_nil_r|lia]. }
  cbn [merge_loop]. destruct ok1, ok2; cbn [orb negb andb].
  - destruct Hon1 as (r1 & -> & Hi1), Hon2 as (r2 & -> & Hi2).
    rewrite not_aborted. cbn [merge_nodes] in Hfit |- *. simpl in Hf.
    destruct (Z.ltb_spec k1 k2); [|destruct (Z.ltb_spec k2 k1)].
    + apply (write_then nc (k1, _)); [done|]. intros nc1 Hfr.
      destruct (next_on c1 all1 r1 Hi1) as (k' & l' & ok' & c' & -> & Hon'). cbn [obind].
      apply (IH r1 ((k2, l2) :: r2)); [done|by exists r2|simpl; lia|done].
    + apply (write_then nc (k2, _)); [done|]. intros nc1 Hfr.
      destruct (next_on c2 all2 r2 Hi2) as (k' & l' & ok' & c' & -> & Hon'). cbn [obind].
      apply (IH ((k1, l1) :: r1) r2); [by exists r1|done|simpl; lia|done].
    + apply (write_then nc (k1, _)); [done|]. intros nc1 Hfr.
      destruct (next_on c1 all1 r1 Hi1) as (k' & l' & ok' & c' & -> & Hon'). cbn [obind].
      destruct (next_on c2 all2 r2 Hi2) as (k'' & l'' & ok'' & c'' & -> & Hon''). cbn [obind].
      apply (IH r1 r2); [done|done|lia|done].
  - destruct Hon1 as (r1 & -> & Hi1), Hon2 as [-> Hi2].
    rewrite not_aborted. cbn [merge_nodes] in Hfit |- *. simpl in Hf.
    apply (write_then nc (k1, _)); [done|]. intros nc1 Hfr.
    destruct (next_on c1 all1 r1 Hi1) as (k' & l' & ok' & c' & -> & Hon'). cbn [obind].
    apply (IH r1 []); [done|done|simpl; lia|done].
  - destruct Hon1 as [-> Hi1], Hon2 as (r2 & -> & Hi2).
    rewrite not_aborted. cbn [merge_nodes] in Hfit |- *. simpl in Hf.
    apply (write_then nc (k2, _)); [done|]. intros nc1 Hfr.
    destruct (next_on c2 all2 r2 Hi2) as (k' & l' & ok' & c' & -> & Hon'). cbn [obind].
    apply (IH [] r2); [done|done|simpl; lia|done].
  - destruct Hon1 as [-> Hi1], Hon2 as [-> Hi2]. exists nc. split; [done|].
    split; cbn; [by rewrite app_nil_r|lia].
Qed.

Lemma loopThroughKeys_spec {C1 C2} `{CursorLaws B C1, CursorLaws B C2}
    (c1 : C1) (c2 : C2) ns1 ns2 rest1 rest2 fuel :
  cur_inv c1 ns1 rest1 -> cur_inv c2 ns2 rest2 ->
  (forall k l ns, ns1 = (k, l) :: ns -> k = 0) -> (forall k l ns, ns2 = (k, l) :: ns -> k = 0) ->
  (length ns1 + length ns2 <= fuel)%nat ->
  let out := compact_nodes cleanup (first_deletions ns1) (first_deletions ns2) ns1 ns2 in
  Forall node_fits out ->
  exists nc, loopThroughKeys cleanup ctx fuel c1 c2 = Ok nc /\ appended (NC [] 0) nc out.
Proof.
  intros Hi1 Hi2 Hk1 Hk2 Hf out Hfit. unfold loopThroughKeys.
  destruct (first_on c1 ns1 rest1 Hi1) as (k1 & l1 & ok1 & c1' & -> & Hon1). cbn [obind].
  destruct (first_on c2 ns2 rest2 Hi2) as (k2 & l2 & ok2 & c2' & -> & Hon2). cbn [obind].
  destruct ok1, ok2; cbn [andb negb].
  - destruct Hon1 as (r1 & -> & Hi1'), Hon2 as (r2 & -> & Hi2').
    pose proof (Hk1 _ _ _ eq_refl) as ->. pose proof (Hk2 _ _ _ eq_refl) as ->.
    cbn [Z.eqb negb].
    eapply merge_loop_spec; [by exists r1|by exists r2|done|exact Hfit].
  - destruct Hon1 as (r1 & -> & Hi1'), Hon2 as [-> Hi2'].
    pose proof (Hk1 _ _ _ eq_refl) as ->. cbn [Z.eqb negb].
    eapply copy_loop_spec; [by exists r1|simpl in *; lia|exact Hfit].
  - destruct Hon1 as [-> Hi1'], Hon2 as (r2 & -> & Hi2').
    pose proof (Hk2 _ _ _ eq_refl) as ->. cbn [Z.eqb negb].
    eapply copy_loop_spec; [by exists r2|simpl in *; lia|exact Hfit].
  - destruct Hon1 as [-> Hi1'], Hon2 as [-> Hi2']. eexists; split; [done|].
    split; cbn; [done|lia].
Qed.
End LoopSpecs.
(** ** What these nodes represent *)

Lemma keys_sorted_cons k l (ns : list (node B)) :
  keys_sorted ((k, l) :: ns) <-> keys_sorted ns /\ Forall (fun n => k < n.1) ns.
Proof.
  unfold keys_sorted. cbn [map fst]. split.
  - intros Hs. inversion_clear Hs as [|? ? Hs' Hall]. split; [done|].
    rewrite List.Forall_map in Hall. exact Hall.
  - intros [Hs Hall]. constructor; [done|]. by apply List.Forall_map.
Qed.

Lemma layer_at_above (ns : list (node B)) k j :
  Forall (fun n => k < n.1) ns -> j <= k -> layer_at ns j = empty_layer.
Proof.
  intros Hall Hj. apply layer_at_none. intros n Hn.
  rewrite Forall_forall in Hall. specialize (Hall n Hn). simpl in Hall. lia.
Qed.

Lemma adds_mergeLayers dl dr k a1 a2 :
  adds (mergeLayers dl dr k a1 a2) = (oelems a1 ∖ bm_elems dr) ∪ oelems a2.
Proof. unfold adds, mergeLayers. cbn [Additions oelems]. bm_solver. Qed.

Lemma adds_empty_layer : adds (empty_layer (B := B)) = ∅.
Proof. done. Qed.

(** The keys of a merge are those of the inputs, still in order. *)
Lemma merge_nodes_keys (P : Z -> Prop) dl dr ns1 : forall ns2,
  Forall (fun n => P n.1) ns1 -> Forall (fun n => P n.1) ns2 ->
  Forall (fun n => P n.1) (merge_nodes dl dr ns1 ns2).
Proof.
  induction ns1 as [|[k1 l1] r1 IH1]; intros ns2 H1 H2.
  - induction ns2 as [|[k2 l2] r2 IH2]; cbn [merge_nodes]; [done|].
    inversion_clear H2. constructor; auto.
  - inversion_clear H1 as [|? ? Hk1 Hr1].
    induction ns2 as [|[k2 l2] r2 IH2]; cbn [merge_nodes]; [constructor; auto|].
    inversion_clear H2 as [|? ? Hk2 Hr2].
    destruct (Z.ltb_spec k1 k2); [|destruct (Z.ltb_spec k2 k1)]; constructor; auto.
Qed.

Lemma merge_nodes_lower dl dr k ns1 ns2 :
  Forall (fun n => k < n.1) ns1 -> Forall (fun n => k < n.1) ns2 ->
  Forall (fun n => k < n.1) (merge_nodes dl dr ns1 ns2).
Proof. apply (merge_nodes_keys (fun j => k < j)). Qed.

Lemma merge_nodes_sorted dl dr ns1 : forall ns2,
  keys_sorted ns1 -> keys_sorted ns2 -> keys_sorted (merge_nodes dl dr ns1 ns2).
Proof.
  induction ns1 as [|[k1 l1] r1 IH1]; intros ns2 H1 H2.
  - induction ns2 as [|[k2 l2] r2 IH2]; cbn [merge_nodes]; [done|].
    apply keys_sorted_cons in H2 as [Hs2 Hl2]. apply keys_sorted_cons. split; [auto|].
    by apply (merge_nodes_lower dl dr k2 [] r2).
  - apply keys_sorted_cons in H1 as [Hs1 Hl1].
    induction ns2 as [|[k2 l2] r2 IH2]; cbn [merge_nodes].
    + apply keys_sorted_cons. split; [auto|]. by apply merge_nodes_lower.
    + apply keys_sorted_cons in H2 as [Hs2 Hl2].
      assert (Hup : forall j, j < k2 -> Forall (fun n => j < n.1) r2)
        by (intros j Hj; eapply Forall_impl; [exact Hl2|]; simpl; lia).
      assert (Hup1 : forall j, j < k1 -> Forall (fun n => j < n.1) r1)
        by (intros j Hj; eapply Forall_impl; [exact Hl1|]; simpl; lia).
      destruct (Z.ltb_spec k1 k2); [|destruct (Z.ltb_spec k2 k1)]; apply keys_sorted_cons; split.
      * apply IH1; [done|]. by apply keys_sorted_cons.
      * apply merge_nodes_lower; [done|]. constructor; [done|]. by apply Hup.
      * by apply IH2.
      * apply (merge_nodes_lower dl dr k2 ((k1, l1) :: r1) r2); [|done].
        constructor; [done|]. by apply Hup1.
      * by apply IH1.
      * replace k2 with k1 in Hl2 by lia. by apply merge_nodes_lower.
Qed.

(** Key by key, the merge takes the left additions the right does not delete,
    and the right additions. *)
Lemma merge_nodes_adds dl dr k ns1 : forall ns2,
  keys_sorted ns1 -> keys_sorted ns2 ->
  adds (layer_at (merge_nodes dl dr ns1 ns2) k)
  = (adds (layer_at ns1 k) ∖ bm_elems dr) ∪ adds (layer_at ns2 k).
Proof.
  induction ns1 as [|[k1 l1] r1 IH1]; intros ns2 H1 H2.
  - induction ns2 as [|[k2 l2] r2 IH2]; rewrite merge_nodes_eq; [set_solver|].
    apply keys_sorted_cons in H2 as [Hs2 _]. cbn [layer_at fst snd].
    destruct (k2 =? k); [|by rewrite IH2].
    rewrite adds_mergeLayers. unfold adds. cbn. bm_solver.
  - apply keys_sorted_cons in H1 as [Hs1 Hl1].
    induction ns2 as [|[k2 l2] r2 IH2]; rewrite merge_nodes_eq.
    + cbn [layer_at fst snd]. destruct (k1 =? k); [|by rewrite IH1].
      rewrite adds_mergeLayers. unfold adds. cbn. bm_solver.
    + pose proof H2 as H2'. apply keys_sorted_cons in H2 as [Hs2 Hl2].
      destruct (Z.ltb_spec k1 k2); [|destruct (Z.ltb_spec k2 k1)].
      * cbn [layer_at fst snd]. destruct (Z.eqb_spec k1 k) as [->|].
        -- rewrite (proj2 (Z.eqb_neq _ _)) by lia.
           rewrite (layer_at_above r2 k2 k), adds_mergeLayers by (done || lia).
           unfold adds. cbn. bm_solver.
        -- rewrite IH1 by done. done.
      * cbn [layer_at fst snd]. destruct (Z.eqb_spec k2 k) as [->|].
        -- rewrite (proj2 (Z.eqb_neq _ _)) by lia.
           rewrite (layer_at_above r1 k1 k), adds_mergeLayers by (done || lia).
           unfold adds. cbn. bm_solver.
        -- rewrite IH2 by done. done.
      * replace k2 with k1 by lia. cbn [layer_at fst snd]. destruct (k1 =? k).
        -- by rewrite adds_mergeLayers.
        -- by apply IH1.
Qed.

(** ** Cleaning *)

Lemma clean_adds cleanup k l l' :
  cleanupLayer cleanup k l = Some l' -> adds l' = adds l.
Proof.
  unfold cleanupLayer, adds. destruct (bm_isempty (Additions l)) eqn:Ea.
  - apply isempty_spec in Ea. repeat case_match; intros; simplify_eq. cbn. bm_solver.
  - intros [= <-]. cbn. apply elems_Condense.
Qed.

Lemma clean_none_adds cleanup k l : cleanupLayer cleanup k l = None -> adds l = ∅.
Proof.
  unfold cleanupLayer, adds. destruct (bm_isempty (Additions l)) eqn:Ea; [|done].
  by apply isempty_spec in Ea.
Qed.

Lemma clean_keys (P : Z -> Prop) cleanup ns :
  Forall (fun n => P n.1) ns -> Forall (fun n => P n.1) (omap (clean_node cleanup) ns).
Proof.
  induction 1 as [|[k l] ns Hn Hns IH]; cbn; [constructor|].
  unfold clean_node at 1. cbn [fst snd].
  destruct (cleanupLayer cleanup k l); [constructor; auto|auto].
Qed.

Lemma clean_sorted cleanup ns : keys_sorted ns -> keys_sorted (omap (clean_node cleanup) ns).
Proof.
  induction ns as [|[k l] ns IH]; intros Hs; [done|].
  apply keys_sorted_cons in Hs as [Hs Hl]. cbn. unfold clean_node at 1. cbn [fst snd].
  destruct (cleanupLayer cleanup k l); [|auto]. apply keys_sorted_cons.
  split; [auto|]. by apply (clean_keys (fun j => k < j)).
Qed.

Lemma clean_layer_adds cleanup ns k :
  keys_sorted ns -> adds (layer_at (omap (clean_node cleanup) ns) k) = adds (layer_at ns k).
Proof.
  induction ns as [|[j l] ns IH]; intros Hs; [done|].
  apply keys_sorted_cons in Hs as [Hs Hl]. cbn. unfold clean_node at 1. cbn [fst snd].
  destruct (cleanupLayer cleanup j l) as [l'|] eqn:Ec; cbn [layer_at fst snd].
  - destruct (j =? k); [by eapply clean_adds|auto].
  - destruct (Z.eqb_spec j k) as [->|]; [|auto].
    rewrite (layer_at_above _ k k); [|by apply (clean_keys (fun i => k < i))|lia].
    by rewrite (clean_none_adds _ _ _ Ec).
Qed.

(** With [cleanupDeletions] no deletions survive; otherwise they all do. *)
Lemma clean_layer_dels cleanup l ns :
  Forall (fun n => 0 < n.1) ns ->
  dels (layer_at (omap (clean_node cleanup) ((0, l) :: ns)) 0)
  = if cleanup then ∅ else dels l.
Proof.
  intros Hns. cbn. unfold clean_node at 1. cbn [fst snd].
  assert (Habs : layer_at (omap (clean_node cleanup) ns) 0 = empty_layer)
    by (apply (layer_at_above _ 0 0); [by apply (clean_keys (fun i => 0 < i))|lia]).
  unfold cleanupLayer. cbn [Z.eqb negb orb].
  destruct (bm_isempty (Additions l)), cleanup, (bm_isempty (Deletions l)) eqn:Ed;
    cbn [orb layer_at fst snd Z.eqb]; rewrite ?Habs; unfold dels; cbn [Deletions empty_layer oelems];
    rewrite ?elems_Condense, ?elems_new; try done;
    apply isempty_spec in Ed; by rewrite Ed.
Qed.
(** ** The compacted segment represents the composed delta *)

Definition compacted (cleanup : bool) (d1 d2 : delta) : delta :=
  Delta (apply_delta (d_adds d1) d2) (if cleanup then ∅ else d_dels d1 ∪ d_dels d2).

Lemma layer_at_elem (ns : list (node B)) n :
  keys_sorted ns -> n ∈ ns -> layer_at ns n.1 = n.2.
Proof.
  induction ns as [|[k l] ns IH]; intros Hs Hn; [set_solver|].
  apply keys_sorted_cons in Hs as [Hs Hl]. cbn [layer_at fst snd].
  apply elem_of_cons in Hn as [->|Hn]; [by rewrite Z.eqb_refl|].
  rewrite Forall_forall in Hl. specialize (Hl n Hn). simpl in Hl.
  rewrite (proj2 (Z.eqb_neq _ _)) by lia. auto.
Qed.

Lemma rep_empty_adds (ns : list (node B)) d n :
  segment_rep ns d -> dom (d_adds d) = ∅ -> n ∈ ns -> adds n.2 = ∅.
Proof.
  intros Hr Hd Hn. rewrite <- (layer_at_elem ns n (rep_sorted _ _ Hr) Hn).
  pose proof (rep_keys _ _ Hr) as Hk. rewrite Forall_forall in Hk. specialize (Hk n Hn).
  simpl in Hk. destruct (decide (n.1 = 0)) as [->|Hne].
  - by rewrite (rep_adds _ _ Hr).
  - apply set_eq. intros i. split; [|set_solver]. intros Hi.
    replace n.1 with (n.1 - 1 + 1) in Hi by lia.
    apply (rep_bits _ _ Hr) in Hi as (k & Hk' & _); [|lia].
    apply elem_of_dom_2 in Hk'. set_solver.
Qed.

Lemma clean_all_empty cleanup (ns : list (node B)) :
  Forall (fun n => n.1 <> 0 /\ adds n.2 = ∅) ns -> omap (clean_node cleanup) ns = [].
Proof.
  induction 1 as [|[k l] ns [Hk Ha] Hns IH]; [done|]. cbn. unfold clean_node at 1, cleanupLayer.
  cbn [fst snd] in *. rewrite (proj2 (isempty_spec (Additions l)) Ha).
  rewrite (proj2 (Z.eqb_neq _ _) Hk). exact IH.
Qed.

Lemma rep_clean cleanup ns d :
  segment_rep ns d ->
  segment_rep (omap (clean_node cleanup) ns)
              (Delta (d_adds d) (if cleanup then ∅ else d_dels d)).
Proof.
  intros Hr. pose proof (rep_sorted _ _ Hr) as Hs. split; cbn [d_adds d_dels].
  - by apply clean_sorted.
  - apply (clean_keys (fun k => 0 <= k <= 64)), (rep_keys _ _ Hr).
  - intros k l ns' Heq. destruct ns as [|[k0 l0] ns0]; [done|].
    pose proof (rep_first _ _ Hr _ _ _ eq_refl) as ->.
    cbn in Heq. unfold clean_node at 1 in Heq. cbn [fst snd] in Heq.
    destruct (cleanupLayer cleanup 0 l0) eqn:Ec; [by simplify_eq|].
    apply clean_none_adds in Ec.
    assert (Hd : dom (d_adds d) = ∅) by (rewrite <- (rep_adds _ _ Hr); exact Ec).
    apply keys_sorted_cons in Hs as [_ Hl].
    fold (omap (clean_node cleanup) ns0) in Heq. rewrite clean_all_empty in Heq; [done|].
    apply Forall_forall. intros n Hn. rewrite Forall_forall in Hl. specialize (Hl n Hn).
    simpl in Hl. split; [lia|]. apply (rep_empty_adds _ _ _ Hr Hd). set_solver.
  - rewrite clean_layer_adds by done. apply (rep_adds _ _ Hr).
  - pose proof (rep_dels _ _ Hr) as Hdl. destruct ns as [|[k0 l0] ns0].
    + cbn in Hdl |- *. unfold dels in *. cbn in *. by destruct cleanup.
    + pose proof (rep_first _ _ Hr _ _ _ eq_refl) as ->. apply keys_sorted_cons in Hs as [_ Hl].
      rewrite clean_layer_dels by done. by rewrite <- Hdl.
  - intros b i Hb. rewrite clean_layer_adds by done. apply (rep_bits _ _ Hr), Hb.
  - apply (rep_u64 _ _ Hr).
Qed.

Lemma elems_first_deletions ns d :
  segment_rep ns d -> bm_elems (first_deletions ns) = d_dels d.
Proof.
  intros Hr. rewrite <- (rep_dels _ _ Hr). unfold first_deletions, dels.
  destruct ns as [|[k l] ns]; [cbn; bm_solver|].
  pose proof (rep_first _ _ Hr _ _ _ eq_refl) as ->. cbn [layer_at fst snd Z.eqb].
  destruct (bm_isempty (Deletions l)) eqn:E; cbn [negb]; bm_simpl; [|done].
  apply isempty_spec in E. by rewrite E.
Qed.

Lemma rep_nil_delta d : segment_rep ([] : list (node B)) d -> d_adds d = ∅ /\ d_dels d = ∅.
Proof.
  intros Hr. pose proof (rep_adds _ _ Hr) as Ha. pose proof (rep_dels _ _ Hr) as Hd.
  cbn in Ha, Hd. unfold adds, dels in *. cbn in *. split; [|done].
  by apply dom_empty_inv_L.
Qed.

Lemma merge_nodes_rep ns1 ns2 d1 d2 :
  segment_rep ns1 d1 -> segment_rep ns2 d2 -> delta_ok d2 -> ns1 <> [] -> ns2 <> [] ->
  segment_rep (merge_nodes (first_deletions ns1) (first_deletions ns2) ns1 ns2)
              (compose_delta d1 d2).
Proof.
  intros R1 R2 Hok Hn1 Hn2.
  pose proof (rep_sorted _ _ R1) as S1. pose proof (rep_sorted _ _ R2) as S2.
  pose proof (elems_first_deletions _ _ R1) as D1. pose proof (elems_first_deletions _ _ R2) as D2.
  set (dl := first_deletions ns1) in *. set (dr := first_deletions ns2) in *.
  assert (Hhead : exists l ms, merge_nodes dl dr ns1 ns2 = (0, l) :: ms /\
      Deletions l = Some (bm_or (bm_clone (Some dl)) (Some dr))).
  { destruct ns1 as [|[k1 l1] r1], ns2 as [|[k2 l2] r2]; try done.
    pose proof (rep_first _ _ R1 _ _ _ eq_refl) as ->.
    pose proof (rep_first _ _ R2 _ _ _ eq_refl) as ->.
    rewrite merge_nodes_eq. eexists _, _. done. }
  split; cbn [compose_delta d_adds d_dels].
  - by apply merge_nodes_sorted.
  - apply (merge_nodes_keys (fun k => 0 <= k <= 64)); [apply (rep_keys _ _ R1)|apply (rep_keys _ _ R2)].
  - intros k l ns' Heq. destruct Hhead as (l' & ms & Hh & _). rewrite Hh in Heq. by simplify_eq.
  - rewrite merge_nodes_adds, (rep_adds _ _ R1), (rep_adds _ _ R2), D2 by done.
    apply set_eq. intros i. rewrite elem_of_union, elem_of_difference, !elem_of_dom.
    split.
    + intros [[[k Hk] Hd]|[k Hk]]; exists k; apply lookup_apply_delta; [right|by left].
      split; [|done]. apply not_elem_of_dom. unfold delta_ok in Hok. set_solver.
    + intros [k Hk]. apply lookup_apply_delta in Hk as [Hk|(_ & Hd & Hk)]; eauto.
  - destruct Hhead as (l & ms & -> & Hd). cbn [layer_at fst snd Z.eqb].
    unfold dels. rewrite Hd. bm_simpl. by rewrite D1, D2.
  - intros b i Hb. rewrite merge_nodes_adds, elem_of_union, elem_of_difference, D2 by done.
    rewrite (rep_bits _ _ R1 b i Hb), (rep_bits _ _ R2 b i Hb).
    setoid_rewrite lookup_apply_delta. split.
    + intros [[(k & Hk & Ht) Hd]|(k & Hk & Ht)]; exists k; (split; [|done]); [right|by left].
      split; [|done]. apply not_elem_of_dom. unfold delta_ok in Hok. set_solver.
    + intros (k & [Hk|(_ & Hd & Hk)] & Ht); eauto.
  - intros i k Hk. apply lookup_apply_delta in Hk as [Hk|(_ & _ & Hk)];
      [by apply (rep_u64 _ _ R2) in Hk|by apply (rep_u64 _ _ R1) in Hk].
Qed.

Lemma apply_delta_empty_l d : apply_delta ∅ d = d_adds d.
Proof. unfold apply_delta. by rewrite map_filter_empty, map_union_empty. Qed.

Lemma apply_delta_empty_r m d : d_adds d = ∅ -> d_dels d = ∅ -> apply_delta m d = m.
Proof.
  intros Ha Hd. apply map_eq. intros i. apply option_eq. intros k.
  rewrite lookup_apply_delta, Ha, Hd, lookup_empty. set_solver.
Qed.

Lemma compact_rep cleanup ns1 ns2 d1 d2 :
  segment_rep ns1 d1 -> segment_rep ns2 d2 -> delta_ok d2 ->
  segment_rep (compact_nodes cleanup (first_deletions ns1) (first_deletions ns2) ns1 ns2)
              (compacted cleanup d1 d2).
Proof.
  intros R1 R2 Hok. unfold compact_nodes, compacted.
  destruct (decide (ns1 = [])) as [->|Hn1]; [|destruct (decide (ns2 = [])) as [->|Hn2]].
  - destruct (rep_nil_delta _ R1) as [-> ->]. rewrite apply_delta_empty_l, union_empty_l_L.
    by apply rep_clean.
  - destruct (rep_nil_delta _ R2) as [Ha Hd]. rewrite (apply_delta_empty_r _ d2), Hd by done.
    rewrite union_empty_r_L. pose proof (rep_clean cleanup _ _ R1) as Hc.
    by destruct ns1.
  - pose proof (rep_clean cleanup _ _ (merge_nodes_rep _ _ _ _ R1 R2 Hok Hn1 Hn2)) as Hc.
    by destruct ns1, ns2.
Qed.

Lemma nodes_fit_Forall (ns : list (node B)) : nodes_fit ns -> Forall node_fits ns.
Proof.
  unfold nodes_fit. induction ns as [|n ns IH]; intros Hf; constructor;
    rewrite encode_nodes_cons, length_app in Hf; [unfold node_fits; lia|apply IH; lia].
Qed.

(** What two segments compact to, read back through a cursor. *)
Lemma compaction_core {C1 C2 : Type} `{CL1 : CursorLaws B C1, CL2 : CursorLaws B C2}
    cleanup (c1 : C1) (c2 : C2) ns1 ns2 rest1 rest2 d1 d2 :
  segment_rep ns1 d1 -> segment_rep ns2 d2 -> delta_ok d2 ->
  cur_inv c1 ns1 rest1 -> cur_inv c2 ns2 rest2 ->
  let out := compact_nodes cleanup (first_deletions ns1) (first_deletions ns2) ns1 ns2 in
  nodes_fit out ->
  exists nc,
    loopThroughKeys cleanup (fun _ => false) (length ns1 + length ns2) c1 c2 = Ok nc /\
    nc_out nc = encode_nodes out /\ nc_written nc = Z.of_nat (length (nc_out nc)) /\
    segment_rep out (compacted cleanup d1 d2).
Proof.
  intros R1 R2 Hok Hi1 Hi2 out Hfit.
  destruct (loopThroughKeys_spec cleanup (fun _ => false) (fun _ => eq_refl)
    c1 c2 ns1 ns2 rest1 rest2 (length ns1 + length ns2) Hi1 Hi2
    (rep_first _ _ R1) (rep_first _ _ R2) (le_n _) (nodes_fit_Forall _ Hfit))
    as (nc & Hnc & Hout & Hw).
  exists nc. split; [exact Hnc|]. cbn in Hout, Hw. split; [exact Hout|].
  rewrite Hout. split; [exact Hw|]. by apply compact_rep.
Qed.

Lemma layer_at_reload ns k :
  adds (layer_at (map reload ns) k) = adds (layer_at ns k) /\
  dels (layer_at (map reload ns) 0) = dels (layer_at ns 0).
Proof.
  induction ns as [|n ns [IHa IHd]]; [done|]. cbn [map layer_at]. destruct n as [k' l].
  cbn [reload fst snd]. split.
  - destruct (k' =? k); [apply (reload_adds (k', l))|done].
  - destruct (Z.eqb_spec k' 0) as [->|_]; [apply reload_dels|done].
Qed.

Lemma rep_reload ns d : segment_rep ns d -> segment_rep (map reload ns) d.
Proof.
  intros Hr. assert (Hk : map fst (map reload ns) = map fst ns) by (rewrite map_map; done).
  split.
  - unfold keys_sorted. rewrite Hk. apply (rep_sorted _ _ Hr).
  - apply (List.Forall_map (fun n => n)). rewrite map_id.
    apply (List.Forall_map fst (fun k => 0 <= k <= 64)). rewrite Hk.
    apply (List.Forall_map fst). apply (rep_keys _ _ Hr).
  - destruct ns as [|[k l] ns']; [done|]. intros k' l' ns'' [= <- _ _].
    exact (rep_first _ _ Hr _ _ _ eq_refl).
  - rewrite (proj1 (layer_at_reload ns 0)). apply (rep_adds _ _ Hr).
  - rewrite (proj2 (layer_at_reload ns 0)). apply (rep_dels _ _ Hr).
  - intros b i Hb. rewrite (proj1 (layer_at_reload ns (b + 1))). by apply (rep_bits _ _ Hr).
  - apply (rep_u64 _ _ Hr).
Qed.

(** The reader a bucket opens on a payload in a mapped file. *)
Definition payload_reader (payload junk : list Z) : InnerReader B :=
  NewSegmentReader (NewGaplessSegmentCursor
    (NewSegmentCursorMmap (Buf (payload ++ junk) (length payload)))).

Lemma payload_reads_delta ns d junk :
  segment_rep ns d -> nodes_fit ns -> reads_delta (payload_reader (encode_nodes ns) junk) d.
Proof.
  intros Hr Hf. eapply segment_reads_delta; [by apply rep_reload|by apply mmap_inv_new].
Qed.

Lemma compacted_ok d1 d2 : delta_ok d1 -> delta_ok d2 -> delta_ok (compacted false d1 d2).
Proof.
  unfold delta_ok, compacted. cbn [d_adds d_dels]. intros H1 H2 i Hi.
  apply elem_of_dom in Hi as [k Hk]. apply lookup_apply_delta in Hk as [Hk|(_ & _ & Hk)];
    apply elem_of_dom_2 in Hk; set_solver.
Qed.

(** * Properties *)

(** Compacting the segments of the deltas [d1] (older) and [d2] (newer)
    terminates within one loop round per node and writes a well-formed payload
    whose nodes represent [d2] laid over [d1]; deletions are kept unless
    [cleanupDeletions] asks to drop them, and [written] counts the bytes. *)
Lemma compaction_correct {C1 C2 : Type} `{CL1 : CursorLaws B C1, CL2 : CursorLaws B C2}
    (cleanup : bool) (c1 : C1) (c2 : C2) (ns1 ns2 rest1 rest2 : list (node B)) (d1 d2 : delta) :
  segment_rep ns1 d1 -> segment_rep ns2 d2 -> delta_ok d2 ->
  cur_inv c1 ns1 rest1 -> cur_inv c2 ns2 rest2 ->
  nodes_fit (compact_nodes cleanup (first_deletions ns1) (first_deletions ns2) ns1 ns2) ->
  exists nc out,
    loopThroughKeys cleanup (fun _ => false) (length ns1 + length ns2) c1 c2 = Ok nc /\
    nc_out nc = encode_nodes out /\ nc_written nc = Z.of_nat (length (nc_out nc)) /\
    segment_rep out (Delta (apply_delta (d_adds d1) d2)
                           (if cleanup then ∅ else d_dels d1 ∪ d_dels d2)).
Proof.
  intros R1 R2 Hok Hi1 Hi2 Hfit.
  destruct (compaction_core cleanup c1 c2 _ _ _ _ _ _ R1 R2 Hok Hi1 Hi2 Hfit)
    as (nc & Hnc & Hout & Hw & Hr). exists nc. eexists. eauto.
Qed.

(** Readers that a bucket may have below two neighbouring segments: none, or one that gives a whole assignment and any number of others over it *)
Definition readers_below (below : list (InnerReader B)) : Prop :=
  match below with [] => True | r0 :: rs => exists m0 ds, reads_base r0 m0 /\ Forall2 reads_delta rs ds /\ Forall delta_ok ds end.

(** C21: a bucket may swap two neighbouring segments for their compaction: with any
    readers below, none included, and any above ([rs]), the combined read over
    them and the two segments finds the same ids as the read with the compacted
    payload in the place of the two.  [cleanupDeletions] is only set for the
    oldest two segments, with nothing below. *)
Theorem compaction_transparent {C1 C2 : Type} `{CL1 : CursorLaws B C1, CL2 : CursorLaws B C2}
    (cleanup : bool) (below : list (InnerReader B)) (c1 : C1) (c2 : C2)
    (ns1 ns2 rest1 rest2 : list (node B)) (d1 d2 : delta) (junk : list Z)
    (rs : list (InnerReader B)) (ds : list delta) (v : Z) (op : Operator) (f : Z -> Z -> bool) :
  readers_below below -> (cleanup = true -> below = []) -> segment_rep ns1 d1 -> segment_rep ns2 d2 -> delta_ok d1 -> delta_ok d2 ->
  cur_inv c1 ns1 rest1 -> cur_inv c2 ns2 rest2 ->
  nodes_fit (compact_nodes cleanup (first_deletions ns1) (first_deletions ns2) ns1 ns2) ->
  Forall2 reads_delta rs ds -> Forall delta_ok ds -> is_u64 v -> compare_op op = Some f ->
  let read l := cr_Read (map (fun r => (r, CtxLive)) l) v op in
  exists nc b b',
    loopThroughKeys cleanup (fun _ => false) (length ns1 + length ns2) c1 c2 = Ok nc /\
    read (below ++ NewSegmentReader (NewGaplessSegmentCursor c1) ::
                   NewSegmentReader (NewGaplessSegmentCursor c2) :: rs) = Ok (Some b) /\
    read (below ++ payload_reader (nc_out nc) junk :: rs) = Ok (Some b') /\
    bm_elems b' = bm_elems b.
Proof.
  intros Hbelow Hclean R1 R2 Hok1 Hok2 Hi1 Hi2 Hfit Hrs Hds Hv Hop read.
  destruct (compaction_core cleanup c1 c2 _ _ _ _ _ _ R1 R2 Hok2 Hi1 Hi2 Hfit)
    as (nc & Hnc & Hout & _ & Hr). exists nc.
  pose proof (segment_reads_delta c1 ns1 d1 rest1 R1 Hi1) as D1.
  pose proof (segment_reads_delta c2 ns2 d2 rest2 R2 Hi2) as D2.
  pose proof (payload_reads_delta _ _ junk Hr Hfit) as D. rewrite <- Hout in D.
  pose proof (proj2 (Forall2_cons _ _ _ _ _) (conj D2 Hrs)) as F2.
  pose proof (Forall_cons_2 _ _ _ Hok2 Hds) as O2.
  subst read. destruct below as [|r0 rs0]; cbn [app].
  - destruct (cr_Read_ok _ _ _ _ v op f Hv Hop (reads_delta_base _ _ D1)
      F2 O2) as (b & Hb & Eb).
    destruct (cr_Read_ok _ _ _ _ v op f Hv Hop (reads_delta_base _ _ D) Hrs Hds) as (b' & Hb' & Eb').
    exists b, b'. by rewrite Eb, Eb'.
  - destruct cleanup; [by specialize (Hclean eq_refl)|]. destruct Hbelow as (m0 & ds0 & Hr0 & F0 & O0).
    destruct (cr_Read_ok _ _ _ _ v op f Hv Hop Hr0
      (Forall2_app F0 (proj2 (Forall2_cons _ _ _ _ _) (conj D1 F2)))
      (proj2 (Forall_app _ _ _) (conj O0 (Forall_cons_2 _ _ _ Hok1 O2)))) as (b & Hb & Eb).
    destruct (cr_Read_ok _ _ _ _ v op f Hv Hop Hr0 (Forall2_app F0 (proj2 (Forall2_cons _ _ _ _ _) (conj D Hrs)))
      (proj2 (Forall_app _ _ _) (conj O0 (Forall_cons_2 _ _ _ (compacted_ok _ _ Hok1 Hok2) Hds)))) as (b' & Hb' & Eb').
    exists b, b'. split; [done|]. split; [done|]. split; [done|]. rewrite Eb, Eb', !foldl_app. cbn [foldl].
    by rewrite <- (apply_compose _ d1 d2 Hok2).
Qed.

(** A segment whose first node is not key 0 is refused, with nothing
    written. *)
Lemma compaction_missing_key0 {C1 C2 : Type} `{CL1 : CursorLaws B C1, CL2 : CursorLaws B C2}
    (cleanup : bool) (ctx : nat -> bool) (fuel : nat) (c1 : C1) (c2 : C2) (k1 : Z)
    (l1 : BitmapLayer B) (ns1 ns2 rest1 rest2 : list (node B)) :
  cur_inv c1 ((k1, l1) :: ns1) rest1 -> cur_inv c2 ns2 rest2 -> k1 <> 0 ->
  loopThroughKeys cleanup ctx fuel c1 c2 = Err ErrLeftMissingKey0.
Proof.
  intros Hi1 Hi2 Hk. unfold loopThroughKeys.
  destruct (first_cons _ _ _ _ _ Hi1) as (c1' & -> & _). cbn [obind].
  destruct (first_on c2 ns2 rest2 Hi2) as (k2 & l2 & ok2 & c2' & -> & _). cbn [obind].
  by rewrite (proj2 (Z.eqb_neq _ _) Hk).
Qed.
End Compactor.

(** * Witnesses *)

Section Witnesses.
Import SetBitmap.
Definition wit_left : Memtable := mt_Insert NewMemtable 6 [7; 8].
Definition wit_right : Memtable := mt_Delete (mt_Insert NewMemtable 9 [7]) 0 [8].
Definition wit_nodes_of (m : Memtable) : list (node (gset Z)) := map mnode_node (mt_Nodes m).
Definition wit_cur (m : Memtable) : SegmentCursorMmap :=
  let p := encode_nodes (wit_nodes_of m) in NewSegmentCursorMmap (Buf (p ++ []) (length p)).

Lemma witness_mt_rep m :
  (forall i k, additions m !! i = Some k -> is_u64 k) ->
  map reload (wit_nodes_of m) = wit_nodes_of m -> segment_rep (map reload (wit_nodes_of m)) (memtable_delta m).
Proof. intros Hu ->. by apply mt_Nodes_rep. Qed.

Lemma witness_rep1 : segment_rep (map reload (wit_nodes_of wit_left)) (memtable_delta wit_left).
Proof.
  apply witness_mt_rep; [|vm_compute; reflexivity].
  intros i k. unfold wit_left. cbn. rewrite !lookup_insert_Some, lookup_empty. unfold is_u64.
  naive_solver lia.
Qed.

Lemma witness_rep2 : segment_rep (map reload (wit_nodes_of wit_right)) (memtable_delta wit_right).
Proof.
  apply witness_mt_rep; [|vm_compute; reflexivity].
  intros i k. unfold wit_right. cbn. rewrite lookup_delete_Some, lookup_insert_Some, lookup_empty.
  unfold is_u64. naive_solver lia.
Qed.

Lemma compaction_correct_witness :
  exists nc out,
    loopThroughKeys (B := gset Z) true (fun _ => false) 6 (wit_cur wit_left) (wit_cur wit_right) = Ok nc /\
    nc_out nc = encode_nodes out /\
    segment_rep out (compacted true (memtable_delta wit_left) (memtable_delta wit_right)).
Proof.
  destruct (compaction_correct true (wit_cur wit_left) (wit_cur wit_right)
    (map reload (wit_nodes_of wit_left)) (map reload (wit_nodes_of wit_right)) (map reload (wit_nodes_of wit_left))
    (map reload (wit_nodes_of wit_right)) (memtable_delta wit_left) (memtable_delta wit_right) witness_rep1 witness_rep2)
    as (nc & out & Hnc & Hout & _ & Hrep).
  - apply memtable_delta_ok.
  - apply mmap_inv_new. vm_compute. reflexivity.
  - apply mmap_inv_new. vm_compute. reflexivity.
  - vm_compute. reflexivity.
  - exists nc, out. split; [exact Hnc|]. split; [exact Hout|exact Hrep].
Defined.

Lemma compaction_transparent_witness :
  exists nc b b',
    loopThroughKeys (B := gset Z) false (fun _ => false) 6 (wit_cur wit_left) (wit_cur wit_right) = Ok nc /\
    cr_Read (map (fun r => (r, CtxLive))
      [NewMemtableReader wit_right; NewMemtableReader wit_left; NewSegmentReader (NewGaplessSegmentCursor (wit_cur wit_left));
       NewSegmentReader (NewGaplessSegmentCursor (wit_cur wit_right))]) 8 OperatorGreaterThan = Ok (Some b) /\
    cr_Read (map (fun r => (r, CtxLive)) [NewMemtableReader wit_right; NewMemtableReader wit_left; payload_reader (nc_out nc) [1; 2]])
      8 OperatorGreaterThan = Ok (Some b') /\ bm_elems b' = bm_elems b.
Proof.
  refine (compaction_transparent false [NewMemtableReader wit_right; NewMemtableReader wit_left] (wit_cur wit_left) (wit_cur wit_right)
    (map reload (wit_nodes_of wit_left)) (map reload (wit_nodes_of wit_right)) (map reload (wit_nodes_of wit_left))
    (map reload (wit_nodes_of wit_right)) (memtable_delta wit_left) (memtable_delta wit_right) [1; 2] [] []
    8 OperatorGreaterThan _ _ _ witness_rep1 witness_rep2 _ _ _ _ _ _ _ _ eq_refl).
  - exists (d_adds (memtable_delta wit_right)), [memtable_delta wit_left]. split; [apply (reads_delta_base _ (memtable_delta wit_right)), memtable_reads_delta|].
    split; [constructor; [apply memtable_reads_delta|constructor]|constructor; [apply memtable_delta_ok|constructor]].
  - done.
  - apply memtable_delta_ok.
  - apply memtable_delta_ok.
  - apply mmap_inv_new. vm_compute. reflexivity.
  - apply mmap_inv_new. vm_compute. reflexivity.
  - vm_compute. reflexivity.
  - constructor.
  - constructor.
  - unfold is_u64; lia.
Defined.
End Witnesses.
