(* ===== verification/RangeInMemory.v ===== *)
(** * adapters/repos/db/roaringsetrange/segment_in_memory.go

    The in-memory segment: 65 bitmaps that disk segments are merged into when
    the bucket loads, and a queue of flushed memtables that one background
    goroutine merges later.  The interleaving of writers, the goroutine and
    readers is a step relation over what the two locks make atomic. *)

From S2P Require Import Prelude Sroar ByteOps RoaringSet RangeSegment RangeMemtable RangeReader.

Section InMemory.
Context {B : Type} `{SroarLaws B}.

(** [NewSegmentInMemory]: 65 empty bitmaps *)
Definition new_bitmaps : list B := replicate 65 bm_new.

(** [for key := range s.bitmaps { s.bitmaps[key].AndNotConc(deletions) }] *)
Definition apply_deletions (bms : list B) (deletions : option B) : list B :=
  if negb (bm_isempty deletions) then map (fun b => bm_andnot b deletions) bms else bms.

(** [s.bitmaps[key].OrConc(additions)] *)
Definition or_at (bms : list B) (key : Z) (additions : option B) : list B :=
  alter (fun b => bm_or b additions) (Z.to_nat key) bms.

Section Cursor.
Context {C : Type} `{SegmentCursor B C}.

(** The state is returned with the outcome: a refused key leaves the
    bitmaps merged so far changed. *)
Fixpoint merge_cursor_loop (fuel : nat) (bms : list B) (key : Z) (layer : BitmapLayer B)
    (ok : bool) (c : C) : outcome range_error (list B * option range_error) :=
  if negb ok then Ok (bms, None)
  else match fuel with
       | O => OutOfFuel
       | S fuel =>
           if Z.of_nat (length bms) <=? key then Ok (bms, Some (ErrInvalidKey key))
           else
             let bms := or_at bms key (Additions layer) in
             let! (key, layer, ok, c) := cur_Next c in
             merge_cursor_loop fuel bms key layer ok c
       end.

Definition MergeSegmentByCursor (fuel : nat) (bms : list B) (c : C)
  : outcome range_error (list B * option range_error) :=
  let! (key, layer, ok, c) := cur_First c in
  if negb ok then Ok (bms, None)
  else if negb (key =? 0) then Ok (bms, Some ErrInvalidFirstKey)
  else merge_cursor_loop fuel (apply_deletions bms (Deletions layer)) key layer ok c.
End Cursor.

(** One memtable of [mergeMemtables]'s loop. *)
Definition merge_memtable (bms : list B) (m : Memtable) : list B :=
  match mt_Nodes m with
  | [] => bms
  | (n0 :: _) as nodes =>
      foldl (fun bms n => or_at bms (mn_Key n) (Some (mn_Additions n)))
            (apply_deletions bms (mn_Deletions n0)) nodes
  end.

(** ** Lemmas *)

Lemma length_apply_deletions bms o : length (apply_deletions bms o) = length bms.
Proof. unfold apply_deletions. case_match; [apply length_map|done]. Qed.

Lemma length_or_at bms k o : length (or_at bms k o) = length bms.
Proof. apply length_alter. Qed.

Lemma lookup_apply_deletions bms o i :
  oelems (apply_deletions bms o !! i) = oelems (bms !! i) ∖ oelems o.
Proof.
  unfold apply_deletions. destruct (bm_isempty o) eqn:E; cbn [negb].
  - apply isempty_spec in E. rewrite E. set_solver.
  - change (map ?f ?l) with (f <$> l). rewrite list_lookup_fmap.
    destruct (bms !! i); cbn; bm_solver.
Qed.

Lemma lookup_or_at bms k o (i : nat) :
  0 <= k < Z.of_nat (length bms) ->
  oelems (or_at bms k o !! i)
  = oelems (bms !! i) ∪ (if decide (Z.of_nat i = k) then oelems o else ∅).
Proof.
  intros Hk. unfold or_at. case_decide as E.
  - subst k. rewrite Nat2Z.id, list_lookup_alter_eq.
    destruct (lookup_lt_is_Some_2 bms i) as [x Hx]; [lia|]. rewrite Hx. cbn. bm_solver.
  - rewrite list_lookup_alter_ne by lia. set_solver.
Qed.

(** Merging nodes with increasing keys adds each key's additions to its slot. *)
Lemma fold_or_at (ns : list (node B)) : forall bms (i : nat),
  keys_sorted ns -> Forall (fun n => 0 <= n.1 < Z.of_nat (length bms)) ns ->
  length (foldl (fun b n => or_at b n.1 (Additions n.2)) bms ns) = length bms /\
  oelems (foldl (fun b n => or_at b n.1 (Additions n.2)) bms ns !! i)
  = oelems (bms !! i) ∪ adds (layer_at ns (Z.of_nat i)).
Proof.
  induction ns as [|[k l] ns IH]; intros bms i Hs Hk; cbn [foldl fst snd].
  { split; [done|]. cbn. unfold adds. cbn. set_solver. }
  unfold keys_sorted in Hs. cbn [map fst] in Hs.
  inversion_clear Hs as [|? ? Hs' Hl]. rewrite List.Forall_map in Hl.
  inversion_clear Hk as [|? ? Hk0 Hk'].
  destruct (IH (or_at bms k (Additions l)) i) as [Hlen Hel];
    [done|by rewrite length_or_at|].
  rewrite length_or_at in Hlen. split; [done|]. rewrite Hel, lookup_or_at by done.
  cbn [layer_at fst snd]. destruct (Z.eqb_spec k (Z.of_nat i)) as [->|Hne].
  - rewrite decide_True by done. rewrite layer_at_none; [unfold adds; cbn; set_solver|].
    intros n Hn. rewrite Forall_forall in Hl. specialize (Hl n Hn). simpl in Hl. lia.
  - rewrite decide_False by done. set_solver.
Qed.

(** Bitmaps that represent [m], after a represented segment was merged in. *)
Lemma mem_rep_merge bms m ns d :
  mem_rep bms m -> segment_rep ns d -> delta_ok d ->
  mem_rep (foldl (fun b n => or_at b n.1 (Additions n.2))
                 (apply_deletions bms (Deletions (layer_at ns 0))) ns)
          (apply_delta m d).
Proof.
  intros Hm Hr Hok. pose proof (mem_len _ _ Hm) as Hlen.
  set (b0 := apply_deletions bms (Deletions (layer_at ns 0))).
  assert (Hl0 : length b0 = 65%nat) by (subst b0; by rewrite length_apply_deletions).
  assert (Hk : Forall (fun n => 0 <= n.1 < Z.of_nat (length b0)) ns).
  { rewrite Hl0. eapply Forall_impl; [apply (rep_keys _ _ Hr)|]. simpl. lia. }
  pose proof (fold_or_at ns b0) as Hf.
  assert (Hel : forall i : nat, oelems (foldl (fun b n => or_at b n.1 (Additions n.2)) b0 ns !! i)
    = (oelems (bms !! i) ∖ d_dels d) ∪ adds (layer_at ns (Z.of_nat i))).
  { intros i. destruct (Hf i (rep_sorted _ _ Hr) Hk) as [_ ->]. subst b0.
    rewrite lookup_apply_deletions. fold (dels (layer_at ns 0)). by rewrite (rep_dels _ _ Hr). }
  assert (Hnone : forall i k, m !! i = Some k -> i ∉ d_dels d -> d_adds d !! i = None).
  { intros i k _ Hi. apply not_elem_of_dom. unfold delta_ok in Hok. set_solver. }
  split.
  - destruct (Hf 0%nat (rep_sorted _ _ Hr) Hk) as [-> _]. exact Hl0.
  - rewrite Hel, (mem_all _ _ Hm). change (Z.of_nat 0) with 0. rewrite (rep_adds _ _ Hr).
    apply set_eq. intros i. rewrite elem_of_union, elem_of_difference, !elem_of_dom. split.
    + intros [[[k Hk'] Hd]|[k Hk']]; exists k; apply lookup_apply_delta; eauto.
    + intros [k Hk']. apply lookup_apply_delta in Hk' as [?|(_ & ? & ?)]; eauto.
  - intros b i Hb. rewrite Hel, elem_of_union, elem_of_difference, (mem_bits _ _ Hm b i Hb).
    rewrite Z2Nat.id, (rep_bits _ _ Hr b i Hb) by lia. setoid_rewrite lookup_apply_delta. split.
    + intros [[(k & Hk' & Ht) Hd]|(k & Hk' & Ht)]; exists k; split; eauto.
    + intros (k & [?|(_ & ? & ?)] & ?); eauto.
  - intros i k Hk'. apply lookup_apply_delta in Hk' as [Hk'|(_ & _ & Hk')];
      [by apply (rep_u64 _ _ Hr) in Hk'|by apply (mem_u64 _ _ Hm) in Hk'].
Qed.

Lemma merge_memtable_rep bms m mt :
  mem_rep bms m -> (forall i k, additions mt !! i = Some k -> is_u64 k) ->
  mem_rep (merge_memtable bms mt) (apply_delta m (memtable_delta mt)).
Proof.
  intros Hm Hu. pose proof (mt_Nodes_rep (B := B) mt Hu) as Hr.
  pose proof (mem_rep_merge bms m _ _ Hm Hr (memtable_delta_ok mt)) as Hmm.
  unfold merge_memtable. destruct (mt_Nodes mt) as [|n0 nodes] eqn:En; cbn [map] in Hmm, Hr.
  - cbn in Hmm. unfold apply_deletions in Hmm.
    by rewrite (proj2 (isempty_spec None)) in Hmm.
  - assert (Hk0 : mn_Key n0 = 0) by exact (rep_first _ _ Hr _ _ _ eq_refl).
    assert (Hl : layer_at (mnode_node n0 :: map mnode_node nodes) 0 = (mnode_node n0).2)
      by (cbn [layer_at mnode_node fst]; by rewrite Hk0).
    rewrite Hl in Hmm. cbn [mnode_node snd Deletions] in Hmm.
    revert Hmm. generalize (apply_deletions bms (mn_Deletions n0)).
    change (mnode_node n0 :: map mnode_node nodes) with (map mnode_node (n0 :: nodes)).
    intros b0. generalize (n0 :: nodes). intros l Hmm.
    replace (foldl (fun b n => or_at b (mn_Key n) (Some (mn_Additions n))) b0 l)
      with (foldl (fun b n => or_at b n.1 (Additions n.2)) b0 (map mnode_node l)); [done|].
    clear. revert b0. induction l as [|n l IH]; intros b0; cbn; auto.
Qed.

Lemma mem_rep_empty : mem_rep new_bitmaps ∅.
Proof.
  unfold new_bitmaps. split; [done|rewrite dom_empty_L; cbn; apply elems_new| |].
  - intros b i Hb. rewrite lookup_replicate_2 by lia. cbn. rewrite elems_new.
    split; [set_solver|]. intros (k & Hk & _). by rewrite lookup_empty in Hk.
  - intros i k. by rewrite lookup_empty.
Qed.

Lemma merge_cursor_loop_spec {C} `{CL : CursorLaws B C} (ns : list (node B)) :
  forall fuel bms k l (c : C) all,
  cur_inv c all ns -> (length ns < fuel)%nat ->
  Forall (fun n => 0 <= n.1 < Z.of_nat (length bms)) ((k, l) :: ns) ->
  merge_cursor_loop fuel bms k l true c
  = Ok (foldl (fun b n => or_at b n.1 (Additions n.2)) bms ((k, l) :: ns), None).
Proof.
  induction ns as [|[k' l'] ns IH]; intros fuel bms k l c all Hi Hf Hk;
    (destruct fuel as [|fuel]; [simpl in Hf; lia|]); cbn [merge_cursor_loop negb];
    inversion_clear Hk as [|? ? Hk0 Hk']; cbn [fst] in Hk0;
    rewrite (proj2 (Z.leb_gt _ _)) by lia.
  - destruct (next_nil c all Hi) as (c' & -> & _). cbn. by destruct fuel.
  - destruct (next_cons c all _ _ _ Hi) as (c' & -> & Hi'). cbn [obind].
    rewrite (IH _ _ _ _ _ _ Hi'); [done|simpl in Hf; lia|by rewrite length_or_at].
Qed.

Lemma MergeSegmentByCursor_spec {C} `{CL : CursorLaws B C} fuel bms (c : C) ns d rest m :
  cur_inv c ns rest -> segment_rep ns d -> (length ns <= fuel)%nat -> length bms = 65%nat ->
  MergeSegmentByCursor fuel bms c
  = Ok (foldl (fun b n => or_at b n.1 (Additions n.2))
              (apply_deletions bms (Deletions (layer_at ns 0))) ns, None) \/
  ns = [] /\ MergeSegmentByCursor fuel bms c = Ok (bms, None) /\ apply_delta m d = m.
Proof.
  intros Hi Hr Hf Hl. unfold MergeSegmentByCursor. destruct ns as [|[k l] ns].
  - right. destruct (first_nil c rest Hi) as (c' & -> & _). cbn. split; [done|]. split; [done|].
    pose proof (rep_adds _ _ Hr) as Ha. pose proof (rep_dels _ _ Hr) as Hd.
    unfold adds, dels in *. cbn in Ha, Hd. symmetry in Ha. apply dom_empty_inv_L in Ha.
    apply map_eq. intros i. destruct (m !! i) as [v|] eqn:E.
    + apply lookup_apply_delta. right. rewrite Ha, lookup_empty, <- Hd. split; [set_solver|done].
    + destruct (apply_delta m d !! i) as [v|] eqn:E'; [|done].
      apply lookup_apply_delta in E'. rewrite Ha, lookup_empty in E'. naive_solver.
  - left. destruct (first_cons c _ _ _ _ Hi) as (c' & -> & Hi'). cbn [obind negb].
    assert (k = 0) as -> by exact (rep_first _ _ Hr _ _ _ eq_refl).
    cbn [Z.eqb negb layer_at fst snd].
    rewrite (merge_cursor_loop_spec ns _ _ _ _ _ _ Hi'); [done|simpl in Hf; lia|].
    rewrite length_apply_deletions, Hl.
    eapply Forall_impl; [apply (rep_keys _ _ Hr)|]. simpl. lia.
Qed.

(** * The background merge

    [memtablesLock] makes each access to the queue atomic; [bitmapsLock] is
    held by any number of readers, or by the one merging goroutine. *)

(** What [bitmapsLock] is held for.  A goroutine past its loop has reset the
    queue and still holds the lock until its deferred unlock runs. *)
Inductive bitmaps_lock : Type :=
| Shared (snapshots : list (list Memtable))   (** one per open [Readers()] *)
| Merging (i : nat)                           (** [mergeMemtables], [i] merged *)
| Leaving.

Record SegmentInMemory : Type := InMem {
  im_bitmaps : list B;
  im_memtables : list Memtable;
  im_lock : bitmaps_lock;
  im_spawned : nat      (** [mergeMemtables] goroutines waiting for the lock *)
}.

Definition NewSegmentInMemory : SegmentInMemory := InMem new_bitmaps [] (Shared []) 0.

Definition MergeMemtableEventually (mt : Memtable) (s : SegmentInMemory) : SegmentInMemory :=
  let memtables := im_memtables s ++ [mt] in
  let ln := length memtables in
  InMem (im_bitmaps s) memtables (im_lock s)
        (if (ln =? 1)%nat then S (im_spawned s) else im_spawned s).

Definition countPendingMemtables (s : SegmentInMemory) : nat := length (im_memtables s).

Definition IsUnpopulated (s : SegmentInMemory) : bool :=
  if negb (bm_isempty (im_bitmaps s !! 0%nat)) then false
  else (length (im_memtables s) =? 0)%nat.

Definition Readers (s : SegmentInMemory) (memtables : list Memtable) : list (InnerReader B) :=
  NewInMemoryReader (im_bitmaps s) :: map NewMemtableReader memtables.

(** One turn of the loop of [mergeMemtables], with [i] memtables merged. *)
Definition merge_turn (i : nat) (s : SegmentInMemory) : SegmentInMemory :=
  match im_memtables s !! i with
  | None => InMem (im_bitmaps s) [] Leaving (im_spawned s)
  | Some mt => InMem (merge_memtable (im_bitmaps s) mt) (im_memtables s) (Merging (S i))
                     (im_spawned s)
  end.

(** [im_step s o s']: [o] is the memtable the step hands over, if any. *)
Inductive im_step : SegmentInMemory -> option Memtable -> SegmentInMemory -> Prop :=
| step_append s mt : im_step s (Some mt) (MergeMemtableEventually mt s)
| step_lock b ms n : im_step (InMem b ms (Shared []) (S n)) None (InMem b ms (Merging 0) n)
| step_merge b ms i n : im_step (InMem b ms (Merging i) n) None
                                (merge_turn i (InMem b ms (Merging i) n))
| step_unlock b ms n : im_step (InMem b ms Leaving n) None (InMem b ms (Shared []) n)
| step_open b ms l n : im_step (InMem b ms (Shared l) n) None (InMem b ms (Shared (ms :: l)) n)
| step_release b ms l1 snap l2 n :
    im_step (InMem b ms (Shared (l1 ++ snap :: l2)) n) None (InMem b ms (Shared (l1 ++ l2)) n).

(** [im_runs s hist s']: some interleaving leads from [s] to [s'] and hands
    over [hist], in this order. *)
Inductive im_runs (s : SegmentInMemory) : list Memtable -> SegmentInMemory -> Prop :=
| runs_refl : im_runs s [] s
| runs_step h s1 o s2 : im_runs s h s1 -> im_step s1 o s2 -> im_runs s (h ++ option_list o) s2.

Definition content (m0 : gmap Z Z) (h : list Memtable) : gmap Z Z :=
  foldl apply_delta m0 (map memtable_delta h).

Definition memtable_u64 (mt : Memtable) : Prop :=
  forall i k, additions mt !! i = Some k -> is_u64 k.

(** The number of pending memtables the bitmaps already contain. *)
Definition merged_pending (l : bitmaps_lock) : nat :=
  match l with Merging i => i | _ => 0 end.

(** The invariant: [h] is [done ++ pending] with [done] and the first
    [merged_pending] of [pending] in the bitmaps; exactly one goroutine is
    responsible for a non-empty queue; open snapshots are prefixes of it. *)
Record im_inv (m0 : gmap Z Z) (h : list Memtable) (s : SegmentInMemory) : Prop := {
  inv_content : exists h0, h = h0 ++ im_memtables s /\
    mem_rep (im_bitmaps s) (content m0 (h0 ++ take (merged_pending (im_lock s)) (im_memtables s)));
  inv_goroutine : (im_spawned s + match im_lock s with Merging _ => 1 | _ => 0 end)%nat
    = if decide (im_memtables s = []) then 0%nat else 1%nat;
  inv_merged : (merged_pending (im_lock s) <= length (im_memtables s))%nat;
  inv_snapshots : forall l, im_lock s = Shared l ->
    Forall (fun snap => snap `prefix_of` im_memtables s) l
}.

Lemma content_snoc m0 h mt :
  content m0 (h ++ [mt]) = apply_delta (content m0 h) (memtable_delta mt).
Proof. unfold content. by rewrite map_app, foldl_app. Qed.

Lemma append_inv m0 h s mt : im_inv m0 h s -> im_inv m0 (h ++ [mt]) (MergeMemtableEventually mt s).
Proof.
  intros [(h0 & -> & Hrep) Hg Hm Hs]. unfold MergeMemtableEventually.
  split; cbn [im_memtables im_bitmaps im_lock im_spawned].
  - exists h0. split; [by rewrite app_assoc|]. by rewrite take_app_le by done.
  - rewrite decide_False by (by destruct (im_memtables s)). rewrite length_app. cbn [length].
    destruct (im_memtables s) as [|x ms]; cbn [length Nat.eqb Nat.add] in *.
    + rewrite decide_True in Hg by done. lia.
    + rewrite decide_False in Hg by done. rewrite Nat.add_1_r. cbn. done.
  - rewrite length_app. lia.
  - intros l Hl. eapply Forall_impl; [by apply Hs|]. cbn. intros snap. apply prefix_app_r.
Qed.

Lemma merge_turn_inv m0 h b ms i n :
  Forall memtable_u64 h ->
  im_inv m0 h (InMem b ms (Merging i) n) -> im_inv m0 h (merge_turn i (InMem b ms (Merging i) n)).
Proof.
  intros Hu [(h0 & -> & Hrep) Hg Hm Hs]. unfold merge_turn.
  cbn [im_memtables im_bitmaps im_lock im_spawned merged_pending] in *.
  destruct (ms !! i) as [mt|] eqn:E.
  - split; cbn [im_memtables im_bitmaps im_lock im_spawned merged_pending]; [|done| |done].
    + exists h0. split; [done|]. rewrite (take_S_r _ _ _ E), app_assoc, content_snoc.
      apply merge_memtable_rep; [done|]. rewrite Forall_app, (Forall_lookup _ ms) in Hu.
      exact (proj2 Hu _ _ E).
    + apply lookup_lt_Some in E. lia.
  - apply lookup_ge_None in E.
    split; cbn [im_memtables im_bitmaps im_lock im_spawned merged_pending]; [| |simpl; lia|done].
    + exists (h0 ++ ms). rewrite take_ge in Hrep by lia. cbn [take]. by rewrite !app_nil_r.
    + rewrite decide_True by done. case_decide; lia.
Qed.

Lemma step_inv m0 h s o s' :
  Forall memtable_u64 h -> im_inv m0 h s -> im_step s o s' ->
  im_inv m0 (h ++ option_list o) s'.
Proof.
  intros Hu Hi Hst. destruct Hst; cbn [option_list]; rewrite ?app_nil_r.
  - by apply append_inv.
  - destruct Hi as [Hc Hg Hm Hs]. split; cbn in *; [done|lia|lia|done].
  - by apply merge_turn_inv.
  - destruct Hi as [Hc Hg Hm Hs]. split; cbn in *; [done|lia|lia|].
    intros l [= <-]. constructor.
  - destruct Hi as [Hc Hg Hm Hs]. split; cbn in *; [done|lia|lia|].
    intros l' [= <-]. constructor; [done|by apply Hs].
  - destruct Hi as [Hc Hg Hm Hs]. split; cbn in *; [done|lia|lia|].
    intros l [= <-]. specialize (Hs _ eq_refl). rewrite Forall_app, Forall_cons in Hs.
    rewrite Forall_app. naive_solver.
Qed.

Lemma runs_inv m0 b h s :
  mem_rep b m0 -> Forall memtable_u64 h ->
  im_runs (InMem b [] (Shared []) 0) h s -> im_inv m0 h s.
Proof.
  intros Hb Hu Hr. induction Hr as [|h s1 o s2 Hr IH Hst].
  - split; cbn; [by exists []|done|lia|intros l [= <-]; constructor].
  - rewrite Forall_app in Hu. destruct Hu as [Hu _]. eapply step_inv; eauto.
Qed.

Lemma runs_trans s1 h1 s2 h2 s3 :
  im_runs s1 h1 s2 -> im_runs s2 h2 s3 -> im_runs s1 (h1 ++ h2) s3.
Proof.
  intros H12 H23. induction H23 as [|h s o s' _ IH Hst]; [by rewrite app_nil_r|].
  rewrite app_assoc. by eapply runs_step.
Qed.

Lemma runs_quiet s1 s2 s3 : im_step s1 None s2 -> im_runs s2 [] s3 -> im_runs s1 [] s3.
Proof. intros Hst. apply (runs_trans s1 [] s2 []). apply (runs_step s1 [] s1 None); [constructor|done]. Qed.

(** The steps that are left to do when no memtable is handed over and no reader is opened any more *)
Inductive settle_step : SegmentInMemory -> SegmentInMemory -> Prop :=
| settle_lock b ms n : settle_step (InMem b ms (Shared []) (S n)) (InMem b ms (Merging 0) n)
| settle_merge b ms i n : settle_step (InMem b ms (Merging i) n) (merge_turn i (InMem b ms (Merging i) n))
| settle_unlock b ms n : settle_step (InMem b ms Leaving n) (InMem b ms (Shared []) n)
| settle_release b ms l1 snap l2 n : settle_step (InMem b ms (Shared (l1 ++ snap :: l2)) n) (InMem b ms (Shared (l1 ++ l2)) n).

Lemma settle_is_step s s' : settle_step s s' -> im_step s None s'.
Proof. destruct 1; constructor. Qed.

Lemma settle_runs s s' : rtc settle_step s s' -> im_runs s [] s'.
Proof. induction 1 as [|s1 s2 s3 Hst _ IH]; [constructor|]. eapply runs_quiet; [by apply settle_is_step|done]. Qed.

(** How many of them there can be: the open readers, and for a goroutine the lock, a turn per memtable, the last turn and the unlock *)
Definition settle_measure (s : SegmentInMemory) : nat :=
  (im_spawned s * (length (im_memtables s) + 3) +
   match im_lock s with Shared l => length l | Merging i => (length (im_memtables s) - i) + 2 | Leaving => 1 end)%nat.

Lemma settle_decreases s s' : settle_step s s' -> (settle_measure s' < settle_measure s)%nat.
Proof.
  destruct 1 as [b ms n|b ms i n|b ms n|b ms l1 snap l2 n]; unfold settle_measure; cbn [im_spawned im_memtables im_lock length]; [lia| |lia|rewrite !length_app; cbn [length]; lia].
  unfold merge_turn. cbn [im_memtables]. destruct (ms !! i) as [mt|] eqn:E; cbn [im_spawned im_memtables im_lock length].
  - apply lookup_lt_Some in E. lia.
  - nia.
Qed.

Lemma settle_bounded n s s' : nsteps settle_step n s s' -> (n <= settle_measure s)%nat.
Proof. induction 1 as [|n s1 s2 s3 Hst _ IH]; [lia|]. pose proof (settle_decreases _ _ Hst). lia. Qed.

(** Only a state with nothing left to do has no such step. *)
Lemma settled s m0 h : im_inv m0 h s -> (forall s', ~ settle_step s s') -> s = InMem (im_bitmaps s) [] (Shared []) 0.
Proof.
  intros [_ Hg _ _] Hno. destruct s as [b ms [[|snap l]|i|] n]; cbn in *.
  - destruct n as [|n]; [|destruct (Hno _ (settle_lock b ms n))]. case_decide as E; [by subst|lia].
  - destruct (Hno _ (settle_release b ms [] snap l n)).
  - destruct (Hno _ (settle_merge b ms i n)).
  - destruct (Hno _ (settle_unlock b ms n)).
Qed.

Lemma memtables_read_deltas ms :
  Forall2 reads_delta (map NewMemtableReader ms) (map memtable_delta ms).
Proof. induction ms; cbn [map]; constructor; auto using memtable_reads_delta. Qed.

Lemma memtables_delta_ok ms : Forall delta_ok (map memtable_delta ms).
Proof. induction ms; cbn [map]; constructor; [apply memtable_delta_ok|done]. Qed.

(** * Properties *)

(** Loading a disk segment into the in-memory one: when the bitmaps hold
    the assignment [m] and the segment's nodes represent the delta [d], the
    merge succeeds and the bitmaps hold [d] laid over [m]. *)
Lemma merge_segment_correct {C} `{CL : CursorLaws B C} (bms : list B) (m : gmap Z Z)
    (c : C) (ns rest : list (node B)) (d : delta) (fuel : nat) :
  mem_rep bms m -> segment_rep ns d -> delta_ok d -> cur_inv c ns rest ->
  (length ns <= fuel)%nat ->
  exists bms', MergeSegmentByCursor fuel bms c = Ok (bms', None) /\
    mem_rep bms' (apply_delta m d).
Proof.
  intros Hm Hr Hok Hi Hf.
  destruct (MergeSegmentByCursor_spec fuel bms c ns d rest m Hi Hr Hf (mem_len _ _ Hm))
    as [->|(_ & -> & ->)]; eauto using mem_rep_merge.
Qed.

(** C7: no interleaving of flushes, the background goroutine and readers is
    ever visible in an answer.  A reader opened by [Readers()] and not yet
    released answers every comparison from the initial content overlaid with
    all memtables handed over before it was opened ([h]), and only those: the
    queue holds the reader's snapshot followed by what came later ([rest]). *)
Theorem readers_consistent (b : list B) (m0 : gmap Z Z) (hist : list Memtable)
    (s : SegmentInMemory) (snaps : list (list Memtable)) (snap : list Memtable)
    (v : Z) (op : Operator) (f : Z -> Z -> bool) :
  mem_rep b m0 -> Forall memtable_u64 hist ->
  im_runs (InMem b [] (Shared []) 0) hist s ->
  im_lock s = Shared snaps -> snap ∈ snaps -> is_u64 v -> compare_op op = Some f ->
  exists h rest r, hist = h ++ rest /\ im_memtables s = snap ++ rest /\
    cr_Read (map (fun r => (r, CtxLive)) (Readers s snap)) v op = Ok (Some r) /\
    bm_elems r = matching (fun k => f k v) (content m0 h).
Proof.
  intros Hb Hu Hr Hl Hin Hv Hop. destruct (runs_inv m0 b hist s Hb Hu Hr) as [Hc _ _ Hs].
  specialize (Hs _ Hl). rewrite Forall_forall in Hs. destruct (Hs _ Hin) as [rest Hrest].
  destruct Hc as (h0 & -> & Hrep). rewrite Hl in Hrep. cbn [merged_pending take] in Hrep.
  rewrite app_nil_r in Hrep.
  destruct (cr_Read_ok (NewInMemoryReader (im_bitmaps s)) (content m0 h0)
    (map NewMemtableReader snap) (map memtable_delta snap) v op f Hv Hop) as (r & Hrd & He).
  - by apply memory_reads_base.
  - apply memtables_read_deltas.
  - apply memtables_delta_ok.
  - exists (h0 ++ snap), rest, r. split; [by rewrite Hrest, app_assoc|]. split; [done|].
    split; [exact Hrd|]. rewrite He. unfold content. by rewrite map_app, foldl_app.
Qed.

(** C39: no memtable is lost and none waits for ever.  From every state that
    any interleaving reaches, each run in which no further memtable is handed
    over and no further reader is opened ends after a bounded number of steps, and
    where it cannot go on the queue is empty, no goroutine is left, and
    the bitmaps alone hold everything handed over. *)
Theorem merge_eventually (b : list B) (m0 : gmap Z Z) (hist : list Memtable)
    (s : SegmentInMemory) :
  mem_rep b m0 -> Forall memtable_u64 hist ->
  im_runs (InMem b [] (Shared []) 0) hist s ->
  (forall n s', nsteps settle_step n s s' -> (n <= settle_measure s)%nat) /\
  (forall s', rtc settle_step s s' -> (forall s'', ~ settle_step s' s'') ->
    s' = InMem (im_bitmaps s') [] (Shared []) 0 /\ mem_rep (im_bitmaps s') (content m0 hist)).
Proof.
  intros Hb Hu Hr. split; [intros n s'; apply settle_bounded|]. intros s' Hs Hno.
  pose proof (runs_trans _ _ _ _ _ Hr (settle_runs _ _ Hs)) as Hall. rewrite app_nil_r in Hall. pose proof (runs_inv m0 b hist s' Hb Hu Hall) as Hi.
  pose proof (settled s' m0 hist Hi Hno) as E. split; [done|]. destruct Hi as [(h0 & -> & Hrep) _ _ _]. rewrite E in Hrep |- *. exact Hrep.
Qed.

(** [IsUnpopulated] is never wrong about content that a reader could be
    served: while it can take the lock, it answers [true] only if nothing was
    handed over that has not been deleted again. *)
Lemma unpopulated_serves_nothing (b : list B) (m0 : gmap Z Z) (hist : list Memtable)
    (s : SegmentInMemory) (snaps : list (list Memtable)) :
  mem_rep b m0 -> Forall memtable_u64 hist ->
  im_runs (InMem b [] (Shared []) 0) hist s -> im_lock s = Shared snaps ->
  IsUnpopulated s = true -> content m0 hist = ∅.
Proof.
  intros Hb Hu Hr Hl Hun. destruct (runs_inv m0 b hist s Hb Hu Hr) as [(h0 & -> & Hrep) _ _ _].
  unfold IsUnpopulated in Hun. destruct (bm_isempty _) eqn:E; [|done]. cbn [negb] in Hun.
  apply isempty_spec in E. rewrite Hl in Hrep. cbn [merged_pending take] in Hrep.
  rewrite (mem_all _ _ Hrep) in E. rewrite app_nil_r in E.
  apply dom_empty_inv_L in E. destruct (im_memtables s); [by rewrite app_nil_r|done].
Qed.
End InMemory.

(** * Witnesses *)

Section Witnesses.
Import SetBitmap.

Definition wit_mt1 : Memtable := mt_Insert NewMemtable 6 [7; 8].
Definition wit_mt2 : Memtable := mt_Delete (mt_Insert NewMemtable 9 [7]) 0 [8].
Definition wit_nodes (m : Memtable) : list (node (gset Z)) :=
  map reload (map mnode_node (mt_Nodes m)).
Definition wit_cursor (m : Memtable) : SegmentCursorMmap :=
  let p := encode_nodes (map mnode_node (mt_Nodes (B := gset Z) m)) in
  NewSegmentCursorMmap (Buf (p ++ []) (length p)).

Lemma wit_u64 : Forall memtable_u64 [wit_mt1; wit_mt2].
Proof.
  assert (Hall : forall m, map_fold (fun _ k b => b && (0 <=? k) && (k <? 2 ^ 64)) true (additions m) = true ->
    memtable_u64 m).
  { intros m Hm i k Hk. rewrite <- (insert_delete_id _ _ _ Hk) in Hm.
    rewrite map_fold_insert_L in Hm; [|intros; by destruct y, (0 <=? z1), (z1 <? 2 ^ 64), (0 <=? z2), (z2 <? 2 ^ 64)
      |apply lookup_delete_eq].
    unfold is_u64. lia. }
  constructor; [|constructor; [|constructor]]; apply Hall; vm_compute; reflexivity.
Qed.

(** Two flushes, the second while the goroutine of the first is leaving; then
    a reader is opened. *)
Definition wit_leaving : SegmentInMemory (B := gset Z) :=
  InMem (merge_memtable new_bitmaps wit_mt1) [wit_mt2] Leaving 1.
Definition wit_state : SegmentInMemory (B := gset Z) :=
  InMem (merge_memtable new_bitmaps wit_mt1) [wit_mt2] (Shared [[wit_mt2]]) 1.

Lemma wit_runs_leaving : im_runs (B := gset Z) (InMem new_bitmaps [] (Shared []) 0)
  [wit_mt1; wit_mt2] wit_leaving.
Proof.
  set (s0 := InMem (B := gset Z) new_bitmaps [] (Shared []) 0).
  set (b1 := merge_memtable (B := gset Z) new_bitmaps wit_mt1).
  assert (R1 : im_runs s0 [wit_mt1] (InMem new_bitmaps [wit_mt1] (Shared []) 1)).
  { apply (runs_step s0 [] s0 (Some wit_mt1)); [constructor|apply step_append]. }
  assert (R2 : im_runs s0 [wit_mt1] (InMem b1 [] Leaving 0)).
  { apply (runs_trans _ _ _ [] _ R1). eapply runs_quiet; [apply step_lock|].
    eapply runs_quiet; [apply step_merge|]. cbn. eapply runs_quiet; [apply step_merge|]. constructor. }
  exact (runs_step s0 _ _ (Some wit_mt2) _ R2 (step_append _ wit_mt2)).
Qed.

Lemma wit_runs : im_runs (B := gset Z) (InMem new_bitmaps [] (Shared []) 0)
  [wit_mt1; wit_mt2] wit_state.
Proof.
  apply (runs_trans _ _ _ [] _ wit_runs_leaving). eapply runs_quiet; [apply step_unlock|].
  eapply runs_quiet; [apply step_open|]. constructor.
Qed.

Lemma merge_segment_correct_witness :
  exists bms', MergeSegmentByCursor (B := gset Z) 65 new_bitmaps (wit_cursor wit_mt1) = Ok (bms', None)
    /\ mem_rep bms' (apply_delta ∅ (memtable_delta wit_mt1)).
Proof.
  apply (merge_segment_correct new_bitmaps ∅ (wit_cursor wit_mt1) (wit_nodes wit_mt1)
    (wit_nodes wit_mt1)).
  - apply mem_rep_empty.
  - replace (wit_nodes wit_mt1) with (map (mnode_node (B := gset Z)) (mt_Nodes wit_mt1))
      by (vm_compute; reflexivity).
    apply mt_Nodes_rep. pose proof wit_u64 as Hu. by inversion Hu.
  - apply memtable_delta_ok.
  - apply mmap_inv_new. vm_compute. reflexivity.
  - vm_compute. lia.
Defined.

Lemma readers_consistent_witness :
  exists h rest r, [wit_mt1; wit_mt2] = h ++ rest /\ im_memtables wit_state = [wit_mt2] ++ rest /\
    cr_Read (map (fun r => (r, CtxLive)) (Readers wit_state [wit_mt2])) 6 OperatorGreaterThan
    = Ok (Some r) /\ bm_elems r = matching (fun k => 6 <? k) (content ∅ h).
Proof.
  refine (readers_consistent new_bitmaps ∅ _ wit_state _ _ 6 OperatorGreaterThan _
    mem_rep_empty wit_u64 wit_runs eq_refl _ _ eq_refl).
  - left.
  - unfold is_u64; lia.
Defined.

Lemma merge_eventually_witness :
  (forall n s', nsteps settle_step n wit_leaving s' -> (n <= settle_measure (B := gset Z) wit_leaving)%nat) /\
  (forall s', rtc settle_step wit_leaving s' -> (forall s'', ~ settle_step s' s'') ->
    s' = InMem (im_bitmaps s') [] (Shared []) 0 /\ mem_rep (im_bitmaps s') (content ∅ [wit_mt1; wit_mt2])).
Proof. exact (merge_eventually new_bitmaps ∅ [wit_mt1; wit_mt2] wit_leaving mem_rep_empty wit_u64 wit_runs_leaving). Defined.

Lemma unpopulated_serves_nothing_witness :
  IsUnpopulated (B := gset Z) NewSegmentInMemory = true /\ content ∅ [] = ∅.
Proof.
  split; [vm_compute; reflexivity|].
  apply (unpopulated_serves_nothing (B := gset Z) new_bitmaps ∅ [] NewSegmentInMemory [] mem_rep_empty).
  - constructor.
  - constructor.
  - reflexivity.
  - vm_compute. reflexivity.
Defined.
End Witnesses.
