(* ===== verification/ReplicationFSM.v ===== *)
(** * cluster/replication: the replication state machine

    [shard_replication_op_state.go] (the status of one operation),
    [shard_replication_fsm.go] (the indices, lookups and routing filters) and
    [shard_replication_apply.go] (the commands the cluster's log applies).
    Every command is a function from the FSM to the FSM and an optional error;
    a command that fails half-way returns the state it left behind.  Reading
    the clock is an argument ([now]).  Maps are [gmap]s; where the code ranges
    over a map, the model ranges over its elements. *)

From stdpp Require Import strings sorting.
From S2P Require Import Prelude.

(** ** States, transfers, errors *)

(** [api.ShardReplicationState] and [api.ShardReplicationTransferType] are Go
    strings: any string can arrive in a command. *)
Definition REGISTERED : string := "REGISTERED".
Definition HYDRATING : string := "HYDRATING".
Definition FINALIZING : string := "FINALIZING".
Definition INTEGRATING : string := "INTEGRATING".
Definition READY : string := "READY".
Definition DEHYDRATING : string := "DEHYDRATING".
Definition CANCELLED : string := "CANCELLED".
Definition COPY : string := "COPY".
Definition MOVE : string := "MOVE".

Definition StateRank (s : string) : Z :=
  if decide (s = REGISTERED) then 1
  else if decide (s = HYDRATING) then 2
  else if decide (s = FINALIZING) then 3
  else if decide (s = INTEGRATING) then 4
  else if decide (s = DEHYDRATING) then 5
  else if decide (s = READY) then 6
  else 0.

Inductive torn_index : Type :=
| TornTarget | TornSource | TornCollection | TornSourceFQDN | TornTargetFQDN
| TornCollectionShard | TornShard | TornStatus.

Inductive rep_error : Type :=
| ErrReplicationOperationNotFound
| ErrOpStatusNotFound (id : Z)
| ErrShardAlreadyReplicating
| ErrMaxErrorsReached
| ErrOpAlreadyCancelled (id : Z)
| ErrOpCancellationInFlight
| ErrCancellationImpossible
| ErrDeletionImpossible
| ErrTornFSM (missing : list torn_index).

(** ** Operations and their status *)

Record shardFQDN : Type := newShardFQDN {
  NodeId : string;
  CollectionId : string;
  ShardId : string
}.

#[export] Instance shardFQDN_eq_dec : EqDecision shardFQDN.
Proof. solve_decision. Defined.

#[export] Instance shardFQDN_countable : Countable shardFQDN.
Proof.
  apply (inj_countable' (fun s => (NodeId s, CollectionId s, ShardId s))
                        (fun '(n, c, s) => newShardFQDN n c s)).
  by intros [].
Defined.

Record ShardReplicationOp : Type := Op {
  ID : Z;
  UUID : string;
  SourceShard : shardFQDN;
  TargetShard : shardFQDN;
  TransferType : string;
  StartTimeUnixMs : Z
}.

#[export] Instance ShardReplicationOp_eq_dec : EqDecision ShardReplicationOp.
Proof. solve_decision. Defined.

Record ReplicationDetailsError : Type := DetailsError {
  Message : string;
  ErroredTimeUnixMs : Z
}.

Record State : Type := MkState {
  st_State : string;
  st_Errors : list ReplicationDetailsError;
  st_StartTimeUnixMs : Z
}.

Record ShardReplicationOpStatus : Type := Status {
  SchemaVersion : Z;
  PerNodeState : gmap string string;
  Current : State;
  ShouldCancel : bool;
  ShouldDelete : bool;
  UnCancellable : bool;
  History : list State
}.

Definition MaxErrors : nat := 50.

Definition NewShardReplicationStatus (state : string) : ShardReplicationOpStatus :=
  Status 0 ∅ (MkState state [] 0) false false false [].

Definition GetCurrentState (s : ShardReplicationOpStatus) : string := st_State (Current s).

Definition AddError (s : ShardReplicationOpStatus) (error : string) (timeUnixMs : Z)
  : outcome rep_error ShardReplicationOpStatus :=
  if (MaxErrors <=? length (st_Errors (Current s)))%nat then Err ErrMaxErrorsReached
  else
    let cur := MkState (st_State (Current s))
                       (st_Errors (Current s) ++ [DetailsError error timeUnixMs])
                       (st_StartTimeUnixMs (Current s)) in
    Ok (Status (SchemaVersion s) (PerNodeState s) cur (ShouldCancel s) (ShouldDelete s)
               (UnCancellable s) (History s)).

Definition ChangeState (now : Z) (s : ShardReplicationOpStatus) (nextState : string)
  : ShardReplicationOpStatus :=
  Status (SchemaVersion s) (PerNodeState s) (MkState nextState [] now) (ShouldCancel s)
         (ShouldDelete s) (UnCancellable s) (History s ++ [Current s]).

Definition set_flags (cancel delete : bool) (s : ShardReplicationOpStatus)
  : ShardReplicationOpStatus :=
  Status (SchemaVersion s) (PerNodeState s) (Current s) cancel delete (UnCancellable s) (History s).

Definition TriggerCancellation (s : ShardReplicationOpStatus) := set_flags true false s.
Definition TriggerDeletion (s : ShardReplicationOpStatus) := set_flags true true s.

Definition CompleteCancellation (now : Z) (s : ShardReplicationOpStatus)
  : ShardReplicationOpStatus :=
  ChangeState now (set_flags false false s) CANCELLED.

Definition OnlyCancellation (s : ShardReplicationOpStatus) : bool :=
  ShouldCancel s && negb (ShouldDelete s).

Definition ShouldCleanup (s : ShardReplicationOpStatus) : bool :=
  negb (bool_decide (GetCurrentState s = READY)) &&
  negb (bool_decide (GetCurrentState s = DEHYDRATING)).

Definition ShouldConsumeOps (s : ShardReplicationOpStatus) : bool :=
  let state := GetCurrentState s in
  (negb (bool_decide (state = CANCELLED)) && negb (bool_decide (state = READY)))
  || ((bool_decide (state = CANCELLED) || bool_decide (state = READY)) && ShouldDelete s).

(** ** The FSM *)

Record ShardReplicationFSM : Type := FSM {
  idsByUuid : gmap string Z;
  opsByTarget : gmap string (list ShardReplicationOp);
  opsBySource : gmap string (list ShardReplicationOp);
  opsByCollection : gmap string (list ShardReplicationOp);
  opsByCollectionAndShard : gmap string (gmap string (list ShardReplicationOp));
  opsByTargetFQDN : gmap shardFQDN (list ShardReplicationOp);
  opsBySourceFQDN : gmap shardFQDN (list ShardReplicationOp);
  opsById : gmap Z ShardReplicationOp;
  statusById : gmap Z ShardReplicationOpStatus;
  opsByStateGauge : gmap string Z
}.

Definition NewShardReplicationFSM : ShardReplicationFSM := FSM ∅ ∅ ∅ ∅ ∅ ∅ ∅ ∅ ∅ ∅.

(** [opsByStateGauge.WithLabelValues(state).Inc()] and [.Dec()] *)
Definition gauge_add (state : string) (d : Z) (g : gmap string Z) : gmap string Z :=
  <[state := default 0 (g !! state) + d]> g.

Definition with_status (s : ShardReplicationFSM) (m : gmap Z ShardReplicationOpStatus)
    (g : gmap string Z) : ShardReplicationFSM :=
  FSM (idsByUuid s) (opsByTarget s) (opsBySource s) (opsByCollection s)
      (opsByCollectionAndShard s) (opsByTargetFQDN s) (opsBySourceFQDN s) (opsById s) m g.

(** [s.statusById[id] = status] *)
Definition set_status (s : ShardReplicationFSM) (id : Z) (st : ShardReplicationOpStatus)
  : ShardReplicationFSM :=
  with_status s (<[id := st]> (statusById s)) (opsByStateGauge s).

(** [m[key] = append(m[key], op)] *)
Definition push {K} `{Countable K} (m : gmap K (list ShardReplicationOp)) (key : K)
    (op : ShardReplicationOp) : gmap K (list ShardReplicationOp) :=
  <[key := default [] (m !! key) ++ [op]]> m.

Definition insertOpIntoFSM (s : ShardReplicationFSM) (op : ShardReplicationOp)
    (status : ShardReplicationOpStatus) : ShardReplicationFSM :=
  let coll := CollectionId (SourceShard op) in
  let byShard := default ∅ (opsByCollectionAndShard s !! coll) in
  FSM (<[UUID op := ID op]> (idsByUuid s))
      (push (opsByTarget s) (NodeId (TargetShard op)) op)
      (push (opsBySource s) (NodeId (SourceShard op)) op)
      (push (opsByCollection s) coll op)
      (<[coll := push byShard (ShardId (SourceShard op)) op]> (opsByCollectionAndShard s))
      (push (opsByTargetFQDN s) (TargetShard op) op)
      (push (opsBySourceFQDN s) (SourceShard op) op)
      (<[ID op := op]> (opsById s))
      (<[ID op := status]> (statusById s))
      (gauge_add (GetCurrentState status) 1 (opsByStateGauge s)).

(** ** Admission *)

Section Admission.
Context (s : ShardReplicationFSM).

Fixpoint checkNoConflictingOp (op : ShardReplicationOp) (existingOps : list ShardReplicationOp)
  : option rep_error :=
  match existingOps with
  | [] => None
  | existingOp :: rest =>
      match statusById s !! ID existingOp with
      | None => Some (ErrOpStatusNotFound (ID existingOp))
      | Some status =>
          if bool_decide (GetCurrentState status = CANCELLED) then checkNoConflictingOp op rest
          else if bool_decide (GetCurrentState status = READY)
                  && bool_decide (TransferType existingOp = COPY)
          then checkNoConflictingOp op rest
          else if bool_decide (TransferType existingOp = MOVE) then Some ErrShardAlreadyReplicating
          else if bool_decide (TransferType op = MOVE) then Some ErrShardAlreadyReplicating
          else checkNoConflictingOp op rest
      end
  end.

Fixpoint checkSourceNotInFlightAsTarget (existingOps : list ShardReplicationOp)
  : option rep_error :=
  match existingOps with
  | [] => None
  | existingOp :: rest =>
      match statusById s !! ID existingOp with
      | None => Some (ErrOpStatusNotFound (ID existingOp))
      | Some status =>
          if bool_decide (GetCurrentState status = READY)
             || bool_decide (GetCurrentState status = CANCELLED)
          then checkSourceNotInFlightAsTarget rest
          else Some ErrShardAlreadyReplicating
      end
  end.

Definition validateReplicationAdmission (op : ShardReplicationOp) : option rep_error :=
  match checkNoConflictingOp op (default [] (opsByTargetFQDN s !! TargetShard op)) with
  | Some e => Some e
  | None =>
      match checkNoConflictingOp op (default [] (opsBySourceFQDN s !! SourceShard op)) with
      | Some e => Some e
      | None => checkSourceNotInFlightAsTarget (default [] (opsByTargetFQDN s !! SourceShard op))
      end
  end.
End Admission.

(** ** Commands *)

Record ReplicationReplicateShardRequest : Type := ReplicateRequest {
  r_Uuid : string;
  r_SourceNode : string;
  r_SourceCollection : string;
  r_SourceShard : string;
  r_TargetNode : string;
  r_TransferType : string
}.

(** What a command returns: the FSM it leaves and its error. *)
Notation applied := (ShardReplicationFSM * option rep_error)%type.

Definition requested_op (id now : Z) (c : ReplicationReplicateShardRequest) : ShardReplicationOp :=
  Op id (r_Uuid c)
     (newShardFQDN (r_SourceNode c) (r_SourceCollection c) (r_SourceShard c))
     (newShardFQDN (r_TargetNode c) (r_SourceCollection c) (r_SourceShard c))
     (r_TransferType c) now.

Definition Replicate (id now : Z) (c : ReplicationReplicateShardRequest)
    (s : ShardReplicationFSM) : applied :=
  let op := requested_op id now c in
  match validateReplicationAdmission s op with
  | Some e => (s, Some e)
  | None => (insertOpIntoFSM s op (NewShardReplicationStatus REGISTERED), None)
  end.

(** The lookup shared by the commands that name an operation: its record, then
    its status. *)
Definition find_op (s : ShardReplicationFSM) (id : Z)
  : outcome rep_error (ShardReplicationOp * ShardReplicationOpStatus) :=
  match opsById s !! id with
  | None => Err ErrReplicationOperationNotFound
  | Some op =>
      match statusById s !! ID op with
      | None => Err (ErrOpStatusNotFound id)
      | Some status => Ok (op, status)
      end
  end.

(** Runs [k] on the result of a lookup; a failed lookup leaves the FSM alone. *)
Definition on_found {A} (s : ShardReplicationFSM) (o : outcome rep_error A) (k : A -> applied)
  : applied :=
  match o with
  | Ok a => k a
  | Err e => (s, Some e)
  | _ => (s, None)
  end.

Definition RegisterError (id : Z) (error : string) (timeUnixMs : Z) (s : ShardReplicationFSM)
  : applied :=
  on_found s (find_op s id) (fun '(op, status) =>
    on_found s (AddError status error timeUnixMs) (fun status =>
      (set_status s (ID op) status, None))).

(** [gauge.Dec(old); statusById[id] = new; gauge.Inc(new)] *)
Definition move_status (s : ShardReplicationFSM) (id : Z)
    (old new : ShardReplicationOpStatus) : ShardReplicationFSM :=
  with_status s (<[id := new]> (statusById s))
    (gauge_add (GetCurrentState new) 1 (gauge_add (GetCurrentState old) (-1) (opsByStateGauge s))).

Definition UpdateReplicationOpStatus (id : Z) (state : string) (now : Z)
    (s : ShardReplicationFSM) : applied :=
  on_found s (find_op s id) (fun '(op, status) =>
    if bool_decide (GetCurrentState status = CANCELLED) then (s, Some (ErrOpAlreadyCancelled id))
    else (move_status s (ID op) status (ChangeState now status state), None)).

Definition NodeReachedState (id : Z) (node state : string) (s : ShardReplicationFSM) : applied :=
  match statusById s !! id with
  | None => (s, None)
  | Some status =>
      if StateRank (default "" (PerNodeState status !! node)) <? StateRank state
      then (set_status s id
              (Status (SchemaVersion status) (<[node := state]> (PerNodeState status))
                      (Current status) (ShouldCancel status) (ShouldDelete status)
                      (UnCancellable status) (History status)), None)
      else (s, None)
  end.

Definition StoreSchemaVersion (id version : Z) (s : ShardReplicationFSM) : applied :=
  match statusById s !! id with
  | None => (s, Some ErrReplicationOperationNotFound)
  | Some status =>
      (set_status s id
         (Status version (PerNodeState status) (Current status) (ShouldCancel status)
                 (ShouldDelete status) (UnCancellable status) (History status)), None)
  end.

Definition SetUnCancellable (id : Z) (s : ShardReplicationFSM) : applied :=
  match statusById s !! id with
  | None => (s, Some ErrReplicationOperationNotFound)
  | Some status =>
      if ShouldCancel status || bool_decide (GetCurrentState status = CANCELLED)
      then (s, Some ErrOpCancellationInFlight)
      else (set_status s id
              (Status (SchemaVersion status) (PerNodeState status) (Current status)
                      (ShouldCancel status) (ShouldDelete status) true (History status)), None)
  end.

Definition find_by_uuid (s : ShardReplicationFSM) (uuid : string)
  : outcome rep_error (ShardReplicationOp * ShardReplicationOpStatus) :=
  match idsByUuid s !! uuid with
  | None => Err ErrReplicationOperationNotFound
  | Some id => find_op s id
  end.

Definition CancelReplication (uuid : string) (s : ShardReplicationFSM) : applied :=
  on_found s (find_by_uuid s uuid) (fun '(op, status) =>
    if UnCancellable status then (s, Some ErrCancellationImpossible)
    else (set_status s (ID op) (TriggerCancellation status), None)).

Definition DeleteReplication (uuid : string) (s : ShardReplicationFSM) : applied :=
  on_found s (find_by_uuid s uuid) (fun '(op, status) =>
    if UnCancellable status && negb (bool_decide (GetCurrentState status = READY))
    then (s, Some ErrDeletionImpossible)
    else (set_status s (ID op) (TriggerDeletion status), None)).

Definition DeleteAllReplications (s : ShardReplicationFSM) : applied :=
  (with_status s
     ((fun status =>
         if UnCancellable status && negb (bool_decide (GetCurrentState status = READY))
         then status else TriggerDeletion status) <$> statusById s)
     (opsByStateGauge s), None).

Definition CancellationComplete (id now : Z) (s : ShardReplicationFSM) : applied :=
  on_found s (find_op s id) (fun '(op, status) =>
    (move_status s (ID op) status (CompleteCancellation now status), None)).

(** The loop of [DeleteReplicationsByCollection] and [...ByTenants]: an
    operation without a status stops it half-way. *)
Fixpoint trigger_deletions (ops : list ShardReplicationOp) (s : ShardReplicationFSM) : applied :=
  match ops with
  | [] => (s, None)
  | op :: rest =>
      match statusById s !! ID op with
      | None => (s, Some ErrReplicationOperationNotFound)
      | Some status => trigger_deletions rest (set_status s (ID op) (TriggerDeletion status))
      end
  end.

Definition DeleteReplicationsByCollection (collection : string) (s : ShardReplicationFSM)
  : applied :=
  match opsByCollection s !! collection with
  | None => (s, None)
  | Some ops => trigger_deletions ops s
  end.

(** [s.opsByCollectionAndShard[collection][shard]] *)
Definition shard_ops (s : ShardReplicationFSM) (collection shard : string)
  : option (list ShardReplicationOp) :=
  opsByCollectionAndShard s !! collection ≫= (.!! shard).

Definition DeleteReplicationsByTenants (collection : string) (tenants : list string)
    (s : ShardReplicationFSM) : applied :=
  trigger_deletions (concat (map (fun t => default [] (shard_ops s collection t)) tenants)) s.

(** ** Removal *)

Definition filterOpsFromBucket {K} `{Countable K} (idSet : gset Z)
    (m : gmap K (list ShardReplicationOp)) (key : K) : gmap K (list ShardReplicationOp) :=
  match m !! key with
  | None => m
  | Some ops =>
      let kept := filter (fun op => ID op ∉ idSet) ops in
      match kept with [] => delete key m | _ => <[key := kept]> m end
  end.

(** The first loop: the ids that exist, and their operations. *)
Definition collect_ops (s : ShardReplicationFSM) (ids : list Z) : gset Z * list ShardReplicationOp :=
  foldl (fun '(idSet, ops) id =>
    if decide (id ∈ idSet) then (idSet, ops)
    else match opsById s !! id with
         | None => (idSet, ops)
         | Some op => ({[id]} ∪ idSet, ops ++ [op])
         end) (∅, []) ids.

Definition filter_buckets {K} `{Countable K} (idSet : gset Z) (keys : list K)
    (m : gmap K (list ShardReplicationOp)) : gmap K (list ShardReplicationOp) :=
  foldl (filterOpsFromBucket idSet) m (elements (list_to_set keys : gset K)).

(** [shardsByCollection], as the set of its (collection, shard) pairs. *)
Definition shardsByCollection (ops : list ShardReplicationOp) (collection : string) : list string :=
  map (fun op => ShardId (SourceShard op))
      (filter (fun op => CollectionId (SourceShard op) = collection) ops).

Definition filter_collection (idSet : gset Z) (ops : list ShardReplicationOp)
    (m : gmap string (gmap string (list ShardReplicationOp))) (collection : string)
  : gmap string (gmap string (list ShardReplicationOp)) :=
  match m !! collection with
  | None => m
  | Some byShard =>
      let byShard := filter_buckets idSet (shardsByCollection ops collection) byShard in
      if decide (byShard = ∅) then delete collection m else <[collection := byShard]> m
  end.

(** The last loop. *)
Definition drop_op (s : ShardReplicationFSM) (op : ShardReplicationOp) : ShardReplicationFSM :=
  FSM (delete (UUID op) (idsByUuid s)) (opsByTarget s) (opsBySource s) (opsByCollection s)
      (opsByCollectionAndShard s) (opsByTargetFQDN s) (opsBySourceFQDN s)
      (delete (ID op) (opsById s)) (delete (ID op) (statusById s))
      (match statusById s !! ID op with
       | Some status => gauge_add (GetCurrentState status) (-1) (opsByStateGauge s)
       | None => opsByStateGauge s
       end).

Definition removeReplicationOps (ids : list Z) (s : ShardReplicationFSM) : ShardReplicationFSM :=
  let '(idSet, ops) := collect_ops s ids in
  match ops with
  | [] => s
  | _ =>
      let collections := map (fun op => CollectionId (SourceShard op)) ops in
      let s := FSM (idsByUuid s)
        (filter_buckets idSet (map (fun op => NodeId (TargetShard op)) ops) (opsByTarget s))
        (filter_buckets idSet (map (fun op => NodeId (SourceShard op)) ops) (opsBySource s))
        (filter_buckets idSet collections (opsByCollection s))
        (foldl (filter_collection idSet ops) (opsByCollectionAndShard s)
               (elements (list_to_set collections : gset string)))
        (filter_buckets idSet (map TargetShard ops) (opsByTargetFQDN s))
        (filter_buckets idSet (map SourceShard ops) (opsBySourceFQDN s))
        (opsById s) (statusById s) (opsByStateGauge s) in
      foldl drop_op s ops
  end.

(** The indices a removal finds torn. *)
Definition torn_indices (s : ShardReplicationFSM) (op : ShardReplicationOp) : list torn_index :=
  let missing {A} (o : option A) (t : torn_index) :=
    match o with None => [t] | Some _ => [] end in
  missing (opsByTarget s !! NodeId (TargetShard op)) TornTarget
  ++ missing (opsBySource s !! NodeId (SourceShard op)) TornSource
  ++ missing (opsByCollection s !! CollectionId (SourceShard op)) TornCollection
  ++ missing (opsBySourceFQDN s !! SourceShard op) TornSourceFQDN
  ++ missing (opsByTargetFQDN s !! TargetShard op) TornTargetFQDN
  ++ match opsByCollectionAndShard s !! CollectionId (SourceShard op) with
     | None => [TornCollectionShard]
     | Some byShard => missing (byShard !! ShardId (SourceShard op)) TornShard
     end
  ++ missing (statusById s !! ID op) TornStatus.

Definition removeReplicationOp (id : Z) (s : ShardReplicationFSM) : applied :=
  match opsById s !! id with
  | None => (s, Some ErrReplicationOperationNotFound)
  | Some op =>
      (removeReplicationOps [id] s,
       match torn_indices s op with [] => None | l => Some (ErrTornFSM l) end)
  end.

Definition RemoveReplicationOp (id : Z) (s : ShardReplicationFSM) : applied :=
  removeReplicationOp id s.

Definition idsOf (ops : list ShardReplicationOp) : list Z := map ID ops.

Definition ForceDeleteAll (s : ShardReplicationFSM) : applied :=
  (removeReplicationOps (elements (dom (opsById s))) s, None).

(** The index lookups of the force-delete family: an absent bucket is no work. *)
Definition remove_bucket (o : option (list ShardReplicationOp)) (s : ShardReplicationFSM)
  : applied :=
  match o with
  | None => (s, None)
  | Some ops => (removeReplicationOps (idsOf ops) s, None)
  end.

Definition ForceDeleteByCollection (collection : string) (s : ShardReplicationFSM) : applied :=
  remove_bucket (opsByCollection s !! collection) s.

Definition ForceDeleteByCollectionAndShard (collection shard : string) (s : ShardReplicationFSM)
  : applied :=
  remove_bucket (shard_ops s collection shard) s.

Definition ForceDeleteByTargetNode (node : string) (s : ShardReplicationFSM) : applied :=
  remove_bucket (opsByTarget s !! node) s.

Definition ForceDeleteByIds (ids : list Z) (s : ShardReplicationFSM) : applied :=
  (removeReplicationOps ids s, None).

Definition ForceDeleteByUuid (uuid : string) (s : ShardReplicationFSM) : applied :=
  match idsByUuid s !! uuid with
  | None => (s, Some ErrReplicationOperationNotFound)
  | Some id => removeReplicationOp id s
  end.

(** ** Snapshots *)

(** The value [Snapshot] marshals: each operation with a copy of its status. *)
Definition snapshotOps (s : ShardReplicationFSM)
  : outcome rep_error (list (ShardReplicationOp * ShardReplicationOpStatus)) :=
  foldl (fun acc '(id, status) =>
    let! ops := acc in
    match opsById s !! id with
    | None => Err ErrReplicationOperationNotFound
    | Some op => Ok (ops ++ [(op, status)])
    end) (Ok []) (map_to_list (statusById s)).

(** [Restore] of an unmarshalled snapshot, whose operations the code visits in
    map order: [ops] is any enumeration of them. *)
Definition Restore (ops : list (ShardReplicationOp * ShardReplicationOpStatus))
    (s : ShardReplicationFSM) : ShardReplicationFSM :=
  foldl (fun s '(op, status) => insertOpIntoFSM s op status) NewShardReplicationFSM ops.

(** ** Lookups *)

Definition GetOpById (s : ShardReplicationFSM) (id : Z)
  : option (ShardReplicationOp * ShardReplicationOpStatus) :=
  match opsById s !! id, statusById s !! id with
  | Some op, Some status => Some (op, status)
  | _, _ => None
  end.

Definition GetOpByUuid (s : ShardReplicationFSM) (uuid : string)
  : option (ShardReplicationOp * ShardReplicationOpStatus) :=
  idsByUuid s !! uuid ≫= GetOpById s.

Definition GetReplicationOpUUIDFromId (s : ShardReplicationFSM) (id : Z)
  : outcome rep_error string :=
  match opsById s !! id with
  | None => Err ErrReplicationOperationNotFound
  | Some op => Ok (UUID op)
  end.

Definition GetOpState (s : ShardReplicationFSM) (op : ShardReplicationOp)
  : option ShardReplicationOpStatus := statusById s !! ID op.

Definition getOpsWithStatus (s : ShardReplicationFSM) (ops : list ShardReplicationOp)
  : list (ShardReplicationOp * ShardReplicationOpStatus) :=
  omap (fun op => status ← statusById s !! ID op; Some (op, status)) ops.

Definition GetOpsForTarget (s : ShardReplicationFSM) (node : string) : list ShardReplicationOp :=
  default [] (opsByTarget s !! node).

Definition GetOpsForTargetNode (s : ShardReplicationFSM) (node : string) :=
  (getOpsWithStatus s (default [] (opsByTarget s !! node)), bool_decide (is_Some (opsByTarget s !! node))).

Definition GetOpsForCollection (s : ShardReplicationFSM) (collection : string) :=
  getOpsWithStatus s <$> opsByCollection s !! collection.

Definition GetOpsForCollectionAndShard (s : ShardReplicationFSM) (collection shard : string) :=
  getOpsWithStatus s <$> shard_ops s collection shard.

(** The predicate the gates apply to each operation of a bucket. *)
Definition consumed (s : ShardReplicationFSM) (op : ShardReplicationOp) : bool :=
  match statusById s !! ID op with
  | Some status => ShouldConsumeOps status
  | None => false
  end.

Definition HasActiveReplicationForShard (s : ShardReplicationFSM) (collection shard : string)
  : bool :=
  existsb (consumed s) (default [] (shard_ops s collection shard)).

Definition HasActiveReplicationForCollection (s : ShardReplicationFSM) (collection : string)
  : bool :=
  existsb (consumed s) (default [] (opsByCollection s !! collection)).

Definition terminal (state : string) : bool :=
  bool_decide (state = READY) || bool_decide (state = CANCELLED).

Definition HasActiveTargetReplicationForShard (s : ShardReplicationFSM)
    (collection shard targetNode : string) : bool :=
  existsb (fun op =>
    bool_decide (NodeId (TargetShard op) = targetNode) &&
    match statusById s !! ID op with
    | Some status => negb (terminal (GetCurrentState status))
    | None => false
    end) (default [] (shard_ops s collection shard)).

Definition AllPeersAtLeast (s : ShardReplicationFSM) (opID : Z) (target : string)
    (peers : list string) : bool :=
  match statusById s !! opID with
  | None => false
  | Some st =>
      forallb (fun peer => match PerNodeState st !! peer with
                           | None => false
                           | Some state => StateRank target <=? StateRank state
                           end) peers
  end.

Definition NonTerminalOpStates (s : ShardReplicationFSM) : gmap Z string :=
  omap (fun st => if terminal (GetCurrentState st) then None else Some (GetCurrentState st))
       (statusById s).

(** ** Stale operations *)

(** State and age of a sweep candidate. *)
Definition stale (cutoffUnixMs : Z) (includeCancelled : bool) (st : ShardReplicationOpStatus)
  : bool :=
  (bool_decide (GetCurrentState st = READY)
   || (bool_decide (GetCurrentState st = CANCELLED) && includeCancelled))
  && let t := st_StartTimeUnixMs (Current st) in (t <=? 0) || (t <? cutoffUnixMs).

Definition flagged (st : ShardReplicationOpStatus) : bool := ShouldCancel st || ShouldDelete st.

Definition SelectStaleOps (s : ShardReplicationFSM) (cutoffUnixMs : Z) (includeCancelled : bool)
    (limit : Z) : list (Z * string) * Z :=
  let old := filter (fun '(_, st) => stale cutoffUnixMs includeCancelled st = true)
                    (map_to_list (statusById s)) in
  let candidates := merge_sort Z.le
    (map fst (filter (fun '(_, st) => flagged st = false) old)) in
  let candidates := if (0 <=? limit) && (limit <? Z.of_nat (length candidates))
                    then take (Z.to_nat limit) candidates else candidates in
  (omap (fun id => st ← statusById s !! id; Some (id, GetCurrentState st)) candidates,
   Z.of_nat (length (filter (fun '(_, st) => flagged st = true) old))).

(** ** Routing *)

Definition filterOneReplicaAsSourceReadWrite (s : ShardReplicationFSM)
    (node collection shard : string) : bool * bool :=
  match opsBySourceFQDN s !! newShardFQDN node collection shard with
  | None => (true, true)
  | Some ops =>
      foldl (fun acc op =>
        match statusById s !! ID op with
        | None => acc
        | Some st => if bool_decide (GetCurrentState st = DEHYDRATING) then (false, false) else acc
        end) (true, true) ops
  end.

(** The loop over the operations that target a replica: [None] is its early
    return, otherwise [(targetOk, sawLive)]. *)
Fixpoint target_scan (s : ShardReplicationFSM) (ops : list ShardReplicationOp)
    (targetOk sawLive : bool) : option (bool * bool) :=
  match ops with
  | [] => Some (targetOk, sawLive)
  | op :: rest =>
      match statusById s !! ID op with
      | None => None
      | Some st =>
          let state := GetCurrentState st in
          if bool_decide (state = READY) || bool_decide (state = DEHYDRATING)
             || bool_decide (state = INTEGRATING)
          then target_scan s rest true sawLive
          else if bool_decide (state = CANCELLED) then target_scan s rest targetOk sawLive
          else target_scan s rest targetOk true
      end
  end.

Definition filterOneReplicaReadWrite (s : ShardReplicationFSM) (node collection shard : string)
  : bool * bool :=
  match opsByTargetFQDN s !! newShardFQDN node collection shard with
  | None => filterOneReplicaAsSourceReadWrite s node collection shard
  | Some ops =>
      match target_scan s ops false false with
      | None => (true, true)
      | Some (targetOk, sawLive) =>
          if negb targetOk && negb sawLive
          then filterOneReplicaAsSourceReadWrite s node collection shard
          else if negb targetOk then (false, false)
          else filterOneReplicaAsSourceReadWrite s node collection shard
      end
  end.

Definition readWriteReplicas (s : ShardReplicationFSM) (collection shard : string)
    (shardReplicasLocation : list string) : list string * list string :=
  (filter (fun n => (filterOneReplicaReadWrite s n collection shard).1 = true) shardReplicasLocation,
   filter (fun n => (filterOneReplicaReadWrite s n collection shard).2 = true) shardReplicasLocation).

Definition FilterOneShardReplicasRead (s : ShardReplicationFSM) (collection shard : string)
    (shardReplicasLocation : list string) : list string :=
  match shard_ops s collection shard with
  | None => shardReplicasLocation
  | Some _ => (readWriteReplicas s collection shard shardReplicasLocation).1
  end.

Definition FilterOneShardReplicasWrite (s : ShardReplicationFSM) (collection shard : string)
    (shardReplicasLocation : list string) : list string :=
  match shard_ops s collection shard with
  | None => shardReplicasLocation
  | Some _ => (readWriteReplicas s collection shard shardReplicasLocation).2
  end.

(** ** The replicated log *)

Inductive rep_cmd : Type :=
| CmdReplicate (id now : Z) (c : ReplicationReplicateShardRequest)
| CmdRegisterError (id : Z) (error : string) (timeUnixMs : Z)
| CmdUpdateOpState (id : Z) (state : string) (now : Z)
| CmdNodeReachedState (id : Z) (node state : string)
| CmdStoreSchemaVersion (id version : Z)
| CmdSetUnCancellable (id : Z)
| CmdCancel (uuid : string)
| CmdDelete (uuid : string)
| CmdDeleteAll
| CmdRemoveOp (id : Z)
| CmdCancellationComplete (id now : Z)
| CmdDeleteByCollection (collection : string)
| CmdDeleteByTenants (collection : string) (tenants : list string)
| CmdForceDeleteAll
| CmdForceDeleteByCollection (collection : string)
| CmdForceDeleteByCollectionAndShard (collection shard : string)
| CmdForceDeleteByTargetNode (node : string)
| CmdForceDeleteByIds (ids : list Z)
| CmdForceDeleteByUuid (uuid : string).

Definition fsm_apply (c : rep_cmd) : ShardReplicationFSM -> applied :=
  match c with
  | CmdReplicate id now c => Replicate id now c
  | CmdRegisterError id e t => RegisterError id e t
  | CmdUpdateOpState id st now => UpdateReplicationOpStatus id st now
  | CmdNodeReachedState id n st => NodeReachedState id n st
  | CmdStoreSchemaVersion id v => StoreSchemaVersion id v
  | CmdSetUnCancellable id => SetUnCancellable id
  | CmdCancel u => CancelReplication u
  | CmdDelete u => DeleteReplication u
  | CmdDeleteAll => DeleteAllReplications
  | CmdRemoveOp id => RemoveReplicationOp id
  | CmdCancellationComplete id now => CancellationComplete id now
  | CmdDeleteByCollection c => DeleteReplicationsByCollection c
  | CmdDeleteByTenants c ts => DeleteReplicationsByTenants c ts
  | CmdForceDeleteAll => ForceDeleteAll
  | CmdForceDeleteByCollection c => ForceDeleteByCollection c
  | CmdForceDeleteByCollectionAndShard c sh => ForceDeleteByCollectionAndShard c sh
  | CmdForceDeleteByTargetNode n => ForceDeleteByTargetNode n
  | CmdForceDeleteByIds ids => ForceDeleteByIds ids
  | CmdForceDeleteByUuid u => ForceDeleteByUuid u
  end.

Definition run (cs : list rep_cmd) (s : ShardReplicationFSM) : ShardReplicationFSM :=
  foldl (fun s c => (fsm_apply c s).1) s cs.
