(* ===== verification/ReplicationInvariant.v ===== *)
(** * The invariant of the replication state machine

    Every index of the FSM holds exactly the operations of [opsById], filed
    under the right key and in no empty bucket; every operation has a status;
    the gauge counts the operations in each state.  All commands preserve it. *)

From stdpp Require Import strings sorting.
From S2P Require Import Prelude ReplicationFSM.

(** ** One index

    An index is given by its lookup function, so that the nested
    collection-and-shard map is an index as well. *)
Section Index.
Context {K : Type} `{EqDecision K}.

Record index_ok (key : ShardReplicationOp -> K) (look : K -> option (list ShardReplicationOp))
    (ops : gmap Z ShardReplicationOp) : Prop := {
  idx_elem : forall k op, op ∈ default [] (look k) <-> ops !! ID op = Some op /\ key op = k;
  idx_nodup : forall k, NoDup (default [] (look k));
  idx_nonempty : forall k, look k <> Some []
}.

Lemma index_empty key : index_ok key (fun _ => None) ∅.
Proof. split; cbn; [set_solver|constructor|done]. Qed.

Lemma index_push key look look' ops op :
  index_ok key look ops -> ops !! ID op = None ->
  (forall k, look' k = if decide (k = key op) then Some (default [] (look k) ++ [op]) else look k) ->
  index_ok key look' (<[ID op := op]> ops).
Proof.
  intros [He Hn Hz] Hnew Hl. split.
  - intros k o. rewrite Hl. rewrite lookup_insert. case_decide as Ek; cbn [default from_option id].
    + rewrite elem_of_app, He, list_elem_of_singleton. case_decide as Ei.
      * split; [intros [[Ho _]| ->]; [congruence|by subst]|]. intros [[= ->] _]. auto.
      * split; [intros [[? ?]| ->]; [by subst|congruence]|]. intros [? ?]. auto.
    + rewrite He. case_decide as Ei; [|done].
      split; [intros [Ho _]; congruence|]. intros [[= ->] E]. by rewrite E in Ek.
  - intros k. rewrite Hl. case_decide; [|apply Hn]. cbn. apply NoDup_app. split; [apply Hn|].
    split; [|apply NoDup_singleton]. intros o Ho Heq. apply list_elem_of_singleton in Heq as ->.
    apply He in Ho as [Ho _]. congruence.
  - intros k. rewrite Hl. case_decide; [by destruct (default [] (look k))|apply Hz].
Qed.

(** A bucket without the operations of [idSet]; a drained bucket is absent. *)
Definition kept_bucket (idSet : gset Z) (o : option (list ShardReplicationOp))
  : option (list ShardReplicationOp) :=
  match filter (fun op => ID op ∉ idSet) (default [] o) with [] => None | l => Some l end.

Lemma default_kept idSet o :
  default [] (kept_bucket idSet o) = filter (fun op => ID op ∉ idSet) (default [] o).
Proof. unfold kept_bucket. by destruct (filter _ _). Qed.

Lemma index_filter key look look' ops (idSet : gset Z) :
  index_ok key look ops ->
  (forall k, look' k = kept_bucket idSet (look k)) ->
  index_ok key look' (filter (fun '(i, _) => i ∉ idSet) ops).
Proof.
  intros [He Hn Hz] Hl. split.
  - intros k o. rewrite Hl, default_kept, list_elem_of_filter, He, map_lookup_filter_Some. tauto.
  - intros k. rewrite Hl, default_kept. by apply NoDup_filter.
  - intros k. rewrite Hl. unfold kept_bucket. by destruct (filter _ _).
Qed.

(** A bucket none of whose operations is removed stays as it is. *)
Lemma kept_untouched key look ops idSet k :
  index_ok key look ops ->
  (forall op, op ∈ default [] (look k) -> ID op ∉ idSet) -> kept_bucket idSet (look k) = look k.
Proof.
  intros [_ _ Hz] Hno. unfold kept_bucket. rewrite filter_all by done.
  specialize (Hz k). destruct (look k) as [[|o l]|]; naive_solver.
Qed.
End Index.

Section Buckets.
Context {K : Type} `{Countable K}.

Lemma lookup_push (m : gmap K (list ShardReplicationOp)) key op k :
  push m key op !! k = if decide (k = key) then Some (default [] (m !! k) ++ [op]) else m !! k.
Proof.
  unfold push. case_decide; subst; [apply lookup_insert_eq|by apply lookup_insert_ne].
Qed.

Lemma lookup_filterOps idSet (m : gmap K (list ShardReplicationOp)) key k :
  m !! key <> Some [] ->
  filterOpsFromBucket idSet m key !! k
  = if decide (k = key) then kept_bucket idSet (m !! k) else m !! k.
Proof.
  intros Hz. unfold filterOpsFromBucket, kept_bucket. case_decide as E.
  - subst k. destruct (m !! key) as [ops|] eqn:Em; cbn [default from_option id].
    + destruct (filter _ ops); [apply lookup_delete_eq|apply lookup_insert_eq].
    + by rewrite Em, filter_nil.
  - destruct (m !! key) as [ops|]; [|done].
    destruct (filter _ ops); [by rewrite lookup_delete_ne|by rewrite lookup_insert_ne].
Qed.

Lemma lookup_fold_filterOps idSet (keys : list K) : forall (m : gmap K (list ShardReplicationOp)) k,
  NoDup keys -> (forall k, m !! k <> Some []) ->
  foldl (filterOpsFromBucket idSet) m keys !! k
  = if decide (k ∈ keys) then kept_bucket idSet (m !! k) else m !! k.
Proof.
  induction keys as [|key keys IH]; intros m k Hd Hz; cbn [foldl].
  - rewrite decide_False by set_solver. done.
  - inversion_clear Hd as [|? ? Hnot Hd']. rewrite IH; [|done|].
    + rewrite lookup_filterOps by done. case_decide as E; case_decide as E'; subst; try done.
      * by rewrite decide_True by set_solver.
      * by rewrite decide_True by set_solver.
      * by rewrite decide_False by set_solver.
    + intros k'. rewrite lookup_filterOps by done. case_decide; [|done].
      unfold kept_bucket. by destruct (filter _ _).
Qed.

Lemma lookup_filter_buckets idSet keys (m : gmap K (list ShardReplicationOp)) k :
  (forall k, m !! k <> Some []) ->
  filter_buckets idSet keys m !! k
  = if decide (k ∈ keys) then kept_bucket idSet (m !! k) else m !! k.
Proof.
  intros Hz. unfold filter_buckets.
  rewrite lookup_fold_filterOps by (done || apply NoDup_elements).
  apply decide_ext. by rewrite elem_of_elements, elem_of_list_to_set.
Qed.
End Buckets.

(** ** The gauge *)

Definition count (state : string) (m : gmap Z ShardReplicationOpStatus) : Z :=
  Z.of_nat (size (filter (fun '(_, st) => GetCurrentState st = state) m)).

Definition one_if (b : bool) : Z := if b then 1 else 0.

Lemma count_insert_new state m i st :
  m !! i = None ->
  count state (<[i := st]> m) = count state m + one_if (bool_decide (GetCurrentState st = state)).
Proof.
  intros Hi. unfold count, one_if. rewrite map_filter_insert. case_decide as E; case_bool_decide; try done.
  - rewrite map_size_insert_None; [lia|]. apply map_lookup_filter_None. auto.
  - rewrite (delete_id m) by done. lia.
Qed.

Lemma count_delete state m i st :
  m !! i = Some st ->
  count state (delete i m) = count state m - one_if (bool_decide (GetCurrentState st = state)).
Proof.
  intros Hi. rewrite <- (insert_delete_id m i st Hi) at 2.
  rewrite count_insert_new by apply lookup_delete_eq. lia.
Qed.

Lemma count_update state m i old new :
  m !! i = Some old ->
  count state (<[i := new]> m)
  = count state m - one_if (bool_decide (GetCurrentState old = state))
    + one_if (bool_decide (GetCurrentState new = state)).
Proof.
  intros Hi. rewrite <- insert_delete_eq, count_insert_new by apply lookup_delete_eq.
  by rewrite (count_delete _ _ _ _ Hi).
Qed.

Lemma lookup_gauge_add state d g state' :
  default 0 (gauge_add state d g !! state')
  = default 0 (g !! state') + d * one_if (bool_decide (state = state')).
Proof.
  unfold gauge_add, one_if. case_bool_decide as E.
  - subst. rewrite lookup_insert_eq. cbn. lia.
  - rewrite lookup_insert_ne by done. lia.
Qed.

Definition gauge_ok (s : ShardReplicationFSM) : Prop :=
  forall state, default 0 (opsByStateGauge s !! state) = count state (statusById s).

(** ** The invariant *)

Definition source_key (op : ShardReplicationOp) : string * string :=
  (CollectionId (SourceShard op), ShardId (SourceShard op)).

Record fsm_wf (s : ShardReplicationFSM) : Prop := {
  wf_id : forall id op, opsById s !! id = Some op -> ID op = id;
  wf_same_shard : forall id op, opsById s !! id = Some op ->
    CollectionId (TargetShard op) = CollectionId (SourceShard op) /\
    ShardId (TargetShard op) = ShardId (SourceShard op);
  wf_status : dom (statusById s) = dom (opsById s);
  wf_uuid : forall u id, idsByUuid s !! u = Some id ->
    exists op, opsById s !! id = Some op /\ UUID op = u;
  wf_target : index_ok (fun op => NodeId (TargetShard op)) (opsByTarget s !!.) (opsById s);
  wf_source : index_ok (fun op => NodeId (SourceShard op)) (opsBySource s !!.) (opsById s);
  wf_coll : index_ok (fun op => CollectionId (SourceShard op)) (opsByCollection s !!.) (opsById s);
  wf_shards : index_ok source_key (fun '(c, sh) => shard_ops s c sh) (opsById s);
  wf_shards_nonempty : forall c, opsByCollectionAndShard s !! c <> Some ∅;
  wf_tfqdn : index_ok TargetShard (opsByTargetFQDN s !!.) (opsById s);
  wf_sfqdn : index_ok SourceShard (opsBySourceFQDN s !!.) (opsById s);
  wf_gauge : gauge_ok s
}.

Lemma wf_new : fsm_wf NewShardReplicationFSM.
Proof.
  split; cbn; try apply index_empty; try done.
  split; [intros [c sh] op; cbn; set_solver|intros [c sh]; constructor|by intros [c sh]].
Qed.

Lemma shard_ops_push s op st c sh :
  shard_ops (insertOpIntoFSM s op st) c sh
  = if decide ((c, sh) = source_key op) then Some (default [] (shard_ops s c sh) ++ [op])
    else shard_ops s c sh.
Proof.
  unfold shard_ops, source_key. cbn [insertOpIntoFSM opsByCollectionAndShard].
  destruct (decide (c = CollectionId (SourceShard op))) as [->|Hc].
  - rewrite lookup_insert_eq. cbn. rewrite lookup_push.
    case_decide as Es; case_decide as Ep; try congruence;
      destruct (opsByCollectionAndShard s !! _); cbn; by rewrite ?lookup_empty.
  - rewrite lookup_insert_ne by done. by rewrite decide_False by congruence.
Qed.

Lemma insert_wf s op st :
  fsm_wf s -> opsById s !! ID op = None ->
  CollectionId (TargetShard op) = CollectionId (SourceShard op) ->
  ShardId (TargetShard op) = ShardId (SourceShard op) ->
  fsm_wf (insertOpIntoFSM s op st).
Proof.
  intros W Hnew Hc Hs. destruct W. split; cbn [opsById statusById idsByUuid opsByTarget opsBySource
    opsByCollection opsByCollectionAndShard opsByTargetFQDN opsBySourceFQDN insertOpIntoFSM];
    try (eapply index_push; [eassumption|done|intros k; apply lookup_push]).
  - intros id o. rewrite lookup_insert_Some. naive_solver.
  - intros id o. rewrite lookup_insert_Some. naive_solver.
  - rewrite !dom_insert_L. congruence.
  - intros u id. rewrite lookup_insert_Some. intros [[<- <-]|[Hu Hid]].
    + exists op. by rewrite lookup_insert_eq.
    + destruct (wf_uuid0 _ _ Hid) as (o & Ho & Hou). exists o.
      rewrite lookup_insert_ne; [done|]. intros <-. congruence.
  - eapply index_push; [eassumption|done|]. intros [c sh]. apply shard_ops_push.
  - intros c. unfold push. rewrite lookup_insert_Some. intros [[_ E]|[_ E]]; [|by eapply wf_shards_nonempty0].
    by apply insert_non_empty in E.
  - intros state. cbn. rewrite lookup_gauge_add, wf_gauge0, count_insert_new; [lia|].
    apply not_elem_of_dom. rewrite wf_status0. by apply not_elem_of_dom.
Qed.

(** Commands that only rewrite statuses. *)
Lemma with_status_wf s m g :
  fsm_wf s -> dom m = dom (statusById s) -> gauge_ok (with_status s m g) -> fsm_wf (with_status s m g).
Proof. intros [] Hd Hg. split; cbn; try done. congruence. Qed.

Lemma move_status_wf s id old new :
  fsm_wf s -> statusById s !! id = Some old -> fsm_wf (move_status s id old new).
Proof.
  intros W Ho. apply with_status_wf; [done| |].
  - rewrite dom_insert_L. apply elem_of_dom_2 in Ho. set_solver.
  - intros state. cbn. rewrite !lookup_gauge_add, (wf_gauge _ W), (count_update _ _ _ old) by done. lia.
Qed.

Lemma set_status_wf s id old new :
  fsm_wf s -> statusById s !! id = Some old -> GetCurrentState new = GetCurrentState old ->
  fsm_wf (set_status s id new).
Proof.
  intros W Ho Hs. apply with_status_wf; [done| |].
  - rewrite dom_insert_L. apply elem_of_dom_2 in Ho. set_solver.
  - intros state. cbn. rewrite (wf_gauge _ W), (count_update _ _ _ old), Hs by done. lia.
Qed.

(** ** Removal *)

Lemma collect_ops_spec s ids :
  fsm_wf s ->
  (forall i, i ∈ (collect_ops s ids).1 <-> i ∈ ids /\ is_Some (opsById s !! i)) /\
  (forall op, op ∈ (collect_ops s ids).2 <-> ID op ∈ ids /\ opsById s !! ID op = Some op).
Proof.
  intros W. unfold collect_ops. induction ids as [|id ids [IHs IHo]] using rev_ind; [set_solver|].
  rewrite foldl_app. cbn [foldl]. destruct (foldl _ _ ids) as [idSet ops]; cbn [fst snd] in *.
  case_decide as Ein; [|destruct (opsById s !! id) as [op|] eqn:Eop]; cbn [fst snd].
  - apply IHs in Ein. split; intros x; rewrite elem_of_app, list_elem_of_singleton, ?IHs, ?IHo; naive_solver.
  - split; intros x; rewrite elem_of_app, list_elem_of_singleton.
    + rewrite elem_of_union, elem_of_singleton, IHs. naive_solver.
    + rewrite elem_of_app, list_elem_of_singleton, IHo. split; [|naive_solver].
      intros [[? ?]| ->]; [naive_solver|]. rewrite (wf_id _ W _ _ Eop). naive_solver.
  - split; intros x; rewrite elem_of_app, list_elem_of_singleton, ?IHs, ?IHo;
      (split; [naive_solver|]); intros [[?|Hx] Hs]; try done; exfalso.
    + subst x. rewrite Eop in Hs. by destruct Hs.
    + rewrite Hx in Hs. congruence.
Qed.

(** [s'] is [s] without the operations of [R]. *)
Record removed (R : gset Z) (s s' : ShardReplicationFSM) : Prop := {
  rm_ops : opsById s' = filter (fun '(i, _) => i ∉ R) (opsById s);
  rm_status : statusById s' = filter (fun '(i, _) => i ∉ R) (statusById s);
  rm_uuid : forall u id, idsByUuid s' !! u = Some id <-> idsByUuid s !! u = Some id /\
    forall op, opsById s !! ID op = Some op -> ID op ∈ R -> UUID op <> u;
  rm_target : forall k, opsByTarget s' !! k = kept_bucket R (opsByTarget s !! k);
  rm_source : forall k, opsBySource s' !! k = kept_bucket R (opsBySource s !! k);
  rm_coll : forall k, opsByCollection s' !! k = kept_bucket R (opsByCollection s !! k);
  rm_shards : forall c sh, shard_ops s' c sh = kept_bucket R (shard_ops s c sh);
  rm_shards_nonempty : forall c, opsByCollectionAndShard s' !! c <> Some ∅;
  rm_tfqdn : forall k, opsByTargetFQDN s' !! k = kept_bucket R (opsByTargetFQDN s !! k);
  rm_sfqdn : forall k, opsBySourceFQDN s' !! k = kept_bucket R (opsBySourceFQDN s !! k);
  rm_gauge : gauge_ok s'
}.

Lemma removed_wf R s s' : fsm_wf s -> removed R s s' -> fsm_wf s'.
Proof.
  intros [] []. split; try done; rewrite ?rm_ops0, ?rm_status0.
  - intros id op. rewrite map_lookup_filter_Some. naive_solver.
  - intros id op. rewrite map_lookup_filter_Some. naive_solver.
  - apply set_eq. intros i. rewrite !elem_of_dom. unfold is_Some.
    setoid_rewrite map_lookup_filter_Some.
    assert (E : is_Some (statusById s !! i) <-> is_Some (opsById s !! i))
      by (by rewrite <- !elem_of_dom, wf_status0).
    unfold is_Some in E. naive_solver.
  - intros u id Hu. apply rm_uuid0 in Hu as [Hu Hno]. destruct (wf_uuid0 _ _ Hu) as (op & Ho & Hou).
    exists op. split; [|done]. apply map_lookup_filter_Some. split; [done|].
    pose proof (wf_id0 _ _ Ho) as <-. intros HR. by apply (Hno op).
  - by eapply index_filter.
  - by eapply index_filter.
  - by eapply index_filter.
  - eapply index_filter; [eassumption|]. by intros [c sh].
  - by eapply index_filter.
  - by eapply index_filter.
Qed.

(** [kept_bucket] only looks at the ids that occur in the bucket. *)
Lemma kept_ext {K} (key : ShardReplicationOp -> K) look s (R R' : gset Z) k :
  index_ok key look (opsById s) ->
  (forall i, i ∈ R' <-> i ∈ R /\ is_Some (opsById s !! i)) ->
  kept_bucket R' (look k) = kept_bucket R (look k).
Proof.
  intros Hi HR. unfold kept_bucket.
  rewrite (filter_ext_in (fun op => ID op ∉ R') (fun op => ID op ∉ R)); [done|].
  intros op Hop. apply (idx_elem _ _ _ Hi) in Hop as [Hop _]. rewrite HR. naive_solver.
Qed.

(** Filtering the touched buckets of an index filters all of them. *)
Lemma touched_kept {K} `{Countable K} (key : ShardReplicationOp -> K)
    (m : gmap K (list ShardReplicationOp)) s (R R' : gset Z) ops k :
  index_ok key (m !!.) (opsById s) ->
  (forall i, i ∈ R' <-> i ∈ R /\ is_Some (opsById s !! i)) ->
  (forall op, op ∈ ops <-> ID op ∈ R /\ opsById s !! ID op = Some op) ->
  filter_buckets R' (map key ops) m !! k = kept_bucket R (m !! k).
Proof.
  intros Hi HR Hops. rewrite lookup_filter_buckets by apply (idx_nonempty _ _ _ Hi).
  case_decide as Ek; [by eapply (kept_ext key (m !!.))|].
  symmetry. apply (kept_untouched key (m !!.) (opsById s)); [done|]. intros op Hop HR'. apply Ek.
  apply (idx_elem _ _ _ Hi) in Hop as [Hop <-]. change (map key ops) with (key <$> ops).
  apply list_elem_of_fmap_2. by apply Hops.
Qed.

Lemma lookup_filter_collections idSet ops (cs : list string) :
  forall (m : gmap string (gmap string (list ShardReplicationOp))) c,
  NoDup cs ->
  foldl (filter_collection idSet ops) m cs !! c
  = if decide (c ∈ cs) then
      byShard ← m !! c;
      let b := filter_buckets idSet (shardsByCollection ops c) byShard in
      if decide (b = ∅) then None else Some b
    else m !! c.
Proof.
  induction cs as [|c0 cs IH]; intros m c Hd; cbn [foldl].
  - by rewrite decide_False by set_solver.
  - inversion_clear Hd as [|? ? Hnot Hd']. rewrite IH by done.
    assert (Hne : forall c, c <> c0 -> filter_collection idSet ops m c0 !! c = m !! c).
    { intros c' Hc'. unfold filter_collection. destruct (m !! c0); [|done].
      case_decide; [by rewrite lookup_delete_ne|by rewrite lookup_insert_ne]. }
    destruct (decide (c = c0)) as [->|Hc].
    + rewrite decide_False, decide_True by set_solver. unfold filter_collection.
      destruct (m !! c0) as [b|] eqn:E; cbn; [|done].
      case_decide; [apply lookup_delete_eq|apply lookup_insert_eq].
    + rewrite (Hne c Hc). apply decide_ext. set_solver.
Qed.

(** The nested index after its touched collections were filtered. *)
Lemma touched_shards s (R R' : gset Z) ops c :
  fsm_wf s ->
  (forall i, i ∈ R' <-> i ∈ R /\ is_Some (opsById s !! i)) ->
  (forall op, op ∈ ops <-> ID op ∈ R /\ opsById s !! ID op = Some op) ->
  let m := foldl (filter_collection R' ops) (opsByCollectionAndShard s)
    (elements (list_to_set (map (fun op => CollectionId (SourceShard op)) ops) : gset string)) in
  m !! c <> Some ∅ /\ forall sh, m !! c ≫= (.!! sh) = kept_bucket R (shard_ops s c sh).
Proof.
  intros W HR Hops m. pose proof (wf_shards _ W) as Hi.
  assert (Hkept : forall sh, (forall op, op ∈ ops -> source_key op <> (c, sh)) ->
    kept_bucket R (shard_ops s c sh) = shard_ops s c sh).
  { intros sh Hno. apply (kept_untouched source_key (fun '(c, sh) => shard_ops s c sh) (opsById s) R (c, sh) Hi).
    intros op Hop HRo. apply (idx_elem _ _ _ Hi (c, sh)) in Hop as [Hop Hk].
    apply (Hno op); [|done]. by apply Hops. }
  subst m. rewrite lookup_filter_collections by apply NoDup_elements.
  case_decide as Ec.
  - unfold shard_ops in *. destruct (opsByCollectionAndShard s !! c) as [b|] eqn:Eb; cbn.
    2:{ split; [done|]. intros sh. done. }
    assert (Hz : forall k, b !! k <> Some []).
    { intros k Hk. apply (idx_nonempty _ _ _ Hi (c, k)). unfold shard_ops. by rewrite Eb. }
    assert (Hsh : forall sh, filter_buckets R' (shardsByCollection ops c) b !! sh = kept_bucket R (b !! sh)).
    { intros sh. rewrite lookup_filter_buckets by done. case_decide as Esh.
      - pose proof (kept_ext source_key (fun '(c, sh) => shard_ops s c sh) s R R' (c, sh) Hi HR) as E.
        unfold shard_ops in E. by rewrite Eb in E.
      - symmetry. apply (Hkept sh). intros op Hop [= Hc Hs]. apply Esh. unfold shardsByCollection.
        rewrite <- Hs. apply (list_elem_of_fmap_2 (fun op => ShardId (SourceShard op))).
        by apply list_elem_of_filter. }
    case_decide as Ee; cbn.
    + split; [done|]. intros sh. rewrite <- Hsh, Ee. done.
    + split; [congruence|]. intros sh. apply Hsh.
  - split; [apply (wf_shards_nonempty _ W)|]. intros sh. symmetry. apply (Hkept sh).
    intros op Hop [= Hc _]. apply Ec. apply elem_of_elements, elem_of_list_to_set.
    rewrite <- Hc. by apply (list_elem_of_fmap_2 (fun op => CollectionId (SourceShard op))).
Qed.

Lemma drop_gauge s op : gauge_ok s -> gauge_ok (drop_op s op).
Proof.
  intros Hg state. cbn. destruct (statusById s !! ID op) as [st|] eqn:E.
  - rewrite lookup_gauge_add, Hg, (count_delete _ _ _ _ E). lia.
  - by rewrite delete_id.
Qed.

(** The last loop: it forgets [ops] and leaves the indices alone. *)
Lemma drop_ops_spec ops : forall s,
  let s' := foldl drop_op s ops in
  (forall i, opsById s' !! i = if decide (i ∈ map ID ops) then None else opsById s !! i) /\
  (forall i, statusById s' !! i = if decide (i ∈ map ID ops) then None else statusById s !! i) /\
  (forall u, idsByUuid s' !! u = if decide (u ∈ map UUID ops) then None else idsByUuid s !! u) /\
  opsByTarget s' = opsByTarget s /\ opsBySource s' = opsBySource s /\
  opsByCollection s' = opsByCollection s /\
  opsByCollectionAndShard s' = opsByCollectionAndShard s /\
  opsByTargetFQDN s' = opsByTargetFQDN s /\ opsBySourceFQDN s' = opsBySourceFQDN s /\
  (gauge_ok s -> gauge_ok s').
Proof.
  assert (Hdec : forall {K V} `{Countable K} (m : gmap K V) (x : K) l i,
    (if decide (i ∈ l) then None else delete x m !! i)
    = (if decide (i ∈ x :: l) then None else m !! i)).
  { intros K V ? ? m x l i. destruct (decide (i ∈ l)); [by rewrite decide_True by set_solver|].
    destruct (decide (i = x)) as [->|]; [rewrite lookup_delete_eq, decide_True by set_solver; done|].
    by rewrite lookup_delete_ne, decide_False by set_solver. }
  induction ops as [|op ops IH]; intros s; cbn [foldl map].
  - split_and!; try done; intros; by rewrite decide_False by set_solver.
  - destruct (IH (drop_op s op)) as (H1 & H2 & H3 & H4 & H5 & H6 & H7 & H8 & H9 & H10).
    split_and!; try done; [| | |auto using drop_gauge].
    + intros i. rewrite H1. apply Hdec.
    + intros i. rewrite H2. apply Hdec.
    + intros i. rewrite H3. apply Hdec.
Qed.

Lemma lookup_dropped {A} (m m' : gmap Z A) (R : gset Z) (l : list Z) :
  (forall i, m' !! i = if decide (i ∈ l) then None else m !! i) ->
  (forall i, is_Some (m !! i) -> i ∈ l <-> i ∈ R) ->
  m' = filter (fun '(i, _) => i ∉ R) m.
Proof.
  intros Hm Hl. apply map_eq. intros i. rewrite Hm. apply option_eq. intros x.
  rewrite map_lookup_filter_Some. destruct (m !! i) as [y|] eqn:E; [|by case_decide; naive_solver].
  rewrite <- (Hl i) by eauto. case_decide; naive_solver.
Qed.

Lemma kept_bucket_none (R : gset Z) o :
  o <> Some [] -> (forall op, op ∈ default [] o -> ID op ∉ R) -> kept_bucket R o = o.
Proof.
  intros Hz Hno. unfold kept_bucket. rewrite filter_all by done. by destruct o as [[|? ?]|].
Qed.

(** Ids that are not there change nothing. *)
Lemma removed_none s R :
  fsm_wf s -> (forall op, opsById s !! ID op = Some op -> ID op ∉ R) -> removed R s s.
Proof.
  intros W Hno.
  assert (Hb : forall {K} (key : ShardReplicationOp -> K) look,
    index_ok key look (opsById s) -> forall k, look k = kept_bucket R (look k)).
  { intros K key look [He _ Hz] k. symmetry. apply kept_bucket_none; [done|].
    intros op Hop. apply He in Hop as [Hop _]. auto. }
  assert (Hin : forall i, is_Some (opsById s !! i) -> i ∉ R).
  { intros i [op Hop]. pose proof (wf_id _ W _ _ Hop) as <-. auto. }
  assert (Hst : forall i, is_Some (statusById s !! i) -> i ∉ R).
  { intros i Hi. apply Hin. by rewrite <- elem_of_dom, <- (wf_status _ W), elem_of_dom. }
  split.
  - symmetry. apply map_filter_id. intros i x Hx. apply Hin. eauto.
  - symmetry. apply map_filter_id. intros i x Hx. apply Hst. eauto.
  - intros u id. split; [|naive_solver]. intros Hu. split; [done|]. intros op Hop HR. by apply Hno in Hop.
  - apply (Hb _ _ _ (wf_target _ W)).
  - apply (Hb _ _ _ (wf_source _ W)).
  - apply (Hb _ _ _ (wf_coll _ W)).
  - intros c sh. apply (Hb _ _ _ (wf_shards _ W) (c, sh)).
  - apply (wf_shards_nonempty _ W).
  - apply (Hb _ _ _ (wf_tfqdn _ W)).
  - apply (Hb _ _ _ (wf_sfqdn _ W)).
  - apply (wf_gauge _ W).
Qed.

(** [removeReplicationOps] removes exactly the listed operations, everywhere. *)
Lemma removeReplicationOps_spec s ids :
  fsm_wf s -> removed (list_to_set ids) s (removeReplicationOps ids s).
Proof.
  intros W. unfold removeReplicationOps. pose proof (collect_ops_spec s ids W) as [HR Hops].
  destruct (collect_ops s ids) as [R' ops]. cbn [fst snd] in HR, Hops.
  set (R := list_to_set ids : gset Z).
  assert (HR' : forall i, i ∈ R' <-> i ∈ R /\ is_Some (opsById s !! i))
    by (intros i; subst R; by rewrite elem_of_list_to_set).
  assert (Hops' : forall op, op ∈ ops <-> ID op ∈ R /\ opsById s !! ID op = Some op)
    by (intros op; subst R; by rewrite elem_of_list_to_set).
  destruct ops as [|op0 ops0] eqn:Eo.
  { apply removed_none; [done|]. intros op Hop HRo. set_solver. }
  rewrite <- Eo in *. clear Eo op0 ops0. cbv zeta.
  match goal with |- removed _ _ (foldl drop_op ?x _) => set (s1 := x) end.
  destruct (drop_ops_spec ops s1) as (D1 & D2 & D3 & D4 & D5 & D6 & D7 & D8 & D9 & D10).
  assert (Hid : forall i, is_Some (opsById s !! i) -> i ∈ map ID ops <-> i ∈ R).
  { intros i [op Hop]. pose proof (wf_id _ W _ _ Hop) as <-.
    change (map ID ops) with (ID <$> ops). rewrite list_elem_of_fmap. split.
    - intros (o & -> & Ho). by apply Hops' in Ho as [? _].
    - intros HRo. exists op. split; [done|]. by apply Hops'. }
  split; rewrite ?D4, ?D5, ?D6, ?D8, ?D9; subst s1; cbn [opsById statusById idsByUuid opsByTarget
    opsBySource opsByCollection opsByCollectionAndShard opsByTargetFQDN opsBySourceFQDN] in *;
    try (intros k; eapply touched_kept; [apply W|exact HR'|exact Hops']).
  - by eapply lookup_dropped.
  - eapply lookup_dropped; [done|]. intros i Hi. apply Hid.
    by rewrite <- elem_of_dom, <- (wf_status _ W), elem_of_dom.
  - intros u id. rewrite D3. change (map UUID ops) with (UUID <$> ops).
    assert (E : u ∉ UUID <$> ops <->
      forall op, opsById s !! ID op = Some op -> ID op ∈ R -> UUID op <> u).
    { rewrite list_elem_of_fmap. split.
      - intros Hno op Hop HRo Hu. apply Hno. exists op. split; [done|]. by apply Hops'.
      - intros Hno (op & -> & Hop). apply Hops' in Hop as [? ?]. by apply (Hno op). }
    rewrite <- E. case_decide; naive_solver.
  - intros c sh. unfold shard_ops at 1. rewrite D7. by apply touched_shards.
  - intros c. rewrite D7. by eapply (touched_shards s R R' ops c).
  - apply D10. exact (wf_gauge _ W).
Qed.

(** ** What a command does

    Every command inserts one admitted operation, rewrites statuses in place,
    or removes operations. *)

(** The changes of the status of operation [id] by the command [c]. *)
Inductive status_step (c : rep_cmd) (id : Z) (st : ShardReplicationOpStatus)
  : ShardReplicationOpStatus -> Prop :=
| step_error e t st' : AddError st e t = Ok st' -> status_step c id st st'
| step_change now state :
    c = CmdUpdateOpState id state now -> GetCurrentState st <> CANCELLED ->
    status_step c id st (ChangeState now st state)
| step_reached node state :
    StateRank (default "" (PerNodeState st !! node)) < StateRank state ->
    status_step c id st (Status (SchemaVersion st) (<[node := state]> (PerNodeState st)) (Current st)
                           (ShouldCancel st) (ShouldDelete st) (UnCancellable st) (History st))
| step_version v :
    status_step c id st (Status v (PerNodeState st) (Current st) (ShouldCancel st) (ShouldDelete st)
                           (UnCancellable st) (History st))
| step_uncancellable :
    ShouldCancel st = false -> GetCurrentState st <> CANCELLED ->
    status_step c id st (Status (SchemaVersion st) (PerNodeState st) (Current st) (ShouldCancel st)
                           (ShouldDelete st) true (History st))
| step_cancel : UnCancellable st = false -> status_step c id st (TriggerCancellation st)
| step_delete : status_step c id st (TriggerDeletion st)
| step_complete now : status_step c id st (CompleteCancellation now st).

Definition status_only (c : rep_cmd) (s s' : ShardReplicationFSM) : Prop :=
  exists m g, s' = with_status s m g /\
    (forall id, option_Forall2 (rtc (status_step c id)) (statusById s !! id) (m !! id)) /\
    (gauge_ok s -> gauge_ok s').

Inductive cmd_effect (c : rep_cmd) (s : ShardReplicationFSM) : ShardReplicationFSM -> Prop :=
| eff_insert id now r :
    c = CmdReplicate id now r -> validateReplicationAdmission s (requested_op id now r) = None ->
    cmd_effect c s
      (insertOpIntoFSM s (requested_op id now r) (NewShardReplicationStatus REGISTERED))
| eff_status s' : status_only c s s' -> cmd_effect c s s'
| eff_remove R s' : removed R s s' -> cmd_effect c s s'.

Lemma option_rtc_refl {A} (R : relation A) (o : option A) : option_Forall2 (rtc R) o o.
Proof. destruct o; constructor. reflexivity. Qed.

Lemma option_rtc_trans {A} (R : relation A) (o1 o2 o3 : option A) :
  option_Forall2 (rtc R) o1 o2 -> option_Forall2 (rtc R) o2 o3 -> option_Forall2 (rtc R) o1 o3.
Proof. intros [x y Hxy|] H23; inversion H23; subst; constructor. by etrans. Qed.

Lemma with_status_same s : with_status s (statusById s) (opsByStateGauge s) = s.
Proof. by destruct s. Qed.

Lemma status_only_refl c s : status_only c s s.
Proof.
  exists (statusById s), (opsByStateGauge s). rewrite with_status_same.
  split; [done|]. split; [|done]. intros id. apply option_rtc_refl.
Qed.

Lemma status_only_trans c s1 s2 s3 : status_only c s1 s2 -> status_only c s2 s3 -> status_only c s1 s3.
Proof.
  intros (m & g & -> & Hm & Hg) (m' & g' & -> & Hm' & Hg'). exists m', g'.
  split; [done|]. split; [|by auto]. intros id. eapply option_rtc_trans; [apply Hm|apply (Hm' id)].
Qed.

Lemma insert_rel c (m : gmap Z ShardReplicationOpStatus) i old new :
  m !! i = Some old -> status_step c i old new ->
  forall id, option_Forall2 (rtc (status_step c id)) (m !! id) (<[i := new]> m !! id).
Proof.
  intros Ho Hst id. destruct (decide (i = id)) as [->|].
  - rewrite lookup_insert_eq, Ho. constructor. by apply rtc_once.
  - rewrite lookup_insert_ne by done. apply option_rtc_refl.
Qed.

Lemma set_status_only c s id old new :
  statusById s !! id = Some old -> status_step c id old new ->
  GetCurrentState new = GetCurrentState old -> status_only c s (set_status s id new).
Proof.
  intros Ho Hst Hc. eexists _, _. split; [reflexivity|]. split; [by eapply insert_rel|].
  intros Hg state. cbn. rewrite Hg, (count_update _ _ _ old), Hc by done. lia.
Qed.

Lemma move_status_only c s id old new :
  statusById s !! id = Some old -> status_step c id old new -> status_only c s (move_status s id old new).
Proof.
  intros Ho Hst. eexists _, _. split; [reflexivity|]. split; [by eapply insert_rel|].
  intros Hg state. cbn. rewrite !lookup_gauge_add, Hg, (count_update _ _ _ old) by done. lia.
Qed.

Lemma trigger_deletions_only c ops : forall s, status_only c s (trigger_deletions ops s).1.
Proof.
  induction ops as [|op ops IH]; intros s; cbn; [apply status_only_refl|].
  destruct (statusById s !! ID op) as [st|] eqn:E; [|apply status_only_refl].
  eapply status_only_trans; [|apply IH]. by eapply set_status_only; [|constructor|].
Qed.

Lemma count_fmap state (f : ShardReplicationOpStatus -> ShardReplicationOpStatus) m :
  (forall st, GetCurrentState (f st) = GetCurrentState st) ->
  count state (f <$> m) = count state m.
Proof.
  intros Hf. unfold count. rewrite map_filter_fmap, map_size_fmap. do 2 f_equal.
  apply map_filter_ext. intros i st _. cbn. by rewrite Hf.
Qed.

Lemma delete_all_only c s : status_only c s (DeleteAllReplications s).1.
Proof.
  eexists _, _. split; [reflexivity|]. split.
  - intros id. rewrite lookup_fmap. destruct (statusById s !! id) as [st|]; constructor.
    case_match; [reflexivity|]. apply rtc_once. constructor.
  - intros Hg state. cbn. rewrite count_fmap; [apply Hg|]. intros st. by case_match.
Qed.

Lemma find_op_Ok s id op st :
  find_op s id = Ok (op, st) -> opsById s !! id = Some op /\ statusById s !! ID op = Some st.
Proof. unfold find_op. repeat case_match; naive_solver. Qed.

Lemma find_by_uuid_Ok s u op st :
  find_by_uuid s u = Ok (op, st) -> statusById s !! ID op = Some st.
Proof. unfold find_by_uuid. case_match; [|done]. intros ?%find_op_Ok. naive_solver. Qed.

(** Case analysis on what a lookup found; the branch without one is no change. *)
Ltac found_cases :=
  lazymatch goal with
  | |- context [on_found _ ?o _] =>
      let E := fresh "E" in
      destruct o as [[? ?]| | |] eqn:E; cbn [on_found]; cbn; try apply status_only_refl;
      first [let E' := fresh "E" in apply find_op_Ok in E as [E' E]|apply find_by_uuid_Ok in E|idtac]
  end.

Lemma apply_effect c s : fsm_wf s -> cmd_effect c s (fsm_apply c s).1.
Proof.
  intros W. pose proof (removeReplicationOps_spec s) as Hrm.
  assert (Hone : forall id, cmd_effect c s (removeReplicationOp id s).1).
  { intros id. unfold removeReplicationOp. destruct (opsById s !! id); cbn;
      [eapply eff_remove; eauto|apply eff_status, status_only_refl]. }
  assert (Hbucket : forall o, cmd_effect c s (remove_bucket o s).1).
  { intros [ops|]; cbn; [eapply eff_remove; eauto|apply eff_status, status_only_refl]. }
  destruct c; cbn [fsm_apply]; try exact (eff_remove _ _ _ _ (Hrm _ W)); try apply Hbucket;
    try apply Hone;
    lazymatch goal with
    | |- cmd_effect _ _ (Replicate _ _ _ _).1 => idtac
    | |- cmd_effect _ _ (ForceDeleteByUuid _ _).1 => idtac
    | _ => apply eff_status
    end.
  - unfold Replicate. destruct (validateReplicationAdmission s _) eqn:E; cbn;
      [apply eff_status, status_only_refl|by eapply eff_insert].
  - unfold RegisterError. found_cases. destruct (AddError s1 error timeUnixMs) as [st'| | |] eqn:Ea;
      cbn; try apply status_only_refl.
    eapply set_status_only; [done|by eapply step_error|]. unfold AddError in Ea. by case_match; simplify_eq.
  - unfold UpdateReplicationOpStatus. found_cases. case_bool_decide; cbn; [apply status_only_refl|].
    eapply move_status_only; [done|].
    rewrite (wf_id _ W _ _ E0). by econstructor.
  - unfold NodeReachedState. destruct (statusById s !! id) eqn:E; [|apply status_only_refl].
    case_match eqn:El; [|apply status_only_refl]. apply Z.ltb_lt in El.
    by eapply set_status_only; [|constructor|].
  - unfold StoreSchemaVersion. destruct (statusById s !! id) eqn:E; [|apply status_only_refl].
    by eapply set_status_only; [|constructor|].
  - unfold SetUnCancellable. destruct (statusById s !! id) eqn:E; [|apply status_only_refl].
    case_match eqn:El; [apply status_only_refl|]. apply orb_false_iff in El as [? ?%bool_decide_eq_false].
    by eapply set_status_only; [|constructor|].
  - unfold CancelReplication. found_cases. case_match eqn:Eu; [apply status_only_refl|].
    by eapply set_status_only; [|constructor|].
  - unfold DeleteReplication. found_cases. case_match eqn:Eu; [apply status_only_refl|].
    by eapply set_status_only; [|constructor|].
  - apply delete_all_only.
  - unfold CancellationComplete. found_cases. eapply move_status_only; [done|constructor].
  - unfold DeleteReplicationsByCollection. case_match; [|apply status_only_refl].
    apply trigger_deletions_only.
  - apply trigger_deletions_only.
  - unfold ForceDeleteByUuid. case_match; [apply Hone|apply eff_status, status_only_refl].
Qed.

Lemma status_only_wf c s s' : fsm_wf s -> status_only c s s' -> fsm_wf s'.
Proof.
  intros W (m & g & -> & Hm & Hg). apply with_status_wf; [done| |apply Hg, W].
  apply set_eq. intros i. rewrite !elem_of_dom. specialize (Hm i). inversion Hm; by split; intros [].
Qed.

(** ** Reachable states *)

(** The FSMs some log leads to, every command of it satisfying [ok] in the state
    it is applied to. *)
Inductive reachable (ok : rep_cmd -> ShardReplicationFSM -> Prop) : ShardReplicationFSM -> Prop :=
| reach_new : reachable ok NewShardReplicationFSM
| reach_apply c s : reachable ok s -> ok c s -> reachable ok (fsm_apply c s).1.

(** The id of a new operation is the index of its log entry: no operation has it. *)
Definition fresh_id (c : rep_cmd) (s : ShardReplicationFSM) : Prop :=
  match c with CmdReplicate id _ _ => opsById s !! id = None | _ => True end.

Lemma effect_wf c s s' : fsm_wf s -> fresh_id c s -> cmd_effect c s s' -> fsm_wf s'.
Proof.
  intros W Hf [id now r -> _|? Hs|R ? Hr].
  - by apply insert_wf.
  - by eapply status_only_wf.
  - by eapply removed_wf.
Qed.

Lemma reachable_wf (ok : rep_cmd -> ShardReplicationFSM -> Prop) s :
  (forall c s, ok c s -> fresh_id c s) -> reachable ok s -> fsm_wf s.
Proof.
  intros Hok Hr. induction Hr as [|c s Hr IH Hc]; [apply wf_new|].
  eapply effect_wf; [done|by apply Hok|by apply apply_effect].
Qed.

(** The status of an operation after a command that did not create it. *)
Lemma effect_status c s s' id st' :
  fsm_wf s -> fresh_id c s -> cmd_effect c s s' -> statusById s' !! id = Some st' ->
  (exists st, statusById s !! id = Some st /\ rtc (status_step c id) st st') \/
  (opsById s !! id = None /\ exists now r, c = CmdReplicate id now r /\
     validateReplicationAdmission s (requested_op id now r) = None /\
     st' = NewShardReplicationStatus REGISTERED).
Proof.
  intros W Hf [id' now r -> Hv|? (m & g & -> & Hm & _)|R ? Hr] Hst'.
  - cbn in Hst', Hf. rewrite lookup_insert_Some in Hst'. destruct Hst' as [[<- <-]|[_ Hst']].
    + right. split; [done|]. exists now, r. done.
    + left. eauto using rtc_refl.
  - cbn in Hst'. left. specialize (Hm id). rewrite Hst' in Hm. inversion Hm as [st ? Hstep Heq|]. subst.
    eauto.
  - rewrite (rm_status _ _ _ Hr), map_lookup_filter_Some in Hst'. left. destruct Hst' as [? _].
    eauto using rtc_refl.
Qed.

Lemma step_cancelled c id st st' :
  status_step c id st st' -> GetCurrentState st = CANCELLED -> GetCurrentState st' = CANCELLED.
Proof.
  intros Hs Hc. destruct Hs; try done.
  unfold AddError in *. by case_match; simplify_eq.
Qed.

Lemma steps_cancelled c id st st' :
  rtc (status_step c id) st st' -> GetCurrentState st = CANCELLED -> GetCurrentState st' = CANCELLED.
Proof. induction 1; eauto using step_cancelled. Qed.

(** The states a peer has announced only grow. *)
Definition peers_grow (st st' : ShardReplicationOpStatus) : Prop :=
  forall peer state, PerNodeState st !! peer = Some state ->
    exists state', PerNodeState st' !! peer = Some state' /\ StateRank state <= StateRank state'.

Lemma steps_peers c id st st' : rtc (status_step c id) st st' -> peers_grow st st'.
Proof.
  induction 1 as [st|st st1 st2 Hs _ IH]; intros peer state Hp; [by exists state|].
  assert (Hone : exists state', PerNodeState st1 !! peer = Some state' /\
    StateRank state <= StateRank state').
  { destruct Hs; cbn; eauto using Z.le_refl.
    - unfold AddError in *. case_match; simplify_eq. cbn. eauto using Z.le_refl.
    - destruct (decide (node = peer)) as [->|].
      + rewrite lookup_insert_eq. rewrite Hp in *. cbn in *. eexists. split; [done|]. lia.
      + rewrite lookup_insert_ne by done. eauto using Z.le_refl. }
  destruct Hone as (state1 & H1 & Hr1). destruct (IH _ _ H1) as (state2 & H2 & Hr2).
  exists state2. split; [done|lia].
Qed.

Lemma peers_at_least_grow st st' target peers :
  peers_grow st st' ->
  forallb (fun peer => match PerNodeState st !! peer with
                       | None => false
                       | Some state => StateRank target <=? StateRank state
                       end) peers = true ->
  forallb (fun peer => match PerNodeState st' !! peer with
                       | None => false
                       | Some state => StateRank target <=? StateRank state
                       end) peers = true.
Proof.
  intros Hg. rewrite !forallb_forall. intros Hall peer Hp. specialize (Hall peer Hp). cbn in *.
  destruct (PerNodeState st !! peer) as [state|] eqn:E; [|done].
  destruct (Hg _ _ E) as (state' & -> & Hr). lia.
Qed.

(** ** Admission *)

(** Two operations may share a replica while the second is an unfinished MOVE
    only if the first is settled. *)
Definition settled (st : ShardReplicationOpStatus) (op : ShardReplicationOp) : Prop :=
  GetCurrentState st = CANCELLED \/ (GetCurrentState st = READY /\ TransferType op = COPY).

#[export] Instance settled_dec st op : Decision (settled st op).
Proof. unfold settled. apply _. Defined.

Definition same_source_or_target (a b : ShardReplicationOp) : Prop :=
  TargetShard a = TargetShard b \/ SourceShard a = SourceShard b.

Definition moves_exclusive (s : ShardReplicationFSM) : Prop :=
  forall ida idb a b sta stb,
    opsById s !! ida = Some a -> opsById s !! idb = Some b -> ida <> idb ->
    statusById s !! ida = Some sta -> statusById s !! idb = Some stb ->
    same_source_or_target a b -> TransferType a = MOVE -> GetCurrentState sta <> CANCELLED -> settled stb b.

Lemma check_conflict_None s op ops :
  checkNoConflictingOp s op ops = None ->
  forall o, o ∈ ops -> exists st, statusById s !! ID o = Some st /\
    (settled st o \/ (TransferType o <> MOVE /\ TransferType op <> MOVE)).
Proof.
  induction ops as [|o ops IH]; intros Hc o' Ho'; [set_solver|]. cbn in Hc.
  destruct (statusById s !! ID o) as [st|] eqn:E; [|done].
  apply elem_of_cons in Ho' as [->|Ho'].
  - exists st. split; [done|]. unfold settled.
    repeat case_bool_decide; cbn in Hc; simplify_eq; auto.
  - apply IH; [|done]. repeat case_bool_decide; cbn in Hc; simplify_eq; auto.
Qed.

Lemma admitted_settled s op o st :
  fsm_wf s -> validateReplicationAdmission s op = None ->
  opsById s !! ID o = Some o -> statusById s !! ID o = Some st -> same_source_or_target o op ->
  settled st o \/ (TransferType o <> MOVE /\ TransferType op <> MOVE).
Proof.
  intros W Hv Ho Hst Hsh. unfold validateReplicationAdmission in Hv.
  destruct (checkNoConflictingOp s op (default [] (opsByTargetFQDN s !! _))) eqn:Et; [done|].
  destruct (checkNoConflictingOp s op (default [] (opsBySourceFQDN s !! _))) eqn:Es; [done|].
  destruct Hsh as [Hsh|Hsh].
  - destruct (check_conflict_None _ _ _ Et o) as (st' & Hst' & ?); [|by simplify_eq].
    by apply (idx_elem _ _ _ (wf_tfqdn _ W)).
  - destruct (check_conflict_None _ _ _ Es o) as (st' & Hst' & ?); [|by simplify_eq].
    by apply (idx_elem _ _ _ (wf_sfqdn _ W)).
Qed.

(** Commands a consumer issues never take an operation out of READY other than
    by cancelling it. *)
Definition keeps_ready (c : rep_cmd) (s : ShardReplicationFSM) : Prop :=
  match c with
  | CmdUpdateOpState id _ _ =>
      forall st, statusById s !! id = Some st -> GetCurrentState st <> READY
  | _ => True
  end.

Lemma step_no_update c id st st' :
  (forall state now, c <> CmdUpdateOpState id state now) -> status_step c id st st' ->
  GetCurrentState st' = GetCurrentState st \/ GetCurrentState st' = CANCELLED.
Proof.
  intros Hc Hs. destruct Hs; auto.
  - unfold AddError in *. case_match; simplify_eq. auto.
  - by eapply Hc in H.
Qed.

Lemma steps_settled c s id op st st' :
  keeps_ready c s -> statusById s !! id = Some st -> rtc (status_step c id) st st' ->
  settled st op -> settled st' op.
Proof.
  intros Hk Hst Hs [Hc|[Hr Ht]]; [left; by eapply steps_cancelled|].
  assert (Hno : forall state now, c <> CmdUpdateOpState id state now).
  { intros state now ->. by apply (Hk st). }
  clear Hst. induction Hs as [st|st st1 st2 Hs Hss IH]; [by right|].
  destruct (step_no_update _ _ _ _ Hno Hs) as [E|E].
  - apply IH. by rewrite E.
  - left. by eapply steps_cancelled.
Qed.

Lemma effect_ops c s s' id op :
  cmd_effect c s s' -> opsById s' !! id = Some op ->
  opsById s !! id = Some op \/
  exists now r, c = CmdReplicate id now r /\ op = requested_op id now r /\
    validateReplicationAdmission s op = None.
Proof.
  intros [id' now r -> Hv|? (m & g & -> & _)|R ? Hr] Ho; [|by left|].
  - cbn in Ho. rewrite lookup_insert_Some in Ho. destruct Ho as [[<- <-]|[_ ?]]; [|by left].
    right. exists now, r. done.
  - left. rewrite (rm_ops _ _ _ Hr), map_lookup_filter_Some in Ho. tauto.
Qed.

(** The status an old operation had before the command. *)
Lemma effect_old_status c s s' id op st' :
  fsm_wf s -> fresh_id c s -> cmd_effect c s s' -> opsById s !! id = Some op ->
  statusById s' !! id = Some st' ->
  exists st, statusById s !! id = Some st /\ rtc (status_step c id) st st'.
Proof.
  intros W Hf He Ho Hst'.
  destruct (effect_status c s s' id st' W Hf He Hst') as [?|[? _]]; [done|congruence].
Qed.

Lemma exclusive_step c s s' :
  fsm_wf s -> fresh_id c s -> keeps_ready c s -> cmd_effect c s s' ->
  moves_exclusive s -> moves_exclusive s'.
Proof.
  intros W Hf Hk He Hx ida idb a b sta' stb' Ha Hb Hne Hsa Hsb Hsh Hmove Hlive.
  destruct (effect_ops _ _ _ _ _ He Ha) as [Ha0|(na & ra & Ec & -> & Hva)];
    destruct (effect_ops _ _ _ _ _ He Hb) as [Hb0|(nb & rb & Ec' & -> & Hvb)].
  - destruct (effect_old_status _ _ _ _ _ _ W Hf He Ha0 Hsa) as (sta & Hsa0 & Hstep_a).
    destruct (effect_old_status _ _ _ _ _ _ W Hf He Hb0 Hsb) as (stb & Hsb0 & Hstep_b).
    eapply steps_settled; [done|done|done|]. eapply (Hx ida idb); try done.
    intros Hc. apply Hlive. by eapply steps_cancelled.
  - destruct (effect_old_status _ _ _ _ _ _ W Hf He Ha0 Hsa) as (sta & Hsa0 & Hstep_a).
    pose proof (wf_id _ W _ _ Ha0) as <-.
    destruct (admitted_settled s _ a sta W Hvb Ha0 Hsa0 Hsh) as [[Hc|[_ Ht]]|[Ht _]]; try congruence.
    + destruct Hlive. by eapply steps_cancelled.
    + rewrite Hmove in Ht. discriminate.
  - destruct (effect_old_status _ _ _ _ _ _ W Hf He Hb0 Hsb) as (stb & Hsb0 & Hstep_b).
    pose proof (wf_id _ W _ _ Hb0) as <-.
    assert (Hsh' : same_source_or_target b (requested_op ida na ra)) by (destruct Hsh; [left|right]; done).
    destruct (admitted_settled s _ b stb W Hva Hb0 Hsb0 Hsh') as [Hset|[_ Ht]]; [|congruence].
    by eapply steps_settled.
  - congruence.
Qed.

Lemma bucket_present {K} (key : ShardReplicationOp -> K) look s id op :
  index_ok key look (opsById s) -> fsm_wf s -> opsById s !! id = Some op ->
  exists l, look (key op) = Some l.
Proof.
  intros [He _ _] W Ho. pose proof (wf_id _ W _ _ Ho) as <-.
  assert (Hin : op ∈ default [] (look (key op))) by (by apply He).
  destruct (look (key op)); [eauto|set_solver].
Qed.

Lemma not_torn s id op : fsm_wf s -> opsById s !! id = Some op -> torn_indices s op = [].
Proof.
  intros W Ho. unfold torn_indices.
  destruct (bucket_present _ _ _ _ _ (wf_target _ W) W Ho) as [? ->].
  destruct (bucket_present _ _ _ _ _ (wf_source _ W) W Ho) as [? ->].
  destruct (bucket_present _ _ _ _ _ (wf_coll _ W) W Ho) as [? ->].
  destruct (bucket_present _ _ _ _ _ (wf_sfqdn _ W) W Ho) as [? ->].
  destruct (bucket_present _ _ _ _ _ (wf_tfqdn _ W) W Ho) as [? ->].
  destruct (bucket_present _ _ _ _ _ (wf_shards _ W) W Ho) as [? Hs]. cbn in Hs. unfold shard_ops in Hs.
  destruct (opsByCollectionAndShard s !! _); [|done]. cbn in Hs. rewrite Hs.
  assert (Hst : is_Some (statusById s !! ID op)).
  { rewrite <- elem_of_dom, (wf_status _ W), elem_of_dom, (wf_id _ W _ _ Ho). eauto. }
  by destruct Hst as [? ->].
Qed.

(** * Properties *)

(** C31: after any log of commands the FSM is consistent: each of its six
    operation indices holds exactly the operations of [opsById], each once and
    under its own key, with no empty bucket left behind; every operation has a
    status and every indexed UUID leads to its operation; and the gauge shows
    for each state the number of operations in it.  The only assumption is that
    a new operation's id is not in use. *)
Theorem fsm_invariant (s : ShardReplicationFSM) : reachable fresh_id s -> fsm_wf s.
Proof. apply reachable_wf. auto. Qed.

(** Removing an operation removes it and nothing else from every index, and
    the "this should not happen" errors of the removal cannot happen: the
    command fails only for an unknown id, and then changes nothing. *)
Lemma remove_op_exact (s : ShardReplicationFSM) (id : Z) :
  reachable fresh_id s ->
  match opsById s !! id with
  | None => RemoveReplicationOp id s = (s, Some ErrReplicationOperationNotFound)
  | Some op => exists s', RemoveReplicationOp id s = (s', None) /\ removed {[id]} s s'
  end.
Proof.
  intros Hr. assert (W : fsm_wf s) by (eapply reachable_wf; [|done]; auto).
  unfold RemoveReplicationOp, removeReplicationOp. destruct (opsById s !! id) as [op|] eqn:E; [|done].
  rewrite (not_torn _ _ _ W E). eexists. split; [reflexivity|].
  pose proof (removeReplicationOps_spec s [id] W) as Hrm. cbn in Hrm. by rewrite union_empty_r_L in Hrm.
Qed.

(** CANCELLED is final: no command gives a cancelled operation another
    state; it can only be removed. *)
Lemma cancelled_final (s : ShardReplicationFSM) (c : rep_cmd) (id : Z)
    (st st' : ShardReplicationOpStatus) :
  reachable fresh_id s -> fresh_id c s ->
  statusById s !! id = Some st -> GetCurrentState st = CANCELLED ->
  statusById (fsm_apply c s).1 !! id = Some st' -> GetCurrentState st' = CANCELLED.
Proof.
  intros Hr Hf Hst Hc Hst'. assert (W : fsm_wf s) by (eapply reachable_wf; [|done]; auto).
  destruct (effect_status _ _ _ _ _ W Hf (apply_effect c s W) Hst') as [(st0 & H0 & Hs)|[Hn _]].
  - simplify_eq. by eapply steps_cancelled.
  - apply not_elem_of_dom in Hn. rewrite <- (wf_status _ W) in Hn. by apply elem_of_dom_2 in Hst.
Qed.

(** Convergence is stable: once all peers have announced at least the state
    [target] for an operation, this stays so under every command that does not
    remove the operation, whatever is announced again or late. *)
Lemma converged_stable (s : ShardReplicationFSM) (c : rep_cmd) (id : Z) (target : string)
    (peers : list string) :
  reachable fresh_id s -> fresh_id c s ->
  AllPeersAtLeast s id target peers = true ->
  is_Some (statusById (fsm_apply c s).1 !! id) ->
  AllPeersAtLeast (fsm_apply c s).1 id target peers = true.
Proof.
  intros Hr Hf Hall [st' Hst']. assert (W : fsm_wf s) by (eapply reachable_wf; [|done]; auto).
  unfold AllPeersAtLeast in *. rewrite Hst'. destruct (statusById s !! id) as [st|] eqn:E; [|done].
  destruct (effect_status _ _ _ _ _ W Hf (apply_effect c s W) Hst') as [(st0 & H0 & Hs)|[Hn _]].
  - simplify_eq. eapply peers_at_least_grow; [by eapply steps_peers|done].
  - apply not_elem_of_dom in Hn. rewrite <- (wf_status _ W) in Hn. by apply elem_of_dom_2 in E.
Qed.

(** What an operation in the FSM has to be for a new one to be admitted: with the same source or target it is settled, or both are COPYs;
    and if the new one reads from its target, it is READY or cancelled *)
Definition compatible (op o : ShardReplicationOp) (st : ShardReplicationOpStatus) : Prop :=
  (same_source_or_target o op -> settled st o \/ (TransferType o <> MOVE /\ TransferType op <> MOVE)) /\
  (TargetShard o = SourceShard op -> GetCurrentState st = READY \/ GetCurrentState st = CANCELLED).

Lemma check_conflict_spec s op ops : (forall o, o ∈ ops -> is_Some (statusById s !! ID o)) ->
  let fine o := forall st, statusById s !! ID o = Some st -> settled st o \/ (TransferType o <> MOVE /\ TransferType op <> MOVE) in
  (checkNoConflictingOp s op ops = None /\ forall o, o ∈ ops -> fine o) \/
  (checkNoConflictingOp s op ops = Some ErrShardAlreadyReplicating /\ exists o, o ∈ ops /\ ~ fine o).
Proof.
  intros Hst fine. induction ops as [|o ops IH]; [left; split; [done|set_solver]|]. destruct (Hst o ltac:(set_solver)) as [st E].
  assert (Hgo : fine o -> checkNoConflictingOp s op (o :: ops) = checkNoConflictingOp s op ops).
  { intros Hf. specialize (Hf st E). cbn. rewrite E. unfold settled in Hf. repeat case_bool_decide; cbn; naive_solver. }
  assert (Hstop : checkNoConflictingOp s op (o :: ops) = checkNoConflictingOp s op ops /\ fine o \/ checkNoConflictingOp s op (o :: ops) = Some ErrShardAlreadyReplicating /\ ~ fine o).
  { destruct (decide (settled st o \/ (TransferType o <> MOVE /\ TransferType op <> MOVE))) as [Hf|Hf].
    - assert (fine o) by (intros st' E'; rewrite E in E'; by injection E' as <-). left. split; [by apply Hgo|done].
    - right. split; [|intros H; by apply Hf, H]. cbn. rewrite E. unfold settled in Hf. repeat case_bool_decide; cbn; naive_solver. }
  destruct Hstop as [[-> Ho]|[-> Ho]]; [|right; split; [done|]; exists o; split; [set_solver|done]].
  destruct IH as [[-> Hall]|[-> (o' & Ho' & Hn)]]; [intros; apply Hst; set_solver| |].
  - left. split; [done|]. intros o' [->|?]%elem_of_cons; [done|by apply Hall].
  - right. split; [done|]. exists o'. split; [set_solver|done].
Qed.

Lemma check_source_spec s ops : (forall o, o ∈ ops -> is_Some (statusById s !! ID o)) ->
  let fine o := forall st, statusById s !! ID o = Some st -> GetCurrentState st = READY \/ GetCurrentState st = CANCELLED in
  (checkSourceNotInFlightAsTarget s ops = None /\ forall o, o ∈ ops -> fine o) \/
  (checkSourceNotInFlightAsTarget s ops = Some ErrShardAlreadyReplicating /\ exists o, o ∈ ops /\ ~ fine o).
Proof.
  intros Hst fine. induction ops as [|o ops IH]; [left; split; [done|set_solver]|]. destruct (Hst o ltac:(set_solver)) as [st E]. cbn. rewrite E.
  destruct (decide (GetCurrentState st = READY \/ GetCurrentState st = CANCELLED)) as [Hf|Hf].
  - assert (bool_decide (GetCurrentState st = READY) || bool_decide (GetCurrentState st = CANCELLED) = true) as -> by (repeat case_bool_decide; naive_solver).
    destruct IH as [[-> Hall]|[-> (o' & Ho' & Hn)]]; [intros; apply Hst; set_solver| |].
    + left. split; [done|]. intros o' [->|?]%elem_of_cons; [intros st' E'; rewrite E in E'; by injection E' as <-|by apply Hall].
    + right. split; [done|]. exists o'. split; [set_solver|done].
  - assert (bool_decide (GetCurrentState st = READY) || bool_decide (GetCurrentState st = CANCELLED) = false) as -> by (repeat case_bool_decide; naive_solver).
    right. split; [done|]. exists o. split; [set_solver|]. intros H. by apply Hf, H.
Qed.

(** C38: admission of replications is exact.  In every state that any log of commands reaches, a new operation is registered if and only if
    each operation of the FSM with the same source replica or the same target replica is cancelled, or a COPY that is READY, or both operations are COPYs,
    and each operation whose target is the new source is READY or cancelled; otherwise the command fails with
    [ErrShardAlreadyReplicating] and changes nothing.  So no MOVE is admitted beside an unsettled operation of the same source or target, and none
    beside an uncancelled MOVE. *)
Theorem move_admission (s : ShardReplicationFSM) (id now : Z) (c : ReplicationReplicateShardRequest) (op := requested_op id now c) : reachable fresh_id s ->
  let admitted := forall ido o st, opsById s !! ido = Some o -> statusById s !! ido = Some st -> compatible op o st in
  (admitted /\ Replicate id now c s = (insertOpIntoFSM s op (NewShardReplicationStatus REGISTERED), None)) \/
  (~ admitted /\ Replicate id now c s = (s, Some ErrShardAlreadyReplicating)).
Proof.
  intros Hr admitted. assert (W : fsm_wf s) by (eapply reachable_wf; [|done]; auto).
  assert (Hst : forall o, opsById s !! ID o = Some o -> is_Some (statusById s !! ID o)) by (intros o Ho; rewrite <- elem_of_dom, (wf_status _ W); by apply elem_of_dom_2 in Ho).
  assert (Ht : forall k o, o ∈ default [] (opsByTargetFQDN s !! k) <-> opsById s !! ID o = Some o /\ TargetShard o = k) by (intros k o; apply (idx_elem _ _ _ (wf_tfqdn _ W))).
  assert (Hs : forall k o, o ∈ default [] (opsBySourceFQDN s !! k) <-> opsById s !! ID o = Some o /\ SourceShard o = k) by (intros k o; apply (idx_elem _ _ _ (wf_sfqdn _ W))).
  assert (Hno : forall o, opsById s !! ID o = Some o -> (exists st, statusById s !! ID o = Some st /\ ~ compatible op o st) -> ~ admitted) by (intros o Ho (st & Est & Hn) Ha; by apply Hn, (Ha (ID o))).
  unfold Replicate, validateReplicationAdmission. fold op.
  destruct (check_conflict_spec s op (default [] (opsByTargetFQDN s !! TargetShard op))) as [[-> H1]|[-> (o & Ho & Hn)]]; [intros o [Ho _]%Ht; by apply Hst| |].
  2:{ right. split; [|done]. apply Ht in Ho as [Ho Hk]. apply (Hno o Ho). destruct (Hst o Ho) as [st Est]. exists st. split; [done|]. intros [Hc _]. apply Hn. intros st' E'. rewrite Est in E'. injection E' as <-. apply Hc. by left. }
  destruct (check_conflict_spec s op (default [] (opsBySourceFQDN s !! SourceShard op))) as [[-> H2]|[-> (o & Ho & Hn)]]; [intros o [Ho _]%Hs; by apply Hst| |].
  2:{ right. split; [|done]. apply Hs in Ho as [Ho Hk]. apply (Hno o Ho). destruct (Hst o Ho) as [st Est]. exists st. split; [done|]. intros [Hc _]. apply Hn. intros st' E'. rewrite Est in E'. injection E' as <-. apply Hc. by right. }
  destruct (check_source_spec s (default [] (opsByTargetFQDN s !! SourceShard op))) as [[-> H3]|[-> (o & Ho & Hn)]]; [intros o [Ho _]%Ht; by apply Hst| |].
  2:{ right. split; [|done]. apply Ht in Ho as [Ho Hk]. apply (Hno o Ho). destruct (Hst o Ho) as [st Est]. exists st. split; [done|]. intros [_ Hc]. apply Hn. intros st' E'. rewrite Est in E'. injection E' as <-. by apply Hc. }
  left. split; [|done]. intros ido o st Ho Est. pose proof (wf_id _ W _ _ Ho) as <-. split.
  - intros [Hk|Hk]; [apply (H1 o); [by apply Ht|done]|apply (H2 o); [by apply Hs|done]].
  - intros Hk. apply (H3 o); [by apply Ht|done].
Qed.

(** MOVEs stay exclusive as long as commands do not take an operation out of READY again: in every state that such commands reach, an operation
    with the source or the target of a MOVE that is not cancelled is itself cancelled, or a COPY that is READY. *)
Lemma move_exclusive (s : ShardReplicationFSM) :
  reachable (fun c s => fresh_id c s /\ keeps_ready c s) s -> moves_exclusive s.
Proof.
  intros Hr. induction Hr as [|c s Hr IH [Hf Hk]]; [by intros ? ? ? ? ? ? Ha|].
  assert (W : fsm_wf s) by (eapply reachable_wf; [|done]; naive_solver).
  eapply exclusive_step; eauto using apply_effect.
Qed.

(** * Witnesses *)

Fixpoint run_ok (ok : rep_cmd -> ShardReplicationFSM -> Prop) (cs : list rep_cmd)
    (s : ShardReplicationFSM) : Prop :=
  match cs with
  | [] => True
  | c :: cs => ok c s /\ run_ok ok cs (fsm_apply c s).1
  end.

Lemma reach_run ok cs : forall s, reachable ok s -> run_ok ok cs s -> reachable ok (run cs s).
Proof. induction cs as [|c cs IH]; intros s Hr Hok; [done|]. destruct Hok. apply IH; [by constructor|done]. Qed.

(** A COPY of shard S from A to B, which finishes, then a MOVE from A to C that
    is cancelled, with announcements of peers on the way. *)
Definition wit_copy : ReplicationReplicateShardRequest := ReplicateRequest "u1" "A" "K" "S" "B" COPY.
Definition wit_move : ReplicationReplicateShardRequest := ReplicateRequest "u2" "A" "K" "S" "C" MOVE.
Definition wit_log : list rep_cmd :=
  [CmdReplicate 1 100 wit_copy; CmdUpdateOpState 1 HYDRATING 101; CmdNodeReachedState 1 "A" HYDRATING;
   CmdUpdateOpState 1 READY 102; CmdReplicate 2 103 wit_move; CmdCancel "u2";
   CmdCancellationComplete 2 104].
Definition wit_fsm : ShardReplicationFSM := run wit_log NewShardReplicationFSM.

Lemma wit_reachable : reachable fresh_id wit_fsm.
Proof. apply reach_run; [constructor|]. vm_compute. tauto. Qed.

Lemma fsm_invariant_witness : fsm_wf wit_fsm.
Proof. apply (fsm_invariant wit_fsm), wit_reachable. Defined.

Lemma remove_op_exact_witness :
  exists s', RemoveReplicationOp 1 wit_fsm = (s', None) /\ removed {[1]} wit_fsm s'.
Proof. exact (remove_op_exact wit_fsm 1 wit_reachable). Defined.

Lemma cancelled_final_witness :
  exists st', statusById (fsm_apply CmdDeleteAll wit_fsm).1 !! 2 = Some st' /\
    GetCurrentState st' = CANCELLED.
Proof.
  eexists. split; [vm_compute; reflexivity|].
  apply (cancelled_final wit_fsm CmdDeleteAll 2
    (default (NewShardReplicationStatus "") (statusById wit_fsm !! 2))); [apply wit_reachable|exact I|..];
    vm_compute; reflexivity.
Defined.

Lemma converged_stable_witness :
  AllPeersAtLeast (fsm_apply (CmdNodeReachedState 1 "A" REGISTERED) wit_fsm).1 1 HYDRATING ["A"] = true.
Proof.
  apply (converged_stable wit_fsm (CmdNodeReachedState 1 "A" REGISTERED)); [apply wit_reachable|exact I|..].
  - vm_compute. reflexivity.
  - vm_compute. eauto.
Defined.

(** The COPY from A to B is READY and the MOVE cancelled: a COPY from B to C is admitted. *)
Lemma move_admission_witness : let c := ReplicateRequest "u3" "B" "K" "S" "C" COPY in
  (forall ido o st, opsById wit_fsm !! ido = Some o -> statusById wit_fsm !! ido = Some st -> compatible (requested_op 3 105 c) o st) /\
    Replicate 3 105 c wit_fsm = (insertOpIntoFSM wit_fsm (requested_op 3 105 c) (NewShardReplicationStatus REGISTERED), None).
Proof.
  intros c. destruct (move_admission wit_fsm 3 105 c wit_reachable) as [Ha|[_ E]]; [exact Ha|]. exfalso. vm_compute in E. discriminate.
Defined.

Lemma move_exclusive_witness : moves_exclusive wit_fsm.
Proof.
  apply (move_exclusive wit_fsm). apply reach_run; [constructor|].
  repeat (split; [split; [vm_compute; tauto|]|]); try exact I;
    intros st Hst; vm_compute in Hst; simplify_eq; discriminate.
Defined.
