(* ===== verification/ReplicationRouting.v ===== *)
(** * Routing, snapshots and sweeps of the replication state machine

    What the read side of [shard_replication_fsm.go] promises in every state
    the log can lead to: which replicas may serve reads and writes, what a
    restored snapshot preserves, and what the sweep of finished operations
    leaves unchanged. *)

From stdpp Require Import strings sorting.
From S2P Require Import Prelude ReplicationFSM ReplicationInvariant.

(** ** Operations of a bucket, by their defining property *)

Lemma elem_bucket {K} (key : ShardReplicationOp -> K) look s k op :
  index_ok key look (opsById s) ->
  op ∈ default [] (look k) <-> opsById s !! ID op = Some op /\ key op = k.
Proof. intros Hi. apply (idx_elem _ _ _ Hi). Qed.

(** [op] is an operation of the FSM in state [state]. *)
Definition op_in_state (s : ShardReplicationFSM) (op : ShardReplicationOp) (state : string) : Prop :=
  opsById s !! ID op = Some op /\
  exists st, statusById s !! ID op = Some st /\ GetCurrentState st = state.

Lemma op_has_state s op :
  fsm_wf s -> opsById s !! ID op = Some op -> exists state, op_in_state s op state.
Proof.
  intros W Ho. assert (Hst : is_Some (statusById s !! ID op)).
  { rewrite <- elem_of_dom, (wf_status _ W). by apply elem_of_dom_2 in Ho. }
  destruct Hst as [st Hst]. exists (GetCurrentState st). split; [done|]. eauto.
Qed.

(** ** Routing *)

(** A target is a counted replica from INTEGRATING on. *)
Definition counted (state : string) : Prop :=
  state = READY \/ state = DEHYDRATING \/ state = INTEGRATING.

(** Whether a replica may be read and written: it is not being drained as the
    source of a MOVE, and if operations target it, then one of them has made it
    a counted replica or all of them are cancelled. *)
Definition routable (s : ShardReplicationFSM) (replica : shardFQDN) : Prop :=
  (forall op, SourceShard op = replica -> ~ op_in_state s op DEHYDRATING) /\
  ((exists op state, TargetShard op = replica /\ op_in_state s op state /\ counted state) \/
   (forall op state, TargetShard op = replica -> op_in_state s op state -> state = CANCELLED)).

Definition draining (s : ShardReplicationFSM) (op : ShardReplicationOp) : bool :=
  match statusById s !! ID op with
  | None => false
  | Some st => bool_decide (GetCurrentState st = DEHYDRATING)
  end.

Lemma source_fold s ops : forall acc,
  foldl (fun acc op =>
    match statusById s !! ID op with
    | None => acc
    | Some st => if bool_decide (GetCurrentState st = DEHYDRATING) then (false, false) else acc
    end) acc ops
  = if existsb (draining s) ops then (false, false) else acc.
Proof.
  induction ops as [|op ops IH]; intros acc; cbn [foldl existsb]; [done|].
  rewrite IH. unfold draining at 2. destruct (statusById s !! ID op); [|done].
  by case_bool_decide; destruct (existsb _ _).
Qed.

Lemma draining_spec s op :
  opsById s !! ID op = Some op -> draining s op = true <-> op_in_state s op DEHYDRATING.
Proof.
  intros Ho. unfold draining, op_in_state. destruct (statusById s !! ID op) as [st|];
    [rewrite bool_decide_eq_true|]; naive_solver.
Qed.

Lemma source_filter_spec s node coll shard :
  fsm_wf s ->
  exists ok, filterOneReplicaAsSourceReadWrite s node coll shard = (ok, ok) /\
    (ok = true <-> forall op, SourceShard op = newShardFQDN node coll shard ->
                     ~ op_in_state s op DEHYDRATING).
Proof.
  intros W. unfold filterOneReplicaAsSourceReadWrite.
  pose proof (fun op => elem_bucket _ _ s (newShardFQDN node coll shard) op (wf_sfqdn _ W)) as Hb.
  cbn in Hb. destruct (opsBySourceFQDN s !! _) as [ops|]; cbn in Hb.
  - rewrite source_fold. destruct (existsb (draining s) ops) eqn:E; eexists; (split; [reflexivity|]).
    + split; [done|]. intros Hno. apply existsb_exists in E as (op & Hop%list_elem_of_In & Hd).
      apply Hb in Hop as [Hop Hsrc]. destruct (Hno op Hsrc). by apply draining_spec.
    + split; [|done]. intros _ op Hsrc Hd. pose proof Hd as [Hop _].
      apply (draining_spec _ _ Hop) in Hd. assert (existsb (draining s) ops = true); [|congruence].
      apply existsb_exists. exists op. split; [|done]. by apply list_elem_of_In, Hb.
  - exists true. split; [done|]. split; [|done]. intros _ op Hsrc [Hop _].
    assert (op ∈ []) by (by apply Hb). set_solver.
Qed.

Definition counted_b (state : string) : bool :=
  bool_decide (state = READY) || bool_decide (state = DEHYDRATING) || bool_decide (state = INTEGRATING).

(** The states that block routing: neither counted nor cancelled. *)
Definition pending_b (state : string) : bool :=
  negb (counted_b state) && negb (bool_decide (state = CANCELLED)).

Definition in_state_b (f : string -> bool) (s : ShardReplicationFSM) (op : ShardReplicationOp) : bool :=
  match statusById s !! ID op with
  | None => false
  | Some st => f (GetCurrentState st)
  end.

Lemma in_state_b_spec f s op :
  opsById s !! ID op = Some op ->
  in_state_b f s op = true <-> exists state, op_in_state s op state /\ f state = true.
Proof.
  intros Ho. unfold in_state_b, op_in_state.
  destruct (statusById s !! ID op) as [st|]; naive_solver.
Qed.

Lemma counted_b_spec state : counted_b state = true <-> counted state.
Proof. unfold counted_b, counted. rewrite !orb_true_iff, !bool_decide_eq_true. tauto. Qed.

Lemma target_scan_spec s ops : forall targetOk sawLive,
  (forall op, op ∈ ops -> is_Some (statusById s !! ID op)) ->
  target_scan s ops targetOk sawLive
  = Some (targetOk || existsb (in_state_b counted_b s) ops,
          sawLive || existsb (in_state_b pending_b s) ops).
Proof.
  induction ops as [|op ops IH]; intros tok live Hall; cbn [target_scan existsb].
  - by rewrite !orb_false_r.
  - destruct (Hall op) as [st Hst]; [left|]. unfold in_state_b at 1 3. rewrite Hst.
    unfold pending_b at 1. fold (counted_b (GetCurrentState st)).
    assert (Hrest : forall op, op ∈ ops -> is_Some (statusById s !! ID op)) by set_solver.
    destruct (counted_b (GetCurrentState st)) eqn:Ec; cbn [negb andb orb].
    + rewrite IH by done. by rewrite orb_true_r.
    + case_bool_decide; rewrite IH by done; cbn [negb orb]; [done|]. by rewrite orb_true_r.
Qed.

(** One bucket, asked for a state. *)
Lemma existsb_bucket {K} (key : ShardReplicationOp -> K) look s f k :
  fsm_wf s -> index_ok key look (opsById s) ->
  existsb (in_state_b f s) (default [] (look k)) = true <->
  exists op state, key op = k /\ op_in_state s op state /\ f state = true.
Proof.
  intros W Hi. rewrite existsb_exists. split.
  - intros (op & Hop%list_elem_of_In & Hf). apply (elem_bucket _ _ s k op Hi) in Hop as [Hop Hk].
    apply (in_state_b_spec _ _ _ Hop) in Hf as (state & ? & ?). eauto.
  - intros (op & state & Hk & Hst & Hf). pose proof Hst as [Hop _]. exists op. split.
    + apply list_elem_of_In, (elem_bucket _ _ s k op Hi). done.
    + apply (in_state_b_spec _ _ _ Hop). eauto.
Qed.

(** The target part of [routable], as the code computes it. *)
Lemma target_routable s r :
  fsm_wf s ->
  let ops := default [] (opsByTargetFQDN s !! r) in
  ((exists op state, TargetShard op = r /\ op_in_state s op state /\ counted state) \/
   (forall op state, TargetShard op = r -> op_in_state s op state -> state = CANCELLED)) <->
  (existsb (in_state_b counted_b s) ops = true \/ existsb (in_state_b pending_b s) ops = false).
Proof.
  intros W ops.
  assert (Hc : existsb (in_state_b counted_b s) ops = true <-> _)
    by exact (existsb_bucket _ _ s counted_b r W (wf_tfqdn _ W)).
  assert (Hp : existsb (in_state_b pending_b s) ops = true <-> _)
    by exact (existsb_bucket _ _ s pending_b r W (wf_tfqdn _ W)).
  rewrite <- not_true_iff_false, Hp, Hc. setoid_rewrite counted_b_spec. split.
  - intros [Ht|Ht]; [by left|]. right. intros (op & state & Hk & Hst & Hf).
    rewrite (Ht _ _ Hk Hst) in Hf. done.
  - intros [Ht|Ht]; [by left|].
    destruct (existsb (in_state_b counted_b s) ops) eqn:Ec.
    + left. destruct (proj1 Hc eq_refl) as (op & state & ? & ? & ?%counted_b_spec). eauto.
    + right. intros op state Hk Hst. destruct (decide (state = CANCELLED)) as [|Hne]; [done|].
      destruct Ht. exists op, state. split; [done|]. split; [done|]. unfold pending_b.
      rewrite (bool_decide_false _ Hne), andb_true_r. apply negb_true_iff, not_true_iff_false.
      intros Hcs. assert (false = true); [|done]. apply Hc. eauto.
Qed.

Lemma replica_filter_spec s node coll shard :
  fsm_wf s ->
  exists ok, filterOneReplicaReadWrite s node coll shard = (ok, ok) /\
    (ok = true <-> routable s (newShardFQDN node coll shard)).
Proof.
  intros W. set (r := newShardFQDN node coll shard).
  destruct (source_filter_spec s node coll shard W) as (src & Esrc & Hsrc). fold r in Hsrc.
  assert (Hall : forall op, op ∈ default [] (opsByTargetFQDN s !! r) -> is_Some (statusById s !! ID op)).
  { intros op Hop. apply (elem_bucket _ _ s r op (wf_tfqdn _ W)) in Hop as [Hop _].
    rewrite <- elem_of_dom, (wf_status _ W). by apply elem_of_dom_2 in Hop. }
  pose proof (target_routable s r W) as Ht.
  assert (Hr : routable s r <-> src = true /\ _) by exact (and_iff_compat_r _ (iff_sym Hsrc)).
  rewrite Ht in Hr. clear Ht Hsrc. setoid_rewrite Hr. clear Hr.
  unfold filterOneReplicaReadWrite. fold r.
  destruct (opsByTargetFQDN s !! r) as [ops|]; cbn [default from_option id] in *.
  - rewrite target_scan_spec by done. cbn [orb].
    destruct (existsb (in_state_b counted_b s) ops), (existsb (in_state_b pending_b s) ops);
      cbn [negb andb]; [exists src|exists src|exists false|exists src]; rewrite ?Esrc; naive_solver.
  - exists src. rewrite Esrc. naive_solver.
Qed.

(** Without operations on a shard all its replicas are routable, so the early
    return of the filters is only a short cut. *)
Lemma no_ops_routable s coll shard node :
  fsm_wf s -> shard_ops s coll shard = None -> routable s (newShardFQDN node coll shard).
Proof.
  intros W Hno.
  assert (Hnone : forall op, opsById s !! ID op = Some op -> source_key op <> (coll, shard)).
  { intros op Hop Hk. assert (Hin : op ∈ default [] (shard_ops s coll shard))
      by (by apply (elem_bucket _ _ s (coll, shard) op (wf_shards _ W))).
    rewrite Hno in Hin. set_solver. }
  split; [|right].
  - intros op Hs [Hop _]. apply (Hnone op Hop). unfold source_key. by rewrite Hs.
  - intros op state Ht [Hop _]. destruct (Hnone op Hop). unfold source_key.
    destruct (wf_same_shard _ W _ _ Hop) as [<- <-]. by rewrite Ht.
Qed.

Lemma filters_spec s coll shard nodes :
  fsm_wf s ->
  FilterOneShardReplicasRead s coll shard nodes
  = filter (fun n => (filterOneReplicaReadWrite s n coll shard).1 = true) nodes /\
  FilterOneShardReplicasWrite s coll shard nodes
  = filter (fun n => (filterOneReplicaReadWrite s n coll shard).1 = true) nodes.
Proof.
  intros W. unfold FilterOneShardReplicasRead, FilterOneShardReplicasWrite.
  destruct (shard_ops s coll shard) eqn:E.
  - split; [done|]. cbn. apply filter_ext_in. intros n _.
    destruct (replica_filter_spec s n coll shard W) as (ok & -> & _). done.
  - rewrite filter_all; [done|]. intros n _.
    destruct (replica_filter_spec s n coll shard W) as (ok & -> & Hok). cbn.
    by apply Hok, no_ops_routable.
Qed.

(** ** Removal of finished operations *)

Lemma removed_op_state R s s' op state :
  removed R s s' -> op_in_state s' op state <-> op_in_state s op state /\ ID op ∉ R.
Proof.
  intros Hr. unfold op_in_state. rewrite (rm_ops _ _ _ Hr), (rm_status _ _ _ Hr).
  setoid_rewrite map_lookup_filter_Some. naive_solver.
Qed.

Definition pending (state : string) : Prop := ~ counted state /\ state <> CANCELLED.

(** [R] names finished operations only, and no operation still under way shares
    its target with one of them that is READY. *)
Definition finished (s : ShardReplicationFSM) (R : gset Z) : Prop :=
  forall op state, op_in_state s op state -> ID op ∈ R ->
    state = CANCELLED \/
    (state = READY /\ forall op' state', TargetShard op' = TargetShard op ->
       op_in_state s op' state' -> ~ pending state').

(** Some operation that targets [r] satisfies [p], or none does. *)
Lemma target_op_dec s r (p : ShardReplicationOp -> string -> bool) :
  fsm_wf s ->
  (exists op state, TargetShard op = r /\ op_in_state s op state /\ p op state = true) \/
  (forall op state, TargetShard op = r -> op_in_state s op state -> p op state = false).
Proof.
  intros W. set (q := fun op => in_state_b (p op) s op).
  destruct (existsb q (default [] (opsByTargetFQDN s !! r))) eqn:E.
  - left. apply existsb_exists in E as (op & Hop%list_elem_of_In & Hq).
    apply (elem_bucket _ _ s r op (wf_tfqdn _ W)) in Hop as [Hop Ht].
    apply (in_state_b_spec _ _ _ Hop) in Hq as (state & ? & ?). eauto.
  - right. intros op state Ht Hst. pose proof Hst as [Hop _].
    destruct (p op state) eqn:Ep; [|done].
    assert (existsb q (default [] (opsByTargetFQDN s !! r)) = true); [|congruence].
    apply existsb_exists. exists op. split.
    + by apply list_elem_of_In, (elem_bucket _ _ s r op (wf_tfqdn _ W)).
    + apply (in_state_b_spec _ _ _ Hop). eauto.
Qed.

Lemma removed_routable R s s' r :
  fsm_wf s -> removed R s s' -> finished s R -> routable s' r <-> routable s r.
Proof.
  intros W Hr Hf. unfold routable. setoid_rewrite (removed_op_state _ _ _ _ _ Hr).
  assert (Hd : forall op, op_in_state s op DEHYDRATING -> ID op ∉ R).
  { intros op Hop HR. destruct (Hf _ _ Hop HR) as [E|[E _]]; done. }
  split; intros [Hs Ht]; (split; [intros op Hsrc Hop; naive_solver|]).
  - destruct Ht as [(op & state & ? & [? ?] & ?)|Ht]; [left; eauto|].
    destruct (target_op_dec s r (fun op state => counted_b state) W)
      as [(op & state & ? & ? & ?%counted_b_spec)|Hno]; [left; eauto|].
    right. intros op state Htg Hst. destruct (decide (ID op ∈ R)); [|by apply (Ht op)].
    destruct (Hf op state Hst) as [|[-> _]]; [done|done|]. by specialize (Hno op READY Htg Hst).
  - destruct Ht as [(op & state & Htg & Hst & Hc)|Ht]; [|right; naive_solver].
    destruct (decide (ID op ∈ R)) as [HR|HR]; [|left; naive_solver].
    destruct (Hf op state Hst HR) as [->|[-> Hno]]; [by destruct Hc as [|[|]]|].
    destruct (target_op_dec s r (fun op state => counted_b state && bool_decide (ID op ∉ R)) W)
      as [(op' & state' & ? & ? & [Hc' HR']%andb_true_iff)|Hnone].
    { left. exists op', state'. apply counted_b_spec in Hc'. apply bool_decide_eq_true in HR'. done. }
    right. intros op' state' Htg' [Hst' HR'].
    destruct (decide (state' = CANCELLED)) as [|Hne]; [done|].
    destruct (Hno op' state'); [congruence|done|]. split; [|done].
    intros Hc'%counted_b_spec. specialize (Hnone op' state' Htg' Hst').
    by rewrite Hc', bool_decide_true in Hnone.
Qed.

Lemma removed_filters R s s' coll shard nodes :
  fsm_wf s -> removed R s s' -> finished s R ->
  FilterOneShardReplicasRead s' coll shard nodes = FilterOneShardReplicasRead s coll shard nodes /\
  FilterOneShardReplicasWrite s' coll shard nodes = FilterOneShardReplicasWrite s coll shard nodes.
Proof.
  intros W Hr Hf. pose proof (removed_wf _ _ _ W Hr) as W'.
  destruct (filters_spec s coll shard nodes W) as [-> ->].
  destruct (filters_spec s' coll shard nodes W') as [-> ->].
  assert (E : forall n, (filterOneReplicaReadWrite s' n coll shard).1 = true <->
                        (filterOneReplicaReadWrite s n coll shard).1 = true).
  { intros n. destruct (replica_filter_spec s n coll shard W) as (ok & -> & Hok).
    destruct (replica_filter_spec s' n coll shard W') as (ok' & -> & Hok'). cbn.
    rewrite Hok, Hok'. by eapply removed_routable. }
  split; apply filter_ext_in; intros n _; apply E.
Qed.

(** ** Gates *)

(** A gate over a bucket does not see removed operations that do not trip it. *)
Lemma existsb_kept R (p p' : ShardReplicationOp -> bool) o :
  (forall op, op ∈ default [] o -> ID op ∈ R -> p op = false) ->
  (forall op, op ∈ default [] o -> ID op ∉ R -> p' op = p op) ->
  existsb p' (default [] (kept_bucket R o)) = existsb p (default [] o).
Proof.
  rewrite default_kept. generalize (default [] o). intros l Hrm Hkeep.
  induction l as [|op l IH]; [done|]. rewrite filter_cons. cbn [existsb].
  rewrite <- IH by (intros; by (apply Hrm + apply Hkeep; [right|])).
  case_decide as E; cbn [existsb].
  - by rewrite Hkeep by (done || left).
  - rewrite Hrm; [done|left|]. by destruct (decide (ID op ∈ R)).
Qed.

(** Operations whose removal no gate notices: terminal and not flagged. *)
Definition unflagged (s : ShardReplicationFSM) (R : gset Z) : Prop :=
  forall id st, statusById s !! id = Some st -> id ∈ R ->
    terminal (GetCurrentState st) = true /\ flagged st = false.

Lemma removed_status_lookup R s s' id :
  removed R s s' -> id ∉ R -> statusById s' !! id = statusById s !! id.
Proof.
  intros Hr Hid. rewrite (rm_status _ _ _ Hr). apply option_eq. intros st.
  rewrite map_lookup_filter_Some. naive_solver.
Qed.

Lemma removed_gates R s s' coll shard node :
  removed R s s' -> unflagged s R ->
  HasActiveReplicationForShard s' coll shard = HasActiveReplicationForShard s coll shard /\
  HasActiveReplicationForCollection s' coll = HasActiveReplicationForCollection s coll /\
  HasActiveTargetReplicationForShard s' coll shard node
  = HasActiveTargetReplicationForShard s coll shard node.
Proof.
  intros Hr Hu.
  assert (Hc : forall op, ID op ∈ R -> consumed s op = false).
  { intros op HR. unfold consumed. destruct (statusById s !! ID op) as [st|] eqn:E; [|done].
    destruct (Hu _ _ E HR) as [Ht Hf]. unfold flagged in Hf. apply orb_false_iff in Hf as [_ Hd].
    unfold terminal in Ht. unfold ShouldConsumeOps. rewrite Hd, andb_false_r, orb_false_r.
    repeat case_bool_decide; done. }
  assert (Hk : forall op, ID op ∉ R -> consumed s' op = consumed s op).
  { intros op HR. unfold consumed. by rewrite (removed_status_lookup R s s'). }
  unfold HasActiveReplicationForShard, HasActiveReplicationForCollection,
    HasActiveTargetReplicationForShard.
  rewrite (rm_shards _ _ _ Hr), (rm_coll _ _ _ Hr). split_and!; apply existsb_kept; auto.
  - intros op _ HR. destruct (statusById s !! ID op) as [st|] eqn:E; [|by rewrite andb_false_r].
    destruct (Hu _ _ E HR) as [-> _]. by rewrite andb_false_r.
  - intros op _ HR. by rewrite (removed_status_lookup R s s').
Qed.

(** ** The sweep *)

Definition eligible (s : ShardReplicationFSM) (cutoff : Z) (includeCancelled : bool) (id : Z) : Prop :=
  exists st, statusById s !! id = Some st /\ stale cutoff includeCancelled st = true /\
    flagged st = false.

Lemma candidates_spec s cutoff inc :
  let cand := merge_sort Z.le (map fst (filter (fun '(_, st) => flagged st = false)
    (filter (fun '(_, st) => stale cutoff inc st = true) (map_to_list (statusById s))))) in
  (forall id, id ∈ cand <-> eligible s cutoff inc id) /\ StronglySorted Z.lt cand.
Proof.
  intros cand.
  assert (Hp : cand ≡ₚ map fst (filter (fun '(_, st) => flagged st = false)
    (filter (fun '(_, st) => stale cutoff inc st = true) (map_to_list (statusById s)))))
    by apply merge_sort_Permutation.
  split.
  - intros id. rewrite Hp. change (map fst ?l) with (fst <$> l). rewrite list_elem_of_fmap. split.
    + intros ([i st] & -> & Hin). rewrite !list_elem_of_filter, elem_of_map_to_list in Hin.
      exists st. tauto.
    + intros (st & Hst & ? & ?). exists (id, st). split; [done|].
      rewrite !list_elem_of_filter, elem_of_map_to_list. done.
  - assert (Hd : NoDup cand).
    { rewrite Hp. change (map fst ?l) with (fst <$> l).
      eapply sublist_NoDup; [apply (NoDup_fst_map_to_list (statusById s))|].
      apply fmap_sublist. etrans; apply sublist_filter. }
    assert (Hs : StronglySorted Z.le cand) by (apply (StronglySorted_merge_sort Z.le)).
    clear Hp. induction Hs as [|x l Hs IH Hx]; [constructor|]. inversion_clear Hd as [|? ? Hnx Hd'].
    constructor; [auto|]. rewrite Forall_forall in Hx |- *. intros y Hy. specialize (Hx y Hy).
    assert (x <> y) by (intros ->; done). lia.
Qed.

Lemma sorted_take {A} (R : A -> A -> Prop) l n : StronglySorted R l -> StronglySorted R (take n l).
Proof.
  intros Hs. revert n. induction Hs as [|x l Hs IH Hx]; intros [|n]; cbn; constructor; [auto|].
  by apply Forall_take.
Qed.

(** What [take] leaves out is greater. *)
Lemma sorted_take_lt l n x y :
  StronglySorted Z.lt l -> x ∈ take n l -> y ∈ l -> y ∉ take n l -> x < y.
Proof.
  intros Hs. revert n. induction Hs as [|z l Hs IH Hz]; intros [|n] Hx Hy Hny; cbn in *; try set_solver.
  rewrite Forall_forall in Hz. apply elem_of_cons in Hy as [->|Hy]; [set_solver|].
  apply elem_of_cons in Hx as [->|Hx]; [by apply Hz|]. apply (IH n); set_solver.
Qed.

Lemma omap_states s cutoff inc (cand : list Z) :
  (forall id, id ∈ cand -> eligible s cutoff inc id) ->
  let l := omap (fun id => st ← statusById s !! id; Some (id, GetCurrentState st)) cand in
  map fst l = cand /\
  forall id state, (id, state) ∈ l -> exists st, statusById s !! id = Some st /\ GetCurrentState st = state.
Proof.
  induction cand as [|id cand IH]; intros Hall; cbn; [set_solver|].
  destruct IH as [IHm IHs]; [set_solver|]. destruct (Hall id) as (st & Hst & _); [left|].
  rewrite Hst. cbn. split; [by f_equal|]. intros i state Hin.
  apply elem_of_cons in Hin as [[= -> ->]|Hin]; eauto.
Qed.

(** ** Snapshots *)

(** Equal up to the order inside the index buckets, which a restore follows map
    order for. *)
Record fsm_equiv (s s' : ShardReplicationFSM) : Prop := {
  eqv_ops : opsById s' = opsById s;
  eqv_status : statusById s' = statusById s;
  eqv_uuid : idsByUuid s' = idsByUuid s;
  eqv_target : forall k, option_Forall2 Permutation (opsByTarget s !! k) (opsByTarget s' !! k);
  eqv_source : forall k, option_Forall2 Permutation (opsBySource s !! k) (opsBySource s' !! k);
  eqv_coll : forall k, option_Forall2 Permutation (opsByCollection s !! k) (opsByCollection s' !! k);
  eqv_shards : forall c sh, option_Forall2 Permutation (shard_ops s c sh) (shard_ops s' c sh);
  eqv_tfqdn : forall k, option_Forall2 Permutation (opsByTargetFQDN s !! k) (opsByTargetFQDN s' !! k);
  eqv_sfqdn : forall k, option_Forall2 Permutation (opsBySourceFQDN s !! k) (opsBySourceFQDN s' !! k);
  eqv_gauge : forall state, default 0 (opsByStateGauge s' !! state)
                            = default 0 (opsByStateGauge s !! state)
}.

(** The operations determine an index up to order. *)
Lemma index_unique {K} (key : ShardReplicationOp -> K) look look' ops k :
  index_ok key look ops -> index_ok key look' ops ->
  option_Forall2 Permutation (look k) (look' k).
Proof.
  intros I I'.
  assert (Hp : default [] (look k) ≡ₚ default [] (look' k)).
  { apply NoDup_Permutation; [apply (idx_nodup _ _ _ I)|apply (idx_nodup _ _ _ I')|].
    intros op. by rewrite (idx_elem _ _ _ I), (idx_elem _ _ _ I'). }
  pose proof (idx_nonempty _ _ _ I k) as Hz. pose proof (idx_nonempty _ _ _ I' k) as Hz'.
  destruct (look k) as [l|], (look' k) as [l'|]; cbn in Hp; [by constructor| | |constructor].
  - apply Permutation_nil_r in Hp. congruence.
  - apply Permutation_nil_l in Hp. congruence.
Qed.

(** Every operation is found by its UUID. *)
Definition uuids_complete (s : ShardReplicationFSM) : Prop :=
  forall id op, opsById s !! id = Some op -> idsByUuid s !! UUID op = Some id.

Lemma same_content_equiv s s' :
  fsm_wf s -> fsm_wf s' -> uuids_complete s -> uuids_complete s' ->
  opsById s' = opsById s -> statusById s' = statusById s -> fsm_equiv s s'.
Proof.
  intros W W' U U' Ho Hst.
  assert (Hidx : forall {K} (key : ShardReplicationOp -> K) look look',
    index_ok key look (opsById s) -> index_ok key look' (opsById s') ->
    forall k, option_Forall2 Permutation (look k) (look' k)).
  { intros K key look look' I I' k. rewrite Ho in I'. by eapply index_unique. }
  split; [done|done| |..].
  - apply map_eq. intros u. apply option_eq. intros id. split; intros Hu.
    + destruct (wf_uuid _ W' _ _ Hu) as (op & Hop & <-). apply U. by rewrite <- Ho.
    + destruct (wf_uuid _ W _ _ Hu) as (op & Hop & <-). apply U'. by rewrite Ho.
  - apply (Hidx _ _ _ _ (wf_target _ W) (wf_target _ W')).
  - apply (Hidx _ _ _ _ (wf_source _ W) (wf_source _ W')).
  - apply (Hidx _ _ _ _ (wf_coll _ W) (wf_coll _ W')).
  - intros c sh. apply (Hidx _ _ _ _ (wf_shards _ W) (wf_shards _ W') (c, sh)).
  - apply (Hidx _ _ _ _ (wf_tfqdn _ W) (wf_tfqdn _ W')).
  - apply (Hidx _ _ _ _ (wf_sfqdn _ W) (wf_sfqdn _ W')).
  - intros state. by rewrite (wf_gauge _ W), (wf_gauge _ W'), Hst.
Qed.

(** The value [snapshotOps] collects. *)
Definition snapshot_pairs (s : ShardReplicationFSM) (l : list (Z * ShardReplicationOpStatus))
  : list (ShardReplicationOp * ShardReplicationOpStatus) :=
  omap (fun '(id, st) => op ← opsById s !! id; Some (op, st)) l.

Lemma snapshot_fold s l : forall acc,
  (forall id st, (id, st) ∈ l -> is_Some (opsById s !! id)) ->
  foldl (fun acc '(id, status) =>
    let! ops := acc in
    match opsById s !! id with
    | None => Err ErrReplicationOperationNotFound
    | Some op => Ok (ops ++ [(op, status)])
    end) (Ok acc) l = Ok (acc ++ snapshot_pairs s l).
Proof.
  induction l as [|[id st] l IH]; intros acc Hall; cbn [foldl snapshot_pairs omap]; [by rewrite app_nil_r|].
  destruct (Hall id st) as [op Hop]; [left|]. cbn [obind]. rewrite Hop.
  rewrite IH by (intros i x Hx; apply (Hall i x); by right).
  unfold snapshot_pairs. cbn. rewrite Hop. cbn. by rewrite <- app_assoc.
Qed.

Lemma snapshotOps_spec s :
  fsm_wf s -> exists ops, snapshotOps s = Ok ops /\ NoDup (map (fun p => ID p.1) ops) /\
    forall op st, (op, st) ∈ ops <-> opsById s !! ID op = Some op /\ statusById s !! ID op = Some st.
Proof.
  intros W. unfold snapshotOps. rewrite snapshot_fold.
  2:{ intros id st Hin%elem_of_map_to_list. rewrite <- elem_of_dom, <- (wf_status _ W).
      by apply elem_of_dom_2 in Hin. }
  eexists. split; [reflexivity|]. cbn [app].
  assert (Hsub : forall l, map (fun p => ID p.1) (snapshot_pairs s l) `sublist_of` map fst l).
  { induction l as [|[id st] l IH]; [done|]. unfold snapshot_pairs. cbn.
    destruct (opsById s !! id) as [op|] eqn:E; cbn; [|by constructor].
    rewrite (wf_id _ W _ _ E). by constructor. }
  split; [eapply sublist_NoDup, Hsub; apply NoDup_fst_map_to_list|].
  intros op st. unfold snapshot_pairs. rewrite list_elem_of_omap. split.
  - intros ([id st'] & Hin%elem_of_map_to_list & Hb). cbn in Hb.
    destruct (opsById s !! id) as [op'|] eqn:E; [|done]. cbn in Hb. simplify_eq.
    by rewrite (wf_id _ W _ _ E), E.
  - intros [Ho Hst]. exists (ID op, st). split; [by apply elem_of_map_to_list|]. cbn. by rewrite Ho.
Qed.

(** Restoring operations with distinct ids and UUIDs. *)
Lemma Restore_spec ops s0 :
  NoDup (map (fun p => ID p.1) ops) -> NoDup (map (fun p => UUID p.1) ops) ->
  (forall op st, (op, st) ∈ ops -> CollectionId (TargetShard op) = CollectionId (SourceShard op) /\
     ShardId (TargetShard op) = ShardId (SourceShard op)) ->
  let s := Restore ops s0 in
  fsm_wf s /\ uuids_complete s /\
  (forall id op, opsById s !! id = Some op <-> exists st, (op, st) ∈ ops /\ ID op = id) /\
  (forall id st, statusById s !! id = Some st <-> exists op, (op, st) ∈ ops /\ ID op = id).
Proof.
  unfold Restore. induction ops as [|[op st] ops IH] using rev_ind; intros Hid Huu Hsame.
  - split; [apply wf_new|]. split; [done|]. split; intros ? ?; cbn; rewrite lookup_empty; set_solver.
  - rewrite map_app in Hid, Huu. apply NoDup_app in Hid as (Hid & Hfresh & _).
    apply NoDup_app in Huu as (Huu & Hufresh & _). rewrite foldl_app. cbn [foldl map] in *.
    destruct IH as (W & U & Ho & Hst); [done|done|set_solver|].
    set (s := foldl _ _ ops) in *.
    assert (Hnew : opsById s !! ID op = None).
    { apply eq_None_not_Some. intros [op' Hop']. apply Ho in Hop' as (st' & Hin & E).
      apply (Hfresh (ID op)); [|left]. rewrite <- E.
      by apply (list_elem_of_fmap_2 (fun p => ID p.1) ops (op', st')). }
    destruct (Hsame op st) as [Hc Hs]; [set_solver|].
    split; [by apply insert_wf|]. split_and!; cbn [insertOpIntoFSM opsById statusById idsByUuid].
    + intros id op'. cbn. rewrite lookup_insert_Some. intros [[<- <-]|[Hne Hop']];
        [apply lookup_insert_eq|]. rewrite lookup_insert_ne; [by apply U|].
      intros E. apply Ho in Hop' as (st' & Hin & _). apply (Hufresh (UUID op)); [|left]. rewrite E.
      by apply (list_elem_of_fmap_2 (fun p => UUID p.1) ops (op', st')).
    + intros id op'. rewrite lookup_insert_Some, Ho. setoid_rewrite elem_of_app.
      setoid_rewrite list_elem_of_singleton. split; [naive_solver|].
      intros (st' & [Hin|[= -> ->]] & <-); [|by left]. right. split; [|by eauto].
      intros E. apply (Hfresh (ID op)); [|left]. rewrite E.
      by apply (list_elem_of_fmap_2 (fun p => ID p.1) ops (op', st')).
    + intros id st'. rewrite lookup_insert_Some, Hst. setoid_rewrite elem_of_app.
      setoid_rewrite list_elem_of_singleton. split; [naive_solver|].
      intros (op' & [Hin|[= -> ->]] & <-); [|by left]. right. split; [|by eauto].
      intros E. apply (Hfresh (ID op)); [|left]. rewrite E.
      by apply (list_elem_of_fmap_2 (fun p => ID p.1) ops (op', st')).
Qed.

(** A new operation's UUID is not in use. *)
Definition fresh_uuid (c : rep_cmd) (s : ShardReplicationFSM) : Prop :=
  match c with CmdReplicate _ _ r => idsByUuid s !! r_Uuid r = None | _ => True end.

Lemma uuids_step c s s' :
  fsm_wf s -> uuids_complete s -> fresh_uuid c s -> cmd_effect c s s' -> uuids_complete s'.
Proof.
  intros W U Hf [id now r -> _|? (m & g & -> & _)|R ? Hr] i op; [| |].
  - cbn. rewrite lookup_insert_Some. intros [[<- <-]|[_ Hop]]; [apply lookup_insert_eq|].
    rewrite lookup_insert_ne; [by apply U|]. intros E. cbn in Hf. apply U in Hop. congruence.
  - apply U.
  - rewrite (rm_ops _ _ _ Hr), map_lookup_filter_Some. intros [Hop HR]. apply (rm_uuid _ _ _ Hr).
    split; [by apply U|]. intros op' Hop' HR' E. apply U in Hop, Hop'. rewrite E in Hop'.
    congruence.
Qed.

Lemma reachable_uuids s :
  reachable (fun c s => fresh_id c s /\ fresh_uuid c s) s -> fsm_wf s /\ uuids_complete s.
Proof.
  intros Hr. induction Hr as [|c s Hr [W U] [Hf Hu]]; [split; [apply wf_new|done]|].
  split; [eapply effect_wf|eapply uuids_step]; eauto using apply_effect.
Qed.

Lemma selected_eligible s cutoff inc limit id :
  id ∈ map fst (SelectStaleOps s cutoff inc limit).1 -> eligible s cutoff inc id.
Proof.
  unfold SelectStaleOps. cbn [fst]. destruct (candidates_spec s cutoff inc) as [Hel _].
  cbv zeta in Hel. set (cand := merge_sort _ _) in *. intros Hin. apply Hel.
  assert (Hsub : forall l, map fst (omap (fun id => st ← statusById s !! id; Some (id, GetCurrentState st)) l)
    `sublist_of` l).
  { clear. induction l as [|i l IH]; [done|]. cbn. destruct (statusById s !! i); cbn; by constructor. }
  apply (elem_of_sublist _ _ _ Hin) in Hsub as Hin'. clear Hin.
  destruct (_ && _); [|done]. eapply elem_of_sublist; [done|apply sublist_take].
Qed.

Lemma snapshot_uuids s (ops : list (ShardReplicationOp * ShardReplicationOpStatus)) :
  uuids_complete s -> NoDup (map (fun p => ID p.1) ops) ->
  (forall op st, (op, st) ∈ ops <-> opsById s !! ID op = Some op /\ statusById s !! ID op = Some st) ->
  NoDup (map (fun p => UUID p.1) ops).
Proof.
  intros U Hid Hel. change (map ?f ?l) with (f <$> l) in *.
  assert (Hin : forall p, p ∈ ops -> idsByUuid s !! UUID p.1 = Some (ID p.1)).
  { intros [op st] Hp. apply Hel in Hp as [Hop _]. by apply U. }
  clear Hel. induction ops as [|p ops IH]; [constructor|]. inversion_clear Hid as [|? ? Hnot Hid'].
  constructor; [|apply IH; [done|]; intros; apply Hin; by right].
  intros (q & E & Hq)%list_elem_of_fmap. apply Hnot. apply list_elem_of_fmap. exists q.
  split; [|done]. pose proof (Hin p ltac:(left)) as H1. pose proof (Hin q ltac:(by right)) as H2.
  rewrite E, H2 in H1. congruence.
Qed.

(** * Properties *)

(** In every reachable state the read filter and the write filter return
    the same replicas, in their given order: exactly those that no MOVE is
    draining and that are either a counted replica of some operation targeting
    them or not the target of an operation under way.  The early returns for
    shards without operations do not change this. *)
Lemma routing_correct (s : ShardReplicationFSM) (coll shard : string) (nodes : list string) :
  reachable fresh_id s ->
  FilterOneShardReplicasRead s coll shard nodes = FilterOneShardReplicasWrite s coll shard nodes /\
  FilterOneShardReplicasRead s coll shard nodes `sublist_of` nodes /\
  forall n, n ∈ FilterOneShardReplicasRead s coll shard nodes <->
    n ∈ nodes /\ routable s (newShardFQDN n coll shard).
Proof.
  intros Hr. assert (W : fsm_wf s) by (eapply reachable_wf; [|done]; auto).
  destruct (filters_spec s coll shard nodes W) as [-> ->]. split; [done|].
  split; [apply sublist_filter|]. intros n. rewrite list_elem_of_filter.
  destruct (replica_filter_spec s n coll shard W) as (ok & -> & Hok). cbn. rewrite Hok. tauto.
Qed.

(** Removing finished operations changes no routing decision, provided that
    no operation under way targets the same replica as a removed READY one. *)
Lemma finished_removal_neutral (s : ShardReplicationFSM) (ids : list Z) (coll shard : string)
    (nodes : list string) :
  reachable fresh_id s -> finished s (list_to_set ids) ->
  let s' := (ForceDeleteByIds ids s).1 in
  FilterOneShardReplicasRead s' coll shard nodes = FilterOneShardReplicasRead s coll shard nodes /\
  FilterOneShardReplicasWrite s' coll shard nodes = FilterOneShardReplicasWrite s coll shard nodes.
Proof.
  intros Hr Hf. assert (W : fsm_wf s) by (eapply reachable_wf; [|done]; auto).
  eapply removed_filters; [done|by apply removeReplicationOps_spec|done].
Qed.

(** [SelectStaleOps] selects only eligible operations, with their states, in
    ascending id order and at most [limit] of them, and it starves none: every
    eligible operation it leaves out is newer than all it selected, and then the
    limit is used up. *)
Lemma select_stale_oldest (s : ShardReplicationFSM) (cutoff : Z) (inc : bool) (limit : Z) :
  let l := (SelectStaleOps s cutoff inc limit).1 in
  StronglySorted Z.lt (map fst l) /\
  (forall id state, (id, state) ∈ l -> eligible s cutoff inc id /\
     exists st, statusById s !! id = Some st /\ GetCurrentState st = state) /\
  (0 <= limit -> Z.of_nat (length l) <= limit) /\
  (forall id, eligible s cutoff inc id -> id ∉ map fst l ->
     Z.of_nat (length l) = limit /\ forall i, i ∈ map fst l -> i < id).
Proof.
  intros l. subst l. unfold SelectStaleOps. cbn [fst].
  destruct (candidates_spec s cutoff inc) as [Hel Hs]. cbv zeta in Hel, Hs.
  set (cand := merge_sort _ _) in *. set (limited := (0 <=? limit) && _).
  set (chosen := if limited then take (Z.to_nat limit) cand else cand).
  assert (Hch : forall id, id ∈ chosen -> eligible s cutoff inc id).
  { intros id Hin. apply Hel. subst chosen. destruct limited; [|done]. eapply elem_of_sublist; [done|apply sublist_take]. }
  destruct (omap_states s cutoff inc chosen Hch) as [Hm Hst]. cbv zeta in Hm, Hst.
  rewrite <- (length_map fst), Hm. split_and!.
  - subst chosen. destruct limited; [by apply sorted_take|done].
  - intros id state Hin. split; [|by apply Hst]. apply Hch. rewrite <- Hm.
    by apply (list_elem_of_fmap_2 fst _ (id, state)).
  - intros H0. subst chosen limited. destruct (_ && _) eqn:E; [rewrite length_take; lia|].
    apply andb_false_iff in E. lia.
  - intros id He Hnot. apply Hel in He. subst chosen. destruct limited eqn:E; [|done].
    unfold limited in E. apply andb_true_iff in E. rewrite length_take. split; [lia|].
    intros i Hi. by eapply sorted_take_lt.
Qed.

(** A sweep of selected operations is invisible to the gates: no answer of
    [HasActiveReplicationForShard], [...ForCollection] and
    [HasActiveTargetReplicationForShard] changes. *)
Lemma sweep_gates_neutral (s : ShardReplicationFSM) (cutoff : Z) (inc : bool) (limit : Z)
    (coll shard node : string) :
  reachable fresh_id s ->
  let s' := (ForceDeleteByIds (map fst (SelectStaleOps s cutoff inc limit).1) s).1 in
  HasActiveReplicationForShard s' coll shard = HasActiveReplicationForShard s coll shard /\
  HasActiveReplicationForCollection s' coll = HasActiveReplicationForCollection s coll /\
  HasActiveTargetReplicationForShard s' coll shard node
  = HasActiveTargetReplicationForShard s coll shard node.
Proof.
  intros Hr. assert (W : fsm_wf s) by (eapply reachable_wf; [|done]; auto).
  eapply removed_gates; [by apply removeReplicationOps_spec|].
  intros id st Hst Hin. rewrite elem_of_list_to_set in Hin.
  destruct (selected_eligible _ _ _ _ _ Hin) as (st' & Hst' & Hstale & Hf). simplify_eq.
  split; [|done]. unfold stale in Hstale. unfold terminal.
  repeat case_bool_decide; cbn in *; done.
Qed.

(** Restoring a snapshot gives the same FSM back, whatever the FSM held
    before and in whatever order the snapshot's operations are visited: the
    same operations, statuses and UUIDs, the same gauge, and every index
    bucket with the same operations. *)
Lemma restore_snapshot (s s0 : ShardReplicationFSM) :
  reachable (fun c s => fresh_id c s /\ fresh_uuid c s) s ->
  exists ops, snapshotOps s = Ok ops /\
    forall ops', ops' ≡ₚ ops -> fsm_equiv s (Restore ops' s0).
Proof.
  intros [W U]%reachable_uuids. destruct (snapshotOps_spec s W) as (ops & Hsn & Hid & Hel).
  exists ops. split; [done|]. intros ops' Hp.
  destruct (Restore_spec ops' s0) as (W' & U' & Ho & Hst).
  - change (map ?f ?l) with (f <$> l). by rewrite Hp.
  - change (map ?f ?l) with (f <$> l). rewrite Hp. by apply (snapshot_uuids s).
  - intros op st Hin. rewrite Hp in Hin. apply Hel in Hin as [Hop _]. by eapply wf_same_shard.
  - apply same_content_equiv; try done; apply map_eq; intros i; apply option_eq; intros x.
    + rewrite Ho. setoid_rewrite Hp. setoid_rewrite Hel. split; [naive_solver|].
      intros Hx. pose proof (wf_id _ W _ _ Hx) as <-. destruct (op_has_state s x W Hx) as (? & _ & st & ? & _).
      eauto.
    + rewrite Hst. setoid_rewrite Hp. setoid_rewrite Hel. split; [naive_solver|].
      intros Hx. assert (Hi : is_Some (opsById s !! i)).
      { rewrite <- elem_of_dom, <- (wf_status _ W). by apply elem_of_dom_2 in Hx. }
      destruct Hi as [op Hop]. exists op. pose proof (wf_id _ W _ _ Hop) as <-. done.
Qed.

(** The READY case of C29 needs its proviso.  A second COPY to a replica is
    admitted while the first is READY; removing the READY operation then takes
    the replica out of routing until the second operation integrates it. *)
Lemma ready_removal_not_neutral :
  let s := run [CmdReplicate 1 100 wit_copy; CmdUpdateOpState 1 READY 101;
                CmdReplicate 2 102 (ReplicateRequest "u2" "A" "K" "S" "B" COPY)]
               NewShardReplicationFSM in
  GetCurrentState <$> statusById s !! 1 = Some READY /\
  GetCurrentState <$> statusById s !! 2 = Some REGISTERED /\
  FilterOneShardReplicasRead s "K" "S" ["A"; "B"] = ["A"; "B"] /\
  FilterOneShardReplicasRead (ForceDeleteByIds [1] s).1 "K" "S" ["A"; "B"] = ["A"].
Proof. repeat split; vm_compute; reflexivity. Qed.

(** * Witnesses *)

Lemma routing_correct_witness :
  "B" ∈ FilterOneShardReplicasRead wit_fsm "K" "S" ["A"; "B"] <->
  "B" ∈ ["A"; "B"] /\ routable wit_fsm (newShardFQDN "B" "K" "S").
Proof. apply (routing_correct wit_fsm "K" "S" ["A"; "B"] wit_reachable). Defined.

Lemma wit_ops_two :
  opsById wit_fsm = <[1 := requested_op 1 100 wit_copy]> (<[2 := requested_op 2 103 wit_move]> ∅).
Proof. vm_compute. reflexivity. Qed.

Lemma wit_state_1 state op : op_in_state wit_fsm op state -> ID op = 1 -> state = READY.
Proof. intros [_ (st & Hst & <-)] E. rewrite E in Hst. vm_compute in Hst. by simplify_eq. Qed.

Lemma wit_finished : finished wit_fsm (list_to_set [1]).
Proof.
  intros op state Hst Hin. assert (E : ID op = 1) by set_solver. right.
  split; [by eapply wit_state_1|]. intros op' state' Ht Hst'. pose proof Hst' as [Ho' _].
  rewrite wit_ops_two, !lookup_insert_Some, lookup_empty in Ho'.
  destruct Ho' as [[E' _]|[_ [[E' <-]|[_ ?]]]]; [| |done].
  - rewrite (wit_state_1 state' op' Hst' (eq_sym E')). intros [Hc _]. apply Hc. by left.
  - destruct Hst as [Ho _]. rewrite E, wit_ops_two, lookup_insert_eq in Ho. simplify_eq.
Qed.

Lemma finished_removal_neutral_witness :
  FilterOneShardReplicasRead (ForceDeleteByIds [1] wit_fsm).1 "K" "S" ["A"; "B"]
  = FilterOneShardReplicasRead wit_fsm "K" "S" ["A"; "B"].
Proof.
  apply (finished_removal_neutral wit_fsm [1] "K" "S" ["A"; "B"] wit_reachable wit_finished).
Defined.

Lemma sweep_gates_neutral_witness :
  HasActiveReplicationForShard
    (ForceDeleteByIds (map fst (SelectStaleOps wit_fsm 1000 true 1).1) wit_fsm).1 "K" "S"
  = HasActiveReplicationForShard wit_fsm "K" "S".
Proof. apply (sweep_gates_neutral wit_fsm 1000 true 1 "K" "S" "B" wit_reachable). Defined.

Lemma restore_snapshot_witness :
  exists ops, snapshotOps wit_fsm = Ok ops /\
    forall ops', ops' ≡ₚ ops -> fsm_equiv wit_fsm (Restore ops' wit_fsm).
Proof.
  apply (restore_snapshot wit_fsm wit_fsm). apply reach_run; [constructor|]. vm_compute. tauto.
Defined.
