(* ===== verification/Bitset.v ===== *)
(** * usecases/replica/hashtree/bitset.go

    A fixed-size bit set in 64-bit words with a cached count.  A Go [int64] word
    is given by its bit pattern, a number below 2^64; the methods that mutate
    the receiver return the new value. *)

From S2P Require Import Prelude.

Inductive ht_error : Type :=
| ErrIllegalArguments
| ErrIllegalState
| ErrLeafOutOfBounds
| ErrInvalidBsetSerialization
| ErrInvalidDigest
| ErrHeaderTooShort
| ErrMagicNumber
| ErrUnsupportedVersion
| ErrHeaderChecksum
| ErrRootMismatch
| ErrUnexpectedEOF
| ErrNoMoreRanges.

Record Bitset : Type := BS { bs_size : Z; bs_bits : list Z; bs_setCount : Z }.

Definition NewBitset (size : Z) : Bitset := BS size (replicate (Z.to_nat ((size + 63) / 64)) 0) 0.

(** [bset.bits[i/64]]: a negative index panics in the shift or the index. *)
Definition word_at (b : Bitset) (i : Z) : outcome ht_error Z :=
  if i <? 0 then Panic
  else match bs_bits b !! Z.to_nat (i / 64) with Some w => Ok w | None => Panic end.

Definition IsSet (b : Bitset) (i : Z) : outcome ht_error bool :=
  if bs_size b <=? i then Panic
  else let! w := word_at b i in Ok (bit_set w (i mod 64)).

Definition bs_Set (b : Bitset) (i : Z) : outcome ht_error Bitset :=
  let! s := IsSet b i in
  if (s : bool) then Ok b
  else
    let! w := word_at b i in
    Ok (BS (bs_size b) (<[Z.to_nat (i / 64) := Z.lor w (Z.shiftl 1 (i mod 64))]> (bs_bits b))
           (bs_setCount b + 1)).

Definition bs_Unset (b : Bitset) (i : Z) : outcome ht_error Bitset :=
  let! s := IsSet b i in
  if negb s then Ok b
  else
    let! w := word_at b i in
    Ok (BS (bs_size b) (<[Z.to_nat (i / 64) := Z.ldiff w (Z.shiftl 1 (i mod 64))]> (bs_bits b))
           (bs_setCount b - 1)).

Definition SetCount (b : Bitset) : Z := bs_setCount b.
Definition AllSet (b : Bitset) : bool := SetCount b =? bs_size b.
Definition SetAll (b : Bitset) : Bitset :=
  BS (bs_size b) (map (fun _ => u64_max) (bs_bits b)) (bs_size b).
Definition bs_Reset (b : Bitset) : Bitset := BS (bs_size b) (map (fun _ => 0) (bs_bits b)) 0.

Definition bs_Marshal (b : Bitset) : list Z :=
  be_split 4 (u32 (bs_size b)) ++ be_split 4 (u32 (bs_setCount b))
  ++ concat (map (be_split 8) (bs_bits b)).

(** [math/bits.OnesCount64] *)
Definition OnesCount64 (w : Z) : Z := Z.of_nat (length (filter (fun j => Z.testbit w j = true) (seqZ 0 64))).

(** The word loop of [Unmarshal]: word [i] of [n], read from the rest [b]. *)
Fixpoint unmarshal_words (size n : Z) (i : Z) (fuel : nat) (b : list Z) : list Z * Z :=
  match fuel with
  | O => ([], 0)
  | S fuel =>
      let word := be_combine (take 8 b) in
      let w := if (i =? n - 1) && negb (size mod 64 =? 0)
               then Z.land word (Z.shiftl 1 (size mod 64) - 1) else word in
      let '(words, setCount) := unmarshal_words size n (i + 1) fuel (drop 8 b) in
      (word :: words, OnesCount64 w + setCount)
  end.

Definition bs_Unmarshal (b : list Z) : outcome ht_error Bitset :=
  if (length b <? 8)%nat then Err ErrInvalidBsetSerialization
  else
    let size := be_combine (take 4 b) in
    let carriedSetCount := be_combine (take 4 (drop 4 b)) in
    let n := (size + 63) / 64 in
    if negb (Z.of_nat (length b) =? 8 + n * 8) then Err ErrInvalidBsetSerialization
    else
      let '(words, setCount) := unmarshal_words size n 0 (Z.to_nat n) (drop 8 b) in
      if negb (setCount =? carriedSetCount) then Err ErrInvalidBsetSerialization
      else Ok (BS size words carriedSetCount).

(** ** The set a bit set stands for *)

Definition bit (b : Bitset) (i : Z) : bool :=
  Z.testbit (default 0 (bs_bits b !! Z.to_nat (i / 64))) (i mod 64).

(** The number of members below [size]. *)
Definition bit_count (b : Bitset) : Z :=
  Z.of_nat (length (filter (fun i => bit b i = true) (seqZ 0 (bs_size b)))).

Record bs_wf (b : Bitset) : Prop := {
  bs_nonneg : 0 <= bs_size b;
  bs_words : Z.of_nat (length (bs_bits b)) = (bs_size b + 63) / 64;
  bs_u64 : Forall is_u64 (bs_bits b);
  bs_count : bs_setCount b = bit_count b
}.

Lemma word_in_range b i :
  bs_wf b -> 0 <= i < bs_size b ->
  exists w, bs_bits b !! Z.to_nat (i / 64) = Some w /\ is_u64 w /\ word_at b i = Ok w /\
    (Z.to_nat (i / 64) < length (bs_bits b))%nat.
Proof.
  intros W Hi. pose proof (bs_words _ W) as Hw.
  assert (Hlt : (Z.to_nat (i / 64) < length (bs_bits b))%nat).
  { assert (i / 64 < (bs_size b + 63) / 64); [|pose proof (Z.div_pos i 64); lia].
    pose proof (Z.div_mod i 64). pose proof (Z.div_mod (bs_size b + 63) 64).
    pose proof (Z.mod_pos_bound i 64). pose proof (Z.mod_pos_bound (bs_size b + 63) 64). lia. }
  destruct (lookup_lt_is_Some_2 _ _ Hlt) as [w Hl]. exists w. split; [done|].
  split; [|split; [|done]].
  - exact (proj1 (Forall_lookup _ _) (bs_u64 _ W) _ _ Hl).
  - unfold word_at. destruct (Z.ltb_spec i 0); [lia|]. by rewrite Hl.
Qed.

Lemma IsSet_ok b i : bs_wf b -> 0 <= i < bs_size b -> IsSet b i = Ok (bit b i).
Proof.
  intros W Hi. destruct (word_in_range b i W Hi) as (w & Hl & _ & Hw & _).
  unfold IsSet. destruct (Z.leb_spec (bs_size b) i); [lia|]. rewrite Hw. cbn.
  unfold bit. rewrite Hl, bit_set_testbit; [done|]. apply Z.mod_pos_bound. lia.
Qed.

(** Changing the membership of one element changes the count by one. *)
Lemma count_change (f g : Z -> bool) (l : list Z) x :
  NoDup l -> x ∈ l -> (forall y, y ∈ l -> y <> x -> f y = g y) ->
  Z.of_nat (length (filter (fun i => g i = true) l))
  = Z.of_nat (length (filter (fun i => f i = true) l)) + (if g x then 1 else 0) - (if f x then 1 else 0).
Proof.
  induction l as [|a l IH]; intros Hd Hx Hfg; [set_solver|]. inversion_clear Hd as [|? ? Hna Hd'].
  rewrite !filter_cons. destruct (decide (a = x)) as [->|Hax].
  - rewrite (filter_ext_in (fun i => g i = true) (fun i => f i = true) l).
    + destruct (f x), (g x); cbn [length]; repeat case_decide; try done; cbn [length]; lia.
    + intros y Hy. rewrite Hfg; [done|set_solver|intros ->; done].
  - rewrite <- (Hfg a) by set_solver. apply elem_of_cons in Hx as [->|Hx]; [done|].
    specialize (IH Hd' Hx ltac:(intros; apply Hfg; set_solver)). case_decide; cbn [length]; lia.
Qed.

(** Division and remainder by 64 determine an index. *)
Lemma index_eq i j : 0 <= i -> 0 <= j -> Z.to_nat (j / 64) = Z.to_nat (i / 64) -> j mod 64 = i mod 64 -> j = i.
Proof.
  intros Hi Hj Hd Hm. pose proof (Z.div_pos i 64). pose proof (Z.div_pos j 64).
  rewrite (Z.div_mod i 64), (Z.div_mod j 64) by lia. assert (j / 64 = i / 64) by lia. congruence.
Qed.

(** Replacing word [i / 64] by one that differs in bit [i mod 64] only. *)
Lemma put_word b i w w' v :
  bs_wf b -> 0 <= i < bs_size b -> bs_bits b !! Z.to_nat (i / 64) = Some w -> is_u64 w' ->
  (forall j, 0 <= j < 64 -> Z.testbit w' j = if j =? i mod 64 then v else Z.testbit w j) ->
  let b' := BS (bs_size b) (<[Z.to_nat (i / 64) := w']> (bs_bits b))
    (bs_setCount b + (if v then 1 else 0) - (if bit b i then 1 else 0)) in
  bs_wf b' /\ forall j, 0 <= j -> bit b' j = if j =? i then v else bit b j.
Proof.
  intros W Hi Hw Hw' Hbits b'. pose proof (lookup_lt_Some _ _ _ Hw) as Hlt.
  assert (Hb : forall j, 0 <= j -> bit b' j = if j =? i then v else bit b j).
  { intros j Hj. unfold bit, b'. cbn [bs_bits]. pose proof (Z.mod_pos_bound j 64 eq_refl).
    destruct (decide (Z.to_nat (j / 64) = Z.to_nat (i / 64))) as [E|E].
    - rewrite E, list_lookup_insert_eq, Hw by done. cbn. rewrite Hbits by done.
      destruct (Z.eqb_spec j i) as [->|Hne]; [by rewrite Z.eqb_refl|].
      destruct (Z.eqb_spec (j mod 64) (i mod 64)) as [Em|]; [|done].
      destruct Hne. apply index_eq; try done; lia.
    - rewrite list_lookup_insert_ne by done. destruct (Z.eqb_spec j i) as [->|]; done. }
  split; [|done]. destruct W as [Hn Hws Hu Hc]. split; subst b'; cbn [bs_size bs_bits bs_setCount] in *.
  - done.
  - by rewrite length_insert.
  - by apply Forall_insert.
  - unfold bit_count at 1. cbn [bs_size].
    rewrite (count_change (bit b) _ _ i); [| |apply elem_of_seqZ; lia|].
    + fold (bit_count b). rewrite Hb, Z.eqb_refl, Hc by lia. done.
    + apply NoDup_seqZ.
    + intros y Hy Hne. apply elem_of_seqZ in Hy. rewrite Hb by lia.
      by rewrite (proj2 (Z.eqb_neq _ _) Hne).
Qed.

Lemma u64_bits w : (forall j, 64 <= j -> Z.testbit w j = false) -> 0 <= w -> is_u64 w.
Proof.
  intros Hb H0. destruct (Z.eq_dec w 0) as [->|]; [unfold is_u64; lia|]. split; [done|].
  destruct (Z_lt_le_dec w (2 ^ 64)) as [|Hge]; [done|].
  assert (Hl : 64 <= Z.log2 w) by (apply Z.log2_le_pow2; lia).
  pose proof (Hb _ Hl) as Hf. rewrite Z.bit_log2 in Hf by lia. done.
Qed.

Lemma u64_testbit_high w j : is_u64 w -> 64 <= j -> Z.testbit w j = false.
Proof.
  intros [H0 H1] Hj. destruct (Z.eq_dec w 0) as [->|]; [apply Z.bits_0|].
  apply Z.bits_above_log2; [done|]. assert (Z.log2 w < 64) by (apply Z.log2_lt_pow2; lia). lia.
Qed.

Lemma shift1_testbit k j : 0 <= k -> 0 <= j -> Z.testbit (Z.shiftl 1 k) j = (j =? k).
Proof.
  intros Hk Hj. rewrite Z.shiftl_mul_pow2, Z.mul_1_l, Z.pow2_bits_eqb by lia. apply Z.eqb_sym.
Qed.

(** What setting or clearing one bit does. *)
Definition set_to (b : Bitset) (i : Z) (v : bool) (b' : Bitset) : Prop :=
  bs_wf b' /\ bs_size b' = bs_size b /\ forall j, 0 <= j -> bit b' j = if j =? i then v else bit b j.

Lemma set_to_same b i v : bs_wf b -> bit b i = v -> set_to b i v b.
Proof.
  intros W <-. split; [done|]. split; [done|]. intros j _. by destruct (Z.eqb_spec j i) as [->|].
Qed.

Lemma bs_Set_ok b i : bs_wf b -> 0 <= i < bs_size b -> exists b', bs_Set b i = Ok b' /\ set_to b i true b'.
Proof.
  intros W Hi. unfold bs_Set. rewrite IsSet_ok by done. cbn [obind].
  destruct (bit b i) eqn:E; [eexists; split; [done|by apply set_to_same]|].
  destruct (word_in_range b i W Hi) as (w & Hl & Hu & -> & _). cbn [obind].
  pose proof (Z.mod_pos_bound i 64 eq_refl) as Hm.
  destruct (put_word b i w (Z.lor w (Z.shiftl 1 (i mod 64))) true W Hi Hl) as [W' Hb'].
  - apply u64_bits.
    + intros j Hj. rewrite Z.lor_spec, shift1_testbit, u64_testbit_high by (done || lia). cbn. lia.
    + destruct Hu. apply Z.lor_nonneg. split; [done|]. apply Z.shiftl_nonneg. lia.
  - intros j Hj. rewrite Z.lor_spec, shift1_testbit by lia.
    destruct (j =? i mod 64); [apply orb_true_r|apply orb_false_r].
  - eexists. split; [reflexivity|]. rewrite E in W', Hb'.
    replace (bs_setCount b + 1 - 0) with (bs_setCount b + 1) in * by lia. by split.
Qed.

Lemma bs_Unset_ok b i :
  bs_wf b -> 0 <= i < bs_size b -> exists b', bs_Unset b i = Ok b' /\ set_to b i false b'.
Proof.
  intros W Hi. unfold bs_Unset. rewrite IsSet_ok by done. cbn [obind].
  destruct (bit b i) eqn:E; cbn [negb]; [|eexists; split; [done|by apply set_to_same]].
  destruct (word_in_range b i W Hi) as (w & Hl & Hu & -> & _). cbn [obind].
  pose proof (Z.mod_pos_bound i 64 eq_refl) as Hm.
  destruct (put_word b i w (Z.ldiff w (Z.shiftl 1 (i mod 64))) false W Hi Hl) as [W' Hb'].
  - apply u64_bits.
    + intros j Hj. rewrite Z.ldiff_spec, u64_testbit_high by done. done.
    + destruct Hu. apply Z.ldiff_nonneg. by left.
  - intros j Hj. rewrite Z.ldiff_spec, shift1_testbit by lia.
    destruct (j =? i mod 64); [apply andb_false_r|apply andb_true_r].
  - eexists. split; [reflexivity|]. rewrite E in W', Hb'.
    replace (bs_setCount b + 0 - 1) with (bs_setCount b - 1) in * by lia. by split.
Qed.

Lemma NewBitset_wf size : 0 <= size -> bs_wf (NewBitset size) /\ forall i, bit (NewBitset size) i = false.
Proof.
  intros Hs.
  assert (Hb : forall i, bit (NewBitset size) i = false).
  { intros i. unfold bit, NewBitset. cbn [bs_bits]. destruct (replicate _ _ !! _) as [w|] eqn:E.
    - apply lookup_replicate in E as [-> _]. apply Z.bits_0.
    - apply Z.bits_0. }
  split; [|done]. split; cbn [NewBitset bs_size bs_bits bs_setCount].
  - done.
  - rewrite length_replicate. pose proof (Z.div_pos (size + 63) 64). lia.
  - apply Forall_replicate. unfold is_u64. lia.
  - unfold bit_count. rewrite filter_none; [done|]. intros i _. by rewrite Hb.
Qed.

Lemma bs_Reset_wf b :
  bs_wf b -> bs_wf (bs_Reset b) /\ bs_size (bs_Reset b) = bs_size b /\ forall i, bit (bs_Reset b) i = false.
Proof.
  intros [Hn Hw _ _]. assert (E : bs_Reset b = NewBitset (bs_size b)).
  { unfold bs_Reset, NewBitset. f_equal. rewrite <- Hw, Nat2Z.id. clear.
    induction (bs_bits b); cbn; congruence. }
  rewrite E. destruct (NewBitset_wf _ Hn). done.
Qed.

(** ** Serialization *)

Definition mask_word (size n i w : Z) : Z :=
  if (i =? n - 1) && negb (size mod 64 =? 0) then Z.land w (Z.shiftl 1 (size mod 64) - 1) else w.

Fixpoint words_total (size n i : Z) (ws : list Z) : Z :=
  match ws with
  | [] => 0
  | w :: ws => OnesCount64 (mask_word size n i w) + words_total size n (i + 1) ws
  end.

Lemma unmarshal_words_spec size n fuel : forall i b,
  Forall is_byte b -> length b = (8 * fuel)%nat ->
  exists ws, unmarshal_words size n i fuel b = (ws, words_total size n i ws) /\
    length ws = fuel /\ Forall is_u64 ws.
Proof.
  induction fuel as [|fuel IH]; intros i b Hb Hl; cbn [unmarshal_words].
  - exists []. cbn. split; [done|]. split; [done|constructor].
  - destruct (IH (i + 1) (drop 8 b)) as (ws & -> & Hlen & Hu).
    + by apply Forall_drop.
    + rewrite length_drop. lia.
    + exists (be_combine (take 8 b) :: ws). cbn [words_total length].
      split; [done|]. split; [lia|]. constructor; [|done].
      pose proof (be_combine_range (take 8 b) (Forall_take _ _ _ Hb)) as Hr.
      rewrite length_take_le in Hr by lia. exact Hr.
Qed.

Lemma unmarshal_marshalled size n ws : forall i,
  Forall is_u64 ws ->
  unmarshal_words size n i (length ws) (concat (map (be_split 8) ws)) = (ws, words_total size n i ws).
Proof.
  induction ws as [|w ws IH]; intros i Hu; [done|]. inversion_clear Hu as [|? ? Hw Hu'].
  cbn [length unmarshal_words map concat].
  assert (Hl : length (be_split 8 w) = 8%nat) by apply length_be_split.
  rewrite take_app_length', drop_app_length', IH, be_combine_split by done. done.
Qed.

Lemma count_shift (p : Z -> bool) k n :
  length (filter (fun i => p i = true) (seqZ k n))
  = length (filter (fun i => p (k + i) = true) (seqZ 0 n)).
Proof.
  rewrite <- (Z.add_0_r k) at 1. rewrite <- fmap_add_seqZ.
  generalize (seqZ 0 n). induction l as [|a l IH]; [done|]. cbn [fmap list_fmap].
  rewrite !filter_cons. repeat case_decide; cbn [length]; congruence.
Qed.

(** Members of the words [ws], counted up to [r]. *)
Definition word_bit (ws : list Z) (i : Z) : bool :=
  Z.testbit (default 0 (ws !! Z.to_nat (i / 64))) (i mod 64).

Definition count_upto (ws : list Z) (r : Z) : Z :=
  Z.of_nat (length (filter (fun i => word_bit ws i = true) (seqZ 0 r))).

Lemma count_upto_cons w ws r :
  0 <= r -> count_upto (w :: ws) (64 + r) = OnesCount64 w + count_upto ws r.
Proof.
  intros Hr. unfold count_upto, OnesCount64. rewrite seqZ_app, filter_app, length_app by lia.
  rewrite Nat2Z.inj_add, (count_shift (word_bit (w :: ws)) (0 + 64) r).
  rewrite (filter_ext_in (fun i => word_bit (w :: ws) i = true) (fun j => Z.testbit w j = true) (seqZ 0 64)).
  - rewrite (filter_ext_in (fun i => word_bit (w :: ws) (0 + 64 + i) = true)
      (fun i => word_bit ws i = true) (seqZ 0 r)); [reflexivity|].
    intros j Hj%elem_of_seqZ. unfold word_bit.
    replace (0 + 64 + j) with (j + 1 * 64) by lia. rewrite Z.div_add, Z.mod_add by lia.
    replace (Z.to_nat (j / 64 + 1)) with (S (Z.to_nat (j / 64))); [done|].
    pose proof (Z.div_pos j 64). lia.
  - intros j Hj%elem_of_seqZ. unfold word_bit.
    rewrite Z.div_small, Z.mod_small by lia. done.
Qed.

Lemma mask_testbit w r j :
  0 <= r -> 0 <= j -> Z.testbit (Z.land w (Z.shiftl 1 r - 1)) j = Z.testbit w j && (j <? r).
Proof.
  intros Hr Hj. rewrite Z.shiftl_mul_pow2, Z.mul_1_l by done.
  rewrite Z.land_spec. replace (2 ^ r - 1) with (Z.ones r) by (rewrite Z.ones_equiv; lia).
  by rewrite Z.testbit_ones_nonneg by lia.
Qed.

Lemma count_upto_last w r :
  0 < r < 64 -> count_upto [w] r = OnesCount64 (Z.land w (Z.shiftl 1 r - 1)).
Proof.
  intros Hr. unfold count_upto, OnesCount64. f_equal.
  replace (seqZ 0 64) with (seqZ 0 (r + (64 - r))) by (f_equal; lia).
  rewrite seqZ_app, filter_app, length_app by lia.
  rewrite (filter_none _ (seqZ (0 + r) _)).
  - cbn [length]. rewrite Nat.add_0_r. f_equal. apply filter_ext_in. intros j Hj%elem_of_seqZ.
    rewrite mask_testbit, (proj2 (Z.ltb_lt _ _)), andb_true_r by lia. unfold word_bit.
    by rewrite Z.div_small, Z.mod_small by lia.
  - intros j Hj%elem_of_seqZ. rewrite mask_testbit, (proj2 (Z.ltb_ge _ _)), andb_false_r by lia. done.
Qed.

(** The count [Unmarshal] computes is the number of members. *)
Lemma words_total_count size n ws : forall i,
  n = (size + 63) / 64 -> n = i + Z.of_nat (length ws) -> 0 <= i -> 0 <= size ->
  words_total size n i ws = count_upto ws (size - 64 * i).
Proof.
  pose proof (Z.div_mod (size + 63) 64). pose proof (Z.mod_pos_bound (size + 63) 64).
  pose proof (Z.div_mod size 64). pose proof (Z.mod_pos_bound size 64).
  induction ws as [|w ws IH]; intros i Hn Hi Hpos Hs; cbn [words_total length] in *.
  - unfold count_upto. rewrite seqZ_nil by lia. done.
  - rewrite (IH (i + 1)) by lia. unfold mask_word. destruct (Z.eqb_spec i (n - 1)) as [E|E]; cbn [andb].
    + assert (ws = []) as -> by (destruct ws; [done|cbn [length] in Hi; lia]).
      assert (Hz : count_upto [] (size - 64 * (i + 1)) = 0)
        by (unfold count_upto; by rewrite seqZ_nil by lia).
      rewrite Hz, Z.add_0_r. destruct (Z.eqb_spec (size mod 64) 0) as [Em|Em]; cbn [negb].
      * replace (size - 64 * i) with (64 + 0) by lia. rewrite count_upto_cons by lia.
        unfold count_upto. rewrite seqZ_nil by lia. cbn. lia.
      * replace (size - 64 * i) with (size mod 64) by lia. symmetry. apply count_upto_last. lia.
    + replace (size - 64 * i) with (64 + (size - 64 * (i + 1))) by lia.
      by rewrite count_upto_cons by lia.
Qed.

Lemma words_total_wf size ws c :
  0 <= size -> Z.of_nat (length ws) = (size + 63) / 64 -> Forall is_u64 ws ->
  bs_wf (BS size ws c) <-> words_total size ((size + 63) / 64) 0 ws = c.
Proof.
  intros Hs Hl Hu. rewrite (words_total_count _ _ _ 0) by lia.
  replace (size - 64 * 0) with size by lia. split.
  - intros [_ _ _ Hc]. symmetry. exact Hc.
  - intros Hc. split; cbn [bs_size bs_bits bs_setCount]; auto.
Qed.

Lemma unmarshal_marshal b :
  bs_wf b -> bs_size b < 2 ^ 32 -> bs_Unmarshal (bs_Marshal b) = Ok b.
Proof.
  intros W Hsz. destruct W as [Hn Hw Hu Hc] eqn:EW. destruct b as [size ws c].
  cbn [bs_size bs_bits bs_setCount] in *.
  assert (Hcount : 0 <= c <= size).
  { rewrite Hc. unfold bit_count. cbn [bs_size].
    pose proof (length_filter (fun i => bit (BS size ws c) i = true) (seqZ 0 size)) as Hle.
    rewrite length_seqZ in Hle. lia. }
  unfold bs_Unmarshal, bs_Marshal. cbn [bs_size bs_bits bs_setCount].
  rewrite !u32_small by (unfold is_u32; lia).
  set (body := concat (map (be_split 8) ws)).
  assert (Hbody : length body = (8 * length ws)%nat).
  { subst body. clear. induction ws as [|w ws IH]; [done|]. cbn [map concat length].
    rewrite length_app, IH, length_be_split. lia. }
  rewrite !length_app, !length_be_split, Hbody.
  destruct (Nat.ltb_spec (4 + (4 + 8 * length ws)) 8); [lia|].
  assert (E32 : 256 ^ Z.of_nat 4 = 2 ^ 32) by reflexivity.
  rewrite take_app_length', be_combine_split by (rewrite ?length_be_split, ?E32; lia).
  rewrite (drop_app_length' (be_split 4 size) _ 4) by (by rewrite length_be_split).
  rewrite take_app_length', (be_combine_split 4 c) by (rewrite ?length_be_split, ?E32; lia).
  rewrite (proj2 (Z.eqb_eq _ _)) by lia. cbn [negb].
  rewrite (app_assoc (be_split 4 size)), drop_app_length'
    by (rewrite length_app, !length_be_split; lia).
  replace (Z.to_nat ((size + 63) / 64)) with (length ws) by lia.
  subst body. rewrite unmarshal_marshalled by done.
  rewrite (proj1 (words_total_wf size ws c Hn Hw Hu) W), Z.eqb_refl. done.
Qed.

Lemma SetAll_wf b : bs_wf b -> bs_wf (SetAll b).
Proof.
  intros [Hn Hw Hu _].
  assert (Hm : Forall (fun w => w = u64_max) (bs_bits (SetAll b))).
  { cbn [SetAll bs_bits]. apply Forall_map. apply Forall_true. done. }
  split; cbn [SetAll bs_size bs_bits bs_setCount] in *.
  - done.
  - by rewrite length_map.
  - eapply Forall_impl; [exact Hm|]. cbn. intros w ->. unfold is_u64, u64_max. lia.
  - unfold bit_count. cbn [SetAll bs_size]. rewrite filter_all; [rewrite length_seqZ; lia|].
    intros i Hi%elem_of_seqZ. unfold bit. cbn [SetAll bs_bits].
    pose proof (Z.mod_pos_bound i 64 eq_refl).
    assert (Hlt : (Z.to_nat (i / 64) < length (map (fun _ => u64_max) (bs_bits b)))%nat).
    { rewrite length_map. assert (i / 64 < (bs_size b + 63) / 64); [|pose proof (Z.div_pos i 64); lia].
      pose proof (Z.div_mod i 64). pose proof (Z.div_mod (bs_size b + 63) 64).
      pose proof (Z.mod_pos_bound (bs_size b + 63) 64). lia. }
    destruct (lookup_lt_is_Some_2 _ _ Hlt) as [w Hl]. rewrite Hl. cbn.
    rewrite Forall_lookup in Hm. rewrite (Hm _ _ Hl). unfold u64_max.
    replace (2 ^ 64 - 1) with (Z.ones 64) by done. rewrite Z.testbit_ones_nonneg by lia. lia.
Qed.

(** * Properties *)

(** Whatever bytes arrive, [Unmarshal] never panics and yields only
    consistent bit sets (right number of words, cached count equal to the bits
    set), so a receiver may size its buffers by the carried count; and it
    restores exactly what [Marshal] wrote, also after [SetAll]. *)
Lemma bitset_marshal (bytes : list Z) (b : Bitset) :
  Forall is_byte bytes -> bs_wf b -> bs_size b < 2 ^ 32 ->
  match bs_Unmarshal bytes with
  | Ok b' => bs_wf b' /\ bs_size b' < 2 ^ 32
  | Err e => e = ErrInvalidBsetSerialization
  | _ => False
  end /\
  bs_Unmarshal (bs_Marshal b) = Ok b /\
  bs_Unmarshal (bs_Marshal (SetAll b)) = Ok (SetAll b).
Proof.
  intros Hb W Hsz. split; [|split].
  - unfold bs_Unmarshal. destruct (Nat.ltb_spec (length bytes) 8); [done|].
    set (size := be_combine (take 4 bytes)).
    assert (Hsize : 0 <= size < 2 ^ 32).
    { pose proof (be_combine_range (take 4 bytes) (Forall_take _ _ _ Hb)) as Hr.
      rewrite length_take_le in Hr by lia. exact Hr. }
    destruct (Z.eqb_spec (Z.of_nat (length bytes)) (8 + (size + 63) / 64 * 8)) as [El|]; [|done].
    cbn [negb]. pose proof (Z.div_pos (size + 63) 64).
    destruct (unmarshal_words_spec size ((size + 63) / 64) (Z.to_nat ((size + 63) / 64)) 0 (drop 8 bytes))
      as (ws & -> & Hlen & Hu); [by apply Forall_drop|rewrite length_drop; lia|].
    destruct (Z.eqb_spec (words_total size ((size + 63) / 64) 0 ws) (be_combine (take 4 (drop 4 bytes))));
      cbn [negb]; [|done]. split; [|cbn; lia]. apply words_total_wf; [lia|lia|done|done].
  - by apply unmarshal_marshal.
  - apply unmarshal_marshal; [by apply SetAll_wf|done].
Qed.

(** * Witnesses *)

Definition wit_bitset : Bitset := BS 70 [5; 2] 3.

Lemma wit_bitset_wf : bs_wf wit_bitset.
Proof. split; [cbn; lia|reflexivity|repeat constructor; cbn; lia|vm_compute; reflexivity]. Qed.

Lemma bitset_marshal_witness :
  bs_Unmarshal (bs_Marshal wit_bitset) = Ok wit_bitset /\
  bs_Unmarshal (bs_Marshal (SetAll wit_bitset)) = Ok (SetAll wit_bitset).
Proof.
  apply (bitset_marshal [] wit_bitset (Forall_nil_2 _) wit_bitset_wf). vm_compute. reflexivity.
Defined.
