(* ===== verification/HashTree.v ===== *)
(** * usecases/replica/hashtree: the aggregated hash tree

    [hashtree.go] and [digest.go]: a complete binary tree in an array, whose
    leaves aggregate digests by XOR and whose inner nodes are recomputed lazily,
    guided by a bit per node.  The mutex makes every method atomic.  The hash
    function is a third-party parameter. *)

From S2P Require Import Prelude Bitset.

(** [github.com/spaolacci/murmur3]: [Sum128] of the bytes written since [Reset],
    two 64-bit words. *)
Class Murmur3 : Type := {
  Sum128 : list Z -> Z * Z;
  Sum128_u64 : forall bs, is_u64 (Sum128 bs).1 /\ is_u64 (Sum128 bs).2
}.

(** ** digest.go *)

Notation Digest := (Z * Z)%type.

Definition DigestLength : nat := 16.

Definition MarshalBinary (d : Digest) : list Z := be_split 8 d.1 ++ be_split 8 d.2.

Definition UnmarshalBinary (bs : list Z) : outcome ht_error Digest :=
  if negb (length bs =? DigestLength)%nat then Err ErrInvalidDigest
  else Ok (be_combine (take 8 bs), be_combine (take 8 (drop 8 bs))).

Definition DigestsToBinary (digests : list Digest) : list Z := concat (map MarshalBinary digests).

Fixpoint read_digests (n : nat) (data : list Z) : list Digest :=
  match n with
  | O => []
  | S n => (be_combine (take 8 data), be_combine (take 8 (drop 8 data)))
           :: read_digests n (drop DigestLength data)
  end.

Definition DigestsFromBinary (data : list Z) : outcome ht_error (list Digest) :=
  if negb (Z.of_nat (length data) mod 16 =? 0) then Err ErrInvalidDigest
  else Ok (read_digests (length data / DigestLength) data).

Section HashTree.
Context `{Murmur3}.

(** ** hashtree.go *)

Record HashTree : Type := HT {
  ht_height : Z;
  ht_nodes : list Digest;
  ht_syncState : Bitset;
  ht_innerNodesCount : Z
}.

Definition MaxHeight : Z := 20.

Definition NodesCount (height : Z) : Z := Z.shiftl 1 (height + 1) - 1.
Definition InnerNodesCount (height : Z) : Z := Z.shiftl 1 height - 1.
Definition LeavesCount (height : Z) : Z := Z.shiftl 1 height.
Definition nodesAtLevel (l : Z) : Z := Z.shiftl 1 l.

Definition NewHashTree (height : Z) : outcome ht_error HashTree :=
  if (height <? 0) || (MaxHeight <? height) then Err ErrIllegalArguments
  else
    let nodesCount := NodesCount height in
    Ok (HT height (replicate (Z.to_nat nodesCount) (0, 0)) (NewBitset nodesCount)
           (InnerNodesCount height)).

(** [ht.nodes[i]] *)
Definition node_at (ht : HashTree) (i : Z) : outcome ht_error Digest :=
  if i <? 0 then Panic
  else match ht_nodes ht !! Z.to_nat i with Some d => Ok d | None => Panic end.

Definition with_nodes (ht : HashTree) (nodes : list Digest) (sync : Bitset) : HashTree :=
  HT (ht_height ht) nodes sync (ht_innerNodesCount ht).

Definition AggregateLeafWith (ht : HashTree) (i : Z) (val : list Z) : outcome ht_error HashTree :=
  let '(valh1, valh2) := Sum128 val in
  let leaf := ht_innerNodesCount ht + to_int i in
  if Z.of_nat (length (ht_nodes ht)) <=? leaf then Err ErrLeafOutOfBounds
  else
    let! d := node_at ht leaf in
    let nodes := <[Z.to_nat leaf := (Z.lxor d.1 valh1, Z.lxor d.2 valh2)]> (ht_nodes ht) in
    let! sync := bs_Unset (ht_syncState ht) leaf in
    let! sync := bs_Unset sync 0 in
    Ok (with_nodes ht nodes sync).

Definition ht_Reset (ht : HashTree) : HashTree :=
  with_nodes ht (map (fun _ => (0, 0)) (ht_nodes ht)) (bs_Reset (ht_syncState ht)).

Definition syncRequired (ht : HashTree) (node : Z) : outcome ht_error bool :=
  let! s := IsSet (ht_syncState ht) node in Ok (negb s).

(** [writeDigest] of both children into one hash *)
Definition combine (l r : Digest) : Digest := Sum128 (MarshalBinary l ++ MarshalBinary r).

(** The body of the inner loop of [sync]. *)
Definition sync_node (ht : HashTree) (node : Z) : outcome ht_error HashTree :=
  let leftChild := node * 2 + 1 in
  let rightChild := node * 2 + 2 in
  let! needLeft := syncRequired ht leftChild in
  let! skip := (if negb needLeft then
                  let! needRight := syncRequired ht rightChild in Ok (negb needRight)
                else Ok false) in
  if (skip : bool) then Ok ht
  else
    let! l := node_at ht leftChild in
    let! r := node_at ht rightChild in
    let! _ := node_at ht node in
    let nodes := <[Z.to_nat node := combine l r]> (ht_nodes ht) in
    let! sync := bs_Set (ht_syncState ht) leftChild in
    let! sync := bs_Set sync rightChild in
    let! sync := bs_Unset sync node in
    Ok (with_nodes ht nodes sync).

(** [n] nodes from [node] on. *)
Fixpoint sync_nodes (n : nat) (node : Z) (ht : HashTree) : outcome ht_error HashTree :=
  match n with
  | O => Ok ht
  | S n => let! ht := sync_node ht node in sync_nodes n (node + 1) ht
  end.

(** Levels [l - 1] down to 0. *)
Fixpoint sync_levels (l : nat) (ht : HashTree) : outcome ht_error HashTree :=
  match l with
  | O => Ok ht
  | S l =>
      let level := Z.of_nat l in
      let! ht := sync_nodes (Z.to_nat (nodesAtLevel level)) (InnerNodesCount level) ht in
      sync_levels l ht
  end.

Definition ht_sync (ht : HashTree) : outcome ht_error HashTree :=
  let! need := syncRequired ht 0 in
  if negb need then Ok ht
  else
    let! ht := sync_levels (Z.to_nat (ht_height ht)) ht in
    let! sync := bs_Set (ht_syncState ht) 0 in
    Ok (with_nodes ht (ht_nodes ht) sync).

(** [Root] (and [Sync], which drops the digest) *)
Definition ht_Root (ht : HashTree) : outcome ht_error (Digest * HashTree) :=
  let! ht := ht_sync ht in
  let! d := node_at ht 0 in
  Ok (d, ht).

Definition ht_Clone (ht : HashTree) : HashTree :=
  HT (ht_height ht) (ht_nodes ht) (ht_syncState ht) (ht_innerNodesCount ht).

(** ** Structure *)

Definition ht_node (ht : HashTree) (i : Z) : Digest := default (0, 0) (ht_nodes ht !! Z.to_nat i).
Definition ht_bit (ht : HashTree) (i : Z) : bool := bit (ht_syncState ht) i.

Definition digest_u64 (d : Digest) : Prop := is_u64 d.1 /\ is_u64 d.2.

(** Shape of a tree of height [h]. *)
Record ht_shape (h : Z) (ht : HashTree) : Prop := {
  shape_height : 0 <= h <= 20 /\ ht_height ht = h;
  shape_inner : ht_innerNodesCount ht = 2 ^ h - 1;
  shape_nodes : Z.of_nat (length (ht_nodes ht)) = 2 ^ (h + 1) - 1;
  shape_bits : bs_wf (ht_syncState ht);
  shape_size : bs_size (ht_syncState ht) = 2 ^ (h + 1) - 1;
  shape_u64 : Forall digest_u64 (ht_nodes ht)
}.

Definition consistent (ht : HashTree) (n : Z) : Prop :=
  ht_node ht n = combine (ht_node ht (n * 2 + 1)) (ht_node ht (n * 2 + 2)).

(** Between two operations: a node both of whose children are in sync is up to
    date, and a root in sync means that the whole tree is. *)
Record ht_inv (h : Z) (ht : HashTree) : Prop := {
  inv_shape : ht_shape h ht;
  inv_children : forall n, 0 <= n < 2 ^ h - 1 ->
    ht_bit ht (n * 2 + 1) = true -> ht_bit ht (n * 2 + 2) = true -> consistent ht n;
  inv_root : ht_bit ht 0 = true -> forall n, 0 <= n < 2 ^ (h + 1) - 1 -> ht_bit ht n = true
}.

Lemma shift1 n : 0 <= n -> Z.shiftl 1 n = 2 ^ n.
Proof. intros Hn. rewrite Z.shiftl_mul_pow2 by done. lia. Qed.

Lemma pow2_split h : 0 <= h -> 2 ^ (h + 1) = 2 * 2 ^ h /\ 1 <= 2 ^ h.
Proof. intros Hh. rewrite Z.pow_add_r by lia. pose proof (Z.pow_pos_nonneg 2 h). lia. Qed.

Lemma node_at_ok h ht i :
  ht_shape h ht -> 0 <= i < 2 ^ (h + 1) - 1 -> node_at ht i = Ok (ht_node ht i).
Proof.
  intros S Hi. pose proof (shape_nodes _ _ S). unfold node_at, ht_node.
  destruct (Z.ltb_spec i 0); [lia|].
  destruct (lookup_lt_is_Some_2 (ht_nodes ht) (Z.to_nat i)) as [d ->]; [lia|done].
Qed.

Lemma node_u64 h ht i : ht_shape h ht -> digest_u64 (ht_node ht i).
Proof.
  intros S. unfold ht_node. destruct (ht_nodes ht !! Z.to_nat i) as [d|] eqn:E.
  - exact (proj1 (Forall_lookup _ _) (shape_u64 _ _ S) _ _ E).
  - cbn. unfold digest_u64, is_u64. cbn. lia.
Qed.

Lemma NewHashTree_inv h :
  0 <= h <= 20 -> exists ht, NewHashTree h = Ok ht /\ ht_inv h ht /\ forall i, ht_node ht i = (0, 0).
Proof.
  intros Hh. unfold NewHashTree, MaxHeight.
  destruct (Z.ltb_spec h 0); [lia|]. destruct (Z.ltb_spec 20 h); [lia|]. cbn [orb].
  destruct (pow2_split h ltac:(lia)) as [Hp Hp1].
  unfold NodesCount, InnerNodesCount. rewrite !shift1 by lia.
  destruct (NewBitset_wf (2 ^ (h + 1) - 1) ltac:(lia)) as [W Hbits].
  eexists. split; [reflexivity|]. split.
  - split.
    + split; cbn [ht_height ht_nodes ht_syncState ht_innerNodesCount]; try done.
      * rewrite length_replicate. lia.
      * apply Forall_replicate. unfold digest_u64, is_u64. cbn. lia.
    + intros n _. unfold ht_bit. cbn [ht_syncState]. by rewrite Hbits.
    + unfold ht_bit. cbn [ht_syncState]. by rewrite Hbits.
  - intros i. unfold ht_node. cbn [ht_nodes]. destruct (replicate _ _ !! _) as [d|] eqn:E; [|done].
    by apply lookup_replicate in E as [-> _].
Qed.

(** ** Recomputation *)

Lemma combine_u64 l r : digest_u64 (combine l r).
Proof. apply Sum128_u64. Qed.

Lemma ht_node_put ht n d sync i :
  (Z.to_nat n < length (ht_nodes ht))%nat -> 0 <= n -> 0 <= i ->
  ht_node (with_nodes ht (<[Z.to_nat n := d]> (ht_nodes ht)) sync) i
  = if i =? n then d else ht_node ht i.
Proof.
  intros Hl Hn Hi. unfold ht_node. cbn [with_nodes ht_nodes]. destruct (Z.eqb_spec i n) as [->|Hne].
  - by rewrite list_lookup_insert_eq.
  - by rewrite list_lookup_insert_ne by lia.
Qed.

Lemma shape_put h ht n d sync :
  ht_shape h ht -> digest_u64 d -> bs_wf sync -> bs_size sync = bs_size (ht_syncState ht) ->
  ht_shape h (with_nodes ht (<[n := d]> (ht_nodes ht)) sync).
Proof.
  intros [] Hd Hw Hs. split; cbn [with_nodes ht_height ht_nodes ht_syncState ht_innerNodesCount]; try done.
  - by rewrite length_insert.
  - congruence.
  - by apply Forall_insert.
Qed.

(** What the loop body does to node [n]: nothing, or it makes it up to date,
    marks its children and asks for its parent. *)
Definition synced_node (ht : HashTree) (n : Z) (ht' : HashTree) : Prop :=
  (ht' = ht /\ ht_bit ht (n * 2 + 1) = true /\ ht_bit ht (n * 2 + 2) = true) \/
  ((forall i, 0 <= i -> ht_node ht' i
      = if i =? n then combine (ht_node ht (n * 2 + 1)) (ht_node ht (n * 2 + 2)) else ht_node ht i) /\
   (forall i, 0 <= i -> ht_bit ht' i
      = if i =? n then false else if (i =? n * 2 + 1) || (i =? n * 2 + 2) then true else ht_bit ht i)).

Lemma sync_node_spec h ht n :
  ht_shape h ht -> 0 <= n < 2 ^ h - 1 ->
  exists ht', sync_node ht n = Ok ht' /\ ht_shape h ht' /\ synced_node ht n ht'.
Proof.
  intros S Hn. destruct (pow2_split h) as [Hp Hp1]; [apply (shape_height _ _ S)|].
  pose proof (shape_bits _ _ S) as W. pose proof (shape_size _ _ S) as Hsz.
  assert (Hbit : forall i, 0 <= i < 2 ^ (h + 1) - 1 -> syncRequired ht i = Ok (negb (ht_bit ht i))).
  { intros i Hi. unfold syncRequired. by rewrite IsSet_ok by (done || lia). }
  unfold sync_node. rewrite Hbit by lia. cbn [obind]. rewrite negb_involutive.
  set (skip := if ht_bit ht (n * 2 + 1) then _ else _).
  assert (Hskip : skip = Ok (ht_bit ht (n * 2 + 1) && ht_bit ht (n * 2 + 2))).
  { subst skip. destruct (ht_bit ht (n * 2 + 1)); [|done]. rewrite Hbit by lia. cbn.
    by rewrite negb_involutive. }
  rewrite Hskip. cbn [obind]. clear skip Hskip.
  destruct (ht_bit ht (n * 2 + 1) && ht_bit ht (n * 2 + 2)) eqn:Esk.
  { exists ht. split; [done|]. split; [done|]. left. by apply andb_true_iff in Esk. }
  rewrite !(node_at_ok h) by (done || lia). cbn [obind].
  destruct (bs_Set_ok _ (n * 2 + 1) W) as (b1 & -> & W1 & Hs1 & Hb1); [lia|]. cbn [obind].
  destruct (bs_Set_ok _ (n * 2 + 2) W1) as (b2 & -> & W2 & Hs2 & Hb2); [lia|]. cbn [obind].
  destruct (bs_Unset_ok _ n W2) as (b3 & -> & W3 & Hs3 & Hb3); [lia|]. cbn [obind].
  eexists. split; [reflexivity|]. split.
  { apply shape_put; try done; [apply combine_u64|congruence]. }
  right. split.
  - intros i Hi. apply ht_node_put; [|lia|lia]. pose proof (shape_nodes _ _ S). lia.
  - intros i Hi. unfold ht_bit. cbn [with_nodes ht_syncState]. rewrite Hb3, Hb2, Hb1 by done.
    destruct (i =? n), (i =? n * 2 + 1), (i =? n * 2 + 2); done.
Qed.

(** The state of a pass that has handled the inner nodes of [Q]. *)
Record pass (h : Z) (leaf : Z -> Digest) (Q : Z -> Prop) (ht : HashTree) : Prop := {
  pass_shape : ht_shape h ht;
  pass_done : forall n, 0 <= n < 2 ^ h - 1 -> Q n ->
    consistent ht n /\ ht_bit ht (n * 2 + 1) = true /\ ht_bit ht (n * 2 + 2) = true;
  pass_todo : forall n, 0 <= n < 2 ^ h - 1 -> ht_bit ht (n * 2 + 1) = true ->
    ht_bit ht (n * 2 + 2) = true -> consistent ht n;
  pass_leaf : forall i, 0 <= i < 2 ^ h -> ht_node ht (2 ^ h - 1 + i) = leaf i
}.

Lemma pass_step h leaf Q ht n :
  pass h leaf Q ht -> 0 <= n < 2 ^ h - 1 ->
  (forall m, 0 <= m -> Q m -> m <> n /\ m * 2 + 1 <> n /\ m * 2 + 2 <> n) ->
  exists ht', sync_node ht n = Ok ht' /\ pass h leaf (fun m => Q m \/ m = n) ht'.
Proof.
  intros [S Hdone Htodo Hleaf] Hn HQ. destruct (sync_node_spec h ht n S Hn) as (ht' & Hs & S' & Hsync).
  exists ht'. split; [done|]. destruct Hsync as [(-> & Hl & Hr)|[Hnode Hbit]].
  { split; try done. intros m Hm [HQm| ->]; [by apply Hdone|]. auto. }
  assert (Hc : consistent ht' n).
  { unfold consistent. rewrite !Hnode, Z.eqb_refl by lia.
    by rewrite !(proj2 (Z.eqb_neq _ _)) by lia. }
  assert (Hsame : forall m, 0 <= m -> m <> n -> m * 2 + 1 <> n -> m * 2 + 2 <> n ->
    consistent ht m -> consistent ht' m).
  { intros m Hm H1 H2 H3 Hcm. unfold consistent in *. rewrite !Hnode by lia.
    by rewrite !(proj2 (Z.eqb_neq _ _)) by done. }
  assert (Hkeep : forall m, 0 <= m -> m <> n -> ht_bit ht m = true -> ht_bit ht' m = true).
  { intros m Hm Hne Hb. rewrite Hbit by lia. rewrite (proj2 (Z.eqb_neq _ _) Hne), Hb.
    by destruct (_ || _). }
  split; [done| | |].
  - intros m Hm [HQm| ->].
    + destruct (HQ m) as (? & ? & ?); [lia|done|]. destruct (Hdone m Hm HQm) as (? & ? & ?).
      split; [apply Hsame; (done || lia)|]. split; apply Hkeep; (done || lia).
    + split; [done|]. rewrite !Hbit by lia. rewrite !(proj2 (Z.eqb_neq _ n)) by lia.
      by rewrite !Z.eqb_refl, orb_true_r.
  - intros m Hm Hb1 Hb2. destruct (decide (m = n)) as [->|Hne]; [done|].
    assert (H1 : m * 2 + 1 <> n).
    { intros E. rewrite Hbit, (proj2 (Z.eqb_eq _ _) E) in Hb1 by lia. done. }
    assert (H2 : m * 2 + 2 <> n).
    { intros E. rewrite Hbit, (proj2 (Z.eqb_eq _ _) E) in Hb2 by lia. done. }
    apply Hsame; try done; [lia|]. apply Htodo; [done| |].
    + rewrite Hbit in Hb1 by lia. rewrite !(proj2 (Z.eqb_neq _ _)) in Hb1 by lia. done.
    + rewrite Hbit in Hb2 by lia. rewrite !(proj2 (Z.eqb_neq _ _)) in Hb2 by lia. done.
  - intros i Hi. rewrite Hnode, (proj2 (Z.eqb_neq _ _)) by lia. by apply Hleaf.
Qed.

Lemma pass_ext h leaf (Q Q' : Z -> Prop) ht :
  (forall n, 0 <= n < 2 ^ h - 1 -> Q' n -> Q n) -> pass h leaf Q ht -> pass h leaf Q' ht.
Proof. intros HQ []. split; auto. Qed.

(** One level, from its node [2 ^ l - 1 + k] on. *)
Lemma pass_nodes h leaf l n : forall k ht,
  0 <= l < h -> 0 <= k -> k + Z.of_nat n = 2 ^ l ->
  pass h leaf (fun m => 2 ^ l - 1 <= m < 2 ^ l - 1 + k \/ 2 ^ (l + 1) - 1 <= m) ht ->
  exists ht', sync_nodes n (2 ^ l - 1 + k) ht = Ok ht' /\ pass h leaf (fun m => 2 ^ l - 1 <= m) ht'.
Proof.
  induction n as [|n IH]; intros k ht Hl Hk Hn HP; cbn [sync_nodes];
    destruct (pow2_split l ltac:(lia)) as [Hp Hp1].
  - exists ht. split; [done|]. eapply pass_ext; [|exact HP]. cbn. intros m Hm ?. lia.
  - assert (Hh : 2 ^ (l + 1) <= 2 ^ h) by (apply Z.pow_le_mono_r; lia).
    destruct (pass_step _ _ _ _ (2 ^ l - 1 + k) HP) as (ht1 & -> & HP1); [lia| |].
    + intros m Hm HQ. lia.
    + cbn [obind]. replace (2 ^ l - 1 + k + 1) with (2 ^ l - 1 + (k + 1)) by lia.
      apply IH; try lia. eapply pass_ext; [|exact HP1]. cbn. intros m Hm ?. lia.
Qed.

Lemma pass_levels h leaf (l : nat) : forall ht,
  Z.of_nat l <= h -> pass h leaf (fun m => 2 ^ Z.of_nat l - 1 <= m) ht ->
  exists ht', sync_levels l ht = Ok ht' /\ pass h leaf (fun _ => True) ht'.
Proof.
  induction l as [|l IH]; intros ht Hl HP; cbn [sync_levels].
  - exists ht. split; [done|]. eapply pass_ext; [|exact HP]. cbn. lia.
  - unfold nodesAtLevel, InnerNodesCount. rewrite !shift1 by lia.
    destruct (pass_nodes h leaf (Z.of_nat l) (Z.to_nat (2 ^ Z.of_nat l)) 0 ht) as (ht1 & E & HP1);
      [lia|lia|pose proof (Z.pow_pos_nonneg 2 (Z.of_nat l)); lia| |].
    + eapply pass_ext; [|exact HP]. cbn. intros m Hm ?.
      replace (Z.of_nat (S l)) with (Z.of_nat l + 1) by lia. lia.
    + rewrite Z.add_0_r in E. rewrite E. cbn [obind]. apply IH; [lia|done].
Qed.

(** Every node of level [l] has a bit whose parent was handled. *)
Lemma child_of_inner h n :
  0 <= h -> 0 < n < 2 ^ (h + 1) - 1 ->
  exists m, 0 <= m < 2 ^ h - 1 /\ (n = m * 2 + 1 \/ n = m * 2 + 2).
Proof.
  intros Hh Hn. destruct (pow2_split h Hh) as [Hp _]. exists ((n - 1) / 2).
  pose proof (Z.div_mod (n - 1) 2). pose proof (Z.mod_pos_bound (n - 1) 2). lia.
Qed.

(** A tree in sync with the leaves [leaf]. *)
Record ht_synced (h : Z) (leaf : Z -> Digest) (ht : HashTree) : Prop := {
  synced_inv : ht_inv h ht;
  synced_root : ht_bit ht 0 = true;
  synced_nodes : forall n, 0 <= n < 2 ^ h - 1 -> consistent ht n;
  synced_leaf : forall i, 0 <= i < 2 ^ h -> ht_node ht (2 ^ h - 1 + i) = leaf i
}.

Definition ht_leaf (h : Z) (ht : HashTree) (i : Z) : Digest := ht_node ht (2 ^ h - 1 + i).

Lemma ht_sync_spec h ht :
  ht_inv h ht -> exists ht', ht_sync ht = Ok ht' /\ ht_synced h (ht_leaf h ht) ht'.
Proof.
  intros [S Hch Hroot]. destruct (shape_height _ _ S) as [Hh Hhh].
  destruct (pow2_split h ltac:(lia)) as [Hp Hp1].
  pose proof (shape_bits _ _ S) as W. pose proof (shape_size _ _ S) as Hsz.
  unfold ht_sync, syncRequired. rewrite IsSet_ok by (done || lia). cbn [obind].
  rewrite negb_involutive. fold (ht_bit ht 0). destruct (ht_bit ht 0) eqn:E0.
  { exists ht. split; [done|]. specialize (Hroot eq_refl). split; try done.
    intros n Hn. apply Hch; [done|apply Hroot; lia|apply Hroot; lia]. }
  destruct (pass_levels h (ht_leaf h ht) (Z.to_nat (ht_height ht)) ht) as (ht1 & -> & HP); [lia| |].
  { rewrite Hhh, Z2Nat.id by lia. split; try done. intros n Hn HQ. lia. }
  destruct HP as [S1 Hdone Htodo Hleaf]. cbn [obind].
  destruct (bs_Set_ok _ 0 (shape_bits _ _ S1)) as (b & -> & Wb & Hsb & Hb).
  { rewrite (shape_size _ _ S1). lia. }
  cbn [obind]. eexists. split; [reflexivity|].
  set (ht' := with_nodes _ _ _).
  assert (Hbit : forall n, 0 <= n < 2 ^ (h + 1) - 1 -> ht_bit ht' n = true).
  { intros n Hn. unfold ht_bit, ht'. cbn [with_nodes ht_syncState]. rewrite Hb by lia.
    destruct (Z.eqb_spec n 0); [done|].
    destruct (child_of_inner h n ltac:(lia) ltac:(lia)) as (m & Hm & [-> | ->]);
      by destruct (Hdone m Hm I) as (? & ? & ?). }
  assert (Hcons : forall n, 0 <= n < 2 ^ h - 1 -> consistent ht' n).
  { intros n Hn. destruct (Hdone n Hn I) as [Hc _]. exact Hc. }
  split; [|apply Hbit; lia|done|exact Hleaf].
  split; [|auto|auto]. destruct S1. split; try done. cbn [with_nodes ht' ht_syncState]. congruence.
Qed.

(** ** The reference tree *)

(** The digest [d] levels above the leaves, at position [i] of its level. *)
Fixpoint merkle (leaf : Z -> Digest) (d : nat) (i : Z) : Digest :=
  match d with
  | O => leaf i
  | S d => combine (merkle leaf d (2 * i)) (merkle leaf d (2 * i + 1))
  end.

Lemma merkle_ext leaf leaf' d : forall i,
  (forall j, i * 2 ^ Z.of_nat d <= j < (i + 1) * 2 ^ Z.of_nat d -> leaf j = leaf' j) ->
  merkle leaf d i = merkle leaf' d i.
Proof.
  induction d as [|d IH]; intros i Hl; cbn [merkle]; [apply Hl; cbn; lia|].
  rewrite Nat2Z.inj_succ, Z.pow_succ_r in Hl by lia.
  f_equal; apply IH; intros j Hj; apply Hl; nia.
Qed.

(** In a tree in sync, node [i] of level [l] is the reference digest. *)
Lemma synced_merkle h leaf ht (d : nat) : forall l i,
  ht_synced h leaf ht -> 0 <= l -> l + Z.of_nat d = h -> 0 <= i < 2 ^ l ->
  ht_node ht (2 ^ l - 1 + i) = merkle leaf d i.
Proof.
  induction d as [|d IH]; intros l i Hs Hl Hd Hi; cbn [merkle].
  - replace l with h in * by lia. by apply (synced_leaf _ _ _ Hs).
  - destruct (pow2_split l Hl) as [Hp _].
    assert (Hlt : 2 ^ (l + 1) <= 2 ^ h) by (apply Z.pow_le_mono_r; lia).
    pose proof (synced_nodes _ _ _ Hs (2 ^ l - 1 + i) ltac:(lia)) as Hc. unfold consistent in Hc.
    rewrite Hc. f_equal.
    + rewrite <- (IH (l + 1) (2 * i)) by (done || lia). f_equal. lia.
    + rewrite <- (IH (l + 1) (2 * i + 1)) by (done || lia). f_equal. lia.
Qed.

Lemma ht_Root_spec h ht :
  ht_inv h ht ->
  exists ht', ht_Root ht = Ok (merkle (ht_leaf h ht) (Z.to_nat h) 0, ht') /\
    ht_synced h (ht_leaf h ht) ht'.
Proof.
  intros Hi. destruct (ht_sync_spec h ht Hi) as (ht' & Hs & Hsync). exists ht'. unfold ht_Root.
  rewrite Hs. cbn [obind]. pose proof (inv_shape _ _ (synced_inv _ _ _ Hsync)) as S.
  destruct (shape_height _ _ S) as [Hh _]. destruct (pow2_split h ltac:(lia)) as [Hp Hp1].
  rewrite (node_at_ok h) by (done || lia). cbn [obind].
  rewrite <- (synced_merkle h (ht_leaf h ht) ht' (Z.to_nat h) 0 0 Hsync) by lia. done.
Qed.

(** ** Aggregation *)

Definition xor_digest (d e : Digest) : Digest := (Z.lxor d.1 e.1, Z.lxor d.2 e.2).

Lemma xor_u64 a b : is_u64 a -> is_u64 b -> is_u64 (Z.lxor a b).
Proof.
  intros Ha Hb. apply u64_bits.
  - intros j Hj. by rewrite Z.lxor_spec, !u64_testbit_high by done.
  - apply Z.lxor_nonneg. destruct Ha, Hb. done.
Qed.

Lemma Aggregate_spec h ht i val :
  ht_inv h ht -> 0 <= i < 2 ^ h ->
  exists ht', AggregateLeafWith ht i val = Ok ht' /\ ht_inv h ht' /\
    forall j, 0 <= j < 2 ^ h -> ht_leaf h ht' j
      = if j =? i then xor_digest (ht_leaf h ht i) (Sum128 val) else ht_leaf h ht j.
Proof.
  intros [S Hch Hroot] Hi. destruct (shape_height _ _ S) as [Hh Hhh].
  destruct (pow2_split h ltac:(lia)) as [Hp Hp1].
  assert (H20 : 2 ^ h <= 2 ^ 20) by (apply Z.pow_le_mono_r; lia).
  pose proof (shape_bits _ _ S) as W. pose proof (shape_size _ _ S) as Hsz.
  pose proof (shape_nodes _ _ S) as Hlen.
  unfold AggregateLeafWith. destruct (Sum128 val) as [v1 v2] eqn:Ev.
  unfold to_int. destruct (Z.ltb_spec i (2 ^ 63)); [|lia]. rewrite (shape_inner _ _ S).
  destruct (Z.leb_spec (Z.of_nat (length (ht_nodes ht))) (2 ^ h - 1 + i)); [lia|].
  rewrite (node_at_ok h) by (done || lia). cbn [obind].
  destruct (bs_Unset_ok _ (2 ^ h - 1 + i) W) as (b1 & -> & W1 & Hs1 & Hb1); [lia|]. cbn [obind].
  destruct (bs_Unset_ok _ 0 W1) as (b2 & -> & W2 & Hs2 & Hb2); [lia|]. cbn [obind].
  eexists. split; [reflexivity|]. set (d := (Z.lxor _ _, _)).
  assert (Hd : digest_u64 d).
  { pose proof (Sum128_u64 val) as Hv. rewrite Ev in Hv. destruct (node_u64 h ht (2 ^ h - 1 + i) S).
    split; apply xor_u64; tauto. }
  assert (Hnode : forall sync j, 0 <= j ->
    ht_node (with_nodes ht (<[Z.to_nat (2 ^ h - 1 + i) := d]> (ht_nodes ht)) sync) j
    = if j =? 2 ^ h - 1 + i then d else ht_node ht j) by (intros; apply ht_node_put; lia).
  split.
  - split; [apply shape_put; try done; congruence| |].
    + intros n Hn Hl Hr. unfold ht_bit in Hl, Hr. cbn [with_nodes ht_syncState] in Hl, Hr.
      rewrite Hb2, Hb1, (proj2 (Z.eqb_neq _ 0)) in Hl by lia.
      rewrite Hb2, Hb1, (proj2 (Z.eqb_neq _ 0)) in Hr by lia.
      unfold consistent. rewrite !Hnode by lia. rewrite (proj2 (Z.eqb_neq n _)) by lia.
      destruct (n * 2 + 1 =? 2 ^ h - 1 + i); [done|]. destruct (n * 2 + 2 =? 2 ^ h - 1 + i); [done|].
      by apply Hch.
    + unfold ht_bit. cbn [with_nodes ht_syncState]. rewrite Hb2, Z.eqb_refl by lia. done.
  - intros j Hj. unfold ht_leaf. rewrite Hnode by lia. subst d.
    destruct (Z.eqb_spec j i) as [->|Hne]; [by rewrite Z.eqb_refl|].
    by rewrite (proj2 (Z.eqb_neq _ _)) by lia.
Qed.

Lemma Aggregate_out_of_range h ht i val :
  ht_shape h ht -> 2 ^ h <= i < 2 ^ 63 -> AggregateLeafWith ht i val = Err ErrLeafOutOfBounds.
Proof.
  intros S Hi. destruct (shape_height _ _ S) as [Hh _]. destruct (pow2_split h ltac:(lia)) as [Hp _].
  pose proof (shape_nodes _ _ S). unfold AggregateLeafWith. destruct (Sum128 val) as [v1 v2].
  unfold to_int. destruct (Z.ltb_spec i (2 ^ 63)); [|lia]. rewrite (shape_inner _ _ S).
  by destruct (Z.leb_spec (Z.of_nat (length (ht_nodes ht))) (2 ^ h - 1 + i)); [|lia].
Qed.

Lemma ht_Reset_inv h ht : ht_inv h ht -> ht_inv h (ht_Reset ht) /\ forall i, ht_node (ht_Reset ht) i = (0, 0).
Proof.
  intros [S _ _]. destruct (bs_Reset_wf _ (shape_bits _ _ S)) as (W & Hs & Hb). split.
  - split.
    + destruct S. split; cbn [ht_Reset with_nodes ht_height ht_nodes ht_syncState ht_innerNodesCount]; try done.
      * by rewrite length_map.
      * apply List.Forall_map, Forall_true. intros _. unfold digest_u64, is_u64. cbn. lia.
    + intros n _. unfold ht_bit. cbn [ht_Reset with_nodes ht_syncState]. by rewrite Hb.
    + unfold ht_bit. cbn [ht_Reset with_nodes ht_syncState]. by rewrite Hb.
  - intros i. unfold ht_node. cbn [ht_Reset with_nodes ht_nodes]. change (map ?f ?l) with (f <$> l).
    rewrite list_lookup_fmap. by destruct (ht_nodes ht !! _).
Qed.

(** ** Histories *)

Inductive ht_op : Type :=
| OpAggregate (i : Z) (val : list Z)
| OpSync
| OpReset.

(** A refused aggregation leaves the tree alone. *)
Definition ht_step (ht : HashTree) (op : ht_op) : outcome ht_error HashTree :=
  match op with
  | OpAggregate i val =>
      match AggregateLeafWith ht i val with Err _ => Ok ht | o => o end
  | OpSync => ht_sync ht
  | OpReset => Ok (ht_Reset ht)
  end.

Fixpoint ht_run (ops : list ht_op) (ht : HashTree) : outcome ht_error HashTree :=
  match ops with
  | [] => Ok ht
  | op :: ops => let! ht := ht_step ht op in ht_run ops ht
  end.

(** The root of a new tree of height [h] after [ops]. *)
Definition root_after (h : Z) (ops : list ht_op) : outcome ht_error Digest :=
  let! ht := NewHashTree h in
  let! ht := ht_run ops ht in
  let! (d, _) := ht_Root ht in
  Ok d.

(** The values aggregated since the last reset. *)
Definition live (acc : list (Z * list Z)) (ops : list ht_op) : list (Z * list Z) :=
  foldl (fun acc op => match op with
                       | OpAggregate i val => acc ++ [(i, val)]
                       | OpSync => acc
                       | OpReset => []
                       end) acc ops.

Definition leaf_of (vals : list (Z * list Z)) (i : Z) : Digest :=
  foldr xor_digest (0, 0) (map (fun p => Sum128 p.2) (filter (fun p => p.1 = i) vals)).

Lemma xor_digest_assoc a b c : xor_digest (xor_digest a b) c = xor_digest a (xor_digest b c).
Proof. unfold xor_digest. cbn. by rewrite !Z.lxor_assoc. Qed.

Lemma xor_digest_comm a b : xor_digest a b = xor_digest b a.
Proof. unfold xor_digest. by rewrite (Z.lxor_comm a.1), (Z.lxor_comm a.2). Qed.

Lemma leaf_of_snoc vals i val j :
  leaf_of (vals ++ [(i, val)]) j
  = if j =? i then xor_digest (leaf_of vals j) (Sum128 val) else leaf_of vals j.
Proof.
  unfold leaf_of. rewrite filter_app, map_app, foldr_app, filter_cons, filter_nil. cbn [fst snd].
  destruct (Z.eqb_spec j i) as [->|Hne]; [rewrite decide_True by done|by rewrite decide_False by done].
  cbn [map foldr snd]. generalize (map (fun p => Sum128 p.2) (filter (fun p => p.1 = i) vals)).
  induction l as [|d l IH]; cbn [foldr].
  - rewrite xor_digest_comm. done.
  - by rewrite IH, xor_digest_assoc.
Qed.

Lemma leaf_of_perm vals vals' i : vals ≡ₚ vals' -> leaf_of vals i = leaf_of vals' i.
Proof.
  intros Hp. unfold leaf_of.
  assert (Hp' : map (fun p => Sum128 p.2) (filter (fun p => p.1 = i) vals)
    ≡ₚ map (fun p => Sum128 p.2) (filter (fun p => p.1 = i) vals'))
    by (change (map ?f ?l) with (f <$> l); by rewrite Hp).
  induction Hp' as [|d l l' _ IH|d e l|l1 l2 l3 _ IH1 _ IH2]; cbn [foldr]; try congruence.
  by rewrite <- !xor_digest_assoc, (xor_digest_comm d).
Qed.

Definition op_index_ok (op : ht_op) : Prop :=
  match op with OpAggregate i _ => 0 <= i < 2 ^ 63 | _ => True end.

Lemma ht_run_spec h ops : forall ht vals,
  ht_inv h ht -> Forall op_index_ok ops ->
  (forall j, 0 <= j < 2 ^ h -> ht_leaf h ht j = leaf_of vals j) ->
  exists ht', ht_run ops ht = Ok ht' /\ ht_inv h ht' /\
    forall j, 0 <= j < 2 ^ h -> ht_leaf h ht' j = leaf_of (live vals ops) j.
Proof.
  induction ops as [|op ops IH]; intros ht vals Hi Hok Hl; cbn [ht_run live foldl]; [eauto|].
  inversion_clear Hok as [|? ? Hop Hok']. destruct op as [i val| |]; cbn [ht_step].
  - cbn in Hop. destruct (Z_lt_le_dec i (2 ^ h)) as [Hlt|Hge].
    + destruct (Aggregate_spec h ht i val Hi ltac:(lia)) as (ht1 & -> & Hi1 & Hl1). cbn [obind].
      apply IH; [done|done|]. intros j Hj. rewrite Hl1, leaf_of_snoc by done.
      destruct (Z.eqb_spec j i) as [->|]; by rewrite Hl.
    + rewrite (Aggregate_out_of_range h) by (apply Hi || lia). cbn [obind]. apply IH; [done|done|].
      intros j Hj. rewrite leaf_of_snoc, (proj2 (Z.eqb_neq _ _)) by lia. auto.
  - destruct (ht_sync_spec h ht Hi) as (ht1 & -> & Hs). cbn [obind]. apply IH; [apply Hs|done|].
    intros j Hj. rewrite <- Hl by done. by apply (synced_leaf _ _ _ Hs).
  - destruct (ht_Reset_inv h ht Hi) as [Hi1 H0]. cbn [obind]. apply IH; [done|done|].
    intros j Hj. apply H0.
Qed.

Lemma root_after_spec h ops :
  0 <= h <= 20 -> Forall op_index_ok ops ->
  root_after h ops = Ok (merkle (leaf_of (live [] ops)) (Z.to_nat h) 0).
Proof.
  intros Hh Hok. unfold root_after. destruct (NewHashTree_inv h Hh) as (ht0 & -> & Hi0 & H0).
  cbn [obind]. destruct (ht_run_spec h ops ht0 [] Hi0 Hok) as (ht & -> & Hi & Hl); [intros; apply H0|].
  cbn [obind]. destruct (ht_Root_spec h ht Hi) as (ht' & -> & _). cbn [obind]. f_equal.
  apply merkle_ext. rewrite Z2Nat.id by lia. intros j Hj. apply Hl. lia.
Qed.

(** * Properties *)

(** The lazily maintained root is the Merkle root of the aggregated content.
    After any history of aggregations (in any order, with syncs and refused
    leaves in between, since the last reset), [Root] is the hash tree over the
    XOR of the values' digests per leaf; two replicas that aggregated the same
    values in different orders therefore agree. *)
Lemma root_of_content (h : Z) (ops1 ops2 : list ht_op) :
  0 <= h <= 20 -> Forall op_index_ok ops1 -> Forall op_index_ok ops2 ->
  live [] ops1 ≡ₚ live [] ops2 ->
  root_after h ops1 = Ok (merkle (leaf_of (live [] ops1)) (Z.to_nat h) 0) /\
  root_after h ops2 = root_after h ops1.
Proof.
  intros Hh Hok1 Hok2 Hp. rewrite !root_after_spec by done. split; [done|]. f_equal.
  apply merkle_ext. intros j _. symmetry. by apply leaf_of_perm.
Qed.
End HashTree.

(** * Witnesses *)

(** A toy hash: the sum of the bytes and their number. *)
Definition toy_hash (bs : list Z) : Z * Z := (u64 (foldr Z.add 0 bs), u64 (Z.of_nat (length bs))).

Lemma toy_hash_u64 bs : is_u64 (toy_hash bs).1 /\ is_u64 (toy_hash bs).2.
Proof. split; apply u64_range. Qed.

#[export] Instance toy_murmur : Murmur3 := {| Sum128 := toy_hash; Sum128_u64 := toy_hash_u64 |}.

Definition wit_history : list ht_op := [OpAggregate 1 [7]; OpSync; OpAggregate 3 [1; 2]; OpAggregate 9 [5]].
Definition wit_history' : list ht_op := [OpAggregate 2 [3]; OpReset; OpAggregate 3 [1; 2];
  OpAggregate 9 [5]; OpSync; OpAggregate 1 [7]; OpSync].

Lemma root_of_content_witness : root_after 2 wit_history' = root_after 2 wit_history.
Proof.
  apply (root_of_content 2 wit_history wit_history'); [lia| | |].
  - repeat constructor; cbn; lia.
  - repeat constructor; cbn; lia.
  - cbn. apply (Permutation_cons_append [(3, [1; 2]); (9, [5])] (1, [7])).
Defined.
