(* ===== verification/HashTreeDiff.v ===== *)
(** * usecases/replica/hashtree: comparing two trees

    [Level] ([hashtree.go]), [LevelDiff] ([aggregated_hashtree.go]), [Diff]
    ([hashtree_diff.go]) and the range reader over a difference
    ([hashtree_range_reader.go]). *)

From S2P Require Import Prelude Bitset HashTree.

Section Diff.
Context `{Murmur3}.

(** ** Level *)

(** The loop from node [i] on, [n] nodes to go, [out] written so far into a
    buffer of length [cap]. *)
Fixpoint level_loop (ht : HashTree) (offset : Z) (discriminant : Bitset) (cap : Z) (n : nat) (i : Z)
    (out : list Digest) : outcome ht_error (list Digest) :=
  match n with
  | O => Ok out
  | S n =>
      let! set := IsSet discriminant i in
      if (set : bool) then
        if Z.of_nat (length out) =? cap then Err ErrIllegalArguments
        else
          let! d := node_at ht (offset + i) in
          level_loop ht offset discriminant cap n (i + 1) (out ++ [d])
      else level_loop ht offset discriminant cap n (i + 1) out
  end.

(** Returns the digests written and the tree, which it brings in sync. *)
Definition Level (ht : HashTree) (level : Z) (discriminant : option Bitset) (cap : Z)
  : outcome ht_error (list Digest * HashTree) :=
  if level <? 0 then Err ErrIllegalArguments
  else if ht_height ht <? level then Err ErrIllegalState
  else match discriminant with
  | None => Err ErrIllegalArguments
  | Some discriminant =>
      let expectedSize := nodesAtLevel level in
      if negb (bs_size discriminant =? expectedSize) then Err ErrIllegalArguments
      else if cap <? SetCount discriminant then Err ErrIllegalArguments
      else
        let! ht := ht_sync ht in
        let! out := level_loop ht (InnerNodesCount level) discriminant cap
                               (Z.to_nat expectedSize) 0 [] in
        Ok (out, ht)
  end.

(** ** LevelDiff *)

(** [discriminant], [nextDiscriminant] and [levelDiffCount]. *)
Record level_diff : Type := LD { ld_discr : Bitset; ld_next : option Bitset; ld_count : Z }.

Definition set_children (next : option Bitset) (j : Z) : outcome ht_error (option Bitset) :=
  match next with
  | None => Ok None
  | Some b => let! b := bs_Set b (2 * j) in let! b := bs_Set b (2 * j + 1) in Ok (Some b)
  end.

(** The loop at node [j], with [n] nodes to go and [k] digests consumed. *)
Fixpoint diff_nodes (digests1 digests2 : list Digest) (n : nat) (j : Z) (k : nat) (ld : level_diff)
  : outcome ht_error level_diff :=
  match n with
  | O => Ok ld
  | S n =>
      let! set := IsSet (ld_discr ld) j in
      if negb set then diff_nodes digests1 digests2 n (j + 1) k ld
      else match digests1 !! k, digests2 !! k with
           | Some d1, Some d2 =>
               if decide (d1 = d2) then
                 let! discr := bs_Unset (ld_discr ld) j in
                 diff_nodes digests1 digests2 n (j + 1) (S k) (LD discr (ld_next ld) (ld_count ld))
               else
                 let! next := set_children (ld_next ld) j in
                 diff_nodes digests1 digests2 n (j + 1) (S k) (LD (ld_discr ld) next (ld_count ld + 1))
           | _, _ => Err ErrIllegalArguments
           end
  end.

Definition LevelDiff (l height : Z) (discriminant : option Bitset) (digests1 digests2 : list Digest)
  : outcome ht_error level_diff :=
  if l <? 0 then Err ErrIllegalArguments
  else if height <? l then Err ErrIllegalState
  else match discriminant with
  | None => Err ErrIllegalArguments
  | Some discriminant =>
      if negb (bs_size discriminant =? nodesAtLevel l) then Err ErrIllegalArguments
      else
        let setCount := SetCount discriminant in
        if (Z.of_nat (length digests1) <? setCount) || (Z.of_nat (length digests2) <? setCount)
        then Err ErrIllegalArguments
        else
          let next := if l <? height then Some (NewBitset (nodesAtLevel (l + 1))) else None in
          diff_nodes digests1 digests2 (Z.to_nat (bs_size discriminant)) 0 0 (LD discriminant next 0)
  end.

(** ** Diff *)

Fixpoint diff_loop (fuel : nat) (height l : Z) (walk : Bitset) (ht ht2 : HashTree)
  : outcome ht_error (Bitset * HashTree * HashTree) :=
  match fuel with
  | O => Ok (NewBitset (LeavesCount height), ht, ht2)
  | S fuel =>
      let need := SetCount walk in
      let! (digests1, ht) := Level ht l (Some walk) need in
      if negb (Z.of_nat (length digests1) =? need) then Err ErrIllegalState
      else
        let! (digests2, ht2) := Level ht2 l (Some walk) need in
        if negb (Z.of_nat (length digests2) =? need) then Err ErrIllegalState
        else
          let! ld := LevelDiff l height (Some walk) digests1 digests2 in
          if l =? height then Ok (ld_discr ld, ht, ht2)
          else if ld_count ld =? 0 then Ok (NewBitset (LeavesCount height), ht, ht2)
          else match ld_next ld with
               | None => Panic
               | Some next => diff_loop fuel height (l + 1) next ht ht2
               end
  end.

(** [ht2] is [None] for a nil interface or another implementation. *)
Definition ht_Diff (ht : HashTree) (ht2 : option HashTree)
  : outcome ht_error (Bitset * HashTree * HashTree) :=
  match ht2 with
  | None => Err ErrIllegalArguments
  | Some ht2 =>
      let height := ht_height ht in
      if negb (height =? ht_height ht2) then Err ErrIllegalArguments
      else
        let! walk := bs_Set (NewBitset 1) 0 in
        diff_loop (Z.to_nat (height + 1)) height 0 walk ht ht2
  end.

(** ** The range reader *)

Record HashTreeDiffReader : Type := DiffReader { dr_discriminant : Bitset; dr_pos : Z }.

Definition NewRangeReader (ht : HashTree) (discriminant : option Bitset)
  : outcome ht_error HashTreeDiffReader :=
  match discriminant with
  | None => Err ErrIllegalArguments
  | Some d => if negb (bs_size d =? LeavesCount (ht_height ht)) then Err ErrIllegalArguments
              else Ok (DiffReader d 0)
  end.

(** [for ; pos < size && IsSet(pos) == v; pos++ {}], with enough fuel for the
    positions left. *)
Fixpoint scan (v : bool) (d : Bitset) (fuel : nat) (pos : Z) : outcome ht_error Z :=
  match fuel with
  | O => Ok pos
  | S fuel =>
      if bs_size d <=? pos then Ok pos
      else let! s := IsSet d pos in
           if Bool.eqb s v then scan v d fuel (pos + 1) else Ok pos
  end.

Definition dr_Next (r : HashTreeDiffReader) : outcome ht_error (Z * Z * HashTreeDiffReader) :=
  let d := dr_discriminant r in
  let fuel := Z.to_nat (bs_size d - dr_pos r) in
  let! pos := scan false d fuel (dr_pos r) in
  if pos =? bs_size d then Err ErrNoMoreRanges
  else
    let! pos1 := scan true d fuel pos in
    Ok (pos, pos1 - 1, DiffReader d pos1).

(** ** Level returns the selected digests *)

Lemma level_loop_spec h ht offset discr cap n : forall i out,
  ht_shape h ht -> bs_wf discr -> 0 <= i -> i + Z.of_nat n = bs_size discr ->
  0 <= offset -> offset + bs_size discr <= 2 ^ (h + 1) - 1 ->
  Z.of_nat (length out) + Z.of_nat (length (filter (fun j => bit discr j = true) (seqZ i (Z.of_nat n)))) <= cap ->
  level_loop ht offset discr cap n i out
  = Ok (out ++ map (fun j => ht_node ht (offset + j))
                   (filter (fun j => bit discr j = true) (seqZ i (Z.of_nat n)))).
Proof.
  induction n as [|n IH]; intros i out S W Hi Hn Ho Hsz Hcap; cbn [level_loop].
  - by rewrite seqZ_nil, app_nil_r by lia.
  - rewrite IsSet_ok by (done || lia). cbn [obind].
    rewrite seqZ_cons in Hcap |- * by lia. rewrite filter_cons in Hcap |- *.
    replace (Z.succ i) with (i + 1) in * by lia.
    replace (Z.pred (Z.of_nat (Datatypes.S n))) with (Z.of_nat n) in * by lia.
    destruct (bit discr i) eqn:Eb.
    + rewrite decide_True in Hcap |- * by done. cbn [length map] in *.
      rewrite (proj2 (Z.eqb_neq _ _)) by lia. rewrite (node_at_ok h) by (done || lia). cbn [obind].
      rewrite IH by (done || lia || (rewrite length_app; cbn [length]; lia)).
      by rewrite <- app_assoc.
    + rewrite decide_False in Hcap |- * by done. apply IH; (done || lia).
Qed.

(** Positions of the members of a bit set. *)
Definition members (b : Bitset) : list Z := filter (fun j => bit b j = true) (seqZ 0 (bs_size b)).

Lemma Level_spec h ht l walk :
  ht_inv h ht -> bs_wf walk -> 0 <= l <= h -> bs_size walk = 2 ^ l ->
  exists ht', Level ht l (Some walk) (SetCount walk)
    = Ok (map (fun j => merkle (ht_leaf h ht) (Z.to_nat (h - l)) j) (members walk), ht') /\
    ht_synced h (ht_leaf h ht) ht'.
Proof.
  intros Hi W Hl Hsz. pose proof (inv_shape _ _ Hi) as S. destruct (shape_height _ _ S) as [Hh Hhh].
  unfold Level. rewrite Hhh. destruct (Z.ltb_spec l 0); [lia|]. destruct (Z.ltb_spec h l); [lia|].
  unfold nodesAtLevel, InnerNodesCount. rewrite !shift1, Hsz, Z.eqb_refl by lia. cbn [negb].
  rewrite Z.ltb_irrefl. destruct (ht_sync_spec h ht Hi) as (ht' & -> & Hs). cbn [obind].
  exists ht'. destruct (pow2_split l ltac:(lia)) as [Hp Hp1].
  assert (Hle : 2 ^ (l + 1) <= 2 ^ (h + 1)) by (apply Z.pow_le_mono_r; lia).
  rewrite (level_loop_spec h).
  - cbn [obind app]. split; [|done]. f_equal. f_equal. rewrite Z2Nat.id by lia.
    unfold members. rewrite Hsz. apply map_ext_in. intros j Hj.
    apply list_elem_of_In, list_elem_of_filter in Hj as [_ Hj%elem_of_seqZ].
    apply (synced_merkle h); (done || lia).
  - apply Hs.
  - done.
  - lia.
  - lia.
  - lia.
  - lia.
  - rewrite Z2Nat.id by lia. unfold SetCount. rewrite (bs_count _ W). unfold bit_count.
    rewrite Hsz. cbn [length]. lia.
Qed.

(** ** LevelDiff keeps the differing nodes and selects their children *)

Section Level.
Context (f1 f2 : Z -> Digest).

Definition differ (i : Z) : bool := bool_decide (f1 i <> f2 i).

(** The next discriminant after the nodes in [[j, size)] of [discr]. *)
Definition next_spec (j : Z) (discr : Bitset) (next next' : option Bitset) : Prop :=
  match next with
  | None => next' = None
  | Some b => exists b', next' = Some b' /\ bs_wf b' /\ bs_size b' = bs_size b /\
      forall i, 0 <= i -> bit b' i
        = bit b i || ((j <=? i / 2) && (i / 2 <? bs_size discr) && bit discr (i / 2) && differ (i / 2))
  end.

Record level_diff_spec (j : Z) (n : nat) (ld ld' : level_diff) : Prop := {
  lds_wf : bs_wf (ld_discr ld');
  lds_size : bs_size (ld_discr ld') = bs_size (ld_discr ld);
  lds_bits : forall i, 0 <= i < bs_size (ld_discr ld) ->
    bit (ld_discr ld') i = bit (ld_discr ld) i && ((i <? j) || differ i);
  lds_count : ld_count ld' = ld_count ld
    + Z.of_nat (length (filter (fun i => bit (ld_discr ld) i && differ i = true) (seqZ j (Z.of_nat n))));
  lds_next : next_spec j (ld_discr ld) (ld_next ld) (ld_next ld')
}.

Definition next_ok (size : Z) (next : option Bitset) : Prop :=
  forall b, next = Some b -> bs_wf b /\ bs_size b = 2 * size.

Lemma half_split i j : 0 <= j -> 0 <= i -> (i =? 2 * j) || (i =? 2 * j + 1) = (i / 2 =? j).
Proof.
  intros Hj Hi. pose proof (Z.div_mod i 2). pose proof (Z.mod_pos_bound i 2).
  destruct (Z.eqb_spec (i / 2) j), (Z.eqb_spec i (2 * j)), (Z.eqb_spec i (2 * j + 1)); cbn; lia || done.
Qed.

Lemma set_children_ok size next j :
  next_ok size next -> 0 <= j < size ->
  exists next', set_children next j = Ok next' /\ next_ok size next' /\
    match next with
    | None => next' = None
    | Some b => exists b', next' = Some b' /\ bs_wf b' /\ bs_size b' = bs_size b /\
        forall i, 0 <= i -> bit b' i = bit b i || (i / 2 =? j)
    end.
Proof.
  intros Hok Hj. destruct next as [b|]; cbn [set_children]; [|by exists None].
  destruct (Hok b eq_refl) as [W Hs].
  destruct (bs_Set_ok b (2 * j) W) as (b1 & -> & W1 & Hs1 & Hb1); [lia|]. cbn [obind].
  destruct (bs_Set_ok b1 (2 * j + 1) W1) as (b2 & -> & W2 & Hs2 & Hb2); [lia|]. cbn [obind].
  exists (Some b2). split; [done|]. split; [intros ? [= <-]; split; [done|lia]|].
  exists b2. split; [done|]. split; [done|]. split; [lia|]. intros i Hi.
  rewrite Hb2, Hb1, <- half_split by lia. destruct (i =? 2 * j), (i =? 2 * j + 1), (bit b i); done.
Qed.

(** A node without a difference is skipped or cleared. *)
Lemma spec_same j n ld ld1 ld' :
  0 <= j -> j + Z.of_nat (S n) = bs_size (ld_discr ld) ->
  bs_size (ld_discr ld1) = bs_size (ld_discr ld) -> ld_next ld1 = ld_next ld ->
  ld_count ld1 = ld_count ld ->
  (forall i, 0 <= i -> i <> j -> bit (ld_discr ld1) i = bit (ld_discr ld) i) ->
  bit (ld_discr ld1) j = false -> bit (ld_discr ld) j && differ j = false ->
  level_diff_spec (j + 1) n ld1 ld' -> level_diff_spec j (S n) ld ld'.
Proof.
  intros Hj Hn Hs Hnext Hc Hbits Hb1 Hbj [Hw Hsz Hb Hcnt Hnx]. split; [done|congruence| | |].
  - intros i Hi. rewrite Hb by lia. destruct (decide (i = j)) as [->|Hne].
    + rewrite Hb1, Z.ltb_irrefl. cbn. by rewrite Hbj.
    + rewrite Hbits by lia. destruct (Z.ltb_spec i (j + 1)), (Z.ltb_spec i j); (done || lia).
  - rewrite Hcnt, Hc. f_equal. rewrite (seqZ_cons j) by lia. rewrite filter_cons, decide_False
      by (by rewrite Hbj). replace (Z.succ j) with (j + 1) by lia.
    replace (Z.pred (Z.of_nat (S n))) with (Z.of_nat n) by lia. f_equal. f_equal.
    apply filter_ext_in. intros i Hi%elem_of_seqZ. by rewrite Hbits by lia.
  - unfold next_spec in *. rewrite Hnext in Hnx. destruct (ld_next ld) as [b|]; [|done].
    destruct Hnx as (b' & E & W & Hsb & Hbb). exists b'. split; [done|]. split; [done|]. split; [done|].
    intros i Hi. rewrite Hbb by done. f_equal. pose proof (Z.div_pos i 2).
    destruct (decide (i / 2 = j)) as [->|Hne].
    + rewrite (proj2 (Z.leb_gt (j + 1) j)), Z.leb_refl by lia. cbn [andb].
      by rewrite <- andb_assoc, Hbj, andb_false_r.
    + rewrite Hbits, Hs by lia. destruct (Z.leb_spec (j + 1) (i / 2)), (Z.leb_spec j (i / 2)); (done || lia).
Qed.

(** A node with a difference stays and selects its children. *)
Lemma spec_diff j n ld next1 ld' :
  0 <= j -> j + Z.of_nat (S n) = bs_size (ld_discr ld) ->
  bit (ld_discr ld) j = true -> differ j = true ->
  match ld_next ld with
  | None => next1 = None
  | Some b => exists b', next1 = Some b' /\ bs_wf b' /\ bs_size b' = bs_size b /\
      forall i, 0 <= i -> bit b' i = bit b i || (i / 2 =? j)
  end ->
  level_diff_spec (j + 1) n (LD (ld_discr ld) next1 (ld_count ld + 1)) ld' ->
  level_diff_spec j (S n) ld ld'.
Proof.
  intros Hj Hn Hbj Hd Hnext [Hw Hsz Hb Hcnt Hnx]. cbn [ld_discr ld_next ld_count] in *.
  split; [done|done| | |].
  - intros i Hi. rewrite Hb by lia. destruct (decide (i = j)) as [->|Hne].
    + by rewrite Hbj, Hd, !orb_true_r.
    + destruct (Z.ltb_spec i (j + 1)), (Z.ltb_spec i j); (done || lia).
  - rewrite Hcnt. rewrite (seqZ_cons j) by lia. rewrite filter_cons, decide_True by (by rewrite Hbj, Hd).
    replace (Z.succ j) with (j + 1) by lia.
    replace (Z.pred (Z.of_nat (S n))) with (Z.of_nat n) by lia. cbn [length]. lia.
  - unfold next_spec in *. destruct (ld_next ld) as [b|]; [|by rewrite Hnext in Hnx].
    destruct Hnext as (b1 & -> & W1 & Hs1 & Hb1). destruct Hnx as (b' & E & W & Hsb & Hbb).
    exists b'. split; [done|]. split; [done|]. split; [congruence|].
    intros i Hi. rewrite Hbb, Hb1 by done. rewrite <- orb_assoc. f_equal. pose proof (Z.div_pos i 2).
    destruct (Z.eqb_spec (i / 2) j) as [->|Hne].
    + by rewrite Z.leb_refl, (proj2 (Z.ltb_lt _ _)), Hbj, Hd by lia.
    + cbn [orb]. destruct (Z.leb_spec (j + 1) (i / 2)), (Z.leb_spec j (i / 2)); (done || lia).
Qed.

Lemma spec_done j ld :
  bs_wf (ld_discr ld) -> 0 <= j -> bs_size (ld_discr ld) = j -> next_ok j (ld_next ld) ->
  level_diff_spec j 0 ld ld.
Proof.
  intros W Hj Hs Hok. split; [done|done| | |].
  - intros i Hi. rewrite (proj2 (Z.ltb_lt _ _)) by lia. by rewrite andb_true_r.
  - rewrite seqZ_nil by lia. cbn. lia.
  - unfold next_spec. destruct (ld_next ld) as [b|]; [|done]. destruct (Hok b eq_refl) as [Wb Hsb].
    exists b. split; [done|]. split; [done|]. split; [done|]. intros i Hi.
    destruct (Z.leb_spec j (i / 2)), (Z.ltb_spec (i / 2) (bs_size (ld_discr ld))); cbn;
      rewrite ?orb_false_r; (done || lia).
Qed.

Lemma diff_nodes_spec d1 d2 n : forall j k ld,
  bs_wf (ld_discr ld) -> 0 <= j -> j + Z.of_nat n = bs_size (ld_discr ld) ->
  next_ok (bs_size (ld_discr ld)) (ld_next ld) ->
  drop k d1 = map f1 (filter (fun i => bit (ld_discr ld) i = true) (seqZ j (Z.of_nat n))) ->
  drop k d2 = map f2 (filter (fun i => bit (ld_discr ld) i = true) (seqZ j (Z.of_nat n))) ->
  exists ld', diff_nodes d1 d2 n j k ld = Ok ld' /\ level_diff_spec j n ld ld'.
Proof.
  induction n as [|n IH]; intros j k ld W Hj Hn Hok H1 H2; cbn [diff_nodes].
  { exists ld. split; [done|]. apply spec_done; try done; [lia|].
    by replace j with (bs_size (ld_discr ld)) by lia. }
  rewrite IsSet_ok by (done || lia). cbn [obind].
  rewrite (seqZ_cons j) in H1, H2 by lia. rewrite filter_cons in H1, H2.
  replace (Z.succ j) with (j + 1) in * by lia.
  replace (Z.pred (Z.of_nat (S n))) with (Z.of_nat n) in * by lia.
  destruct (bit (ld_discr ld) j) eqn:Eb; cbn [negb].
  2:{ rewrite decide_False in H1, H2 by done.
      destruct (IH (j + 1) k ld W ltac:(lia) ltac:(lia) Hok H1 H2) as (ld' & Hd & Hs).
      exists ld'. split; [done|]. eapply spec_same; try done. by rewrite Eb. }
  rewrite decide_True in H1, H2 by done. cbn [map] in H1, H2.
  assert (Hk : forall (d : list Digest) x r, drop k d = x :: r -> d !! k = Some x /\ drop (S k) d = r).
  { intros d x r E. pose proof (lookup_drop d k 0) as Eh. rewrite E, Nat.add_0_r in Eh.
    split; [by symmetry|]. replace (S k) with (k + 1)%nat by lia. rewrite <- drop_drop, E. done. }
  destruct (Hk _ _ _ H1) as [-> H1']. destruct (Hk _ _ _ H2) as [-> H2'].
  case_decide as Ed.
  - destruct (bs_Unset_ok _ j W) as (b & -> & Wb & Hsb & Hbb); [lia|]. cbn [obind].
    assert (Hf : filter (fun i => bit b i = true) (seqZ (j + 1) (Z.of_nat n))
      = filter (fun i => bit (ld_discr ld) i = true) (seqZ (j + 1) (Z.of_nat n))).
    { apply filter_ext_in. intros i Hi%elem_of_seqZ. by rewrite Hbb, (proj2 (Z.eqb_neq _ _)) by lia. }
    destruct (IH (j + 1) (S k) (LD b (ld_next ld) (ld_count ld))) as (ld' & Hd & Hs);
      cbn [ld_discr ld_next];
      [done|lia|lia|by rewrite Hsb|by rewrite H1', Hf|by rewrite H2', Hf|].
    exists ld'. split; [done|]. apply (spec_same j n ld (LD b (ld_next ld) (ld_count ld)));
      [done|done|exact Hsb|done|done| | | |done].
    + intros i Hi Hne. cbn [ld_discr]. by rewrite Hbb, (proj2 (Z.eqb_neq _ _)) by done.
    + cbn [ld_discr]. by rewrite Hbb, Z.eqb_refl.
    + unfold differ. rewrite bool_decide_false by (by intros Hne). apply andb_false_r.
  - destruct (set_children_ok _ _ j Hok) as (next & -> & Hok' & Hnext); [lia|]. cbn [obind].
    destruct (IH (j + 1) (S k) (LD (ld_discr ld) next (ld_count ld + 1))) as (ld' & Hd & Hs);
      cbn [ld_discr ld_next]; try (done || lia).
    exists ld'. split; [done|]. eapply spec_diff; try done. unfold differ. by apply bool_decide_true.
Qed.

(** [LevelDiff] on the digests [Level] returned for both trees. *)
Lemma LevelDiff_spec l height walk :
  0 <= l <= height -> bs_wf walk -> bs_size walk = 2 ^ l ->
  exists ld, LevelDiff l height (Some walk) (map f1 (members walk)) (map f2 (members walk)) = Ok ld /\
    bs_wf (ld_discr ld) /\ bs_size (ld_discr ld) = 2 ^ l /\
    (forall i, 0 <= i < 2 ^ l -> bit (ld_discr ld) i = bit walk i && differ i) /\
    (ld_count ld = 0 <-> forall i, 0 <= i < 2 ^ l -> bit walk i && differ i = false) /\
    (l < height -> exists next, ld_next ld = Some next /\ bs_wf next /\ bs_size next = 2 ^ (l + 1) /\
       forall i, 0 <= i < 2 ^ (l + 1) -> bit next i = bit walk (i / 2) && differ (i / 2)).
Proof.
  intros Hl W Hsz. destruct (pow2_split l ltac:(lia)) as [Hp Hp1].
  unfold LevelDiff. destruct (Z.ltb_spec l 0); [lia|]. destruct (Z.ltb_spec height l); [lia|].
  unfold nodesAtLevel. rewrite !shift1, Hsz, Z.eqb_refl by lia. cbn [negb].
  assert (Hlen : Z.of_nat (length (members walk)) = SetCount walk)
    by (unfold SetCount; by rewrite (bs_count _ W)).
  rewrite !length_map, Hlen, Z.ltb_irrefl. cbn [orb].
  set (next := if l <? height then _ else _).
  assert (Hok : next_ok (bs_size walk) next).
  { subst next. intros b. destruct (l <? height); [|done]. intros [= <-].
    destruct (NewBitset_wf (2 ^ (l + 1)) ltac:(lia)). split; [done|]. cbn [NewBitset bs_size]. lia. }
  rewrite <- Hsz.
  destruct (diff_nodes_spec (map f1 (members walk)) (map f2 (members walk)) (Z.to_nat (bs_size walk)) 0 0
    (LD walk next 0)) as (ld & -> & [Hw Hs Hb Hc Hn]); cbn [ld_discr ld_next ld_count] in *;
    try (done || lia); try (rewrite drop_0, Z2Nat.id by lia; done).
  exists ld. split; [done|]. split; [done|]. split; [done|]. split; [|split].
  - intros i Hi. rewrite Hb by done. rewrite (proj2 (Z.ltb_ge _ _)) by lia. done.
  - rewrite Hc, Z2Nat.id by lia. split.
    + intros E i Hi. apply not_true_iff_false. intros Ht.
      assert (Hin : i ∈ filter (fun i => bit walk i && differ i = true) (seqZ 0 (bs_size walk))).
      { apply list_elem_of_filter. split; [done|]. apply elem_of_seqZ. lia. }
      revert Hin. rewrite (nil_length_inv (filter _ _)) by lia. apply not_elem_of_nil.
    + intros Hno. rewrite filter_none; [done|]. intros i Hi%elem_of_seqZ. rewrite Hno by lia. done.
  - intros Hlt. subst next. rewrite (proj2 (Z.ltb_lt _ _)) in Hn by done. cbn [next_spec] in Hn.
    destruct Hn as (b & -> & Wb & Hsb & Hbb). exists b. split; [done|]. split; [done|].
    destruct (NewBitset_wf (2 ^ (l + 1)) ltac:(lia)) as [_ Hz].
    split; [rewrite Hsb; done|]. intros i Hi. pose proof (Z.div_pos i 2).
    assert (i / 2 < 2 ^ l) by (apply Z.div_lt_upper_bound; lia).
    rewrite Hbb, Hz by lia. rewrite (proj2 (Z.leb_le 0 _)), (proj2 (Z.ltb_lt _ _)) by lia. done.
Qed.
End Level.

(** ** The walk from the root *)

Section Walk.
Context (h : Z) (leaf1 leaf2 : Z -> Digest) (Hh : 0 <= h <= 20).

(** Whether the trees differ at position [i] of level [l]. *)
Definition level_differs (l : nat) (i : Z) : bool :=
  differ (merkle leaf1 (Z.to_nat (h - Z.of_nat l))) (merkle leaf2 (Z.to_nat (h - Z.of_nat l))) i.

(** Whether they differ at all ancestors of that position. *)
Fixpoint walk_bit (l : nat) (i : Z) : bool :=
  match l with
  | O => true
  | S l => walk_bit l (i / 2) && level_differs l (i / 2)
  end.

(** No difference on a level, no difference reported below it. *)
Lemma walk_bit_stops l k : forall i,
  (forall j, 0 <= j < 2 ^ Z.of_nat l -> walk_bit l j && level_differs l j = false) ->
  0 <= i < 2 ^ Z.of_nat (l + S k) -> walk_bit (l + S k) i = false.
Proof.
  induction k as [|k IH]; intros i Hno Hi.
  - rewrite Nat.add_1_r in *. cbn [walk_bit]. apply Hno. rewrite Nat2Z.inj_succ, Z.pow_succ_r in Hi by lia.
    split; [apply Z.div_pos; lia|apply Z.div_lt_upper_bound; lia].
  - replace (l + S (S k))%nat with (S (l + S k)) in * by lia. cbn [walk_bit]. rewrite IH; [done|done|].
    rewrite Nat2Z.inj_succ, Z.pow_succ_r in Hi by lia.
    split; [apply Z.div_pos; lia|apply Z.div_lt_upper_bound; lia].
Qed.

Definition same_leaves (leaf : Z -> Digest) (ht : HashTree) : Prop :=
  forall j, 0 <= j < 2 ^ h -> ht_leaf h ht j = leaf j.

Lemma synced_same leaf ht ht' :
  same_leaves leaf ht -> ht_synced h (ht_leaf h ht) ht' -> same_leaves leaf ht'.
Proof. intros Hl Hs j Hj. rewrite <- Hl by done. by apply (synced_leaf _ _ _ Hs). Qed.

Lemma Level_leaves leaf ht (l : nat) walk :
  ht_inv h ht -> same_leaves leaf ht -> bs_wf walk -> Z.of_nat l <= h -> bs_size walk = 2 ^ Z.of_nat l ->
  exists ht', Level ht (Z.of_nat l) (Some walk) (SetCount walk)
    = Ok (map (merkle leaf (Z.to_nat (h - Z.of_nat l))) (members walk), ht') /\
    ht_inv h ht' /\ same_leaves leaf ht'.
Proof.
  intros Hi Hl W Hlh Hs. destruct (Level_spec h ht (Z.of_nat l) walk Hi W ltac:(lia) Hs) as (ht' & E & Hsy).
  exists ht'. split; [|split; [apply Hsy|by eapply synced_same]]. rewrite E. do 2 f_equal.
  apply map_ext_in. intros j Hj. apply list_elem_of_In, list_elem_of_filter in Hj as [_ Hj%elem_of_seqZ].
  apply merkle_ext. rewrite Z2Nat.id by lia. intros i Hij. apply Hl.
  assert (2 ^ h = 2 ^ Z.of_nat l * 2 ^ (h - Z.of_nat l)) by (rewrite <- Z.pow_add_r by lia; f_equal; lia).
  pose proof (Z.pow_pos_nonneg 2 (h - Z.of_nat l)). nia.
Qed.

Lemma members_length walk : bs_wf walk -> Z.of_nat (length (members walk)) = SetCount walk.
Proof. intros W. unfold SetCount. by rewrite (bs_count _ W). Qed.

Lemma diff_loop_spec (fuel : nat) : forall (l : nat) walk ht1 ht2,
  Z.of_nat l + Z.of_nat fuel = h + 1 -> (0 < fuel)%nat ->
  ht_inv h ht1 -> same_leaves leaf1 ht1 -> ht_inv h ht2 -> same_leaves leaf2 ht2 ->
  bs_wf walk -> bs_size walk = 2 ^ Z.of_nat l ->
  (forall i, 0 <= i < 2 ^ Z.of_nat l -> bit walk i = walk_bit l i) ->
  exists res ht1' ht2', diff_loop fuel h (Z.of_nat l) walk ht1 ht2 = Ok (res, ht1', ht2') /\
    bs_wf res /\ bs_size res = 2 ^ h /\
    forall i, 0 <= i < 2 ^ h ->
      bit res i = walk_bit (Z.to_nat h) i && level_differs (Z.to_nat h) i.
Proof.
  induction fuel as [|fuel IH]; intros l walk ht1 ht2 Hf Hpos I1 L1 I2 L2 W Hs Hb; [lia|].
  cbn [diff_loop].
  destruct (Level_leaves leaf1 ht1 l walk I1 L1 W ltac:(lia) Hs) as (t1 & -> & J1 & M1). cbn [obind].
  rewrite length_map, members_length, Z.eqb_refl by done. cbn [negb].
  destruct (Level_leaves leaf2 ht2 l walk I2 L2 W ltac:(lia) Hs) as (t2 & -> & J2 & M2). cbn [obind].
  rewrite length_map, members_length, Z.eqb_refl by done. cbn [negb].
  destruct (LevelDiff_spec (merkle leaf1 (Z.to_nat (h - Z.of_nat l))) (merkle leaf2 (Z.to_nat (h - Z.of_nat l)))
    (Z.of_nat l) h walk ltac:(lia) W Hs) as (ld & -> & Wd & Hsd & Hbd & Hcd & Hnd). cbn [obind].
  fold (level_differs l) in Hbd, Hcd, Hnd.
  destruct (Z.eqb_spec (Z.of_nat l) h) as [E|E].
  { exists (ld_discr ld), t1, t2. split; [done|]. split; [done|]. split; [by rewrite Hsd, E|].
    replace (Z.to_nat h) with l by lia. intros i Hi. by rewrite Hbd, Hb by (by rewrite E). }
  destruct (Z.eqb_spec (ld_count ld) 0) as [Ec|_].
  { unfold LeavesCount. rewrite shift1 by lia. destruct (NewBitset_wf (2 ^ h) ltac:(lia)) as [Wn Hz].
    exists (NewBitset (2 ^ h)), t1, t2. split; [done|]. split; [done|]. split; [done|].
    intros i Hi. rewrite Hz. replace (Z.to_nat h) with (l + S (Z.to_nat h - l - 1))%nat by lia.
    rewrite walk_bit_stops; [done| |].
    - intros j Hj. rewrite <- Hb by done. by apply Hcd.
    - replace (l + S (Z.to_nat h - l - 1))%nat with (Z.to_nat h) by lia. by rewrite Z2Nat.id by lia. }
  destruct Hnd as (next & -> & Wn & Hsn & Hbn); [lia|].
  replace (Z.of_nat l + 1) with (Z.of_nat (S l)) in * by lia.
  apply IH; try done; [lia|lia|]. intros i Hi. rewrite Hbn by done. cbn [walk_bit].
  rewrite Nat2Z.inj_succ, Z.pow_succ_r in Hi by lia.
  rewrite Hb; [done|]. split; [apply Z.div_pos; lia|apply Z.div_lt_upper_bound; lia].
Qed.

Lemma ht_Diff_spec ht1 ht2 :
  ht_inv h ht1 -> same_leaves leaf1 ht1 -> ht_inv h ht2 -> same_leaves leaf2 ht2 ->
  exists res ht1' ht2', ht_Diff ht1 (Some ht2) = Ok (res, ht1', ht2') /\
    bs_wf res /\ bs_size res = 2 ^ h /\
    forall i, 0 <= i < 2 ^ h -> bit res i = walk_bit (Z.to_nat h) i && level_differs (Z.to_nat h) i.
Proof.
  intros I1 L1 I2 L2. destruct (shape_height _ _ (inv_shape _ _ I1)) as [_ E1].
  destruct (shape_height _ _ (inv_shape _ _ I2)) as [_ E2].
  unfold ht_Diff. rewrite E1, E2, Z.eqb_refl. cbn [negb].
  destruct (NewBitset_wf 1 ltac:(lia)) as [W _].
  destruct (bs_Set_ok _ 0 W) as (walk & -> & Ww & Hsw & Hbw); [cbn; lia|]. cbn [obind].
  apply (diff_loop_spec (Z.to_nat (h + 1)) 0); try done; [lia|lia|].
  intros i Hi. rewrite Hbw by lia. cbn in Hi. replace i with 0 by lia. done.
Qed.

(** ** Differences are reported, or hashes of the two trees collide *)

(** What the digest of node [j], [d] levels above the leaves, is the hash of *)
Definition node_input (leaf : Z -> Digest) (d : nat) (j : Z) : list Z :=
  MarshalBinary (merkle leaf d (2 * j)) ++ MarshalBinary (merkle leaf d (2 * j + 1)).

(** At one of the nodes above leaf [i] the two trees hash different bytes to the same digest. *)
Definition collides_above (i : Z) : Prop :=
  exists d, Z.of_nat d < h /\ let j := i / 2 ^ (Z.of_nat d + 1) in
    node_input leaf1 d j <> node_input leaf2 d j /\ Sum128 (node_input leaf1 d j) = Sum128 (node_input leaf2 d j).

Lemma MarshalBinary_inj d e : digest_u64 d -> digest_u64 e -> MarshalBinary d = MarshalBinary e -> d = e.
Proof.
  intros [Hd1 Hd2] [He1 He2] E. unfold MarshalBinary in E.
  apply app_inj_1 in E as [E1 E2]; [|by rewrite !length_be_split].
  apply be_split_inj in E1, E2; try done. destruct d, e; cbn in *; congruence.
Qed.

Lemma node_input_inj d j : digest_u64 (merkle leaf1 d (2 * j)) -> digest_u64 (merkle leaf1 d (2 * j + 1)) -> digest_u64 (merkle leaf2 d (2 * j)) -> digest_u64 (merkle leaf2 d (2 * j + 1)) ->
  node_input leaf1 d j = node_input leaf2 d j -> merkle leaf1 d (2 * j) = merkle leaf2 d (2 * j) /\ merkle leaf1 d (2 * j + 1) = merkle leaf2 d (2 * j + 1).
Proof.
  intros Hl Hr Hl' Hr' E. unfold node_input in E. apply app_inj_1 in E as [E1 E2]; [by apply MarshalBinary_inj in E1, E2|].
  unfold MarshalBinary. by rewrite !length_app, !length_be_split.
Qed.

Lemma merkle_u64 leaf d : (forall i, digest_u64 (leaf i)) -> forall i, digest_u64 (merkle leaf d i).
Proof. intros Hl. induction d as [|d IH]; intros i; cbn [merkle]; [apply Hl|apply combine_u64]. Qed.

Lemma differs_up (l : nat) i :
  (forall j, digest_u64 (leaf1 j)) -> (forall j, digest_u64 (leaf2 j)) ->
  Z.of_nat (S l) <= h -> level_differs (S l) i = true -> let d := Z.to_nat (h - Z.of_nat (S l)) in
  level_differs l (i / 2) = true \/ (node_input leaf1 d (i / 2) <> node_input leaf2 d (i / 2) /\ Sum128 (node_input leaf1 d (i / 2)) = Sum128 (node_input leaf2 d (i / 2))).
Proof.
  intros U1 U2 Hl Hd d. unfold level_differs, differ in *. rewrite bool_decide_eq_true in Hd |- *. fold d in Hd.
  replace (Z.to_nat (h - Z.of_nat l)) with (S d) by lia. cbn [merkle]. unfold combine. fold (node_input leaf1 d (i / 2)). fold (node_input leaf2 d (i / 2)).
  destruct (decide (Sum128 (node_input leaf1 d (i / 2)) = Sum128 (node_input leaf2 d (i / 2)))) as [E|]; [right; split; [|done]|by left].
  intros [E1 E2]%node_input_inj; try (by apply merkle_u64). destruct Hd. pose proof (Z.div_mod i 2). pose proof (Z.mod_pos_bound i 2).
  destruct (Z.eq_dec (i mod 2) 0).
  - replace (2 * (i / 2)) with i in E1 by lia. done.
  - replace (2 * (i / 2) + 1) with i in E2 by lia. done.
Qed.

Lemma differs_walk (l : nat) : forall i,
  (forall j, digest_u64 (leaf1 j)) -> (forall j, digest_u64 (leaf2 j)) ->
  Z.of_nat l <= h -> level_differs l i = true ->
  walk_bit l i = true \/ exists d, h - Z.of_nat l <= Z.of_nat d < h /\ let j := i / 2 ^ (Z.of_nat d + 1 - (h - Z.of_nat l)) in
    node_input leaf1 d j <> node_input leaf2 d j /\ Sum128 (node_input leaf1 d j) = Sum128 (node_input leaf2 d j).
Proof.
  induction l as [|l IH]; intros i U1 U2 Hl Hd; [by left|]. cbn [walk_bit].
  destruct (differs_up l i U1 U2 Hl Hd) as [Hd'|Hc].
  - destruct (IH (i / 2) U1 U2 ltac:(lia) Hd') as [->|(d & Hdl & Hc)]; [left; by rewrite Hd'|right]. exists d. split; [lia|]. cbv zeta in *.
    replace (Z.of_nat d + 1 - (h - Z.of_nat (S l))) with (1 + (Z.of_nat d + 1 - (h - Z.of_nat l))) by lia. rewrite Z.pow_add_r, <- Z.div_div by lia. exact Hc.
  - right. exists (Z.to_nat (h - Z.of_nat (S l))). split; [lia|]. cbv zeta in *. replace (Z.of_nat (Z.to_nat (h - Z.of_nat (S l))) + 1 - (h - Z.of_nat (S l))) with 1 by lia. exact Hc.
Qed.

Lemma leaf_differs_walk i :
  (forall j, digest_u64 (leaf1 j)) -> (forall j, digest_u64 (leaf2 j)) ->
  level_differs (Z.to_nat h) i = true -> walk_bit (Z.to_nat h) i = true \/ collides_above i.
Proof.
  intros U1 U2 Hd. destruct (differs_walk (Z.to_nat h) i U1 U2 ltac:(lia) Hd) as [?|(d & Hdl & Hc)]; [by left|right].
  exists d. split; [lia|]. replace (Z.of_nat d + 1 - (h - Z.of_nat (Z.to_nat h))) with (Z.of_nat d + 1) in Hc by lia. exact Hc.
Qed.
End Walk.

Lemma leaf_of_u64 vals i : digest_u64 (leaf_of vals i).
Proof.
  unfold leaf_of. generalize (filter (fun p : Z * list Z => p.1 = i) vals).
  induction l as [|p l [IH1 IH2]]; cbn [map foldr].
  - unfold digest_u64, is_u64. cbn. lia.
  - destruct (Sum128_u64 p.2). split; apply xor_u64; done.
Qed.

(** A new tree of height [h] after the history [ops]. *)
Definition tree_after (h : Z) (ops : list ht_op) : outcome ht_error HashTree :=
  let! ht := NewHashTree h in ht_run ops ht.

(** * Properties *)

(** C34: [Diff] of two trees terminates without error and is exact up to hash
    collisions in the two trees.  Every leaf it reports holds different content on the two
    sides, and every leaf with different content is reported, unless at one of the
    nodes above this leaf the two trees hash different bytes to the same digest. *)
Theorem diff_exact (h : Z) (ops1 ops2 : list ht_op) :
  0 <= h <= 20 -> Forall op_index_ok ops1 -> Forall op_index_ok ops2 ->
  exists ht1 ht2 res ht1' ht2',
    tree_after h ops1 = Ok ht1 /\ tree_after h ops2 = Ok ht2 /\
    ht_Diff ht1 (Some ht2) = Ok (res, ht1', ht2') /\ bs_wf res /\ bs_size res = 2 ^ h /\
    forall i, 0 <= i < 2 ^ h ->
      (bit res i = true -> leaf_of (live [] ops1) i <> leaf_of (live [] ops2) i) /\
      (leaf_of (live [] ops1) i <> leaf_of (live [] ops2) i -> bit res i = true \/ collides_above h (leaf_of (live [] ops1)) (leaf_of (live [] ops2)) i).
Proof.
  intros Hh Hok1 Hok2. unfold tree_after. destruct (NewHashTree_inv h Hh) as (ht0 & -> & I0 & H0).
  cbn [obind].
  destruct (ht_run_spec h ops1 ht0 [] I0 Hok1) as (ht1 & -> & I1 & L1); [intros; apply H0|].
  destruct (ht_run_spec h ops2 ht0 [] I0 Hok2) as (ht2 & -> & I2 & L2); [intros; apply H0|].
  destruct (ht_Diff_spec h (leaf_of (live [] ops1)) (leaf_of (live [] ops2)) Hh ht1 ht2 I1 L1 I2 L2)
    as (res & t1 & t2 & HD & W & Hs & Hb).
  exists ht1, ht2, res, t1, t2. split; [done|]. split; [done|]. split; [done|]. split; [done|].
  split; [done|]. intros i Hi. rewrite Hb by done.
  assert (Hleaf : level_differs h (leaf_of (live [] ops1)) (leaf_of (live [] ops2)) (Z.to_nat h) i = true
    <-> leaf_of (live [] ops1) i <> leaf_of (live [] ops2) i).
  { unfold level_differs, differ. rewrite bool_decide_eq_true, Z2Nat.id, Z.sub_diag by lia. done. }
  split; [intros [_ Hd]%andb_true_iff; by apply Hleaf|]. intros Hd%Hleaf. rewrite Hd.
  destruct (leaf_differs_walk h _ _ Hh i (leaf_of_u64 _) (leaf_of_u64 _) Hd) as [->|]; [by left|by right].
Qed.
End Diff.

(** * Witnesses *)

Lemma diff_exact_witness :
  exists ht1 ht2 res ht1' ht2',
    tree_after 2 wit_history = Ok ht1 /\ tree_after 2 [OpAggregate 1 [7]] = Ok ht2 /\
    ht_Diff ht1 (Some ht2) = Ok (res, ht1', ht2') /\
    (bit res 3 = true -> leaf_of (live [] wit_history) 3 <> leaf_of (live [] [OpAggregate 1 [7]]) 3) /\
    (leaf_of (live [] wit_history) 3 <> leaf_of (live [] [OpAggregate 1 [7]]) 3 ->
      bit res 3 = true \/ collides_above 2 (leaf_of (live [] wit_history)) (leaf_of (live [] [OpAggregate 1 [7]])) 3).
Proof.
  destruct (diff_exact 2 wit_history [OpAggregate 1 [7]])
    as (ht1 & ht2 & res & ht1' & ht2' & H1 & H2 & HD & _ & _ & Hb); [lia| | |].
  - repeat constructor; cbn; lia.
  - repeat constructor; cbn; lia.
  - exists ht1, ht2, res, ht1', ht2'. split; [exact H1|]. split; [exact H2|]. split; [exact HD|].
    apply (Hb 3). lia.
Defined.
