(* ===== verification/CompactHashTree.v ===== *)
(** * usecases/replica/hashtree: compact trees and serialization

    [compact_hashtree*.go]: a hash tree whose leaves are shared by groups of
    consecutive positions of a larger range; and [hashtree_serialization.go],
    [compact_hashtree_serialization.go].  An [io.Reader] is the list of bytes
    left to read, an [io.Writer] the list written. *)

From S2P Require Import Prelude Bitset HashTree HashTreeDiff.

Section Compact.
Context `{Murmur3}.

(** ** compact_hashtree.go *)

Record CompactHashTree : Type := CHT {
  cht_capacity : Z;
  cht_hashtree : HashTree;
  cht_leavesCount : Z;
  cht_groupSize : Z;
  cht_extendedGroupSize : Z;
  cht_extendedGroupsCount : Z;
  cht_leavesCountInExtendedGroups : Z
}.

(** [for ; n > 0; h++ { n = n >> 1 }]: a uint64 is 0 after 64 shifts. *)
Fixpoint height_loop (fuel : nat) (n h : Z) : Z :=
  match fuel with
  | O => h
  | S fuel => if 0 <? n then height_loop fuel (Z.shiftr n 1) (h + 1) else h
  end.

Definition requiredHeight (n : Z) : Z :=
  if n =? 1 then 0 else height_loop 65 (u64 (n - 1)) 1.

Definition newCompactHashTree (capacity : Z) (tree : option HashTree)
  : outcome ht_error CompactHashTree :=
  if capacity <? 1 then Err ErrIllegalArguments
  else match tree with
  | None => Err ErrIllegalArguments
  | Some tree =>
      if requiredHeight capacity <? ht_height tree then Err ErrIllegalArguments
      else
        let leavesCount := LeavesCount (ht_height tree) in
        let groupSize := capacity / leavesCount in
        let extendedGroupSize := u64 (groupSize + 1) in
        let extendedGroupsCount := capacity mod leavesCount in
        Ok (CHT capacity tree leavesCount groupSize extendedGroupSize extendedGroupsCount
                (u64 (extendedGroupsCount * extendedGroupSize)))
  end.

Definition NewCompactHashTree (capacity maxHeight : Z) : outcome ht_error CompactHashTree :=
  let height := requiredHeight capacity in
  let height := if maxHeight <? height then maxHeight else height in
  let! ht := NewHashTree height in
  newCompactHashTree capacity (Some ht).

Definition mapLeaf (ht : CompactHashTree) (i : Z) : outcome ht_error Z :=
  if cht_capacity ht <=? i then Panic
  else if i <? cht_leavesCountInExtendedGroups ht then Ok (i / cht_extendedGroupSize ht)
  else Ok (u64 (i - cht_extendedGroupsCount ht) / cht_groupSize ht).

Definition unmapLeaf (ht : CompactHashTree) (mappedLeaf : Z) : Z :=
  if mappedLeaf <? cht_extendedGroupsCount ht then u64 (mappedLeaf * cht_extendedGroupSize ht)
  else u64 (u64 (mappedLeaf * cht_groupSize ht) + cht_extendedGroupsCount ht).

Definition with_tree (ht : CompactHashTree) (t : HashTree) : CompactHashTree :=
  CHT (cht_capacity ht) t (cht_leavesCount ht) (cht_groupSize ht) (cht_extendedGroupSize ht)
      (cht_extendedGroupsCount ht) (cht_leavesCountInExtendedGroups ht).

Definition cht_AggregateLeafWith (ht : CompactHashTree) (i : Z) (val : list Z)
  : outcome ht_error CompactHashTree :=
  let! m := mapLeaf ht i in
  let! t := AggregateLeafWith (cht_hashtree ht) m val in
  Ok (with_tree ht t).

Definition cht_Diff (ht : CompactHashTree) (ht2 : option CompactHashTree)
  : outcome ht_error (Bitset * HashTree * HashTree) :=
  match ht2 with
  | None => Err ErrIllegalArguments
  | Some ht2 => ht_Diff (cht_hashtree ht) (Some (cht_hashtree ht2))
  end.

(** ** compact_hashtree_range_reader.go *)

Record CompactHashTreeDiffReader : Type := CDiffReader {
  cdr_ht : CompactHashTree;
  cdr_rangeReader : HashTreeDiffReader
}.

Definition cht_NewRangeReader (ht : CompactHashTree) (discriminant : option Bitset)
  : outcome ht_error CompactHashTreeDiffReader :=
  let! rr := NewRangeReader (cht_hashtree ht) discriminant in
  Ok (CDiffReader ht rr).

Definition cdr_Next (r : CompactHashTreeDiffReader)
  : outcome ht_error (Z * Z * CompactHashTreeDiffReader) :=
  let! (mappedLeaf0, mappedLeaf1, rr) := dr_Next (cdr_rangeReader r) in
  let ht := cdr_ht r in
  let groupSize := if mappedLeaf1 <? cht_extendedGroupsCount ht
                   then cht_extendedGroupSize ht else cht_groupSize ht in
  Ok (unmapLeaf ht mappedLeaf0, u64 (unmapLeaf ht mappedLeaf1 + groupSize - 1), CDiffReader ht rr).

(** All ranges, as a caller reads them: until [ErrNoMoreRanges]. *)
Fixpoint all_ranges (fuel : nat) (r : CompactHashTreeDiffReader) : outcome ht_error (list (Z * Z)) :=
  match fuel with
  | O => OutOfFuel
  | S fuel =>
      match cdr_Next r with
      | Ok (a, b, r) => let! l := all_ranges fuel r in Ok ((a, b) :: l)
      | Err ErrNoMoreRanges => Ok []
      | Err e => Err e
      | Panic => Panic
      | OutOfFuel => OutOfFuel
      end
  end.

(** ** hashtree_serialization.go *)

Definition hashTreeMagicNumber : Z := 3520188881. (* 0xD1D1D1D1 *)
Definition hashTreeVersion : Z := 1.

Definition headerChecksum (hdr : list Z) : list Z := MarshalBinary (Sum128 hdr).

Definition legacyHeaderChecksum (hdr : list Z) : list Z :=
  take DigestLength (hdr ++ replicate DigestLength 0).

Definition validHeaderChecksum (stored hdr : list Z) : bool :=
  bool_decide (stored = headerChecksum hdr) || bool_decide (stored = legacyHeaderChecksum hdr).

Definition header_prefix (height : Z) (root : Digest) : list Z :=
  be_split 4 hashTreeMagicNumber ++ [hashTreeVersion] ++ be_split 4 (u32 height) ++ MarshalBinary root.

(** The bytes written; the tree is brought in sync for its root. *)
Definition ht_Serialize (ht : HashTree) : outcome ht_error (list Z * HashTree) :=
  let! (root, ht) := ht_Root ht in
  let hdr := header_prefix (ht_height ht) root in
  Ok (hdr ++ headerChecksum hdr
      ++ concat (map MarshalBinary (drop (Z.to_nat (ht_innerNodesCount ht)) (ht_nodes ht))), ht).

(** [io.ReadFull] of [n] bytes; [io.EOF] (nothing left) is not told apart from
    [io.ErrUnexpectedEOF]. *)
Definition ReadFull (n : nat) (r : list Z) : outcome ht_error (list Z * list Z) :=
  if (length r <? n)%nat then Err ErrUnexpectedEOF else Ok (take n r, drop n r).

Definition hashTreeHeaderLength : nat := 41.

Definition parseHashTreeHeader (hdr : list Z) : outcome ht_error (Z * Digest) :=
  if (length hdr <? hashTreeHeaderLength)%nat then Err ErrHeaderTooShort
  else if negb (be_combine (take 4 hdr) =? hashTreeMagicNumber) then Err ErrMagicNumber
  else if negb (bool_decide (hdr !! 4%nat = Some hashTreeVersion)) then Err ErrUnsupportedVersion
  else
    let height := be_combine (take 4 (drop 5 hdr)) in
    let! root := UnmarshalBinary (take DigestLength (drop 9 hdr)) in
    if negb (validHeaderChecksum (take DigestLength (drop 25 hdr)) (take 25 hdr))
    then Err ErrHeaderChecksum
    else if MaxHeight <? height then Err ErrIllegalArguments
    else Ok (height, root).

Definition ReadHashTreeRoot (r : list Z) : outcome ht_error (Digest * Z) :=
  let! (hdr, _) := ReadFull hashTreeHeaderLength r in
  let! (height, root) := parseHashTreeHeader hdr in
  Ok (root, height).

(** The leaf loop, [n] leaves to go, at position [pos] of the array. *)
Fixpoint read_leaves (n : nat) (pos : nat) (nodes : list Digest) (r : list Z)
  : outcome ht_error (list Digest * list Z) :=
  match n with
  | O => Ok (nodes, r)
  | S n =>
      let! (leafBs, r) := ReadFull DigestLength r in
      let! d := UnmarshalBinary leafBs in
      read_leaves n (S pos) (<[pos := d]> nodes) r
  end.

Definition DeserializeHashTree (r : list Z) : outcome ht_error (HashTree * list Z) :=
  let! (hdr, r) := ReadFull hashTreeHeaderLength r in
  let! (height, root) := parseHashTreeHeader hdr in
  let! ht := NewHashTree height in
  let! (nodes, r) := read_leaves (Z.to_nat (LeavesCount (ht_height ht)))
                                 (Z.to_nat (ht_innerNodesCount ht)) (ht_nodes ht) r in
  let! (root', ht) := ht_Root (with_nodes ht nodes (ht_syncState ht)) in
  if decide (root = root') then Ok (ht, r) else Err ErrRootMismatch.

(** ** compact_hashtree_serialization.go *)

Definition compactHashTreeMagicNumber : Z := 3537031890. (* 0xD2D2D2D2 *)
Definition compactHashtreeVersion : Z := 1.
Definition compactHashtreeHeaderLength : nat := 29.

Definition cht_Serialize (ht : CompactHashTree) : outcome ht_error (list Z * CompactHashTree) :=
  let hdr := be_split 4 compactHashTreeMagicNumber ++ [compactHashtreeVersion]
             ++ be_split 8 (cht_capacity ht) in
  let! (bs, t) := ht_Serialize (cht_hashtree ht) in
  Ok (hdr ++ headerChecksum hdr ++ bs, with_tree ht t).

Definition DeserializeCompactHashTree (r : list Z)
  : outcome ht_error (CompactHashTree * list Z) :=
  let! (hdr, r) := ReadFull compactHashtreeHeaderLength r in
  if negb (be_combine (take 4 hdr) =? compactHashTreeMagicNumber) then Err ErrMagicNumber
  else if negb (bool_decide (hdr !! 4%nat = Some compactHashtreeVersion)) then Err ErrUnsupportedVersion
  else
    let capacity := be_combine (take 8 (drop 5 hdr)) in
    if negb (validHeaderChecksum (take DigestLength (drop 13 hdr)) (take 13 hdr))
    then Err ErrHeaderChecksum
    else
      let! (t, r) := DeserializeHashTree r in
      let! c := newCompactHashTree capacity (Some t) in
      Ok (c, r).

(** ** The grouping of positions *)

(** First position of group [m] for group size [g] and [e] extended groups. *)
Definition group_start (g e m : Z) : Z := m * g + Z.min m e.

Lemma group_start_mono g e m n : 0 <= g -> 0 <= e -> m <= n -> group_start g e m <= group_start g e n.
Proof. intros. unfold group_start. nia. Qed.

(** What [newCompactHashTree] establishes. *)
Record cht_wf (h capacity : Z) (c : CompactHashTree) : Prop := {
  cwf_inv : ht_inv h (cht_hashtree c);
  cwf_cap : cht_capacity c = capacity /\ 1 <= capacity < 2 ^ 64;
  cwf_leaves : cht_leavesCount c = 2 ^ h;
  cwf_group : cht_groupSize c = capacity / 2 ^ h;
  cwf_ext : cht_extendedGroupSize c = capacity / 2 ^ h + 1 \/ cht_extendedGroupsCount c = 0;
  cwf_extCount : cht_extendedGroupsCount c = capacity mod 2 ^ h;
  cwf_inExt : cht_leavesCountInExtendedGroups c = capacity mod 2 ^ h * (capacity / 2 ^ h + 1)
}.

Lemma split_capacity h capacity :
  0 <= h -> 0 <= capacity ->
  let g := capacity / 2 ^ h in let e := capacity mod 2 ^ h in
  capacity = 2 ^ h * g + e /\ 0 <= g /\ 0 <= e < 2 ^ h /\ group_start g e (2 ^ h) = capacity.
Proof.
  intros Hh Hc. destruct (pow2_split h Hh) as [_ Hp]. cbn zeta.
  pose proof (Z.div_mod capacity (2 ^ h)). pose proof (Z.mod_pos_bound capacity (2 ^ h)).
  pose proof (Z.div_pos capacity (2 ^ h)). unfold group_start. lia.
Qed.

Lemma newCompact_wf h capacity t :
  ht_inv h t -> 1 <= capacity < 2 ^ 64 -> h <= requiredHeight capacity ->
  exists c, newCompactHashTree capacity (Some t) = Ok c /\ cht_wf h capacity c /\ cht_hashtree c = t.
Proof.
  intros Hi Hc Hr. destruct (shape_height _ _ (inv_shape _ _ Hi)) as [Hh Hht].
  unfold newCompactHashTree. destruct (Z.ltb_spec capacity 1); [lia|]. rewrite Hht.
  destruct (Z.ltb_spec (requiredHeight capacity) h); [lia|].
  unfold LeavesCount. rewrite shift1 by lia. eexists. split; [reflexivity|]. split; [|done].
  destruct (split_capacity h capacity) as (E & Hg & He & _); [lia|lia|].
  set (g := capacity / 2 ^ h) in *. set (e := capacity mod 2 ^ h) in *.
  destruct (pow2_split h ltac:(lia)) as [_ Hp].
  assert (Hext : u64 (g + 1) = g + 1 \/ e = 0).
  { destruct (Z.eq_dec e 0); [by right|left]. apply u64_small. unfold is_u64. nia. }
  split; cbn [cht_hashtree cht_capacity cht_leavesCount cht_groupSize cht_extendedGroupSize
              cht_extendedGroupsCount cht_leavesCountInExtendedGroups]; try done.
  destruct Hext as [Hx|Hx].
  - rewrite Hx. apply u64_small. unfold is_u64. nia.
  - fold e g. by rewrite Hx.
Qed.

Section Groups.
Context (h capacity : Z) (c : CompactHashTree) (W : cht_wf h capacity c).

Definition g_of : Z := capacity / 2 ^ h.
Definition e_of : Z := capacity mod 2 ^ h.

Lemma height_range : 0 <= h <= 20.
Proof. apply (shape_height _ _ (inv_shape _ _ (cwf_inv _ _ _ W))). Qed.

Lemma capacity_split :
  capacity = 2 ^ h * g_of + e_of /\ 0 <= g_of /\ 0 <= e_of < 2 ^ h /\
  group_start g_of e_of (2 ^ h) = capacity /\ 1 <= capacity < 2 ^ 64.
Proof.
  pose proof height_range. destruct (cwf_cap _ _ _ W) as [_ Hc].
  destruct (split_capacity h capacity) as (? & ? & ? & ?); [lia|lia|]. done.
Qed.

Lemma mapLeaf_spec i :
  0 <= i < capacity ->
  exists m, mapLeaf c i = Ok m /\ 0 <= m < 2 ^ h /\
    group_start g_of e_of m <= i < group_start g_of e_of (m + 1).
Proof.
  intros Hi. destruct capacity_split as (E & Hg & He & _ & Hc). unfold mapLeaf.
  rewrite (proj1 (cwf_cap _ _ _ W)), (cwf_inExt _ _ _ W), (cwf_extCount _ _ _ W), (cwf_group _ _ _ W).
  fold g_of e_of. destruct (Z.leb_spec capacity i); [lia|].
  destruct (Z.ltb_spec i (e_of * (g_of + 1))) as [Hlt|Hge].
  - destruct (cwf_ext _ _ _ W) as [-> | Hz].
    2:{ rewrite (cwf_extCount _ _ _ W) in Hz. fold e_of in Hz. nia. }
    fold g_of. eexists. split; [reflexivity|].
    assert (Hm : 0 <= i / (g_of + 1) < e_of).
    { split; [apply Z.div_pos; lia|apply Z.div_lt_upper_bound; nia]. }
    pose proof (Z.div_mod i (g_of + 1)). pose proof (Z.mod_pos_bound i (g_of + 1)).
    split; [lia|]. unfold group_start. nia.
  - assert (0 < g_of) by nia. rewrite u64_small by (unfold is_u64; nia).
    eexists. split; [reflexivity|].
    assert (Hm : e_of <= (i - e_of) / g_of < 2 ^ h).
    { split; [apply Z.div_le_lower_bound; nia|apply Z.div_lt_upper_bound; nia]. }
    pose proof (Z.div_mod (i - e_of) g_of). pose proof (Z.mod_pos_bound (i - e_of) g_of).
    split; [lia|]. unfold group_start. nia.
Qed.

Lemma group_start_bound m : 0 <= m <= 2 ^ h -> 0 <= group_start g_of e_of m <= capacity.
Proof.
  intros Hm. destruct capacity_split as (E & Hg & He & Hlast & Hc).
  pose proof (group_start_mono g_of e_of m (2 ^ h)). split; [unfold group_start; nia|lia].
Qed.

Lemma unmapLeaf_spec m : 0 <= m < 2 ^ h -> unmapLeaf c m = group_start g_of e_of m.
Proof.
  intros Hm. destruct capacity_split as (E & Hg & He & _ & Hc).
  pose proof (group_start_bound m ltac:(lia)) as Hb. unfold unmapLeaf.
  rewrite (cwf_extCount _ _ _ W), (cwf_group _ _ _ W). fold g_of e_of.
  destruct (Z.ltb_spec m e_of).
  - destruct (cwf_ext _ _ _ W) as [-> | Hz].
    2:{ rewrite (cwf_extCount _ _ _ W) in Hz. fold e_of in Hz. lia. }
    fold g_of. unfold group_start in *. rewrite u64_small; unfold is_u64; nia.
  - unfold group_start in *. rewrite (u64_small (m * g_of)), u64_small; unfold is_u64; nia.
Qed.

(** The last position of group [m], as [Next] computes it. *)
Lemma group_end m :
  0 <= m < 2 ^ h -> 0 < group_start g_of e_of (m + 1) ->
  u64 (unmapLeaf c m + (if m <? cht_extendedGroupsCount c then cht_extendedGroupSize c
                        else cht_groupSize c) - 1) = group_start g_of e_of (m + 1) - 1.
Proof.
  intros Hm Hpos. rewrite unmapLeaf_spec by done. destruct capacity_split as (E & Hg & He & _ & Hc).
  pose proof (group_start_bound (m + 1) ltac:(lia)) as Hb.
  rewrite (cwf_extCount _ _ _ W), (cwf_group _ _ _ W). fold g_of e_of. destruct (Z.ltb_spec m e_of).
  - destruct (cwf_ext _ _ _ W) as [-> | Hz].
    2:{ rewrite (cwf_extCount _ _ _ W) in Hz. fold e_of in Hz. lia. }
    fold g_of. unfold group_start in *. rewrite u64_small; unfold is_u64; nia.
  - unfold group_start in *. rewrite u64_small; unfold is_u64; nia.
Qed.

Lemma group_start_pos m : 0 < m -> 0 < group_start g_of e_of m.
Proof.
  intros Hm. destruct capacity_split as (E & Hg & He & _ & Hc). unfold group_start.
  destruct (Z.eq_dec g_of 0); nia.
Qed.

(** ** Reading the ranges of a discriminant *)

Definition covers (i : Z) (r : Z * Z) : Prop := r.1 <= i <= r.2.

Lemma scan_spec v d fuel : forall pos,
  bs_wf d -> 0 <= pos <= bs_size d -> bs_size d - pos <= Z.of_nat fuel ->
  exists p, scan v d fuel pos = Ok p /\ pos <= p <= bs_size d /\
    (forall j, pos <= j < p -> bit d j = v) /\ (p < bs_size d -> bit d p = negb v).
Proof.
  induction fuel as [|fuel IH]; intros pos Wd Hp Hf; cbn [scan].
  { exists pos. split; [done|]. split; [lia|]. split; lia. }
  destruct (Z.leb_spec (bs_size d) pos). { exists pos. split; [done|]. split; [lia|]. split; lia. }
  rewrite IsSet_ok by (done || lia). cbn [obind]. destruct (Bool.eqb (bit d pos) v) eqn:Eb.
  - apply eqb_prop in Eb. destruct (IH (pos + 1) Wd) as (p & -> & Hr & Hall & Hend); [lia|lia|].
    exists p. split; [done|]. split; [lia|]. split; [|done]. intros j Hj.
    destruct (Z.eq_dec j pos) as [->|]; [done|apply Hall; lia].
  - exists pos. split; [done|]. split; [lia|]. split; [lia|]. intros _.
    by destruct (bit d pos), v.
Qed.

(** The positions of the groups [m0..m1] are those of the reported range. *)
Lemma range_covers m0 m1 i m :
  0 <= m0 -> m0 <= m1 < 2 ^ h -> 0 <= m < 2 ^ h ->
  group_start g_of e_of m <= i < group_start g_of e_of (m + 1) ->
  covers i (group_start g_of e_of m0, group_start g_of e_of (m1 + 1) - 1) <-> m0 <= m <= m1.
Proof.
  intros H0 H1 Hm Hi. destruct capacity_split as (_ & Hg & He & _ & _). unfold covers. cbn [fst snd].
  pose proof (fun a b => group_start_mono g_of e_of a b Hg (proj1 He)) as Hmono. split.
  - intros Hr. split.
    + destruct (Z_le_gt_dec m0 m); [done|]. specialize (Hmono (m + 1) m0 ltac:(lia)). lia.
    + destruct (Z_le_gt_dec m m1); [done|]. specialize (Hmono (m1 + 1) m ltac:(lia)). lia.
  - intros Hr. pose proof (Hmono m0 m ltac:(lia)). pose proof (Hmono (m + 1) (m1 + 1) ltac:(lia)). lia.
Qed.

Lemma Next_spec d pos :
  bs_wf d -> bs_size d = 2 ^ h -> 0 <= pos <= 2 ^ h ->
  (cdr_Next (CDiffReader c (DiffReader d pos)) = Err ErrNoMoreRanges /\
   forall m, pos <= m < 2 ^ h -> bit d m = false) \/
  exists m0 m1, pos <= m0 <= m1 /\ m1 < 2 ^ h /\
    cdr_Next (CDiffReader c (DiffReader d pos))
    = Ok (group_start g_of e_of m0, group_start g_of e_of (m1 + 1) - 1,
          CDiffReader c (DiffReader d (m1 + 1))) /\
    (forall m, pos <= m < m0 -> bit d m = false) /\ (forall m, m0 <= m <= m1 -> bit d m = true).
Proof.
  intros Wd Hs Hp. unfold cdr_Next, dr_Next. cbn [cdr_rangeReader dr_discriminant dr_pos cdr_ht].
  destruct (scan_spec false d (Z.to_nat (bs_size d - pos)) pos Wd) as (m0 & -> & Hm0 & Hf & Hset);
    [lia|lia|]. cbn [obind]. destruct (Z.eqb_spec m0 (bs_size d)) as [E|E].
  { left. split; [done|]. intros m Hm. apply Hf. lia. }
  specialize (Hset ltac:(lia)). cbn [negb] in Hset.
  destruct (scan_spec true d (Z.to_nat (bs_size d - pos)) m0 Wd) as (p1 & -> & Hp1 & Ht & Hend);
    [lia|lia|]. cbn [obind].
  assert (m0 < p1).
  { destruct (Z.eq_dec m0 p1) as [Eq|]; [|lia]. rewrite <- Eq in Hend. rewrite Hend in Hset by lia. done. }
  right. exists m0, (p1 - 1). split; [lia|]. split; [lia|].
  rewrite unmapLeaf_spec, group_end by (try apply group_start_pos; lia).
  replace (p1 - 1 + 1) with p1 by lia. split; [done|].
  split; intros m Hm; [apply Hf|apply Ht]; lia.
Qed.

Lemma all_ranges_spec d fuel : forall pos,
  bs_wf d -> bs_size d = 2 ^ h -> 0 <= pos <= 2 ^ h -> 2 ^ h - pos < Z.of_nat fuel ->
  exists l, all_ranges fuel (CDiffReader c (DiffReader d pos)) = Ok l /\
    Forall (fun r => 0 <= r.1 /\ r.2 < capacity) l /\
    forall i m, 0 <= m < 2 ^ h -> group_start g_of e_of m <= i < group_start g_of e_of (m + 1) ->
      Exists (covers i) l <-> pos <= m /\ bit d m = true.
Proof.
  induction fuel as [|fuel IH]; intros pos Wd Hs Hp Hf; [lia|]. cbn [all_ranges].
  destruct (Next_spec d pos Wd Hs Hp) as [[-> Hno]|(m0 & m1 & Hm & Hm1 & -> & Hlow & Hin)].
  { exists []. split; [done|]. split; [constructor|]. intros i m Hm Hi. rewrite Exists_nil.
    split; [done|]. intros [Hge Hb]. rewrite Hno in Hb; [done|lia]. }
  destruct (IH (m1 + 1) Wd Hs) as (l & -> & Hall & Hl); [lia|lia|]. cbn [obind].
  eexists. split; [reflexivity|]. split.
  { constructor; [|done]. cbn [fst snd]. pose proof (group_start_bound m0). 
    pose proof (group_start_bound (m1 + 1)). lia. }
  intros i m Hr Hi. rewrite Exists_cons, (Hl i m Hr Hi), range_covers by (done || lia). split.
  - intros [Hmm|[? ?]]; [split; [lia|by apply Hin]|split; [lia|done]].
  - intros [Hge Hb]. destruct (Z_lt_le_dec m m0); [rewrite Hlow in Hb; [done|lia]|].
    destruct (Z_le_gt_dec m m1); [by left; lia|right; split; [lia|done]].
Qed.

Lemma with_tree_wf t : ht_inv h t -> cht_wf h capacity (with_tree c t).
Proof. intros Hi. destruct W. by split. Qed.
End Groups.

(** ** Content per group *)

(** The leaf of position [i]. *)
Definition leaf_index (c : CompactHashTree) (i : Z) : Z :=
  match mapLeaf c i with Ok m => m | _ => 0 end.

Definition mapped (c : CompactHashTree) (vals : list (Z * list Z)) : list (Z * list Z) :=
  map (fun p => (leaf_index c p.1, p.2)) vals.

(** The XOR of the digests of the values at positions in the group of [i]. *)
Definition group_digest (c : CompactHashTree) (vals : list (Z * list Z)) (i : Z) : Digest :=
  leaf_of (mapped c vals) (leaf_index c i).

Fixpoint cht_fill (vals : list (Z * list Z)) (c : CompactHashTree)
  : outcome ht_error CompactHashTree :=
  match vals with
  | [] => Ok c
  | (i, val) :: vals => let! c := cht_AggregateLeafWith c i val in cht_fill vals c
  end.

Definition position_ok (capacity : Z) (p : Z * list Z) : Prop := 0 <= p.1 < capacity.

Lemma cht_fill_spec h capacity vals : forall c acc,
  cht_wf h capacity c -> Forall (position_ok capacity) vals ->
  (forall j, 0 <= j < 2 ^ h -> ht_leaf h (cht_hashtree c) j = leaf_of (mapped c acc) j) ->
  exists t, cht_fill vals c = Ok (with_tree c t) /\ cht_wf h capacity (with_tree c t) /\
    forall j, 0 <= j < 2 ^ h -> ht_leaf h t j = leaf_of (mapped c (acc ++ vals)) j.
Proof.
  induction vals as [|[i val] vals IH]; intros c acc W Hok Hl; cbn [cht_fill].
  { exists (cht_hashtree c). rewrite app_nil_r. destruct c. done. }
  inversion_clear Hok as [|? ? Hi Hok']. cbn in Hi.
  unfold cht_AggregateLeafWith. destruct (mapLeaf_spec h capacity c W i Hi) as (m & Em & Hm & _).
  rewrite Em. cbn [obind].
  destruct (Aggregate_spec h (cht_hashtree c) m val (cwf_inv _ _ _ W) Hm) as (t1 & -> & I1 & L1).
  cbn [obind].
  destruct (IH (with_tree c t1) (acc ++ [(i, val)])) as (t & -> & Wt & Lt); [by apply with_tree_wf|done| |].
  - intros j Hj. cbn [with_tree cht_hashtree]. rewrite L1 by done.
    assert (Eix : leaf_index c i = m) by (unfold leaf_index; by rewrite Em).
    change (mapped (with_tree c t1)) with (mapped c). unfold mapped. rewrite map_app.
    cbn [map fst snd]. rewrite Eix, leaf_of_snoc. fold (mapped c acc).
    destruct (Z.eqb_spec j m) as [->|]; by rewrite Hl.
  - exists t. split; [done|]. split; [done|]. intros j Hj. rewrite Lt by done.
    by rewrite <- app_assoc.
Qed.

Lemma height_loop_ge fuel n h0 : h0 <= height_loop fuel n h0.
Proof.
  revert n h0; induction fuel as [|fuel IH]; intros n h0; cbn [height_loop]; [lia|].
  case_if; [|lia]. specialize (IH (Z.shiftr n 1) (h0 + 1)). lia.
Qed.

Lemma NewCompact_wf capacity maxHeight :
  1 <= capacity < 2 ^ 64 -> 0 <= maxHeight <= 20 ->
  exists h c, NewCompactHashTree capacity maxHeight = Ok c /\ cht_wf h capacity c /\
    newCompactHashTree capacity (Some (cht_hashtree c)) = Ok c /\
    forall i, ht_node (cht_hashtree c) i = (0, 0).
Proof.
  intros Hc Hm. assert (Hr : 0 <= requiredHeight capacity).
  { unfold requiredHeight. destruct (capacity =? 1); [lia|]. pose proof (height_loop_ge 65 (u64 (capacity - 1)) 1). lia. }
  unfold NewCompactHashTree. exists (Z.min (requiredHeight capacity) maxHeight).
  replace (if maxHeight <? requiredHeight capacity then maxHeight else requiredHeight capacity)
    with (Z.min (requiredHeight capacity) maxHeight) by (destruct (Z.ltb_spec maxHeight (requiredHeight capacity)); lia).
  destruct (NewHashTree_inv (Z.min (requiredHeight capacity) maxHeight)) as (t & -> & I & H0); [lia|].
  cbn [obind]. destruct (newCompact_wf _ capacity t I Hc) as (c & E' & W & E); [lia|].
  exists c. rewrite E, E'. done.
Qed.

(** Diff of two filled trees, read as ranges. *)
Definition diff_ranges (c1 c2 : CompactHashTree) : outcome ht_error (list (Z * Z)) :=
  let! (res, _, _) := cht_Diff c1 (Some c2) in
  let! r := cht_NewRangeReader c1 (Some res) in
  all_ranges (S (Z.to_nat (cht_leavesCount c1))) r.

Lemma diff_ranges_spec h capacity c1 c2 leaf1 leaf2 :
  cht_wf h capacity c1 -> cht_wf h capacity c2 ->
  (forall j, 0 <= j < 2 ^ h -> ht_leaf h (cht_hashtree c1) j = leaf1 j) ->
  (forall j, 0 <= j < 2 ^ h -> ht_leaf h (cht_hashtree c2) j = leaf2 j) ->
  exists ranges, diff_ranges c1 c2 = Ok ranges /\
    Forall (fun r => 0 <= r.1 /\ r.2 < capacity) ranges /\
    forall i, 0 <= i < capacity ->
      Exists (covers i) ranges <->
      walk_bit h leaf1 leaf2 (Z.to_nat h) (leaf_index c1 i) = true /\
      leaf1 (leaf_index c1 i) <> leaf2 (leaf_index c1 i).
Proof.
  intros W1 W2 L1 L2. pose proof (height_range h capacity c1 W1) as Hh.
  destruct (pow2_split h ltac:(lia)) as [_ Hp]. unfold diff_ranges, cht_Diff.
  destruct (ht_Diff_spec h leaf1 leaf2 Hh (cht_hashtree c1) (cht_hashtree c2)
    (cwf_inv _ _ _ W1) L1 (cwf_inv _ _ _ W2) L2) as (res & t1 & t2 & -> & Wr & Hs & Hb).
  cbn [obind]. unfold cht_NewRangeReader, NewRangeReader, LeavesCount.
  destruct (shape_height _ _ (inv_shape _ _ (cwf_inv _ _ _ W1))) as [_ ->].
  rewrite shift1, Hs, Z.eqb_refl by lia. cbn [negb obind]. rewrite (cwf_leaves _ _ _ W1).
  destruct (all_ranges_spec h capacity c1 W1 res (S (Z.to_nat (2 ^ h))) 0 Wr Hs)
    as (l & -> & Hall & Hl); [lia|lia|].
  exists l. split; [done|]. split; [done|]. intros i Hi.
  destruct (mapLeaf_spec h capacity c1 W1 i Hi) as (m & Em & Hm & Hgr).
  unfold leaf_index. rewrite Em, (Hl i m Hm Hgr), Hb, andb_true_iff by done.
  unfold level_differs, differ. rewrite bool_decide_eq_true, Z2Nat.id, Z.sub_diag by lia.
  cbn [merkle Z.to_nat]. split; [tauto|]. intros [? ?]. split; [lia|done].
Qed.

(** ** Serialization *)

Lemma field_at {A} n k (p q r : list A) :
  length p = n -> length q = k -> take k (drop n (p ++ q ++ r)) = q.
Proof. intros <- <-. apply take_drop_mid. Qed.

Lemma ReadFull_app n (p r : list Z) : length p = n -> ReadFull n (p ++ r) = Ok (p, r).
Proof.
  intros <-. unfold ReadFull. destruct (Nat.ltb_spec (length (p ++ r)) (length p)) as [Hl|_].
  - rewrite length_app in Hl. lia.
  - by rewrite take_app_length, drop_app_length.
Qed.

Lemma length_MarshalBinary d : length (MarshalBinary d) = DigestLength.
Proof. unfold MarshalBinary. by rewrite length_app, !length_be_split. Qed.

Lemma Unmarshal_Marshal d : digest_u64 d -> UnmarshalBinary (MarshalBinary d) = Ok d.
Proof.
  intros [H1 H2]. unfold UnmarshalBinary. rewrite length_MarshalBinary, Nat.eqb_refl. cbn [negb].
  assert (E8 : 256 ^ Z.of_nat 8 = 2 ^ 64) by reflexivity. unfold MarshalBinary.
  rewrite take_app_length', (drop_app_length' _ _ 8), (take_ge (be_split 8 d.2))
    by (rewrite ?length_be_split; lia).
  rewrite !be_combine_split by (rewrite E8; assumption). by destruct d.
Qed.

Lemma read_leaves_spec ds : forall pos nodes rest,
  Forall digest_u64 ds -> (pos + length ds = length nodes)%nat ->
  read_leaves (length ds) pos nodes (concat (map MarshalBinary ds) ++ rest)
  = Ok (take pos nodes ++ ds, rest).
Proof.
  induction ds as [|d ds IH]; intros pos nodes rest Hu Hl; cbn [read_leaves length map concat] in *.
  - by rewrite app_nil_r, take_ge by lia.
  - inversion_clear Hu as [|? ? Hd Hu']. rewrite <- app_assoc, ReadFull_app by apply length_MarshalBinary.
    cbn [obind]. rewrite Unmarshal_Marshal by done. cbn [obind].
    rewrite IH by (rewrite ?length_insert; done || lia).
    rewrite (take_S_r _ _ d) by (apply list_lookup_insert_eq; lia).
    by rewrite take_insert_ge, <- app_assoc by lia.
Qed.

Lemma length_header_prefix height root : length (header_prefix height root) = 25%nat.
Proof.
  unfold header_prefix. by rewrite !length_app, !length_be_split, length_MarshalBinary.
Qed.

(** The fields of a header with the checksum [s]. *)
Lemma header_fields height root s :
  length s = DigestLength ->
  let full := header_prefix height root ++ s in
  length full = 41%nat /\ take 4 full = be_split 4 hashTreeMagicNumber /\
  full !! 4%nat = Some hashTreeVersion /\ take 4 (drop 5 full) = be_split 4 (u32 height) /\
  take DigestLength (drop 9 full) = MarshalBinary root /\
  take DigestLength (drop 25 full) = s /\ take 25 full = header_prefix height root.
Proof.
  intros Hs full. pose proof (length_header_prefix height root) as H25.
  assert (E : full = be_split 4 hashTreeMagicNumber ++ [hashTreeVersion] ++ be_split 4 (u32 height)
    ++ MarshalBinary root ++ s) by (unfold full, header_prefix; by rewrite <- !app_assoc).
  assert (H4 : forall v, length (be_split 4 v) = 4%nat) by (intros; apply length_be_split).
  split; [unfold full; by rewrite length_app, H25, Hs|].
  split; [rewrite E; by apply (take_app_length' _ _ 4)|].
  split; [by rewrite E, lookup_app_r, H4 by (rewrite H4; lia)|].
  split; [rewrite E, (app_assoc _ [_]); apply field_at; rewrite ?length_app, ?H4; done|].
  split; [rewrite E, (app_assoc _ [_]), app_assoc; apply field_at; rewrite ?length_app, ?H4; [done|]; apply length_MarshalBinary|].
  split.
  - unfold full. rewrite drop_app_length' by done. by rewrite take_ge by (rewrite Hs; lia).
  - unfold full. by rewrite take_app_length' by done.
Qed.

Lemma valid_checksum hdr : validHeaderChecksum (headerChecksum hdr) hdr = true.
Proof. unfold validHeaderChecksum. by rewrite bool_decide_true. Qed.

Lemma parse_header height root :
  0 <= height <= 20 -> digest_u64 root ->
  parseHashTreeHeader (header_prefix height root ++ headerChecksum (header_prefix height root))
  = Ok (height, root).
Proof.
  intros Hh Hr.
  destruct (header_fields height root (headerChecksum (header_prefix height root)))
    as (F0 & F1 & F2 & F3 & F4 & F5 & F6); [apply length_MarshalBinary|].
  unfold parseHashTreeHeader. rewrite F0, F1, F2, F3, F4, F5, F6, valid_checksum.
  assert (E32 : 256 ^ Z.of_nat 4 = 2 ^ 32) by reflexivity.
  rewrite !be_combine_split, u32_small
    by (rewrite ?E32; unfold is_u32, u32, hashTreeMagicNumber; try apply Z.mod_pos_bound; lia).
  rewrite Z.eqb_refl, bool_decide_true, Unmarshal_Marshal by done. cbn [negb obind].
  unfold MaxHeight. by destruct (Z.ltb_spec 20 height); [lia|].
Qed.

(** The leaves determine a tree in sync. *)
Lemma synced_unique h leaf t t' :
  ht_synced h leaf t -> ht_synced h leaf t' -> ht_nodes t = ht_nodes t'.
Proof.
  intros S S'. pose proof (inv_shape _ _ (synced_inv _ _ _ S)) as P.
  pose proof (inv_shape _ _ (synced_inv _ _ _ S')) as P'.
  destruct (shape_height _ _ P) as [Hh _]. destruct (pow2_split h ltac:(lia)) as [Hp Hp1].
  assert (Hn : forall k n, 0 <= n < 2 ^ (h + 1) - 1 -> 2 ^ (h + 1) - 1 - n <= Z.of_nat k ->
    ht_node t n = ht_node t' n).
  { induction k as [|k IH]; intros n Hn Hk; [lia|]. destruct (Z_lt_le_dec n (2 ^ h - 1)).
    - rewrite (synced_nodes _ _ _ S n), (synced_nodes _ _ _ S' n) by lia. f_equal; apply IH; lia.
    - replace n with (2 ^ h - 1 + (n - (2 ^ h - 1))) by lia.
      by rewrite (synced_leaf _ _ _ S), (synced_leaf _ _ _ S') by lia. }
  pose proof (shape_nodes _ _ P). pose proof (shape_nodes _ _ P'). apply list_eq. intros i.
  destruct (decide (i < length (ht_nodes t))%nat).
  - specialize (Hn (Z.to_nat (2 ^ (h + 1))) (Z.of_nat i) ltac:(lia) ltac:(lia)). unfold ht_node in Hn.
    rewrite Nat2Z.id in Hn. destruct (lookup_lt_is_Some_2 (ht_nodes t) i) as [x Ex]; [lia|].
    destruct (lookup_lt_is_Some_2 (ht_nodes t') i) as [y Ey]; [lia|].
    rewrite Ex, Ey in *. by f_equal.
  - by rewrite !lookup_ge_None_2 by lia.
Qed.

(** The tree [DeserializeHashTree] builds before it computes the root. *)
Lemma restored_tree h t t0 :
  ht_shape h t -> NewHashTree h = Ok t0 -> ht_inv h t0 -> 
  let nodes := take (Z.to_nat (2 ^ h - 1)) (ht_nodes t0) ++ drop (Z.to_nat (2 ^ h - 1)) (ht_nodes t) in
  ht_inv h (with_nodes t0 nodes (ht_syncState t0)) /\
  forall j, 0 <= j < 2 ^ h -> ht_leaf h (with_nodes t0 nodes (ht_syncState t0)) j = ht_leaf h t j.
Proof.
  intros S HN I0 nodes. destruct (shape_height _ _ S) as [Hh _].
  destruct (pow2_split h ltac:(lia)) as [Hp Hp1]. pose proof (inv_shape _ _ I0) as S0.
  pose proof (shape_nodes _ _ S) as Hl. pose proof (shape_nodes _ _ S0) as Hl0.
  assert (Hbits : forall i, bit (ht_syncState t0) i = false).
  { unfold NewHashTree in HN. destruct (_ || _); [done|]. injection HN as <-. cbn [ht_syncState].
    apply NewBitset_wf. unfold NodesCount. rewrite shift1 by lia. lia. }
  split.
  - split; cbn [with_nodes].
    + destruct S0. split; cbn [with_nodes ht_height ht_nodes ht_syncState ht_innerNodesCount]; try done.
      * subst nodes. rewrite length_app, length_take, length_drop. lia.
      * apply Forall_app. split; [by apply Forall_take|]. apply Forall_drop, S.
    + intros n _. unfold ht_bit. cbn [with_nodes ht_syncState]. by rewrite Hbits.
    + unfold ht_bit. cbn [with_nodes ht_syncState]. by rewrite Hbits.
  - intros j Hj. unfold ht_leaf, ht_node. cbn [with_nodes ht_nodes]. subst nodes.
    rewrite lookup_app_r by (rewrite length_take; lia). rewrite lookup_drop, length_take.
    do 2 f_equal. lia.
Qed.

Lemma synced_ext h leaf leaf' t :
  (forall j, 0 <= j < 2 ^ h -> leaf j = leaf' j) -> ht_synced h leaf t -> ht_synced h leaf' t.
Proof. intros He []. split; try done. intros i Hi. rewrite <- He by done. auto. Qed.

(** Two trees in sync with the same content. *)
Definition same_content (t t' : HashTree) : Prop :=
  ht_height t' = ht_height t /\ ht_nodes t' = ht_nodes t /\
  ht_innerNodesCount t' = ht_innerNodesCount t.

Lemma Serialize_roundtrip h t rest :
  ht_inv h t ->
  exists bytes t' t'', ht_Serialize t = Ok (bytes, t') /\
    DeserializeHashTree (bytes ++ rest) = Ok (t'', rest) /\
    ReadHashTreeRoot (bytes ++ rest) = Ok (merkle (ht_leaf h t) (Z.to_nat h) 0, h) /\
    same_content t' t'' /\ ht_synced h (ht_leaf h t) t' /\ ht_synced h (ht_leaf h t) t''.
Proof.
  intros Hi. destruct (ht_Root_spec h t Hi) as (t' & HR & S').
  pose proof (inv_shape _ _ (synced_inv _ _ _ S')) as P'. destruct (shape_height _ _ P') as [Hh Hht].
  destruct (pow2_split h ltac:(lia)) as [Hp Hp1]. pose proof (shape_nodes _ _ P') as Hl.
  set (root := merkle (ht_leaf h t) (Z.to_nat h) 0) in *.
  assert (Hroot : digest_u64 root).
  { apply merkle_u64. intros i. apply (node_u64 h), Hi. }
  destruct (NewHashTree_inv h Hh) as (t0 & HN & I0 & _).
  destruct (restored_tree h t' t0 P' HN I0) as [Ir Lr].
  set (nodes := take _ _ ++ drop _ _) in *.
  destruct (ht_Root_spec h _ Ir) as (t'' & HR' & S'').
  assert (Lrt : forall j, 0 <= j < 2 ^ h ->
    ht_leaf h (with_nodes t0 nodes (ht_syncState t0)) j = ht_leaf h t j).
  { intros j Hj. rewrite Lr by done. by apply (synced_leaf _ _ _ S'). }
  rewrite (merkle_ext _ (ht_leaf h t)) in HR' by (intros; apply Lrt; rewrite Z2Nat.id in *; lia).
  apply (synced_ext _ _ _ _ Lrt) in S''. fold root in HR'.
  unfold ht_Serialize. rewrite HR. cbn [obind]. eexists _, t', t''. split; [reflexivity|].
  rewrite Hht, (shape_inner _ _ P'). unfold DeserializeHashTree, ReadHashTreeRoot.
  rewrite app_assoc, <- (app_assoc (_ ++ headerChecksum _)).
  rewrite ReadFull_app by (rewrite length_app, length_header_prefix; unfold headerChecksum; by rewrite length_MarshalBinary).
  cbn [obind]. rewrite parse_header by done. cbn [obind]. rewrite HN. cbn [obind].
  destruct (shape_height _ _ (inv_shape _ _ I0)) as [_ ->]. rewrite (shape_inner _ _ (inv_shape _ _ I0)).
  unfold LeavesCount. rewrite shift1 by lia.
  replace (Z.to_nat (2 ^ h)) with (length (drop (Z.to_nat (2 ^ h - 1)) (ht_nodes t')))
    by (rewrite length_drop; lia).
  pose proof (shape_nodes _ _ (inv_shape _ _ I0)).
  rewrite read_leaves_spec by (try (apply Forall_drop, P'); rewrite length_drop; lia).
  cbn [obind]. fold nodes. rewrite HR'. cbn [obind]. rewrite decide_True by done.
  split; [done|]. split; [done|]. split; [|done].
  pose proof (inv_shape _ _ (synced_inv _ _ _ S'')) as P''. unfold same_content.
  rewrite (synced_unique h _ _ _ S'' S'), (shape_inner _ _ P'), (shape_inner _ _ P'').
  by destruct (shape_height _ _ P'') as [_ ->].
Qed.

(** The derived values depend on the capacity and the height only. *)
Lemma newCompact_swap capacity t t' c :
  newCompactHashTree capacity (Some t) = Ok c -> ht_height t' = ht_height t ->
  newCompactHashTree capacity (Some t') = Ok (with_tree c t').
Proof.
  unfold newCompactHashTree. destruct (capacity <? 1); [done|]. intros HN ->.
  destruct (_ <? _); [done|]. by injection HN as <-.
Qed.

Lemma compact_header_fields capacity s :
  length s = DigestLength ->
  let hdr := be_split 4 compactHashTreeMagicNumber ++ [compactHashtreeVersion] ++ be_split 8 capacity in
  length (hdr ++ s) = compactHashtreeHeaderLength /\
  take 4 (hdr ++ s) = be_split 4 compactHashTreeMagicNumber /\
  (hdr ++ s) !! 4%nat = Some compactHashtreeVersion /\ take 8 (drop 5 (hdr ++ s)) = be_split 8 capacity /\
  take DigestLength (drop 13 (hdr ++ s)) = s /\ take 13 (hdr ++ s) = hdr.
Proof.
  intros Hs hdr. assert (E : hdr ++ s = be_split 4 compactHashTreeMagicNumber
    ++ [compactHashtreeVersion] ++ be_split 8 capacity ++ s) by (unfold hdr; by rewrite <- !app_assoc).
  assert (H13 : length hdr = 13%nat) by (unfold hdr; by rewrite !length_app, !length_be_split).
  assert (H4 : forall v, length (be_split 4 v) = 4%nat) by (intros; apply length_be_split).
  split; [by rewrite length_app, H13, Hs|].
  split; [rewrite E; by apply (take_app_length' _ _ 4)|].
  split; [by rewrite E, lookup_app_r, H4 by (rewrite H4; lia)|].
  split; [rewrite E, (app_assoc _ [_]); apply field_at; rewrite ?length_app, ?length_be_split; done|].
  split.
  - rewrite drop_app_length' by done. by rewrite take_ge by (rewrite Hs; lia).
  - by rewrite take_app_length' by done.
Qed.

Lemma cht_roundtrip h capacity c rest :
  cht_wf h capacity c -> newCompactHashTree capacity (Some (cht_hashtree c)) = Ok c ->
  exists bytes t' t'', cht_Serialize c = Ok (bytes, with_tree c t') /\
    DeserializeCompactHashTree (bytes ++ rest) = Ok (with_tree c t'', rest) /\
    same_content t' t'' /\ ht_synced h (ht_leaf h (cht_hashtree c)) t' /\
    ht_synced h (ht_leaf h (cht_hashtree c)) t''.
Proof.
  intros W HN. destruct (cwf_cap _ _ _ W) as [Hcap Hc].
  destruct (Serialize_roundtrip h (cht_hashtree c) rest (cwf_inv _ _ _ W))
    as (bs & t' & t'' & HS & HD & _ & Hsame & S' & S'').
  set (hdr := be_split 4 compactHashTreeMagicNumber ++ [compactHashtreeVersion] ++ be_split 8 capacity).
  destruct (compact_header_fields capacity (headerChecksum hdr) (length_MarshalBinary _))
    as (F0 & F1 & F2 & F3 & F4 & F5). fold hdr in F0, F1, F2, F3, F4, F5.
  unfold cht_Serialize. rewrite HS, Hcap. fold hdr. cbn [obind].
  eexists _, t', t''. split; [reflexivity|]. split; [|done].
  unfold DeserializeCompactHashTree. rewrite app_assoc, <- (app_assoc (hdr ++ _)), ReadFull_app by exact F0.
  cbn [obind]. rewrite F1, F2, F3, F4, F5, valid_checksum.
  assert (E32 : 256 ^ Z.of_nat 4 = 2 ^ 32) by reflexivity.
  assert (E64 : 256 ^ Z.of_nat 8 = 2 ^ 64) by reflexivity.
  rewrite !be_combine_split by (rewrite ?E32, ?E64; unfold compactHashTreeMagicNumber; lia).
  rewrite Z.eqb_refl, bool_decide_true by done. cbn [negb]. rewrite HD. cbn [obind].
  rewrite (newCompact_swap _ _ t'' _ HN); [done|].
  destruct (shape_height _ _ (inv_shape _ _ (cwf_inv _ _ _ W))) as [_ ->].
  by destruct (shape_height _ _ (inv_shape _ _ (synced_inv _ _ _ S''))) as [_ ->].
Qed.

(** * Properties *)

(** Comparing two compact trees (any capacity below 2^64, any maximal height
    up to 20) yields position ranges inside the capacity; the iteration ends; a
    position is covered only if the values aggregated into its group differ
    between the two sides, and a position whose group differs is covered, unless at a
    node above the group the two trees hash different bytes to the same digest. *)
Lemma compact_diff_exact (capacity maxHeight : Z) (vals1 vals2 : list (Z * list Z)) :
  1 <= capacity < 2 ^ 64 -> 0 <= maxHeight <= 20 ->
  Forall (position_ok capacity) vals1 -> Forall (position_ok capacity) vals2 ->
  exists c c1 c2 ranges,
    NewCompactHashTree capacity maxHeight = Ok c /\
    cht_fill vals1 c = Ok c1 /\ cht_fill vals2 c = Ok c2 /\
    diff_ranges c1 c2 = Ok ranges /\
    Forall (fun r => 0 <= r.1 /\ r.2 < capacity) ranges /\
    forall i, 0 <= i < capacity ->
      (Exists (covers i) ranges -> group_digest c vals1 i <> group_digest c vals2 i) /\
      (group_digest c vals1 i <> group_digest c vals2 i -> Exists (covers i) ranges \/
        collides_above (ht_height (cht_hashtree c)) (leaf_of (mapped c vals1)) (leaf_of (mapped c vals2)) (leaf_index c i)).
Proof.
  intros Hc Hm Hok1 Hok2.
  destruct (NewCompact_wf capacity maxHeight Hc Hm) as (h & c & HN & W & _ & H0).
  destruct (cht_fill_spec h capacity vals1 c [] W Hok1) as (t1 & E1 & W1 & L1); [intros; apply H0|].
  destruct (cht_fill_spec h capacity vals2 c [] W Hok2) as (t2 & E2 & W2 & L2); [intros; apply H0|].
  destruct (diff_ranges_spec h capacity _ _ (leaf_of (mapped c vals1)) (leaf_of (mapped c vals2))
    W1 W2 L1 L2) as (ranges & HD & Hall & Hr).
  exists c, (with_tree c t1), (with_tree c t2), ranges. do 5 (split; [done|]).
  intros i Hi. rewrite (Hr i Hi). change (leaf_index (with_tree c t1) i) with (leaf_index c i).
  unfold group_digest. split; [tauto|]. intros Hd. pose proof (height_range h capacity c W) as Hh.
  assert (Hlev : level_differs h (leaf_of (mapped c vals1)) (leaf_of (mapped c vals2)) (Z.to_nat h)
    (leaf_index c i) = true).
  { unfold level_differs, differ. by rewrite bool_decide_eq_true, Z2Nat.id, Z.sub_diag by lia. }
  rewrite (proj2 (shape_height _ _ (inv_shape _ _ (cwf_inv _ _ _ W)))).
  destruct (leaf_differs_walk h (leaf_of (mapped c vals1)) (leaf_of (mapped c vals2)) Hh _ (leaf_of_u64 _) (leaf_of_u64 _) Hlev); [by left|by right].
Qed.

(** A compact tree survives its serialization.  Reading back what
    [Serialize] wrote, followed by anything, consumes exactly those bytes and
    passes every header check; the restored tree has the capacity, the grouping
    and all the digests of the original, and comparing it with the original
    reports no position. *)
Lemma serialization_roundtrip (capacity maxHeight : Z) (vals : list (Z * list Z)) (rest : list Z) :
  1 <= capacity < 2 ^ 64 -> 0 <= maxHeight <= 20 -> Forall (position_ok capacity) vals ->
  exists c c1 bytes c1' c2 ranges,
    NewCompactHashTree capacity maxHeight = Ok c /\ cht_fill vals c = Ok c1 /\
    cht_Serialize c1 = Ok (bytes, c1') /\
    DeserializeCompactHashTree (bytes ++ rest) = Ok (c2, rest) /\
    c2 = with_tree c1' (cht_hashtree c2) /\ same_content (cht_hashtree c1') (cht_hashtree c2) /\
    diff_ranges c1 c2 = Ok ranges /\ forall i, 0 <= i < capacity -> ~ Exists (covers i) ranges.
Proof.
  intros Hc Hm Hok.
  destruct (NewCompact_wf capacity maxHeight Hc Hm) as (h & c & HN & W & HE & H0).
  destruct (cht_fill_spec h capacity vals c [] W Hok) as (t1 & E1 & W1 & L1); [intros; apply H0|].
  assert (HE1 : newCompactHashTree capacity (Some t1) = Ok (with_tree c t1)).
  { apply (newCompact_swap _ _ _ _ HE). destruct (shape_height _ _ (inv_shape _ _ (cwf_inv _ _ _ W))) as [_ ->].
    apply (shape_height _ _ (inv_shape _ _ (cwf_inv _ _ _ W1))). }
  destruct (cht_roundtrip h capacity (with_tree c t1) rest W1 HE1)
    as (bs & t' & t'' & HS & HD & Hsame & S' & S'').
  assert (W2 : cht_wf h capacity (with_tree (with_tree c t1) t'')) by apply (with_tree_wf _ _ _ W1), S''.
  destruct (diff_ranges_spec h capacity _ _ (ht_leaf h t1) (ht_leaf h t1) W1 W2)
    as (ranges & HR & _ & Hr); [done|intros j Hj; by apply (synced_leaf _ _ _ S'')|].
  exists c, (with_tree c t1), bs, (with_tree (with_tree c t1) t'), (with_tree (with_tree c t1) t''), ranges.
  do 7 (split; [done|]). intros i Hi. rewrite (Hr i Hi). by intros [_ []].
Qed.
End Compact.

(** * Witnesses *)

Lemma compact_diff_exact_witness :
  exists c c1 c2 ranges,
    NewCompactHashTree 10 2 = Ok c /\ cht_fill [(1, [7]); (9, [2])] c = Ok c1 /\
    cht_fill [(1, [7])] c = Ok c2 /\ diff_ranges c1 c2 = Ok ranges /\
    (group_digest c [(1, [7]); (9, [2])] 8 <> group_digest c [(1, [7])] 8 ->
     Exists (covers 8) ranges \/ collides_above (ht_height (cht_hashtree c)) (leaf_of (mapped c [(1, [7]); (9, [2])])) (leaf_of (mapped c [(1, [7])])) (leaf_index c 8)).
Proof.
  destruct (compact_diff_exact 10 2 [(1, [7]); (9, [2])] [(1, [7])])
    as (c & c1 & c2 & ranges & H1 & H2 & H3 & H4 & _ & H5); [lia|lia| | |].
  - repeat constructor; cbn; lia.
  - repeat constructor; cbn; lia.
  - exists c, c1, c2, ranges. do 4 (split; [assumption|]). apply (H5 8). lia.
Defined.

Lemma serialization_roundtrip_witness :
  exists c c1 bytes c1' c2,
    NewCompactHashTree 10 2 = Ok c /\ cht_fill [(1, [7]); (9, [2])] c = Ok c1 /\
    cht_Serialize c1 = Ok (bytes, c1') /\ DeserializeCompactHashTree (bytes ++ [1; 2]) = Ok (c2, [1; 2]).
Proof.
  destruct (serialization_roundtrip 10 2 [(1, [7]); (9, [2])] [1; 2])
    as (c & c1 & bytes & c1' & c2 & ranges & H1 & H2 & H3 & H4 & _); [lia|lia| |].
  - repeat constructor; cbn; lia.
  - exists c, c1, bytes, c1', c2. do 3 (split; [assumption|]). exact H4.
Defined.
