(* ===== verification/SegmentIndex.v ===== *)
(** * adapters/repos/db/lsmkv/segmentindex: writing an index

    [tree.go]: the sorted keys of a segment are laid out as a balanced search
    tree in heap order ([fillBFS]), the nodes are written in van Emde Boas order
    ([vebPositions]) and linked by byte offsets ([vebOffsets], [childOffset]).
    The reader is DiskTree.v.  Keys are lists of bytes; an [io.Writer] is the
    list of bytes written. *)

From S2P Require Import Prelude ByteOps.

Inductive index_error : Type :=
| NotFound
| ErrCorruptIndex
| ErrIndexEOF
| ErrByteops (e : byteops_error)
| ErrDataStartOffset
| ErrListedTwice (si : Z)
| ErrNoOffset (si : Z).

(** ** key_index.go *)

Record Key : Type := IndexKey {
  k_Key : list Z;
  k_SecondaryKeys : list (list Z);
  k_ValueStart : Z;
  k_ValueEnd : Z
}.

Record KeyRedux : Type := IndexKeyRedux { kr_Key : list Z; kr_ValueEnd : Z }.

(** ** The shape of the tree *)

(** [math/bits.Len] *)
Definition bits_Len (n : Z) : Z := if n <=? 0 then 0 else Z.log2 n + 1.

Definition balancedTreeCapacity (n : Z) : Z := if n <=? 0 then 0 else Z.shiftl 1 (bits_Len n).

(** The bounds shrink with every call, so the fuel is the number of keys. *)
Fixpoint fillBFS (fuel : nat) (bfsToSorted : list Z) (targetPos leftBound rightBound : Z) : list Z :=
  match fuel with
  | O => bfsToSorted
  | S fuel =>
      if (rightBound <? leftBound) || (Z.of_nat (length bfsToSorted) <=? targetPos) then bfsToSorted
      else
        let mid := (leftBound + rightBound) / 2 in
        let m := <[Z.to_nat targetPos := i32 mid]> bfsToSorted in
        let m := fillBFS fuel m (2 * targetPos + 1) leftBound (mid - 1) in
        fillBFS fuel m (2 * targetPos + 2) (mid + 1) rightBound
  end.

(** ** The order of the nodes *)

(** [mapping[p] >= 0] for a position inside the array *)
Definition present (mapping : list Z) (p : Z) : bool :=
  match mapping !! Z.to_nat p with Some si => (0 <=? p) && (0 <=? si) | None => false end.

(** [rec] of [vebPositions], with [h] levels to go; [h] shrinks with every call. *)
Fixpoint veb_rec (fuel : nat) (mapping : list Z) (root h : Z) : list Z :=
  match fuel with
  | O => []
  | S fuel =>
      if (h <=? 0) || negb (present mapping root) then []
      else if h =? 1 then [i32 root]
      else
        let topH := (h + 1) / 2 in
        let base := Z.shiftl (root + 1) topH - 1 in
        veb_rec fuel mapping root topH
        ++ concat (map (fun j => veb_rec fuel mapping (base + j) (h - topH)) (seqZ 0 (Z.shiftl 1 topH)))
  end.

Definition vebPositions (mapping : list Z) : list Z :=
  let height := bits_Len (Z.of_nat (length mapping)) - 1 in
  veb_rec (Z.to_nat height) mapping 0 height.

(** ** Offsets *)

Section Offsets.
Context (mapping : list Z) (nodeSize : Z -> outcome index_error Z).

(** [mapping[p]] *)
Definition sorted_index (p : Z) : outcome index_error Z :=
  match mapping !! Z.to_nat p with Some si => Ok si | None => Panic end.

(** The loop over [order]. *)
Fixpoint assign_offsets (order : list Z) (offsetOf : list Z) (total : Z)
  : outcome index_error (list Z * Z) :=
  match order with
  | [] => Ok (offsetOf, total)
  | p :: order =>
      let! si := sorted_index p in
      if si <? 0 then Panic
      else match offsetOf !! Z.to_nat si with
           | None => Panic
           | Some o =>
               if 0 <=? o then Err (ErrListedTwice si)
               else
                 let! size := nodeSize si in
                 assign_offsets order (<[Z.to_nat si := total]> offsetOf) (total + size)
           end
  end.

(** The check of the result, from index [si] on. *)
Fixpoint check_offsets (si : Z) (offsetOf : list Z) : outcome index_error unit :=
  match offsetOf with
  | [] => Ok tt
  | o :: offsetOf => if o <? 0 then Err (ErrNoOffset si) else check_offsets (si + 1) offsetOf
  end.

Definition vebOffsets (order : list Z) (nodeCount : Z) : outcome index_error (list Z * Z) :=
  let! (offsetOf, total) := assign_offsets order (replicate (Z.to_nat nodeCount) (-1)) 0 in
  let! _ := check_offsets 0 offsetOf in
  Ok (offsetOf, total).

Definition noChild : Z := -1.

Definition childOffset (offsetOf : list Z) (childPos : Z) : outcome index_error Z :=
  if (childPos <? Z.of_nat (length mapping)) && present mapping childPos then
    let! si := sorted_index childPos in
    match offsetOf !! Z.to_nat si with Some o => Ok o | None => Panic end
  else Ok noChild.
End Offsets.

(** ** The writers *)

Definition TREE_KEY_STORE_OVERHEAD : Z := 36.

Definition node_bytes (key : list Z) (start vend left right : Z) : list Z :=
  le_split 4 (u32 (Z.of_nat (length key))) ++ key
  ++ le_split 8 start ++ le_split 8 vend ++ le_split 8 (u64 left) ++ le_split 8 (u64 right).

(** Key, start and end of the node with a sorted index. *)
Notation entry := (list Z * Z * Z)%type.

Section Writer.
Context (entries : Z -> outcome index_error entry).

(** The write loop, common to the writers. *)
Fixpoint write_nodes (mapping offsetOf : list Z) (order : list Z) : outcome index_error (list Z) :=
  match order with
  | [] => Ok []
  | p :: order =>
      let! si := sorted_index mapping p in
      let! (key, start, vend) := entries si in
      let! leftChild := childOffset mapping offsetOf (2 * p + 1) in
      let! rightChild := childOffset mapping offsetOf (2 * p + 2) in
      let! rest := write_nodes mapping offsetOf order in
      Ok (node_bytes key start vend leftChild rightChild ++ rest)
  end.

(** The bytes written for [n] sorted entries and their number. *)
Definition marshal_sorted (n : Z) : outcome index_error (list Z * Z) :=
  let capacity := balancedTreeCapacity n in
  let bfsToSorted := fillBFS (Z.to_nat n) (replicate (Z.to_nat capacity) (-1)) 0 0 (n - 1) in
  let order := vebPositions bfsToSorted in
  let! (diskOffsets, totalSize) :=
    vebOffsets bfsToSorted
      (fun si => let! (key, _, _) := entries si in
                 Ok (TREE_KEY_STORE_OVERHEAD + Z.of_nat (length key)))
      order n in
  let! data := write_nodes bfsToSorted diskOffsets order in
  Ok (data, totalSize).
End Writer.

(** [keys[si]] *)
Definition key_at {A} (keys : list A) (si : Z) : outcome index_error A :=
  if si <? 0 then Panic
  else match keys !! Z.to_nat si with Some k => Ok k | None => Panic end.

(** The start of a node is the end of the previous key's data. *)
Definition redux_entry (keys : list KeyRedux) (dataStartOffset : Z) (si : Z)
  : outcome index_error entry :=
  let! key := key_at keys si in
  let! start := (if si =? 0 then Ok dataStartOffset
                 else let! prev := key_at keys (si - 1) in Ok (u64 (kr_ValueEnd prev))) in
  Ok (kr_Key key, start, u64 (kr_ValueEnd key)).

Definition MarshalSortedKeys (keys : list KeyRedux) (dataStartOffset : Z)
  : outcome index_error (list Z * Z) :=
  match keys with
  | [] => Ok ([], 0)
  | key0 :: _ =>
      if u64 (kr_ValueEnd key0) <? dataStartOffset then Err ErrDataStartOffset
      else marshal_sorted (redux_entry keys dataStartOffset) (Z.of_nat (length keys))
  end.

Definition key_entry (keys : list Key) (si : Z) : outcome index_error entry :=
  let! key := key_at keys si in
  Ok (k_Key key, u64 (k_ValueStart key), u64 (k_ValueEnd key)).

Definition MarshalSortedKeysFromKeys (keys : list Key) : outcome index_error (list Z * Z) :=
  match keys with
  | [] => Ok ([], 0)
  | _ => marshal_sorted (key_entry keys) (Z.of_nat (length keys))
  end.

Definition computePrimaryIndexSize (keys : list Key) : Z :=
  foldl (fun size key => size + (TREE_KEY_STORE_OVERHEAD + Z.of_nat (length (k_Key key)))) 0 keys.
