(* ===== verification/IndexLayout.v ===== *)
(** * adapters/repos/db/lsmkv/segmentindex: the layout of an index

    The array [fillBFS] fills holds a balanced search tree over the sorted
    indices; the van Emde Boas order lists its nodes once each, the root first;
    and the bytes written are a linked image of that tree ([encodes]). *)

From S2P Require Import Prelude SegmentIndex.

(** ** Trees of sorted indices *)

Inductive tree : Type :=
| Leaf
| Node (l : tree) (i : Z) (r : tree).

Fixpoint inorder (t : tree) : list Z :=
  match t with
  | Leaf => []
  | Node l i r => inorder l ++ i :: inorder r
  end.

Fixpoint tree_height (t : tree) : Z :=
  match t with
  | Leaf => 0
  | Node l _ r => 1 + Z.max (tree_height l) (tree_height r)
  end.

Fixpoint tree_size (t : tree) : Z :=
  match t with
  | Leaf => 0
  | Node l _ r => tree_size l + 1 + tree_size r
  end.

(** The tree over the indices from [lo] to [hi]. *)
Fixpoint build (fuel : nat) (lo hi : Z) : tree :=
  match fuel with
  | O => Leaf
  | S fuel =>
      if hi <? lo then Leaf
      else
        let mid := (lo + hi) / 2 in
        Node (build fuel lo (mid - 1)) mid (build fuel (mid + 1) hi)
  end.

Lemma mid_bounds lo hi :
  lo <= hi -> let mid := (lo + hi) / 2 in
  lo <= mid <= hi /\ mid - lo <= hi - mid <= mid - lo + 1.
Proof.
  intros Hle. cbn zeta. pose proof (Z.div_mod (lo + hi) 2). pose proof (Z.mod_pos_bound (lo + hi) 2). lia.
Qed.

Lemma build_inorder fuel : forall lo hi,
  lo <= hi + 1 -> hi - lo + 1 <= Z.of_nat fuel -> inorder (build fuel lo hi) = seqZ lo (hi - lo + 1).
Proof.
  induction fuel as [|fuel IH]; intros lo hi Hle Hf; cbn [build].
  { by rewrite seqZ_nil by lia. }
  destruct (Z.ltb_spec hi lo); cbn [inorder]; [by rewrite seqZ_nil by lia|].
  pose proof (mid_bounds lo hi ltac:(lia)) as Hm. cbn zeta in Hm. set (mid := (lo + hi) / 2) in *.
  rewrite (IH lo), (IH (mid + 1)) by lia. replace (hi - lo + 1) with ((mid - lo) + (hi - mid + 1)) by lia.
  rewrite (seqZ_app lo (mid - lo)) by lia. f_equal; [f_equal; lia|].
  replace (lo + (mid - lo)) with mid by lia. rewrite (seqZ_cons mid) by lia. f_equal. f_equal; lia.
Qed.

Lemma tree_height_nonneg t : 0 <= tree_height t.
Proof. induction t; cbn; lia. Qed.

Lemma tree_size_nonneg t : 0 <= tree_size t.
Proof. induction t; cbn; lia. Qed.

Lemma build_height fuel : forall lo hi h,
  0 <= h -> lo <= hi + 1 -> hi - lo + 1 < 2 ^ h -> tree_height (build fuel lo hi) <= h.
Proof.
  induction fuel as [|fuel IH]; intros lo hi h Hh Hle Hn; cbn [build tree_height]; [done|].
  destruct (Z.ltb_spec hi lo); cbn [tree_height]; [done|].
  destruct (Z.eq_dec h 0) as [->|]; [cbn in Hn; lia|].
  pose proof (mid_bounds lo hi ltac:(lia)) as Hm. cbn zeta in Hm.
  assert (E : 2 ^ h = 2 * 2 ^ (h - 1)) by (rewrite <- Z.pow_succ_r by lia; f_equal; lia).
  set (mid := (lo + hi) / 2) in *.
  pose proof (IH lo (mid - 1) (h - 1) ltac:(lia) ltac:(lia) ltac:(lia)).
  pose proof (IH (mid + 1) hi (h - 1) ltac:(lia) ltac:(lia) ltac:(lia)). lia.
Qed.

Lemma tree_size_inorder t : tree_size t = Z.of_nat (length (inorder t)).
Proof. induction t as [|l IHl i r IHr]; cbn; [done|]. rewrite length_app. cbn [length]. lia. Qed.

(** ** Heap positions *)

(** [q] is [p] or below it: at some depth [k] under [p]. *)
Definition desc (p q : Z) : Prop :=
  exists k, 0 <= k /\ (p + 1) * 2 ^ k <= q + 1 < (p + 2) * 2 ^ k.

Lemma desc_refl p : desc p p.
Proof. exists 0. lia. Qed.

Lemma desc_trans p q s : desc p q -> desc q s -> desc p s.
Proof.
  intros (k & Hk & Hq) (k' & Hk' & Hs). exists (k + k'). split; [lia|].
  rewrite Z.pow_add_r by lia. pose proof (Z.pow_pos_nonneg 2 k). pose proof (Z.pow_pos_nonneg 2 k').
  split; nia.
Qed.

Lemma desc_left p : 0 <= p -> desc p (2 * p + 1).
Proof. intros. exists 1. cbn. lia. Qed.

Lemma desc_right p : 0 <= p -> desc p (2 * p + 2).
Proof. intros. exists 1. cbn. lia. Qed.

Lemma desc_ge p q : 0 <= p -> desc p q -> p <= q.
Proof. intros Hp (k & Hk & Hq). pose proof (Z.pow_pos_nonneg 2 k). nia. Qed.

(** The subtrees of two siblings do not meet. *)
Lemma desc_siblings p q : 0 <= p -> desc (2 * p + 1) q -> desc (2 * p + 2) q -> False.
Proof.
  intros Hp (k & Hk & H1) (k' & Hk' & H2).
  pose proof (Z.pow_pos_nonneg 2 k). pose proof (Z.pow_pos_nonneg 2 k').
  destruct (Z.lt_trichotomy k k') as [Hlt|[->|Hlt]]; [|nia|].
  - assert (E : 2 ^ k' = 2 ^ (k' - k - 1) * (2 * 2 ^ k)).
    { rewrite <- Z.pow_succ_r, <- Z.pow_add_r by lia. f_equal. lia. }
    pose proof (Z.pow_pos_nonneg 2 (k' - k - 1)). nia.
  - assert (E : 2 ^ k = 2 ^ (k - k' - 1) * (2 * 2 ^ k')).
    { rewrite <- Z.pow_succ_r, <- Z.pow_add_r by lia. f_equal. lia. }
    pose proof (Z.pow_pos_nonneg 2 (k - k' - 1)).
    assert ((2 * p + 1 + 1) * (2 ^ (k - k' - 1) * (2 * 2 ^ k')) >= (2 * p + 4) * 2 ^ k') by nia. nia.
Qed.

(** The heap array [m] holds the tree [t] at position [p], and nothing else
    below [p]. *)
Fixpoint at_heap (m : list Z) (p : Z) (t : tree) : Prop :=
  match t with
  | Leaf => forall q, desc p q -> present m q = false
  | Node l i r =>
      m !! Z.to_nat p = Some i /\ 0 <= i /\ at_heap m (2 * p + 1) l /\ at_heap m (2 * p + 2) r
  end.

Lemma present_ext m m' q : m !! Z.to_nat q = m' !! Z.to_nat q -> present m q = present m' q.
Proof. unfold present. by intros ->. Qed.

Lemma at_heap_frame m m' t : forall p,
  0 <= p -> (forall q, desc p q -> m' !! Z.to_nat q = m !! Z.to_nat q) -> at_heap m p t -> at_heap m' p t.
Proof.
  induction t as [|l IHl i r IHr]; intros p Hp Hf; cbn [at_heap].
  - intros Ha q Hq. rewrite (present_ext m' m q) by auto. auto.
  - intros (Hi & H0 & Hl & Hr). split; [rewrite Hf; [done|apply desc_refl]|]. split; [done|]. split.
    + apply IHl; [lia| |done]. intros q Hq. apply Hf. eauto using desc_trans, desc_left.
    + apply IHr; [lia| |done]. intros q Hq. apply Hf. eauto using desc_trans, desc_right.
Qed.

(** What filling the subtree at [p] does to the array. *)
Record filled (m : list Z) (p : Z) (t : tree) (m' : list Z) : Prop := {
  filled_length : length m' = length m;
  filled_frame : forall q, 0 <= q -> ~ desc p q -> m' !! Z.to_nat q = m !! Z.to_nat q;
  filled_tree : at_heap m' p t
}.

Lemma filled_node m p l i r m2 m3 :
  0 <= p -> 0 <= i -> (Z.to_nat p < length m)%nat ->
  filled (<[Z.to_nat p := i]> m) (2 * p + 1) l m2 -> filled m2 (2 * p + 2) r m3 ->
  filled m p (Node l i r) m3.
Proof.
  intros Hp Hi Hlt [L2 F2 T2] [L3 F3 T3]. rewrite length_insert in L2.
  assert (Hnl : ~ desc (2 * p + 1) p) by (intros H%desc_ge; lia).
  assert (Hnr : ~ desc (2 * p + 2) p) by (intros H%desc_ge; lia).
  split; [lia| |].
  - intros q Hq Hnd. rewrite F3, F2; try done.
    + rewrite list_lookup_insert_ne; [done|]. intros E. apply Hnd.
      replace q with p by lia. apply desc_refl.
    + intros H. apply Hnd. eauto using desc_trans, desc_left.
    + intros H. apply Hnd. eauto using desc_trans, desc_right.
  - cbn [at_heap]. split; [|split; [done|split; [|done]]].
    + rewrite F3, F2 by done. by apply list_lookup_insert_eq.
    + apply (at_heap_frame m2); [lia| |done]. intros q Hq. apply F3; [pose proof (desc_ge (2 * p + 1) q ltac:(lia) Hq); lia|].
      intros H. eauto using desc_siblings.
Qed.

Lemma fillBFS_spec fuel : forall m p lo hi h,
  0 <= p -> 0 <= lo <= hi + 1 -> hi < 2 ^ 31 -> hi - lo + 1 <= Z.of_nat fuel ->
  0 <= h -> hi - lo + 1 < 2 ^ h -> (p + 2) * 2 ^ h <= 2 * Z.of_nat (length m) ->
  (forall q, desc p q -> present m q = false) ->
  filled m p (build fuel lo hi) (fillBFS fuel m p lo hi).
Proof.
  induction fuel as [|fuel IH]; intros m p lo hi h Hp Hlo Hhi Hf Hh Hn Hlen Hab; cbn [fillBFS build].
  { by split. }
  destruct (Z.ltb_spec hi lo); cbn [orb]; [by split|].
  destruct (Z.eq_dec h 0) as [->|]; [cbn in Hn; lia|].
  assert (E : 2 ^ h = 2 * 2 ^ (h - 1)) by (rewrite <- Z.pow_succ_r by lia; f_equal; lia).
  pose proof (Z.pow_pos_nonneg 2 (h - 1)).
  destruct (Z.leb_spec (Z.of_nat (length m)) p); [nia|].
  pose proof (mid_bounds lo hi ltac:(lia)) as Hm. cbn zeta in Hm.
  set (mid := (lo + hi) / 2) in *. rewrite (i32_small mid) by lia.
  assert (Hkeep : forall q, desc p q -> q <> p -> present (<[Z.to_nat p := mid]> m) q = false).
  { intros q Hq Hne. rewrite (present_ext _ m); [by apply Hab|].
    apply list_lookup_insert_ne. pose proof (desc_ge p q Hp Hq). lia. }
  assert (F1 : filled (<[Z.to_nat p := mid]> m) (2 * p + 1) (build fuel lo (mid - 1))
    (fillBFS fuel (<[Z.to_nat p := mid]> m) (2 * p + 1) lo (mid - 1))).
  { apply (IH _ _ _ _ (h - 1)); rewrite ?length_insert; try lia.
    intros q Hq. apply Hkeep; [eauto using desc_trans, desc_left|]. apply desc_ge in Hq; lia. }
  eapply filled_node; [lia|lia|lia|exact F1|].
  apply (IH _ _ _ _ (h - 1)); rewrite ?(filled_length _ _ _ _ F1), ?length_insert; try lia.
  intros q Hq. pose proof (desc_ge (2 * p + 2) q ltac:(lia) Hq).
  rewrite (present_ext _ (<[Z.to_nat p := mid]> m)).
  - apply Hkeep; [eauto using desc_trans, desc_right|lia].
  - apply (filled_frame _ _ _ _ F1); [lia|]. intros H'. eauto using desc_siblings.
Qed.

(** ** The van Emde Boas order *)

(** Heap positions of the nodes of [t] rooted at [p]. *)
Fixpoint positions (t : tree) (p : Z) : list Z :=
  match t with
  | Leaf => []
  | Node l _ r => p :: positions l (2 * p + 1) ++ positions r (2 * p + 2)
  end.

(** The top [h] levels, and subtree [j] below the top [a] levels. *)
Fixpoint truncate (h : nat) (t : tree) : tree :=
  match h, t with
  | S h, Node l i r => Node (truncate h l) i (truncate h r)
  | _, _ => Leaf
  end.

Fixpoint subtree (a : nat) (t : tree) (j : Z) : tree :=
  match a, t with
  | O, _ => t
  | S _, Leaf => Leaf
  | S a, Node l _ r => if j <? 2 ^ Z.of_nat a then subtree a l j else subtree a r (j - 2 ^ Z.of_nat a)
  end.

Definition bottom (a : nat) (root : Z) (j : Z) : Z := (root + 1) * 2 ^ Z.of_nat a - 1 + j.

Lemma concat_nil {A B} (f : A -> list B) l : (forall x, x ∈ l -> f x = []) -> concat (map f l) = [].
Proof.
  induction l as [|x l IH]; intros Hf; [done|]. cbn. rewrite Hf, IH by set_solver. done.
Qed.

Lemma concat_map_perm {A B} (f g : A -> list B) l :
  (forall x, x ∈ l -> f x ≡ₚ g x) -> concat (map f l) ≡ₚ concat (map g l).
Proof.
  induction l as [|x l IH]; intros Hf; [done|]. cbn. rewrite (Hf x) by set_solver.
  rewrite IH by set_solver. done.
Qed.

Lemma truncate_leaf h : truncate h Leaf = Leaf.
Proof. by destruct h. Qed.

Lemma subtree_leaf a j : subtree a Leaf j = Leaf.
Proof. by destruct a. Qed.

(** The bottom subtrees of a node are those of its children. *)
Lemma bottom_children (f : Z -> tree -> list Z) a l i r root :
  concat (map (fun j => f (bottom (S a) root j) (subtree (S a) (Node l i r) j)) (seqZ 0 (2 ^ Z.of_nat (S a))))
  = concat (map (fun j => f (bottom a (2 * root + 1) j) (subtree a l j)) (seqZ 0 (2 ^ Z.of_nat a)))
    ++ concat (map (fun j => f (bottom a (2 * root + 2) j) (subtree a r j)) (seqZ 0 (2 ^ Z.of_nat a))).
Proof.
  assert (E : 2 ^ Z.of_nat (S a) = 2 ^ Z.of_nat a + 2 ^ Z.of_nat a)
    by (rewrite Nat2Z.inj_succ, Z.pow_succ_r by lia; lia).
  pose proof (Z.pow_pos_nonneg 2 (Z.of_nat a)).
  rewrite E, seqZ_app, map_app, concat_app by lia. f_equal.
  - f_equal. apply map_ext_in. intros j Hj%list_elem_of_In%elem_of_seqZ. cbn [subtree].
    rewrite (proj2 (Z.ltb_lt _ _)) by lia. f_equal. unfold bottom. rewrite E. lia.
  - f_equal. rewrite (Z.add_comm 0 (2 ^ Z.of_nat a)), <- fmap_add_seqZ. change (fmap (M := list) ?g ?k) with (map g k).
    rewrite map_map. apply map_ext_in. intros j Hj%list_elem_of_In%elem_of_seqZ. cbn [subtree].
    rewrite (proj2 (Z.ltb_ge _ _)) by lia. f_equal; [unfold bottom; rewrite E; lia|f_equal; lia].
Qed.

(** Cutting a tree below its top [a] levels. *)
Lemma positions_cut a b : forall t root,
  positions (truncate (a + b) t) root
  ≡ₚ positions (truncate a t) root
     ++ concat (map (fun j => positions (truncate b (subtree a t j)) (bottom a root j))
                    (seqZ 0 (2 ^ Z.of_nat a))).
Proof.
  induction a as [|a IH]; intros t root.
  { cbn [Nat.add]. change (seqZ 0 (2 ^ Z.of_nat 0)) with [0]. cbn [map concat subtree].
    replace (truncate 0 t) with Leaf by (by destruct t). cbn [positions app]. rewrite app_nil_r.
    unfold bottom. replace ((root + 1) * 2 ^ Z.of_nat 0 - 1 + 0) with root by (cbn; lia). done. }
  destruct t as [|l i r].
  { rewrite !truncate_leaf. cbn [positions app]. rewrite concat_nil; [done|].
    intros j _. by rewrite subtree_leaf, truncate_leaf. }
  cbn [Nat.add truncate positions].
  rewrite (bottom_children (fun p t => positions (truncate b t) p)).
  rewrite (IH l (2 * root + 1)), (IH r (2 * root + 2)). rewrite <- app_comm_cons. f_equiv.
  rewrite <- !app_assoc. f_equiv. rewrite !app_assoc. f_equiv. apply Permutation_app_comm.
Qed.

Lemma at_heap_subtree m a : forall t root j,
  0 <= root -> at_heap m root t -> 0 <= j < 2 ^ Z.of_nat a ->
  at_heap m (bottom a root j) (subtree a t j).
Proof.
  induction a as [|a IH]; intros t root j Hr Ht Hj.
  { cbn [subtree]. unfold bottom. replace (_ - 1 + j) with root by (cbn in *; lia). done. }
  assert (E : 2 ^ Z.of_nat (S a) = 2 * 2 ^ Z.of_nat a)
    by (rewrite Nat2Z.inj_succ, Z.pow_succ_r by lia; lia).
  destruct t as [|l i r]; cbn [subtree].
  - intros q Hq. apply Ht. eapply desc_trans; [|exact Hq]. exists (Z.of_nat (S a)). unfold bottom. lia.
  - destruct Ht as (_ & _ & Hl & Hri). destruct (Z.ltb_spec j (2 ^ Z.of_nat a)).
    + replace (bottom (S a) root j) with (bottom a (2 * root + 1) j) by (unfold bottom; lia).
      apply IH; [lia|done|lia].
    + replace (bottom (S a) root j) with (bottom a (2 * root + 2) (j - 2 ^ Z.of_nat a))
        by (unfold bottom; lia). apply IH; [lia|done|lia].
Qed.

Lemma at_heap_present m p t : 0 <= p -> at_heap m p t -> present m p = negb (bool_decide (tree_size t = 0)).
Proof.
  intros Hp Ht. destruct t as [|l i r]; cbn [at_heap] in Ht.
  - by rewrite (Ht p (desc_refl p)).
  - destruct Ht as (Hi & H0 & _). unfold present. rewrite Hi.
    rewrite (proj2 (Z.leb_le 0 p)), (proj2 (Z.leb_le 0 i)) by lia.
    pose proof (tree_size_nonneg l). pose proof (tree_size_nonneg r).
    rewrite bool_decide_false by (cbn; lia). done.
Qed.

Lemma at_heap_node m p t :
  0 <= p -> at_heap m p t -> present m p = true -> exists l i r, t = Node l i r.
Proof.
  intros Hp Ht Hpr. destruct t as [|l i r]; [|eauto]. cbn [at_heap] in Ht. by rewrite (Ht p (desc_refl p)) in Hpr.
Qed.

Lemma present_length m p : present m p = true -> 0 <= p < Z.of_nat (length m).
Proof.
  unfold present. destruct (m !! Z.to_nat p) eqn:E; [|done]. apply lookup_lt_Some in E.
  intros [?%Z.leb_le _]%andb_true_iff. lia.
Qed.

Lemma top_height h : 2 <= h -> 1 <= (h + 1) / 2 /\ (h + 1) / 2 < h.
Proof.
  intros. pose proof (Z.div_mod (h + 1) 2). pose proof (Z.mod_pos_bound (h + 1) 2). lia.
Qed.

Lemma veb_rec_perm m fuel : forall root h t,
  Z.of_nat (length m) <= 2 ^ 31 -> 0 <= root -> at_heap m root t -> h <= Z.of_nat fuel ->
  veb_rec fuel m root h ≡ₚ positions (truncate (Z.to_nat h) t) root.
Proof.
  induction fuel as [|fuel IH]; intros root h t Hlen Hr Ht Hh; cbn [veb_rec].
  { replace (Z.to_nat h) with O by lia. by destruct t. }
  destruct (Z.leb_spec h 0); cbn [orb].
  { replace (Z.to_nat h) with O by lia. by destruct t. }
  destruct (present m root) eqn:Ep; cbn [negb].
  2:{ destruct t as [|l i r]; [by rewrite truncate_leaf|].
      rewrite (at_heap_present _ _ _ Hr Ht), bool_decide_false in Ep; [done|].
      pose proof (tree_size_nonneg l). pose proof (tree_size_nonneg r). cbn. lia. }
  destruct (at_heap_node _ _ _ Hr Ht Ep) as (l & i & r & ->). pose proof (present_length _ _ Ep).
  destruct (Z.eqb_spec h 1) as [->|].
  { rewrite i32_small by lia. change (Z.to_nat 1) with 1%nat. cbn. by destruct l, r. }
  destruct (top_height h ltac:(lia)) as [H1 H2]. set (topH := (h + 1) / 2) in *.
  rewrite !Z.shiftl_mul_pow2, Z.mul_1_l by lia.
  replace (Z.to_nat h) with (Z.to_nat topH + Z.to_nat (h - topH))%nat by lia.
  rewrite positions_cut. rewrite Z2Nat.id by lia. f_equiv; [apply IH; (done || lia)|].
  apply concat_map_perm. intros j Hj%elem_of_seqZ. unfold bottom. rewrite Z2Nat.id by lia.
  pose proof (Z.pow_pos_nonneg 2 topH). apply IH; [lia|nia| |lia].
  pose proof (at_heap_subtree m (Z.to_nat topH) _ root j Hr Ht) as Hs.
  unfold bottom in Hs. rewrite Z2Nat.id in Hs by lia. apply Hs. lia.
Qed.

(** The root is written first. *)
Lemma veb_rec_head m fuel : forall h,
  present m 0 = true -> 1 <= h <= Z.of_nat fuel -> exists order, veb_rec fuel m 0 h = 0 :: order.
Proof.
  induction fuel as [|fuel IH]; intros h Hp Hh; [lia|]. cbn [veb_rec].
  destruct (Z.leb_spec h 0); [lia|]. rewrite Hp. cbn [orb negb].
  destruct (Z.eqb_spec h 1) as [->|]; [by exists []|]. destruct (top_height h ltac:(lia)) as [H1 H2].
  destruct (IH ((h + 1) / 2) Hp ltac:(lia)) as (order & ->). eexists. by rewrite <- app_comm_cons.
Qed.

Lemma truncate_all h t : tree_height t <= Z.of_nat h -> truncate h t = t.
Proof.
  revert t; induction h as [|h IH]; intros [|l i r] Hh; cbn in *; try done.
  - pose proof (tree_height_nonneg l). lia.
  - f_equal; apply IH; lia.
Qed.

Lemma positions_desc t : forall p q, 0 <= p -> q ∈ positions t p -> desc p q.
Proof.
  induction t as [|l IHl i r IHr]; intros p q Hp; cbn [positions]; [set_solver|].
  rewrite elem_of_cons, elem_of_app. intros [->|[Hq|Hq]]; [apply desc_refl| |].
  - apply IHl in Hq; [|lia]. eauto using desc_trans, desc_left.
  - apply IHr in Hq; [|lia]. eauto using desc_trans, desc_right.
Qed.

Lemma positions_NoDup t : forall p, 0 <= p -> NoDup (positions t p).
Proof.
  induction t as [|l IHl i r IHr]; intros p Hp; cbn [positions]; constructor.
  - rewrite elem_of_app. intros [H|H]; apply positions_desc, desc_ge in H; lia.
  - apply NoDup_app. split; [apply IHl; lia|]. split; [|apply IHr; lia].
    intros q H1 H2. apply positions_desc in H1, H2; [|lia|lia]. eauto using desc_siblings.
Qed.

(** Everything present below [p] belongs to the tree at [p]. *)
Lemma desc_cases p q : 0 <= p -> desc p q -> q = p \/ desc (2 * p + 1) q \/ desc (2 * p + 2) q.
Proof.
  intros Hp (k & Hk & Hq). destruct (Z.eq_dec k 0) as [->|]; [left; lia|right].
  assert (E : 2 ^ k = 2 * 2 ^ (k - 1)) by (rewrite <- Z.pow_succ_r by lia; f_equal; lia).
  destruct (Z_lt_le_dec (q + 1) ((2 * p + 3) * 2 ^ (k - 1))); [left|right]; exists (k - 1); lia.
Qed.

Lemma present_positions m t : forall p q,
  0 <= p -> at_heap m p t -> desc p q -> present m q = true -> q ∈ positions t p.
Proof.
  induction t as [|l IHl i r IHr]; intros p q Hp Ht Hd Hpr; cbn [at_heap positions] in *.
  { by rewrite Ht in Hpr. }
  destruct Ht as (_ & _ & Hl & Hr). rewrite elem_of_cons, elem_of_app.
  destruct (desc_cases p q Hp Hd) as [->|[H|H]]; [by left|right; left; apply IHl|right; right; apply IHr];
    done || lia.
Qed.

Lemma desc_root q : 0 <= q -> desc 0 q.
Proof.
  intros Hq. exists (Z.log2 (q + 1)). pose proof (Z.log2_nonneg (q + 1)).
  pose proof (Z.log2_spec (q + 1) ltac:(lia)) as Hlog. rewrite Z.pow_succ_r in Hlog by lia. lia.
Qed.

(** The sorted index stored at a position. *)
Definition index_at (m : list Z) (p : Z) : Z := default (-1) (m !! Z.to_nat p).

Lemma positions_indices m t : forall p,
  at_heap m p t -> map (index_at m) (positions t p) ≡ₚ inorder t.
Proof.
  induction t as [|l IHl i r IHr]; intros p Ht; cbn [positions inorder map]; [done|].
  destruct Ht as (Hi & _ & Hl & Hr). rewrite map_app, (IHl _ Hl), (IHr _ Hr).
  unfold index_at. rewrite Hi. cbn. apply Permutation_middle.
Qed.

(** ** Images *)

Lemma length_index_node key start vend left right :
  Z.of_nat (length (node_bytes key start vend left right)) = TREE_KEY_STORE_OVERHEAD + Z.of_nat (length key).
Proof.
  unfold node_bytes, TREE_KEY_STORE_OVERHEAD. rewrite !length_app, !length_le_split. lia.
Qed.

(** [data] holds at [off] the tree [t], whose node [i] stands for the entry
    [e i]; an absent tree is [noChild]. *)
Fixpoint encodes (e : Z -> entry) (data : list Z) (t : tree) (off : Z) : Prop :=
  match t with
  | Leaf => off = noChild
  | Node l i r =>
      0 <= off < Z.of_nat (length data) /\
      exists ol or rest,
        drop (Z.to_nat off) data = node_bytes (e i).1.1 (e i).1.2 (e i).2 ol or ++ rest /\
        encodes e data l ol /\ encodes e data r or
  end.

(** Bytes behind the image do not matter. *)
Lemma encodes_app e data t trailer : forall off, encodes e data t off -> encodes e (data ++ trailer) t off.
Proof.
  induction t as [|l IHl i r IHr]; intros off; cbn [encodes]; [done|].
  intros (Hoff & ol & or & rest & Hd & Hl & Hr). rewrite length_app. split; [lia|].
  exists ol, or, (rest ++ trailer). rewrite drop_app_le, Hd, <- app_assoc by lia. auto.
Qed.

Lemma sum_perm {A} (f : A -> Z) l l' :
  l ≡ₚ l' -> foldr (fun x acc => f x + acc) 0 l = foldr (fun x acc => f x + acc) 0 l'.
Proof. induction 1; cbn [foldr]; lia. Qed.

(** ** Offsets and bytes *)

Section Image.
Context (n : Z) (Hn : 1 <= n < 2 ^ 31).
Context (entries : Z -> outcome index_error entry) (e : Z -> entry).
Context (Hentries : forall si, 0 <= si < n -> entries si = Ok (e si)).

Definition size_of (si : Z) : Z := TREE_KEY_STORE_OVERHEAD + Z.of_nat (length (e si).1.1).

Definition heap : list Z := fillBFS (Z.to_nat n) (replicate (Z.to_nat (balancedTreeCapacity n)) (-1)) 0 0 (n - 1).
Definition index_tree : tree := build (Z.to_nat n) 0 (n - 1).
Definition order : list Z := vebPositions heap.

Lemma capacity_pow : balancedTreeCapacity n = 2 ^ bits_Len n /\ n < 2 ^ bits_Len n /\ 1 <= bits_Len n <= 31.
Proof.
  unfold balancedTreeCapacity, bits_Len. rewrite (proj2 (Z.leb_gt n 0)) by lia.
  pose proof (Z.log2_nonneg n). rewrite Z.shiftl_mul_pow2, Z.mul_1_l by lia.
  pose proof (Z.log2_spec n ltac:(lia)) as [_ Hlt]. replace (Z.succ (Z.log2 n)) with (Z.log2 n + 1) in Hlt by lia.
  split; [done|]. split; [done|]. split; [lia|].
  assert (Z.log2 n < 31) by (apply Z.log2_lt_pow2; lia). lia.
Qed.

Lemma present_replicate k q : present (replicate k (-1)) q = false.
Proof.
  unfold present. destruct (replicate _ _ !! _) as [v|] eqn:E; [|done].
  apply lookup_replicate in E as [-> _]. apply andb_false_r.
Qed.

Lemma heap_filled : at_heap heap 0 index_tree /\ Z.of_nat (length heap) = 2 ^ bits_Len n.
Proof.
  destruct capacity_pow as (Hc & Hlt & Hb). pose proof (Z.pow_pos_nonneg 2 (bits_Len n)).
  assert (F : filled (replicate (Z.to_nat (balancedTreeCapacity n)) (-1)) 0 index_tree heap).
  { apply (fillBFS_spec _ _ _ _ _ (bits_Len n)); rewrite ?length_replicate; try lia.
    intros. apply present_replicate. }
  destruct F as [L _ T]. split; [done|]. rewrite L, length_replicate. lia.
Qed.

Lemma index_tree_inorder : inorder index_tree = seqZ 0 n.
Proof. unfold index_tree. rewrite build_inorder by lia. f_equal. lia. Qed.

Lemma order_spec : order ≡ₚ positions index_tree 0 /\ exists rest, order = 0 :: rest.
Proof.
  destruct heap_filled as [Ht Hl]. destruct capacity_pow as (_ & Hlt & Hb).
  unfold order, vebPositions.
  assert (E : bits_Len (Z.of_nat (length heap)) - 1 = bits_Len n).
  { rewrite Hl. unfold bits_Len at 1. pose proof (Z.pow_pos_nonneg 2 (bits_Len n)).
    rewrite (proj2 (Z.leb_gt _ 0)), Z.log2_pow2 by lia. lia. }
  rewrite E. assert (2 ^ bits_Len n <= 2 ^ 31) by (apply Z.pow_le_mono_r; lia). split.
  - rewrite veb_rec_perm by (done || lia). rewrite truncate_all; [done|].
    rewrite Z2Nat.id by lia. apply build_height; lia.
  - apply veb_rec_head; [|lia]. rewrite (at_heap_present heap 0 _ ltac:(lia) Ht), tree_size_inorder.
    rewrite index_tree_inorder, length_seqZ, bool_decide_false by lia. done.
Qed.

Lemma order_indices : map (index_at heap) order ≡ₚ seqZ 0 n.
Proof.
  destruct order_spec as [Hp _]. rewrite Hp, <- index_tree_inorder.
  apply positions_indices, heap_filled.
Qed.

Lemma order_lookup p : p ∈ order -> heap !! Z.to_nat p = Some (index_at heap p) /\ 0 <= index_at heap p < n.
Proof.
  intros Hp. assert (Hi : index_at heap p ∈ seqZ 0 n).
  { rewrite <- order_indices. by apply list_elem_of_fmap_2. }
  apply elem_of_seqZ in Hi. split; [|lia]. unfold index_at in *.
  destruct (heap !! Z.to_nat p); [done|]. cbn in Hi. lia.
Qed.

(** The bytes before the nodes that follow [ps]. *)
Definition sizes (ps : list Z) : Z := foldr (fun p acc => size_of (index_at heap p) + acc) 0 ps.

Lemma sizes_app ps qs : sizes (ps ++ qs) = sizes ps + sizes qs.
Proof. unfold sizes. induction ps as [|p ps IH]; cbn [app foldr] in *; lia. Qed.

Lemma sizes_nonneg ps : 0 <= sizes ps.
Proof.
  unfold sizes. induction ps as [|p ps IH]; cbn [foldr]; [lia|].
  assert (0 <= size_of (index_at heap p)) by (unfold size_of, TREE_KEY_STORE_OVERHEAD; lia). lia.
Qed.

Definition node_size (si : Z) : outcome index_error Z :=
  let! (key, _, _) := entries si in Ok (TREE_KEY_STORE_OVERHEAD + Z.of_nat (length key)).

Lemma node_size_ok si : 0 <= si < n -> node_size si = Ok (size_of si).
Proof. intros H. unfold node_size, size_of. rewrite Hentries by done. by destruct (e si) as [[? ?] ?]. Qed.

Lemma assign_offsets_spec ps : forall offs total,
  (forall p, p ∈ ps -> p ∈ order) -> NoDup (map (index_at heap) ps) -> Z.of_nat (length offs) = n ->
  (forall p, p ∈ ps -> offs !! Z.to_nat (index_at heap p) = Some (-1)) ->
  exists offs', assign_offsets heap node_size ps offs total = Ok (offs', total + sizes ps) /\
    Z.of_nat (length offs') = n /\
    (forall si, 0 <= si -> si ∉ map (index_at heap) ps -> offs' !! Z.to_nat si = offs !! Z.to_nat si) /\
    forall pre p post, ps = pre ++ p :: post ->
      offs' !! Z.to_nat (index_at heap p) = Some (total + sizes pre).
Proof.
  induction ps as [|q ps IH]; intros offs total Hin Hd Hl Hfree; cbn [assign_offsets].
  { exists offs. split; [cbn; by rewrite Z.add_0_r|]. split; [done|]. split; [done|].
    intros pre p post E. by destruct pre. }
  cbn [map] in Hd. inversion_clear Hd as [|? ? Hnot Hd'].
  destruct (order_lookup q) as [Hq Hr]; [set_solver|]. unfold sorted_index. rewrite Hq. cbn [obind].
  destruct (Z.ltb_spec (index_at heap q) 0); [lia|]. rewrite Hfree by set_solver. cbn [Z.leb Z.compare].
  rewrite node_size_ok by lia. cbn [obind].
  assert (Hne : forall p, p ∈ ps -> index_at heap p <> index_at heap q).
  { intros p Hp E. apply Hnot. rewrite <- E. by apply list_elem_of_fmap_2. }
  destruct (IH (<[Z.to_nat (index_at heap q) := total]> offs) (total + size_of (index_at heap q)))
    as (offs' & -> & Hl' & Hframe & Hoff).
  - set_solver.
  - done.
  - by rewrite length_insert.
  - intros p Hp. destruct (order_lookup p) as [_ ?]; [set_solver|]. specialize (Hne p Hp).
    rewrite list_lookup_insert_ne by lia. apply Hfree. set_solver.
  - exists offs'. split; [cbn [sizes foldr]; f_equal; f_equal; unfold sizes; lia|]. split; [done|].
    split.
    + intros si Hsi Hnin. cbn [map] in Hnin. rewrite Hframe by set_solver.
      apply list_lookup_insert_ne. set_solver by lia.
    + intros pre p post E. destruct pre as [|p' pre]; cbn [app] in E; injection E as -> ->.
      * rewrite Hframe by (done || lia). rewrite list_lookup_insert_eq by lia. f_equal. cbn. lia.
      * rewrite (Hoff pre p post eq_refl). f_equal. cbn [sizes foldr]. unfold sizes. lia.
Qed.

Lemma check_offsets_ok offs : forall si, Forall (fun o => 0 <= o) offs -> check_offsets si offs = Ok tt.
Proof.
  induction offs as [|o offs IH]; intros si Ho; [done|]. inversion_clear Ho. cbn [check_offsets].
  rewrite (proj2 (Z.ltb_ge _ _)) by done. auto.
Qed.

(** The offset of a node is the size of the nodes before it. *)
Definition offsets_ok (offs : list Z) : Prop :=
  forall pre p post, order = pre ++ p :: post ->
    offs !! Z.to_nat (index_at heap p) = Some (sizes pre).

Lemma vebOffsets_spec :
  exists offs, vebOffsets heap node_size order n = Ok (offs, sizes order) /\ offsets_ok offs.
Proof.
  unfold vebOffsets.
  destruct (assign_offsets_spec order (replicate (Z.to_nat n) (-1)) 0) as (offs & -> & Hl & _ & Hoff).
  - done.
  - rewrite order_indices. apply NoDup_seqZ.
  - rewrite length_replicate. lia.
  - intros p Hp. destruct (order_lookup p Hp) as [_ ?]. apply lookup_replicate. split; [done|lia].
  - cbn [obind]. rewrite check_offsets_ok; [by exists offs|].
    apply Forall_lookup. intros i o Ho. assert (Hi : Z.of_nat i ∈ seqZ 0 n).
    { apply elem_of_seqZ. apply lookup_lt_Some in Ho. lia. }
    rewrite <- order_indices in Hi. apply list_elem_of_fmap in Hi as (p & Ei & Hp).
    apply list_elem_of_split in Hp as (pre & post & E). specialize (Hoff _ _ _ E).
    rewrite <- Ei, Nat2Z.id, Ho in Hoff. injection Hoff as ->. pose proof (sizes_nonneg pre). lia.
Qed.

(** The offset of the node at a position, or [noChild]. *)
Definition child_of (offs : list Z) (p : Z) : Z :=
  if present heap p then default 0 (offs !! Z.to_nat (index_at heap p)) else noChild.

Definition bytes_at (offs : list Z) (p : Z) : list Z :=
  let '(key, start, vend) := e (index_at heap p) in
  node_bytes key start vend (child_of offs (2 * p + 1)) (child_of offs (2 * p + 2)).

Lemma length_bytes_at offs p : Z.of_nat (length (bytes_at offs p)) = size_of (index_at heap p).
Proof.
  unfold bytes_at, size_of. destruct (e (index_at heap p)) as [[key start] vend].
  apply length_index_node.
Qed.

Lemma length_bytes offs ps : Z.of_nat (length (concat (map (bytes_at offs) ps))) = sizes ps.
Proof.
  unfold sizes. induction ps as [|p ps IH]; cbn [map concat foldr]; [done|].
  rewrite length_app, Nat2Z.inj_add, length_bytes_at. lia.
Qed.

Lemma present_in_order p : present heap p = true -> p ∈ order.
Proof.
  intros Hp. destruct heap_filled as [Ht _]. destruct order_spec as [Hperm _]. rewrite Hperm.
  apply (present_positions heap); try done. apply desc_root, (present_length heap p Hp).
Qed.

Lemma lookup_offset offs q :
  offsets_ok offs ->
  q ∈ order -> exists o, offs !! Z.to_nat (index_at heap q) = Some o.
Proof. intros Hoff (pre & post & E)%list_elem_of_split. eauto. Qed.

Lemma childOffset_spec offs q :
  offsets_ok offs ->
  childOffset heap offs q = Ok (child_of offs q).
Proof.
  intros Hoff. unfold childOffset, child_of. destruct (present heap q) eqn:Ep.
  - pose proof (present_length _ _ Ep). rewrite (proj2 (Z.ltb_lt _ _)) by lia. cbn [andb].
    pose proof (present_in_order q Ep) as Hq. unfold sorted_index.
    destruct (order_lookup q Hq) as [-> _]. cbn [obind].
    by destruct (lookup_offset offs q Hoff Hq) as (o & ->).
  - by rewrite andb_false_r.
Qed.

Lemma write_nodes_spec offs ps :
  offsets_ok offs ->
  (forall p, p ∈ ps -> p ∈ order) ->
  write_nodes entries heap offs ps = Ok (concat (map (bytes_at offs) ps)).
Proof.
  intros Hoff. induction ps as [|p ps IH]; intros Hin; cbn [write_nodes map concat]; [done|].
  destruct (order_lookup p) as [Hp Hr]; [set_solver|]. unfold sorted_index. rewrite Hp. cbn [obind].
  rewrite Hentries by done. cbn [obind]. unfold bytes_at at 1.
  destruct (e (index_at heap p)) as [[key start] vend]. rewrite !childOffset_spec by done. cbn [obind].
  rewrite IH by set_solver. done.
Qed.

(** Every subtree of the heap is linked in the bytes. *)
Lemma encodes_heap offs t : forall p,
  offsets_ok offs ->
  0 <= p -> at_heap heap p t -> encodes e (concat (map (bytes_at offs) order)) t (child_of offs p).
Proof.
  induction t as [|l IHl i r IHr]; intros p Hoff Hp Ht; cbn [encodes].
  { unfold child_of. by rewrite (Ht p (desc_refl p)). }
  assert (Hpr : present heap p = true).
  { rewrite (at_heap_present _ _ _ Hp Ht), bool_decide_false; [done|].
    pose proof (tree_size_nonneg l). pose proof (tree_size_nonneg r). cbn. lia. }
  destruct Ht as (Hi & H0 & Hl & Hr).
  assert (Eix : index_at heap p = i) by (unfold index_at; by rewrite Hi).
  pose proof (present_in_order p Hpr) as (pre & post & E)%list_elem_of_split.
  unfold child_of. rewrite Hpr, (Hoff _ _ _ E). change (default 0 (Some (sizes pre))) with (sizes pre).
  pose proof (length_bytes offs pre) as Hlen. pose proof (length_bytes_at offs p) as Hlp.
  assert (Hpos : 0 < size_of (index_at heap p)) by (unfold size_of, TREE_KEY_STORE_OVERHEAD; lia).
  rewrite E, map_app, concat_app. cbn [map concat]. split.
  { pose proof (sizes_nonneg pre). rewrite !length_app. lia. }
  exists (child_of offs (2 * p + 1)), (child_of offs (2 * p + 2)), (concat (map (bytes_at offs) post)).
  split.
  - rewrite drop_app_length' by lia. unfold bytes_at at 1. rewrite Eix. by destruct (e i) as [[? ?] ?].
  - rewrite E, map_app, concat_app in IHl, IHr. cbn [map concat] in IHl, IHr.
    split; [apply IHl|apply IHr]; (done || lia).
Qed.

(** The bytes written for the entries. *)
Lemma marshal_sorted_spec :
  exists data offs, marshal_sorted entries n = Ok (data, Z.of_nat (length data)) /\
    data = concat (map (bytes_at offs) order) /\ encodes e data index_tree 0 /\
    Z.of_nat (length data) = foldr (fun si acc => size_of si + acc) 0 (seqZ 0 n).
Proof.
  destruct vebOffsets_spec as (offs & Hv & Hoff). destruct order_spec as [Hperm [rest E]].
  destruct heap_filled as [Ht _]. unfold marshal_sorted. fold heap. fold order. fold node_size.
  rewrite Hv. cbn [obind]. rewrite write_nodes_spec by done. cbn [obind].
  rewrite <- (length_bytes offs order). eexists _, offs. split; [reflexivity|]. split; [done|]. split.
  - pose proof (encodes_heap offs index_tree 0 Hoff ltac:(lia) Ht) as He. unfold child_of in He.
    rewrite (at_heap_present heap 0 _ ltac:(lia) Ht), tree_size_inorder, index_tree_inorder, length_seqZ in He.
    rewrite bool_decide_false in He by lia. cbn [negb] in He.
    by rewrite (Hoff [] 0 rest E) in He.
  - rewrite length_bytes, <- (sum_perm _ _ _ order_indices). unfold sizes. clear E Hv Hoff Hperm.
    generalize order. induction l as [|p ps IH]; cbn [map foldr]; [done|]. lia.
Qed.
End Image.
