(* ===== verification/DiskTree.v ===== *)
(** * adapters/repos/db/lsmkv/segmentindex/disk_tree.go: reading an index

    [DiskTree] answers lookups from the bytes of an index without unmarshalling
    it.  The buffer may be a corrupt or truncated file: every load is preceded by
    a bounds check, and a load out of bounds would be a [Panic].  Positions are
    uint64; slices are bounded by the length of the buffer. *)

From S2P Require Import Prelude ByteOps SegmentIndex IndexLayout.

Record DiskTree : Type := DT {
  dt_data : list Z;
  dt_valueStart : Z;
  dt_valueEnd : Z;
  dt_hasValueBounds : bool
}.

Definition NewDiskTree (data : list Z) : DiskTree := DT data 0 0 false.
Definition NewDiskTreeWithValueBounds (data : list Z) (valueStart valueEnd : Z) : DiskTree :=
  DT data valueStart valueEnd true.

Inductive descentMode : Type := descentEqual | descentGreaterThanEqual | descentGreaterThan.

Record descentResult : Type := Descent { d_pos : Z; d_keyLen : Z }.

(** [acceptEqual] and [keepCandidate] of a mode *)
Definition acceptEqual (mode : descentMode) : bool :=
  match mode with descentEqual | descentGreaterThanEqual => true | descentGreaterThan => false end.
Definition keepCandidate (mode : descentMode) : bool :=
  match mode with descentEqual => false | descentGreaterThanEqual | descentGreaterThan => true end.

(** [data[lo:hi]] *)
Definition data_slice (data : list Z) (lo hi : Z) : outcome index_error (list Z) :=
  if (0 <=? lo) && (lo <=? hi) && (hi <=? Z.of_nat (length data))
  then Ok (take (Z.to_nat (hi - lo)) (drop (Z.to_nat lo) data)) else Panic.

(** [binary.LittleEndian.UintNN(data[pos:])] of [k] bytes *)
Definition load (k : nat) (data : list Z) (pos : Z) : outcome index_error Z :=
  let! bs := data_slice data pos (pos + Z.of_nat k) in Ok (le_combine bs).

(** Keys of 8 bytes compare as big-endian numbers. *)
Definition compare_node (key data : list Z) (pos keyLen : Z) : outcome index_error comparison :=
  if (length key =? 8)%nat && (keyLen =? 8) then
    let! word := data_slice data pos (pos + 8) in
    Ok (be_combine key ?= be_combine word)
  else
    let! nodeKey := data_slice data pos (u64 (pos + keyLen)) in
    Ok (bytes_compare key nodeKey).

Definition maxDescentSteps (dataLen : Z) : Z := dataLen / TREE_KEY_STORE_OVERHEAD + 1.

Section Descend.
Context (data key : list Z) (mode : descentMode).

(** One turn of the loop of [descend] per unit of fuel; out of it the step limit
    is exceeded. *)
Fixpoint descend_loop (fuel : nat) (pos : Z) (candidate : option descentResult)
  : outcome index_error descentResult :=
  match fuel with
  | O => Err ErrCorruptIndex
  | S fuel =>
      let dataLen := Z.of_nat (length data) in
      if dataLen <? u64 (pos + 4) then Err ErrCorruptIndex
      else
        let! keyLen := load 4 data pos in
        let pos := u64 (pos + 4) in
        if u64 (dataLen - pos) <? keyLen then Err ErrCorruptIndex
        else
          let! keyEqual := compare_node key data pos keyLen in
          let pos := u64 (pos + keyLen) in
          if u64 (dataLen - pos) <? 32 then Err ErrCorruptIndex
          else
            if match keyEqual with Eq => acceptEqual mode | _ => false end
            then Ok (Descent pos keyLen)
            else
              let left := match keyEqual with Lt => true | _ => false end in
              let candidate := if left && keepCandidate mode then Some (Descent pos keyLen)
                               else candidate in
              let! word := load 8 data (if left then pos + 16 else pos + 24) in
              let child := to_int word in
              if child =? noChild then
                match candidate with None => Err NotFound | Some d => Ok d end
              else if child <? 0 then Err ErrCorruptIndex
              else descend_loop fuel child candidate
  end.

Definition descend : outcome index_error descentResult :=
  if (length data =? 0)%nat then Err NotFound
  else descend_loop (Z.to_nat (maxDescentSteps (Z.of_nat (length data)))) 0 None.
End Descend.

Definition checkValueRange (t : DiskTree) (start vend : Z) : outcome index_error unit :=
  if negb (dt_hasValueBounds t) then Ok tt
  else if (start <? dt_valueStart t) || (dt_valueEnd t <? vend) then Err ErrCorruptIndex
  else Ok tt.

Definition offsetsAt (t : DiskTree) (d : descentResult) : outcome index_error (Z * Z) :=
  let! start := load 8 (dt_data t) (d_pos d) in
  let! vend := load 8 (dt_data t) (d_pos d + 8) in
  if vend <? start then Err ErrCorruptIndex
  else
    let! _ := checkValueRange t start vend in
    Ok (start, vend).

Definition materializeNode (t : DiskTree) (d : descentResult) : outcome index_error entry :=
  let! (start, vend) := offsetsAt t d in
  let! key := data_slice (dt_data t) (d_pos d - d_keyLen d) (d_pos d) in
  Ok (key, start, vend).

Definition dt_Get (t : DiskTree) (key : list Z) : outcome index_error entry :=
  let! d := descend (dt_data t) key descentEqual in materializeNode t d.
Definition GetOffsets (t : DiskTree) (key : list Z) : outcome index_error (Z * Z) :=
  let! d := descend (dt_data t) key descentEqual in offsetsAt t d.
Definition dt_Contains (t : DiskTree) (key : list Z) : outcome index_error bool :=
  match GetOffsets t key with
  | Ok _ => Ok true
  | Err NotFound => Ok false
  | Err e => Err e
  | Panic => Panic
  | OutOfFuel => OutOfFuel
  end.
Definition dt_Seek (t : DiskTree) (key : list Z) : outcome index_error entry :=
  let! d := descend (dt_data t) key descentGreaterThanEqual in materializeNode t d.
Definition SeekOffsets (t : DiskTree) (key : list Z) : outcome index_error (Z * Z) :=
  let! d := descend (dt_data t) key descentGreaterThanEqual in offsetsAt t d.
Definition dt_Next (t : DiskTree) (key : list Z) : outcome index_error entry :=
  let! d := descend (dt_data t) key descentGreaterThan in materializeNode t d.

(** ** Sequential walks *)

(** The key of the node at the start of [inp] and the size of the node. *)
Definition readNodeKey (inp : list Z) : outcome index_error (list Z * Z) :=
  if Z.of_nat (length inp) <? TREE_KEY_STORE_OVERHEAD then Err ErrIndexEOF
  else
    let! (keyLen, rw) := omap_err ErrByteops (ReadUint32 (NewReadWriter (buf_of inp))) in
    if Z.of_nat (length inp) - TREE_KEY_STORE_OVERHEAD <? keyLen then Err ErrCorruptIndex
    else
      let! (key, rw) := omap_err ErrByteops (CopyBytesFromBuffer rw keyLen None) in
      Ok (key, Position rw + 32).

(** [t.data[bufferPos:]] is the rest to read; a turn consumes at least 36 bytes. *)
Fixpoint all_keys_loop (fuel : nat) (rest : list Z) : outcome index_error (list (list Z)) :=
  match fuel with
  | O => OutOfFuel
  | S fuel =>
      match readNodeKey rest with
      | Ok (key, readLength) =>
          let! out := all_keys_loop fuel (drop (Z.to_nat readLength) rest) in
          Ok (key :: out)
      | Err ErrIndexEOF => Ok []
      | Err e => Err e
      | Panic => Panic
      | OutOfFuel => OutOfFuel
      end
  end.

Definition AllKeys (t : DiskTree) : outcome index_error (list (list Z)) :=
  all_keys_loop (S (length (dt_data t))) (dt_data t).

(** The loop of [ForEachKey], and of [KeyCount], which counts its turns: the keys
    passed to [fn]. *)
Fixpoint for_each_loop (fuel : nat) (rest : list Z) : outcome index_error (list (list Z)) :=
  match fuel with
  | O => OutOfFuel
  | S fuel =>
      if Z.of_nat (length rest) <? TREE_KEY_STORE_OVERHEAD then Ok []
      else
        let! keyLen := load 4 rest 0 in
        let nodeSize := keyLen + TREE_KEY_STORE_OVERHEAD in
        if Z.of_nat (length rest) <? nodeSize then Ok []
        else
          let! key := data_slice rest 4 (4 + keyLen) in
          let! keys := for_each_loop fuel (drop (Z.to_nat nodeSize) rest) in
          Ok (key :: keys)
  end.

Definition ForEachKey (t : DiskTree) : outcome index_error (list (list Z)) :=
  for_each_loop (S (length (dt_data t))) (dt_data t).

Definition KeyCount (t : DiskTree) : outcome index_error Z :=
  let! keys := for_each_loop (S (length (dt_data t))) (dt_data t) in Ok (Z.of_nat (length keys)).

Section Range.
Context (data : list Z).

(** The nodes passed to an [fn] that never fails, from [pos] on. *)
Fixpoint range_loop (fuel : nat) (pos to : Z) : outcome index_error (list entry) :=
  match fuel with
  | O => OutOfFuel
  | S fuel =>
      if to <=? pos then Ok []
      else
        let remaining := to - pos in
        if remaining <? TREE_KEY_STORE_OVERHEAD then Ok []
        else
          let! keyLen := load 4 data pos in
          if remaining - TREE_KEY_STORE_OVERHEAD <? keyLen then Err ErrCorruptIndex
          else
            let keyEnd := pos + 4 + keyLen in
            let! key := data_slice data (pos + 4) keyEnd in
            let! start := load 8 data keyEnd in
            let! vend := load 8 data (keyEnd + 8) in
            let! rest := range_loop fuel (pos + (keyLen + TREE_KEY_STORE_OVERHEAD)) to in
            Ok ((key, start, vend) :: rest)
  end.

Definition ForEachNodeInRange (from to : Z) : outcome index_error (list entry) :=
  if (from <? 0) || (Z.of_nat (length data) <? to) || (to <? from) then Err ErrCorruptIndex
  else range_loop (S (Z.to_nat (to - from))) from to.

(** [for next < parts && pos >= n*next/parts { next++ }] *)
Fixpoint skip_next (fuel : nat) (n parts pos next : Z) : Z :=
  match fuel with
  | O => next
  | S fuel => if (next <? parts) && (n * next / parts <=? pos)
              then skip_next fuel n parts pos (next + 1) else next
  end.

(** The loop of [SplitNodeRanges] and the range that closes it. *)
Fixpoint split_loop (fuel : nat) (parts start pos next : Z) : outcome index_error (list (Z * Z)) :=
  let n := Z.of_nat (length data) in
  match fuel with
  | O => OutOfFuel
  | S fuel =>
      if negb ((next <? parts) && (pos <? n)) || (n - pos <? TREE_KEY_STORE_OVERHEAD) then Ok [(start, n)]
      else
        let! keyLen := load 4 data pos in
        if n - pos - TREE_KEY_STORE_OVERHEAD <? keyLen then Ok [(start, n)]
        else
          let pos := pos + (keyLen + TREE_KEY_STORE_OVERHEAD) in
          if n * next / parts <=? pos then
            let next' := skip_next (Z.to_nat parts) n parts pos next in
            if pos <? n then
              let! rest := split_loop fuel parts pos pos next' in
              Ok ((start, pos) :: rest)
            else split_loop fuel parts start pos next'
          else split_loop fuel parts start pos next
  end.

Definition SplitNodeRanges (parts : Z) : outcome index_error (list (Z * Z)) :=
  let n := Z.of_nat (length data) in
  if n =? 0 then Ok []
  else
    let ceiling := n / TREE_KEY_STORE_OVERHEAD + 1 in
    let parts := if ceiling <? parts then ceiling else parts in
    if parts <=? 1 then Ok [(0, n)]
    else split_loop (S (length data)) parts 0 0 1.
End Range.

(** ** The order of keys *)

Lemma be_combine_cons x a : be_combine (x :: a) = x * 256 ^ Z.of_nat (length a) + be_combine a.
Proof.
  unfold be_combine. cbn [rev]. rewrite <- (length_rev a). generalize (rev a). clear a.
  induction l as [|y l IH]; cbn [app le_combine length]; [cbn; lia|].
  rewrite IH, Nat2Z.inj_succ, Z.pow_succ_r by lia. lia.
Qed.

(** Keys of the same length compare as big-endian numbers. *)
Lemma be_compare a : forall b,
  length a = length b -> Forall is_byte a -> Forall is_byte b ->
  (be_combine a ?= be_combine b) = bytes_compare a b.
Proof.
  induction a as [|x a IH]; intros [|y b] Hl Ha Hb; try done.
  inversion_clear Ha as [|? ? Hx Ha']. inversion_clear Hb as [|? ? Hy Hb'].
  cbn [bytes_compare length] in *. rewrite <- IH by (done || lia). rewrite !be_combine_cons.
  pose proof (be_combine_range a Ha') as Ra. pose proof (be_combine_range b Hb') as Rb.
  assert (El : length a = length b) by lia. rewrite El in *.
  pose proof (Z.pow_pos_nonneg 256 (Z.of_nat (length b))).
  destruct (Z.compare_spec x y) as [->|Hxy|Hxy].
  - rewrite Z.add_compare_mono_l. done.
  - apply Z.compare_lt_iff. nia.
  - apply Z.compare_gt_iff. nia.
Qed.

(** ** Loads *)

Lemma data_slice_ok data lo hi :
  0 <= lo <= hi -> hi <= Z.of_nat (length data) ->
  data_slice data lo hi = Ok (take (Z.to_nat (hi - lo)) (drop (Z.to_nat lo) data)).
Proof. intros H1 H2. unfold data_slice. by rewrite !(proj2 (Z.leb_le _ _)) by lia. Qed.

Lemma load_ok k data pos :
  Forall is_byte data -> 0 <= pos -> pos + Z.of_nat k <= Z.of_nat (length data) ->
  exists v, load k data pos = Ok v /\ 0 <= v < 256 ^ Z.of_nat k.
Proof.
  intros Hb H1 H2. unfold load. rewrite data_slice_ok by lia. cbn [obind]. eexists. split; [done|].
  set (bs := take _ _). assert (Hl : length bs = k) by (subst bs; rewrite length_take, length_drop; lia).
  rewrite <- Hl. apply le_combine_range. by apply Forall_take, Forall_drop.
Qed.

Lemma compare_node_ok key data pos keyLen :
  Forall is_byte data -> Forall is_byte key -> 0 <= pos -> 0 <= keyLen ->
  pos + keyLen <= Z.of_nat (length data) -> Z.of_nat (length data) < 2 ^ 63 ->
  compare_node key data pos keyLen
  = Ok (bytes_compare key (take (Z.to_nat keyLen) (drop (Z.to_nat pos) data))).
Proof.
  intros Hd Hk Hp Hl Hle Hlen. unfold compare_node.
  destruct (Nat.eqb_spec (length key) 8) as [E8|], (Z.eqb_spec keyLen 8) as [->|]; cbn [andb].
  1:{ rewrite data_slice_ok by lia. cbn [obind]. f_equal.
      replace (Z.to_nat (pos + 8 - pos)) with (Z.to_nat 8) by lia. apply be_compare; [|done|].
      - rewrite E8, length_take, length_drop. lia.
      - by apply Forall_take, Forall_drop. }
  all: rewrite u64_small by (unfold is_u64; lia); rewrite data_slice_ok by lia; cbn [obind];
    do 3 f_equal; lia.
Qed.

(** ** What a mode asks for *)

Definition accepts (mode : descentMode) (c : comparison) : bool :=
  match c with
  | Eq => acceptEqual mode
  | Lt => keepCandidate mode
  | Gt => false
  end.

(** The first entry in key order that the mode accepts. *)
Definition lookup_entry (mode : descentMode) (key : list Z) (es : list entry) : option entry :=
  List.find (fun x => accepts mode (bytes_compare key x.1.1)) es.

(** ** Descents through arbitrary bytes *)

Section Safe.
Context (data key : list Z) (mode : descentMode).
Context (Hdata : Forall is_byte data) (Hkey : Forall is_byte key).
Context (Hlen : Z.of_nat (length data) < 2 ^ 63).

Definition key_before (d : descentResult) : list Z :=
  take (Z.to_nat (d_keyLen d)) (drop (Z.to_nat (d_pos d - d_keyLen d)) data).

(** A result inside the buffer whose key the mode accepts. *)
Definition valid_result (d : descentResult) : Prop :=
  0 <= d_keyLen d /\ 4 <= d_pos d - d_keyLen d /\ d_pos d + 32 <= Z.of_nat (length data) /\
  accepts mode (bytes_compare key (key_before d)) = true.

Definition safe_outcome {A} (P : A -> Prop) (o : outcome index_error A) : Prop :=
  match o with
  | Ok a => P a
  | Err e => e = NotFound \/ e = ErrCorruptIndex
  | _ => False
  end.

Lemma to_int_range w : 0 <= w < 2 ^ 64 -> - 2 ^ 63 <= to_int w < 2 ^ 63.
Proof. intros Hw. unfold to_int. destruct (Z.ltb_spec w (2 ^ 63)); lia. Qed.

Lemma descend_loop_safe fuel : forall pos cand,
  0 <= pos < 2 ^ 63 -> (forall d, cand = Some d -> valid_result d) ->
  safe_outcome valid_result (descend_loop data key mode fuel pos cand).
Proof.
  induction fuel as [|fuel IH]; intros pos cand Hp Hc; cbn [descend_loop]; [by right|].
  rewrite (u64_small (pos + 4)) by (unfold is_u64; lia).
  destruct (Z.ltb_spec (Z.of_nat (length data)) (pos + 4)); [by right|].
  destruct (load_ok 4 data pos Hdata) as (keyLen & -> & Hk); [lia|lia|]. cbn [obind].
  rewrite u64_small by (unfold is_u64; lia).
  destruct (Z.ltb_spec (Z.of_nat (length data) - (pos + 4)) keyLen); [by right|].
  rewrite compare_node_ok by (done || lia). cbn [obind].
  rewrite (u64_small (pos + 4 + keyLen)) by (unfold is_u64; lia).
  rewrite u64_small by (unfold is_u64; lia).
  destruct (Z.ltb_spec (Z.of_nat (length data) - (pos + 4 + keyLen)) 32); [by right|].
  set (here := Descent (pos + 4 + keyLen) keyLen).
  assert (Hhere : accepts mode (bytes_compare key (take (Z.to_nat keyLen) (drop (Z.to_nat (pos + 4)) data))) = true
    -> valid_result here).
  { intros Ha. unfold valid_result, key_before. cbn [here d_pos d_keyLen].
    replace (pos + 4 + keyLen - keyLen) with (pos + 4) by lia. split; [lia|]. split; [lia|]. split; [lia|done]. }
  set (c := bytes_compare key _) in *.
  destruct (match c with Eq => acceptEqual mode | _ => false end) eqn:Ea.
  { apply Hhere. by destruct c. }
  set (left := match c with Lt => true | _ => false end).
  destruct (load_ok 8 data (if left then pos + 4 + keyLen + 16 else pos + 4 + keyLen + 24) Hdata)
    as (w & -> & Hw); [destruct left; lia|destruct left; lia|]. cbn [obind].
  assert (Hcand : forall d, (if left && keepCandidate mode then Some here else cand) = Some d -> valid_result d).
  { intros d. destruct (left && keepCandidate mode) eqn:El; [|auto]. intros [= <-]. apply Hhere.
    apply andb_true_iff in El as [El Ek]. by destruct c. }
  pose proof (to_int_range w Hw). destruct (to_int w =? noChild).
  { destruct (if left && keepCandidate mode then Some here else cand); cbn; auto. }
  destruct (Z.ltb_spec (to_int w) 0); [by right|]. apply IH; [lia|done].
Qed.

Lemma descend_safe_core : safe_outcome valid_result (descend data key mode).
Proof.
  unfold descend. destruct (length data =? 0)%nat; [by left|]. apply descend_loop_safe; [lia|done].
Qed.
End Safe.

Lemma materialize_safe t key mode d :
  Forall is_byte (dt_data t) -> valid_result (dt_data t) key mode d ->
  safe_outcome (fun x => accepts mode (bytes_compare key x.1.1) = true /\ x.1.2 <= x.2 /\
    (dt_hasValueBounds t = true -> dt_valueStart t <= x.1.2 /\ x.2 <= dt_valueEnd t))
    (materializeNode t d).
Proof.
  intros Hd (H0 & H4 & H32 & Ha). unfold materializeNode, offsetsAt.
  destruct (load_ok 8 (dt_data t) (d_pos d) Hd) as (start & -> & _); [lia|lia|]. cbn [obind].
  destruct (load_ok 8 (dt_data t) (d_pos d + 8) Hd) as (vend & -> & _); [lia|lia|]. cbn [obind].
  destruct (Z.ltb_spec vend start); [by right|]. unfold checkValueRange.
  destruct (dt_hasValueBounds t); cbn [negb].
  2:{ cbn [obind]. rewrite data_slice_ok by lia. cbn [obind safe_outcome fst snd].
      replace (Z.to_nat (d_pos d - (d_pos d - d_keyLen d))) with (Z.to_nat (d_keyLen d)) by lia. done. }
  destruct (Z.ltb_spec start (dt_valueStart t)), (Z.ltb_spec (dt_valueEnd t) vend); cbn [orb obind]; try by right.
  rewrite data_slice_ok by lia. cbn [obind safe_outcome fst snd].
  replace (Z.to_nat (d_pos d - (d_pos d - d_keyLen d))) with (Z.to_nat (d_keyLen d)) by lia. done.
Qed.

(** ** Descents through an image *)

(** The bytes of [data] from [pos] on start with [bs]. *)
Definition holds (data : list Z) (pos : Z) (bs : list Z) : Prop :=
  0 <= pos /\ exists rest, drop (Z.to_nat pos) data = bs ++ rest.

Lemma holds_app data pos bs cs :
  holds data pos (bs ++ cs) -> holds data pos bs /\ holds data (pos + Z.of_nat (length bs)) cs.
Proof.
  intros (Hp & rest & Hd). split; (split; [lia|]).
  - exists (cs ++ rest). by rewrite Hd, <- app_assoc.
  - exists rest. replace (Z.to_nat (pos + Z.of_nat (length bs))) with (Z.to_nat pos + length bs)%nat by lia.
    rewrite <- drop_drop, Hd, <- app_assoc. by apply drop_app_length.
Qed.

Lemma holds_bound data pos bs : holds data pos bs -> bs <> [] -> pos + Z.of_nat (length bs) <= Z.of_nat (length data).
Proof.
  intros (Hp & rest & Hd) Hne. apply (f_equal length) in Hd. rewrite length_drop, length_app in Hd.
  destruct bs; [done|]. cbn [length] in *. lia.
Qed.

Lemma holds_slice data pos bs :
  holds data pos bs -> take (length bs) (drop (Z.to_nat pos) data) = bs.
Proof. intros (_ & rest & ->). apply take_app_length. Qed.

Lemma holds_load k data pos v :
  (0 < k)%nat -> holds data pos (le_split k v) -> 0 <= v < 256 ^ Z.of_nat k -> load k data pos = Ok v.
Proof.
  intros Hk Hh Hv. pose proof (length_le_split k v) as Hl. pose proof (proj1 Hh).
  assert (Hne : le_split k v <> []) by (intros E; rewrite E in Hl; cbn in Hl; lia).
  pose proof (holds_bound _ _ _ Hh Hne). unfold load. rewrite data_slice_ok by lia. cbn [obind].
  replace (Z.to_nat (pos + Z.of_nat k - pos)) with (length (le_split k v)) by lia.
  rewrite (holds_slice _ _ _ Hh). by rewrite le_combine_split.
Qed.

(** A descent result at the entry [x]. *)
Definition points_to (data : list Z) (d : descentResult) (x : entry) : Prop :=
  d_keyLen d = Z.of_nat (length x.1.1) /\
  holds data (d_pos d - d_keyLen d) (x.1.1 ++ le_split 8 x.1.2 ++ le_split 8 x.2).

(** An entry the index format can hold. *)
Definition entry_ok (x : entry) : Prop :=
  Forall is_byte x.1.1 /\ Z.of_nat (length x.1.1) < 2 ^ 32 /\ is_u64 x.1.2 /\ is_u64 x.2.

Definition keys_sorted : list entry -> Prop :=
  StronglySorted (fun x y => bytes_compare x.1.1 y.1.1 = Lt).

Lemma keys_sorted_app l r :
  keys_sorted (l ++ r) ->
  keys_sorted l /\ keys_sorted r /\ forall x y, x ∈ l -> y ∈ r -> bytes_compare x.1.1 y.1.1 = Lt.
Proof.
  induction l as [|z l IH]; cbn [app]; intros Hs.
  - split; [constructor|]. split; [done|]. set_solver.
  - inversion_clear Hs as [|? ? Hs' Hf]. destruct (IH Hs') as (Hl & Hr & Hc).
    rewrite Forall_forall in Hf. split; [|split; [done|]].
    + constructor; [done|]. apply Forall_forall. intros y Hy. apply Hf. set_solver.
    + intros x y [->|Hx]%elem_of_cons Hy; [apply Hf; set_solver|auto].
Qed.

Lemma find_app {A} (f : A -> bool) l r :
  List.find f (l ++ r) = match List.find f l with Some x => Some x | None => List.find f r end.
Proof. induction l as [|x l IH]; cbn; [done|]. by destruct (f x). Qed.

(** How the entry at the root of a sorted tree steers the lookup. *)
Lemma lookup_split mode key l x r :
  keys_sorted (l ++ x :: r) ->
  lookup_entry mode key (l ++ x :: r)
  = match bytes_compare key x.1.1 with
    | Lt => match lookup_entry mode key l with
            | Some y => Some y
            | None => if keepCandidate mode then Some x else None
            end
    | Eq => if acceptEqual mode then Some x else lookup_entry mode key r
    | Gt => lookup_entry mode key r
    end.
Proof.
  intros Hs. unfold lookup_entry. rewrite find_app. cbn [List.find].
  destruct (keys_sorted_app l (x :: r) Hs) as (_ & Hs' & Hc).
  assert (Hl : forall y, y ∈ l -> bytes_compare y.1.1 x.1.1 = Lt) by (intros; apply Hc; set_solver).
  destruct (keys_sorted_app [x] r Hs') as (_ & _ & Hr).
  specialize (Hr x). specialize (fun y => Hr y ltac:(set_solver)).
  assert (Hnone : bytes_compare key x.1.1 <> Lt ->
    List.find (fun y => accepts mode (bytes_compare key y.1.1)) l = None).
  { intros Hk. destruct (List.find _ l) as [y|] eqn:E; [|done]. apply find_some in E as [Hy Ha].
    by rewrite (compare_above key y.1.1 x.1.1 Hk (Hl y (proj2 (list_elem_of_In _ _) Hy))) in Ha. }
  destruct (bytes_compare key x.1.1) eqn:Ec; cbn [accepts].
  - rewrite Hnone by done. done.
  - destruct (List.find _ l); [done|]. destruct (keepCandidate mode) eqn:Ek; [done|].
    destruct (List.find _ r) as [y|] eqn:E; [|done]. apply find_some in E as [Hy Ha].
    rewrite (compare_below key x.1.1 y.1.1 Ec (Hr y (proj2 (list_elem_of_In _ _) Hy))) in Ha. cbn in Ha. congruence.
  - by rewrite Hnone by done.
Qed.

Section Image.
Context (e : Z -> entry) (data key : list Z) (mode : descentMode).
Context (Hdata : Forall is_byte data) (Hkey : Forall is_byte key).
Context (Hlen : Z.of_nat (length data) < 2 ^ 63).

Definition tree_entries (t : tree) : list entry := map e (inorder t).

Definition outcome_of (cand : option descentResult) : outcome index_error descentResult :=
  match cand with None => Err NotFound | Some d => Ok d end.

(** The layout of the node at [off]. *)
Lemma node_layout off x ol or :
  entry_ok x -> holds data off (node_bytes x.1.1 x.1.2 x.2 ol or) ->
  let pos := off + 4 in let pos' := pos + Z.of_nat (length x.1.1) in
  load 4 data off = Ok (Z.of_nat (length x.1.1)) /\
  holds data pos (x.1.1 ++ le_split 8 x.1.2 ++ le_split 8 x.2) /\
  load 8 data (pos' + 16) = Ok (u64 ol) /\ load 8 data (pos' + 24) = Ok (u64 or) /\
  pos' + 32 <= Z.of_nat (length data).
Proof.
  intros (Hb & H32 & Hs & Hv) Hh. pose proof (proj1 Hh) as H0. unfold node_bytes in Hh. cbn zeta.
  assert (E64 : 256 ^ Z.of_nat 8 = 2 ^ 64) by reflexivity.
  assert (E32 : 256 ^ Z.of_nat 4 = 2 ^ 32) by reflexivity.
  apply holds_app in Hh as [Hk Hh]. rewrite length_le_split in Hh. change (Z.of_nat 4) with 4 in Hh.
  replace (x.1.1 ++ le_split 8 x.1.2 ++ le_split 8 x.2 ++ le_split 8 (u64 ol) ++ le_split 8 (u64 or))
    with ((x.1.1 ++ le_split 8 x.1.2 ++ le_split 8 x.2) ++ le_split 8 (u64 ol) ++ le_split 8 (u64 or)) in Hh
    by (by rewrite <- !app_assoc).
  apply holds_app in Hh as [Hhead Hh]. rewrite !length_app, !length_le_split in Hh.
  apply holds_app in Hh as [Hl Hr]. rewrite length_le_split in Hr.
  rewrite u32_small in Hk by (unfold is_u32; lia).
  pose proof (u64_range ol) as Rl. pose proof (u64_range or) as Rr. unfold is_u64 in Rl, Rr.
  split; [apply holds_load; [lia|done|rewrite E32; lia]|]. split; [done|].
  assert (Hne : le_split 8 (u64 or) <> []) by done.
  pose proof (holds_bound _ _ _ Hr Hne) as Hbd. rewrite length_le_split in Hbd.
  split; [|split; [|lia]]; (apply holds_load; [lia| |rewrite E64; lia]).
  - replace (off + 4 + Z.of_nat (length x.1.1) + 16)
      with (off + 4 + Z.of_nat (length x.1.1 + (8 + 8))) by lia. done.
  - replace (off + 4 + Z.of_nat (length x.1.1) + 24)
      with (off + 4 + Z.of_nat (length x.1.1 + (8 + 8)) + Z.of_nat 8) by lia. done.
Qed.

Lemma encodes_child t off : encodes e data t off -> to_int (u64 off) = off /\ -1 <= off < 2 ^ 63.
Proof.
  intros He. assert (-1 <= off < 2 ^ 63) by (destruct t; cbn in He; unfold noChild in *; lia).
  split; [|done]. by apply to_int_u64.
Qed.

(** What the loop answers for the tree at a child pointer. *)
Definition answers (t : tree) (cand : option descentResult) (o : outcome index_error descentResult) : Prop :=
  match lookup_entry mode key (tree_entries t) with
  | Some x => exists d, o = Ok d /\ points_to data d x
  | None => o = outcome_of cand
  end.

(** The end of a turn: a child pointer is followed. *)
Definition follow (fuel : nat) (child : Z) (cand : option descentResult) : outcome index_error descentResult :=
  if child =? noChild then outcome_of cand
  else if child <? 0 then Err ErrCorruptIndex
  else descend_loop data key mode fuel child cand.

Lemma descend_turn fuel off cand x ol or :
  entry_ok x -> holds data off (node_bytes x.1.1 x.1.2 x.2 ol or) ->
  exists here, points_to data here x /\
    descend_loop data key mode (S fuel) off cand
    = match bytes_compare key x.1.1 with
      | Lt => follow fuel (to_int (u64 ol)) (if keepCandidate mode then Some here else cand)
      | Eq => if acceptEqual mode then Ok here else follow fuel (to_int (u64 or)) cand
      | Gt => follow fuel (to_int (u64 or)) cand
      end.
Proof.
  intros Hok Hh. destruct (node_layout off x ol or Hok Hh) as (L4 & Hnode & Ll & Lr & Hbd).
  cbn zeta in *. pose proof (proj1 Hh). set (n := Z.of_nat (length x.1.1)) in *.
  exists (Descent (off + 4 + n) n). split.
  { split; [done|]. cbn [d_pos d_keyLen]. by replace (off + 4 + n - n) with (off + 4) by lia. }
  cbn [descend_loop]. rewrite (u64_small (off + 4)) by (unfold is_u64; lia).
  destruct (Z.ltb_spec (Z.of_nat (length data)) (off + 4)); [lia|]. rewrite L4. cbn [obind].
  rewrite (u64_small (Z.of_nat (length data) - (off + 4))) by (unfold is_u64; lia).
  destruct (Z.ltb_spec (Z.of_nat (length data) - (off + 4)) n); [lia|].
  rewrite compare_node_ok by (done || lia). cbn [obind]. replace (Z.to_nat n) with (length x.1.1) by (unfold n; lia).
  rewrite (holds_slice _ _ _ (proj1 (holds_app _ _ _ _ Hnode))).
  rewrite (u64_small (off + 4 + n)) by (unfold is_u64; lia).
  rewrite (u64_small (Z.of_nat (length data) - (off + 4 + n))) by (unfold is_u64; lia).
  destruct (Z.ltb_spec (Z.of_nat (length data) - (off + 4 + n)) 32); [lia|].
  destruct (bytes_compare key x.1.1); cbn [andb].
  - destruct (acceptEqual mode); [done|]. by rewrite Lr.
  - by rewrite Ll.
  - by rewrite Lr.
Qed.

(** Following a pointer to the image of [t]. *)
Lemma follow_spec t fuel off cand :
  (forall fuel off cand, encodes e data t off -> t <> Leaf -> tree_size t <= Z.of_nat fuel ->
     answers t cand (descend_loop data key mode fuel off cand)) ->
  encodes e data t off -> tree_size t <= Z.of_nat fuel ->
  answers t cand (follow fuel (to_int (u64 off)) cand).
Proof.
  intros Ht He Hf. destruct (encodes_child t off He) as [-> _]. unfold follow.
  destruct t as [|l i r].
  - cbn [encodes] in He. subst off. done.
  - pose proof (proj1 He). unfold noChild. rewrite (proj2 (Z.eqb_neq _ _)), (proj2 (Z.ltb_ge _ _)) by lia.
    by apply Ht.
Qed.

Lemma descend_loop_spec t : forall fuel off cand,
  Forall entry_ok (tree_entries t) -> keys_sorted (tree_entries t) ->
  encodes e data t off -> t <> Leaf -> tree_size t <= Z.of_nat fuel ->
  answers t cand (descend_loop data key mode fuel off cand).
Proof.
  induction t as [|l IHl i r IHr]; intros fuel off cand Hok Hs He Hne Hf; [done|].
  destruct He as (Hoff & ol & or & rest & Hd & El & Er). cbn [tree_size] in Hf.
  pose proof (tree_size_nonneg l). pose proof (tree_size_nonneg r). destruct fuel as [|fuel]; [lia|].
  assert (E : tree_entries (Node l i r) = tree_entries l ++ e i :: tree_entries r)
    by (unfold tree_entries; cbn [inorder]; by rewrite map_app).
  rewrite E in Hok, Hs. destruct (keys_sorted_app _ _ Hs) as (Sl & Sr & _).
  destruct (keys_sorted_app [e i] _ Sr) as (_ & Sr' & _).
  apply Forall_app in Hok as [Ol Or]. inversion_clear Or as [|? ? Oi Or'].
  destruct (descend_turn fuel off cand (e i) ol or Oi) as (here & Hhere & ->); [split; [lia|eauto]|].
  unfold answers. rewrite E, lookup_split by done.
  assert (Hl : forall c, answers l c (follow fuel (to_int (u64 ol)) c)).
  { intros c. apply follow_spec; [intros; by apply IHl|done|lia]. }
  assert (Hr : answers r cand (follow fuel (to_int (u64 or)) cand)).
  { apply follow_spec; [intros; by apply IHr|done|lia]. }
  destruct (bytes_compare key (e i).1.1); [| |exact Hr].
  - destruct (acceptEqual mode); [eauto|exact Hr].
  - specialize (Hl (if keepCandidate mode then Some here else cand)). unfold answers in Hl.
    destruct (lookup_entry mode key (tree_entries l)); [done|]. rewrite Hl.
    destruct (keepCandidate mode); cbn; eauto.
Qed.
End Image.

(** ** An index serves its entries *)

Definition of_option {A} (o : option A) : outcome index_error A :=
  match o with Some a => Ok a | None => Err NotFound end.

(** The values a reader accepts. *)
Definition value_ok (t : DiskTree) (x : entry) : Prop :=
  x.1.2 <= x.2 /\ (dt_hasValueBounds t = true -> dt_valueStart t <= x.1.2 /\ x.2 <= dt_valueEnd t).

(** The lookups of [t] are those of the sorted list [es]. *)
Definition serves (t : DiskTree) (es : list entry) : Prop :=
  forall key, Forall is_byte key ->
    dt_Get t key = of_option (lookup_entry descentEqual key es) /\
    dt_Seek t key = of_option (lookup_entry descentGreaterThanEqual key es) /\
    dt_Next t key = of_option (lookup_entry descentGreaterThan key es) /\
    dt_Contains t key = Ok (bool_decide (is_Some (lookup_entry descentEqual key es))) /\
    SeekOffsets t key
    = of_option (option_map (fun x => (x.1.2, x.2)) (lookup_entry descentGreaterThanEqual key es)).

Lemma materialize_ok t d x :
  points_to (dt_data t) d x -> entry_ok x -> value_ok t x ->
  materializeNode t d = Ok x /\ offsetsAt t d = Ok (x.1.2, x.2).
Proof.
  intros [Hk Hh] (Hb & H32 & Hs & Hv) [Hle Hbd].
  destruct (holds_app _ _ _ _ Hh) as [H1 H2]. destruct (holds_app _ _ _ _ H2) as [Hst Hen].
  rewrite length_le_split in Hen. rewrite <- Hk in Hst, Hen.
  replace (d_pos d - d_keyLen d + d_keyLen d) with (d_pos d) in Hst, Hen by lia.
  assert (E64 : 256 ^ Z.of_nat 8 = 2 ^ 64) by reflexivity.
  assert (Ho : offsetsAt t d = Ok (x.1.2, x.2)).
  { unfold offsetsAt. rewrite (holds_load 8 _ _ x.1.2), (holds_load 8 _ _ x.2)
      by (done || lia || (rewrite E64; assumption)).
    cbn [obind]. destruct (Z.ltb_spec x.2 x.1.2); [lia|]. unfold checkValueRange.
    destruct (dt_hasValueBounds t); cbn [negb]; [|done]. destruct (Hbd eq_refl).
    by rewrite !(proj2 (Z.ltb_ge _ _)) by done. }
  split; [|done]. unfold materializeNode. rewrite Ho. cbn [obind].
  assert (Hne : le_split 8 x.1.2 <> []) by done.
  pose proof (holds_bound _ _ _ Hst Hne) as Hbnd. rewrite length_le_split in Hbnd.
  rewrite data_slice_ok by (pose proof (proj1 Hh); lia). cbn [obind].
  replace (Z.to_nat (d_pos d - (d_pos d - d_keyLen d))) with (length x.1.1) by lia.
  rewrite (holds_slice _ _ _ H1). by destruct x as [[? ?] ?].
Qed.

Lemma image_serves e tr (t : DiskTree) :
  Forall is_byte (dt_data t) -> Z.of_nat (length (dt_data t)) < 2 ^ 63 ->
  encodes e (dt_data t) tr 0 -> tree_size tr <= maxDescentSteps (Z.of_nat (length (dt_data t))) ->
  Forall entry_ok (tree_entries e tr) -> Forall (value_ok t) (tree_entries e tr) ->
  keys_sorted (tree_entries e tr) -> serves t (tree_entries e tr).
Proof.
  intros Hb Hlen He Hsz Hok Hv Hs key Hkey.
  assert (Hd : forall mode, answers e (dt_data t) key mode tr None (descend (dt_data t) key mode)).
  { intros mode. unfold descend. destruct tr as [|l i r]; [by cbn in He|]. pose proof (proj1 He).
    destruct (Nat.eqb_spec (length (dt_data t)) 0); [lia|].
    apply descend_loop_spec; try done. lia. }
  assert (Hin : forall mode x, lookup_entry mode key (tree_entries e tr) = Some x -> entry_ok x /\ value_ok t x).
  { intros mode x Hx. apply find_some in Hx as [Hx _]. rewrite Forall_forall in Hok, Hv.
    apply list_elem_of_In in Hx. auto. }
  assert (Hall : forall mode,
    (let! d := descend (dt_data t) key mode in materializeNode t d)
      = of_option (lookup_entry mode key (tree_entries e tr)) /\
    (let! d := descend (dt_data t) key mode in offsetsAt t d)
      = of_option (option_map (fun x => (x.1.2, x.2)) (lookup_entry mode key (tree_entries e tr)))).
  { intros mode. specialize (Hd mode). specialize (Hin mode). unfold answers in Hd.
    destruct (lookup_entry mode key (tree_entries e tr)) as [x|].
    - destruct Hd as (d & -> & Hp). cbn [obind]. destruct (Hin x eq_refl). by apply materialize_ok.
    - rewrite Hd. done. }
  unfold dt_Get, dt_Seek, dt_Next, dt_Contains, GetOffsets, SeekOffsets.
  rewrite !(proj1 (Hall _)), !(proj2 (Hall _)). do 3 (split; [done|]). split; [|done].
  by destruct (lookup_entry descentEqual key _).
Qed.

(** ** Written indexes *)

Definition index_size (es : list entry) : Z :=
  foldr (fun x acc => (TREE_KEY_STORE_OVERHEAD + Z.of_nat (length x.1.1)) + acc) 0 es.

(** An entry and the child pointers of its node. *)
Definition node_image (nd : entry * (Z * Z)) : list Z :=
  node_bytes nd.1.1.1 nd.1.1.2 nd.1.2 nd.2.1 nd.2.2.

(** [data] is the image of [es]: linked nodes, back to back in some order. *)
Definition index_image (data : list Z) (es : list entry) : Prop :=
  Forall is_byte data /\ Z.of_nat (length data) = index_size es /\
  (exists e, encodes e data (index_tree (Z.of_nat (length es))) 0 /\
    tree_entries e (index_tree (Z.of_nat (length es))) = es) /\
  exists nodes, data = concat (map node_image nodes) /\ map fst nodes ≡ₚ es.

Lemma node_image_bytes nd : entry_ok nd.1 -> Forall is_byte (node_image nd).
Proof.
  intros (Hb & _). unfold node_image, node_bytes. by repeat apply Forall_app_2; try apply le_split_bytes.
Qed.

Lemma map_nth_seqZ {A} (d : A) l : map (fun i => nth (Z.to_nat i) l d) (seqZ 0 (Z.of_nat (length l))) = l.
Proof.
  induction l as [|x l IH]; [done|]. cbn [length]. rewrite seqZ_cons by lia. cbn [map]. f_equal.
  rewrite <- IH at 2. replace (Z.pred (Z.of_nat (S (length l)))) with (Z.of_nat (length l)) by lia.
  change (Z.succ 0) with (1 + 0). rewrite <- fmap_add_seqZ.
  change (fmap (M := list) ?g ?k) with (map g k). rewrite map_map. apply map_ext_in.
  intros i Hi%list_elem_of_In%elem_of_seqZ. replace (Z.to_nat (1 + i)) with (S (Z.to_nat i)) by lia. done.
Qed.

Lemma marshal_image (entries : Z -> outcome index_error entry) es :
  1 <= Z.of_nat (length es) < 2 ^ 31 -> Forall entry_ok es ->
  (forall si, 0 <= si < Z.of_nat (length es) -> entries si = Ok (nth (Z.to_nat si) es ([], 0, 0))) ->
  exists data, marshal_sorted entries (Z.of_nat (length es)) = Ok (data, Z.of_nat (length data)) /\
    index_image data es.
Proof.
  intros Hn Hok Hent. set (n := Z.of_nat (length es)) in *.
  set (e := fun si => nth (Z.to_nat si) es ([], 0, 0)).
  destruct (marshal_sorted_spec n Hn entries e Hent) as (data & offs & Hm & Hdata & Henc & Hlen).
  exists data. split; [done|].
  assert (Hes : tree_entries e (index_tree n) = es)
    by (unfold tree_entries; rewrite index_tree_inorder by done; apply map_nth_seqZ).
  set (node := fun p => (e (index_at (heap n) p),
    (child_of n offs (2 * p + 1), child_of n offs (2 * p + 2)))).
  assert (Hnodes : data = concat (map node_image (map node (order n)))).
  { rewrite Hdata, map_map. f_equal. apply map_ext. intros p. unfold bytes_at, node_image, node.
    cbn [fst snd]. by destruct (e (index_at (heap n) p)) as [[? ?] ?]. }
  assert (Hperm : map fst (map node (order n)) ≡ₚ es).
  { rewrite map_map. unfold node. cbn [fst].
    rewrite <- (map_map (index_at (heap n)) e). rewrite (order_indices n Hn).
    unfold n, e. by rewrite map_nth_seqZ. }
  split; [|split; [|split; [by exists e|by exists (map node (order n))]]].
  - rewrite Hnodes. apply Forall_concat, List.Forall_map, Forall_forall. intros nd Hnd.
    apply node_image_bytes. rewrite <- Hperm in Hok. rewrite Forall_forall in Hok. apply Hok.
    by apply list_elem_of_fmap_2.
  - rewrite Hlen, <- Hes. unfold tree_entries. rewrite index_tree_inorder by done. unfold index_size.
    generalize (seqZ 0 n). induction l as [|si l IH]; cbn [map foldr]; [done|]. unfold size_of in *. lia.
Qed.

(** The step limit is no limit for an image. *)
Lemma index_size_steps es len : index_size es <= len -> Z.of_nat (length es) <= maxDescentSteps len.
Proof.
  intros Hle. unfold maxDescentSteps, TREE_KEY_STORE_OVERHEAD.
  assert (Hs : 36 * Z.of_nat (length es) <= index_size es).
  { clear. unfold index_size, TREE_KEY_STORE_OVERHEAD. induction es as [|x es IH]; cbn [length foldr] in *; lia. }
  assert (Z.of_nat (length es) <= len / 36) by (apply Z.div_le_lower_bound; lia). lia.
Qed.

Lemma index_image_serves data es trailer (t : DiskTree) :
  index_image data es -> 1 <= Z.of_nat (length es) -> dt_data t = data ++ trailer ->
  Forall is_byte trailer -> index_size es + Z.of_nat (length trailer) < 2 ^ 63 ->
  Forall entry_ok es -> Forall (value_ok t) es -> keys_sorted es -> serves t es.
Proof.
  intros (Hb & Hlen & (e & Henc & Hes) & _) Hn Hd Htr Hsz Hok Hv Hs.
  assert (Hl : Z.of_nat (length (dt_data t)) = index_size es + Z.of_nat (length trailer))
    by (rewrite Hd, length_app; lia).
  rewrite <- Hes. apply image_serves.
  - rewrite Hd. by apply Forall_app_2.
  - lia.
  - rewrite Hd. by apply encodes_app.
  - rewrite tree_size_inorder. replace (length (inorder _)) with (length es)
      by (by rewrite <- Hes at 1; unfold tree_entries; rewrite length_map).
    apply index_size_steps. lia.
  - by rewrite Hes.
  - by rewrite Hes.
  - by rewrite Hes.
Qed.

Definition key_entries (keys : list Key) : list entry :=
  map (fun k => (k_Key k, u64 (k_ValueStart k), u64 (k_ValueEnd k))) keys.

(** The values of neighbouring keys are adjacent. *)
Fixpoint redux_entries (start : Z) (keys : list KeyRedux) : list entry :=
  match keys with
  | [] => []
  | k :: keys => (kr_Key k, start, u64 (kr_ValueEnd k)) :: redux_entries (u64 (kr_ValueEnd k)) keys
  end.

Lemma length_redux_entries start keys : length (redux_entries start keys) = length keys.
Proof. revert start; induction keys; intros; cbn; auto. Qed.

Lemma key_at_nth {A} (keys : list A) d si :
  0 <= si < Z.of_nat (length keys) -> key_at keys si = Ok (nth (Z.to_nat si) keys d).
Proof.
  intros Hsi. unfold key_at. rewrite (proj2 (Z.ltb_ge _ _)) by lia.
  destruct (lookup_lt_is_Some_2 keys (Z.to_nat si)) as [k Hk]; [lia|]. rewrite Hk. f_equal.
  symmetry. rewrite nth_lookup, Hk. done.
Qed.

Lemma key_entry_nth keys si :
  0 <= si < Z.of_nat (length keys) -> key_entry keys si = Ok (nth (Z.to_nat si) (key_entries keys) ([], 0, 0)).
Proof.
  intros Hsi. unfold key_entry. rewrite (key_at_nth keys (IndexKey [] [] 0 0)) by done. cbn [obind].
  unfold key_entries. f_equal. symmetry.
  apply (map_nth (fun k => (k_Key k, u64 (k_ValueStart k), u64 (k_ValueEnd k))) keys (IndexKey [] [] 0 0)).
Qed.

Lemma redux_nth keys : forall start (i : nat),
  (i < length keys)%nat ->
  nth i (redux_entries start keys) ([], 0, 0)
  = (kr_Key (nth i keys (IndexKeyRedux [] 0)),
     match i with O => start | S j => u64 (kr_ValueEnd (nth j keys (IndexKeyRedux [] 0))) end,
     u64 (kr_ValueEnd (nth i keys (IndexKeyRedux [] 0)))).
Proof.
  induction keys as [|k keys IH]; intros start [|i] Hi; cbn [length redux_entries nth] in *; try lia; [done|].
  rewrite IH by lia. by destruct i.
Qed.

Lemma redux_entry_nth keys start si :
  0 <= si < Z.of_nat (length keys) ->
  redux_entry keys start si = Ok (nth (Z.to_nat si) (redux_entries start keys) ([], 0, 0)).
Proof.
  intros Hsi. unfold redux_entry. rewrite (key_at_nth keys (IndexKeyRedux [] 0)) by done. cbn [obind].
  rewrite redux_nth by lia. destruct (Z.eqb_spec si 0) as [->|]; cbn [obind]; [done|].
  rewrite (key_at_nth keys (IndexKeyRedux [] 0) (si - 1)) by lia. cbn [obind].
  replace (Z.to_nat si) with (S (Z.to_nat (si - 1))) by lia. done.
Qed.

Lemma primary_size keys : computePrimaryIndexSize keys = index_size (key_entries keys).
Proof.
  unfold computePrimaryIndexSize, index_size, key_entries.
  enough (E : forall acc, foldl (fun size key => size + (TREE_KEY_STORE_OVERHEAD + Z.of_nat (length (k_Key key)))) acc keys
    = acc + foldr (fun x acc => TREE_KEY_STORE_OVERHEAD + Z.of_nat (length x.1.1) + acc) 0
        (map (fun k => (k_Key k, u64 (k_ValueStart k), u64 (k_ValueEnd k))) keys)) by (rewrite E; lia).
  induction keys as [|k keys IH]; intros acc; cbn [foldl map foldr fst]; [lia|]. rewrite IH. lia.
Qed.

Lemma FromKeys_image keys :
  1 <= Z.of_nat (length keys) < 2 ^ 31 -> Forall entry_ok (key_entries keys) ->
  exists data, MarshalSortedKeysFromKeys keys = Ok (data, computePrimaryIndexSize keys) /\
    index_image data (key_entries keys).
Proof.
  intros Hn Hok. assert (El : length (key_entries keys) = length keys) by apply length_map.
  destruct (marshal_image (key_entry keys) (key_entries keys)) as (data & Hm & Hi).
  - by rewrite El.
  - done.
  - rewrite El. intros si Hsi. by apply key_entry_nth.
  - exists data. split; [|done]. rewrite El in Hm. destruct keys as [|k keys]; [cbn in Hn; lia|].
    unfold MarshalSortedKeysFromKeys. rewrite Hm, primary_size. by destruct Hi as (_ & -> & _).
Qed.

Lemma Redux_image keys start :
  1 <= Z.of_nat (length keys) < 2 ^ 31 -> Forall entry_ok (redux_entries start keys) ->
  Forall (fun x => x.1.2 <= x.2) (redux_entries start keys) ->
  exists data, MarshalSortedKeys keys start = Ok (data, Z.of_nat (length data)) /\
    index_image data (redux_entries start keys).
Proof.
  intros Hn Hok Hv. pose proof (length_redux_entries start keys) as El.
  destruct (marshal_image (redux_entry keys start) (redux_entries start keys)) as (data & Hm & Hi).
  - by rewrite El.
  - done.
  - rewrite El. intros si Hsi. by apply redux_entry_nth.
  - exists data. split; [|done]. rewrite El in Hm. destruct keys as [|k keys]; [cbn in Hn; lia|].
    unfold MarshalSortedKeys. inversion_clear Hv as [|? ? H1 _]. cbn in H1.
    by rewrite (proj2 (Z.ltb_ge _ _)) by done.
Qed.

(** * Properties *)

(** C33: lookups through a written index are lookups in the sorted keys.  For keys
    in strictly increasing byte order, [MarshalSortedKeysFromKeys] writes an image
    of the predicted size; on that image, with any bytes behind it and with value
    bounds that contain the values, [Get] finds exactly the key, [Seek] the
    smallest key that is not below and [Next] the smallest key above, with their
    values, and otherwise report [NotFound]; [Contains] and [SeekOffsets] agree. *)
Theorem index_lookup_correct (keys : list Key) (trailer : list Z) (valueStart valueEnd : Z) :
  1 <= Z.of_nat (length keys) < 2 ^ 31 -> Forall entry_ok (key_entries keys) ->
  keys_sorted (key_entries keys) -> Forall is_byte trailer ->
  computePrimaryIndexSize keys + Z.of_nat (length trailer) < 2 ^ 63 ->
  Forall (fun x => valueStart <= x.1.2 <= x.2 /\ x.2 <= valueEnd) (key_entries keys) ->
  exists data, MarshalSortedKeysFromKeys keys = Ok (data, computePrimaryIndexSize keys) /\
    serves (NewDiskTreeWithValueBounds (data ++ trailer) valueStart valueEnd) (key_entries keys) /\
    serves (NewDiskTree (data ++ trailer)) (key_entries keys).
Proof.
  intros Hn Hok Hs Htr Hsz Hv. rewrite primary_size in Hsz.
  destruct (FromKeys_image keys Hn Hok) as (data & Hm & Hi). exists data. split; [done|].
  assert (Hn' : 1 <= Z.of_nat (length (key_entries keys))) by (unfold key_entries; rewrite length_map; lia).
  split; apply (index_image_serves data _ trailer); try done.
  - eapply Forall_impl; [exact Hv|]. cbn. intros x Hx. split; cbn; lia.
  - eapply Forall_impl; [exact Hv|]. cbn. intros x Hx. split; cbn; [lia|done].
Qed.

(** The same for [MarshalSortedKeys], which stores the end of each value only
    and derives its start from the previous key: the image serves every key with
    the value between its predecessor's end and its own. *)
Lemma index_lookup_redux (keys : list KeyRedux) (dataStartOffset : Z) (trailer : list Z) :
  1 <= Z.of_nat (length keys) < 2 ^ 31 -> Forall entry_ok (redux_entries dataStartOffset keys) ->
  keys_sorted (redux_entries dataStartOffset keys) ->
  Forall (fun x => x.1.2 <= x.2) (redux_entries dataStartOffset keys) -> Forall is_byte trailer ->
  index_size (redux_entries dataStartOffset keys) + Z.of_nat (length trailer) < 2 ^ 63 ->
  exists data, MarshalSortedKeys keys dataStartOffset = Ok (data, Z.of_nat (length data)) /\
    serves (NewDiskTree (data ++ trailer)) (redux_entries dataStartOffset keys).
Proof.
  intros Hn Hok Hs Hv Htr Hsz. destruct (Redux_image keys dataStartOffset Hn Hok Hv) as (data & Hm & Hi).
  exists data. split; [done|].
  apply (index_image_serves data _ trailer); try done; [rewrite length_redux_entries; lia|].
  eapply Forall_impl; [exact Hv|]. cbn. intros x Hx. split; cbn; [lia|done].
Qed.

(** Reading a damaged index is safe.  Over arbitrary bytes (cyclic or dangling
    child pointers, key lengths past the end, truncation) [Get], [Seek] and [Next]
    end without a panic, with [NotFound], a corruption error, or a node; a node
    they return has a key in the relation to the probe that the call asks for,
    and a value inside the configured bounds. *)
Lemma lookup_safe (t : DiskTree) (key : list Z) :
  Forall is_byte (dt_data t) -> Forall is_byte key -> Z.of_nat (length (dt_data t)) < 2 ^ 63 ->
  safe_outcome (fun x => bytes_compare key x.1.1 = Eq /\ value_ok t x) (dt_Get t key) /\
  safe_outcome (fun x => bytes_compare key x.1.1 <> Gt /\ value_ok t x) (dt_Seek t key) /\
  safe_outcome (fun x => bytes_compare key x.1.1 = Lt /\ value_ok t x) (dt_Next t key).
Proof.
  intros Hd Hk Hl.
  assert (Hall : forall mode, safe_outcome (fun x => accepts mode (bytes_compare key x.1.1) = true /\ value_ok t x)
    (let! d := descend (dt_data t) key mode in materializeNode t d)).
  { intros mode. pose proof (descend_safe_core (dt_data t) key mode Hd Hk Hl) as Hs.
    destruct (descend (dt_data t) key mode) as [d|err| |]; try done. cbn [obind]. by apply materialize_safe. }
  assert (Himp : forall (P Q : entry -> Prop) o, (forall x, P x -> Q x) -> safe_outcome P o -> safe_outcome Q o)
    by (intros P Q [] HPQ; cbn; auto).
  split; [|split]; (eapply Himp; [|apply Hall]); intros x [Ha Hv]; (split; [|done]);
    by destruct (bytes_compare key x.1.1).
Qed.

(** * Witnesses *)

Definition wit_keys : list Key :=
  [IndexKey [1; 5] [] 10 20; IndexKey [2] [] 20 33; IndexKey [2; 0] [] 33 33; IndexKey [9] [] 40 50].

(** Entries, bytes and bounds written out. *)
Ltac concrete_entries :=
  cbn; repeat first [apply Forall_nil_2 | apply Forall_cons_2];
  unfold entry_ok, is_byte, is_u64; cbn;
  repeat match goal with |- _ /\ _ => split end;
  repeat first [apply Forall_nil_2 | apply Forall_cons_2]; cbv beta;
  try lia; try (vm_compute; first [discriminate | reflexivity]).

Lemma wit_keys_ok : Forall entry_ok (key_entries wit_keys).
Proof. concrete_entries. Qed.

Lemma wit_keys_sorted : keys_sorted (key_entries wit_keys).
Proof. repeat constructor. Qed.

Lemma index_lookup_correct_witness :
  exists data, MarshalSortedKeysFromKeys wit_keys = Ok (data, 150) /\
    serves (NewDiskTreeWithValueBounds (data ++ [7; 7; 7; 7]) 10 50) (key_entries wit_keys).
Proof.
  destruct (index_lookup_correct wit_keys [7; 7; 7; 7] 10 50) as (data & Hm & Hs & _).
  - cbn. lia.
  - exact wit_keys_ok.
  - exact wit_keys_sorted.
  - concrete_entries.
  - vm_compute. reflexivity.
  - concrete_entries.
  - exists data. split; [exact Hm|exact Hs].
Defined.

Definition wit_redux : list KeyRedux := [IndexKeyRedux [1; 5] 20; IndexKeyRedux [2] 33; IndexKeyRedux [9] 50].

Lemma index_lookup_redux_witness :
  exists data, MarshalSortedKeys wit_redux 16 = Ok (data, Z.of_nat (length data)) /\
    serves (NewDiskTree (data ++ [])) [([1; 5], 16, 20); ([2], 20, 33); ([9], 33, 50)].
Proof.
  apply (index_lookup_redux wit_redux 16 []).
  - cbn. lia.
  - concrete_entries.
  - repeat constructor.
  - concrete_entries.
  - constructor.
  - vm_compute. reflexivity.
Defined.

(** The child pointers of this node lead back to itself. *)
Definition cyclic_index : list Z :=
  node_bytes [3] 10 20 0 0.

Lemma lookup_safe_witness :
  dt_Get (NewDiskTree cyclic_index) [5] = Err ErrCorruptIndex /\
  safe_outcome (fun x => bytes_compare [5] x.1.1 = Eq /\ value_ok (NewDiskTree cyclic_index) x)
    (dt_Get (NewDiskTree cyclic_index) [5]).
Proof.
  split; [vm_compute; reflexivity|].
  refine (proj1 (lookup_safe (NewDiskTree cyclic_index) [5] _ _ _)).
  - apply (node_image_bytes ([3], 10, 20, (0, 0))). concrete_entries.
  - concrete_entries.
  - vm_compute. reflexivity.
Defined.
