(* ===== verification/IndexWalk.v ===== *)
(** * adapters/repos/db/lsmkv/segmentindex: sequential walks

    [AllKeys], [ForEachKey], [KeyCount] and [ForEachNodeInRange] over
    [SplitNodeRanges] read the nodes in the order they were written; on an image
    they see every node once. *)

From S2P Require Import Prelude ByteOps SegmentIndex IndexLayout DiskTree.

Notation node_rec := (entry * (Z * Z))%type.

Definition node_len (nd : node_rec) : Z := TREE_KEY_STORE_OVERHEAD + Z.of_nat (length nd.1.1.1).
Definition nodes_len (nodes : list node_rec) : Z := foldr (fun nd acc => node_len nd + acc) 0 nodes.
Definition nodes_bytes (nodes : list node_rec) : list Z := concat (map node_image nodes).
Definition nodes_ok (nodes : list node_rec) : Prop := Forall (fun nd => entry_ok nd.1) nodes.

Lemma length_node_image nd : Z.of_nat (length (node_image nd)) = node_len nd.
Proof. apply length_index_node. Qed.

Lemma length_nodes nodes : Z.of_nat (length (nodes_bytes nodes)) = nodes_len nodes.
Proof.
  unfold nodes_bytes, nodes_len. induction nodes as [|nd nodes IH]; cbn [map concat foldr]; [done|].
  rewrite length_app, Nat2Z.inj_add, length_node_image. lia.
Qed.

Lemma nodes_len_app a b : nodes_len (a ++ b) = nodes_len a + nodes_len b.
Proof. unfold nodes_len. induction a as [|nd a IH]; cbn [app foldr] in *; lia. Qed.

Lemma nodes_bytes_app a b : nodes_bytes (a ++ b) = nodes_bytes a ++ nodes_bytes b.
Proof. unfold nodes_bytes. by rewrite map_app, concat_app. Qed.

Lemma nodes_len_ge nodes : 36 * Z.of_nat (length nodes) <= nodes_len nodes.
Proof.
  unfold nodes_len, node_len, TREE_KEY_STORE_OVERHEAD.
  induction nodes as [|nd nodes IH]; cbn [foldr length] in *; lia.
Qed.

(** The fields of the node that starts the list. *)
Lemma node_at_start nd rest :
  entry_ok nd.1 ->
  load 4 (node_image nd ++ rest) 0 = Ok (Z.of_nat (length nd.1.1.1)) /\
  data_slice (node_image nd ++ rest) 4 (4 + Z.of_nat (length nd.1.1.1)) = Ok nd.1.1.1 /\
  drop (Z.to_nat (node_len nd)) (node_image nd ++ rest) = rest.
Proof.
  intros Hok. assert (Hh : holds (node_image nd ++ rest) 0 (node_image nd)) by (split; [lia|by exists rest]).
  destruct (node_layout _ 0 nd.1 nd.2.1 nd.2.2 Hok Hh) as (L4 & Hnode & _ & _ & Hbd). cbn zeta in *.
  split; [done|]. split.
  - rewrite data_slice_ok by lia.
    replace (Z.to_nat (4 + Z.of_nat (length nd.1.1.1) - 4)) with (length nd.1.1.1) by lia.
    f_equal. exact (holds_slice _ _ _ (proj1 (holds_app _ _ _ _ Hnode))).
  - apply drop_app_length'. rewrite <- length_node_image. lia.
Qed.

(** ** AllKeys *)

Lemma CopyBytesFromBuffer_mid p q r m :
  Z.of_nat (length p) + Z.of_nat (length q) < 2 ^ 64 ->
  CopyBytesFromBuffer (RW (Z.of_nat (length p)) (Buf (p ++ q ++ r) m)) (Z.of_nat (length q)) None
  = Ok (q, RW (Z.of_nat (length p + length q)) (Buf (p ++ q ++ r) m)).
Proof.
  intros Hl. unfold CopyBytesFromBuffer. rewrite advance_pos_small by lia. cbn [Buffer Position].
  rewrite Z.add_simpl_r, u64_small by (unfold is_u64; lia). rewrite slice_mid. cbn [obind].
  unfold copy_into, buf_bytes. cbn [buf_mem buf_len]. rewrite take_app_length, Nat2Z.id, repeat_length, Nat.min_id.
  rewrite Z.eqb_refl, firstn_all, drop_ge, app_nil_r by (by rewrite repeat_length).
  by rewrite Nat2Z.inj_add.
Qed.

Lemma readNodeKey_spec nd rest :
  entry_ok nd.1 -> readNodeKey (node_image nd ++ rest) = Ok (nd.1.1.1, node_len nd).
Proof.
  intros (_ & H32 & _). pose proof (length_node_image nd) as Hl. unfold node_len, TREE_KEY_STORE_OVERHEAD in *.
  unfold readNodeKey, TREE_KEY_STORE_OVERHEAD. rewrite length_app.
  destruct (Z.ltb_spec (Z.of_nat (length (node_image nd) + length rest)) 36); [lia|].
  set (keyLen := Z.of_nat (length nd.1.1.1)) in *.
  assert (Hs : exists tail, node_image nd ++ rest = le_split 4 keyLen ++ nd.1.1.1 ++ tail).
  { unfold node_image, node_bytes. rewrite u32_small by (unfold is_u32; lia). rewrite <- !app_assoc. eauto. }
  destruct Hs as [tail Hs]. rewrite Hs. unfold NewReadWriter, buf_of.
  assert (E32 : 256 ^ Z.of_nat 4 = 2 ^ 32) by reflexivity.
  pose proof (read_uint_mid 4 [] keyLen (nd.1.1.1 ++ tail) (length (le_split 4 keyLen ++ nd.1.1.1 ++ tail))
    ltac:(cbn; lia) ltac:(rewrite E32; lia)) as Hr.
  cbn [app length Nat.add] in Hr. change (Z.of_nat 0) with 0 in Hr. change (Z.of_nat 4) with 4 in Hr.
  unfold ReadUint32, Uint32Len. cbv zeta in *. rewrite Hr. cbn [omap_err obind].
  destruct (Z.ltb_spec (Z.of_nat (length (node_image nd) + length rest) - 36) keyLen); [lia|].
  pose proof (CopyBytesFromBuffer_mid (le_split 4 keyLen) nd.1.1.1 tail
    (length (le_split 4 keyLen ++ nd.1.1.1 ++ tail))) as Hc.
  rewrite length_le_split in Hc. change (Z.of_nat 4) with 4 in Hc. fold keyLen in Hc.
  rewrite Hc by lia. cbn [omap_err obind Position]. do 2 f_equal. lia.
Qed.

Lemma all_keys_spec nodes : forall fuel trailer,
  nodes_ok nodes -> Z.of_nat (length trailer) < TREE_KEY_STORE_OVERHEAD -> (length nodes < fuel)%nat ->
  all_keys_loop fuel (nodes_bytes nodes ++ trailer) = Ok (map (fun nd => nd.1.1.1) nodes).
Proof.
  induction nodes as [|nd nodes IH]; intros fuel trailer Hok Htr Hf; (destruct fuel as [|fuel]; [cbn in Hf; lia|]);
    cbn [all_keys_loop nodes_bytes map concat].
  - cbn [app]. unfold readNodeKey. by rewrite (proj2 (Z.ltb_lt _ _)).
  - inversion_clear Hok as [|? ? Hnd Hok']. rewrite <- app_assoc, readNodeKey_spec by done.
    destruct (node_at_start nd (nodes_bytes nodes ++ trailer) Hnd) as (_ & _ & Hd). unfold nodes_bytes in Hd at 1.
    rewrite Hd. unfold nodes_bytes in IH. rewrite IH by (done || (cbn in Hf; lia)). done.
Qed.

Lemma for_each_spec nodes : forall fuel trailer,
  nodes_ok nodes -> Z.of_nat (length trailer) < TREE_KEY_STORE_OVERHEAD -> (length nodes < fuel)%nat ->
  for_each_loop fuel (nodes_bytes nodes ++ trailer) = Ok (map (fun nd => nd.1.1.1) nodes).
Proof.
  induction nodes as [|nd nodes IH]; intros fuel trailer Hok Htr Hf; (destruct fuel as [|fuel]; [cbn in Hf; lia|]);
    cbn [for_each_loop nodes_bytes map concat].
  - cbn [app]. by rewrite (proj2 (Z.ltb_lt _ _)).
  - inversion_clear Hok as [|? ? Hnd Hok']. rewrite <- app_assoc.
    change (concat (map node_image nodes)) with (nodes_bytes nodes).
    pose proof (length_node_image nd) as Hl. unfold node_len in Hl.
    rewrite length_app, Nat2Z.inj_add. destruct (Z.ltb_spec
      (Z.of_nat (length (node_image nd)) + Z.of_nat (length (nodes_bytes nodes ++ trailer))) TREE_KEY_STORE_OVERHEAD); [lia|].
    destruct (node_at_start nd (nodes_bytes nodes ++ trailer) Hnd) as (-> & Hk & Hd). cbn [obind].
    rewrite (proj2 (Z.ltb_ge _ _)) by lia. rewrite Hk. cbn [obind].
    unfold node_len in Hd. rewrite (Z.add_comm (Z.of_nat _) TREE_KEY_STORE_OVERHEAD), Hd.
    rewrite IH by (done || (cbn in Hf; lia)). done.
Qed.

(** ** Ranges of nodes *)

Lemma node_fields data pos nd :
  entry_ok nd.1 -> holds data pos (node_image nd) ->
  let keyEnd := pos + 4 + Z.of_nat (length nd.1.1.1) in
  load 4 data pos = Ok (Z.of_nat (length nd.1.1.1)) /\ data_slice data (pos + 4) keyEnd = Ok nd.1.1.1 /\
  load 8 data keyEnd = Ok nd.1.1.2 /\ load 8 data (keyEnd + 8) = Ok nd.1.2.
Proof.
  intros Hok Hh keyEnd. destruct (node_layout data pos nd.1 nd.2.1 nd.2.2 Hok Hh) as (L4 & Hnode & _ & _ & Hbd).
  cbn zeta in *. fold keyEnd in Hbd. pose proof (proj1 Hnode).
  destruct Hok as (_ & _ & Hs & Hv). assert (E64 : 256 ^ Z.of_nat 8 = 2 ^ 64) by reflexivity.
  destruct (holds_app _ _ _ _ Hnode) as [Hk Hse]. destruct (holds_app _ _ _ _ Hse) as [Hst Hen].
  rewrite length_le_split in Hen. fold keyEnd in Hst, Hen. split; [done|]. split; [|split].
  - rewrite data_slice_ok by (unfold keyEnd in *; lia). f_equal.
    replace (Z.to_nat (keyEnd - (pos + 4))) with (length nd.1.1.1) by (unfold keyEnd; lia).
    by apply holds_slice.
  - apply holds_load; [lia|done|by rewrite E64].
  - apply holds_load; [lia|done|by rewrite E64].
Qed.

Lemma range_loop_spec data nodes : forall fuel pos extra,
  nodes_ok nodes -> holds data pos (nodes_bytes nodes) -> 0 <= extra < TREE_KEY_STORE_OVERHEAD ->
  (length nodes < fuel)%nat ->
  range_loop data fuel pos (pos + nodes_len nodes + extra) = Ok (map fst nodes).
Proof.
  induction nodes as [|nd nodes IH]; intros fuel pos extra Hok Hh Hex Hf; (destruct fuel as [|fuel]; [cbn in Hf; lia|]);
    cbn [range_loop nodes_len foldr map].
  - destruct (Z.leb_spec (pos + 0 + extra) pos); [done|]. by rewrite (proj2 (Z.ltb_lt _ _)) by lia.
  - inversion_clear Hok as [|? ? Hnd Hok']. unfold nodes_bytes in Hh. cbn [map concat] in Hh.
    destruct (holds_app _ _ _ _ Hh) as [H1 H2]. fold (nodes_bytes nodes) in H2. rewrite length_node_image in H2.
    pose proof (nodes_len_ge nodes). unfold TREE_KEY_STORE_OVERHEAD in *. fold (nodes_len nodes).
    assert (Hnl : node_len nd = 36 + Z.of_nat (length nd.1.1.1)) by done.
    rewrite (proj2 (Z.leb_gt _ _)), (proj2 (Z.ltb_ge _ _)) by lia.
    destruct (node_fields data pos nd Hnd H1) as (-> & Hk & Hs & Hv). cbn [obind].
    rewrite (proj2 (Z.ltb_ge _ _)) by lia. rewrite Hk, Hs, Hv. cbn [obind].
    replace (pos + (Z.of_nat (length nd.1.1.1) + 36)) with (pos + node_len nd) by lia.
    replace (pos + (node_len nd + nodes_len nodes) + extra) with (pos + node_len nd + nodes_len nodes + extra) by lia.
    rewrite IH by (done || (cbn in Hf; lia)). cbn [obind]. by destruct nd as [[[? ?] ?] ?].
Qed.

(** The nodes [nodes] of [data], between the bytes of [pre] and the rest. *)
Lemma range_walk data pre nodes rest to :
  nodes_ok nodes -> data = nodes_bytes pre ++ nodes_bytes nodes ++ rest ->
  nodes_len pre + nodes_len nodes <= to < nodes_len pre + nodes_len nodes + TREE_KEY_STORE_OVERHEAD ->
  to <= Z.of_nat (length data) ->
  ForEachNodeInRange data (nodes_len pre) to = Ok (map fst nodes).
Proof.
  intros Hok Hd Hto Hlen. unfold ForEachNodeInRange.
  pose proof (nodes_len_ge pre). pose proof (nodes_len_ge nodes).
  rewrite !(proj2 (Z.ltb_ge _ _)) by lia. cbn [orb].
  replace (range_loop data _ (nodes_len pre) to) with (range_loop data (S (Z.to_nat (to - nodes_len pre)))
    (nodes_len pre) (nodes_len pre + nodes_len nodes + (to - nodes_len pre - nodes_len nodes))) by (f_equal; lia).
  apply range_loop_spec; [done| |lia|lia].
  split; [lia|]. exists rest. rewrite Hd. apply drop_app_length'. pose proof (length_nodes pre). lia.
Qed.

(** Walking a list of ranges, one after the other. *)
Fixpoint walk_ranges (data : list Z) (ranges : list (Z * Z)) : outcome index_error (list entry) :=
  match ranges with
  | [] => Ok []
  | (from, to) :: ranges =>
      let! xs := ForEachNodeInRange data from to in
      let! ys := walk_ranges data ranges in
      Ok (xs ++ ys)
  end.

(** The range that closes a split. *)
Lemma split_close data pre nodes trailer :
  nodes_ok nodes -> data = nodes_bytes pre ++ nodes_bytes nodes ++ trailer ->
  Z.of_nat (length trailer) < TREE_KEY_STORE_OVERHEAD ->
  Z.of_nat (length data) = nodes_len pre + nodes_len nodes + Z.of_nat (length trailer) /\
  walk_ranges data [(nodes_len pre, Z.of_nat (length data))] = Ok (map fst nodes).
Proof.
  intros Hok Hd Htr.
  assert (Hlen : Z.of_nat (length data) = nodes_len pre + nodes_len nodes + Z.of_nat (length trailer))
    by (rewrite Hd, !length_app, !Nat2Z.inj_add, !length_nodes; lia).
  split; [done|]. cbn [walk_ranges]. rewrite (range_walk data pre nodes trailer) by (done || lia).
  cbn [obind]. by rewrite app_nil_r.
Qed.

Lemma split_loop_spec data trailer parts post : forall fuel pre cur next,
  nodes_ok (cur ++ post) -> data = nodes_bytes pre ++ nodes_bytes (cur ++ post) ++ trailer ->
  Z.of_nat (length trailer) < TREE_KEY_STORE_OVERHEAD -> (length post < fuel)%nat ->
  exists l, split_loop data fuel parts (nodes_len pre) (nodes_len (pre ++ cur)) next = Ok l /\
    walk_ranges data l = Ok (map fst (cur ++ post)).
Proof.
  induction post as [|nd post IH]; intros fuel pre cur next Hok Hd Htr Hf;
    (destruct fuel as [|fuel]; [cbn in Hf; lia|]); cbn [split_loop];
    destruct (split_close data pre _ trailer Hok Hd Htr) as [Hlen Hclose].
  { rewrite nodes_len_app, (proj2 (Z.ltb_lt (Z.of_nat (length data) - _) _)), orb_true_r; [eauto|].
    rewrite app_nil_r in Hlen. lia. }
  destruct (negb _ || _); [eauto|]. clear Hclose.
  assert (Hnd : entry_ok nd.1).
  { apply Forall_app in Hok as [_ Hok]. inversion_clear Hok as [|? ? Hnd _]. exact Hnd. }
  set (pos := nodes_len (pre ++ cur)) in *.
  assert (Hh : holds data pos (node_image nd)).
  { split; [pose proof (nodes_len_ge (pre ++ cur)); lia|]. exists (nodes_bytes post ++ trailer).
    rewrite Hd, nodes_bytes_app, <- app_assoc, app_assoc, <- nodes_bytes_app.
    rewrite drop_app_length' by (pose proof (length_nodes (pre ++ cur)); lia).
    unfold nodes_bytes at 1. cbn [map concat]. by rewrite <- app_assoc. }
  destruct (node_fields data pos nd Hnd Hh) as (-> & _). cbn [obind].
  replace (cur ++ nd :: post) with ((cur ++ [nd]) ++ post) in * by (by rewrite <- app_assoc).
  assert (Hpos : pos + (Z.of_nat (length nd.1.1.1) + TREE_KEY_STORE_OVERHEAD) = nodes_len (pre ++ cur ++ [nd])).
  { rewrite app_assoc, nodes_len_app. fold pos. unfold nodes_len at 1, node_len. cbn [foldr]. lia. }
  rewrite !nodes_len_app in Hlen, Hpos. pose proof (nodes_len_ge post).
  rewrite (proj2 (Z.ltb_ge _ _)) by lia. rewrite <- !nodes_len_app in Hpos. rewrite Hpos.
  assert (Hgo : forall next', exists l, split_loop data fuel parts (nodes_len pre) (nodes_len (pre ++ cur ++ [nd])) next' = Ok l /\
    walk_ranges data l = Ok (map fst ((cur ++ [nd]) ++ post))).
  { intros next'. apply IH; try done. cbn in Hf. lia. }
  destruct (_ <=? _); [|apply Hgo]. destruct (_ <? _); [|apply Hgo].
  apply Forall_app in Hok as [Hok1 Hok2].
  destruct (IH fuel (pre ++ cur ++ [nd]) [] (skip_next (Z.to_nat parts) (Z.of_nat (length data)) parts
    (nodes_len (pre ++ cur ++ [nd])) next)) as (l & Hl & Hw); try done.
  - rewrite Hd. cbn [app]. by rewrite !nodes_bytes_app, <- !app_assoc.
  - cbn in Hf. lia.
  - rewrite app_nil_r in Hl. rewrite Hl. cbn [obind]. eexists. split; [reflexivity|]. cbn [walk_ranges].
    rewrite (range_walk data pre (cur ++ [nd]) (nodes_bytes post ++ trailer)), Hw.
    + cbn [obind app]. by rewrite !map_app.
    + done.
    + rewrite Hd. by rewrite !nodes_bytes_app, <- !app_assoc.
    + rewrite !nodes_len_app. unfold TREE_KEY_STORE_OVERHEAD. lia.
    + rewrite Hlen, !nodes_len_app. lia.
Qed.

Lemma SplitNodeRanges_spec data nodes trailer parts :
  nodes_ok nodes -> nodes <> [] -> data = nodes_bytes nodes ++ trailer ->
  Z.of_nat (length trailer) < TREE_KEY_STORE_OVERHEAD ->
  exists l, SplitNodeRanges data parts = Ok l /\ walk_ranges data l = Ok (map fst nodes).
Proof.
  intros Hok Hne Hd Htr. unfold SplitNodeRanges.
  destruct (split_close data [] nodes trailer Hok Hd Htr) as [Hlen Hclose].
  change (nodes_len []) with 0 in *. pose proof (nodes_len_ge nodes).
  assert (1 <= Z.of_nat (length nodes)) by (destruct nodes; [done|cbn [length]; lia]).
  rewrite (proj2 (Z.eqb_neq _ _)) by lia. destruct (_ <=? 1); [eauto|].
  apply (split_loop_spec data trailer _ nodes _ [] []); try done. lia.
Qed.

(** * Properties *)

(** A sequential scan of a written index misses no node and reads none twice,
    whatever short trailer (a checksum) follows it: [AllKeys] and [ForEachKey]
    return the keys, [KeyCount] their number, and a scan split into any number
    of ranges visits the same entries, each with its value. *)
Lemma index_walk_complete (keys : list Key) (trailer : list Z) (parts : Z) :
  1 <= Z.of_nat (length keys) < 2 ^ 31 -> Forall entry_ok (key_entries keys) ->
  Z.of_nat (length trailer) < TREE_KEY_STORE_OVERHEAD ->
  exists data size all each n ranges entries,
    MarshalSortedKeysFromKeys keys = Ok (data, size) /\
    let t := NewDiskTree (data ++ trailer) in
    AllKeys t = Ok all /\ all ≡ₚ map k_Key keys /\
    ForEachKey t = Ok each /\ each ≡ₚ map k_Key keys /\
    KeyCount t = Ok n /\ n = Z.of_nat (length keys) /\
    SplitNodeRanges (data ++ trailer) parts = Ok ranges /\
    walk_ranges (data ++ trailer) ranges = Ok entries /\ entries ≡ₚ key_entries keys.
Proof.
  intros Hn Hok Htr. destruct (FromKeys_image keys Hn Hok) as (data & Hm & _ & _ & _ & nodes & Hd & Hperm).
  change (concat (map node_image nodes)) with (nodes_bytes nodes) in Hd.
  assert (Hnok : nodes_ok nodes).
  { rewrite <- Hperm in Hok. exact (proj1 (List.Forall_map _ _ _) Hok). }
  assert (Hkeys : map (fun nd : node_rec => nd.1.1.1) nodes ≡ₚ map k_Key keys).
  { rewrite <- (map_map fst (fun x : entry => x.1.1)), Hperm. unfold key_entries. by rewrite map_map. }
  pose proof (Permutation_length Hkeys) as Hl. rewrite !length_map in Hl.
  pose proof (nodes_len_ge nodes). pose proof (length_nodes nodes).
  assert (Hfuel : (length nodes < S (length (data ++ trailer)))%nat) by (rewrite length_app, Hd; lia).
  destruct (SplitNodeRanges_spec (data ++ trailer) nodes trailer parts) as (ranges & Hr & Hw);
    [done|intros ->; cbn in *; lia|by rewrite Hd|done|].
  pose proof (for_each_spec nodes _ trailer Hnok Htr Hfuel) as Hf. rewrite <- Hd in Hf.
  pose proof (all_keys_spec nodes _ trailer Hnok Htr Hfuel) as Ha. rewrite <- Hd in Ha.
  eexists data, _, _, _, _, ranges, _. split; [exact Hm|]. cbn zeta.
  split; [exact Ha|]. split; [done|]. split; [exact Hf|]. split; [done|].
  unfold KeyCount. cbn [dt_data NewDiskTree]. rewrite Hf. cbn [obind]. split; [reflexivity|].
  split; [by rewrite length_map, Hl|]. done.
Qed.

(** * Witnesses *)

Lemma index_walk_complete_witness :
  exists data size n, MarshalSortedKeysFromKeys wit_keys = Ok (data, size) /\
    KeyCount (NewDiskTree (data ++ [1; 2; 3; 4])) = Ok n /\ n = 4.
Proof.
  destruct (index_walk_complete wit_keys [1; 2; 3; 4] 3)
    as (data & size & all & each & n & ranges & entries & Hm & _ & _ & _ & _ & Hc & Hn & _).
  - cbn. lia.
  - exact wit_keys_ok.
  - reflexivity.
  - exists data, size, n. split; [exact Hm|]. split; [exact Hc|exact Hn].
Defined.
