(* ===== verification/RBTree.v ===== *)
(** * Red-black rebalancing: adapters/repos/db/lsmkv/rbtree/rbtree.go

    The in-memory trees of lsmkv and roaringset hang their nodes on pointers
    (left, right, parent) and, after each new leaf, hand it to [Rebalance].  The
    model keeps the pointers: a heap of nodes, the interface values Go passes
    around, and the rotations as sequences of stores.  The proofs relate the heap
    to a tree with named nodes and a path to its root, and show that rebalancing
    terminates without a panic, keeps the in-order sequence, and leaves a
    red-black tree whose root the caller is told about. *)

From S2P Require Import Prelude.

(** ** Nodes, pointers and interface values *)

Definition loc : Type := positive.

Record rb_node (V : Type) : Type := RbNode {
  n_data : V;
  n_left : option loc;
  n_right : option loc;
  n_parent : option loc;
  n_red : bool }.
Arguments RbNode {V}.
Arguments n_data {V}.
Arguments n_left {V}.
Arguments n_right {V}.
Arguments n_parent {V}.
Arguments n_red {V}.

(** A value of the interface type [rbtree.Node]: the nil interface, or a pointer
    to a node, which may itself be nil ([Ptr None], a typed nil: it differs from
    the nil interface, and methods can be called on it). *)
Inductive iface : Type :=
| NilIface
| Ptr (p : option loc).

#[export] Instance iface_eq_dec : EqDecision iface.
Proof. solve_decision. Defined.

Notation cells V := (gmap loc (rb_node V)).

Section rbtree.
Context {E V : Type}.

Definition load (h : cells V) (l : loc) : outcome E (rb_node V) :=
  match h !! l with Some n => Ok n | None => Panic end.

(** The methods of [binarySearchNode].  A call on the nil interface panics.  On a
    nil pointer the getters answer the nil interface, and the setters write to a
    node allocated for the call and dropped with it. *)
Definition Parent (h : cells V) (i : iface) : outcome E iface :=
  match i with
  | NilIface => Panic
  | Ptr None => Ok NilIface
  | Ptr (Some l) => let! n := load h l in Ok (Ptr (n_parent n))
  end.

Definition Left (h : cells V) (i : iface) : outcome E iface :=
  match i with
  | NilIface => Panic
  | Ptr None => Ok NilIface
  | Ptr (Some l) => let! n := load h l in Ok (Ptr (n_left n))
  end.

Definition Right (h : cells V) (i : iface) : outcome E iface :=
  match i with
  | NilIface => Panic
  | Ptr None => Ok NilIface
  | Ptr (Some l) => let! n := load h l in Ok (Ptr (n_right n))
  end.

Definition IsRed (h : cells V) (i : iface) : outcome E bool :=
  match i with
  | NilIface => Panic
  | Ptr None => Ok false
  | Ptr (Some l) => let! n := load h l in Ok (n_red n)
  end.

Definition IsNil (i : iface) : outcome E bool :=
  match i with NilIface => Panic | Ptr p => Ok (bool_decide (p = None)) end.

(** [parent.( *binarySearchNode)], with the nil interface stored as nil *)
Definition as_pointer (i : iface) : option loc :=
  match i with NilIface => None | Ptr p => p end.

Definition store (f : rb_node V -> rb_node V) (h : cells V) (i : iface) : outcome E (cells V) :=
  match i with
  | NilIface => Panic
  | Ptr None => Ok h
  | Ptr (Some l) => let! n := load h l in Ok (<[l := f n]> h)
  end.

Definition SetParent (h : cells V) (i p : iface) : outcome E (cells V) :=
  store (fun n => RbNode (n_data n) (n_left n) (n_right n) (as_pointer p) (n_red n)) h i.

Definition SetLeft (h : cells V) (i c : iface) : outcome E (cells V) :=
  store (fun n => RbNode (n_data n) (as_pointer c) (n_right n) (n_parent n) (n_red n)) h i.

Definition SetRight (h : cells V) (i c : iface) : outcome E (cells V) :=
  store (fun n => RbNode (n_data n) (n_left n) (as_pointer c) (n_parent n) (n_red n)) h i.

(** [SetRed] has no nil guard: it dereferences. *)
Definition SetRed (h : cells V) (i : iface) (red : bool) : outcome E (cells V) :=
  match i with
  | NilIface | Ptr None => Panic
  | Ptr (Some l) =>
      let! n := load h l in
      Ok (<[l := RbNode (n_data n) (n_left n) (n_right n) (n_parent n) red]> h)
  end.

(** ** Rotations, recolouring, rebalancing *)

Definition leftRotate (h : cells V) (rotationNode : iface) : outcome E (iface * cells V) :=
  let! formerChild := Right h rotationNode in
  let! parent := Parent h rotationNode in
  let! rootRotate := IsNil parent in
  let! h :=
    if rootRotate then SetParent h formerChild NilIface
    else
      let! parentLeft := Left h parent in
      let! h := if decide (parentLeft = rotationNode) then SetLeft h parent formerChild
                else SetRight h parent formerChild in
      let! parent := Parent h rotationNode in
      SetParent h formerChild parent in
  let! h := SetParent h rotationNode formerChild in
  let! childLeft := Left h formerChild in
  let! h := SetRight h rotationNode childLeft in
  let! childLeft := Left h formerChild in
  let! h := if decide (childLeft = NilIface) then Ok h else SetParent h childLeft rotationNode in
  let! h := SetLeft h formerChild rotationNode in
  Ok (if rootRotate then formerChild else NilIface, h).

Definition rightRotate (h : cells V) (rotationNode : iface) : outcome E (iface * cells V) :=
  let! formerChild := Left h rotationNode in
  let! parent := Parent h rotationNode in
  let! rootRotate := IsNil parent in
  let! h :=
    if rootRotate then SetParent h formerChild NilIface
    else
      let! parentLeft := Left h parent in
      let! h := if decide (parentLeft = rotationNode) then SetLeft h parent formerChild
                else SetRight h parent formerChild in
      let! parent := Parent h rotationNode in
      SetParent h formerChild parent in
  let! h := SetParent h rotationNode formerChild in
  let! childRight := Right h formerChild in
  let! h := SetLeft h rotationNode childRight in
  let! childRight := Right h formerChild in
  let! h := if decide (childRight = NilIface) then Ok h else SetParent h childRight rotationNode in
  let! h := SetRight h formerChild rotationNode in
  Ok (if rootRotate then formerChild else NilIface, h).

Fixpoint recolourNodes (h : cells V) (nodes : list iface) : outcome E (cells V) :=
  match nodes with
  | [] => Ok h
  | n :: rest =>
      let! isNil := IsNil n in
      let! h := if isNil : bool then Ok h
                else let! red := IsRed h n in SetRed h n (negb red) in
      recolourNodes h rest
  end.

(** The loop of [Rebalance]; each turn that repeats moves two levels up. *)
Fixpoint Rebalance (fuel : nat) (h : cells V) (node : iface) : outcome E (iface * cells V) :=
  match fuel with
  | O => OutOfFuel
  | S fuel =>
      let! parent := Parent h node in
      let! parentRed := IsRed h parent in
      if negb parentRed then Ok (NilIface, h)
      else
        let! grandparent := Parent h parent in
        let! gpRight := Right h grandparent in
        let! uncle := if decide (parent = gpRight) then Left h grandparent else Right h grandparent in
        let! uncleRed := IsRed h uncle in
        if uncleRed : bool then
          let! h := recolourNodes h [parent; grandparent; uncle] in
          Rebalance fuel h grandparent
        else
          let! gpRight := Right h grandparent in
          let! (newRoot, parent, h) :=
            if decide (parent = gpRight) then
              let! parentLeft := Left h parent in
              let! (parent, h) :=
                if decide (node = parentLeft)
                then let! (_, h) := rightRotate h parent in Ok (node, h)
                else Ok (parent, h) in
              let! (newRoot, h) := leftRotate h grandparent in
              Ok (newRoot, parent, h)
            else
              let! parentRight := Right h parent in
              let! (parent, h) :=
                if decide (node = parentRight)
                then let! (_, h) := leftRotate h parent in Ok (node, h)
                else Ok (parent, h) in
              let! (newRoot, h) := rightRotate h grandparent in
              Ok (newRoot, parent, h) in
          let! h := recolourNodes h [grandparent; parent] in
          Ok (newRoot, h)
  end.

End rbtree.

(** ** Trees with named nodes, and the path from a subtree to the root *)

Inductive ltree (V : Type) : Type :=
| Leaf
| Node (l : loc) (red : bool) (x : V) (a b : ltree V).
Arguments Leaf {V}.
Arguments Node {V}.

(** One step of the path: the subtree is the left (right) child of node [l],
    whose other child is [s]. *)
Inductive frame (V : Type) : Type :=
| LeftOf (l : loc) (red : bool) (x : V) (s : ltree V)
| RightOf (l : loc) (red : bool) (x : V) (s : ltree V).
Arguments LeftOf {V}.
Arguments RightOf {V}.

Section trees.
Context {V : Type}.
Implicit Types (t s a b : ltree V) (k : list (frame V)) (h : cells V).

Definition troot t : option loc := match t with Leaf => None | Node l _ _ _ _ => Some l end.

Definition floc (f : frame V) : loc := match f with LeftOf l _ _ _ | RightOf l _ _ _ => l end.

Definition kparent k : option loc := match k with [] => None | f :: _ => Some (floc f) end.

Fixpoint plug k t : ltree V :=
  match k with
  | [] => t
  | LeftOf l c x s :: k => plug k (Node l c x t s)
  | RightOf l c x s :: k => plug k (Node l c x s t)
  end.

Fixpoint locs t : list loc :=
  match t with Leaf => [] | Node l _ _ a b => l :: locs a ++ locs b end.

Fixpoint klocs k : list loc :=
  match k with
  | [] => []
  | (LeftOf l _ _ s | RightOf l _ _ s) :: k => l :: locs s ++ klocs k
  end.

Fixpoint elements t : list V :=
  match t with Leaf => [] | Node _ _ x a b => elements a ++ x :: elements b end.

(** The nodes of [t] are in the heap, linked to each other and to parent [p]. *)
Fixpoint repr h t (p : option loc) : Prop :=
  match t with
  | Leaf => True
  | Node l c x a b =>
      h !! l = Some (RbNode x (troot a) (troot b) p c) /\ repr h a (Some l) /\ repr h b (Some l)
  end.

Fixpoint repr_k h k (child : option loc) : Prop :=
  match k with
  | [] => True
  | LeftOf l c x s :: k =>
      h !! l = Some (RbNode x child (troot s) (kparent k) c) /\ repr h s (Some l) /\ repr_k h k (Some l)
  | RightOf l c x s :: k =>
      h !! l = Some (RbNode x (troot s) child (kparent k) c) /\ repr h s (Some l) /\ repr_k h k (Some l)
  end.

(** The whole picture while the code works at [t]. *)
Definition focus h k t : Prop :=
  repr h t (kparent k) /\ repr_k h k (troot t) /\ NoDup (locs t ++ klocs k).

Lemma troot_locs t l : troot t = Some l -> l ∈ locs t.
Proof. destruct t; simpl; [done|]. intros [= ->]. apply list_elem_of_here. Qed.

(** Only the cells of the tree matter. *)
Lemma repr_ext h h' t p :
  (forall l, l ∈ locs t -> h' !! l = h !! l) -> repr h t p -> repr h' t p.
Proof.
  revert p. induction t as [|l' c x a IHa b IHb]; simpl; [done|].
  intros p Hl (Hn & Ha & Hb). rewrite Hl by set_solver. split_and!; [done|..].
  - apply IHa; [set_solver|done].
  - apply IHb; [set_solver|done].
Qed.

Lemma repr_k_ext h h' k c :
  (forall l, l ∈ klocs k -> h' !! l = h !! l) -> repr_k h k c -> repr_k h' k c.
Proof.
  revert c. induction k as [|[l' cl x s|l' cl x s] k IH]; simpl; [done|..];
    intros c Hl (Hn & Hs & Hk); (rewrite Hl by set_solver; split_and!; [done|..];
      [eapply repr_ext; [|done]; set_solver|apply IH; [set_solver|done]]).
Qed.

Lemma focus_plug h k t : focus h k t -> repr h (plug k t) None /\ NoDup (locs (plug k t)).
Proof.
  revert t. induction k as [|[l c x s|l c x s] k IH]; intros t (Ht & Hk & Hnd); simpl in *.
  - by rewrite app_nil_r in Hnd.
  - destruct Hk as (Hn & Hs & Hk). apply IH. repeat split; simpl; auto.
    revert Hnd. rewrite !NoDup_cons, !NoDup_app, !NoDup_cons, !NoDup_app. set_solver.
  - destruct Hk as (Hn & Hs & Hk). apply IH. repeat split; simpl; auto.
    revert Hnd. rewrite !NoDup_cons, !NoDup_app, !NoDup_cons, !NoDup_app. set_solver.
Qed.

Lemma NoDup_perm (l1 l2 : list loc) : l1 ≡ₚ l2 -> NoDup l2 -> NoDup l1.
Proof. by intros ->. Qed.

(** Disjoint regions can be told apart by a tag. *)
Lemma regions_tag (rs : list (list loc)) :
  NoDup (concat rs) -> exists tag : loc -> nat, forall i r l, rs !! i = Some r -> l ∈ r -> tag l = i.
Proof.
  induction rs as [|r rs IH]; simpl; intros Hnd.
  { exists (fun _ => 0%nat). intros i r l Hi. by rewrite lookup_nil in Hi. }
  apply NoDup_app in Hnd as (_ & Hdis & Hnd). destruct (IH Hnd) as [tag Htag].
  exists (fun l => if decide (l ∈ r) then 0%nat else S (tag l)).
  intros [|i] r' l Hi Hl; simpl in Hi.
  { simplify_eq. by rewrite decide_True. }
  rewrite decide_False; [by rewrite (Htag i r' l)|].
  intros Hr. apply (Hdis l Hr). rewrite list_elem_of_In, in_concat.
  exists r'. rewrite <- !list_elem_of_In. split; [by eapply list_elem_of_lookup_2|done].
Qed.

End trees.

#[global] Arguments Parent : simpl never.
#[global] Arguments Left : simpl never.
#[global] Arguments Right : simpl never.
#[global] Arguments IsRed : simpl never.
#[global] Arguments SetParent : simpl never.
#[global] Arguments SetLeft : simpl never.
#[global] Arguments SetRight : simpl never.
#[global] Arguments SetRed : simpl never.

(** Locations of different regions differ. *)
Ltac apart :=
  intros; try (intros ?); subst;
  repeat match goal with
         | Ht : forall l, l ∈ ?r -> ?tag l = _, Hin : ?l ∈ ?r |- _ => apply Ht in Hin
         end; congruence.

(** Finds a cell through the stores before it, or through a fact that the
    cells outside some part of the tree are unchanged. *)
Ltac cell :=
  repeat (first
    [ rewrite lookup_insert_eq
    | rewrite lookup_insert_ne by apart
    | match goal with
      | H : forall l, _ -> ?h !! l = _ |- context [?h !! _] => rewrite H by apart
      | H : forall l, _ -> _ -> ?h !! l = _ |- context [?h !! _] => rewrite H by apart
      end ]); eauto.

Ltac frames :=
  match goal with
  | H : repr _ ?t ?p |- repr _ ?t ?p => eapply repr_ext; [|exact H]
  | H : repr_k _ ?k ?c |- repr_k _ ?k ?c => eapply repr_k_ext; [|exact H]
  | |- _ => idtac
  end; intros; cell.

(** Distinctness of a part of a picture, or of a rearrangement of it. *)
Ltac solve_nodup :=
  match goal with
  | H : NoDup _ |- NoDup _ =>
      first [ eapply NoDup_perm; [|exact H]; simpl; solve_Permutation
            | repeat first [rewrite NoDup_cons in H | rewrite NoDup_app in H]; tauto ]
  end.

(** Splits the cells of a picture into regions [rs]. *)
Ltac regions Hnd rs :=
  let tag := fresh "tag" in let Htag := fresh "Htag" in
  destruct (regions_tag rs) as [tag Htag];
  [ eapply NoDup_perm; [|exact Hnd]; simpl; solve_Permutation |];
  let rec go rs i :=
    lazymatch rs with
    | nil => idtac
    | [?l] :: ?rest => assert (tag l = i) by (eapply (Htag i); [reflexivity|apply list_elem_of_here]);
        go rest (S i)
    | ?r :: ?rest => assert (forall l, l ∈ r -> tag l = i) by (intros; by eapply (Htag i));
        go rest (S i)
    end in go rs 0%nat; clear Htag.

Section rotations.
Context {E V : Type}.
Implicit Types (t s a b : ltree V) (k : list (frame V)) (h : cells V).

Lemma load_Ok h l n : h !! l = Some n -> load (E := E) h l = Ok n.
Proof. intros H. unfold load. by rewrite H. Qed.

Lemma Parent_Ok h l n : h !! l = Some n -> Parent (E := E) h (Ptr (Some l)) = Ok (Ptr (n_parent n)).
Proof. intros H. unfold Parent. by rewrite (load_Ok _ _ _ H). Qed.

Lemma Left_Ok h l n : h !! l = Some n -> Left (E := E) h (Ptr (Some l)) = Ok (Ptr (n_left n)).
Proof. intros H. unfold Left. by rewrite (load_Ok _ _ _ H). Qed.

Lemma Right_Ok h l n : h !! l = Some n -> Right (E := E) h (Ptr (Some l)) = Ok (Ptr (n_right n)).
Proof. intros H. unfold Right. by rewrite (load_Ok _ _ _ H). Qed.

Lemma IsRed_Ok h l n : h !! l = Some n -> IsRed (E := E) h (Ptr (Some l)) = Ok (n_red n).
Proof. intros H. unfold IsRed. by rewrite (load_Ok _ _ _ H). Qed.

Lemma SetParent_Ok h l n i :
  h !! l = Some n ->
  SetParent (E := E) h (Ptr (Some l)) i
  = Ok (<[l := RbNode (n_data n) (n_left n) (n_right n) (as_pointer i) (n_red n)]> h).
Proof. intros H. unfold SetParent, store. by rewrite (load_Ok _ _ _ H). Qed.

Lemma SetLeft_Ok h l n i :
  h !! l = Some n ->
  SetLeft (E := E) h (Ptr (Some l)) i
  = Ok (<[l := RbNode (n_data n) (as_pointer i) (n_right n) (n_parent n) (n_red n)]> h).
Proof. intros H. unfold SetLeft, store. by rewrite (load_Ok _ _ _ H). Qed.

Lemma SetRight_Ok h l n i :
  h !! l = Some n ->
  SetRight (E := E) h (Ptr (Some l)) i
  = Ok (<[l := RbNode (n_data n) (n_left n) (as_pointer i) (n_parent n) (n_red n)]> h).
Proof. intros H. unfold SetRight, store. by rewrite (load_Ok _ _ _ H). Qed.

Lemma SetRed_Ok h l n red :
  h !! l = Some n ->
  SetRed (E := E) h (Ptr (Some l)) red
  = Ok (<[l := RbNode (n_data n) (n_left n) (n_right n) (n_parent n) red]> h).
Proof. intros H. unfold SetRed. by rewrite (load_Ok _ _ _ H). Qed.

(** [formerChild] takes the place of [rotationNode] below its parent. *)
Lemma repoint_spec h k g p ng np :
  repr_k h k (Some g) -> h !! g = Some ng -> n_parent ng = kparent k -> h !! p = Some np ->
  g <> p -> g ∉ klocs k -> p ∉ klocs k -> NoDup (klocs k) ->
  exists h',
    (if bool_decide (kparent k = None) then SetParent h (Ptr (Some p)) NilIface
     else
       let! parentLeft := Left h (Ptr (kparent k)) in
       let! h := if decide (parentLeft = Ptr (Some g))
                 then SetLeft h (Ptr (kparent k)) (Ptr (Some p))
                 else SetRight h (Ptr (kparent k)) (Ptr (Some p)) in
       let! parent := Parent h (Ptr (Some g)) in
       SetParent h (Ptr (Some p)) parent) = Ok (E := E) h' /\
    repr_k h' k (Some p) /\
    h' !! p = Some (RbNode (n_data np) (n_left np) (n_right np) (kparent k) (n_red np)) /\
    (forall l, l <> p -> l ∉ klocs k -> h' !! l = h !! l).
Proof.
  intros Hk Hg Hpar Hp Hgp Hgk Hpk Hnd.
  destruct k as [|[l c x s|l c x s] k]; simpl in *.
  { rewrite (SetParent_Ok _ _ _ _ Hp). eexists. split; [reflexivity|].
    split_and!; auto; intros; cell. }
  all: destruct Hk as (Hl & Hs & Hk); rewrite (Left_Ok _ _ _ Hl); simpl.
  1: rewrite decide_True, (SetLeft_Ok _ _ _ _ Hl) by done.
  2: rewrite decide_False, (SetRight_Ok _ _ _ _ Hl)
       by first [done | intros [= Hs']; apply troot_locs in Hs'; set_solver].
  all: assert (NoDup (g :: p :: l :: locs s ++ klocs k)) as Hnd' by
    (rewrite !NoDup_cons; rewrite ?NoDup_cons in Hnd; set_solver).
  all: regions Hnd' [[g]; [p]; [l]; locs s; klocs k].
  all: simpl; erewrite Parent_Ok by cell; simpl; erewrite SetParent_Ok by cell; simpl;
    eexists; (split; [reflexivity|]); rewrite Hpar; split_and!; try frames.
  all: by rewrite lookup_insert_ne by set_solver.
Qed.

(** The inner grandchild changes its parent. *)
Lemma reparent_spec h b p g :
  repr h b p -> NoDup (locs b) ->
  exists h',
    SetParent h (Ptr (troot b)) (Ptr (Some g)) = Ok (E := E) h' /\
    repr h' b (Some g) /\ (forall l, l ∉ locs b -> h' !! l = h !! l).
Proof.
  intros Hb Hnd. destruct b as [|l c x b1 b2]; simpl in *.
  { eexists. split; [reflexivity|]. done. }
  destruct Hb as (Hl & H1 & H2). regions Hnd [[l]; locs b1; locs b2].
  rewrite (SetParent_Ok _ _ _ _ Hl). eexists. split; [reflexivity|].
  split_and!; try frames. by rewrite lookup_insert_ne by set_solver.
Qed.

Definition rotate_result k (p : loc) : iface :=
  match k with [] => Ptr (Some p) | _ => NilIface end.

Lemma leftRotate_spec h k g cg xg p cp xp a b c :
  focus h k (Node g cg xg a (Node p cp xp b c)) ->
  exists h', leftRotate h (Ptr (Some g)) = Ok (E := E) (rotate_result k p, h') /\
    focus h' k (Node p cp xp (Node g cg xg a b) c).
Proof.
  intros ((Hg & Ha & Hp & Hb & Hc) & Hk & Hnd). simpl in *.
  regions Hnd [[g]; [p]; locs a; locs b; locs c; klocs k].
  unfold leftRotate. rewrite (Right_Ok _ _ _ Hg), (Parent_Ok _ _ _ Hg). simpl.
  destruct (repoint_spec h k g p _ _ Hk Hg eq_refl Hp) as (h1 & -> & Hk1 & Hp1 & Hoth1); [apart..|by solve_nodup|].
  simpl. erewrite SetParent_Ok by cell.
  simpl. erewrite Left_Ok by cell. simpl. erewrite SetRight_Ok by cell.
  simpl. rewrite insert_insert_eq. erewrite Left_Ok by cell. simpl.
  edestruct (reparent_spec (<[g:=RbNode xg (troot a) (troot b) (Some p) cg]> h1) b (Some p) g)
    as (h2 & -> & Hb2 & Hoth2); [frames|by solve_nodup|].
  simpl. erewrite SetLeft_Ok by cell. simpl.
  eexists. split; [destruct k; reflexivity|].
  unfold focus. simpl. split_and!; try frames.
  solve_nodup.
Qed.

Lemma rightRotate_spec h k g cg xg p cp xp a b c :
  focus h k (Node g cg xg (Node p cp xp a b) c) ->
  exists h', rightRotate h (Ptr (Some g)) = Ok (E := E) (rotate_result k p, h') /\
    focus h' k (Node p cp xp a (Node g cg xg b c)).
Proof.
  intros ((Hg & (Hp & Ha & Hb) & Hc) & Hk & Hnd). simpl in *.
  regions Hnd [[g]; [p]; locs a; locs b; locs c; klocs k].
  unfold rightRotate. rewrite (Left_Ok _ _ _ Hg), (Parent_Ok _ _ _ Hg). simpl.
  destruct (repoint_spec h k g p _ _ Hk Hg eq_refl Hp) as (h1 & -> & Hk1 & Hp1 & Hoth1);
    [apart..|by solve_nodup|].
  simpl. erewrite SetParent_Ok by cell.
  simpl. erewrite Right_Ok by cell. simpl. erewrite SetLeft_Ok by cell.
  simpl. rewrite insert_insert_eq. erewrite Right_Ok by cell. simpl.
  edestruct (reparent_spec (<[g:=RbNode xg (troot b) (troot c) (Some p) cg]> h1) b (Some p) g)
    as (h2 & -> & Hb2 & Hoth2); [frames|by solve_nodup|].
  simpl. erewrite SetRight_Ok by cell. simpl.
  eexists. split; [destruct k; reflexivity|].
  unfold focus. simpl. split_and!; try frames.
  solve_nodup.
Qed.

(** Moving the focus to a child and back. *)
Lemma focus_left h k l c x a b : focus h k (Node l c x a b) <-> focus h (LeftOf l c x b :: k) a.
Proof.
  unfold focus. simpl. rewrite (NoDup_Permutation_proper _ (locs a ++ l :: locs b ++ klocs k)) by solve_Permutation.
  tauto.
Qed.

Lemma focus_right h k l c x a b : focus h k (Node l c x a b) <-> focus h (RightOf l c x a :: k) b.
Proof.
  unfold focus. simpl. rewrite (NoDup_Permutation_proper _ (locs b ++ l :: locs a ++ klocs k)) by solve_Permutation.
  tauto.
Qed.

Lemma recolour_cons h k l c x a b rest :
  focus h k (Node l c x a b) ->
  exists h', recolourNodes (E := E) h (Ptr (Some l) :: rest) = recolourNodes h' rest /\
    focus h' k (Node l (negb c) x a b).
Proof.
  intros ((Hl & Ha & Hb) & Hk & Hnd). simpl in *. regions Hnd [[l]; locs a; locs b; klocs k].
  rewrite (IsRed_Ok _ _ _ Hl). simpl. rewrite (SetRed_Ok _ _ _ _ Hl). simpl.
  eexists. split; [reflexivity|]. unfold focus. simpl. split_and!; try frames.
Qed.

End rotations.

(** ** The red-black invariant *)

Section invariant.
Context {V : Type}.
Implicit Types (t s a b : ltree V) (k : list (frame V)).

(** [is_rb red_ok n t]: no red node has a red child, every path to a leaf has [n]
    black nodes, and the root is black unless [red_ok]. *)
Inductive is_rb : bool -> nat -> ltree V -> Prop :=
| rb_leaf red_ok : is_rb red_ok 0 Leaf
| rb_red n l x a b : is_rb false n a -> is_rb false n b -> is_rb true n (Node l true x a b)
| rb_black red_ok n l x a b :
    is_rb true n a -> is_rb true n b -> is_rb red_ok (S n) (Node l false x a b).

Definition fred (f : frame V) : bool := match f with LeftOf _ c _ _ | RightOf _ c _ _ => c end.
Definition fsibling (f : frame V) : ltree V := match f with LeftOf _ _ _ s | RightOf _ _ _ s => s end.

(** A path whose hole takes a tree of black height [n], red only if [red_ok]. *)
Inductive rb_path : bool -> nat -> list (frame V) -> Prop :=
| path_root n : rb_path false n []
| path_black n f k c :
    fred f = false -> is_rb true n (fsibling f) -> rb_path c (S n) k -> rb_path true n (f :: k)
| path_red n f k :
    fred f = true -> is_rb false n (fsibling f) -> rb_path true n k -> rb_path false n (f :: k).

Lemma is_rb_true c n t : is_rb c n t -> is_rb true n t.
Proof. inversion 1; subst; eauto using is_rb. Qed.

Lemma is_rb_false c n t : is_rb c n t -> (forall l x a b, t <> Node l true x a b) -> is_rb false n t.
Proof. inversion 1; subst; eauto using is_rb; naive_solver. Qed.

Lemma plug_rb c n k t : rb_path c n k -> is_rb c n t -> exists m, is_rb false m (plug k t).
Proof.
  intros Hk. revert t.
  induction Hk as [n|n f k c Hf Hs Hk IH|n f k Hf Hs Hk IH]; intros t Ht; [by exists n|..].
  - destruct f; simpl in *; subst; apply IH; destruct c; by constructor.
  - destruct f; simpl in *; subst; apply IH; by constructor.
Qed.

Lemma plug_elements k t t' : elements t = elements t' -> elements (plug k t) = elements (plug k t').
Proof.
  revert t t'. induction k as [|[l c x s|l c x s] k IH]; intros t t' H; simpl; [done|..];
    apply IH; simpl; by rewrite H.
Qed.

Lemma plug_locs k t : locs (plug k t) ≡ₚ locs t ++ klocs k.
Proof.
  revert t. induction k as [|[l c x s|l c x s] k IH]; intros t; simpl; [by rewrite app_nil_r|..];
    rewrite IH; simpl; solve_Permutation.
Qed.

Lemma plug_troot k t t' : k <> [] -> troot (plug k t) = troot (plug k t').
Proof.
  destruct k as [|f k]; [done|]. intros _. revert f t t'.
  induction k as [|g k IH]; intros [l c x s|l c x s] t t'; [done..|apply IH|apply IH].
Qed.

End invariant.

(** ** Rebalancing *)

#[global] Arguments recolourNodes : simpl never.

Section rebalance.
Context {E V : Type}.
Implicit Types (t s a b : ltree V) (k : list (frame V)) (h : cells V).

(** [h] holds a tree with the nodes of [t0] in the same order, red-black but for
    the colour of the root, and [r] names the root if it is a new one. *)
Definition rebalanced t0 (r : iface) h : Prop :=
  exists t, focus h [] t /\ elements t = elements t0 /\ locs t ≡ₚ locs t0 /\
    (exists n, is_rb true n t) /\ (r = NilIface /\ troot t = troot t0 \/ r = Ptr (troot t)).

Lemma focus_root h k t : focus h k t -> focus h [] (plug k t).
Proof.
  intros H. destruct (focus_plug _ _ _ H) as [Hr Hnd]. unfold focus. simpl. by rewrite app_nil_r.
Qed.

Lemma rebalanced_plug h k t0 t c n p :
  focus h k t -> elements t = elements t0 -> locs t ≡ₚ locs t0 ->
  is_rb false n t -> rb_path c n k -> troot t = Some p ->
  rebalanced (plug k t0) (rotate_result k p) h.
Proof.
  intros Hf Hel Hl Hrb Hk Hp. exists (plug k t). split_and!.
  - by apply focus_root.
  - by apply plug_elements.
  - by rewrite !plug_locs, Hl.
  - destruct (plug_rb c n k t Hk) as [m Hm]; [destruct c; eauto using is_rb_true|].
    exists m. eauto using is_rb_true.
  - destruct k as [|f k]; simpl; [right; by rewrite Hp|left]. split; [done|].
    by apply (plug_troot (f :: k)).
Qed.

Lemma rotate_left_case h k g xg q xq a b c n cc t0 :
  focus h k (Node g false xg a (Node q true xq b c)) ->
  elements t0 = elements (Node g false xg a (Node q true xq b c)) ->
  locs t0 ≡ₚ locs (Node g false xg a (Node q true xq b c)) ->
  is_rb false n a -> is_rb false n b -> is_rb true n c -> rb_path cc (S n) k ->
  exists h1 h2, leftRotate (E := E) h (Ptr (Some g)) = Ok (rotate_result k q, h1) /\
    recolourNodes (E := E) h1 [Ptr (Some g); Ptr (Some q)] = Ok h2 /\
    rebalanced (plug k t0) (rotate_result k q) h2.
Proof.
  intros Hf Hel Hl Ha Hb Hc Hk.
  destruct (leftRotate_spec (E := E) _ _ _ _ _ _ _ _ _ _ _ Hf) as (h1 & Hr & Hf1).
  apply focus_left, (recolour_cons (E := E) _ _ _ _ _ _ _ [Ptr (Some q)]) in Hf1 as (h2 & Hr2 & Hf2).
  apply focus_left, (recolour_cons (E := E) _ _ _ _ _ _ _ []) in Hf2 as (h3 & Hr3 & Hf3).
  exists h1, h3. split_and!; [done|by rewrite Hr2, Hr3|].
  eapply rebalanced_plug; [exact Hf3|..]; eauto.
  - rewrite Hel. simpl. by rewrite <- app_assoc.
  - rewrite Hl. simpl. solve_Permutation.
  - constructor; [by constructor|done].
Qed.

Lemma rotate_right_case h k g xg q xq a b c n cc t0 :
  focus h k (Node g false xg (Node q true xq a b) c) ->
  elements t0 = elements (Node g false xg (Node q true xq a b) c) ->
  locs t0 ≡ₚ locs (Node g false xg (Node q true xq a b) c) ->
  is_rb true n a -> is_rb false n b -> is_rb false n c -> rb_path cc (S n) k ->
  exists h1 h2, rightRotate (E := E) h (Ptr (Some g)) = Ok (rotate_result k q, h1) /\
    recolourNodes (E := E) h1 [Ptr (Some g); Ptr (Some q)] = Ok h2 /\
    rebalanced (plug k t0) (rotate_result k q) h2.
Proof.
  intros Hf Hel Hl Ha Hb Hc Hk.
  destruct (rightRotate_spec (E := E) _ _ _ _ _ _ _ _ _ _ _ Hf) as (h1 & Hr & Hf1).
  apply focus_right, (recolour_cons (E := E) _ _ _ _ _ _ _ [Ptr (Some q)]) in Hf1 as (h2 & Hr2 & Hf2).
  apply focus_right, (recolour_cons (E := E) _ _ _ _ _ _ _ []) in Hf2 as (h3 & Hr3 & Hf3).
  exists h1, h3. split_and!; [done|by rewrite Hr2, Hr3|].
  eapply rebalanced_plug; [exact Hf3|..]; eauto.
  - rewrite Hel. simpl. by rewrite <- app_assoc.
  - rewrite Hl. simpl. solve_Permutation.
  - constructor; [done|by constructor].
Qed.

(** The red uncle: parent and uncle turn black, the grandparent red. *)
Lemma recolour_case h k g xg p xp a b u xu c d (left : bool) :
  let P := Node p true xp a b in let U := Node u true xu c d in
  focus h k (if left then Node g false xg P U else Node g false xg U P) ->
  exists h', recolourNodes (E := E) h [Ptr (Some p); Ptr (Some g); Ptr (Some u)] = Ok h' /\
    let P := Node p false xp a b in let U := Node u false xu c d in
    focus h' k (if left then Node g true xg P U else Node g true xg U P).
Proof.
  intros P U. subst P U. destruct left; intros Hf; cbv iota zeta.
  - apply focus_left, (recolour_cons (E := E) _ _ _ _ _ _ _ [Ptr (Some g); Ptr (Some u)]) in Hf as (h1 & H1 & Hf).
    apply focus_left, (recolour_cons (E := E) _ _ _ _ _ _ _ [Ptr (Some u)]) in Hf as (h2 & H2 & Hf).
    apply focus_right, (recolour_cons (E := E) _ _ _ _ _ _ _ []) in Hf as (h3 & H3 & Hf).
    exists h3. split; [by rewrite H1, H2, H3|]. by apply focus_right.
  - apply focus_right, (recolour_cons (E := E) _ _ _ _ _ _ _ [Ptr (Some g); Ptr (Some u)]) in Hf as (h1 & H1 & Hf).
    apply focus_right, (recolour_cons (E := E) _ _ _ _ _ _ _ [Ptr (Some u)]) in Hf as (h2 & H2 & Hf).
    apply focus_left, (recolour_cons (E := E) _ _ _ _ _ _ _ []) in Hf as (h3 & H3 & Hf).
    exists h3. split; [by rewrite H1, H2, H3|]. by apply focus_left.
Qed.

Lemma rebalanced_same k t0 t1 r h :
  elements t1 = elements t0 -> locs t1 ≡ₚ locs t0 -> troot t1 = troot t0 ->
  rebalanced (plug k t1) r h -> rebalanced (plug k t0) r h.
Proof.
  intros H1 H2 H3 (t & Hf & He & Hl & Hrb & Hr). exists t.
  rewrite <- (plug_elements k _ _ H1), plug_locs, <- H2, <- plug_locs.
  assert (troot (plug k t0) = troot (plug k t1)) as -> by
    (destruct k; [done|by apply (plug_troot (_ :: _))]).
  auto.
Qed.

Lemma troot_fresh l (t : ltree V) : l ∉ locs t -> Ptr (Some l) <> Ptr (troot t).
Proof. intros Hl [= He]. symmetry in He. by apply troot_locs in He. Qed.

Lemma IsRed_tree h t p n :
  repr h t p -> is_rb true n t ->
  IsRed (E := E) h (Ptr (troot t)) = Ok false /\ is_rb false n t \/
  exists l x a b, t = Node l true x a b /\ IsRed (E := E) h (Ptr (troot t)) = Ok true /\
    is_rb false n a /\ is_rb false n b.
Proof.
  intros Hr Hrb. inversion Hrb; subst; simpl in *.
  - left. split; [done|constructor].
  - right. destruct Hr as [Hl _]. eexists _, _, _, _. split; [reflexivity|].
    by rewrite (IsRed_Ok _ _ _ Hl).
  - left. destruct Hr as [Hl _]. rewrite (IsRed_Ok _ _ _ Hl). split; [done|by constructor].
Qed.

Lemma IsRed_kparent h f k child :
  repr_k h (f :: k) child -> IsRed (E := E) h (Ptr (kparent (f :: k))) = Ok (fred f).
Proof. destruct f; simpl; intros [Hl _]; by rewrite (IsRed_Ok _ _ _ Hl). Qed.

Definition rebalances (fuel : nat) : Prop :=
  forall h k n x a b m c,
    focus h k (Node n true x a b) -> is_rb false m a -> is_rb false m b -> rb_path c m k ->
    (length k < fuel)%nat ->
    exists r h', Rebalance (E := E) fuel h (Ptr (Some n)) = Ok (r, h') /\
      rebalanced (plug k (Node n true x a b)) r h'.

(** The parent is the right child of the grandparent. *)
Lemma Rebalance_right fuel h k g xg u p xp s n x a b m c (inner : bool) :
  rebalances fuel ->
  let N := Node n true x a b in
  let P := if inner then Node p true xp N s else Node p true xp s N in
  focus h k (Node g false xg u P) ->
  is_rb false m a -> is_rb false m b -> is_rb false m s -> is_rb true m u ->
  rb_path c (S m) k -> (length k < fuel)%nat ->
  exists r h', Rebalance (E := E) (S fuel) h (Ptr (Some n)) = Ok (r, h') /\
    rebalanced (plug k (Node g false xg u P)) r h'.
Proof.
  intros IH N P Hf Ha Hb Hs Hu Hk Hlen.
  assert (exists pl pr, h !! p = Some (RbNode xp pl pr (Some g) true) /\
    h !! n = Some (RbNode x (troot a) (troot b) (Some p) true) /\
    pl = (if inner then Some n else troot s)) as (pl & pr & Hp & Hn & Hpl).
  { subst P N. destruct Hf as ((_ & _ & HP) & _). destruct inner; simpl in HP; naive_solver. }
  assert (Hg := proj1 (proj1 Hf)). assert (Hru := proj1 (proj2 (proj1 Hf))).
  assert (troot P = Some p) as HtP by (subst P; by destruct inner). rewrite HtP in Hg.
  cbn [Rebalance]. rewrite (Parent_Ok _ _ _ Hn). simpl. rewrite (IsRed_Ok _ _ _ Hp). simpl.
  rewrite (Parent_Ok _ _ _ Hp). simpl. rewrite (Right_Ok _ _ _ Hg). simpl.
  rewrite decide_True by done. rewrite (Left_Ok _ _ _ Hg). simpl.
  destruct (IsRed_tree h u _ m Hru Hu) as [[-> Hub]|(lu & xu & u1 & u2 & -> & -> & Hu1 & Hu2)].
  - simpl. rewrite decide_True by done.
    rewrite (Left_Ok _ _ _ Hp). simpl. subst P pl. destruct inner.
    + rewrite decide_True by done. apply focus_right in Hf.
      destruct (rightRotate_spec (E := E) _ _ _ _ _ _ _ _ _ _ _ Hf) as (h1 & -> & Hf1).
      apply focus_right in Hf1. simpl.
      edestruct (rotate_left_case h1 k g xg n x u a (Node p true xp b s) m c
        (Node g false xg u (Node p true xp N s))) as (h2 & h3 & -> & Hc & Hr); eauto.
      { simpl. rewrite <- !app_assoc. simpl. by rewrite <- ?app_assoc. } { simpl. solve_Permutation. } { by constructor. }
      cbn [obind]. rewrite Hc. simpl. eauto.
    + rewrite decide_False.
      2:{ apply troot_fresh. destruct Hf as (_ & _ & Hnd). simpl in Hnd.
          regions Hnd [[g]; [p]; [n]; locs a; locs b; locs s; locs u; klocs k]. apart. }
      simpl.
      edestruct (rotate_left_case h k g xg p xp u s N m c (Node g false xg u (Node p true xp s N))) as (h2 & h3 & -> & Hc & Hr); eauto.
      { by constructor. } cbn [obind]. rewrite Hc. simpl. eauto.
  - destruct (recolour_case h k g xg p xp (if inner then N else s) (if inner then s else N) lu xu u1 u2 false)
      as (h1 & Hc & Hf1).
    { subst P. destruct inner; exact Hf. }
    cbn [obind troot]. rewrite Hc. cbn [obind].
    edestruct (IH h1 k g xg) as (r & h2 & Hr & Hreb); [exact Hf1|..]; eauto.
    { constructor; eauto using is_rb_true. }
    { destruct inner; constructor; eauto using is_rb_true; by constructor. }
    exists r, h2. split; [done|]. revert Hreb. apply rebalanced_same; by destruct inner.
Qed.

(** The parent is the left child of the grandparent. *)
Lemma Rebalance_left fuel h k g xg u p xp s n x a b m c (inner : bool) :
  rebalances fuel ->
  let N := Node n true x a b in
  let P := if inner then Node p true xp s N else Node p true xp N s in
  focus h k (Node g false xg P u) ->
  is_rb false m a -> is_rb false m b -> is_rb false m s -> is_rb true m u ->
  rb_path c (S m) k -> (length k < fuel)%nat ->
  exists r h', Rebalance (E := E) (S fuel) h (Ptr (Some n)) = Ok (r, h') /\
    rebalanced (plug k (Node g false xg P u)) r h'.
Proof.
  intros IH N P Hf Ha Hb Hs Hu Hk Hlen.
  assert (exists pl pr, h !! p = Some (RbNode xp pl pr (Some g) true) /\
    h !! n = Some (RbNode x (troot a) (troot b) (Some p) true) /\
    pr = (if inner then Some n else troot s)) as (pl & pr & Hp & Hn & Hpr).
  { subst P N. destruct Hf as ((_ & HP & _) & _). destruct inner; simpl in HP; naive_solver. }
  assert (Hg := proj1 (proj1 Hf)). assert (Hru := proj2 (proj2 (proj1 Hf))).
  assert (troot P = Some p) as HtP by (subst P; by destruct inner). rewrite HtP in Hg.
  assert (Ptr (Some p) <> Ptr (troot u)) as Hpu.
  { apply troot_fresh. destruct Hf as (_ & _ & Hnd). simpl in Hnd.
    regions Hnd [[g]; locs P; locs u; klocs k]. apply troot_locs in HtP. apart. }
  cbn [Rebalance]. rewrite (Parent_Ok _ _ _ Hn). simpl. rewrite (IsRed_Ok _ _ _ Hp). simpl.
  rewrite (Parent_Ok _ _ _ Hp). simpl. rewrite (Right_Ok _ _ _ Hg). simpl.
  rewrite decide_False by done. simpl.
  destruct (IsRed_tree h u _ m Hru Hu) as [[-> Hub]|(lu & xu & u1 & u2 & -> & -> & Hu1 & Hu2)].
  - simpl. rewrite decide_False by done.
    rewrite (Right_Ok _ _ _ Hp). simpl. subst P pr. destruct inner.
    + rewrite decide_True by done. apply focus_left in Hf.
      destruct (leftRotate_spec (E := E) _ _ _ _ _ _ _ _ _ _ _ Hf) as (h1 & -> & Hf1).
      apply focus_left in Hf1. simpl.
      edestruct (rotate_right_case h1 k g xg n x (Node p true xp s a) b u m c
        (Node g false xg (Node p true xp s N) u)) as (h2 & h3 & -> & Hc & Hr); eauto.
      { simpl. rewrite <- !app_assoc. simpl. by rewrite <- ?app_assoc. } { simpl. solve_Permutation. } { by constructor. }
      cbn [obind]. rewrite Hc. simpl. eauto.
    + rewrite decide_False.
      2:{ apply troot_fresh. destruct Hf as (_ & _ & Hnd). simpl in Hnd.
          regions Hnd [[g]; [p]; [n]; locs a; locs b; locs s; locs u; klocs k]. apart. }
      simpl.
      edestruct (rotate_right_case h k g xg p xp N s u m c (Node g false xg (Node p true xp N s) u))
        as (h2 & h3 & -> & Hc & Hr); eauto.
      { by constructor. } cbn [obind]. rewrite Hc. simpl. eauto.
  - destruct (recolour_case h k g xg p xp (if inner then s else N) (if inner then N else s) lu xu u1 u2 true)
      as (h1 & Hc & Hf1).
    { subst P. destruct inner; exact Hf. }
    cbn [obind troot]. rewrite Hc. cbn [obind].
    edestruct (IH h1 k g xg) as (r & h2 & Hr & Hreb); [exact Hf1|..]; eauto.
    { destruct inner; constructor; eauto using is_rb_true; by constructor. }
    { constructor; eauto using is_rb_true. }
    exists r, h2. split; [done|]. revert Hreb. apply rebalanced_same; by destruct inner.
Qed.

Lemma Rebalance_spec fuel : rebalances fuel.
Proof.
  induction fuel as [|fuel IH]; intros h k n x a b m c Hf Ha Hb Hk Hlen; [lia|].
  destruct Hk as [m|m f k c Hc Hs Hk|m f k Hc Hs Hk].
  - cbn [Rebalance]. rewrite (Parent_Ok _ _ _ (proj1 (proj1 Hf))). simpl.
    eexists _, _. split; [reflexivity|]. exists (Node n true x a b).
    split_and!; auto. exists m. by constructor.
  - cbn [Rebalance]. rewrite (Parent_Ok _ _ _ (proj1 (proj1 Hf))). cbn [obind n_parent].
    rewrite (IsRed_kparent h f k _ (proj1 (proj2 Hf))), Hc. simpl.
    eexists _, _. split; [reflexivity|]. exists (plug (f :: k) (Node n true x a b)).
    destruct (plug_rb true m (f :: k) (Node n true x a b)) as [m' Hm']; [by econstructor|by constructor|].
    split_and!; eauto using focus_root, is_rb_true.
  - inversion Hk as [|m' g k' c' Hgc Hu Hk'|]; subst. simpl in Hlen.
    destruct f as [p ? xp s|p ? xp s]; simpl in Hc, Hs; subst;
      destruct g as [g ? xg u|g ? xg u]; simpl in Hgc, Hu; subst.
    + eapply (Rebalance_left fuel h k' g xg u p xp s n x a b m c' false); eauto; [|lia].
      by apply focus_left, focus_left.
    + eapply (Rebalance_right fuel h k' g xg u p xp s n x a b m c' true); eauto; [|lia].
      by apply focus_right, focus_left.
    + eapply (Rebalance_left fuel h k' g xg u p xp s n x a b m c' true); eauto; [|lia].
      by apply focus_left, focus_right.
    + eapply (Rebalance_right fuel h k' g xg u p xp s n x a b m c' false); eauto; [|lia].
      by apply focus_right, focus_right.
Qed.

End rebalance.

(** ** Balance *)

Fixpoint depth {V} (t : ltree V) : nat :=
  match t with Leaf => 0 | Node _ _ _ a b => S (Nat.max (depth a) (depth b)) end.

Lemma is_rb_depth {V} c n (t : ltree V) : is_rb c n t -> (depth t <= 2 * n + if c then 1 else 0)%nat.
Proof. induction 1 as [[]| |[] ? ? ? ? ? ? IHa ? IHb]; simpl in *; lia. Qed.

Lemma is_rb_size {V} c n (t : ltree V) : is_rb c n t -> (2 ^ n <= S (length (elements t)))%nat.
Proof. induction 1; simpl; rewrite ?length_app; simpl; lia. Qed.

(** No path is longer than twice the logarithm of the size. *)
Lemma is_rb_balanced {V} n (t : ltree V) :
  is_rb false n t -> (depth t <= 2 * Nat.log2 (S (length (elements t))))%nat.
Proof.
  intros H. apply is_rb_depth in H as Hd. apply is_rb_size in H as Hs. simpl in Hd.
  apply Nat.log2_le_mono in Hs. rewrite Nat.log2_pow2 in Hs by lia. lia.
Qed.

Lemma depth_locs {V} (t : ltree V) : (depth t <= length (locs t))%nat.
Proof. induction t; simpl; rewrite ?length_app; lia. Qed.

Lemma repr_dom {V} h (t : ltree V) p l : repr h t p -> l ∈ locs t -> is_Some (h !! l).
Proof.
  revert p. induction t as [|l' c x a IHa b IHb]; intros p; simpl; [set_solver|].
  intros (Hl & Ha & Hb). rewrite elem_of_cons, elem_of_app.
  intros [->|[?|?]]; [by rewrite Hl|by eapply IHa|by eapply IHb].
Qed.

(** The heap has room for the tree, so its size bounds every walk. *)
Lemma locs_size {V} (h : cells V) (l : list loc) :
  NoDup l -> (forall x, x ∈ l -> is_Some (h !! x)) -> (length l <= size h)%nat.
Proof.
  intros Hnd Hin. rewrite <- size_dom, <- (size_list_to_set (C := gset loc) l) by done.
  apply subseteq_size. intros x. rewrite elem_of_list_to_set, elem_of_dom. apply Hin.
Qed.

(** C22: rebalancing terminates.  When a red node with black children is attached
    below a path of a red-black tree, [Rebalance] returns within as many turns
    as the path is long plus one, and does not panic on any nil pointer or nil
    interface; the heap then holds a tree with the same nodes in the same order
    that is red-black but for the colour of its root, and the value returned is
    nil if the root is the old one and the new root otherwise. *)
Theorem rebalance_terminates {E V : Type} (fuel : nat) (h : cells V) (k : list (frame V))
    (n : loc) (x : V) (a b : ltree V) (m : nat) (c : bool) :
  focus h k (Node n true x a b) -> is_rb false m a -> is_rb false m b -> rb_path c m k ->
  (length k < fuel)%nat ->
  exists r h', Rebalance (E := E) fuel h (Ptr (Some n)) = Ok (r, h') /\
    rebalanced (plug k (Node n true x a b)) r h'.
Proof. apply Rebalance_spec. Qed.

(** A chain of three nodes to the right, the lower two red. *)
Definition wit_chain : cells Z :=
  <[1%positive := RbNode 10 None (Some 2%positive) None false]>
  (<[2%positive := RbNode 20 None (Some 3%positive) (Some 1%positive) true]>
  (<[3%positive := RbNode 30 None None (Some 2%positive) true]> ∅)).

Lemma rebalance_terminates_witness :
  exists r h', Rebalance (E := unit) 3 wit_chain (Ptr (Some 3%positive)) = Ok (r, h') /\
    r = Ptr (Some 2%positive) /\
    rebalanced (plug [RightOf 2%positive true 20 Leaf; RightOf 1%positive false 10 Leaf]
      (Node 3%positive true 30 Leaf Leaf)) r h'.
Proof.
  destruct (rebalance_terminates (E := unit) 3 wit_chain
    [RightOf 2%positive true 20 Leaf; RightOf 1%positive false 10 Leaf]
    3%positive 30 Leaf Leaf 0 false) as (r & h' & Hr & Hreb).
  - repeat split. simpl. by apply (bool_decide_unpack _).
  - constructor.
  - constructor.
  - constructor; [done|constructor|]. econstructor; [done|constructor|]. constructor.
  - simpl. lia.
  - exists r, h'. split; [done|]. split; [|done]. vm_compute in Hr. by injection Hr.
Defined.
