(* ===== verification/SearchTree.v ===== *)
(** * The search tree the memtables share

    [binarySearchTree], [binarySearchTreeMap], [binarySearchTreeMulti] (lsmkv)
    and [BinarySearchTree] (roaringset) are four copies of one tree: a descent
    by [bytes.Compare], an update of the payload on an equal key, a red leaf and
    [rbtree.Rebalance] otherwise, and a root painted black.  This file has the
    walks over the heap of RBTree.v, generic in the payload and in what an equal
    key does to it, and proves that they implement an ordered list of payloads:
    inserting is ordered insertion, looking up is lookup, flattening a range is
    filtering.  MemtableTree.v instantiates them. *)

From stdpp Require Import sorting.
From S2P Require Import Prelude RBTree.

(** A tree: the heap of nodes, the next free address, the root pointer. *)
Record bst (V : Type) : Type := Bst {
  t_cells : cells V;
  t_next : loc;
  t_root : option loc }.
Arguments Bst {V}.
Arguments t_cells {V}.
Arguments t_next {V}.
Arguments t_root {V}.

Definition bst_empty {V} : bst V := Bst ∅ 1%positive None.

Definition set_data {V} (n : rb_node V) (x : V) : rb_node V :=
  RbNode x (n_left n) (n_right n) (n_parent n) (n_red n).

Section insert.
Context {E V R : Type}.

(** What an insertion of [key] does: the payload [new] of a new node with the
    result [created], and the update of the payload that is already there. *)
Context (vkey : V -> list Z) (key : list Z) (update : V -> V * R) (new : V) (created : R).

(** [n.left = &node{...}; rbtree.Rebalance(n.left)], and the same to the right *)
Definition add_leaf (h : cells V) (next : loc) (n : loc) (d : rb_node V) (left : bool) :
    outcome E (option loc * R * cells V * loc) :=
  let h := <[next := RbNode new None None (Some n) true]>
    (<[n := RbNode (n_data d) (if left then Some next else n_left d)
                   (if left then n_right d else Some next) (n_parent d) (n_red d)]> h) in
  let! (newRoot, h) := Rebalance (size h) h (Ptr (Some next)) in
  Ok (as_pointer newRoot, created, h, Pos.succ next).

(** [insert] of a node *)
Fixpoint node_insert (fuel : nat) (h : cells V) (next : loc) (n : loc) :
    outcome E (option loc * R * cells V * loc) :=
  match fuel with
  | O => OutOfFuel
  | S fuel =>
      let! d := load h n in
      if decide (key = vkey (n_data d)) then
        let (x, r) := update (n_data d) in
        Ok (None, r, <[n := set_data d x]> h, next)
      else
        match bytes_compare key (vkey (n_data d)) with
        | Lt =>
            match n_left d with
            | Some l => node_insert fuel h next l
            | None => add_leaf h next n d true
            end
        | _ =>
            match n_right d with
            | Some l => node_insert fuel h next l
            | None => add_leaf h next n d false
            end
        end
  end.

(** [insert] of a tree: a first node is a black root; a new root is taken over
    and the root is painted black. *)
Definition tree_insert (t : bst V) (created_root : R) : outcome E (bst V * R) :=
  match t_root t with
  | None =>
      Ok (Bst (<[t_next t := RbNode new None None None false]> (t_cells t))
            (Pos.succ (t_next t)) (Some (t_next t)), created_root)
  | Some root =>
      let! (newRoot, r, h, next) := node_insert (size (t_cells t)) (t_cells t) (t_next t) root in
      let root := match newRoot with Some l => l | None => root end in
      let! h := SetRed h (Ptr (Some root)) false in
      Ok (Bst h next (Some root), r)
  end.
End insert.

(** ** Walks that read *)

Section walks.
Context {E V : Type} (vkey : V -> list Z).

(** [getNode]: the node of [key], if there is one *)
Fixpoint node_find (key : list Z) (fuel : nat) (h : cells V) (n : loc) : outcome E (option (rb_node V)) :=
  match fuel with
  | O => OutOfFuel
  | S fuel =>
      let! d := load h n in
      if decide (vkey (n_data d) = key) then Ok (Some d)
      else
        match bytes_compare key (vkey (n_data d)) with
        | Lt => match n_left d with None => Ok None | Some l => node_find key fuel h l end
        | _ => match n_right d with None => Ok None | Some l => node_find key fuel h l end
        end
  end.

Definition tree_find (key : list Z) (t : bst V) : outcome E (option (rb_node V)) :=
  match t_root t with
  | None => Ok None
  | Some root => node_find key (size (t_cells t)) (t_cells t) root
  end.

(** [aboveMin] and [belowMax] *)
Definition above_min (min : option (list Z)) (k : list Z) : bool :=
  match min with
  | None => true
  | Some m => match bytes_compare k m with Lt => false | _ => true end
  end.

Definition below_max (max : option (list Z)) (k : list Z) : bool :=
  match max with
  | None => true
  | Some m => match bytes_compare k m with Gt => false | _ => true end
  end.

(** [appendInOrderRange]; [copy] is [shallowCopy] *)
Fixpoint appendInOrderRange {W} (copy : rb_node V -> W) (fuel : nat) (h : cells V)
    (n : option loc) (dst : list W) (min max : option (list Z)) : outcome E (list W) :=
  match n with
  | None => Ok dst
  | Some n =>
      match fuel with
      | O => OutOfFuel
      | S fuel =>
          let! d := load h n in
          let aboveMin := above_min min (vkey (n_data d)) in
          let belowMax := below_max max (vkey (n_data d)) in
          let! dst :=
            if aboveMin then
              appendInOrderRange copy fuel h (n_left d) dst min (if belowMax then None else max)
            else Ok dst in
          let dst := if aboveMin && belowMax then dst ++ [copy d] else dst in
          if belowMax then
            appendInOrderRange copy fuel h (n_right d) dst (if aboveMin then None else min) max
          else Ok dst
      end
  end.

Fixpoint subtreeSize (fuel : nat) (h : cells V) (n : option loc) : outcome E Z :=
  match n with
  | None => Ok 0
  | Some n =>
      match fuel with
      | O => OutOfFuel
      | S fuel =>
          let! d := load h n in
          let! l := if decide (n_left d = None) then Ok 0 else subtreeSize fuel h (n_left d) in
          let! r := if decide (n_right d = None) then Ok 0 else subtreeSize fuel h (n_right d) in
          Ok (1 + l + r)
      end
  end.

Fixpoint countInRange (fuel : nat) (h : cells V) (n : option loc) (min max : option (list Z)) :
    outcome E Z :=
  match n with
  | None => Ok 0
  | Some l =>
      match fuel with
      | O => OutOfFuel
      | S fuel' =>
          if decide (min = None /\ max = None) then subtreeSize fuel h n
          else
            let! d := load h l in
            let aboveMin := above_min min (vkey (n_data d)) in
            let belowMax := below_max max (vkey (n_data d)) in
            let! size :=
              if aboveMin then countInRange fuel' h (n_left d) min (if belowMax then None else max)
              else Ok 0 in
            let size := if aboveMin && belowMax then size + 1 else size in
            if belowMax then
              let! rsize := countInRange fuel' h (n_right d) (if aboveMin then None else min) max in
              Ok (size + rsize)
            else Ok size
      end
  end.

(** [flattenInOrder] and [flattenInOrderRange] of a tree *)
Definition flattenInOrder {W} (copy : rb_node V -> W) (t : bst V) : outcome E (list W) :=
  match t_root t with
  | None => Ok []
  | Some _ =>
      let! _ := subtreeSize (size (t_cells t)) (t_cells t) (t_root t) in
      appendInOrderRange copy (size (t_cells t)) (t_cells t) (t_root t) [] None None
  end.

(** [appendInOrder] of the map and set trees, and [flattenInOrder] over it *)
Fixpoint appendInOrder {W} (copy : rb_node V -> W) (fuel : nat) (h : cells V)
    (n : option loc) (dst : list W) : outcome E (list W) :=
  match n with
  | None => Ok dst
  | Some n =>
      match fuel with
      | O => OutOfFuel
      | S fuel =>
          let! d := load h n in
          let! dst := if decide (n_left d = None) then Ok dst
                      else appendInOrder copy fuel h (n_left d) dst in
          let dst := dst ++ [copy d] in
          if decide (n_right d = None) then Ok dst else appendInOrder copy fuel h (n_right d) dst
      end
  end.

Definition flattenAll {W} (copy : rb_node V -> W) (t : bst V) : outcome E (list W) :=
  match t_root t with
  | None => Ok []
  | Some _ =>
      let! _ := subtreeSize (size (t_cells t)) (t_cells t) (t_root t) in
      appendInOrder copy (size (t_cells t)) (t_cells t) (t_root t) []
  end.

Definition flattenInOrderRange {W} (copy : rb_node V -> W) (t : bst V) (min max : option (list Z)) :
    outcome E (list W) :=
  match t_root t with
  | None => Ok []
  | Some _ =>
      let! size' := countInRange (size (t_cells t)) (t_cells t) (t_root t) min max in
      if size' =? 0 then Ok []
      else appendInOrderRange copy (size (t_cells t)) (t_cells t) (t_root t) [] min max
  end.

End walks.

(** ** The ordered list of payloads a tree holds *)

Section ordered.
Context {V R : Type} (vkey : V -> list Z).
Implicit Types (l : list V) (t : ltree V) (k : list (frame V)).

Definition before (x y : list Z) : Prop := bytes_compare x y = Lt.
Definition sorted_keys l : Prop := StronglySorted (fun x y => before (vkey x) (vkey y)) l.

Definition lookup_key (key : list Z) l : option V :=
  List.find (fun x => bool_decide (vkey x = key)) l.

(** Ordered insertion, the specification of the tree's [insert] *)
Fixpoint ordered_insert (key : list Z) (update : V -> V * R) (new : V) l : list V :=
  match l with
  | [] => [new]
  | x :: rest =>
      if decide (key = vkey x) then (update x).1 :: rest
      else match bytes_compare key (vkey x) with
           | Lt => new :: l
           | _ => x :: ordered_insert key update new rest
           end
  end.

Definition insert_result (key : list Z) (update : V -> V * R) (created : R) l : R :=
  match lookup_key key l with Some x => (update x).2 | None => created end.

Lemma before_irrefl x : ~ before x x.
Proof. unfold before. by rewrite (proj2 (bytes_compare_eq x x)). Qed.

Lemma before_ne x y : before x y -> x <> y.
Proof. intros H ->. by apply before_irrefl in H. Qed.

Lemma compare_after x y : x <> y -> bytes_compare x y <> Lt -> before y x.
Proof.
  intros Hne Hc. unfold before. rewrite bytes_compare_antisym.
  destruct (bytes_compare x y) eqn:E; [by apply bytes_compare_eq in E|done|done].
Qed.

Lemma before_Gt x y : before x y -> bytes_compare y x = Gt.
Proof. unfold before. intros H. by rewrite bytes_compare_antisym, H. Qed.

Lemma sorted_keys_app l1 l2 :
  sorted_keys (l1 ++ l2) <->
  sorted_keys l1 /\ sorted_keys l2 /\ forall x y, x ∈ l1 -> y ∈ l2 -> before (vkey x) (vkey y).
Proof. unfold sorted_keys. rewrite StronglySorted_app. tauto. Qed.

Lemma sorted_keys_cons x l :
  sorted_keys (x :: l) <-> sorted_keys l /\ forall y, y ∈ l -> before (vkey x) (vkey y).
Proof.
  unfold sorted_keys. rewrite StronglySorted_cons, Forall_forall. tauto.
Qed.

Lemma sorted_keys_fmap l : sorted_keys l <-> StronglySorted before (vkey <$> l).
Proof.
  induction l as [|x l IH]; [split; constructor|]. rewrite fmap_cons, sorted_keys_cons, IH.
  rewrite StronglySorted_cons, Forall_fmap, Forall_forall. tauto.
Qed.

(** Insertion and lookup pass over smaller keys and stop at larger ones. *)
Lemma ordered_insert_right key update new l1 l2 :
  (forall x, x ∈ l1 -> before (vkey x) key) ->
  ordered_insert key update new (l1 ++ l2) = l1 ++ ordered_insert key update new l2.
Proof.
  induction l1 as [|x l1 IH]; intros H; simpl; [done|].
  assert (before (vkey x) key) as Hx by (apply H; set_solver).
  rewrite decide_False by (intros ->; by apply before_irrefl in Hx).
  rewrite (before_Gt _ _ Hx), IH; [done|set_solver].
Qed.

Lemma ordered_insert_left key update new l1 l2 :
  (forall x, x ∈ l2 -> before key (vkey x)) ->
  ordered_insert key update new (l1 ++ l2) = ordered_insert key update new l1 ++ l2.
Proof.
  intros H. induction l1 as [|x l1 IH]; simpl.
  - destruct l2 as [|y l2]; [done|]. simpl. assert (before key (vkey y)) as Hy by (apply H; set_solver).
    rewrite decide_False by (intros ->; by apply before_irrefl in Hy). by rewrite Hy.
  - case_if; [done|]. destruct (bytes_compare key (vkey x)); simpl; by rewrite ?IH.
Qed.

Lemma ordered_insert_mid key update new l1 l l2 :
  (forall x, x ∈ l1 -> before (vkey x) key) -> (forall x, x ∈ l2 -> before key (vkey x)) ->
  ordered_insert key update new (l1 ++ l ++ l2) = l1 ++ ordered_insert key update new l ++ l2.
Proof. intros H1 H2. by rewrite ordered_insert_right, ordered_insert_left. Qed.

Lemma lookup_key_app key l1 l2 :
  lookup_key key (l1 ++ l2) = match lookup_key key l1 with Some x => Some x | None => lookup_key key l2 end.
Proof. unfold lookup_key. induction l1 as [|x l1 IH]; simpl; [done|]. by case_if. Qed.

Lemma lookup_key_absent key l : (forall x, x ∈ l -> vkey x <> key) -> lookup_key key l = None.
Proof.
  unfold lookup_key. induction l as [|x l IH]; simpl; intros H; [done|].
  rewrite bool_decide_false by (apply H; set_solver). apply IH. set_solver.
Qed.

Lemma lookup_key_Some key l x : lookup_key key l = Some x -> x ∈ l /\ vkey x = key.
Proof.
  unfold lookup_key. intros H. apply List.find_some in H as [H1 H2].
  rewrite list_elem_of_In. by apply bool_decide_eq_true in H2.
Qed.

(** Lookup in a subtree between smaller and larger keys. *)
Lemma lookup_key_mid key l1 l l2 :
  (forall x, x ∈ l1 -> before (vkey x) key) -> (forall x, x ∈ l2 -> before key (vkey x)) ->
  lookup_key key (l1 ++ l ++ l2) = lookup_key key l.
Proof.
  intros H1 H2. rewrite !lookup_key_app, (lookup_key_absent key l1), (lookup_key_absent key l2).
  - by destruct (lookup_key key l).
  - intros x Hx <-. by apply H2, before_irrefl in Hx.
  - intros x Hx <-. by apply H1, before_irrefl in Hx.
Qed.

Lemma ordered_insert_keys key update new l y :
  y ∈ ordered_insert key update new l ->
  y = new \/ y ∈ l \/ exists x, x ∈ l /\ key = vkey x /\ y = (update x).1.
Proof.
  induction l as [|x l IH]; simpl; [set_solver|].
  case_if; [set_solver|]. destruct (bytes_compare key (vkey x)); set_solver.
Qed.

(** The specification keeps the keys sorted and changes exactly one entry. *)
Lemma ordered_insert_sorted key update new l :
  vkey new = key -> (forall x, vkey (update x).1 = vkey x) ->
  sorted_keys l -> sorted_keys (ordered_insert key update new l).
Proof.
  intros Hnew Hup. induction l as [|x l IH]; simpl; intros Hs; [repeat constructor|].
  apply sorted_keys_cons in Hs as [Hl Hx]. case_if.
  { apply sorted_keys_cons. split; [done|]. intros y Hy. rewrite Hup. auto. }
  destruct (bytes_compare key (vkey x)) eqn:E.
  - by apply bytes_compare_eq in E.
  - apply sorted_keys_cons. split; [by apply sorted_keys_cons|]. rewrite Hnew.
    intros y [->|Hy]%elem_of_cons; [done|]. by eapply compare_below; [|apply Hx].
  - apply sorted_keys_cons. split; [auto|].
    intros y [->|[Hy|(z & Hz & -> & ->)]]%ordered_insert_keys; [|auto|rewrite Hup; auto].
    rewrite Hnew. by apply compare_after; [congruence|rewrite E].
Qed.

Lemma lookup_ordered_insert key update new l key' :
  vkey new = key -> (forall x, vkey (update x).1 = vkey x) -> sorted_keys l ->
  lookup_key key' (ordered_insert key update new l) =
  if decide (key' = key)
  then Some (match lookup_key key l with Some x => (update x).1 | None => new end)
  else lookup_key key' l.
Proof.
  intros Hnew Hup. unfold lookup_key. induction l as [|x l IH]; simpl; intros Hs.
  { rewrite Hnew. destruct (decide (key' = key)); [by rewrite bool_decide_true|by rewrite bool_decide_false]. }
  apply sorted_keys_cons in Hs as [Hl Hx]. destruct (decide (key = vkey x)) as [->|Hne].
  { simpl. rewrite Hup. rewrite (bool_decide_true (vkey x = vkey x)) by done.
    destruct (decide (key' = vkey x)); [by rewrite bool_decide_true|by rewrite !bool_decide_false]. }
  rewrite (bool_decide_false (vkey x = key)) by congruence.
  destruct (bytes_compare key (vkey x)) eqn:E; simpl.
  - by apply bytes_compare_eq in E.
  - rewrite Hnew. destruct (decide (key' = key)) as [->|Hne']; [|by rewrite bool_decide_false].
    rewrite bool_decide_true by done. fold (lookup_key key l). rewrite lookup_key_absent; [done|].
    intros y Hy Heq. apply Hx in Hy. rewrite Heq in Hy. rewrite (before_Gt _ _ Hy) in E. done.
  - rewrite IH by done. destruct (decide (key' = key)) as [->|]; [|done]. by rewrite bool_decide_false.
Qed.

(** The change of a sum over the payloads *)
Definition zsum (f : V -> Z) l : Z := foldr (fun x acc => f x + acc) 0 l.

Lemma zsum_ordered_insert f key update new l :
  sorted_keys l ->
  zsum f (ordered_insert key update new l) =
  zsum f l + match lookup_key key l with Some x => f (update x).1 - f x | None => f new end.
Proof.
  induction l as [|x l IH]; intros Hs; simpl; [lia|]. apply sorted_keys_cons in Hs as [Hs Hx].
  unfold lookup_key in *. simpl. destruct (decide (key = vkey x)) as [->|Hne].
  { rewrite bool_decide_true by done. simpl. lia. }
  rewrite bool_decide_false by done. destruct (bytes_compare key (vkey x)) eqn:E; simpl.
  - by apply bytes_compare_eq in E.
  - fold (lookup_key key l). rewrite lookup_key_absent; [lia|].
    intros y Hy Heq. apply Hx, before_Gt in Hy. congruence.
  - rewrite IH by done. lia.
Qed.

End ordered.

(** ** The walks on a represented tree *)

Section paths.
Context {V : Type}.
Implicit Types (t : ltree V) (k : list (frame V)).

(** What lies left and right of the hole of a path. *)
Fixpoint kbefore k : list V :=
  match k with
  | [] => []
  | LeftOf _ _ _ _ :: k => kbefore k
  | RightOf _ _ x s :: k => kbefore k ++ elements s ++ [x]
  end.

Fixpoint kafter k : list V :=
  match k with
  | [] => []
  | LeftOf _ _ x s :: k => x :: elements s ++ kafter k
  | RightOf _ _ _ _ :: k => kafter k
  end.

Lemma elements_plug k t : elements (plug k t) = kbefore k ++ elements t ++ kafter k.
Proof.
  revert t. induction k as [|[l c x s|l c x s] k IH]; intros t; simpl; [by rewrite app_nil_r|..];
    rewrite IH; simpl; rewrite <- !app_assoc; done.
Qed.

Lemma rb_path_left c m k l col x a b :
  rb_path c m k -> is_rb c m (Node l col x a b) ->
  exists c' m', rb_path c' m' (LeftOf l col x b :: k) /\ is_rb c' m' a.
Proof.
  intros Hk Ht. inversion Ht; subst.
  - exists false, m. split; [by constructor|done].
  - eexists true, _. split; [by econstructor|done].
Qed.

Lemma rb_path_right c m k l col x a b :
  rb_path c m k -> is_rb c m (Node l col x a b) ->
  exists c' m', rb_path c' m' (RightOf l col x a :: k) /\ is_rb c' m' b.
Proof.
  intros Hk Ht. inversion Ht; subst.
  - exists false, m. split; [by constructor|done].
  - eexists true, _. split; [by econstructor|done].
Qed.

Lemma klocs_length k : (length k <= length (klocs k))%nat.
Proof. induction k as [|[] k IH]; simpl; rewrite ?length_app; lia. Qed.

Lemma focus_size (h : cells V) k t : focus h k t -> (length (locs t) + length k <= size h)%nat.
Proof.
  intros Hf. apply focus_root in Hf as (Hr & _ & Hnd). rewrite app_nil_r in Hnd.
  assert (length (locs (plug k t)) <= size h)%nat as Hs
    by (apply locs_size; [done|intros; by eapply repr_dom]).
  rewrite plug_locs, length_app in Hs. pose proof (klocs_length k). lia.
Qed.

End paths.

Section insert_spec.
Context {E V R : Type}.
Context (vkey : V -> list Z) (key : list Z) (update : V -> V * R) (new : V) (created : R).
Implicit Types (t : ltree V) (k : list (frame V)) (h : cells V).

(** The outcome of [node_insert] on the tree [t0]. *)
Definition node_inserted t0 (o : outcome E (option loc * R * cells V * loc)) : Prop :=
  exists newRoot h next t,
    o = Ok (newRoot, insert_result vkey key update created (elements t0), h, next) /\
    focus h [] t /\ elements t = ordered_insert vkey key update new (elements t0) /\
    (exists m, is_rb true m t) /\ (forall l, l ∈ locs t -> (l < next)%positive) /\
    troot t = match newRoot with Some l => Some l | None => troot t0 end.

(** A red leaf hung below a node, and rebalanced. *)
Lemma add_leaf_spec h next k n col x s m c (left : bool) :
  let f := if left then LeftOf n col x s else RightOf n col x s in
  focus h (f :: k) Leaf -> rb_path c 0 (f :: k) ->
  (forall l, l ∈ klocs (f :: k) -> (l < next)%positive) ->
  (forall x, x ∈ kbefore (f :: k) -> before (vkey x) key) ->
  (forall x, x ∈ kafter (f :: k) -> before key (vkey x)) ->
  h !! n = Some m ->
  node_inserted (plug (f :: k) Leaf) (add_leaf new created h next n m left).
Proof.
  intros f Hf Hk Hnext Hbef Haft Hn. unfold add_leaf. cbv zeta.
  match goal with |- context [size ?x] => set (h2 := x) end.
  assert (focus h2 (f :: k) (Node next true new Leaf Leaf)) as Hf2.
  { destruct Hf as (_ & Hrk & Hnd). simpl in Hnd.
    assert (NoDup (next :: klocs (f :: k))) as Hnd2.
    { apply NoDup_cons. split; [|done]. intros Hin. apply Hnext in Hin. lia. }
    subst f h2. destruct left; simpl in *; destruct Hrk as (Hn' & Hs & Hk'); simplify_eq;
      regions Hnd2 [[next]; [n]; locs s; klocs k]; unfold focus; simpl;
      split_and!; try frames; done. }
  destruct (Rebalance_spec (E := E) (size h2) h2 (f :: k) next new Leaf Leaf 0%nat c Hf2)
    as (r & h3 & -> & t & Hft & Hel & Hlocs & Hrb & Hr); [constructor..|done| |].
  { apply focus_size in Hf2. simpl in *. lia. }
  cbn [obind].
  exists (as_pointer r), h3, (Pos.succ next), t. split_and!; auto.
  - unfold insert_result. by rewrite elements_plug, lookup_key_mid.
  - by rewrite Hel, !elements_plug, ordered_insert_mid.
  - intros l. rewrite Hlocs, plug_locs. simpl. rewrite elem_of_cons.
    intros [->|Hl%Hnext]; lia.
  - destruct Hr as [[-> Ht]| ->]; simpl.
    + rewrite Ht. by apply (plug_troot (f :: k)).
    + destruct t; [|done]. apply (f_equal length) in Hel.
      rewrite elements_plug, !length_app in Hel. simpl in Hel. lia.
Qed.

(** A payload is replaced in place. *)
Lemma update_spec h k n col x a b next c m y :
  focus h k (Node n col x a b) -> rb_path c m k -> is_rb c m (Node n col x a b) ->
  (forall l, l ∈ locs (plug k (Node n col x a b)) -> (l < next)%positive) ->
  elements (plug k (Node n col y a b)) = ordered_insert vkey key update new (elements (plug k (Node n col x a b))) ->
  node_inserted (plug k (Node n col x a b))
    (Ok (None, insert_result vkey key update created (elements (plug k (Node n col x a b))),
         <[n := RbNode y (troot a) (troot b) (kparent k) col]> h, next)).
Proof.
  intros Hf Hk Hrb Hnext Hins.
  assert (focus (<[n := RbNode y (troot a) (troot b) (kparent k) col]> h) k (Node n col y a b)) as Hf'.
  { destruct Hf as ((Hn & Ha & Hb) & Hrk & Hnd). simpl in *.
    regions Hnd [[n]; locs a; locs b; klocs k]. unfold focus. simpl. split_and!; try frames. }
  eexists _, _, _, (plug k (Node n col y a b)). split_and!; [reflexivity|by apply focus_root|done|..].
  - assert (is_rb c m (Node n col y a b)) as Hrb' by (inversion Hrb; subst; by constructor).
    destruct (plug_rb c m k _ Hk Hrb') as [m' Hm']. exists m'. by eapply is_rb_true.
  - intros l. rewrite plug_locs. simpl. intros Hl. apply Hnext. by rewrite plug_locs.
  - destruct k; [done|]. by apply (plug_troot (_ :: _)).
Qed.

Lemma node_insert_spec t : forall k h next c m fuel n,
  focus h k t -> troot t = Some n -> rb_path c m k -> is_rb c m t ->
  (forall l, l ∈ locs (plug k t) -> (l < next)%positive) ->
  sorted_keys vkey (elements (plug k t)) ->
  (forall x, x ∈ kbefore k -> before (vkey x) key) ->
  (forall x, x ∈ kafter k -> before key (vkey x)) ->
  (depth t <= fuel)%nat ->
  node_inserted (plug k t) (node_insert vkey key update new created fuel h next n).
Proof.
  induction t as [|n col x a IHa b IHb]; [done|].
  intros k h next c m [|fuel] n' Hf [= <-] Hk Hrb Hnext Hs Hbef Haft Hd; simpl in Hd; [lia|].
  assert (Hs' := Hs). rewrite elements_plug in Hs'. simpl in Hs'.
  apply sorted_keys_app in Hs' as (_ & (Hs' & _ & _)%sorted_keys_app & _).
  apply sorted_keys_app in Hs' as (_ & [_ Hb]%sorted_keys_cons & Ha).
  specialize (fun y Hy => Ha y x Hy (list_elem_of_here _ _)).
  cbn [node_insert]. rewrite (load_Ok _ _ _ (proj1 (proj1 Hf))). cbn [obind n_data n_left n_right].
  case_decide as Hkey.
  - destruct (update x) as [y r] eqn:Hu.
    assert (r = insert_result vkey key update created (elements (plug k (Node n col x a b)))) as ->.
    { unfold insert_result. rewrite elements_plug, lookup_key_mid by done. simpl.
      rewrite lookup_key_app, lookup_key_absent by (intros z Hz; rewrite Hkey; by apply before_ne, Ha).
      unfold lookup_key. simpl. by rewrite bool_decide_true, Hu. }
    eapply update_spec; eauto.
    rewrite !elements_plug, ordered_insert_mid by done. simpl. f_equal.
    rewrite ordered_insert_right by (intros; rewrite Hkey; auto). simpl.
    by rewrite decide_True, Hu by done.
  - destruct (bytes_compare key (vkey x)) eqn:Ec.
    { by apply bytes_compare_eq in Ec. }
    + assert (Haft' : forall z, z ∈ kafter (LeftOf n col x b :: k) -> before key (vkey z)).
      { simpl. intros z. rewrite elem_of_cons, elem_of_app. intros [->|[Hz|Hz]]; [done| |auto].
        by eapply compare_below; [|apply Hb]. }
      destruct (rb_path_left _ _ _ _ _ _ _ _ Hk Hrb) as (c' & m' & Hk' & Ha').
      assert (Hf' := proj1 (focus_left _ _ _ _ _ _ _) Hf).
      destruct (troot a) as [l|] eqn:El.
      { eapply (IHa (LeftOf n col x b :: k)); eauto. lia. }
      destruct a; [|done]. inversion Ha'; subst.
      eapply (add_leaf_spec h next k n col x b _ c' true); eauto.
      { intros l Hl. apply Hnext. rewrite plug_locs. exact Hl. }
      destruct Hf as [[Hn _] _]. exact Hn.
    + assert (Hbef' : forall z, z ∈ kbefore (RightOf n col x a :: k) -> before (vkey z) key).
      { assert (before (vkey x) key) by (apply compare_after; [done|by rewrite Ec]).
        simpl. intros z. rewrite !elem_of_app, list_elem_of_singleton.
        intros [Hz|[Hz| ->]]; [auto| |done]. by eapply compare_below; [apply Ha|]. }
      destruct (rb_path_right _ _ _ _ _ _ _ _ Hk Hrb) as (c' & m' & Hk' & Hb').
      assert (Hf' := proj1 (focus_right _ _ _ _ _ _ _) Hf).
      destruct (troot b) as [l|] eqn:El.
      { eapply (IHb (RightOf n col x a :: k)); eauto. lia. }
      destruct b; [|done]. inversion Hb'; subst.
      eapply (add_leaf_spec h next k n col x a _ c' false); eauto.
      { intros l Hl. apply Hnext. rewrite plug_locs. set_solver. }
      destruct Hf as [[Hn _] _]. exact Hn.
Qed.

End insert_spec.

(** ** Trees as ordered lists *)

Section tree_spec.
Context {E V : Type} (vkey : V -> list Z).
Implicit Types (t : ltree V) (T : bst V) (h : cells V).

(** [T] is a red-black tree whose payloads, in order, are [l]. *)
Definition tree_holds T l : Prop :=
  exists t, focus (t_cells T) [] t /\ t_root T = troot t /\
    (forall x, x ∈ locs t -> (x < t_next T)%positive) /\
    (exists m, is_rb false m t) /\ sorted_keys vkey l /\ elements t = l.

Lemma empty_holds : tree_holds bst_empty [].
Proof.
  exists Leaf. split_and!; try done; [|set_solver|exists 0%nat; constructor|constructor].
  repeat split. constructor.
Qed.

Lemma paint_black h n c x a b m :
  focus h [] (Node n c x a b) -> is_rb true m (Node n c x a b) ->
  exists h' m', SetRed (E := E) h (Ptr (Some n)) false = Ok h' /\
    focus h' [] (Node n false x a b) /\ is_rb false m' (Node n false x a b).
Proof.
  intros ((Hl & Ha & Hb) & _ & Hnd) Hrb. simpl in *. rewrite (SetRed_Ok _ _ _ _ Hl).
  regions Hnd [[n]; locs a; locs b].
  eexists. inversion Hrb; subst; (eexists; split; [reflexivity|]);
    (split; [unfold focus; simpl; split_and!; try frames|constructor; eauto using is_rb_true]); done.
Qed.

Lemma elements_Node n c (x : V) a b : elements (Node n c x a b) <> [].
Proof. simpl. by destruct (elements a). Qed.

Section insertion.
Context {R : Type} (key : list Z) (update : V -> V * R) (new : V) (created created_root : R).
Hypothesis new_key : vkey new = key.
Hypothesis update_key : forall x, vkey (update x).1 = vkey x.

Lemma tree_insert_spec T l :
  tree_holds T l ->
  exists T', tree_insert (E := E) vkey key update new created T created_root
      = Ok (T', match l with [] => created_root | _ => insert_result vkey key update created l end) /\
    tree_holds T' (ordered_insert vkey key update new l).
Proof.
  intros (t & Hf & Hroot & Hnext & (m & Hrb) & Hs & <-). unfold tree_insert. rewrite Hroot.
  destruct t as [|n c x a b].
  - simpl. eexists. split; [reflexivity|].
    exists (Node (t_next T) false new Leaf Leaf). simpl. split_and!; try done.
    + repeat split; simpl; [by rewrite lookup_insert_eq|]. apply NoDup_singleton.
    + intros y ->%list_elem_of_singleton. simpl. lia.
    + exists 1%nat. repeat constructor.
    + by repeat constructor.
  - destruct (node_insert_spec (E := E) vkey key update new created (Node n c x a b) [] (t_cells T) (t_next T)
      false m (size (t_cells T)) n) as (newRoot & h & next & t' & Ho & Hf' & Hel & (m' & Hrb') & Hnext' & Hr);
      auto; [constructor|simpl; set_solver..| |].
    { apply focus_size in Hf. pose proof (depth_locs (Node n c x a b)). simpl in *. lia. }
    simpl troot. cbv iota. rewrite Ho. cbn [obind plug] in *.
    destruct t' as [|n' c' x' a' b'].
    { exfalso. destruct (elements (Node n c x a b)) as [|z zs] eqn:Ez; [by apply elements_Node in Ez|].
      simpl in Hel. by repeat case_match. }
    destruct (paint_black _ _ _ _ _ _ _ Hf' Hrb') as (h'' & m'' & Hset & Hf'' & Hrb'').
    assert (match newRoot with Some l => l | None => n end = n') as ->
      by (destruct newRoot; simpl in Hr; congruence).
    rewrite Hset. cbn [obind]. eexists. split.
    { f_equal. f_equal. destruct (elements (Node n c x a b)) eqn:Ez; [|done]. by apply elements_Node in Ez. }
    exists (Node n' false x' a' b'). simpl. split_and!; eauto.
    apply ordered_insert_sorted; auto.
Qed.
End insertion.

(** ** Reading *)

(** The nodes in order, as they are in the heap. *)
Fixpoint tnodes t (p : option loc) : list (rb_node V) :=
  match t with
  | Leaf => []
  | Node l c x a b => tnodes a (Some l) ++ RbNode x (troot a) (troot b) p c :: tnodes b (Some l)
  end.

Lemma tnodes_elements t p : n_data <$> tnodes t p = elements t.
Proof. revert p. induction t as [|l c x a IHa b IHb]; intros p; simpl; [done|]. rewrite fmap_app. simpl. by rewrite IHa, IHb. Qed.

Lemma node_find_spec key t : forall fuel h p n,
  repr h t p -> troot t = Some n -> sorted_keys vkey (elements t) -> (depth t <= fuel)%nat ->
  exists r, node_find (E := E) vkey key fuel h n = Ok r /\
    n_data <$> r = lookup_key vkey key (elements t).
Proof.
  induction t as [|n c x a IHa b IHb]; [done|].
  intros [|fuel] h p n' (Hn & Hra & Hrb) [= <-] Hs Hd; simpl in Hd; [lia|].
  cbn [node_find elements] in *. rewrite (load_Ok _ _ _ Hn). cbn [obind n_data n_left n_right].
  apply sorted_keys_app in Hs as (Hsa & [Hsb Hb]%sorted_keys_cons & Ha).
  specialize (fun y Hy => Ha y x Hy (list_elem_of_here _ _)).
  case_decide as Hkey.
  { eexists. split; [reflexivity|]. rewrite lookup_key_app, lookup_key_absent.
    - unfold lookup_key. simpl. by rewrite bool_decide_true.
    - intros y Hy. rewrite <- Hkey. by apply before_ne, Ha. }
  assert (forall l, lookup_key vkey key (x :: l) = lookup_key vkey key l) as Hskip
    by (intros; unfold lookup_key; simpl; by rewrite bool_decide_false).
  destruct (bytes_compare key (vkey x)) eqn:Ec.
  - by apply bytes_compare_eq in Ec.
  - rewrite <- (app_nil_l (elements a ++ x :: elements b)), lookup_key_mid; [|set_solver|].
    2:{ intros z [->|Hz]%elem_of_cons; [done|]. by eapply compare_below; [|apply Hb]. }
    destruct (troot a) as [l|] eqn:El; [eapply IHa; eauto; lia|].
    destruct a; [|done]. by exists None.
  - assert (before (vkey x) key) by (apply compare_after; [done|by rewrite Ec]).
    rewrite lookup_key_app, lookup_key_absent, Hskip.
    2:{ intros z Hz. apply before_ne. by eapply compare_below; [apply Ha|]. }
    destruct (troot b) as [l|] eqn:El; [eapply IHb; eauto; lia|].
    destruct b; [|done]. by exists None.
Qed.

Lemma tree_find_spec key T l :
  tree_holds T l ->
  exists r, tree_find (E := E) vkey key T = Ok r /\ n_data <$> r = lookup_key vkey key l.
Proof.
  intros (t & Hf & Hroot & _ & _ & Hs & <-). unfold tree_find. rewrite Hroot.
  destruct t as [|n c x a b]; [by exists None|].
  apply (node_find_spec key (Node n c x a b) _ _ None); [apply Hf|done|done|].
  apply focus_size in Hf. pose proof (depth_locs (Node n c x a b)). simpl in *. lia.
Qed.

(** ** Ranges *)

Definition in_range (min max : option (list Z)) (x : V) : bool :=
  above_min min (vkey x) && below_max max (vkey x).

Lemma above_min_mono m x y : before x y -> above_min m x = true -> above_min m y = true.
Proof.
  destruct m as [m|]; simpl; [|done]. intros Hxy.
  destruct (bytes_compare y m) eqn:Ey; try done.
  by rewrite (bytes_compare_trans x y m Hxy Ey).
Qed.

Lemma below_max_mono m x y : before x y -> below_max m y = true -> below_max m x = true.
Proof.
  destruct m as [m|]; simpl; [|done]. intros Hxy.
  destruct (bytes_compare x m) eqn:Ex; try done.
  assert (before m x) as Hmx by (unfold before; by rewrite bytes_compare_antisym, Ex).
  by rewrite (before_Gt _ _ (bytes_compare_trans m x y Hmx Hxy)).
Qed.

Definition selected min max (ns : list (rb_node V)) : list (rb_node V) :=
  filter (fun d => in_range min max (n_data d) = true) ns.

Lemma selected_all ns : selected None None ns = ns.
Proof. by apply filter_all. Qed.

(** How the code prunes and drops bounds at a node: the part of the range in the
    left and in the right subtree. *)
Lemma selected_left min max x ns :
  (forall y, y ∈ n_data <$> ns -> before (vkey y) (vkey x)) ->
  selected min max ns =
  if above_min min (vkey x) then selected min (if below_max max (vkey x) then None else max) ns else [].
Proof.
  intros Hns. unfold selected. destruct (above_min min (vkey x)) eqn:Ea.
  - apply filter_ext_in. intros d Hd. unfold in_range.
    destruct (below_max max (vkey x)) eqn:Eb; [|done].
    rewrite (below_max_mono max (vkey (n_data d)) (vkey x)) by (done || apply Hns; by apply list_elem_of_fmap_2).
    done.
  - apply filter_none. intros d Hd. unfold in_range. rewrite andb_true_iff. intros [H _].
    apply (above_min_mono min _ (vkey x)) in H; [congruence|]. apply Hns. by apply list_elem_of_fmap_2.
Qed.

Lemma selected_right min max x ns :
  (forall y, y ∈ n_data <$> ns -> before (vkey x) (vkey y)) ->
  selected min max ns =
  if below_max max (vkey x) then selected (if above_min min (vkey x) then None else min) max ns else [].
Proof.
  intros Hns. unfold selected. destruct (below_max max (vkey x)) eqn:Ea.
  - apply filter_ext_in. intros d Hd. unfold in_range.
    destruct (above_min min (vkey x)) eqn:Eb; [|done].
    rewrite (above_min_mono min (vkey x) (vkey (n_data d))) by (done || apply Hns; by apply list_elem_of_fmap_2).
    done.
  - apply filter_none. intros d Hd. unfold in_range. rewrite andb_true_iff. intros [_ H].
    apply (below_max_mono max (vkey x)) in H; [congruence|]. apply Hns. by apply list_elem_of_fmap_2.
Qed.

Lemma selected_node min max l c x a b p :
  sorted_keys vkey (elements (Node l c x a b)) ->
  let d := RbNode x (troot a) (troot b) p c in
  selected min max (tnodes (Node l c x a b) p) =
  (if above_min min (vkey x)
   then selected min (if below_max max (vkey x) then None else max) (tnodes a (Some l)) else []) ++
  (if above_min min (vkey x) && below_max max (vkey x) then [d] else []) ++
  (if below_max max (vkey x)
   then selected (if above_min min (vkey x) then None else min) max (tnodes b (Some l)) else []).
Proof.
  intros Hs d. simpl. unfold selected at 1. rewrite filter_app, filter_cons. fold (selected min max (tnodes a (Some l))).
  fold (selected min max (tnodes b (Some l))).
  apply sorted_keys_app in Hs as (_ & [_ Hb]%sorted_keys_cons & Ha).
  rewrite (selected_left _ _ x (tnodes a _)), (selected_right _ _ x (tnodes b _)).
  - f_equal. unfold in_range. cbn [n_data]. subst d.
    destruct (above_min min (vkey x) && below_max max (vkey x)); by case_decide.
  - intros y. rewrite tnodes_elements. apply Hb.
  - intros y. rewrite tnodes_elements. intros Hy. apply Ha; [done|apply list_elem_of_here].
Qed.

Lemma sorted_subtrees l c x a b :
  sorted_keys vkey (elements (Node l c x a b)) -> sorted_keys vkey (elements a) /\ sorted_keys vkey (elements b).
Proof. simpl. intros Hs. apply sorted_keys_app in Hs as (Ha & [Hb _]%sorted_keys_cons & _). done. Qed.

Lemma appendInOrderRange_spec {W} (copy : rb_node V -> W) t : forall fuel h p dst min max,
  repr h t p -> sorted_keys vkey (elements t) -> (depth t <= fuel)%nat ->
  appendInOrderRange (E := E) vkey copy fuel h (troot t) dst min max
  = Ok (dst ++ (copy <$> selected min max (tnodes t p))).
Proof.
  induction t as [|l c x a IHa b IHb]; intros [|fuel] h p dst min max Hr Hs Hd; simpl in Hd; try lia.
  1,2: simpl; by rewrite app_nil_r.
  rewrite selected_node by done. destruct Hr as (Hl & Hra & Hrb). apply sorted_subtrees in Hs as [Hsa Hsb].
  cbn [troot appendInOrderRange]. rewrite (load_Ok _ _ _ Hl). cbn [obind n_data n_left n_right].
  set (above := above_min min (vkey x)). set (below := below_max max (vkey x)).
  rewrite (IHa fuel h (Some l)) by (done || lia).
  destruct above, below; cbn [obind andb];
    rewrite ?(IHb fuel h (Some l)) by (done || lia);
    rewrite ?fmap_app, <- ?app_assoc, ?app_nil_r; try done.
Qed.

Lemma subtreeSize_spec t : forall fuel h p,
  repr h t p -> (depth t <= fuel)%nat ->
  subtreeSize (E := E) fuel h (troot t) = Ok (Z.of_nat (length (elements t))).
Proof.
  induction t as [|l c x a IHa b IHb]; intros [|fuel] h p Hr Hd; simpl in Hd; try lia; try done.
  destruct Hr as (Hl & Hra & Hrb).
  cbn [troot subtreeSize]. rewrite (load_Ok _ _ _ Hl). cbn [obind n_data n_left n_right].
  rewrite (IHa fuel h (Some l)), (IHb fuel h (Some l)) by (done || lia).
  assert (forall s : ltree V, (if decide (troot s = None) then Ok 0 else Ok (Z.of_nat (length (elements s))))
    = Ok (E := E) (Z.of_nat (length (elements s)))) as Hif by (by intros []).
  rewrite !Hif. cbn [obind]. simpl elements. rewrite length_app. simpl. do 2 f_equal. lia.
Qed.

Lemma countInRange_spec t : forall fuel h p min max,
  repr h t p -> sorted_keys vkey (elements t) -> (depth t <= fuel)%nat ->
  countInRange (E := E) vkey fuel h (troot t) min max
  = Ok (Z.of_nat (length (selected min max (tnodes t p)))).
Proof.
  induction t as [|l c x a IHa b IHb]; intros [|fuel] h p min max Hr Hs Hd; simpl in Hd; try lia; try done.
  cbn [troot countInRange]. case_decide as Hno.
  { destruct Hno as [-> ->]. rewrite selected_all, <- (length_fmap n_data), tnodes_elements.
    apply (subtreeSize_spec (Node l c x a b) (S fuel) h p Hr). simpl. lia. }
  rewrite selected_node by done. destruct Hr as (Hl & Hra & Hrb). apply sorted_subtrees in Hs as [Hsa Hsb].
  rewrite (load_Ok _ _ _ Hl). cbn [obind n_data n_left n_right].
  set (above := above_min min (vkey x)). set (below := below_max max (vkey x)).
  rewrite (IHa fuel h (Some l)), (IHb fuel h (Some l)) by (done || lia).
  destruct above, below; cbn [obind andb]; rewrite ?length_app; simpl; do 2 f_equal; lia.
Qed.

Lemma appendInOrder_spec {W} (copy : rb_node V -> W) t : forall fuel h p dst,
  repr h t p -> (depth t <= fuel)%nat ->
  appendInOrder (E := E) copy fuel h (troot t) dst = Ok (dst ++ (copy <$> tnodes t p)).
Proof.
  induction t as [|l c x a IHa b IHb]; intros [|fuel] h p dst Hr Hd; simpl in Hd; try lia.
  1,2: simpl; by rewrite app_nil_r.
  destruct Hr as (Hl & Hra & Hrb). cbn [troot appendInOrder tnodes]. rewrite (load_Ok _ _ _ Hl).
  cbn [obind n_data n_left n_right].
  assert (forall s p dst', (if decide (troot s = None) then Ok dst' else Ok (dst' ++ (copy <$> tnodes s p)))
    = Ok (E := E) (dst' ++ (copy <$> tnodes s p))) as Hif
    by (intros [] ? ?; simpl; by rewrite ?app_nil_r).
  rewrite (IHa fuel h (Some l)) by (done || lia). rewrite Hif. cbn [obind].
  rewrite (IHb fuel h (Some l)) by (done || lia). rewrite Hif, fmap_app. simpl.
  by rewrite <- !app_assoc.
Qed.

(** The nodes of a tree in order; their payloads are the list it holds. *)
Lemma flatten_spec {W} (copy : rb_node V -> W) T l :
  tree_holds T l ->
  exists ns, n_data <$> ns = l /\
    flattenInOrder (E := E) vkey copy T = Ok (copy <$> ns) /\
    flattenAll (E := E) copy T = Ok (copy <$> ns) /\
    forall min max, flattenInOrderRange (E := E) vkey copy T min max
      = Ok (copy <$> selected min max ns).
Proof.
  intros (t & Hf & Hroot & _ & _ & Hs & <-). exists (tnodes t None).
  split; [apply tnodes_elements|]. unfold flattenInOrder, flattenInOrderRange, flattenAll. rewrite Hroot.
  assert (depth t <= size (t_cells T))%nat
    by (apply focus_size in Hf; pose proof (depth_locs t); simpl in *; lia).
  destruct Hf as (Hr & _ & _). simpl in Hr.
  destruct (troot t) as [n|] eqn:En; [|destruct t; [|done]; by repeat split].
  rewrite <- En. split_and!.
  - by rewrite (subtreeSize_spec t _ _ None), (appendInOrderRange_spec copy t _ _ None), selected_all.
  - by rewrite (subtreeSize_spec t _ _ None), (appendInOrder_spec copy t _ _ None).
  - intros min max. rewrite (countInRange_spec t _ _ None) by done. cbn [obind].
    destruct (Z.eqb_spec (Z.of_nat (length (selected min max (tnodes t None)))) 0) as [H0|].
    + destruct (selected min max (tnodes t None)); [done|]. simpl in H0. lia.
    + by rewrite (appendInOrderRange_spec copy t _ _ None).
Qed.

End tree_spec.

(** ** Trees as finite maps

    The contract of the tree: it refines a finite map from keys to payloads. *)

Section map_spec.
Context {E V : Type} (vkey : V -> list Z).

Definition refines (T : bst V) (s : gmap (list Z) V) : Prop :=
  exists l, tree_holds vkey T l /\ forall k, lookup_key vkey k l = s !! k.

Lemma empty_refines : refines bst_empty ∅.
Proof. exists []. split; [apply empty_holds|done]. Qed.

Lemma refines_key T s k x : refines T s -> s !! k = Some x -> vkey x = k.
Proof. intros (l & _ & Hs). rewrite <- Hs. by intros [_ H]%lookup_key_Some. Qed.

Lemma insert_refines {R} key (update : V -> V * R) new created T s :
  vkey new = key -> (forall x, vkey (update x).1 = vkey x) -> refines T s ->
  exists T', tree_insert (E := E) vkey key update new created T created
      = Ok (T', match s !! key with Some x => (update x).2 | None => created end) /\
    refines T' (<[key := match s !! key with Some x => (update x).1 | None => new end]> s).
Proof.
  intros Hnew Hup (l & Hl & Hs).
  destruct (tree_insert_spec (E := E) vkey key update new created created Hnew Hup T l Hl) as (T' & -> & HT').
  exists T'. split.
  - do 2 f_equal. unfold insert_result. rewrite <- Hs. by destruct l.
  - eexists. split; [exact HT'|]. intros k.
    rewrite lookup_ordered_insert by (auto; by destruct Hl as (? & ? & ? & ? & ? & ? & ?)).
    rewrite Hs. destruct (decide (k = key)) as [->|]; [by rewrite lookup_insert_eq|by rewrite lookup_insert_ne].
Qed.

Lemma find_refines key T s :
  refines T s -> exists r, tree_find (E := E) vkey key T = Ok r /\ n_data <$> r = s !! key.
Proof. intros (l & Hl & Hs). rewrite <- Hs. by apply tree_find_spec. Qed.

Lemma sorted_keys_NoDup l : sorted_keys vkey l -> NoDup (vkey <$> l).
Proof.
  induction 1 as [|x l _ IH Hx]; simpl; [constructor|].
  apply NoDup_cons. split; [|done]. intros (y & Hy & Hin)%list_elem_of_fmap.
  rewrite Forall_forall in Hx. apply Hx in Hin. rewrite Hy in Hin. by apply before_irrefl in Hin.
Qed.

Lemma lookup_key_elem l x : sorted_keys vkey l -> x ∈ l <-> lookup_key vkey (vkey x) l = Some x.
Proof.
  intros Hs. split; [|by intros [? _]%lookup_key_Some]. intros Hx.
  apply list_elem_of_split in Hx as (l1 & l2 & ->).
  apply sorted_keys_app in Hs as (_ & _ & Hs).
  rewrite lookup_key_app, lookup_key_absent.
  - unfold lookup_key. simpl. by rewrite bool_decide_true.
  - intros y Hy. apply before_ne, Hs; [done|apply list_elem_of_here].
Qed.

(** Scans list the entries of the map once each, in the order of their keys; a
    range scan lists those in the range. *)
Lemma flatten_refines {W} (copy : rb_node V -> W) T s :
  refines T s ->
  exists ns, sorted_keys vkey (n_data <$> ns) /\
    (forall x, x ∈ n_data <$> ns <-> s !! vkey x = Some x) /\
    flattenInOrder (E := E) vkey copy T = Ok (copy <$> ns) /\
    flattenAll (E := E) copy T = Ok (copy <$> ns) /\
    forall min max, flattenInOrderRange (E := E) vkey copy T min max
      = Ok (copy <$> selected vkey min max ns).
Proof.
  intros (l & Hl & Hs).
  destruct (flatten_spec (E := E) vkey copy T l Hl) as (ns & Hns & Hall & Hall' & Hrange).
  assert (sorted_keys vkey l) as Hsorted by (by destruct Hl as (? & ? & ? & ? & ? & ? & ?)).
  exists ns. rewrite Hns. split_and!; auto. intros x. rewrite <- Hs. by apply lookup_key_elem.
Qed.

(** Every tree that refines a map is red-black and its depth is logarithmic. *)
Lemma refines_balanced T s :
  refines T s ->
  exists t m, focus (t_cells T) [] t /\ t_root T = troot t /\ is_rb false m t /\
    (depth t <= 2 * Nat.log2 (S (size s)))%nat.
Proof.
  intros (l & (t & Hf & Hroot & _ & (m & Hrb) & Hsort & Hel) & Hs).
  exists t, m. split_and!; auto. etrans; [by eapply is_rb_balanced|].
  assert (length (elements t) <= size s)%nat; [|apply Nat.mul_le_mono_l, Nat.log2_le_mono; lia].
  rewrite Hel, <- size_dom, <- (length_fmap vkey).
  pose proof (sorted_keys_NoDup l Hsort) as Hnd.
  rewrite <- (size_list_to_set (C := gset (list Z)) _ Hnd). apply subseteq_size.
  intros k. rewrite elem_of_list_to_set, elem_of_dom. intros (x & -> & Hx)%list_elem_of_fmap.
  rewrite <- Hs, (proj1 (lookup_key_elem l x Hsort) Hx). done.
Qed.

End map_spec.
