(* ===== verification/MemtableTree.v ===== *)
(** * The memtable trees of lsmkv

    [binary_search_tree.go] (strategy "replace"), [binary_search_tree_map.go]
    (strategy "map") and [binary_search_tree_multi.go] (strategy "set"), over
    the tree of SearchTree.v.  Each is shown to refine a finite map: any
    sequence of writes succeeds, and reads, ordered scans and range scans answer
    from the map the writes build. *)

From stdpp Require Import sorting.
From S2P Require Import Prelude RBTree SearchTree.

(** The errors of a lookup ([lsmkv.NotFound], [lsmkv.Deleted], [ErrDeleted] with
    its time in milliseconds, and the two malformed tombstones) *)
Inductive get_error : Type :=
| NotFound
| Deleted
| ErrDeleted (unixMilli : Z)
| ErrTombstoneVersion (version : Z)
| ErrTombstoneLength.

#[export] Instance get_error_eq_dec : EqDecision get_error.
Proof. solve_decision. Defined.

(** memtable.go *)
Definition errorFromTombstonedValue (tombstonedVal : list Z) : get_error :=
  match tombstonedVal with
  | [] => Deleted
  | version :: rest =>
      if negb (version =? 1) then ErrTombstoneVersion version
      else if negb (Z.of_nat (length tombstonedVal) =? 9) then ErrTombstoneLength
      else ErrDeleted (to_int (le_combine rest))
  end.

Definition blen (b : list Z) : Z := Z.of_nat (length b).

(** ** Strategy "replace" *)

Module Replace.

(** The payload of a [binarySearchNode].  A nil slice of secondary keys and an
    empty one are not told apart by the code and are the same list here. *)
Record bs_data : Type := BsData {
  key : list Z;
  value : list Z;
  secondaryKeys : list (list Z);
  tombstone : bool }.

#[export] Instance bs_data_eq_dec : EqDecision bs_data.
Proof. solve_decision. Defined.

Definition binarySearchTree : Type := bst bs_data.

(** [netAdditions] is made positive whichever way the length changes. *)
Definition bst_insert_update (k v : list Z) (sk : list (list Z)) (n : bs_data) : bs_data * (Z * list (list Z) * bool) :=
  let netAdditions := blen (value n) - blen v in
  let netAdditions := if netAdditions <? 0 then netAdditions * -1 else netAdditions in
  (BsData (key n) v sk false, (netAdditions, secondaryKeys n, negb (tombstone n))).

Definition bst_insert {E} (t : binarySearchTree) (k v : list Z) (sk : list (list Z)) :
    outcome E (binarySearchTree * (Z * list (list Z) * bool)) :=
  tree_insert key k (bst_insert_update k v sk) (BsData k v sk false)
    (blen k + blen v, [], false) t (blen k + blen v, [], false).

Definition bst_setTombstone_update (v : list Z) (sk : list (list Z)) (n : bs_data) : bs_data * (list (list Z) * bool) :=
  (BsData (key n) v sk true, (secondaryKeys n, tombstone n)).

Definition bst_setTombstone {E} (t : binarySearchTree) (k v : list Z) (sk : list (list Z)) :
    outcome E (binarySearchTree * (list (list Z) * bool)) :=
  tree_insert key k (bst_setTombstone_update v sk) (BsData k v sk true) ([], false) t ([], false).

Definition bst_getNode (t : binarySearchTree) (k : list Z) : outcome get_error bs_data :=
  let! r := tree_find key k t in
  match r with
  | None => Err NotFound
  | Some n =>
      if negb (tombstone (n_data n)) then Ok (n_data n)
      else Err (errorFromTombstonedValue (value (n_data n)))
  end.

Definition bst_get (t : binarySearchTree) (k : list Z) : outcome get_error (list Z) :=
  let! n := bst_getNode t k in Ok (value n).

Definition bst_exists (t : binarySearchTree) (k : list Z) : outcome get_error unit :=
  let! _ := bst_getNode t k in Ok tt.

(** A node without its pointers; a copied list of secondary keys is equal. *)
Definition bst_shallowCopy (n : rb_node bs_data) : bs_data * bool := (n_data n, n_red n).

Definition bst_flattenInOrder {E} (t : binarySearchTree) : outcome E (list (bs_data * bool)) :=
  flattenInOrder key bst_shallowCopy t.

Definition bst_flattenInOrderRange {E} (t : binarySearchTree) (min max : option (list Z)) :
    outcome E (list (bs_data * bool)) :=
  flattenInOrderRange key bst_shallowCopy t min max.

(** [countStats]: keys written and keys tombstoned, in the order of the walk *)
Record countStats : Type := Stats { upsertKeys : list (list Z); tombstonedKeys : list (list Z) }.

Fixpoint node_countStats {E} (fuel : nat) (h : cells bs_data) (n : loc) (stats : countStats) :
    outcome E countStats :=
  match fuel with
  | O => OutOfFuel
  | S fuel =>
      let! d := load h n in
      let stats := if tombstone (n_data d)
        then Stats (upsertKeys stats) (tombstonedKeys stats ++ [key (n_data d)])
        else Stats (upsertKeys stats ++ [key (n_data d)]) (tombstonedKeys stats) in
      let! stats := match n_left d with Some l => node_countStats fuel h l stats | None => Ok stats end in
      match n_right d with Some l => node_countStats fuel h l stats | None => Ok stats end
  end.

Definition bst_countStats {E} (t : binarySearchTree) : outcome E countStats :=
  match t_root t with
  | None => Ok (Stats [] [])
  | Some root => node_countStats (size (t_cells t)) (t_cells t) root (Stats [] [])
  end.

Definition hasUpsert (c : option countStats) (needle : list Z) : bool :=
  match c with
  | None => false
  | Some c => existsb (fun hay => bool_decide (needle = hay)) (upsertKeys c)
  end.

Definition hasTombstone (c : option countStats) (needle : list Z) : bool :=
  match c with
  | None => false
  | Some c => existsb (fun hay => bool_decide (needle = hay)) (tombstonedKeys c)
  end.

(** *** Specification: a finite map of entries *)

Notation store := (gmap (list Z) bs_data).

Inductive op : Type :=
| Insert (k v : list Z) (sk : list (list Z))
| SetTombstone (k v : list Z) (sk : list (list Z)).

(** What a write reports: the byte count (0 for a tombstone), the secondary keys
    replaced, and whether the key was live (tombstoned, for a tombstone). *)
Definition run_op {E} (t : binarySearchTree) (o : op) : outcome E (binarySearchTree * (Z * list (list Z) * bool)) :=
  match o with
  | Insert k v sk => bst_insert t k v sk
  | SetTombstone k v sk => let! (t, r) := bst_setTombstone t k v sk in Ok (t, (0, r.1, r.2))
  end.

Fixpoint run {E} (t : binarySearchTree) (ops : list op) : outcome E (binarySearchTree * list (Z * list (list Z) * bool)) :=
  match ops with
  | [] => Ok (t, [])
  | o :: ops =>
      let! (t, r) := run_op t o in
      let! (t, rs) := run t ops in
      Ok (t, r :: rs)
  end.

Definition spec_op (s : store) (o : op) : store :=
  match o with
  | Insert k v sk => <[k := BsData k v sk false]> s
  | SetTombstone k v sk => <[k := BsData k v sk true]> s
  end.

Definition spec_result (s : store) (o : op) : Z * list (list Z) * bool :=
  match o with
  | Insert k v sk =>
      match s !! k with
      | None => (blen k + blen v, [], false)
      | Some n => (Z.abs (blen (value n) - blen v), secondaryKeys n, negb (tombstone n))
      end
  | SetTombstone k v sk =>
      match s !! k with
      | None => (0, [], false)
      | Some n => (0, secondaryKeys n, tombstone n)
      end
  end.

Fixpoint spec_results (s : store) (ops : list op) : list (Z * list (list Z) * bool) :=
  match ops with
  | [] => []
  | o :: ops => spec_result s o :: spec_results (spec_op s o) ops
  end.

Definition spec_getNode (s : store) (k : list Z) : outcome get_error bs_data :=
  match s !! k with
  | None => Err NotFound
  | Some n => if tombstone n then Err (errorFromTombstonedValue (value n)) else Ok n
  end.

Lemma run_op_refines {E} t s o :
  refines key t s ->
  exists t', run_op (E := E) t o = Ok (t', spec_result s o) /\ refines key t' (spec_op s o).
Proof.
  intros H. destruct o as [k v sk|k v sk]; simpl.
  - destruct (insert_refines (E := E) key k (bst_insert_update k v sk) (BsData k v sk false)
      (blen k + blen v, [], false) t s) as (t' & Hr & Ht'); [done..|].
    exists t'. unfold bst_insert. rewrite Hr. destruct (s !! k) as [n|] eqn:Ek; [|done].
    apply (refines_key _ _ _ _ _ H) in Ek as Hk. simpl in *. rewrite Hk in Ht'. split; [|done].
    do 3 f_equal. destruct (Z.ltb_spec (blen (value n) - blen v) 0); f_equal; lia.
  - destruct (insert_refines (E := E) key k (bst_setTombstone_update v sk) (BsData k v sk true)
      ([], false) t s) as (t' & Hr & Ht'); [done..|].
    exists t'. unfold bst_setTombstone. rewrite Hr. destruct (s !! k) as [n|] eqn:Ek; [|done].
    apply (refines_key _ _ _ _ _ H) in Ek as Hk. simpl in *. by rewrite Hk in Ht'.
Qed.

Lemma run_refines {E} ops : forall t s,
  refines key t s ->
  exists t', run (E := E) t ops = Ok (t', spec_results s ops) /\ refines key t' (foldl spec_op s ops).
Proof.
  induction ops as [|o ops IH]; intros t s H; simpl; [by exists t|].
  destruct (run_op_refines (E := E) t s o H) as (t1 & -> & H1). cbn [obind].
  destruct (IH _ _ H1) as (t2 & -> & H2). by exists t2.
Qed.

Lemma getNode_refines t s k : refines key t s -> bst_getNode t k = spec_getNode s k.
Proof.
  intros H. destruct (find_refines (E := get_error) key k t s H) as (r & Hr & Hk).
  unfold bst_getNode, spec_getNode. rewrite Hr, <- Hk. cbn [obind].
  destruct r as [n|]; [simpl; by destruct (tombstone (n_data n))|done].
Qed.

(** Pre-order, the order of [countStats] *)
Fixpoint preorder (t : ltree bs_data) : list bs_data :=
  match t with Leaf => [] | Node _ _ x a b => x :: preorder a ++ preorder b end.

Lemma preorder_elements t x : x ∈ preorder t <-> x ∈ elements t.
Proof. induction t; simpl; set_solver. Qed.

Definition add_stats (stats : countStats) (l : list bs_data) : countStats :=
  Stats (upsertKeys stats ++ (key <$> filter (fun x => tombstone x = false) l))
        (tombstonedKeys stats ++ (key <$> filter (fun x => tombstone x = true) l)).

Lemma add_stats_app stats l1 l2 : add_stats stats (l1 ++ l2) = add_stats (add_stats stats l1) l2.
Proof. unfold add_stats. simpl. by rewrite !filter_app, !fmap_app, !app_assoc. Qed.

Lemma add_stats_nil stats : add_stats stats [] = stats.
Proof. destruct stats. unfold add_stats. simpl. by rewrite !app_nil_r. Qed.

Lemma node_countStats_spec {E} t : forall fuel h p n stats,
  repr h t p -> troot t = Some n -> (depth t <= fuel)%nat ->
  node_countStats (E := E) fuel h n stats = Ok (add_stats stats (preorder t)).
Proof.
  induction t as [|n c x a IHa b IHb]; [done|].
  intros [|fuel] h p n' stats (Hn & Hra & Hrb) [= <-] Hd; simpl in Hd; [lia|].
  cbn [node_countStats preorder]. rewrite (load_Ok _ _ _ Hn). cbn [obind n_data n_left n_right].
  set (stats1 := if tombstone x then _ else _).
  assert (stats1 = add_stats stats [x]) as ->.
  { unfold stats1, add_stats. rewrite !filter_cons, !filter_nil. destruct (tombstone x); simpl; by rewrite app_nil_r. }
  assert (forall st, match troot a with Some l => node_countStats fuel h l st | None => Ok st end
    = Ok (E := E) (add_stats st (preorder a)) /\
    match troot b with Some l => node_countStats fuel h l st | None => Ok st end
    = Ok (E := E) (add_stats st (preorder b))) as Hsub.
  { intros st. split.
    - destruct (troot a) as [l|] eqn:El; [eapply IHa; eauto; lia|].
      destruct a; [|done]. by rewrite add_stats_nil.
    - destruct (troot b) as [l|] eqn:El; [eapply IHb; eauto; lia|].
      destruct b; [|done]. by rewrite add_stats_nil. }
  rewrite (proj1 (Hsub _)). cbn [obind]. rewrite (proj2 (Hsub _)).
  change (x :: preorder a ++ preorder b) with ([x] ++ preorder a ++ preorder b).
  by rewrite !add_stats_app.
Qed.

Lemma countStats_refines {E} t s :
  refines key t s ->
  exists c, bst_countStats (E := E) t = Ok c /\
    forall k, (hasUpsert (Some c) k = true <-> exists n, s !! k = Some n /\ tombstone n = false) /\
              (hasTombstone (Some c) k = true <-> exists n, s !! k = Some n /\ tombstone n = true).
Proof.
  intros Href. assert (Hsub := Href). destruct Hsub as (l & (tr & Hf & Hroot & _ & _ & Hsort & Hel) & Hs).
  exists (add_stats (Stats [] []) (preorder tr)). split.
  - unfold bst_countStats. rewrite Hroot. destruct tr as [|n c x a b]; [done|].
    apply (node_countStats_spec (Node n c x a b) _ _ None); [apply Hf|done|].
    apply focus_size in Hf. pose proof (depth_locs (Node n c x a b)). simpl in *. lia.
  - assert (forall k b, existsb (fun hay => bool_decide (k = hay))
        (key <$> filter (fun x => tombstone x = b) (preorder tr)) = true
      <-> exists n, s !! k = Some n /\ tombstone n = b) as Hb; [|intros k; split; apply Hb].
    intros k b. rewrite existsb_exists. split.
    + intros (k' & Hin & ->%bool_decide_eq_true). apply list_elem_of_In, list_elem_of_fmap in Hin as (x & -> & Hx).
      apply list_elem_of_filter in Hx as [Hb Hx]. exists x. split; [|done].
      rewrite <- Hs. apply lookup_key_elem; [done|]. by rewrite <- Hel, <- preorder_elements.
    + intros (n & Hn & Hb). exists k. split; [|by apply bool_decide_eq_true].
      rewrite <- (refines_key _ _ _ _ _ Href Hn).
      apply list_elem_of_In, list_elem_of_fmap_2, list_elem_of_filter. split; [done|].
      rewrite preorder_elements, Hel. apply (lookup_key_elem key); [done|].
      by rewrite Hs, (refines_key _ _ _ _ _ Href Hn).
Qed.

Lemma fmap_selected min max ns :
  bst_shallowCopy <$> selected key min max ns
  = filter (fun x => in_range key min max x.1 = true) (bst_shallowCopy <$> ns).
Proof.
  unfold selected. induction ns as [|n ns IH]; [done|]. rewrite fmap_cons, !filter_cons.
  change (bst_shallowCopy n).1 with (n_data n). case_decide; [rewrite fmap_cons|]; by rewrite IH.
Qed.

(** C13: the memtable of strategy "replace" refines a finite map.  Any sequence of
    [insert]s and [setTombstone]s succeeds and reports, for each, the previous
    secondary keys and liveness of its key and the absolute change of the value's
    length; then lookups answer the newest entry of a key (the value, NotFound,
    or the error in the tombstone), the flattened tree lists every entry once in
    strictly increasing key order, and a range scan is the flattened tree
    restricted to the range. *)
Theorem replace_tree_refines (ops : list op) :
  let s := foldl spec_op ∅ ops in
  exists t flat,
    run (E := get_error) bst_empty ops = Ok (t, spec_results ∅ ops) /\
    (forall k, bst_getNode t k = spec_getNode s k /\
      bst_get t k = (let! n := spec_getNode s k in Ok (value n)) /\
      bst_exists t k = (let! _ := spec_getNode s k in Ok tt)) /\
    bst_flattenInOrder (E := get_error) t = Ok flat /\ sorted_keys key flat.*1 /\
    (forall x, x ∈ flat.*1 <-> s !! key x = Some x) /\
    forall min max, bst_flattenInOrderRange (E := get_error) t min max
      = Ok (filter (fun x => in_range key min max x.1 = true) flat).
Proof.
  intros s. destruct (run_refines (E := get_error) ops _ _ (empty_refines key)) as (t & Hrun & Href).
  destruct (flatten_refines (E := get_error) key bst_shallowCopy _ _ Href) as (ns & Hsort & Helem & Hflat & _ & Hrange).
  exists t, (bst_shallowCopy <$> ns).
  assert ((bst_shallowCopy <$> ns).*1 = n_data <$> ns) as Hfst by (by rewrite <- list_fmap_compose).
  rewrite Hfst. split_and!; auto.
  - intros k. unfold bst_get, bst_exists. by rewrite (getNode_refines _ _ _ Href).
  - intros min max. rewrite <- fmap_selected. apply Hrange.
Qed.

(** The counts a memtable keeps are exact: after any writes, [hasUpsert] holds
    of the keys whose newest write is an bst_insert and [hasTombstone] of those
    whose newest write is a tombstone. *)
Lemma count_stats_exact (ops : list op) :
  let s := foldl spec_op ∅ ops in
  exists t c, run (E := get_error) bst_empty ops = Ok (t, spec_results ∅ ops) /\
    bst_countStats (E := get_error) t = Ok c /\
    forall k, (hasUpsert (Some c) k = true <-> exists n, s !! k = Some n /\ tombstone n = false) /\
              (hasTombstone (Some c) k = true <-> exists n, s !! k = Some n /\ tombstone n = true).
Proof.
  intros s. destruct (run_refines (E := get_error) ops _ _ (empty_refines key)) as (t & Hrun & Href).
  destruct (countStats_refines (E := get_error) _ _ Href) as (c & Hc & Hk). eauto.
Qed.

(** The tree stays balanced: after any writes it is a red-black tree with a
    black root, parent pointers matching child pointers, and no path longer than
    twice the binary logarithm of the number of keys plus one. *)
Lemma replace_tree_balanced (ops : list op) :
  exists t tr m, run (E := get_error) bst_empty ops = Ok (t, spec_results ∅ ops) /\
    t_root t = troot tr /\ repr (t_cells t) tr None /\ is_rb false m tr /\
    (depth tr <= 2 * Nat.log2 (S (size (foldl spec_op ∅ ops))))%nat.
Proof.
  destruct (run_refines (E := get_error) ops _ _ (empty_refines key)) as (t & Hrun & Href).
  destruct (refines_balanced key _ _ Href) as (tr & m & (Hr & _) & Hroot & Hrb & Hd).
  exists t, tr, m. auto.
Qed.

(** An bst_insert that shortens a value reports a growth. *)
Lemma shrinking_insert_reports_growth :
  exists t r, run (E := get_error) bst_empty [Insert [1] [1; 2; 3] []; Insert [1] [] []] = Ok (t, r) /\
    r = [(4, [], false); (3, [], true)].
Proof. eexists _, _. by vm_compute. Qed.

End Replace.

(** ** Strategy "map" *)

Module Map.

(** strategies_map.go *)
Record MapPair : Type := Pair { Key : list Z; Value : list Z; Tombstone : bool }.

#[export] Instance MapPair_eq_dec : EqDecision MapPair.
Proof. solve_decision. Defined.

(** [sort.SliceStable] by [bytes.Compare] of the keys: of equal keys the earlier
    pair stays first. *)
Fixpoint stable_insert (p : MapPair) (l : list MapPair) : list MapPair :=
  match l with
  | [] => [p]
  | q :: r =>
      match bytes_compare (Key q) (Key p) with
      | Lt => q :: stable_insert p r
      | _ => p :: l
      end
  end.

Definition SliceStable (l : list MapPair) : list MapPair := foldr stable_insert [] l.

(** The loop [for inIndex, pair := range out], which writes to the slice it reads *)
Fixpoint dedup_loop {E} (turns : nat) (out : list MapPair) (inIndex outIndex : nat) :
    outcome E (list MapPair) :=
  match turns with
  | O => Ok (take outIndex out)
  | S turns =>
      match out !! inIndex with
      | None => Panic
      | Some cur =>
          let same_as_next :=
            match out !! S inIndex with Some next => bool_decide (Key next = Key cur) | None => false end in
          if same_as_next then dedup_loop turns out (S inIndex) outIndex
          else if decide (outIndex < length out)%nat
          then dedup_loop turns (<[outIndex := cur]> out) (S inIndex) (S outIndex)
          else Panic
      end
  end.

Definition sortAndDedupValues {E} (in_ : list MapPair) : outcome E (list MapPair) :=
  let out := SliceStable in_ in dedup_loop (length out) out 0 0.

(** The payload of a [binarySearchNodeMap] *)
Record map_data : Type := MapData { key : list Z; values : list MapPair }.

Definition binarySearchTreeMap : Type := bst map_data.

Definition map_insert_update (pair : MapPair) (n : map_data) : map_data * unit :=
  (MapData (key n) (values n ++ [pair]), tt).

Definition map_insert {E} (t : binarySearchTreeMap) (k : list Z) (pair : MapPair) : outcome E binarySearchTreeMap :=
  let! (t, _) := tree_insert key k (map_insert_update pair) (MapData k [pair]) tt t tt in Ok t.

Definition map_get (t : binarySearchTreeMap) (k : list Z) : outcome get_error (list MapPair) :=
  let! r := tree_find key k t in
  match r with
  | None => Err NotFound
  | Some n => sortAndDedupValues (values (n_data n))
  end.

(** [shallowCopy] sorts the values of the copy. *)
Definition map_shallowCopy {E} (n : rb_node map_data) : outcome E (map_data * bool) :=
  let! vs := sortAndDedupValues (values (n_data n)) in
  Ok (MapData (key (n_data n)) vs, n_red n).

Fixpoint sequence {E A} (l : list (outcome E A)) : outcome E (list A) :=
  match l with
  | [] => Ok []
  | x :: l => let! a := x in let! r := sequence l in Ok (a :: r)
  end.

Definition map_flattenInOrder {E} (t : binarySearchTreeMap) : outcome E (list (map_data * bool)) :=
  let! copies := flattenAll map_shallowCopy t in sequence copies.

Fixpoint map_insert_all {E} (t : binarySearchTreeMap) (ops : list (list Z * MapPair)) : outcome E binarySearchTreeMap :=
  match ops with
  | [] => Ok t
  | (k, p) :: ops => let! t := map_insert t k p in map_insert_all t ops
  end.

(** *** What deduplication means *)

Fixpoint dedup (l : list MapPair) : list MapPair :=
  match l with
  | [] => []
  | p :: r =>
      match r with
      | q :: _ => if decide (Key q = Key p) then dedup r else p :: dedup r
      | [] => [p]
      end
  end.

Definition same_key (k : list Z) (p : MapPair) : Prop := Key p = k.
#[export] Instance same_key_dec k p : Decision (same_key k p).
Proof. unfold same_key. apply _. Defined.

Definition sorted_le : list MapPair -> Prop :=
  StronglySorted (fun p q => bytes_compare (Key p) (Key q) <> Gt).

Lemma stable_insert_elem p l x : x ∈ stable_insert p l <-> x = p \/ x ∈ l.
Proof. induction l as [|q l IH]; simpl; [set_solver|]. destruct (bytes_compare _ _); set_solver. Qed.

Lemma stable_insert_filter p l k :
  sorted_le l ->
  filter (same_key k) (stable_insert p l) = filter (same_key k) (p :: l).
Proof.
  induction l as [|q l IH]; intros Hs; [done|]. cbn [stable_insert].
  destruct (bytes_compare (Key q) (Key p)) eqn:Ec; try done.
  inversion Hs; subst. rewrite filter_cons, IH, !filter_cons by done.
  unfold same_key. destruct (decide (Key q = k)), (decide (Key p = k)); try done.
  subst. apply before_ne in Ec. congruence.
Qed.

Lemma compare_le_trans a b c :
  bytes_compare a b <> Gt -> bytes_compare b c <> Gt -> bytes_compare a c <> Gt.
Proof.
  intros Hab Hbc. destruct (bytes_compare a b) eqn:E1; [apply bytes_compare_eq in E1 as ->; done| |done].
  destruct (bytes_compare b c) eqn:E2; [apply bytes_compare_eq in E2 as ->; by rewrite E1| |done].
  by rewrite (bytes_compare_trans a b c).
Qed.

Lemma stable_insert_sorted p l : sorted_le l -> sorted_le (stable_insert p l).
Proof.
  induction l as [|q l IH]; intros Hs; simpl; [repeat constructor|].
  inversion Hs as [|? ? Hs' Hq]; subst. rewrite Forall_forall in Hq.
  destruct (bytes_compare (Key q) (Key p)) eqn:Ec.
  1,3: constructor; [done|]; apply Forall_forall; intros x Hx;
    assert (bytes_compare (Key p) (Key q) <> Gt) by (rewrite bytes_compare_antisym, Ec; done);
    apply elem_of_cons in Hx as [->|Hx]; [done|]; eapply compare_le_trans; [done|auto].
  constructor; [by apply IH|]. apply Forall_forall. intros x [->|Hx]%stable_insert_elem; [by rewrite Ec|auto].
Qed.

(** The sort orders the keys and keeps the order of the pairs of each key. *)
Lemma SliceStable_spec l : sorted_le (SliceStable l) /\ forall k, filter (same_key k) (SliceStable l) = filter (same_key k) l.
Proof.
  induction l as [|p l [IHs IHf]]; [split; [constructor|done]|]. simpl. split; [by apply stable_insert_sorted|].
  intros k. rewrite stable_insert_filter, !filter_cons by done. by rewrite IHf.
Qed.

(** The loop overwrites a prefix it has read, and computes [dedup] of the rest. *)
Lemma dedup_loop_spec {E} rest : forall done junk,
  dedup_loop (E := E) (length rest) (done ++ junk ++ rest) (length done + length junk) (length done)
  = Ok (done ++ dedup rest).
Proof.
  induction rest as [|p rest IH]; intros done junk.
  { simpl. by rewrite app_nil_r, take_app_length, app_nil_r. }
  cbn [length dedup_loop].
  assert ((done ++ junk ++ p :: rest) !! (length done + length junk)%nat = Some p) as ->.
  { rewrite app_assoc, <- length_app. by apply list_lookup_middle. }
  assert ((done ++ junk ++ p :: rest) !! S (length done + length junk)%nat = head rest) as ->.
  { rewrite app_assoc, <- length_app, lookup_app_r by lia.
    replace (S (length (done ++ junk)) - length (done ++ junk))%nat with 1%nat by lia. by destruct rest. }
  assert (dedup (p :: rest) = if match head rest with Some q => bool_decide (Key q = Key p) | None => false end
    then dedup rest else p :: dedup rest) as ->.
  { destruct rest as [|q rest]; [done|]. cbn [dedup head].
    destruct (decide (Key q = Key p)); [by rewrite bool_decide_true|by rewrite bool_decide_false]. }
  destruct (match head rest with Some q => _ | None => false end).
  - rewrite <- (IH done (junk ++ [p])). rewrite length_app, <- !app_assoc. simpl. f_equal; lia.
  - rewrite decide_True by (rewrite !length_app; simpl; lia).
    rewrite insert_app_r_alt, Nat.sub_diag by lia.
    change (done ++ p :: dedup rest) with (done ++ [p] ++ dedup rest). rewrite app_assoc.
    destruct junk as [|j junk]; simpl.
    + rewrite <- (IH (done ++ [p]) []). rewrite length_app, <- !app_assoc. simpl. f_equal; lia.
    + rewrite <- (IH (done ++ [p]) (junk ++ [p])). rewrite !length_app, <- !app_assoc. simpl. f_equal; lia.
Qed.

Lemma dedup_elem l x : x ∈ dedup l -> x ∈ l.
Proof.
  induction l as [|p l IH]; simpl; [done|]. destruct l as [|q l]; [done|]. case_decide; set_solver.
Qed.

Lemma sorted_le_strict p q l x :
  sorted_le (p :: q :: l) -> Key q <> Key p -> x ∈ q :: l -> before (Key p) (Key x).
Proof.
  intros Hs Hk Hx. inversion Hs as [|? ? Hs' Hp]; subst. inversion Hs' as [|? ? _ Hq]; subst.
  rewrite Forall_forall in Hp, Hq.
  assert (before (Key p) (Key q)) as Hpq.
  { specialize (Hp q (list_elem_of_here _ _)). unfold before.
    destruct (bytes_compare (Key p) (Key q)) eqn:E; [apply bytes_compare_eq in E; congruence|done|done]. }
  apply elem_of_cons in Hx as [->|Hx]; [done|]. specialize (Hq x Hx). unfold before in *.
  destruct (bytes_compare (Key q) (Key x)) eqn:E; [apply bytes_compare_eq in E as <-; done| |done].
  by eapply bytes_compare_trans.
Qed.

(** On a sorted list [dedup] is strictly sorted and keeps the last pair of a key. *)
Lemma dedup_sorted l : sorted_le l -> sorted_keys Key (dedup l).
Proof.
  induction l as [|p l IH]; intros Hs; simpl; [constructor|]. assert (sorted_le l) by (by inversion Hs).
  destruct l as [|q l]; [repeat constructor|]. case_decide as Hk; [auto|].
  apply sorted_keys_cons. split; [auto|]. intros x Hx%dedup_elem. by eapply sorted_le_strict.
Qed.

Lemma dedup_lookup l k : sorted_le l -> lookup_key Key k (dedup l) = last (filter (same_key k) l).
Proof.
  induction l as [|p l IH]; intros Hs; [done|]. assert (sorted_le l) as Hs' by (by inversion Hs).
  rewrite filter_cons. cbn [dedup]. destruct l as [|q l].
  { unfold lookup_key, same_key. simpl. by case_decide; [rewrite bool_decide_true|rewrite bool_decide_false]. }
  destruct (decide (Key q = Key p)) as [Hqp|Hqp].
  - rewrite IH by done. destruct (decide (same_key k p)) as [Hk|]; [|done].
    rewrite filter_cons, decide_True by (unfold same_key in *; congruence). done.
  - destruct (decide (same_key k p)) as [Hk|Hk]; unfold same_key in Hk.
    + subst k. rewrite filter_none.
      2:{ intros x Hx Heq. by apply (sorted_le_strict p q l x Hs Hqp), before_ne in Hx. }
      unfold lookup_key. simpl. by rewrite bool_decide_true.
    + unfold lookup_key. simpl. rewrite bool_decide_false by done. by apply IH.
Qed.

Lemma sortAndDedup_spec {E} l :
  exists out, sortAndDedupValues (E := E) l = Ok out /\ sorted_keys Key out /\
    forall k, lookup_key Key k out = last (filter (same_key k) l).
Proof.
  destruct (SliceStable_spec l) as [Hs Hf]. exists (dedup (SliceStable l)). split_and!.
  - apply (dedup_loop_spec (E := E) (SliceStable l) [] []).
  - by apply dedup_sorted.
  - intros k. by rewrite dedup_lookup, Hf.
Qed.

(** The pairs written under [k], oldest first *)
Definition map_writes (k : list Z) (ops : list (list Z * MapPair)) : list MapPair :=
  snd <$> filter (fun o => o.1 = k) ops.

Definition map_spec_insert (s : gmap (list Z) map_data) (o : list Z * MapPair) : gmap (list Z) map_data :=
  <[o.1 := MapData o.1 (match s !! o.1 with Some n => values n | None => [] end ++ [o.2])]> s.

Lemma map_insert_all_refines {E} ops : forall t s,
  refines key t s ->
  exists t', map_insert_all (E := E) t ops = Ok t' /\ refines key t' (foldl map_spec_insert s ops).
Proof.
  induction ops as [|[k p] ops IH]; intros t s H; simpl; [by exists t|].
  destruct (insert_refines (E := E) key k (map_insert_update p) (MapData k [p]) tt t s) as (t1 & Hr & H1); [done..|].
  unfold map_insert at 1. rewrite Hr. cbn [obind]. apply IH. unfold map_spec_insert. simpl.
  destruct (s !! k) as [n|] eqn:Ek; [|done]. simpl in H1. by rewrite (refines_key _ _ _ _ _ H Ek) in H1.
Qed.

Lemma map_spec_writes ops : forall s k,
  values <$> foldl map_spec_insert s ops !! k =
  match map_writes k ops with
  | [] => values <$> s !! k
  | ws => Some (match s !! k with Some n => values n | None => [] end ++ ws)
  end.
Proof.
  induction ops as [|[k' p] ops IH]; intros s k; [done|]. cbn [foldl]. rewrite IH. unfold map_writes.
  rewrite filter_cons. unfold map_spec_insert. simpl. destruct (decide (k' = k)) as [->|Hne].
  - rewrite lookup_insert_eq. simpl. destruct (filter _ ops) as [|o os]; simpl; [done|]. by rewrite <- app_assoc.
  - by rewrite lookup_insert_ne.
Qed.

Lemma sequence_copies {E} ns :
  exists flat, sequence (map_shallowCopy <$> ns) = Ok (E := E) flat /\
    key <$> flat.*1 = (fun n => key (n_data n)) <$> ns /\
    forall x, x ∈ flat.*1 ->
      exists n, n ∈ ns /\ key x = key (n_data n) /\
        forall F, sortAndDedupValues (E := F) (values (n_data n)) = Ok (values x).
Proof.
  induction ns as [|n ns (flat & Hseq & Hkeys & Hx)]; [exists []; by repeat split; try set_solver|].
  assert (forall F, sortAndDedupValues (E := F) (values (n_data n)) = Ok (dedup (SliceStable (values (n_data n)))))
    as Hsd by (intros F; apply (dedup_loop_spec (E := F) _ [] [])).
  eexists ((MapData (key (n_data n)) _, n_red n) :: flat). split_and!.
  - rewrite fmap_cons. cbn [sequence]. unfold map_shallowCopy at 1. rewrite Hsd. cbn [obind].
    rewrite Hseq. reflexivity.
  - by rewrite !fmap_cons, Hkeys.
  - simpl. intros x [->|(n' & Hn' & Heq)%Hx]%elem_of_cons.
    + exists n. split_and!; [apply list_elem_of_here|done|exact Hsd].
    + exists n'. split; [by apply list_elem_of_further|done].
Qed.

(** The memtable of strategy "map".  Any sequence of [insert]s succeeds; then
    [get] of a key that was never written is NotFound, and of a key that was
    written it is the pairs in strictly increasing order of their map keys, in
    which each map key has the last pair written for it. *)
Lemma map_tree_last_wins (ops : list (list Z * MapPair)) :
  exists t, map_insert_all (E := get_error) bst_empty ops = Ok t /\
    forall k, match map_writes k ops with
      | [] => map_get t k = Err NotFound
      | ws => exists out, map_get t k = Ok out /\ sorted_keys Key out /\
          forall mk, lookup_key Key mk out = last (filter (same_key mk) ws)
      end.
Proof.
  destruct (map_insert_all_refines (E := get_error) ops _ _ (empty_refines key)) as (t & Hrun & Href).
  exists t. split; [done|]. intros k. assert (Hw := map_spec_writes ops ∅ k). rewrite lookup_empty in Hw.
  destruct (find_refines (E := get_error) key k t _ Href) as (r & Hr & Hk). unfold map_get. rewrite Hr. cbn [obind].
  rewrite <- Hk in Hw. destruct r as [n|], (map_writes k ops) as [|w ws]; try done.
  simpl in Hw. injection Hw as Hw. rewrite Hw. apply sortAndDedup_spec.
Qed.

(** Flattening the memtable of strategy "map" lists every written key once, in
    strictly increasing order, with the pairs [get] answers for it. *)
Lemma map_tree_flatten (ops : list (list Z * MapPair)) :
  exists t flat, map_insert_all (E := get_error) bst_empty ops = Ok t /\
    map_flattenInOrder (E := get_error) t = Ok flat /\ sorted_keys key flat.*1 /\
    (forall x, x ∈ flat.*1 -> map_get t (key x) = Ok (values x)) /\
    forall k, k ∈ key <$> flat.*1 <-> map_writes k ops <> [].
Proof.
  destruct (map_insert_all_refines (E := get_error) ops _ _ (empty_refines key)) as (t & Hrun & Href).
  destruct (flatten_refines (E := get_error) key (map_shallowCopy (E := get_error)) _ _ Href) as (ns & Hsort & Helem & _ & Hflat & _).
  destruct (sequence_copies (E := get_error) ns) as (flat & Hseq & Hkeys & Hx).
  exists t, flat. split_and!; auto.
  - unfold map_flattenInOrder. rewrite Hflat. exact Hseq.
  - apply sorted_keys_fmap. apply sorted_keys_fmap in Hsort. by rewrite Hkeys, (list_fmap_compose n_data key).
  - intros x (n & Hn & Hk & Hv)%Hx. apply (list_elem_of_fmap_2 n_data), Helem in Hn.
    destruct (find_refines (E := get_error) key (key x) t _ Href) as (r & Hr & Hrk).
    unfold map_get. rewrite Hr. cbn [obind]. rewrite Hk, Hn in Hrk. destruct r as [n'|]; [|done].
    injection Hrk as ->. apply Hv.
  - intros k. rewrite Hkeys. rewrite (list_fmap_compose n_data key). assert (Hw := map_spec_writes ops ∅ k).
    rewrite lookup_empty in Hw. split.
    + intros (x & -> & Hin)%list_elem_of_fmap Hnil. apply Helem in Hin. by rewrite Hin, Hnil in Hw.
    + intros Hne. destruct (foldl map_spec_insert ∅ ops !! k) as [x|] eqn:Ex; [|by destruct (map_writes k ops)].
      rewrite <- (refines_key _ _ _ _ _ Href Ex). apply list_elem_of_fmap_2, Helem.
      by rewrite (refines_key _ _ _ _ _ Href Ex).
Qed.

End Map.

(** ** Strategy "set" *)

Module Multi.

Record value : Type := Val { v_value : list Z; v_tombstone : bool }.

(** The payload of a [binarySearchNodeMulti] *)
Record multi_data : Type := MultiData { key : list Z; values : list value }.

Definition binarySearchTreeMulti : Type := bst multi_data.

Definition multi_insert_update (vs : list value) (n : multi_data) : multi_data * unit :=
  (MultiData (key n) (values n ++ vs), tt).

Definition multi_insert {E} (t : binarySearchTreeMulti) (k : list Z) (vs : list value) : outcome E binarySearchTreeMulti :=
  let! (t, _) := tree_insert key k (multi_insert_update vs) (MultiData k vs) tt t tt in Ok t.

Definition multi_get (t : binarySearchTreeMulti) (k : list Z) : outcome get_error (list value) :=
  let! r := tree_find key k t in
  match r with
  | None => Err NotFound
  | Some n => Ok (values (n_data n))
  end.

(** The copied list of values is equal to the original. *)
Definition multi_shallowCopy (n : rb_node multi_data) : multi_data * bool := (n_data n, n_red n).

Definition multi_flattenInOrder {E} (t : binarySearchTreeMulti) : outcome E (list (multi_data * bool)) :=
  flattenAll multi_shallowCopy t.

Fixpoint multi_insert_all {E} (t : binarySearchTreeMulti) (ops : list (list Z * list value)) : outcome E binarySearchTreeMulti :=
  match ops with
  | [] => Ok t
  | (k, vs) :: ops => let! t := multi_insert t k vs in multi_insert_all t ops
  end.

(** *** Specification: a key has the values of its writes, in their order *)

Definition multi_spec_insert (s : gmap (list Z) multi_data) (o : list Z * list value) : gmap (list Z) multi_data :=
  <[o.1 := MultiData o.1 (match s !! o.1 with Some n => values n | None => [] end ++ o.2)]> s.

Lemma multi_insert_all_refines {E} ops : forall t s,
  refines key t s ->
  exists t', multi_insert_all (E := E) t ops = Ok t' /\ refines key t' (foldl multi_spec_insert s ops).
Proof.
  induction ops as [|[k vs] ops IH]; intros t s H; simpl; [by exists t|].
  destruct (insert_refines (E := E) key k (multi_insert_update vs) (MultiData k vs) tt t s) as (t1 & Hr & H1); [done..|].
  unfold multi_insert at 1. rewrite Hr. cbn [obind]. apply IH. unfold multi_spec_insert. simpl.
  destruct (s !! k) as [n|] eqn:Ek; [|done]. simpl in H1. by rewrite (refines_key _ _ _ _ _ H Ek) in H1.
Qed.

Definition multi_writes (k : list Z) (ops : list (list Z * list value)) : list (list value) :=
  snd <$> filter (fun o => o.1 = k) ops.

Lemma multi_spec_writes ops : forall s k,
  values <$> foldl multi_spec_insert s ops !! k =
  match multi_writes k ops with
  | [] => values <$> s !! k
  | ws => Some (match s !! k with Some n => values n | None => [] end ++ concat ws)
  end.
Proof.
  induction ops as [|[k' p] ops IH]; intros s k; [done|]. cbn [foldl]. rewrite IH. unfold multi_writes.
  rewrite filter_cons. unfold multi_spec_insert. simpl. destruct (decide (k' = k)) as [->|Hne].
  - rewrite lookup_insert_eq. simpl. destruct (filter _ ops) as [|o os]; simpl; [by rewrite app_nil_r|].
    by rewrite <- app_assoc.
  - by rewrite lookup_insert_ne.
Qed.

(** The memtable of strategy "set".  Any sequence of [insert]s succeeds; then
    [get] answers, for a written key, the values of all its writes in the order
    they came, tombstones included, and NotFound for any other; the flattened
    tree has the written keys once each in strictly increasing order, with these
    values. *)
Lemma multi_tree_appends (ops : list (list Z * list value)) :
  exists t flat, multi_insert_all (E := get_error) bst_empty ops = Ok t /\
    (forall k, multi_get t k = match multi_writes k ops with [] => Err NotFound | ws => Ok (concat ws) end) /\
    multi_flattenInOrder (E := get_error) t = Ok flat /\ sorted_keys key flat.*1 /\
    forall x, x ∈ flat.*1 <-> multi_get t (key x) = Ok (values x).
Proof.
  destruct (multi_insert_all_refines (E := get_error) ops _ _ (empty_refines key)) as (t & Hrun & Href).
  destruct (flatten_refines (E := get_error) key multi_shallowCopy _ _ Href) as (ns & Hsort & Helem & _ & Hflat & _).
  assert (Hget : forall k, multi_get t k = match foldl multi_spec_insert ∅ ops !! k with None => Err NotFound | Some n => Ok (values n) end).
  { intros k. destruct (find_refines (E := get_error) key k t _ Href) as (r & Hr & Hk).
    unfold multi_get. rewrite Hr, <- Hk. by destruct r. }
  exists t, (multi_shallowCopy <$> ns).
  assert ((multi_shallowCopy <$> ns).*1 = n_data <$> ns) as -> by (by rewrite <- list_fmap_compose).
  split_and!; auto.
  - intros k. rewrite Hget. assert (Hw := multi_spec_writes ops ∅ k). rewrite lookup_empty in Hw.
    destruct (foldl multi_spec_insert ∅ ops !! k), (multi_writes k ops); try done. simpl in *. congruence.
  - intros x. rewrite Helem, Hget. destruct (foldl multi_spec_insert ∅ ops !! key x) as [y|] eqn:Ey; [|done].
    apply (refines_key _ _ _ _ _ Href) in Ey as Hy. destruct x, y; simpl in *; subst.
    split; by intros [= ->].
Qed.

End Multi.
