(* ===== verification/RoaringTree.v ===== *)
(** * The memtable tree of strategy "roaring set"

    [roaringset/binary_search_tree.go] and [binary_search_tree_cursor.go]: a tree
    of bitmap layers that counts its keys and bytes, and the cursor over a copy
    of it.  A layer read from the tree stands for the writes of its key applied
    in order, whatever lies below it. *)

From stdpp Require Import sorting.
From S2P Require Import Prelude Sroar RoaringSet RBTree SearchTree.

(** The calls of sroar that only this tree makes: [Remove] (on a nil bitmap it
    does nothing), [Compacted] and [LenInBytes], with their documented effect. *)
Class SroarTree (B : Type) `{Sroar B} : Type := {
  bm_remove : B -> Z -> B;
  bm_compacted : B -> B;
  bm_lenInBytes : B -> Z
}.

Class SroarTreeLaws (B : Type) `{SroarTree B} : Prop := {
  elems_remove b z : bm_elems (bm_remove b z) = bm_elems b ∖ {[z]};
  elems_compacted b : bm_elems (bm_compacted b) = bm_elems b;
  lenInBytes_nonneg b : 0 <= bm_lenInBytes b
}.

(** A lookup has one error, [lsmkv.NotFound]. *)
Inductive rs_error : Type := NotFound.

Section tree.
Context {B : Type} `{SroarLaws B} `{!SroarTree B} `{!SroarTreeLaws B}.

(** The sizes of the structs [BinarySearchNode] and [sroar.Bitmap] *)
Context (nodeFixedSizeInBytes bitmapFixedSizeInBytes : Z).

Record rs_data : Type := RsData { Key : list Z; Value : BitmapLayer B }.

Record Insert : Type := Write { w_Additions : list Z; w_Deletions : list Z }.

Record BinarySearchTree : Type := RsTree { rs_tree : bst rs_data; count : Z; sizeInBytes : Z }.

Definition empty_tree : BinarySearchTree := RsTree bst_empty 0 0.

Definition bitmapSizeInBytes (bm : option B) : Z :=
  match bm with None => 0 | Some b => bitmapFixedSizeInBytes + bm_lenInBytes b end.

Definition bitmapsSizeInBytes (n : rs_data) : Z :=
  bitmapSizeInBytes (Additions (Value n)) + bitmapSizeInBytes (Deletions (Value n)).

Definition node_sizeInBytes (n : rs_data) : Z :=
  nodeFixedSizeInBytes + Z.of_nat (length (Key n)) + bitmapsSizeInBytes n.

(** [newBinarySearchNode], without the parent and colour the tree gives *)
Definition newBinarySearchNode (key : list Z) (values : Insert) : rs_data :=
  let additions := match w_Additions values with [] => None | xs => Some (NewBitmap xs) end in
  match w_Deletions values with
  | [] => RsData key (Layer additions None)
  | xs =>
      let deletions := NewBitmap xs in
      RsData key (Layer (match additions with Some a => Some (bm_andnot a (Some deletions)) | None => None end)
                        (Some deletions))
  end.

(** One turn of each loop of [insert] on an equal key.  The receiver of [Set] is
    not nil: it is allocated before the first turn. *)
Definition add_one (sides : B * option B) (x : Z) : B * option B :=
  let (additions, deletions) := sides in
  let deletions := match deletions with Some d => Some (bm_remove d x) | None => None end in
  (bm_set additions x, deletions).

Definition delete_one (sides : option B * B) (x : Z) : option B * B :=
  let (additions, deletions) := sides in
  let additions := match additions with Some a => Some (bm_remove a x) | None => None end in
  (additions, bm_set deletions x).

Definition merge_additions (l : BitmapLayer B) (xs : list Z) : BitmapLayer B :=
  match xs with
  | [] => l
  | _ =>
      let a := match Additions l with None => NewBitmap [] | Some a => a end in
      let (a, d) := foldl add_one (a, Deletions l) xs in Layer (Some a) d
  end.

Definition merge_deletions (l : BitmapLayer B) (xs : list Z) : BitmapLayer B :=
  match xs with
  | [] => l
  | _ =>
      let d := match Deletions l with None => NewBitmap [] | Some d => d end in
      let (a, d) := foldl delete_one (Additions l, d) xs in Layer a (Some d)
  end.

(** [insert] on an equal key: the merged node, the growth and [created] *)
Definition rs_insert_update (values : Insert) (n : rs_data) : rs_data * (Z * bool) :=
  let sizeBefore := node_sizeInBytes n in
  let n := RsData (Key n) (merge_additions (Value n) (w_Additions values)) in
  let n := RsData (Key n) (merge_deletions (Value n) (w_Deletions values)) in
  (n, (node_sizeInBytes n - sizeBefore, false)).

Definition rs_Insert {E} (t : BinarySearchTree) (key : list Z) (values : Insert) : outcome E BinarySearchTree :=
  if decide (w_Additions values = [] /\ w_Deletions values = []) then Ok t
  else
    let new := newBinarySearchNode key values in
    let created := (node_sizeInBytes new, true) in
    let! (t', r) := tree_insert Key key (rs_insert_update values) new created (rs_tree t) created in
    match t_root (rs_tree t) with
    | None => Ok (RsTree t' 1 (node_sizeInBytes new))
    | Some _ =>
        let (grownBy, created) := r in
        Ok (RsTree t' (if created : bool then count t + 1 else count t) (sizeInBytes t + Z.max grownBy 0))
    end.

Definition rs_SizeInBytes (t : BinarySearchTree) : Z := u64 (sizeInBytes t).

Definition rs_Count (t : BinarySearchTree) : Z := count t.

Definition rs_Get (t : BinarySearchTree) (key : list Z) : outcome rs_error (BitmapLayer B) :=
  let! r := tree_find Key key (rs_tree t) in
  match r with
  | None => Err NotFound
  | Some n => Ok (Clone (Value (n_data n)))
  end.

(** layers.go *)
Definition layer_Compacted (l : BitmapLayer B) : BitmapLayer B :=
  Layer (match Additions l with Some a => Some (bm_compacted a) | None => None end)
        (match Deletions l with Some d => Some (bm_compacted d) | None => None end).

Definition rs_shallowCopy (n : rb_node rs_data) : rs_data := RsData (Key (n_data n)) (layer_Compacted (Value (n_data n))).

(** [flattenInOrder] of a node: left, copy, right *)
Fixpoint node_flatten {E} (fuel : nat) (h : cells rs_data) (n : loc) : outcome E (list rs_data) :=
  match fuel with
  | O => OutOfFuel
  | S fuel =>
      let! d := load h n in
      let! left_ := match n_left d with Some l => node_flatten fuel h l | None => Ok [] end in
      let! right_ := match n_right d with Some l => node_flatten fuel h l | None => Ok [] end in
      Ok (left_ ++ rs_shallowCopy d :: right_)
  end.

Definition FlattenInOrder {E} (t : BinarySearchTree) : outcome E (list rs_data) :=
  match t_root (rs_tree t) with
  | None => Ok []
  | Some root => node_flatten (size (t_cells (rs_tree t))) (t_cells (rs_tree t)) root
  end.

(** ** The cursor *)

Record BinarySearchTreeCursor : Type := Cursor { nodes : list rs_data; nextNodePos : Z }.

Definition NewBinarySearchTreeCursor {E} (t : BinarySearchTree) : outcome E BinarySearchTreeCursor :=
  let! ns := FlattenInOrder t in Ok (Cursor ns 0).

(** The end of the nodes is a nil key, an empty layer and no error. *)
Definition rs_Next {E} (c : BinarySearchTreeCursor) : outcome E (option rs_data * BinarySearchTreeCursor) :=
  if Z.of_nat (length (nodes c)) <=? nextNodePos c then Ok (None, c)
  else
    match nodes c !! Z.to_nat (nextNodePos c) with
    | Some n => Ok (Some n, Cursor (nodes c) (nextNodePos c + 1))
    | None => Panic
    end.

Definition rs_First {E} (c : BinarySearchTreeCursor) : outcome E (option rs_data * BinarySearchTreeCursor) :=
  rs_Next (Cursor (nodes c) 0).

(** The loop from the last node down; [i] nodes are left *)
Fixpoint seek_loop (key : list Z) (ns : list rs_data) (i : nat) (pos : Z) : Z :=
  match i with
  | O => pos
  | S i =>
      match ns !! i with
      | None => pos
      | Some n =>
          match bytes_compare key (Key n) with
          | Gt => pos
          | Eq => Z.of_nat i
          | Lt => seek_loop key ns i (Z.of_nat i)
          end
      end
  end.

Definition posKeyGreaterThanEqual (c : BinarySearchTreeCursor) (key : list Z) : Z :=
  seek_loop key (nodes c) (length (nodes c)) (-1).

Definition rs_Seek (c : BinarySearchTreeCursor) (key : list Z) :
    outcome rs_error (option rs_data * BinarySearchTreeCursor) :=
  let pos := posKeyGreaterThanEqual c key in
  if pos =? -1 then Err NotFound else rs_Next (Cursor (nodes c) pos).

(** ** What a layer stands for *)

(** A write adds its additions, then removes its deletions. *)
Definition apply_write (s : gset Z) (w : Insert) : gset Z :=
  (s ∪ list_to_set (w_Additions w)) ∖ list_to_set (w_Deletions w).

(** The layer read over any content below it is the writes applied to that
    content; its sides are disjoint and one of them is allocated. *)
Definition layer_means (l : BitmapLayer B) (ws : list Insert) : Prop :=
  (forall base, apply_layer base l = foldl apply_write base ws) /\
  layer_wf l /\ (Additions l <> None \/ Deletions l <> None).

Lemma foldl_add_one xs : forall a d,
  let sides := foldl add_one (a, d) xs in
  bm_elems sides.1 = bm_elems a ∪ list_to_set xs /\ oelems sides.2 = oelems d ∖ list_to_set xs.
Proof.
  induction xs as [|x xs IH]; intros a d; simpl; [set_solver|].
  destruct (IH (bm_set a x) (match d with Some d => Some (bm_remove d x) | None => None end)) as [H1 H2].
  rewrite H1, H2, elems_set. split; [set_solver|].
  destruct d; simpl; rewrite ?elems_remove; set_solver.
Qed.

Lemma foldl_delete_one xs : forall a d,
  let sides := foldl delete_one (a, d) xs in
  bm_elems sides.2 = bm_elems d ∪ list_to_set xs /\ oelems sides.1 = oelems a ∖ list_to_set xs.
Proof.
  induction xs as [|x xs IH]; intros a d; simpl; [set_solver|].
  destruct (IH (match a with Some a => Some (bm_remove a x) | None => None end) (bm_set d x)) as [H1 H2].
  rewrite H1, H2, elems_set. split; [set_solver|].
  destruct a; simpl; rewrite ?elems_remove; set_solver.
Qed.

Lemma merge_additions_spec l xs :
  adds (merge_additions l xs) = adds l ∪ list_to_set xs /\
  dels (merge_additions l xs) = dels l ∖ list_to_set xs /\
  (Additions l <> None \/ xs <> [] -> Additions (merge_additions l xs) <> None).
Proof.
  unfold merge_additions, adds, dels. destruct xs as [|x xs].
  { split_and!; [set_solver..|]. by intros []. }
  set (a0 := match Additions l with None => _ | Some a => a end).
  assert (bm_elems a0 = oelems (Additions l)) as Ha0
    by (subst a0; destruct (Additions l); unfold NewBitmap; rewrite ?elems_setmany, ?elems_new; set_solver).
  destruct (foldl_add_one (x :: xs) a0 (Deletions l)) as [H1 H2].
  destruct (foldl add_one (a0, Deletions l) (x :: xs)) as [a d]. simpl in *. rewrite H1, H2, Ha0. done.
Qed.

Lemma merge_deletions_spec l xs :
  adds (merge_deletions l xs) = adds l ∖ list_to_set xs /\
  dels (merge_deletions l xs) = dels l ∪ list_to_set xs /\
  (Deletions l <> None \/ xs <> [] -> Deletions (merge_deletions l xs) <> None) /\
  (Additions l <> None -> Additions (merge_deletions l xs) <> None).
Proof.
  unfold merge_deletions, adds, dels. destruct xs as [|x xs].
  { split_and!; [set_solver..| |done]. by intros []. }
  set (d0 := match Deletions l with None => _ | Some a => a end).
  assert (bm_elems d0 = oelems (Deletions l)) as Hd0
    by (subst d0; destruct (Deletions l); unfold NewBitmap; rewrite ?elems_setmany, ?elems_new; set_solver).
  destruct (foldl_delete_one (x :: xs) (Additions l) d0) as [H1 H2].
  assert (Additions l <> None -> (foldl delete_one (Additions l, d0) (x :: xs)).1 <> None) as H3.
  { generalize (Additions l) d0. clear. generalize (x :: xs).
    induction l as [|y ys IH]; intros [a|] d; simpl; try done. intros _. by apply IH. }
  destruct (foldl delete_one (Additions l, d0) (x :: xs)) as [a d]. simpl in *. rewrite H1, H2, Hd0. done.
Qed.

Lemma new_layer_of key w :
  w_Additions w <> [] \/ w_Deletions w <> [] -> layer_means (Value (newBinarySearchNode key w)) [w].
Proof.
  intros Hne.
  assert (adds (Value (newBinarySearchNode key w)) = list_to_set (w_Additions w) ∖ list_to_set (w_Deletions w)) as Ha.
  { unfold newBinarySearchNode, adds, NewBitmap. destruct (w_Additions w), (w_Deletions w); simpl;
      rewrite ?elems_andnot; simpl; rewrite ?elems_setmany, ?elems_set, ?elems_new; set_solver. }
  assert (dels (Value (newBinarySearchNode key w)) = list_to_set (w_Deletions w)) as Hd.
  { unfold newBinarySearchNode, dels, NewBitmap. destruct (w_Additions w), (w_Deletions w); simpl;
      rewrite ?elems_setmany, ?elems_set, ?elems_new; set_solver. }
  split_and!.
  - intros base. unfold apply_layer. rewrite Ha, Hd. unfold apply_write. simpl. set_solver.
  - unfold layer_wf. rewrite Ha, Hd. set_solver.
  - unfold newBinarySearchNode. destruct (w_Additions w), (w_Deletions w); simpl; naive_solver.
Qed.

Lemma update_layer_of w n ws :
  layer_means (Value n) ws -> layer_means (Value (rs_insert_update w n).1) (ws ++ [w]).
Proof.
  intros (Hbase & Hwf & Hne). unfold rs_insert_update. simpl.
  destruct (merge_additions_spec (Value n) (w_Additions w)) as (Ha1 & Hd1 & Hn1).
  set (l1 := merge_additions (Value n) (w_Additions w)) in *.
  destruct (merge_deletions_spec l1 (w_Deletions w)) as (Ha2 & Hd2 & Hn2 & Hn3).
  set (l2 := merge_deletions l1 (w_Deletions w)) in *. split_and!.
  - intros base. rewrite foldl_app, <- Hbase. simpl. unfold apply_layer, apply_write.
    rewrite Ha2, Hd2, Ha1, Hd1. apply set_eq. intros x.
    destruct (decide (x ∈ (list_to_set (w_Additions w) : gset Z))); set_solver.
  - unfold layer_wf in *. rewrite Ha2, Hd2, Ha1, Hd1. set_solver.
  - destruct Hne as [Hne|Hne]; [left; auto|].
    destruct (w_Additions w) as [|x xs] eqn:Ew; [right; apply Hn2; by left|].
    left. apply Hn3, Hn1. by right.
Qed.

(** ** The tree *)

Definition total (l : list rs_data) : Z := zsum node_sizeInBytes l.

(** The tree holds [l] in order, counts its keys, and charges at least its bytes. *)
Definition rs_inv (T : BinarySearchTree) (l : list rs_data) : Prop :=
  tree_holds Key (rs_tree T) l /\ count T = Z.of_nat (length l) /\
  total l <= sizeInBytes T /\ (l = [] -> sizeInBytes T = 0).

Definition nonempty (w : Insert) : Prop := ~ (w_Additions w = [] /\ w_Deletions w = []).
#[local] Instance nonempty_dec w : Decision (nonempty w).
Proof. unfold nonempty. apply _. Defined.

Definition rs_spec_insert (key : list Z) (w : Insert) (l : list rs_data) : list rs_data :=
  ordered_insert Key key (rs_insert_update w) (newBinarySearchNode key w) l.

Lemma new_Key key w : Key (newBinarySearchNode key w) = key.
Proof. unfold newBinarySearchNode. by destruct (w_Deletions w). Qed.

Lemma length_zsum (l : list rs_data) : Z.of_nat (length l) = zsum (fun _ => 1) l.
Proof. induction l; simpl; lia. Qed.

Lemma Insert_inv {E} T l key w :
  rs_inv T l -> nonempty w ->
  exists T', rs_Insert (E := E) T key w = Ok T' /\ rs_inv T' (rs_spec_insert key w l).
Proof.
  intros (Hh & Hc & Ht & Hz) Hw. unfold rs_Insert. rewrite decide_False by done.
  set (new := newBinarySearchNode key w).
  destruct (tree_insert_spec (E := E) Key key (rs_insert_update w) new (node_sizeInBytes new, true)
    (node_sizeInBytes new, true)) with (T := rs_tree T) (l := l) as (t' & -> & Hh');
    [apply new_Key|done|done|].
  assert (sorted_keys Key l) as Hs by (by destruct Hh as (? & ? & ? & ? & ? & ? & ?)).
  assert (Hroot : t_root (rs_tree T) = None <-> l = []).
  { destruct Hh as (tr & _ & Hroot & _ & _ & _ & <-). rewrite Hroot.
    destruct tr; [done|]. split; [done|]. intros Hl. by apply elements_Node in Hl. }
  assert (Hlen := zsum_ordered_insert Key (fun _ => 1) key (rs_insert_update w) new l Hs).
  assert (Htot := zsum_ordered_insert Key node_sizeInBytes key (rs_insert_update w) new l Hs).
  rewrite <- !length_zsum in Hlen. change (ordered_insert Key key (rs_insert_update w) new l) with (rs_spec_insert key w l) in Hlen, Htot, Hh'.
  assert (rs_spec_insert key w l <> []) as Hne.
  { unfold rs_spec_insert. destruct l; simpl; [done|]. by repeat case_match. }
  cbn [obind]. destruct (t_root (rs_tree T)) as [root|] eqn:Er.
  - destruct l as [|x l]; [by destruct Hroot as [_ Hroot]; specialize (Hroot eq_refl)|].
    unfold insert_result. destruct (lookup_key Key key (x :: l)) as [y|] eqn:Ey;
      unfold rs_insert_update in Hlen, Htot |- *; cbn [fst snd] in Hlen, Htot |- *.
    + eexists. split; [reflexivity|]. split_and!; [done|cbn [count]; rewrite Hlen, Hc; lia| |done].
      unfold total in *. rewrite Htot. cbn [sizeInBytes fst snd]. lia.
    + eexists. split; [reflexivity|]. split_and!; [done|cbn [count]; rewrite Hlen, Hc; lia| |done].
      unfold total in *. rewrite Htot. cbn [sizeInBytes fst snd]. lia.
  - assert (l = []) as -> by (by apply Hroot). eexists. split; [reflexivity|].
    split_and!; [done|done| |done]. unfold total, new. simpl. lia.
Qed.

Fixpoint rs_insert_all {E} (T : BinarySearchTree) (ops : list (list Z * Insert)) : outcome E BinarySearchTree :=
  match ops with
  | [] => Ok T
  | (k, w) :: ops => let! T := rs_Insert T k w in rs_insert_all T ops
  end.

(** The writes of a key that carry something, oldest first *)
Definition rs_writes (k : list Z) (ops : list (list Z * Insert)) : list Insert :=
  snd <$> filter (fun o => o.1 = k /\ nonempty o.2) ops.

(** Every key has the layer of its writes. *)
Definition rs_content (l : list rs_data) (W : list Z -> list Insert) : Prop :=
  forall k, match lookup_key Key k l with
            | Some n => W k <> [] /\ layer_means (Value n) (W k)
            | None => W k = []
            end.

Lemma spec_insert_content l W key w :
  sorted_keys Key l -> nonempty w -> rs_content l W ->
  rs_content (rs_spec_insert key w l) (fun k => if decide (k = key) then W k ++ [w] else W k).
Proof.
  intros Hs Hw HW k. unfold rs_spec_insert. rewrite lookup_ordered_insert by (try apply new_Key; done).
  specialize (HW k). destruct (decide (k = key)) as [->|]; [|done].
  destruct (lookup_key Key key l) as [n|].
  - destruct HW as [_ HW]. split; [by destruct (W key)|]. by apply update_layer_of.
  - rewrite HW. split; [done|]. apply new_layer_of. unfold nonempty in Hw.
    destruct (w_Additions w); [right|by left]. naive_solver.
Qed.

Lemma insert_all_inv {E} ops : forall T l W,
  rs_inv T l -> rs_content l W ->
  exists T' l', rs_insert_all (E := E) T ops = Ok T' /\ rs_inv T' l' /\
    rs_content l' (fun k => W k ++ rs_writes k ops).
Proof.
  induction ops as [|[k w] ops IH]; intros T l W HT HW; simpl.
  { exists T, l. split_and!; [done..|]. intros k. specialize (HW k). unfold rs_writes. simpl.
    destruct (lookup_key Key k l); by rewrite app_nil_r. }
  destruct (decide (nonempty w)) as [Hw|Hw].
  - destruct (Insert_inv (E := E) T l k w HT Hw) as (T1 & -> & HT1). cbn [obind].
    assert (sorted_keys Key l) as Hs by (by destruct HT as [(? & ? & ? & ? & ? & ? & ?) _]).
    destruct (IH _ _ _ HT1 (spec_insert_content l W k w Hs Hw HW)) as (T2 & l2 & -> & HT2 & HW2).
    exists T2, l2. split_and!; [done..|]. intros k'. specialize (HW2 k'). simpl in HW2.
    unfold rs_writes in *. rewrite filter_cons. simpl.
    destruct (decide (k' = k)) as [->|Hne].
    + rewrite decide_True by done. simpl. by rewrite <- app_assoc in HW2.
    + rewrite decide_False by naive_solver. done.
  - unfold rs_Insert at 1. rewrite decide_True by (unfold nonempty in Hw; destruct (w_Additions w), (w_Deletions w); naive_solver).
    cbn [obind]. destruct (IH _ _ _ HT HW) as (T2 & l2 & -> & HT2 & HW2).
    exists T2, l2. split_and!; [done..|]. intros k'. specialize (HW2 k'). unfold rs_writes in *.
    rewrite filter_cons, decide_False by naive_solver. done.
Qed.

(** Copies hold the same ids on the same sides. *)
Lemma layer_of_copy l l' ws :
  adds l' = adds l -> dels l' = dels l ->
  (Additions l <> None -> Additions l' <> None) -> (Deletions l <> None -> Deletions l' <> None) ->
  layer_means l ws -> layer_means l' ws.
Proof.
  intros Ha Hd Hna Hnd (Hb & Hwf & Hne). unfold layer_means, apply_layer, layer_wf in *.
  rewrite Ha, Hd. naive_solver.
Qed.

Lemma clone_layer_of l ws : layer_means l ws -> layer_means (Clone l) ws.
Proof.
  apply layer_of_copy; unfold Clone, adds, dels; destruct l as [[a|] [d|]]; simpl;
    rewrite ?elems_clone; done.
Qed.

Lemma compacted_layer_of l ws : layer_means l ws -> layer_means (layer_Compacted l) ws.
Proof.
  apply layer_of_copy; unfold layer_Compacted, adds, dels; destruct l as [[a|] [d|]]; simpl;
    rewrite ?elems_compacted; done.
Qed.

Lemma Get_content T l W k :
  tree_holds Key (rs_tree T) l -> rs_content l W ->
  match W k with
  | [] => rs_Get T k = Err NotFound
  | _ => exists layer, rs_Get T k = Ok layer /\ layer_means layer (W k)
  end.
Proof.
  intros Hh HW. specialize (HW k). unfold rs_Get.
  destruct (tree_find_spec (E := rs_error) Key k (rs_tree T) l Hh) as (r & -> & Hr). cbn [obind].
  rewrite <- Hr in HW. destruct r as [n|]; simpl in HW.
  - destruct HW as [Hne HW]. destruct (W k); [done|]. eexists. split; [reflexivity|]. by apply clone_layer_of.
  - by rewrite HW.
Qed.

Lemma node_flatten_spec {E} t : forall fuel h p n,
  repr h t p -> troot t = Some n -> (depth t <= fuel)%nat ->
  node_flatten (E := E) fuel h n = Ok (rs_shallowCopy <$> tnodes t p).
Proof.
  induction t as [|n c x a IHa b IHb]; [done|].
  intros [|fuel] h p n' (Hn & Hra & Hrb) [= <-] Hd; simpl in Hd; [lia|].
  cbn [node_flatten tnodes]. rewrite (load_Ok _ _ _ Hn). cbn [obind n_left n_right].
  assert (forall s : ltree rs_data, s = a \/ s = b ->
    match troot s with Some l => node_flatten fuel h l | None => Ok [] end
    = Ok (E := E) (rs_shallowCopy <$> tnodes s (Some n))) as Hsub.
  { intros s Hs. destruct (troot s) as [l|] eqn:El; [|by destruct s].
    destruct Hs as [->| ->]; [eapply IHa|eapply IHb]; eauto; lia. }
  rewrite (Hsub a), (Hsub b) by auto. cbn [obind]. by rewrite fmap_app.
Qed.

Lemma FlattenInOrder_spec {E} T l :
  tree_holds Key (rs_tree T) l ->
  FlattenInOrder (E := E) T = Ok ((fun n => RsData (Key n) (layer_Compacted (Value n))) <$> l).
Proof.
  intros (t & Hf & Hroot & _ & _ & _ & <-). unfold FlattenInOrder. rewrite Hroot.
  destruct t as [|n c x a b]; [done|]. cbn [troot].
  rewrite (node_flatten_spec (Node n c x a b) _ _ None); [|apply Hf|done|].
  - rewrite <- (tnodes_elements _ None), <- list_fmap_compose. done.
  - apply focus_size in Hf. pose proof (depth_locs (Node n c x a b)). simpl in *. lia.
Qed.

Lemma empty_inv : rs_inv empty_tree [].
Proof. split_and!; [apply empty_holds|done|done|done]. Qed.

Lemma empty_content : rs_content [] (fun _ => []).
Proof. by intros k. Qed.

(** C35: the tree of strategy "roaring set".  Any sequence of [Insert]s succeeds, and
    writes that carry nothing change nothing.  Then [Get] of a key without
    writes is NotFound; of any other key it is a layer whose sides are disjoint,
    at least one of them allocated, and which read over any content below it
    gives that content with the writes of the key applied in order, a write's
    deletions winning over its additions.  The flattened tree has each written
    key once, in strictly increasing order, with such a layer, and [Count] is
    their number. *)
Theorem roaring_tree_layers (ops : list (list Z * Insert)) :
  exists T flat, rs_insert_all (E := rs_error) empty_tree ops = Ok T /\
    (forall k, match rs_writes k ops with
       | [] => rs_Get T k = Err NotFound
       | ws => exists layer, rs_Get T k = Ok layer /\ layer_means layer ws
       end) /\
    FlattenInOrder (E := rs_error) T = Ok flat /\ sorted_keys Key flat /\
    (forall n, n ∈ flat -> layer_means (Value n) (rs_writes (Key n) ops)) /\
    (forall k, k ∈ Key <$> flat <-> rs_writes k ops <> []) /\
    rs_Count T = Z.of_nat (length flat).
Proof.
  destruct (insert_all_inv (E := rs_error) ops _ _ _ empty_inv empty_content) as (T & l & Hrun & (Hh & Hc & _) & HW).
  assert (sorted_keys Key l) as Hs by (by destruct Hh as (? & ? & ? & ? & ? & ? & ?)).
  set (copy := fun n => RsData (Key n) (layer_Compacted (Value n))).
  assert (Key <$> (copy <$> l) = Key <$> l) as Hkeys by (by rewrite <- list_fmap_compose).
  exists T, (copy <$> l). split_and!; auto.
  - intros k. assert (Hg := Get_content T l _ k Hh HW). simpl in Hg. by destruct (rs_writes k ops).
  - by apply FlattenInOrder_spec.
  - by rewrite sorted_keys_fmap, Hkeys, <- sorted_keys_fmap.
  - intros n (x & -> & Hx)%list_elem_of_fmap. specialize (HW (Key x)).
    rewrite (proj1 (lookup_key_elem Key l x Hs) Hx) in HW. by apply compacted_layer_of, HW.
  - intros k. rewrite Hkeys. specialize (HW k). simpl in HW. split.
    + intros (x & -> & Hx)%list_elem_of_fmap. rewrite (proj1 (lookup_key_elem Key l x Hs) Hx) in HW. apply HW.
    + intros Hne. destruct (lookup_key Key k l) as [x|] eqn:Ex; [|done].
      apply lookup_key_Some in Ex as [Hx <-]. by apply list_elem_of_fmap_2.
  - by rewrite length_fmap.
Qed.

(** ** Bytes *)

Lemma node_size_pos n :
  0 < nodeFixedSizeInBytes -> 0 <= bitmapFixedSizeInBytes -> 0 < node_sizeInBytes n.
Proof.
  intros Hn Hb. unfold node_sizeInBytes, bitmapsSizeInBytes.
  assert (forall o, 0 <= bitmapSizeInBytes o) as Ho
    by (intros [b|]; simpl; [pose proof (lenInBytes_nonneg b)|]; lia).
  pose proof (Ho (Additions (Value n))). pose proof (Ho (Deletions (Value n))). lia.
Qed.

(** The byte total of a tree is at least what its nodes hold, and it is zero
    exactly when the tree has no nodes. *)
Lemma roaring_tree_size (ops : list (list Z * Insert)) :
  0 < nodeFixedSizeInBytes -> 0 <= bitmapFixedSizeInBytes ->
  exists T l, rs_insert_all (E := rs_error) empty_tree ops = Ok T /\
    tree_holds Key (rs_tree T) l /\ total l <= sizeInBytes T /\
    (sizeInBytes T = 0 <-> t_root (rs_tree T) = None).
Proof.
  intros Hnode Hbm.
  destruct (insert_all_inv (E := rs_error) ops _ _ _ empty_inv empty_content) as (T & l & Hrun & (Hh & Hc & Ht & Hz) & _).
  exists T, l. split_and!; auto.
  assert (t_root (rs_tree T) = None <-> l = []) as ->.
  { destruct Hh as (tr & _ & Hroot & _ & _ & _ & <-). rewrite Hroot.
    destruct tr; [done|]. split; [done|]. intros Hl. by apply elements_Node in Hl. }
  split; [|done]. intros Hzero. destruct l as [|x l]; [done|]. exfalso.
  unfold total in Ht. simpl in Ht. pose proof (node_size_pos x Hnode Hbm).
  assert (0 <= zsum node_sizeInBytes l); [|lia].
  clear -Hnode Hbm SroarTreeLaws0.
  induction l as [|y l IH]; simpl; [lia|]. pose proof (node_size_pos y Hnode Hbm). lia.
Qed.

(** ** Seeking *)

Fixpoint cursor_scan {E} (fuel : nat) (c : BinarySearchTreeCursor) : outcome E (list rs_data) :=
  match fuel with
  | O => OutOfFuel
  | S fuel =>
      let! (o, c) := rs_Next c in
      match o with
      | None => Ok []
      | Some n => let! rest := cursor_scan fuel c in Ok (n :: rest)
      end
  end.

Lemma cursor_scan_spec {E} rest : forall before_,
  cursor_scan (E := E) (S (length rest)) (Cursor (before_ ++ rest) (Z.of_nat (length before_))) = Ok rest.
Proof.
  assert (forall f c, cursor_scan (E := E) (S f) c = (let! (o, c) := rs_Next c in
    match o with None => Ok [] | Some n => let! rest := cursor_scan f c in Ok (n :: rest) end)) as Hun by done.
  induction rest as [|n rest IH]; intros done_; rewrite Hun; unfold rs_Next at 1; cbn [nodes nextNodePos].
  - rewrite length_app, Nat.add_0_r. rewrite (proj2 (Z.leb_le _ _)) by lia. done.
  - rewrite (proj2 (Z.leb_gt _ _)) by (rewrite length_app; simpl; lia).
    rewrite Nat2Z.id, list_lookup_middle by done. cbn [obind].
    replace (Cursor (done_ ++ n :: rest) (Z.of_nat (length done_) + 1))
      with (Cursor ((done_ ++ [n]) ++ rest) (Z.of_nat (length (done_ ++ [n]))))
      by (rewrite <- app_assoc, length_app; simpl; f_equal; lia).
    by rewrite IH.
Qed.

(** [seek_loop] finds where the keys not before [key] begin. *)
Lemma seek_loop_spec key lo hi (pos : Z) :
  (forall n, n ∈ lo -> before (Key n) key) -> (forall n, n ∈ hi -> ~ before (Key n) key) ->
  sorted_keys Key (lo ++ hi) ->
  forall later, seek_loop key ((lo ++ hi) ++ later) (length (lo ++ hi)) pos
    = match hi with [] => pos | _ => Z.of_nat (length lo) end.
Proof.
  revert pos. induction hi as [|n hi IH] using rev_ind; intros pos Hlo Hhi Hs later.
  - rewrite app_nil_r. destruct lo as [|m lo _] using rev_ind; [done|].
    rewrite length_app. simpl. rewrite Nat.add_1_r. cbn [seek_loop].
    rewrite <- app_assoc. cbn [app]. rewrite list_lookup_middle by done.
    rewrite (before_Gt _ _ (Hlo m ltac:(set_solver))). done.
  - assert (length (lo ++ hi ++ [n]) = S (length (lo ++ hi))) as -> by (rewrite !length_app; simpl; lia).
    cbn [seek_loop]. rewrite (app_assoc lo hi [n]), <- (app_assoc (lo ++ hi) [n] later).
    cbn [app]. rewrite list_lookup_middle by done.
    assert (match hi ++ [n] with [] => pos | _ => Z.of_nat (length lo) end = Z.of_nat (length lo)) as ->
      by (by destruct hi).
    rewrite app_assoc in Hs. apply sorted_keys_app in Hs as (Hs & _ & Hlt).
    destruct (bytes_compare key (Key n)) eqn:E.
    + apply bytes_compare_eq in E as ->. destruct hi as [|m hi]; [by rewrite app_nil_r|].
      exfalso. apply (Hhi m); [set_solver|]. apply Hlt; set_solver.
    + rewrite IH; [|done|set_solver|done]. destruct hi; [by rewrite app_nil_r|done].
    + exfalso. apply (Hhi n); [set_solver|]. unfold before. by rewrite bytes_compare_antisym, E.
Qed.

(** Seeking.  On a cursor over sorted nodes [Seek] of a key positions at the first
    node whose key is not below it, and the calls of [Next] after it deliver
    the remaining nodes in order; if every key is below, it is NotFound. *)
Lemma cursor_seek_exact (lo hi : list rs_data) (pos : Z) (key : list Z) :
  sorted_keys Key (lo ++ hi) ->
  (forall n, n ∈ lo -> before (Key n) key) -> (forall n, n ∈ hi -> ~ before (Key n) key) ->
  match hi with
  | [] => rs_Seek (Cursor (lo ++ hi) pos) key = Err NotFound
  | n :: rest => exists c, rs_Seek (Cursor (lo ++ hi) pos) key = Ok (Some n, c) /\
      cursor_scan (E := rs_error) (S (length rest)) c = Ok rest
  end.
Proof.
  intros Hs Hlo Hhi. unfold rs_Seek, posKeyGreaterThanEqual. cbn [nodes].
  assert (Hpos := seek_loop_spec key lo hi (-1) Hlo Hhi Hs []). rewrite app_nil_r in Hpos. rewrite Hpos.
  destruct hi as [|n rest]; [done|].
  rewrite (proj2 (Z.eqb_neq _ _)) by lia. unfold rs_Next. cbn [nodes nextNodePos].
  rewrite (proj2 (Z.leb_gt _ _)) by (rewrite length_app; simpl; lia).
  rewrite Nat2Z.id, list_lookup_middle by done. eexists. split; [reflexivity|].
  assert (Hscan := cursor_scan_spec (E := rs_error) rest (lo ++ [n])).
  rewrite <- app_assoc, length_app in Hscan. simpl length in Hscan.
  replace (Z.of_nat (length lo + 1)) with (Z.of_nat (length lo) + 1) in Hscan by lia. exact Hscan.
Qed.

End tree.

Arguments rs_data B : clear implicits.
Arguments BinarySearchTree B : clear implicits.

(** ** Bitmaps as sets: the interface can be satisfied *)

Section Witnesses.
Import SetBitmap.

#[local] Instance gset_sroar_tree : SroarTree (gset Z) := {|
  bm_remove b z := b ∖ {[z]};
  bm_compacted b := b;
  bm_lenInBytes b := 8 * Z.of_nat (size b) |}.

#[local] Instance gset_sroar_tree_laws : SroarTreeLaws (gset Z).
Proof. constructor; [done|done|]. intros b. cbn. lia. Qed.

Definition wit_writes : list (list Z * Insert) :=
  [([1], Write [5; 6] [6]); ([0], Write [] [7]); ([2], Write [] []); ([1], Write [6] [5])].

Lemma roaring_tree_layers_witness :
  exists T : BinarySearchTree (gset Z), rs_insert_all 72 40 (E := rs_error) empty_tree wit_writes = Ok T /\
    rs_Get T [2] = Err NotFound /\
    exists layer, rs_Get T [1] = Ok layer /\ layer_means layer [Write [5; 6] [6]; Write [6] [5]].
Proof.
  destruct (roaring_tree_layers (B := gset Z) 72 40 wit_writes) as (T & flat & Hrun & Hget & _).
  exists T. split; [exact Hrun|]. split; [exact (Hget [2])|exact (Hget [1])].
Defined.

Lemma roaring_tree_size_witness :
  exists (T : BinarySearchTree (gset Z)) l, rs_insert_all 72 40 (E := rs_error) empty_tree wit_writes = Ok T /\
    tree_holds Key (rs_tree T) l /\ total 72 40 l <= sizeInBytes T /\
    (sizeInBytes T = 0 <-> t_root (rs_tree T) = None).
Proof. apply (roaring_tree_size (B := gset Z) 72 40 wit_writes); lia. Defined.

Definition wit_rs_nodes : list (rs_data (gset Z)) := [RsData [1] (Layer None None); RsData [3] (Layer None None)].

Lemma cursor_seek_exact_witness :
  exists c, rs_Seek (Cursor wit_rs_nodes 0) [2] = Ok (Some (RsData [3] (Layer None None)), c) /\
    cursor_scan (E := rs_error) 1 c = Ok [].
Proof.
  apply (cursor_seek_exact (B := gset Z) [RsData [1] (Layer None None)] [RsData [3] (Layer None None)] 0 [2]).
  - repeat constructor.
  - by intros n ->%list_elem_of_singleton.
  - by intros n ->%list_elem_of_singleton.
Defined.

End Witnesses.
