(* ===== verification/DistributedTask.v ===== *)
(** * Distributed tasks: cluster/distributedtask

    The second state machine the raft log drives: long-running work (index
    migrations) split into units, run by the nodes, and brought to an end by a
    barrier of acknowledgements.  This file has the types of [types.go] and one
    definition per apply method and query of [manager.go]; the requests are the
    decoded JSON bodies.  DistributedTaskInvariant.v has the proofs. *)

From stdpp Require Import strings sorting.
From Stdlib Require Import QArith.QArith.
From S2P Require Import Prelude.

#[local] Open Scope Z_scope.

(** ** types.go *)

(** A status is a string; one this build does not know can come from a snapshot. *)
Inductive TaskStatus : Type :=
| TaskStatusStarted
| TaskStatusPreparing
| TaskStatusSwapping
| TaskStatusFinished
| TaskStatusCancelled
| TaskStatusFailed
| TaskStatusOther (s : string).

Inductive UnitStatus : Type :=
| UnitStatusPending
| UnitStatusInProgress
| UnitStatusCompleted
| UnitStatusFailed
| UnitStatusOther (s : string).

#[export] Instance TaskStatus_eq_dec : EqDecision TaskStatus.
Proof. solve_decision. Defined.
#[export] Instance UnitStatus_eq_dec : EqDecision UnitStatus.
Proof. solve_decision. Defined.

(** A [time.Time] is its Unix time in milliseconds; [zero_time] is [time.Time{}],
    the first of January of the year 1.  All stored times come from requests, in
    milliseconds. *)
Definition time : Type := Z.
Definition zero_time : time := -62135596800000.
Definition IsZero (t : time) : bool := t =? zero_time.

(** [Progress] is a float32 that was read from JSON, hence a rational. *)
Record Unit_ : Type := Unit {
  u_ID : string;
  u_GroupID : string;
  u_NodeID : string;
  u_Status : UnitStatus;
  u_Progress : Q;
  u_Error : string;
  u_UpdatedAt : time;
  u_FinishedAt : time;
  u_Attempts : Z }.

Record PostCompletionAck : Type := Ack { Success : bool; AckError : string; AckedAt : time }.

(** A nil map of units or acknowledgements and an empty one are told apart only
    by the JSON encoder and are the same map here. *)
Record Task : Type := MkTask {
  Namespace : string;
  ID : string;
  Version : Z;
  Payload : string;
  NeedsPreparationBarrier : bool;
  Status : TaskStatus;
  StartedAt : time;
  FinishedAt : time;
  Error : string;
  FormatVersion : Z;
  StaleTimeoutMs : Z;
  MaxUnitRetries : Z;
  Units : gmap string Unit_;
  PreparationCompletionAcks : gmap string PostCompletionAck;
  PostCompletionAcks : gmap string PostCompletionAck }.

(** *** Field updates *)

Definition set_Status (t : Task) (s : TaskStatus) : Task :=
  MkTask (Namespace t) (ID t) (Version t) (Payload t) (NeedsPreparationBarrier t) s (StartedAt t)
    (FinishedAt t) (Error t) (FormatVersion t) (StaleTimeoutMs t) (MaxUnitRetries t) (Units t)
    (PreparationCompletionAcks t) (PostCompletionAcks t).
Definition set_FinishedAt (t : Task) (at_ : time) : Task :=
  MkTask (Namespace t) (ID t) (Version t) (Payload t) (NeedsPreparationBarrier t) (Status t) (StartedAt t)
    at_ (Error t) (FormatVersion t) (StaleTimeoutMs t) (MaxUnitRetries t) (Units t)
    (PreparationCompletionAcks t) (PostCompletionAcks t).
Definition set_Error (t : Task) (e : string) : Task :=
  MkTask (Namespace t) (ID t) (Version t) (Payload t) (NeedsPreparationBarrier t) (Status t) (StartedAt t)
    (FinishedAt t) e (FormatVersion t) (StaleTimeoutMs t) (MaxUnitRetries t) (Units t)
    (PreparationCompletionAcks t) (PostCompletionAcks t).
Definition set_Units (t : Task) (us : gmap string Unit_) : Task :=
  MkTask (Namespace t) (ID t) (Version t) (Payload t) (NeedsPreparationBarrier t) (Status t) (StartedAt t)
    (FinishedAt t) (Error t) (FormatVersion t) (StaleTimeoutMs t) (MaxUnitRetries t) us
    (PreparationCompletionAcks t) (PostCompletionAcks t).
Definition set_PrepAcks (t : Task) (acks : gmap string PostCompletionAck) : Task :=
  MkTask (Namespace t) (ID t) (Version t) (Payload t) (NeedsPreparationBarrier t) (Status t) (StartedAt t)
    (FinishedAt t) (Error t) (FormatVersion t) (StaleTimeoutMs t) (MaxUnitRetries t) (Units t)
    acks (PostCompletionAcks t).
Definition set_PostAcks (t : Task) (acks : gmap string PostCompletionAck) : Task :=
  MkTask (Namespace t) (ID t) (Version t) (Payload t) (NeedsPreparationBarrier t) (Status t) (StartedAt t)
    (FinishedAt t) (Error t) (FormatVersion t) (StaleTimeoutMs t) (MaxUnitRetries t) (Units t)
    (PreparationCompletionAcks t) acks.

(** *** Predicates of a status *)

Definition IsTerminal (s : TaskStatus) : bool :=
  match s with
  | TaskStatusFinished | TaskStatusFailed | TaskStatusCancelled => true
  | _ => false
  end.

Definition IsActive (s : TaskStatus) : bool := negb (IsTerminal s).

Definition IsCompleted (s : TaskStatus) : bool :=
  match s with TaskStatusSwapping | TaskStatusFinished => true | _ => false end.

Definition IsRecognized (s : TaskStatus) : bool :=
  match s with TaskStatusOther _ => false | _ => true end.

Definition IsCancellable (s : TaskStatus) : bool := bool_decide (s = TaskStatusStarted).

Definition IsForceTerminable (s : TaskStatus) : bool :=
  match s with
  | TaskStatusStarted | TaskStatusPreparing | TaskStatusSwapping => true
  | _ => false
  end.

(** *** Methods of a unit and a task *)

Definition unit_markTerminal (u : Unit_) (s : UnitStatus) (at_ : time) : Unit_ :=
  Unit (u_ID u) (u_GroupID u) (u_NodeID u) s (u_Progress u) (u_Error u) at_ at_ (u_Attempts u).

Definition task_markTerminal (t : Task) (s : TaskStatus) (at_ : time) : Task :=
  set_FinishedAt (set_Status t s) at_.

Definition unit_terminal (u : Unit_) : bool :=
  match u_Status u with UnitStatusCompleted | UnitStatusFailed => true | _ => false end.

(** Values of a map, in the order of an iteration *)
Definition map_values {A} (m : gmap string A) : list A := (map_to_list m).*2.

Definition AllUnitsTerminal (t : Task) : bool := forallb unit_terminal (map_values (Units t)).

Definition AnyUnitFailed (t : Task) : bool :=
  existsb (fun u => bool_decide (u_Status u = UnitStatusFailed)) (map_values (Units t)).

Definition AllGroupUnitsTerminal (t : Task) (groupID : string) : bool :=
  forallb (fun u => if decide (u_GroupID u = groupID) then unit_terminal u else true) (map_values (Units t)).

Definition LocalGroupUnitIDs (t : Task) (groupID nodeID : string) : list string :=
  (filter (fun p => u_GroupID p.2 = groupID /\ u_NodeID p.2 = nodeID) (map_to_list (Units t))).*1.

Definition NodeHasNonTerminalUnits (t : Task) (nodeID : string) : bool :=
  existsb (fun u => if unit_terminal u then false
                    else bool_decide (u_NodeID u = EmptyString) || bool_decide (u_NodeID u = nodeID))
    (map_values (Units t)).

Definition Groups (t : Task) : gset string := list_to_set (u_GroupID <$> map_values (Units t)).

(** The sets the code builds as maps with empty values *)
Definition NodesWithLocalUnits (t : Task) : gset string :=
  list_to_set (filter (fun n => n <> EmptyString) (u_NodeID <$> map_values (Units t))).

Definition MissingPostCompletionAckNodes (t : Task) : list string :=
  filter (fun n => PostCompletionAcks t !! n = None) (elements (NodesWithLocalUnits t)).

Definition acked (acks : gmap string PostCompletionAck) (node : string) : bool :=
  match acks !! node with Some ack => Success ack | None => false end.

Definition AllPostCompletionAcksSuccessful (t : Task) : bool :=
  forallb (acked (PostCompletionAcks t)) (elements (NodesWithLocalUnits t)).

(** manager.go *)
Definition allExpectedPreparationAcksLanded (t : Task) : bool :=
  forallb (acked (PreparationCompletionAcks t)) (elements (NodesWithLocalUnits t)).

(** ** errors.go and the other errors of manager.go *)

Inductive sentinel : Type :=
| ErrTaskNotRunning
| ErrTaskDoesNotExist
| ErrUnitAlreadyTerminal
| ErrUnitWrongNode
| ErrTaskNotInFinalizingState
| ErrTaskConflict
| ErrTaskAlreadyRunning
| ErrForceTerminateRefused.

#[export] Instance sentinel_eq_dec : EqDecision sentinel.
Proof. solve_decision. Defined.

(** An error that wraps a sentinel and [ErrPermanentRejection], or a plain one *)
Inductive dt_error : Type :=
| Permanent (s : sentinel)
| ErrVersionNotNewer
| ErrNoUnits
| ErrMissingNodeID
| ErrProgressRange
| ErrStillRunning
| ErrTooFresh
| ErrTaskStillActiveForTargetVectors.

#[export] Instance dt_error_eq_dec : EqDecision dt_error.
Proof. solve_decision. Defined.

(** ** The state *)

Record Manager : Type := MkManager {
  tasks : gmap string (gmap string Task);
  wakes : nat }.                               (* calls of the scheduler's Wake *)

Definition NewManager : Manager := MkManager ∅ 0.

Definition set_tasks (m : Manager) (ts : gmap string (gmap string Task)) : Manager := MkManager ts (wakes m).

Definition notifySchedulerWithLock (m : Manager) : Manager := MkManager (tasks m) (S (wakes m)).

Definition findTaskWithLock (m : Manager) (namespace taskID : string) : option Task :=
  match tasks m !! namespace with
  | None => None
  | Some tasksNamespace => tasksNamespace !! taskID
  end.

Definition findVersionedTaskWithLock (m : Manager) (namespace taskID : string) (taskVersion : Z) :
    outcome dt_error Task :=
  match findTaskWithLock m namespace taskID with
  | None => Err (Permanent ErrTaskDoesNotExist)
  | Some task => if Version task =? taskVersion then Ok task else Err (Permanent ErrTaskDoesNotExist)
  end.

(** The code changes the task it found in place: the entry it was found under *)
Definition update_task (m : Manager) (namespace taskID : string) (t : Task) : Manager :=
  set_tasks m (<[namespace := <[taskID := t]> (default ∅ (tasks m !! namespace))]> (tasks m)).

Definition setTaskWithLock (m : Manager) (t : Task) : Manager := update_task m (Namespace t) (ID t) t.

(** [delete(m.tasks[namespace], taskID)]; a missing namespace is a nil map *)
Definition delete_task (m : Manager) (namespace taskID : string) : Manager :=
  match tasks m !! namespace with
  | None => m
  | Some ts => set_tasks m (<[namespace := delete taskID ts]> (tasks m))
  end.

Definition append_error (old new : string) : string :=
  if decide (old = EmptyString) then new else old +:+ "; " +:+ new.

(** ** Requests *)

Record AddDistributedTaskRequest : Type := AddReq {
  a_Namespace : string; a_Id : string; a_Payload : string; a_SubmittedAtUnixMillis : Z;
  a_NeedsPreparationBarrier : bool; a_UnitSpecs : list (string * string); a_UnitIds : list string;
  a_StaleTimeoutMs : Z; a_MaxUnitRetries : Z }.

Record UnitCompletionRequest : Type := CompletionReq {
  c_Namespace : string; c_Id : string; c_Version : Z; c_NodeId : string; c_UnitId : string;
  c_Error : string; c_Retryable : bool; c_FinishedAtUnixMillis : Z }.

Record AckRequest : Type := AckReq {
  k_Namespace : string; k_Id : string; k_Version : Z; k_NodeId : string;
  k_Success : bool; k_Error : string; k_AckedAtUnixMillis : Z }.

(** [MarkTaskFinalizedRequest], [CancelDistributedTaskRequest]: a task and a time;
    [MarkTaskFailedRequest] has an error in addition. *)
Record MarkRequest : Type := MarkReq {
  m_Namespace : string; m_Id : string; m_Version : Z; m_Error : string; m_AtUnixMillis : Z }.

Record UnitProgressRequest : Type := ProgressReq {
  p_Namespace : string; p_Id : string; p_Version : Z; p_NodeId : string; p_UnitId : string;
  p_Progress : Q; p_UpdatedAtUnixMillis : Z }.

Record ForceTerminateRequest : Type := ForceReq {
  f_Namespace : string; f_Id : string; f_Version : Z; f_Reason : string;
  f_RequestedTerminalStatus : TaskStatus; f_TerminatedAtUnixMillis : Z }.

Record CleanUpRequest : Type := CleanUpReq { l_Namespace : string; l_Id : string; l_Version : Z }.

(** ** Apply methods *)

(** A provider may register a conflict detector for its namespace; both checks
    are pure functions of the payload and the tasks ([ConflictDetector]). *)
Record ConflictDetector : Type := Detector {
  CheckCrossNamespaceConflict : option (string -> gmap string (gmap string Task) -> bool);
  CheckConflict : string -> list Task -> bool }.

Definition new_unit (id groupID : string) : Unit_ :=
  Unit id groupID EmptyString UnitStatusPending 0%Q EmptyString zero_time zero_time 0.

Definition AddTask (conflictDetectors : gmap string ConflictDetector) (m : Manager)
    (r : AddDistributedTaskRequest) (seqNum : Z) : outcome dt_error Manager :=
  let! _ :=
    match findTaskWithLock m (a_Namespace r) (a_Id r) with
    | None => Ok tt
    | Some task =>
        if decide (Status task = TaskStatusStarted) then Err (Permanent ErrTaskAlreadyRunning)
        else if seqNum <=? Version task then Err ErrVersionNotNewer
        else Ok tt
    end in
  let! _ :=
    match conflictDetectors !! a_Namespace r with
    | None => Ok tt
    | Some cd =>
        if match CheckCrossNamespaceConflict cd with
           | Some check => check (a_Payload r) (tasks m)
           | None => false
           end
        then Err (Permanent ErrTaskConflict)
        else if CheckConflict cd (a_Payload r) (map_values (default ∅ (tasks m !! a_Namespace r)))
        then Err (Permanent ErrTaskConflict)
        else Ok tt
    end in
  let! units :=
    match a_UnitSpecs r, a_UnitIds r with
    | _ :: _, _ =>
        Ok (foldl (fun us (spec : string * string) => <[spec.1 := new_unit spec.1 spec.2]> us) ∅ (a_UnitSpecs r))
    | [], _ :: _ => Ok (foldl (fun us id => <[id := new_unit id EmptyString]> us) ∅ (a_UnitIds r))
    | [], [] => Err ErrNoUnits
    end in
  let newTask := MkTask (a_Namespace r) (a_Id r) seqNum (a_Payload r) (a_NeedsPreparationBarrier r)
    TaskStatusStarted (a_SubmittedAtUnixMillis r) zero_time EmptyString 1 (a_StaleTimeoutMs r)
    (a_MaxUnitRetries r) units ∅ ∅ in
  Ok (notifySchedulerWithLock (setTaskWithLock m newTask)).

Definition findStartedUnitWithLock (m : Manager) (namespace taskID : string) (version : Z)
    (unitID nodeID : string) : outcome dt_error (Task * Unit_) :=
  let! task := findVersionedTaskWithLock m namespace taskID version in
  if decide (Status task = TaskStatusStarted) then
    match Units task !! unitID with
    | None => Err (Permanent ErrTaskDoesNotExist)
    | Some u =>
        if decide (u_NodeID u <> EmptyString /\ u_NodeID u <> nodeID) then Err (Permanent ErrUnitWrongNode)
        else Ok (task, u)
    end
  else Err (Permanent ErrTaskNotRunning).

Definition RecordUnitCompletion (m : Manager) (r : UnitCompletionRequest) : outcome dt_error Manager :=
  let! (task, u) := findStartedUnitWithLock m (c_Namespace r) (c_Id r) (c_Version r) (c_UnitId r) (c_NodeId r) in
  if unit_terminal u then Err (Permanent ErrUnitAlreadyTerminal)
  else
    let u := Unit (u_ID u) (u_GroupID u)
      (if decide (u_NodeID u = EmptyString) then c_NodeId r else u_NodeID u)
      (u_Status u) (u_Progress u) (u_Error u) (u_UpdatedAt u) (u_FinishedAt u) (u_Attempts u) in
    let finishedAt := c_FinishedAtUnixMillis r in
    let put (task : Task) (u : Unit_) := set_Units task (<[c_UnitId r := u]> (Units task)) in
    let done_ (task : Task) := Ok (notifySchedulerWithLock (update_task m (c_Namespace r) (c_Id r) task)) in
    if decide (c_Error r <> EmptyString) then
      if c_Retryable r && (0 <? MaxUnitRetries task) && (u_Attempts u <? MaxUnitRetries task) then
        done_ (put task (Unit (u_ID u) (u_GroupID u) (u_NodeID u) UnitStatusPending 0%Q EmptyString
                           (u_UpdatedAt u) (u_FinishedAt u) (u_Attempts u + 1)))
      else
        let u := unit_markTerminal u UnitStatusFailed finishedAt in
        let u := Unit (u_ID u) (u_GroupID u) (u_NodeID u) (u_Status u) (u_Progress u) (c_Error r)
                   (u_UpdatedAt u) (u_FinishedAt u) (u_Attempts u) in
        let task := put task u in
        let task := set_Error task ("unit " +:+ c_UnitId r +:+ " failed: " +:+ c_Error r) in
        done_ (task_markTerminal task TaskStatusFailed finishedAt)
    else
      let u := unit_markTerminal u UnitStatusCompleted finishedAt in
      let u := Unit (u_ID u) (u_GroupID u) (u_NodeID u) (u_Status u) 1%Q (u_Error u)
                 (u_UpdatedAt u) (u_FinishedAt u) (u_Attempts u) in
      let task := put task u in
      done_ (if AllUnitsTerminal task then
               if AnyUnitFailed task then task_markTerminal task TaskStatusFailed finishedAt
               else if NeedsPreparationBarrier task then set_Status task TaskStatusPreparing
               else set_Status task TaskStatusSwapping
             else task).

Definition RecordPostCompletionAck (m : Manager) (r : AckRequest) : outcome dt_error Manager :=
  if decide (k_NodeId r = EmptyString) then Err ErrMissingNodeID
  else
    let! task := findVersionedTaskWithLock m (k_Namespace r) (k_Id r) (k_Version r) in
    match Status task with
    | TaskStatusFailed | TaskStatusFinished | TaskStatusCancelled => Ok m
    | TaskStatusStarted | TaskStatusSwapping =>
        match PostCompletionAcks task !! k_NodeId r with
        | Some _ => Ok m
        | None =>
            let ack := Ack (k_Success r) (k_Error r) (k_AckedAtUnixMillis r) in
            let task := set_PostAcks task (<[k_NodeId r := ack]> (PostCompletionAcks task)) in
            let task :=
              if negb (k_Success r) && bool_decide (Status task = TaskStatusSwapping) then
                let ackErr := "post-completion swap failed on node " +:+ k_NodeId r +:+ ": " +:+ k_Error r in
                task_markTerminal (set_Error task (append_error (Error task) ackErr)) TaskStatusFailed
                  (k_AckedAtUnixMillis r)
              else task in
            Ok (notifySchedulerWithLock (update_task m (k_Namespace r) (k_Id r) task))
        end
    | _ => Err (Permanent ErrTaskNotInFinalizingState)
    end.

Definition RecordPreparationCompleteAck (m : Manager) (r : AckRequest) : outcome dt_error Manager :=
  if decide (k_NodeId r = EmptyString) then Err ErrMissingNodeID
  else
    let! task := findVersionedTaskWithLock m (k_Namespace r) (k_Id r) (k_Version r) in
    match Status task with
    | TaskStatusFailed | TaskStatusFinished | TaskStatusCancelled | TaskStatusSwapping => Ok m
    | TaskStatusStarted | TaskStatusPreparing =>
        match PreparationCompletionAcks task !! k_NodeId r with
        | Some _ => Ok m
        | None =>
            let ack := Ack (k_Success r) (k_Error r) (k_AckedAtUnixMillis r) in
            let task := set_PrepAcks task (<[k_NodeId r := ack]> (PreparationCompletionAcks task)) in
            let preparing := bool_decide (Status task = TaskStatusPreparing) in
            let task :=
              if negb (k_Success r) && preparing then
                let ackErr := "prep failed on node " +:+ k_NodeId r +:+ ": " +:+ k_Error r in
                task_markTerminal (set_Error task (append_error (Error task) ackErr)) TaskStatusFailed
                  (k_AckedAtUnixMillis r)
              else if k_Success r && preparing && allExpectedPreparationAcksLanded task then
                set_Status task TaskStatusSwapping
              else task in
            Ok (notifySchedulerWithLock (update_task m (k_Namespace r) (k_Id r) task))
        end
    | _ => Err (Permanent ErrTaskNotInFinalizingState)
    end.

Definition MarkTaskFinalized (m : Manager) (r : MarkRequest) : outcome dt_error Manager :=
  let! task := findVersionedTaskWithLock m (m_Namespace r) (m_Id r) (m_Version r) in
  match Status task with
  | TaskStatusFinished => Ok m
  | TaskStatusSwapping =>
      Ok (notifySchedulerWithLock (update_task m (m_Namespace r) (m_Id r)
            (task_markTerminal task TaskStatusFinished (m_AtUnixMillis r))))
  | _ => Err (Permanent ErrTaskNotInFinalizingState)
  end.

Definition MarkTaskFailed (m : Manager) (r : MarkRequest) : outcome dt_error Manager :=
  let! task := findVersionedTaskWithLock m (m_Namespace r) (m_Id r) (m_Version r) in
  match Status task with
  | TaskStatusFailed => Ok m
  | TaskStatusSwapping =>
      let task := if decide (m_Error r <> EmptyString)
                  then set_Error task (append_error (Error task) (m_Error r)) else task in
      Ok (notifySchedulerWithLock (update_task m (m_Namespace r) (m_Id r)
            (task_markTerminal task TaskStatusFailed (m_AtUnixMillis r))))
  | _ => Err (Permanent ErrTaskNotInFinalizingState)
  end.

Definition UpdateUnitProgress (m : Manager) (r : UnitProgressRequest) : outcome dt_error Manager :=
  let! (task, u) := findStartedUnitWithLock m (p_Namespace r) (p_Id r) (p_Version r) (p_UnitId r) (p_NodeId r) in
  if unit_terminal u then Ok m
  else if negb (Qle_bool 0 (p_Progress r)) || negb (Qle_bool (p_Progress r) 1) then Err ErrProgressRange
  else
    let progress := if negb (Qle_bool (p_Progress r) (u_Progress u)) then p_Progress r else u_Progress u in
    let wasPending := bool_decide (u_Status u = UnitStatusPending) in
    let u := Unit (u_ID u) (u_GroupID u) (p_NodeId r)
      (if wasPending then UnitStatusInProgress else u_Status u) progress (u_Error u)
      (p_UpdatedAtUnixMillis r) (u_FinishedAt u) (u_Attempts u) in
    let m := update_task m (p_Namespace r) (p_Id r) (set_Units task (<[p_UnitId r := u]> (Units task))) in
    Ok (if wasPending then notifySchedulerWithLock m else m).

Definition CancelTask (m : Manager) (r : MarkRequest) : outcome dt_error Manager :=
  let! task := findVersionedTaskWithLock m (m_Namespace r) (m_Id r) (m_Version r) in
  if negb (IsCancellable (Status task)) then Err (Permanent ErrTaskNotRunning)
  else Ok (notifySchedulerWithLock (update_task m (m_Namespace r) (m_Id r)
             (task_markTerminal task TaskStatusCancelled (m_AtUnixMillis r)))).

Definition ForceTerminateTask (m : Manager) (r : ForceTerminateRequest) : outcome dt_error Manager :=
  let! task := findVersionedTaskWithLock m (f_Namespace r) (f_Id r) (f_Version r) in
  if IsTerminal (Status task) then Ok m
  else if negb (IsForceTerminable (Status task)) then Err (Permanent ErrForceTerminateRefused)
  else if bool_decide (Status task = TaskStatusSwapping) && AllPostCompletionAcksSuccessful task
  then Err (Permanent ErrForceTerminateRefused)
  else
    let terminalStatus := if decide (f_RequestedTerminalStatus r = TaskStatusCancelled)
                          then TaskStatusCancelled else TaskStatusFailed in
    let task := set_FinishedAt (set_Status task terminalStatus) (f_TerminatedAtUnixMillis r) in
    let task := if decide (f_Reason r <> EmptyString)
                then set_Error task (append_error (Error task) (f_Reason r)) else task in
    Ok (notifySchedulerWithLock (update_task m (f_Namespace r) (f_Id r) task)).

(** [clock.Since]: nanoseconds between the local clock and a stored time,
    saturating at the bounds of a [time.Duration] *)
Definition Since (now : Z) (t : time) : Z := Z.max (- 2 ^ 63) (Z.min (2 ^ 63 - 1) (now - t * 1000000)).

(** [now] is the local clock of the node that applies, in nanoseconds. *)
Definition CleanUpTask (now completedTaskTTL : Z) (m : Manager) (r : CleanUpRequest) : outcome dt_error Manager :=
  let! task := findVersionedTaskWithLock m (l_Namespace r) (l_Id r) (l_Version r) in
  if IsActive (Status task) && IsRecognized (Status task) then Err ErrStillRunning
  else if Since now (FinishedAt task) <=? completedTaskTTL then Err ErrTooFresh
  else Ok (delete_task m (Namespace task) (ID task)).

(** ** Removal with the schema *)

Section extractors.
(** The registered extractors, pure functions of a payload, and [strings.EqualFold] *)
Context (collectionExtractors : gmap string (string -> option string)).
Context (targetVectorExtractors : gmap string (string -> option (string * list string))).
Context (EqualFold : string -> string -> bool).

Definition descriptor (t : Task) : string * Z := (ID t, Version t).

Definition bound_to_collection (collection namespace : string) (t : Task) : bool :=
  match collectionExtractors !! namespace with
  | None => false
  | Some extractor => match extractor (Payload t) with Some c => EqualFold c collection | None => false end
  end.

(** The loops delete the matching tasks of each namespace. *)
Definition DeleteTasksForCollection (m : Manager) (collection : string) : Manager * list (string * Z) :=
  if decide (collection = EmptyString) then (m, [])
  else
    (set_tasks m (map_imap (fun ns ts =>
       Some (filter (fun p => bound_to_collection collection ns p.2 = false) ts)) (tasks m)),
     ns_ts ← map_to_list (tasks m);
     descriptor <$> filter (fun t => bound_to_collection collection ns_ts.1 t = true) (map_values ns_ts.2)).

Definition overlaps (collection : string) (targets : list string) (namespace : string) (t : Task) : bool :=
  match targetVectorExtractors !! namespace with
  | None => false
  | Some extractor =>
      match extractor (Payload t) with
      | Some (c, taskTargetVectors) =>
          EqualFold c collection && existsb (fun v => bool_decide (v ∈ targets)) taskTargetVectors
      | None => false
      end
  end.

Definition PurgeTasksForCollectionTargetVectors (m : Manager) (collection : string) (targets : list string) :
    outcome dt_error (Manager * list (string * Z)) :=
  if decide (collection = EmptyString \/ targets = []) then Ok (m, [])
  else
    let matches := ns_ts ← map_to_list (tasks m);
      filter (fun t => overlaps collection targets ns_ts.1 t = true) (map_values ns_ts.2) in
    if existsb (fun t => IsActive (Status t)) matches then Err ErrTaskStillActiveForTargetVectors
    else
      Ok (set_tasks m (map_imap (fun ns ts =>
            Some (filter (fun p => overlaps collection targets ns p.2 = false) ts)) (tasks m)),
          descriptor <$> matches).
End extractors.

(** ** Queries, snapshots *)

(** [a < b] on strings *)
Fixpoint string_ltb (a b : string) : bool :=
  match a, b with
  | EmptyString, String _ _ => true
  | _, EmptyString => false
  | String x a, String y b =>
      match (Ascii.N_of_ascii x ?= Ascii.N_of_ascii y)%N with
      | Lt => true
      | Gt => false
      | Eq => string_ltb a b
      end
  end.

Definition activity (t : Task) : time := if IsZero (FinishedAt t) then StartedAt t else FinishedAt t.

(** The comparison of [sortTasksForDisplay] *)
Definition display_less (a b : Task) : bool :=
  let aStarted := IsActive (Status a) in
  let bStarted := IsActive (Status b) in
  if negb (eqb aStarted bStarted) then aStarted
  else if negb (activity a =? activity b) then activity b <? activity a
  else string_ltb (ID a) (ID b).

(** [sort.SliceStable] *)
Fixpoint display_insert (t : Task) (l : list Task) : list Task :=
  match l with
  | [] => [t]
  | x :: r => if display_less x t then x :: display_insert t r else t :: l
  end.

Definition sortTasksForDisplay (l : list Task) : list Task := foldr display_insert [] l.

(** A clone is equal to the task it copies. *)
Definition LocalDistributedTasks (m : Manager) : gmap string (list Task) :=
  omap (fun ts => if decide (ts = ∅) then None else Some (sortTasksForDisplay (map_values ts))) (tasks m).

Definition LocalUnrecognizedDistributedTasks (m : Manager) : gmap string (list Task) :=
  omap (fun ts =>
    match filter (fun t => IsRecognized (Status t) = false) (map_values ts) with
    | [] => None
    | l => Some l
    end) (tasks m).

Definition GetDistributedTask (m : Manager) (namespace taskID : string) : option Task :=
  findTaskWithLock m namespace taskID.

(** The content of the JSON document *)
Definition Snapshot (m : Manager) : gmap string (list Task) := LocalDistributedTasks m.

Definition restore_task (ts : gmap string Task) (task : Task) : gmap string Task :=
  let task := if negb (IsTerminal (Status task)) then set_FinishedAt task zero_time else task in
  <[ID task := task]> ts.

(** A namespace with no task gets no entry. *)
Definition Restore (m : Manager) (s : gmap string (list Task)) : Manager :=
  set_tasks m (omap (fun l => match l with [] => None | _ => Some (foldl restore_task ∅ l) end) s).

(** ** The log

    One entry of the raft log, as [Store.Apply] dispatches it (the two removals
    are called by the schema's part of the state machine).  An apply that returns
    an error leaves the state as it was. *)

Inductive command : Type :=
| CAdd (r : AddDistributedTaskRequest)
| CCancel (r : MarkRequest)
| CCleanUp (r : CleanUpRequest)
| CUnitCompleted (r : UnitCompletionRequest)
| CUnitProgress (r : UnitProgressRequest)
| CFinalized (r : MarkRequest)
| CFailed (r : MarkRequest)
| CPostAck (r : AckRequest)
| CPrepAck (r : AckRequest)
| CForceTerminate (r : ForceTerminateRequest)
| CDeleteCollection (collection : string)
| CPurgeTargets (collection : string) (targets : list string).

(** What is configured on a node: the registries, [strings.EqualFold], the TTL *)
Record config : Type := Config {
  cfg_detectors : gmap string ConflictDetector;
  cfg_collections : gmap string (string -> option string);
  cfg_targets : gmap string (string -> option (string * list string));
  cfg_EqualFold : string -> string -> bool;
  cfg_ttl : Z }.

(** [index] is the position in the log, [now] the local clock. *)
Definition run_command (cfg : config) (index now : Z) (m : Manager) (c : command) : outcome dt_error Manager :=
  match c with
  | CAdd r => AddTask (cfg_detectors cfg) m r index
  | CCancel r => CancelTask m r
  | CCleanUp r => CleanUpTask now (cfg_ttl cfg) m r
  | CUnitCompleted r => RecordUnitCompletion m r
  | CUnitProgress r => UpdateUnitProgress m r
  | CFinalized r => MarkTaskFinalized m r
  | CFailed r => MarkTaskFailed m r
  | CPostAck r => RecordPostCompletionAck m r
  | CPrepAck r => RecordPreparationCompleteAck m r
  | CForceTerminate r => ForceTerminateTask m r
  | CDeleteCollection c => Ok (DeleteTasksForCollection (cfg_collections cfg) (cfg_EqualFold cfg) m c).1
  | CPurgeTargets c ts =>
      let! (m, _) := PurgeTasksForCollectionTargetVectors (cfg_targets cfg) (cfg_EqualFold cfg) m c ts in Ok m
  end.

Definition apply (cfg : config) (index now : Z) (m : Manager) (c : command) : Manager :=
  match run_command cfg index now m c with Ok m' => m' | _ => m end.
