(* ===== verification/DistributedTaskInvariant.v ===== *)
(** * Distributed tasks: what every log preserves

    [task_step] lists the changes an apply makes to the task it found; every
    apply method is shown to make one of them.  From that follow the invariant of
    reachable states, the lifecycle of a task, the preparation barrier and the
    finality of terminal tasks; snapshots, the display order and the removals are
    treated after it. *)

From stdpp Require Import strings sorting.
From Stdlib Require Import QArith.QArith.
From S2P Require Import Prelude DistributedTask.

#[local] Open Scope Z_scope.

(** ** Finding a task after an update *)

Lemma find_update m ns id t ns' id' :
  findTaskWithLock (update_task m ns id t) ns' id' =
  if decide (ns' = ns /\ id' = id) then Some t else findTaskWithLock m ns' id'.
Proof.
  unfold findTaskWithLock, update_task. simpl.
  destruct (decide (ns' = ns)) as [->|Hns].
  - rewrite lookup_insert_eq. destruct (decide (id' = id)) as [->|Hid].
    + rewrite decide_True by done. by rewrite lookup_insert_eq.
    + rewrite decide_False by naive_solver. rewrite lookup_insert_ne by done.
      by destruct (tasks m !! ns).
  - rewrite decide_False by naive_solver. by rewrite lookup_insert_ne.
Qed.

Lemma find_notify m ns id : findTaskWithLock (notifySchedulerWithLock m) ns id = findTaskWithLock m ns id.
Proof. done. Qed.

Lemma find_delete m ns id ns' id' :
  findTaskWithLock (delete_task m ns id) ns' id' =
  if decide (ns' = ns /\ id' = id) then None else findTaskWithLock m ns' id'.
Proof.
  unfold findTaskWithLock, delete_task. destruct (tasks m !! ns) as [ts|] eqn:E; simpl.
  - destruct (decide (ns' = ns)) as [->|Hns].
    + rewrite lookup_insert_eq, E. destruct (decide (id' = id)) as [->|Hid].
      * rewrite decide_True by done. by rewrite lookup_delete_eq.
      * rewrite decide_False by naive_solver. by rewrite lookup_delete_ne.
    + rewrite decide_False by naive_solver. by rewrite lookup_insert_ne.
  - case_decide as Hd; [|done]. destruct Hd as [-> ->]. by rewrite E.
Qed.

Lemma findVersioned_Ok m ns id v t :
  findVersionedTaskWithLock m ns id v = Ok t -> findTaskWithLock m ns id = Some t /\ Version t = v.
Proof.
  unfold findVersionedTaskWithLock. destruct (findTaskWithLock m ns id) as [t'|]; [|done].
  destruct (Z.eqb_spec (Version t') v); [|done]. by intros [= ->].
Qed.

Lemma findStarted_Ok m ns id v uid node t u :
  findStartedUnitWithLock m ns id v uid node = Ok (t, u) ->
  findTaskWithLock m ns id = Some t /\ Version t = v /\ Status t = TaskStatusStarted /\
  Units t !! uid = Some u /\ (u_NodeID u = EmptyString \/ u_NodeID u = node).
Proof.
  unfold findStartedUnitWithLock. intros H. inv_ok H. apply findVersioned_Ok in Ha as [Hf Hv].
  case_decide as Hs; [|done]. destruct (Units a !! uid) as [u'|] eqn:Eu; [|done].
  case_decide as Hn; [done|]. injection H as -> ->.
  split_and!; auto. destruct (decide (u_NodeID u = EmptyString)), (decide (u_NodeID u = node)); naive_solver.
Qed.

(** ** The changes of one task *)

(** Everything that identifies a task and steers its lifecycle, but for its status
    and the acknowledgements of the swap *)
Definition same_core (t t' : Task) : Prop :=
  Namespace t' = Namespace t /\ ID t' = ID t /\ Version t' = Version t /\
  NeedsPreparationBarrier t' = NeedsPreparationBarrier t /\ MaxUnitRetries t' = MaxUnitRetries t /\
  Units t' = Units t /\ PreparationCompletionAcks t' = PreparationCompletionAcks t.

Definition unit_recognized (u : Unit_) : Prop :=
  match u_Status u with UnitStatusOther _ => False | _ => True end.

Inductive task_step (t : Task) : Task -> Prop :=
| step_open uid u u' :                        (* progress, or a retry *)
    Status t = TaskStatusStarted -> Units t !! uid = Some u -> unit_terminal u = false ->
    u_ID u' = u_ID u -> (unit_recognized u -> unit_recognized u') -> unit_terminal u' = false ->
    (u_Attempts u' = u_Attempts u \/ u_Attempts u' = u_Attempts u + 1 /\ u_Attempts u < MaxUnitRetries t) ->
    task_step t (set_Units t (<[uid := u']> (Units t)))
| step_unit_failed uid u u' e at_ :
    Status t = TaskStatusStarted -> Units t !! uid = Some u -> unit_terminal u = false ->
    u_ID u' = u_ID u -> u_Status u' = UnitStatusFailed -> u_Attempts u' = u_Attempts u ->
    task_step t (task_markTerminal (set_Error (set_Units t (<[uid := u']> (Units t))) e) TaskStatusFailed at_)
| step_unit_completed uid u u' at_ :
    Status t = TaskStatusStarted -> Units t !! uid = Some u -> unit_terminal u = false ->
    u_ID u' = u_ID u -> u_Status u' = UnitStatusCompleted -> u_Attempts u' = u_Attempts u ->
    let t1 := set_Units t (<[uid := u']> (Units t)) in
    task_step t (if AllUnitsTerminal t1 then
                   if AnyUnitFailed t1 then task_markTerminal t1 TaskStatusFailed at_
                   else if NeedsPreparationBarrier t1 then set_Status t1 TaskStatusPreparing
                   else set_Status t1 TaskStatusSwapping
                 else t1)
| step_post_ack node ack :
    Status t = TaskStatusStarted \/ Status t = TaskStatusSwapping -> PostCompletionAcks t !! node = None ->
    task_step t (set_PostAcks t (<[node := ack]> (PostCompletionAcks t)))
| step_prep_ack node ack :
    Status t = TaskStatusStarted \/ Status t = TaskStatusPreparing -> PreparationCompletionAcks t !! node = None ->
    task_step t (set_PrepAcks t (<[node := ack]> (PreparationCompletionAcks t)))
| step_barrier node ack :
    Status t = TaskStatusPreparing -> PreparationCompletionAcks t !! node = None ->
    let t1 := set_PrepAcks t (<[node := ack]> (PreparationCompletionAcks t)) in
    allExpectedPreparationAcksLanded t1 = true -> task_step t (set_Status t1 TaskStatusSwapping)
| step_prep_failed node ack t' :
    Status t = TaskStatusPreparing -> PreparationCompletionAcks t !! node = None ->
    same_core (set_PrepAcks t (<[node := ack]> (PreparationCompletionAcks t))) t' ->
    Status t' = TaskStatusFailed -> task_step t t'
| step_end t' :                               (* finalized, failed, cancelled, terminated *)
    same_core t t' -> IsTerminal (Status t') = true ->
    match Status t with
    | TaskStatusSwapping => True
    | TaskStatusStarted | TaskStatusPreparing => Status t' <> TaskStatusFinished
    | _ => False
    end -> task_step t t'.

(** An apply method leaves the state alone or makes one step of one task; it wakes
    the scheduler if it changed a status. *)
Definition task_effect (m m' : Manager) : Prop :=
  m' = m \/
  exists ns id t t',
    findTaskWithLock m ns id = Some t /\ task_step t t' /\
    tasks m' = tasks (update_task m ns id t') /\
    (wakes m' = S (wakes m) \/ wakes m' = wakes m /\ Status t' = Status t).

Lemma effect_notify m ns id t t' :
  findTaskWithLock m ns id = Some t -> task_step t t' ->
  task_effect m (notifySchedulerWithLock (update_task m ns id t')).
Proof. intros Hf Hs. right. exists ns, id, t, t'. split_and!; auto. Qed.

Lemma RecordUnitCompletion_effect m r m' : RecordUnitCompletion m r = Ok m' -> task_effect m m'.
Proof.
  unfold RecordUnitCompletion. intros H. inv_ok H. destruct a as [t u].
  apply findStarted_Ok in Ha as (Hf & Hv & Hs & Hu & _).
  destruct (unit_terminal u) eqn:Ht; [done|]. cbv zeta in H.
  case_decide as He; [destruct (_ && _) eqn:Hretry|]; injection H as <-.
  - apply effect_notify with t; [done|]. eapply step_open; eauto; simpl; [done|].
    rewrite !andb_true_iff, !Z.ltb_lt in Hretry. simpl in Hretry. right. lia.
  - apply effect_notify with t; [done|]. by eapply step_unit_failed.
  - apply effect_notify with t; [done|]. by eapply step_unit_completed.
Qed.

Lemma RecordPostCompletionAck_effect m r m' : RecordPostCompletionAck m r = Ok m' -> task_effect m m'.
Proof.
  unfold RecordPostCompletionAck. case_decide; [done|]. intros H'. inv_ok H'. rename a into t.
  apply findVersioned_Ok in Ha as [Hf Hv].
  assert (Status t = TaskStatusStarted \/ Status t = TaskStatusSwapping \/ m' = m) as Hs
    by (destruct (Status t); try done; auto; right; right; congruence).
  destruct Hs as [Hs|[Hs| ->]]; [| |by left]; rewrite Hs in H';
    (destruct (PostCompletionAcks t !! k_NodeId r) eqn:Ea; [left; congruence|]); injection H' as <-;
    (apply effect_notify with t; [done|]).
  - simpl. rewrite Hs, andb_false_r. apply step_post_ack; auto.
  - simpl. rewrite Hs, andb_true_r. destruct (k_Success r); simpl; [apply step_post_ack; auto|].
    apply step_end; [by repeat split|done|by rewrite Hs].
Qed.

Lemma RecordPreparationCompleteAck_effect m r m' : RecordPreparationCompleteAck m r = Ok m' -> task_effect m m'.
Proof.
  unfold RecordPreparationCompleteAck. case_decide; [done|]. intros H'. inv_ok H'. rename a into t.
  apply findVersioned_Ok in Ha as [Hf Hv].
  assert (Status t = TaskStatusStarted \/ Status t = TaskStatusPreparing \/ m' = m) as Hs
    by (destruct (Status t); try done; auto; right; right; congruence).
  destruct Hs as [Hs|[Hs| ->]]; [| |by left]; rewrite Hs in H';
    (destruct (PreparationCompletionAcks t !! k_NodeId r) eqn:Ea; [left; congruence|]); injection H' as <-;
    (apply effect_notify with t; [done|]).
  - simpl. rewrite Hs, !andb_false_r. apply step_prep_ack; auto.
  - simpl. rewrite Hs, !andb_true_r. destruct (k_Success r); simpl.
    + destruct (allExpectedPreparationAcksLanded _) eqn:El; [by eapply step_barrier|apply step_prep_ack; auto].
    + eapply step_prep_failed; eauto. by repeat split.
Qed.

Lemma MarkTaskFinalized_effect m r m' : MarkTaskFinalized m r = Ok m' -> task_effect m m'.
Proof.
  unfold MarkTaskFinalized. intros H. inv_ok H. rename a into t. apply findVersioned_Ok in Ha as [Hf Hv].
  destruct (Status t) eqn:Hs; try done; injection H as <-; [|by left].
  apply effect_notify with t; [done|]. apply step_end; [by repeat split|done|by rewrite Hs].
Qed.

Lemma MarkTaskFailed_effect m r m' : MarkTaskFailed m r = Ok m' -> task_effect m m'.
Proof.
  unfold MarkTaskFailed. intros H. inv_ok H. rename a into t. apply findVersioned_Ok in Ha as [Hf Hv].
  destruct (Status t) eqn:Hs; try done; injection H as <-; [|by left].
  apply effect_notify with t; [done|]. apply step_end; [|done|by rewrite Hs].
  case_decide; by repeat split.
Qed.

Lemma UpdateUnitProgress_effect m r m' : UpdateUnitProgress m r = Ok m' -> task_effect m m'.
Proof.
  unfold UpdateUnitProgress. intros H. inv_ok H. destruct a as [t u].
  apply findStarted_Ok in Ha as (Hf & Hv & Hs & Hu & _).
  destruct (unit_terminal u) eqn:Ht; [left; congruence|]. destruct (_ || _); [done|]. cbv zeta in H.
  injection H as <-. set (u' := Unit (u_ID u) _ _ _ _ _ _ _ _).
  assert (task_step t (set_Units t (<[p_UnitId r := u']> (Units t)))) as Hstep.
  { apply (step_open t _ u); auto.
    - unfold unit_recognized. simpl. by case_bool_decide.
    - unfold unit_terminal in *. simpl. case_bool_decide; [done|]. exact Ht. }
  right. exists (p_Namespace r), (p_Id r), t, (set_Units t (<[p_UnitId r := u']> (Units t))).
  split_and!; auto; case_bool_decide; auto.
Qed.

Lemma CancelTask_effect m r m' : CancelTask m r = Ok m' -> task_effect m m'.
Proof.
  unfold CancelTask. intros H. inv_ok H. rename a into t. apply findVersioned_Ok in Ha as [Hf Hv].
  unfold IsCancellable in H. case_bool_decide as Hs; [|done]. injection H as <-.
  apply effect_notify with t; [done|]. apply step_end; [by repeat split|done|by rewrite Hs].
Qed.

Lemma ForceTerminateTask_effect m r m' : ForceTerminateTask m r = Ok m' -> task_effect m m'.
Proof.
  unfold ForceTerminateTask. intros H. inv_ok H. rename a into t. apply findVersioned_Ok in Ha as [Hf Hv].
  destruct (IsTerminal (Status t)) eqn:Ht; [left; congruence|].
  destruct (IsForceTerminable (Status t)) eqn:Hft; [|done]. simpl in H.
  destruct (_ && _); [done|]. injection H as <-. apply effect_notify with t; [done|].
  apply step_end.
  - case_decide; by repeat split.
  - case_decide; simpl; by case_decide.
  - destruct (Status t); try done; (case_decide; simpl; by case_decide).
Qed.

(** ** The predicates over units and acknowledgements *)

Lemma map_values_elem {A} (m : gmap string A) x : x ∈ map_values m <-> exists k, m !! k = Some x.
Proof.
  unfold map_values. rewrite list_elem_of_fmap. split.
  - intros ([k y] & -> & H%elem_of_map_to_list). eauto.
  - intros [k H]. exists (k, x). split; [done|]. by apply elem_of_map_to_list.
Qed.

Lemma forallb_elem {A} (f : A -> bool) l : forallb f l = true <-> forall x, x ∈ l -> f x = true.
Proof. rewrite forallb_forall. by setoid_rewrite list_elem_of_In. Qed.

Lemma existsb_elem {A} (f : A -> bool) l : existsb f l = true <-> exists x, x ∈ l /\ f x = true.
Proof. rewrite existsb_exists. by setoid_rewrite list_elem_of_In. Qed.

Lemma AllUnitsTerminal_spec t :
  AllUnitsTerminal t = true <-> forall id u, Units t !! id = Some u -> unit_terminal u = true.
Proof. unfold AllUnitsTerminal. rewrite forallb_elem. setoid_rewrite map_values_elem. naive_solver. Qed.

Lemma AllUnitsTerminal_false t :
  AllUnitsTerminal t = false -> exists id u, Units t !! id = Some u /\ unit_terminal u = false.
Proof.
  unfold AllUnitsTerminal. intros H. assert (existsb (fun u => negb (unit_terminal u)) (map_values (Units t)) = true) as Hex.
  { revert H. generalize (map_values (Units t)). induction l as [|u l IH]; simpl; [done|].
    destruct (unit_terminal u); simpl; auto. }
  apply existsb_elem in Hex as (u & [id Hu]%map_values_elem & Hn). exists id, u. split; [done|]. by apply negb_true_iff.
Qed.

Lemma AnyUnitFailed_spec t :
  AnyUnitFailed t = true <-> exists id u, Units t !! id = Some u /\ u_Status u = UnitStatusFailed.
Proof.
  unfold AnyUnitFailed. rewrite existsb_elem. setoid_rewrite map_values_elem.
  setoid_rewrite bool_decide_eq_true. naive_solver.
Qed.

Lemma elem_of_NodesWithLocalUnits t n :
  n ∈ NodesWithLocalUnits t <-> n <> EmptyString /\ exists id u, Units t !! id = Some u /\ u_NodeID u = n.
Proof.
  unfold NodesWithLocalUnits. rewrite elem_of_list_to_set, list_elem_of_filter, list_elem_of_fmap.
  setoid_rewrite map_values_elem. naive_solver.
Qed.

Lemma allExpected_spec t :
  allExpectedPreparationAcksLanded t = true <->
  forall n, n ∈ NodesWithLocalUnits t -> acked (PreparationCompletionAcks t) n = true.
Proof. unfold allExpectedPreparationAcksLanded. rewrite forallb_elem. by setoid_rewrite elem_of_elements. Qed.

(** ** The invariant of a task *)

Record task_ok (t : Task) : Prop := {
  ok_units : Units t <> ∅;
  ok_unit id u : Units t !! id = Some u ->
    u_ID u = id /\ 0 <= u_Attempts u <= Z.max 0 (MaxUnitRetries t) /\ unit_recognized u /\
    (u_Status u = UnitStatusFailed -> Status t = TaskStatusFailed);
  ok_recognized : IsRecognized (Status t) = true;
  ok_started : Status t = TaskStatusStarted ->
    exists id u, Units t !! id = Some u /\ unit_terminal u = false;
  ok_done id u : Status t = TaskStatusPreparing \/ IsCompleted (Status t) = true ->
    Units t !! id = Some u -> u_Status u = UnitStatusCompleted;
  ok_preparing : Status t = TaskStatusPreparing -> NeedsPreparationBarrier t = true;
  ok_barrier : IsCompleted (Status t) = true -> NeedsPreparationBarrier t = true ->
    allExpectedPreparationAcksLanded t = true;
  ok_finished : IsTerminal (Status t) = false -> FinishedAt t = zero_time }.

Lemma same_core_barrier t t' :
  same_core t t' -> allExpectedPreparationAcksLanded t' = allExpectedPreparationAcksLanded t.
Proof.
  intros (_ & _ & _ & _ & _ & Hu & Ha).
  unfold allExpectedPreparationAcksLanded, NodesWithLocalUnits. by rewrite Hu, Ha.
Qed.

(** Ending a task keeps the invariant: the end FINISHED is reached from SWAPPING only. *)
Lemma end_ok t t' :
  same_core t t' -> IsTerminal (Status t') = true ->
  (Status t' = TaskStatusFinished -> Status t = TaskStatusSwapping) ->
  (Status t' <> TaskStatusFailed -> Status t <> TaskStatusFailed) ->
  task_ok t -> task_ok t'.
Proof.
  intros Hc Ht Hfin Hfail [Hne Hu Hr Hs Hd Hp Hb Hf].
  assert (Hbar := same_core_barrier _ _ Hc). destruct Hc as (_ & _ & _ & Hnb & Hmax & Hus & _).
  assert (IsCompleted (Status t') = true -> Status t = TaskStatusSwapping) as Hcomp
    by (destruct (Status t'); simpl in *; try done; auto).
  split; rewrite ?Hus, ?Hnb, ?Hmax, ?Hbar; auto.
  - intros id u Hl. destruct (Hu id u Hl) as (? & ? & ? & Hx). split_and!; auto; try lia.
    intros Hx'%Hx. destruct (decide (Status t' = TaskStatusFailed)); [done|]. by destruct (Hfail ltac:(done)).
  - by destruct (Status t').
  - intros Hx. by rewrite Hx in Ht.
  - intros id u [Hx|Hx] Hl; [by rewrite Hx in Ht|]. apply Hcomp in Hx. apply (Hd id); auto. right. by rewrite Hx.
  - intros Hx. by rewrite Hx in Ht.
  - intros Hx. apply Hcomp in Hx. apply Hb. by rewrite Hx.
  - intros Hx. congruence.
Qed.

Lemma insert_nonempty {A} (m : gmap string A) k x : <[k := x]> m <> ∅.
Proof. apply insert_non_empty. Qed.

(** A unit of a STARTED task changes; the attempts stay within the budget. *)
Lemma unit_insert_ok t uid u u' :
  task_ok t -> Units t !! uid = Some u -> u_ID u' = u_ID u -> unit_recognized u' ->
  (u_Attempts u' = u_Attempts u \/ u_Attempts u' = u_Attempts u + 1 /\ u_Attempts u < MaxUnitRetries t) ->
  forall id v, <[uid := u']> (Units t) !! id = Some v ->
    u_ID v = id /\ 0 <= u_Attempts v <= Z.max 0 (MaxUnitRetries t) /\ unit_recognized v /\
    (v = u' \/ Units t !! id = Some v).
Proof.
  intros Hok Hu Hid Hrec Hatt id v. destruct (ok_unit t Hok uid u Hu) as (Hi & Ha & _ & _).
  destruct (decide (id = uid)) as [->|Hne].
  - rewrite lookup_insert_eq. intros [= <-]. split_and!; [congruence|lia|lia|done|by left].
  - rewrite lookup_insert_ne by done. intros Hv. destruct (ok_unit t Hok id v Hv) as (? & ? & ? & _).
    split_and!; auto; lia.
Qed.

Lemma no_failed_unit t id u :
  task_ok t -> Status t = TaskStatusStarted -> Units t !! id = Some u -> u_Status u <> UnitStatusFailed.
Proof. intros Hok Hs Hu Hf. destruct (ok_unit t Hok id u Hu) as (_ & _ & _ & Hx). by rewrite (Hx Hf) in Hs. Qed.

Lemma completed_recognized u : u_Status u = UnitStatusCompleted -> unit_recognized u.
Proof. unfold unit_recognized. by intros ->. Qed.

Lemma step_open_ok t uid u u' :
  task_ok t -> Status t = TaskStatusStarted -> Units t !! uid = Some u -> unit_terminal u = false ->
  u_ID u' = u_ID u -> (unit_recognized u -> unit_recognized u') -> unit_terminal u' = false ->
  (u_Attempts u' = u_Attempts u \/ u_Attempts u' = u_Attempts u + 1 /\ u_Attempts u < MaxUnitRetries t) ->
  task_ok (set_Units t (<[uid := u']> (Units t))).
Proof.
  intros Hok Hs Hu Ht Hid Hrec Ht' Hatt.
  assert (Hins := unit_insert_ok t uid u u' Hok Hu Hid (Hrec (proj1 (proj2 (proj2 (ok_unit t Hok uid u Hu))))) Hatt).
  split; simpl; rewrite ?Hs; try done.
  - apply insert_nonempty.
  - intros id v Hv. destruct (Hins id v Hv) as (? & ? & ? & Hor). split_and!; auto; try lia.
    intros Hf. destruct Hor as [->|Hv']; [unfold unit_terminal in Ht'; by rewrite Hf in Ht'|].
    by destruct (no_failed_unit t id v Hok Hs Hv').
  - intros _. exists uid, u'. by rewrite lookup_insert_eq.
  - naive_solver.
  - intros _. apply (ok_finished t Hok). by rewrite Hs.
Qed.

Lemma step_failed_ok t uid u u' e at_ :
  task_ok t -> Units t !! uid = Some u -> u_ID u' = u_ID u -> u_Status u' = UnitStatusFailed ->
  u_Attempts u' = u_Attempts u ->
  task_ok (task_markTerminal (set_Error (set_Units t (<[uid := u']> (Units t))) e) TaskStatusFailed at_).
Proof.
  intros Hok Hu Hid Hf Hatt.
  assert (Hins := unit_insert_ok t uid u u' Hok Hu Hid ltac:(unfold unit_recognized; by rewrite Hf) (or_introl Hatt)).
  split; simpl; try done.
  - apply insert_nonempty.
  - intros id v Hv. destruct (Hins id v Hv) as (? & ? & ? & _). split_and!; auto; lia.
  - naive_solver.
Qed.

Lemma step_completed_ok t uid u u' at_ :
  task_ok t -> Status t = TaskStatusStarted -> Units t !! uid = Some u ->
  u_ID u' = u_ID u -> u_Status u' = UnitStatusCompleted -> u_Attempts u' = u_Attempts u ->
  let t1 := set_Units t (<[uid := u']> (Units t)) in
  task_ok (if AllUnitsTerminal t1 then
             if AnyUnitFailed t1 then task_markTerminal t1 TaskStatusFailed at_
             else if NeedsPreparationBarrier t1 then set_Status t1 TaskStatusPreparing
             else set_Status t1 TaskStatusSwapping
           else t1).
Proof.
  intros Hok Hs Hu Hid Hc Hatt t1.
  assert (Hins := unit_insert_ok t uid u u' Hok Hu Hid (completed_recognized _ Hc) (or_introl Hatt)).
  assert (Hnf : forall id v, Units t1 !! id = Some v -> u_Status v <> UnitStatusFailed).
  { intros id v Hv. destruct (Hins id v Hv) as (_ & _ & _ & [->|Hv']); [by rewrite Hc|].
    by apply (no_failed_unit t id v). }
  assert (Hunit : forall s id v, Units t1 !! id = Some v ->
    u_ID v = id /\ 0 <= u_Attempts v <= Z.max 0 (MaxUnitRetries t) /\ unit_recognized v /\
    (u_Status v = UnitStatusFailed -> s = TaskStatusFailed)).
  { intros s id v Hv. destruct (Hins id v Hv) as (? & ? & ? & _). split_and!; auto; try lia.
    intros Hf. by destruct (Hnf id v Hv). }
  assert (Units t1 <> ∅) as Hne by apply insert_nonempty.
  assert (FinishedAt t1 = zero_time) as Hfin by (apply (ok_finished t Hok); by rewrite Hs).
  destruct (AllUnitsTerminal t1) eqn:Hall.
  - assert (Hdone : forall id v, Units t1 !! id = Some v -> u_Status v = UnitStatusCompleted).
    { intros id v Hv. assert (unit_terminal v = true) as Ht by (by eapply AllUnitsTerminal_spec).
      unfold unit_terminal in Ht. specialize (Hnf id v Hv). by destruct (u_Status v). }
    destruct (AnyUnitFailed t1) eqn:Hany.
    { apply AnyUnitFailed_spec in Hany as (id & v & Hv & Hf). by destruct (Hnf id v Hv). }
    destruct (NeedsPreparationBarrier t1) eqn:Hbar.
    + split; cbn [set_Status Units MaxUnitRetries Status NeedsPreparationBarrier FinishedAt]; try done; eauto.
    + split; cbn [set_Status Units MaxUnitRetries Status NeedsPreparationBarrier FinishedAt]; try done; eauto.
      by rewrite Hbar.
  - apply AllUnitsTerminal_false in Hall. assert (Status t1 = TaskStatusStarted) as Hs1 by done.
    split; rewrite ?Hs1; try done; eauto. naive_solver.
Qed.

Lemma set_acks_ok t prep post :
  task_ok t -> (IsCompleted (Status t) = true -> prep = PreparationCompletionAcks t) ->
  task_ok (set_PrepAcks (set_PostAcks t post) prep).
Proof.
  intros [Hne Hu Hr Hs Hd Hp Hb Hf] Hprep. split; simpl; auto.
  intros Hc Hbar. rewrite <- (Hb Hc Hbar). rewrite (Hprep Hc). done.
Qed.

Lemma task_step_ok t t' : task_step t t' -> task_ok t -> task_ok t'.
Proof.
  intros Hstep Hok.
  destruct Hstep as [| | |node ack Hs Ha|node ack Hs Ha|node ack Hs Ha t1 Hl|node ack t' Hs Ha Hc Ht'|t' Hc Ht Hs].
  - by eapply step_open_ok.
  - by eapply step_failed_ok.
  - by eapply step_completed_ok.
  - replace (set_PostAcks t _) with (set_PrepAcks (set_PostAcks t (<[node:=ack]> (PostCompletionAcks t)))
      (PreparationCompletionAcks t)) by (by destruct t). by apply set_acks_ok.
  - replace (set_PrepAcks t _) with (set_PrepAcks (set_PostAcks t (PostCompletionAcks t))
      (<[node:=ack]> (PreparationCompletionAcks t))) by (by destruct t).
    apply set_acks_ok; [done|]. destruct Hs as [Hs|Hs]; by rewrite Hs.
  - destruct Hok as [Hne Hu Hr Hst Hd Hp Hb Hf]. rewrite Hs in *.
    split; simpl; try done; try (by auto); by naive_solver.
  - apply (end_ok _ _ Hc); [by rewrite Ht'|by rewrite Ht'|done|].
    replace (set_PrepAcks t _) with (set_PrepAcks (set_PostAcks t (PostCompletionAcks t))
      (<[node:=ack]> (PreparationCompletionAcks t))) by (by destruct t).
    apply set_acks_ok; [done|]. by rewrite Hs.
  - apply (end_ok _ _ Hc); auto; destruct (Status t); simpl in *; naive_solver.
Qed.

(** The edges of the lifecycle *)
Inductive edge : TaskStatus -> TaskStatus -> Prop :=
| edge_stay s : edge s s
| edge_prepare : edge TaskStatusStarted TaskStatusPreparing
| edge_swap : edge TaskStatusStarted TaskStatusSwapping
| edge_lift : edge TaskStatusPreparing TaskStatusSwapping
| edge_finish : edge TaskStatusSwapping TaskStatusFinished
| edge_abort s s' : IsForceTerminable s = true ->
    s' = TaskStatusFailed \/ s' = TaskStatusCancelled -> edge s s'.

Lemma task_step_edge t t' : task_step t t' -> edge (Status t) (Status t').
Proof.
  intros Hstep.
  destruct Hstep as [uid u u' Hs|uid u u' e at_ Hs|uid u u' at_ Hs Hu Ht Hid Hst Hat t1
    |node ack Hs Ha|node ack Hs Ha|node ack Hs Ha t1 Hl|node ack t' Hs Ha Hc Ht'|t' Hc Ht Hs];
    simpl; try by constructor.
  - rewrite Hs. by apply edge_abort; [|left].
  - destruct (AllUnitsTerminal t1); [|constructor]. rewrite Hs.
    destruct (AnyUnitFailed t1); [by apply edge_abort; [|left]|].
    destruct (NeedsPreparationBarrier t); constructor.
  - rewrite Hs. constructor.
  - rewrite Hs, Ht'. by apply edge_abort; [|left].
  - destruct (Status t) eqn:E; try done;
      destruct (Status t'); try done; try constructor; try done; by auto.
Qed.

(** A terminal task makes no step. *)
Lemma task_step_terminal t t' : task_step t t' -> IsTerminal (Status t) = false.
Proof.
  intros Hstep. destruct Hstep as [uid u u' Hs| uid u u' e at_ Hs|uid u u' at_ Hs|node ack Hs|node ack Hs|node ack Hs|node ack t' Hs|t' _ _ Hs];
    try (by rewrite Hs); try (by destruct Hs as [-> | ->]). by destruct (Status t).
Qed.

Lemma task_step_ident t t' :
  task_step t t' -> Namespace t' = Namespace t /\ ID t' = ID t /\ Version t' = Version t.
Proof.
  intros Hstep. destruct Hstep as [| |uid u u' at_ Hs Hu Ht Hid Hst Hat t1| | | |node ack t' Hs Ha Hc|t' Hc]; try done.
  - by destruct (AllUnitsTerminal t1), (AnyUnitFailed t1), (NeedsPreparationBarrier t1).
  - destruct Hc as (? & ? & ? & _). done.
  - destruct Hc as (? & ? & ? & _). done.
Qed.

(** ** Adding and removing *)

(** A new task replaces none that is STARTED and is newer than what it replaces. *)
Definition task_added (index : Z) (m m' : Manager) : Prop :=
  exists t, tasks m' = tasks (setTaskWithLock m t) /\ wakes m' = S (wakes m) /\
    Version t = index /\ Status t = TaskStatusStarted /\ task_ok t /\
    match findTaskWithLock m (Namespace t) (ID t) with
    | None => True
    | Some t0 => Status t0 <> TaskStatusStarted /\ Version t0 < index
    end.

Lemma fresh_units_ok {A} (f : A -> string * string) (l : list A) : forall us : gmap string Unit_,
  (l <> [] \/ us <> ∅) -> (forall id u, us !! id = Some u -> u = new_unit id (u_GroupID u)) ->
  let us' := foldl (fun us x => <[(f x).1 := new_unit (f x).1 (f x).2]> us) us l in
  us' <> ∅ /\ forall id u, us' !! id = Some u -> u = new_unit id (u_GroupID u).
Proof.
  induction l as [|x l IH]; intros us Hne Hus; simpl; [naive_solver|].
  apply IH; [right; apply insert_nonempty|]. intros id u.
  destruct (decide (id = (f x).1)) as [->|]; [rewrite lookup_insert_eq; by intros [= <-]|].
  rewrite lookup_insert_ne by done. apply Hus.
Qed.

Lemma new_task_ok ns id v p b s st mx us :
  us <> ∅ -> (forall id u, us !! id = Some u -> u = new_unit id (u_GroupID u)) ->
  task_ok (MkTask ns id v p b TaskStatusStarted s zero_time EmptyString 1 st mx us ∅ ∅).
Proof.
  intros Hne Hus. split; simpl; try done.
  - intros uid u Hu. rewrite (Hus uid u Hu). simpl. split_and!; try done; lia.
  - intros _. destruct (map_choose us Hne) as (uid & u & Hu). exists uid, u. split; [done|].
    by rewrite (Hus uid u Hu).
  - naive_solver.
Qed.

Lemma AddTask_added cds m r index m' : AddTask cds m r index = Ok m' -> task_added index m m'.
Proof.
  unfold AddTask. intros H. inv_ok H. inv_ok H. inv_ok H. injection H as <-. rename a1 into us.
  eexists. split; [reflexivity|]. simpl. split_and!; try done.
  - assert (us <> ∅ /\ forall id u, us !! id = Some u -> u = new_unit id (u_GroupID u)) as [Hne Hus].
    { destruct (a_UnitSpecs r) as [|spec specs]; [destruct (a_UnitIds r) as [|uid ids]; [done|]|]; injection Ha1 as <-.
      - apply (fresh_units_ok (fun x => (x, EmptyString)) (uid :: ids) ∅); [by left|]. intros id u. by rewrite lookup_empty.
      - apply (fresh_units_ok (fun x => x) (spec :: specs) ∅); [by left|]. intros id u. by rewrite lookup_empty. }
    by apply new_task_ok.
  - destruct (findTaskWithLock m (a_Namespace r) (a_Id r)) as [t0|]; [|done].
    case_decide as Hst; [done|]. destruct (Z.leb_spec index (Version t0)); [done|]. done.
Qed.

(** A removal keeps the tasks that are left as they are, and wakes nobody. *)
Definition tasks_removed (m m' : Manager) : Prop :=
  wakes m' = wakes m /\
  forall ns id t, findTaskWithLock m' ns id = Some t -> findTaskWithLock m ns id = Some t.

Lemma CleanUpTask_removed now ttl m r m' : CleanUpTask now ttl m r = Ok m' -> tasks_removed m m'.
Proof.
  unfold CleanUpTask. intros H. inv_ok H. destruct (_ && _); [done|].
  destruct (_ <=? ttl); [done|]. injection H as <-. split; [unfold delete_task; by case_match|]. intros ns id t. rewrite find_delete. by case_decide.
Qed.

Lemma find_filtered m (f : string -> Task -> bool) ns id :
  findTaskWithLock (set_tasks m (map_imap (fun ns ts => Some (filter (fun p => f ns p.2 = false) ts)) (tasks m))) ns id
  = match findTaskWithLock m ns id with
    | Some t => if f ns t then None else Some t
    | None => None
    end.
Proof.
  unfold findTaskWithLock, set_tasks. cbn [tasks]. rewrite map_lookup_imap.
  destruct (tasks m !! ns) as [ts|]; [|done]. cbn. rewrite map_lookup_filter.
  destruct (ts !! id) as [t|]; [|done]. simpl. case_guard as Hg; simpl in *; [by rewrite Hg|].
  by destruct (f ns t).
Qed.

Lemma DeleteTasks_removed ce ef m c : tasks_removed m (DeleteTasksForCollection ce ef m c).1.
Proof.
  unfold DeleteTasksForCollection. case_decide; [by split|]. split; [done|].
  intros ns id t. cbn [fst]. rewrite (find_filtered m (bound_to_collection ce ef c)). repeat case_match; naive_solver.
Qed.

Lemma Purge_removed te ef m c ts m' l :
  PurgeTasksForCollectionTargetVectors te ef m c ts = Ok (m', l) -> tasks_removed m m'.
Proof.
  unfold PurgeTasksForCollectionTargetVectors. case_decide; [intros [= <- _]; by split|].
  destruct (existsb _ _); [done|]. intros [= <- _]. split; [done|].
  intros ns id t. rewrite (find_filtered m (overlaps te ef c ts)). repeat case_match; naive_solver.
Qed.

Lemma run_command_effect cfg index now m c m' :
  run_command cfg index now m c = Ok m' ->
  task_effect m m' \/ task_added index m m' \/ tasks_removed m m'.
Proof.
  destruct c; simpl; intros H.
  - right. left. by eapply AddTask_added.
  - left. by eapply CancelTask_effect.
  - right. right. by eapply CleanUpTask_removed.
  - left. by eapply RecordUnitCompletion_effect.
  - left. by eapply UpdateUnitProgress_effect.
  - left. by eapply MarkTaskFinalized_effect.
  - left. by eapply MarkTaskFailed_effect.
  - left. by eapply RecordPostCompletionAck_effect.
  - left. by eapply RecordPreparationCompleteAck_effect.
  - left. by eapply ForceTerminateTask_effect.
  - right. right. injection H as <-. apply DeleteTasks_removed.
  - right. right. inv_ok H. destruct a as [m1 l]. injection H as <-. by eapply Purge_removed.
Qed.

Lemma dt_apply_effect cfg index now m c :
  let m' := apply cfg index now m c in task_effect m m' \/ task_added index m m' \/ tasks_removed m m'.
Proof.
  unfold apply. destruct (run_command cfg index now m c) as [m'| | |] eqn:E; try (left; by left).
  by eapply run_command_effect.
Qed.

(** ** Snapshots *)

Lemma display_insert_perm t l : display_insert t l ≡ₚ t :: l.
Proof. induction l as [|x l IH]; simpl; [done|]. case_if; [|done]. rewrite IH. constructor. Qed.

Lemma sort_perm l : sortTasksForDisplay l ≡ₚ l.
Proof. induction l as [|x l IH]; simpl; [done|]. by rewrite display_insert_perm, IH. Qed.

Lemma restore_lookup l : forall s id t,
  NoDup (ID <$> l) -> (forall x, x ∈ l -> IsTerminal (Status x) = false -> FinishedAt x = zero_time) ->
  foldl restore_task s l !! id = Some t <->
  t ∈ l /\ ID t = id \/ (id ∉ ID <$> l) /\ s !! id = Some t.
Proof.
  induction l as [|x l IH]; intros s id t Hnd Hz; simpl.
  { split; [right; split; [apply not_elem_of_nil|done]|]. intros [[H _]|[_ H]]; [by apply not_elem_of_nil in H|done]. }
  apply NoDup_cons in Hnd as [Hx Hnd].
  assert (restore_task s x = <[ID x := x]> s) as ->.
  { unfold restore_task. destruct (IsTerminal (Status x)) eqn:E; simpl; [done|].
    assert (set_FinishedAt x zero_time = x) as -> by (rewrite <- (Hz x (list_elem_of_here _ _) E); by destruct x).
    done. }
  rewrite IH by (try done; intros y Hy; apply Hz; by apply list_elem_of_further).
  rewrite !elem_of_cons. split.
  - intros [[Ht Hid]|[Hn Hs]]; [left; auto|].
    destruct (decide (id = ID x)) as [->|Hne].
    + rewrite lookup_insert_eq in Hs. injection Hs as ->. left. auto.
    + rewrite lookup_insert_ne in Hs by done. right. split; [|done]. intros [->|?]; done.
  - intros [[[->|Ht] Hid]|[Hn Hs]].
    + right. subst id. split; [done|]. by rewrite lookup_insert_eq.
    + left. auto.
    + right. split; [naive_solver|]. rewrite lookup_insert_ne by naive_solver. done.
Qed.

(** What a state must satisfy for its snapshot to hold all of it. *)
Definition snapshot_ok (m : Manager) : Prop :=
  forall ns id t, findTaskWithLock m ns id = Some t ->
    ID t = id /\ (IsTerminal (Status t) = false -> FinishedAt t = zero_time).

Lemma find_restore m0 m ns id :
  snapshot_ok m -> findTaskWithLock (Restore m0 (Snapshot m)) ns id = findTaskWithLock m ns id.
Proof.
  intros Hok. unfold findTaskWithLock, Restore, Snapshot, LocalDistributedTasks, set_tasks in *. simpl.
  rewrite !lookup_omap. destruct (tasks m !! ns) as [ts|] eqn:Ets; [|done]. simpl.
  case_decide as He; [subst; simpl; by rewrite lookup_empty|]. simpl.
  assert (Hts : forall i t, ts !! i = Some t -> ID t = i /\ (IsTerminal (Status t) = false -> FinishedAt t = zero_time)).
  { intros i t Ht. apply (Hok ns i t). unfold findTaskWithLock. by rewrite Ets. }
  assert (Hperm := sort_perm (map_values ts)). set (l := sortTasksForDisplay (map_values ts)) in *.
  assert (l <> []) as Hl.
  { intros Hl. rewrite Hl in Hperm. apply Permutation_nil_l in Hperm.
    unfold map_values in Hperm. symmetry in Hperm. apply fmap_nil_inv, map_to_list_empty_iff in Hperm. done. }
  assert (NoDup (ID <$> l)) as Hnd.
  { rewrite Hperm. unfold map_values. rewrite <- list_fmap_compose.
    rewrite (list_fmap_ext _ fst (map_to_list ts)); [apply NoDup_fst_map_to_list|].
    intros i [k x] Hi. apply list_elem_of_lookup_2, elem_of_map_to_list in Hi. simpl. by apply Hts. }
  destruct l as [|x l'] eqn:El; [done|]. rewrite <- El in *. simpl.
  apply option_eq. intros t. rewrite restore_lookup.
  - rewrite lookup_empty, Hperm, map_values_elem. split.
    + intros [[[k Hk] <-]|[_ ?]]; [|done]. by rewrite (proj1 (Hts k t Hk)).
    + intros Ht. left. split; [eauto|]. by apply Hts.
  - done.
  - intros y. rewrite Hperm, map_values_elem. intros [k Hk]. by apply (Hts k).
Qed.

(** ** Reachable states *)

Section log.
Context (cfg : config).

(** States a node can be in after log position [i]: entries have increasing
    positions, clocks are arbitrary, and at any time the state may be replaced by
    what a snapshot of a reachable state restores, on top of any old state. *)
Inductive reachable : Z -> Manager -> Prop :=
| reach_new : reachable 0 NewManager
| reach_apply i j now m c : reachable i m -> i < j -> reachable j (apply cfg j now m c)
| reach_restore i m m0 : reachable i m -> reachable i (Restore m0 (Snapshot m)).

Definition manager_ok (i : Z) (m : Manager) : Prop :=
  forall ns id t, findTaskWithLock m ns id = Some t ->
    Namespace t = ns /\ ID t = id /\ Version t <= i /\ task_ok t.

Lemma find_tasks_eq m m' ns id :
  tasks m' = tasks m -> findTaskWithLock m' ns id = findTaskWithLock m ns id.
Proof. unfold findTaskWithLock. by intros ->. Qed.

Lemma effect_ok i j m m' :
  i < j -> task_effect m m' \/ task_added j m m' \/ tasks_removed m m' -> manager_ok i m -> manager_ok j m'.
Proof.
  intros Hij Heff Hok ns id t Hf.
  assert (Hold : forall t, findTaskWithLock m ns id = Some t ->
    Namespace t = ns /\ ID t = id /\ Version t <= j /\ task_ok t).
  { intros t0 H0. destruct (Hok ns id t0 H0) as (? & ? & ? & ?). split_and!; auto; lia. }
  destruct Heff as [[->|(ns' & id' & t0 & t1 & H0 & Hstep & Htasks & _)]|[(t1 & Htasks & _ & Hv & _ & Hok1 & _)|[_ Hrem]]].
  - auto.
  - rewrite (find_tasks_eq _ _ _ _ Htasks), find_update in Hf. case_decide as Hd; [|auto].
    destruct Hd as [-> ->]. injection Hf as <-. destruct (Hok _ _ _ H0) as (Hn & Hi & Hv & Hok0).
    destruct (task_step_ident _ _ Hstep) as (-> & -> & ->). split_and!; auto; [lia|by eapply task_step_ok].
  - rewrite (find_tasks_eq _ _ _ _ Htasks) in Hf. unfold setTaskWithLock in Hf. rewrite find_update in Hf.
    case_decide as Hd; [|auto]. destruct Hd as [-> ->]. injection Hf as <-. split_and!; auto; lia.
  - auto.
Qed.

Lemma manager_ok_snapshot i m : manager_ok i m -> snapshot_ok m.
Proof. intros Hok ns id t (_ & Hid & _ & Ht)%Hok. split; [done|]. apply (ok_finished t Ht). Qed.

Lemma reachable_ok i m : reachable i m -> manager_ok i m.
Proof.
  induction 1 as [|i j now m c _ IH Hij|i m m0 _ IH].
  - intros ns id t. unfold findTaskWithLock. simpl. by rewrite lookup_empty.
  - eapply effect_ok; [done|apply dt_apply_effect|done].
  - intros ns id t. rewrite find_restore by (by eapply manager_ok_snapshot). apply IH.
Qed.

(** C14: the invariant of the task state machine.  In every state a log leads to,
    through any commands, local clocks and snapshots, each task is stored under
    its own namespace and identifier with a version no newer than the log; it has
    units, stored under their own identifiers, whose attempts are within the
    retry budget; its status is one of the six known; a unit has failed only if
    the task has; a STARTED task has an unfinished unit; in PREPARING, SWAPPING
    and FINISHED all units are completed; PREPARING occurs only with the barrier;
    and a task that is not terminal has no finish time. *)
Theorem dtask_invariant (i : Z) (m : Manager) : reachable i m -> manager_ok i m.
Proof. apply reachable_ok. Qed.

(** C27: the preparation barrier.  In every reachable state, if a task that asked for
    the barrier is SWAPPING or FINISHED, then all its units are completed and
    every node that owns one of them has recorded a successful preparation. *)
Theorem swap_barrier (i : Z) (m : Manager) (ns id : string) (t : Task) :
  reachable i m -> findTaskWithLock m ns id = Some t ->
  NeedsPreparationBarrier t = true -> IsCompleted (Status t) = true ->
  forall uid u, Units t !! uid = Some u ->
    u_Status u = UnitStatusCompleted /\
    (u_NodeID u <> EmptyString ->
     exists ack, PreparationCompletionAcks t !! u_NodeID u = Some ack /\ Success ack = true).
Proof.
  intros Hm Hf Hb Hc uid u Hu. destruct (reachable_ok _ _ Hm _ _ _ Hf) as (_ & _ & _ & Hok).
  split; [apply (ok_done t Hok uid); auto|]. intros Hne.
  assert (Ha := proj1 (allExpected_spec t) (ok_barrier t Hok Hc Hb) (u_NodeID u)
    (proj2 (elem_of_NodesWithLocalUnits t _) (conj Hne (ex_intro _ uid (ex_intro _ u (conj Hu eq_refl)))))).
  unfold acked in Ha. destruct (PreparationCompletionAcks t !! u_NodeID u) as [ack|]; [eauto|done].
Qed.

(** ** The lifecycle *)

(** C37: the lifecycle of a task.  One apply in a reachable state leaves each task as
    it is, removes it, moves it along an edge of the lifecycle (STARTED to
    PREPARING or SWAPPING, PREPARING to SWAPPING, SWAPPING to FINISHED, any of
    these to FAILED or CANCELLED) with the same identity and version, or puts a
    STARTED task with the version of the log entry in the place of none or of one
    that is not STARTED.  If a status changed or a task was added, the scheduler
    was woken. *)
Theorem dtask_lifecycle (i j now : Z) (m : Manager) (c : command) (ns id : string) :
  reachable i m -> i < j ->
  let m' := apply cfg j now m c in
  match findTaskWithLock m ns id, findTaskWithLock m' ns id with
  | None, None => True
  | Some t, None => True
  | None, Some t' => Status t' = TaskStatusStarted /\ Version t' = j /\ wakes m' = S (wakes m)
  | Some t, Some t' =>
      (Version t' = Version t /\ edge (Status t) (Status t') /\
       (Status t' <> Status t -> wakes m' = S (wakes m))) \/
      (Version t < Version t' /\ Version t' = j /\ Status t <> TaskStatusStarted /\
       Status t' = TaskStatusStarted /\ wakes m' = S (wakes m))
  end.
Proof.
  intros Hm Hij m'.
  assert (Hsame : forall t, Version t = Version t /\ edge (Status t) (Status t) /\
    (Status t <> Status t -> wakes m' = S (wakes m))) by (intros t; split_and!; [done|constructor|done]).
  assert (Heff := dt_apply_effect cfg j now m c). cbv zeta in Heff. fold m' in Heff.
  destruct Heff as [[Heq|(ns' & id' & t0 & t1 & H0 & Hstep & Htasks & Hw)]|
    [(t1 & Htasks & Hw & Hv & Hst & _ & Hrep)|[_ Hrem]]].
  - rewrite Heq. destruct (findTaskWithLock m ns id); [|done]. left. rewrite Heq in Hsame. apply Hsame.
  - rewrite (find_tasks_eq _ _ _ _ Htasks), find_update. case_decide as Hd.
    + destruct Hd as [-> ->]. rewrite H0. left. split_and!; [by apply task_step_ident|by apply task_step_edge|].
      destruct Hw as [|[_ Hw]]; [done|congruence].
    + destruct (findTaskWithLock m ns id); [by left|done].
  - rewrite (find_tasks_eq _ _ _ _ Htasks). unfold setTaskWithLock. rewrite find_update. case_decide as Hd.
    + destruct Hd as [-> ->]. destruct (findTaskWithLock m (Namespace t1) (ID t1)) as [t0|]; [|done].
      right. destruct Hrep. split_and!; auto; lia.
    + destruct (findTaskWithLock m ns id); [by left|done].
  - destruct (findTaskWithLock m' ns id) as [t|] eqn:Ef; [|by destruct (findTaskWithLock m ns id)].
    rewrite (Hrem _ _ _ Ef). by left.
Qed.

(** Runs of the log *)
Fixpoint run_log (m : Manager) (log : list (Z * Z * command)) : Manager :=
  match log with
  | [] => m
  | (j, now, c) :: log => run_log (apply cfg j now m c) log
  end.

Fixpoint log_after (i : Z) (log : list (Z * Z * command)) : Prop :=
  match log with
  | [] => True
  | (j, _, _) :: log => i < j /\ log_after j log
  end.

(** One entry leaves a terminal task alone, removes it, or replaces it by a newer one. *)
Lemma terminal_apply j now m c ns id t t' :
  findTaskWithLock m ns id = Some t -> IsTerminal (Status t) = true ->
  findTaskWithLock (apply cfg j now m c) ns id = Some t' -> t' = t \/ Version t < Version t' /\ Version t' = j.
Proof.
  intros Hf Ht Hf'.
  destruct (dt_apply_effect cfg j now m c) as [[Heq|(ns' & id' & t0 & t1 & H0 & Hstep & Htasks & _)]|
    [(t1 & Htasks & _ & Hv & _ & _ & Hrep)|[_ Hrem]]].
  - rewrite Heq in Hf'. left. congruence.
  - rewrite (find_tasks_eq _ _ _ _ Htasks), find_update in Hf'. case_decide as Hd; [|left; congruence].
    destruct Hd as [-> ->]. apply task_step_terminal in Hstep. congruence.
  - rewrite (find_tasks_eq _ _ _ _ Htasks) in Hf'. unfold setTaskWithLock in Hf'. rewrite find_update in Hf'.
    case_decide as Hd; [|left; congruence]. destruct Hd as [-> ->]. injection Hf' as <-. rewrite Hf in Hrep.
    right. lia.
  - left. apply Hrem in Hf'. congruence.
Qed.

Lemma version_apply j now m c ns id t' :
  findTaskWithLock (apply cfg j now m c) ns id = Some t' ->
  match findTaskWithLock m ns id with Some t => Version t <= Version t' | None => Version t' = j end.
Proof.
  intros Hf'.
  destruct (dt_apply_effect cfg j now m c) as [[Heq|(ns' & id' & t0 & t1 & H0 & Hstep & Htasks & _)]|
    [(t1 & Htasks & _ & Hv & _ & _ & Hrep)|[_ Hrem]]].
  - rewrite Heq in Hf'. rewrite Hf'. lia.
  - rewrite (find_tasks_eq _ _ _ _ Htasks), find_update in Hf'. case_decide as Hd; [|rewrite Hf'; lia].
    destruct Hd as [-> ->]. injection Hf' as <-. rewrite H0. destruct (task_step_ident _ _ Hstep) as (_ & _ & ->). lia.
  - rewrite (find_tasks_eq _ _ _ _ Htasks) in Hf'. unfold setTaskWithLock in Hf'. rewrite find_update in Hf'.
    case_decide as Hd; [|rewrite Hf'; lia]. destruct Hd as [-> ->]. injection Hf' as <-.
    destruct (findTaskWithLock m (Namespace t1) (ID t1)); [lia|done].
  - rewrite (Hrem _ _ _ Hf'). lia.
Qed.

(** Terminal tasks are final.  Once a task is FINISHED, FAILED or CANCELLED, no
    further entries of the log change anything of it: whatever is later found
    under its namespace and identifier is that very task or one added by a later
    entry, with a higher version. *)
Lemma terminal_final (i : Z) (m : Manager) (ns id : string) (t t' : Task) (log : list (Z * Z * command)) :
  reachable i m -> findTaskWithLock m ns id = Some t -> IsTerminal (Status t) = true ->
  log_after i log -> findTaskWithLock (run_log m log) ns id = Some t' ->
  t' = t \/ Version t < Version t'.
Proof.
  intros Hm Hf Ht Hlog. assert (Version t <= i) as Hv by (by apply (reachable_ok _ _ Hm _ _ _ Hf)).
  assert (Hinv : forall x, findTaskWithLock m ns id = Some x -> x = t \/ Version t < Version x)
    by (intros x Hx; left; congruence).
  clear Hm Hf. revert i m Hv Hinv Hlog. induction log as [|[[j now] c] log IH]; simpl; intros i m Hv Hinv Hlog; [apply Hinv|].
  destruct Hlog as [Hij Hlog]. apply (IH j); [lia| |done].
  intros x Hx. assert (Hmono := version_apply j now m c ns id x Hx).
  destruct (findTaskWithLock m ns id) as [y|] eqn:Ey; [|right; lia].
  destruct (Hinv y eq_refl) as [->|Hlt]; [|right; lia].
  destruct (terminal_apply j now m c ns id t x Ey Ht Hx) as [->|]; [by left|right; lia].
Qed.

(** Snapshots lose nothing.  Restoring the snapshot of a reachable state, over
    whatever the node had before, gives a state in which every task is found
    exactly as in the original, and no other. *)
Lemma snapshot_restores (i : Z) (m m0 : Manager) (ns id : string) :
  reachable i m -> findTaskWithLock (Restore m0 (Snapshot m)) ns id = findTaskWithLock m ns id.
Proof. intros Hm. by eapply find_restore, manager_ok_snapshot, reachable_ok. Qed.

End log.

(** ** A concrete cluster *)

Definition ex_cfg : config := Config ∅ ∅ ∅ (fun a b => bool_decide (a = b)) 1000.

Definition ex_add (barrier : bool) (retries : Z) : command :=
  CAdd (AddReq "reindex" "t" "p" 100 barrier [] ["u1"] 0 retries).
Definition ex_progress (p : Q) : command := CUnitProgress (ProgressReq "reindex" "t" 1 "n1" "u1" p 200).
Definition ex_unit (err : string) : command := CUnitCompleted (CompletionReq "reindex" "t" 1 "n1" "u1" err true 300).
Definition ex_prep (ok : bool) : command := CPrepAck (AckReq "reindex" "t" 1 "n1" ok "" 310).
Definition ex_post (ok : bool) : command := CPostAck (AckReq "reindex" "t" 1 "n1" ok "" 320).
Definition ex_finalize : command := CFinalized (MarkReq "reindex" "t" 1 "" 330).

(** Log positions from 1 on, with clocks that stand still *)
Definition ex_log (cs : list command) : list (Z * Z * command) :=
  imap (fun i c => (Z.of_nat (S i), 0, c)) cs.

Definition ex_run (cs : list command) : Manager := run_log ex_cfg NewManager (ex_log cs).

Lemma run_log_reachable cfg log : forall i m,
  reachable cfg i m -> log_after i log -> exists j, reachable cfg j (run_log cfg m log).
Proof.
  induction log as [|[[j now] c] log IH]; simpl; intros i m Hm Hlog; [eauto|].
  destruct Hlog as [Hij Hlog]. apply (IH j); [|done]. by eapply reach_apply.
Qed.

Lemma ex_log_after cs : log_after 0 (ex_log cs).
Proof.
  unfold ex_log. assert (forall f cs i, (forall k c, (f k c).1.1 = i + Z.of_nat (S k)) ->
    log_after i (imap (f : nat -> command -> Z * Z * command) cs)) as H; [|by apply H].
  clear cs. intros f cs. revert f. induction cs as [|c cs IH]; intros f i Hf; simpl; [done|].
  specialize (Hf 0%nat c) as H0. destruct (f 0%nat c) as [[j now] c'] eqn:Ef. simpl in H0. split; [lia|].
  apply IH. intros k x. simpl. rewrite Hf. lia.
Qed.

Lemma ex_run_reachable cs : exists j, reachable ex_cfg j (ex_run cs).
Proof. eapply run_log_reachable; [apply reach_new|apply ex_log_after]. Qed.

Definition ex_status (m : Manager) : option TaskStatus := Status <$> findTaskWithLock m "reindex" "t".

(** The whole life of a task with the barrier. *)
Lemma ex_life :
  ex_status (ex_run [ex_add true 0; ex_progress (1 # 2); ex_unit ""]) = Some TaskStatusPreparing /\
  ex_status (ex_run [ex_add true 0; ex_progress (1 # 2); ex_unit ""; ex_prep true]) = Some TaskStatusSwapping /\
  ex_status (ex_run [ex_add true 0; ex_unit ""; ex_prep true; ex_post true; ex_finalize]) = Some TaskStatusFinished /\
  ex_status (ex_run [ex_add true 0; ex_unit ""; ex_prep false]) = Some TaskStatusFailed /\
  ex_status (ex_run [ex_add true 0; ex_prep true; ex_unit ""]) = Some TaskStatusPreparing.
Proof. by vm_compute. Qed.

(** ** Witnesses *)

Definition wit_swapping : list command := [ex_add true 0; ex_progress (1 # 2); ex_unit ""; ex_prep true].
Definition wit_finished : list command := [ex_add false 0; ex_unit ""; ex_post true; ex_finalize].

Lemma dtask_invariant_witness :
  exists j, reachable ex_cfg j (ex_run wit_swapping) /\ manager_ok j (ex_run wit_swapping).
Proof.
  destruct (ex_run_reachable wit_swapping) as [j Hj]. exists j. split; [exact Hj|].
  exact (dtask_invariant ex_cfg j _ Hj).
Defined.

Definition the_task (m : Manager) : Task :=
  default (MkTask "" "" 0 "" false TaskStatusFailed 0 0 "" 0 0 0 ∅ ∅ ∅) (findTaskWithLock m "reindex" "t").

Definition wit_unit : Unit_ := Unit "u1" "" "n1" UnitStatusCompleted 1%Q "" 300 300 0.

Lemma swap_barrier_witness :
  exists ack, PreparationCompletionAcks (the_task (ex_run wit_swapping)) !! "n1" = Some ack /\ Success ack = true.
Proof.
  destruct (ex_run_reachable wit_swapping) as [j Hj].
  apply (swap_barrier ex_cfg j _ "reindex" "t" (the_task (ex_run wit_swapping)) Hj) with (uid := "u1") (u := wit_unit);
    vm_compute; done.
Defined.

Lemma dtask_lifecycle_witness :
  let m := ex_run [] in
  let m' := apply ex_cfg 1 0 m (ex_add true 0) in
  match findTaskWithLock m' "reindex" "t" with
  | Some t' => Status t' = TaskStatusStarted /\ Version t' = 1 /\ wakes m' = 1%nat
  | None => False
  end.
Proof.
  exact (dtask_lifecycle ex_cfg 0 1 0 NewManager (ex_add true 0) "reindex" "t" (reach_new ex_cfg) ltac:(lia)).
Defined.

Lemma wit_finished_reachable : reachable ex_cfg 4 (ex_run wit_finished).
Proof.
  unfold ex_run, ex_log, wit_finished. simpl.
  do 4 (eapply reach_apply; [|shelve]). Unshelve. apply reach_new. all: lia.
Qed.

Definition wit_later : Manager := run_log ex_cfg (ex_run wit_finished) [(100, 0, ex_add true 0)].

Lemma terminal_final_witness :
  IsTerminal (Status (the_task (ex_run wit_finished))) = true /\
  (the_task wit_later = the_task (ex_run wit_finished) \/
   Version (the_task (ex_run wit_finished)) < Version (the_task wit_later)).
Proof.
  split; [by vm_compute|].
  apply (terminal_final ex_cfg 4 (ex_run wit_finished) "reindex" "t" _ _ [(100, 0, ex_add true 0)] wit_finished_reachable);
    vm_compute; done.
Defined.

Lemma snapshot_restores_witness :
  findTaskWithLock (Restore NewManager (Snapshot (ex_run wit_swapping))) "reindex" "t"
  = findTaskWithLock (ex_run wit_swapping) "reindex" "t" /\
  ex_status (ex_run wit_swapping) = Some TaskStatusSwapping.
Proof.
  split; [|by vm_compute]. destruct (ex_run_reachable wit_swapping) as [j Hj].
  exact (snapshot_restores ex_cfg j _ NewManager "reindex" "t" Hj).
Defined.
