(* ===== verification/DistributedTaskQueries.v ===== *)
(** * Distributed tasks: queries, removals, and what the log can do

    The display order does not depend on the iteration order of Go maps; a purge
    removes all matching tasks or none; and a few concrete logs show behaviour
    the comments of the code describe differently. *)

From stdpp Require Import strings sorting.
From Stdlib Require Import QArith.QArith.
From S2P Require Import Prelude DistributedTask DistributedTaskInvariant.

#[local] Open Scope Z_scope.

(** ** The display order *)

Lemma string_ltb_irrefl a : string_ltb a a = false.
Proof. induction a as [|x a IH]; simpl; [done|]. by rewrite N.compare_refl. Qed.

Lemma string_ltb_trans a : forall b c,
  string_ltb a b = true -> string_ltb b c = true -> string_ltb a c = true.
Proof.
  induction a as [|x a IH]; intros [|y b] [|z c]; simpl; try done.
  destruct (N.compare_spec (Ascii.N_of_ascii x) (Ascii.N_of_ascii y)) as [->|Hxy|Hxy]; [|destruct (N.compare_spec (Ascii.N_of_ascii y) (Ascii.N_of_ascii z)) as [<-|Hyz|Hyz]|done]; try done.
  - destruct (_ ?= _)%N; try done. apply IH.
  - by rewrite (proj2 (N.compare_lt_iff _ _) Hxy).
  - by rewrite (proj2 (N.compare_lt_iff (Ascii.N_of_ascii x) (Ascii.N_of_ascii z)) ltac:(lia)).
Qed.

Lemma string_ltb_total a : forall b, a <> b -> string_ltb a b = false -> string_ltb b a = true.
Proof.
  induction a as [|x a IH]; intros [|y b]; simpl; try done.
  destruct (N.compare_spec (Ascii.N_of_ascii x) (Ascii.N_of_ascii y)) as [E|Hxy|Hxy]; try done.
  - rewrite E, N.compare_refl. intros Hne. apply IH. intros ->. apply Hne. f_equal.
    by rewrite <- (Ascii.ascii_N_embedding x), E, Ascii.ascii_N_embedding.
  - by rewrite (proj2 (N.compare_lt_iff _ _) Hxy).
Qed.

(** [display_less] compares (active, newest first, identifier). *)
Lemma display_less_spec a b :
  display_less a b = true <->
  IsActive (Status a) = true /\ IsActive (Status b) = false \/
  IsActive (Status a) = IsActive (Status b) /\
    (activity b < activity a \/ activity a = activity b /\ string_ltb (ID a) (ID b) = true).
Proof.
  unfold display_less. destruct (IsActive (Status a)), (IsActive (Status b)); simpl;
    try (split; [by auto|intros [[? ?]|[? _]]; congruence]);
    (destruct (Z.eqb_spec (activity a) (activity b)); simpl; [|rewrite Z.ltb_lt];
      (split; [intros; right; split; [done|auto]|intros [[? ?]|[_ [?|[? ?]]]]; try done; lia])).
Qed.

Lemma display_less_trans a b c : display_less a b = true -> display_less b c = true -> display_less a c = true.
Proof.
  rewrite !display_less_spec. intros H1 H2.
  destruct H1 as [[? ?]|[Hab Ht1]], H2 as [[? ?]|[Hbc Ht2]]; try (left; split; congruence).
  right. split; [congruence|].
  destruct Ht1 as [?|[? Hs1]], Ht2 as [?|[? Hs2]]; [left; lia..|].
  right. split; [lia|]. by eapply string_ltb_trans.
Qed.

Lemma display_less_asym a b : display_less a b = true -> display_less b a = true -> a = b.
Proof.
  intros H1 H2. assert (H := display_less_trans _ _ _ H1 H2). apply display_less_spec in H.
  rewrite string_ltb_irrefl in H. exfalso. destruct H as [[? ?]|[_ [?|[_ ?]]]]; [congruence|lia|done].
Qed.

Lemma display_less_total a b : ID a <> ID b -> display_less a b = false -> display_less b a = true.
Proof.
  unfold display_less. intros Hid. rewrite (Z.eqb_sym (activity b)).
  destruct (IsActive (Status a)), (IsActive (Status b)); simpl; try done;
    (destruct (Z.eqb_spec (activity a) (activity b)); simpl;
      [by apply string_ltb_total|rewrite Z.ltb_ge, Z.ltb_lt; lia]).
Qed.

Definition display_sorted : list Task -> Prop := StronglySorted (fun a b => display_less a b = true).

Lemma display_insert_sorted t l :
  (forall x, x ∈ l -> ID x <> ID t) -> display_sorted l -> display_sorted (display_insert t l).
Proof.
  induction l as [|x l IH]; intros Hid Hs; simpl; [repeat constructor|].
  inversion Hs as [|? ? Hs' Hx]; subst. rewrite Forall_forall in Hx.
  destruct (display_less x t) eqn:E.
  - constructor; [apply IH; [set_solver|done]|]. apply Forall_forall. intros y.
    rewrite display_insert_perm, elem_of_cons. intros [->|Hy]; auto.
  - assert (display_less t x = true) as Htx by (apply display_less_total; [apply Hid; set_solver|done]).
    constructor; [done|]. apply Forall_forall. intros y [->|Hy]%elem_of_cons; [done|].
    eapply display_less_trans; [done|auto].
Qed.

Lemma sort_sorted l : NoDup (ID <$> l) -> display_sorted (sortTasksForDisplay l).
Proof.
  induction l as [|t l IH]; simpl; intros Hnd; [constructor|]. apply NoDup_cons in Hnd as [Ht Hnd].
  apply display_insert_sorted; [|auto]. intros x. rewrite sort_perm. intros Hx Heq.
  apply Ht. rewrite <- Heq. by apply list_elem_of_fmap_2.
Qed.

(** The display order is deterministic.  Tasks with distinct identifiers come out
    of [sortTasksForDisplay] in the same order whatever order the map iteration
    delivered them in: active tasks first, then by time, newest first, then by
    identifier. *)
Lemma display_order_deterministic (l1 l2 : list Task) :
  l1 ≡ₚ l2 -> NoDup (ID <$> l1) ->
  sortTasksForDisplay l1 = sortTasksForDisplay l2 /\ display_sorted (sortTasksForDisplay l1) /\
  sortTasksForDisplay l1 ≡ₚ l1.
Proof.
  intros Hp Hnd. split_and!; [|by apply sort_sorted|apply sort_perm].
  assert (AntiSymm (=) (fun a b => display_less a b = true)) by (intros a b; apply display_less_asym).
  apply (StronglySorted_unique (fun a b => display_less a b = true)).
  - by apply sort_sorted.
  - apply sort_sorted. by rewrite <- Hp.
  - by rewrite !sort_perm.
Qed.

(** ** Removals *)

Section removal.
Context (collectionExtractors : gmap string (string -> option string)).
Context (targetVectorExtractors : gmap string (string -> option (string * list string))).
Context (EqualFold : string -> string -> bool).

Lemma elem_of_matches (m : Manager) (f : string -> Task -> bool) t :
  t ∈ (ns_ts ← map_to_list (tasks m); filter (fun t => f ns_ts.1 t = true) (map_values ns_ts.2)) <->
  exists ns id, findTaskWithLock m ns id = Some t /\ f ns t = true.
Proof.
  rewrite list_elem_of_bind. split.
  - intros ([ns ts] & Ht & Hns%elem_of_map_to_list). apply list_elem_of_filter in Ht as [Hf [id Hid]%map_values_elem].
    exists ns, id. unfold findTaskWithLock. by rewrite Hns.
  - intros (ns & id & Hfind & Hf). unfold findTaskWithLock in Hfind.
    destruct (tasks m !! ns) as [ts|] eqn:Ens; [|done].
    exists (ns, ts). split; [|by apply elem_of_map_to_list]. apply list_elem_of_filter. split; [done|].
    apply map_values_elem. eauto.
Qed.

(** A purge is all or nothing.  With a collection and targets given, if any task
    bound to them is active the purge is refused and nothing changes; otherwise
    exactly the tasks bound to them are gone, all others are as before, and the
    descriptors returned are those of the removed tasks. *)
Lemma purge_all_or_nothing (m : Manager) (collection : string) (targets : list string) :
  collection <> EmptyString -> targets <> [] ->
  let bound := overlaps targetVectorExtractors EqualFold collection targets in
  let purge := PurgeTasksForCollectionTargetVectors targetVectorExtractors EqualFold m collection targets in
  ((exists ns id t, findTaskWithLock m ns id = Some t /\ bound ns t = true /\ IsActive (Status t) = true) ->
    purge = Err ErrTaskStillActiveForTargetVectors) /\
  ((forall ns id t, findTaskWithLock m ns id = Some t -> bound ns t = true -> IsActive (Status t) = false) ->
    exists m' removed, purge = Ok (m', removed) /\
      (forall ns id, findTaskWithLock m' ns id =
         match findTaskWithLock m ns id with
         | Some t => if bound ns t then None else Some t
         | None => None
         end) /\
      forall d, d ∈ removed <-> exists ns id t, findTaskWithLock m ns id = Some t /\ bound ns t = true /\ d = descriptor t).
Proof.
  intros Hc Ht bound purge. unfold purge, PurgeTasksForCollectionTargetVectors.
  rewrite decide_False by naive_solver. set (matches := mbind _ _).
  assert (Hm : forall t, t ∈ matches <-> exists ns id, findTaskWithLock m ns id = Some t /\ bound ns t = true)
    by (intros t; apply (elem_of_matches m bound)).
  split.
  - intros (ns & id & t & Hf & Hb & Ha).
    rewrite (proj2 (existsb_elem _ _)); [done|]. exists t. split; [|done]. apply Hm. eauto.
  - intros Hall. destruct (existsb _ matches) eqn:Ex.
    { apply existsb_elem in Ex as (t & (ns & id & Hf & Hb)%Hm & Ha). by rewrite (Hall _ _ _ Hf Hb) in Ha. }
    eexists _, _. split; [reflexivity|]. split; [apply (find_filtered m bound)|].
    intros d. rewrite list_elem_of_fmap. setoid_rewrite Hm. naive_solver.
Qed.

(** The cascade of a dropped collection removes exactly the tasks bound to it. *)
Lemma delete_collection_exact (m : Manager) (collection : string) :
  collection <> EmptyString ->
  let bound := bound_to_collection collectionExtractors EqualFold collection in
  let (m', removed) := DeleteTasksForCollection collectionExtractors EqualFold m collection in
  (forall ns id, findTaskWithLock m' ns id =
     match findTaskWithLock m ns id with Some t => if bound ns t then None else Some t | None => None end) /\
  forall d, d ∈ removed <-> exists ns id t, findTaskWithLock m ns id = Some t /\ bound ns t = true /\ d = descriptor t.
Proof.
  intros Hc bound. unfold DeleteTasksForCollection. rewrite decide_False by done.
  split; [apply (find_filtered m bound)|]. intros d. rewrite list_elem_of_bind. split.
  - intros ([ns ts] & Hd & Hns%elem_of_map_to_list). apply list_elem_of_fmap in Hd as (t & -> & Ht).
    apply list_elem_of_filter in Ht as [Hf [id Hid]%map_values_elem].
    exists ns, id, t. split_and!; auto. unfold findTaskWithLock. by rewrite Hns.
  - intros (ns & id & t & Hfind & Hf & ->). unfold findTaskWithLock in Hfind.
    destruct (tasks m !! ns) as [ts|] eqn:Ens; [|done].
    exists (ns, ts). split; [|by apply elem_of_map_to_list].
    apply list_elem_of_fmap_2, list_elem_of_filter. split; [done|]. apply map_values_elem. eauto.
Qed.
End removal.

Lemma display_order_deterministic_witness :
  let a := the_task (ex_run wit_swapping) in
  let b := set_Status (MkTask "reindex" "s" 2 "" false TaskStatusStarted 50 zero_time "" 1 0 0 ∅ ∅ ∅) TaskStatusStarted in
  sortTasksForDisplay [a; b] = sortTasksForDisplay [b; a].
Proof.
  intros a b. refine (proj1 (display_order_deterministic [a; b] [b; a] _ _)).
  - constructor.
  - assert (ID <$> [a; b] = ["t"; "s"]) as -> by (by vm_compute).
    apply (bool_decide_unpack _). by vm_compute.
Defined.

Definition wit_targets : gmap string (string -> option (string * list string)) :=
  {["reindex" := fun _ => Some ("C", ["v"])]}.

Lemma purge_all_or_nothing_witness :
  PurgeTasksForCollectionTargetVectors wit_targets (fun a b => bool_decide (a = b)) (ex_run wit_swapping) "C" ["v"]
  = Err ErrTaskStillActiveForTargetVectors.
Proof.
  refine (proj1 (purge_all_or_nothing wit_targets (fun a b => bool_decide (a = b)) (ex_run wit_swapping) "C" ["v"] _ _) _).
  - done.
  - done.
  - exists "reindex", "t", (the_task (ex_run wit_swapping)). by vm_compute.
Defined.

(** ** Logs against the comments *)

(** The lifting of the barrier is decided only when a preparation
    acknowledgement is recorded, and a second one of a node is dropped.  Once all
    nodes have theirs recorded, a PREPARING task no longer moves on account of
    acknowledgements. *)
Lemma preparing_ignores_acks m r t :
  findTaskWithLock m (k_Namespace r) (k_Id r) = Some t -> Version t = k_Version r ->
  Status t = TaskStatusPreparing -> k_NodeId r <> EmptyString ->
  PreparationCompletionAcks t !! k_NodeId r <> None ->
  RecordPreparationCompleteAck m r = Ok m.
Proof.
  intros Hf Hv Hs Hn Ha. unfold RecordPreparationCompleteAck, findVersionedTaskWithLock.
  rewrite decide_False, Hf, Hv, Z.eqb_refl by done. cbn [obind]. rewrite Hs.
  by destruct (PreparationCompletionAcks t !! k_NodeId r).
Qed.

(** Acknowledgements that arrive while the task is STARTED are recorded.  If all of
    them do, the task enters PREPARING with every expected acknowledgement landed
    and stays there; if one of them reports a failure, the task stays there too,
    and does not fail. *)
Lemma early_acks_wedge :
  let m := ex_run [ex_add true 0; ex_progress 0; ex_prep true; ex_unit ""] in
  let m' := ex_run [ex_add true 0; ex_progress 0; ex_prep false; ex_unit ""] in
  ex_status m = Some TaskStatusPreparing /\ allExpectedPreparationAcksLanded (the_task m) = true /\
  run_command ex_cfg 5 0 m (ex_prep true) = Ok m /\
  ex_status m' = Some TaskStatusPreparing /\ run_command ex_cfg 5 0 m' (ex_prep false) = Ok m'.
Proof. by vm_compute. Qed.

(** The state machine finalizes a SWAPPING task without any acknowledgement of the
    swap. *)
Lemma finalize_without_acks :
  let m := ex_run [ex_add false 0; ex_unit ""; ex_finalize] in
  ex_status m = Some TaskStatusFinished /\ MissingPostCompletionAckNodes (the_task m) = ["n1"].
Proof. split; vm_compute; reflexivity. Qed.

(** A task that is SWAPPING, not yet finished, is replaced by a new one of the same
    identifier. *)
Lemma add_replaces_swapping :
  let m := ex_run [ex_add false 0; ex_unit ""] in
  ex_status m = Some TaskStatusSwapping /\ IsActive TaskStatusSwapping = true /\
  exists m', run_command ex_cfg 3 0 m (ex_add false 0) = Ok m' /\ ex_status m' = Some TaskStatusStarted.
Proof. split_and!; [vm_compute; reflexivity..|]. eexists. split; vm_compute; reflexivity. Qed.

(** A retry takes the progress of a unit back to zero within one task version. *)
Lemma retry_resets_progress :
  let progress m := u_Progress <$> Units (the_task m) !! "u1" in
  progress (ex_run [ex_add false 1; ex_progress (1 # 2)]) = Some (1 # 2)%Q /\
  progress (ex_run [ex_add false 1; ex_progress (1 # 2); ex_unit "disk full"]) = Some 0%Q /\
  ex_status (ex_run [ex_add false 1; ex_progress (1 # 2); ex_unit "disk full"]) = Some TaskStatusStarted.
Proof. by vm_compute. Qed.

(** The clean-up of a task is decided by the clock of the node that applies it: the
    same entry on the same state removes the task on one replica and keeps it on
    another. *)
Lemma cleanup_depends_on_clock :
  let m := ex_run wit_finished in
  let c := CCleanUp (CleanUpReq "reindex" "t" 1) in
  ex_status (apply ex_cfg 5 (330 * 1000000 + 1000) m c) = Some TaskStatusFinished /\
  ex_status (apply ex_cfg 5 (330 * 1000000 + 1001) m c) = None.
Proof. by vm_compute. Qed.
