(* ===== verification/RejectionWire.v ===== *)
(** * Permanent rejections on the wire: cluster/distributedtask/errors.go

    A rejection of the task state machine reaches the caller through gRPC, which
    keeps a code and a message only.  The sentinel error is written into the
    message as a marker and read back on the other side. *)

From stdpp Require Import strings.
From Stdlib Require Import Ascii.
From S2P Require Import Prelude DistributedTask.

#[local] Open Scope Z_scope.

(** The texts of the sentinels *)
Definition sentinel_text (s : sentinel) : string :=
  match s with
  | ErrTaskNotRunning => "task is no longer running"
  | ErrTaskDoesNotExist => "task does not exist"
  | ErrUnitAlreadyTerminal => "unit is already terminal"
  | ErrUnitWrongNode => "unit belongs to a different node"
  | ErrTaskNotInFinalizingState => "task is not in finalizing state"
  | ErrTaskConflict => "task conflicts with an in-flight task"
  | ErrTaskAlreadyRunning => "task is already running"
  | ErrForceTerminateRefused => "force-terminate refused"
  end.

Definition permanentMarkers : list (sentinel * string) :=
  [(ErrTaskNotRunning, "task-not-running"); (ErrTaskDoesNotExist, "task-not-exist");
   (ErrUnitAlreadyTerminal, "unit-terminal"); (ErrUnitWrongNode, "unit-wrong-node");
   (ErrTaskNotInFinalizingState, "task-not-finalizing"); (ErrTaskConflict, "task-conflict");
   (ErrTaskAlreadyRunning, "task-already-running"); (ErrForceTerminateRefused, "force-terminate-refused")].

Definition markerByID (id : string) : option sentinel :=
  fst <$> List.find (fun m => bool_decide (m.2 = id)) permanentMarkers.

Definition idForSentinel (s : sentinel) : string :=
  match List.find (fun m => bool_decide (m.1 = s)) permanentMarkers with
  | Some m => m.2
  | None => EmptyString
  end.

(** An error: its text, the sentinels [errors.Is] finds in its chain, and whether
    [ErrPermanentRejection] is one of them *)
Record go_error : Type := GoError { text : string; is_sentinel : list sentinel; is_permanent : bool }.

Definition newline : string := String (Ascii.ascii_of_nat 10) EmptyString.

Definition wrapPermanent (s : sentinel) (msg : string) : go_error :=
  let id := idForSentinel s in
  let prefixed := if decide (id <> EmptyString) then "[dtm-perm/" +:+ id +:+ "] " +:+ msg else msg in
  GoError (prefixed +:+ ": " +:+ sentinel_text s +:+ newline +:+ "permanent FSM rejection") [s] true.

(** A gRPC status: its code and message *)
Record rpc_status : Type := RpcStatus { code : Z; message : string }.

Definition PermanentRejectionRPCCode : Z := 9.

(** None tells the caller to handle the error itself. *)
Definition ToRPCError (err : go_error) : option rpc_status :=
  if is_permanent err then Some (RpcStatus PermanentRejectionRPCCode (text err)) else None.

(** [strings.HasPrefix] with the rest, and [strings.Index] of one character *)
Fixpoint strip_prefix (p s : string) : option string :=
  match p, s with
  | EmptyString, _ => Some s
  | String a p, String b s => if decide (a = b) then strip_prefix p s else None
  | _, EmptyString => None
  end.

Fixpoint before_char (c : Ascii.ascii) (s : string) : option string :=
  match s with
  | EmptyString => None
  | String a s => if decide (a = c) then Some EmptyString else String a <$> before_char c s
  end.

(** [end <= 0] covers a missing bracket and an empty identifier. *)
Definition extractMarkerID (msg : string) : string :=
  match strip_prefix "[dtm-perm/" msg with
  | None => EmptyString
  | Some rest => default EmptyString (before_char "]"%char rest)
  end.

(** What [errors.Is] finds after rehydration; other codes are left alone. *)
Definition RehydratePermanentRejection (st : rpc_status) : go_error :=
  if negb (code st =? PermanentRejectionRPCCode) then GoError (message st) [] false
  else
    match markerByID (extractMarkerID (message st)) with
    | Some specific => GoError (message st) [specific] true
    | None => GoError (message st) [] true
    end.

(** ** The round trip *)

Lemma strip_prefix_app p s : strip_prefix p (p +:+ s) = Some s.
Proof. induction p as [|a p IH]; simpl; [done|]. by rewrite decide_True. Qed.

Fixpoint has_char (c : Ascii.ascii) (s : string) : bool :=
  match s with EmptyString => false | String a s => bool_decide (a = c) || has_char c s end.

Lemma before_char_app c s r : has_char c s = false -> before_char c (s +:+ String c r) = Some s.
Proof.
  induction s as [|a s IH]; simpl; intros H; [by rewrite decide_True|].
  apply orb_false_iff in H as [Ha Hs]. apply bool_decide_eq_false in Ha.
  rewrite decide_False by done. by rewrite IH.
Qed.

Lemma string_app_assoc a b c : (a +:+ b) +:+ c = a +:+ (b +:+ c).
Proof. induction a as [|x a IH]; [done|]. exact (f_equal (String x) IH). Qed.

Lemma extract_marker id rest :
  has_char "]"%char id = false -> extractMarkerID ("[dtm-perm/" +:+ id +:+ "] " +:+ rest) = id.
Proof.
  intros Hid. unfold extractMarkerID. rewrite (strip_prefix_app "[dtm-perm/" (id +:+ "] " +:+ rest)).
  change ("] " +:+ rest) with (String "]"%char (String " "%char rest)).
  by rewrite (before_char_app _ _ _ Hid).
Qed.

(** A permanent rejection keeps its identity across gRPC.  Whatever the message,
    the error that [wrapPermanent] builds for a sentinel is sent with the code of
    permanent rejections, and rehydrating what arrives yields an error that
    [errors.Is] recognises as exactly that sentinel and as permanent.  A status
    with that code and no known marker is permanent and nothing else, and a status
    with another code is not permanent. *)
Lemma rejection_roundtrip :
  (forall s msg, exists st,
     ToRPCError (wrapPermanent s msg) = Some st /\ code st = PermanentRejectionRPCCode /\
     is_sentinel (RehydratePermanentRejection st) = [s] /\
     is_permanent (RehydratePermanentRejection st) = true) /\
  (forall msg, markerByID (extractMarkerID msg) = None ->
     is_sentinel (RehydratePermanentRejection (RpcStatus PermanentRejectionRPCCode msg)) = [] /\
     is_permanent (RehydratePermanentRejection (RpcStatus PermanentRejectionRPCCode msg)) = true) /\
  (forall c msg, c <> PermanentRejectionRPCCode ->
     is_permanent (RehydratePermanentRejection (RpcStatus c msg)) = false).
Proof.
  split_and!.
  - intros s msg. eexists. split; [reflexivity|]. split; [done|]. cbn [code message].
    assert (Hid : idForSentinel s <> EmptyString /\ has_char "]"%char (idForSentinel s) = false /\
      markerByID (idForSentinel s) = Some s) by (by destruct s).
    destruct Hid as (Hne & Hch & Hm). unfold RehydratePermanentRejection, wrapPermanent. cbn [code message text].
    rewrite Z.eqb_refl. cbn [negb]. rewrite decide_True by done.
    rewrite !string_app_assoc, extract_marker, Hm by done. done.
  - intros msg Hm. unfold RehydratePermanentRejection. cbn [code message]. rewrite Z.eqb_refl. cbn [negb]. by rewrite Hm.
  - intros c msg Hc. unfold RehydratePermanentRejection. cbn [code message].
    by rewrite (proj2 (Z.eqb_neq _ _) Hc).
Qed.

Lemma rejection_roundtrip_witness :
  is_sentinel (RehydratePermanentRejection (RpcStatus PermanentRejectionRPCCode "[dtm-perm/] x")) = [] /\
  is_permanent (RehydratePermanentRejection (RpcStatus 13 "task t is no longer running")) = false.
Proof.
  destruct rejection_roundtrip as (_ & Hunknown & Hother). split.
  - apply Hunknown. by vm_compute.
  - by apply Hother.
Defined.
