(* ===== verification/ReplaceNode.v ===== *)
(** * A node of strategy "replace" in a segment file

    [segment_serialization.go]: the writer of [segmentReplaceNode] and its five
    parsers (from a reader, into a reused node by pread or mmap, and the two digest
    forms that keep a prefix of the value), and [replaceStratParseData] of
    [segment_replace_strategy.go].  An [io.Reader] is the list of bytes it still
    delivers; an [io.Writer] the list of bytes written.  Slices are their contents:
    a buffer that is reused and one that is allocated hold the same bytes. *)

From S2P Require Import Prelude ByteOps SegmentIndex MemtableTree.

(** Errors of the store.  [lsmkv.NotFound] comes from a tree or from an index. *)
Inductive store_error : Type :=
| EGet (e : get_error)
| EIndex (e : index_error)
| EBytes (e : byteops_error)
| EShortRead                 (* io.EOF, io.ErrUnexpectedEOF *)
| ETransform
| ECtx
| EIndexSize
| EHeaderLength
| EVersion
| EStrategy
| ESecondaryIndex
| ERecovered
| EChecksum
| EReadOnly
| EKeepTombstones
| EMissingSecondaryKey
| ESecondaryPosition
| EImmutable
| EOpenFile
| EFlushingPresent
| ESeek
| ENodeSize
| ECommitType
| ECommitVersion
| ERightSegment.

(** [errors.Is(err, lsmkv.NotFound)] and [errors.Is(err, lsmkv.Deleted)] *)
Definition is_NotFound (e : store_error) : bool :=
  match e with EGet MemtableTree.NotFound | EIndex SegmentIndex.NotFound => true | _ => false end.

Definition is_Deleted (e : store_error) : bool :=
  match e with EGet Deleted | EGet (ErrDeleted _) => true | _ => false end.

Definition IsDeletedOrNotFound (e : store_error) : bool := is_Deleted e || is_NotFound e.

Record segmentReplaceNode : Type := ReplaceNode {
  sn_tombstone : bool;
  sn_value : list Z;
  sn_primaryKey : list Z;
  sn_secondaryIndexCount : Z;
  sn_secondaryKeys : list (list Z);
  sn_offset : Z }.

(** ** The writer *)

(** The loop over the secondary indices: a missing key is written as an empty one. *)
Fixpoint write_secondaryKeys (count : nat) (secondaryKeys : list (list Z)) (written : Z) : list Z * Z :=
  match count with
  | O => ([], written)
  | S count =>
      let key := match secondaryKeys with [] => [] | key :: _ => key end in
      let secondaryKeyLength := u32 (blen key) in
      let written := written + 4 in
      let (body, written) := if secondaryKeyLength =? 0 then ([], written) else (key, written + blen key) in
      let (rest, written) := write_secondaryKeys count (tail secondaryKeys) written in
      (le_split 4 secondaryKeyLength ++ body ++ rest, written)
  end.

(** [keyIndexAndWriteToWithBuf] with a buffer of nine bytes: the bytes written and
    the key for the index *)
Definition KeyIndexAndWriteTo (s : segmentReplaceNode) : list Z * Key :=
  let head := (if sn_tombstone s then 1 else 0) :: le_split 8 (u64 (blen (sn_value s))) in
  let written := 9 + blen (sn_value s) + 4 + blen (sn_primaryKey s) in
  let (secondary, written) := write_secondaryKeys (Z.to_nat (sn_secondaryIndexCount s)) (sn_secondaryKeys s) written in
  (head ++ sn_value s ++ le_split 4 (u32 (blen (sn_primaryKey s))) ++ sn_primaryKey s ++ secondary,
   IndexKey (sn_primaryKey s) (sn_secondaryKeys s) (sn_offset s) (sn_offset s + written)).

(** ** Parsers over a reader *)

Definition ReadFull (n : Z) (r : list Z) : outcome store_error (list Z * list Z) :=
  if n <=? blen r then Ok (take (Z.to_nat n) r, drop (Z.to_nat n) r) else Err EShortRead.

(** [make([]byte, n)], and re-slicing a buffer that is large enough: a length out
    of the range of an allocation panics either way. *)
Definition make_bytes (n : Z) : outcome store_error unit := if n <? 2 ^ 48 then Ok tt else Panic.

Fixpoint read_secondaryKeys (count : nat) (r : list Z) (offset : Z) : outcome store_error (list (list Z) * list Z * Z) :=
  match count with
  | O => Ok ([], r, offset)
  | S count =>
      let! (tmpBuf, r) := ReadFull 4 r in
      let secKeyLen := le_combine tmpBuf in
      let! (key, r) := if secKeyLen =? 0 then Ok ([], r) else ReadFull secKeyLen r in
      let! (keys, r, offset) := read_secondaryKeys count r (offset + 4 + secKeyLen) in
      Ok (key :: keys, r, offset)
  end.

(** The part [ParseReplaceNode] and [ParseReplaceNodeIntoPread] have in common *)
Definition read_node (r : list Z) (secondaryIndexCount : Z) :
    outcome store_error (bool * list Z * list Z * list (list Z) * Z * list Z) :=
  let! (tmpBuf, r) := ReadFull 9 r in
  let tombstone := negb (nth 0 tmpBuf 0 =? 0) in
  let valueLength := le_combine (drop 1 tmpBuf) in
  let! _ := make_bytes valueLength in
  let! (value, r) := ReadFull valueLength r in
  let! (tmpBuf, r) := ReadFull 4 r in
  let keyLength := le_combine tmpBuf in
  let! (primaryKey, r) := ReadFull keyLength r in
  let! (keys, r, offset) :=
    read_secondaryKeys (Z.to_nat secondaryIndexCount) r (9 + valueLength + 4 + keyLength) in
  Ok (tombstone, value, primaryKey, keys, offset, r).

Definition ParseReplaceNode (r : list Z) (secondaryIndexCount : Z) : outcome store_error (segmentReplaceNode * list Z) :=
  let! (tombstone, value, primaryKey, keys, offset, r) := read_node r secondaryIndexCount in
  Ok (ReplaceNode tombstone value primaryKey secondaryIndexCount keys offset, r).

(** [out] is reused: its count is kept, and so are secondary keys beyond the count. *)
Definition ParseReplaceNodeIntoPread (r : list Z) (secondaryIndexCount : Z) (out : segmentReplaceNode) :
    outcome store_error (segmentReplaceNode * list Z) :=
  let! (tombstone, value, primaryKey, keys, offset, r) := read_node r secondaryIndexCount in
  let old := if (0 <? secondaryIndexCount) && (Z.of_nat (length (sn_secondaryKeys out)) <? secondaryIndexCount)
             then [] else sn_secondaryKeys out in
  Ok (ReplaceNode tombstone value primaryKey (sn_secondaryIndexCount out)
        (keys ++ drop (Z.to_nat secondaryIndexCount) old) offset, r).

(** [bufio.Reader.Discard] *)
Definition Discard (n : Z) (r : list Z) : outcome store_error (list Z) :=
  if n <=? blen r then Ok (drop (Z.to_nat n) r) else Err EShortRead.

Fixpoint skip_secondaryKeys (count : nat) (r : list Z) (offset : Z) : outcome store_error (list Z * Z) :=
  match count with
  | O => Ok (r, offset)
  | S count =>
      let! (tmpBuf, r) := ReadFull 4 r in
      let secKeyLen := le_combine tmpBuf in
      let! r := if secKeyLen =? 0 then Ok r else Discard secKeyLen r in
      skip_secondaryKeys count r (offset + 4 + secKeyLen)
  end.

Definition ParseReplaceNodeDigestIntoPread (r : list Z) (secondaryIndexCount valuePrefixLen : Z)
    (out : segmentReplaceNode) : outcome store_error (segmentReplaceNode * list Z) :=
  let! (tmpBuf, r) := ReadFull 9 r in
  let tombstone := negb (nth 0 tmpBuf 0 =? 0) in
  let valueLength := le_combine (drop 1 tmpBuf) in
  let prefix := if valueLength <? valuePrefixLen then valueLength else valuePrefixLen in
  let! _ := make_bytes prefix in
  let! (value, r) := ReadFull prefix r in
  let skip := to_int (valueLength - prefix) in
  let! r := if 0 <? skip then Discard skip r else Ok r in
  let offset := 9 + prefix + (if 0 <? skip then skip else 0) in
  let! (tmpBuf, r) := ReadFull 4 r in
  let keyLength := le_combine tmpBuf in
  let! (primaryKey, r) := ReadFull keyLength r in
  let! (r, offset) := skip_secondaryKeys (Z.to_nat secondaryIndexCount) r (offset + 4 + keyLength) in
  Ok (ReplaceNode tombstone value primaryKey secondaryIndexCount (sn_secondaryKeys out) offset, r).

(** ** Parsers over a buffer in memory *)

Fixpoint mmap_secondaryKeys (count : nat) (r : ReadWriter) : rw_result (list (list Z)) :=
  match count with
  | O => Ok ([], r)
  | S count =>
      let! (key, r) := ReadBytesFromBufferWithUint32LengthIndicator r in
      let! (keys, r) := mmap_secondaryKeys count r in
      Ok (buf_bytes key :: keys, r)
  end.

Definition ParseReplaceNodeIntoMMAP (r : ReadWriter) (secondaryIndexCount : Z) (out : segmentReplaceNode) :
    outcome store_error segmentReplaceNode :=
  let! (flag, r) := omap_err EBytes (ReadUint8 r) in
  let! (valueLength, r) := omap_err EBytes (ReadUint64 r) in
  let! _ := make_bytes valueLength in
  let! (value, r) := omap_err EBytes (CopyBytesFromBuffer r valueLength (Some (repeat 0 (Z.to_nat valueLength)))) in
  let! (primaryKey, r) := omap_err EBytes (ReadBytesFromBufferWithUint32LengthIndicator r) in
  let! (keys, r) := omap_err EBytes (mmap_secondaryKeys (Z.to_nat secondaryIndexCount) r) in
  Ok (ReplaceNode (flag =? 1) value (buf_bytes primaryKey) (sn_secondaryIndexCount out)
        (if 0 <? secondaryIndexCount then keys else sn_secondaryKeys out) (to_int (Position r))).

Fixpoint mmap_skip_secondaryKeys (count : nat) (r : ReadWriter) : rw_result unit :=
  match count with
  | O => Ok (tt, r)
  | S count =>
      let! (_, r) := DiscardBytesFromBufferWithUint32LengthIndicator r in
      mmap_skip_secondaryKeys count r
  end.

Definition ParseReplaceNodeDigestIntoMMAP (r : ReadWriter) (secondaryIndexCount valuePrefixLen : Z)
    (out : segmentReplaceNode) : outcome store_error segmentReplaceNode :=
  let! (flag, r) := omap_err EBytes (ReadUint8 r) in
  let! (valueLength, r) := omap_err EBytes (ReadUint64 r) in
  let prefix := if valueLength <? valuePrefixLen then valueLength else valuePrefixLen in
  let! (value, r) := omap_err EBytes (ReadBytesFromBuffer r prefix) in
  let r := if prefix <? valueLength then MoveBufferPositionForward r (valueLength - prefix) else r in
  let! (primaryKey, r) := omap_err EBytes (ReadBytesFromBufferWithUint32LengthIndicator r) in
  let! (_, r) := omap_err EBytes (mmap_skip_secondaryKeys (Z.to_nat secondaryIndexCount) r) in
  Ok (ReplaceNode (flag =? 1) (buf_bytes value) (buf_bytes primaryKey) secondaryIndexCount
        (sn_secondaryKeys out) (to_int (Position r))).

(** ** The payload of a lookup *)

(** The key and the value of a node that is not a tombstone *)
Definition replaceStratParseData (inp : list Z) : outcome store_error (list Z * list Z) :=
  match inp with
  | [] => Err (EGet MemtableTree.NotFound)
  | flag :: _ =>
      let b := buf_of inp in
      if (flag =? 1) && (blen inp <? 9) then Err (EGet Deleted)
      else
        let! len := omap_err EBytes (slice b 1 9) in
        let! valueLength := omap_err EBytes (le_uint 8 len) in
        let! value := omap_err EBytes (slice b 9 (u64 (9 + valueLength))) in
        if flag =? 1 then Err (EGet (errorFromTombstonedValue (buf_bytes value)))
        else
          let! rest := omap_err EBytes (slice b (u64 (9 + valueLength)) (blen inp)) in
          let! pkLength := omap_err EBytes (le_uint 4 rest) in
          let! pk := omap_err EBytes (slice b (u64 (9 + valueLength + 4)) (u64 (9 + valueLength + 4 + pkLength))) in
          Ok (buf_bytes pk, buf_bytes value)
  end.

(** * Round trips *)

Definition key_block (k : list Z) : list Z := le_split 4 (blen k) ++ k.
Definition key_blocks (ks : list (list Z)) : list Z := concat (key_block <$> ks).

Definition key_ok (k : list Z) : Prop := Forall is_byte k /\ blen k < 2 ^ 32.

(** What a node needs to fit the format *)
Record node_ok (n : segmentReplaceNode) : Prop := {
  nk_value : Forall is_byte (sn_value n);
  nk_value_len : blen (sn_value n) < 2 ^ 48;
  nk_key : key_ok (sn_primaryKey n);
  nk_count : 0 <= sn_secondaryIndexCount n < 2 ^ 16;
  nk_keys : Forall key_ok (sn_secondaryKeys n);
  nk_keys_len : Z.of_nat (length (sn_secondaryKeys n)) <= sn_secondaryIndexCount n }.

(** The secondary keys as a parser returns them: one for each index *)
Definition padded (n : segmentReplaceNode) : list (list Z) :=
  resize (Z.to_nat (sn_secondaryIndexCount n)) [] (sn_secondaryKeys n).

Definition flag_of (b : bool) : Z := if b then 1 else 0.

(** The layout of a node *)
Definition replace_layout (n : segmentReplaceNode) : list Z :=
  [flag_of (sn_tombstone n)] ++ le_split 8 (blen (sn_value n)) ++ sn_value n
  ++ key_block (sn_primaryKey n) ++ key_blocks (padded n).

Lemma blen_nonneg b : 0 <= blen b.
Proof. unfold blen. lia. Qed.

Lemma blen_app a b : blen (a ++ b) = blen a + blen b.
Proof. unfold blen. rewrite length_app. lia. Qed.

Lemma blen_le_split n v : blen (le_split n v) = Z.of_nat n.
Proof. unfold blen. by rewrite length_le_split. Qed.

Lemma blen_cons x b : blen (x :: b) = 1 + blen b.
Proof. unfold blen. cbn [length]. lia. Qed.

#[export] Hint Rewrite blen_app blen_le_split blen_cons : lens.

Lemma blen_key_block k : blen (key_block k) = 4 + blen k.
Proof. unfold key_block. autorewrite with lens. lia. Qed.

Lemma key_blocks_cons k ks : key_blocks (k :: ks) = key_block k ++ key_blocks ks.
Proof. done. Qed.

Lemma write_secondaryKeys_spec count : forall ks written,
  Forall key_ok ks ->
  write_secondaryKeys count ks written
  = (key_blocks (resize count [] ks), written + blen (key_blocks (resize count [] ks))).
Proof.
  induction count as [|count IH]; intros ks written Hks; cbn [write_secondaryKeys].
  - rewrite resize_0. unfold blen. cbn. f_equal. lia.
  - assert (Htail : forall t, Forall key_ok t -> exists k : list Z, key_ok k /\ k = match ks with [] => [] | k :: _ => k end /\
      resize (S count) [] ks = k :: resize count [] (tail ks) /\ Forall key_ok (tail ks)).
    { intros _ _. destruct ks as [|k ks']; [exists []|exists k; by inversion_clear Hks].
      split_and!; [by split; [constructor|unfold blen; simpl]|done| |done].
      rewrite resize_nil. cbn. by rewrite resize_nil. }
    destruct (Htail [] (Forall_nil_2 _)) as (k & [Hb Hl] & <- & -> & Ht). rewrite key_blocks_cons.
    rewrite u32_small by (split; [apply blen_nonneg|done]).
    assert (Hz : blen k = 0 -> k = []) by (destruct k; [done|unfold blen; cbn [length]; lia]).
    unfold key_block. destruct (Z.eqb_spec (blen k) 0) as [E|E]; rewrite (IH _ _ Ht); autorewrite with lens.
    + rewrite (Hz E). f_equal. change (blen []) with 0. lia.
    + rewrite <- app_assoc. f_equal. lia.
Qed.

Lemma padded_ok n : node_ok n -> Forall key_ok (padded n) /\ length (padded n) = Z.to_nat (sn_secondaryIndexCount n).
Proof.
  intros Hn. unfold padded. split; [|by rewrite length_resize].
  apply Forall_resize; [|apply Hn]. split; [constructor|done].
Qed.

(** The writer writes the layout, and the key it returns spans it. *)
Lemma writer_layout n :
  node_ok n ->
  KeyIndexAndWriteTo n
  = (replace_layout n,
     IndexKey (sn_primaryKey n) (sn_secondaryKeys n) (sn_offset n) (sn_offset n + blen (replace_layout n))).
Proof.
  intros Hn. unfold KeyIndexAndWriteTo. rewrite (write_secondaryKeys_spec _ _ _ (nk_keys n Hn)).
  destruct (nk_key n Hn) as [_ Hk]. pose proof (nk_value_len n Hn).
  rewrite u64_small, u32_small by (split; [apply blen_nonneg|lia]).
  unfold replace_layout, flag_of, key_block. fold (padded n). f_equal.
  f_equal. autorewrite with lens. change (blen []) with 0. lia.
Qed.

(** ** Readers *)

Lemma read_full_app a r : ReadFull (blen a) (a ++ r) = Ok (a, r).
Proof.
  unfold ReadFull. rewrite (proj2 (Z.leb_le _ _)) by (rewrite blen_app; pose proof (blen_nonneg r); lia).
  unfold blen. by rewrite Nat2Z.id, take_app_length, drop_app_length.
Qed.

Lemma ReadFull_le n v r : ReadFull (Z.of_nat n) (le_split n v ++ r) = Ok (le_split n v, r).
Proof. rewrite <- (blen_le_split n v) at 1. apply read_full_app. Qed.

Lemma Discard_app a r : Discard (blen a) (a ++ r) = Ok r.
Proof.
  unfold Discard. rewrite (proj2 (Z.leb_le _ _)) by (rewrite blen_app; pose proof (blen_nonneg r); lia).
  unfold blen. by rewrite Nat2Z.id, drop_app_length.
Qed.

Lemma le4_len k : key_ok k -> le_combine (le_split 4 (blen k)) = blen k.
Proof. intros [_ H]. apply le_combine_split. split; [apply blen_nonneg|]. change (256 ^ Z.of_nat 4) with (2 ^ 32). lia. Qed.

Lemma le8_len v : blen v < 2 ^ 48 -> le_combine (le_split 8 (blen v)) = blen v.
Proof. intros H. apply le_combine_split. split; [apply blen_nonneg|]. change (256 ^ Z.of_nat 8) with (2 ^ 64). lia. Qed.

Lemma read_secondaryKeys_spec ks : forall r offset,
  Forall key_ok ks ->
  read_secondaryKeys (length ks) (key_blocks ks ++ r) offset = Ok (ks, r, offset + blen (key_blocks ks)) /\
  skip_secondaryKeys (length ks) (key_blocks ks ++ r) offset = Ok (r, offset + blen (key_blocks ks)).
Proof.
  induction ks as [|k ks IH]; intros r offset Hks; cbn [length read_secondaryKeys skip_secondaryKeys].
  - unfold blen. cbn. by rewrite Z.add_0_r.
  - inversion_clear Hks as [|? ? Hk Ht]. rewrite key_blocks_cons, blen_app, blen_key_block.
    unfold key_block. rewrite <- !app_assoc, (ReadFull_le 4). cbn [obind]. rewrite le4_len by done.
    assert (Hread : (if blen k =? 0 then Ok ([], k ++ key_blocks ks ++ r) else ReadFull (blen k) (k ++ key_blocks ks ++ r))
      = Ok (k, key_blocks ks ++ r)).
    { destruct (Z.eqb_spec (blen k) 0) as [E|E]; [|apply read_full_app].
      destruct k; [done|]. unfold blen in E. cbn [length] in E. lia. }
    assert (Hskip : (if blen k =? 0 then Ok (k ++ key_blocks ks ++ r) else Discard (blen k) (k ++ key_blocks ks ++ r))
      = Ok (key_blocks ks ++ r)).
    { destruct (Z.eqb_spec (blen k) 0) as [E|E]; [|apply Discard_app].
      destruct k; [done|]. unfold blen in E. cbn [length] in E. lia. }
    rewrite Hread, Hskip. cbn [obind]. destruct (IH r (offset + 4 + blen k) Ht) as [-> ->]. cbn [obind].
    rewrite !Z.add_assoc. done.
Qed.

(** A node as a parser returns it, in the place of [out] *)
Definition parsed (n : segmentReplaceNode) (count : Z) (keys : list (list Z)) : segmentReplaceNode :=
  ReplaceNode (sn_tombstone n) (sn_value n) (sn_primaryKey n) count keys (blen (replace_layout n)).

Lemma read_node_spec n r :
  node_ok n ->
  read_node (replace_layout n ++ r) (sn_secondaryIndexCount n)
  = Ok (sn_tombstone n, sn_value n, sn_primaryKey n, padded n, blen (replace_layout n), r).
Proof.
  intros Hn. destruct (padded_ok n Hn) as [Hp Hl]. unfold read_node, replace_layout.
  assert (Hh : forall rest, ReadFull 9 (([flag_of (sn_tombstone n)] ++ le_split 8 (blen (sn_value n))) ++ rest)
    = Ok ([flag_of (sn_tombstone n)] ++ le_split 8 (blen (sn_value n)), rest)).
  { intros rest. rewrite <- (read_full_app _ rest). f_equal. }
  rewrite <- !app_assoc, (app_assoc [_]), Hh. cbn [obind].
  change (drop 1 ([flag_of (sn_tombstone n)] ++ le_split 8 (blen (sn_value n)))) with (le_split 8 (blen (sn_value n))).
  change (nth 0 ([flag_of (sn_tombstone n)] ++ le_split 8 (blen (sn_value n))) 0) with (flag_of (sn_tombstone n)).
  rewrite le8_len by apply Hn. unfold make_bytes. rewrite (proj2 (Z.ltb_lt _ _)) by apply Hn. cbn [obind].
  rewrite read_full_app. cbn [obind]. unfold key_block. rewrite <- !app_assoc, (ReadFull_le 4). cbn [obind].
  rewrite le4_len by apply Hn. rewrite read_full_app. cbn [obind]. rewrite <- Hl.
  destruct (read_secondaryKeys_spec (padded n) r (9 + blen (sn_value n) + 4 + blen (sn_primaryKey n)) Hp) as [-> _].
  cbn [obind]. f_equal. f_equal. f_equal.
  - destruct (sn_tombstone n); done.
  - autorewrite with lens. change (blen []) with 0. lia.
Qed.

(** ** Buffers *)

Lemma index_mid p x r m : (length p < m)%nat -> index (Buf (p ++ x :: r) m) (Z.of_nat (length p)) = Ok x.
Proof.
  intros Hm. unfold index. cbn [buf_len buf_mem].
  rewrite (proj2 (Z.leb_le _ _)), (proj2 (Z.ltb_lt _ _)) by lia. cbn [andb].
  by rewrite Nat2Z.id, app_nth2, Nat.sub_diag by lia.
Qed.

Lemma ReadUint8_mid p x r m :
  (length p < m)%nat -> Z.of_nat (length p) + 1 < 2 ^ 64 ->
  ReadUint8 (RW (Z.of_nat (length p)) (Buf (p ++ x :: r) m))
  = Ok (x, RW (Z.of_nat (length p + 1)) (Buf (p ++ x :: r) m)).
Proof.
  intros Hm Hl. unfold ReadUint8, Uint8Len. rewrite advance_pos_small by lia. cbn [Position Buffer].
  rewrite Z.add_simpl_r, u64_small, index_mid by (done || unfold is_u64; lia). cbn [obind]. do 3 f_equal. lia.
Qed.

Lemma read_block32_mid p k r m :
  key_ok k -> Z.of_nat (length p) + 4 + blen k < 2 ^ 64 ->
  let rw := RW (Z.of_nat (length p)) (Buf (p ++ key_block k ++ r) m) in
  let rw' := RW (Z.of_nat (length (p ++ key_block k))) (Buf (p ++ key_block k ++ r) m) in
  (exists b, ReadBytesFromBufferWithUint32LengthIndicator rw = Ok (b, rw') /\ buf_bytes b = k) /\
  DiscardBytesFromBufferWithUint32LengthIndicator rw = Ok (blen k, rw').
Proof.
  intros [Hb Hk] Hl rw rw'. pose proof (blen_nonneg k).
  assert (Hu : ReadUint32 rw = Ok (blen k, RW (Z.of_nat (length p + 4)) (Buf (p ++ key_block k ++ r) m))).
  { subst rw. unfold key_block. rewrite <- app_assoc. apply (read_uint_mid 4); [lia|].
    change (256 ^ Z.of_nat 4) with (2 ^ 32). lia. }
  assert (Hp : Z.of_nat (length p + 4) + blen k = Z.of_nat (length (p ++ key_block k)))
    by (unfold key_block, blen; rewrite !length_app, length_le_split; lia).
  unfold ReadBytesFromBufferWithUint32LengthIndicator, DiscardBytesFromBufferWithUint32LengthIndicator.
  rewrite Hu. cbn [obind]. rewrite advance_pos_small by lia. cbn [Position Buffer].
  rewrite Z.add_simpl_r, u64_small, Hp by (unfold is_u64; lia). split; [|done].
  replace (p ++ key_block k ++ r) with ((p ++ le_split 4 (blen k)) ++ k ++ r)
    by (unfold key_block; by rewrite <- !app_assoc).
  pose proof (slice_mid (p ++ le_split 4 (blen k)) k r m) as Hs. rewrite length_app, length_le_split in Hs.
  replace (Z.of_nat (length p + 4) + Z.of_nat (length k)) with (Z.of_nat (length (p ++ key_block k))) in Hs
    by (rewrite <- Hp; unfold blen; lia).
  rewrite Hs. cbn [obind]. eexists. split; [unfold rw'; unfold key_block; by rewrite <- !app_assoc|].
  unfold buf_bytes. cbn. apply take_app_length.
Qed.

Lemma mmap_secondaryKeys_spec ks : forall p r m,
  Forall key_ok ks -> blen (p ++ key_blocks ks) < 2 ^ 64 ->
  let rw := RW (Z.of_nat (length p)) (Buf (p ++ key_blocks ks ++ r) m) in
  let rw' := RW (blen (p ++ key_blocks ks)) (Buf (p ++ key_blocks ks ++ r) m) in
  mmap_secondaryKeys (length ks) rw = Ok (ks, rw') /\
  mmap_skip_secondaryKeys (length ks) rw = Ok (tt, rw').
Proof.
  induction ks as [|k ks IH]; intros p r m Hks Hlen rw rw'; cbn [length mmap_secondaryKeys mmap_skip_secondaryKeys].
  - unfold rw, rw', key_blocks, blen. cbn. by rewrite app_nil_r.
  - inversion_clear Hks as [|? ? Hk Ht]. revert Hlen. unfold rw, rw'. rewrite key_blocks_cons. intros Hlen.
    rewrite <- !app_assoc. assert (Hlk : Z.of_nat (length p) + 4 + blen k < 2 ^ 64).
    { rewrite !blen_app, blen_key_block in Hlen. pose proof (blen_nonneg (key_blocks ks)). unfold blen in *. lia. }
    destruct (read_block32_mid p k (key_blocks ks ++ r) m Hk Hlk) as [(b & -> & Hb) ->]. cbn [obind].
    destruct (IH (p ++ key_block k) r m Ht) as [H1 H2]; [by rewrite <- app_assoc|].
    rewrite <- !app_assoc in H1, H2. rewrite H1, H2. cbn [obind]. by rewrite Hb.
Qed.

(** The head of a node, up to its key, through a [ReadWriter] *)
Lemma mmap_head n r m :
  node_ok n -> (length (replace_layout n) <= m)%nat ->
  let buf := Buf (replace_layout n ++ r) m in
  let rest := key_block (sn_primaryKey n) ++ key_blocks (padded n) ++ r in
  ReadUint8 (RW 0 buf) = Ok (flag_of (sn_tombstone n), RW 1 buf) /\
  ReadUint64 (RW 1 buf) = Ok (blen (sn_value n), RW 9 buf) /\
  buf_mem buf = ([flag_of (sn_tombstone n)] ++ le_split 8 (blen (sn_value n))) ++ sn_value n ++ rest.
Proof.
  intros Hn Hm buf rest. pose proof (nk_value_len n Hn) as Hv. pose proof (blen_nonneg (sn_value n)).
  unfold buf, replace_layout in *. rewrite <- !app_assoc. split_and!; [| |done].
  - apply (ReadUint8_mid []); [|cbn; lia]. revert Hm. rewrite !length_app. cbn [length]. lia.
  - apply (ReadUint64_mid [flag_of (sn_tombstone n)]); [cbn; lia|split; lia].
Qed.

Lemma layout_length n : node_ok n ->
  blen (replace_layout n) = 9 + blen (sn_value n) + (4 + blen (sn_primaryKey n)) + blen (key_blocks (padded n)).
Proof. intros _. unfold replace_layout. autorewrite with lens. rewrite blen_key_block. change (blen []) with 0. lia. Qed.

Section mmap.
Context (n : segmentReplaceNode) (r : list Z) (m : nat).
Hypothesis Hn : node_ok n.
Hypothesis Hm : (length (replace_layout n) <= m)%nat.
Hypothesis Hsize : blen (replace_layout n) < 2 ^ 63.

Let buf := Buf (replace_layout n ++ r) m.
Let head := [flag_of (sn_tombstone n)] ++ le_split 8 (blen (sn_value n)).

(** From the key on, both parsers agree. *)
Lemma mmap_tail :
  let rw := RW (9 + blen (sn_value n)) buf in
  let rw1 := RW (9 + blen (sn_value n) + (4 + blen (sn_primaryKey n))) buf in
  let rw2 := RW (blen (replace_layout n)) buf in
  (exists b, ReadBytesFromBufferWithUint32LengthIndicator rw = Ok (b, rw1) /\ buf_bytes b = sn_primaryKey n) /\
  mmap_secondaryKeys (Z.to_nat (sn_secondaryIndexCount n)) rw1 = Ok (padded n, rw2) /\
  mmap_skip_secondaryKeys (Z.to_nat (sn_secondaryIndexCount n)) rw1 = Ok (tt, rw2).
Proof.
  intros rw rw1 rw2. destruct (padded_ok n Hn) as [Hp <-]. pose proof (layout_length n Hn) as Hlen.
  pose proof (blen_nonneg (key_blocks (padded n))). pose proof (blen_nonneg (sn_value n)).
  set (p := head ++ sn_value n).
  assert (Hpl : Z.of_nat (length p) = 9 + blen (sn_value n))
    by (unfold p, head, blen; rewrite !length_app, length_le_split; cbn [length]; lia).
  assert (Hb : buf = Buf (p ++ key_block (sn_primaryKey n) ++ key_blocks (padded n) ++ r) m).
  { unfold buf, p, head, replace_layout. by rewrite <- !app_assoc. }
  destruct (read_block32_mid p (sn_primaryKey n) (key_blocks (padded n) ++ r) m) as [(b & Hr & Hk) _];
    [apply Hn|lia|].
  assert (Hpk : Z.of_nat (length (p ++ key_block (sn_primaryKey n))) = 9 + blen (sn_value n) + (4 + blen (sn_primaryKey n))).
  { rewrite length_app, Nat2Z.inj_add, Hpl. pose proof (blen_key_block (sn_primaryKey n)). unfold blen in *. lia. }
  destruct (mmap_secondaryKeys_spec (padded n) (p ++ key_block (sn_primaryKey n)) r m Hp) as [Hs Hd].
  { rewrite blen_app. unfold blen at 1. rewrite Hpk. lia. }
  replace (blen ((p ++ key_block (sn_primaryKey n)) ++ key_blocks (padded n))) with (blen (replace_layout n)) in Hs, Hd
    by (rewrite blen_app; unfold blen at 2; rewrite Hpk; lia).
  rewrite Hpk in Hs, Hd, Hr. rewrite Hpl in Hr. rewrite <- !app_assoc in Hs, Hd. unfold rw, rw1, rw2. rewrite Hb.
  split; [by exists b|done].
Qed.

Lemma MMAP_spec out :
  ParseReplaceNodeIntoMMAP (RW 0 buf) (sn_secondaryIndexCount n) out
  = Ok (parsed n (sn_secondaryIndexCount out)
          (if 0 <? sn_secondaryIndexCount n then padded n else sn_secondaryKeys out)).
Proof.
  destruct (mmap_head n r m Hn Hm) as (H8 & H64 & Hmem). destruct mmap_tail as ((b & Hkey & Hbk) & Hsec & _).
  pose proof (nk_value_len n Hn) as Hv. pose proof (blen_nonneg (sn_value n)).
  unfold ParseReplaceNodeIntoMMAP. fold buf in H8, H64. rewrite H8. cbn [omap_err obind]. rewrite H64. cbn [omap_err obind].
  unfold make_bytes. rewrite (proj2 (Z.ltb_lt _ _)) by done. cbn [obind].
  assert (Hcopy : CopyBytesFromBuffer (RW 9 buf) (blen (sn_value n)) (Some (repeat 0 (Z.to_nat (blen (sn_value n)))))
    = Ok (sn_value n, RW (9 + blen (sn_value n)) buf)).
  { unfold CopyBytesFromBuffer. rewrite advance_pos_small by lia. cbn [Position Buffer].
    rewrite Z.add_simpl_r, u64_small by (unfold is_u64; lia).
    cbn [buf_mem] in Hmem. unfold buf at 1. rewrite Hmem.
    pose proof (slice_mid head (sn_value n) (key_block (sn_primaryKey n) ++ key_blocks (padded n) ++ r) m) as Hs.
    change (Z.of_nat (length head)) with 9 in Hs. fold (blen (sn_value n)) in Hs. fold head. rewrite Hs. cbn [obind].
    unfold copy_into, buf_bytes. cbn [buf_mem buf_len]. rewrite take_app_length, repeat_length.
    assert (Hn' : Z.to_nat (blen (sn_value n)) = length (sn_value n)) by (unfold blen; lia).
    rewrite Hn', Nat.min_id, firstn_all, drop_ge, app_nil_r by (by rewrite repeat_length).
    fold (blen (sn_value n)). by rewrite Z.eqb_refl. }
  rewrite Hcopy. cbn [omap_err obind]. rewrite Hkey. cbn [omap_err obind]. rewrite Hsec. cbn [omap_err obind Position].
  unfold parsed. rewrite Hbk. f_equal. f_equal; [by destruct (sn_tombstone n)|].
  unfold to_int. rewrite (proj2 (Z.ltb_lt _ _)) by lia. done.
Qed.

Lemma DigestMMAP_spec prefixLen out :
  0 <= prefixLen ->
  ParseReplaceNodeDigestIntoMMAP (RW 0 buf) (sn_secondaryIndexCount n) prefixLen out
  = Ok (ReplaceNode (sn_tombstone n) (take (Z.to_nat prefixLen) (sn_value n)) (sn_primaryKey n)
          (sn_secondaryIndexCount n) (sn_secondaryKeys out) (blen (replace_layout n))).
Proof.
  intros Hpre. destruct (mmap_head n r m Hn Hm) as (H8 & H64 & Hmem). destruct mmap_tail as ((b & Hkey & Hbk) & _ & Hsec).
  pose proof (nk_value_len n Hn) as Hv. pose proof (blen_nonneg (sn_value n)).
  unfold ParseReplaceNodeDigestIntoMMAP. fold buf in H8, H64. rewrite H8. cbn [omap_err obind]. rewrite H64. cbn [omap_err obind].
  set (prefix := if blen (sn_value n) <? prefixLen then _ else _).
  assert (Hp : 0 <= prefix <= blen (sn_value n) /\ take (Z.to_nat prefix) (sn_value n) = take (Z.to_nat prefixLen) (sn_value n)).
  { unfold prefix. destruct (Z.ltb_spec (blen (sn_value n)) prefixLen); [|split; [lia|done]].
    split; [lia|]. unfold blen in *. by rewrite !take_ge by lia. }
  destruct Hp as [Hp Htake].
  assert (Hread : ReadBytesFromBuffer (RW 9 buf) prefix
    = Ok (Buf (drop 9 (replace_layout n ++ r)) (Z.to_nat prefix), RW (9 + prefix) buf)).
  { unfold ReadBytesFromBuffer. cbn [Position Buffer]. rewrite u64_small by (unfold is_u64; lia).
    unfold slice, buf, buf_cap. cbn [buf_mem]. rewrite !(proj2 (Z.leb_le _ _)).
    - cbn [andb obind]. rewrite advance_pos_small by lia. rewrite Z.add_simpl_l. done.
    - rewrite length_app. pose proof (layout_length n Hn). pose proof (blen_nonneg (key_blocks (padded n))).
      pose proof (blen_nonneg (sn_primaryKey n)). unfold blen in *. lia.
    - lia.
    - lia. }
  rewrite Hread. cbn [omap_err obind].
  assert (Hmove : (if prefix <? blen (sn_value n) then MoveBufferPositionForward (RW (9 + prefix) buf) (blen (sn_value n) - prefix)
    else RW (9 + prefix) buf) = RW (9 + blen (sn_value n)) buf).
  { destruct (Z.ltb_spec prefix (blen (sn_value n))); [|f_equal; lia].
    unfold MoveBufferPositionForward. rewrite advance_pos_small by lia. f_equal. lia. }
  rewrite Hmove, Hkey. cbn [omap_err obind]. rewrite Hsec. cbn [omap_err obind Position].
  rewrite Hbk. f_equal. f_equal; [by destruct (sn_tombstone n)| |unfold to_int; by rewrite (proj2 (Z.ltb_lt _ _)) by lia].
  unfold buf_bytes. cbn [buf_mem buf_len]. cbn [buf_mem] in Hmem. rewrite Hmem.
  change 9%nat with (length head). fold head. rewrite drop_app_length, <- Htake.
  apply take_app_le. unfold blen in *. lia.
Qed.
End mmap.

Lemma DigestPread_spec n r prefixLen out :
  node_ok n -> 0 <= prefixLen ->
  ParseReplaceNodeDigestIntoPread (replace_layout n ++ r) (sn_secondaryIndexCount n) prefixLen out
  = Ok (ReplaceNode (sn_tombstone n) (take (Z.to_nat prefixLen) (sn_value n)) (sn_primaryKey n)
          (sn_secondaryIndexCount n) (sn_secondaryKeys out) (blen (replace_layout n)), r).
Proof.
  intros Hn Hpre. destruct (padded_ok n Hn) as [Hp Hl]. pose proof (layout_length n Hn) as Hlen.
  pose proof (nk_value_len n Hn) as Hv. pose proof (blen_nonneg (sn_value n)).
  set (L := blen (replace_layout n)) in *. unfold ParseReplaceNodeDigestIntoPread, replace_layout.
  set (head := [flag_of (sn_tombstone n)] ++ le_split 8 (blen (sn_value n))).
  assert (Hh : forall rest, ReadFull 9 (head ++ rest) = Ok (head, rest))
    by (intros rest; exact (read_full_app head rest)).
  rewrite <- !app_assoc, (app_assoc [_]). fold head. rewrite Hh. cbn [obind].
  change (drop 1 head) with (le_split 8 (blen (sn_value n))).
  change (nth 0 head 0) with (flag_of (sn_tombstone n)). rewrite le8_len by done.
  set (prefix := if blen (sn_value n) <? prefixLen then _ else _).
  assert (Hpf : 0 <= prefix <= blen (sn_value n) /\ take (Z.to_nat prefix) (sn_value n) = take (Z.to_nat prefixLen) (sn_value n)).
  { unfold prefix. destruct (Z.ltb_spec (blen (sn_value n)) prefixLen); [|split; [lia|done]].
    split; [lia|]. unfold blen in *. by rewrite !take_ge by lia. }
  destruct Hpf as [Hpf Htake]. unfold make_bytes. rewrite (proj2 (Z.ltb_lt _ _)) by lia. cbn [obind].
  set (rest := key_block (sn_primaryKey n) ++ key_blocks (padded n) ++ r).
  set (v1 := take (Z.to_nat prefix) (sn_value n)). set (v2 := drop (Z.to_nat prefix) (sn_value n)).
  assert (Hv1 : blen v1 = prefix) by (unfold v1, blen in *; rewrite length_take; lia).
  assert (Hv2 : blen v2 = blen (sn_value n) - prefix) by (unfold v2, blen in *; rewrite length_drop; lia).
  assert (Hsplit : sn_value n ++ rest = v1 ++ v2 ++ rest) by (unfold v1, v2; by rewrite app_assoc, take_drop).
  rewrite Hsplit, <- Hv1, read_full_app. cbn [obind]. rewrite Hv1.
  assert (Hskip : to_int (blen (sn_value n) - prefix) = blen v2)
    by (rewrite Hv2; unfold to_int; by rewrite (proj2 (Z.ltb_lt _ _)) by lia).
  rewrite Hskip.
  assert (Hdisc : (if 0 <? blen v2 then Discard (blen v2) (v2 ++ rest) else Ok (v2 ++ rest)) = Ok rest).
  { destruct (Z.ltb_spec 0 (blen v2)); [apply Discard_app|]. destruct v2; [done|]. unfold blen in *. cbn [length] in *. lia. }
  rewrite Hdisc. cbn [obind]. unfold rest, key_block. rewrite <- !app_assoc, (ReadFull_le 4). cbn [obind].
  rewrite le4_len by apply Hn. rewrite read_full_app. cbn [obind]. rewrite <- Hl.
  destruct (read_secondaryKeys_spec (padded n) r
    (9 + prefix + (if 0 <? blen v2 then blen v2 else 0) + 4 + blen (sn_primaryKey n)) Hp) as [_ ->].
  cbn [obind]. unfold v1. rewrite Htake. f_equal. f_equal. f_equal; [by destruct (sn_tombstone n)|].
  rewrite Hlen. destruct (Z.ltb_spec 0 (blen v2)); pose proof (blen_nonneg v2); lia.
Qed.

(** What a lookup reads from the bytes of a node, and what it reports *)
Definition node_answer (tombstone : bool) (key value : list Z) : outcome store_error (list Z * list Z) :=
  if tombstone then Err (EGet (errorFromTombstonedValue value)) else Ok (key, value).

Lemma slice_whole p q r :
  slice (buf_of (p ++ q ++ r)) (blen p) (blen p + blen q) = Ok (Buf (q ++ r) (length q)).
Proof. apply slice_mid. Qed.

Lemma parse_data_spec n :
  node_ok n -> blen (replace_layout n) < 2 ^ 63 ->
  replaceStratParseData (replace_layout n) = node_answer (sn_tombstone n) (sn_primaryKey n) (sn_value n).
Proof.
  intros Hn Hsize. pose proof (layout_length n Hn) as Hlen. pose proof (nk_value_len n Hn) as Hv.
  pose proof (blen_nonneg (sn_value n)). pose proof (blen_nonneg (sn_primaryKey n)).
  pose proof (blen_nonneg (key_blocks (padded n))). destruct (nk_key n Hn) as [_ Hk].
  assert (Hnil : exists t, replace_layout n = flag_of (sn_tombstone n) :: t) by (by eexists).
  destruct Hnil as [t Ht]. unfold replaceStratParseData. rewrite Ht. rewrite <- Ht.
  rewrite (proj2 (Z.ltb_ge _ 9)), andb_false_r by lia.
  set (flag := [flag_of (sn_tombstone n)]). set (vl := le_split 8 (blen (sn_value n))).
  set (tail := key_block (sn_primaryKey n) ++ key_blocks (padded n)).
  assert (Hs1 : slice (buf_of (replace_layout n)) 1 9 = Ok (Buf (vl ++ sn_value n ++ tail) (length vl)))
    by exact (slice_whole flag vl (sn_value n ++ tail)).
  assert (Hs2 : slice (buf_of (replace_layout n)) 9 (9 + blen (sn_value n)) = Ok (Buf (sn_value n ++ tail) (length (sn_value n)))).
  { replace (replace_layout n) with ((flag ++ vl) ++ sn_value n ++ tail) by (unfold replace_layout; by rewrite <- app_assoc).
    exact (slice_whole (flag ++ vl) (sn_value n) tail). }
  assert (Hpre : blen ((flag ++ vl) ++ sn_value n) = 9 + blen (sn_value n))
    by (rewrite blen_app; unfold blen, flag, vl; rewrite length_app, length_le_split; cbn [length]; lia).
  assert (Hs3 : slice (buf_of (replace_layout n)) (9 + blen (sn_value n)) (blen (replace_layout n)) = Ok (Buf tail (length tail))).
  { replace (replace_layout n) with (((flag ++ vl) ++ sn_value n) ++ tail ++ []) at 1
      by (unfold replace_layout, tail; by rewrite app_nil_r, <- !app_assoc).
    rewrite <- Hpre. replace (blen (replace_layout n)) with (blen ((flag ++ vl) ++ sn_value n) + blen tail)
      by (rewrite Hpre; unfold tail; rewrite blen_app, blen_key_block; lia).
    rewrite slice_whole. by rewrite app_nil_r. }
  assert (Hs4 : slice (buf_of (replace_layout n)) (9 + blen (sn_value n) + 4) (9 + blen (sn_value n) + 4 + blen (sn_primaryKey n))
    = Ok (Buf (sn_primaryKey n ++ key_blocks (padded n)) (length (sn_primaryKey n)))).
  { replace (replace_layout n) with ((((flag ++ vl) ++ sn_value n) ++ le_split 4 (blen (sn_primaryKey n)))
      ++ sn_primaryKey n ++ key_blocks (padded n)) by (unfold replace_layout, key_block; by rewrite <- !app_assoc).
    replace (9 + blen (sn_value n) + 4) with (blen (((flag ++ vl) ++ sn_value n) ++ le_split 4 (blen (sn_primaryKey n))))
      by (rewrite blen_app, Hpre, blen_le_split; lia).
    apply slice_whole. }
  rewrite Hs1. cbn [omap_err obind]. unfold vl at 1. rewrite le_uint_app.
  2:{ unfold vl. rewrite length_le_split. lia. }
  2:{ change (256 ^ Z.of_nat 8) with (2 ^ 64). lia. }
  cbn [omap_err obind]. rewrite (u64_small (9 + _)) by (unfold is_u64; lia). rewrite Hs2. cbn [omap_err obind].
  unfold buf_bytes at 1. cbn [buf_mem buf_len]. rewrite take_app_length. unfold node_answer.
  destruct (sn_tombstone n); cbn [flag_of Z.eqb]; [done|].
  rewrite Hs3. cbn [omap_err obind]. unfold tail at 1, key_block. rewrite <- app_assoc.
  rewrite le_uint_app.
  2:{ unfold tail, key_block. rewrite !length_app, length_le_split. lia. }
  2:{ change (256 ^ Z.of_nat 4) with (2 ^ 32). lia. }
  cbn [omap_err obind]. rewrite !u64_small by (unfold is_u64; lia).
  rewrite Hs4. cbn [omap_err obind]. unfold buf_bytes. cbn [buf_mem buf_len]. by rewrite !take_app_length.
Qed.

(** * Properties *)

(** A node of strategy "replace" survives its file.  The key the writer hands to
    the index spans exactly the bytes it wrote; behind those bytes anything may
    follow.  From them every parser, by pread or from memory, recovers tombstone,
    value, key and secondary keys (an absent one as an empty one) and the length of
    the node; the digest parsers recover the asked prefix of the value and the same
    length; and a lookup finds key and value, or the error of a tombstone. *)
Lemma replace_node_roundtrip (n out : segmentReplaceNode) (rest : list Z) (prefixLen : Z) :
  node_ok n -> blen (replace_layout n ++ rest) < 2 ^ 63 -> 0 <= prefixLen ->
  let count := sn_secondaryIndexCount n in
  let (bytes, ki) := KeyIndexAndWriteTo n in
  let digest := ReplaceNode (sn_tombstone n) (take (Z.to_nat prefixLen) (sn_value n)) (sn_primaryKey n) count
                  (sn_secondaryKeys out) (blen bytes) in
  k_ValueEnd ki = sn_offset n + blen bytes /\
  ParseReplaceNode (bytes ++ rest) count = Ok (parsed n count (padded n), rest) /\
  ParseReplaceNodeIntoPread (bytes ++ rest) count out
    = Ok (parsed n (sn_secondaryIndexCount out)
            (padded n ++ drop (Z.to_nat count)
               (if (0 <? count) && (Z.of_nat (length (sn_secondaryKeys out)) <? count) then [] else sn_secondaryKeys out)), rest) /\
  ParseReplaceNodeIntoMMAP (NewReadWriter (buf_of (bytes ++ rest))) count out
    = Ok (parsed n (sn_secondaryIndexCount out) (if 0 <? count then padded n else sn_secondaryKeys out)) /\
  ParseReplaceNodeDigestIntoPread (bytes ++ rest) count prefixLen out = Ok (digest, rest) /\
  ParseReplaceNodeDigestIntoMMAP (NewReadWriter (buf_of (bytes ++ rest))) count prefixLen out = Ok digest /\
  replaceStratParseData bytes = node_answer (sn_tombstone n) (sn_primaryKey n) (sn_value n).
Proof.
  intros Hn Hsize Hpre count. rewrite (writer_layout n Hn). cbv zeta. cbn [k_ValueEnd].
  assert (Hs : blen (replace_layout n) < 2 ^ 63) by (rewrite blen_app in Hsize; pose proof (blen_nonneg rest); lia).
  assert (Hm : (length (replace_layout n) <= length (replace_layout n ++ rest))%nat) by (rewrite length_app; lia).
  unfold ParseReplaceNode, ParseReplaceNodeIntoPread. unfold count. rewrite !(read_node_spec n rest Hn). cbn [obind].
  split_and!; [done..| | | |].
  - exact (MMAP_spec n rest _ Hn Hm Hs out).
  - by apply DigestPread_spec.
  - exact (DigestMMAP_spec n rest _ Hn Hm Hs prefixLen out Hpre).
  - by apply parse_data_spec.
Qed.

Definition wit_node : segmentReplaceNode := ReplaceNode false [7; 8; 9] [1; 2] 2 [[5]] 16.

Lemma bytes_check l : forallb (fun x => (0 <=? x) && (x <? 256)) l = true -> Forall is_byte l.
Proof.
  intros Hl. apply Forall_forall. intros x Hx. rewrite forallb_forall in Hl.
  apply list_elem_of_In, Hl, andb_true_iff in Hx. unfold is_byte. lia.
Qed.

Lemma wit_node_ok : node_ok wit_node.
Proof.
  pose proof bytes_check as Hb. split; cbn [wit_node sn_value sn_primaryKey sn_secondaryIndexCount sn_secondaryKeys].
  - by apply Hb.
  - reflexivity.
  - split; [by apply Hb|reflexivity].
  - lia.
  - constructor; [split; [by apply Hb|reflexivity]|constructor].
  - cbn. lia.
Qed.

Lemma replace_node_roundtrip_witness :
  replaceStratParseData (KeyIndexAndWriteTo wit_node).1 = Ok ([1; 2], [7; 8; 9]) /\
  ParseReplaceNode ((KeyIndexAndWriteTo wit_node).1 ++ [42]) 2
    = Ok (ReplaceNode false [7; 8; 9] [1; 2] 2 [[5]; []] 27, [42]).
Proof.
  destruct (replace_node_roundtrip wit_node wit_node [42] 2 wit_node_ok) as (_ & H & _ & _ & _ & _ & Hp); [done..|].
  split; [exact Hp|exact H].
Defined.
