(* ===== verification/SegmentFile.v ===== *)
(** * The segment file: header, indexes, checksum

    [segmentindex/header.go], [indexes.go], [segment_file.go] and the writer of
    secondary indexes of [tree.go].  A file is a header of 16 bytes, the data, the
    indexes (with secondary indexes: a table of their offsets first) and, when
    enabled, the CRC32 of data, indexes and header.  [newSegment] of
    lsmkv/segment.go takes it apart again. *)

From S2P Require Import Prelude ByteOps SegmentIndex IndexLayout DiskTree IndexWalk MemtableTree ReplaceNode.

(** ** header.go *)

Definition HeaderSize : Z := 16.
Definition ChecksumSize : Z := 4.

Definition SegmentV1 : Z := 1.
Definition CurrentSegmentVersion : Z := SegmentV1.
Definition ChooseHeaderVersion (checksumsEnabled : bool) : Z :=
  if negb checksumsEnabled then 0 else CurrentSegmentVersion.

(** The strategies, as they are stored *)
Definition StrategyReplace : Z := 0.
Definition allStrategies : list Z := [0; 1; 2; 3; 4; 5].

Record Header : Type := MkHeader {
  h_Level : Z; h_Version : Z; h_SecondaryIndices : Z; h_Strategy : Z; h_IndexStart : Z }.

Definition header_WriteTo (h : Header) : outcome store_error (list Z) :=
  omap_err EBytes
   (let rw := NewReadWriter (buf_of (repeat 0 16)) in
    let! (_, rw) := WriteUint16 rw (h_Level h) in
    let! (_, rw) := WriteUint16 rw (h_Version h) in
    let! (_, rw) := WriteUint16 rw (h_SecondaryIndices h) in
    let! (_, rw) := WriteUint16 rw (h_Strategy h) in
    let! (_, rw) := WriteUint64 rw (h_IndexStart h) in
    Ok (buf_bytes (Buffer rw))).

Definition ParseHeader (data : list Z) : outcome store_error Header :=
  if negb (blen data =? HeaderSize) then Err EHeaderLength
  else
    let! out := omap_err EBytes
     (let rw := NewReadWriter (buf_of data) in
      let! (level, rw) := ReadUint16 rw in
      let! (version, rw) := ReadUint16 rw in
      let! (secondaryIndices, rw) := ReadUint16 rw in
      let! (strategy, rw) := ReadUint16 rw in
      let! (indexStart, _) := ReadUint64 rw in
      Ok (MkHeader level version secondaryIndices strategy indexStart)) in
    if CurrentSegmentVersion <? h_Version out then Err EVersion else Ok out.

(** [source[lo:hi]] and [source[lo:]] of a slice without spare capacity *)
Definition sub (source : list Z) (lo hi : Z) : outcome store_error (list Z) :=
  let! b := omap_err EBytes (slice (buf_of source) lo hi) in Ok (buf_bytes b).

Definition sub_from (source : list Z) (lo : Z) : outcome store_error (list Z) := sub source lo (blen source).

Definition secondaryIndexOffsetsEnd (h : Header) : Z := u64 (h_IndexStart h + u64 (h_SecondaryIndices h * 8)).

(** [binary.Read] into a slice of the given length *)
Fixpoint read_offsets (count : nat) (r : list Z) : outcome store_error (list Z) :=
  match count with
  | O => Ok []
  | S count =>
      let! (b, r) := ReadFull 8 r in
      let! rest := read_offsets count r in
      Ok (le_combine b :: rest)
  end.

Definition parseSecondaryIndexOffsets (h : Header) (source : list Z) : outcome store_error (list Z) :=
  read_offsets (Z.to_nat (h_SecondaryIndices h)) source.

Definition offset_at (offsets : list Z) (i : Z) : outcome store_error Z :=
  match offsets !! Z.to_nat i with Some o => Ok o | None => Panic end.

Definition PrimaryIndex (h : Header) (source : list Z) : outcome store_error (list Z) :=
  if h_SecondaryIndices h =? 0 then sub_from source (h_IndexStart h)
  else
    let! table := sub source (h_IndexStart h) (secondaryIndexOffsetsEnd h) in
    let! offsets := parseSecondaryIndexOffsets h table in
    let! end_ := offset_at offsets 0 in
    sub source (secondaryIndexOffsetsEnd h) end_.

Definition SecondaryIndex (h : Header) (source : list Z) (indexID : Z) : outcome store_error (list Z) :=
  if h_SecondaryIndices h <=? indexID then Err ESecondaryIndex
  else
    let! table := sub source (h_IndexStart h) (secondaryIndexOffsetsEnd h) in
    let! offsets := parseSecondaryIndexOffsets h table in
    let! start := offset_at offsets indexID in
    if indexID =? h_SecondaryIndices h - 1 then sub_from source start
    else let! end_ := offset_at offsets (indexID + 1) in sub source start end_.

(** ** Secondary indexes: tree.go *)

Definition computeSecondaryIndexSize (keys : list Key) (pos : nat) : Z :=
  foldl (fun size key =>
    match k_SecondaryKeys key !! pos with
    | None => size
    | Some sk => size + (TREE_KEY_STORE_OVERHEAD + blen sk)
    end) 0 keys.

(** The entries of the keys that have a secondary key at [pos] *)
Definition secondary_entries (keys : list Key) (pos : nat) : list (list Z * Z * Z) :=
  omap (fun key => match k_SecondaryKeys key !! pos with
                   | Some sk => Some (sk, u64 (k_ValueStart key), u64 (k_ValueEnd key))
                   | None => None end) keys.

(** [slices.SortFunc] by the secondary key; the order of equal keys is not
    specified, here they keep theirs *)
Fixpoint sort_insert (x : list Z * Z * Z) (l : list (list Z * Z * Z)) : list (list Z * Z * Z) :=
  match l with
  | [] => [x]
  | y :: r => match bytes_compare x.1.1 y.1.1 with Gt => y :: sort_insert x r | _ => x :: l end
  end.

Definition sort_entries (l : list (list Z * Z * Z)) : list (list Z * Z * Z) := foldr sort_insert [] l.

Definition marshalSortedSecondaryFromKeys (keys : list Key) (pos : nat) : outcome index_error (list Z * Z) :=
  let sorted := sort_entries (secondary_entries keys pos) in
  let n := Z.of_nat (length sorted) in
  if n =? 0 then Ok ([], 0) else marshal_sorted (key_at sorted) n.

(** ** indexes.go *)

Record Indexes : Type := MkIndexes {
  ix_Keys : list Key;
  ix_SecondaryIndexCount : Z;
  ix_Precomputed : option (Z * list Z) }.

Definition buildAndMarshalPrimary (keys : list Key) : outcome store_error (list Z * Z) :=
  omap_err EIndex (MarshalSortedKeysFromKeys keys).

(** Sizes and absolute offsets of the secondary indexes from position [pos] on *)
Fixpoint secondary_layout (s : Indexes) (positions : list nat) (secStart : Z) : list (Z * Z) :=
  match positions with
  | [] => []
  | pos :: positions =>
      let size := match ix_Precomputed s with
        | Some (_, sizes) => match sizes !! pos with Some n => n | None => computeSecondaryIndexSize (ix_Keys s) pos end
        | None => computeSecondaryIndexSize (ix_Keys s) pos
        end in
      (secStart, size) :: secondary_layout s positions (u64 (secStart + u64 size))
  end.

Fixpoint write_secondaries (s : Indexes) (positions : list nat) (layout : list (Z * Z)) : outcome store_error (list Z) :=
  match positions, layout with
  | pos :: positions, (_, size) :: layout =>
      let! (data, n) := omap_err EIndex (marshalSortedSecondaryFromKeys (ix_Keys s) pos) in
      if negb (n =? size) then Err EIndexSize
      else let! rest := write_secondaries s positions layout in Ok (data ++ rest)
  | _, _ => Ok []
  end.

Definition dataEndOffset (keys : list Key) : Z :=
  match last keys with Some k => u64 (k_ValueEnd k) | None => HeaderSize end.

Definition writeDirectly (s : Indexes) : outcome store_error (list Z) :=
  let primarySize := match ix_Precomputed s with Some (n, _) => n | None => computePrimaryIndexSize (ix_Keys s) end in
  let offsetTableSize := u64 (ix_SecondaryIndexCount s * 8) in
  let positions := seq 0 (Z.to_nat (ix_SecondaryIndexCount s)) in
  let layout := secondary_layout s positions (u64 (dataEndOffset (ix_Keys s) + offsetTableSize + u64 primarySize)) in
  let table := concat (map (fun x => le_split 8 x.1) layout) in
  let! (primary, n) := buildAndMarshalPrimary (ix_Keys s) in
  if negb (n =? primarySize) then Err EIndexSize
  else let! secondaries := write_secondaries s positions layout in Ok (table ++ primary ++ secondaries).

Definition indexes_WriteTo (s : Indexes) : outcome store_error (list Z) :=
  if ix_SecondaryIndexCount s =? 0 then let! (data, _) := buildAndMarshalPrimary (ix_Keys s) in Ok data
  else writeDirectly s.

(** ** The checksum: [hash/crc32] with the IEEE polynomial, [Sum] in big endian *)

Fixpoint crc_bits (n : nat) (crc : Z) : Z :=
  match n with
  | O => crc
  | S n => crc_bits n (if Z.testbit crc 0 then Z.lxor (Z.shiftr crc 1) 0xEDB88320 else Z.shiftr crc 1)
  end.

Definition crc_update (crc : Z) (b : Z) : Z := crc_bits 8 (Z.lxor crc b).

Definition crc32 (data : list Z) : Z := Z.lxor (foldl crc_update 0xFFFFFFFF data) 0xFFFFFFFF.

Definition checksum_bytes (data : list Z) : list Z := be_split 4 (u32 (crc32 data)).

(** ** segment_file.go: what is in the file after [WriteHeader], the body,
    [WriteIndexes] and [WriteChecksum], and in which order it is hashed *)

Definition segment_file (enableChecksums : bool) (header body indexes : list Z) : list Z :=
  header ++ body ++ indexes ++ (if enableChecksums then checksum_bytes (body ++ indexes ++ header) else []).

Definition ValidateChecksum (contents : list Z) (size headerSize : Z) : outcome store_error unit :=
  let! (header, r) := ReadFull headerSize contents in
  let! (data, r) := ReadFull (Z.max 0 (size - headerSize - ChecksumSize)) r in
  let! (checksum, _) := ReadFull ChecksumSize r in
  if bool_decide (checksum_bytes (data ++ header) = checksum) then Ok tt else Err EChecksum.

(** ** lsmkv/segment.go: opening a segment of strategy "replace" *)

(** Bloom filters (github.com/bits-and-blooms/bloom): no false negatives *)
Class Bloom (F : Type) : Type := {
  NewWithEstimates : Z -> F;
  bf_Add : F -> list Z -> F;
  bf_Test : F -> list Z -> bool;
  bf_Test_Add : forall f k, bf_Test (bf_Add f k) k = true;
  bf_Test_mono : forall f k k', bf_Test f k = true -> bf_Test (bf_Add f k') k = true }.

Record segment (F : Type) : Type := MkSegment {
  s_level : Z;
  s_contents : list Z;
  s_version : Z;
  s_secondaryIndexCount : Z;
  s_strategy : Z;
  s_dataStartPos : Z;
  s_dataEndPos : Z;
  s_index : DiskTree;
  s_secondaryIndices : list DiskTree;
  s_readFromMemory : bool;
  s_useBloomFilter : bool;
  s_bloomFilter : option F;
  s_secondaryBloomFilters : list F }.
Arguments MkSegment {F} _ _ _ _ _ _ _ _ _ _ _ _ _.
Arguments s_level {F} _.
Arguments s_contents {F} _.
Arguments s_version {F} _.
Arguments s_secondaryIndexCount {F} _.
Arguments s_strategy {F} _.
Arguments s_dataStartPos {F} _.
Arguments s_dataEndPos {F} _.
Arguments s_index {F} _.
Arguments s_secondaryIndices {F} _.
Arguments s_readFromMemory {F} _.
Arguments s_useBloomFilter {F} _.
Arguments s_bloomFilter {F} _.
Arguments s_secondaryBloomFilters {F} _.

Section open.
Context {F : Type} `{!Bloom F}.

(** [b[:len(b)-ChecksumSize]] *)
Definition strip_checksum (b : list Z) : outcome store_error (list Z) := sub b 0 (blen b - ChecksumSize).

Fixpoint open_secondaries (h : Header) (contents : list Z) (strip : bool) (dataStart dataEnd : Z) (ids : list nat) :
    outcome store_error (list DiskTree) :=
  match ids with
  | [] => Ok []
  | i :: ids =>
      let! secondary := SecondaryIndex h contents (Z.of_nat i) in
      let! secondary := if strip && (Z.of_nat i =? h_SecondaryIndices h - 1) then strip_checksum secondary else Ok secondary in
      let! rest := open_secondaries h contents strip dataStart dataEnd ids in
      Ok (NewDiskTreeWithValueBounds secondary dataStart dataEnd :: rest)
  end.

(** [computeAndStoreBloomFilter] *)
Definition computeBloomFilter (t : DiskTree) : outcome store_error F :=
  let! count := omap_err EIndex (KeyCount t) in
  let! keys := omap_err EIndex (ForEachKey t) in
  Ok (foldl bf_Add (NewWithEstimates count) keys).

Fixpoint secondaryBloomFilters (ts : list DiskTree) : outcome store_error (list F) :=
  match ts with
  | [] => Ok []
  | t :: ts => let! f := computeBloomFilter t in let! fs := secondaryBloomFilters ts in Ok (f :: fs)
  end.

(** [recover()]: a panic on a damaged file is returned as an error *)
Definition recovered {A} (r : outcome store_error A) : outcome store_error A :=
  match r with Panic => Err ERecovered | r => r end.

(** What the configuration of a bucket and the size of the file decide: whether
    checksums are validated, whether the file is mapped, whether bloom filters are
    used, and whether the file was small enough to be read as a whole. *)
Record segmentConfig : Type := SegConfig {
  sc_enableChecksumValidation : bool;
  sc_mmapContents : bool;
  sc_useBloomFilter : bool;
  sc_readWhole : bool }.

Definition sc_readFromMemory (cfg : segmentConfig) : bool := sc_readWhole cfg || sc_mmapContents cfg.
Definition sc_bloom (cfg : segmentConfig) : bool := negb (sc_readWhole cfg) && sc_useBloomFilter cfg.

Definition newSegment (cfg : segmentConfig) (contents : list Z) : outcome store_error (segment F) :=
  recovered
   (let! head := sub contents 0 HeaderSize in
    let! header := ParseHeader head in
    if negb (bool_decide (h_Strategy header ∈ allStrategies)) then Err EStrategy
    else
      let validate := (SegmentV1 <=? h_Version header) && sc_enableChecksumValidation cfg in
      let! _ := if validate then ValidateChecksum contents (blen contents) HeaderSize else Ok tt in
      if blen contents <? h_IndexStart header then Err (EIndex ErrCorruptIndex)
      else
        let! primaryIndex := PrimaryIndex header contents in
        let! primaryIndex := if validate && (h_SecondaryIndices header =? 0) then strip_checksum primaryIndex
                             else Ok primaryIndex in
        let dataStartPos := HeaderSize in
        let dataEndPos := h_IndexStart header in
        if dataEndPos <? dataStartPos then Err (EIndex ErrCorruptIndex)
        else
          let index := NewDiskTreeWithValueBounds primaryIndex dataStartPos dataEndPos in
          let! secondaries := open_secondaries header contents validate dataStartPos dataEndPos
            (seq 0 (Z.to_nat (h_SecondaryIndices header))) in
          let! (bloom, blooms) :=
            if sc_bloom cfg then
              let! f := computeBloomFilter index in
              let! fs := secondaryBloomFilters secondaries in
              Ok (Some f, fs)
            else Ok (None, []) in
          Ok (MkSegment (h_Level header) contents (h_Version header) (h_SecondaryIndices header) (h_Strategy header)
                dataStartPos dataEndPos index secondaries (sc_readFromMemory cfg) (sc_bloom cfg) bloom blooms)).
End open.

(** * Lemmas *)

(** ** Header *)

Definition header_bytes (h : Header) : list Z :=
  le_split 2 (h_Level h) ++ le_split 2 (h_Version h) ++ le_split 2 (h_SecondaryIndices h)
  ++ le_split 2 (h_Strategy h) ++ le_split 8 (h_IndexStart h).

Definition is_u16 (z : Z) : Prop := 0 <= z < 2 ^ 16.

Record header_ok (h : Header) : Prop := {
  ho_level : is_u16 (h_Level h);
  ho_version : 0 <= h_Version h <= CurrentSegmentVersion;
  ho_secondary : is_u16 (h_SecondaryIndices h);
  ho_strategy : is_u16 (h_Strategy h);
  ho_start : is_u64 (h_IndexStart h) }.

Lemma blen_header h : blen (header_bytes h) = HeaderSize.
Proof. unfold header_bytes, blen. by rewrite !length_app, !length_le_split. Qed.

Lemma header_WriteTo_bytes h : header_WriteTo h = Ok (header_bytes h).
Proof.
  unfold header_WriteTo, NewReadWriter, buf_of, WriteUint16, WriteUint64.
  set (l := le_split 2 (h_Level h)). set (v := le_split 2 (h_Version h)). set (i := le_split 2 (h_SecondaryIndices h)).
  set (t := le_split 2 (h_Strategy h)). set (z2 := [0; 0]).
  assert (H1 : put_uint 2 (RW 0 (Buf (repeat 0 16) 16)) (h_Level h) = Ok (tt, RW 2 (Buf (l ++ repeat 0 14) 16)))
    by exact (put_uint_mid 2 [] z2 (repeat 0 14) 16 _ eq_refl eq_refl).
  assert (H2 : put_uint 2 (RW 2 (Buf (l ++ repeat 0 14) 16)) (h_Version h) = Ok (tt, RW 4 (Buf (l ++ v ++ repeat 0 12) 16)))
    by exact (put_uint_mid 2 l z2 (repeat 0 12) 16 _ eq_refl eq_refl).
  assert (H3 : put_uint 2 (RW 4 (Buf (l ++ v ++ repeat 0 12) 16)) (h_SecondaryIndices h)
    = Ok (tt, RW 6 (Buf (l ++ v ++ i ++ repeat 0 10) 16)))
    by exact (put_uint_mid 2 (l ++ v) z2 (repeat 0 10) 16 _ eq_refl eq_refl).
  assert (H4 : put_uint 2 (RW 6 (Buf (l ++ v ++ i ++ repeat 0 10) 16)) (h_Strategy h)
    = Ok (tt, RW 8 (Buf (l ++ v ++ i ++ t ++ repeat 0 8) 16)))
    by exact (put_uint_mid 2 (l ++ v ++ i) z2 (repeat 0 8) 16 _ eq_refl eq_refl).
  assert (H5 : put_uint 8 (RW 8 (Buf (l ++ v ++ i ++ t ++ repeat 0 8) 16)) (h_IndexStart h)
    = Ok (tt, RW 16 (Buf (l ++ v ++ i ++ t ++ le_split 8 (h_IndexStart h)) 16)))
    by exact (put_uint_mid 8 (l ++ v ++ i ++ t) (repeat 0 8) [] 16 _ eq_refl eq_refl).
  change (length (repeat 0 16)) with 16%nat. rewrite H1. cbn [obind]. rewrite H2. cbn [obind]. rewrite H3. cbn [obind].
  rewrite H4. cbn [obind]. rewrite H5. done.
Qed.

Lemma ReadUint16_mid p v r m :
  Z.of_nat (length p) + 2 < 2 ^ 64 -> is_u16 v ->
  ReadUint16 (RW (Z.of_nat (length p)) (Buf (p ++ le_split 2 v ++ r) m))
  = Ok (v, RW (Z.of_nat (length p + 2)) (Buf (p ++ le_split 2 v ++ r) m)).
Proof. intros Hl Hv. apply (read_uint_mid 2); [lia|done]. Qed.

Lemma ParseHeader_bytes h : header_ok h -> ParseHeader (header_bytes h) = Ok h.
Proof.
  intros Hh. unfold ParseHeader. rewrite blen_header. cbn [Z.eqb HeaderSize Pos.eqb negb].
  unfold NewReadWriter, buf_of. set (m := length (header_bytes h)). unfold header_bytes.
  set (l := le_split 2 (h_Level h)). set (v := le_split 2 (h_Version h)). set (i := le_split 2 (h_SecondaryIndices h)).
  set (t := le_split 2 (h_Strategy h)). set (x := le_split 8 (h_IndexStart h)).
  assert (Hv : is_u16 (h_Version h)).
  { pose proof (ho_version h Hh) as Hv. unfold is_u16, CurrentSegmentVersion, SegmentV1 in *. lia. }
  pose proof (ReadUint16_mid [] (h_Level h) (v ++ i ++ t ++ x) m ltac:(done) (ho_level h Hh)) as H1.
  pose proof (ReadUint16_mid l (h_Version h) (i ++ t ++ x) m ltac:(done) Hv) as H2.
  pose proof (ReadUint16_mid (l ++ v) (h_SecondaryIndices h) (t ++ x) m ltac:(done) (ho_secondary h Hh)) as H3.
  pose proof (ReadUint16_mid (l ++ v ++ i) (h_Strategy h) x m ltac:(done) (ho_strategy h Hh)) as H4.
  pose proof (ReadUint64_mid (l ++ v ++ i ++ t) (h_IndexStart h) [] m ltac:(done) (ho_start h Hh)) as H5.
  fold l in H1. fold v in H2. fold i in H3. fold t in H4. fold x in H5.
  rewrite <- !app_assoc in H3. rewrite <- !app_assoc in H4. rewrite <- !app_assoc, app_nil_r in H5. cbn [app length] in H1.
  change (RW 0) with (RW (Z.of_nat 0)). rewrite H1. cbn [obind omap_err]. change (Z.of_nat (0 + 2)) with (Z.of_nat (length l)).
  rewrite H2. cbn [obind]. change (Z.of_nat (length l + 2)) with (Z.of_nat (length (l ++ v))).
  rewrite H3. cbn [obind]. change (Z.of_nat (length (l ++ v) + 2)) with (Z.of_nat (length (l ++ v ++ i))).
  rewrite H4. cbn [obind]. change (Z.of_nat (length (l ++ v ++ i) + 2)) with (Z.of_nat (length (l ++ v ++ i ++ t))).
  rewrite H5. cbn [obind omap_err h_Version]. rewrite (proj2 (Z.ltb_ge _ _)) by apply Hh. by destruct h.
Qed.

(** ** Slices *)

Lemma sub_mid p q r : sub (p ++ q ++ r) (blen p) (blen p + blen q) = Ok q.
Proof.
  unfold sub. rewrite slice_whole. cbn [omap_err obind]. unfold buf_bytes. cbn [buf_mem buf_len].
  by rewrite take_app_length.
Qed.

Lemma sub_from_app p q : sub_from (p ++ q) (blen p) = Ok q.
Proof.
  unfold sub_from. rewrite blen_app. pose proof (sub_mid p q []) as H. by rewrite app_nil_r in H.
Qed.

Lemma sub_prefix p r : sub (p ++ r) 0 (blen p) = Ok p.
Proof. exact (sub_mid [] p r). Qed.

Lemma strip_checksum_app p c : blen c = ChecksumSize -> strip_checksum (p ++ c) = Ok p.
Proof.
  intros Hc. unfold strip_checksum. replace (blen (p ++ c) - ChecksumSize) with (blen p) by (rewrite blen_app; lia).
  apply sub_prefix.
Qed.

Lemma read_offsets_spec os r :
  Forall is_u64 os -> read_offsets (length os) (concat (map (le_split 8) os) ++ r) = Ok os.
Proof.
  induction 1 as [|o os Ho Hos IH]; [done|]. cbn [length read_offsets map concat].
  rewrite <- app_assoc, (ReadFull_le 8). cbn [obind]. rewrite IH. cbn [obind].
  rewrite le_combine_split by (change (256 ^ Z.of_nat 8) with (2 ^ 64); exact Ho). done.
Qed.

Lemma blen_checksum data : blen (checksum_bytes data) = ChecksumSize.
Proof. unfold blen, checksum_bytes. by rewrite length_be_split. Qed.

(** ** The checksum of a written file validates *)

Lemma ValidateChecksum_file h body ix :
  blen h = HeaderSize ->
  let file := segment_file true h body ix in
  ValidateChecksum file (blen file) HeaderSize = Ok tt.
Proof.
  intros Hh file. unfold ValidateChecksum, file, segment_file.
  assert (Hr0 : forall r, ReadFull HeaderSize (h ++ r) = Ok (h, r)) by (intros r; rewrite <- Hh; apply read_full_app).
  rewrite Hr0. cbn [obind].
  set (ck := checksum_bytes (body ++ ix ++ h)). assert (Hck : blen ck = ChecksumSize) by apply blen_checksum.
  pose proof (blen_nonneg body). pose proof (blen_nonneg ix).
  replace (Z.max 0 (blen (h ++ body ++ ix ++ ck) - HeaderSize - ChecksumSize)) with (blen (body ++ ix))
    by (rewrite !blen_app, Hh, Hck; lia).
  rewrite (app_assoc body), read_full_app. cbn [obind].
  pose proof (read_full_app ck []) as Hr. rewrite app_nil_r, Hck in Hr. rewrite Hr. cbn [obind].
  rewrite bool_decide_true by (by rewrite <- app_assoc). done.
Qed.

(** ** Secondary indexes *)

Lemma sort_insert_perm x l : sort_insert x l ≡ₚ x :: l.
Proof.
  induction l as [|y l IH]; cbn [sort_insert]; [done|].
  destruct (bytes_compare x.1.1 y.1.1); [done..|]. rewrite IH. apply Permutation_swap.
Qed.

Lemma sort_entries_perm l : sort_entries l ≡ₚ l.
Proof. induction l as [|x l IH]; cbn [sort_entries foldr]; [done|]. by rewrite sort_insert_perm, IH. Qed.

Lemma index_size_perm l l' : l ≡ₚ l' -> index_size l = index_size l'.
Proof. unfold index_size. induction 1; cbn [foldr]; lia. Qed.

Lemma secondary_size keys pos : computeSecondaryIndexSize keys pos = index_size (secondary_entries keys pos).
Proof.
  unfold computeSecondaryIndexSize.
  enough (E : forall acc, foldl (fun size key =>
      match k_SecondaryKeys key !! pos with None => size | Some sk => size + (TREE_KEY_STORE_OVERHEAD + blen sk) end) acc keys
    = acc + index_size (secondary_entries keys pos)) by (rewrite E; lia).
  unfold secondary_entries, index_size. induction keys as [|k keys IH]; intros acc; cbn [foldl omap list_omap foldr]; [lia|].
  rewrite IH. destruct (k_SecondaryKeys k !! pos) as [sk|]; cbn [foldr fst]; [|done]. unfold blen. lia.
Qed.

(** The keys a file can index: fewer than 2^31 of them, and every entry, primary or
    secondary, within the format *)
Definition keys_ok (keys : list Key) (count : Z) : Prop :=
  Z.of_nat (length keys) < 2 ^ 31 /\ Forall entry_ok (key_entries keys) /\
  forall pos, Forall entry_ok (secondary_entries keys pos).

(** The bytes of an index with the given entries *)
Definition index_of (data : list Z) (es : list entry) : Prop := es = [] /\ data = [] \/ index_image data es.

Lemma length_secondary_entries keys pos : (length (secondary_entries keys pos) <= length keys)%nat.
Proof.
  unfold secondary_entries. induction keys as [|k keys IH]; [done|]. cbn [omap list_omap].
  destruct (k_SecondaryKeys k !! pos); cbn [length]; lia.
Qed.

Lemma secondary_written keys count pos :
  keys_ok keys count ->
  exists data, marshalSortedSecondaryFromKeys keys pos = Ok (data, computeSecondaryIndexSize keys pos) /\
    blen data = computeSecondaryIndexSize keys pos /\ Forall is_byte data /\
    index_of data (sort_entries (secondary_entries keys pos)).
Proof.
  intros (Hn & _ & Hs). specialize (Hs pos). pose proof (sort_entries_perm (secondary_entries keys pos)) as Hp.
  pose proof (length_secondary_entries keys pos) as Hle. pose proof (Permutation_length Hp) as Hpl.
  unfold marshalSortedSecondaryFromKeys. rewrite secondary_size, <- (index_size_perm _ _ Hp).
  destruct (Z.eqb_spec (Z.of_nat (length (sort_entries (secondary_entries keys pos)))) 0) as [E|E].
  - exists []. destruct (sort_entries (secondary_entries keys pos)); [|cbn [length] in E; lia].
    split_and!; [done..|by left].
  - destruct (marshal_image (key_at (sort_entries (secondary_entries keys pos))) (sort_entries (secondary_entries keys pos)))
      as (data & -> & Hi); [lia|by rewrite Hp|intros si Hsi; by apply key_at_nth|].
    exists data. destruct Hi as (Hb & Hl & Hi). unfold blen. rewrite Hl. split_and!; [done..|by right].
Qed.

Lemma primary_written keys count :
  keys_ok keys count ->
  exists data, buildAndMarshalPrimary keys = Ok (data, computePrimaryIndexSize keys) /\
    blen data = computePrimaryIndexSize keys /\ Forall is_byte data /\
    index_of data (key_entries keys).
Proof.
  intros (Hn & Hok & _). unfold buildAndMarshalPrimary. destruct keys as [|k keys].
  - exists []. cbn. split_and!; auto. by left.
  - destruct (FromKeys_image (k :: keys)) as (data & -> & Hi); [cbn [length] in *; lia|done|].
    exists data. rewrite primary_size. destruct Hi as (Hb & Hl & Hi). unfold blen. split_and!; try done. by right.
Qed.

(** Precomputed sizes are those the writer would compute. *)
Definition sizes_ok (ix : Indexes) : Prop :=
  match ix_Precomputed ix with
  | None => True
  | Some (n, sizes) =>
      n = computePrimaryIndexSize (ix_Keys ix) /\
      forall pos size, sizes !! pos = Some size -> size = computeSecondaryIndexSize (ix_Keys ix) pos
  end.

Fixpoint offsets_from (start : Z) (datas : list (list Z)) : list (Z * Z) :=
  match datas with [] => [] | d :: datas => (start, blen d) :: offsets_from (start + blen d) datas end.

Lemma blen_concat_cons (d : list Z) ds : blen (concat (d :: ds)) = blen d + blen (concat ds).
Proof. cbn [concat]. apply blen_app. Qed.

Definition secondary_total (keys : list Key) (positions : list nat) : Z :=
  foldr (fun pos acc => computeSecondaryIndexSize keys pos + acc) 0 positions.

Lemma secondaries_written ix positions : forall start,
  keys_ok (ix_Keys ix) (ix_SecondaryIndexCount ix) -> sizes_ok ix -> 0 <= start ->
  exists datas, Forall2 (fun pos data => index_of data (sort_entries (secondary_entries (ix_Keys ix) pos))) positions datas /\
    Forall (Forall is_byte) datas /\
    blen (concat datas) = secondary_total (ix_Keys ix) positions /\
    (start + blen (concat datas) < 2 ^ 63 ->
     secondary_layout ix positions start = offsets_from start datas /\
     write_secondaries ix positions (offsets_from start datas) = Ok (concat datas)).
Proof.
  induction positions as [|pos positions IH]; intros start Hk Hs H0; [exists []; split_and!; [constructor|constructor|done|done]|].
  destruct (secondary_written _ _ pos Hk) as (data & Hm & Hl & Hb & Hi). pose proof (blen_nonneg data).
  destruct (IH (start + blen data) Hk Hs ltac:(lia)) as (datas & Hlen & Hbs & Htot & Hrest). pose proof (blen_nonneg (concat datas)).
  exists (data :: datas). split_and!; [by constructor|by constructor|rewrite blen_concat_cons; cbn [secondary_total foldr]; fold (secondary_total (ix_Keys ix) positions); lia|]. rewrite blen_concat_cons. intros Hsize.
  destruct Hrest as [Hlay Hw]; [lia|]. cbn [secondary_layout offsets_from write_secondaries].
  assert (Hsz : match ix_Precomputed ix with
    | Some (_, sizes) => match sizes !! pos with Some n => n | None => computeSecondaryIndexSize (ix_Keys ix) pos end
    | None => computeSecondaryIndexSize (ix_Keys ix) pos end = blen data).
  { rewrite Hl. unfold sizes_ok in Hs. destruct (ix_Precomputed ix) as [[n sizes]|]; [|done].
    destruct (sizes !! pos) as [size|] eqn:E; [|done]. by apply (proj2 Hs). }
  rewrite Hsz. rewrite (u64_small (blen data)), u64_small by (unfold is_u64; lia).
  rewrite Hlay, Hm. cbn [omap_err obind]. rewrite <- Hl, Z.eqb_refl. cbn [negb]. rewrite Hw. done.
Qed.

(** ** The indexes in the file *)

Definition offset_table (datas : list (list Z)) (start : Z) : list Z :=
  concat (map (fun x => le_split 8 x.1) (offsets_from start datas)).

Lemma blen_offset_table datas : forall start, blen (offset_table datas start) = 8 * Z.of_nat (length datas).
Proof.
  induction datas as [|d datas IH]; intros start; [done|].
  unfold offset_table in *. cbn [offsets_from map concat length]. rewrite blen_app, blen_le_split, IH. lia.
Qed.

Definition positions_of (count : Z) : list nat := seq 0 (Z.to_nat count).

(** The indexes of [keys], behind data that ends at [start] *)
Record indexes_at (keys : list Key) (count start : Z) (primary : list Z) (datas : list (list Z)) (bytes : list Z) : Prop := {
  ia_primary : index_of primary (key_entries keys);
  ia_datas : Z.of_nat (length datas) = count;
  ia_secondary : Forall2 (fun pos data => index_of data (sort_entries (secondary_entries keys pos))) (positions_of count) datas;
  ia_bytes : bytes = offset_table datas (start + 8 * count + blen primary) ++ primary ++ concat datas;
  ia_range : Forall is_byte bytes;
  ia_size : blen bytes = 8 * count + computePrimaryIndexSize keys + secondary_total keys (positions_of count) }.

Definition indexes_fit (keys : list Key) (count start : Z) : Prop :=
  start + 8 * count + computePrimaryIndexSize keys + secondary_total keys (positions_of count) < 2 ^ 63.

Lemma offset_table_bytes datas start : Forall is_byte (offset_table datas start).
Proof. apply Forall_concat, List.Forall_map, Forall_forall. intros x _. apply le_split_bytes. Qed.

Lemma indexes_written ix start :
  let keys := ix_Keys ix in let count := ix_SecondaryIndexCount ix in
  keys_ok keys count -> sizes_ok ix -> 0 <= count < 2 ^ 16 -> dataEndOffset keys = start -> 0 <= start ->
  indexes_fit keys count start ->
  exists primary datas bytes, indexes_WriteTo ix = Ok bytes /\ indexes_at keys count start primary datas bytes.
Proof.
  intros keys count Hk Hs Hc Hend H0 Hfit. unfold indexes_fit in Hfit. subst keys count.
  set (keys := ix_Keys ix) in *. set (count := ix_SecondaryIndexCount ix) in *.
  destruct (primary_written _ _ Hk) as (primary & Hp & Hpl & Hpb & Hpi). pose proof (blen_nonneg primary).
  destruct (secondaries_written ix (positions_of count) (start + 8 * count + blen primary) Hk Hs ltac:(lia))
    as (datas & Hlen & Hdb & Htot & Hrest).
  fold keys in Htot. pose proof (blen_nonneg (concat datas)). destruct Hrest as [Hlay Hw]; [lia|].
  assert (Hl : Z.of_nat (length datas) = count) by (rewrite <- (Forall2_length _ _ _ Hlen); unfold positions_of; rewrite length_seq; lia).
  exists primary, datas, (offset_table datas (start + 8 * count + blen primary) ++ primary ++ concat datas).
  split.
  - unfold indexes_WriteTo. destruct (Z.eqb_spec (ix_SecondaryIndexCount ix) 0) as [E|E].
    + fold keys. rewrite Hp. cbn [obind]. fold count in E. destruct datas; [|cbn [length] in Hl; lia].
      cbn. by rewrite app_nil_r.
    + unfold writeDirectly. fold keys count. rewrite Hend, (u64_small (count * 8)) by (unfold is_u64; lia).
      assert (Hps : match ix_Precomputed ix with Some (n, _) => n | None => computePrimaryIndexSize keys end = blen primary).
      { unfold sizes_ok in Hs. destruct (ix_Precomputed ix) as [[n sizes]|]; [|done]. destruct Hs as [-> _]. done. }
      rewrite Hps, (u64_small (blen primary)) by (unfold is_u64; lia).
      rewrite u64_small by (unfold is_u64; lia). fold (positions_of count).
      replace (start + count * 8 + blen primary) with (start + 8 * count + blen primary) by lia.
      rewrite Hlay, Hp. cbn [obind]. rewrite <- Hpl, Z.eqb_refl. cbn [negb]. rewrite Hw. done.
  - split; [done..| |].
    + repeat apply Forall_app_2; [apply offset_table_bytes|done|by apply Forall_concat].
    + rewrite !blen_app, blen_offset_table, Hl. lia.
Qed.

(** ** Opening a written file *)

Lemma serves_nil t : dt_data t = [] -> serves t [].
Proof.
  intros Hd key _. unfold dt_Get, dt_Seek, dt_Next, dt_Contains, GetOffsets, SeekOffsets, descend. by rewrite Hd.
Qed.

Lemma offsets_lookup datas : forall o (i : nat) d,
  datas !! i = Some d -> offsets_from o datas !! i = Some (o + blen (concat (take i datas)), blen d).
Proof.
  induction datas as [|x datas IH]; intros o [|i] d Hd; cbn in Hd; try done.
  - injection Hd as ->. cbn. f_equal. f_equal. unfold blen. cbn. lia.
  - cbn [offsets_from take]. rewrite blen_concat_cons.
    change (((o, blen x) :: offsets_from (o + blen x) datas) !! S i) with (offsets_from (o + blen x) datas !! i).
    rewrite (IH _ _ _ Hd). f_equal. f_equal. lia.
Qed.

Lemma length_offsets_from datas : forall o, length (offsets_from o datas) = length datas.
Proof. induction datas as [|d datas IH]; intros o; cbn [offsets_from length]; auto. Qed.

Section filters.
Context {F : Type} `{!Bloom F}.

Definition knows (f : F) (es : list entry) : Prop := forall x, x ∈ es -> bf_Test f x.1.1 = true.

Lemma foldl_Add (ks : list (list Z)) : forall (f : F) k,
  bf_Test f k = true \/ k ∈ ks -> bf_Test (foldl bf_Add f ks) k = true.
Proof.
  induction ks as [|k0 ks IH]; intros f k Hk; cbn [foldl]; [destruct Hk as [|Hk]; [done|by apply not_elem_of_nil in Hk]|].
  apply IH. destruct Hk as [Hk|Hk]; [left; by apply bf_Test_mono|].
  apply elem_of_cons in Hk as [->|Hk]; [left; apply bf_Test_Add|by right].
Qed.

Lemma bloom_of_index data es a b :
  index_of data es -> Forall entry_ok es ->
  exists f : F, computeBloomFilter (NewDiskTreeWithValueBounds data a b) = Ok f /\ knows f es.
Proof.
  intros Hix Hes. unfold computeBloomFilter, KeyCount, ForEachKey. cbn [NewDiskTreeWithValueBounds dt_data].
  destruct Hix as [[-> ->]|(_ & _ & _ & nodes & Hn & Hp)].
  - cbn. eexists. split; [done|]. intros k Hk. by apply not_elem_of_nil in Hk.
  - assert (Hok : nodes_ok nodes).
    { unfold nodes_ok. rewrite Forall_forall. intros nd Hnd. rewrite <- Hp in Hes. rewrite Forall_forall in Hes.
      apply Hes. by apply list_elem_of_fmap_2. }
    pose proof (for_each_spec nodes (S (length data)) [] Hok) as Hf.
    rewrite app_nil_r in Hf. unfold nodes_bytes in Hf. rewrite <- Hn in Hf.
    assert (Hlen : (length nodes < S (length data))%nat).
    { pose proof (nodes_len_ge nodes). pose proof (length_nodes nodes) as Hl. unfold nodes_bytes in Hl. rewrite <- Hn in Hl. lia. }
    rewrite Hf by (done || (unfold TREE_KEY_STORE_OVERHEAD; cbn; lia)). cbn [omap_err obind].
    eexists. split; [done|]. intros k Hk. apply foldl_Add. right.
    rewrite <- Hp in Hk. apply list_elem_of_fmap in Hk as (nd & -> & Hin). apply list_elem_of_fmap. by exists nd.
Qed.

Lemma blooms_of_indexes keys positions datas a b :
  (forall pos, Forall entry_ok (secondary_entries keys pos)) ->
  Forall2 (fun pos data => index_of data (sort_entries (secondary_entries keys pos))) positions datas ->
  exists fs : list F, secondaryBloomFilters (map (fun d => NewDiskTreeWithValueBounds d a b) datas) = Ok fs /\
    Forall2 (fun pos f => knows f (secondary_entries keys pos)) positions fs.
Proof.
  intros Hok. induction 1 as [|pos data positions datas Hd _ (fs & Hfs & IH)]; [by exists []|].
  destruct (bloom_of_index data _ a b Hd) as (f & Hf & Hk); [by rewrite sort_entries_perm|].
  exists (f :: fs). cbn [map secondaryBloomFilters]. rewrite Hf. cbn [obind]. rewrite Hfs. split; [done|].
  constructor; [|done]. intros x Hx. apply Hk. by rewrite sort_entries_perm.
Qed.
End filters.

Section opening.
Context {F : Type} `{!Bloom F}.
Context (level count : Z) (enable : bool) (body primary : list Z) (datas : list (list Z)) (keys : list Key) (ix : list Z).

Let start : Z := HeaderSize + blen body.
Let h : Header := MkHeader level (ChooseHeaderVersion enable) count StrategyReplace start.
Let o : Z := start + 8 * count + blen primary.
Let table : list Z := offset_table datas o.
Let ck : list Z := if enable then checksum_bytes (body ++ ix ++ header_bytes h) else [].
Let file : list Z := segment_file enable (header_bytes h) body ix.
Let tree (data : list Z) : DiskTree := NewDiskTreeWithValueBounds data HeaderSize start.

Hypothesis Hix : indexes_at keys count start primary datas ix.
Hypothesis Hlevel : is_u16 level.
Hypothesis Hcount : 0 <= count < 2 ^ 16.
Hypothesis Hsize : blen file < 2 ^ 63.
Hypothesis Hkeys : keys_ok keys count.

Lemma file_layout : file = (header_bytes h ++ body) ++ table ++ primary ++ concat datas ++ ck.
Proof.
  unfold file, segment_file. fold ck. rewrite (ia_bytes _ _ _ _ _ _ Hix) at 1. fold o. fold table. by rewrite <- !app_assoc.
Qed.

Lemma blen_pre : blen (header_bytes h ++ body) = start.
Proof. rewrite blen_app, blen_header. done. Qed.

Lemma blen_table : blen table = 8 * count.
Proof. unfold table. rewrite blen_offset_table. by rewrite (ia_datas _ _ _ _ _ _ Hix). Qed.

Lemma file_bounds : 0 <= start /\ 0 <= o /\ o + blen (concat datas) + blen ck = blen file /\ o <= blen file.
Proof.
  pose proof (f_equal blen file_layout) as Hl. rewrite !blen_app, blen_header, blen_table in Hl. unfold o, start.
  pose proof (blen_nonneg body). pose proof (blen_nonneg primary). pose proof (blen_nonneg (concat datas)).
  pose proof (blen_nonneg ck). unfold HeaderSize in *. lia.
Qed.

Lemma header_is_ok : header_ok h.
Proof.
  destruct file_bounds as (H1 & H2 & H3 & H4). pose proof (blen_nonneg (concat datas)). pose proof (blen_nonneg ck).
  split; cbn [h h_Level h_Version h_SecondaryIndices h_Strategy h_IndexStart]; try done.
  - unfold ChooseHeaderVersion, CurrentSegmentVersion, SegmentV1. destruct enable; cbn; lia.
  - unfold o in H2, H3, H4. unfold is_u64. pose proof (blen_nonneg primary). lia.
Qed.

Lemma offsets_end : secondaryIndexOffsetsEnd h = start + 8 * count.
Proof.
  destruct file_bounds as (H1 & H2 & H3 & H4). unfold o in *. pose proof (blen_nonneg primary).
  unfold secondaryIndexOffsetsEnd. cbn [h h_IndexStart h_SecondaryIndices].
  rewrite (u64_small (count * 8)), u64_small by (unfold is_u64; lia). lia.
Qed.

Lemma offsets_parsed :
  (let! t := sub file (h_IndexStart h) (secondaryIndexOffsetsEnd h) in parseSecondaryIndexOffsets h t)
  = Ok (map fst (offsets_from o datas)).
Proof.
  rewrite offsets_end. cbn [h h_IndexStart]. rewrite file_layout.
  pose proof (sub_mid (header_bytes h ++ body) table (primary ++ concat datas ++ ck)) as Hs.
  rewrite blen_pre, blen_table in Hs. rewrite Hs. cbn [obind]. unfold parseSecondaryIndexOffsets, table, offset_table.
  rewrite <- (map_map fst (le_split 8)).
  pose proof (read_offsets_spec (map fst (offsets_from o datas)) []) as Hr. rewrite app_nil_r in Hr.
  cbn [h h_SecondaryIndices]. rewrite <- (ia_datas _ _ _ _ _ _ Hix), Nat2Z.id.
  rewrite length_map, length_offsets_from in Hr. apply Hr. apply Forall_forall. intros x Hx.
  apply list_elem_of_fmap in Hx as ([y z] & -> & Hin). apply list_elem_of_lookup_1 in Hin as [i Hi].
  assert (Hlt : (i < length datas)%nat) by (rewrite <- (length_offsets_from datas o); by apply lookup_lt_Some in Hi).
  destruct (lookup_lt_is_Some_2 datas i Hlt) as [d Hd]. rewrite (offsets_lookup datas o i d Hd) in Hi. injection Hi as <- <-.
  destruct file_bounds as (H1 & H2 & H3 & H4). cbn [fst].
  assert (Hc : blen (concat datas) = blen (concat (take i datas)) + blen (concat (drop i datas)))
    by (rewrite <- (take_drop i datas) at 1; rewrite concat_app, blen_app; done).
  pose proof (blen_nonneg (concat (take i datas))). pose proof (blen_nonneg (concat (drop i datas))).
  pose proof (blen_nonneg ck). unfold is_u64. lia.
Qed.

Lemma obind_assoc {A B C} (m : outcome store_error A) (f : A -> outcome store_error B) (g : B -> outcome store_error C) :
  (let! b := (let! a := m in f a) in g b) = (let! a := m in let! b := f a in g b).
Proof. by destruct m. Qed.

Lemma offset_at_spec (i : nat) d :
  datas !! i = Some d -> offset_at (map fst (offsets_from o datas)) (Z.of_nat i) = Ok (o + blen (concat (take i datas))).
Proof.
  intros Hd. unfold offset_at. rewrite Nat2Z.id. change (map fst ?l) with (fmap (M := list) fst l).
  by rewrite list_lookup_fmap, (offsets_lookup datas o i d Hd).
Qed.

Lemma PrimaryIndex_file : PrimaryIndex h file = Ok (primary ++ (if count =? 0 then ck else [])).
Proof.
  unfold PrimaryIndex. cbn [h_SecondaryIndices h]. fold h. destruct (Z.eqb_spec count 0) as [E|E].
  - rewrite file_layout. pose proof (ia_datas _ _ _ _ _ _ Hix). destruct datas; [|cbn [length] in *; lia].
    unfold table, offset_table. cbn [offsets_from map concat app].
    change (h_IndexStart h) with start. rewrite <- blen_pre. apply sub_from_app.
  - rewrite <- obind_assoc, offsets_parsed. cbn [obind]. rewrite app_nil_r.
    pose proof (ia_datas _ _ _ _ _ _ Hix). destruct (lookup_lt_is_Some_2 datas 0) as [d Hd]; [lia|].
    change 0 with (Z.of_nat 0) at 1. rewrite (offset_at_spec 0 d Hd). cbn [obind]. rewrite offsets_end.
    replace (o + blen (concat (take 0 datas))) with (start + 8 * count + blen primary) by (change (take 0 datas) with (@nil (list Z)); change (blen (concat [])) with 0; unfold o; lia).
    rewrite file_layout, app_assoc. pose proof (sub_mid ((header_bytes h ++ body) ++ table) primary (concat datas ++ ck)) as Hs.
    rewrite (blen_app _ table), blen_pre, blen_table in Hs. exact Hs.
Qed.

Lemma SecondaryIndex_file (i : nat) d :
  datas !! i = Some d ->
  (let! b := SecondaryIndex h file (Z.of_nat i) in
   if enable && (Z.of_nat i =? count - 1) then strip_checksum b else Ok b) = Ok d.
Proof.
  intros Hd. pose proof (ia_datas _ _ _ _ _ _ Hix) as Hl. pose proof (lookup_lt_Some _ _ _ Hd) as Hi.
  unfold SecondaryIndex. change (h_SecondaryIndices h) with count. rewrite (proj2 (Z.leb_gt _ _)) by lia.
  rewrite <- (obind_assoc (sub _ _ _)), offsets_parsed. cbn [obind]. rewrite (offset_at_spec i d Hd). cbn [obind].
  set (p := ((header_bytes h ++ body) ++ table ++ primary) ++ concat (take i datas)).
  assert (Hp : blen p = o + blen (concat (take i datas))).
  { unfold p. rewrite blen_app, (blen_app _ (table ++ primary)), (blen_app table), blen_pre, blen_table. unfold o. lia. }
  assert (Hf : file = p ++ d ++ concat (drop (S i) datas) ++ ck).
  { rewrite file_layout. unfold p. rewrite <- (take_drop_middle datas i d Hd) at 1.
    rewrite concat_app. cbn [concat]. by rewrite <- !app_assoc. }
  rewrite <- Hp. destruct (Z.eqb_spec (Z.of_nat i) (count - 1)) as [E|E].
  - assert (Hlast : drop (S i) datas = []) by (apply drop_ge; lia).
    rewrite Hlast in Hf. cbn [concat app] in Hf. rewrite Hf, sub_from_app. cbn [obind].
    rewrite andb_true_r. unfold ck. destruct enable; cbn; [|by rewrite app_nil_r].
    apply strip_checksum_app, blen_checksum.
  - destruct (lookup_lt_is_Some_2 datas (S i)) as [d' Hd']; [lia|].
    replace (Z.of_nat i + 1) with (Z.of_nat (S i)) by lia. rewrite (offset_at_spec (S i) d' Hd'). cbn [obind].
    assert (Hnext : o + blen (concat (take (S i) datas)) = blen p + blen d).
    { rewrite Hp, (take_S_r _ _ _ Hd), concat_app, blen_app. cbn [concat]. rewrite app_nil_r. lia. }
    rewrite Hnext, Hf, sub_mid. cbn [obind]. by rewrite andb_false_r.
Qed.

Lemma open_secondaries_file (ids : list nat) :
  Forall (fun i => (i < length datas)%nat) ids ->
  open_secondaries h file enable HeaderSize start ids = Ok (map (fun i => tree (nth i datas [])) ids).
Proof.
  induction 1 as [|i ids Hi _ IH]; [done|]. cbn [open_secondaries map].
  destruct (lookup_lt_is_Some_2 datas i Hi) as [d Hd]. pose proof (SecondaryIndex_file i d Hd) as Hs.
  change (h_SecondaryIndices h) with count. rewrite <- obind_assoc, Hs. cbn [obind]. rewrite IH. cbn [obind].
  unfold tree at 2. rewrite nth_lookup, Hd. done.
Qed.

Lemma map_seq_nth (l : list (list Z)) : map (fun i => tree (nth i l [])) (seq 0 (length l)) = map tree l.
Proof.
  rewrite <- (map_map (fun i => nth i l []) tree). f_equal.
  induction l as [|x l IH]; [done|]. cbn [length seq map nth]. f_equal. rewrite <- seq_shift, map_map. exact IH.
Qed.

(** The filters know the keys of their indexes. *)
Record blooms_ok (cfg : segmentConfig) (bloom : option F) (blooms : list F) : Prop := {
  bo_primary : if sc_bloom cfg then exists f, bloom = Some f /\ knows f (key_entries keys) else bloom = None;
  bo_secondary : if sc_bloom cfg then Forall2 (fun pos f => knows f (secondary_entries keys pos)) (positions_of count) blooms
                 else blooms = [] }.

Lemma blooms_written cfg :
  exists bloom blooms,
    (if sc_bloom cfg then let! f := computeBloomFilter (tree primary) in
       let! fs := secondaryBloomFilters (map tree datas) in Ok (Some f, fs)
     else Ok (None, [])) = Ok (bloom, blooms) /\ blooms_ok cfg bloom blooms.
Proof.
  destruct (sc_bloom cfg) eqn:E; [|exists None, []; split; [done|by split; rewrite E]].
  destruct Hkeys as (_ & Hok & Hsec).
  destruct (bloom_of_index _ _ HeaderSize start (ia_primary _ _ _ _ _ _ Hix) Hok) as (f & Hf & Hkn).
  destruct (blooms_of_indexes keys (positions_of count) datas HeaderSize start Hsec (ia_secondary _ _ _ _ _ _ Hix))
    as (fs & Hfs & Hkns).
  exists (Some f), fs. unfold tree. rewrite Hf. cbn [obind]. rewrite Hfs. split; [done|]. split; rewrite E; eauto.
Qed.

(** Opening the file gives back the indexes as they were written. *)
Lemma newSegment_file cfg :
  sc_enableChecksumValidation cfg = enable ->
  exists bloom blooms,
    newSegment cfg file
    = Ok (MkSegment level file (ChooseHeaderVersion enable) count StrategyReplace HeaderSize start
            (tree primary) (map tree datas) (sc_readFromMemory cfg) (sc_bloom cfg) bloom blooms) /\
    blooms_ok cfg bloom blooms.
Proof.
  intros Hcfg. destruct (blooms_written cfg) as (bloom & blooms & Hb & Hok).
  exists bloom, blooms. split; [|done].
  unfold newSegment. rewrite Hcfg. assert (Hsub : sub file 0 HeaderSize = Ok (header_bytes h)).
  { rewrite <- (blen_header h). apply sub_prefix. }
  rewrite Hsub. cbn [obind]. rewrite (ParseHeader_bytes h header_is_ok). cbn [obind].
  rewrite bool_decide_true by (cbn; left). cbn [negb].
  assert (Hval : (SegmentV1 <=? h_Version h) && enable = enable) by (unfold h; cbn; by destruct enable).
  rewrite Hval. replace (if enable then ValidateChecksum file (blen file) HeaderSize else Ok tt) with (Ok (E := store_error) tt)
    by (symmetry; unfold file; destruct enable; [apply ValidateChecksum_file, blen_header|done]).
  cbn [obind]. change (h_IndexStart h) with start. change (h_SecondaryIndices h) with count.
  destruct file_bounds as (H1 & H2 & H3 & H4). pose proof (blen_nonneg primary). unfold o in H4.
  rewrite (proj2 (Z.ltb_ge (blen file) start)) by lia. rewrite PrimaryIndex_file. cbn [obind].
  assert (Hstrip : (if enable && (count =? 0) then strip_checksum (primary ++ (if count =? 0 then ck else []))
    else Ok (primary ++ (if count =? 0 then ck else []))) = Ok primary).
  { unfold ck. destruct enable, (count =? 0); cbn [andb]; rewrite ?app_nil_r; try done.
    apply strip_checksum_app, blen_checksum. }
  rewrite Hstrip. cbn [obind]. rewrite (proj2 (Z.ltb_ge start HeaderSize)) by (unfold start; pose proof (blen_nonneg body); lia).
  rewrite open_secondaries_file.
  2:{ apply Forall_forall. intros i Hi. apply elem_of_seq in Hi. pose proof (ia_datas _ _ _ _ _ _ Hix). lia. }
  cbn [obind]. replace (Z.to_nat count) with (length datas) by (pose proof (ia_datas _ _ _ _ _ _ Hix); lia).
  rewrite map_seq_nth. fold (tree primary). rewrite Hb. done.
Qed.
End opening.
