(* ===== verification/ReplaceSegment.v ===== *)
(** * Segments of strategy "replace": flush, lookups, cursor

    [flushDataReplace] and the part of [flush] around it (memtable_flush.go), the
    lookups of a segment (segment_replace_strategy.go, [copyNode] of segment.go) and
    its sequential cursor [segmentCursorReplaceReusable]
    (cursor_segment_replace.go).  A file written from sorted entries opens to a
    segment whose lookups answer from the list of entries and whose cursor walks
    it. *)

From S2P Require Import Prelude ByteOps RBTree SearchTree SegmentIndex IndexLayout DiskTree IndexWalk MemtableTree ReplaceNode SegmentFile.
Import Replace.

(** ** Flush *)

Definition totalKeyAndValueSize (inp : list bs_data) : Z :=
  foldl (fun sum n =>
    foldl (fun sum sec => sum + blen sec) (sum + blen (value n) + blen (key n)) (secondaryKeys n)) 0 inp.

Definition seg_node (secondaryIndices offset : Z) (n : bs_data) : segmentReplaceNode :=
  ReplaceNode (tombstone n) (value n) (key n) secondaryIndices (secondaryKeys n) offset.

(** The loop over the nodes: the bytes written and the keys for the index *)
Fixpoint write_nodes (secondaryIndices totalWritten : Z) (flat : list bs_data) : list Z * list Key :=
  match flat with
  | [] => ([], [])
  | node :: flat =>
      let (bytes, ki) := KeyIndexAndWriteTo (seg_node secondaryIndices totalWritten node) in
      let (rest, keys) := write_nodes secondaryIndices (k_ValueEnd ki) flat in
      (bytes ++ rest, ki :: keys)
  end.

(** Header, data and keys *)
Definition flushDataReplace (secondaryIndices : Z) (enableChecksumValidation : bool) (flat : list bs_data) :
    outcome store_error (list Z * list Z * list Key) :=
  let totalDataLength := totalKeyAndValueSize flat in
  let perObjectAdditions := Z.of_nat (length flat) * (1 + 8 + 4 + secondaryIndices * 4) in
  let header := MkHeader 0 (ChooseHeaderVersion enableChecksumValidation) secondaryIndices StrategyReplace
                  (u64 (totalDataLength + perObjectAdditions + HeaderSize)) in
  let! head := header_WriteTo header in
  let (body, keys) := write_nodes secondaryIndices (blen head) flat in
  Ok (head, body, keys).

(** The file [flush] writes for a tree that is not empty *)
Definition flush_file (secondaryIndices : Z) (enableChecksumValidation : bool) (t : binarySearchTree) :
    outcome store_error (list Z) :=
  let! flat := omap_err EGet (bst_flattenInOrder t) in
  let! (head, body, keys) := flushDataReplace secondaryIndices enableChecksumValidation flat.*1 in
  let! ix := indexes_WriteTo (MkIndexes keys secondaryIndices None) in
  Ok (segment_file enableChecksumValidation head body ix).

(** ** Lookups *)

Section lookups.
Context {F : Type} `{!Bloom F}.

(** The bytes of a range, from memory or by pread *)
Definition copyNode (s : segment F) (start end_ : Z) : outcome store_error (list Z) :=
  if s_readFromMemory s then sub (s_contents s) start end_
  else let! (b, _) := ReadFull (end_ - start) (drop (Z.to_nat start) (s_contents s)) in Ok b.

(** [s.useBloomFilter && !s.bloomFilter.Test(key)] *)
Definition filtered_out (s : segment F) (k : list Z) : outcome store_error bool :=
  if s_useBloomFilter s then
    match s_bloomFilter s with Some f => Ok (negb (bf_Test f k)) | None => Panic end
  else Ok false.

(** [index.GetOffsets] with its NotFound turned into the one of the store *)
Definition node_offsets (s : segment F) (k : list Z) : outcome store_error (Z * Z) :=
  match GetOffsets (s_index s) k with
  | Err SegmentIndex.NotFound => Err (EGet NotFound)
  | r => omap_err EIndex r
  end.

Definition seg_get (s : segment F) (k : list Z) : outcome store_error (list Z) :=
  if negb (s_strategy s =? StrategyReplace) then Err EStrategy
  else
    let! out := filtered_out s k in
    if out then Err (EGet NotFound)
    else
      let! (start, end_) := node_offsets s k in
      let! _ := make_bytes (u64 (end_ - start)) in
      let! contentsCopy := copyNode s start end_ in
      let! (_, v) := replaceStratParseData contentsCopy in
      Ok v.

Definition indexContainsKey (s : segment F) (k : list Z) : outcome store_error bool :=
  if negb (s_strategy s =? StrategyReplace) then Err EStrategy
  else
    let! out := filtered_out s k in
    if out then Ok false else omap_err EIndex (dt_Contains (s_index s) k).

Definition seg_exists (s : segment F) (k : list Z) : outcome store_error unit :=
  if negb (s_strategy s =? StrategyReplace) then Err EStrategy
  else
    let! out := filtered_out s k in
    if out then Err (EGet NotFound)
    else
      let! (start, end_) := node_offsets s k in
      let nodeSize := u64 (end_ - start) in
      let headerSize := if nodeSize <? 18 then nodeSize else 18 in
      let! header := copyNode s start (u64 (start + headerSize)) in
      match header with
      | [] => Err (EGet NotFound)
      | flag :: _ =>
          if negb (flag =? 1) then Ok tt
          else if blen header <? 9 then Err (EGet Deleted)
          else
            let! b := omap_err EBytes (slice (buf_of header) 1 9) in
            let! valueLength := omap_err EBytes (le_uint 8 b) in
            if (valueLength =? 0) || (blen header <? 9 + to_int valueLength) then Err (EGet Deleted)
            else
              let! v := sub header 9 (u64 (9 + valueLength)) in
              Err (EGet (errorFromTombstonedValue v))
      end.

(** ** The sequential cursor *)

(** The buffered reader of a cursor that reads by pread is at the cursor's offset
    when a node is parsed, whether it was parked there or reset to it.
    [cr_keyNil]: the slice of the node's key is nil.  It starts so; a key from memory
    is a sub-slice of the contents, and an empty key read by pread is the old
    slice cut to length zero. *)
Record segmentCursorReplaceReusable : Type := CursorReusable {
  cr_segment : segment F;
  cr_currOffset : Z;
  cr_reusableNode : segmentReplaceNode;
  cr_valuePrefixLen : Z;
  cr_keyNil : bool }.

Definition newReplaceCursorReusableWithPrefix (s : segment F) (valuePrefixLen : Z) : segmentCursorReplaceReusable :=
  CursorReusable s (s_dataStartPos s)
    (ReplaceNode false [] [] (s_secondaryIndexCount s) (repeat [] (Z.to_nat (s_secondaryIndexCount s))) 0)
    valuePrefixLen true.

(** What [first], [next] and [seek] return: a node and an error, either of them nil.
    A node that cannot be parsed ends the model here (the code returns the partly
    overwritten node with the error). *)
Definition cursor_result : Type := option segmentReplaceNode * option store_error.

Definition parseInto (c : segmentCursorReplaceReusable) : outcome store_error (cursor_result * segmentCursorReplaceReusable) :=
  let s := cr_segment c in
  let count := s_secondaryIndexCount s in
  let found (n : segmentReplaceNode) :=
    ((Some n, if sn_tombstone n then Some (EGet Deleted) else None),
     CursorReusable s (cr_currOffset c) n (cr_valuePrefixLen c)
       (negb (s_readFromMemory s) && cr_keyNil c && bool_decide (sn_primaryKey n = []))) in
  if s_readFromMemory s then
    let! buf := sub_from (s_contents s) (cr_currOffset c) in
    match buf with
    | [] => Ok ((None, Some (EGet NotFound)), c)
    | _ =>
        let rw := NewReadWriter (buf_of buf) in
        let! n := if 0 <? cr_valuePrefixLen c
                  then ParseReplaceNodeDigestIntoMMAP rw count (cr_valuePrefixLen c) (cr_reusableNode c)
                  else ParseReplaceNodeIntoMMAP rw count (cr_reusableNode c) in
        Ok (found n)
    end
  else
    let r := drop (Z.to_nat (cr_currOffset c)) (s_contents s) in
    let! (n, _) := if 0 <? cr_valuePrefixLen c
                   then ParseReplaceNodeDigestIntoPread r count (cr_valuePrefixLen c) (cr_reusableNode c)
                   else ParseReplaceNodeIntoPread r count (cr_reusableNode c) in
    Ok (found n).

Definition cr_move (c : segmentCursorReplaceReusable) (offset : Z) : segmentCursorReplaceReusable :=
  CursorReusable (cr_segment c) offset (cr_reusableNode c) (cr_valuePrefixLen c) (cr_keyNil c).

Definition cr_first (c : segmentCursorReplaceReusable) : outcome store_error (cursor_result * segmentCursorReplaceReusable) :=
  let s := cr_segment c in
  if s_dataStartPos s =? s_dataEndPos s then Ok ((None, Some (EGet NotFound)), c)
  else parseInto (cr_move c (s_dataStartPos s)).

Definition cr_next (c : segmentCursorReplaceReusable) : outcome store_error (cursor_result * segmentCursorReplaceReusable) :=
  let nextOffset := u64 (cr_currOffset c + u64 (sn_offset (cr_reusableNode c))) in
  if s_dataEndPos (cr_segment c) <=? nextOffset then Ok ((None, Some (EGet NotFound)), c)
  else parseInto (cr_move c nextOffset).

Definition cr_seek (c : segmentCursorReplaceReusable) (k : list Z) : outcome store_error (cursor_result * segmentCursorReplaceReusable) :=
  match SeekOffsets (s_index (cr_segment c)) k with
  | Ok (start, _) => parseInto (cr_move c start)
  | Err e => Ok ((None, Some (EIndex e)), c)
  | Panic => Panic
  | OutOfFuel => OutOfFuel
  end.

(** The key of the node a call on the cursor returned, which may be a nil slice *)
Definition cr_key (c : segmentCursorReplaceReusable) (n : segmentReplaceNode) : option (list Z) :=
  if cr_keyNil c then None else Some (sn_primaryKey n).

(** [reusableInnerCursorReplace]: key, value and error *)
Definition nodeToKV (r : cursor_result) (c : segmentCursorReplaceReusable) :
    outcome store_error (option (list Z) * option (list Z) * option store_error) :=
  match r with
  | (n, Some e) =>
      if is_Deleted e then
        match n with Some n => Ok (cr_key c n, None, Some e) | None => Panic end
      else Ok (None, None, Some e)
  | (Some n, None) => Ok (cr_key c n, Some (sn_value n), None)
  | (None, None) => Panic
  end.
End lookups.
Arguments segmentCursorReplaceReusable : clear implicits.

(** * What a written segment holds *)

(** ** The data of a list of entries *)

Definition layout (count : Z) (n : bs_data) : list Z := replace_layout (seg_node count 0 n).
Definition seg_body (count : Z) (flat : list bs_data) : list Z := concat (layout count <$> flat).

Definition data_ok (count : Z) (n : bs_data) : Prop := node_ok (seg_node count 0 n).

(** The entries of the primary index *)
Fixpoint node_entries (count off : Z) (flat : list bs_data) : list entry :=
  match flat with
  | [] => []
  | n :: flat => (key n, off, off + blen (layout count n)) :: node_entries count (off + blen (layout count n)) flat
  end.

Lemma blen_layout count n : data_ok count n ->
  blen (layout count n) = 13 + blen (value n) + blen (key n)
    + foldr (fun k acc => 4 + blen k + acc) 0 (padded (seg_node count 0 n)).
Proof.
  intros Hn. unfold layout. rewrite (layout_length _ Hn). cbn [seg_node sn_value sn_primaryKey].
  assert (Hb : forall ks, blen (key_blocks ks) = foldr (fun k acc => 4 + blen k + acc) 0 ks); [|rewrite Hb; lia].
  induction ks as [|k ks IH]; [done|]. rewrite key_blocks_cons, blen_app, blen_key_block, IH. cbn [foldr]. lia.
Qed.

Lemma blocks_nonneg (ks : list (list Z)) : 0 <= foldr (fun k acc => 4 + blen k + acc) 0 ks.
Proof. induction ks as [|k ks IH]; cbn [foldr]; [lia|]. pose proof (blen_nonneg k). lia. Qed.

Lemma seg_body_cons count n flat : seg_body count (n :: flat) = layout count n ++ seg_body count flat.
Proof. done. Qed.

Lemma seg_body_app count l1 l2 : seg_body count (l1 ++ l2) = seg_body count l1 ++ seg_body count l2.
Proof. unfold seg_body. by rewrite fmap_app, concat_app. Qed.

(** The keys the writer returns *)
Fixpoint node_keys (count off : Z) (flat : list bs_data) : list Key :=
  match flat with
  | [] => []
  | n :: flat =>
      IndexKey (key n) (secondaryKeys n) off (off + blen (layout count n))
      :: node_keys count (off + blen (layout count n)) flat
  end.

Lemma node_ok_offset count off n : data_ok count n -> node_ok (seg_node count off n).
Proof. intros []. by split. Qed.

Lemma seg_write_nodes_spec count flat : forall off,
  Forall (data_ok count) flat -> write_nodes count off flat = (seg_body count flat, node_keys count off flat).
Proof.
  induction flat as [|n flat IH]; intros off Hok; [done|]. apply Forall_cons in Hok as [Hn Hok].
  cbn [write_nodes]. rewrite (writer_layout _ (node_ok_offset count off n Hn)). cbn [k_ValueEnd seg_node sn_offset].
  change (replace_layout (ReplaceNode _ _ _ _ _ off)) with (layout count n). rewrite IH by done. done.
Qed.

Lemma node_keys_entries count flat : forall off,
  0 <= off -> off + blen (seg_body count flat) < 2 ^ 64 ->
  key_entries (node_keys count off flat) = node_entries count off flat.
Proof.
  induction flat as [|n flat IH]; intros off H0 Hs; [done|].
  rewrite seg_body_cons, blen_app in Hs. pose proof (blen_nonneg (layout count n)). pose proof (blen_nonneg (seg_body count flat)).
  unfold key_entries in *. cbn [node_keys node_entries map k_Key k_ValueStart k_ValueEnd].
  rewrite !u64_small by (unfold is_u64; lia). by rewrite IH by lia.
Qed.

Lemma node_keys_end count flat : forall off,
  0 <= off -> off + blen (seg_body count flat) < 2 ^ 64 -> flat <> [] ->
  dataEndOffset (node_keys count off flat) = off + blen (seg_body count flat).
Proof.
  unfold dataEndOffset. induction flat as [|n flat IH]; intros off H0 Hs Hne; [done|].
  rewrite seg_body_cons, blen_app in *. pose proof (blen_nonneg (layout count n)). pose proof (blen_nonneg (seg_body count flat)).
  destruct flat as [|m flat].
  - cbn [node_keys last k_ValueEnd]. rewrite u64_small by (unfold is_u64; lia). change (blen (seg_body count [])) with 0. lia.
  - rewrite Z.add_assoc, <- IH by (lia || done). done.
Qed.

(** The size [flush] announces in the header *)
Lemma totalKeyAndValueSize_spec count flat :
  Forall (data_ok count) flat ->
  totalKeyAndValueSize flat + Z.of_nat (length flat) * (1 + 8 + 4 + count * 4) = blen (seg_body count flat).
Proof.
  assert (Hin : forall l acc, foldl (fun sum sec => sum + blen sec) acc l = acc + foldr (fun (k : list Z) acc => blen k + acc) 0 l).
  { induction l as [|k l IH]; intros acc; cbn [foldl foldr]; [lia|]. rewrite IH. lia. }
  assert (Hpad : forall n, data_ok count n ->
    foldr (fun k acc => 4 + blen k + acc) 0 (padded (seg_node count 0 n))
    = count * 4 + foldr (fun (k : list Z) acc => blen k + acc) 0 (secondaryKeys n)).
  { intros n Hn. unfold padded. cbn [seg_node sn_secondaryIndexCount sn_secondaryKeys].
    pose proof (nk_keys_len _ Hn) as Hl. pose proof (nk_count _ Hn) as Hc. cbn in Hl, Hc.
    rewrite resize_ge by lia. replace (count * 4) with (4 * Z.of_nat (length (secondaryKeys n))
      + 4 * Z.of_nat (Z.to_nat count - length (secondaryKeys n))) by lia.
    generalize (Z.to_nat count - length (secondaryKeys n))%nat as m. intros m.
    clear Hl. induction (secondaryKeys n) as [|k ks IH]; cbn [app foldr length].
    - induction m as [|m IH]; cbn [replicate foldr]; [done|]. rewrite IH. change (blen []) with 0. lia.
    - rewrite IH. lia. }
  unfold totalKeyAndValueSize. intros Hok.
  enough (E : forall acc, foldl (fun sum n => foldl (fun sum sec => sum + blen sec) (sum + blen (value n) + blen (key n)) (secondaryKeys n)) acc flat
    + Z.of_nat (length flat) * (1 + 8 + 4 + count * 4) = acc + blen (seg_body count flat)) by (rewrite E; lia).
  induction Hok as [|n flat Hn Hok IH]; intros acc; [cbn [foldl length]; change (blen (seg_body count [])) with 0; lia|].
  cbn [foldl length]. rewrite seg_body_cons, blen_app, blen_layout, Hpad by done.
  specialize (IH (acc + blen (value n) + blen (key n) + foldr (fun (k : list Z) acc => blen k + acc) 0 (secondaryKeys n))).
  rewrite Hin. lia.
Qed.

(** ** A file written from sorted entries *)

(** The size of the file; below 2^48 any part of it can be allocated. *)
Definition file_size (count : Z) (flat : list bs_data) : Z :=
  let keys := node_keys count HeaderSize flat in
  HeaderSize + blen (seg_body count flat) + 8 * count + computePrimaryIndexSize keys
  + secondary_total keys (positions_of count) + ChecksumSize.

Record seg_ok (count : Z) (flat : list bs_data) : Prop := {
  so_data : Forall (data_ok count) flat;
  so_sorted : sorted_keys key flat;
  so_length : Z.of_nat (length flat) < 2 ^ 31;
  so_count : 0 <= count < 2 ^ 16;
  so_size : file_size count flat < 2 ^ 48 }.

Lemma length_node_keys count flat : forall off, length (node_keys count off flat) = length flat.
Proof. induction flat as [|n flat IH]; intros off; cbn [node_keys length]; auto. Qed.

Lemma node_keys_range count flat : forall off k,
  0 <= off -> k ∈ node_keys count off flat ->
  exists n, n ∈ flat /\ k_Key k = key n /\ k_SecondaryKeys k = secondaryKeys n /\
    off <= k_ValueStart k <= k_ValueEnd k /\ k_ValueEnd k <= off + blen (seg_body count flat).
Proof.
  induction flat as [|n flat IH]; intros off k H0 Hk; [by apply not_elem_of_nil in Hk|].
  pose proof (blen_nonneg (layout count n)). pose proof (blen_nonneg (seg_body count flat)).
  rewrite seg_body_cons, blen_app. apply elem_of_cons in Hk as [->|Hk].
  - exists n. cbn [k_Key k_SecondaryKeys k_ValueStart k_ValueEnd]. split_and!; [left|..]; (done || lia).
  - destruct (IH (off + blen (layout count n)) k ltac:(lia) Hk) as (m & Hm & Hk1 & Hk2 & Hr). exists m. split_and!; [by right|done|done|lia..].
Qed.

Lemma node_keys_ok count flat :
  Forall (data_ok count) flat -> Z.of_nat (length flat) < 2 ^ 31 ->
  HeaderSize + blen (seg_body count flat) < 2 ^ 63 -> keys_ok (node_keys count HeaderSize flat) count.
Proof.
  intros Hok Hl Hs. rewrite Forall_forall in Hok.
  assert (Hr : forall k, k ∈ node_keys count HeaderSize flat ->
    key_ok (k_Key k) /\ Forall key_ok (k_SecondaryKeys k) /\ is_u64 (k_ValueStart k) /\ is_u64 (k_ValueEnd k)).
  { intros k Hk. destruct (node_keys_range count flat HeaderSize k ltac:(done) Hk) as (n & Hn & -> & -> & H1 & H2).
    destruct (Hok n Hn) as [_ _ Hkey _ Hsec _]. unfold is_u64, HeaderSize in *.
    split; [exact Hkey|]. split; [exact Hsec|]. lia. }
  split; [by rewrite length_node_keys|]. split.
  - unfold key_entries. apply List.Forall_map, Forall_forall. intros k Hk. destruct (Hr k Hk) as ([H1 H2] & _ & H3 & H4).
    unfold entry_ok. cbn [fst snd]. rewrite !u64_small by done. done.
  - intros pos. unfold secondary_entries. apply Forall_forall. intros x Hx.
    apply list_elem_of_omap in Hx as (k & Hk & Hx). destruct (Hr k Hk) as (_ & Hsec & H3 & H4).
    destruct (k_SecondaryKeys k !! pos) as [sk|] eqn:E; [|done]. injection Hx as <-.
    unfold entry_ok. cbn [fst snd]. rewrite !u64_small by done.
    rewrite Forall_forall in Hsec. destruct (Hsec sk) as [H1 H2]; [by apply list_elem_of_lookup_2 in E|]. done.
Qed.

Lemma node_entries_range count flat : forall off x,
  0 <= off -> x ∈ node_entries count off flat ->
  exists n, n ∈ flat /\ x.1.1 = key n /\ off <= x.1.2 <= x.2 /\ x.2 <= off + blen (seg_body count flat).
Proof.
  induction flat as [|n flat IH]; intros off x H0 Hx; [by apply not_elem_of_nil in Hx|].
  pose proof (blen_nonneg (layout count n)). pose proof (blen_nonneg (seg_body count flat)).
  rewrite seg_body_cons, blen_app. apply elem_of_cons in Hx as [->|Hx].
  - exists n. cbn [fst snd]. split_and!; [left|..]; (done || lia).
  - destruct (IH (off + blen (layout count n)) x ltac:(lia) Hx) as (m & Hm & Hk & Hr). exists m. split_and!; [by right|done|lia..].
Qed.

Lemma node_entries_sorted count flat : forall off,
  0 <= off -> sorted_keys key flat -> keys_sorted (node_entries count off flat).
Proof.
  induction flat as [|n flat IH]; intros off H0 Hs; [constructor|]. apply StronglySorted_inv in Hs as [Hs Hn].
  pose proof (blen_nonneg (layout count n)). constructor; [apply IH; [lia|done]|].
  apply Forall_forall. intros x Hx. destruct (node_entries_range count flat (off + blen (layout count n)) x ltac:(lia) Hx) as (m & Hm & Hk & _).
  rewrite Forall_forall in Hn. cbn [fst]. rewrite Hk. by apply Hn.
Qed.

(** A bound by the size of the data alone *)
Lemma secondary_bytes n : forall (sks : list (list Z)),
  foldr (fun pos acc => match sks !! pos with Some sk => TREE_KEY_STORE_OVERHEAD + blen sk | None => 0 end + acc) 0 (seq 0 n)
  <= 9 * foldr (fun k acc => 4 + blen k + acc) 0 (resize n [] sks).
Proof.
  induction n as [|n IH]; intros sks; [by destruct sks|]. cbn [seq foldr]. rewrite <- seq_shift.
  assert (Hsh : forall (g : nat -> Z) l, foldr (fun pos acc => g pos + acc) 0 (map S l) = foldr (fun pos acc => g (S pos) + acc) 0 l).
  { intros g l. induction l as [|x l IHl]; cbn [map foldr]; [done|]. by rewrite IHl. }
  rewrite (Hsh (fun pos => match sks !! pos with Some sk => TREE_KEY_STORE_OVERHEAD + blen sk | None => 0 end)).
  unfold TREE_KEY_STORE_OVERHEAD in *. destruct sks as [|sk sks]; cbn [resize replicate foldr].
  - specialize (IH []). replace (resize n [] []) with (replicate (A := list Z) n []) in IH by (by rewrite resize_nil).
    change (blen []) with 0. change (([] : list (list Z)) !! 0%nat) with (@None (list Z)).
    assert (E : foldr (fun pos acc => match ([] : list (list Z)) !! S pos with Some sk => 36 + blen sk | None => 0 end + acc) 0 (seq 0 n)
      = foldr (fun pos acc => match ([] : list (list Z)) !! pos with Some sk => 36 + blen sk | None => 0 end + acc) 0 (seq 0 n)).
    { induction (seq 0 n); cbn [foldr]; [done|]. rewrite !lookup_nil. done. }
    rewrite E. cbv iota. lia.
  - specialize (IH sks). change ((sk :: sks) !! 0%nat) with (Some sk). pose proof (blen_nonneg sk).
    match goal with |- _ + ?rest <= _ =>
      change rest with (foldr (fun pos acc => match sks !! pos with Some sk => 36 + blen sk | None => 0 end + acc) 0 (seq 0 n)) end.
    cbv iota. lia.
Qed.

Lemma secondary_total_cons k keys positions :
  secondary_total (k :: keys) positions
  = foldr (fun pos acc => match k_SecondaryKeys k !! pos with Some sk => TREE_KEY_STORE_OVERHEAD + blen sk | None => 0 end + acc) 0 positions
    + secondary_total keys positions.
Proof.
  unfold secondary_total. induction positions as [|pos positions IH]; cbn [foldr]; [done|]. rewrite IH, !secondary_size.
  unfold secondary_entries. cbn [omap list_omap]. unfold index_size.
  destruct (k_SecondaryKeys k !! pos); cbn [foldr fst]; unfold blen; lia.
Qed.

Lemma index_bound count flat : forall off,
  Forall (data_ok count) flat ->
  computePrimaryIndexSize (node_keys count off flat) + secondary_total (node_keys count off flat) (positions_of count)
  <= 12 * blen (seg_body count flat).
Proof.
  induction flat as [|n flat IH]; intros off Hok.
  - cbn [node_keys]. change (computePrimaryIndexSize []) with 0. change (blen (seg_body count [])) with 0.
    assert (E : secondary_total [] (positions_of count) = 0); [|lia]. unfold secondary_total.
    induction (positions_of count) as [|pos l IHl]; cbn [foldr]; [done|]. by rewrite IHl.
  - apply Forall_cons in Hok as [Hn Hok]. specialize (IH (off + blen (layout count n)) Hok).
    cbn [node_keys]. set (keys := node_keys count (off + blen (layout count n)) flat) in *. clearbody keys.
    rewrite secondary_total_cons, seg_body_cons, blen_app, blen_layout by done. cbn [k_SecondaryKeys].
    pose proof (secondary_bytes (Z.to_nat count) (secondaryKeys n)) as Hs. fold (positions_of count) in Hs.
    rewrite primary_size in *. cbn [key_entries map k_Key]. fold (key_entries keys). unfold index_size in *. cbn [foldr fst].
    unfold padded. cbn [seg_node sn_secondaryIndexCount sn_secondaryKeys]. fold (blen (key n)). unfold TREE_KEY_STORE_OVERHEAD in *.
    pose proof (blen_nonneg (key n)). pose proof (blen_nonneg (value n)).
    pose proof (blocks_nonneg (resize (Z.to_nat count) [] (secondaryKeys n))). lia.
Qed.

Lemma file_size_bound count flat :
  Forall (data_ok count) flat -> file_size count flat <= 20 + 13 * blen (seg_body count flat) + 8 * count.
Proof.
  intros Hok. unfold file_size. cbv zeta. pose proof (index_bound count flat HeaderSize Hok).
  change HeaderSize with 16 in *. change ChecksumSize with 4. lia.
Qed.

Lemma length_bound count flat : Forall (data_ok count) flat -> 13 * Z.of_nat (length flat) <= blen (seg_body count flat).
Proof.
  induction 1 as [|n flat Hn _ IH]; [done|]. rewrite seg_body_cons, blen_app, blen_layout by done. cbn [length].
  pose proof (blen_nonneg (key n)). pose proof (blen_nonneg (value n)). pose proof (blocks_nonneg (padded (seg_node count 0 n))). lia.
Qed.

(** What a segment opened from such a file is *)
Section holds.
Context {F : Type} `{!Bloom F}.

Record seg_holds (s : segment F) (count : Z) (flat : list bs_data) : Prop := {
  sh_strategy : s_strategy s = StrategyReplace;
  sh_count : s_secondaryIndexCount s = count;
  sh_start : s_dataStartPos s = HeaderSize;
  sh_end : s_dataEndPos s = HeaderSize + blen (seg_body count flat);
  sh_contents : exists pre post, blen pre = HeaderSize /\ s_contents s = pre ++ seg_body count flat ++ post;
  sh_size : blen (s_contents s) < 2 ^ 48;
  sh_data : Forall (data_ok count) flat;
  sh_sorted : sorted_keys key flat;
  sh_index : serves (s_index s) (node_entries count HeaderSize flat);
  sh_bloom : s_useBloomFilter s = true ->
    exists f, s_bloomFilter s = Some f /\ forall n, n ∈ flat -> bf_Test f (key n) = true }.

Lemma node_entries_has count flat : forall off n, n ∈ flat -> exists x, x ∈ node_entries count off flat /\ x.1.1 = key n.
Proof.
  induction flat as [|m flat IH]; intros off n Hn; [by apply not_elem_of_nil in Hn|].
  apply elem_of_cons in Hn as [->|Hn]; [by eexists; split; [left|]|].
  destruct (IH (off + blen (layout count m)) n Hn) as (x & Hx & Hk). exists x. split; [by right|done].
Qed.

Lemma index_size_nonneg es : 0 <= index_size es.
Proof. unfold index_size, TREE_KEY_STORE_OVERHEAD. induction es as [|x es IH]; cbn [foldr]; lia. Qed.

Lemma index_sizes_nonneg keys positions : 0 <= computePrimaryIndexSize keys /\ 0 <= secondary_total keys positions.
Proof.
  split; [rewrite primary_size; apply index_size_nonneg|]. unfold secondary_total.
  induction positions as [|pos positions IH]; cbn [foldr]; [lia|].
  rewrite secondary_size. pose proof (index_size_nonneg (secondary_entries keys pos)). lia.
Qed.

Lemma index_serves count flat primary :
  seg_ok count flat -> index_of primary (key_entries (node_keys count HeaderSize flat)) ->
  serves (NewDiskTreeWithValueBounds primary HeaderSize (HeaderSize + blen (seg_body count flat)))
    (node_entries count HeaderSize flat).
Proof.
  intros [Hd Hs Hl Hc Hsz] Hix. unfold file_size in Hsz. cbv zeta in Hsz.
  assert (Hh : HeaderSize = 16) by done. assert (Hck : ChecksumSize = 4) by done.
  pose proof (blen_nonneg (seg_body count flat)).
  destruct (index_sizes_nonneg (node_keys count HeaderSize flat) (positions_of count)) as [Hpos Hsec].
  destruct (node_keys_ok count flat Hd Hl ltac:(lia)) as (_ & Hok & _).
  assert (He : key_entries (node_keys count HeaderSize flat) = node_entries count HeaderSize flat)
    by (apply node_keys_entries; [done|lia]).
  destruct Hix as [[Hnil ->]|Hix].
  - rewrite He in Hnil. rewrite Hnil. by apply serves_nil.
  - rewrite He in *. destruct flat as [|n flat']; [by destruct Hix as (_ & Hlen & _); apply serves_nil; destruct primary|].
    apply (index_image_serves primary _ []); try done.
    + cbn [node_entries length]. lia.
    + by rewrite app_nil_r.
    + rewrite primary_size, He in *. cbn [length]. lia.
    + apply Forall_forall. intros x Hx. destruct (node_entries_range _ _ HeaderSize x ltac:(done) Hx) as (_ & _ & _ & H1 & H2).
      split; [lia|]. intros _. cbn [NewDiskTreeWithValueBounds dt_valueStart dt_valueEnd]. lia.
    + by apply node_entries_sorted.
Qed.

(** A file with the data of [flat], indexes and a header opens to a segment that
    holds [flat]. *)
Lemma written_opens (level count : Z) (flat : list bs_data) (pre : option (Z * list Z)) (cfg : segmentConfig) :
  let keys := node_keys count HeaderSize flat in
  let body := seg_body count flat in
  let enable := sc_enableChecksumValidation cfg in
  seg_ok count flat -> is_u16 level -> sizes_ok (MkIndexes keys count pre) ->
  exists ix s,
    indexes_WriteTo (MkIndexes keys count pre) = Ok ix /\
    newSegment cfg (segment_file enable
      (header_bytes (MkHeader level (ChooseHeaderVersion enable) count StrategyReplace (HeaderSize + blen body))) body ix) = Ok s /\
    seg_holds s count flat /\ s_level s = level /\ s_readFromMemory s = sc_readFromMemory cfg /\
    blen (s_contents s) <= file_size count flat.
Proof.
  intros keys body enable Hok Hlev Hsizes. pose proof Hok as [Hd Hs Hl Hc Hsz]. unfold file_size in Hsz. cbv zeta in Hsz.
  fold keys body in Hsz. assert (Hh : HeaderSize = 16) by done. assert (Hck : ChecksumSize = 4) by done.
  destruct (index_sizes_nonneg keys (positions_of count)) as [Hpos Hsec]. pose proof (blen_nonneg body).
  assert (Hk : keys_ok keys count) by (apply node_keys_ok; [done|done|fold body; lia]).
  assert (Hend : dataEndOffset keys = HeaderSize + blen body).
  { destruct flat as [|n flat']; [done|]. apply node_keys_end; [lia|fold body; lia|done]. }
  destruct (indexes_written (MkIndexes keys count pre) (HeaderSize + blen body)) as (primary & datas & ix & Hw & Hix);
    [done|done|done|done|lia|unfold indexes_fit; cbn [ix_Keys ix_SecondaryIndexCount]; lia|].
  cbn [ix_Keys ix_SecondaryIndexCount] in Hix.
  set (file := segment_file enable
    (header_bytes (MkHeader level (ChooseHeaderVersion enable) count StrategyReplace (HeaderSize + blen body))) body ix).
  assert (Hfile : blen file <= file_size count flat).
  { unfold file, segment_file. rewrite !blen_app, blen_header, (ia_size _ _ _ _ _ _ Hix). fold keys body.
    unfold file_size. fold keys body. destruct enable; [rewrite blen_checksum|change (blen []) with 0]; lia. }
  assert (Hlt48 : blen file < 2 ^ 48) by (unfold file_size in Hfile; fold keys body in Hfile; lia).
  assert (Hlt : blen file < 2 ^ 63) by lia.
  destruct (newSegment_file level count enable body primary datas keys ix Hix Hlev Hc Hlt Hk cfg eq_refl)
    as (bloom & blooms & Hopen & Hbl).
  exists ix. eexists. split; [done|]. split; [exact Hopen|]. cbn [s_level s_readFromMemory s_contents]. split_and!; try done.
  split; cbn [s_strategy s_secondaryIndexCount s_dataStartPos s_dataEndPos s_contents s_index s_useBloomFilter s_bloomFilter];
    try done.
  - eexists _, _. split; [|unfold segment_file; reflexivity]. apply blen_header.
  - apply index_serves; [done|]. apply Hix.
  - intros Hu. destruct Hbl as [Hb _]. rewrite Hu in Hb. destruct Hb as (f & -> & Hkn). exists f. split; [done|].
    intros n Hn. assert (He : key_entries keys = node_entries count HeaderSize flat)
      by (apply node_keys_entries; [lia|fold body; lia]).
    destruct (node_entries_has count flat HeaderSize n Hn) as (x & Hx & <-). apply Hkn. by rewrite He.
Qed.

(** ** Lookups answer from the list *)

(** What a lookup of the key reports *)
Definition find_answer (o : option bs_data) : outcome store_error bs_data :=
  match o with
  | None => Err (EGet NotFound)
  | Some n => if tombstone n then Err (EGet (errorFromTombstonedValue (value n))) else Ok n
  end.

Section reads.
Context (s : segment F) (count : Z) (flat : list bs_data) (Hs : seg_holds s count flat).

Lemma filtered_spec k : exists b, filtered_out s k = Ok b /\ (b = true -> lookup_key key k flat = None).
Proof.
  unfold filtered_out. destruct (s_useBloomFilter s) eqn:E; [|by exists false].
  destruct (sh_bloom _ _ _ Hs E) as (f & -> & Hf). eexists. split; [done|].
  intros Hb. destruct (lookup_key key k flat) as [n|] eqn:El; [|done].
  apply lookup_key_Some in El as [Hn <-]. by rewrite Hf in Hb.
Qed.

(** Where the node of a key is *)
Lemma entries_lookup l : forall off k, sorted_keys key l ->
  match lookup_key key k l with
  | None => lookup_entry descentEqual k (node_entries count off l) = None
  | Some n => exists l1 l2, l = l1 ++ n :: l2 /\
      lookup_entry descentEqual k (node_entries count off l)
      = Some (k, off + blen (seg_body count l1), off + blen (seg_body count l1) + blen (layout count n))
  end.
Proof.
  unfold lookup_key, lookup_entry. induction l as [|n l IH]; intros off k Hsort; [done|].
  apply StronglySorted_inv in Hsort as [Hsort Hn]. cbn [List.find node_entries fst].
  destruct (bool_decide_reflect (key n = k)) as [E|E].
  - exists [], l. subst k. rewrite (proj2 (bytes_compare_eq _ _)) by done. cbn [accepts acceptEqual].
    split; [done|]. change (blen (seg_body count [])) with 0. by rewrite Z.add_0_r.
  - specialize (IH (off + blen (layout count n)) k Hsort).
    assert (Hc : accepts descentEqual (bytes_compare k (key n)) = false).
    { destruct (bytes_compare k (key n)) eqn:Ec; [|done..]. by apply bytes_compare_eq in Ec. }
    rewrite Hc. destruct (List.find (fun x => bool_decide (key x = k)) l) as [m|]; [|done].
    destruct IH as (l1 & l2 & -> & ->). exists (n :: l1), l2. split; [done|].
    rewrite seg_body_cons, blen_app, !Z.add_assoc. done.
Qed.

Lemma offsets_spec k :
  Forall is_byte k ->
  match lookup_key key k flat with
  | None => node_offsets s k = Err (EGet NotFound)
  | Some n => exists l1 l2, flat = l1 ++ n :: l2 /\
      node_offsets s k = Ok (HeaderSize + blen (seg_body count l1), HeaderSize + blen (seg_body count l1) + blen (layout count n))
  end.
Proof.
  intros Hk. destruct (sh_index _ _ _ Hs k Hk) as (Hget & _ & _ & Hcon & _).
  pose proof (entries_lookup flat HeaderSize k (sh_sorted _ _ _ Hs)) as He. unfold node_offsets. unfold dt_Contains in Hcon.
  unfold dt_Get, materializeNode in Hget. unfold GetOffsets in *.
  destruct (lookup_key key k flat) as [n|]; [destruct He as (l1 & l2 & Hfl & He)|]; rewrite He in *.
  - exists l1, l2. split; [done|]. cbn [of_option] in Hget. destruct (descend _ _ _) as [d| | |]; [|done..].
    cbn [obind] in *. destruct (offsetsAt (s_index s) d) as [[a b]| | |]; [|done..]. cbn [obind] in Hget.
    destruct (data_slice _ _ _); [|done..]. by injection Hget as -> -> ->.
  - rewrite bool_decide_false in Hcon by (intros [? ?]; done).
    destruct (let! d := descend _ _ _ in offsetsAt (s_index s) d) as [|e| |]; [done| |done..]. by destruct e.
Qed.

(** A node in the contents *)
Lemma contents_at l1 n l2 :
  flat = l1 ++ n :: l2 ->
  exists p q, s_contents s = p ++ layout count n ++ q /\ blen p = HeaderSize + blen (seg_body count l1) /\
    blen p + blen (layout count n) <= s_dataEndPos s /\ s_dataEndPos s < 2 ^ 63.
Proof.
  intros Hf. destruct (sh_contents _ _ _ Hs) as (pre & post & Hpre & Hc). pose proof (sh_size _ _ _ Hs) as Hsz.
  rewrite (sh_end _ _ _ Hs). rewrite Hf, seg_body_app, seg_body_cons in Hc |- *.
  exists (pre ++ seg_body count l1), (seg_body count l2 ++ post).
  rewrite Hc in Hsz. rewrite !blen_app in *. rewrite Hc, <- !app_assoc. pose proof (blen_nonneg (seg_body count l2)).
  pose proof (blen_nonneg post). split_and!; [done|lia..].
Qed.

Lemma drop_blen (p q : list Z) : drop (Z.to_nat (blen p)) (p ++ q) = q.
Proof. unfold blen. by rewrite Nat2Z.id, drop_app_length. Qed.

(** Reading a prefix of a node *)
Lemma copyNode_spec l1 n l2 a b :
  flat = l1 ++ n :: l2 -> layout count n = a ++ b ->
  let start := HeaderSize + blen (seg_body count l1) in copyNode s start (start + blen a) = Ok a.
Proof.
  intros Hf Hab start. destruct (contents_at l1 n l2 Hf) as (p & q & Hc & Hp & _). subst start. rewrite <- Hp.
  unfold copyNode. rewrite Hc, Hab, <- app_assoc. destruct (s_readFromMemory s); [by rewrite sub_mid|].
  rewrite drop_blen, Z.add_simpl_l, read_full_app. done.
Qed.

Lemma layout_small l1 n l2 : flat = l1 ++ n :: l2 ->
  data_ok count n /\ 13 <= blen (layout count n) < 2 ^ 63 /\ HeaderSize + blen (seg_body count l1) + blen (layout count n) < 2 ^ 63.
Proof.
  intros Hf. assert (Hn : data_ok count n).
  { pose proof (sh_data _ _ _ Hs) as Hd. rewrite Hf in Hd. by apply Forall_app in Hd as [_ [? _]%Forall_cons]. }
  destruct (contents_at l1 n l2 Hf) as (p & q & _ & Hp & Hle & Hlt). pose proof (blen_nonneg p).
  split; [done|]. unfold layout at 1. pose proof (layout_length _ Hn) as Hlen. cbn [seg_node sn_value sn_primaryKey] in Hlen.
  pose proof (blen_nonneg (value n)). pose proof (blen_nonneg (key n)). pose proof (blen_nonneg (key_blocks (padded (seg_node count 0 n)))).
  unfold layout in *. unfold seg_node in *. lia.
Qed.

Lemma seg_get_spec k :
  Forall is_byte k ->
  seg_get s k = let! n := find_answer (lookup_key key k flat) in Ok (value n).
Proof.
  intros Hk. pose proof (sh_size _ _ _ Hs) as Hsmall. unfold seg_get. rewrite (sh_strategy _ _ _ Hs). cbn [negb Z.eqb StrategyReplace].
  destruct (filtered_spec k) as (b & -> & Hb). cbn [obind]. destruct b; [by rewrite Hb|].
  pose proof (offsets_spec k Hk) as Ho. destruct (lookup_key key k flat) as [n|]; [|by rewrite Ho].
  destruct Ho as (l1 & l2 & Hf & ->). cbn [obind]. destruct (layout_small l1 n l2 Hf) as (Hn & Hl & Hlt).
  destruct (contents_at l1 n l2 Hf) as (p & q & Hc & _). rewrite Hc, !blen_app in Hsmall.
  pose proof (blen_nonneg p). pose proof (blen_nonneg q).
  rewrite Z.add_simpl_l, u64_small by (unfold is_u64; lia). unfold make_bytes. rewrite (proj2 (Z.ltb_lt _ _)) by lia. cbn [obind].
  rewrite (copyNode_spec l1 n l2 (layout count n) [] Hf (eq_sym (app_nil_r _))). cbn [obind].
  unfold layout. rewrite (parse_data_spec _ Hn) by (unfold layout in Hl; lia).
  unfold node_answer. cbn [seg_node sn_tombstone sn_value sn_primaryKey]. by destruct (tombstone n) eqn:E; cbn; rewrite E.
Qed.

Lemma indexContainsKey_spec k :
  Forall is_byte k -> indexContainsKey s k = Ok (bool_decide (is_Some (lookup_key key k flat))).
Proof.
  intros Hk. unfold indexContainsKey. rewrite (sh_strategy _ _ _ Hs). cbn [negb Z.eqb StrategyReplace].
  destruct (filtered_spec k) as (b & -> & Hb). cbn [obind].
  destruct b; [rewrite Hb by done; by rewrite bool_decide_false by (by intros [? ?])|].
  destruct (sh_index _ _ _ Hs k Hk) as (_ & _ & _ & -> & _). cbn [omap_err]. f_equal.
  pose proof (entries_lookup flat HeaderSize k (sh_sorted _ _ _ Hs)) as He.
  destruct (lookup_key key k flat); [destruct He as (? & ? & _ & He)|]; rewrite He; [|done].
  by rewrite !bool_decide_true by (by eexists).
Qed.

(** [exists] reads eighteen bytes, which hold a tombstone's value of up to nine. *)
Definition exists_answer (o : option bs_data) : outcome store_error unit :=
  match o with
  | None => Err (EGet NotFound)
  | Some n =>
      if tombstone n then Err (EGet (if blen (value n) <=? 9 then errorFromTombstonedValue (value n) else Deleted))
      else Ok tt
  end.

Lemma header_prefix n (m : nat) :
  (9 <= m)%nat -> exists v, take m (layout count n)
    = [flag_of (tombstone n)] ++ le_split 8 (blen (value n)) ++ v /\
    (9 + blen (value n) <= Z.of_nat m -> exists q, v = value n ++ q).
Proof.
  intros Hm. unfold layout, replace_layout. cbn [seg_node sn_tombstone sn_value].
  assert (Hl : length (le_split 8 (blen (value n))) = 8%nat) by apply length_le_split.
  destruct m as [|m]; [lia|]. cbn [app take]. rewrite take_app_ge by lia. rewrite Hl. eexists. split; [done|].
  intros Hv. rewrite take_app_ge by (unfold blen in Hv; lia). by eexists.
Qed.

Lemma seg_exists_spec k : Forall is_byte k -> seg_exists s k = exists_answer (lookup_key key k flat).
Proof.
  intros Hk. unfold seg_exists. rewrite (sh_strategy _ _ _ Hs). cbn [negb Z.eqb StrategyReplace].
  destruct (filtered_spec k) as (b & -> & Hb). cbn [obind]. destruct b; [by rewrite Hb|].
  pose proof (offsets_spec k Hk) as Ho. destruct (lookup_key key k flat) as [n|]; [|by rewrite Ho].
  destruct Ho as (l1 & l2 & Hf & ->). cbn [obind]. destruct (layout_small l1 n l2 Hf) as (Hn & Hl & Hlt).
  pose proof (blen_nonneg (seg_body count l1)). assert (Hh : HeaderSize = 16) by done.
  rewrite Z.add_simpl_l, (u64_small (blen (layout count n))) by (unfold is_u64; lia).
  set (hs := if blen (layout count n) <? 18 then blen (layout count n) else 18).
  assert (Hhs : 13 <= hs <= blen (layout count n) /\ hs <= 18 /\ (9 + blen (value n) <= hs <-> blen (value n) <= 9)).
  { pose proof (blen_layout count n Hn) as Hb'. pose proof (blen_nonneg (key n)).
    pose proof (blocks_nonneg (padded (seg_node count 0 n))).
    unfold hs. destruct (Z.ltb_spec (blen (layout count n)) 18); lia. }
  destruct Hhs as (Hhs & Hhs18 & Hiff). clearbody hs. set (hd := take (Z.to_nat hs) (layout count n)).
  assert (Hlen : blen hd = hs) by (unfold hd, blen in *; rewrite length_take; lia).
  rewrite u64_small by (unfold is_u64; lia). rewrite <- Hlen at 1.
  rewrite (copyNode_spec l1 n l2 hd (drop (Z.to_nat hs) (layout count n)) Hf) by (symmetry; apply take_drop). cbn [obind].
  destruct (header_prefix n (Z.to_nat hs)) as (v & Hv & Hq); [lia|]. fold hd in Hv. cbn [exists_answer].
  pose proof (nk_value_len _ Hn) as Hvl. cbn [seg_node sn_value] in Hvl. pose proof (blen_nonneg (value n)).
  rewrite Hv. cbn [app]. destruct (tombstone n); cbn [flag_of negb Z.eqb]; [|done].
  change (1 :: le_split 8 (blen (value n)) ++ v) with ([1] ++ le_split 8 (blen (value n)) ++ v) in *. cbn [Z.eqb Pos.eqb negb].
  cbn [flag_of] in Hv. rewrite <- Hv, Hlen, (proj2 (Z.ltb_ge _ _)) by lia.
  assert (Hs8 : slice (buf_of hd) 1 9 = Ok (Buf (le_split 8 (blen (value n)) ++ v) 8)).
  { pose proof (slice_whole [1] (le_split 8 (blen (value n))) v) as Hw. rewrite blen_le_split, <- Hv in Hw.
    rewrite length_le_split in Hw. exact Hw. }
  rewrite Hs8. cbn [omap_err obind].
  assert (Hu8 : le_uint 8 (Buf (le_split 8 (blen (value n)) ++ v) 8) = Ok (E := byteops_error) (blen (value n))).
  { unfold le_uint. cbn [buf_len buf_mem Nat.ltb Nat.leb]. rewrite take_app_length' by (by rewrite length_le_split).
    rewrite le8_len by done. done. }
  rewrite Hu8. cbn [omap_err obind]. unfold to_int. rewrite (proj2 (Z.ltb_lt _ (2 ^ 63))) by lia.
  destruct (Z.eqb_spec (blen (value n)) 0) as [E|E]; cbn [orb].
  { destruct (value n); [done|unfold blen in E; cbn [length] in E; lia]. }
  destruct (Z.leb_spec (blen (value n)) 9) as [E9|E9]; [|by rewrite (proj2 (Z.ltb_lt _ _)) by lia].
  rewrite (proj2 (Z.ltb_ge _ _)) by lia. destruct Hq as (q & ->); [lia|].
  rewrite Hv, u64_small by (unfold is_u64; lia).
  pose proof (sub_mid ([1] ++ le_split 8 (blen (value n))) (value n) q) as Hsub.
  rewrite blen_app, blen_le_split in Hsub. rewrite <- app_assoc in Hsub. change (blen [1] + Z.of_nat 8) with 9 in Hsub.
  rewrite Hsub. done.
Qed.

(** ** The cursor walks the list *)

(** A node as the cursor returns it; in digest mode only a prefix of the value, and
    no secondary keys *)
Definition cursor_view (prefix : Z) (n : bs_data) : segmentReplaceNode :=
  if 0 <? prefix
  then ReplaceNode (tombstone n) (take (Z.to_nat prefix) (value n)) (key n) count (repeat [] (Z.to_nat count)) (blen (layout count n))
  else ReplaceNode (tombstone n) (value n) (key n) count (padded (seg_node count 0 n)) (blen (layout count n)).

Definition view_error (n : bs_data) : option store_error := if tombstone n then Some (EGet Deleted) else None.

(** Between calls: the node that will be overwritten *)
Record cursor_ready (prefix : Z) (c : segmentCursorReplaceReusable F) : Prop := {
  cy_segment : cr_segment c = s;
  cy_prefix : cr_valuePrefixLen c = prefix;
  cy_nonneg : 0 <= prefix;
  cy_count : sn_secondaryIndexCount (cr_reusableNode c) = count;
  cy_keys : length (sn_secondaryKeys (cr_reusableNode c)) = Z.to_nat count;
  cy_digest : 0 < prefix -> sn_secondaryKeys (cr_reusableNode c) = repeat [] (Z.to_nat count) }.

(** The cursor is at [n], with [l1] before it and [l2] behind it. *)
Record cursor_at (prefix : Z) (c : segmentCursorReplaceReusable F) (l1 : list bs_data) (n : bs_data) (l2 : list bs_data) : Prop := {
  ca_ready : cursor_ready prefix c;
  ca_flat : flat = l1 ++ n :: l2;
  ca_offset : cr_currOffset c = HeaderSize + blen (seg_body count l1);
  ca_node : cr_reusableNode c = cursor_view prefix n;
  ca_key : key n <> [] -> cr_keyNil c = false }.

Lemma count_nonneg l1 n l2 : flat = l1 ++ n :: l2 -> 0 <= count.
Proof. intros Hf. destruct (layout_small l1 n l2 Hf) as ([_ _ _ [Hc _] _ _] & _). exact Hc. Qed.

Lemma new_cursor_ready prefix : 0 <= prefix -> cursor_ready prefix (newReplaceCursorReusableWithPrefix s prefix).
Proof.
  intros Hp. pose proof (sh_count _ _ _ Hs) as Hc. unfold newReplaceCursorReusableWithPrefix.
  split; cbn [cr_segment cr_valuePrefixLen cr_reusableNode sn_secondaryIndexCount sn_secondaryKeys]; rewrite ?Hc; try done.
  apply repeat_length.
Qed.

Lemma view_ready prefix c l1 n l2 nil :
  cursor_ready prefix c -> flat = l1 ++ n :: l2 ->
  (key n <> [] -> nil = false) ->
  cursor_at prefix (CursorReusable s (HeaderSize + blen (seg_body count l1)) (cursor_view prefix n) prefix nil) l1 n l2.
Proof.
  intros [Hseg Hpre H0 Hc Hk Hd] Hf Hnil. split; cbn [cr_currOffset cr_reusableNode cr_keyNil]; try done.
  unfold cursor_view. destruct (layout_small l1 n l2 Hf) as (Hn & _).
  split; cbn [cr_segment cr_valuePrefixLen cr_reusableNode]; try done; destruct (Z.ltb_spec 0 prefix); cbn; try done.
  - apply repeat_length.
  - by destruct (padded_ok _ Hn).
  - lia.
Qed.

(** The parser the cursor uses gives the view. *)
Lemma parse_view prefix c l1 n l2 rest :
  cursor_ready prefix c -> flat = l1 ++ n :: l2 -> blen (layout count n ++ rest) < 2 ^ 63 ->
  let rw := NewReadWriter (buf_of (layout count n ++ rest)) in
  (if 0 <? prefix then ParseReplaceNodeDigestIntoMMAP rw count prefix (cr_reusableNode c)
   else ParseReplaceNodeIntoMMAP rw count (cr_reusableNode c)) = Ok (cursor_view prefix n) /\
  (if 0 <? prefix then ParseReplaceNodeDigestIntoPread (layout count n ++ rest) count prefix (cr_reusableNode c)
   else ParseReplaceNodeIntoPread (layout count n ++ rest) count (cr_reusableNode c)) = Ok (cursor_view prefix n, rest).
Proof.
  intros [Hseg Hpre H0 Hc Hk Hd] Hf Hsize rw. destruct (layout_small l1 n l2 Hf) as (Hn & Hl & _).
  pose proof (count_nonneg l1 n l2 Hf) as Hc0.
  assert (Hm : (length (layout count n) <= length (layout count n ++ rest))%nat) by (rewrite length_app; lia).
  assert (Hl' : blen (layout count n) < 2 ^ 63) by lia. unfold rw, cursor_view. destruct (padded_ok _ Hn) as [_ Hpl].
  destruct (Z.ltb_spec 0 prefix) as [Hp|Hp].
  - pose proof (DigestMMAP_spec (seg_node count 0 n) rest _ Hn Hm Hl' prefix (cr_reusableNode c) H0) as H1.
    pose proof (DigestPread_spec (seg_node count 0 n) rest prefix (cr_reusableNode c) Hn H0) as H2.
    rewrite (Hd Hp) in H1, H2. split; [exact H1|exact H2].
  - pose proof (MMAP_spec (seg_node count 0 n) rest _ Hn Hm Hl' (cr_reusableNode c)) as H1.
    split; [etransitivity; [exact H1|]|].
    + rewrite Hc. unfold parsed. do 2 f_equal. cbn [seg_node sn_secondaryIndexCount].
      destruct (Z.ltb_spec 0 count) as [|Hz]; [done|]. assert (Hz' : count = 0) by lia.
      rewrite Hz' in Hk. destruct (sn_secondaryKeys (cr_reusableNode c)); [|done].
      cbn [seg_node sn_secondaryIndexCount] in Hpl. symmetry. apply nil_length_inv. lia.
    + unfold ParseReplaceNodeIntoPread. rewrite (read_node_spec (seg_node count 0 n) rest Hn : read_node (layout count n ++ rest) count = _).
      cbn [obind]. rewrite (proj2 (Z.ltb_ge (Z.of_nat (length _)) count)) by lia.
      rewrite andb_false_r, drop_ge, app_nil_r, Hc by lia. done.
Qed.

Lemma parseInto_spec prefix c l1 n l2 :
  cursor_ready prefix c -> flat = l1 ++ n :: l2 -> cr_currOffset c = HeaderSize + blen (seg_body count l1) ->
  exists c', parseInto c = Ok ((Some (cursor_view prefix n), view_error n), c') /\ cursor_at prefix c' l1 n l2.
Proof.
  intros Hr Hf Ho. destruct (contents_at l1 n l2 Hf) as (p & q & Hc & Hp & _).
  pose proof (sh_size _ _ _ Hs) as Hsz. rewrite Hc, blen_app in Hsz. pose proof (blen_nonneg p).
  destruct (parse_view prefix c l1 n l2 q Hr Hf ltac:(lia)) as [Hmm Hpr].
  destruct (layout_small l1 n l2 Hf) as (_ & Hl & _).
  unfold parseInto. rewrite (cy_segment _ _ Hr), (cy_prefix _ _ Hr), (sh_count _ _ _ Hs), Ho, Hc, <- Hp.
  assert (He : (if sn_tombstone (cursor_view prefix n) then Some (EGet Deleted) else None) = view_error n)
    by (unfold cursor_view; by destruct (0 <? prefix)).
  assert (Hk : sn_primaryKey (cursor_view prefix n) = key n) by (unfold cursor_view; by destruct (0 <? prefix)).
  exists (CursorReusable s (blen p) (cursor_view prefix n) prefix
    (negb (s_readFromMemory s) && cr_keyNil c && bool_decide (sn_primaryKey (cursor_view prefix n) = []))). split.
  - destruct (s_readFromMemory s) eqn:Em.
    + rewrite sub_from_app. cbn [obind]. destruct (layout count n ++ q) as [|z zs] eqn:E.
      { exfalso. apply (f_equal blen) in E. rewrite blen_app in E. pose proof (blen_nonneg q). change (blen []) with 0 in E. lia. }
      rewrite Hmm. cbn [obind]. by rewrite He.
    + rewrite drop_blen, Hpr. cbn [obind]. by rewrite He.
  - rewrite Hp. apply (view_ready prefix c); [done..|]. intros Hne. rewrite Hk, bool_decide_false by done. apply andb_false_r.
Qed.

Lemma ready_move prefix c o : cursor_ready prefix c -> cursor_ready prefix (cr_move c o).
Proof. by intros []. Qed.

Lemma cr_first_nil prefix c :
  cursor_ready prefix c -> flat = [] -> cr_first c = Ok ((None, Some (EGet NotFound)), c).
Proof.
  intros Hr Hf. pose proof (sh_end _ _ _ Hs) as He. pose proof (sh_start _ _ _ Hs) as Hst.
  unfold cr_first. rewrite (cy_segment _ _ Hr), Hst, He, Hf. done.
Qed.

Lemma cr_first_cons prefix c n l2 :
  cursor_ready prefix c -> flat = n :: l2 ->
  exists c', cr_first c = Ok ((Some (cursor_view prefix n), view_error n), c') /\ cursor_at prefix c' [] n l2.
Proof.
  intros Hr Hf. pose proof (sh_end _ _ _ Hs) as He. pose proof (sh_start _ _ _ Hs) as Hst.
  destruct (layout_small [] n l2 Hf) as (_ & Hl & _). rewrite Hf, seg_body_cons, blen_app in He.
  pose proof (blen_nonneg (seg_body count l2)). unfold cr_first. rewrite (cy_segment _ _ Hr).
  rewrite (proj2 (Z.eqb_neq _ _)) by lia. rewrite Hst.
  apply parseInto_spec; [by apply ready_move|done|done].
Qed.

Lemma cr_next_spec prefix c l1 n l2 :
  cursor_at prefix c l1 n l2 ->
  match l2 with
  | [] => cr_next c = Ok ((None, Some (EGet NotFound)), c)
  | m :: l3 => exists c', cr_next c = Ok ((Some (cursor_view prefix m), view_error m), c') /\ cursor_at prefix c' (l1 ++ [n]) m l3
  end.
Proof.
  intros [Hr Hf Ho Hn _]. pose proof (sh_end _ _ _ Hs) as He. destruct (layout_small l1 n l2 Hf) as (_ & Hl & Hlt).
  assert (Hoff : sn_offset (cr_reusableNode c) = blen (layout count n)) by (rewrite Hn; unfold cursor_view; by destruct (0 <? prefix)).
  pose proof (blen_nonneg (seg_body count l1)). assert (Hh : HeaderSize = 16) by done.
  unfold cr_next. rewrite Hoff, Ho, (cy_segment _ _ Hr), He, (u64_small (blen _)), u64_small by (unfold is_u64; lia).
  destruct l2 as [|m l3].
  - rewrite (proj2 (Z.leb_le _ _)); [done|]. rewrite Hf, seg_body_app, blen_app.
    change (seg_body count [n]) with (layout count n ++ []). rewrite app_nil_r. lia.
  - assert (Hf' : flat = (l1 ++ [n]) ++ m :: l3) by (rewrite Hf, <- app_assoc; done).
    destruct (layout_small (l1 ++ [n]) m l3 Hf') as (_ & Hl' & _).
    assert (Hb : blen (seg_body count (l1 ++ [n])) = blen (seg_body count l1) + blen (layout count n)).
    { rewrite seg_body_app, blen_app. change (seg_body count [n]) with (layout count n ++ []). by rewrite app_nil_r. }
    rewrite (proj2 (Z.leb_gt _ _)).
    2:{ rewrite Hf', seg_body_app, blen_app, seg_body_cons, blen_app, Hb. pose proof (blen_nonneg (seg_body count l3)). lia. }
    apply parseInto_spec; [by apply ready_move|done|]. cbn [cr_move cr_currOffset]. lia.
Qed.

(** Where [seek] stops *)
Lemma entries_seek k l : forall off,
  exists l1 l2, l = l1 ++ l2 /\ Forall (fun n => bytes_compare k (key n) = Gt) l1 /\
    match l2 with
    | [] => lookup_entry descentGreaterThanEqual k (node_entries count off l) = None
    | n :: _ => bytes_compare k (key n) <> Gt /\
        lookup_entry descentGreaterThanEqual k (node_entries count off l)
        = Some (key n, off + blen (seg_body count l1), off + blen (seg_body count l1) + blen (layout count n))
    end.
Proof.
  unfold lookup_entry. induction l as [|n l IH]; intros off; [by exists [], []|]. cbn [node_entries List.find fst].
  destruct (bytes_compare k (key n)) eqn:Ec; cbn [accepts acceptEqual keepCandidate].
  1-2: (exists [], (n :: l); rewrite Ec; change (blen (seg_body count [])) with 0; rewrite Z.add_0_r; by split_and!).
  destruct (IH (off + blen (layout count n))) as (l1 & l2 & -> & Hl1 & Hl2). exists (n :: l1), l2.
  split; [done|]. split; [by constructor|]. destruct l2 as [|m l2]; [done|]. destruct Hl2 as [Hm ->]. split; [done|].
  rewrite seg_body_cons, blen_app, !Z.add_assoc. done.
Qed.

Lemma cr_seek_spec prefix c k :
  cursor_ready prefix c -> Forall is_byte k ->
  exists l1 l2, flat = l1 ++ l2 /\ Forall (fun n => bytes_compare k (key n) = Gt) l1 /\
    match l2 with
    | [] => cr_seek c k = Ok ((None, Some (EIndex SegmentIndex.NotFound)), c)
    | n :: l3 => bytes_compare k (key n) <> Gt /\
        exists c', cr_seek c k = Ok ((Some (cursor_view prefix n), view_error n), c') /\ cursor_at prefix c' l1 n l3
    end.
Proof.
  intros Hr Hk. destruct (sh_index _ _ _ Hs k Hk) as (_ & _ & _ & _ & Hseek).
  destruct (entries_seek k flat HeaderSize) as (l1 & l2 & Hf & Hl1 & Hl2). exists l1, l2. split; [done|]. split; [done|].
  unfold cr_seek. rewrite (cy_segment _ _ Hr), Hseek. destruct l2 as [|n l3]; [by rewrite Hl2|].
  destruct Hl2 as [Hn ->]. split; [done|]. cbn [option_map of_option fst snd].
  apply parseInto_spec; [by apply ready_move|done|done].
Qed.
End reads.

(** All nodes from a position on *)
Fixpoint walk (fuel : nat) (r : cursor_result) (c : segmentCursorReplaceReusable F) : outcome store_error (list segmentReplaceNode) :=
  match fuel, r with
  | _, (None, _) => Ok []
  | O, _ => OutOfFuel
  | S fuel, (Some n, _) => let! (r, c) := cr_next c in let! ns := walk fuel r c in Ok (n :: ns)
  end.

Definition walk_all (s : segment F) (prefix : Z) (fuel : nat) : outcome store_error (list segmentReplaceNode) :=
  let! (r, c) := cr_first (newReplaceCursorReusableWithPrefix s prefix) in walk fuel r c.

Lemma walk_at s count flat prefix l2 (Hs : seg_holds s count flat) : forall fuel c l1 n,
  cursor_at s count flat prefix c l1 n l2 -> (S (length l2) <= fuel)%nat ->
  walk fuel (Some (cursor_view count prefix n), view_error n) c = Ok (cursor_view count prefix <$> (n :: l2)).
Proof.
  induction l2 as [|m l2 IH]; intros fuel c l1 n Hc Hfuel; (destruct fuel as [|fuel]; [lia|]); cbn [walk length] in *.
  - rewrite (cr_next_spec s count flat Hs _ _ _ _ _ Hc). cbn [obind]. by destruct fuel.
  - destruct (cr_next_spec s count flat Hs _ _ _ _ _ Hc) as (c' & -> & Hc'). cbn [obind].
    rewrite (IH _ _ _ _ Hc') by lia. done.
Qed.

Lemma walk_all_spec s count flat prefix fuel :
  seg_holds s count flat -> 0 <= prefix -> (length flat <= fuel)%nat ->
  walk_all s prefix fuel = Ok (cursor_view count prefix <$> flat).
Proof.
  intros Hs Hp Hfuel. unfold walk_all. pose proof (new_cursor_ready s count flat Hs prefix Hp) as Hr.
  destruct flat as [|n l2].
  - rewrite (cr_first_nil s count [] Hs _ _ Hr eq_refl). by destruct fuel.
  - destruct (cr_first_cons s count (n :: l2) Hs _ _ n l2 Hr eq_refl) as (c' & -> & Hc'). cbn [obind].
    by apply (walk_at s count (n :: l2) prefix l2 Hs fuel c' []).
Qed.
End holds.

(** ** From a memtable to a segment *)

Lemma flush_file_spec {F} `{!Bloom F} count cfg t flat :
  bst_flattenInOrder (E := get_error) t = Ok flat -> seg_ok count flat.*1 ->
  exists file s, flush_file count (sc_enableChecksumValidation cfg) t = Ok file /\
    newSegment (F := F) cfg file = Ok s /\ seg_holds s count flat.*1 /\ s_level s = 0 /\
    s_readFromMemory s = sc_readFromMemory cfg.
Proof.
  intros Hflat Hok. unfold flush_file. rewrite Hflat. cbn [omap_err obind]. unfold flushDataReplace.
  rewrite header_WriteTo_bytes. cbn [obind]. rewrite blen_header, (seg_write_nodes_spec _ _ _ (so_data _ _ Hok)). cbn [obind].
  destruct (written_opens (F := F) 0 count flat.*1 None cfg Hok) as (ix & s & Hix & Hopen & Hs & Hl & Hm & _); [done|done|].
  rewrite Hix. cbn [obind]. eexists _, s. split; [reflexivity|].
  rewrite totalKeyAndValueSize_spec by apply Hok. pose proof (so_size _ _ Hok) as Hsz. unfold file_size in Hsz. cbv zeta in Hsz.
  destruct (index_sizes_nonneg (node_keys count HeaderSize flat.*1) (positions_of count)) as [H1 H2].
  pose proof (so_count _ _ Hok). pose proof (blen_nonneg (seg_body count flat.*1)).
  assert (Hh : HeaderSize = 16) by done. assert (Hck : ChecksumSize = 4) by done.
  rewrite u64_small by (unfold is_u64; lia). rewrite (Z.add_comm (blen _)). done.
Qed.

Lemma flatten_store (t : binarySearchTree) (st : gmap (list Z) bs_data) :
  refines key t st ->
  exists flat, bst_flattenInOrder (E := get_error) t = Ok flat /\ sorted_keys key flat.*1 /\
    forall k, lookup_key key k flat.*1 = st !! k.
Proof.
  intros Hr. destruct (flatten_refines (E := get_error) key bst_shallowCopy t st Hr) as (ns & Hsort & Hel & Hflat & _).
  exists (bst_shallowCopy <$> ns). assert (Hfst : (bst_shallowCopy <$> ns).*1 = n_data <$> ns) by (by rewrite <- list_fmap_compose).
  rewrite Hfst. split_and!; [done..|]. intros k.
  destruct (st !! k) as [n|] eqn:E.
  - pose proof (refines_key _ _ _ _ _ Hr E) as Hk. rewrite <- Hk in E |- *. by apply lookup_key_elem, Hel.
  - destruct (lookup_key key k (n_data <$> ns)) as [n|] eqn:El; [|done].
    apply lookup_key_Some in El as [Hn <-]. apply Hel in Hn. congruence.
Qed.

(** What the entries of a memtable need to fit a file *)
Record flush_limits (count : Z) (flat : list bs_data) : Prop := {
  fl_data : Forall (data_ok count) flat;
  fl_length : Z.of_nat (length flat) < 2 ^ 31;
  fl_count : 0 <= count < 2 ^ 16;
  fl_size : file_size count flat < 2 ^ 48 }.

(** Entries whose data take less than 16 GiB fit. *)
Lemma small_limits count flat :
  Forall (data_ok count) flat -> 0 <= count < 2 ^ 16 -> blen (seg_body count flat) < 2 ^ 34 -> flush_limits count flat.
Proof.
  intros Hok Hc Hb. pose proof (file_size_bound count flat Hok). pose proof (length_bound count flat Hok).
  pose proof (blen_nonneg (seg_body count flat)). split; [done|lia|done|lia].
Qed.

(** C26: a flushed memtable is the segment that replaces it.  After any writes the
    file [flush] produces (with or without checksum and secondary indexes) opens, with
    or without bloom filters, mapped or read by pread; lookups in the segment answer
    every key as the tree did, tombstones included; [exists] and
    [indexContainsKey] agree with them; and the sequential cursor returns every
    entry once, in key order, with its secondary keys, or in digest mode
    with the asked prefix of its value. *)
Theorem flush_then_open {F} `{!Bloom F} (ops : list op) (count : Z) (cfg : segmentConfig) t rs flat :
  run (E := get_error) bst_empty ops = Ok (t, rs) -> bst_flattenInOrder (E := get_error) t = Ok flat ->
  flush_limits count flat.*1 ->
  exists file (s : segment F),
    flush_file count (sc_enableChecksumValidation cfg) t = Ok file /\ newSegment cfg file = Ok s /\
    (forall k, Forall is_byte k ->
       seg_get s k = omap_err EGet (bst_get t k) /\
       seg_exists s k = exists_answer (foldl spec_op ∅ ops !! k) /\
       indexContainsKey s k = Ok (bool_decide (is_Some (foldl spec_op ∅ ops !! k)))) /\
    forall prefix fuel, 0 <= prefix -> (length flat <= fuel)%nat ->
      walk_all s prefix fuel = Ok (cursor_view count prefix <$> flat.*1).
Proof.
  intros Hrun Hflat [Hd Hl Hc Hsz]. destruct (run_refines (E := get_error) ops _ _ (empty_refines key)) as (t' & Hrun' & Href).
  rewrite Hrun in Hrun'. injection Hrun' as <- _. destruct (flatten_store _ _ Href) as (flat' & Hf' & Hsort & Hlook).
  rewrite Hflat in Hf'. injection Hf' as <-.
  destruct (flush_file_spec (F := F) count cfg t flat Hflat) as (file & s & Hfile & Hopen & Hs & _ & _); [by split|].
  exists file, s. split; [done|]. split; [done|]. split.
  - intros k Hk. rewrite (seg_get_spec s count _ Hs k Hk), (seg_exists_spec s count _ Hs k Hk),
      (indexContainsKey_spec s count _ Hs k Hk), Hlook. split; [|done].
    unfold bst_get. rewrite (getNode_refines _ _ _ Href). unfold spec_getNode.
    destruct (foldl spec_op ∅ ops !! k) as [n|]; cbn; [|done]. by destruct (tombstone n).
  - intros prefix fuel Hp Hfuel. apply walk_all_spec; [done|done|]. by rewrite length_fmap.
Qed.

(** A filter that remembers the keys *)
#[export] Instance exact_bloom : Bloom (list (list Z)).
Proof.
  refine {| NewWithEstimates := fun _ => []; bf_Add := fun f k => k :: f; bf_Test := fun f k => bool_decide (k ∈ f) |}.
  - intros f k. apply bool_decide_eq_true. left.
  - intros f k k'. rewrite !bool_decide_eq_true. by right.
Defined.

Definition wit_ops : list op :=
  [Insert [2; 1] [7; 8; 9] [[5]; [6; 6]]; SetTombstone [1] [] [[3]]; Insert [9] [4] [[]; [8]]; Insert [2; 1] [1; 1] [[5]; [4]];
   SetTombstone [3] (1 :: le_split 8 1700000000000) []].

Definition wit_cfg : segmentConfig := SegConfig true false true false.

(** A check of [flush_limits] by evaluation *)
Definition key_okb (k : list Z) : bool := forallb (fun x => (0 <=? x) && (x <? 256)) k && (blen k <? 2 ^ 32).
Definition data_okb (count : Z) (n : bs_data) : bool :=
  forallb (fun x => (0 <=? x) && (x <? 256)) (value n) && (blen (value n) <? 2 ^ 48) && key_okb (key n)
  && (0 <=? count) && (count <? 2 ^ 16) && forallb key_okb (secondaryKeys n) && (Z.of_nat (length (secondaryKeys n)) <=? count).
Definition limits_okb (count : Z) (flat : list bs_data) : bool :=
  forallb (data_okb count) flat && (Z.of_nat (length flat) <? 2 ^ 31) && (0 <=? count) && (count <? 2 ^ 16)
  && (file_size count flat <? 2 ^ 48).

Lemma key_check k : key_okb k = true -> key_ok k.
Proof. unfold key_okb. intros [H1 H2]%andb_true_iff. split; [by apply bytes_check|lia]. Qed.

Lemma data_check count n : data_okb count n = true -> data_ok count n.
Proof.
  unfold data_okb. rewrite !andb_true_iff. intros ((((((H1 & H2) & H3) & H4) & H5) & H6) & H7).
  split; cbn [seg_node sn_value sn_primaryKey sn_secondaryIndexCount sn_secondaryKeys]; [by apply bytes_check|lia| |lia| |lia].
  - by apply key_check.
  - apply Forall_forall. intros k Hk. apply key_check. rewrite forallb_forall in H6. by apply H6, list_elem_of_In.
Qed.

Lemma limits_check count flat : limits_okb count flat = true -> flush_limits count flat.
Proof.
  unfold limits_okb. rewrite !andb_true_iff. intros ((((H1 & H2) & H3) & H4) & H5). split; [|lia..].
  apply Forall_forall. intros n Hn. apply data_check. rewrite forallb_forall in H1. by apply H1, list_elem_of_In.
Qed.

Lemma flush_then_open_witness :
  exists t flat file (s : segment (list (list Z))),
    flush_file 2 true t = Ok file /\ newSegment wit_cfg file = Ok s /\
    seg_get s [2; 1] = Ok [1; 1] /\ seg_get s [1] = Err (EGet Deleted) /\ seg_get s [4] = Err (EGet NotFound) /\
    seg_exists s [3] = Err (EGet (ErrDeleted 1700000000000)) /\
    walk_all s 0 4 = Ok (cursor_view 2 0 <$> flat) /\ key <$> flat = [[1]; [2; 1]; [3]; [9]].
Proof.
  destruct (run (E := get_error) bst_empty wit_ops) as [[t rs]| | |] eqn:Hrun; [|vm_compute in Hrun; discriminate..].
  destruct (bst_flattenInOrder (E := get_error) t) as [flat| | |] eqn:Hflat;
    [|vm_compute in Hrun; injection Hrun as <- _; vm_compute in Hflat; discriminate..].
  destruct (flush_then_open (F := list (list Z)) wit_ops 2 wit_cfg t rs flat Hrun Hflat) as (file & s & Hfile & Hopen & Hget & Hwalk).
  { vm_compute in Hrun. injection Hrun as <- _. vm_compute in Hflat. injection Hflat as <-.
    apply limits_check. vm_compute. reflexivity. }
  exists t, flat.*1, file, s. split; [exact Hfile|]. split; [exact Hopen|].
  pose proof (Hwalk 0 4%nat) as Hw. pose proof Hget as Hget'.
  vm_compute in Hrun. injection Hrun as <- _. vm_compute in Hflat. injection Hflat as <-.
  destruct (Hget [2; 1]) as (H1 & _); [by apply bytes_check|]. destruct (Hget [1]) as (H2 & _); [by apply bytes_check|].
  destruct (Hget [4]) as (H3 & _); [by apply bytes_check|]. destruct (Hget [3]) as (_ & H4 & _); [by apply bytes_check|].
  rewrite H1, H2, H3, H4. split; [reflexivity|]. split; [reflexivity|]. split; [reflexivity|]. split; [reflexivity|].
  split; [|reflexivity]. apply Hw; [lia|cbn; lia].
Defined.
