(* ===== verification/ReplaceCompactor.v ===== *)
(** * Compaction of two segments of strategy "replace"

    [compactor_replace.go] and the header writing of [compactor/compactor.go]: the
    merge of two cursors, the right one newer, into a segment file.  The merge is
    shown to write the merge of the two lists of entries, and the file to open to
    a segment that answers as the pair did. *)

From S2P Require Import Prelude ByteOps RBTree SearchTree SegmentIndex IndexLayout DiskTree MemtableTree ReplaceNode SegmentFile ReplaceSegment.
Import Replace.

(** ** compactor.MemoryWriter *)

Record MemoryWriter : Type := MW { mw_buffer : list Z; mw_pos : nat; mw_maxPos : nat }.

Definition newMemoryWriterWrapper (initialCapacity : Z) : MemoryWriter := MW (repeat 0 (Z.to_nat initialCapacity)) 0 0.

(** [Write]; the buffer grows by the required size, so that everything is copied *)
Definition mw_Write (mw : MemoryWriter) (p : list Z) : MemoryWriter :=
  let requiredSize := (mw_pos mw + length p)%nat in
  let buffer := if (length (mw_buffer mw) <? requiredSize)%nat then mw_buffer mw ++ repeat 0 requiredSize else mw_buffer mw in
  let numCopiedBytes := Nat.min (length buffer - mw_pos mw) (length p) in
  let pos := (mw_pos mw + numCopiedBytes)%nat in
  MW (take (mw_pos mw) buffer ++ take numCopiedBytes p ++ drop pos buffer) pos
    (if (mw_maxPos mw <=? pos)%nat then pos else mw_maxPos mw).

(** What [Flush] hands to the file *)
Definition mw_Flush (mw : MemoryWriter) : list Z := take (mw_maxPos mw) (mw_buffer mw).
Definition ResetWritePositionToZero (mw : MemoryWriter) : MemoryWriter := MW (mw_buffer mw) 0 (mw_maxPos mw).
Definition ResetWritePositionToMax (mw : MemoryWriter) : MemoryWriter := MW (mw_buffer mw) (mw_maxPos mw) (mw_maxPos mw).

(** ** compactorReplace *)

Definition AbortCheckEveryN : nat := 1024.
Definition SegmentWriterBufferSize : Z := 256 * 1024.

Section compactor.
Context {F : Type} `{!Bloom F}.

(** [ctx_err i]: the context is cancelled when it is asked in turn [i]. *)
Record compactorReplace : Type := Compactor {
  co_currentLevel : Z;
  co_cleanupTombstones : bool;
  co_secondaryIndexCount : Z;
  co_maxNewFileSize : Z;
  co_enableChecksumValidation : bool;
  co_valueTransformer : option (list Z -> outcome store_error (list Z));
  co_ctx_err : nat -> bool }.

Context (c : compactorReplace).

(** The state of [writeKeys]: the results of the last calls on the cursors, the
    cursors, the offset, what was written, the keys and the sizes of the
    indexes *)
Record merge_state : Type := MergeState {
  ms_res1 : cursor_result;
  ms_c1 : segmentCursorReplaceReusable F;
  ms_res2 : cursor_result;
  ms_c2 : segmentCursorReplaceReusable F;
  ms_offset : Z;
  ms_body : list Z;
  ms_kis : list Key;
  ms_primaryIndexSize : Z;
  ms_secIndexSizes : list Z }.

Fixpoint add_sizes (sizes : list Z) (secondaryKeys : list (list Z)) : list Z :=
  match sizes, secondaryKeys with
  | size :: sizes, sk :: sks => size + (TREE_KEY_STORE_OVERHEAD + blen sk) :: add_sizes sizes sks
  | sizes, _ => sizes
  end.

Definition accumulateIndexSizes (ki : Key) (primary : Z) (sizes : list Z) : Z * list Z :=
  (primary + (TREE_KEY_STORE_OVERHEAD + blen (k_Key ki)), add_sizes sizes (k_SecondaryKeys ki)).

(** The copies into the arena are the same bytes. *)
Definition writeIndividualNode (offset : Z) (key value : list Z) (secondaryKeys : list (list Z)) (tombstone : bool) :
    outcome store_error (list Z * Key) :=
  let! value :=
    match co_valueTransformer c with
    | Some transform => if negb tombstone && (0 <? blen value) then transform value else Ok value
    | None => Ok value
    end in
  Ok (KeyIndexAndWriteTo (ReplaceNode tombstone value key (co_secondaryIndexCount c) secondaryKeys offset)).

Definition is_deleted (e : option store_error) : bool := match e with Some e => is_Deleted e | None => false end.

(** One branch of the loop: write the node unless it is a tombstone to clean up *)
Definition write_branch (st : merge_state) (res : cursor_result) : outcome store_error merge_state :=
  if co_cleanupTombstones c && is_deleted res.2 then Ok st
  else
    match res.1 with
    | None => Panic
    | Some n =>
        let! (bytes, ki) := writeIndividualNode (ms_offset st) (sn_primaryKey n) (sn_value n) (sn_secondaryKeys n) (is_deleted res.2) in
        let (primary, sizes) := accumulateIndexSizes ki (ms_primaryIndexSize st) (ms_secIndexSizes st) in
        Ok (MergeState (ms_res1 st) (ms_c1 st) (ms_res2 st) (ms_c2 st) (k_ValueEnd ki) (ms_body st ++ bytes)
              (ms_kis st ++ [ki]) primary sizes)
    end.

Definition next1 (st : merge_state) : outcome store_error merge_state :=
  let! (res, cur) := cr_next (ms_c1 st) in
  Ok (MergeState res cur (ms_res2 st) (ms_c2 st) (ms_offset st) (ms_body st) (ms_kis st) (ms_primaryIndexSize st) (ms_secIndexSizes st)).

Definition next2 (st : merge_state) : outcome store_error merge_state :=
  let! (res, cur) := cr_next (ms_c2 st) in
  Ok (MergeState (ms_res1 st) (ms_c1 st) res cur (ms_offset st) (ms_body st) (ms_kis st) (ms_primaryIndexSize st) (ms_secIndexSizes st)).

Definition key_of (res : cursor_result) (cur : segmentCursorReplaceReusable F) : option (list Z) :=
  match res.1 with Some n => cr_key cur n | None => None end.

(** [bytes.Equal] and [bytes.Compare] take a nil slice for an empty one. *)
Definition deref (k : option (list Z)) : list Z := match k with Some k => k | None => [] end.

Fixpoint write_loop (fuel i : nat) (st : merge_state) : outcome store_error merge_state :=
  match fuel with
  | O => OutOfFuel
  | S fuel =>
      if (i mod AbortCheckEveryN =? 0)%nat && co_ctx_err c i then Err ECtx
      else
        let key1 := key_of (ms_res1 st) (ms_c1 st) in
        let key2 := key_of (ms_res2 st) (ms_c2 st) in
        match key1, key2 with
        | None, None => Ok st
        | _, _ =>
            if bool_decide (deref key1 = deref key2) then
              let! st := write_branch st (ms_res2 st) in
              let! st := next1 st in
              let! st := next2 st in
              write_loop fuel (S i) st
            else if match key1 with
                    | Some k1 => match bytes_compare k1 (deref key2) with Lt => true | _ => false end
                    | None => false
                    end || match key2 with None => true | Some _ => false end then
              let! st := write_branch st (ms_res1 st) in
              let! st := next1 st in
              write_loop fuel (S i) st
            else
              let! st := write_branch st (ms_res2 st) in
              let! st := next2 st in
              write_loop fuel (S i) st
        end
  end.

Definition writeKeys (fuel : nat) (c1 c2 : segmentCursorReplaceReusable F) : outcome store_error merge_state :=
  let! (res1, c1) := cr_first c1 in
  let! (res2, c2) := cr_first c2 in
  write_loop fuel 0 (MergeState res1 c1 res2 c2 HeaderSize [] [] 0 (repeat 0 (Z.to_nat (co_secondaryIndexCount c)))).

(** The writer: a buffer in memory for small files, with the header written over the
    dummy one at the end; otherwise the file itself, where the header is written
    after a seek to the start and the checksum after a seek to the end *)
Definition written_file (header body ix : list Z) : list Z :=
  let checksum := if co_enableChecksumValidation c then checksum_bytes (body ++ ix ++ header) else [] in
  if co_maxNewFileSize c <? SegmentWriterBufferSize then
    let mw := newMemoryWriterWrapper (co_maxNewFileSize c) in
    let mw := mw_Write mw (repeat 0 (Z.to_nat HeaderSize)) in
    let mw := mw_Write (mw_Write mw body) ix in
    let mw := mw_Write (ResetWritePositionToZero mw) header in
    mw_Flush (mw_Write (ResetWritePositionToMax mw) checksum)
  else
    let file := repeat 0 (Z.to_nat HeaderSize) ++ body ++ ix in
    (header ++ drop (length header) file) ++ checksum.

(** [do] *)
Definition compactor_do (fuel : nat) (c1 c2 : segmentCursorReplaceReusable F) : outcome store_error (list Z) :=
  let! st := writeKeys fuel c1 c2 in
  let! ix := indexes_WriteTo (MkIndexes (ms_kis st) (co_secondaryIndexCount c)
                                (Some (ms_primaryIndexSize st, ms_secIndexSizes st))) in
  let dataEnd := match last (ms_kis st) with Some ki => u64 (k_ValueEnd ki) | None => HeaderSize end in
  let! header := header_WriteTo (MkHeader (co_currentLevel c) (ChooseHeaderVersion (co_enableChecksumValidation c))
                                   (co_secondaryIndexCount c) StrategyReplace dataEnd) in
  Ok (written_file header (ms_body st) ix).
End compactor.

(** * Lemmas *)

(** ** The memory writer *)

Record mw_holds (mw : MemoryWriter) (data : list Z) : Prop := {
  mh_max : mw_maxPos mw = length data;
  mh_data : exists rest, mw_buffer mw = data ++ rest }.

Lemma mw_new n : mw_holds (newMemoryWriterWrapper n) [].
Proof. split; [done|by eexists]. Qed.

(** A write at the end appends, *)
Lemma mw_Write_end mw data p :
  mw_holds mw data -> mw_pos mw = length data ->
  mw_holds (mw_Write mw p) (data ++ p) /\ mw_pos (mw_Write mw p) = length (data ++ p).
Proof.
  intros [Hm [rest Hb]] Hp. unfold mw_Write. rewrite Hp, Hb, Hm.
  set (buffer := if (length (data ++ rest) <? length data + length p)%nat then (data ++ rest) ++ repeat 0 (length data + length p) else data ++ rest).
  assert (Hbuf : exists rest', buffer = data ++ rest' /\ (length p <= length rest')%nat).
  { unfold buffer. destruct (Nat.ltb_spec (length (data ++ rest)) (length data + length p)) as [Hlt|Hge].
    - exists (rest ++ repeat 0 (length data + length p)). rewrite <- app_assoc. split; [done|].
      rewrite length_app, repeat_length. lia.
    - exists rest. split; [done|]. rewrite length_app in Hge. lia. }
  destruct Hbuf as (rest' & -> & Hl). rewrite length_app.
  replace (Nat.min (length data + length rest' - length data) (length p)) with (length p) by lia.
  rewrite take_app_length, firstn_all. rewrite (proj2 (Nat.leb_le _ _)) by lia. cbn [mw_pos]. split; [|by rewrite length_app].
  split; cbn [mw_maxPos mw_buffer]; [by rewrite length_app|]. eexists. by rewrite <- app_assoc.
Qed.

(** a shorter write at the start overwrites. *)
Lemma mw_Write_start mw data p :
  mw_holds mw data -> mw_pos mw = 0%nat -> (length p <= length data)%nat ->
  mw_holds (mw_Write mw p) (p ++ drop (length p) data).
Proof.
  intros [Hm [rest Hb]] Hp Hl. unfold mw_Write. rewrite Hp, Hb, Hm. cbn [Nat.add].
  rewrite (proj2 (Nat.ltb_ge _ _)) by (rewrite length_app; lia). rewrite Nat.sub_0_r, length_app.
  replace (Nat.min (length data + length rest) (length p)) with (length p) by lia.
  rewrite take_0, firstn_all. cbn [app].
  split; cbn [mw_maxPos mw_buffer].
  - rewrite length_app, length_drop. destruct (Nat.leb_spec (length data) (length p)); lia.
  - exists rest. rewrite drop_app_le by lia. by rewrite <- app_assoc.
Qed.

Lemma written_file_spec c header body ix :
  blen header = HeaderSize ->
  written_file c header body ix = segment_file (co_enableChecksumValidation c) header body ix.
Proof.
  intros Hh. assert (Hl : length header = 16%nat) by (unfold blen, HeaderSize in Hh; lia).
  unfold written_file, segment_file. set (ck := if co_enableChecksumValidation c then _ else []).
  assert (Hd : drop (length header) (repeat 0 (Z.to_nat HeaderSize) ++ body ++ ix) = body ++ ix) by (rewrite Hl; done).
  destruct (co_maxNewFileSize c <? SegmentWriterBufferSize); [|rewrite Hd; by rewrite <- !app_assoc].
  set (mw0 := newMemoryWriterWrapper (co_maxNewFileSize c)).
  destruct (mw_Write_end mw0 [] (repeat 0 (Z.to_nat HeaderSize)) (mw_new _) eq_refl) as [H1 P1].
  destruct (mw_Write_end _ _ body H1 P1) as [H2 P2]. destruct (mw_Write_end _ _ ix H2 P2) as [H3 P3].
  set (mw3 := mw_Write _ ix) in *. rewrite app_nil_l, <- app_assoc in H3.
  assert (H4 : mw_holds (mw_Write (ResetWritePositionToZero mw3) header) (header ++ body ++ ix)).
  { rewrite <- Hd. apply mw_Write_start; [by destruct H3|done|]. rewrite Hl, length_app, repeat_length. unfold HeaderSize. lia. }
  set (mw4 := mw_Write _ header) in *.
  destruct (mw_Write_end (ResetWritePositionToMax mw4) (header ++ body ++ ix) ck) as [[H5 [rest H6]] _];
    [by destruct H4|apply H4|].
  unfold mw_Flush. rewrite H5, H6, take_app_length. by rewrite <- !app_assoc.
Qed.

(** ** The merge of two lists *)

Section merge.
Context (count : Z) (cleanup : bool) (transform : list Z -> list Z).

(** An entry as the merge writes it *)
Definition rewritten (n : bs_data) : bs_data :=
  BsData (key n) (if negb (tombstone n) && (0 <? blen (value n)) then transform (value n) else value n)
    (padded (seg_node count 0 n)) (tombstone n).

Definition kept (n : bs_data) : list bs_data := if cleanup && tombstone n then [] else [rewritten n].

Fixpoint merged (fuel : nat) (l r : list bs_data) : list bs_data :=
  match fuel with
  | O => []
  | S fuel =>
      match l, r with
      | [], [] => []
      | n :: l', [] => kept n ++ merged fuel l' []
      | [], m :: r' => kept m ++ merged fuel [] r'
      | n :: l', m :: r' =>
          match bytes_compare (key n) (key m) with
          | Eq => kept m ++ merged fuel l' r'
          | Lt => kept n ++ merged fuel l' r
          | Gt => kept m ++ merged fuel l r'
          end
      end
  end.

Definition merge_lists (l r : list bs_data) : list bs_data := merged (length l + length r) l r.

Lemma kept_elem n x : x ∈ kept n -> x = rewritten n.
Proof. unfold kept. destruct (cleanup && tombstone n); [by intros ?%not_elem_of_nil|by intros ?%list_elem_of_singleton]. Qed.

Lemma merged_elem fuel : forall l r x, x ∈ merged fuel l r -> exists n, (n ∈ l \/ n ∈ r) /\ x = rewritten n.
Proof.
  induction fuel as [|fuel IH]; intros l r x Hx; [by apply not_elem_of_nil in Hx|].
  cbn [merged] in Hx. destruct l as [|n l], r as [|m r]; [by apply not_elem_of_nil in Hx|..];
    [|..|destruct (bytes_compare (key n) (key m))]; (apply elem_of_app in Hx as [Hx|Hx];
      [apply kept_elem in Hx as ->|apply IH in Hx as (y & Hy & ->)]); set_solver.
Qed.

(** The newer entry of a key wins; tombstones are kept unless they are cleaned up. *)
Definition merge_lookup (l r : list bs_data) (k : list Z) : option bs_data :=
  match lookup_key key k r, lookup_key key k l with
  | Some n, _ => head (kept n)
  | None, Some n => head (kept n)
  | None, None => None
  end.

Lemma lookup_cons n l k : lookup_key key k (n :: l) = if bool_decide (key n = k) then Some n else lookup_key key k l.
Proof. done. Qed.

Lemma lookup_above n l k : (forall x, x ∈ l -> before (key n) (key x)) -> key n = k -> lookup_key key k l = None.
Proof. intros Hl <-. apply lookup_key_absent. intros x Hx E. apply Hl in Hx. rewrite E in Hx. by apply before_irrefl in Hx. Qed.

(** The entry written next lies below what follows. *)
Lemma kept_app n l k :
  sorted_keys key l -> (forall x, x ∈ l -> before (key n) (key x)) ->
  sorted_keys key (kept n ++ l) /\
  lookup_key key k (kept n ++ l) = if bool_decide (key n = k) then head (kept n) else lookup_key key k l.
Proof.
  intros Hs Hl. unfold kept. destruct (cleanup && tombstone n); cbn [app head].
  - split; [done|]. case_bool_decide as E; [|done]. by apply (lookup_above n).
  - split; [by apply sorted_keys_cons|]. done.
Qed.

Lemma merged_above fuel l r y :
  (forall x, x ∈ l -> before y (key x)) -> (forall x, x ∈ r -> before y (key x)) ->
  forall x, x ∈ merged fuel l r -> before y (key x).
Proof. intros Hl Hr x Hx. apply merged_elem in Hx as (n & [Hn|Hn] & ->); cbn [rewritten key]; auto. Qed.

Lemma merged_spec fuel : forall l r k,
  sorted_keys key l -> sorted_keys key r -> (length l + length r <= fuel)%nat ->
  sorted_keys key (merged fuel l r) /\ lookup_key key k (merged fuel l r) = merge_lookup l r k.
Proof.
  induction fuel as [|fuel IH]; intros l r k Hl Hr Hf.
  { destruct l, r; cbn [length] in Hf; [|lia..]. split; [constructor|done]. }
  cbn [merged]. unfold merge_lookup. destruct l as [|n l], r as [|m r]; cbn [length] in Hf.
  - split; [constructor|done].
  - apply sorted_keys_cons in Hr as [Hr Hm]. destruct (IH [] r k Hl Hr ltac:(cbn [length]; lia)) as [Hs Hlk].
    destruct (kept_app m (merged fuel [] r) k Hs) as [Hs' ->]; [by apply merged_above; [intros ? []%not_elem_of_nil|]|].
    split; [done|]. rewrite Hlk, lookup_cons. unfold merge_lookup. by case_bool_decide.
  - apply sorted_keys_cons in Hl as [Hl Hn]. destruct (IH l [] k Hl Hr ltac:(cbn [length]; lia)) as [Hs Hlk].
    destruct (kept_app n (merged fuel l []) k Hs) as [Hs' ->]; [by apply merged_above; [|intros ? []%not_elem_of_nil]|].
    split; [done|]. rewrite Hlk, lookup_cons. unfold merge_lookup. by case_bool_decide.
  - pose proof Hl as Hl0. pose proof Hr as Hr0.
    apply sorted_keys_cons in Hl as [Hl Hn]. apply sorted_keys_cons in Hr as [Hr Hm].
    destruct (bytes_compare (key n) (key m)) eqn:Ec.
    + apply bytes_compare_eq in Ec. destruct (IH l r k Hl Hr ltac:(lia)) as [Hs Hlk].
      destruct (kept_app m (merged fuel l r) k Hs) as [Hs' ->]; [apply merged_above; [rewrite <- Ec|]; done|].
      split; [done|]. rewrite Hlk, !lookup_cons, Ec. unfold merge_lookup. by case_bool_decide.
    + destruct (IH l (m :: r) k Hl Hr0 ltac:(cbn [length]; lia)) as [Hs Hlk].
      assert (Hr' : forall x, x ∈ m :: r -> before (key n) (key x)).
      { intros x [->|Hx]%elem_of_cons; [done|]. eapply compare_below; [|by apply Hm]. by rewrite Ec. }
      destruct (kept_app n (merged fuel l (m :: r)) k Hs) as [Hs' ->]; [by apply merged_above|].
      split; [done|]. rewrite Hlk, (lookup_cons n). unfold merge_lookup. case_bool_decide as E; [|done].
      by rewrite (lookup_above n (m :: r) k).
    + destruct (IH (n :: l) r k Hl0 Hr ltac:(cbn [length]; lia)) as [Hs Hlk].
      assert (Hl' : forall x, x ∈ n :: l -> before (key m) (key x)).
      { assert (Hmn : before (key m) (key n)) by (unfold before; by rewrite bytes_compare_antisym, Ec).
        intros x [->|Hx]%elem_of_cons; [done|]. eapply compare_below; [|by apply Hn]. by rewrite Hmn. }
      destruct (kept_app m (merged fuel (n :: l) r) k Hs) as [Hs' ->]; [by apply merged_above|].
      split; [done|]. rewrite Hlk, (lookup_cons m). unfold merge_lookup. case_bool_decide as E; [|done].
      by destruct (lookup_key key k r).
Qed.
End merge.

(** *** Without a transformer *)

Definition same_values (v : list Z) : list Z := v.

Lemma rewritten_same count n :
  key (rewritten count same_values n) = key n /\ value (rewritten count same_values n) = value n /\
  tombstone (rewritten count same_values n) = tombstone n.
Proof. unfold rewritten, same_values. cbn. by destruct (negb (tombstone n) && (0 <? blen (value n))). Qed.

Lemma rewritten_layout count n : layout count (rewritten count same_values n) = layout count n.
Proof.
  destruct (rewritten_same count n) as (Hk & Hv & Ht). unfold layout, replace_layout, padded, seg_node.
  rewrite Hk, Hv, Ht. cbn [sn_tombstone sn_value sn_primaryKey sn_secondaryIndexCount sn_secondaryKeys rewritten secondaryKeys padded].
  unfold padded. cbn [sn_secondaryIndexCount sn_secondaryKeys seg_node]. by rewrite resize_idemp.
Qed.

Lemma rewritten_ok count n : data_ok count n -> data_ok count (rewritten count same_values n).
Proof.
  intros Hn. destruct (rewritten_same count n) as (Hk & Hv & Ht). destruct (padded_ok _ Hn) as [Hp Hl].
  destruct Hn as [H1 H2 H3 H4 H5 H6].
  split; cbn [seg_node sn_value sn_primaryKey sn_secondaryIndexCount sn_secondaryKeys] in *; rewrite ?Hk, ?Hv; try done.
  cbn [rewritten secondaryKeys]. rewrite Hl. lia.
Qed.

Lemma merged_data_ok count cleanup fuel l r :
  Forall (data_ok count) l -> Forall (data_ok count) r -> Forall (data_ok count) (merged count cleanup same_values fuel l r).
Proof.
  rewrite !Forall_forall. intros Hl Hr x Hx. apply merged_elem in Hx as (n & [Hn|Hn] & ->); apply rewritten_ok; auto.
Qed.

Lemma kept_body count cleanup n :
  blen (seg_body count (kept count cleanup same_values n)) <= blen (layout count n).
Proof.
  unfold kept. destruct (cleanup && tombstone n); [apply blen_nonneg|].
  rewrite seg_body_cons, rewritten_layout. change (seg_body count []) with (@nil Z). rewrite app_nil_r. lia.
Qed.

Lemma merged_body count cleanup fuel : forall l r,
  blen (seg_body count (merged count cleanup same_values fuel l r)) <= blen (seg_body count l) + blen (seg_body count r).
Proof.
  induction fuel as [|fuel IH]; intros l r; cbn [merged].
  { pose proof (blen_nonneg (seg_body count l)). pose proof (blen_nonneg (seg_body count r)). change (blen (seg_body count [])) with 0. lia. }
  destruct l as [|n l], r as [|m r]; [done|..|destruct (bytes_compare (key n) (key m))];
    rewrite ?seg_body_app, ?seg_body_cons, ?blen_app; try pose proof (kept_body count cleanup n); try pose proof (kept_body count cleanup m).
  - specialize (IH [] r). change (blen (seg_body count [])) with 0 in *. lia.
  - specialize (IH l []). change (blen (seg_body count [])) with 0 in *. lia.
  - specialize (IH l r). pose proof (blen_nonneg (layout count n)). lia.
  - specialize (IH l (m :: r)). rewrite seg_body_cons, blen_app in IH. lia.
  - specialize (IH (n :: l) r). rewrite seg_body_cons, blen_app in IH. lia.
Qed.

(** ** The loop writes the merge *)

Lemma node_keys_app count l1 l2 : forall off,
  node_keys count off (l1 ++ l2) = node_keys count off l1 ++ node_keys count (off + blen (seg_body count l1)) l2.
Proof.
  induction l1 as [|n l1 IH]; intros off; cbn [app node_keys].
  - change (blen (seg_body count [])) with 0. by rewrite Z.add_0_r.
  - rewrite IH, seg_body_cons, blen_app, Z.add_assoc. done.
Qed.

Definition sizes_after (kis : list Key) (sizes : Z * list Z) : Z * list Z :=
  foldl (fun sizes ki => accumulateIndexSizes ki sizes.1 sizes.2) sizes kis.

(** What has been written *)
Definition output : Type := Z * list Z * list Key * (Z * list Z).

Definition push (count : Z) (o : output) (out : list bs_data) : output :=
  let '(offset, body, kis, sizes) := o in
  let keys := node_keys count offset out in
  (offset + blen (seg_body count out), body ++ seg_body count out, kis ++ keys, sizes_after keys sizes).

Lemma push_app count o l1 l2 : push count (push count o l1) l2 = push count o (l1 ++ l2).
Proof.
  destruct o as [[[offset body] kis] sizes]. unfold push.
  rewrite seg_body_app, node_keys_app, blen_app, !app_assoc, Z.add_assoc. unfold sizes_after. by rewrite foldl_app.
Qed.

Lemma push_nil count o : push count o [] = o.
Proof.
  destruct o as [[[offset body] kis] sizes]. unfold push. change (blen (seg_body count [])) with 0.
  change (seg_body count []) with (@nil Z). cbn [node_keys sizes_after foldl]. by rewrite !app_nil_r, Z.add_0_r.
Qed.

Section loop.
Context {F : Type} `{!Bloom F}.
Context (c : compactorReplace) (transform : list Z -> list Z) (s1 s2 : segment F) (flat1 flat2 : list bs_data).

Let count : Z := co_secondaryIndexCount c.
Let cleanup : bool := co_cleanupTombstones c.

Hypothesis Hs1 : seg_holds s1 count flat1.
Hypothesis Hs2 : seg_holds s2 count flat2.
Hypothesis Hctx : forall i, co_ctx_err c i = false.
Hypothesis Htr : match co_valueTransformer c with
                 | None => forall v, transform v = v
                 | Some g => forall v, g v = Ok (transform v)
                 end.

Definition outputs (st : merge_state (F := F)) : output :=
  (ms_offset st, ms_body st, ms_kis st, (ms_primaryIndexSize st, ms_secIndexSizes st)).

(** A cursor whose last call returned the head of [rest] *)
Definition pos_at (s : segment F) (flat : list bs_data) (cur : segmentCursorReplaceReusable F) (res : cursor_result)
    (rest : list bs_data) : Prop :=
  match rest with
  | [] => res = (None, Some (EGet NotFound))
  | n :: l2 => res = (Some (cursor_view count 0 n), view_error n) /\ key n <> [] /\ exists l1, cursor_at s count flat 0 cur l1 n l2
  end.

Lemma pos_next s flat cur res n rest :
  seg_holds s count flat -> Forall (fun m => key m <> []) rest -> pos_at s flat cur res (n :: rest) ->
  exists res' cur', cr_next cur = Ok (res', cur') /\ pos_at s flat cur' res' rest.
Proof.
  intros Hs Hne (_ & _ & l1 & Hc). pose proof (cr_next_spec s count flat Hs 0 cur l1 n rest Hc) as Hn.
  destruct rest as [|m rest]; [by eexists _, _|]. destruct Hn as (c' & -> & Hc'). apply Forall_cons in Hne as [Hm _].
  eexists _, _. split; [done|]. split; [done|]. split; [done|]. by exists (l1 ++ [n]).
Qed.

Lemma pos_key s flat cur res rest :
  pos_at s flat cur res rest -> key_of res cur = key <$> head rest.
Proof.
  destruct rest as [|n rest]; [by intros ->|]. intros (-> & Hne & l1 & Hc). unfold key_of, cr_key. cbn [fst head].
  by rewrite (ca_key _ _ _ _ _ _ _ _ Hc Hne).
Qed.

Lemma view_deleted n : is_deleted (view_error n) = tombstone n.
Proof. unfold view_error. by destruct (tombstone n). Qed.

Lemma write_branch_spec st n :
  Forall (data_ok count) (kept count cleanup transform n) ->
  exists st', write_branch c st (Some (cursor_view count 0 n), view_error n) = Ok st' /\
    ms_res1 st' = ms_res1 st /\ ms_c1 st' = ms_c1 st /\ ms_res2 st' = ms_res2 st /\ ms_c2 st' = ms_c2 st /\
    outputs st' = push count (outputs st) (kept count cleanup transform n).
Proof.
  unfold write_branch, kept. cbn [fst snd]. rewrite view_deleted. fold cleanup.
  destruct (cleanup && tombstone n); [intros _; exists st; by rewrite push_nil|].
  intros [Hok _]%Forall_cons. cbn [cursor_view Z.ltb Z.compare sn_primaryKey sn_value sn_secondaryKeys].
  set (r := rewritten count transform n) in *.
  assert (Hw : writeIndividualNode c (ms_offset st) (key n) (value n) (padded (seg_node count 0 n)) (tombstone n)
    = Ok (KeyIndexAndWriteTo (seg_node count (ms_offset st) r))).
  { unfold writeIndividualNode, r, rewritten, seg_node. cbn [key value secondaryKeys tombstone]. fold count.
    destruct (co_valueTransformer c) as [g|].
    - destruct (negb (tombstone n) && (0 <? blen (value n))); [rewrite Htr|]; done.
    - rewrite Htr. by destruct (negb (tombstone n) && (0 <? blen (value n))). }
  cbn [cursor_view Z.ltb Z.compare sn_primaryKey sn_value sn_secondaryKeys] in *. rewrite Hw. cbn [obind].
  rewrite (writer_layout _ (node_ok_offset count (ms_offset st) r Hok)). cbn [seg_node sn_offset sn_primaryKey sn_secondaryKeys k_ValueEnd].
  eexists. split; [reflexivity|]. split_and!; [done..|].
  unfold outputs, push. cbn [ms_offset ms_body ms_kis ms_primaryIndexSize ms_secIndexSizes node_keys sizes_after foldl].
  change (seg_body count [r]) with (layout count r ++ []). rewrite app_nil_r. done.
Qed.

Lemma next1_spec st n rest :
  Forall (fun m => key m <> []) rest -> pos_at s1 flat1 (ms_c1 st) (ms_res1 st) (n :: rest) ->
  exists st', next1 st = Ok st' /\ pos_at s1 flat1 (ms_c1 st') (ms_res1 st') rest /\
    ms_res2 st' = ms_res2 st /\ ms_c2 st' = ms_c2 st /\ outputs st' = outputs st.
Proof.
  intros Hne Hp. destruct (pos_next _ _ _ _ _ _ Hs1 Hne Hp) as (res & cur & Hn & Hp').
  unfold next1. rewrite Hn. cbn [obind]. by eexists.
Qed.

Lemma next2_spec st n rest :
  Forall (fun m => key m <> []) rest -> pos_at s2 flat2 (ms_c2 st) (ms_res2 st) (n :: rest) ->
  exists st', next2 st = Ok st' /\ pos_at s2 flat2 (ms_c2 st') (ms_res2 st') rest /\
    ms_res1 st' = ms_res1 st /\ ms_c1 st' = ms_c1 st /\ outputs st' = outputs st.
Proof.
  intros Hne Hp. destruct (pos_next _ _ _ _ _ _ Hs2 Hne Hp) as (res & cur & Hn & Hp').
  unfold next2. rewrite Hn. cbn [obind]. by eexists.
Qed.

(** The three kinds of turn *)
Definition at_lists (st : merge_state (F := F)) (l r : list bs_data) : Prop :=
  pos_at s1 flat1 (ms_c1 st) (ms_res1 st) l /\ pos_at s2 flat2 (ms_c2 st) (ms_res2 st) r.

Lemma turn_left st n l r :
  at_lists st (n :: l) r -> Forall (fun m => key m <> []) l -> Forall (data_ok count) (kept count cleanup transform n) ->
  exists st', (let! st := write_branch c st (ms_res1 st) in next1 st) = Ok st' /\ at_lists st' l r /\
    outputs st' = push count (outputs st) (kept count cleanup transform n).
Proof.
  intros [H1 H2] Hne Hok. destruct (write_branch_spec st n Hok) as (st1 & Hw & E1 & E2 & E3 & E4 & Ho).
  pose proof H1 as (Hres & _). rewrite Hres, Hw. cbn [obind].
  destruct (next1_spec st1 n l Hne) as (st2 & Hn & Hp & F1 & F2 & Fo); [by rewrite E1, E2|].
  exists st2. unfold at_lists. rewrite F1, F2, E3, E4, Fo, Ho. done.
Qed.

Lemma turn_right st m l r :
  at_lists st l (m :: r) -> Forall (fun m => key m <> []) r -> Forall (data_ok count) (kept count cleanup transform m) ->
  exists st', (let! st := write_branch c st (ms_res2 st) in next2 st) = Ok st' /\ at_lists st' l r /\
    outputs st' = push count (outputs st) (kept count cleanup transform m).
Proof.
  intros [H1 H2] Hne Hok. destruct (write_branch_spec st m Hok) as (st1 & Hw & E1 & E2 & E3 & E4 & Ho).
  pose proof H2 as (Hres & _). rewrite Hres, Hw. cbn [obind].
  destruct (next2_spec st1 m r Hne) as (st2 & Hn & Hp & F1 & F2 & Fo); [by rewrite E3, E4|].
  exists st2. unfold at_lists. rewrite F1, F2, E1, E2, Fo, Ho. done.
Qed.

Lemma turn_both st n l m r :
  at_lists st (n :: l) (m :: r) -> Forall (fun m => key m <> []) l -> Forall (fun m => key m <> []) r ->
  Forall (data_ok count) (kept count cleanup transform m) ->
  exists st', (let! st := write_branch c st (ms_res2 st) in let! st := next1 st in next2 st) = Ok st' /\ at_lists st' l r /\
    outputs st' = push count (outputs st) (kept count cleanup transform m).
Proof.
  intros [H1 H2] Hl Hr Hok. destruct (write_branch_spec st m Hok) as (st1 & Hw & E1 & E2 & E3 & E4 & Ho).
  pose proof H2 as (Hres & _). rewrite Hres, Hw. cbn [obind].
  destruct (next1_spec st1 n l Hl) as (st2 & Hn & Hp & F1 & F2 & Fo); [by rewrite E1, E2|]. rewrite Hn. cbn [obind].
  destruct (next2_spec st2 m r Hr) as (st3 & Hn' & Hp' & G1 & G2 & Go); [by rewrite F1, F2, E3, E4|].
  exists st3. unfold at_lists. rewrite G1, G2, Go, Fo, Ho. done.
Qed.

Lemma write_loop_spec fuel : forall i st l r,
  at_lists st l r -> Forall (fun m => key m <> []) l -> Forall (fun m => key m <> []) r ->
  (length l + length r <= fuel)%nat -> Forall (data_ok count) (merged count cleanup transform fuel l r) ->
  exists st', write_loop c (S fuel) i st = Ok st' /\
    outputs st' = push count (outputs st) (merged count cleanup transform fuel l r).
Proof.
  induction fuel as [|fuel IH]; intros i st l r Hat Hl Hr Hf Hok.
  { destruct l, r; cbn [length] in Hf; [|lia..]. cbn [write_loop merged]. rewrite Hctx, andb_false_r.
    rewrite (pos_key _ _ _ _ _ (proj1 Hat)), (pos_key _ _ _ _ _ (proj2 Hat)). exists st. by rewrite push_nil. }
  set (turn := S fuel) in *. cbn [write_loop]. unfold turn in *. clear turn. rewrite Hctx, andb_false_r.
  rewrite (pos_key _ _ _ _ _ (proj1 Hat)), (pos_key _ _ _ _ _ (proj2 Hat)). cbn [merged] in Hok |- *.
  destruct l as [|n l], r as [|m r]; cbn [head fmap option_fmap option_map deref] in *; cbn [length] in Hf.
  - exists st. by rewrite push_nil.
  - apply Forall_app in Hok as [Hk Hok]. apply Forall_cons in Hr as [Hm Hr].
    rewrite bool_decide_false by done. cbn [orb].
    destruct (turn_right st m [] r Hat Hr Hk) as (st' & Ht & Hat' & Ho). rewrite <- obind_assoc, Ht. cbn [obind].
    destruct (IH (S i) st' [] r Hat' Hl Hr ltac:(cbn [length]; lia) Hok) as (st'' & -> & Ho').
    exists st''. split; [done|]. by rewrite Ho', Ho, push_app.
  - apply Forall_app in Hok as [Hk Hok]. apply Forall_cons in Hl as [Hn Hl].
    rewrite bool_decide_false by done. rewrite orb_true_r.
    destruct (turn_left st n l [] Hat Hl Hk) as (st' & Ht & Hat' & Ho). rewrite <- obind_assoc, Ht. cbn [obind].
    destruct (IH (S i) st' l [] Hat' Hl Hr ltac:(cbn [length]; lia) Hok) as (st'' & -> & Ho').
    exists st''. split; [done|]. by rewrite Ho', Ho, push_app.
  - pose proof Hl as Hl0. pose proof Hr as Hr0. apply Forall_cons in Hl as [Hn Hl]. apply Forall_cons in Hr as [Hm Hr].
    destruct (bytes_compare (key n) (key m)) eqn:Ec; apply Forall_app in Hok as [Hk Hok].
    + apply bytes_compare_eq in Ec. rewrite bool_decide_true by done.
      destruct (turn_both st n l m r Hat Hl Hr Hk) as (st' & Ht & Hat' & Ho).
      assert (Ha : forall W, (let! st := write_branch c st (ms_res2 st) in let! st := next1 st in let! st := next2 st in W st)
        = (let! st := (let! st := write_branch c st (ms_res2 st) in let! st := next1 st in next2 st) in W st : outcome store_error (merge_state (F := F)))).
      { intros W. rewrite obind_assoc. destruct (write_branch c st (ms_res2 st)); [|done..]. cbn [obind]. by rewrite obind_assoc. }
      rewrite Ha, Ht. cbn [obind]. destruct (IH (S i) st' l r Hat' Hl Hr ltac:(lia) Hok) as (st'' & -> & Ho').
      exists st''. split; [done|]. by rewrite Ho', Ho, push_app.
    + rewrite bool_decide_false by (intros E; rewrite E, (proj2 (bytes_compare_eq _ _)) in Ec by done; done). cbn [orb].
      destruct (turn_left st n l (m :: r) Hat Hl Hk) as (st' & Ht & Hat' & Ho). rewrite <- obind_assoc, Ht. cbn [obind].
      destruct (IH (S i) st' l (m :: r) Hat' Hl Hr0 ltac:(cbn [length]; lia) Hok) as (st'' & -> & Ho').
      exists st''. split; [done|]. by rewrite Ho', Ho, push_app.
    + rewrite bool_decide_false by (intros E; rewrite E, (proj2 (bytes_compare_eq _ _)) in Ec by done; done). cbn [orb].
      destruct (turn_right st m (n :: l) r Hat Hr Hk) as (st' & Ht & Hat' & Ho). rewrite <- obind_assoc, Ht. cbn [obind].
      destruct (IH (S i) st' (n :: l) r Hat' Hl0 Hr ltac:(cbn [length]; lia) Hok) as (st'' & -> & Ho').
      exists st''. split; [done|]. by rewrite Ho', Ho, push_app.
Qed.

Lemma first_pos s flat :
  seg_holds s count flat -> Forall (fun m => key m <> []) flat ->
  exists res cur, cr_first (newReplaceCursorReusableWithPrefix s 0) = Ok (res, cur) /\ pos_at s flat cur res flat.
Proof.
  intros Hs Hne. pose proof (new_cursor_ready s count flat Hs 0 ltac:(lia)) as Hr. destruct flat as [|n l2].
  - eexists _, _. split; [exact (cr_first_nil s count [] Hs 0 _ Hr eq_refl)|]. done.
  - destruct (cr_first_cons s count (n :: l2) Hs 0 _ n l2 Hr eq_refl) as (c' & Hf & Hc'). apply Forall_cons in Hne as [Hn _].
    eexists _, _. split; [exact Hf|]. split; [done|]. split; [done|]. by exists [].
Qed.

(** The sizes kept along are those of the keys written. *)
Lemma add_sizes_lookup sizes : forall sks pos,
  add_sizes sizes sks !! pos
  = (fun size => size + match sks !! pos with Some sk => TREE_KEY_STORE_OVERHEAD + blen sk | None => 0 end) <$> sizes !! pos.
Proof.
  induction sizes as [|size sizes IH]; intros sks pos; [by destruct sks|].
  destruct sks as [|sk sks]; [|destruct pos; [done|apply IH]]. cbn [add_sizes]. rewrite lookup_nil.
  destruct ((size :: sizes) !! pos); cbn; [|done]. by rewrite Z.add_0_r.
Qed.

Lemma sizes_after_spec kis : forall p sizes,
  (sizes_after kis (p, sizes)).1 = p + computePrimaryIndexSize kis /\
  forall pos, (sizes_after kis (p, sizes)).2 !! pos = (fun size => size + computeSecondaryIndexSize kis pos) <$> sizes !! pos.
Proof.
  induction kis as [|ki kis IH]; intros p sizes; unfold sizes_after in *; cbn [foldl].
  - split; [cbn; lia|]. intros pos. cbn [snd]. destruct (sizes !! pos); cbn; [|done]. by rewrite Z.add_0_r.
  - unfold accumulateIndexSizes at 2. cbn [fst snd]. destruct (IH (p + (TREE_KEY_STORE_OVERHEAD + blen (k_Key ki))) (add_sizes sizes (k_SecondaryKeys ki))) as [H1 H2].
    unfold accumulateIndexSizes at 3. cbn [fst snd]. split.
    + rewrite H1, !primary_size. cbn [key_entries map index_size foldr fst]. fold (key_entries kis). unfold blen, index_size. cbn [foldr fst]. lia.
    + intros pos. rewrite H2, add_sizes_lookup, !secondary_size. destruct (sizes !! pos); cbn [fmap option_fmap option_map]; [|done].
      f_equal. unfold secondary_entries. cbn [omap list_omap]. unfold index_size.
      destruct (k_SecondaryKeys ki !! pos); cbn [foldr fst]; unfold blen; lia.
Qed.

Lemma writeKeys_spec fuel :
  let out := merged count cleanup transform fuel flat1 flat2 in
  Forall (fun m => key m <> []) flat1 -> Forall (fun m => key m <> []) flat2 ->
  (length flat1 + length flat2 <= fuel)%nat -> Forall (data_ok count) out ->
  exists st, writeKeys c (S fuel) (newReplaceCursorReusableWithPrefix s1 0) (newReplaceCursorReusableWithPrefix s2 0) = Ok st /\
    ms_body st = seg_body count out /\ ms_kis st = node_keys count HeaderSize out /\
    sizes_ok (MkIndexes (ms_kis st) count (Some (ms_primaryIndexSize st, ms_secIndexSizes st))).
Proof.
  intros out H1 H2 Hf Hok. unfold writeKeys.
  destruct (first_pos s1 flat1 Hs1 H1) as (res1 & cur1 & -> & Hp1). destruct (first_pos s2 flat2 Hs2 H2) as (res2 & cur2 & -> & Hp2).
  cbn [obind]. match goal with |- context [write_loop c (S fuel) 0 ?st0] => set (st := st0) end.
  destruct (write_loop_spec fuel 0 st flat1 flat2 (conj Hp1 Hp2) H1 H2 Hf Hok) as (st' & -> & Ho).
  exists st'. split; [done|]. fold out in Ho. unfold outputs, push, st in Ho.
  cbn [ms_offset ms_body ms_kis ms_primaryIndexSize ms_secIndexSizes app] in Ho. injection Ho as _ Hb Hk Hsz.
  split; [done|]. split; [done|]. unfold sizes_ok. cbn [ix_Precomputed ix_Keys]. rewrite Hk.
  destruct (sizes_after_spec (node_keys count HeaderSize out) 0 (repeat 0 (Z.to_nat count))) as [S1 S2].
  fold count in Hsz. rewrite <- Hsz in S1, S2. cbn [fst snd] in S1, S2. split; [lia|].
  intros pos size Hl. rewrite S2 in Hl.
  destruct (repeat 0 (Z.to_nat count) !! pos) as [z|] eqn:E; [|done]. injection Hl as <-.
  assert (z = 0) as ->; [|lia]. apply list_elem_of_lookup_2 in E. rewrite list_elem_of_In in E. by apply repeat_spec in E.
Qed.

Lemma compactor_do_spec fuel cfg :
  let out := merged count cleanup transform fuel flat1 flat2 in
  Forall (fun m => key m <> []) flat1 -> Forall (fun m => key m <> []) flat2 ->
  (length flat1 + length flat2 <= fuel)%nat -> flush_limits count out -> is_u16 (co_currentLevel c) ->
  sc_enableChecksumValidation cfg = co_enableChecksumValidation c ->
  exists file (s : segment F),
    compactor_do c (S fuel) (newReplaceCursorReusableWithPrefix s1 0) (newReplaceCursorReusableWithPrefix s2 0) = Ok file /\
    newSegment cfg file = Ok s /\ seg_holds s count out /\ s_level s = co_currentLevel c /\
    s_readFromMemory s = sc_readFromMemory cfg.
Proof.
  intros out H1 H2 Hf [Hok Hl Hc Hsz] Hlev Hcfg.
  assert (Hsort : sorted_keys key out) by (apply (merged_spec count cleanup transform fuel flat1 flat2 []); [apply Hs1|apply Hs2|done]).
  assert (Hseg : seg_ok count out) by (by split).
  destruct (writeKeys_spec fuel H1 H2 Hf Hok) as (st & Hw & Hb & Hk & Hs). fold out in Hb, Hk.
  unfold compactor_do. rewrite Hw. cbn [obind]. fold count. rewrite Hk in Hs. rewrite Hk, Hb.
  destruct (written_opens (F := F) (co_currentLevel c) count out _ cfg Hseg Hlev Hs) as (ix & s & Hix & Hopen & Hh & Hl' & Hm & _).
  rewrite Hix. cbn [obind]. rewrite header_WriteTo_bytes. cbn [obind]. eexists _, s. split; [reflexivity|].
  rewrite written_file_spec by apply blen_header. rewrite <- Hcfg.
  change (match last (node_keys count HeaderSize out) with Some ki => u64 (k_ValueEnd ki) | None => HeaderSize end)
    with (dataEndOffset (node_keys count HeaderSize out)).
  assert (Hend : dataEndOffset (node_keys count HeaderSize out) = HeaderSize + blen (seg_body count out)).
  { destruct out as [|n out']; [done|]. unfold file_size in Hsz. cbv zeta in Hsz.
    destruct (index_sizes_nonneg (node_keys count HeaderSize (n :: out')) (positions_of count)).
    assert (Hhs : HeaderSize = 16) by done. assert (ChecksumSize = 4) by done. apply node_keys_end; [lia|lia|done]. }
  rewrite Hend. split_and!; done.
Qed.
End loop.

(** C25: compacting two segments yields the merge of their entries.  For segments with
    keys that are not empty, a transformer that does not fail and a context that is
    not cancelled, the compactor succeeds, in memory or through the file, and the
    file opens to a segment of the new level in which every lookup finds the
    entry of the newer segment, else that of the older one, with live values
    transformed; where tombstones are cleaned up a deleted key is not found. *)
Theorem compaction_merges {F} `{!Bloom F} (c : compactorReplace) (transform : list Z -> list Z)
    (s1 s2 : segment F) (flat1 flat2 : list bs_data) (fuel : nat) (cfg : segmentConfig) :
  let count := co_secondaryIndexCount c in
  let out := merged count (co_cleanupTombstones c) transform fuel flat1 flat2 in
  seg_holds s1 count flat1 -> seg_holds s2 count flat2 -> (forall i, co_ctx_err c i = false) ->
  match co_valueTransformer c with None => forall v, transform v = v | Some g => forall v, g v = Ok (transform v) end ->
  Forall (fun m => key m <> []) flat1 -> Forall (fun m => key m <> []) flat2 ->
  (length flat1 + length flat2 <= fuel)%nat -> flush_limits count out -> is_u16 (co_currentLevel c) ->
  sc_enableChecksumValidation cfg = co_enableChecksumValidation c ->
  exists file (s : segment F),
    compactor_do c (S fuel) (newReplaceCursorReusableWithPrefix s1 0) (newReplaceCursorReusableWithPrefix s2 0) = Ok file /\
    newSegment cfg file = Ok s /\ seg_holds s count out /\ s_level s = co_currentLevel c /\
    forall k, Forall is_byte k ->
      seg_get s k = let! n := find_answer (merge_lookup count (co_cleanupTombstones c) transform flat1 flat2 k) in Ok (value n).
Proof.
  intros count out H1 H2 Hctx Htr Hn1 Hn2 Hf Hlim Hlev Hcfg.
  destruct (compactor_do_spec c transform s1 s2 flat1 flat2 H1 H2 Hctx Htr fuel cfg Hn1 Hn2 Hf Hlim Hlev Hcfg)
    as (file & s & Hdo & Hopen & Hs & Hl & _).
  exists file, s. split_and!; try done. intros k Hk. rewrite (seg_get_spec s count out Hs k Hk).
  destruct (merged_spec count (co_cleanupTombstones c) transform fuel flat1 flat2 k (sh_sorted _ _ _ H1) (sh_sorted _ _ _ H2) Hf) as [_ Hlk].
  by rewrite <- Hlk.
Qed.

(** A check of [seg_ok] by evaluation *)
Fixpoint sortedb (l : list bs_data) : bool :=
  match l with
  | [] => true
  | n :: l => forallb (fun m => match bytes_compare (key n) (key m) with Lt => true | _ => false end) l && sortedb l
  end.

Lemma sorted_check l : sortedb l = true -> sorted_keys key l.
Proof.
  induction l as [|n l IH]; cbn [sortedb]; [constructor|]. intros [H1 H2]%andb_true_iff.
  apply sorted_keys_cons. split; [auto|]. intros m Hm. rewrite forallb_forall in H1.
  specialize (H1 m (proj1 (list_elem_of_In _ _) Hm)). unfold before. by destruct (bytes_compare (key n) (key m)).
Qed.

Lemma seg_check count flat : limits_okb count flat && sortedb flat = true -> seg_ok count flat.
Proof. intros [H1 H2]%andb_true_iff. destruct (limits_check _ _ H1). split; try done. by apply sorted_check. Qed.

Definition wit_left : list bs_data :=
  [BsData [1] [10; 11] [[1]; [2]] false; BsData [2] [12] [[3]; [4]] false; BsData [5] [] [] true; BsData [7] [13] [[5]; []] false].
Definition wit_right : list bs_data :=
  [BsData [2] [20] [[6]; [7]] false; BsData [3] [21] [[8]; [9]] false; BsData [7] [] [[5]; []] true].
Definition wit_compactor (cleanup : bool) (size : Z) : compactorReplace :=
  Compactor 1 cleanup 2 size true (Some (fun v => Ok (v ++ [99]))) (fun _ => false).

Lemma compaction_merges_witness :
  exists (s1 s2 s : segment (list (list Z))) file,
    seg_get s1 [7] = Ok [13] /\ seg_get s2 [2] = Ok [20] /\
    compactor_do (wit_compactor true 1000) 8 (newReplaceCursorReusableWithPrefix s1 0) (newReplaceCursorReusableWithPrefix s2 0) = Ok file /\
    newSegment wit_cfg file = Ok s /\ s_level s = 1 /\
    seg_get s [1] = Ok [10; 11; 99] /\ seg_get s [2] = Ok [20; 99] /\ seg_get s [7] = Err (EGet NotFound).
Proof.
  destruct (written_opens (F := list (list Z)) 0 2 wit_left None wit_cfg (seg_check 2 wit_left eq_refl)) as (ix1 & s1 & _ & _ & H1 & _); [done|done|].
  destruct (written_opens (F := list (list Z)) 0 2 wit_right None wit_cfg (seg_check 2 wit_right eq_refl)) as (ix2 & s2 & _ & _ & H2 & _); [done|done|].
  destruct (compaction_merges (wit_compactor true 1000) (fun v => v ++ [99]) s1 s2 wit_left wit_right 7 wit_cfg H1 H2)
    as (file & s & Hdo & Hopen & _ & Hl & Hget).
  1,2: done.
  1,2: by repeat constructor.
  1: cbn; lia.
  1: by apply limits_check.
  1,2: done.
  exists s1, s2, s, file. rewrite (seg_get_spec s1 2 _ H1), (seg_get_spec s2 2 _ H2), !Hget by (by apply bytes_check).
  split_and!; done.
Defined.

(** ** An empty key, read by pread *)

(** The file of a list of entries, and the segment it opens to *)
Definition file_of (count : Z) (enable : bool) (flat : list bs_data) : outcome store_error (list Z) :=
  let (body, keys) := write_nodes count HeaderSize flat in
  let! ix := indexes_WriteTo (MkIndexes keys count None) in
  let! head := header_WriteTo (MkHeader 0 (ChooseHeaderVersion enable) count StrategyReplace (HeaderSize + blen body)) in
  Ok (segment_file enable head body ix).

Definition compacted (cfg : segmentConfig) (left right : list bs_data) : outcome store_error (segment (list (list Z))) :=
  let open flat := let! file := file_of 0 true flat in newSegment cfg file in
  let! l := open left in
  let! r := open right in
  let c := Compactor 1 false 0 1000 true None (fun _ => false) in
  let! file := compactor_do c 100 (newReplaceCursorReusableWithPrefix l 0) (newReplaceCursorReusableWithPrefix r 0) in
  newSegment cfg file.

(** The slice of an empty key read first by pread is nil, which the merge takes for the end
    of the cursor: the older segment is dropped as a whole.  From memory the same
    segments are merged. *)
Lemma empty_key_drops_segment :
  let left := [BsData [] [1] [] false; BsData [5] [2] [] false] in
  let right := [BsData [6] [3] [] false] in
  (let! s := compacted (SegConfig true false false false) left right in seg_get s [5]) = Err (EGet NotFound) /\
  (let! s := compacted (SegConfig true true false false) left right in seg_get s [5]) = Ok [2].
Proof. split; vm_compute; reflexivity. Qed.
