(* ===== verification/ReplaceBucket.v ===== *)
(** * A bucket of strategy "replace"

    [memtable.go], the lookups and the switching of memtables of [bucket.go], the
    lookups of [segment_group.go] and a compaction of a pair of segments
    ([segment_group_compaction.go], [segment_group_replacer.go]).  A bucket is an active memtable, a memtable being
    flushed, and segments from old to new; whatever the order of writes, switches,
    flushes and compactions, it answers as the finite map that the writes build. *)

From S2P Require Import Prelude ByteOps RBTree SearchTree SegmentIndex IndexLayout DiskTree MemtableTree ReplaceNode SegmentFile ReplaceSegment ReplaceCompactor.
Import Replace.

(** ** Memtable *)

(** [secondaryToPrimary] maps to nil or to a key.  The commit log is the list of
    nodes put into it. *)
Record Memtable : Type := MkMemtable {
  mt_key : binarySearchTree;
  mt_commitlog : list segmentReplaceNode;
  mt_size : Z;
  mt_netCountAdditions : Z;
  mt_secondaryIndices : Z;
  mt_secondaryToPrimary : list (gmap (list Z) (option (list Z)));
  mt_enableChecksumValidation : bool;
  mt_skipSecondaryKeyCheck : bool }.

Definition newMemtable (secondaryIndices : Z) (enableChecksumValidation skipSecondaryKeyCheck : bool) : Memtable :=
  MkMemtable bst_empty [] 0 0 secondaryIndices (replicate (Z.to_nat secondaryIndices) ∅)
    enableChecksumValidation skipSecondaryKeyCheck.

Definition memtable_get (m : Memtable) (k : list Z) : outcome store_error (list Z) := omap_err EGet (bst_get (mt_key m) k).
Definition memtable_exists (m : Memtable) (k : list Z) : outcome store_error unit := omap_err EGet (bst_exists (mt_key m) k).

Definition memtable_getBySecondary (m : Memtable) (pos : nat) (k : list Z) : outcome store_error (list Z * list Z) :=
  match mt_secondaryToPrimary m !! pos with
  | None => Panic
  | Some index =>
      match index !! k with
      | None | Some None => Err (EGet NotFound)
      | Some (Some primary) => let! v := omap_err EGet (bst_get (mt_key m) primary) in Ok (primary, v)
      end
  end.

(** [WithSecondaryKey]: a slice of keys, nil ones included *)
Definition WithSecondaryKey (opt : Z * option (list Z)) (keys : list (option (list Z))) :
    outcome store_error (list (option (list Z))) :=
  let (pos, k) := opt in
  if Z.of_nat (length keys) <? pos then Err ESecondaryPosition
  else if (pos <? 0) || (Z.of_nat (length keys) <=? pos) then Panic
  else Ok (<[Z.to_nat pos := k]> keys).

Fixpoint apply_opts (opts : list (Z * option (list Z))) (keys : list (option (list Z))) :
    outcome store_error (list (option (list Z))) :=
  match opts with
  | [] => Ok keys
  | opt :: opts => let! keys := WithSecondaryKey opt keys in apply_opts opts keys
  end.

(** A nil key and an empty one are stored alike. *)
Definition createSecondaryKeys (m : Memtable) (opts : list (Z * option (list Z))) : outcome store_error (list (list Z)) :=
  if 0 <? mt_secondaryIndices m then
    let! keys := apply_opts opts (replicate (Z.to_nat (mt_secondaryIndices m)) None) in
    if negb (mt_skipSecondaryKeyCheck m) && existsb (fun k => match k with None => true | Some _ => false end) keys
    then Err EMissingSecondaryKey
    else Ok (map (fun k => match k with Some k => k | None => [] end) keys)
  else Ok [].

Fixpoint set_each (maps : list (gmap (list Z) (option (list Z)))) (secs : list (list Z)) (v : option (list Z)) :
    outcome store_error (list (gmap (list Z) (option (list Z)))) :=
  match secs, maps with
  | [], _ => Ok maps
  | sec :: secs, m :: maps => let! rest := set_each maps secs v in Ok (<[sec := v]> m :: rest)
  | _ :: _, [] => Panic
  end.

Definition updateSecondaryToPrimary (maps : list (gmap (list Z) (option (list Z)))) (k : list Z)
    (secondaryKeys previousKeys : list (list Z)) : outcome store_error (list (gmap (list Z) (option (list Z)))) :=
  let! maps := set_each maps previousKeys None in set_each maps secondaryKeys (Some k).

Definition memtable_put (m : Memtable) (k v : list Z) (opts : list (Z * option (list Z))) : outcome store_error Memtable :=
  let! sks := createSecondaryKeys m opts in
  let node := ReplaceNode false v k (mt_secondaryIndices m) sks 0 in
  let! (t, (netAdditions, previousKeys, wasLive)) := bst_insert (mt_key m) k v sks in
  let! maps := updateSecondaryToPrimary (mt_secondaryToPrimary m) k sks previousKeys in
  Ok (MkMemtable t (mt_commitlog m ++ [node]) (u64 (mt_size m + u64 netAdditions))
        (if wasLive : bool then mt_netCountAdditions m else mt_netCountAdditions m + 1)
        (mt_secondaryIndices m) maps (mt_enableChecksumValidation m) (mt_skipSecondaryKeyCheck m)).

(** [setTombstone] with an empty value and [setTombstoneWith] with a dated one *)
Definition memtable_setTombstone (m : Memtable) (k v : list Z) (opts : list (Z * option (list Z))) : outcome store_error Memtable :=
  let! sks := createSecondaryKeys m opts in
  let node := ReplaceNode true v k (mt_secondaryIndices m) sks 0 in
  let! (t, (previousKeys, wasTombstoned)) := bst_setTombstone (mt_key m) k v sks in
  let! maps := updateSecondaryToPrimary (mt_secondaryToPrimary m) k sks previousKeys in
  Ok (MkMemtable t (mt_commitlog m ++ [node]) (u64 (mt_size m + (blen k + 1)))
        (if wasTombstoned : bool then mt_netCountAdditions m else mt_netCountAdditions m - 1)
        (mt_secondaryIndices m) maps (mt_enableChecksumValidation m) (mt_skipSecondaryKeyCheck m)).

Definition tombstonedValue (unixMilli : Z) : list Z := 1 :: le_split 8 (u64 unixMilli).

(** [flush]: the file, or none for an empty memtable *)
Definition memtable_flush (m : Memtable) : outcome store_error (option (list Z)) :=
  if mt_size m =? 0 then Ok None
  else let! file := flush_file (mt_secondaryIndices m) (mt_enableChecksumValidation m) (mt_key m) in Ok (Some file).

(** ** Lookups, newest first *)

(** The loop of every lookup: the first answer that is not NotFound *)
Fixpoint first_answer {A B} (read : B -> outcome store_error A) (sources : list B) (rest : outcome store_error A) :
    outcome store_error A :=
  match sources with
  | [] => rest
  | source :: sources =>
      match read source with
      | Err e => if negb (is_Deleted e) && is_NotFound e then first_answer read sources rest else Err e
      | r => r
      end
  end.

Section bucket.
Context {F : Type} `{!Bloom F}.

Definition getWithSegmentList (k : list Z) (segments : list (segment F)) : outcome store_error (list Z) :=
  first_answer (fun s => seg_get s k) (rev segments) (Err (EGet NotFound)).

Definition existsWithSegmentListUpTo (k : list Z) (segIdx : nat) (segments : list (segment F)) : outcome store_error unit :=
  first_answer (fun s => seg_exists s k) (rev (drop segIdx segments)) (Err (EGet NotFound)).

Record Bucket : Type := MkBucket {
  b_active : Memtable;
  b_flushing : option Memtable;
  b_disk : list (segment F);
  b_secondaryIndices : Z;
  b_keepTombstones : bool;
  b_immutable : bool;
  b_readOnlyStatus : bool;
  b_enableChecksumValidation : bool;
  b_skipSecondaryKeyCheck : bool;
  b_mmapContents : bool;
  b_useBloomFilter : bool }.

(** The configuration for opening a segment; [whole]: the file is small and memory
    suffices to read it *)
Definition b_segmentConfig (b : Bucket) (whole : bool) : segmentConfig :=
  SegConfig (b_enableChecksumValidation b) (b_mmapContents b) (b_useBloomFilter b) whole.

Definition with_state (b : Bucket) (active : Memtable) (flushing : option Memtable) (disk : list (segment F)) : Bucket :=
  MkBucket active flushing disk (b_secondaryIndices b) (b_keepTombstones b) (b_immutable b) (b_readOnlyStatus b)
    (b_enableChecksumValidation b) (b_skipSecondaryKeyCheck b) (b_mmapContents b) (b_useBloomFilter b).

Definition viewMemtables (b : Bucket) : list Memtable :=
  match b_flushing b with Some m => [b_active b; m] | None => [b_active b] end.

Definition bucket_get (b : Bucket) (k : list Z) : outcome store_error (list Z) :=
  first_answer (fun m => memtable_get m k) (viewMemtables b) (getWithSegmentList k (b_disk b)).

Definition existsWithConsistentViewUpTo (b : Bucket) (k : list Z) (segIdx : nat) : outcome store_error unit :=
  first_answer (fun m => memtable_exists m k) (viewMemtables b) (existsWithSegmentListUpTo k segIdx (b_disk b)).

Definition bucket_Get (b : Bucket) (k : list Z) : outcome store_error (option (list Z)) :=
  match bucket_get b k with
  | Ok v => Ok (Some v)
  | Err e => if IsDeletedOrNotFound e then Ok None else Err e
  | Panic => Panic
  | OutOfFuel => OutOfFuel
  end.

Definition bucket_Exists (b : Bucket) (k : list Z) : outcome store_error bool :=
  match existsWithConsistentViewUpTo b k 0 with
  | Ok _ => Ok true
  | Err e => if IsDeletedOrNotFound e then Ok false else Err e
  | Panic => Panic
  | OutOfFuel => OutOfFuel
  end.

(** ** Writes *)

Definition readOnlyErr (b : Bucket) : outcome store_error unit :=
  if b_immutable b then Err EImmutable else if b_readOnlyStatus b then Err EReadOnly else Ok tt.

Definition bucket_Put (b : Bucket) (k v : list Z) (opts : list (Z * option (list Z))) : outcome store_error Bucket :=
  let! _ := readOnlyErr b in
  let! active := memtable_put (b_active b) k v opts in
  Ok (with_state b active (b_flushing b) (b_disk b)).

Definition bucket_Delete (b : Bucket) (k : list Z) (opts : list (Z * option (list Z))) : outcome store_error Bucket :=
  let! _ := readOnlyErr b in
  let! active := memtable_setTombstone (b_active b) k [] opts in
  Ok (with_state b active (b_flushing b) (b_disk b)).

Definition bucket_DeleteWith (b : Bucket) (k : list Z) (unixMilli : Z) (opts : list (Z * option (list Z))) : outcome store_error Bucket :=
  if negb (b_keepTombstones b) then Err EKeepTombstones
  else
    let! _ := readOnlyErr b in
    let! active := memtable_setTombstone (b_active b) k (tombstonedValue unixMilli) opts in
    Ok (with_state b active (b_flushing b) (b_disk b)).

(** ** Flush *)

Definition createNewActiveMemtable (b : Bucket) : Memtable :=
  newMemtable (b_secondaryIndices b) (b_enableChecksumValidation b) (b_skipSecondaryKeyCheck b).

Definition atomicallySwitchMemtable (b : Bucket) : outcome store_error (bool * Bucket) :=
  match b_flushing b with
  | Some _ => Err EFlushingPresent
  | None =>
      if mt_size (b_active b) =? 0 then Ok (false, b)
      else Ok (true, with_state b (createNewActiveMemtable b) (Some (b_active b)) (b_disk b))
  end.

Definition atomicallyAddDiskSegmentAndRemoveFlushing (b : Bucket) (flushing : Memtable) (seg : segment F) : Bucket :=
  with_state b (b_active b) None (if mt_size flushing =? 0 then b_disk b else b_disk b ++ [seg]).

(** The path of an empty memtable's segment is empty and cannot be opened. *)
Definition flushFlushingLocked (b : Bucket) (whole : bool) : outcome store_error Bucket :=
  match b_flushing b with
  | None => Panic
  | Some m =>
      let! file := memtable_flush m in
      match file with
      | None => Err EOpenFile
      | Some file =>
          let! seg := newSegment (b_segmentConfig b whole) file in
          Ok (atomicallyAddDiskSegmentAndRemoveFlushing b m seg)
      end
  end.

Definition FlushAndSwitch (b : Bucket) (whole1 whole2 : bool) : outcome store_error Bucket :=
  let! _ := readOnlyErr b in
  let! b := match b_flushing b with Some _ => flushFlushingLocked b whole1 | None => Ok b end in
  let! (switched, b) := atomicallySwitchMemtable b in
  if negb switched then Ok b else flushFlushingLocked b whole2.

(** ** Compaction of the pair at [left], [left + 1], without an edit operation and not aborted *)

Definition switchInMemory (segments : list (segment F)) (oldLeftPos oldRightPos : nat) (newSeg : segment F) : list (segment F) :=
  let segments := <[oldRightPos := newSeg]> segments in
  if (oldLeftPos =? oldRightPos)%nat then segments else take oldLeftPos segments ++ drop (S oldLeftPos) segments.

Definition compact_pair (b : Bucket) (fuel : nat) (left : nat) (level : Z) (whole : bool) : outcome store_error Bucket :=
  match b_disk b !! left, b_disk b !! S left with
  | Some l, Some r =>
      let c := Compactor level (negb (b_keepTombstones b) && (left =? 0)%nat) (s_secondaryIndexCount l)
                 (blen (s_contents l) + blen (s_contents r)) (b_enableChecksumValidation b) None (fun _ => false) in
      let! file := compactor_do c fuel (newReplaceCursorReusableWithPrefix l 0) (newReplaceCursorReusableWithPrefix r 0) in
      let! seg := newSegment (b_segmentConfig b whole) file in
      Ok (with_state b (b_active b) (b_flushing b) (switchInMemory (b_disk b) left (S left) seg))
  | _, _ => Panic
  end.
End bucket.
Arguments Bucket : clear implicits.

(** * Refinement of a finite map *)

(** ** Layers *)

(** A write of a tombstone stores no value or a dated one. *)
Definition tombstone_ok (n : bs_data) : Prop :=
  tombstone n = true -> value n = [] \/ exists unixMilli, value n = tombstonedValue unixMilli.

Definition entry_fits (count : Z) (n : bs_data) : Prop := data_ok count n /\ key n <> [] /\ tombstone_ok n.

(** The newest entry *)
Definition newest (l : list (option bs_data)) : option bs_data := foldr (fun o acc => match o with Some n => Some n | None => acc end) None l.

Definition live (o : option bs_data) : option (list Z) :=
  match o with Some n => if tombstone n then None else Some (value n) | None => None end.

Lemma newest_app l1 l2 : newest (l1 ++ l2) = match newest l1 with Some n => Some n | None => newest l2 end.
Proof. induction l1 as [|[n|] l1 IH]; [done|done|]. exact IH. Qed.

(** What a lookup may answer for an entry *)
Definition answers_for {A} (f : bs_data -> A) (o : option bs_data) (r : outcome store_error A) : Prop :=
  match o with
  | None => r = Err (EGet NotFound)
  | Some n => if tombstone n then exists e, r = Err e /\ is_Deleted e = true else r = Ok (f n)
  end.

Lemma first_answer_spec {A B} (f : bs_data -> A) (read : B -> outcome store_error A) rest sources os :
  Forall2 (fun s o => answers_for f o (read s)) sources os ->
  match newest os with
  | Some n => answers_for f (Some n) (first_answer read sources rest)
  | None => first_answer read sources rest = rest
  end.
Proof.
  induction 1 as [|s o sources os Hs _ IH]; [done|]. cbn [newest foldr first_answer]. fold (newest os).
  destruct o as [n|]; cbn [answers_for] in Hs |- *; [|rewrite Hs; cbn; exact IH].
  destruct (tombstone n); [|by rewrite Hs]. destruct Hs as (e & -> & He). rewrite He. cbn [negb andb]. eauto.
Qed.

Lemma deleted_error n : tombstone n = true -> tombstone_ok n -> is_Deleted (EGet (errorFromTombstonedValue (value n))) = true.
Proof. intros Ht Hok. destruct (Hok Ht) as [->|[ms ->]]; reflexivity. Qed.

Lemma find_answers {A} (f : bs_data -> A) o :
  (forall n, o = Some n -> tombstone_ok n) -> answers_for f o (let! n := find_answer o in Ok (f n)).
Proof.
  intros Hok. destruct o as [n|]; [|done]. cbn [answers_for find_answer]. destruct (tombstone n) eqn:E; [|done].
  eexists. split; [done|]. apply deleted_error; auto.
Qed.

Lemma exists_answers o : (forall n, o = Some n -> tombstone_ok n) -> answers_for (fun _ => tt) o (exists_answer o).
Proof.
  intros Hok. destruct o as [n|]; [|done]. cbn [answers_for exists_answer]. destruct (tombstone n) eqn:E; [|done].
  eexists. split; [done|]. destruct (blen (value n) <=? 9); [apply deleted_error; auto|done].
Qed.

(** ** Memtables *)

Record mt_ok (count : Z) (enable : bool) (m : Memtable) (st : gmap (list Z) bs_data) : Prop := {
  mo_tree : refines key (mt_key m) st;
  mo_entries : forall k n, st !! k = Some n -> entry_fits count n;
  mo_count : mt_secondaryIndices m = count;
  mo_enable : mt_enableChecksumValidation m = enable }.

Lemma new_mt_ok count enable skip : mt_ok count enable (newMemtable count enable skip) ∅.
Proof. split; [apply empty_refines|intros k n; by rewrite lookup_empty|done..]. Qed.

Lemma memtable_reads count enable m st k :
  mt_ok count enable m st ->
  answers_for value (st !! k) (memtable_get m k) /\ answers_for (fun _ => tt) (st !! k) (memtable_exists m k).
Proof.
  intros [Hr He _ _]. assert (Ht : forall n, st !! k = Some n -> tombstone_ok n) by (intros n Hn; apply (He k n Hn)).
  unfold memtable_get, memtable_exists, bst_get, bst_exists. rewrite (getNode_refines _ _ _ Hr). unfold spec_getNode.
  pose proof (find_answers value (st !! k) Ht) as H1. pose proof (find_answers (fun _ => tt) (st !! k) Ht) as H2.
  destruct (st !! k) as [n|]; [|done]. cbn [find_answer answers_for] in *. by destruct (tombstone n).
Qed.

(** Writes that fit the format: keys and values are bytes, a key is not empty and
    below 4 GiB, a value below 2^48 bytes *)
Definition opts_ok (opts : list (Z * option (list Z))) : Prop := Forall (fun o => forall k, o.2 = Some k -> key_ok k) opts.

Record write_ok (k v : list Z) (opts : list (Z * option (list Z))) : Prop := {
  wo_key : key_ok k;
  wo_nonempty : k <> [];
  wo_value : Forall is_byte v;
  wo_value_len : blen v < 2 ^ 48;
  wo_opts : opts_ok opts }.

Lemma apply_opts_ok opts : forall keys keys',
  opts_ok opts -> Forall (fun o => forall k, o = Some k -> key_ok k) keys -> apply_opts opts keys = Ok keys' ->
  Forall (fun o => forall k, o = Some k -> key_ok k) keys' /\ length keys' = length keys.
Proof.
  induction opts as [|[pos k] opts IH]; intros keys keys' Ho Hk Ha; cbn [apply_opts] in Ha; [by injection Ha as <-|].
  apply Forall_cons in Ho as [Hp Ho]. unfold WithSecondaryKey in Ha.
  destruct (Z.of_nat (length keys) <? pos); [done|]. destruct ((pos <? 0) || (Z.of_nat (length keys) <=? pos)); [done|].
  cbn [obind] in Ha. destruct (IH _ _ Ho (Forall_insert _ _ _ _ Hk Hp) Ha) as [H1 H2]. by rewrite length_insert in H2.
Qed.

Lemma createSecondaryKeys_ok m opts sks :
  opts_ok opts -> 0 <= mt_secondaryIndices m -> createSecondaryKeys m opts = Ok sks ->
  Forall key_ok sks /\ Z.of_nat (length sks) = mt_secondaryIndices m.
Proof.
  intros Ho Hc. unfold createSecondaryKeys. destruct (Z.ltb_spec 0 (mt_secondaryIndices m)) as [Hlt|Hge].
  2:{ intros [= <-]. split; [constructor|cbn; lia]. }
  destruct (apply_opts _ _) as [keys| | |] eqn:Ha; [|done..]. cbn [obind].
  assert (Hnone : Forall (fun o : option (list Z) => forall k, o = Some k -> key_ok k)
    (replicate (Z.to_nat (mt_secondaryIndices m)) None)) by (by apply Forall_replicate).
  destruct (apply_opts_ok _ _ _ Ho Hnone Ha) as [Hk Hl]. rewrite length_replicate in Hl.
  destruct (negb _ && _); [done|]. intros [= <-]. rewrite length_map. split; [|lia].
  apply List.Forall_map. eapply Forall_impl; [exact Hk|]. intros [k|] Hok; [by apply Hok|split; [constructor|done]].
Qed.

Lemma written_fits count m k v opts sks t :
  write_ok k v opts -> createSecondaryKeys m opts = Ok sks -> mt_secondaryIndices m = count -> 0 <= count < 2 ^ 16 ->
  tombstone_ok (BsData k v sks t) -> entry_fits count (BsData k v sks t).
Proof.
  intros [H1 H2 H3 H4 H5] Hs Hc Hb Ht. destruct (createSecondaryKeys_ok m opts sks H5) as [Hk Hl]; [lia|done|].
  split; [|split; [done|done]]. split; cbn [seg_node sn_value sn_primaryKey sn_secondaryIndexCount sn_secondaryKeys key value secondaryKeys];
    (done || lia).
Qed.

Lemma memtable_put_ok count enable m st k v opts m' :
  mt_ok count enable m st -> 0 <= count < 2 ^ 16 -> write_ok k v opts -> memtable_put m k v opts = Ok m' ->
  exists sks, createSecondaryKeys m opts = Ok sks /\ mt_commitlog m' = mt_commitlog m ++ [ReplaceNode false v k count sks 0] /\
    mt_ok count enable m' (<[k := BsData k v sks false]> st).
Proof.
  intros [Hr He Hc Hen] Hb Hw Hp. unfold memtable_put in Hp.
  destruct (createSecondaryKeys m opts) as [sks| | |] eqn:Hs; [|done..]. cbn [obind] in Hp.
  destruct (run_op_refines (E := store_error) _ _ (Insert k v sks) Hr) as (t' & Hi & Hr'). cbn [run_op spec_op] in Hi, Hr'.
  rewrite Hi in Hp. cbn [obind] in Hp. destruct (spec_result st (Insert k v sks)) as [[net prev] wasLive].
  destruct (updateSecondaryToPrimary _ _ _ _) as [maps| | |]; [|done..]. injection Hp as <-. exists sks.
  split; [done|]. split; [by rewrite Hc|]. split; cbn [mt_key mt_secondaryIndices mt_enableChecksumValidation]; try done.
  intros k' n [[<- <-]|[_ Hn]]%lookup_insert_Some; [|by eapply He].
  eapply written_fits; [done..|]. intros [=].
Qed.

Lemma memtable_setTombstone_ok count enable m st k v opts m' :
  mt_ok count enable m st -> 0 <= count < 2 ^ 16 -> write_ok k v opts -> (v = [] \/ exists ms, v = tombstonedValue ms) ->
  memtable_setTombstone m k v opts = Ok m' ->
  exists sks, createSecondaryKeys m opts = Ok sks /\ mt_commitlog m' = mt_commitlog m ++ [ReplaceNode true v k count sks 0] /\
    mt_ok count enable m' (<[k := BsData k v sks true]> st).
Proof.
  intros [Hr He Hc Hen] Hb Hw Hv Hp. unfold memtable_setTombstone in Hp.
  destruct (createSecondaryKeys m opts) as [sks| | |] eqn:Hs; [|done..]. cbn [obind] in Hp.
  destruct (run_op_refines (E := store_error) _ _ (SetTombstone k v sks) Hr) as (t' & Hi & Hr'). cbn [run_op spec_op] in Hi, Hr'.
  destruct (bst_setTombstone (mt_key m) k v sks) as [[t'' [prev was]]| | |]; [|done..]. cbn [obind] in Hi, Hp. injection Hi as -> _.
  destruct (updateSecondaryToPrimary _ _ _ _) as [maps| | |]; [|done..]. injection Hp as <-. exists sks.
  split; [done|]. split; [by rewrite Hc|]. split; cbn [mt_key mt_secondaryIndices mt_enableChecksumValidation]; try done.
  intros k' n [[<- <-]|[_ Hn]]%lookup_insert_Some; [|by eapply He].
  eapply written_fits; [done..|]. by intros _.
Qed.

(** ** The bucket *)

Section refinement.
Context {F : Type} `{!Bloom F}.

Definition segs_ok (count : Z) (disk : list (segment F)) (flats : list (list bs_data)) : Prop :=
  Forall2 (fun s flat => seg_holds s count flat /\ Forall (entry_fits count) flat) disk flats.

Record bucket_inv (b : Bucket F) (sa : gmap (list Z) bs_data) (sf : option (gmap (list Z) bs_data)) (flats : list (list bs_data)) : Prop := {
  bi_count : 0 <= b_secondaryIndices b < 2 ^ 16;
  bi_active : mt_ok (b_secondaryIndices b) (b_enableChecksumValidation b) (b_active b) sa;
  bi_flushing : match b_flushing b, sf with
                | Some m, Some st => mt_ok (b_secondaryIndices b) (b_enableChecksumValidation b) m st /\ mt_size m <> 0
                | None, None => True
                | _, _ => False
                end;
  bi_disk : segs_ok (b_secondaryIndices b) (b_disk b) flats }.

(** The entries of a key, newest first *)
Definition layers (sa : gmap (list Z) bs_data) (sf : option (gmap (list Z) bs_data)) (flats : list (list bs_data)) (k : list Z) :
    list (option bs_data) :=
  (sa !! k :: match sf with Some st => [st !! k] | None => [] end) ++ map (lookup_key key k) (rev flats).

(** The bucket holds the map [m]. *)
Definition holds_map (b : Bucket F) (m : gmap (list Z) (list Z)) : Prop :=
  exists sa sf flats, bucket_inv b sa sf flats /\ forall k, m !! k = live (newest (layers sa sf flats k)).

Lemma segment_reads count s flat k :
  seg_holds s count flat -> Forall (entry_fits count) flat -> Forall is_byte k ->
  answers_for value (lookup_key key k flat) (seg_get s k) /\ answers_for (fun _ => tt) (lookup_key key k flat) (seg_exists s k).
Proof.
  intros Hs He Hk. rewrite (seg_get_spec s count flat Hs k Hk), (seg_exists_spec s count flat Hs k Hk).
  assert (Ht : forall n, lookup_key key k flat = Some n -> tombstone_ok n).
  { intros n [Hn _]%lookup_key_Some. rewrite Forall_forall in He. by destruct (He n Hn) as (_ & _ & ?). }
  split; [by apply find_answers|by apply exists_answers].
Qed.

Lemma Forall2_rev {A B} (P : A -> B -> Prop) l1 l2 : Forall2 P l1 l2 -> Forall2 P (rev l1) (rev l2).
Proof. induction 1 as [|a b l1 l2 Hab _ IH]; cbn [rev]; [constructor|]. by apply Forall2_app; [|repeat constructor]. Qed.

Lemma newest_answers {A} (f : bs_data -> A) os1 os2 r1 r2 :
  match newest os1 with Some n => answers_for f (Some n) r1 | None => r1 = r2 end ->
  match newest os2 with Some n => answers_for f (Some n) r2 | None => r2 = Err (EGet NotFound) end ->
  answers_for f (newest (os1 ++ os2)) r1.
Proof. intros H1 H2. rewrite newest_app. destruct (newest os1); [done|]. rewrite H1. by destruct (newest os2). Qed.

Lemma bucket_reads b sa sf flats k :
  bucket_inv b sa sf flats -> Forall is_byte k ->
  answers_for value (newest (layers sa sf flats k)) (bucket_get b k) /\
  answers_for (fun _ => tt) (newest (layers sa sf flats k)) (existsWithConsistentViewUpTo b k 0).
Proof.
  intros [Hc Ha Hf Hd] Hk. unfold layers.
  assert (Hm : Forall2 (fun m o => answers_for value o (memtable_get m k) /\ answers_for (fun _ => tt) o (memtable_exists m k))
    (viewMemtables b) (sa !! k :: match sf with Some st => [st !! k] | None => [] end)).
  { unfold viewMemtables. destruct (b_flushing b), sf; try done; [destruct Hf as [Hf _]|]; repeat constructor; by eapply memtable_reads. }
  assert (Hs : Forall2 (fun s o => answers_for value o (seg_get s k) /\ answers_for (fun _ => tt) o (seg_exists s k))
    (rev (b_disk b)) (map (lookup_key key k) (rev flats))).
  { apply Forall2_fmap_r, Forall2_rev. eapply Forall2_impl; [exact Hd|]. intros s flat [H1 H2]. by eapply segment_reads. }
  split; eapply newest_answers.
  - apply first_answer_spec. eapply Forall2_impl; [exact Hm|]. by intros ? ? [? _].
  - apply first_answer_spec. eapply Forall2_impl; [exact Hs|]. by intros ? ? [? _].
  - apply first_answer_spec. eapply Forall2_impl; [exact Hm|]. by intros ? ? [_ ?].
  - apply first_answer_spec. eapply Forall2_impl; [exact Hs|]. by intros ? ? [_ ?].
Qed.

Lemma holds_map_reads b m k :
  holds_map b m -> Forall is_byte k ->
  bucket_Get b k = Ok (m !! k) /\ bucket_Exists b k = Ok (bool_decide (is_Some (m !! k))).
Proof.
  intros (sa & sf & flats & Hi & Hm) Hk. destruct (bucket_reads b sa sf flats k Hi Hk) as [H1 H2]. rewrite Hm.
  unfold bucket_Get, bucket_Exists. destruct (newest (layers sa sf flats k)) as [n|]; cbn [answers_for live] in *.
  - destruct (tombstone n); [|rewrite H1, H2; split; [done|]; by rewrite bool_decide_true].
    destruct H1 as (e1 & -> & E1), H2 as (e2 & -> & E2). unfold IsDeletedOrNotFound. rewrite E1, E2. cbn [orb].
    split; [done|]. by rewrite bool_decide_false by (by intros [? ?]).
  - rewrite H1, H2. by split.
Qed.

(** ** Every step keeps the map *)

(** A write to the active memtable: the node handed to its log and the new entry *)
Definition written (b : Bucket F) (sa : gmap (list Z) bs_data) (sf : option (gmap (list Z) bs_data)) (flats : list (list bs_data))
    (t : bool) (k v : list Z) (opts : list (Z * option (list Z))) (active : Memtable) : Prop :=
  exists sks, createSecondaryKeys (b_active b) opts = Ok sks /\
    mt_commitlog active = mt_commitlog (b_active b) ++ [ReplaceNode t v k (b_secondaryIndices b) sks 0] /\
    bucket_inv (with_state b active (b_flushing b) (b_disk b)) (<[k := BsData k v sks t]> sa) sf flats.

Lemma put_inv b sa sf flats k v opts active :
  bucket_inv b sa sf flats -> write_ok k v opts -> memtable_put (b_active b) k v opts = Ok active -> written b sa sf flats false k v opts active.
Proof.
  intros [Hc Ha Hf Hd] Hw E. destruct (memtable_put_ok _ _ _ _ _ _ _ _ Ha Hc Hw E) as (sks & Hs & Hl & Ha'). exists sks. by split_and!.
Qed.

Lemma tombstone_inv b sa sf flats k v opts active :
  bucket_inv b sa sf flats -> write_ok k v opts -> (v = [] \/ exists ms, v = tombstonedValue ms) ->
  memtable_setTombstone (b_active b) k v opts = Ok active -> written b sa sf flats true k v opts active.
Proof.
  intros [Hc Ha Hf Hd] Hw Hv E.
  destruct (memtable_setTombstone_ok _ _ _ _ _ _ _ _ Ha Hc Hw Hv E) as (sks & Hs & Hl & Ha'). exists sks. by split_and!.
Qed.

Lemma put_holds b m k v opts active :
  holds_map b m -> write_ok k v opts -> memtable_put (b_active b) k v opts = Ok active ->
  holds_map (with_state b active (b_flushing b) (b_disk b)) (<[k := v]> m).
Proof.
  intros (sa & sf & flats & Hi & Hm) Hw Hp. destruct (put_inv _ _ _ _ _ _ _ _ Hi Hw Hp) as (sks & _ & _ & Hi').
  exists (<[k := BsData k v sks false]> sa), sf, flats. split; [done|]. intros k'. unfold layers. destruct (decide (k = k')) as [<-|Hne].
  - rewrite !lookup_insert_eq. done.
  - rewrite !lookup_insert_ne by done. apply Hm.
Qed.

Lemma tombstone_holds b m k v opts active :
  holds_map b m -> write_ok k v opts -> (v = [] \/ exists ms, v = tombstonedValue ms) ->
  memtable_setTombstone (b_active b) k v opts = Ok active ->
  holds_map (with_state b active (b_flushing b) (b_disk b)) (delete k m).
Proof.
  intros (sa & sf & flats & Hi & Hm) Hw Hv E. destruct (tombstone_inv _ _ _ _ _ _ _ _ Hi Hw Hv E) as (sks & _ & _ & Hi').
  exists (<[k := BsData k v sks true]> sa), sf, flats. split; [done|]. intros k'. unfold layers. destruct (decide (k = k')) as [<-|Hne].
  - rewrite lookup_delete_eq, lookup_insert_eq. done.
  - rewrite lookup_delete_ne, lookup_insert_ne by done. apply Hm.
Qed.

Lemma switch_inv b sa sf flats :
  bucket_inv b sa sf flats -> b_flushing b = None -> mt_size (b_active b) <> 0 ->
  bucket_inv (with_state b (createNewActiveMemtable b) (Some (b_active b)) (b_disk b)) ∅ (Some sa) flats.
Proof.
  intros [Hc Ha Hf Hd] Ef Hsz. split; cbn [with_state b_secondaryIndices b_enableChecksumValidation b_active b_flushing b_disk]; try done.
  apply new_mt_ok.
Qed.

Lemma switch_holds b m switched b' :
  holds_map b m -> atomicallySwitchMemtable b = Ok (switched, b') -> holds_map b' m.
Proof.
  intros (sa & sf & flats & Hi & Hm) Hsw. unfold atomicallySwitchMemtable in Hsw.
  destruct (b_flushing b) as [fl|] eqn:Ef; [done|]. destruct sf as [st|]; [by destruct Hi as [_ _ Hf _]; rewrite Ef in Hf|].
  destruct (Z.eqb_spec (mt_size (b_active b)) 0); injection Hsw as _ <-; [by exists sa, None, flats|].
  exists ∅, (Some sa), flats. split; [by eapply switch_inv|]. intros k. rewrite Hm. unfold layers. cbn [app newest foldr]. by rewrite lookup_empty.
Qed.

(** A memtable whose entries take less than 16 GiB *)
Definition memtable_small (m : Memtable) : Prop :=
  forall flat, bst_flattenInOrder (E := get_error) (mt_key m) = Ok flat -> blen (seg_body (mt_secondaryIndices m) flat.*1) < 2 ^ 34.

(** The segment of a file, however the bucket opens it *)
Definition opens (b : Bucket F) (file : list Z) (flat : list bs_data) : Prop :=
  forall whole, exists s, newSegment (b_segmentConfig b whole) file = Ok s /\ seg_holds s (b_secondaryIndices b) flat.

Lemma flush_memtable b m st :
  mt_ok (b_secondaryIndices b) (b_enableChecksumValidation b) m st -> 0 <= b_secondaryIndices b < 2 ^ 16 -> memtable_small m -> mt_size m <> 0 ->
  exists file flat, memtable_flush m = Ok (Some file) /\ opens b file flat /\
    Forall (entry_fits (b_secondaryIndices b)) flat /\ forall k, lookup_key key k flat = st !! k.
Proof.
  set (count := b_secondaryIndices b). intros [Hr He Hc Hen] Hb Hsm Hsz. destruct (flatten_store _ _ Hr) as (flat & Hfl & Hsort & Hlk).
  assert (Hfits : Forall (entry_fits count) flat.*1).
  { apply Forall_forall. intros n Hn. apply (He (key n)). rewrite <- Hlk. by apply lookup_key_elem. }
  assert (Hd : Forall (data_ok count) flat.*1) by (eapply Forall_impl; [exact Hfits|]; by intros n [? _]).
  specialize (Hsm flat Hfl). rewrite Hc in Hsm. destruct (small_limits count flat.*1 Hd Hb Hsm) as [_ Hl _ Hs].
  assert (Hfile : forall whole, exists file (s : segment F), flush_file count (b_enableChecksumValidation b) (mt_key m) = Ok file /\
    newSegment (b_segmentConfig b whole) file = Ok s /\ seg_holds s count flat.*1).
  { intros whole. destruct (flush_file_spec (F := F) count (b_segmentConfig b whole) (mt_key m) flat Hfl)
      as (file & s & Hfile & Hopen & Hh & _); [by split|]. by exists file, s. }
  destruct (Hfile true) as (file & _ & Hf & _). exists file, flat.*1. unfold memtable_flush. rewrite (proj2 (Z.eqb_neq _ _)) by done.
  rewrite Hc, Hen. fold count. rewrite Hf. split; [done|]. split; [|done]. intros whole.
  destruct (Hfile whole) as (file' & s & Hf' & Hopen). rewrite Hf in Hf'. injection Hf' as <-. by exists s.
Qed.

Lemma flush_inv b sa st flats whole fl :
  bucket_inv b sa (Some st) flats -> b_flushing b = Some fl -> memtable_small fl ->
  exists file flat s, memtable_flush fl = Ok (Some file) /\ newSegment (b_segmentConfig b whole) file = Ok s /\ opens b file flat /\
    let b' := with_state b (b_active b) None (b_disk b ++ [s]) in
    flushFlushingLocked b whole = Ok b' /\ bucket_inv b' sa None (flats ++ [flat]) /\ forall k, lookup_key key k flat = st !! k.
Proof.
  intros [Hc Ha Hf Hd] Ef Hsm. rewrite Ef in Hf. destruct Hf as [Hf Hsz].
  destruct (flush_memtable b _ _ Hf Hc Hsm Hsz) as (file & flat & Hfl & Hopens & Hfits & Hlk).
  destruct (Hopens whole) as (s & Hopen & Hh). exists file, flat, s. cbv zeta. split_and!; try done.
  - unfold flushFlushingLocked. rewrite Ef, Hfl. cbn [obind]. rewrite Hopen. cbn [obind].
    unfold atomicallyAddDiskSegmentAndRemoveFlushing. by rewrite (proj2 (Z.eqb_neq _ _)).
  - split; cbn [with_state b_secondaryIndices b_enableChecksumValidation b_active b_flushing b_disk]; try done.
    apply Forall2_app; [done|]. constructor; [done|constructor].
Qed.

Lemma flush_layers sa st flats flat k :
  lookup_key key k flat = st !! k -> newest (layers sa None (flats ++ [flat]) k) = newest (layers sa (Some st) flats k).
Proof. intros Hlk. unfold layers. rewrite rev_app_distr. cbn [rev app map newest foldr]. rewrite Hlk. by destruct (sa !! k), (st !! k). Qed.

Lemma flush_holds b m whole fl :
  holds_map b m -> b_flushing b = Some fl -> memtable_small fl ->
  exists b', flushFlushingLocked b whole = Ok b' /\ holds_map b' m /\ b_flushing b' = None /\
    length (b_disk b') = S (length (b_disk b)) /\ b_active b' = b_active b.
Proof.
  intros (sa & sf & flats & Hi & Hm) Ef Hsm. destruct sf as [st|]; [|by destruct Hi as [_ _ Hf _]; rewrite Ef in Hf].
  destruct (flush_inv b sa st flats whole fl Hi Ef Hsm) as (file & flat & s & _ & _ & _ & Hfl & Hi' & Hlk).
  eexists. split; [exact Hfl|]. split; [|split; [done|split; [cbn [with_state b_disk]; rewrite length_app; cbn; lia|done]]].
  exists sa, None, (flats ++ [flat]). split; [done|]. intros k. by rewrite Hm, (flush_layers sa st).
Qed.

Lemma switch_pair (d1 d2 : list (segment F)) l r seg :
  switchInMemory (d1 ++ l :: r :: d2) (length d1) (S (length d1)) seg = d1 ++ seg :: d2.
Proof.
  unfold switchInMemory. rewrite (proj2 (Nat.eqb_neq _ _)) by lia.
  assert (E : <[S (length d1) := seg]> (d1 ++ l :: r :: d2) = d1 ++ l :: seg :: d2).
  { replace (S (length d1)) with (length d1 + 1)%nat by lia. by rewrite insert_app_r. }
  rewrite E, take_app_length. f_equal. replace (d1 ++ l :: seg :: d2) with ((d1 ++ [l]) ++ seg :: d2) by (by rewrite <- app_assoc).
  rewrite drop_app_length' by (rewrite length_app; cbn; lia). done.
Qed.

Lemma contents_bound s count flat :
  seg_holds s count flat -> blen (seg_body count flat) <= blen (s_contents s) /\ Z.of_nat (length flat) <= blen (s_contents s).
Proof.
  intros Hs. destruct (sh_contents _ _ _ Hs) as (pre & post & Hpre & ->). rewrite !blen_app.
  pose proof (blen_nonneg post). pose proof (blen_nonneg (seg_body count flat)). pose proof (length_bound _ _ (sh_data _ _ _ Hs)).
  change HeaderSize with 16 in Hpre. lia.
Qed.

Lemma kept_live count cleanup n :
  match head (kept count cleanup same_values n) with
  | Some n' => live (Some n') = live (Some n)
  | None => cleanup = true /\ live (Some n) = None
  end.
Proof.
  unfold kept. destruct (rewritten_same count n) as (_ & Hv & Ht).
  destruct cleanup, (tombstone n) eqn:E; cbn [andb head live]; rewrite ?Ht, ?E, ?Hv; done.
Qed.

Lemma live_app p q q' : live (newest q) = live (newest q') -> live (newest (p ++ q)) = live (newest (p ++ q')).
Proof. intros H. rewrite !newest_app. by destruct (newest p). Qed.

(** The merged segment answers as the pair did, above the older segments [q]. *)
Lemma merged_layers count cleanup x y p q k :
  (cleanup = true -> q = []) ->
  live (newest (p ++ merge_lookup count cleanup same_values x y k :: q))
  = live (newest (p ++ lookup_key key k y :: lookup_key key k x :: q)).
Proof.
  intros Hq. rewrite !newest_app. destruct (newest p); [done|]. unfold merge_lookup. cbn [newest foldr].
  destruct (lookup_key key k y) as [n|].
  - pose proof (kept_live count cleanup n) as Hk. destruct (head (kept count cleanup same_values n)); [done|].
    destruct Hk as [Hc Hl]. rewrite (Hq Hc), Hl. done.
  - destruct (lookup_key key k x) as [n|]; [|done].
    pose proof (kept_live count cleanup n) as Hk. destruct (head (kept count cleanup same_values n)); [done|].
    destruct Hk as [Hc Hl]. rewrite (Hq Hc), Hl. done.
Qed.

Lemma kept_fits count cleanup n x :
  entry_fits count n -> x ∈ kept count cleanup same_values n -> entry_fits count x.
Proof.
  intros (Hd & Hk & Ht) Hx. apply kept_elem in Hx as ->. destruct (rewritten_same count n) as (E1 & E2 & E3).
  split; [by apply rewritten_ok|]. rewrite E1. split; [done|]. unfold tombstone_ok. by rewrite E2, E3.
Qed.

Lemma merged_fits count cleanup fuel x y :
  Forall (entry_fits count) x -> Forall (entry_fits count) y -> Forall (entry_fits count) (merged count cleanup same_values fuel x y).
Proof.
  rewrite !Forall_forall. intros Hx Hy z Hz. apply merged_elem in Hz as (n & Hn & ->).
  apply (kept_fits count false n); [destruct Hn; auto|]. apply list_elem_of_singleton. done.
Qed.

(** Compacting any pair of neighbours *)
Lemma compact_inv b sa sf flats fuel (left : nat) level whole l r :
  bucket_inv b sa sf flats -> b_disk b !! left = Some l -> b_disk b !! S left = Some r -> is_u16 level ->
  blen (s_contents l) + blen (s_contents r) < Z.min (2 ^ 34) (Z.of_nat fuel) ->
  exists d1 d2 f1 f2 x y flat file s,
    b_disk b = d1 ++ l :: r :: d2 /\ length d1 = left /\ flats = f1 ++ x :: y :: f2 /\ length f1 = left /\
    newSegment (b_segmentConfig b whole) file = Ok s /\ s_level s = level /\ opens b file flat /\
    let b' := with_state b (b_active b) (b_flushing b) (d1 ++ s :: d2) in
    compact_pair b fuel left level whole = Ok b' /\ bucket_inv b' sa sf (f1 ++ flat :: f2) /\
    forall k, live (newest (map (lookup_key key k) (rev (f1 ++ flat :: f2)))) = live (newest (map (lookup_key key k) (rev flats))).
Proof.
  intros [Hc Ha Hf Hd] Hl Hr Hlev Hsz.
  set (count := b_secondaryIndices b) in *. set (cleanup := negb (b_keepTombstones b) && (left =? 0)%nat).
  (* the pair and its neighbours *)
  pose proof (take_drop_middle _ _ _ Hl) as Hsplit. set (d1 := take left (b_disk b)) in *.
  assert (Hlen : length d1 = left) by (unfold d1; rewrite length_take; apply lookup_lt_Some in Hl; lia).
  assert (Hd2 : exists d2, drop (S left) (b_disk b) = r :: d2) by (exists (drop (S (S left)) (b_disk b)); by rewrite (drop_S _ _ _ Hr)).
  destruct Hd2 as [d2 Hd2]. rewrite Hd2 in Hsplit.
  unfold segs_ok in Hd. rewrite <- Hsplit in Hd. apply Forall2_app_inv_l in Hd as (f1 & f' & Hd1 & Hd' & ->).
  apply Forall2_cons_inv_l in Hd' as (x & f'' & [Hx Hxf] & Hd' & ->). apply Forall2_cons_inv_l in Hd' as (y & f2 & [Hy Hyf] & Hd2' & ->).
  (* the compaction *)
  destruct (contents_bound _ _ _ Hx) as [Bx Lx]. destruct (contents_bound _ _ _ Hy) as [By Ly].
  destruct fuel as [|fuel]; [lia|].
  set (c := Compactor level cleanup (s_secondaryIndexCount l) (blen (s_contents l) + blen (s_contents r)) (b_enableChecksumValidation b) None (fun _ => false)).
  assert (Hcount : co_secondaryIndexCount c = count) by exact (sh_count _ _ _ Hx).
  assert (Hne : forall z, Forall (entry_fits count) z -> Forall (fun n => key n <> []) z)
    by (intros z Hz; eapply Forall_impl; [exact Hz|]; by intros n (_ & ? & _)).
  set (flat := merged count cleanup same_values fuel x y).
  assert (Hdo : forall w, exists file (s : segment F),
    compactor_do c (S fuel) (newReplaceCursorReusableWithPrefix l 0) (newReplaceCursorReusableWithPrefix r 0) = Ok file /\
    newSegment (b_segmentConfig b w) file = Ok s /\ seg_holds s count flat /\ s_level s = level).
  { intros w. assert (Hlim : flush_limits count flat).
    { apply small_limits; [apply merged_data_ok; [apply Hx|apply Hy]|done|]. pose proof (merged_body count cleanup fuel x y). unfold flat. lia. }
    destruct (compactor_do_spec c same_values l r x y) with (fuel := fuel) (cfg := b_segmentConfig b w)
      as (file & s & Hdo & Hopen & Hs & Hlvl & _); rewrite ?Hcount; try done; try lia; [by apply Hne..|].
    rewrite Hcount in Hs. by exists file, s. }
  destruct (Hdo whole) as (file & s & Hdo1 & Hopen & Hs & Hlvl). exists d1, d2, f1, f2, x, y, flat, file, s.
  cbv zeta. split_and!; try done; [by apply Forall2_length in Hd1; lia|..].
  - intros w. destruct (Hdo w) as (file' & s' & Hdo' & Ho & Hh & _). rewrite Hdo1 in Hdo'. injection Hdo' as <-. by exists s'.
  - unfold compact_pair. rewrite Hl, Hr. fold cleanup. fold c. rewrite Hdo1. cbn [obind]. rewrite Hopen. cbn [obind].
    pose proof (switch_pair d1 d2 l r s) as Hsw. rewrite Hlen, Hsplit in Hsw. by rewrite Hsw.
  - split; cbn [with_state b_secondaryIndices b_enableChecksumValidation b_active b_flushing b_disk]; try done.
    apply Forall2_app; [done|]. constructor; [|done]. split; [done|by apply merged_fits].
  - intros k. rewrite !rev_app_distr. cbn [rev]. rewrite !map_app. cbn [map]. rewrite <- !app_assoc. cbn [app].
    destruct (merged_spec count cleanup same_values fuel x y k (sh_sorted _ _ _ Hx) (sh_sorted _ _ _ Hy)) as [_ Hmerge]; [lia|].
    unfold flat. rewrite Hmerge. apply merged_layers.
    unfold cleanup. intros [_ E]%andb_true_iff. apply Nat.eqb_eq in E. rewrite E in Hlen.
    apply Forall2_length in Hd1. rewrite Hlen in Hd1. by destruct f1.
Qed.

Lemma compact_holds b m fuel (left : nat) level whole l r :
  holds_map b m -> b_disk b !! left = Some l -> b_disk b !! S left = Some r -> is_u16 level ->
  blen (s_contents l) + blen (s_contents r) < Z.min (2 ^ 34) (Z.of_nat fuel) ->
  exists b', compact_pair b fuel left level whole = Ok b' /\ holds_map b' m /\
    S (length (b_disk b')) = length (b_disk b) /\ s_level <$> (b_disk b' !! left) = Some level.
Proof.
  intros (sa & sf & flats & Hi & Hm) Hl Hr Hlev Hsz.
  destruct (compact_inv b sa sf flats fuel left level whole l r Hi Hl Hr Hlev Hsz)
    as (d1 & d2 & f1 & f2 & x & y & flat & file & s & Hd & Hlen & _ & _ & _ & Hlvl & _ & Hc & Hi' & Hlay).
  eexists. split; [exact Hc|]. split; [|split].
  - exists sa, sf, (f1 ++ flat :: f2). split; [done|]. intros k. rewrite Hm. unfold layers. by apply live_app.
  - cbn [with_state b_disk]. rewrite Hd, !length_app. cbn [length]. lia.
  - cbn [with_state b_disk]. rewrite <- Hlen, list_lookup_middle by done. cbn. by rewrite Hlvl.
Qed.

(** ** Executions *)

Inductive bucket_op : Type :=
| OpPut (k v : list Z) (opts : list (Z * option (list Z)))
| OpDelete (k : list Z) (opts : list (Z * option (list Z)))
| OpDeleteWith (k : list Z) (unixMilli : Z) (opts : list (Z * option (list Z)))
| OpSwitch
| OpFlush (whole : bool)
| OpCompact (fuel pos : nat) (level : Z) (whole : bool).

(** One atomic section of the bucket: a write, the switch of memtables, a flush with
    the addition of its segment, or a compaction with the switch of segments *)
Definition run_bucket_op (b : Bucket F) (o : bucket_op) : outcome store_error (Bucket F) :=
  match o with
  | OpPut k v opts => bucket_Put b k v opts
  | OpDelete k opts => bucket_Delete b k opts
  | OpDeleteWith k unixMilli opts => bucket_DeleteWith b k unixMilli opts
  | OpSwitch => let! (_, b) := atomicallySwitchMemtable b in Ok b
  | OpFlush whole => flushFlushingLocked b whole
  | OpCompact fuel pos level whole => compact_pair b fuel pos level whole
  end.

Definition spec_map (m : gmap (list Z) (list Z)) (o : bucket_op) : gmap (list Z) (list Z) :=
  match o with
  | OpPut k v _ => <[k := v]> m
  | OpDelete k _ | OpDeleteWith k _ _ => delete k m
  | _ => m
  end.

(** What the file format can hold *)
Definition op_fits (b : Bucket F) (o : bucket_op) : Prop :=
  match o with
  | OpPut k v opts => write_ok k v opts
  | OpDelete k opts | OpDeleteWith k _ opts => write_ok k [] opts
  | OpSwitch => True
  | OpFlush _ => forall fl, b_flushing b = Some fl -> memtable_small fl
  | OpCompact fuel pos level _ => is_u16 level /\
      forall l r, b_disk b !! pos = Some l -> b_disk b !! S pos = Some r ->
        blen (s_contents l) + blen (s_contents r) < Z.min (2 ^ 34) (Z.of_nat fuel)
  end.

(** An empty bucket *)
Definition empty_bucket (secondaryIndices : Z) (keepTombstones enableChecksumValidation skipSecondaryKeyCheck mmapContents useBloomFilter : bool) :
    Bucket F :=
  MkBucket (newMemtable secondaryIndices enableChecksumValidation skipSecondaryKeyCheck) None [] secondaryIndices
    keepTombstones false false enableChecksumValidation skipSecondaryKeyCheck mmapContents useBloomFilter.

Inductive reaches : Bucket F -> gmap (list Z) (list Z) -> Prop :=
| reach_empty secondaryIndices keep enable skip mmap bloom :
    0 <= secondaryIndices < 2 ^ 16 -> reaches (empty_bucket secondaryIndices keep enable skip mmap bloom) ∅
| reach_step b m o b' :
    reaches b m -> op_fits b o -> run_bucket_op b o = Ok b' -> reaches b' (spec_map m o).

Lemma write_ok_value k v v' opts : write_ok k v opts -> Forall is_byte v' -> blen v' < 2 ^ 48 -> write_ok k v' opts.
Proof. intros []. by split. Qed.

Lemma tombstoned_ok k opts unixMilli : write_ok k [] opts -> write_ok k (tombstonedValue unixMilli) opts.
Proof. intros Hw. eapply write_ok_value; [done| |done]. constructor; [unfold is_byte; lia|]. apply le_split_bytes. Qed.

(** A write that succeeds is one of the active memtable. *)
Lemma run_write b o b' :
  run_bucket_op b o = Ok b' ->
  match o with
  | OpPut k v opts => exists active, memtable_put (b_active b) k v opts = Ok active /\ b' = with_state b active (b_flushing b) (b_disk b)
  | OpDelete k opts => exists active, memtable_setTombstone (b_active b) k [] opts = Ok active /\ b' = with_state b active (b_flushing b) (b_disk b)
  | OpDeleteWith k unixMilli opts =>
      exists active, memtable_setTombstone (b_active b) k (tombstonedValue unixMilli) opts = Ok active /\ b' = with_state b active (b_flushing b) (b_disk b)
  | _ => True
  end.
Proof.
  destruct o as [k v opts|k opts|k ms opts| | |]; cbn [run_bucket_op]; try done; unfold bucket_Put, bucket_Delete, bucket_DeleteWith.
  3: destruct (negb (b_keepTombstones b)); [done|].
  all: destruct (readOnlyErr b); [|done..]; cbn [obind]; destruct (memtable_put _ _ _ _) eqn:E || destruct (memtable_setTombstone _ _ _ _) eqn:E;
    try done; cbn [obind]; intros [= <-]; by eexists.
Qed.

Lemma reaches_holds b m : reaches b m -> holds_map b m.
Proof.
  induction 1 as [count keep enable skip mmap bloom Hc|b m o b' _ IH Hfit Hrun].
  - exists ∅, None, []. split; [split; [done|apply new_mt_ok|done|constructor]|]. intros k. unfold layers. cbn. by rewrite !lookup_empty.
  - pose proof (run_write b o b' Hrun) as Hw.
    destruct o as [k v opts|k opts|k ms opts| |whole|fuel pos level whole]; cbn [run_bucket_op spec_map op_fits] in *.
    + destruct Hw as (active & E & ->). by eapply put_holds.
    + destruct Hw as (active & E & ->). eapply tombstone_holds; [done|done|by left|done].
    + destruct Hw as (active & E & ->). eapply tombstone_holds; [done|by apply tombstoned_ok|right; by eexists|done].
    + destruct (atomicallySwitchMemtable b) as [[sw b1]| | |] eqn:E; [|done..]. injection Hrun as <-. by eapply switch_holds.
    + destruct (b_flushing b) as [fl|] eqn:E; [|unfold flushFlushingLocked in Hrun; by rewrite E in Hrun].
      destruct (flush_holds b m whole fl IH E (Hfit fl eq_refl)) as (b1 & Hb1 & Hh & _). by rewrite Hrun in Hb1; injection Hb1 as ->.
    + unfold compact_pair in Hrun. destruct (b_disk b !! pos) as [l|] eqn:El; [|done].
      destruct (b_disk b !! S pos) as [r|] eqn:Er; [|done]. destruct Hfit as [Hlev Hsz].
      destruct (compact_holds b m fuel pos level whole l r IH El Er Hlev (Hsz l r eq_refl eq_refl)) as (b1 & Hb1 & Hh & _).
      unfold compact_pair in Hb1. rewrite El, Er in Hb1. rewrite Hrun in Hb1. by injection Hb1 as ->.
Qed.
End refinement.

(** C1: a bucket is the finite map of its writes.  Over any interleaving of puts, deletes,
    memtable switches, flushes and compactions of neighbouring segments (with and
    without secondary indexes, checksums and bloom filters, mapped or read by
    pread, tombstones kept or cleaned up), [Get] returns the value last put
    and nil for a key never put or deleted since, and [Exists] agrees. *)
Theorem bucket_refines_map {F} `{!Bloom F} (b : Bucket F) (m : gmap (list Z) (list Z)) (k : list Z) :
  reaches b m -> Forall is_byte k ->
  bucket_Get b k = Ok (m !! k) /\ bucket_Exists b k = Ok (bool_decide (is_Some (m !! k))).
Proof. intros Hr. apply holds_map_reads. by apply reaches_holds. Qed.

(** C36: maintenance of a bucket succeeds and loses nothing.  In every reachable state,
    within the format, a pending flush completes and adds its segment; the compaction
    of any pair of neighbours completes, replaces the two by one segment of the new
    level, and the bucket still holds the same map; so at most
    as many compactions are possible as there are segments. *)
Theorem maintenance_succeeds {F} `{!Bloom F} (b : Bucket F) (m : gmap (list Z) (list Z)) (whole : bool) :
  reaches b m ->
  (forall fl, b_flushing b = Some fl -> memtable_small fl ->
     exists b', flushFlushingLocked b whole = Ok b' /\ reaches b' m /\ b_flushing b' = None /\
       length (b_disk b') = S (length (b_disk b)) /\ b_active b' = b_active b) /\
  (forall fuel pos level l r, b_disk b !! pos = Some l -> b_disk b !! S pos = Some r -> is_u16 level ->
     blen (s_contents l) + blen (s_contents r) < Z.min (2 ^ 34) (Z.of_nat fuel) ->
     exists b', compact_pair b fuel pos level whole = Ok b' /\ reaches b' m /\
       S (length (b_disk b')) = length (b_disk b) /\ s_level <$> (b_disk b' !! pos) = Some level /\
       forall k, Forall is_byte k -> bucket_Get b' k = Ok (m !! k)).
Proof.
  intros Hr. pose proof (reaches_holds b m Hr) as Hh. split.
  - intros fl Hfl Hsm. destruct (flush_holds b m whole fl Hh Hfl Hsm) as (b' & Hb' & _ & Hn & Hlen & Ha).
    exists b'. split_and!; try done. apply (reach_step b m (OpFlush whole)); [done| |done].
    intros fl'. rewrite Hfl. by intros [= <-].
  - intros fuel pos level l r Hl Hr' Hlev Hsz.
    destruct (compact_holds b m fuel pos level whole l r Hh Hl Hr' Hlev Hsz) as (b' & Hb' & Hh' & Hlen & Hlvl).
    exists b'. split_and!; try done; [|intros k Hk; by apply (holds_map_reads b' m k)]. apply (reach_step b m (OpCompact fuel pos level whole)); [done| |done].
    split; [done|]. intros l0 r0. rewrite Hl, Hr'. by intros [= <-] [= <-].
Qed.

(** [FlushAndSwitch] drains the bucket.  On a bucket that accepts writes, with or without a
    memtable left over by an earlier flush, it succeeds, leaves no memtable to flush
    and an active memtable of size zero, and keeps every key. *)
Lemma flush_and_switch_drains {F} `{!Bloom F} (b : Bucket F) (m : gmap (list Z) (list Z)) (whole1 whole2 : bool) :
  reaches b m -> readOnlyErr b = Ok tt -> memtable_small (b_active b) ->
  (forall fl, b_flushing b = Some fl -> memtable_small fl) ->
  exists b', FlushAndSwitch b whole1 whole2 = Ok b' /\ reaches b' m /\ b_flushing b' = None /\ mt_size (b_active b') = 0.
Proof.
  intros Hr Hro Hsa Hsf. unfold FlushAndSwitch. rewrite Hro. cbn [obind].
  assert (H1 : exists b1, match b_flushing b with Some _ => flushFlushingLocked b whole1 | None => Ok b end = Ok b1 /\
    reaches b1 m /\ b_flushing b1 = None /\ b_active b1 = b_active b).
  { destruct (b_flushing b) as [fl|] eqn:E; [|by exists b].
    destruct (flush_holds b m whole1 fl (reaches_holds b m Hr) E (Hsf fl eq_refl)) as (b1 & Hb1 & _ & Hn & _ & Ha).
    exists b1. split_and!; try done. apply (reach_step b m (OpFlush whole1)); [done| |done].
    intros fl'. rewrite E. intros [= <-]. by apply Hsf. }
  destruct H1 as (b1 & -> & Hr1 & Hf1 & Ha1). cbn [obind].
  assert (Hsw : exists sw b2, atomicallySwitchMemtable b1 = Ok (sw, b2) /\
    (if sw : bool then b_flushing b2 = Some (b_active b1) /\ mt_size (b_active b2) = 0
     else b2 = b1 /\ mt_size (b_active b1) = 0)).
  { unfold atomicallySwitchMemtable. rewrite Hf1. destruct (Z.eqb_spec (mt_size (b_active b1)) 0); by eexists _, _. }
  destruct Hsw as (sw & b2 & Hsw & Hb2).
  assert (Hr2 : reaches b2 m).
  { apply (reach_step b1 m OpSwitch); [done|done|]. cbn [run_bucket_op]. by rewrite Hsw. }
  rewrite Hsw. cbn [obind]. destruct sw; cbn [negb].
  - destruct Hb2 as [Hf2 Hz]. rewrite Ha1 in Hf2.
    destruct (flush_holds b2 m whole2 (b_active b) (reaches_holds b2 m Hr2) Hf2 Hsa) as (b3 & Hb3 & _ & Hn & _ & Ha).
    exists b3. rewrite Ha. split_and!; try done. apply (reach_step b2 m (OpFlush whole2)); [done| |done].
    intros fl'. rewrite Hf2. by intros [= <-].
  - destruct Hb2 as [-> Hz]. by exists b1.
Qed.

(** *** Checked executions *)

Definition bytes_okb (l : list Z) : bool := forallb (fun x => (0 <=? x) && (x <? 256)) l.

Definition write_okb (k v : list Z) (opts : list (Z * option (list Z))) : bool :=
  key_okb k && negb (bool_decide (k = [])) && bytes_okb v && (blen v <? 2 ^ 48)
  && forallb (fun o => match o.2 with Some k => key_okb k | None => true end) opts.

Definition smallb (m : Memtable) : bool :=
  match bst_flattenInOrder (E := get_error) (mt_key m) with
  | Ok flat => blen (seg_body (mt_secondaryIndices m) flat.*1) <? 2 ^ 34
  | _ => true
  end.

Definition op_fitsb {F} `{!Bloom F} (b : Bucket F) (o : bucket_op) : bool :=
  match o with
  | OpPut k v opts => write_okb k v opts
  | OpDelete k opts | OpDeleteWith k _ opts => write_okb k [] opts
  | OpSwitch => true
  | OpFlush _ => match b_flushing b with Some fl => smallb fl | None => true end
  | OpCompact fuel pos level _ => (0 <=? level) && (level <? 2 ^ 16) &&
      match b_disk b !! pos, b_disk b !! S pos with
      | Some l, Some r => blen (s_contents l) + blen (s_contents r) <? Z.min (2 ^ 34) (Z.of_nat fuel)
      | _, _ => true
      end
  end.

Fixpoint run_checked {F} `{!Bloom F} (b : Bucket F) (ops : list bucket_op) : option (Bucket F) :=
  match ops with
  | [] => Some b
  | o :: ops => if op_fitsb b o then match run_bucket_op b o with Ok b => run_checked b ops | _ => None end else None
  end.

Lemma write_check k v opts : write_okb k v opts = true -> write_ok k v opts.
Proof.
  unfold write_okb. rewrite !andb_true_iff. intros ((((H1 & H2) & H3) & H4) & H5).
  split; [by apply key_check|by apply negb_true_iff, bool_decide_eq_false in H2|by apply bytes_check|lia|].
  unfold opts_ok. rewrite Forall_forall. intros o Ho k' Hk. rewrite forallb_forall in H5.
  specialize (H5 o (proj1 (list_elem_of_In _ _) Ho)). rewrite Hk in H5. by apply key_check.
Qed.

Lemma small_check m : smallb m = true -> memtable_small m.
Proof. unfold smallb, memtable_small. intros H flat Hf. rewrite Hf in H. lia. Qed.

Lemma fits_check {F} `{!Bloom F} (b : Bucket F) o : op_fitsb b o = true -> op_fits b o.
Proof.
  destruct o as [k v opts|k opts|k ms opts| |whole|fuel pos level whole]; cbn [op_fitsb op_fits]; try apply write_check; [done|..].
  - intros H fl Hf. rewrite Hf in H. by apply small_check.
  - rewrite !andb_true_iff. intros ((H1 & H2) & H3). split; [unfold is_u16; lia|].
    intros l r Hl Hr. rewrite Hl, Hr in H3. lia.
Qed.

Lemma run_checked_reaches {F} `{!Bloom F} ops : forall (b b' : Bucket F) m,
  reaches b m -> run_checked b ops = Some b' -> reaches b' (foldl spec_map m ops).
Proof.
  induction ops as [|o ops IH]; intros b b' m Hr Hrun; cbn [run_checked foldl] in *; [by injection Hrun as <-|].
  destruct (op_fitsb b o) eqn:E; [|done]. destruct (run_bucket_op b o) as [b1| | |] eqn:E1; [|done..].
  eapply IH; [|done]. eapply reach_step; [done|by apply fits_check|done].
Qed.

(** Two flushed segments, a third being flushed, and writes behind it *)
Definition wit_bucket_ops : list bucket_op :=
  [OpPut [1] [10] [(0, Some [101])]; OpPut [2] [20; 21] [(0, Some [102])]; OpPut [3] [30] [(0, Some [103])]; OpSwitch;
   OpPut [2] [22] [(0, Some [104])]; OpFlush false; OpDelete [1] [(0, Some [101])]; OpSwitch; OpFlush true;
   OpPut [4] [40] [(0, Some [105])]; OpDelete [2] [(0, Some [104])]; OpSwitch; OpPut [3] [33] [(0, Some [106])]].

Definition wit_bucket : Bucket (list (list Z)) := empty_bucket 1 false true false false true.

Lemma wit_reaches :
  exists b, run_checked wit_bucket wit_bucket_ops = Some b /\ reaches b (foldl spec_map ∅ wit_bucket_ops).
Proof.
  destruct (run_checked wit_bucket wit_bucket_ops) as [b|] eqn:E; [|vm_compute in E; discriminate].
  exists b. split; [done|]. eapply run_checked_reaches; [|done]. apply reach_empty. lia.
Qed.

Lemma bucket_refines_map_witness :
  exists b, run_checked wit_bucket wit_bucket_ops = Some b /\
    bucket_Get b [1] = Ok None /\ bucket_Get b [2] = Ok None /\ bucket_Get b [3] = Ok (Some [33]) /\ bucket_Get b [4] = Ok (Some [40]).
Proof.
  destruct wit_reaches as (b & Hrun & Hr). exists b. split; [exact Hrun|].
  split; [apply (bucket_refines_map b _ [1] Hr), bytes_check; reflexivity|].
  split; [apply (bucket_refines_map b _ [2] Hr), bytes_check; reflexivity|].
  split; [apply (bucket_refines_map b _ [3] Hr), bytes_check; reflexivity|].
  apply (bucket_refines_map b _ [4] Hr), bytes_check. reflexivity.
Defined.

Lemma flush_and_switch_drains_witness :
  exists b b', run_checked wit_bucket wit_bucket_ops = Some b /\ FlushAndSwitch b true false = Ok b' /\
    b_flushing b' = None /\ mt_size (b_active b') = 0.
Proof.
  destruct wit_reaches as (b & Hrun & Hr). exists b.
  destruct (flush_and_switch_drains b _ true false Hr) as (b' & Hb' & _ & Hf & Ha).
  - vm_compute in Hrun. injection Hrun as <-. reflexivity.
  - apply small_check. vm_compute in Hrun. injection Hrun as <-. reflexivity.
  - intros fl Hfl. apply small_check. vm_compute in Hrun. injection Hrun as <-. injection Hfl as <-. reflexivity.
  - exists b'. split; [exact Hrun|]. split; [exact Hb'|]. split; [exact Hf|exact Ha].
Defined.

Lemma maintenance_succeeds_witness :
  exists b b', run_checked wit_bucket wit_bucket_ops = Some b /\ compact_pair b 1000 0 1 false = Ok b' /\
    reaches b' (foldl spec_map ∅ wit_bucket_ops) /\ S (length (b_disk b')) = 2%nat.
Proof.
  destruct wit_reaches as (b & Hrun & Hr). exists b.
  destruct (maintenance_succeeds b _ false Hr) as [_ Hc].
  assert (Hd : exists l r, b_disk b !! 0%nat = Some l /\ b_disk b !! 1%nat = Some r /\ length (b_disk b) = 2%nat /\
    blen (s_contents l) + blen (s_contents r) < Z.min (2 ^ 34) (Z.of_nat 1000)).
  { vm_compute in Hrun. injection Hrun as <-. eexists _, _. split; [reflexivity|]. split; [reflexivity|]. split; [reflexivity|].
    apply Z.ltb_lt. vm_compute. reflexivity. }
  destruct Hd as (l & r & Hl & Hr' & Hlen & Hsz).
  destruct (Hc 1000%nat 0%nat 1 l r Hl Hr') as (b' & Hb' & Hreach & Hlen' & _); [unfold is_u16; lia|exact Hsz|].
  exists b'. split; [exact Hrun|]. split; [exact Hb'|]. split; [exact Hreach|]. rewrite Hlen'. exact Hlen.
Defined.
