(* ===== verification/CompactionPolicy.v ===== *)
(** * Which segments are compacted

    [findCompactionCandidates], [isSimilarSegmentSizes] and [compactionFitsSizeLimit]
    of lsmkv/segment_group_compaction.go.  Segments are listed from old to new; a
    compaction replaces two neighbours by one.  Levels stay in descending order, a
    size limit is respected, and compacting until no pair is left ends with
    strictly descending levels. *)

From S2P Require Import Prelude.

Record seg_info : Type := SegInfo { si_level : Z; si_size : Z }.

(** The settings of the segment group *)
Record sg_config : Type := SgConfig {
  sg_readOnly : bool;
  sg_maxSegmentSize : Z;
  sg_compactLeftOverSegments : bool;
  sg_keepLevelCompaction : bool }.

Definition MiB : Z := 1024 * 1024.
Definition GiB : Z := 1024 * MiB.

Definition isSimilarSegmentSizes (leftSize rightSize : Z) : bool :=
  let threshold1 := 10 * MiB in
  let threshold2 := 100 * MiB in
  let threshold3 := GiB in
  let threshold4 := 10 * GiB in
  if (leftSize <=? threshold1) && (rightSize <=? threshold1) then true
  else
    let (lowerSize, higherSize) := if rightSize <? leftSize then (rightSize, leftSize) else (leftSize, rightSize) in
    if (higherSize <=? threshold2) && (higherSize <=? lowerSize * 10) then true
    else if (higherSize <=? threshold3) && (higherSize <=? lowerSize * 5) then true
    else if (higherSize <=? threshold4) && (higherSize <=? lowerSize * 3) then true
    else higherSize <=? lowerSize * 2.

Section candidates.
Context (cfg : sg_config) (segments : list seg_info).

Definition compactionFitsSizeLimit (left right : seg_info) : bool :=
  if sg_maxSegmentSize cfg =? 0 then true else si_size left + si_size right <=? sg_maxSegmentSize cfg.

(** [sg.segments[i]], for an index in range *)
Definition seg_at (i : nat) : seg_info := nth i segments (SegInfo 0 0).
Definition level_at (i : nat) : Z := si_level (seg_at i).

(** The variables of the first loop: a pair is its left position and the new level. *)
Record scan_state : Type := Scan {
  sc_matching : option (nat * Z);
  sc_leftover : option (nat * Z);
  sc_unordered : option (nat * Z) }.

(** [for i := k - 1; i >= 0; i--] *)
Fixpoint scan_pairs (k : nat) (st : scan_state) : scan_state :=
  match k with
  | O => st
  | S i =>
      let lSeg := seg_at i in
      let rSeg := seg_at (S i) in
      let lLvl := si_level lSeg in
      let rLvl := si_level rSeg in
      if lLvl <? rLvl then Scan (sc_matching st) (sc_leftover st) (Some (S i, rLvl))
      else if lLvl =? rLvl then
        if compactionFitsSizeLimit lSeg rSeg then
          scan_pairs i (Scan (Some (i, if sg_keepLevelCompaction cfg then lLvl else u16 (lLvl + 1))) (sc_leftover st) (sc_unordered st))
        else
          match sc_matching st with
          | Some (pos, _) => scan_pairs i (Scan (Some (pos, lLvl)) (sc_leftover st) (sc_unordered st))
          | None => scan_pairs i st
          end
      else
        match sc_matching st with
        | Some _ => st
        | None =>
            if sg_compactLeftOverSegments cfg && match sc_leftover st with None => true | Some _ => false end
               && compactionFitsSizeLimit lSeg rSeg && isSimilarSegmentSizes (si_size lSeg) (si_size rSeg)
            then scan_pairs i (Scan None (Some (i, lLvl)) (sc_unordered st))
            else scan_pairs i st
        end
  end.

(** The second loop, over the segments before the ordered ones: a result, or the
    candidate it ends with *)
Fixpoint fix_order (lastOrderedLvl : Z) (k : nat) (candidate : option (nat * Z)) : (nat * Z) + option (nat * Z) :=
  match k with
  | O => inr candidate
  | S i =>
      let lLvl := level_at i in
      let rLvl := level_at (S i) in
      if rLvl <? lLvl then
        match candidate with
        | None => if (i =? 0)%nat && (lLvl <? lastOrderedLvl) then inl (0%nat, lastOrderedLvl) else inl (i, lLvl)
        | Some _ => inr candidate
        end
      else if lLvl =? rLvl then fix_order lastOrderedLvl i (Some (i, u16 (lLvl + 1)))
      else fix_order lastOrderedLvl i candidate
  end.

Definition findCompactionCandidates : option (nat * Z) :=
  if sg_readOnly cfg then None
  else if (length segments <? 2)%nat then None
  else
    let st := scan_pairs (length segments - 1) (Scan None None None) in
    match sc_matching st, sc_leftover st, sc_unordered st with
    | Some found, _, _ => Some found
    | None, Some found, _ => Some found
    | None, None, Some (lastOrderedPos, lastOrderedLvl) =>
        if (lastOrderedPos =? 1)%nat then Some (0%nat, lastOrderedLvl)
        else
          match fix_order lastOrderedLvl (lastOrderedPos - 1) None with
          | inl found => Some found
          | inr (Some found) => Some found
          | inr None => Some (0%nat, if (lastOrderedPos =? 2)%nat then lastOrderedLvl else level_at 1)
          end
    | None, None, None => None
    end.
End candidates.

(** The segments after the compaction of the pair at [pos] into one of [size] bytes *)
Definition replace_pair (segments : list seg_info) (pos : nat) (level size : Z) : list seg_info :=
  take pos segments ++ SegInfo level size :: drop (S (S pos)) segments.

(** Compaction cycles until no pair is left; the size of a merged segment is not determined by
    the policy. *)
Fixpoint compact_all (cfg : sg_config) (new_size : list seg_info -> nat -> Z) (fuel : nat) (segments : list seg_info) :
    outcome unit (list seg_info) :=
  match findCompactionCandidates cfg segments with
  | None => Ok segments
  | Some (pos, level) =>
      match fuel with
      | O => OutOfFuel
      | S fuel => compact_all cfg new_size fuel (replace_pair segments pos level (new_size segments pos))
      end
  end.

(** ** Examples of the documentation *)

Definition plain : sg_config := SgConfig false 0 false false.
Definition levels (l : list Z) : list seg_info := map (fun lvl => SegInfo lvl 1) l.

Lemma documented_selection :
  findCompactionCandidates plain (levels [4; 3; 3; 2; 2; 2; 1; 0]) = Some (3%nat, 3) /\
  findCompactionCandidates plain (levels [4; 3; 3; 3; 2; 1; 0]) = Some (1%nat, 4) /\
  findCompactionCandidates plain (levels [4; 4; 3; 2; 1; 0]) = Some (0%nat, 5).
Proof. repeat split; reflexivity. Qed.

(** * Properties *)

(** The size limit for the pair at [i] *)
Definition fits (cfg : sg_config) (segments : list seg_info) (i : nat) : bool :=
  compactionFitsSizeLimit cfg (seg_at segments i) (seg_at segments (S i)).

Definition descending (segments : list seg_info) : Prop :=
  forall i, (S i < length segments)%nat -> level_at segments (S i) <= level_at segments i.

Definition strictly_descending (segments : list seg_info) : Prop :=
  forall i, (S i < length segments)%nat -> level_at segments (S i) < level_at segments i.

Section scanning.
Context (cfg : sg_config) (segments : list seg_info).
Let n : nat := length segments.
Let lvl (i : nat) : Z := level_at segments i.

(** After the pairs from position [k] on *)
Record scanned (k : nat) (st : scan_state) : Prop := {
  sn_order : forall i, (k <= i)%nat -> (S i < n)%nat -> lvl (S i) <= lvl i;
  sn_matching : match sc_matching st with
    | Some (p, level) => (k <= p)%nat /\ (S p < n)%nat /\ fits cfg segments p = true /\ lvl p = lvl (S p) /\ lvl k = lvl p /\
        (level = lvl p \/ level = u16 (lvl p + 1) /\ p = k)
    | None => forall i, (k <= i)%nat -> (S i < n)%nat -> lvl (S i) = lvl i -> fits cfg segments i = false
    end;
  sn_leftover : forall p level, sc_leftover st = Some (p, level) ->
    (S p < n)%nat /\ fits cfg segments p = true /\ lvl (S p) < lvl p /\ level = lvl p }.

(** Where and why the loop stopped *)
Definition stopped (k : nat) (st : scan_state) : Prop :=
  match sc_unordered st with
  | Some (pos, level) => pos = k /\ (1 <= k)%nat /\ (k < n)%nat /\ lvl (k - 1) < lvl k
  | None => k = 0%nat \/ sc_matching st <> None /\ lvl k < lvl (k - 1)
  end.

Lemma candidate_scan_spec k : forall st,
  (k < n)%nat -> scanned k st -> sc_unordered st = None ->
  exists k', (k' <= k)%nat /\ scanned k' (scan_pairs cfg segments k st) /\ stopped k' (scan_pairs cfg segments k st).
Proof.
  induction k as [|i IH]; intros st Hk [Ho Hm Hl] Hu.
  { exists 0%nat. split; [lia|]. split; [by split|]. unfold stopped. cbn [scan_pairs]. rewrite Hu. by left. }
  cbn [scan_pairs]. change (si_level (seg_at segments i)) with (lvl i). change (si_level (seg_at segments (S i))) with (lvl (S i)).
  change (compactionFitsSizeLimit cfg (seg_at segments i) (seg_at segments (S i))) with (fits cfg segments i).
  destruct (Z.ltb_spec (lvl i) (lvl (S i))) as [Hlt|Hge].
  { exists (S i). split; [lia|]. split; [by split|]. unfold stopped. cbn [sc_unordered]. rewrite Nat.sub_succ, Nat.sub_0_r. split_and!; (done || lia). }
  assert (Ho' : forall j, (i <= j)%nat -> (S j < n)%nat -> lvl (S j) <= lvl j).
  { intros j Hj Hj'. destruct (decide (j = i)) as [->|]; [lia|]. apply Ho; lia. }
  destruct (Z.eqb_spec (lvl i) (lvl (S i))) as [He|Hne].
  - destruct (fits cfg segments i) eqn:Ef.
    + destruct (IH (Scan (Some (i, if sg_keepLevelCompaction cfg then lvl i else u16 (lvl i + 1))) (sc_leftover st) (sc_unordered st)))
        as (k' & Hk' & Hs); [lia| |done|exists k'; split; [lia|done]].
      split; cbn [sc_matching sc_leftover]; try done. split_and!; try (done || lia). destruct (sg_keepLevelCompaction cfg); auto.
    + destruct (sc_matching st) as [[p level]|] eqn:Em.
      * destruct Hm as (H1 & H2 & H3 & H4 & H5 & H6). destruct (IH (Scan (Some (p, lvl i)) (sc_leftover st) (sc_unordered st)))
          as (k' & Hk' & Hs); [lia| |done|exists k'; split; [lia|done]].
        split; cbn [sc_matching sc_leftover]; try done. split_and!; try (done || lia || congruence).
      * destruct (IH st) as (k' & Hk' & Hs); [lia| |done|exists k'; split; [lia|done]].
        split; try done. rewrite Em. intros j Hj Hj' Hjl. destruct (decide (j = i)) as [->|]; [done|]. apply Hm; (done || lia).
  - destruct (sc_matching st) as [[p level]|] eqn:Em.
    { exists (S i). split; [lia|]. split; [split; rewrite ?Em; done|]. unfold stopped. rewrite Hu. right. rewrite Em.
      split; [done|]. rewrite Nat.sub_succ, Nat.sub_0_r. lia. }
    assert (Hm' : forall j, (i <= j)%nat -> (S j < n)%nat -> lvl (S j) = lvl j -> fits cfg segments j = false).
    { intros j Hj Hj' Hjl. destruct (decide (j = i)) as [->|]; [lia|]. apply Hm; (done || lia). }
    destruct (_ && _) eqn:Ec.
    + destruct (IH (Scan None (Some (i, lvl i)) (sc_unordered st))) as (k' & Hk' & Hs); [lia| |done|exists k'; split; [lia|done]].
      apply andb_true_iff in Ec as [Ec _]. apply andb_true_iff in Ec as [_ Ef].
      split; cbn [sc_matching sc_leftover]; try done. intros p level [= <- <-]. split_and!; (done || lia).
    + destruct (IH st) as (k' & Hk' & Hs); [lia| |done|exists k'; split; [lia|done]]. split; try done. by rewrite Em.
Qed.

Lemma scan_all : (2 <= n)%nat ->
  exists k, (k < n)%nat /\ scanned k (scan_pairs cfg segments (n - 1) (Scan None None None)) /\ stopped k (scan_pairs cfg segments (n - 1) (Scan None None None)).
Proof.
  intros Hn. destruct (candidate_scan_spec (n - 1) (Scan None None None)) as (k & Hk & Hs); [lia| |done|exists k; split; [lia|done]].
  split; cbn [sc_matching sc_leftover]; [intros; lia|intros; lia|done].
Qed.

(** The second loop stays in range. *)
Lemma fix_order_range lol k : forall cand,
  (k < n)%nat -> (forall p level, cand = Some (p, level) -> (S p < n)%nat) ->
  match fix_order segments lol k cand with
  | inl (p, _) => (S p < n)%nat
  | inr (Some (p, _)) => (S p < n)%nat
  | inr None => True
  end.
Proof.
  induction k as [|i IH]; intros cand Hk Hc; cbn [fix_order].
  - destruct cand as [[p level]|]; [by eapply Hc|done].
  - destruct (level_at segments (S i) <? level_at segments i).
    + destruct cand as [[p level]|]; [by eapply Hc|]. destruct ((i =? 0)%nat && _); lia.
    + destruct (level_at segments i =? level_at segments (S i)); apply IH; try lia; [|done]. intros p level [= <- <-]. lia.
Qed.

(** What a pair in ordered segments satisfies *)
Lemma candidate_ordered p level :
  descending segments -> findCompactionCandidates cfg segments = Some (p, level) ->
  (S p < n)%nat /\ fits cfg segments p = true /\ lvl (S p) <= lvl p /\
  (level = lvl p \/ level = u16 (lvl p + 1) /\ (p = 0%nat \/ lvl p < lvl (p - 1))).
Proof.
  intros Hd. unfold findCompactionCandidates. destruct (sg_readOnly cfg); [done|].
  destruct (Nat.ltb_spec (length segments) 2) as [|Hn]; [done|]. fold n in Hn |- *.
  destruct (scan_all Hn) as (k & Hk & [Ho Hm Hl] & Hst). unfold stopped in Hst.
  set (st := scan_pairs cfg segments (n - 1) (Scan None None None)) in *.
  destruct (sc_matching st) as [[q lq]|] eqn:Em.
  - intros [= <- <-]. destruct Hm as (H1 & H2 & H3 & H4 & H5 & H6). split_and!; try (done || lia).
    destruct H6 as [?|[? ->]]; [by left|]. right. split; [done|]. destruct (sc_unordered st) as [[q' l']|].
    + destruct Hst as (_ & Hk1 & _ & Hlt). pose proof (Hd (k - 1)%nat) as Hd'. replace (S (k - 1)) with k in Hd' by lia.
      specialize (Hd' Hk). unfold lvl in Hlt. lia.
    + destruct Hst as [?|[_ ?]]; auto.
  - destruct (sc_leftover st) as [[q lq]|] eqn:El.
    + intros [= <- <-]. destruct (Hl _ _ eq_refl) as (H1 & H2 & H3 & H4). split_and!; (done || lia || by left).
    + destruct (sc_unordered st) as [[q l']|]; [|done]. destruct Hst as (_ & Hk1 & _ & Hlt).
      pose proof (Hd (k - 1)%nat) as Hd'. replace (S (k - 1)) with k in Hd' by lia. specialize (Hd' Hk). unfold lvl in Hlt. lia.
Qed.

(** Any pair, also in segments out of order, is one of neighbours. *)
Lemma candidate_range p level : findCompactionCandidates cfg segments = Some (p, level) -> (S p < n)%nat.
Proof.
  unfold findCompactionCandidates. destruct (sg_readOnly cfg); [done|].
  destruct (Nat.ltb_spec (length segments) 2) as [|Hn]; [done|]. fold n in Hn |- *.
  destruct (scan_all Hn) as (k & Hk & [Ho Hm Hl] & Hst). unfold stopped in Hst.
  set (st := scan_pairs cfg segments (n - 1) (Scan None None None)) in *.
  destruct (sc_matching st) as [[q lq]|] eqn:Em; [intros [= <- <-]; apply Hm|].
  destruct (sc_leftover st) as [[q lq]|] eqn:El; [intros [= <- <-]; by apply (Hl q lq)|].
  destruct (sc_unordered st) as [[q l']|]; [|done]. destruct Hst as (-> & Hk1 & Hkn & _).
  destruct (k =? 1)%nat; [intros [= <- <-]; lia|].
  pose proof (fix_order_range l' (k - 1) None) as Hf. destruct (fix_order segments l' (k - 1) None) as [[q l1]|[[q l1]|]].
  - intros [= <- <-]. apply Hf; [lia|done].
  - intros [= <- <-]. apply Hf; [lia|done].
  - intros [= <- <-]. lia.
Qed.

(** Without a pair and without a size limit the levels are strictly descending. *)
Lemma no_candidate :
  sg_readOnly cfg = false -> sg_maxSegmentSize cfg = 0 -> findCompactionCandidates cfg segments = None -> strictly_descending segments.
Proof.
  intros Hro Hmax. unfold findCompactionCandidates. rewrite Hro.
  destruct (Nat.ltb_spec (length segments) 2) as [Hn|Hn]; [intros _ i Hi; lia|]. fold n in Hn |- *.
  destruct (scan_all Hn) as (k & Hk & [Ho Hm Hl] & Hst). unfold stopped in Hst.
  set (st := scan_pairs cfg segments (n - 1) (Scan None None None)) in *.
  destruct (sc_matching st) as [[q lq]|] eqn:Em; [done|]. destruct (sc_leftover st); [done|].
  destruct (sc_unordered st) as [[q l']|].
  { destruct (q =? 1)%nat; [done|]. by destruct (fix_order segments l' (q - 1) None) as [|[|]]. }
  intros _ i Hi. destruct Hst as [->|[? _]]; [|done]. specialize (Ho i ltac:(lia) Hi). specialize (Hm i ltac:(lia) Hi).
  unfold fits, compactionFitsSizeLimit in Hm. rewrite Hmax in Hm. cbn in Hm. unfold lvl in *.
  destruct (Z.eq_dec (level_at segments (S i)) (level_at segments i)) as [E|]; [by specialize (Hm E)|lia].
Qed.
End scanning.

(** ** Replacing the pair *)

Lemma length_replace_pair segments pos level size :
  (S pos < length segments)%nat -> S (length (replace_pair segments pos level size)) = length segments.
Proof. intros Hp. unfold replace_pair. rewrite length_app, length_take. cbn [length]. rewrite length_drop. lia. Qed.

Lemma level_replace segments pos level size i :
  (S pos < length segments)%nat ->
  level_at (replace_pair segments pos level size) i
  = if (i <? pos)%nat then level_at segments i else if (i =? pos)%nat then level else level_at segments (S i).
Proof.
  intros Hp. unfold level_at, seg_at, replace_pair. rewrite !nth_lookup.
  assert (Hl : length (take pos segments) = pos) by (rewrite length_take; lia).
  destruct (Nat.ltb_spec i pos) as [Hi|Hi].
  - rewrite lookup_app_l by lia. by rewrite lookup_take_lt.
  - rewrite lookup_app_r by lia. rewrite Hl. destruct (Nat.eqb_spec i pos) as [->|Hne]; [by rewrite Nat.sub_diag|].
    destruct (i - pos)%nat as [|j] eqn:E; [lia|]. change ((SegInfo level size :: drop (S (S pos)) segments) !! S j) with (drop (S (S pos)) segments !! j). rewrite lookup_drop. do 3 f_equal. lia.
Qed.

(** Compaction keeps the levels in order.  The pair [findCompactionCandidates] chooses is always one
    of neighbours; among segments with descending levels it respects the size
    limit, and with the new level the levels are still descending. *)
Lemma candidates_keep_order (cfg : sg_config) (segments : list seg_info) (pos : nat) (level size : Z) :
  findCompactionCandidates cfg segments = Some (pos, level) ->
  (S pos < length segments)%nat /\
  (descending segments -> (forall i, 0 <= level_at segments i < 2 ^ 16 - 1) ->
   (sg_maxSegmentSize cfg = 0 \/ si_size (seg_at segments pos) + si_size (seg_at segments (S pos)) <= sg_maxSegmentSize cfg) /\
   descending (replace_pair segments pos level size)).
Proof.
  intros Hf. pose proof (candidate_range _ _ _ _ Hf) as Hp. split; [done|]. intros Hd Hr.
  destruct (candidate_ordered _ _ _ _ Hd Hf) as (_ & Hfit & Hle & Hlv). split.
  - unfold fits, compactionFitsSizeLimit in Hfit. destruct (Z.eqb_spec (sg_maxSegmentSize cfg) 0); [by left|right; lia].
  - intros i Hi. pose proof (length_replace_pair segments pos level size Hp) as Hlen.
    assert (Hlv' : level = level_at segments pos \/ level = level_at segments pos + 1 /\ (pos = 0%nat \/ level_at segments pos < level_at segments (pos - 1))).
    { destruct Hlv as [?|[-> ?]]; [by left|right]. split; [|done]. unfold u16. apply Z.mod_small. specialize (Hr pos). lia. }
    rewrite !level_replace by done.
    destruct (Nat.ltb_spec (S i) pos), (Nat.ltb_spec i pos), (Nat.eqb_spec (S i) pos), (Nat.eqb_spec i pos); try lia.
    + apply Hd. lia.
    + subst pos. rewrite Nat.sub_succ, Nat.sub_0_r in Hlv'. pose proof (Hd i ltac:(lia)). lia.
    + subst i. pose proof (Hd (S pos) ltac:(lia)). lia.
    + apply Hd. lia.
Qed.

Lemma candidates_keep_order_witness :
  findCompactionCandidates (SgConfig false 30 true false) [SegInfo 2 25; SegInfo 1 10; SegInfo 1 9; SegInfo 0 3] = Some (1%nat, 2) /\
  descending (replace_pair [SegInfo 2 25; SegInfo 1 10; SegInfo 1 9; SegInfo 0 3] 1 2 19).
Proof.
  split; [reflexivity|].
  apply (candidates_keep_order (SgConfig false 30 true false) [SegInfo 2 25; SegInfo 1 10; SegInfo 1 9; SegInfo 0 3] 1 2 19 eq_refl).
  - intros [|[|[|i]]] Hi; cbn in *; lia.
  - intros [|[|[|[|i]]]]; cbn; try lia. destruct i; cbn; lia.
Defined.

(** Compaction comes to an end.  Running compactions until no pair is eligible takes fewer turns
    than there are segments, whatever their sizes become; without a size limit
    the levels that remain are strictly descending, also when they were out of order. *)
Lemma compaction_terminates (cfg : sg_config) (new_size : list seg_info -> nat -> Z) (segments : list seg_info) (fuel : nat) :
  (length segments <= S fuel)%nat ->
  exists final, compact_all cfg new_size fuel segments = Ok final /\ findCompactionCandidates cfg final = None /\
    (segments <> [] -> final <> []) /\
    (sg_readOnly cfg = false -> sg_maxSegmentSize cfg = 0 -> strictly_descending final).
Proof.
  revert segments. induction fuel as [|fuel IH]; intros segments Hlen; cbn [compact_all];
    destruct (findCompactionCandidates cfg segments) as [[pos level]|] eqn:E;
    try (exists segments; split_and!; (done || intros; by eapply no_candidate)).
  - apply candidate_range in E. lia.
  - pose proof (candidate_range _ _ _ _ E) as Hp. pose proof (length_replace_pair segments pos level (new_size segments pos) Hp) as Hl.
    destruct (IH (replace_pair segments pos level (new_size segments pos))) as (final & H1 & H2 & H3 & H4); [lia|].
    exists final. split_and!; try done. intros _. apply H3. unfold replace_pair. by destruct (take pos segments).
Qed.

Lemma compaction_terminates_witness :
  compact_all plain (fun _ _ => 1) 3 (levels [1; 1; 0; 0]) = Ok (levels [2; 1]) /\
  exists final, compact_all plain (fun _ _ => 1) 5 (levels [0; 2; 1; 4; 3; 3]) = Ok final /\ strictly_descending final.
Proof.
  split; [reflexivity|].
  destruct (compaction_terminates plain (fun _ _ => 1) (levels [0; 2; 1; 4; 3; 3]) 5) as (final & H & _ & _ & Hs); [cbn; lia|].
  exists final. split; [exact H|]. apply Hs; reflexivity.
Defined.
