(* ===== verification/ReplaceCursor.v ===== *)
(** * Cursors over a bucket of strategy "replace"

    [cursor_memtable_replace.go], the adapter of [cursor_segment_replace.go] and the
    merging cursor [CursorReplace] of [cursor_bucket_replace.go].  A scan
    returns every key of the bucket that is not deleted once, in key order, with
    its newest value. *)

From S2P Require Import Prelude ByteOps RBTree SearchTree SegmentIndex IndexLayout DiskTree MemtableTree ReplaceNode SegmentFile ReplaceSegment ReplaceCompactor ReplaceBucket.
Import Replace.

(** ** innerCursorReplace *)

(** Key, value and error of a call; a nil slice is [None]. *)
Definition kv_result : Type := option (list Z) * option (list Z) * option store_error.

Class InnerCursor (C : Type) : Type := {
  ic_first : C -> outcome store_error (kv_result * C);
  ic_next : C -> outcome store_error (kv_result * C);
  ic_seek : C -> list Z -> outcome store_error (kv_result * C) }.

(** What a cursor answers at an entry, and at the end *)
Definition kv_of (o : option bs_data) (r : kv_result) : Prop :=
  match o with
  | Some n => r = (Some (key n), if tombstone n then None else Some (value n), if tombstone n then Some (EGet Deleted) else None)
  | None => exists e, r = (None, None, Some e) /\ is_Deleted e = false /\ is_NotFound e = true
  end.

(** What a merging cursor relies on: [ic_ready c l] holds of a cursor over the
    entries [l], [ic_at c l rest] of one whose last call answered for the head of
    [rest]. *)
Class InnerCursorLaws (C : Type) `{!InnerCursor C} : Type := {
  ic_ready : C -> list bs_data -> Prop;
  ic_at : C -> list bs_data -> list bs_data -> Prop;
  ic_at_ready : forall c l rest, ic_at c l rest -> ic_ready c l;
  ic_first_law : forall c l, ic_ready c l ->
    exists r c', ic_first c = Ok (r, c') /\ kv_of (head l) r /\ ic_at c' l l;
  ic_next_law : forall c l n rest, ic_at c l (n :: rest) ->
    exists r c', ic_next c = Ok (r, c') /\ kv_of (head rest) r /\ ic_at c' l rest;
  ic_seek_law : forall c l k, ic_ready c l -> Forall is_byte k ->
    exists r c' l1 rest, l = l1 ++ rest /\ Forall (fun n => bytes_compare k (key n) = Gt) l1 /\
      (forall n rest', rest = n :: rest' -> bytes_compare k (key n) <> Gt) /\
      ic_seek c k = Ok (r, c') /\ kv_of (head rest) r /\ ic_at c' l rest }.

(** ** memtableCursor *)

(** A cursor by primary key: [keySorted] is set. *)
Record memtableCursor : Type := MemCursor { mc_data : list bs_data; mc_current : nat }.

Definition memtable_newCursor (m : Memtable) : outcome store_error memtableCursor :=
  let! flat := omap_err EGet (bst_flattenInOrder (mt_key m)) in Ok (MemCursor flat.*1 0).

Definition memtable_newCursorWithRange (m : Memtable) (min max : option (list Z)) : outcome store_error memtableCursor :=
  let! flat := omap_err EGet (bst_flattenInOrderRange (mt_key m) min max) in Ok (MemCursor flat.*1 0).

Definition mc_answer (c : memtableCursor) : kv_result :=
  match mc_data c !! mc_current c with
  | None => (None, None, Some (EGet NotFound))
  | Some n => if tombstone n then (Some (key n), None, Some (EGet Deleted)) else (Some (key n), Some (value n), None)
  end.

Definition mc_first (c : memtableCursor) : outcome store_error (kv_result * memtableCursor) :=
  match mc_data c with
  | [] => Ok ((None, None, Some (EGet NotFound)), c)
  | _ => let c := MemCursor (mc_data c) 0 in Ok (mc_answer c, c)
  end.

Definition mc_next (c : memtableCursor) : outcome store_error (kv_result * memtableCursor) :=
  let c := MemCursor (mc_data c) (S (mc_current c)) in Ok (mc_answer c, c).

(** [sort.Search] over [0, n): the binary search of the standard library *)
Fixpoint sort_Search (fuel : nat) (f : nat -> bool) (i j : nat) : nat :=
  match fuel with
  | O => i
  | S fuel =>
      if (i <? j)%nat then
        let h := ((i + j) / 2)%nat in
        if negb (f h) then sort_Search fuel f (S h) j else sort_Search fuel f i h
      else i
  end.

Definition posLargerThanEqual (c : memtableCursor) (k : list Z) : option nat :=
  let f i := match mc_data c !! i with
             | Some n => match bytes_compare (key n) k with Lt => false | _ => true end
             | None => true
             end in
  let pos := sort_Search (length (mc_data c)) f 0 (length (mc_data c)) in
  if (pos =? length (mc_data c))%nat then None else Some pos.

Definition mc_seek (c : memtableCursor) (k : list Z) : outcome store_error (kv_result * memtableCursor) :=
  match posLargerThanEqual c k with
  | None => Ok ((None, None, Some (EGet NotFound)), c)
  | Some pos => let c := MemCursor (mc_data c) pos in Ok (mc_answer c, c)
  end.

#[export] Instance memtableCursor_inner : InnerCursor memtableCursor :=
  {| ic_first := mc_first; ic_next := mc_next; ic_seek := mc_seek |}.

(** ** reusableInnerCursorReplace *)

Section segment_cursor.
Context {F : Type} `{!Bloom F}.

Definition reusable_first (c : segmentCursorReplaceReusable F) : outcome store_error (kv_result * segmentCursorReplaceReusable F) :=
  let! (r, c) := cr_first c in let! kv := nodeToKV r c in Ok (kv, c).
Definition reusable_next (c : segmentCursorReplaceReusable F) : outcome store_error (kv_result * segmentCursorReplaceReusable F) :=
  let! (r, c) := cr_next c in let! kv := nodeToKV r c in Ok (kv, c).
Definition reusable_seek (c : segmentCursorReplaceReusable F) (k : list Z) : outcome store_error (kv_result * segmentCursorReplaceReusable F) :=
  let! (r, c) := cr_seek c k in let! kv := nodeToKV r c in Ok (kv, c).

#[export] Instance reusable_inner : InnerCursor (segmentCursorReplaceReusable F) :=
  {| ic_first := reusable_first; ic_next := reusable_next; ic_seek := reusable_seek |}.
End segment_cursor.

(** Cursors of two kinds *)
#[export] Instance sum_inner {C1 C2} `{!InnerCursor C1, !InnerCursor C2} : InnerCursor (C1 + C2) :=
  {| ic_first := fun c => match c with
       | inl c => let! (r, c) := ic_first c in Ok (r, inl c) | inr c => let! (r, c) := ic_first c in Ok (r, inr c) end;
     ic_next := fun c => match c with
       | inl c => let! (r, c) := ic_next c in Ok (r, inl c) | inr c => let! (r, c) := ic_next c in Ok (r, inr c) end;
     ic_seek := fun c k => match c with
       | inl c => let! (r, c) := ic_seek c k in Ok (r, inl c) | inr c => let! (r, c) := ic_seek c k in Ok (r, inr c) end |}.

(** ** CursorReplace *)

Section merging.
Context {C : Type} `{!InnerCursor C}.

(** [cursorStateReplace] *)
Record cursorState : Type := CState { st_key : option (list Z); st_value : option (list Z); st_err : option store_error }.

(** The served key is a nil slice as long as only empty keys were served. *)
Record CursorReplace : Type := MkCursor {
  c_innerCursors : list C;
  c_state : list cursorState;
  c_serveKey : option (list Z);
  c_emitTombstones : bool }.

Definition err_is (p : store_error -> bool) (e : option store_error) : bool := match e with Some e => p e | None => false end.

(** The state after a call on an inner cursor; another error panics. *)
Definition state_of (r : kv_result) : outcome store_error cursorState :=
  let '(k, v, e) := r in
  if err_is is_NotFound e then Ok (CState None None e)
  else if err_is is_Deleted e then Ok (CState k None e)
  else match e with Some _ => Panic | None => Ok (CState k v None) end.

Fixpoint move_all (move : C -> outcome store_error (kv_result * C)) (cs : list C) : outcome store_error (list C * list cursorState) :=
  match cs with
  | [] => Ok ([], [])
  | c :: cs =>
      let! (r, c) := move c in
      let! s := state_of r in
      let! (cs, ss) := move_all move cs in
      Ok (c :: cs, s :: ss)
  end.

(** [cursorWithLowestKey]: a position, or none when all cursors are exhausted *)
Fixpoint lowest_from (i : nat) (state : list cursorState) (pos : option nat) (lowest : option (list Z)) : option nat :=
  match state with
  | [] => pos
  | res :: state =>
      if err_is is_NotFound (st_err res) then lowest_from (S i) state pos lowest
      else if match lowest with
              | None => true
              | Some l => match bytes_compare (deref (st_key res)) l with Gt => false | _ => true end
              end
      then lowest_from (S i) state (Some i) (st_key res)
      else lowest_from (S i) state pos lowest
  end.

Definition cursorWithLowestKey (state : list cursorState) : option nat := lowest_from 0 state None None.

Fixpoint duplicates_from (i : nat) (state : list cursorState) (id : nat) (k : list Z) : list nat :=
  match state with
  | [] => []
  | cur :: state =>
      if (i =? id)%nat || bool_decide (k = deref (st_key cur)) then i :: duplicates_from (S i) state id k
      else duplicates_from (S i) state id k
  end.

Definition haveDuplicatesInState (state : list cursorState) (id : nat) : list nat :=
  match state !! id with Some s => duplicates_from 0 state id (deref (st_key s)) | None => [] end.

Definition advanceInner (cs : list C) (state : list cursorState) (id : nat) : outcome store_error (list C * list cursorState) :=
  match cs !! id with
  | None => Panic
  | Some c =>
      let! (r, c) := ic_next c in
      let! s := state_of r in
      Ok (<[id := c]> cs, <[id := s]> state)
  end.

Fixpoint advance_each (cs : list C) (state : list cursorState) (ids : list nat) : outcome store_error (list C * list cursorState) :=
  match ids with
  | [] => Ok (cs, state)
  | id :: ids => let! (cs, state) := advanceInner cs state id in advance_each cs state ids
  end.

(** The key after [copyStateIntoServeCache] *)
Definition serve_key (cache : option (list Z)) (k : list Z) : option (list Z) :=
  match k, cache with [], None => None | _, _ => Some k end.

Fixpoint serveCurrentStateAndAdvance (fuel : nat) (c : CursorReplace) :
    outcome store_error ((option (list Z) * option (list Z)) * CursorReplace) :=
  match fuel with
  | O => OutOfFuel
  | S fuel =>
      match cursorWithLowestKey (c_state c) with
      | None => Ok ((None, None), c)
      | Some id =>
          let ids := haveDuplicatesInState (c_state c) id in
          match last ids with
          | None => Panic
          | Some top =>
              match c_state c !! top with
              | None => Panic
              | Some s =>
                  let k := serve_key (c_serveKey c) (deref (st_key s)) in
                  let! (cs, state) := advance_each (c_innerCursors c) (c_state c) ids in
                  let c := MkCursor cs state k (c_emitTombstones c) in
                  if err_is is_Deleted (st_err s) then
                    if c_emitTombstones c then Ok ((k, None), c) else serveCurrentStateAndAdvance fuel c
                  else Ok ((k, Some (deref (st_value s))), c)
              end
          end
      end
  end.

Definition cursor_First (fuel : nat) (c : CursorReplace) : outcome store_error ((option (list Z) * option (list Z)) * CursorReplace) :=
  let! (cs, state) := move_all ic_first (c_innerCursors c) in
  serveCurrentStateAndAdvance fuel (MkCursor cs state (c_serveKey c) (c_emitTombstones c)).

Definition cursor_Seek (fuel : nat) (c : CursorReplace) (k : list Z) :
    outcome store_error ((option (list Z) * option (list Z)) * CursorReplace) :=
  let! (cs, state) := move_all (fun c => ic_seek c k) (c_innerCursors c) in
  serveCurrentStateAndAdvance fuel (MkCursor cs state (c_serveKey c) (c_emitTombstones c)).

Definition cursor_Next (fuel : nat) (c : CursorReplace) : outcome store_error ((option (list Z) * option (list Z)) * CursorReplace) :=
  serveCurrentStateAndAdvance fuel c.

(** A loop of a caller: [for k, v := c.First(); k != nil; k, v = c.Next()] *)
Fixpoint collect (fuel : nat) (r : outcome store_error ((option (list Z) * option (list Z)) * CursorReplace)) :
    outcome store_error (list (list Z * option (list Z))) :=
  match fuel with
  | O => OutOfFuel
  | S fuel' =>
      let! ((k, v), c) := r in
      match k with
      | None => Ok []
      | Some k => let! rest := collect fuel' (cursor_Next fuel c) in Ok ((k, v) :: rest)
      end
  end.

(** From the start, or from a key on *)
Definition scan (fuel : nat) (c : CursorReplace) (start : option (list Z)) : outcome store_error (list (list Z * option (list Z))) :=
  collect fuel (match start with None => cursor_First fuel c | Some k => cursor_Seek fuel c k end).
End merging.
Arguments CursorReplace : clear implicits.

(** ** The cursors of a bucket *)

Section bucket_cursors.
Context {F : Type} `{!Bloom F}.

(** [newCursor], or [newCursorWithRange] when bounds are given *)
Definition open_memtable (range : option (option (list Z) * option (list Z))) (m : Memtable) : outcome store_error memtableCursor :=
  match range with None => memtable_newCursor m | Some (min, max) => memtable_newCursorWithRange m min max end.

Fixpoint memtable_cursors (range : option (option (list Z) * option (list Z))) (ms : list Memtable) :
    outcome store_error (list (segmentCursorReplaceReusable F + memtableCursor)) :=
  match ms with
  | [] => Ok []
  | m :: ms => let! c := open_memtable range m in let! cs := memtable_cursors range ms in Ok (inr c :: cs)
  end.

(** [CursorReplaceReusable], with a prefix [CursorReplaceDigestReusable] and with bounds
    [CursorReplaceDigestReusableRange]: from old to new *)
Definition bucket_cursor (b : Bucket F) (valuePrefixLen : Z) (range : option (option (list Z) * option (list Z))) :
    outcome store_error (CursorReplace (segmentCursorReplaceReusable F + memtableCursor)) :=
  let disk := map (fun s => inl (newReplaceCursorReusableWithPrefix s valuePrefixLen)) (b_disk b) in
  let! mem := memtable_cursors range (rev (viewMemtables b)) in
  Ok (MkCursor (disk ++ mem) [] None false).

(** [CursorInMem] and [CursorInMemWithTombstones] *)
Definition bucket_cursorInMem (b : Bucket F) (emitTombstones : bool) :
    outcome store_error (CursorReplace (segmentCursorReplaceReusable F + memtableCursor)) :=
  let! mem := memtable_cursors None (rev (viewMemtables b)) in Ok (MkCursor mem [] None emitTombstones).
End bucket_cursors.

(** * Properties *)

(** ** The merge of sorted lists *)

(** The order of keys, and what the lists hold of a key; the last list is newest. *)
Definition key_le (x y : list Z) : Prop := bytes_compare x y <> Gt.

Lemma key_le_refl x : key_le x x.
Proof. unfold key_le. by rewrite (proj2 (bytes_compare_eq x x)). Qed.

Lemma key_le_trans x y z : key_le x y -> key_le y z -> key_le x z.
Proof. apply Map.compare_le_trans. Qed.

Lemma key_lt_le x y : before x y -> key_le x y.
Proof. unfold before, key_le. by intros ->. Qed.

Lemma key_le_cases x y : key_le x y -> x = y \/ before x y.
Proof. unfold key_le, before. intros H. destruct (bytes_compare x y) eqn:E; [left; by apply bytes_compare_eq|by right|done]. Qed.

Lemma key_not_le x y : bytes_compare x y = Gt -> before y x.
Proof. unfold before. intros H. by rewrite bytes_compare_antisym, H. Qed.

Lemma key_lt_le_trans x y z : before x y -> key_le y z -> before x z.
Proof. intros H [<-|H']%key_le_cases; [done|]. by apply (bytes_compare_trans x y z). Qed.

Definition newest_of (rests : list (list bs_data)) (k : list Z) : option bs_data := newest (map (lookup_key key k) (rev rests)).

(** What a scan shows of a key *)
Definition visible (emit : bool) (o : option bs_data) : option (option (list Z)) :=
  match o with
  | Some n => if tombstone n then (if emit then Some None else None) else Some (Some (value n))
  | None => None
  end.

Definition rest_ok (rest : list bs_data) : Prop := sorted_keys key rest /\ Forall (fun n => key n <> []) rest.

Definition above (k : list Z) (rest : list bs_data) : Prop := forall n, n ∈ rest -> key_le k (key n).

(** The list behind the entry of a key *)
Definition drop_key (k : list Z) (rest : list bs_data) : list bs_data :=
  match rest with n :: tl => if bool_decide (key n = k) then tl else rest | [] => [] end.

Lemma newest_of_cons rest rests k :
  newest_of (rest :: rests) k = match newest_of rests k with Some n => Some n | None => lookup_key key k rest end.
Proof.
  unfold newest_of. cbn [rev]. rewrite map_app, newest_app. destruct (newest _); [done|]. cbn. by destruct (lookup_key key k rest).
Qed.

Lemma rest_ok_drop k rest : rest_ok rest -> rest_ok (drop_key k rest).
Proof.
  intros [Hs Hk]. unfold drop_key. destruct rest as [|n tl]; [done|]. case_bool_decide; [|done].
  apply sorted_keys_cons in Hs as [Hs _]. by inversion_clear Hk.
Qed.

Lemma head_above rest k : rest_ok rest -> (forall n, head rest = Some n -> key_le k (key n)) -> above k rest.
Proof.
  intros [Hs _] Hh n Hn. destruct rest as [|m tl]; [by apply not_elem_of_nil in Hn|]. apply sorted_keys_cons in Hs as [_ Hs].
  apply elem_of_cons in Hn as [->|Hn]; [by apply Hh|]. eapply key_le_trans; [by apply Hh|]. by apply key_lt_le, Hs.
Qed.

Lemma lookup_below k k' rest : above k rest -> before k' k -> lookup_key key k' rest = None.
Proof.
  intros Ha Hb. apply lookup_key_absent. intros n Hn <-. eapply before_irrefl, key_lt_le_trans; [exact Hb|]. by apply Ha.
Qed.

Lemma lookup_drop_key k k' rest :
  rest_ok rest -> above k rest ->
  lookup_key key k' (drop_key k rest) = if bool_decide (k' = k) then None else lookup_key key k' rest.
Proof.
  intros [Hs _] Ha. unfold drop_key. destruct rest as [|n tl]; [by case_bool_decide|].
  pose proof Hs as Hs'. apply sorted_keys_cons in Hs as [Hs Hn]. case_bool_decide as E.
  - rewrite (lookup_cons n). rewrite E. case_bool_decide as E'.
    + apply lookup_above with (n := n); [done|congruence].
    + by rewrite bool_decide_false by congruence.
  - case_bool_decide as E'; [subst k'|done]. apply lookup_key_absent. intros m [->|Hm]%elem_of_cons; [done|].
    intros Hk. apply Hn in Hm. rewrite Hk in Hm. eapply before_irrefl, key_lt_le_trans; [exact Hm|]. apply Ha, list_elem_of_here.
Qed.

(** One step of the merge: the smallest key leaves all lists. *)
Lemma newest_drop k k' rests :
  Forall rest_ok rests -> Forall (above k) rests ->
  newest_of (drop_key k <$> rests) k' = if bool_decide (k' = k) then None else newest_of rests k'.
Proof.
  induction 1 as [|rest rests Hr _ IH]; intros Ha; [by case_bool_decide|]. inversion_clear Ha as [|? ? Ha1 Ha2].
  rewrite fmap_cons, !newest_of_cons, IH, lookup_drop_key by done. by case_bool_decide.
Qed.

Lemma newest_below k k' rests : Forall (above k) rests -> before k' k -> newest_of rests k' = None.
Proof.
  intros Ha Hb. induction Ha as [|rest rests Hr _ IH]; [done|]. rewrite newest_of_cons, IH. by eapply lookup_below.
Qed.

Lemma newest_exhausted k rests : Forall (fun r => r = []) rests -> newest_of rests k = None.
Proof. induction 1 as [|rest rests -> _ IH]; [done|]. by rewrite newest_of_cons, IH. Qed.

Lemma newest_absent k rests rest n : newest_of rests k = None -> rest ∈ rests -> n ∈ rest -> key n = k -> False.
Proof.
  induction rests as [|r rests IH]; intros Hn Hr Hin Hk; [by apply not_elem_of_nil in Hr|]. rewrite newest_of_cons in Hn.
  destruct (newest_of rests k) eqn:E; [done|]. apply elem_of_cons in Hr as [->|Hr]; [|by apply IH].
  unfold lookup_key in Hn. eapply List.find_none in Hn; [|by apply list_elem_of_In]. by rewrite bool_decide_true in Hn.
Qed.

Definition total (rests : list (list bs_data)) : nat := foldr (fun r acc => length r + acc)%nat 0%nat rests.

Lemma total_drop k rests :
  (total (drop_key k <$> rests) <= total rests)%nat /\
  ((exists n, Some n ∈ head <$> rests /\ key n = k) -> (total (drop_key k <$> rests) < total rests)%nat).
Proof.
  induction rests as [|r rests [IH1 IH2]]; [split; [done|]; intros (n & Hn & _); by apply not_elem_of_nil in Hn|].
  rewrite !fmap_cons. cbn [total foldr]. fold (total rests) (total (drop_key k <$> rests)).
  assert (Hd : (length (drop_key k r) <= length r)%nat).
  { unfold drop_key. destruct r; [done|]. case_bool_decide; cbn [length]; lia. }
  split; [lia|]. intros (n & Hn & Hk). apply elem_of_cons in Hn as [Hn|Hn].
  - destruct r as [|m tl]; [done|]. injection Hn as ->. cbn [drop_key] in *. rewrite bool_decide_true in * by done. cbn [length]. lia.
  - pose proof (IH2 (ex_intro _ n (conj Hn Hk))). lia.
Qed.

(** ** The state of the merging cursor *)

Definition state_for (o : option bs_data) (s : cursorState) : Prop :=
  match o with
  | Some n => s = CState (Some (key n)) (if tombstone n then None else Some (value n)) (if tombstone n then Some (EGet Deleted) else None)
  | None => exists e, s = CState None None (Some e) /\ is_NotFound e = true
  end.

Lemma state_of_kv o r : kv_of o r -> exists s, state_of r = Ok s /\ state_for o s.
Proof.
  destruct o as [n|]; cbn [kv_of state_for].
  - intros ->. eexists. split; [|done]. by destruct (tombstone n).
  - intros (e & -> & Hd & Hn). eexists. split; [|by exists e]. cbn [state_of err_is]. by rewrite Hn.
Qed.

(** [cursorWithLowestKey] finds a smallest key among the heads. *)
Lemma lowest_from_spec ss os : Forall2 state_for os ss -> forall i pos lowest,
  (exists j n, lowest_from i ss pos lowest = Some (i + j)%nat /\ os !! j = Some (Some n) /\
     (forall m, Some m ∈ os -> key_le (key n) (key m)) /\ (forall l, lowest = Some l -> key_le (key n) l)) \/
  (lowest_from i ss pos lowest = pos /\ forall m, Some m ∈ os -> exists l, lowest = Some l /\ before l (key m)).
Proof.
  induction 1 as [|o s os ss Hs _ IH]; intros i pos lowest.
  { right. split; [done|]. intros m Hm. by apply not_elem_of_nil in Hm. }
  destruct o as [n|]; cbn [state_for] in Hs; cbn [lowest_from].
  - set (take_it := match lowest with None => true | Some l => match bytes_compare (deref (st_key s)) l with Gt => false | _ => true end end).
    assert (Hnf : err_is is_NotFound (st_err s) = false) by (subst s; cbn; by destruct (tombstone n)). rewrite Hnf.
    assert (Hk : st_key s = Some (key n)) by (by subst s).
    destruct take_it eqn:Et.
    + left. assert (Hl : forall l, lowest = Some l -> key_le (key n) l).
      { intros l ->. unfold take_it in Et. rewrite Hk in Et. cbn [deref] in Et. unfold key_le. by destruct (bytes_compare (key n) l). }
      destruct (IH (S i) (Some i) (st_key s)) as [(j & m & -> & Hj & Hm & Hl')|[-> Hm]].
      * exists (S j), m. rewrite Nat.add_succ_r. split_and!; [done|done| |].
        -- intros x [[= ->]|Hx]%elem_of_cons; [by apply Hl'|by apply Hm].
        -- intros l Hll. eapply key_le_trans; [by apply Hl'|by apply Hl].
      * exists 0%nat, n. rewrite Nat.add_0_r. split_and!; [done|done| |done].
        intros x [[= ->]|Hx]%elem_of_cons; [apply key_le_refl|]. destruct (Hm x Hx) as (l & Hll & Hb).
        rewrite Hk in Hll. injection Hll as <-. by apply key_lt_le.
    + assert (Hl : exists l, lowest = Some l /\ before l (key n)).
      { unfold take_it in Et. rewrite Hk in Et. destruct lowest as [l|]; [|done]. cbn [deref] in Et. exists l. split; [done|].
        destruct (bytes_compare (key n) l) eqn:E; [done|done|]. by apply key_not_le. }
      destruct Hl as (l & Hll & Hb). destruct (IH (S i) pos lowest) as [(j & m & -> & Hj & Hm & Hl')|[-> Hm]].
      * left. exists (S j), m. rewrite Nat.add_succ_r. split_and!; [done|done| |done].
        intros x [[= ->]|Hx]%elem_of_cons; [|by apply Hm]. eapply key_le_trans; [by apply Hl'|by apply key_lt_le].
      * right. split; [done|]. intros x [[= ->]|Hx]%elem_of_cons; [by exists l|by apply Hm].
  - destruct Hs as (e & -> & He). cbn [st_err err_is]. rewrite He.
    destruct (IH (S i) pos lowest) as [(j & m & -> & Hj & Hm & Hl')|[-> Hm]].
    + left. exists (S j), m. rewrite Nat.add_succ_r. split_and!; [done|done| |done]. intros x [?|Hx]%elem_of_cons; [done|by apply Hm].
    + right. split; [done|]. intros x [?|Hx]%elem_of_cons; [done|by apply Hm].
Qed.

(** The positions whose head has the key *)
Fixpoint hits (i : nat) (rests : list (list bs_data)) (k : list Z) : list nat :=
  match rests with
  | [] => []
  | (n :: _) :: rests => if bool_decide (key n = k) then i :: hits (S i) rests k else hits (S i) rests k
  | [] :: rests => hits (S i) rests k
  end.

Lemma duplicates_hits ss rests : Forall2 state_for (head <$> rests) ss -> forall i id k,
  k <> [] -> (forall j, (i + j)%nat = id -> exists n, rests !! j ≫= head = Some n /\ key n = k) ->
  duplicates_from i ss id k = hits i rests k.
Proof.
  revert ss. induction rests as [|rest rests IH]; intros ss Hs i id k Hk Hid; inversion Hs as [|? s ? ss' Ho Hs']; subst; [done|].
  cbn [duplicates_from hits].
  assert (Hrec : duplicates_from (S i) ss' id k = hits (S i) rests k).
  { apply IH; [done..|]. intros j Hj. apply (Hid (S j)). lia. }
  rewrite Hrec. destruct rest as [|n tl]; cbn [head state_for] in Ho.
  - destruct Ho as (e & -> & _). cbn [st_key deref]. rewrite (bool_decide_false (k = [])) by done. rewrite orb_false_r.
    destruct (Nat.eqb_spec i id) as [E|E]; [|done]. destruct (Hid 0%nat) as (n & Hn & _); [lia|done].
  - subst s. cbn [st_key deref]. case_bool_decide as E; [rewrite orb_true_r, bool_decide_true by done; done|].
    rewrite orb_false_r, (bool_decide_false (key n = k)) by congruence.
    destruct (Nat.eqb_spec i id) as [Ei|Ei]; [|done]. destruct (Hid 0%nat) as (m & Hm & Hkm); [lia|]. cbn in Hm. congruence.
Qed.

(** The last of them holds the newest entry. *)
Lemma last_hit rests k : Forall rest_ok rests -> Forall (above k) rests -> forall i,
  match last (hits i rests k) with
  | Some top => exists j n, top = (i + j)%nat /\ rests !! j ≫= head = Some n /\ key n = k /\ newest_of rests k = Some n
  | None => newest_of rests k = None
  end.
Proof.
  induction 1 as [|rest rests Hr _ IH]; intros Ha i; [done|]. inversion_clear Ha as [|? ? Ha1 Ha2].
  specialize (IH Ha2 (S i)).
  assert (Hl : lookup_key key k rest = match rest with n :: _ => if bool_decide (key n = k) then Some n else None | [] => None end).
  { destruct rest as [|n tl]; [done|]. rewrite lookup_cons. case_bool_decide as E; [done|].
    pose proof (lookup_drop_key k k (n :: tl) Hr Ha1) as Hd. unfold drop_key in Hd. rewrite (bool_decide_false _ E), (bool_decide_true (k = k)) in Hd by done.
    by rewrite lookup_cons, bool_decide_false in Hd. }
  assert (Hskip : match last (hits (S i) rests k) with
    | Some top => exists j n, top = (i + j)%nat /\ (rest :: rests) !! j ≫= head = Some n /\ key n = k /\ newest_of (rest :: rests) k = Some n
    | None => newest_of (rest :: rests) k = lookup_key key k rest end).
  { rewrite newest_of_cons. destruct (last (hits (S i) rests k)) as [top|]; [|by rewrite IH].
    destruct IH as (j & n & -> & Hj & Hk & ->). exists (S j), n. split; [lia|done]. }
  rewrite Hl in Hskip. cbn [hits]. destruct rest as [|n tl]; [exact Hskip|]. case_bool_decide as E; [|exact Hskip].
  rewrite last_cons. destruct (last (hits (S i) rests k)) as [top|]; [exact Hskip|].
  exists 0%nat, n. split_and!; [lia|done|done|done].
Qed.

Lemma insert_middle {A} (p : list A) x y q : <[length p := y]> (p ++ x :: q) = p ++ y :: q.
Proof. induction p as [|z p IH]; [done|]. cbn. f_equal. exact IH. Qed.

Section merge_laws.
Context {C : Type} `{!InnerCursor C, !InnerCursorLaws C}.

(** The inner cursors stand at the lists [lrs.*2] within [lrs.*1]. *)
Definition tracks (cs : list C) (ss : list cursorState) (lrs : list (list bs_data * list bs_data)) : Prop :=
  Forall2 (fun c lr => ic_at c lr.1 lr.2) cs lrs /\ Forall2 state_for (head <$> lrs.*2) ss.

Definition drop_rest (k : list Z) (lr : list bs_data * list bs_data) : list bs_data * list bs_data := (lr.1, drop_key k lr.2).

Lemma advance_hits k cs ss lrs : tracks cs ss lrs -> forall pc ps,
  length ps = length pc ->
  exists cs' ss', advance_each (pc ++ cs) (ps ++ ss) (hits (length pc) lrs.*2 k) = Ok (pc ++ cs', ps ++ ss') /\
    tracks cs' ss' (drop_rest k <$> lrs).
Proof.
  revert cs ss. induction lrs as [|[l rest] lrs IH]; intros cs ss [Hc Hs] pc ps Hlen;
    inversion Hc as [|c ? cs1 ? Hc1 Hc2]; subst; inversion Hs as [|? s ? ss1 Hs1 Hs2]; subst; [by exists [], []|].
  cbn [fst snd] in Hc1. rewrite !fmap_cons. cbn [hits snd].
  (* one step keeps the prefix and continues with the rest *)
  assert (Hgo : forall c' s', ic_at c' l (drop_key k rest) -> state_for (head (drop_key k rest)) s' ->
    exists cs' ss', advance_each (pc ++ c' :: cs1) (ps ++ s' :: ss1) (hits (S (length pc)) lrs.*2 k) = Ok (pc ++ cs', ps ++ ss') /\
      tracks cs' ss' (drop_rest k (l, rest) :: (drop_rest k <$> lrs))).
  { intros c' s' Hc' Hs'. destruct (IH cs1 ss1 (conj Hc2 Hs2) (pc ++ [c']) (ps ++ [s'])) as (cs' & ss' & He & Ht & Ht').
    { rewrite !length_app. cbn [length]. lia. }
    exists (c' :: cs'), (s' :: ss'). rewrite length_app in He. cbn [length] in He. rewrite Nat.add_1_r, <- !app_assoc in He. cbn [app] in He.
    split; [exact He|]. split; by constructor. }
  destruct rest as [|n tl]; cbn [drop_key] in Hgo; [by apply Hgo|]. case_bool_decide as E; [|by apply Hgo].
  cbn [advance_each]. unfold advanceInner. rewrite list_lookup_middle by done.
  destruct (ic_next_law c l n tl Hc1) as (r & c' & -> & Hr & Hc'). cbn [obind].
  destruct (state_of_kv _ _ Hr) as (s' & -> & Hs'). cbn [obind].
  assert (Hi : <[length pc := s']> (ps ++ s :: ss1) = ps ++ s' :: ss1) by (rewrite <- Hlen; apply insert_middle).
  rewrite insert_middle, Hi. by apply Hgo.
Qed.

(** ** serveCurrentStateAndAdvance *)

(** The cursor stands at sorted lists with keys that are not empty. *)
Definition merging (c : CursorReplace C) (rests : list (list bs_data)) : Prop :=
  exists lrs, lrs.*2 = rests /\ tracks (c_innerCursors c) (c_state c) lrs /\ Forall rest_ok rests.

(** The lowest position, and what is known of its key *)
Lemma lowest_head ss rests :
  Forall2 state_for (head <$> rests) ss -> Forall rest_ok rests ->
  match cursorWithLowestKey ss with
  | None => forall k, newest_of rests k = None
  | Some id => exists n, rests !! id ≫= head = Some n /\ key n <> [] /\ Forall (above (key n)) rests
  end.
Proof.
  intros Hs Hok. unfold cursorWithLowestKey.
  destruct (lowest_from_spec _ _ Hs 0%nat None None) as [(j & n & -> & Hj & Hmin & _)|[-> Hno]].
  2:{ intros k. apply newest_exhausted, Forall_forall. intros r Hr. destruct r as [|m tl]; [done|].
      destruct (Hno m) as (? & ? & _); [|done]. apply list_elem_of_fmap. by exists (m :: tl). }
  exists n. cbn [Nat.add]. rewrite list_lookup_fmap in Hj. destruct (rests !! j) as [rest|] eqn:Hrest; [|done]. injection Hj as Hj.
  split_and!; [done| |].
  - pose proof (Forall_lookup_1 _ _ _ _ Hok Hrest) as [_ Hne]. destruct rest as [|m tl]; [done|]. injection Hj as ->. by inversion_clear Hne.
  - apply Forall_forall. intros r Hr. rewrite Forall_forall in Hok. apply head_above; [by apply Hok|]. intros m Hm. apply Hmin.
    apply list_elem_of_fmap. by exists r.
Qed.

Lemma lookup_heads (rests : list (list bs_data)) j n : rests !! j ≫= head = Some n -> (head <$> rests) !! j = Some (Some n).
Proof. rewrite list_lookup_fmap. intros H. destruct (rests !! j) as [r|]; [|done]. cbn in H |- *. by rewrite H. Qed.

Lemma duplicates_of_lowest ss rests id n :
  Forall2 state_for (head <$> rests) ss -> rests !! id ≫= head = Some n -> key n <> [] ->
  haveDuplicatesInState ss id = hits 0 rests (key n).
Proof.
  intros Hs Hn Hk. destruct (Forall2_lookup_l _ _ _ _ _ Hs (lookup_heads _ _ _ Hn)) as (s & Hs1 & Hs2).
  unfold haveDuplicatesInState. rewrite Hs1. cbn [state_for] in Hs2. subst s. cbn [st_key deref].
  apply duplicates_hits; [done..|]. intros j Hj. cbn in Hj. subst j. by exists n.
Qed.

(** The entry that is served, its position and the lists behind it *)
Lemma merging_step c rests :
  merging c rests ->
  match cursorWithLowestKey (c_state c) with
  | None => forall k, newest_of rests k = None
  | Some id => exists top n s cs ss,
      let ids := haveDuplicatesInState (c_state c) id in
      last ids = Some top /\ c_state c !! top = Some s /\ state_for (Some n) s /\ key n <> [] /\
      Forall (above (key n)) rests /\ newest_of rests (key n) = Some n /\
      advance_each (c_innerCursors c) (c_state c) ids = Ok (cs, ss) /\
      (forall sk, merging (MkCursor cs ss sk (c_emitTombstones c)) (drop_key (key n) <$> rests)) /\
      (total (drop_key (key n) <$> rests) < total rests)%nat
  end.
Proof.
  intros (lrs & <- & [Hc Hs] & Hok). pose proof (lowest_head _ _ Hs Hok) as Hlow.
  destruct (cursorWithLowestKey (c_state c)) as [id|]; [|done]. destruct Hlow as (n & Hn & Hk & Ha).
  rewrite (duplicates_of_lowest _ _ id n Hs Hn Hk).
  pose proof (last_hit _ _ Hok Ha 0%nat) as Hlast. destruct (total_drop (key n) lrs.*2) as [_ Htot].
  assert (Hhas : exists m, Some m ∈ head <$> lrs.*2 /\ key m = key n).
  { exists n. split; [|done]. eapply list_elem_of_lookup_2, lookup_heads, Hn. }
  destruct (last (hits 0 lrs.*2 (key n))) as [top|] eqn:El.
  2:{ exfalso. destruct (lrs.*2 !! id) as [[|x tl]|] eqn:Er; [done| |done]. cbn in Hn. injection Hn as ->.
      apply (newest_absent (key n) lrs.*2 (n :: tl) n); [done|by eapply list_elem_of_lookup_2|apply list_elem_of_here|done]. }
  destruct Hlast as (j & m & -> & Hj & Hkm & Hnew). cbn [Nat.add] in El.
  destruct (Forall2_lookup_l _ _ _ _ _ Hs (lookup_heads _ _ _ Hj)) as (s & Hs1 & Hs2).
  destruct (advance_hits (key n) _ _ lrs (conj Hc Hs) [] [] eq_refl) as (cs & ss & Hadv & Htr).
  exists j, m, s, cs, ss. cbv zeta. rewrite Hkm. split_and!; try done; [|by apply Htot].
  intros sk. exists (drop_rest (key n) <$> lrs). split_and!; [by rewrite <- !list_fmap_compose|done|].
  apply Forall_fmap. eapply Forall_impl; [exact Hok|]. intros r. apply rest_ok_drop.
Qed.

(** What the lists show, key by key *)
Definition shows (emit : bool) (rests : list (list bs_data)) (k : list Z) : option (option (list Z)) := visible emit (newest_of rests k).

Lemma shows_drop emit rests k k' :
  Forall rest_ok rests -> Forall (above k) rests ->
  shows emit (drop_key k <$> rests) k' = if bool_decide (k' = k) then None else shows emit rests k'.
Proof. intros Hok Ha. unfold shows. rewrite newest_drop by done. by case_bool_decide. Qed.

Lemma shows_below emit rests k k' v : Forall (above k) rests -> shows emit rests k' = Some v -> key_le k k'.
Proof.
  intros Ha Hv Hgt. apply key_not_le in Hgt. unfold shows in Hv. by rewrite (newest_below k k' rests Ha Hgt) in Hv.
Qed.

Lemma serve_key_nonempty cache k : k <> [] -> serve_key cache k = Some k.
Proof. by destruct k. Qed.

(** The next key shown, with its value, or the end *)
Lemma serve_spec fuel : forall c rests,
  merging c rests -> (total rests < fuel)%nat ->
  let emit := c_emitTombstones c in
  (exists c', serveCurrentStateAndAdvance fuel c = Ok ((None, None), c') /\ forall k, shows emit rests k = None) \/
  (exists k v c' rests', serveCurrentStateAndAdvance fuel c = Ok ((Some k, v), c') /\
     shows emit rests k = Some v /\ (forall k' v', shows emit rests k' = Some v' -> key_le k k') /\
     merging c' rests' /\ c_emitTombstones c' = emit /\ (total rests' < total rests)%nat /\
     forall k', shows emit rests' k' = if bool_decide (k' = k) then None else shows emit rests k').
Proof.
  induction fuel as [|fuel IH]; intros c rests Hm Hfuel emit; [lia|]. cbn [serveCurrentStateAndAdvance].
  pose proof (merging_step c rests Hm) as Hstep. destruct (cursorWithLowestKey (c_state c)) as [id|].
  2:{ left. exists c. split; [done|]. intros k. unfold shows. by rewrite Hstep. }
  destruct Hstep as (top & n & s & cs & ss & Hlast & Hs & Hsn & Hk & Ha & Hnew & Hadv & Hm' & Htot).
  assert (Hok : Forall rest_ok rests) by (by destruct Hm as (? & _ & _ & ?)).
  pose proof (fun k' => shows_drop emit rests (key n) k' Hok Ha) as Hdrop.
  pose proof (fun k' v' => shows_below emit rests (key n) k' v' Ha) as Hbelow.
  cbn [state_for] in Hsn. rewrite Hlast, Hs, Hadv. subst s. cbn [st_key st_err st_value deref obind].
  rewrite (serve_key_nonempty _ _ Hk). specialize (Hm' (Some (key n))). cbn [c_emitTombstones].
  destruct (tombstone n) eqn:Et; cbn [err_is is_Deleted].
  - fold emit. fold emit in Hm'. destruct emit eqn:Ee.
    + right. eexists (key n), None, _, _. split; [reflexivity|]. split_and!; try done. unfold shows. by rewrite Hnew; cbn; rewrite Et.
    + assert (Hnone : shows false rests (key n) = None) by (unfold shows; rewrite Hnew; cbn; by rewrite Et).
      assert (Heq : forall k', shows false (drop_key (key n) <$> rests) k' = shows false rests k').
      { intros k'. rewrite Hdrop. by case_bool_decide as E; [rewrite E, Hnone|]. }
      destruct (IH _ _ Hm' ltac:(lia)) as [(c' & -> & Hc')|(k & v & c' & rests' & -> & H1 & H2 & H3 & H4 & H5 & H6)];
        cbn [c_emitTombstones] in *.
      * left. exists c'. split; [done|]. intros k. by rewrite <- Heq.
      * right. exists k, v, c', rests'. rewrite <- Heq. split_and!; try done; [|lia|].
        -- intros k' v'. rewrite <- Heq. apply H2.
        -- intros k'. rewrite <- Heq. apply H6.
  - right. eexists (key n), (Some (value n)), _, _. split; [reflexivity|]. split_and!; try done.
    unfold shows. by rewrite Hnew; cbn; rewrite Et.
Qed.

(** ** A whole scan *)

(** The scan lists what is shown, once each, in the order of the keys. *)
Definition lists (show : list Z -> option (option (list Z))) (out : list (list Z * option (list Z))) : Prop :=
  sorted_keys fst out /\ forall k v, (k, v) ∈ out <-> show k = Some v.

Lemma lists_cons show k v out :
  show k = Some v -> (forall k' v', show k' = Some v' -> key_le k k') ->
  lists (fun k' => if bool_decide (k' = k) then None else show k') out -> lists show ((k, v) :: out).
Proof.
  intros Hk Hle [Hs Hout]. split.
  - apply sorted_keys_cons. split; [done|]. intros [k' v'] Hin. apply Hout in Hin. cbn [fst]. case_bool_decide as E; [done|].
    destruct (key_le_cases _ _ (Hle _ _ Hin)) as [->|]; done.
  - intros k' v'. rewrite elem_of_cons, Hout. case_bool_decide as E; [subst k'|]; split.
    + by intros [[= ->]|?].
    + rewrite Hk. intros [= ->]. by left.
    + by intros [[= ? ?]|?].
    + by right.
Qed.

Lemma lists_ext show1 show2 out : (forall k, show1 k = show2 k) -> lists show1 out -> lists show2 out.
Proof. intros H [Hs Hout]. split; [done|]. intros k v. by rewrite <- H. Qed.

Lemma collect_spec size : forall fuel c rests,
  merging c rests -> (total rests <= size)%nat -> (size + 1 < fuel)%nat ->
  forall fuel', (size < fuel')%nat ->
  exists out, collect fuel (serveCurrentStateAndAdvance fuel' c) = Ok out /\ lists (shows (c_emitTombstones c) rests) out.
Proof.
  induction size as [size IH] using lt_wf_ind. intros fuel c rests Hm Hsize Hfuel fuel' Hfuel'.
  destruct fuel as [|fuel]; [lia|]. cbn [collect].
  destruct (serve_spec fuel' c rests Hm ltac:(lia)) as [(c' & -> & Hno)|(k & v & c' & rests' & -> & Hk & Hle & Hm' & He & Htot & Hrest)];
    cbn [obind].
  - exists []. split; [done|]. split; [constructor|]. intros k v. rewrite Hno. split; [intros H; by apply not_elem_of_nil in H|done].
  - unfold cursor_Next. destruct (IH (total rests') ltac:(lia) fuel c' rests' Hm' ltac:(lia) ltac:(lia) (S fuel) ltac:(lia)) as (out & -> & Hout).
    cbn [obind]. eexists. split; [done|]. apply lists_cons; [done|done|]. rewrite He in Hout. eapply lists_ext; [|exact Hout]. exact Hrest.
Qed.

(** A list cut at a key *)
Definition cut_at (start : option (list Z)) (l rest : list bs_data) : Prop :=
  match start with
  | None => rest = l
  | Some k => exists l1, l = l1 ++ rest /\ Forall (fun n => bytes_compare k (key n) = Gt) l1 /\
      (forall n rest', rest = n :: rest' -> bytes_compare k (key n) <> Gt)
  end.

Definition in_scan (start : option (list Z)) (k : list Z) : bool :=
  match start with None => true | Some t => match bytes_compare t k with Gt => false | _ => true end end.

Lemma cut_ok start l rest : rest_ok l -> cut_at start l rest -> rest_ok rest /\ (length rest <= length l)%nat.
Proof.
  intros [Hs Hk]. destruct start as [t|]; cbn [cut_at]; [|by intros ->]. intros (l1 & -> & _). split; [|rewrite length_app; lia].
  apply sorted_keys_app in Hs as (_ & Hs & _). apply Forall_app in Hk as [_ Hk]. by split.
Qed.

Lemma cut_lookup start l rest k :
  rest_ok l -> cut_at start l rest -> lookup_key key k rest = if in_scan start k then lookup_key key k l else None.
Proof.
  intros Hok Hcut. destruct (cut_ok _ _ _ Hok Hcut) as [Hr _]. destruct start as [t|]; cbn [cut_at in_scan] in *; [|by rewrite Hcut].
  destruct Hcut as (l1 & -> & Hl1 & Hh). rewrite lookup_key_app. rewrite Forall_forall in Hl1.
  assert (Ha : above t rest).
  { apply head_above; [done|]. intros n Hn. destruct rest as [|m tl]; [done|]. injection Hn as ->. by eapply Hh. }
  destruct (bytes_compare t k) eqn:E; [| |by eapply lookup_below; [exact Ha|apply key_not_le]].
  all: rewrite (lookup_key_absent key k l1); [done|]; intros n Hn <-; apply Hl1 in Hn; congruence.
Qed.

Lemma shows_cut emit start ls rests k :
  Forall rest_ok ls -> Forall2 (cut_at start) ls rests ->
  shows emit rests k = if in_scan start k then shows emit ls k else None.
Proof.
  intros Hok Hcut. assert (Hn : newest_of rests k = if in_scan start k then newest_of ls k else None); [|unfold shows; rewrite Hn; by destruct (in_scan start k)].
  revert Hok. induction Hcut as [|l rest ls rests Hl _ IH]; intros Hok; [by destruct (in_scan start k)|].
  inversion_clear Hok as [|? ? Hok1 Hok2]. rewrite !newest_of_cons, (cut_lookup start l rest k Hok1 Hl), (IH Hok2).
  by destruct (in_scan start k).
Qed.

Lemma move_all_spec start move cs ls :
  (forall c l, ic_ready c l -> exists r c' rest, move c = Ok (r, c') /\ kv_of (head rest) r /\ ic_at c' l rest /\ cut_at start l rest) ->
  Forall2 ic_ready cs ls ->
  exists cs' ss lrs, move_all move cs = Ok (cs', ss) /\ tracks cs' ss lrs /\ Forall2 (cut_at start) ls lrs.*2.
Proof.
  intros Hmove. induction 1 as [|c l cs ls Hc _ (cs' & ss & lrs & He & [Ht1 Ht2] & Hcut)].
  { exists [], [], []. split_and!; [done|split; constructor|constructor]. }
  cbn [move_all]. destruct (Hmove c l Hc) as (r & c' & rest & -> & Hr & Hat & Hq). cbn [obind].
  destruct (state_of_kv _ _ Hr) as (s & -> & Hs). cbn [obind]. rewrite He. cbn [obind].
  eexists _, _, ((l, rest) :: lrs). split; [reflexivity|]. split; [split; by constructor|by constructor].
Qed.

Lemma merged_scan_spec fuel c ls start :
  Forall2 ic_ready (c_innerCursors c) ls -> Forall rest_ok ls -> (forall k, start = Some k -> Forall is_byte k) ->
  (total ls + 1 < fuel)%nat ->
  exists out, scan fuel c start = Ok out /\
    lists (fun k => if in_scan start k then shows (c_emitTombstones c) ls k else None) out.
Proof.
  intros Hready Hok Hst Hfuel.
  assert (Hmove : exists cs ss lrs,
    match start with None => move_all ic_first (c_innerCursors c) | Some k => move_all (fun c => ic_seek c k) (c_innerCursors c) end = Ok (cs, ss) /\
    tracks cs ss lrs /\ Forall2 (cut_at start) ls lrs.*2).
  { destruct start as [k|]; apply move_all_spec; try done; intros c0 l Hc0.
    - destruct (ic_seek_law c0 l k Hc0 (Hst k eq_refl)) as (r & c' & l1 & rest & -> & H1 & H2 & H3 & H4 & H5).
      exists r, c', rest. split_and!; [done..|]. by exists l1.
    - destruct (ic_first_law c0 l Hc0) as (r & c' & H1 & H2 & H3). by exists r, c', l. }
  destruct Hmove as (cs & ss & lrs & Hmv & Htr & Hcut).
  assert (Hrok : Forall rest_ok lrs.*2 /\ (total lrs.*2 <= total ls)%nat).
  { clear Hmv Htr Hready Hfuel. revert Hok. induction Hcut as [|l rest ls rests Hl _ IH]; intros Hok; [done|].
    inversion_clear Hok as [|? ? Hok1 Hok2]. destruct (cut_ok _ _ _ Hok1 Hl), (IH Hok2). split; [by constructor|].
    cbn [total foldr]. fold (total ls) (total rests). lia. }
  destruct Hrok as [Hrok Htot].
  destruct (collect_spec (total ls) fuel (MkCursor cs ss (c_serveKey c) (c_emitTombstones c)) lrs.*2) with (fuel' := fuel) as (out & Ho & Hl);
    [by exists lrs|done|done|lia|].
  exists out. split.
  - unfold scan, cursor_First, cursor_Seek. destruct start; rewrite Hmv; exact Ho.
  - eapply lists_ext; [|exact Hl]. intros k. by apply shows_cut.
Qed.
End merge_laws.

(** ** The cursor of a memtable *)

Lemma sort_Search_spec fuel (f : nat -> bool) n : forall i j,
  (i <= j <= n)%nat -> (j - i <= fuel)%nat ->
  (forall x y, (x <= y < n)%nat -> f x = true -> f y = true) ->
  (forall x, (x < i)%nat -> f x = false) -> (forall x, (j <= x < n)%nat -> f x = true) ->
  let p := sort_Search fuel f i j in
  (p <= n)%nat /\ (forall x, (x < p)%nat -> f x = false) /\ (forall x, (p <= x < n)%nat -> f x = true).
Proof.
  induction fuel as [|fuel IH]; intros i j Hij Hf Hmono Hlo Hhi; cbn [sort_Search].
  { assert (i = j) by lia. subst j. split_and!; [lia|done|done]. }
  destruct (Nat.ltb_spec i j) as [Hlt|]; [|assert (i = j) by lia; subst j; split_and!; [lia|done|done]].
  set (h := ((i + j) / 2)%nat). assert (Hh : (i <= h < j)%nat).
  { unfold h. split; [apply Nat.div_le_lower_bound; lia|apply Nat.div_lt_upper_bound; lia]. }
  destruct (f h) eqn:E; cbn [negb].
  - apply IH; try done; try lia. intros x Hx. apply (Hmono h x); [lia|done].
  - apply IH; try done; try lia. intros x Hx. destruct (f x) eqn:Ex; [|done].
    assert (f h = true) by (apply (Hmono x h); [lia|done]). congruence.
Qed.

Lemma sorted_keys_lookup (l : list bs_data) i j m n :
  sorted_keys key l -> l !! i = Some m -> l !! j = Some n -> (i <= j)%nat -> key_le (key m) (key n).
Proof.
  revert i j. induction l as [|x l IH]; intros i j Hs Hi Hj Hle; [done|]. apply sorted_keys_cons in Hs as [Hs Hx].
  destruct i as [|i], j as [|j]; cbn in Hi, Hj; try lia.
  - assert (m = n) as -> by congruence. apply key_le_refl.
  - injection Hi as ->. by apply key_lt_le, Hx, (list_elem_of_lookup_2 _ j).
  - apply (IH i j); [done..|lia].
Qed.

Lemma mc_answer_kv c l1 rest :
  mc_data c = l1 ++ rest -> (mc_current c = length l1) -> kv_of (head rest) (mc_answer c).
Proof.
  intros Hd Hc. unfold mc_answer. rewrite Hd, Hc, lookup_app_r, Nat.sub_diag by lia.
  destruct rest as [|n tl]; cbn; [by eexists|]. by destruct (tombstone n).
Qed.

(** Where [seek] stops *)
Lemma posLargerThanEqual_spec c k :
  sorted_keys key (mc_data c) ->
  exists l1 rest, mc_data c = l1 ++ rest /\ Forall (fun n => bytes_compare k (key n) = Gt) l1 /\
    (forall n rest', rest = n :: rest' -> bytes_compare k (key n) <> Gt) /\
    posLargerThanEqual c k = match rest with [] => None | _ => Some (length l1) end.
Proof.
  intros Hs. unfold posLargerThanEqual.
  set (f := fun i => match mc_data c !! i with Some n => match bytes_compare (key n) k with Lt => false | _ => true end | None => true end).
  set (len := length (mc_data c)).
  assert (Hmono : forall x y, (x <= y < len)%nat -> f x = true -> f y = true).
  { intros x y Hxy. unfold f. destruct (lookup_lt_is_Some_2 (mc_data c) x ltac:(lia)) as [m Hm].
    destruct (lookup_lt_is_Some_2 (mc_data c) y ltac:(lia)) as [n Hn]. rewrite Hm, Hn. intros Hfx.
    destruct (bytes_compare (key n) k) eqn:E; [done| |done].
    assert (Hb : before (key m) k); [|by rewrite Hb in Hfx].
    destruct (key_le_cases _ _ (sorted_keys_lookup _ _ _ _ _ Hs Hm Hn ltac:(lia))) as [->|]; [done|]. by apply (bytes_compare_trans _ (key n)). }
  destruct (sort_Search_spec len f len 0 len ltac:(lia) ltac:(lia) Hmono ltac:(lia) ltac:(lia)) as (Hp & Hlo & Hhi).
  set (p := sort_Search len f 0 len) in *. exists (take p (mc_data c)), (drop p (mc_data c)).
  split; [by rewrite take_drop|]. assert (Hlen : length (take p (mc_data c)) = p) by (rewrite length_take; lia).
  split; [|split].
  - apply Forall_lookup. intros i n Hi. pose proof (lookup_lt_Some _ _ _ Hi) as Hlt. rewrite Hlen in Hlt.
    rewrite lookup_take_lt in Hi by done. specialize (Hlo i Hlt). unfold f in Hlo. rewrite Hi in Hlo.
    rewrite bytes_compare_antisym. by destruct (bytes_compare (key n) k).
  - intros n rest' Hd. assert (Hn : mc_data c !! p = Some n) by (rewrite <- (Nat.add_0_r p), <- lookup_drop, Hd; done).
    pose proof (lookup_lt_Some _ _ _ Hn). specialize (Hhi p ltac:(lia)). unfold f in Hhi. rewrite Hn in Hhi.
    rewrite bytes_compare_antisym. by destruct (bytes_compare (key n) k).
  - rewrite Hlen. destruct (Nat.eqb_spec p len) as [E|E].
    + by rewrite drop_ge by lia.
    + destruct (drop p (mc_data c)) eqn:Ed; [|done]. apply (f_equal length) in Ed. rewrite length_drop in Ed. cbn [length] in Ed. lia.
Qed.

#[export] Instance memtableCursor_laws : InnerCursorLaws memtableCursor.
Proof.
  refine {| ic_ready := fun c l => mc_data c = l /\ sorted_keys key l;
            ic_at := fun c l rest => (mc_data c = l /\ sorted_keys key l) /\
              (rest <> [] -> exists l1, l = l1 ++ rest /\ mc_current c = length l1) |}.
  - tauto.
  - intros c l [Hd Hs]. cbn [ic_first memtableCursor_inner]. unfold mc_first. destruct (mc_data c) as [|n tl] eqn:E.
    + subst l. eexists _, _. split; [reflexivity|]. split; [by eexists|]. by split.
    + subst l. eexists _, _. split; [reflexivity|]. split; [by apply (mc_answer_kv _ [])|].
      split; [done|]. intros _. by exists [].
  - intros c l n rest [[Hd Hs] (l1 & Hl & Hc)]; [done|]. cbn [ic_next memtableCursor_inner]. unfold mc_next.
    eexists _, _. split; [reflexivity|].
    assert (Hl' : l = (l1 ++ [n]) ++ rest) by (rewrite Hl, <- app_assoc; done).
    assert (Hc' : S (mc_current c) = length (l1 ++ [n])) by (rewrite length_app, Hc; cbn [length]; lia).
    split; [apply (mc_answer_kv _ (l1 ++ [n])); cbn [mc_data mc_current]; congruence|].
    split; [by split|]. intros _. exists (l1 ++ [n]). by split.
  - intros c l k [Hd Hs] Hk. subst l. destruct (posLargerThanEqual_spec c k Hs) as (l1 & rest & Hl & Hl1 & Hr & Hp).
    cbn [ic_seek memtableCursor_inner]. unfold mc_seek. rewrite Hp. destruct rest as [|n tl].
    + eexists _, _, l1, []. split_and!; [done..|by eexists|done|done|done].
    + eexists _, _, l1, (n :: tl). split_and!; [done..| |done|done|].
      * apply (mc_answer_kv _ l1); [exact Hl|done].
      * intros _. by exists l1.
Defined.

(** ** The cursor of a segment *)

Section segment_laws.
Context {F : Type} `{!Bloom F}.

(** An entry as a cursor with a value prefix shows it *)
Definition shown (prefix : Z) (n : bs_data) : bs_data :=
  if 0 <? prefix then BsData (key n) (take (Z.to_nat prefix) (value n)) (secondaryKeys n) (tombstone n) else n.

Lemma shown_key prefix n : key (shown prefix n) = key n.
Proof. unfold shown. by destruct (0 <? prefix). Qed.

(** The cursor of a segment that holds [flat] *)
Definition scans (c : segmentCursorReplaceReusable F) (s : segment F) (count : Z) (flat : list bs_data) (prefix : Z) (l : list bs_data) : Prop :=
  seg_holds s count flat /\ cursor_ready s count prefix c /\ Forall (fun n => key n <> []) flat /\ l = shown prefix <$> flat.

Lemma view_kv (s : segment F) count flat prefix c l1 n l2 :
  cursor_at s count flat prefix c l1 n l2 -> key n <> [] ->
  exists r, nodeToKV (Some (cursor_view count prefix n), view_error n) c = Ok r /\ kv_of (Some (shown prefix n)) r.
Proof.
  intros Hc Hk. pose proof (ca_key _ _ _ _ _ _ _ _ Hc Hk) as Hnil. unfold nodeToKV, view_error, cr_key. rewrite Hnil.
  unfold cursor_view, shown. destruct (0 <? prefix), (tombstone n) eqn:Et; cbn [is_Deleted]; eexists; (split; [reflexivity|]);
    cbn [kv_of key value tombstone sn_primaryKey sn_value]; by rewrite ?Et.
Qed.

(** The position after a call *)
Definition stands (c : segmentCursorReplaceReusable F) (l rest : list bs_data) : Prop :=
  exists s count flat prefix, scans c s count flat prefix l /\
    match rest with
    | [] => True
    | _ => exists l1 m l2, cursor_at s count flat prefix c l1 m l2 /\ rest = shown prefix <$> (m :: l2)
    end.

Lemma stands_at (s : segment F) count flat prefix c l1 n l2 :
  seg_holds s count flat -> Forall (fun n => key n <> []) flat -> cursor_at s count flat prefix c l1 n l2 ->
  exists r, nodeToKV (Some (cursor_view count prefix n), view_error n) c = Ok r /\
    kv_of (head (shown prefix <$> (n :: l2))) r /\ stands c (shown prefix <$> flat) (shown prefix <$> (n :: l2)).
Proof.
  intros Hs Hne Hc. pose proof (ca_flat _ _ _ _ _ _ _ _ Hc) as Hf.
  assert (Hk : key n <> []) by (rewrite Hf in Hne; apply Forall_app in Hne as [_ Hne]; by inversion_clear Hne).
  destruct (view_kv _ _ _ _ _ _ _ _ Hc Hk) as (r & -> & Hr). exists r. split_and!; [done|done|].
  exists s, count, flat, prefix. split; [split_and!; try done; by apply ca_ready in Hc|]. by exists l1, n, l2.
Qed.

Lemma stands_end (s : segment F) count flat prefix c l e :
  scans c s count flat prefix l -> is_Deleted e = false -> is_NotFound e = true ->
  exists r, nodeToKV (None, Some e) c = Ok r /\ kv_of None r /\ stands c l [].
Proof.
  intros Hc Hd Hn. unfold nodeToKV. rewrite Hd. eexists. split; [reflexivity|]. split; [by exists e|]. by exists s, count, flat, prefix.
Qed.

#[export] Instance reusable_laws : InnerCursorLaws (segmentCursorReplaceReusable F).
Proof.
  refine {| ic_ready := fun c l => exists s count flat prefix, scans c s count flat prefix l; ic_at := stands |}.
  - intros c l rest (s & count & flat & prefix & Hc & _). by exists s, count, flat, prefix.
  - intros c l (s & count & flat & prefix & Hc). pose proof Hc as (Hs & Hr & Hne & ->). cbn [ic_first reusable_inner]. unfold reusable_first.
    destruct flat as [|n l2].
    + rewrite (cr_first_nil s count [] Hs _ _ Hr eq_refl). cbn [obind].
      destruct (stands_end _ _ _ _ _ _ (EGet NotFound) Hc eq_refl eq_refl) as (r & -> & Hk & Hst). by eexists _, _.
    + destruct (cr_first_cons s count (n :: l2) Hs _ _ n l2 Hr eq_refl) as (c' & -> & Hc'). cbn [obind].
      destruct (stands_at _ _ _ _ _ _ _ _ Hs Hne Hc') as (r & -> & Hk & Hst). by eexists _, _.
  - intros c l n rest (s & count & flat & prefix & Hc & l1 & m & l2 & Hat & Heq). pose proof Hc as (Hs & Hr & Hne & ->).
    cbn [ic_next reusable_inner]. unfold reusable_next. pose proof (cr_next_spec s count flat Hs _ _ _ _ _ Hat) as Hnext.
    rewrite fmap_cons in Heq. injection Heq as -> ->. destruct l2 as [|m' l3].
    + rewrite Hnext. cbn [obind].
      destruct (stands_end _ _ _ _ _ _ (EGet NotFound) Hc eq_refl eq_refl) as (r & -> & Hk & Hst). by eexists _, _.
    + destruct Hnext as (c' & -> & Hc'). cbn [obind].
      destruct (stands_at _ _ _ _ _ _ _ _ Hs Hne Hc') as (r & -> & Hk & Hst). by eexists _, _.
  - intros c l k (s & count & flat & prefix & Hc) Hk. pose proof Hc as (Hs & Hr & Hne & ->). cbn [ic_seek reusable_inner]. unfold reusable_seek.
    destruct (cr_seek_spec s count flat Hs _ _ k Hr Hk) as (l1 & l2 & Hf & Hl1 & Hseek).
    assert (Hcut : shown prefix <$> flat = (shown prefix <$> l1) ++ (shown prefix <$> l2)) by (by rewrite Hf, fmap_app).
    assert (Hl1' : Forall (fun n => bytes_compare k (key n) = Gt) (shown prefix <$> l1)).
    { apply Forall_fmap. eapply Forall_impl; [exact Hl1|]. intros n. cbn. by rewrite shown_key. }
    destruct l2 as [|n l3].
    + rewrite Hseek. cbn [obind].
      destruct (stands_end _ _ _ _ _ _ (EIndex SegmentIndex.NotFound) Hc eq_refl eq_refl) as (r & -> & Hkv & Hst).
      by eexists _, _, (shown prefix <$> l1), [].
    + destruct Hseek as (Hn & c' & -> & Hc'). cbn [obind].
      destruct (stands_at _ _ _ _ _ _ _ _ Hs Hne Hc') as (r & -> & Hkv & Hst).
      eexists _, _, (shown prefix <$> l1), (shown prefix <$> (n :: l3)). split_and!; try done.
      intros x rest' [= <- _]. by rewrite shown_key.
Defined.
End segment_laws.

#[export] Instance sum_laws {C1 C2} `{!InnerCursor C1, !InnerCursorLaws C1, !InnerCursor C2, !InnerCursorLaws C2} : InnerCursorLaws (C1 + C2).
Proof.
  refine {| ic_ready := fun c l => match c with inl c => ic_ready c l | inr c => ic_ready c l end;
            ic_at := fun c l rest => match c with inl c => ic_at c l rest | inr c => ic_at c l rest end |}.
  - intros [c|c] l rest; apply ic_at_ready.
  - intros [c|c] l Hc; destruct (ic_first_law c l Hc) as (r & c' & He & Hr & Hc'); cbn [ic_first sum_inner]; rewrite He; by eexists _, _.
  - intros [c|c] l n rest Hc; destruct (ic_next_law c l n rest Hc) as (r & c' & He & Hr & Hc'); cbn [ic_next sum_inner]; rewrite He;
      by eexists _, _.
  - intros [c|c] l k Hc Hk; destruct (ic_seek_law c l k Hc Hk) as (r & c' & l1 & rest & H1 & H2 & H3 & He & Hr & Hc');
      cbn [ic_seek sum_inner]; rewrite He; by eexists _, _, l1, rest.
Defined.

(** ** The cursors of a bucket *)

Definition in_bounds (range : option (option (list Z) * option (list Z))) (k : list Z) : bool :=
  match range with None => true | Some (min, max) => above_min min k && below_max max k end.

Lemma lookup_filter (p : list Z -> bool) l k :
  lookup_key key k (filter (fun n => p (key n) = true) l) = if p k then lookup_key key k l else None.
Proof.
  induction l as [|n l IH]; [by destruct (p k)|]. rewrite filter_cons. case_decide as E; rewrite ?lookup_cons, IH.
  - case_bool_decide as Ek; [subst k; by rewrite E|done].
  - case_bool_decide as Ek; [subst k; by destruct (p (key n))|done].
Qed.

Lemma sorted_filter (p : bs_data -> bool) l : sorted_keys key l -> sorted_keys key (filter (fun n => p n = true) l).
Proof.
  induction l as [|n l IH]; intros Hs; [done|]. apply sorted_keys_cons in Hs as [Hs Hn]. rewrite filter_cons. case_decide; [|by apply IH].
  apply sorted_keys_cons. split; [by apply IH|]. intros y [_ Hy]%list_elem_of_filter. by apply Hn.
Qed.

Lemma filter_fst {A} (p : bs_data -> bool) (l : list (bs_data * A)) :
  (filter (fun x => p x.1 = true) l).*1 = filter (fun n => p n = true) l.*1.
Proof. induction l as [|x l IH]; [done|]. rewrite fmap_cons, !filter_cons. by case_decide; rewrite ?fmap_cons, IH. Qed.

Lemma open_memtable_spec count enable m st range :
  mt_ok count enable m st ->
  exists l, open_memtable range m = Ok (MemCursor l 0) /\ rest_ok l /\
    forall k, in_bounds range k = true -> lookup_key key k l = st !! k.
Proof.
  intros [Hr He _ _]. destruct (flatten_refines (E := get_error) key bst_shallowCopy (mt_key m) st Hr) as (ns & _ & _ & Hflat' & _ & Hrange).
  destruct (flatten_store (mt_key m) st Hr) as (flat & Hflat & Hsort & Hlk).
  assert (Hne : Forall (fun n => key n <> []) flat.*1).
  { apply Forall_forall. intros n Hn. apply (He (key n) n). rewrite <- Hlk. by apply lookup_key_elem. }
  destruct range as [[min max]|]; cbn [open_memtable in_bounds].
  - exists (filter (fun n => in_range key min max n = true) flat.*1). unfold memtable_newCursorWithRange, bst_flattenInOrderRange. rewrite Hrange.
    rewrite fmap_selected. assert (bst_shallowCopy <$> ns = flat) as -> by (unfold bst_flattenInOrder in Hflat; congruence).
    cbn [omap_err obind]. rewrite filter_fst. split; [done|]. split.
    + split; [by apply sorted_filter|]. apply Forall_forall. intros n [_ Hn]%list_elem_of_filter. rewrite Forall_forall in Hne. by apply Hne.
    + intros k Hk. etransitivity; [apply (lookup_filter (fun k => above_min min k && below_max max k))|]. by rewrite Hk, Hlk.
  - exists flat.*1. unfold memtable_newCursor. rewrite Hflat. cbn [omap_err obind]. done.
Qed.

Section bucket_scans.
Context {F : Type} `{!Bloom F}.

Definition shown_list (prefix : Z) (l : list bs_data) : list bs_data := shown prefix <$> l.

Lemma lookup_shown prefix k l : lookup_key key k (shown_list prefix l) = option_map (shown prefix) (lookup_key key k l).
Proof.
  unfold shown_list. induction l as [|n l IH]; [done|]. rewrite fmap_cons, !lookup_cons, IH, shown_key. by case_bool_decide.
Qed.

Lemma newest_shown prefix k flats : newest_of (shown_list prefix <$> flats) k = option_map (shown prefix) (newest_of flats k).
Proof.
  induction flats as [|l flats IH]; [done|]. rewrite fmap_cons, !newest_of_cons, IH, lookup_shown.
  by destruct (newest_of flats k).
Qed.

Lemma newest_of_app ls1 ls2 k :
  newest_of (ls1 ++ ls2) k = match newest_of ls2 k with Some n => Some n | None => newest_of ls1 k end.
Proof. unfold newest_of. by rewrite rev_app_distr, map_app, newest_app. Qed.

(** The lists the memtable cursors stand for *)
Lemma memtable_cursors_spec b sa sf flats range :
  bucket_inv b sa sf flats ->
  exists cs ls, memtable_cursors (F := F) range (rev (viewMemtables b)) = Ok cs /\ Forall2 ic_ready cs ls /\ Forall rest_ok ls /\
    forall k, in_bounds range k = true ->
      newest_of ls k = newest (sa !! k :: match sf with Some st => [st !! k] | None => [] end).
Proof.
  intros [_ Ha Hf _]. unfold viewMemtables. destruct (open_memtable_spec _ _ _ _ range Ha) as (la & Ea & Hla & Hka).
  destruct (b_flushing b) as [fl|], sf as [st|]; try done.
  - destruct Hf as [Hf _]. destruct (open_memtable_spec _ _ _ _ range Hf) as (lf & Ef & Hlf & Hkf).
    cbn [rev app memtable_cursors]. rewrite Ef. cbn [obind]. rewrite Ea. cbn [obind].
    eexists _, [lf; la]. split; [done|]. split; [constructor; [by split; [|apply Hlf]|constructor; [by split; [|apply Hla]|constructor]]|].
    split; [constructor; [done|constructor; [done|constructor]]|].
    intros k Hk. unfold newest_of. cbn [rev app map]. by rewrite Hka, Hkf.
  - cbn [rev app memtable_cursors]. rewrite Ea. cbn [obind].
    eexists _, [la]. split; [done|]. split; [constructor; [by split; [|apply Hla]|constructor]|].
    split; [constructor; [done|constructor]|].
    intros k Hk. unfold newest_of. cbn [rev app map]. by rewrite Hka.
Qed.

Lemma disk_cursors_spec count disk flats prefix :
  segs_ok count disk flats -> 0 <= prefix ->
  Forall2 (ic_ready (C := segmentCursorReplaceReusable F + memtableCursor))
    (map (fun s => inl (newReplaceCursorReusableWithPrefix s prefix)) disk) (shown_list prefix <$> flats) /\
  Forall rest_ok (shown_list prefix <$> flats).
Proof.
  intros Hd Hp. induction Hd as [|s flat disk flats [Hs He] _ [IH1 IH2]]; [split; constructor|].
  assert (Hne : Forall (fun n => key n <> []) flat) by (eapply Forall_impl; [exact He|]; by intros n (_ & ? & _)).
  rewrite fmap_cons. cbn [map]. split; constructor; try done.
  - exists s, count, flat, prefix. split_and!; try done. by eapply new_cursor_ready.
  - split.
    + pose proof (sh_sorted _ _ _ Hs) as Hsort. apply sorted_keys_fmap in Hsort. apply sorted_keys_fmap.
      unfold shown_list. rewrite <- list_fmap_compose. erewrite list_fmap_ext; [exact Hsort|]. intros i n _. apply shown_key.
    + apply Forall_fmap. eapply Forall_impl; [exact Hne|]. intros n Hn. cbn. by rewrite shown_key.
Qed.

(** A value, or the prefix of it that a digest keeps *)
Definition prefix_of_value (prefix : Z) (x w : list Z) : Prop :=
  (prefix = 0 -> x = w) /\ take (Z.to_nat prefix) x = take (Z.to_nat prefix) w.

Lemma scan_of_map b m prefix range :
  holds_map b m -> 0 <= prefix ->
  exists c ls, bucket_cursor b prefix range = Ok c /\ c_emitTombstones c = false /\
    Forall2 ic_ready (c_innerCursors c) ls /\ Forall rest_ok ls /\
    forall k, in_bounds range k = true ->
      match m !! k with
      | Some w => exists x, shows false ls k = Some (Some x) /\ prefix_of_value prefix x w
      | None => shows false ls k = None
      end.
Proof.
  intros (sa & sf & flats & Hi & Hm) Hp. destruct (memtable_cursors_spec b sa sf flats range Hi) as (cs & ls & Hcs & Hr & Hok & Hnew).
  destruct (disk_cursors_spec _ _ _ prefix (bi_disk _ _ _ _ Hi) Hp) as [Hdr Hdok].
  unfold bucket_cursor. rewrite Hcs. cbn [obind]. eexists _, ((shown_list prefix <$> flats) ++ ls). split; [done|].
  cbn [c_emitTombstones c_innerCursors]. split_and!; [done|by apply Forall2_app|by apply Forall_app|].
  intros k Hk. rewrite Hm. unfold layers, shows. rewrite newest_app, newest_of_app, (Hnew k Hk), newest_shown.
  destruct (newest (_ :: _)) as [n|]; cbn [live visible].
  - destruct (tombstone n); [done|]. exists (value n). by split.
  - change (newest (map (lookup_key key k) (rev flats))) with (newest_of flats k).
    destruct (newest_of flats k) as [n|]; cbn [live visible fmap option_fmap option_map]; [|done].
    unfold shown, prefix_of_value. destruct (Z.ltb_spec 0 prefix); cbn [tombstone value]; destruct (tombstone n); try done; eexists; (split; [done|]).
    + split; [lia|]. rewrite take_take. by rewrite Nat.min_id.
    + by split.
Qed.

(** The cursors over the memtables alone: the newest entry of each key written there,
    with nil for a tombstone if these are asked for *)
Lemma memory_scan b sa sf flats emit fuel start :
  bucket_inv b sa sf flats -> (forall k, start = Some k -> Forall is_byte k) ->
  exists (c : CursorReplace (segmentCursorReplaceReusable F + memtableCursor)) N, bucket_cursorInMem b emit = Ok c /\
    ((N <= fuel)%nat -> exists out, scan fuel c start = Ok out /\
      lists (fun k => if in_scan start k
                      then visible emit (newest (sa !! k :: match sf with Some st => [st !! k] | None => [] end)) else None) out).
Proof.
  intros Hi Hst. destruct (memtable_cursors_spec b sa sf flats None Hi) as (cs & ls & Hcs & Hr & Hok & Hnew).
  unfold bucket_cursorInMem. rewrite Hcs. cbn [obind]. eexists _, (total ls + 2)%nat. split; [done|]. intros Hfuel.
  destruct (merged_scan_spec fuel (MkCursor cs [] None emit) ls start Hr Hok Hst ltac:(lia)) as (out & Hout & Hl). exists out. split; [done|].
  eapply lists_ext; [|exact Hl]. intros k. unfold shows. by rewrite (Hnew k eq_refl).
Qed.
End bucket_scans.

(** C8: a scan of a bucket lists its map.  In every reachable state a cursor over the
    segments and the memtables, from the start or from a key on, returns every
    key of the bucket that is not deleted, exactly once and in key order, whatever
    the number of segments that hold an older value or a tombstone of it, with the
    value last put (in digest mode: the same first bytes); memtables opened with
    bounds give the same within the bounds. *)
Theorem scan_lists_map {F} `{!Bloom F} (b : Bucket F) (m : gmap (list Z) (list Z)) (prefix : Z)
    (range : option (option (list Z) * option (list Z))) :
  reaches b m -> 0 <= prefix ->
  exists c N, bucket_cursor b prefix range = Ok c /\
    forall fuel start, (N <= fuel)%nat -> (forall k, start = Some k -> Forall is_byte k) ->
    exists out, scan fuel c start = Ok out /\ sorted_keys fst out /\
      forall k, in_bounds range k = true ->
        (forall v, (k, v) ∈ out -> exists w x, m !! k = Some w /\ v = Some x /\ prefix_of_value prefix x w) /\
        (k ∈ out.*1 <-> in_scan start k = true /\ is_Some (m !! k)).
Proof.
  intros Hr Hp. destruct (scan_of_map b m prefix range (reaches_holds b m Hr) Hp) as (c & ls & Hc & He & Hready & Hok & Hshow).
  exists c, (total ls + 2)%nat. split; [done|]. intros fuel start Hfuel Hst.
  destruct (merged_scan_spec fuel c ls start Hready Hok Hst ltac:(lia)) as (out & Hout & Hsort & Hin). exists out. split_and!; [done..|].
  rewrite He in Hin. intros k Hk. specialize (Hshow k Hk). split.
  - intros v Hv. apply Hin in Hv. destruct (in_scan start k); [|done]. destruct (m !! k) as [w|]; [|congruence].
    destruct Hshow as (x & Hx & Hpre). exists w, x. split_and!; [done|congruence|done].
  - split.
    + intros ([k' v] & -> & Hv)%list_elem_of_fmap. cbn [fst] in *. apply Hin in Hv. destruct (in_scan start k'); [|done].
      destruct (m !! k'); [done|congruence].
    + intros [Hs [w Hw]]. rewrite Hw in Hshow. destruct Hshow as (x & Hx & _). apply list_elem_of_fmap. exists (k, Some x).
      split; [done|]. apply Hin. by rewrite Hs.
Qed.

(** Three sorted levels: the scan of the bucket built above *)
Lemma scan_lists_map_witness :
  exists b c, run_checked wit_bucket wit_bucket_ops = Some b /\ bucket_cursor b 0 None = Ok c /\
    exists fuel out, scan fuel c None = Ok out /\ [3] ∈ out.*1 /\ [2] ∉ out.*1.
Proof.
  destruct wit_reaches as (b & Hrun & Hr). destruct (scan_lists_map b _ 0 None Hr ltac:(lia)) as (c & N & Hc & Hscan).
  exists b, c. split; [done|]. split; [done|]. destruct (Hscan N None ltac:(lia) ltac:(done)) as (out & Hout & _ & Hin).
  exists N, out. split; [done|]. split.
  - apply (Hin [3] eq_refl). split; [done|]. exists [33]. vm_compute. done.
  - intros H. apply (Hin [2] eq_refl) in H as [_ [w Hw]]. vm_compute in Hw. discriminate.
Defined.
