(* ===== verification/CommitLog.v ===== *)
(** * The write-ahead log of a memtable

    [commitlogger.go], [commitlogger_parser.go], [commitlogger_parser_replace.go] and the
    resumable checksum of [usecases/integrity]: every write is a record with a
    checksum over the whole log so far, and the parser reads records until the end of
    the file or the first damage.  A log cut at any byte gives back exactly the
    records that lie completely before the cut. *)

From S2P Require Import Prelude ByteOps SegmentIndex MemtableTree ReplaceNode SegmentFile.

(** ** usecases/integrity: a CRC-32 that goes on from an earlier one *)

Definition crc32_Update (crc : Z) (data : list Z) : Z := Z.lxor (foldl crc_update (Z.lxor crc 0xFFFFFFFF) data) 0xFFFFFFFF.

Definition crc_Sum (crc : Z) : list Z := be_split 4 (u32 crc).

(** ** commitLogger *)

Definition CurrentCommitLogVersion : Z := 1.
Definition CommitTypeReplace : Z := 0.

(** [cl_file] is all that was written, what is still in the buffer included. *)
Record commitLogger : Type := CommitLogger {
  cl_file : list Z;
  cl_crc : Z;
  cl_n : Z;
  cl_paused : bool }.

(** The log over a file of the given size.  A log that is not empty goes on from the
    checksum in its last four bytes. *)
Definition newCommitLogger (file : list Z) (fileSize : Z) : outcome store_error commitLogger :=
  if fileSize =? 0 then Ok (CommitLogger file 0 fileSize false)
  else if blen file <? 4 then Err ESeek
  else Ok (CommitLogger file (be_combine (drop (length file - 4) file)) fileSize false).

Definition writeEntry (cl : commitLogger) (commitType : Z) (nodeBytes : list Z) : commitLogger :=
  let head := commitType :: CurrentCommitLogVersion :: le_split 4 (u32 (blen nodeBytes)) in
  let crc := crc32_Update (crc32_Update (cl_crc cl) head) nodeBytes in
  CommitLogger (cl_file cl ++ head ++ nodeBytes ++ crc_Sum crc) crc (cl_n cl + (1 + 1 + 4 + blen nodeBytes + 4)) (cl_paused cl).

Definition cl_put (cl : commitLogger) (node : segmentReplaceNode) : outcome store_error commitLogger :=
  if cl_paused cl then Ok cl
  else
    let (bytes, ki) := KeyIndexAndWriteTo node in
    if negb (blen bytes =? k_ValueEnd ki - k_ValueStart ki) then Err ENodeSize
    else Ok (writeEntry cl CommitTypeReplace bytes).

(** [lazyCommitLogger]: no file before the first write *)
Definition lazy_put (cl : option commitLogger) (node : segmentReplaceNode) : outcome store_error (option commitLogger) :=
  let! cl := match cl with None => newCommitLogger [] 0 | Some cl => Ok cl end in
  let! cl := cl_put cl node in Ok (Some cl).

(** ** commitloggerParser *)

(** The reader and the checksum of what was read through [checksumReader] *)
Record commitloggerParser : Type := Parser { p_reader : list Z; p_crc : Z }.

Definition checksumRead (n : Z) (p : commitloggerParser) : outcome store_error (list Z * commitloggerParser) :=
  let! (b, r) := ReadFull n (p_reader p) in Ok (b, Parser r (crc32_Update (p_crc p) b)).

(** [io.CopyN], whose error is dropped *)
Definition copyN (n : Z) (p : commitloggerParser) : list Z * commitloggerParser :=
  let b := take (Z.to_nat n) (p_reader p) in
  (b, Parser (drop (Z.to_nat n) (p_reader p)) (crc32_Update (p_crc p) b)).

Definition doRecord (p : commitloggerParser) : outcome store_error (list Z * commitloggerParser) :=
  let! (nodeLen, p) := checksumRead 4 p in
  let (bufNode, p) := copyN (le_combine nodeLen) p in
  let! (checksum, r) := ReadFull 4 (p_reader p) in
  if bool_decide (checksum = crc_Sum (p_crc p)) then Ok (bufNode, Parser r (p_crc p)) else Err EChecksum.

Notation node_cache := (gmap (list Z) segmentReplaceNode).

(** A tombstone of a cached key only marks the cached node. *)
Definition cache_node (n : segmentReplaceNode) (nodeCache : node_cache) : node_cache :=
  if negb (sn_tombstone n) then <[sn_primaryKey n := n]> nodeCache
  else
    match nodeCache !! sn_primaryKey n with
    | Some e => <[sn_primaryKey n := ReplaceNode true (sn_value e) (sn_primaryKey e) (sn_secondaryIndexCount e) (sn_secondaryKeys e) (sn_offset e)]> nodeCache
    | None => <[sn_primaryKey n := n]> nodeCache
    end.

Definition parseReplaceNode (secondaryIndices : Z) (r : list Z) (nodeCache : node_cache) : outcome store_error (node_cache * list Z) :=
  let! (n, r) := ParseReplaceNode r secondaryIndices in Ok (cache_node n nodeCache, r).

Definition doReplaceRecordV0 (secondaryIndices : Z) (p : commitloggerParser) (nodeCache : node_cache) :
    outcome store_error (commitloggerParser * node_cache) :=
  let! (nodeCache, r) := parseReplaceNode secondaryIndices (p_reader p) nodeCache in Ok (Parser r (p_crc p), nodeCache).

Definition doReplaceRecordV1 (secondaryIndices : Z) (p : commitloggerParser) (nodeCache : node_cache) :
    outcome store_error (commitloggerParser * node_cache) :=
  let! (reader, p) := doRecord p in
  let! (nodeCache, _) := parseReplaceNode secondaryIndices reader nodeCache in Ok (p, nodeCache).

(** [None]: the end of the file *)
Definition doReplaceOnce (secondaryIndices : Z) (p : commitloggerParser) (nodeCache : node_cache) :
    outcome store_error (option (commitloggerParser * node_cache)) :=
  match p_reader p with
  | [] => Ok None
  | _ =>
      let! (commitType, p) := checksumRead 1 p in
      if negb (bool_decide (commitType = [CommitTypeReplace])) then Err ECommitType
      else
        let! (version, p) := checksumRead 1 p in
        let! r := match version with
                  | [0] => doReplaceRecordV0 secondaryIndices p nodeCache
                  | [1] => doReplaceRecordV1 secondaryIndices p nodeCache
                  | _ => Err ECommitVersion
                  end in
        Ok (Some r)
  end.

(** The nodes of the log and the error that ended it, if any *)
Fixpoint doReplace_loop (fuel : nat) (secondaryIndices : Z) (p : commitloggerParser) (nodeCache : node_cache) :
    outcome store_error (node_cache * option store_error) :=
  match fuel with
  | O => OutOfFuel
  | S fuel =>
      match doReplaceOnce secondaryIndices p nodeCache with
      | Ok None => Ok (nodeCache, None)
      | Ok (Some (p, nodeCache)) => doReplace_loop fuel secondaryIndices p nodeCache
      | Err e => Ok (nodeCache, Some e)
      | Panic => Panic
      | OutOfFuel => OutOfFuel
      end
  end.

(** A record has at least one byte. *)
Definition parse_log (secondaryIndices : Z) (file : list Z) : outcome store_error (node_cache * option store_error) :=
  doReplace_loop (S (length file)) secondaryIndices (Parser file 0) ∅.

(** * Properties *)

(** ** The checksum *)

Lemma lxor_range w a b : 0 <= w -> 0 <= a < 2 ^ w -> 0 <= b < 2 ^ w -> 0 <= Z.lxor a b < 2 ^ w.
Proof.
  intros Hw Ha Hb. assert (Hm : Z.lxor a b = Z.lxor a b mod 2 ^ w); [|rewrite Hm; apply Z.mod_pos_bound; lia].
  apply Z.bits_inj'. intros i Hi. destruct (Z.lt_ge_cases i w) as [Hlt|Hge].
  - by rewrite Z.mod_pow2_bits_low.
  - rewrite Z.mod_pow2_bits_high by lia. rewrite Z.lxor_spec.
    rewrite <- (Z.mod_small a (2 ^ w)), <- (Z.mod_small b (2 ^ w)), !Z.mod_pow2_bits_high by lia. done.
Qed.

Lemma crc_bits_range n : forall crc, is_u32 crc -> is_u32 (crc_bits n crc).
Proof.
  induction n as [|n IH]; intros crc Hc; [done|]. cbn [crc_bits]. apply IH.
  assert (Hs : is_u32 (Z.shiftr crc 1)).
  { unfold is_u32 in *. rewrite Z.shiftr_div_pow2 by lia. split; [apply Z.div_pos; lia|apply Z.div_lt_upper_bound; lia]. }
  destruct (Z.testbit crc 0); [|done]. apply (lxor_range 32); [lia|exact Hs|lia].
Qed.

Lemma crc_fold_range data : forall crc, is_u32 crc -> Forall is_byte data -> is_u32 (foldl crc_update crc data).
Proof.
  induction data as [|b data IH]; intros crc Hc Hd; [done|]. inversion_clear Hd as [|? ? Hb Hd']. cbn [foldl]. apply IH; [|done].
  apply crc_bits_range, (lxor_range 32); [lia|exact Hc|]. unfold is_byte in Hb. lia.
Qed.

Lemma crc32_Update_range crc data : is_u32 crc -> Forall is_byte data -> is_u32 (crc32_Update crc data).
Proof.
  intros Hc Hd. apply (lxor_range 32); [lia| |lia]. apply crc_fold_range; [|done]. apply (lxor_range 32); [lia|exact Hc|lia].
Qed.

Lemma crc32_Update_app crc a b : crc32_Update (crc32_Update crc a) b = crc32_Update crc (a ++ b).
Proof. unfold crc32_Update. by rewrite Z.lxor_assoc, Z.lxor_nilpotent, Z.lxor_0_r, foldl_app. Qed.

Lemma length_crc_Sum crc : length (crc_Sum crc) = 4%nat.
Proof. unfold crc_Sum, be_split. by rewrite length_rev, length_le_split. Qed.

(** ** Records *)

Record logged (count : Z) (n : segmentReplaceNode) : Prop := {
  lo_node : node_ok n;
  lo_count : sn_secondaryIndexCount n = count;
  lo_size : blen (replace_layout n) < 2 ^ 32 }.

Definition record_body (n : segmentReplaceNode) : list Z :=
  CommitTypeReplace :: CurrentCommitLogVersion :: le_split 4 (blen (replace_layout n)) ++ replace_layout n.

Definition crc_after (crc : Z) (n : segmentReplaceNode) : Z := crc32_Update crc (record_body n).

Definition record (crc : Z) (n : segmentReplaceNode) : list Z := record_body n ++ crc_Sum (crc_after crc n).

Fixpoint log_from (crc : Z) (ns : list segmentReplaceNode) : list Z :=
  match ns with [] => [] | n :: ns => record crc n ++ log_from (crc_after crc n) ns end.

Definition crc_of (crc : Z) (ns : list segmentReplaceNode) : Z := foldl crc_after crc ns.

Lemma log_from_app crc ns1 ns2 : log_from crc (ns1 ++ ns2) = log_from crc ns1 ++ log_from (crc_of crc ns1) ns2.
Proof. revert crc. induction ns1 as [|n ns1 IH]; intros crc; [done|]. cbn [app log_from crc_of foldl]. by rewrite IH, app_assoc. Qed.

Lemma layout_bytes n : node_ok n -> Forall is_byte (replace_layout n).
Proof.
  intros Hn. unfold replace_layout, key_block. repeat (apply Forall_app; split); try apply le_split_bytes; try apply Hn.
  - constructor; [|constructor]. unfold flag_of, is_byte. destruct (sn_tombstone n); lia.
  - destruct (padded_ok n Hn) as [Hp _]. unfold key_blocks. induction Hp as [|k ks [Hk _] _ IH]; [constructor|].
    rewrite fmap_cons. cbn [concat]. apply Forall_app. split; [|exact IH]. apply Forall_app. split; [apply le_split_bytes|done].
Qed.

Lemma body_bytes n : node_ok n -> Forall is_byte (record_body n).
Proof.
  intros Hn. constructor; [unfold is_byte, CommitTypeReplace; lia|]. constructor; [unfold is_byte, CurrentCommitLogVersion; lia|].
  apply Forall_app. split; [apply le_split_bytes|by apply layout_bytes].
Qed.

Lemma crc_of_range count ns : forall crc, is_u32 crc -> Forall (logged count) ns -> is_u32 (crc_of crc ns).
Proof.
  induction ns as [|n ns IH]; intros crc Hc Hns; [done|]. inversion_clear Hns as [|? ? Hn Hns']. cbn [crc_of foldl].
  apply IH; [|done]. apply crc32_Update_range; [done|]. apply body_bytes, Hn.
Qed.

(** ** Writing *)

Lemma cl_put_spec count cl n :
  cl_paused cl = false -> logged count n ->
  cl_put cl n = Ok (CommitLogger (cl_file cl ++ record (cl_crc cl) n) (crc_after (cl_crc cl) n)
                      (cl_n cl + blen (record (cl_crc cl) n)) false).
Proof.
  intros Hp [Hn _ Hs]. unfold cl_put. rewrite Hp, (writer_layout n Hn). cbn [k_ValueEnd k_ValueStart].
  replace (_ =? _) with true by (symmetry; apply Z.eqb_eq; lia). cbn [negb]. unfold writeEntry.
  rewrite u32_small by (unfold is_u32; pose proof (blen_nonneg (replace_layout n)); lia). rewrite crc32_Update_app, Hp.
  unfold record, crc_after, record_body. f_equal. f_equal.
  rewrite !blen_app, !blen_cons, blen_app, blen_le_split. unfold blen at 3. rewrite length_crc_Sum. lia.
Qed.

(** The log of the nodes [ns] *)
Record log_holds (cl : commitLogger) (ns : list segmentReplaceNode) : Prop := {
  lh_file : cl_file cl = log_from 0 ns;
  lh_crc : cl_crc cl = crc_of 0 ns;
  lh_paused : cl_paused cl = false }.

(** A log that does not exist yet is empty. *)
Definition lazy_holds (cl : option commitLogger) (ns : list segmentReplaceNode) : Prop :=
  match cl with Some cl => log_holds cl ns | None => ns = [] end.

Lemma lazy_put_spec count cl ns n :
  lazy_holds cl ns -> logged count n -> exists cl', lazy_put cl n = Ok cl' /\ lazy_holds cl' (ns ++ [n]).
Proof.
  intros Hcl Hn. assert (Hc : exists c, match cl with None => newCommitLogger [] 0 | Some c => Ok c end = Ok c /\ log_holds c ns).
  { destruct cl as [c|]; [by exists c|]. cbn in Hcl. subst ns. eexists. by split; [reflexivity|]. }
  unfold lazy_put. destruct Hc as (c & -> & [Hf Hcrc Hp]). cbn [obind]. rewrite (cl_put_spec count c n Hp Hn). cbn [obind].
  eexists. split; [done|]. split; cbn [cl_file cl_crc cl_paused]; [|by rewrite Hcrc; unfold crc_of; rewrite foldl_app|done].
  rewrite log_from_app, Hf, Hcrc. cbn [log_from]. by rewrite app_nil_r.
Qed.

(** An existing log is continued with the right checksum. *)
Lemma newCommitLogger_resumes count ns :
  Forall (logged count) ns -> ns <> [] ->
  exists cl, newCommitLogger (log_from 0 ns) (blen (log_from 0 ns)) = Ok cl /\ log_holds cl ns.
Proof.
  intros Hns Hne. destruct (exists_last Hne) as (ns1 & n & ->). set (file := log_from 0 (ns1 ++ [n])).
  assert (Hfile : exists p, file = p ++ crc_Sum (crc_of 0 (ns1 ++ [n]))).
  { unfold file. rewrite log_from_app. cbn [log_from]. unfold record. rewrite app_nil_r, app_assoc. eexists. f_equal. f_equal.
    unfold crc_of. by rewrite foldl_app. }
  destruct Hfile as (p & Hp). assert (Hlen : length file = (length p + 4)%nat) by (by rewrite Hp, length_app, length_crc_Sum).
  unfold newCommitLogger, blen. rewrite Hlen. rewrite (proj2 (Z.eqb_neq _ _)), (proj2 (Z.ltb_ge _ _)) by lia.
  eexists. split; [done|]. split; cbn [cl_file cl_crc cl_paused]; [done| |done].
  rewrite Hp at 1. rewrite Nat.add_sub, drop_app_length. unfold crc_Sum.
  pose proof (crc_of_range count (ns1 ++ [n]) 0 ltac:(unfold is_u32; lia) Hns) as Hr. rewrite (u32_small _ Hr).
  apply be_combine_split. exact Hr.
Qed.

(** ** Reading *)

Lemma ReadFull_short k r : blen r < k -> ReadFull k r = Err EShortRead.
Proof. intros H. unfold ReadFull. by rewrite (proj2 (Z.leb_gt _ _)). Qed.

Lemma checksumRead_app a r crc : checksumRead (blen a) (Parser (a ++ r) crc) = Ok (a, Parser r (crc32_Update crc a)).
Proof. unfold checksumRead. cbn [p_reader p_crc]. by rewrite read_full_app. Qed.

Lemma checksumRead_1 b r crc : checksumRead 1 (Parser (b :: r) crc) = Ok ([b], Parser r (crc32_Update crc [b])).
Proof. exact (checksumRead_app [b] r crc). Qed.

Lemma checksumRead_4 v r crc : checksumRead 4 (Parser (le_split 4 v ++ r) crc) = Ok (le_split 4 v, Parser r (crc32_Update crc (le_split 4 v))).
Proof. rewrite <- (checksumRead_app (le_split 4 v) r crc). by rewrite blen_le_split. Qed.

Lemma ReadFull_sum crc r : ReadFull 4 (crc_Sum crc ++ r) = Ok (crc_Sum crc, r).
Proof. rewrite <- (read_full_app (crc_Sum crc) r). unfold blen. by rewrite length_crc_Sum. Qed.

Lemma copyN_app a r crc : copyN (blen a) (Parser (a ++ r) crc) = (a, Parser r (crc32_Update crc a)).
Proof. unfold copyN, blen. cbn [p_reader p_crc]. by rewrite Nat2Z.id, take_app_length, drop_app_length. Qed.

(** A node as the parser returns it *)
Definition read_back (n : segmentReplaceNode) : segmentReplaceNode := parsed n (sn_secondaryIndexCount n) (padded n).

Lemma ParseReplaceNode_layout n r : node_ok n -> ParseReplaceNode (replace_layout n ++ r) (sn_secondaryIndexCount n) = Ok (read_back n, r).
Proof. intros Hn. unfold ParseReplaceNode. by rewrite (read_node_spec n r Hn). Qed.

(** The start of a record *)
Lemma once_head count crc cache r :
  doReplaceOnce count (Parser (CommitTypeReplace :: CurrentCommitLogVersion :: r) crc) cache
  = let! x := doReplaceRecordV1 count (Parser r (crc32_Update crc [CommitTypeReplace; CurrentCommitLogVersion])) cache in Ok (Some x).
Proof.
  unfold doReplaceOnce. cbn [p_reader]. rewrite checksumRead_1. cbn [obind].
  rewrite bool_decide_true by done. cbn [negb]. rewrite checksumRead_1. cbn [obind]. by rewrite crc32_Update_app.
Qed.

Lemma once_record count crc n rest cache :
  logged count n ->
  doReplaceOnce count (Parser (record crc n ++ rest) crc) cache
  = Ok (Some (Parser rest (crc_after crc n), cache_node (read_back n) cache)).
Proof.
  intros [Hn Hc Hs]. pose proof (blen_nonneg (replace_layout n)). unfold record, record_body. cbn [app]. rewrite once_head.
  unfold doReplaceRecordV1, doRecord. rewrite <- !app_assoc, checksumRead_4. cbn [obind].
  rewrite le_combine_split by (change (256 ^ Z.of_nat 4) with (2 ^ 32); lia).
  rewrite copyN_app. cbn [p_reader p_crc]. rewrite !crc32_Update_app, ReadFull_sum. cbn [obind].
  change (crc32_Update crc _) with (crc_after crc n). rewrite bool_decide_true by done. cbn [obind].
  pose proof (ParseReplaceNode_layout n [] Hn) as Hp. rewrite app_nil_r in Hp. unfold parseReplaceNode. rewrite <- Hc, Hp. done.
Qed.

Lemma length_record crc n : length (record crc n) = (10 + length (replace_layout n))%nat.
Proof. unfold record, record_body. rewrite length_app, length_crc_Sum. cbn [length]. rewrite length_app, length_le_split. lia. Qed.

(** A record that is cut is an error. *)
Lemma once_torn count crc n cache (k : nat) :
  logged count n -> (0 < k < length (record crc n))%nat ->
  exists e, doReplaceOnce count (Parser (take k (record crc n)) crc) cache = Err e.
Proof.
  intros [Hn Hc Hs] Hk. pose proof (blen_nonneg (replace_layout n)).
  rewrite length_record in Hk.
  unfold record, record_body. cbn [app]. destruct k as [|[|k]]; [lia| |]; cbn [take].
  { eexists. unfold doReplaceOnce. cbn [p_reader]. rewrite checksumRead_1. cbn [obind]. rewrite bool_decide_true by done. reflexivity. }
  rewrite once_head. unfold doReplaceRecordV1, doRecord. destruct (Nat.lt_ge_cases k 4) as [Hlt|Hge].
  { eexists. unfold checksumRead. cbn [p_reader]. rewrite ReadFull_short; [reflexivity|]. unfold blen. rewrite length_take. lia. }
  rewrite <- app_assoc, take_app_ge by (rewrite length_le_split; lia). rewrite checksumRead_4, length_le_split. cbn [obind].
  rewrite le_combine_split by (change (256 ^ Z.of_nat 4) with (2 ^ 32); lia). unfold copyN. cbn [p_reader].
  rewrite ReadFull_short; [by eexists|]. unfold blen at 1. rewrite length_drop, length_take, length_app, length_crc_Sum. unfold blen. lia.
Qed.

(** The number of records that lie within the first [k] bytes *)
Fixpoint survivors (k : nat) (ns : list segmentReplaceNode) : nat :=
  match ns with
  | [] => 0
  | n :: ns => let len := (10 + length (replace_layout n))%nat in if (len <=? k)%nat then S (survivors (k - len) ns) else 0
  end.

Definition cache_of (c : node_cache) (ns : list segmentReplaceNode) : node_cache := foldl (fun c n => cache_node (read_back n) c) c ns.

(** The parser of a cut log gives the records before the cut, and an error exactly if the cut
    went through a record. *)
Lemma loop_cut count ns : forall crc k fuel cache,
  Forall (logged count) ns -> (length (take k (log_from crc ns)) < fuel)%nat ->
  exists err, doReplace_loop fuel count (Parser (take k (log_from crc ns)) crc) cache = Ok (cache_of cache (take (survivors k ns) ns), err) /\
    (err = None <-> take k (log_from crc ns) = log_from crc (take (survivors k ns) ns)).
Proof.
  induction ns as [|n ns IH]; intros crc k fuel cache Hns Hfuel; (destruct fuel as [|fuel]; [lia|]); cbn [log_from survivors].
  { rewrite take_nil. exists None. split; [done|]. done. }
  inversion_clear Hns as [|? ? Hn Hns']. cbn [log_from] in Hfuel. pose proof (length_record crc n) as Hlen.
  destruct (Nat.leb_spec (10 + length (replace_layout n)) k) as [Hle|Hgt].
  - rewrite take_app_ge, Hlen in Hfuel |- * by lia. cbn [doReplace_loop]. rewrite (once_record count crc n _ cache Hn).
    destruct (IH (crc_after crc n) (k - (10 + length (replace_layout n)))%nat fuel (cache_node (read_back n) cache) Hns') as (err & Hl & Herr).
    { rewrite length_app in Hfuel. lia. }
    exists err. split; [exact Hl|]. cbn [take log_from]. rewrite Herr. split; [by intros ->|]. intros H. by apply app_inv_head in H.
  - rewrite take_app_le by lia. destruct k as [|k].
    + rewrite take_0. exists None. by split.
    + destruct (once_torn count crc n cache (S k) Hn) as [e He]; [lia|]. cbn [doReplace_loop]. rewrite He. exists (Some e). split; [done|].
      split; [done|]. cbn [take log_from]. intros H. apply (f_equal length) in H. rewrite length_take in H. cbn [length] in H. lia.
Qed.

Lemma parse_log_cut count ns k :
  Forall (logged count) ns ->
  exists err, parse_log count (take k (log_from 0 ns)) = Ok (cache_of ∅ (take (survivors k ns) ns), err) /\
    (err = None <-> take k (log_from 0 ns) = log_from 0 (take (survivors k ns) ns)).
Proof. intros Hns. apply loop_cut; [done|lia]. Qed.

Lemma survivors_all crc ns : survivors (length (log_from crc ns)) ns = length ns.
Proof.
  revert crc. induction ns as [|n ns IH]; intros crc; [done|]. cbn [log_from survivors length]. rewrite length_app, length_record.
  rewrite (proj2 (Nat.leb_le _ _)) by lia. f_equal. rewrite Nat.add_comm, Nat.add_sub. apply IH.
Qed.

Lemma survivors_le k ns : (survivors k ns <= length ns)%nat.
Proof. revert k. induction ns as [|n ns IH]; intros k; cbn [survivors length]; [lia|]. destruct (_ <=? _)%nat; [|lia]. specialize (IH (k - (10 + length (replace_layout n)))%nat). lia. Qed.

(** A write that was synced survives. *)
Lemma survivors_prefix ns1 ns2 : forall k crc,
  (length (log_from crc ns1) <= k)%nat -> (length ns1 <= survivors k (ns1 ++ ns2))%nat.
Proof.
  induction ns1 as [|n ns1 IH]; intros k crc Hk; cbn [length]; [lia|]. cbn [log_from app survivors] in *.
  rewrite length_app, length_record in Hk. rewrite (proj2 (Nat.leb_le _ _)) by lia. apply le_n_S, (IH _ (crc_after crc n)). lia.
Qed.
