(* ===== verification/LogReplay.v ===== *)
(** * Replaying a write-ahead log

    The second half of [doReplace] of [commitlogger_parser_replace.go]: the nodes the parser
    kept of a log are written to a fresh memtable, in whatever order the loop over
    the map visits them.  The memtable that comes out holds the last complete write of each key. *)

From S2P Require Import Prelude ByteOps RBTree SearchTree SegmentIndex IndexLayout DiskTree MemtableTree ReplaceNode SegmentFile ReplaceSegment ReplaceCompactor ReplaceBucket CommitLog.
Import Replace.

(** ** Replaying a log *)

(** The options of a replayed write; a key of length zero is parsed as nil. *)
Definition secondary_opts (secondaryIndices : Z) (node : segmentReplaceNode) : list (Z * option (list Z)) :=
  if 0 <? secondaryIndices then imap (fun i k => (Z.of_nat i, if bool_decide (k = []) then None else Some k)) (sn_secondaryKeys node)
  else [].

(** The error of a replayed write is dropped. *)
Definition replay_node (m : Memtable) (node : segmentReplaceNode) : outcome store_error Memtable :=
  let opts := secondary_opts (mt_secondaryIndices m) node in
  match (if sn_tombstone node then memtable_setTombstone m (sn_primaryKey node) [] opts
         else memtable_put m (sn_primaryKey node) (sn_value node) opts) with
  | Err _ => Ok m
  | r => r
  end.

Fixpoint replay (m : Memtable) (nodes : list segmentReplaceNode) : outcome store_error Memtable :=
  match nodes with [] => Ok m | node :: nodes => let! m := replay_node m node in replay m nodes end.

(** [iterate]: the order in which the loop over a map visits it *)
Definition doReplace (iterate : node_cache -> list segmentReplaceNode) (m : Memtable) (file : list Z) :
    outcome store_error (Memtable * option store_error) :=
  let! (nodeCache, errWhileParsing) := parse_log (mt_secondaryIndices m) file in
  let! m := replay m (iterate nodeCache) in
  Ok (m, errWhileParsing).

(** * Properties *)

(** ** The writes a log holds *)

Definition apply_node (m : gmap (list Z) (list Z)) (n : segmentReplaceNode) : gmap (list Z) (list Z) :=
  if sn_tombstone n then delete (sn_primaryKey n) m else <[sn_primaryKey n := sn_value n]> m.

Definition apply_nodes (m : gmap (list Z) (list Z)) (ns : list segmentReplaceNode) : gmap (list Z) (list Z) := foldl apply_node m ns.

(** What is visible of an entry or of a node *)
Definition shadow (o : option bs_data) : option (option (list Z)) := (fun n => if tombstone n then None else Some (value n)) <$> o.
Definition node_shadow (n : segmentReplaceNode) : option (list Z) := if sn_tombstone n then None else Some (sn_value n).

(** The last write of a key *)
Definition log_entry (ns : list segmentReplaceNode) (k : list Z) : option (option (list Z)) :=
  foldl (fun acc n => if bool_decide (sn_primaryKey n = k) then Some (node_shadow n) else acc) None ns.

Lemma log_entry_snoc ns n k :
  log_entry (ns ++ [n]) k = if bool_decide (sn_primaryKey n = k) then Some (node_shadow n) else log_entry ns k.
Proof. unfold log_entry. by rewrite foldl_app. Qed.

Lemma apply_nodes_lookup m ns k : apply_nodes m ns !! k = match log_entry ns k with Some v => v | None => m !! k end.
Proof.
  induction ns as [|n ns IH] using rev_ind; [done|]. unfold apply_nodes. rewrite foldl_app, log_entry_snoc. cbn [foldl].
  fold (apply_nodes m ns). unfold apply_node, node_shadow. case_bool_decide as E; destruct (sn_tombstone n).
  - by rewrite <- E, lookup_delete_eq.
  - by rewrite <- E, lookup_insert_eq.
  - by rewrite lookup_delete_ne.
  - by rewrite lookup_insert_ne.
Qed.

Lemma live_cons o l : live (newest (o :: l)) = match shadow o with Some v => v | None => live (newest l) end.
Proof. destruct o as [n|]; [|done]. cbn. by destruct (tombstone n). Qed.

(** ** Replaying *)

Definition nil_if_empty (k : list Z) : option (list Z) := if bool_decide (k = []) then None else Some k.

Lemma apply_opts_all ks : forall base pre rest,
  length pre = base -> length rest = length ks ->
  apply_opts (imap (fun i k => (Z.of_nat (base + i), nil_if_empty k)) ks) (pre ++ rest) = Ok (pre ++ map nil_if_empty ks).
Proof.
  induction ks as [|k ks IH]; intros base pre rest Hpre Hrest.
  { apply nil_length_inv in Hrest as ->. done. }
  destruct rest as [|o rest]; [done|]. cbn [imap apply_opts map]. unfold WithSecondaryKey. rewrite Nat.add_0_r, length_app. cbn [length].
  rewrite (proj2 (Z.ltb_ge _ _)) by lia. rewrite (proj2 (Z.ltb_ge (Z.of_nat base) _)), (proj2 (Z.leb_gt _ _)) by lia. cbn [orb obind].
  rewrite Nat2Z.id. replace base with (length pre + 0)%nat at 1 by lia. rewrite insert_app_r. cbn [insert list_insert].
  specialize (IH (S base) (pre ++ [nil_if_empty k]) rest). rewrite <- !app_assoc in IH. cbn [app] in IH. rewrite <- IH; [|rewrite length_app; cbn; lia|cbn in Hrest; lia].
  f_equal. apply imap_ext. intros i x _. cbn. do 2 f_equal. lia.
Qed.

(** A node the replay accepts *)
Record replayable (count : Z) (skip : bool) (n : segmentReplaceNode) : Prop := {
  rp_node : node_ok n;
  rp_key : sn_primaryKey n <> [];
  rp_index : sn_secondaryIndexCount n = count;
  rp_keys : Z.of_nat (length (sn_secondaryKeys n)) = count;
  rp_present : skip = true \/ Forall (fun k => k <> []) (sn_secondaryKeys n) }.

Lemma createSecondaryKeys_replay count m n :
  mt_secondaryIndices m = count -> replayable count (mt_skipSecondaryKeyCheck m) n ->
  createSecondaryKeys m (secondary_opts count n) = Ok (sn_secondaryKeys n).
Proof.
  intros Hc [_ _ _ Hk Hp]. unfold createSecondaryKeys, secondary_opts. rewrite Hc. destruct (Z.ltb_spec 0 count) as [Hlt|Hge].
  2:{ destruct (sn_secondaryKeys n); [done|]. cbn [length] in Hk. lia. }
  pose proof (apply_opts_all (sn_secondaryKeys n) 0 [] (replicate (Z.to_nat count) None) eq_refl) as Ha.
  cbn [app] in Ha. rewrite (imap_ext _ (fun i k => (Z.of_nat (0 + i), nil_if_empty k))) by done.
  rewrite Ha by (rewrite length_replicate; lia). cbn [obind].
  assert (Hb : negb (mt_skipSecondaryKeyCheck m) && existsb (fun k : option (list Z) => match k with None => true | Some _ => false end)
    (map nil_if_empty (sn_secondaryKeys n)) = false).
  { destruct Hp as [->|Hp]; [done|]. apply andb_false_intro2, not_true_is_false. rewrite existsb_exists.
    intros (o & Ho & Hn). apply in_map_iff in Ho as (k & <- & Hin). rewrite Forall_forall in Hp. unfold nil_if_empty in Hn.
    specialize (Hp k (proj2 (list_elem_of_In _ _) Hin)). by rewrite bool_decide_false in Hn. }
  rewrite Hb. f_equal. rewrite map_map. rewrite <- (map_id (sn_secondaryKeys n)) at 2. apply map_ext.
  intros k. unfold nil_if_empty. by case_bool_decide.
Qed.

Lemma set_each_nil maps v : set_each maps [] v = Ok maps.
Proof. by destruct maps. Qed.

Lemma set_each_ok secs v : forall maps, (length secs <= length maps)%nat ->
  exists maps', set_each maps secs v = Ok maps' /\ length maps' = length maps.
Proof.
  induction secs as [|sec secs IH]; intros [|m maps] Hl; cbn [length] in Hl; [by eexists..|lia|]. cbn [set_each].
  destruct (IH maps) as (maps' & -> & Hl'); [lia|]. cbn [obind]. eexists. split; [done|]. cbn [length]. lia.
Qed.

(** The entry of a replayed node: a tombstone has no value. *)
Definition replayed (n : segmentReplaceNode) : bs_data :=
  BsData (sn_primaryKey n) (if sn_tombstone n then [] else sn_value n) (sn_secondaryKeys n) (sn_tombstone n).

(** The size a replayed node adds *)
Definition added (n : segmentReplaceNode) : Z := blen (sn_primaryKey n) + (if sn_tombstone n then 1 else blen (sn_value n)).

(** A memtable during the replay *)
Record replaying (count : Z) (enable skip : bool) (m : Memtable) (st : gmap (list Z) bs_data) : Prop := {
  re_ok : mt_ok count enable m st;
  re_skip : mt_skipSecondaryKeyCheck m = skip;
  re_maps : Z.of_nat (length (mt_secondaryToPrimary m)) = count;
  re_size : 0 <= mt_size m }.

Lemma replayed_fits count skip n : replayable count skip n -> 0 <= count < 2 ^ 16 -> entry_fits count (replayed n).
Proof.
  intros [Hn Hk _ Hs _] Hc. destruct Hn as [H1 H2 H3 H4 H5 H6]. split; [|split; [done|]].
  - split; cbn [seg_node replayed sn_value sn_primaryKey sn_secondaryIndexCount sn_secondaryKeys key value secondaryKeys]; try (done || lia).
    + destruct (sn_tombstone n); [constructor|done].
    + destruct (sn_tombstone n); done.
  - intros Ht. cbn [replayed tombstone value] in *. rewrite Ht. by left.
Qed.

Lemma replay_node_spec count enable skip m st n :
  replaying count enable skip m st -> 0 <= count < 2 ^ 16 -> replayable count skip n -> st !! sn_primaryKey n = None ->
  mt_size m + added n < 2 ^ 64 ->
  exists m', replay_node m n = Ok m' /\ replaying count enable skip m' (<[sn_primaryKey n := replayed n]> st) /\
    mt_size m' = mt_size m + added n.
Proof.
  intros [[Hr He Hc Hen] Hsk Hm Hsz] Hb Hn Hnone Hlt. pose proof (replayed_fits _ _ _ Hn Hb) as Hfits.
  assert (Hadd : 0 <= added n) by (unfold added, blen; destruct (sn_tombstone n); lia).
  pose proof (createSecondaryKeys_replay count m n Hc ltac:(by rewrite Hsk)) as Hcs.
  assert (He' : forall k x, <[sn_primaryKey n := replayed n]> st !! k = Some x -> entry_fits count x).
  { intros k x [[_ <-]|[_ Hx]]%lookup_insert_Some; [done|by eapply He]. }
  destruct (set_each_ok (sn_secondaryKeys n) (Some (sn_primaryKey n)) (mt_secondaryToPrimary m)) as (maps & Hmaps & Hlen).
  { pose proof (rp_keys _ _ _ Hn). lia. }
  unfold replay_node. rewrite Hc. unfold added, replayed in *. destruct (sn_tombstone n) eqn:Et.
  - unfold memtable_setTombstone. rewrite Hcs. cbn [obind].
    destruct (run_op_refines (E := store_error) _ _ (SetTombstone (sn_primaryKey n) [] (sn_secondaryKeys n)) Hr) as (t' & Hi & Hr').
    cbn [run_op spec_op spec_result] in Hi, Hr'. rewrite Hnone in Hi.
    destruct (bst_setTombstone _ _ _ _) as [[t'' [prev was]]| | |]; [|done..]. cbn [obind fst snd] in Hi |- *. injection Hi as -> -> ->.
    unfold updateSecondaryToPrimary. rewrite set_each_nil. cbn [obind]. rewrite Hmaps. cbn [obind]. eexists. split; [done|].
    split; [|cbn [mt_size]; rewrite u64_small by (unfold is_u64; lia); lia].
    split; [split|..]; cbn [mt_key mt_secondaryIndices mt_enableChecksumValidation mt_skipSecondaryKeyCheck mt_secondaryToPrimary mt_size]; try done; [lia|].
    apply Z.mod_pos_bound. lia.
  - unfold memtable_put. rewrite Hcs. cbn [obind].
    destruct (run_op_refines (E := store_error) _ _ (Insert (sn_primaryKey n) (sn_value n) (sn_secondaryKeys n)) Hr) as (t' & Hi & Hr').
    cbn [run_op spec_op spec_result] in Hi, Hr'. rewrite Hnone in Hi. rewrite Hi. cbn [obind].
    unfold updateSecondaryToPrimary. rewrite set_each_nil. cbn [obind]. rewrite Hmaps. cbn [obind]. eexists. split; [done|].
    split; [|cbn [mt_size]; rewrite (u64_small (blen _ + _)) by (unfold is_u64; lia); rewrite u64_small by (unfold is_u64; lia); lia].
    split; [split|..]; cbn [mt_key mt_secondaryIndices mt_enableChecksumValidation mt_skipSecondaryKeyCheck mt_secondaryToPrimary mt_size]; try done; [lia|].
    apply Z.mod_pos_bound. lia.
Qed.

Definition total {A} (f : A -> Z) (l : list A) : Z := foldr (fun x acc => f x + acc) 0 l.

Lemma total_perm {A} (f : A -> Z) l1 l2 : l1 ≡ₚ l2 -> total f l1 = total f l2.
Proof. induction 1; cbn [total foldr]; unfold total in *; lia. Qed.

Lemma total_nonneg {A} (f : A -> Z) l : (forall x, x ∈ l -> 0 <= f x) -> 0 <= total f l.
Proof.
  induction l as [|x l IH]; intros H; cbn [total foldr]; [lia|]. fold (total f l).
  pose proof (H x (list_elem_of_here _ _)). specialize (IH (fun y Hy => H y (list_elem_of_further _ _ _ Hy))). lia.
Qed.

(** Elements with different keys below elements with the same keys *)
Lemma total_le {A B K} (kf : A -> K) (kg : B -> K) (f : A -> Z) (g : B -> Z) l1 : forall l2,
  NoDup (kf <$> l1) -> (forall y, y ∈ l2 -> 0 <= g y) ->
  (forall x, x ∈ l1 -> exists y, y ∈ l2 /\ kg y = kf x /\ f x <= g y) -> total f l1 <= total g l2.
Proof.
  induction l1 as [|x l1 IH]; intros l2 Hnd Hg H; [by apply total_nonneg|]. rewrite fmap_cons in Hnd. apply NoDup_cons in Hnd as [Hx Hnd].
  destruct (H x (list_elem_of_here _ _)) as (y & Hy & Hk & Hf). apply elem_of_Permutation in Hy as [l2' Hp].
  rewrite (total_perm g l2 (y :: l2') Hp). cbn [total foldr]. fold (total f l1) (total g l2'). enough (total f l1 <= total g l2') by lia.
  apply IH; [done|intros z Hz; apply Hg; rewrite Hp; by right|]. intros x' Hx'.
  destruct (H x' (list_elem_of_further _ _ _ Hx')) as (y' & Hy' & Hk' & Hf'). exists y'. split; [|done].
  rewrite Hp in Hy'. apply elem_of_cons in Hy' as [->|Hy']; [|done]. destruct Hx. rewrite <- Hk, Hk'. by apply list_elem_of_fmap_2.
Qed.

Definition replayed_all (st : gmap (list Z) bs_data) (ns : list segmentReplaceNode) : gmap (list Z) bs_data :=
  foldl (fun st n => <[sn_primaryKey n := replayed n]> st) st ns.

Lemma added_pos n : sn_primaryKey n <> [] -> 0 < added n.
Proof. intros Hk. unfold added. destruct (sn_primaryKey n); [done|]. rewrite blen_cons. unfold blen. destruct (sn_tombstone n); lia. Qed.

Lemma replay_spec count enable skip ns : 0 <= count < 2 ^ 16 -> forall m st,
  replaying count enable skip m st -> Forall (replayable count skip) ns -> NoDup (sn_primaryKey <$> ns) ->
  Forall (fun n => st !! sn_primaryKey n = None) ns -> mt_size m + total added ns < 2 ^ 64 ->
  exists m', replay m ns = Ok m' /\ replaying count enable skip m' (replayed_all st ns) /\ mt_size m' = mt_size m + total added ns.
Proof.
  intros Hc. induction ns as [|n ns IH]; intros m st Hm Hns Hnd Hst Hsz.
  { exists m. split_and!; [done..|]. cbn. lia. }
  apply Forall_cons in Hns as [Hn Hns]. apply Forall_cons in Hst as [Hst1 Hst]. rewrite fmap_cons in Hnd. apply NoDup_cons in Hnd as [Hni Hnd].
  cbn [total foldr] in Hsz. fold (total added ns) in Hsz.
  assert (0 <= total added ns).
  { apply total_nonneg. rewrite Forall_forall in Hns. intros x Hx. apply Z.lt_le_incl, added_pos, (Hns x Hx). }
  destruct (replay_node_spec count enable skip m st n Hm Hc Hn Hst1) as (m1 & H1 & Hm1 & Hs1); [lia|].
  destruct (IH m1 (<[sn_primaryKey n := replayed n]> st) Hm1 Hns Hnd) as (m' & H2 & Hm' & Hs'); [|lia|].
  - rewrite Forall_forall in Hst |- *. intros x Hx. rewrite lookup_insert_ne; [auto|]. intros E. apply Hni. rewrite E. by apply list_elem_of_fmap_2.
  - exists m'. cbn [replay]. rewrite H1. cbn [obind]. split_and!; [done..|]. cbn [total foldr]. fold (total added ns). lia.
Qed.

Lemma replayed_all_lookup ns : forall st k,
  NoDup (sn_primaryKey <$> ns) ->
  replayed_all st ns !! k = match list_find (fun n => sn_primaryKey n = k) ns with Some (_, n) => Some (replayed n) | None => st !! k end.
Proof.
  induction ns as [|n ns IH]; intros st k Hnd; [done|]. rewrite fmap_cons in Hnd. apply NoDup_cons in Hnd as [Hni Hnd].
  cbn [replayed_all foldl list_find]. fold (replayed_all (<[sn_primaryKey n := replayed n]> st) ns). rewrite IH by done.
  destruct (decide (sn_primaryKey n = k)) as [<-|Hne].
  - assert (E : list_find (fun x => sn_primaryKey x = sn_primaryKey n) ns = None).
    { apply list_find_None, Forall_forall. intros x Hx E. apply Hni. rewrite <- E. by apply list_elem_of_fmap_2. }
    by rewrite E, lookup_insert_eq.
  - rewrite lookup_insert_ne by done. by destruct (list_find _ ns) as [[i x]|].
Qed.

(** ** The cache of the parser *)

Definition weight (n : segmentReplaceNode) : Z := blen (replace_layout n).
Definition cache_weight (c : node_cache) : Z := total weight (map_to_list c).*2.

Lemma weight_nonneg n : 0 <= weight n.
Proof. unfold weight, blen. lia. Qed.

Lemma cache_weight_insert c k n : c !! k = None -> cache_weight (<[k := n]> c) = weight n + cache_weight c.
Proof. intros Hk. unfold cache_weight. rewrite (total_perm weight _ ((k, n) :: map_to_list c).*2); [done|]. by apply fmap_Permutation, map_to_list_insert. Qed.

Lemma cache_weight_replace c k e n : c !! k = Some e -> cache_weight (<[k := n]> c) = weight n + cache_weight c - weight e.
Proof.
  intros Hk. rewrite <- (insert_delete_eq c), cache_weight_insert by apply lookup_delete_eq.
  rewrite <- (insert_delete_id c k e Hk) at 2. rewrite cache_weight_insert by apply lookup_delete_eq. lia.
Qed.

Lemma cache_weight_bound c k n : cache_weight (<[k := n]> c) <= weight n + cache_weight c.
Proof.
  destruct (c !! k) as [e|] eqn:E; [|by rewrite cache_weight_insert].
  rewrite (cache_weight_replace c k e n E). pose proof (weight_nonneg e). lia.
Qed.

Lemma weight_flag t o n : weight (ReplaceNode t (sn_value n) (sn_primaryKey n) (sn_secondaryIndexCount n) (sn_secondaryKeys n) o) = weight n.
Proof. unfold weight, replace_layout, padded. cbn [sn_value sn_primaryKey sn_secondaryIndexCount sn_secondaryKeys sn_tombstone]. by rewrite !blen_app. Qed.

Lemma read_back_same count skip n :
  replayable count skip n ->
  read_back n = ReplaceNode (sn_tombstone n) (sn_value n) (sn_primaryKey n) (sn_secondaryIndexCount n) (sn_secondaryKeys n) (weight n).
Proof.
  intros [_ _ Hc Hk _]. unfold read_back, parsed, padded. f_equal.
  replace (Z.to_nat _) with (length (sn_secondaryKeys n)) by lia. by rewrite resize_all.
Qed.

Definition cache_ok (count : Z) (skip : bool) (c : node_cache) : Prop :=
  forall k n, c !! k = Some n -> sn_primaryKey n = k /\ replayable count skip n.

Lemma replayable_flag count skip t o n :
  replayable count skip n -> replayable count skip (ReplaceNode t (sn_value n) (sn_primaryKey n) (sn_secondaryIndexCount n) (sn_secondaryKeys n) o).
Proof. intros [[] ? ? ? ?]. split; [split|..]; done. Qed.

Lemma cache_node_spec count skip c n :
  cache_ok count skip c -> replayable count skip n ->
  cache_ok count skip (cache_node n c) /\
  (forall k, node_shadow <$> cache_node n c !! k = if bool_decide (sn_primaryKey n = k) then Some (node_shadow n) else node_shadow <$> c !! k) /\
  cache_weight (cache_node n c) <= weight n + cache_weight c.
Proof.
  intros Hc Hn.
  assert (Hone : exists x, cache_node n c = <[sn_primaryKey n := x]> c /\ sn_primaryKey x = sn_primaryKey n /\ replayable count skip x /\
    node_shadow x = node_shadow n /\ cache_weight (<[sn_primaryKey n := x]> c) <= weight n + cache_weight c).
  { unfold cache_node. destruct (sn_tombstone n) eqn:Et; cbn [negb]; [|exists n; split_and!; try done; apply cache_weight_bound].
    destruct (c !! sn_primaryKey n) as [e|] eqn:Ee; [|exists n; split_and!; try done; apply cache_weight_bound].
    destruct (Hc _ _ Ee) as [Hke Hre]. eexists. split; [done|]. cbn [sn_primaryKey]. split_and!; [done|by apply replayable_flag|by unfold node_shadow; rewrite Et|].
    rewrite (cache_weight_replace c _ e _ Ee), weight_flag. pose proof (weight_nonneg n). lia. }
  destruct Hone as (x & -> & Hk & Hx & Hs & Hw). split_and!; [..|done].
  - intros k y [[<- <-]|[_ Hy]]%lookup_insert_Some; [done|by apply Hc].
  - intros k. case_bool_decide as E; [subst k; rewrite lookup_insert_eq; cbn; by rewrite Hs|by rewrite lookup_insert_ne].
Qed.

(** A node of the log that the replay accepts *)
Record recoverable (count : Z) (skip : bool) (n : segmentReplaceNode) : Prop := {
  rc_logged : logged count n;
  rc_replay : replayable count skip n }.

Lemma cache_of_spec count skip ns :
  Forall (recoverable count skip) ns ->
  cache_ok count skip (cache_of ∅ ns) /\ (forall k, node_shadow <$> cache_of ∅ ns !! k = log_entry ns k) /\
  cache_weight (cache_of ∅ ns) <= total weight ns.
Proof.
  induction ns as [|n ns IH] using rev_ind; intros Hns; [by split_and!|].
  apply Forall_app in Hns as [Hns [Hn _]%Forall_cons]. destruct (IH Hns) as (H1 & H2 & H3).
  pose proof (read_back_same count skip n (rc_replay _ _ _ Hn)) as Hrb.
  assert (Hr : replayable count skip (read_back n)) by (rewrite Hrb; apply replayable_flag, Hn).
  unfold cache_of. rewrite foldl_app. cbn [foldl]. fold (cache_of ∅ ns).
  destruct (cache_node_spec count skip (cache_of ∅ ns) (read_back n) H1 Hr) as (G1 & G2 & G3). split_and!; [done|..].
  - intros k. rewrite G2, log_entry_snoc, Hrb. cbn [sn_primaryKey]. by rewrite H2.
  - rewrite (total_perm weight (ns ++ [n]) (n :: ns)) by (by rewrite Permutation_app_comm). cbn [total foldr]. fold (total weight ns).
    rewrite Hrb, weight_flag in G3. rewrite Hrb. lia.
Qed.

(** ** The memtable of a log *)

Lemma body_total count flat : blen (seg_body count flat) = total (fun x => blen (layout count x)) flat.
Proof. induction flat as [|x flat IH]; [done|]. unfold seg_body in *. rewrite fmap_cons. cbn [concat total foldr]. by rewrite blen_app, IH. Qed.

Lemma weight_replayed count skip n : replayable count skip n -> blen (layout count (replayed n)) <= weight n.
Proof.
  intros [_ _ Hc _ _]. unfold layout, weight, replace_layout, padded, seg_node, replayed.
  cbn [sn_value sn_primaryKey sn_secondaryIndexCount sn_secondaryKeys sn_tombstone key value secondaryKeys tombstone]. rewrite Hc, !blen_app, !blen_le_split.
  destruct (sn_tombstone n); [|lia]. pose proof (blen_nonneg (sn_value n)). change (blen []) with 0. lia.
Qed.

Lemma added_weight n : added n <= weight n.
Proof.
  unfold added, weight, replace_layout, key_block. rewrite !blen_app, !blen_le_split. change (blen [_]) with 1.
  pose proof (blen_nonneg (sn_value n)). pose proof (blen_nonneg (key_blocks (padded n))). destruct (sn_tombstone n); lia.
Qed.

Lemma total_mono {A} (f g : A -> Z) l : (forall x, f x <= g x) -> total f l <= total g l.
Proof. intros H. induction l as [|x l IH]; cbn [total foldr]; [lia|]. fold (total f l) (total g l). specialize (H x). lia. Qed.

Lemma log_weight crc ns : total weight ns <= blen (log_from crc ns).
Proof.
  revert crc. induction ns as [|n ns IH]; intros crc; cbn [total foldr log_from]; [unfold blen; lia|]. fold (total weight ns).
  specialize (IH (crc_after crc n)). rewrite blen_app. unfold blen at 1. rewrite length_record. unfold weight, blen in *. lia.
Qed.

Definition visits (iterate : node_cache -> list segmentReplaceNode) : Prop := forall c, iterate c ≡ₚ (map_to_list c).*2.

Section replay.
Context (count : Z) (enable skip : bool) (c : node_cache) (ns : list segmentReplaceNode).
Hypothesis Hcount : 0 <= count < 2 ^ 16.
Hypothesis Hcache : cache_ok count skip c.
Hypothesis Hvisit : ns ≡ₚ (map_to_list c).*2.
Hypothesis Hsmall : cache_weight c < 2 ^ 34.

Lemma visited n : n ∈ ns <-> c !! sn_primaryKey n = Some n.
Proof.
  rewrite Hvisit, list_elem_of_fmap. split.
  - intros ([k x] & -> & Hx%elem_of_map_to_list). cbn [snd]. by destruct (Hcache _ _ Hx) as [-> _].
  - intros Hn. exists (sn_primaryKey n, n). split; [done|]. by apply elem_of_map_to_list.
Qed.

Lemma visited_NoDup : NoDup (sn_primaryKey <$> ns).
Proof.
  rewrite Hvisit, <- list_fmap_compose. rewrite (list_fmap_ext _ fst); [apply NoDup_fst_map_to_list|].
  intros i [k x] Hx%list_elem_of_lookup_2%elem_of_map_to_list. cbn. by destruct (Hcache _ _ Hx).
Qed.

Lemma replayed_lookup k : replayed_all ∅ ns !! k = replayed <$> c !! k.
Proof.
  rewrite replayed_all_lookup by apply visited_NoDup. destruct (list_find _ ns) as [[i n]|] eqn:E.
  - apply list_find_Some in E as (Hi & Hk & _). apply list_elem_of_lookup_2, visited in Hi. rewrite Hk in Hi. by rewrite Hi.
  - apply list_find_None in E. destruct (c !! k) as [n|] eqn:En; [|by rewrite lookup_empty]. rewrite Forall_forall in E.
    destruct (Hcache _ _ En) as [Hk _]. destruct (E n); [|done]. apply visited. by rewrite Hk.
Qed.

Lemma replay_fresh :
  exists m, replay (newMemtable count enable skip) ns = Ok m /\ mt_ok count enable m (replayed_all ∅ ns) /\ memtable_small m /\
    (mt_size m = 0 <-> ns = []).
Proof.
  assert (Hns : Forall (replayable count skip) ns) by (apply Forall_forall; intros n Hn%visited; by destruct (Hcache _ _ Hn)).
  assert (Hw : total weight ns = cache_weight c) by (by apply total_perm). pose proof (total_mono added weight ns added_weight).
  destruct (replay_spec count enable skip ns Hcount (newMemtable count enable skip) ∅) as (m & Hm & [Hok _ _ _] & Hsz); try done.
  - split; [apply new_mt_ok|done|cbn; rewrite length_replicate; lia|cbn; lia].
  - apply visited_NoDup.
  - apply Forall_forall. intros n _. by rewrite lookup_empty.
  - cbn [newMemtable mt_size]. lia.
  - exists m. split_and!; [done..| |].
    + intros flat Hflat. destruct (flatten_store _ _ (mo_tree _ _ _ _ Hok)) as (flat' & Hf' & Hsort & Hlk).
      rewrite Hflat in Hf'. injection Hf' as <-. rewrite (mo_count _ _ _ _ Hok), body_total.
      enough (total (fun x => blen (layout count x)) flat.*1 <= total weight ns) by lia.
      apply (total_le key sn_primaryKey); [by apply sorted_keys_NoDup|intros; apply weight_nonneg|].
      intros x Hx. rewrite (lookup_key_elem _ _ _ Hsort), Hlk, replayed_lookup in Hx. destruct (c !! key x) as [n|] eqn:En; [|done]. injection Hx as <-.
      destruct (Hcache _ _ En) as [Hk Hn]. exists n. split; [apply visited; by rewrite Hk|]. split; [done|].
      by eapply weight_replayed.
    + rewrite Hsz. cbn [newMemtable mt_size]. destruct ns as [|n l]; [done|]. split; [|done]. cbn [total foldr]. fold (total added l).
      apply Forall_cons in Hns as [Hn Hl]. pose proof (added_pos n (rp_key _ _ _ Hn)).
      assert (0 <= total added l); [|lia]. apply total_nonneg. rewrite Forall_forall in Hl. intros x Hx. apply Z.lt_le_incl, added_pos, (Hl x Hx).
Qed.
End replay.

Lemma shadow_replayed n : shadow (Some (replayed n)) = Some (node_shadow n).
Proof. unfold shadow, node_shadow, replayed. cbn. by destruct (sn_tombstone n). Qed.

(** The records of a cut log *)
Definition surviving (k : nat) (ns : list segmentReplaceNode) : list segmentReplaceNode := take (survivors k ns) ns.

(** The cut is at the end of a record. *)
Definition clean_cut (k : nat) (ns : list segmentReplaceNode) : bool := bool_decide (take k (log_from 0 ns) = log_from 0 (surviving k ns)).

(** A cut log rebuilds the memtable of the writes before the cut. *)
Lemma doReplace_cut count enable skip iterate ns k :
  0 <= count < 2 ^ 16 -> Forall (recoverable count skip) ns -> visits iterate -> blen (log_from 0 ns) < 2 ^ 34 ->
  exists m err st, doReplace iterate (newMemtable count enable skip) (take k (log_from 0 ns)) = Ok (m, err) /\
    (err = None <-> clean_cut k ns = true) /\ mt_ok count enable m st /\ memtable_small m /\
    (forall key, shadow (st !! key) = log_entry (surviving k ns) key) /\ (mt_size m = 0 <-> surviving k ns = []).
Proof.
  intros Hc Hns Hit Hlt. assert (Hl : Forall (logged count) ns) by (eapply Forall_impl; [exact Hns|]; by intros n []).
  destruct (parse_log_cut count ns k Hl) as (err & Hparse & Herr). fold (surviving k ns) in Hparse, Herr.
  assert (Hsv : Forall (recoverable count skip) (surviving k ns)) by (by apply Forall_take).
  destruct (cache_of_spec count skip _ Hsv) as (H1 & H2 & H3). set (c := cache_of ∅ (surviving k ns)) in *.
  assert (Hw : cache_weight c < 2 ^ 34).
  { pose proof (log_weight 0 (surviving k ns)) as Hlw. assert (blen (log_from 0 (surviving k ns)) <= blen (log_from 0 ns)); [|lia].
    rewrite <- (take_drop (survivors k ns) ns) at 2. rewrite log_from_app, blen_app. unfold blen at 3. fold (surviving k ns). lia. }
  destruct (replay_fresh count enable skip c (iterate c) Hc H1 (Hit c) Hw) as (m & Hm & Hok & Hsm & Hz).
  exists m, err, (replayed_all ∅ (iterate c)). unfold doReplace. cbn [newMemtable mt_secondaryIndices]. rewrite Hparse. cbn [obind]. fold c.
  rewrite Hm. cbn [obind]. split_and!; try done.
  - unfold clean_cut. by rewrite bool_decide_eq_true.
  - intros key. rewrite (replayed_lookup count skip c (iterate c) H1 (Hit c)), <- H2. destruct (c !! key) as [n|]; [apply shadow_replayed|done].
  - rewrite Hz. split.
    + intros E. pose proof (Hit c) as Hp. rewrite E in Hp. apply Permutation_nil_l in Hp. symmetry in Hp. apply fmap_nil_inv in Hp. apply map_to_list_empty_iff in Hp.
      destruct (surviving k ns) as [|n l] using rev_ind; [done|]. specialize (H2 (sn_primaryKey n)).
      rewrite Hp, lookup_empty, log_entry_snoc, bool_decide_true in H2 by done. done.
    + intros E. pose proof (Hit c) as Hp. unfold c in Hp |- *. rewrite E in Hp |- *. cbn in Hp. by apply Permutation_nil_r in Hp.
Qed.

(** A write with an empty secondary key is not recovered.  The parser gives nil for a key of length
    zero, the memtable refuses it unless missing keys are allowed, and the replay drops the error: the
    memtable stays as it was. *)
Lemma replay_drops_empty_secondary_key (m : Memtable) (n : segmentReplaceNode) :
  mt_skipSecondaryKeyCheck m = false -> Z.of_nat (length (sn_secondaryKeys n)) = mt_secondaryIndices m -> [] ∈ sn_secondaryKeys n ->
  replay_node m n = Ok m.
Proof.
  intros Hsk Hlen Hin. assert (Hc : createSecondaryKeys m (secondary_opts (mt_secondaryIndices m) n) = Err EMissingSecondaryKey).
  { unfold createSecondaryKeys, secondary_opts. destruct (sn_secondaryKeys n) as [|k ks] eqn:E; [by apply not_elem_of_nil in Hin|].
    rewrite (proj2 (Z.ltb_lt _ _)) by (cbn [length] in Hlen; lia). rewrite <- E in *.
    pose proof (apply_opts_all (sn_secondaryKeys n) 0 [] (replicate (Z.to_nat (mt_secondaryIndices m)) None) eq_refl) as Ha. cbn [app] in Ha.
    rewrite (imap_ext _ (fun i k => (Z.of_nat (0 + i), nil_if_empty k))) by done. rewrite Ha by (rewrite length_replicate; lia). cbn [obind].
    rewrite Hsk. cbn [negb andb]. replace (existsb _ _) with true; [done|]. symmetry. apply existsb_exists. exists None. split; [|done].
    apply in_map_iff. exists []. split; [done|]. by apply list_elem_of_In. }
  unfold replay_node, memtable_setTombstone, memtable_put. rewrite Hc. by destruct (sn_tombstone n).
Qed.

Lemma replay_drops_empty_secondary_key_witness :
  replay_node (newMemtable 2 true false) (ReplaceNode false [10] [1] 2 [[101]; []] 0) = Ok (newMemtable 2 true false).
Proof. apply replay_drops_empty_secondary_key; [reflexivity|reflexivity|right; left]. Defined.
