(* ===== verification/StoreRecovery.v ===== *)
(** * Opening a bucket after a crash

    A bucket of strategy "replace" with its directory: the write-ahead logs behind the
    memtables ([memtable.go], [memtable_flush.go], [bucket.go]), what a crash leaves of
    them, and [NewBucket] with [newSegmentGroup] and [mayRecoverFromCommitLogs]
    ([bucket.go], [segment_group.go], [bucket_recover_from_wal.go]).  Whatever the crash
    cut off the logs, and at whatever point of a flush or of the switch of a compaction
    it came, the bucket opens and holds exactly the writes whose records are complete. *)

From stdpp Require Import sorting.
From S2P Require Import Prelude ByteOps RBTree SearchTree SegmentIndex IndexLayout DiskTree MemtableTree ReplaceNode SegmentFile ReplaceSegment ReplaceCompactor ReplaceBucket CommitLog LogReplay.
Import Replace.

(** ** The directory of a bucket *)

(** Segments and logs by the number in their names.  A file [.db.tmp] carries one
    number when it is the output of a flush or of a cleanup, two when it is that of a compaction;
    they are listed in the order of their names. *)
Record directory : Type := Directory {
  d_dbs : gmap Z (list Z);
  d_tmps : list (list Z * list Z);
  d_wals : gmap Z (list Z) }.

Definition le_id {A} (x y : Z * A) : Prop := x.1 <= y.1.

#[export] Instance le_id_dec {A} : RelDecision (@le_id A).
Proof. intros x y. unfold le_id. apply _. Defined.

Definition sorted_files {A} (files : gmap Z A) : list (Z * A) := merge_sort le_id (map_to_list files).

(** ** The bucket with the logs of its memtables *)

Section store.
Context {F : Type} `{!Bloom F}.

(** [so_ids] are the numbers of the segments of [b_disk]; a memtable has a number and a log. *)
Record Store : Type := MkStore {
  so_bucket : Bucket F;
  so_ids : list Z;
  so_active : Z * option commitLogger;
  so_flushing : option (Z * option commitLogger) }.

Fixpoint log_all (cl : option commitLogger) (nodes : list segmentReplaceNode) : outcome store_error (option commitLogger) :=
  match nodes with [] => Ok cl | node :: nodes => let! cl := lazy_put cl node in log_all cl nodes end.

(** A write: what the memtable hands to its log is appended to the log. *)
Definition store_write (s : Store) (o : bucket_op) : outcome store_error Store :=
  let! b := run_bucket_op (so_bucket s) o in
  let! cl := log_all (so_active s).2 (drop (length (mt_commitlog (b_active (so_bucket s)))) (mt_commitlog (b_active b))) in
  Ok (MkStore b (so_ids s) ((so_active s).1, cl) (so_flushing s)).

(** A new memtable is named after the clock. *)
Definition store_switch (s : Store) (now : Z) : outcome store_error (bool * Store) :=
  let! (switched, b) := atomicallySwitchMemtable (so_bucket s) in
  Ok (switched, if switched : bool then MkStore b (so_ids s) (now, None) (Some (so_active s)) else MkStore b (so_ids s) (so_active s) (so_flushing s)).

(** The segment keeps the number of the memtable, whose log is deleted. *)
Definition store_flush (s : Store) (whole : bool) : outcome store_error Store :=
  let! b := flushFlushingLocked (so_bucket s) whole in
  match so_flushing s with
  | None => Panic
  | Some (id, _) => Ok (MkStore b (so_ids s ++ [id]) (so_active s) None)
  end.

(** The new segment takes the number of the right one. *)
Definition store_compact (s : Store) (fuel left : nat) (level : Z) (whole : bool) : outcome store_error Store :=
  let! b := compact_pair (so_bucket s) fuel left level whole in
  Ok (MkStore b (take left (so_ids s) ++ drop (S left) (so_ids s)) (so_active s) (so_flushing s)).

(** ** Opening *)

(** What [newSegmentGroup] does with the files a compaction or a flush left behind *)
Fixpoint settle_tmps (b : Bucket F) (whole : list Z -> bool) (tmps : list (list Z * list Z)) (dbs : gmap Z (list Z)) :
    outcome store_error (gmap Z (list Z)) :=
  match tmps with
  | [] => Ok dbs
  | ([leftId; rightId], file) :: tmps =>
      match dbs !! leftId, dbs !! rightId with
      | Some _, Some _ => settle_tmps b whole tmps dbs
      | Some _, None => Err ERightSegment
      | None, Some old =>
          let! _ := newSegment (b_segmentConfig b (whole old)) old in
          settle_tmps b whole tmps (<[rightId := file]> dbs)
      | None, None => settle_tmps b whole tmps (<[rightId := file]> dbs)
      end
  | _ :: tmps => settle_tmps b whole tmps dbs
  end.

(** A segment whose log still exists was not flushed completely. *)
Fixpoint open_segments (b : Bucket F) (whole : list Z -> bool) (wals : gmap Z (list Z)) (dbs : list (Z * list Z)) :
    outcome store_error (list (Z * segment F)) :=
  match dbs with
  | [] => Ok []
  | (id, file) :: dbs =>
      match wals !! id with
      | Some _ => open_segments b whole wals dbs
      | None =>
          let! s := newSegment (b_segmentConfig b (whole file)) file in
          let! rest := open_segments b whole wals dbs in
          Ok ((id, s) :: rest)
      end
  end.

(** The last log becomes the active memtable, unless it is damaged; the others are flushed. *)
Fixpoint recover_wals (b : Bucket F) (iterate : node_cache -> list segmentReplaceNode) (whole : list Z -> bool)
    (wals : list (Z * list Z)) (segments : list (Z * segment F)) :
    outcome store_error (list (Z * segment F) * option (Z * commitLogger * Memtable)) :=
  match wals with
  | [] => Ok (segments, None)
  | (id, file) :: wals =>
      let! cl := newCommitLogger file (blen file) in
      let! (mt, errRecovery) := doReplace iterate (createNewActiveMemtable b) file in
      let walForActiveMemtable := match wals with [] => true | _ => false end in
      if walForActiveMemtable && match errRecovery with None => true | Some _ => false end then Ok (segments, Some (id, cl, mt))
      else
        let! file := memtable_flush mt in
        match file with
        | None => recover_wals b iterate whole wals segments
        | Some file =>
            let! s := newSegment (b_segmentConfig b (whole file)) file in
            recover_wals b iterate whole wals (segments ++ [(id, s)])
        end
  end.

Definition mayRecoverFromCommitLogs (b : Bucket F) (iterate : node_cache -> list segmentReplaceNode) (whole : list Z -> bool)
    (files : gmap Z (list Z)) (segments : list (Z * segment F)) :
    outcome store_error (list (Z * segment F) * option (Z * commitLogger * Memtable)) :=
  match filter (fun f => f.2 <> []) (sorted_files files) with
  | [] => Ok (segments, None)
  | wals =>
      let! (segments, active) := recover_wals b iterate whole wals segments in
      Ok (merge_sort le_id segments, active)
  end.

Definition newSegmentGroup (b : Bucket F) (iterate : node_cache -> list segmentReplaceNode) (whole : list Z -> bool) (dir : directory) :
    outcome store_error (list (Z * segment F) * option (Z * commitLogger * Memtable)) :=
  let! dbs := settle_tmps b whole (d_tmps dir) (d_dbs dir) in
  let! segments := open_segments b whole (d_wals dir) (sorted_files dbs) in
  mayRecoverFromCommitLogs b iterate whole (d_wals dir) segments.

(** [NewBucket] once the options are set *)
Definition init_bucket (b : Bucket F) (iterate : node_cache -> list segmentReplaceNode) (whole : list Z -> bool) (now : Z) (dir : directory) :
    outcome store_error Store :=
  let! (segments, active) := newSegmentGroup b iterate whole dir in
  match active with
  | Some (id, cl, mt) => Ok (MkStore (with_state b mt None segments.*2) segments.*1 (id, Some cl) None)
  | None => Ok (MkStore (with_state b (createNewActiveMemtable b) None segments.*2) segments.*1 (now, None) None)
  end.

(** [NewBucket] with the options of [b] *)
Definition NewBucket (b : Bucket F) (iterate : node_cache -> list segmentReplaceNode) (whole : list Z -> bool) (now : Z) (dir : directory) :
    outcome store_error Store :=
  init_bucket (with_state b (createNewActiveMemtable b) None []) iterate whole now dir.
End store.
Arguments Store : clear implicits.

(** * What a crash leaves *)

(** ** Files in order *)

Definition lt_id {A} (x y : Z * A) : Prop := x.1 < y.1.

#[export] Instance le_id_trans {A} : Transitive (@le_id A).
Proof. intros x y z. unfold le_id. lia. Qed.
#[export] Instance le_id_total {A} : Total (@le_id A).
Proof. intros x y. unfold le_id. lia. Qed.

Lemma sorted_NoDup (l : list Z) : StronglySorted Z.lt l -> NoDup l.
Proof. induction 1 as [|x l _ IH Hx]; constructor; [|done]. intros Hin. rewrite Forall_forall in Hx. specialize (Hx x Hin). lia. Qed.

Lemma sorted_ids_NoDup {A} (l : list (Z * A)) : StronglySorted lt_id l -> NoDup l.*1.
Proof. intros Hs. apply sorted_NoDup. by apply (StronglySorted_fmap fst lt_id). Qed.

Lemma merge_sort_sorted {A} (l l' : list (Z * A)) : StronglySorted lt_id l -> l' ≡ₚ l -> merge_sort le_id l' = l.
Proof.
  intros Hs Hp. apply (StronglySorted_unique_strong le_id).
  - intros x y Hx Hy. rewrite merge_sort_Permutation, Hp in Hx. unfold le_id. intros H1 H2. assert (x.1 = y.1) as E by lia.
    apply (sorted_ids_NoDup l) in Hs. destruct x as [i a], y as [j b]. cbn in E. subst j.
    apply (elem_of_list_to_map_1 (M := gmap Z)) in Hx, Hy; [|done..]. congruence.
  - apply (StronglySorted_merge_sort le_id).
  - rewrite <- (list_fmap_id l). eapply (StronglySorted_fmap id); [|exact Hs]. intros x y. unfold lt_id, le_id. cbn [id]. lia.
  - by rewrite merge_sort_Permutation, Hp.
Qed.

Lemma sorted_files_list {A} (l : list (Z * A)) : StronglySorted lt_id l -> sorted_files (list_to_map l) = l.
Proof. intros Hs. apply merge_sort_sorted; [done|]. by apply map_to_list_to_map, sorted_ids_NoDup. Qed.

(** ** The segments of a directory *)

Lemma sorted_pairs {A} (l : list (Z * A)) : StronglySorted Z.lt l.*1 -> StronglySorted lt_id l.
Proof.
  induction l as [|x l IH]; [constructor|]. rewrite fmap_cons. intros [Hs Hx]%StronglySorted_inv. constructor; [auto|].
  exact (proj1 (Forall_fmap fst _ l) Hx).
Qed.

Lemma newSegment_contents {F} `{!Bloom F} cfg file (s : segment F) : newSegment cfg file = Ok s -> s_contents s = file.
Proof.
  unfold newSegment, recovered. intros H.
  repeat match type of H with
  | context [obind ?x _] => destruct x eqn:?; cbn [obind] in H; try done
  | context [if ?x then _ else _] => destruct x eqn:?; try done
  | context [let (_, _) := ?x in _] => destruct x eqn:?
  end.
  by injection H as <-.
Qed.

Section recovery.
Context {F : Type} `{!Bloom F}.

(** Segments that hold the map [md] and can be opened again *)
Record disk_ok (b : Bucket F) (disk : list (Z * segment F)) (flats : list (list bs_data)) (md : gmap (list Z) (list Z)) : Prop := {
  dk_segs : segs_ok (b_secondaryIndices b) disk.*2 flats;
  dk_opens : Forall2 (fun s flat => opens b (s_contents s) flat) disk.*2 flats;
  dk_sorted : StronglySorted Z.lt disk.*1;
  dk_map : forall k, md !! k = live (newest (map (lookup_key key k) (rev flats))) }.

Lemma disk_ok_snoc b disk flats md id whole file (s : segment F) flat ns :
  disk_ok b disk flats md -> StronglySorted Z.lt (disk.*1 ++ [id]) -> newSegment (b_segmentConfig b whole) file = Ok s ->
  opens b file flat -> Forall (entry_fits (b_secondaryIndices b)) flat -> (forall k, shadow (lookup_key key k flat) = log_entry ns k) ->
  disk_ok b (disk ++ [(id, s)]) (flats ++ [flat]) (apply_nodes md ns).
Proof.
  intros [H1 H2 H3 H4] Hid Hs Hop Hfits Hsh. pose proof (newSegment_contents _ _ _ Hs) as Hcont.
  destruct (Hop whole) as (s' & Hs' & Hh). rewrite Hs in Hs'. injection Hs' as <-.
  split; rewrite ?fmap_app; [apply Forall2_app; [done|]; constructor; [done|constructor]| |done|].
  - apply Forall2_app; [done|]. constructor; [|constructor]. cbn [snd]. by rewrite Hcont.
  - intros k. rewrite apply_nodes_lookup, rev_app_distr. cbn [rev app map]. rewrite live_cons, Hsh, H4. done.
Qed.

Lemma newCommitLogger_ok file : (4 <= length file)%nat -> exists cl, newCommitLogger file (blen file) = Ok cl.
Proof. intros Hl. unfold newCommitLogger, blen. rewrite (proj2 (Z.eqb_neq _ _)), (proj2 (Z.ltb_ge _ _)) by lia. by eexists. Qed.

(** A log with its number and the place where it was cut *)
Definition cut_log : Type := Z * (nat * list segmentReplaceNode).
Definition cut_file (w : cut_log) : Z * list Z := (w.1, take w.2.1 (log_from 0 w.2.2)).

(** What the recovery of the logs makes of the map on disk and of the active memtable *)
Fixpoint after_wals (ws : list (nat * list segmentReplaceNode)) (md : gmap (list Z) (list Z)) : gmap (list Z) (list Z) * list segmentReplaceNode :=
  match ws with
  | [] => (md, [])
  | (k, ns) :: ws =>
      if match ws with [] => true | _ => false end && clean_cut k ns then (md, surviving k ns)
      else after_wals ws (apply_nodes md (surviving k ns))
  end.

(** A log that can be recovered: the file has no size of one to three bytes. *)
Record cut_ok (b : Bucket F) (w : cut_log) : Prop := {
  co_nodes : Forall (recoverable (b_secondaryIndices b) (b_skipSecondaryKeyCheck b)) w.2.2;
  co_small : blen (log_from 0 w.2.2) < 2 ^ 34;
  co_length : (4 <= length (cut_file w).2)%nat }.

(** A recovered memtable that is not kept is flushed. *)
Lemma flush_recovered b m st id ns disk flats md whole {A} (K : list (Z * segment F) -> outcome store_error A) :
  0 <= b_secondaryIndices b < 2 ^ 16 ->
  mt_ok (b_secondaryIndices b) (b_enableChecksumValidation b) m st -> memtable_small m ->
  (forall k, shadow (st !! k) = log_entry ns k) -> (mt_size m = 0 <-> ns = []) ->
  disk_ok b disk flats md -> StronglySorted Z.lt (disk.*1 ++ [id]) ->
  exists disk' flats',
    (let! file := memtable_flush m in
     match file with
     | None => K disk
     | Some file => let! s := newSegment (b_segmentConfig b (whole file)) file in K (disk ++ [(id, s)])
     end) = K disk' /\ disk_ok b disk' flats' (apply_nodes md ns) /\ (disk'.*1 = disk.*1 \/ disk'.*1 = disk.*1 ++ [id]).
Proof.
  intros Hc Hm Hsm Hst Hz Hd Hs. destruct ns as [|n ns].
  - exists disk, flats. unfold memtable_flush. rewrite (proj2 Hz eq_refl). cbn [Z.eqb obind]. split_and!; [done|done|by left].
  - destruct (flush_memtable b m st Hm Hc Hsm) as (file & flat & Hf & Hop & Hfits & Hlk); [by rewrite Hz|]. rewrite Hf. cbn [obind].
    destruct (Hop (whole file)) as (s & Hopen & _). rewrite Hopen. cbn [obind]. exists (disk ++ [(id, s)]), (flats ++ [flat]).
    split_and!; [done| |right; by rewrite fmap_app]. eapply disk_ok_snoc; [done|done|exact Hopen|done|done|]. intros k. by rewrite Hlk.
Qed.

(** The recovered active memtable and its log *)
Definition active_ok (b : Bucket F) (active : option (Z * commitLogger * Memtable)) (disk : list (Z * segment F)) (ids : list Z)
    (ns : list segmentReplaceNode) : Prop :=
  match active with
  | None => ns = []
  | Some (id, cl, m) => ns <> [] /\ id ∈ ids /\ StronglySorted Z.lt (disk.*1 ++ [id]) /\ log_holds cl ns /\
      exists st, mt_ok (b_secondaryIndices b) (b_enableChecksumValidation b) m st /\ forall k, shadow (st !! k) = log_entry ns k
  end.

Lemma recover_wals_spec b iterate whole ws : forall disk flats md,
  0 <= b_secondaryIndices b < 2 ^ 16 -> visits iterate -> disk_ok b disk flats md -> Forall (cut_ok b) ws ->
  StronglySorted Z.lt (disk.*1 ++ (cut_file <$> ws).*1) ->
  exists disk' flats' active, recover_wals b iterate whole (cut_file <$> ws) disk = Ok (disk', active) /\
    disk_ok b disk' flats' (after_wals ws.*2 md).1 /\ (forall id, id ∈ disk'.*1 -> id ∈ disk.*1 ++ (cut_file <$> ws).*1) /\
    active_ok b active disk' (cut_file <$> ws).*1 (after_wals ws.*2 md).2.
Proof.
  induction ws as [|[id [k ns]] ws IH]; intros disk flats md Hc Hit Hd Hws Hs.
  { exists disk, flats, None. cbn. rewrite app_nil_r. done. }
  apply Forall_cons in Hws as [[Hns Hsmall Hlen] Hws]. rewrite !fmap_cons.
  change (cut_file (id, (k, ns))) with (id, take k (log_from 0 ns)) in *.
  change (StronglySorted Z.lt (disk.*1 ++ id :: (cut_file <$> ws).*1)) in Hs. cbn [fst snd] in Hs, Hns, Hsmall, Hlen |- *.
  cbn [recover_wals after_wals]. destruct (newCommitLogger_ok _ Hlen) as (cl & Hcl). rewrite Hcl. cbn [obind].
  destruct (doReplace_cut _ (b_enableChecksumValidation b) _ iterate ns k Hc Hns Hit Hsmall) as (m & err & st & Hm & Herr & Hok & Hsm & Hst & Hz).
  unfold createNewActiveMemtable. rewrite Hm. cbn [obind].
  assert (Hid : StronglySorted Z.lt (disk.*1 ++ [id])).
  { rewrite cons_middle, app_assoc in Hs. by apply StronglySorted_app_1_l in Hs. }
  assert (Hkeep : match (cut_file <$> ws) with [] => true | _ => false end && match err with None => true | Some _ => false end
    = match ws.*2 with [] => true | _ => false end && clean_cut k ns).
  { f_equal; [by destruct ws|]. destruct err, (clean_cut k ns); try done; [by specialize (proj2 Herr eq_refl)|by specialize (proj1 Herr eq_refl)]. }
  rewrite Hkeep. destruct (match ws.*2 with [] => true | _ => false end && clean_cut k ns) eqn:E.
  - apply andb_true_iff in E as [Ews Ecl]. destruct ws; [|done]. exists disk, flats, (Some (id, cl, m)).
    split_and!; [done..|intros i Hi; apply elem_of_app; by left|].
    apply bool_decide_eq_true in Ecl. rewrite Ecl in Hcl, Hlen.
    assert (Hne : surviving k ns <> []) by (intros En; rewrite En in Hlen; cbn in Hlen; lia).
    cbn [active_ok after_wals fst snd]. split_and!; [done|left|done| |by exists st].
    destruct (newCommitLogger_resumes (b_secondaryIndices b) (surviving k ns)) as (cl' & Hcl' & Hh); [|done|].
    + apply Forall_take. eapply Forall_impl; [exact Hns|]. by intros n [].
    + rewrite Hcl in Hcl'. by injection Hcl' as <-.
  - destruct (flush_recovered b m st id (surviving k ns) disk flats md whole (recover_wals b iterate whole (cut_file <$> ws)) Hc Hok Hsm Hst Hz Hd Hid)
      as (disk1 & flats1 & -> & Hd1 & Hids).
    destruct (IH disk1 flats1 _ Hc Hit Hd1 Hws) as (disk' & flats' & active & H1 & H2 & H3 & H4).
    { destruct Hids as [->| ->]; [|by rewrite <- app_assoc]. apply StronglySorted_app in Hs as (Hs1 & Hs2 & Hs3).
      apply StronglySorted_app. split_and!; [|done|by apply StronglySorted_inv in Hs3 as [? _]]. intros x y Hx Hy. apply Hs1; [done|by right]. }
    exists disk', flats', active. split_and!; [done..| |].
    + intros i Hi%H3. rewrite elem_of_app in Hi |- *. rewrite elem_of_cons. destruct Hids as [E1|E1]; rewrite E1 in Hi; [tauto|].
      rewrite elem_of_app, list_elem_of_singleton in Hi. tauto.
    + destruct active as [[[i cl1] m1]|]; [|done]. cbn [active_ok] in *. destruct H4 as (Hn & Hi & ?). split; [done|]. split; [by right|done].
Qed.

(** ** Opening a directory *)

Definition files_of (disk : list (Z * segment F)) : list (Z * list Z) := (fun p => (p.1, s_contents p.2)) <$> disk.

Lemma open_segments_spec b whole wals extra disk flats :
  segs_ok (b_secondaryIndices b) disk.*2 flats -> Forall2 (fun s flat => opens b (s_contents s) flat) disk.*2 flats ->
  (forall id, id ∈ disk.*1 -> wals !! id = None) -> (forall id, id ∈ extra.*1 -> is_Some (wals !! id)) ->
  exists disk', open_segments b whole wals (files_of disk ++ extra) = Ok disk' /\ disk'.*1 = disk.*1 /\
    segs_ok (b_secondaryIndices b) disk'.*2 flats /\ Forall2 (fun s flat => opens b (s_contents s) flat) disk'.*2 flats.
Proof.
  intros Hs Ho Hw He. assert (Hx : open_segments b whole wals extra = Ok []).
  { clear Hs Ho. induction extra as [|[id f] extra IH]; [done|]. cbn [open_segments].
    destruct (He id) as [x ->]; [left|]. apply IH. intros i Hi. apply He. by right. }
  revert flats Hs Ho. induction disk as [|[id s] disk IH]; intros flats Hs Ho.
  { apply Forall2_nil_inv_l in Hs as ->. exists []. split_and!; [exact Hx|done|constructor..]. }
  rewrite fmap_cons in Hs, Ho. apply Forall2_cons_inv_l in Hs as (flat & flats' & [Hh Hf] & Hs & ->).
  apply Forall2_cons in Ho as [Ho1 Ho]. destruct (IH (fun i Hi => Hw i (list_elem_of_further _ _ _ Hi)) flats' Hs Ho) as (disk' & E & Hids & Hs' & Ho').
  change (files_of ((id, s) :: disk) ++ extra) with ((id, s_contents s) :: (files_of disk ++ extra)). cbn [open_segments]. cbn [snd] in Ho1, Hh.
  rewrite (Hw id) by left. destruct (Ho1 (whole (s_contents s))) as (s' & Hopen & Hh'). rewrite Hopen. cbn [obind]. rewrite E. cbn [obind].
  exists ((id, s') :: disk'). rewrite !fmap_cons, Hids. split_and!; [done..| |].
  - by constructor.
  - constructor; [|done]. cbn [snd]. by rewrite (newSegment_contents _ _ _ Hopen).
Qed.

(** ** The invariant of a store *)

(** The map on disk and the writes in the logs of the two memtables *)
Record history : Type := History {
  h_disk : gmap (list Z) (list Z);
  h_flushing : option (list segmentReplaceNode);
  h_active : list segmentReplaceNode }.

Definition h_map (h : history) : gmap (list Z) (list Z) :=
  apply_nodes (apply_nodes (h_disk h) (default [] (h_flushing h))) (h_active h).

Definition flushing_ids (s : Store F) : list Z := match so_flushing s with Some (id, _) => [id] | None => [] end.

Record store_inv (s : Store F) (h : history) : Prop := {
  si_bucket : exists sa sf flats,
    bucket_inv (so_bucket s) sa sf flats /\ disk_ok (so_bucket s) (zip (so_ids s) (b_disk (so_bucket s))) flats (h_disk h) /\
    (forall k, shadow (sa !! k) = log_entry (h_active h) k) /\
    match sf, h_flushing h with
    | Some st, Some ns => forall k, shadow (st !! k) = log_entry ns k
    | None, None => True
    | _, _ => False
    end;
  si_length : length (so_ids s) = length (b_disk (so_bucket s));
  si_active : lazy_holds (so_active s).2 (h_active h);
  si_active_ok : Forall (recoverable (b_secondaryIndices (so_bucket s)) (b_skipSecondaryKeyCheck (so_bucket s))) (h_active h);
  si_fresh : h_active h = [] -> mt_size (b_active (so_bucket s)) = 0;
  si_flushing :
    match so_flushing s, h_flushing h with
    | Some (_, cl), Some ns => lazy_holds cl ns /\ ns <> [] /\
        Forall (recoverable (b_secondaryIndices (so_bucket s)) (b_skipSecondaryKeyCheck (so_bucket s))) ns
    | None, None => True
    | _, _ => False
    end;
  si_ids : StronglySorted Z.lt (so_ids s ++ flushing_ids s ++ [(so_active s).1]) }.

Lemma store_inv_map s h : store_inv s h -> holds_map (so_bucket s) (h_map h).
Proof.
  intros [(sa & sf & flats & Hi & Hd & Hsa & Hsf) _ _ _ _ _ _]. exists sa, sf, flats. split; [done|]. intros k. unfold h_map, layers.
  rewrite apply_nodes_lookup. cbn [app]. rewrite live_cons, Hsa. destruct (log_entry (h_active h) k); [done|].
  rewrite apply_nodes_lookup, (dk_map _ _ _ _ Hd). destruct sf as [st|], (h_flushing h) as [ns|]; try done. cbn [default app id].
  by rewrite live_cons, Hsf.
Qed.

Lemma zip_fst_snd {A B} (l : list (A * B)) : zip l.*1 l.*2 = l.
Proof. induction l as [|[a b] l IH]; [done|]. cbn. f_equal. exact IH. Qed.

Lemma disk_ok_with b active flushing disk segs flats md : disk_ok b segs flats md -> disk_ok (with_state b active flushing disk) segs flats md.
Proof. intros [? ? ? ?]. by split. Qed.

Lemma cut_files_ids (ws : list cut_log) : (cut_file <$> ws).*1 = ws.*1.
Proof. rewrite <- list_fmap_compose. by apply list_fmap_ext. Qed.

Lemma cut_files_lookup (ws : list cut_log) id : is_Some ((list_to_map (cut_file <$> ws) : gmap Z (list Z)) !! id) <-> id ∈ ws.*1.
Proof. by rewrite <- elem_of_dom, dom_list_to_map, elem_of_list_to_set, cut_files_ids. Qed.

Lemma files_of_ids disk : (files_of disk).*1 = disk.*1.
Proof. unfold files_of. rewrite <- list_fmap_compose. by apply list_fmap_ext. Qed.

Lemma filter_cut_files (ws : list cut_log) : filter (fun f => f.2 <> []) (cut_file <$> ws) = cut_file <$> filter (fun w => (cut_file w).2 <> []) ws.
Proof. induction ws as [|w ws IH]; [done|]. rewrite fmap_cons, !filter_cons, IH. by destruct (decide _). Qed.

Lemma filter_ids_sorted (ws : list cut_log) P `{!forall w, Decision (P w)} l r :
  StronglySorted Z.lt (l ++ ws.*1 ++ r) -> StronglySorted Z.lt (l ++ (filter P ws).*1 ++ r).
Proof.
  intros Hs. apply StronglySorted_app in Hs as (H1 & H2 & H3). apply StronglySorted_app in H3 as (H4 & H5 & H6).
  assert (Hin : forall i, i ∈ (filter P ws).*1 -> i ∈ ws.*1).
  { intros i (w & -> & [_ Hw]%list_elem_of_filter)%list_elem_of_fmap. by apply list_elem_of_fmap_2. }
  apply StronglySorted_app. split_and!; [|done|apply StronglySorted_app; split_and!; [|..|done]].
  - intros x y Hx [Hy|Hy]%elem_of_app; apply H1; try done; apply elem_of_app; [left|right]; auto.
  - intros x y Hx Hy. apply H4; auto.
  - clear -H5. induction ws as [|w ws IH]; [constructor|]. rewrite fmap_cons in H5. apply StronglySorted_inv in H5 as [Hs Hw].
    rewrite filter_cons. destruct (decide _); [|auto]. rewrite fmap_cons. constructor; [auto|]. rewrite Forall_forall in Hw |- *.
    intros i (x & -> & [_ Hx]%list_elem_of_filter)%list_elem_of_fmap. apply Hw. by apply list_elem_of_fmap_2.
Qed.

Lemma after_wals_nodes P ws : forall md, Forall (fun w => Forall P w.2) ws -> Forall P (after_wals ws md).2.
Proof.
  induction ws as [|[k ns] ws IH]; intros md Hws; [constructor|]. apply Forall_cons in Hws as [Hns Hws]. cbn [after_wals].
  destruct (_ && _); [by apply Forall_take|by apply IH].
Qed.

(** [NewBucket] on segments that can be opened and logs that were cut *)
Lemma init_bucket_spec b iterate whole now disk flats md extra (ws : list cut_log) :
  let ws' := filter (fun w => (cut_file w).2 <> []) ws in
  0 <= b_secondaryIndices b < 2 ^ 16 -> visits iterate -> disk_ok b disk flats md -> Forall (cut_ok b) ws' ->
  StronglySorted Z.lt (disk.*1 ++ ws.*1 ++ [now]) -> StronglySorted Z.lt (disk.*1 ++ extra.*1) -> (forall id, id ∈ extra.*1 -> id ∈ ws.*1) ->
  exists s, init_bucket b iterate whole now (Directory (list_to_map (files_of disk ++ extra)) [] (list_to_map (cut_file <$> ws))) = Ok s /\
    store_inv s (History (after_wals ws'.*2 md).1 None (after_wals ws'.*2 md).2).
Proof.
  intros ws' Hc Hit Hd Hws Hs Hx Hex.
  unfold init_bucket, newSegmentGroup. cbn [d_dbs d_tmps d_wals settle_tmps obind].
  rewrite sorted_files_list by (apply sorted_pairs; by rewrite fmap_app, files_of_ids).
  destruct (open_segments_spec b whole (list_to_map (cut_file <$> ws)) extra disk flats (dk_segs _ _ _ _ Hd) (dk_opens _ _ _ _ Hd))
    as (disk1 & -> & Hids & Hsegs & Hopens).
  { intros i Hi. apply eq_None_not_Some. rewrite cut_files_lookup. intros Hj. apply StronglySorted_app in Hs as (Hs & _).
    specialize (Hs i i Hi ltac:(apply elem_of_app; by left)). lia. }
  { intros i Hi. by apply cut_files_lookup, Hex. }
  assert (Hd1 : disk_ok b disk1 flats md) by (split; [done..|rewrite Hids; apply Hd|apply Hd]). cbn [obind].
  assert (Hs' : StronglySorted Z.lt (disk1.*1 ++ ws'.*1 ++ [now])) by (rewrite Hids; by apply filter_ids_sorted).
  destruct (recover_wals_spec b iterate whole ws' disk1 flats md Hc Hit Hd1 Hws) as (disk2 & flats2 & active & Hrec & Hd2 & Hin & Hact).
  { rewrite cut_files_ids. rewrite app_assoc in Hs'. by apply StronglySorted_app_1_l in Hs'. }
  assert (Hmay : mayRecoverFromCommitLogs b iterate whole (list_to_map (cut_file <$> ws)) disk1 = Ok (disk2, active)).
  { unfold mayRecoverFromCommitLogs. rewrite sorted_files_list, filter_cut_files; fold ws'.
    2:{ apply sorted_pairs. rewrite cut_files_ids. apply StronglySorted_app_1_r in Hs. by apply StronglySorted_app_1_l in Hs. }
    destruct ws' as [|w ws'']; [done|]. rewrite fmap_cons in Hrec |- *. rewrite Hrec. cbn [obind].
    by rewrite (merge_sort_sorted disk2) by (try apply sorted_pairs, Hd2; done). }
  rewrite Hmay. cbn [obind]. rewrite cut_files_ids in Hin, Hact.
  assert (Hnodes : Forall (recoverable (b_secondaryIndices b) (b_skipSecondaryKeyCheck b)) (after_wals ws'.*2 md).2).
  { apply after_wals_nodes, Forall_fmap. eapply Forall_impl; [exact Hws|]. by intros w []. }
  destruct active as [[[i cl] m]|].
  - destruct Hact as (Hne & Hi & Hsi & Hcl & st & Hm & Hst). eexists. split; [done|].
    split; cbn [so_bucket so_ids so_active so_flushing h_disk h_flushing h_active with_state b_disk b_active fst snd flushing_ids app]; try done.
    + exists st, None, flats2. split_and!; [split; by try apply Hd2|rewrite zip_fst_snd; by apply disk_ok_with|done..].
    + by rewrite !length_fmap.
  - cbn [active_ok] in Hact. rewrite Hact in Hnodes |- *. eexists. split; [done|].
    split; cbn [so_bucket so_ids so_active so_flushing h_disk h_flushing h_active with_state b_disk b_active fst snd flushing_ids app]; try done.
    + exists ∅, None, flats2. split_and!; [split; try done; [apply new_mt_ok|apply Hd2]|rewrite zip_fst_snd; by apply disk_ok_with| |done].
      intros k. by rewrite lookup_empty.
    + by rewrite !length_fmap.
    + apply StronglySorted_app. split_and!; [|apply Hd2|repeat constructor]. intros x y Hx1%Hin ->%list_elem_of_singleton.
      rewrite app_assoc in Hs'. apply StronglySorted_app in Hs' as (Hs' & _). apply Hs'; [done|left].
Qed.

(** ** Steps *)

(** The node of a write *)
Definition op_node (b : Bucket F) (o : bucket_op) : option segmentReplaceNode :=
  let node t k v opts :=
    match createSecondaryKeys (b_active b) opts with Ok sks => Some (ReplaceNode t v k (b_secondaryIndices b) sks 0) | _ => None end in
  match o with
  | OpPut k v opts => node false k v opts
  | OpDelete k opts => node true k [] opts
  | OpDeleteWith k unixMilli opts => node true k (tombstonedValue unixMilli) opts
  | _ => None
  end.

(** What the log can hold: a record below 4 GiB, and secondary keys that are not empty
    unless the bucket allows missing ones *)
Definition log_fits (b : Bucket F) (n : segmentReplaceNode) : Prop :=
  blen (replace_layout n) < 2 ^ 32 /\ (b_skipSecondaryKeyCheck b = true \/ Forall (fun k => k <> []) (sn_secondaryKeys n)).

Lemma op_written b o n b' sa sf flats :
  bucket_inv b sa sf flats -> op_fits b o -> op_node b o = Some n -> run_bucket_op b o = Ok b' ->
  exists active, b' = with_state b active (b_flushing b) (b_disk b) /\ mt_commitlog active = mt_commitlog (b_active b) ++ [n] /\
    bucket_inv b' (<[sn_primaryKey n := BsData (sn_primaryKey n) (sn_value n) (sn_secondaryKeys n) (sn_tombstone n)]> sa) sf flats /\
    sn_secondaryIndexCount n = b_secondaryIndices b /\ Z.of_nat (length (sn_secondaryKeys n)) = b_secondaryIndices b /\ sn_offset n = 0.
Proof.
  intros Hi Hfit Hn Hrun. pose proof (run_write b o b' Hrun) as Hw.
  assert (H : exists t k v opts active, b' = with_state b active (b_flushing b) (b_disk b) /\ opts_ok opts /\
    op_node b o = (match createSecondaryKeys (b_active b) opts with Ok sks => Some (ReplaceNode t v k (b_secondaryIndices b) sks 0) | _ => None end) /\
    written b sa sf flats t k v opts active).
  { destruct o as [k v opts|k opts|k ms opts| | |]; try done; destruct Hw as (active & E & ->); cbn [op_fits] in Hfit;
      eexists _, k, _, opts, active; (split; [done|]; split; [apply Hfit|]; split; [done|]).
    - by apply put_inv.
    - apply tombstone_inv; [done..|by left|done].
    - apply tombstone_inv; [done|by apply tombstoned_ok|right; by eexists|done]. }
  destruct H as (t & k & v & opts & active & -> & Hopts & Hnode & sks & Hs & Hl & Hi'). rewrite Hs, Hn in Hnode. injection Hnode as ->.
  exists active. split_and!; try done. cbn [sn_secondaryKeys]. pose proof (mo_count _ _ _ _ (bi_active _ _ _ _ Hi)) as Hc.
  destruct (createSecondaryKeys_ok (b_active b) opts sks Hopts) as [_ Hlen]; [|done|lia]. rewrite Hc. apply Hi.
Qed.

Lemma store_write_inv s h o n s' :
  store_inv s h -> op_fits (so_bucket s) o -> op_node (so_bucket s) o = Some n -> log_fits (so_bucket s) n -> store_write s o = Ok s' ->
  store_inv s' (History (h_disk h) (h_flushing h) (h_active h ++ [n])).
Proof.
  intros [(sa & sf & flats & Hi & Hd & Hsa & Hsf) Hlen Hcl Hok Hfresh Hfl Hids] Hfit Hn [Hsize Hkeys] Hw.
  unfold store_write in Hw. destruct (run_bucket_op (so_bucket s) o) as [b'| | |] eqn:Hrun; [|done..]. cbn [obind] in Hw.
  destruct (op_written _ _ _ _ _ _ _ Hi Hfit Hn Hrun) as (active & -> & Hlog & Hi' & Hcount & Hlk & _).
  cbn [with_state b_active] in Hw. rewrite Hlog, drop_app_length in Hw.
  pose proof (mo_entries _ _ _ _ (bi_active _ _ _ _ Hi') (sn_primaryKey n) _ ltac:(apply lookup_insert_eq)) as (Hdata & Hne & _).
  cbn [with_state b_secondaryIndices key] in Hdata, Hne.
  assert (Hnode : node_ok n) by (destruct Hdata as [? ? ? ? ? ?]; split; try done; rewrite Hcount; done).
  assert (Hrec : recoverable (b_secondaryIndices (so_bucket s)) (b_skipSecondaryKeyCheck (so_bucket s)) n) by (split; split; done).
  destruct (lazy_put_spec (b_secondaryIndices (so_bucket s)) (so_active s).2 (h_active h) n Hcl) as (cl' & Hput & Hcl'); [apply Hrec|].
  cbn [log_all] in Hw. rewrite Hput in Hw. cbn [obind] in Hw. injection Hw as <-.
  split; cbn [so_bucket so_ids so_active so_flushing h_disk h_flushing h_active with_state b_secondaryIndices b_skipSecondaryKeyCheck fst snd]; try done.
  - exists (<[sn_primaryKey n := BsData (sn_primaryKey n) (sn_value n) (sn_secondaryKeys n) (sn_tombstone n)]> sa), sf, flats.
    split_and!; [done|by apply disk_ok_with| |done]. intros k. rewrite log_entry_snoc. case_bool_decide as E.
    + subst k. by rewrite lookup_insert_eq.
    + by rewrite lookup_insert_ne.
  - apply Forall_app. split; [done|]. by constructor.
  - intros E. by apply app_eq_nil in E as [_ ?].
Qed.

Lemma store_switch_inv s h now sw s' :
  store_inv s h -> (so_active s).1 < now -> store_switch s now = Ok (sw, s') ->
  store_inv s' (if sw : bool then History (h_disk h) (Some (h_active h)) [] else h).
Proof.
  intros Hinv Hnow Hsw. pose proof Hinv as [(sa & sf & flats & Hi & Hd & Hsa & Hsf) Hlen Hcl Hok Hfresh Hfl Hids].
  unfold store_switch, atomicallySwitchMemtable in Hsw. destruct (b_flushing (so_bucket s)) as [fl|] eqn:Ef; [done|].
  destruct (Z.eqb_spec (mt_size (b_active (so_bucket s))) 0) as [Hz|Hz]; cbn [obind] in Hsw; injection Hsw as <- <-; [by destruct s|].
  destruct sf as [st|]; [by destruct Hi as [_ _ Hf _]; rewrite Ef in Hf|].
  destruct (so_flushing s) as [[idf clf]|] eqn:Eso; [by destruct (h_flushing h)|].
  split; cbn [so_bucket so_ids so_active so_flushing h_disk h_flushing h_active with_state b_secondaryIndices b_skipSecondaryKeyCheck fst snd]; try done.
  - exists ∅, (Some sa), flats. split_and!; [by eapply switch_inv|by apply disk_ok_with| |done]. intros k. by rewrite lookup_empty.
  - destruct (so_active s) as [ida cla]. cbn [snd] in Hcl. split_and!; try done. intros E. by apply Hz, Hfresh.
  - unfold flushing_ids in *. rewrite Eso in Hids. cbn [so_flushing app] in *. destruct (so_active s) as [ida cla]. cbn [fst] in *.
    apply StronglySorted_app in Hids as (H1 & H2 & H3). apply StronglySorted_app. split_and!; [|done|].
    + intros x y Hx Hy. specialize (H1 x ida Hx ltac:(left)). apply elem_of_app in Hy as [->%list_elem_of_singleton| ->%list_elem_of_singleton]; lia.
    + repeat constructor. lia.
Qed.
Lemma zip_snoc {A B} (l1 : list A) (l2 : list B) a b : length l1 = length l2 -> zip (l1 ++ [a]) (l2 ++ [b]) = zip l1 l2 ++ [(a, b)].
Proof. intros Hl. by rewrite zip_with_app. Qed.

Lemma store_flush_inv s h whole s' :
  store_inv s h -> op_fits (so_bucket s) (OpFlush whole) -> store_flush s whole = Ok s' ->
  store_inv s' (History (apply_nodes (h_disk h) (default [] (h_flushing h))) None (h_active h)).
Proof.
  intros [(sa & sf & flats & Hi & Hd & Hsa & Hsf) Hlen Hcl Hok Hfresh Hfl Hids] Hfit Hw.
  unfold store_flush in Hw. destruct (b_flushing (so_bucket s)) as [fl|] eqn:Ef; [|unfold flushFlushingLocked in Hw; by rewrite Ef in Hw].
  destruct sf as [st|]; [|by destruct Hi as [_ _ Hf _]; rewrite Ef in Hf].
  destruct (flush_inv _ _ _ _ whole fl Hi Ef (Hfit fl Ef)) as (file & flat & seg & _ & Hopen & Hop & Hfl' & Hi' & Hlk).
  rewrite Hfl' in Hw. cbn [obind] in Hw. destruct (h_flushing h) as [ns|]; [|done]. destruct (so_flushing s) as [[idf clf]|] eqn:Eso; [|done].
  injection Hw as <-. cbn [default id].
  split; cbn [so_bucket so_ids so_active so_flushing h_disk h_flushing h_active with_state b_secondaryIndices b_skipSecondaryKeyCheck b_disk fst snd]; try done.
  - exists sa, None, (flats ++ [flat]). split_and!; [done| |done..]. rewrite zip_snoc by done. apply disk_ok_with.
    eapply disk_ok_snoc; [done| |exact Hopen|done| |].
    + assert (E : (zip (so_ids s) (b_disk (so_bucket s))).*1 = so_ids s) by (apply fst_zip; lia). rewrite E.
      unfold flushing_ids in Hids. rewrite Eso, app_assoc in Hids. by apply StronglySorted_app_1_l in Hids.
    + destruct Hi' as [_ _ _ Hdk]. cbn [with_state b_disk b_secondaryIndices] in Hdk.
      apply Forall2_app_inv in Hdk as [_ Hdk]; [|apply (Forall2_length _ _ _ (bi_disk _ _ _ _ Hi))].
      apply Forall2_cons in Hdk as [[_ ?] _]. done.
    + intros k. by rewrite Hlk.
  - rewrite !length_app. cbn. lia.
  - unfold flushing_ids in *. rewrite Eso in Hids. cbn [so_flushing app]. by rewrite <- app_assoc.
Qed.

(** The pair of a compaction in the list of segments and of their numbers *)
Lemma split_pair (ids : list Z) (d1 d2 : list (segment F)) l r :
  length ids = length (d1 ++ l :: r :: d2) ->
  exists i1 idl idr i2, ids = i1 ++ idl :: idr :: i2 /\ length i1 = length d1 /\ length i2 = length d2.
Proof.
  intros Hl. rewrite length_app in Hl. cbn [length] in Hl. pose proof (take_drop (length d1) ids) as Ht.
  assert (length (take (length d1) ids) = length d1) by (rewrite length_take; lia).
  assert (Hd : length (drop (length d1) ids) = S (S (length d2))) by (rewrite length_drop; lia).
  destruct (drop (length d1) ids) as [|idl [|idr i2]]; [done..|]. exists (take (length d1) ids), idl, idr, i2. split_and!; [done..|]. cbn in Hd. lia.
Qed.

(** A compaction in the lists of segments, of their numbers and of their entries *)
Record compacted (s s' : Store F) (flats : list (list bs_data)) (left : nat) (d1 d2 : list (segment F)) (l r seg : segment F)
    (i1 i2 : list Z) (idl idr : Z) (f1 f2 : list (list bs_data)) (x y flat : list bs_data) : Prop := {
  cp_disk : b_disk (so_bucket s) = d1 ++ l :: r :: d2;
  cp_ids : so_ids s = i1 ++ idl :: idr :: i2;
  cp_flats : flats = f1 ++ x :: y :: f2;
  cp_new : s' = MkStore (with_state (so_bucket s) (b_active (so_bucket s)) (b_flushing (so_bucket s)) (d1 ++ seg :: d2))
                  (i1 ++ idr :: i2) (so_active s) (so_flushing s);
  cp_d1 : length d1 = left;
  cp_i1 : length i1 = left;
  cp_f1 : length f1 = left;
  cp_i2 : length i2 = length d2;
  cp_opens : opens (so_bucket s) (s_contents seg) flat;
  cp_map : forall k, live (newest (map (lookup_key key k) (rev (f1 ++ flat :: f2)))) = live (newest (map (lookup_key key k) (rev flats))) }.

Lemma store_compact_spec s fuel left level whole s' sa sf flats :
  bucket_inv (so_bucket s) sa sf flats -> length (so_ids s) = length (b_disk (so_bucket s)) ->
  op_fits (so_bucket s) (OpCompact fuel left level whole) -> store_compact s fuel left level whole = Ok s' ->
  exists d1 d2 l r seg i1 i2 idl idr f1 f2 x y flat, compacted s s' flats left d1 d2 l r seg i1 i2 idl idr f1 f2 x y flat /\
    bucket_inv (so_bucket s') sa sf (f1 ++ flat :: f2).
Proof.
  intros Hi Hlen [Hlev Hsz] Hw. unfold store_compact in Hw.
  destruct (b_disk (so_bucket s) !! left) as [l|] eqn:El; [|unfold compact_pair in Hw; by rewrite El in Hw].
  destruct (b_disk (so_bucket s) !! S left) as [r|] eqn:Er; [|unfold compact_pair in Hw; by rewrite El, Er in Hw].
  destruct (compact_inv _ sa sf flats fuel left level whole l r Hi El Er Hlev (Hsz l r eq_refl eq_refl))
    as (d1 & d2 & f1 & f2 & x & y & flat & file & seg & Hdisk & Hleft & Hflats & Hf1 & Hopen & _ & Hop & Hc & Hi' & Hlay).
  rewrite Hc in Hw. cbn [obind] in Hw. injection Hw as <-. rewrite Hdisk in Hlen.
  destruct (split_pair (so_ids s) d1 d2 l r Hlen) as (i1 & idl & idr & i2 & Hi12 & Hi1 & Hi2).
  exists d1, d2, l, r, seg, i1, i2, idl, idr, f1, f2, x, y, flat. split; [|done]. split; try done; [|lia|by rewrite (newSegment_contents _ _ _ Hopen)].
  rewrite Hi12. do 2 f_equal; [by rewrite <- Hleft, <- Hi1, take_app_length|].
  by rewrite cons_middle, app_assoc, drop_app_length' by (rewrite length_app; cbn; lia).
Qed.

Lemma store_compact_inv s h fuel left level whole s' :
  store_inv s h -> op_fits (so_bucket s) (OpCompact fuel left level whole) -> store_compact s fuel left level whole = Ok s' -> store_inv s' h.
Proof.
  intros [(sa & sf & flats & Hi & Hd & Hsa & Hsf) Hlen Hcl Hok Hfresh Hfl Hids] Hfit Hw.
  destruct (store_compact_spec _ _ _ _ _ _ _ _ _ Hi Hlen Hfit Hw)
    as (d1 & d2 & l & r & seg & i1 & i2 & idl & idr & f1 & f2 & x & y & flat & [Hdisk Hi12 -> -> Hd1 Hi1 Hf1 Hi2 Hop Hlay] & Hi').
  rewrite Hdisk in Hlen, Hd. rewrite Hi12 in Hlen, Hd, Hids.
  assert (Hsub : forall tail, StronglySorted Z.lt (i1 ++ (idl :: idr :: i2) ++ tail) -> StronglySorted Z.lt (i1 ++ (idr :: i2) ++ tail)).
  { intros tail (H1 & H2 & H3)%StronglySorted_app. apply StronglySorted_app. split_and!; [|done|by apply StronglySorted_inv in H3 as [? _]].
    intros u v Hu Hv. apply H1; [done|by right]. }
  split; cbn [so_bucket so_ids so_active so_flushing with_state b_secondaryIndices b_skipSecondaryKeyCheck b_disk fst snd]; try done.
  - exists sa, sf, (f1 ++ flat :: f2). split_and!; [done| |done..]. apply disk_ok_with. destruct Hd as [_ Ho Hs Hm].
    rewrite fst_zip in Hs by (rewrite !length_app; cbn; lia). rewrite snd_zip in Ho by (rewrite !length_app; cbn; lia).
    split; rewrite ?snd_zip, ?fst_zip by (rewrite !length_app; cbn; lia); [apply Hi'| |..].
    + apply Forall2_app_inv in Ho as [Ho1 Ho]; [|lia]. apply Forall2_cons in Ho as [_ [_ Ho2]%Forall2_cons]. apply Forall2_app; [done|]. by constructor.
    + specialize (Hsub []). rewrite !app_nil_r in Hsub. by apply Hsub.
    + intros k. by rewrite Hm, Hlay.
  - rewrite !length_app. cbn [length]. lia.
  - rewrite <- app_assoc. apply Hsub. by rewrite <- app_assoc in Hids.
Qed.

(** ** Crashes *)

(** How far the flush of a memtable had come: its log is cut at [kf], or, since the log
    is synced before the segment is written, the segment has its name and the log is complete. *)
Inductive flush_stage : Type := Logging (kf : nat) | Renamed (file : list Z).

Definition stage_cut (stage : flush_stage) (size : nat) : nat := match stage with Logging kf => kf | Renamed _ => size end.

Definition log_file (l : Z * option commitLogger) (k : nat -> nat) : list (Z * list Z) :=
  match l.2 with Some cl => [(l.1, take (k (length (cl_file cl))) (cl_file cl))] | None => [] end.

(** The directory after a crash: of a log only the bytes before the cut are left. *)
Definition crash (s : Store F) (stage : flush_stage) (ka : nat) : directory :=
  Directory
    (list_to_map (zip (so_ids s) (s_contents <$> b_disk (so_bucket s))
       ++ match so_flushing s, stage with Some (id, _), Renamed file => [(id, file)] | _, _ => [] end))
    []
    (list_to_map (match so_flushing s with Some l => log_file l (stage_cut stage) | None => [] end ++ log_file (so_active s) (fun _ => ka))).

Definition cut_logs (h : history) (stage : flush_stage) (ka : nat) : list (nat * list segmentReplaceNode) :=
  match h_flushing h with Some ns => [(stage_cut stage (length (log_from 0 ns)), ns)] | None => [] end ++ [(ka, h_active h)].

Definition nonempty_cut (w : nat * list segmentReplaceNode) : Prop := take w.1 (log_from 0 w.2) <> [].
#[export] Instance nonempty_cut_dec w : Decision (nonempty_cut w).
Proof. unfold nonempty_cut. apply _. Defined.

Definition after_crash (h : history) (stage : flush_stage) (ka : nat) : history :=
  let r := after_wals (filter nonempty_cut (cut_logs h stage ka)) (h_disk h) in
  History r.1 None r.2.

(** The writes whose records are complete *)
Definition crash_map (h : history) (stage : flush_stage) (ka : nat) : gmap (list Z) (list Z) :=
  foldl (fun m w => apply_nodes m (surviving w.1 w.2)) (h_disk h) (cut_logs h stage ka).

(** No log has one, two or three bytes. *)
Definition wals_ok (dir : directory) : Prop := map_Forall (fun _ file => file = [] \/ (4 <= length file)%nat) (d_wals dir).

Definition logs_small (s : Store F) : Prop :=
  forall l cl, so_flushing s = Some l \/ so_active s = l -> l.2 = Some cl -> blen (cl_file cl) < 2 ^ 34.

Lemma surviving_prefix k crc ns1 ns2 : (length (log_from crc ns1) <= k)%nat -> ns1 `prefix_of` surviving k (ns1 ++ ns2).
Proof. intros Hk. pose proof (survivors_prefix ns1 ns2 k crc Hk). unfold surviving. rewrite take_app_ge by lia. by eexists. Qed.

Lemma surviving_nil k ns : take k (log_from 0 ns) = [] -> surviving k ns = [].
Proof.
  destruct ns as [|n ns]; [done|]. intros H. apply (f_equal length) in H. rewrite length_take in H. cbn [log_from] in H.
  rewrite length_app, length_record in H. cbn [length] in H. unfold surviving. cbn [survivors]. by rewrite (proj2 (Nat.leb_gt _ _)) by lia.
Qed.

Lemma after_wals_map ws : forall md,
  apply_nodes (after_wals ws md).1 (after_wals ws md).2 = foldl (fun m w => apply_nodes m (surviving w.1 w.2)) md ws.
Proof.
  induction ws as [|[k ns] ws IH]; intros md; [done|]. cbn [after_wals foldl fst snd]. destruct (_ && _) eqn:E; [|apply IH].
  apply andb_true_iff in E as [E _]. by destruct ws.
Qed.

Lemma foldl_filter_surviving ws : forall md,
  foldl (fun m w => apply_nodes m (surviving w.1 w.2)) md (filter nonempty_cut ws)
  = foldl (fun m w => apply_nodes m (surviving w.1 w.2)) md ws.
Proof.
  induction ws as [|[k ns] ws IH]; intros md; [done|]. rewrite filter_cons. destruct (decide _) as [Hd|Hd]; cbn [foldl fst snd] in *; [apply IH|].
  destruct (decide (take k (log_from 0 ns) = [])) as [E|E]; [|by destruct Hd]. by rewrite (surviving_nil k ns E).
Qed.

Lemma after_crash_map h stage ka : h_map (after_crash h stage ka) = crash_map h stage ka.
Proof. unfold h_map, after_crash, crash_map. cbn [h_disk h_flushing h_active default]. rewrite <- foldl_filter_surviving. apply after_wals_map. Qed.

Lemma sorted_tail (ids l : list Z) :
  StronglySorted Z.lt ids -> Forall (fun y => forall x, x ∈ ids -> x < y) l -> StronglySorted Z.lt l -> StronglySorted Z.lt (ids ++ l).
Proof. intros H1 H2 H3. apply StronglySorted_app_2; [|done..]. intros x y Hx Hy. rewrite Forall_forall in H2. by apply H2. Qed.

Lemma zip_files (ids : list Z) (disk : list (segment F)) : zip ids (s_contents <$> disk) = files_of (zip ids disk).
Proof. revert disk. induction ids as [|i ids IH]; intros [|s disk]; try done. cbn. f_equal. apply IH. Qed.

Lemma filter_cuts (ws : list cut_log) : (filter (fun w => (cut_file w).2 <> []) ws).*2 = filter nonempty_cut ws.*2.
Proof.
  induction ws as [|[id w] ws IH]; [done|]. rewrite fmap_cons, !filter_cons. cbn [cut_file snd] in *.
  destruct (decide (nonempty_cut w)) as [H|H], (decide (take w.1 (log_from 0 w.2) <> [])) as [H'|H']; try done. rewrite fmap_cons. by f_equal.
Qed.

Lemma filter_no_log k : filter nonempty_cut [(k, [])] = [].
Proof. rewrite filter_cons. destruct (decide _) as [H|H]; [|done]. destruct H. apply take_nil. Qed.

(** The logs of a store as cut logs *)
Definition store_cuts (s : Store F) (h : history) (stage : flush_stage) (ka : nat) : list cut_log :=
  match so_flushing s, h_flushing h with
  | Some (id, Some _), Some ns => [(id, (stage_cut stage (length (log_from 0 ns)), ns))]
  | _, _ => []
  end ++ match so_active s with (id, Some _) => [(id, (ka, h_active h))] | (_, None) => [] end.

Lemma crash_wals s h stage ka : store_inv s h -> d_wals (crash s stage ka) = list_to_map (cut_file <$> store_cuts s h stage ka).
Proof.
  intros [_ _ Hcl _ _ Hfl _]. unfold crash, store_cuts. cbn [d_wals]. rewrite fmap_app. f_equal. f_equal.
  - destruct (so_flushing s) as [[id [cl|]]|], (h_flushing h) as [ns|]; try done. destruct Hfl as [[Hf _ _] _]. unfold log_file. cbn. by rewrite Hf.
  - destruct (so_active s) as [id [cl|]]; [|done]. cbn [snd lazy_holds] in Hcl. destruct Hcl as [Hf _ _]. unfold log_file. cbn. by rewrite Hf.
Qed.

Lemma store_cuts_filter s h stage ka :
  store_inv s h -> filter nonempty_cut (store_cuts s h stage ka).*2 = filter nonempty_cut (cut_logs h stage ka).
Proof.
  intros [_ _ Hcl _ _ Hfl _]. unfold store_cuts, cut_logs. rewrite fmap_app, !filter_app. f_equal.
  - destruct (so_flushing s) as [[id [cl|]]|], (h_flushing h) as [ns|]; try done. cbn [lazy_holds] in Hfl. destruct Hfl as (Hf & Hn & _). done.
  - destruct (so_active s) as [id [cl|]]; [done|]. cbn [snd lazy_holds] in Hcl. rewrite Hcl. symmetry. apply filter_no_log.
Qed.

Lemma store_cuts_sorted s h stage ka now :
  store_inv s h -> (so_active s).1 < now -> StronglySorted Z.lt (so_ids s ++ (store_cuts s h stage ka).*1 ++ [now]).
Proof.
  intros [_ _ _ _ _ _ Hs] Hnow. unfold store_cuts, flushing_ids in *. destruct (so_active s) as [ida cla]. cbn [fst] in *.
  apply StronglySorted_app in Hs as (H1 & H2 & H3). apply sorted_tail; [done|..].
  - assert (Hida : forall x, x ∈ so_ids s -> x < ida) by (intros x Hx; apply H1; [done|]; apply elem_of_app; right; left).
    assert (Hidn : forall x, x ∈ so_ids s -> x < now) by (intros x Hx; specialize (Hida x Hx); lia).
    destruct (so_flushing s) as [[idf [clf|]]|], (h_flushing h), cla; repeat constructor; try done; intros x Hx; apply H1; try done; left.
  - destruct (so_flushing s) as [[idf [clf|]]|]; cbn [app] in H3; [apply StronglySorted_inv in H3 as [H3 Hf]; apply Forall_cons in Hf as [Hf _]|..];
      destruct (h_flushing h), cla; cbn; repeat constructor; lia.
Qed.

Lemma store_cuts_ok s h stage ka w :
  store_inv s h -> logs_small s -> w ∈ store_cuts s h stage ka ->
  Forall (recoverable (b_secondaryIndices (so_bucket s)) (b_skipSecondaryKeyCheck (so_bucket s))) w.2.2 /\ blen (log_from 0 w.2.2) < 2 ^ 34.
Proof.
  intros [_ _ Hcl Hok _ Hfl _] Hsm Hw. unfold store_cuts in Hw. apply elem_of_app in Hw as [Hw|Hw].
  - destruct (so_flushing s) as [[id [cl|]]|] eqn:E, (h_flushing h) as [ns|]; try by apply not_elem_of_nil in Hw.
    apply list_elem_of_singleton in Hw as ->. destruct Hfl as ([Hf _ _] & _ & Hr). cbn [snd]. split; [done|]. rewrite <- Hf.
    eapply Hsm; [by left|done].
  - destruct (so_active s) as [id [cl|]] eqn:E; [|by apply not_elem_of_nil in Hw]. apply list_elem_of_singleton in Hw as ->. cbn [snd] in *.
    destruct Hcl as [Hf _ _]. split; [done|]. rewrite <- Hf. eapply Hsm; [by right|done].
Qed.
(** Opening what a crash left *)
Lemma crash_inv s h stage ka iterate whole now :
  store_inv s h -> visits iterate -> logs_small s -> wals_ok (crash s stage ka) -> (so_active s).1 < now ->
  exists s', NewBucket (so_bucket s) iterate whole now (crash s stage ka) = Ok s' /\ store_inv s' (after_crash h stage ka).
Proof.
  intros Hinv Hit Hsm Hok Hnow. pose proof (crash_wals s h stage ka Hinv) as Hwals. pose proof (store_cuts_sorted s h stage ka now Hinv Hnow) as Hsort.
  set (ws := store_cuts s h stage ka) in *. destruct (si_bucket _ _ Hinv) as (sa & sf & flats & Hi & Hd & _).
  set (extra := match so_flushing s, stage with Some (id, _), Renamed file => [(id, file)] | _, _ => [] end).
  assert (Hdir : crash s stage ka = Directory (list_to_map (files_of (zip (so_ids s) (b_disk (so_bucket s))) ++ extra)) [] (list_to_map (cut_file <$> ws))).
  { rewrite <- Hwals. unfold crash. cbn [d_wals]. by rewrite zip_files. }
  assert (Hzip : (zip (so_ids s) (b_disk (so_bucket s))).*1 = so_ids s) by (apply fst_zip; rewrite (si_length _ _ Hinv); lia).
  set (b0 := with_state (so_bucket s) (createNewActiveMemtable (so_bucket s)) None []).
  destruct (init_bucket_spec b0 iterate whole now (zip (so_ids s) (b_disk (so_bucket s))) flats (h_disk h) extra ws) as (s' & Hs' & Hinv').
  - apply Hi.
  - done.
  - by apply disk_ok_with.
  - apply Forall_forall. intros w [Hne Hw]%list_elem_of_filter. destruct (store_cuts_ok s h stage ka w Hinv Hsm Hw) as [H1 H2]. split; [done..|].
    rewrite Hdir in Hok. unfold wals_ok in Hok. cbn [d_wals] in Hok.
    assert (Hl : (list_to_map (cut_file <$> ws) : gmap Z (list Z)) !! (cut_file w).1 = Some (cut_file w).2).
    { apply elem_of_list_to_map_1; [|rewrite <- surjective_pairing; by apply list_elem_of_fmap_2].
      apply sorted_ids_NoDup, sorted_pairs. rewrite cut_files_ids. apply StronglySorted_app_1_r in Hsort. by apply StronglySorted_app_1_l in Hsort. }
    destruct (Hok _ _ Hl); done.
  - by rewrite Hzip.
  - rewrite Hzip. unfold extra. pose proof (si_ids _ _ Hinv) as Hs. unfold flushing_ids in Hs.
    destruct (so_flushing s) as [[id cl]|]; [|rewrite app_nil_r; by apply StronglySorted_app_1_l in Hs].
    rewrite app_assoc in Hs. apply StronglySorted_app_1_l in Hs. destruct stage; [rewrite app_nil_r; by apply StronglySorted_app_1_l in Hs|done].
  - intros id. unfold extra, ws, store_cuts. pose proof (si_flushing _ _ Hinv) as Hf. destruct (so_flushing s) as [[idf [cl|]]|], stage, (h_flushing h) as [ns|]; try done; cbn [fmap list_fmap app fst]; try by intros ?%not_elem_of_nil.
    + intros ->%list_elem_of_singleton. left.
    + by destruct Hf as (Hl & Hn & _).
  - exists s'. rewrite Hdir. split; [done|]. unfold after_crash. rewrite filter_cuts in Hinv'. unfold ws in Hinv'. by rewrite (store_cuts_filter s h stage ka Hinv) in Hinv'.
Qed.

(** ** Executions with crashes *)

Inductive store_reaches : Store F -> history -> Prop :=
| sr_new secondaryIndices keep enable skip mmap bloom now :
    0 <= secondaryIndices < 2 ^ 16 ->
    store_reaches (MkStore (empty_bucket secondaryIndices keep enable skip mmap bloom) [] (now, None) None) (History ∅ None [])
| sr_write s h o n s' :
    store_reaches s h -> op_fits (so_bucket s) o -> op_node (so_bucket s) o = Some n -> log_fits (so_bucket s) n -> store_write s o = Ok s' ->
    store_reaches s' (History (h_disk h) (h_flushing h) (h_active h ++ [n]))
| sr_switch s h now (switched : bool) s' :
    store_reaches s h -> (so_active s).1 < now -> store_switch s now = Ok (switched, s') ->
    store_reaches s' (if switched then History (h_disk h) (Some (h_active h)) [] else h)
| sr_flush s h whole s' :
    store_reaches s h -> op_fits (so_bucket s) (OpFlush whole) -> store_flush s whole = Ok s' ->
    store_reaches s' (History (apply_nodes (h_disk h) (default [] (h_flushing h))) None (h_active h))
| sr_compact s h fuel left level whole s' :
    store_reaches s h -> op_fits (so_bucket s) (OpCompact fuel left level whole) -> store_compact s fuel left level whole = Ok s' ->
    store_reaches s' h
| sr_crash s h stage ka iterate whole now s' :
    store_reaches s h -> visits iterate -> logs_small s -> wals_ok (crash s stage ka) -> (so_active s).1 < now ->
    NewBucket (so_bucket s) iterate whole now (crash s stage ka) = Ok s' ->
    store_reaches s' (after_crash h stage ka).

Lemma store_reaches_inv s h : store_reaches s h -> store_inv s h.
Proof.
  induction 1 as [count keep enable skip mmap bloom now Hc|s h o n s' _ IH H1 H2 H3 H4|s h now sw s' _ IH H1 H2|s h whole s' _ IH H1 H2
    |s h fuel left level whole s' _ IH H1 H2|s h stage ka iterate whole now s' _ IH H1 H2 H3 H4 H5].
  - split; cbn; try done; [|repeat constructor]. exists ∅, None, []. split_and!; [split; [done|apply new_mt_ok|done|constructor]|split; [constructor..|]|..|done].
    + intros k. by rewrite lookup_empty.
    + intros k. by rewrite lookup_empty.
  - by eapply store_write_inv.
  - by eapply store_switch_inv.
  - by eapply store_flush_inv.
  - by eapply store_compact_inv.
  - destruct (crash_inv s h stage ka iterate whole now IH H1 H2 H3 H4) as (s1 & Hs1 & Hinv). rewrite H5 in Hs1. by injection Hs1 as ->.
Qed.

(** ** A crash in the switch of a compaction *)

(** [marked] of the two old segments have been renamed for deletion, left first, and the new one,
    in [file], still has its temporary name. *)
Definition crash_switching (s : Store F) (left : nat) (file : list Z) (marked : nat) (stage : flush_stage) (ka : nat) : directory :=
  let dir := crash s stage ka in
  match so_ids s !! left, so_ids s !! S left with
  | Some idl, Some idr =>
      let dbs := if (1 <=? marked)%nat then delete idl (d_dbs dir) else d_dbs dir in
      let dbs := if (2 <=? marked)%nat then delete idr dbs else dbs in
      Directory dbs [([idl; idr], file)] (d_wals dir)
  | _, _ => dir
  end.

Lemma list_to_map_pair {A} (l1 l2 : list (Z * A)) x y :
  NoDup (l1 ++ x :: y :: l2).*1 ->
  exists m : gmap Z A, (list_to_map (l1 ++ x :: y :: l2) : gmap Z A) = <[x.1 := x.2]> (<[y.1 := y.2]> m) /\ m !! x.1 = None /\ m !! y.1 = None /\ x.1 <> y.1 /\
    forall z, (list_to_map (l1 ++ (y.1, z) :: l2) : gmap Z A) = <[y.1 := z]> m.
Proof.
  intros Hnd. exists (list_to_map (l1 ++ l2)).
  assert (Hp : l1 ++ x :: y :: l2 ≡ₚ x :: y :: l1 ++ l2) by (rewrite <- !Permutation_middle; done).
  assert (Hnd' : NoDup (x :: y :: l1 ++ l2).*1) by (by rewrite <- Hp). rewrite !fmap_cons in Hnd'.
  apply NoDup_cons in Hnd' as [Hx Hnd']. apply NoDup_cons in Hnd' as [Hy Hnd']. rewrite not_elem_of_cons in Hx. destruct Hx as [Hxy Hx].
  split_and!; try done; [|by apply not_elem_of_list_to_map_1..|].
  - rewrite (list_to_map_proper _ _ Hnd Hp). by destruct x, y.
  - intros z. rewrite (list_to_map_proper (l1 ++ (y.1, z) :: l2) ((y.1, z) :: l1 ++ l2)); [done| |by rewrite Permutation_middle].
    rewrite <- Permutation_middle, fmap_cons. by constructor.
Qed.

(** The directory before and after a compaction *)
Lemma compacted_dbs s h fuel left level whole s' stage ka :
  store_inv s h -> op_fits (so_bucket s) (OpCompact fuel left level whole) -> store_compact s fuel left level whole = Ok s' ->
  exists idl idr fl fr seg flat (m : gmap Z (list Z)), so_ids s !! left = Some idl /\ so_ids s !! S left = Some idr /\
    b_disk (so_bucket s') !! left = Some seg /\ opens (so_bucket s) fr flat /\ idl <> idr /\ m !! idl = None /\ m !! idr = None /\
    d_dbs (crash s stage ka) = <[idl := fl]> (<[idr := fr]> m) /\ d_dbs (crash s' stage ka) = <[idr := s_contents seg]> m /\
    d_wals (crash s' stage ka) = d_wals (crash s stage ka).
Proof.
  intros Hinv Hfit Hw. pose proof (si_length _ _ Hinv) as Hlen. pose proof (si_ids _ _ Hinv) as Hids.
  destruct (si_bucket _ _ Hinv) as (sa & sf & flats & Hi & Hd & _).
  destruct (store_compact_spec _ _ _ _ _ _ _ _ _ Hi Hlen Hfit Hw)
    as (d1 & d2 & l & r & seg & i1 & i2 & idl & idr & f1 & f2 & x & y & flat & [Hdisk Hi12 -> -> Hd1 Hi1 Hf1 Hi2 _ _] & _).
  set (extra := match so_flushing s, stage with Some (id, _), Renamed f => [(id, f)] | _, _ => [] end).
  set (l1 := zip i1 (s_contents <$> d1)). set (l2 := zip i2 (s_contents <$> d2) ++ extra).
  assert (Hnd : NoDup (l1 ++ (idl, s_contents l) :: (idr, s_contents r) :: l2).*1).
  { rewrite fmap_app, !fmap_cons. unfold l1, l2. rewrite fmap_app, !fst_zip by (rewrite length_fmap; lia). cbn [fst].
    change (idl :: idr :: i2 ++ extra.*1) with ((idl :: idr :: i2) ++ extra.*1). rewrite app_assoc, <- Hi12. apply sorted_NoDup.
    unfold extra, flushing_ids in *. destruct (so_flushing s) as [[idf cl]|]; [|rewrite app_nil_r; by apply StronglySorted_app_1_l in Hids].
    rewrite app_assoc in Hids. apply StronglySorted_app_1_l in Hids. destruct stage; [rewrite app_nil_r; by apply StronglySorted_app_1_l in Hids|done]. }
  destruct (list_to_map_pair l1 l2 _ _ Hnd) as (m & Em & Hml & Hmr & Hlr & Emr). cbn [fst snd] in *.
  exists idl, idr, (s_contents l), (s_contents r), seg, y, m. split_and!; try done.
  - rewrite Hi12, <- Hi1. by apply list_lookup_middle.
  - rewrite Hi12, cons_middle, app_assoc. apply list_lookup_middle. rewrite length_app. cbn. lia.
  - cbn [so_bucket with_state b_disk]. rewrite <- Hd1. by apply list_lookup_middle.
  - pose proof (dk_opens _ _ _ _ Hd) as Ho. rewrite snd_zip in Ho by lia. rewrite Hdisk in Ho. apply Forall2_app_inv in Ho as [_ Ho]; [|lia].
    by apply Forall2_cons in Ho as [_ [Hr _]%Forall2_cons].
  - rewrite <- Em. unfold crash. cbn [d_dbs]. fold extra. rewrite Hdisk, Hi12, fmap_app, !fmap_cons, zip_with_app by (rewrite length_fmap; lia).
    cbn [zip_with]. by rewrite <- app_assoc.
  - rewrite <- Emr. unfold crash. cbn [d_dbs so_ids so_bucket so_flushing with_state b_disk]. fold extra.
    rewrite fmap_app, fmap_cons, zip_with_app by (rewrite length_fmap; lia). cbn [zip_with]. by rewrite <- app_assoc.
Qed.

(** An interrupted switch is completed, or undone when no old segment was renamed yet. *)
Lemma switching_spec s h fuel left level whole s' seg file marked stage ka iterate wh now :
  store_inv s h -> op_fits (so_bucket s) (OpCompact fuel left level whole) -> store_compact s fuel left level whole = Ok s' ->
  b_disk (so_bucket s') !! left = Some seg -> (marked = 0%nat \/ file = s_contents seg) ->
  NewBucket (so_bucket s) iterate wh now (crash_switching s left file marked stage ka)
  = NewBucket (so_bucket s) iterate wh now (crash (if bool_decide (marked = 0%nat) then s else s') stage ka).
Proof.
  intros Hinv Hfit Hw Hseg Hmarked.
  destruct (compacted_dbs s h fuel left level whole s' stage ka Hinv Hfit Hw)
    as (idl & idr & fl & fr & seg' & flat & m & Hil & Hir & Hseg' & Hop & Hne & Hml & Hmr & E & E' & Ew).
  rewrite Hseg in Hseg'. injection Hseg' as <-. unfold NewBucket, init_bucket, newSegmentGroup, crash_switching. rewrite Hil, Hir. cbn [d_tmps d_dbs d_wals settle_tmps].
  destruct marked as [|marked]; cbn [Nat.leb].
  - rewrite bool_decide_true by done. rewrite E, lookup_insert_eq, lookup_insert_ne, lookup_insert_eq by done. done.
  - destruct Hmarked as [| ->]; [done|]. rewrite bool_decide_false by done. rewrite E, E', Ew, delete_insert_id by (by rewrite lookup_insert_ne).
    destruct marked as [|marked].
    + rewrite lookup_insert_ne, Hml, lookup_insert_eq by done. destruct (Hop (wh fr)) as (sr & Hsr & _).
      change (b_segmentConfig (with_state _ _ _ _) (wh fr)) with (b_segmentConfig (so_bucket s) (wh fr)). rewrite Hsr. cbn [obind]. by rewrite insert_insert_eq.
    + by rewrite delete_insert_id, Hml, Hmr by done.
Qed.
End recovery.

(** A directory is opened the same way whatever state the options come from. *)
Lemma NewBucket_options {F} `{!Bloom F} (b : Bucket F) active flushing disk : NewBucket (with_state b active flushing disk) = NewBucket b.
Proof. reflexivity. Qed.

(** C2: a crash loses only the end of the logs.  From every state that writes, switches, flushes, compactions and
    earlier crashes reach, whatever prefix of each log is left and whether or not the segment
    of a running flush already has its name, opening the bucket succeeds, and it then answers every key from the segments and exactly the writes whose
    records lie completely within what is left of the logs.  So a prefix of the writes whose log was synced survives.  No log may be left with one, two or three
    bytes, with which opening fails ([short_log_blocks_opening]); records are below 4 GiB and logs below 16 GiB; and no write may have an empty secondary key
    unless the bucket allows missing ones, since the replay drops such a write ([log_fits] in [store_reaches]). *)
Theorem crash_recovery {F} `{!Bloom F} (s : Store F) (h : history) (stage : flush_stage) (ka : nat)
    (iterate : node_cache -> list segmentReplaceNode) (whole : list Z -> bool) (now : Z) :
  store_reaches s h -> visits iterate -> logs_small s -> wals_ok (crash s stage ka) -> (so_active s).1 < now ->
  (forall k, Forall is_byte k -> bucket_Get (so_bucket s) k = Ok (h_map h !! k)) /\
  exists s', NewBucket (so_bucket s) iterate whole now (crash s stage ka) = Ok s' /\ store_reaches s' (after_crash h stage ka) /\
    (forall k, Forall is_byte k -> bucket_Get (so_bucket s') k = Ok (crash_map h stage ka !! k)) /\
    (forall ns1 ns2, h_active h = ns1 ++ ns2 -> (length (log_from 0 ns1) <= ka)%nat -> ns1 `prefix_of` surviving ka (h_active h)).
Proof.
  intros Hr Hit Hsm Hok Hnow. pose proof (store_reaches_inv s h Hr) as Hinv.
  split; [intros k Hk; by apply (holds_map_reads _ _ k (store_inv_map _ _ Hinv))|].
  destruct (crash_inv s h stage ka iterate whole now Hinv Hit Hsm Hok Hnow) as (s' & Hs' & Hinv'). exists s'. split; [done|].
  split; [by eapply sr_crash|]. split.
  - intros k Hk. rewrite <- after_crash_map. by apply (holds_map_reads _ _ k (store_inv_map _ _ Hinv')).
  - intros ns1 ns2 -> Hk. apply surviving_prefix with (crc := 0). exact Hk.
Qed.

(** C20: a crash in the middle of a compaction's switch loses nothing more.  Whether the new segment
    was still being written, or none, one or both of the old segments had been renamed, opening the bucket
    succeeds and answers as if the compaction had not begun or had completed. *)
Theorem compaction_crash {F} `{!Bloom F} (s s' : Store F) (h : history) (fuel left : nat) (level : Z) (wh : bool) (seg : segment F)
    (file : list Z) (marked : nat) (stage : flush_stage) (ka : nat)
    (iterate : node_cache -> list segmentReplaceNode) (whole : list Z -> bool) (now : Z) :
  store_reaches s h -> op_fits (so_bucket s) (OpCompact fuel left level wh) -> store_compact s fuel left level wh = Ok s' ->
  b_disk (so_bucket s') !! left = Some seg -> (marked = 0%nat \/ file = s_contents seg) ->
  visits iterate -> logs_small s -> wals_ok (crash s stage ka) -> (so_active s).1 < now ->
  exists s'', NewBucket (so_bucket s) iterate whole now (crash_switching s left file marked stage ka) = Ok s'' /\
    store_reaches s'' (after_crash h stage ka) /\ forall k, Forall is_byte k -> bucket_Get (so_bucket s'') k = Ok (crash_map h stage ka !! k).
Proof.
  intros Hr Hfit Hc Hseg Hm Hit Hsm Hok Hnow. pose proof (store_reaches_inv s h Hr) as Hinv.
  rewrite (switching_spec s h fuel left level wh s' seg file marked stage ka iterate whole now) by done.
  set (s1 := if bool_decide (marked = 0%nat) then s else s').
  assert (H1 : store_reaches s1 h /\ so_flushing s1 = so_flushing s /\ so_active s1 = so_active s /\
    NewBucket (so_bucket s1) = NewBucket (so_bucket s) /\ d_wals (crash s1 stage ka) = d_wals (crash s stage ka)).
  { unfold s1. case_bool_decide; [done|]. split; [by eapply sr_compact|]. unfold store_compact, compact_pair in Hc.
    destruct (b_disk (so_bucket s) !! left), (b_disk (so_bucket s) !! S left); try done.
    destruct (compactor_do _ _ _ _); try done. cbn [obind] in Hc. destruct (newSegment _ _); try done. by injection Hc as <-. }
  destruct H1 as (Hr1 & Hf1 & Ha1 & Hb1 & Hw1). rewrite <- Hb1. pose proof (store_reaches_inv s1 h Hr1) as Hinv1.
  assert (Hsm1 : logs_small s1) by (unfold logs_small in *; by rewrite Hf1, Ha1).
  assert (Hok1 : wals_ok (crash s1 stage ka)) by (unfold wals_ok in *; by rewrite Hw1).
  destruct (crash_inv s1 h stage ka iterate whole now Hinv1 Hit Hsm1 Hok1) as (s'' & Hs'' & Hinv'); [by rewrite Ha1|].
  exists s''. split; [done|]. split; [eapply sr_crash; try done; by rewrite Ha1|].
  intros k Hk. rewrite <- after_crash_map. by apply (holds_map_reads _ _ k (store_inv_map _ _ Hinv')).
Qed.

(** A log cut within its first three bytes keeps the bucket from opening.  The log is seeked
    to four bytes before its end, which fails, so [NewBucket] fails, although no complete record was lost. *)
Lemma short_log_blocks_opening {F} `{!Bloom F} (s : Store F) (h : history) (stage : flush_stage) (ka : nat)
    (iterate : node_cache -> list segmentReplaceNode) (whole : list Z -> bool) (now : Z) :
  store_reaches s h -> so_flushing s = None -> h_active h <> [] -> (0 < ka < 4)%nat ->
  NewBucket (so_bucket s) iterate whole now (crash s stage ka) = Err ESeek.
Proof.
  intros Hr Hfl Hne Hka. pose proof (store_reaches_inv s h Hr) as Hinv. destruct (si_bucket _ _ Hinv) as (sa & sf & flats & Hi & Hd & _).
  pose proof (si_active _ _ Hinv) as Hcl. pose proof (si_ids _ _ Hinv) as Hids. unfold flushing_ids in Hids. rewrite Hfl in Hids.
  assert (Hzip : (zip (so_ids s) (b_disk (so_bucket s))).*1 = so_ids s) by (apply fst_zip; rewrite (si_length _ _ Hinv); lia).
  destruct (so_active s) as [ida [cl|]] eqn:Ea; [|done]. cbn [snd fst lazy_holds app] in *. destruct Hcl as [Hf _ _].
  assert (Hlen : length (take ka (log_from 0 (h_active h))) = ka).
  { rewrite length_take. destruct (h_active h) as [|n ns]; [done|]. cbn [log_from]. rewrite length_app, length_record. lia. }
  unfold NewBucket, init_bucket, newSegmentGroup, crash. rewrite Hfl, Ea. unfold log_file. cbn [d_tmps d_dbs d_wals settle_tmps obind fst snd app].
  rewrite app_nil_r, zip_files, Hf, sorted_files_list by (apply sorted_pairs; rewrite files_of_ids, Hzip; by apply StronglySorted_app_1_l in Hids).
  set (b0 := with_state _ _ _ _). set (file := take ka (log_from 0 (h_active h))) in *.
  destruct (open_segments_spec b0 whole (list_to_map [(ida, file)]) [] _ flats
    (dk_segs _ _ _ _ Hd) (dk_opens _ _ _ _ Hd)) as (disk & Hopen & _).
  - intros i Hi'. rewrite Hzip in Hi'. cbn [list_to_map foldr uncurry fst snd].
    rewrite lookup_insert_ne; [apply lookup_empty|]. intros <-. apply StronglySorted_app in Hids as (Hids & _). specialize (Hids ida ida Hi' ltac:(left)). lia.
  - by intros i ?%not_elem_of_nil.
  - rewrite app_nil_r in Hopen. rewrite Hopen. cbn [obind]. unfold mayRecoverFromCommitLogs.
    rewrite sorted_files_list by (repeat constructor). rewrite filter_cons, decide_True by (intros E; cbn [snd] in E; rewrite E in Hlen; cbn in Hlen; lia).
    cbn [filter list_filter recover_wals obind]. unfold newCommitLogger, blen. rewrite Hlen.
    by rewrite (proj2 (Z.eqb_neq _ _)), (proj2 (Z.ltb_lt _ _)) by lia.
Qed.

(** ** Checked executions *)

Inductive store_op : Type :=
| SWrite (o : bucket_op)
| SSwitch (now : Z)
| SFlush (whole : bool)
| SCompact (fuel left : nat) (level : Z) (whole : bool).

Definition log_fitsb {F} (b : Bucket F) (n : segmentReplaceNode) : bool :=
  (blen (replace_layout n) <? 2 ^ 32) && (b_skipSecondaryKeyCheck b || forallb (fun k => negb (bool_decide (k = []))) (sn_secondaryKeys n)).

Definition store_step {F} `{!Bloom F} (sh : Store F * history) (o : store_op) : option (Store F * history) :=
  let (s, h) := sh in
  match o with
  | SWrite o =>
      match op_node (so_bucket s) o, store_write s o with
      | Some n, Ok s' => if op_fitsb (so_bucket s) o && log_fitsb (so_bucket s) n
                         then Some (s', History (h_disk h) (h_flushing h) (h_active h ++ [n])) else None
      | _, _ => None
      end
  | SSwitch now =>
      match store_switch s now with
      | Ok (switched, s') => if (so_active s).1 <? now
                             then Some (s', if switched : bool then History (h_disk h) (Some (h_active h)) [] else h) else None
      | _ => None
      end
  | SFlush whole =>
      match store_flush s whole with
      | Ok s' => if op_fitsb (so_bucket s) (OpFlush whole)
                 then Some (s', History (apply_nodes (h_disk h) (default [] (h_flushing h))) None (h_active h)) else None
      | _ => None
      end
  | SCompact fuel pos level whole =>
      match store_compact s fuel pos level whole with
      | Ok s' => if op_fitsb (so_bucket s) (OpCompact fuel pos level whole) then Some (s', h) else None
      | _ => None
      end
  end.

Fixpoint store_run {F} `{!Bloom F} (sh : Store F * history) (ops : list store_op) : option (Store F * history) :=
  match ops with [] => Some sh | o :: ops => match store_step sh o with Some sh => store_run sh ops | None => None end end.

Lemma log_fits_check {F} (b : Bucket F) n : log_fitsb b n = true -> log_fits b n.
Proof.
  unfold log_fitsb. rewrite andb_true_iff, orb_true_iff. intros [H1 [H2|H2]]; (split; [lia|]); [by left|right].
  rewrite forallb_forall in H2. apply Forall_forall. intros k Hk E. specialize (H2 k (proj1 (list_elem_of_In _ _) Hk)).
  by rewrite E in H2.
Qed.

Lemma store_step_reaches {F} `{!Bloom F} (s : Store F) h o s' h' : store_reaches s h -> store_step (s, h) o = Some (s', h') -> store_reaches s' h'.
Proof.
  intros Hr. destruct o as [o|now|whole|fuel pos level whole]; cbn [store_step].
  - destruct (op_node (so_bucket s) o) as [n|] eqn:En; [|done]. destruct (store_write s o) as [s1| | |] eqn:Es; [|done..].
    destruct (_ && _) eqn:E; [|done]. apply andb_true_iff in E as [E1 E2]. intros [= <- <-].
    eapply sr_write; [done|by apply fits_check|done|by apply log_fits_check|done].
  - destruct (store_switch s now) as [[sw s1]| | |] eqn:Es; [|done..]. destruct (Z.ltb_spec (so_active s).1 now); [|done]. intros [= <- <-]. by eapply sr_switch.
  - destruct (store_flush s whole) as [s1| | |] eqn:Es; [|done..]. destruct (op_fitsb _ _) eqn:E; [|done]. intros [= <- <-].
    eapply sr_flush; [done|by apply fits_check|done].
  - destruct (store_compact s fuel pos level whole) as [s1| | |] eqn:Es; [|done..]. destruct (op_fitsb _ _) eqn:E; [|done]. intros [= <- <-].
    eapply sr_compact; [done|by apply fits_check|done].
Qed.

Lemma store_run_reaches {F} `{!Bloom F} ops : forall (s : Store F) h s' h',
  store_reaches s h -> store_run (s, h) ops = Some (s', h') -> store_reaches s' h'.
Proof.
  induction ops as [|o ops IH]; intros s h s' h' Hr Hrun; cbn [store_run] in Hrun; [by injection Hrun as <- <-|].
  destruct (store_step (s, h) o) as [[s1 h1]|] eqn:E; [|done]. eapply IH; [|done]. by eapply store_step_reaches.
Qed.

(** Two segments, a memtable being flushed and writes behind it *)
Definition wit_store_ops : list store_op :=
  [SWrite (OpPut [1] [10] [(0, Some [101])]); SWrite (OpPut [2] [20] [(0, Some [102])]); SSwitch 2; SFlush true;
   SWrite (OpPut [2] [21] [(0, Some [102])]); SSwitch 3; SFlush true;
   SWrite (OpDelete [1] [(0, Some [101])]); SWrite (OpPut [3] [30] [(0, Some [103])]); SSwitch 4;
   SWrite (OpPut [4] [40] [(0, Some [104])]); SWrite (OpPut [5] [50] [(0, Some [105])])].

Definition wit_store : Store (list (list Z)) * history :=
  (MkStore (empty_bucket 1 false true false false true) [] (1, None) None, History ∅ None []).

Definition wit_iterate (c : node_cache) : list segmentReplaceNode := (map_to_list c).*2.

Lemma wit_visits : visits wit_iterate.
Proof. intros c. unfold wit_iterate. reflexivity. Qed.

Lemma wit_store_reaches : exists s h, store_run wit_store wit_store_ops = Some (s, h) /\ store_reaches s h.
Proof.
  destruct (store_run wit_store wit_store_ops) as [[s h]|] eqn:E; [|vm_compute in E; discriminate].
  exists s, h. split; [done|]. eapply store_run_reaches; [|done]. apply sr_new. lia.
Qed.

Lemma wals_check dir : bool_decide (map_Forall (fun (_ : Z) (file : list Z) => file = [] \/ (4 <= length file)%nat) (d_wals dir)) = true -> wals_ok dir.
Proof. apply bool_decide_eq_true. Qed.

(** The log of the active memtable is cut within its second record. *)
Lemma crash_recovery_witness :
  exists s h s', store_run wit_store wit_store_ops = Some (s, h) /\
    NewBucket (so_bucket s) wit_iterate (fun _ => true) 5 (crash s (Renamed [7; 7]) 40) = Ok s' /\
    bucket_Get (so_bucket s') [1] = Ok None /\ bucket_Get (so_bucket s') [2] = Ok (Some [21]) /\ bucket_Get (so_bucket s') [3] = Ok (Some [30]) /\
    bucket_Get (so_bucket s') [4] = Ok (Some [40]) /\ bucket_Get (so_bucket s') [5] = Ok None.
Proof.
  destruct wit_store_reaches as (s & h & Hrun & Hr). exists s, h.
  destruct (crash_recovery s h (Renamed [7; 7]) 40 wit_iterate (fun _ => true) 5 Hr) as (_ & s' & Hs' & _ & Hget & _).
  - exact wit_visits.
  - vm_compute in Hrun. injection Hrun as <- _. intros l cl [Hl|Hl] Hcl; [injection Hl as <-|subst l]; injection Hcl as <-; apply Z.ltb_lt; reflexivity.
  - apply wals_check. vm_compute in Hrun. injection Hrun as <- _. vm_compute. reflexivity.
  - vm_compute in Hrun. injection Hrun as <- _. reflexivity.
  - exists s'. split; [exact Hrun|]. split; [exact Hs'|].
    vm_compute in Hrun. injection Hrun as _ <-.
    split; [rewrite (Hget [1]) by (apply bytes_check; reflexivity); vm_compute; reflexivity|].
    split; [rewrite (Hget [2]) by (apply bytes_check; reflexivity); vm_compute; reflexivity|].
    split; [rewrite (Hget [3]) by (apply bytes_check; reflexivity); vm_compute; reflexivity|].
    split; [rewrite (Hget [4]) by (apply bytes_check; reflexivity); vm_compute; reflexivity|].
    rewrite (Hget [5]) by (apply bytes_check; reflexivity). vm_compute. reflexivity.
Defined.

(** The left one of the two segments has been renamed. *)
Lemma compaction_crash_witness :
  exists s h s' seg s'', store_run wit_store wit_store_ops = Some (s, h) /\ store_compact s 1000 0 1 true = Ok s' /\
    b_disk (so_bucket s') !! 0%nat = Some seg /\
    NewBucket (so_bucket s) wit_iterate (fun _ => false) 5 (crash_switching s 0 (s_contents seg) 1 (Logging 100) 100) = Ok s'' /\
    bucket_Get (so_bucket s'') [2] = Ok (Some [21]) /\ bucket_Get (so_bucket s'') [3] = Ok (Some [30]).
Proof.
  destruct wit_store_reaches as (s & h & Hrun & Hr). exists s, h.
  assert (Hc : exists s' seg, store_compact s 1000 0 1 true = Ok s' /\ b_disk (so_bucket s') !! 0%nat = Some seg /\
    op_fitsb (so_bucket s) (OpCompact 1000 0 1 true) = true).
  { vm_compute in Hrun. injection Hrun as <- _. eexists _, _. split; [vm_compute; reflexivity|]. split; [reflexivity|]. vm_compute. reflexivity. }
  destruct Hc as (s' & seg & Hc & Hseg & Hfit). exists s', seg.
  destruct (compaction_crash s s' h 1000 0 1 true seg (s_contents seg) 1 (Logging 100) 100 wit_iterate (fun _ => false) 5 Hr) as (s'' & Hs'' & _ & Hget).
  - apply fits_check. exact Hfit.
  - exact Hc.
  - exact Hseg.
  - right. reflexivity.
  - exact wit_visits.
  - vm_compute in Hrun. injection Hrun as <- _. intros l cl [Hl|Hl] Hcl; [injection Hl as <-|subst l]; injection Hcl as <-; apply Z.ltb_lt; reflexivity.
  - apply wals_check. vm_compute in Hrun. injection Hrun as <- _. vm_compute. reflexivity.
  - vm_compute in Hrun. injection Hrun as <- _. reflexivity.
  - exists s''. split; [exact Hrun|]. split; [exact Hc|]. split; [exact Hseg|]. split; [exact Hs''|].
    vm_compute in Hrun. injection Hrun as _ <-.
    split; [rewrite (Hget [2]) by (apply bytes_check; reflexivity); vm_compute; reflexivity|].
    rewrite (Hget [3]) by (apply bytes_check; reflexivity). vm_compute. reflexivity.
Defined.

Lemma short_log_blocks_opening_witness :
  exists s h, store_run wit_store (take 2 wit_store_ops) = Some (s, h) /\
    NewBucket (so_bucket s) wit_iterate (fun _ => true) 5 (crash s (Logging 0) 3) = Err ESeek.
Proof.
  destruct (store_run wit_store (take 2 wit_store_ops)) as [[s h]|] eqn:E; [|vm_compute in E; discriminate].
  exists s, h. split; [reflexivity|]. apply (short_log_blocks_opening s h (Logging 0) 3).
  - eapply store_run_reaches; [|exact E]. apply sr_new. lia.
  - vm_compute in E. injection E as <- _. reflexivity.
  - vm_compute in E. injection E as _ <-. discriminate.
  - lia.
Defined.

(** The time of a deletion is not recovered: before the crash the error carries it, afterwards it does not. *)
Example deletion_time_lost :
  let bucket : Bucket (list (list Z)) := empty_bucket 0 true true false false true in
  let store := MkStore bucket [] (1, None) None in
  match store_write store (OpDeleteWith [1] 1700000000000 []) with
  | Ok s =>
      bucket_get (so_bucket s) [1] = Err (EGet (ErrDeleted 1700000000000)) /\
      match NewBucket bucket wit_iterate (fun _ => true) 2 (crash s (Logging 0) 1000) with
      | Ok s' => bucket_get (so_bucket s') [1] = Err (EGet Deleted)
      | _ => False
      end
  | _ => False
  end.
Proof. vm_compute. split; reflexivity. Qed.
