(* ===== verification/Varenc.v ===== *)
(** * Packed integers

    [adapters/repos/db/lsmkv/varenc]: the first value of a block in eight bytes, then a
    width in six bits and the other values, or their differences, in that many bits each.
    The decoder has three ways to get at the bits, by the width and by how far the end of the data is; on
    every input it reads what a reference reader of single fields reads, and what was
    encoded comes back, as long as the width is at most 58 bits. *)

From S2P Require Import Prelude.

(** No operation returns an error. *)
Notation run A := (outcome Empty_set A) (only parsing).

Definition at_index (b : list Z) (i : Z) : run Z :=
  if i <? 0 then Panic else match b !! Z.to_nat i with Some x => Ok x | None => Panic end.

Definition set_index (b : list Z) (i v : Z) : run (list Z) :=
  if (i <? 0) || (Z.of_nat (length b) <=? i) then Panic else Ok (<[Z.to_nat i := v]> b).

(** [binary.BigEndian.Uint32(b[pos:])] and [Uint64] *)
Definition load (n : nat) (b : list Z) (pos : Z) : run Z :=
  if (pos <? 0) || (Z.of_nat (length b) <? pos + Z.of_nat n) then Panic else Ok (be_combine (take n (drop (Z.to_nat pos) b))).

(** ** decodeReusable *)

(** A value, or the sum of a difference and the value before it *)
Definition emit (deltaDiff : bool) (prev d : Z) : Z := if deltaDiff then u64 (prev + d) else d.

(** The bit reservoir: the next bits are the high ones of [rs_buf]. *)
Record reservoir : Type := Reservoir { rs_buf : Z; rs_avail : Z; rs_pos : Z }.

Definition extract (bnu : Z) (r : reservoir) : Z * reservoir :=
  (Z.shiftr (rs_buf r) (64 - bnu), Reservoir (u64 (Z.shiftl (rs_buf r) bnu)) (rs_avail r - bnu) (rs_pos r)).

(** The refill by four bytes; [None]: fewer are left *)
Definition refill_word (bits : list Z) (bnu : Z) (r : reservoir) : run (option reservoir) :=
  if rs_avail r <? bnu then
    if Z.of_nat (length bits) <? rs_pos r + 4 then Ok None
    else
      let! w := load 4 bits (rs_pos r) in
      Ok (Some (Reservoir (Z.lor (rs_buf r) (u64 (Z.shiftl w (32 - rs_avail r)))) (rs_avail r + 32) (rs_pos r + 4)))
  else Ok (Some r).

(** Widths up to 32: the slice, the index, the value before it and the reservoir where the loop ends *)
Fixpoint decode_words (turns : nat) (deltaDiff : bool) (bits : list Z) (bnu : Z) (deltas : list Z) (i prev : Z) (r : reservoir) :
    run (list Z * Z * Z * reservoir) :=
  match turns with
  | O => Ok (deltas, i, prev, r)
  | S turns =>
      let! r' := refill_word bits bnu r in
      match r' with
      | None => Ok (deltas, i, prev, r)
      | Some r =>
          let (d, r) := extract bnu r in
          let v := emit deltaDiff prev d in
          let! deltas := set_index deltas i v in
          decode_words turns deltaDiff bits bnu deltas (i + 1) v r
      end
  end.

(** The refill by single bytes; [None]: the data end *)
Fixpoint refill_bytes (turns : nat) (bits : list Z) (bnu : Z) (r : reservoir) : run (option reservoir) :=
  if rs_avail r <? bnu then
    if Z.of_nat (length bits) <=? rs_pos r then Ok None
    else
      match turns with
      | O => OutOfFuel
      | S turns =>
          let! b := at_index bits (rs_pos r) in
          refill_bytes turns bits bnu
            (Reservoir (Z.lor (rs_buf r) (u64 (Z.shiftl b (56 - rs_avail r)))) (rs_avail r + 8) (rs_pos r + 1))
      end
  else Ok (Some r).

(** [decodeTail] and [decodeTailDelta] *)
Fixpoint decodeTail (turns : nat) (deltaDiff : bool) (bits : list Z) (bnu : Z) (deltas : list Z) (i prev : Z) (r : reservoir) : run (list Z) :=
  match turns with
  | O => Ok deltas
  | S turns =>
      let! r := refill_bytes 8 bits bnu r in
      match r with
      | None => Ok deltas
      | Some r =>
          let (d, r) := extract bnu r in
          let v := emit deltaDiff prev d in
          let! deltas := set_index deltas i v in
          decodeTail turns deltaDiff bits bnu deltas (i + 1) v r
      end
  end.

(** Wider fields: eight bytes are read at the byte of each field. *)
Fixpoint decode_fast (turns : nat) (deltaDiff : bool) (bits : list Z) (bnu : Z) (deltas : list Z) (i prev bitPos : Z) :
    run (list Z * Z * Z) :=
  match turns with
  | O => Ok (deltas, prev, bitPos)
  | S turns =>
      let! val := load 8 bits (Z.shiftr bitPos 3) in
      let d := Z.land (Z.shiftr val (64 - Z.land bitPos 7 - bnu)) (Z.ones bnu) in
      let v := emit deltaDiff prev d in
      let! deltas := set_index deltas i v in
      decode_fast turns deltaDiff bits bnu deltas (i + 1) v (bitPos + bnu)
  end.

(** The last ones byte by byte: [bitsLeft] low bits of the buffer are not used yet. *)
Fixpoint fill_slow (turns : nat) (bits : list Z) (bitsNeeded bitBuffer bitsLeft bytePos : Z) : run (option (Z * Z * Z)) :=
  if bitsLeft <? bitsNeeded then
    if Z.of_nat (length bits) <=? bytePos then Ok None
    else
      match turns with
      | O => OutOfFuel
      | S turns =>
          let! b := at_index bits bytePos in
          fill_slow turns bits bitsNeeded (Z.lor (u64 (Z.shiftl bitBuffer 8)) b) (bitsLeft + 8) (bytePos + 1)
      end
  else Ok (Some (bitBuffer, bitsLeft, bytePos)).

Fixpoint decode_slow (turns : nat) (deltaDiff : bool) (bits : list Z) (bitsNeeded : Z) (deltas : list Z) (i bitBuffer bitsLeft bytePos : Z) :
    run (list Z) :=
  match turns with
  | O => Ok deltas
  | S turns =>
      let! s := fill_slow 8 bits bitsNeeded bitBuffer bitsLeft bytePos in
      match s with
      | None => Ok deltas
      | Some (bitBuffer, bitsLeft, bytePos) =>
          let bitsLeft := bitsLeft - bitsNeeded in
          let d := Z.land (Z.shiftr bitBuffer bitsLeft) (Z.ones bitsNeeded) in
          let! deltas := set_index deltas i d in
          let! deltas :=
            if deltaDiff then let! prev := at_index deltas (i - 1) in set_index deltas i (u64 (d + prev)) else Ok deltas in
          decode_slow turns deltaDiff bits bitsNeeded deltas (i + 1) bitBuffer bitsLeft bytePos
      end
  end.

(** The number of fields before the last ones, and one *)
Definition fast_end (n bnu bitsLen : Z) : Z :=
  if (bnu <=? 57) && (8 <=? bitsLen) then Z.min (2 + Z.quot (8 * bitsLen - 63) bnu) n else 1.

Definition decode_wide (n : Z) (deltaDiff : bool) (bits : list Z) (bnu : Z) (deltas : list Z) : run (list Z) :=
  let bitsLen := Z.of_nat (length bits) in
  let fastEnd := fast_end n bnu bitsLen in
  let! first := at_index deltas 0 in
  let! (deltas, _, bitPos) := decode_fast (Z.to_nat (fastEnd - 1)) deltaDiff bits bnu deltas 1 first 6 in
  if n <=? fastEnd then Ok deltas
  else
    let bytePos := Z.shiftr bitPos 3 in
    if bitsLen <=? bytePos then Ok deltas
    else
      let bitsLeft := 8 - Z.land bitPos 7 in
      let! b := at_index bits bytePos in
      decode_slow (Z.to_nat (n - fastEnd)) deltaDiff bits bnu deltas fastEnd (Z.land b (Z.ones bitsLeft)) bitsLeft (bytePos + 1).

Definition decode_narrow (n : Z) (deltaDiff : bool) (bits : list Z) (bnu : Z) (deltas : list Z) : run (list Z) :=
  let! b := at_index bits 0 in
  let! first := at_index deltas 0 in
  let! (deltas, i, prev, r) :=
    decode_words (Z.to_nat (n - 1)) deltaDiff bits bnu deltas 1 first (Reservoir (u64 (Z.shiftl (Z.land b 3) 62)) 2 1) in
  decodeTail (Z.to_nat (n - i)) deltaDiff bits bnu deltas i prev r.

Definition decodeReusable (deltas packed : list Z) (deltaDiff : bool) : run (list Z) :=
  if Z.of_nat (length packed) <? 9 then Ok deltas
  else
    let n := Z.of_nat (length deltas) in
    if n =? 0 then Ok deltas
    else
      let! first := load 8 packed 0 in
      let! deltas := set_index deltas 0 first in
      if n =? 1 then Ok deltas
      else
        let! b := at_index packed 8 in
        let bitsNeeded := Z.land (Z.shiftr b 2) 0x3F in
        if (bitsNeeded =? 0) || (64 <? bitsNeeded) then Ok deltas
        else
          let bits := drop 8 packed in
          if bitsNeeded <=? 32 then decode_narrow n deltaDiff bits bitsNeeded deltas
          else decode_wide n deltaDiff bits bitsNeeded deltas.

(** ** encodeReusable *)

(** [bits.Len64] *)
Definition Len64 (x : Z) : Z := if x =? 0 then 0 else Z.log2 x + 1.

(** What is packed after the first value: the values, or the differences of neighbours *)
Fixpoint packed_values (deltaDiff : bool) (prev : Z) (values : list Z) : list Z :=
  match values with
  | [] => []
  | v :: values => (if deltaDiff then u64 (v - prev) else v) :: packed_values deltaDiff v values
  end.

Definition width_of (ds : list Z) : Z :=
  let bitsNeeded := foldl (fun b d => if b <? Len64 d then Len64 d else b) 0 ds in
  if bitsNeeded =? 0 then 1 else bitsNeeded.

(** The buffer, the byte under construction, its index and the number of its bits in use *)
Record writer : Type := Writer { w_packed : list Z; w_byte : Z; w_index : Z; w_bitPos : Z }.

Definition header_byte (bitsToStore : Z) : Z :=
  foldl (fun currentByte bitPos =>
    Z.lor currentByte (u8 (Z.shiftl (u8 (Z.land (Z.shiftr bitsToStore (5 - bitPos)) 1)) (7 - bitPos)))) 0 [0; 1; 2; 3; 4; 5].

Fixpoint write_bits (turns : nat) (delta bitsNeeded : Z) (w : writer) : run writer :=
  if bitsNeeded <=? 0 then Ok w
  else
    match turns with
    | O => OutOfFuel
    | S turns =>
        let! w :=
          if w_bitPos w =? 8 then
            let! packed := set_index (w_packed w) (w_index w) (w_byte w) in Ok (Writer packed 0 (w_index w + 1) 0)
          else Ok w in
        let bitsToWrite := Z.min bitsNeeded (8 - w_bitPos w) in
        let chunk := u8 (Z.land (Z.shiftr delta (bitsNeeded - bitsToWrite)) (Z.ones bitsToWrite)) in
        write_bits turns delta (bitsNeeded - bitsToWrite)
          (Writer (w_packed w) (Z.lor (w_byte w) (u8 (Z.shiftl chunk (8 - w_bitPos w - bitsToWrite)))) (w_index w) (w_bitPos w + bitsToWrite))
    end.

Fixpoint write_all (ds : list Z) (bitsNeeded : Z) (w : writer) : run writer :=
  match ds with [] => Ok w | d :: ds => let! w := write_bits 64 d bitsNeeded w in write_all ds bitsNeeded w end.

(** The buffer and the number of its bytes in use *)
Definition encodeReusable (deltas packed : list Z) (deltaDiff : bool) : run (list Z * Z) :=
  match deltas with
  | [] => Panic
  | first :: rest =>
      if Z.of_nat (length packed) <? 8 then Panic
      else
        let packed := be_split 8 first ++ drop 8 packed in
        let ds := packed_values deltaDiff first rest in
        let bitsNeeded := width_of ds in
        let! w := write_all ds bitsNeeded (Writer packed (header_byte bitsNeeded) 8 6) in
        let! packed := if 0 <? w_bitPos w then set_index (w_packed w) (w_index w) (w_byte w) else Ok (w_packed w) in
        Ok (packed, w_index w + 1)
  end.

(** [Init] and [Encode] of the two encoders *)
Definition Encode (deltaDiff : bool) (values buf : list Z) : run (list Z) :=
  let! (buf, n) := encodeReusable values buf deltaDiff in Ok (take (Z.to_nat n) buf).

Definition Init (expectedCount : Z) (buf : list Z) : list Z :=
  if Z.of_nat (length buf) <? 8 + 8 * expectedCount then replicate (Z.to_nat (8 + 8 * expectedCount)) 0 else buf.

(** * Fields of a bit string *)

Section fields.
Context (bits : list Z).
Hypothesis Hbits : Forall is_byte bits.
Local Notation size := (8 * Z.of_nat (length bits)).

(** The bits of the data from the first on *)
Definition sbit (k : Z) : bool := Z.testbit (be_combine bits) (size - 1 - k).

(** The reference: the [w] bits from [p] on as a number *)
Definition field (p w : Z) : Z := (be_combine bits / 2 ^ (size - p - w)) mod 2 ^ w.

Lemma div_mod_bits v a w j : 0 <= a -> 0 <= w -> 0 <= j -> Z.testbit ((v / 2 ^ a) mod 2 ^ w) j = (j <? w) && Z.testbit v (a + j).
Proof.
  intros Ha Hw Hj. destruct (Z.ltb_spec j w).
  - rewrite Z.mod_pow2_bits_low, Z.div_pow2_bits, Z.add_comm by lia. done.
  - by rewrite Z.mod_pow2_bits_high by lia.
Qed.

Lemma field_bits p w j : 0 <= p -> 0 <= w -> p + w <= size -> 0 <= j -> Z.testbit (field p w) j = (j <? w) && sbit (p + w - 1 - j).
Proof. intros Hp Hw Hs Hj. unfold field, sbit. rewrite div_mod_bits by lia. do 2 f_equal. lia. Qed.

Lemma field_range p w : 0 <= w -> 0 <= field p w < 2 ^ w.
Proof. intros Hw. apply Z.mod_pos_bound. apply Z.pow_pos_nonneg; lia. Qed.

Lemma be_combine_app a b : be_combine (a ++ b) = be_combine a * 256 ^ Z.of_nat (length b) + be_combine b.
Proof.
  unfold be_combine. rewrite rev_app_distr. rewrite <- (length_rev b). generalize (rev a) (rev b). intros x y.
  induction y as [|c y IH]; cbn [app le_combine length]; [lia|]. rewrite IH, Nat2Z.inj_succ, Z.pow_succ_r by lia. lia.
Qed.

Lemma load_field n pos : 0 <= pos -> pos + Z.of_nat n <= Z.of_nat (length bits) -> load n bits pos = Ok (field (8 * pos) (8 * Z.of_nat n)).
Proof.
  intros Hp Hn. unfold load. rewrite (proj2 (Z.ltb_ge pos _)), (proj2 (Z.ltb_ge _ _)) by lia. cbn [orb]. f_equal.
  set (a := take (Z.to_nat pos) bits). set (b := take n (drop (Z.to_nat pos) bits)). set (c := drop n (drop (Z.to_nat pos) bits)).
  assert (Hsplit : bits = a ++ b ++ c) by (unfold a, b, c; by rewrite !take_drop).
  assert (Hlb : length b = n) by (unfold b; rewrite length_take, length_drop; lia).
  assert (Hlc : Z.of_nat (length c) = Z.of_nat (length bits) - pos - Z.of_nat n) by (unfold c; rewrite !length_drop; lia).
  assert (Hfb : Forall is_byte b) by (apply Forall_take, Forall_drop, Hbits). assert (Hfc : Forall is_byte c) by (apply Forall_drop, Forall_drop, Hbits).
  pose proof (be_combine_range b Hfb) as Hrb. pose proof (be_combine_range c Hfc) as Hrc. rewrite Hlb in Hrb.
  unfold field. rewrite Hsplit at 1. rewrite !be_combine_app, length_app, Hlb, Nat2Z.inj_add.
  replace (8 * Z.of_nat (length bits) - 8 * pos - 8 * Z.of_nat n) with (8 * Z.of_nat (length c)) by lia.
  assert (E : forall k, 0 <= k -> 2 ^ (8 * k) = 256 ^ k) by (intros k Hk; rewrite Z.pow_mul_r by lia; done). rewrite !E by lia.
  assert (0 < 256 ^ Z.of_nat (length c)) by (apply Z.pow_pos_nonneg; lia). rewrite Z.pow_add_r by lia.
  replace (be_combine a * (256 ^ Z.of_nat n * 256 ^ Z.of_nat (length c)) + (be_combine b * 256 ^ Z.of_nat (length c) + be_combine c))
    with (be_combine c + (be_combine a * 256 ^ Z.of_nat n + be_combine b) * 256 ^ Z.of_nat (length c)) by ring.
  rewrite Z.div_add, (Z.div_small (be_combine c)) by lia. rewrite Z.add_0_l, Z.add_comm, Z.mod_add, Z.mod_small by lia. done.
Qed.

Lemma byte_field pos : 0 <= pos < Z.of_nat (length bits) -> at_index bits pos = Ok (field (8 * pos) 8).
Proof.
  intros Hp. pose proof (load_field 1 pos ltac:(lia) ltac:(lia)) as Hl. unfold load, at_index in *.
  destruct (Z.ltb_spec pos 0); [lia|]. destruct (Z.ltb_spec (Z.of_nat (length bits)) (pos + Z.of_nat 1)); [lia|]. cbn [orb] in Hl.
  destruct (lookup_lt_is_Some_2 bits (Z.to_nat pos)) as [x Hx]; [lia|]. rewrite (drop_S bits x _ Hx) in Hl. cbn [take] in Hl. rewrite Hx.
  injection Hl as Hl. change (8 * Z.of_nat 1) with 8 in Hl. rewrite <- Hl. unfold be_combine. rewrite take_0. cbn [rev app le_combine]. f_equal. lia.
Qed.

(** ** The reference decoder *)

Fixpoint unpack (deltaDiff : bool) (w p prev : Z) (k : nat) : list Z :=
  match k with
  | O => []
  | S k => let v := emit deltaDiff prev (field p w) in v :: unpack deltaDiff w (p + w) v k
  end.

Definition last_of (prev : Z) (l : list Z) : Z := default prev (last l).

Lemma unpack_app deltaDiff w k1 k2 : forall p prev,
  unpack deltaDiff w p prev (k1 + k2)
  = unpack deltaDiff w p prev k1 ++ unpack deltaDiff w (p + Z.of_nat k1 * w) (last_of prev (unpack deltaDiff w p prev k1)) k2.
Proof.
  induction k1 as [|k1 IH]; intros p prev; cbn [unpack app Nat.add].
  - cbn. f_equal. lia.
  - f_equal. rewrite IH. f_equal. f_equal; [lia|]. unfold last_of. rewrite last_cons. by destruct (last _).
Qed.

Lemma length_unpack deltaDiff w k : forall p prev, length (unpack deltaDiff w p prev k) = k.
Proof. induction k as [|k IH]; intros p prev; cbn [unpack length]; [done|]. by rewrite IH. Qed.

(** The number of whole fields from [p] on, at most [n] *)
Definition fields_left (n : nat) (w p : Z) : nat := Nat.min n (Z.to_nat ((size - p) / w)).
(** ** Writing into the slice *)

Lemma set_here pre x (post : list Z) v : set_index (pre ++ x :: post) (Z.of_nat (length pre)) v = Ok ((pre ++ [v]) ++ post).
Proof.
  unfold set_index. rewrite (proj2 (Z.ltb_ge _ _)), (proj2 (Z.leb_gt _ _)) by (rewrite ?length_app; cbn; lia). cbn [orb].
  rewrite Nat2Z.id, insert_app_r_alt, Nat.sub_diag by lia. cbn. by rewrite <- app_assoc.
Qed.

Lemma fields_left_step n w p : 0 < w -> p + w <= size -> fields_left (S n) w p = S (fields_left n w (p + w)).
Proof.
  intros Hw Hp. unfold fields_left. replace (size - p) with (size - (p + w) + 1 * w) by lia. rewrite Z.div_add by lia.
  assert (0 <= (size - (p + w)) / w) by (apply Z.div_pos; lia). rewrite Z2Nat.inj_add by lia. change (Z.to_nat 1) with 1%nat. lia.
Qed.

Lemma fields_left_none n w p : 0 < w -> size < p + w -> fields_left n w p = 0%nat.
Proof.
  intros Hw Hp. unfold fields_left. assert ((size - p) / w <= 0); [|lia].
  destruct (Z.le_gt_cases p size); [rewrite Z.div_small by lia; lia|]. apply Z.div_le_upper_bound; lia.
Qed.

Lemma fields_left_app m n w p : 0 < w -> (m <= n)%nat -> p + Z.of_nat m * w <= size ->
  fields_left n w p = (m + fields_left (n - m) w (p + Z.of_nat m * w))%nat.
Proof.
  revert n p. induction m as [|m IH]; intros n p Hw Hmn Hp; [rewrite Nat.sub_0_r, Z.mul_0_l, Z.add_0_r; done|].
  destruct n as [|n]; [lia|]. rewrite fields_left_step, (IH n) by lia. cbn [Nat.add Nat.sub]. do 2 f_equal. f_equal. lia.
Qed.

(** ** The reservoir *)

Record res_ok (p : Z) (r : reservoir) : Prop := {
  ro_start : 0 <= p;
  ro_pos : 8 * rs_pos r = p + rs_avail r;
  ro_avail : 0 <= rs_avail r <= 64;
  ro_end : rs_pos r <= Z.of_nat (length bits);
  ro_buf : forall j, 0 <= j -> Z.testbit (rs_buf r) j = (64 - rs_avail r <=? j) && (j <? 64) && sbit (p + 63 - j) }.

Lemma u64_shiftl_bits v s j : 0 <= s -> 0 <= j -> Z.testbit (u64 (Z.shiftl v s)) j = (j <? 64) && (s <=? j) && Z.testbit v (j - s).
Proof.
  intros Hs Hj. unfold u64. destruct (Z.ltb_spec j 64); [|by rewrite Z.mod_pow2_bits_high by lia].
  rewrite Z.mod_pow2_bits_low, Z.shiftl_spec by lia. destruct (Z.leb_spec s j); [done|]. by rewrite Z.testbit_neg_r by lia.
Qed.

Ltac bits_cases :=
  repeat match goal with
  | |- context [?a <? ?b] => destruct (Z.ltb_spec a b); try lia
  | |- context [?a <=? ?b] => destruct (Z.leb_spec a b); try lia
  end; cbn [andb orb]; try done.

Lemma res_refill p r n :
  res_ok p r -> rs_avail r + 8 * n <= 64 -> 0 < n -> rs_pos r + n <= Z.of_nat (length bits) ->
  res_ok p (Reservoir (Z.lor (rs_buf r) (u64 (Z.shiftl (field (8 * rs_pos r) (8 * n)) (64 - 8 * n - rs_avail r)))) (rs_avail r + 8 * n) (rs_pos r + n)).
Proof.
  intros [H0 H1 H2 H3 H4] Ha Hn Hend. split; cbn [rs_buf rs_avail rs_pos]; [lia..|]. intros j Hj.
  rewrite Z.lor_spec, H4, u64_shiftl_bits by lia. destruct (Z.leb_spec (64 - 8 * n - rs_avail r) j).
  - rewrite field_bits by lia. replace (8 * rs_pos r + 8 * n - 1 - (j - (64 - 8 * n - rs_avail r))) with (p + 63 - j) by lia.
    bits_cases; by rewrite ?orb_false_r, ?andb_true_r.
  - bits_cases.
Qed.

Lemma extract_spec p r bnu :
  res_ok p r -> 0 < bnu <= rs_avail r ->
  (extract bnu r).1 = field p bnu /\ res_ok (p + bnu) (extract bnu r).2 /\ rs_pos (extract bnu r).2 = rs_pos r.
Proof.
  intros [H0 H1 H2 H3 H4] Hb. unfold extract. cbn [fst snd]. split_and!; [|split; cbn [rs_buf rs_avail rs_pos]; [lia..|]|done].
  - apply Z.bits_inj'. intros j Hj. rewrite Z.shiftr_spec, H4, field_bits by lia.
    replace (p + 63 - (j + (64 - bnu))) with (p + bnu - 1 - j) by lia. bits_cases.
  - intros j Hj. rewrite u64_shiftl_bits by lia. destruct (Z.leb_spec bnu j); [|bits_cases].
    rewrite H4 by lia. replace (p + 63 - (j - bnu)) with (p + bnu + 63 - j) by lia. bits_cases.
Qed.
(** A turn of each loop: one more field *)
Lemma unpack_snoc deltaDiff w p prev pre (post : list Z) k :
  (pre ++ [emit deltaDiff prev (field p w)]) ++ unpack deltaDiff w (p + w) (emit deltaDiff prev (field p w)) k ++ post
  = pre ++ unpack deltaDiff w p prev (S k) ++ post.
Proof. cbn [unpack]. by rewrite <- app_assoc. Qed.

Lemma decode_words_spec deltaDiff bnu post : forall pre prev r p,
  res_ok p r -> 0 < bnu <= 32 ->
  exists m r', (m <= length post)%nat /\ res_ok (p + Z.of_nat m * bnu) r' /\ (Z.of_nat m < Z.of_nat (length post) -> rs_avail r' < bnu) /\
    decode_words (length post) deltaDiff bits bnu (pre ++ post) (Z.of_nat (length pre)) prev r
    = Ok (pre ++ unpack deltaDiff bnu p prev m ++ drop m post, Z.of_nat (length pre + m), last_of prev (unpack deltaDiff bnu p prev m), r').
Proof.
  induction post as [|x post IH]; intros pre prev r p Hr Hb.
  { exists 0%nat, r. rewrite Z.mul_0_l, Z.add_0_r, Nat.add_0_r. cbn [decode_words length unpack drop app]. split_and!; [lia|done|cbn; lia|done]. }
  cbn [decode_words length].
  assert (Hfill : refill_word bits bnu r = Ok None /\ rs_avail r < bnu \/
    exists r1, refill_word bits bnu r = Ok (Some r1) /\ res_ok p r1 /\ bnu <= rs_avail r1).
  { unfold refill_word. destruct (Z.ltb_spec (rs_avail r) bnu); [|right; by exists r]. pose proof Hr as [? ? ? ? ?].
    destruct (Z.ltb_spec (Z.of_nat (length bits)) (rs_pos r + 4)); [by left|right].
    rewrite load_field by lia. cbn [obind]. eexists. split; [done|]. cbn [rs_avail]. split; [|lia].
    pose proof (res_refill p r 4 Hr ltac:(lia) ltac:(lia) ltac:(lia)) as H'. exact H'. }
  destruct Hfill as [[-> Hlt]|(r1 & -> & Hr1 & Hav)]; cbn [obind].
  { exists 0%nat, r. rewrite Z.mul_0_l, Z.add_0_r, Nat.add_0_r. cbn [unpack drop app]. split_and!; [lia|done|done|done]. }
  destruct (extract_spec p r1 bnu Hr1 ltac:(lia)) as (Hd & Hr2 & _). destruct (extract bnu r1) as [d r2]. cbn [fst snd] in *. subst d.
  rewrite set_here. cbn [obind]. set (v := emit deltaDiff prev (field p bnu)).
  destruct (IH (pre ++ [v]) v r2 (p + bnu) Hr2 Hb) as (m & r' & Hm & Hr' & Hstop & E). exists (S m), r'.
  replace (p + Z.of_nat (S m) * bnu) with (p + bnu + Z.of_nat m * bnu) by lia. split_and!; [lia|done|intros; apply Hstop; lia|].
  replace (Z.of_nat (length pre) + 1) with (Z.of_nat (length (pre ++ [v]))) by (rewrite length_app; cbn [length]; lia).
  rewrite E, <- unpack_snoc. fold v. cbn [drop].
  replace (last_of prev (unpack deltaDiff bnu p prev (S m))) with (last_of v (unpack deltaDiff bnu (p + bnu) v m))
    by (cbn [unpack]; fold v; unfold last_of; rewrite last_cons; by destruct (last _)).
  by replace (length pre + S m)%nat with (length (pre ++ [v]) + m)%nat by (rewrite length_app; cbn [length]; lia).
Qed.

Lemma refill_bytes_spec bnu turns : forall p r,
  res_ok p r -> 0 < bnu <= 32 -> bnu <= rs_avail r + 8 * Z.of_nat turns ->
  (refill_bytes turns bits bnu r = Ok None /\ size < p + bnu) \/
  exists r1, refill_bytes turns bits bnu r = Ok (Some r1) /\ res_ok p r1 /\ bnu <= rs_avail r1.
Proof.
  induction turns as [|turns IH]; intros p r Hr Hb Ht; pose proof Hr as [H0 H1 H2 H3 _];
    cbn [refill_bytes]; (destruct (Z.ltb_spec (rs_avail r) bnu); [|right; by exists r]).
  { lia. }
  destruct (Z.leb_spec (Z.of_nat (length bits)) (rs_pos r)); [left; split; [done|lia]|].
  rewrite byte_field by lia. cbn [obind]. pose proof (res_refill p r 1 Hr ltac:(lia) ltac:(lia) ltac:(lia)) as Hr1.
  change (64 - 8 * 1) with 56 in Hr1. change (8 * 1) with 8 in Hr1. apply IH; [exact Hr1|done|]. cbn [rs_avail]. lia.
Qed.

Lemma decodeTail_spec deltaDiff bnu post : forall pre prev r p,
  res_ok p r -> 0 < bnu <= 32 ->
  decodeTail (length post) deltaDiff bits bnu (pre ++ post) (Z.of_nat (length pre)) prev r
  = Ok (pre ++ unpack deltaDiff bnu p prev (fields_left (length post) bnu p) ++ drop (fields_left (length post) bnu p) post).
Proof.
  induction post as [|x post IH]; intros pre prev r p Hr Hb; [done|]. cbn [decodeTail length].
  destruct (refill_bytes_spec bnu 8 p r Hr Hb) as [[-> Hlt]|(r1 & -> & Hr1 & Hav)]; [pose proof (ro_avail _ _ Hr); lia|..]; cbn [obind].
  { by rewrite fields_left_none by lia. }
  destruct (extract_spec p r1 bnu Hr1 ltac:(lia)) as (Hd & Hr2 & _). destruct (extract bnu r1) as [d r2]. cbn [fst snd] in *. subst d.
  rewrite set_here. cbn [obind]. set (v := emit deltaDiff prev (field p bnu)).
  replace (Z.of_nat (length pre) + 1) with (Z.of_nat (length (pre ++ [v]))) by (rewrite length_app; cbn [length]; lia).
  rewrite (IH (pre ++ [v]) v r2 (p + bnu) Hr2 Hb). rewrite fields_left_step by (destruct Hr1; lia). unfold v. by rewrite unpack_snoc.
Qed.
Lemma land_ones_bits v n j : 0 <= n -> 0 <= j -> Z.testbit (Z.land v (Z.ones n)) j = (j <? n) && Z.testbit v j.
Proof. intros Hn Hj. rewrite Z.land_spec, Z.testbit_ones_nonneg by lia. apply andb_comm. Qed.

Lemma res_first : bits <> [] -> res_ok 6 (Reservoir (u64 (Z.shiftl (Z.land (field 0 8) 3) 62)) 2 1).
Proof.
  intros Hne. assert (1 <= Z.of_nat (length bits)) by (destruct bits; [done|cbn [length]; lia]).
  split; cbn [rs_buf rs_avail rs_pos]; [lia..|]. intros j Hj. rewrite u64_shiftl_bits by lia. destruct (Z.leb_spec 62 j); [|bits_cases].
  change 3 with (Z.ones 2). rewrite land_ones_bits, field_bits by lia.
  replace (0 + 8 - 1 - (j - 62)) with (6 + 63 - j) by lia. bits_cases.
Qed.

Lemma decode_narrow_spec deltaDiff bnu first post :
  bits <> [] -> 0 < bnu <= 32 ->
  decode_narrow (Z.of_nat (S (length post))) deltaDiff bits bnu (first :: post)
  = Ok (first :: unpack deltaDiff bnu 6 first (fields_left (length post) bnu 6) ++ drop (fields_left (length post) bnu 6) post).
Proof.
  intros Hne Hb. unfold decode_narrow. rewrite byte_field by (destruct bits; [done|cbn [length]; lia]). cbn [obind]. change (at_index (first :: post) 0) with (Ok (E := Empty_set) first). cbn [obind].
  destruct (decode_words_spec deltaDiff bnu post [first] first _ 6 (res_first Hne) Hb) as (m & r & Hm & Hr & _ & E).
  replace (Z.to_nat (Z.of_nat (S (length post)) - 1)) with (length post) by lia. cbn [app length] in E. change (Z.of_nat 1) with 1 in E.
  change (8 * 0) with 0. rewrite E. cbn [obind]. set (u := unpack deltaDiff bnu 6 first m) in *.
  assert (Hu : length u = m) by apply length_unpack.
  replace (Z.to_nat (Z.of_nat (S (length post)) - Z.of_nat (1 + m))) with (length (drop m post)) by (rewrite length_drop; lia).
  pose proof (decodeTail_spec deltaDiff bnu (drop m post) (first :: u) (last_of first u) r _ Hr Hb) as Ht.
  cbn [app length] in Ht. rewrite Hu in Ht. change (Z.of_nat (S m)) with (Z.of_nat (1 + m)) in Ht. rewrite Ht, length_drop, drop_drop.
  rewrite (fields_left_app m (length post)) by (try lia; destruct Hr; lia). f_equal. rewrite unpack_app. fold u. by rewrite <- app_assoc.
Qed.

(** ** Wide fields *)

Lemma decode_fast_spec deltaDiff bnu k : forall pre post prev p,
  0 <= p -> 0 < bnu <= 57 -> (k <= length post)%nat ->
  (forall t, 0 <= t < Z.of_nat k -> (p + t * bnu) / 8 + 8 <= Z.of_nat (length bits)) ->
  decode_fast k deltaDiff bits bnu (pre ++ post) (Z.of_nat (length pre)) prev p
  = Ok (pre ++ unpack deltaDiff bnu p prev k ++ drop k post, last_of prev (unpack deltaDiff bnu p prev k), p + Z.of_nat k * bnu).
Proof.
  induction k as [|k IH]; intros pre post prev p Hp Hb Hk Hin; cbn [decode_fast].
  { cbn [unpack app drop]. rewrite Z.mul_0_l, Z.add_0_r. done. }
  destruct post as [|x post]; cbn [length] in Hk; [lia|]. specialize (Hin 0 ltac:(lia)) as H0. rewrite Z.mul_0_l, Z.add_0_r in H0.
  rewrite Z.shiftr_div_pow2 by lia. change (2 ^ 3) with 8. change 7 with (Z.ones 3). rewrite Z.land_ones by lia. change (2 ^ 3) with 8.
  pose proof (Z.div_mod p 8 ltac:(lia)) as Hdm. pose proof (Z.mod_pos_bound p 8 ltac:(lia)) as Hm. pose proof (Z.div_pos p 8 Hp ltac:(lia)).
  rewrite load_field by lia. cbn [obind]. change (8 * Z.of_nat 8) with 64.
  assert (Hd : Z.land (Z.shiftr (field (8 * (p / 8)) 64) (64 - p mod 8 - bnu)) (Z.ones bnu) = field p bnu).
  { apply Z.bits_inj'. intros j Hj. rewrite land_ones_bits, Z.shiftr_spec, !field_bits by lia.
    replace (8 * (p / 8) + 64 - 1 - (j + (64 - p mod 8 - bnu))) with (p + bnu - 1 - j) by lia. bits_cases. }
  rewrite Hd, set_here. cbn [obind]. set (v := emit deltaDiff prev (field p bnu)).
  replace (Z.of_nat (length pre) + 1) with (Z.of_nat (length (pre ++ [v]))) by (rewrite length_app; cbn [length]; lia).
  rewrite (IH (pre ++ [v]) post v (p + bnu)); [|lia|lia|lia|].
  - rewrite <- unpack_snoc. fold v. cbn [drop].
    replace (last_of prev (unpack deltaDiff bnu p prev (S k))) with (last_of v (unpack deltaDiff bnu (p + bnu) v k))
      by (cbn [unpack]; fold v; unfold last_of; rewrite last_cons; by destruct (last _)).
    by replace (p + bnu + Z.of_nat k * bnu) with (p + Z.of_nat (S k) * bnu) by lia.
  - intros t Ht. specialize (Hin (t + 1) ltac:(lia)). by replace (p + bnu + t * bnu) with (p + (t + 1) * bnu) by lia.
Qed.

(** The last fields byte by byte. Up to 57 bits wide, and 58 bits wide at even positions, a field and the rest of its
    last byte fit into the buffer. *)
Definition slow_width (bnu p : Z) : Prop := 0 < bnu <= 57 \/ bnu = 58 /\ p mod 2 = 0.

Record slow_ok (p bitBuffer bitsLeft bytePos : Z) : Prop := {
  so_start : 0 <= p;
  so_pos : 8 * bytePos = p + bitsLeft;
  so_left : 0 <= bitsLeft <= 64;
  so_end : bytePos <= Z.of_nat (length bits);
  so_buf : forall j, 0 <= j < bitsLeft -> Z.testbit bitBuffer j = sbit (p + bitsLeft - 1 - j) }.

Lemma fill_slow_spec bnu turns : forall p buf left0 pos,
  slow_ok p buf left0 pos -> slow_width bnu p -> bnu <= left0 + 8 * Z.of_nat turns ->
  (fill_slow turns bits bnu buf left0 pos = Ok None /\ size < p + bnu) \/
  exists buf' left' pos', fill_slow turns bits bnu buf left0 pos = Ok (Some (buf', left', pos')) /\ slow_ok p buf' left' pos' /\ bnu <= left'.
Proof.
  induction turns as [|turns IH]; intros p buf left0 pos Hs Hb Ht; pose proof Hs as [H0 H1 H2 H3 H4];
    cbn [fill_slow]; (destruct (Z.ltb_spec left0 bnu); [|right; by exists buf, left0, pos]).
  { lia. }
  destruct (Z.leb_spec (Z.of_nat (length bits)) pos); [left; split; [done|lia]|].
  assert (left0 <= 56) by (destruct Hb as [|[-> He]]; [lia|pose proof (Z.div_mod p 2); lia]).
  rewrite byte_field by lia. cbn [obind]. apply IH; [|done|lia]. split; [lia..|]. intros j Hj.
  rewrite Z.lor_spec, u64_shiftl_bits, field_bits by lia. destruct (Z.leb_spec 8 j).
  - rewrite H4 by lia. replace (p + (left0 + 8) - 1 - j) with (p + left0 - 1 - (j - 8)) by lia. bits_cases. by rewrite orb_false_r.
  - replace (8 * pos + 8 - 1 - j) with (p + (left0 + 8) - 1 - j) by lia. bits_cases.
Qed.

Lemma at_index_last pre x (post : list Z) : at_index ((pre ++ [x]) ++ post) (Z.of_nat (length (pre ++ [x])) - 1) = Ok x.
Proof.
  unfold at_index. rewrite length_app. cbn [length]. rewrite (proj2 (Z.ltb_ge _ _)) by lia.
  replace (Z.to_nat (Z.of_nat (length pre + 1) - 1)) with (length pre) by lia. rewrite <- app_assoc. cbn [app]. by rewrite list_lookup_middle.
Qed.

Lemma slow_next p buf left0 pos bnu :
  slow_ok p buf left0 pos -> 0 < bnu <= left0 ->
  Z.land (Z.shiftr buf (left0 - bnu)) (Z.ones bnu) = field p bnu /\ slow_ok (p + bnu) buf (left0 - bnu) pos.
Proof.
  intros [H0 H1 H2 H3 H4] Hb. split; [|split; [lia..|]; intros j Hj; rewrite H4 by lia; f_equal; lia].
  apply Z.bits_inj'. intros j Hj. rewrite land_ones_bits, Z.shiftr_spec, field_bits by lia.
  destruct (Z.ltb_spec j bnu); cbn [andb]; [|done]. rewrite H4 by lia. f_equal. lia.
Qed.

Lemma decode_slow_spec deltaDiff bnu post : forall pre prev buf left0 pos p,
  slow_ok p buf left0 pos -> slow_width bnu p ->
  decode_slow (length post) deltaDiff bits bnu ((pre ++ [prev]) ++ post) (Z.of_nat (length (pre ++ [prev]))) buf left0 pos
  = Ok ((pre ++ [prev]) ++ unpack deltaDiff bnu p prev (fields_left (length post) bnu p) ++ drop (fields_left (length post) bnu p) post).
Proof.
  induction post as [|x post IH]; intros pre prev buf left0 pos p Hs Hb; [done|]. cbn [decode_slow length].
  assert (Hbnu : 0 < bnu <= 58) by (unfold slow_width in Hb; lia).
  destruct (fill_slow_spec bnu 8 p buf left0 pos Hs Hb) as [[-> Hlt]|(buf' & left' & pos' & -> & Hs' & Hav)];
    [pose proof (so_left _ _ _ _ Hs); lia|..]; cbn [obind].
  { by rewrite fields_left_none by lia. }
  destruct (slow_next p buf' left' pos' bnu Hs' ltac:(lia)) as [-> Hs2]. rewrite set_here. cbn [obind].
  set (v := emit deltaDiff prev (field p bnu)).
  assert (Hv : (if deltaDiff then
      let! prev0 := at_index (((pre ++ [prev]) ++ [field p bnu]) ++ post) (Z.of_nat (length (pre ++ [prev])) - 1) in
      set_index (((pre ++ [prev]) ++ [field p bnu]) ++ post) (Z.of_nat (length (pre ++ [prev]))) (u64 (field p bnu + prev0))
    else Ok (((pre ++ [prev]) ++ [field p bnu]) ++ post)) = Ok (((pre ++ [prev]) ++ [v]) ++ post)).
  { unfold v, emit. destruct deltaDiff; [|done]. rewrite <- (app_assoc (pre ++ [prev])), at_index_last. cbn [obind app]. by rewrite set_here, (Z.add_comm prev). }
  rewrite Hv. cbn [obind].
  replace (Z.of_nat (length (pre ++ [prev])) + 1) with (Z.of_nat (length ((pre ++ [prev]) ++ [v]))) by (rewrite (length_app _ [v]); cbn [length]; lia).
  rewrite (IH (pre ++ [prev]) v buf' (left' - bnu) pos' (p + bnu) Hs2).
  - rewrite fields_left_step by (destruct Hs'; lia). unfold v. by rewrite unpack_snoc.
  - destruct Hb as [|[-> He]]; [by left|right]. split; [done|]. rewrite <- He, Z.add_mod by lia. by rewrite Z.add_0_r, Z.mod_mod by lia.
Qed.

Lemma last_unpack deltaDiff w k p prev pre :
  exists pre', pre ++ prev :: unpack deltaDiff w p prev k = pre' ++ [last_of prev (unpack deltaDiff w p prev k)].
Proof.
  unfold last_of. set (u := unpack _ _ _ _ _). destruct u as [|x u _] using rev_ind; [by exists pre|].
  exists (pre ++ prev :: u). rewrite last_snoc. cbn [default]. by rewrite <- app_assoc.
Qed.

(** Every load of the fast part is inside the data. *)
Lemma fast_end_spec (n : nat) bnu :
  bits <> [] -> 0 < bnu ->
  exists k : nat, fast_end (Z.of_nat (S n)) bnu (Z.of_nat (length bits)) = 1 + Z.of_nat k /\ (k <= n)%nat /\ (k = 0%nat \/ bnu <= 57) /\
    6 + Z.of_nat k * bnu <= size /\ forall t, 0 <= t < Z.of_nat k -> (6 + t * bnu) / 8 + 8 <= Z.of_nat (length bits).
Proof.
  intros Hne Hb. assert (1 <= Z.of_nat (length bits)) by (destruct bits; [done|cbn [length]; lia]).
  unfold fast_end. destruct (Z.leb_spec bnu 57), (Z.leb_spec 8 (Z.of_nat (length bits))); cbn [andb];
    try (exists 0%nat; split_and!; lia).
  rewrite Z.quot_div_nonneg by lia. set (q := (8 * Z.of_nat (length bits) - 63) / bnu).
  assert (Hq : bnu * q <= 8 * Z.of_nat (length bits) - 63) by (apply Z.mul_div_le; lia).
  assert (0 <= q) by (apply Z.div_pos; lia). exists (Z.to_nat (Z.min (2 + q) (Z.of_nat (S n)) - 1)).
  set (k := Z.min (2 + q) (Z.of_nat (S n)) - 1). assert (0 <= k <= 1 + q) by lia. rewrite Z2Nat.id by lia.
  assert (Hsafe : forall t, 0 <= t <= q -> 6 + t * bnu <= 8 * Z.of_nat (length bits) - 57).
  { intros t Ht. transitivity (6 + bnu * q); [|lia]. rewrite (Z.mul_comm bnu). apply Z.add_le_mono_l, Z.mul_le_mono_nonneg_r; lia. }
  split_and!; [lia|lia|by right| |].
  - destruct (Z.eq_dec k 0) as [->|]; [lia|]. specialize (Hsafe (k - 1) ltac:(lia)). lia.
  - intros t Ht. specialize (Hsafe t ltac:(lia)). pose proof (Z.div_le_mono _ _ 8 ltac:(lia) Hsafe) as Hd.
    replace (8 * Z.of_nat (length bits) - 57) with (7 + (Z.of_nat (length bits) - 8) * 8) in Hd by lia. rewrite Z.div_add in Hd by lia.
    change (7 / 8) with 0 in Hd. lia.
Qed.

Lemma slow_first p : 0 <= p -> p / 8 < Z.of_nat (length bits) -> slow_ok p (Z.land (field (8 * (p / 8)) 8) (Z.ones (8 - p mod 8))) (8 - p mod 8) (p / 8 + 1).
Proof.
  intros Hp Hlt. pose proof (Z.div_mod p 8 ltac:(lia)). pose proof (Z.mod_pos_bound p 8 ltac:(lia)). pose proof (Z.div_pos p 8 Hp ltac:(lia)).
  split; [lia..|]. intros j Hj. rewrite land_ones_bits, field_bits by lia.
  replace (8 * (p / 8) + 8 - 1 - j) with (p + (8 - p mod 8) - 1 - j) by lia. bits_cases.
Qed.

Lemma decode_wide_spec deltaDiff bnu first post :
  bits <> [] -> 0 < bnu <= 58 ->
  decode_wide (Z.of_nat (S (length post))) deltaDiff bits bnu (first :: post)
  = Ok (first :: unpack deltaDiff bnu 6 first (fields_left (length post) bnu 6) ++ drop (fields_left (length post) bnu 6) post).
Proof.
  intros Hne Hb. unfold decode_wide. change (at_index (first :: post) 0) with (Ok (E := Empty_set) first). cbn [obind].
  destruct (fast_end_spec (length post) bnu Hne ltac:(lia)) as (k & -> & Hk & Hw & Hend & Hin).
  replace (Z.to_nat (1 + Z.of_nat k - 1)) with k by lia. set (u := unpack deltaDiff bnu 6 first k) in *.
  assert (Hfast : decode_fast k deltaDiff bits bnu (first :: post) 1 first 6 = Ok (first :: u ++ drop k post, last_of first u, 6 + Z.of_nat k * bnu)).
  { destruct Hw as [->|Hw]; [unfold u; by cbn|].
    apply (decode_fast_spec deltaDiff bnu k [first] post first 6); [lia|lia|done|done]. }
  rewrite Hfast. cbn [obind]. rewrite (fields_left_app k (length post)) by lia. set (p := 6 + Z.of_nat k * bnu) in *.
  rewrite unpack_app. fold u. fold p. rewrite <- drop_drop. assert (Hp : 0 <= p) by (unfold p; nia).
  destruct (last_unpack deltaDiff bnu k 6 first []) as [pre Hpre]. fold u in Hpre. cbn [app] in Hpre.
  assert (Hlen : length (pre ++ [last_of first u]) = S k) by (rewrite <- Hpre; cbn [length]; unfold u; by rewrite length_unpack).
  destruct (Z.leb_spec (Z.of_nat (S (length post))) (1 + Z.of_nat k)).
  { replace (length post - k)%nat with 0%nat by lia. cbn. by rewrite app_nil_r. }
  rewrite Z.shiftr_div_pow2 by lia. change (2 ^ 3) with 8.
  destruct (Z.leb_spec (Z.of_nat (length bits)) (p / 8)) as [Hle|Hlt].
  { rewrite fields_left_none; [cbn; by rewrite app_nil_r|lia|]. pose proof (Z.mul_div_le p 8 ltac:(lia)). lia. }
  change 7 with (Z.ones 3). rewrite Z.land_ones by lia. change (2 ^ 3) with 8. pose proof (Z.div_pos p 8 Hp ltac:(lia)).
  rewrite byte_field by lia. cbn [obind].
  replace (Z.to_nat (Z.of_nat (S (length post)) - (1 + Z.of_nat k))) with (length (drop k post)) by (rewrite length_drop; lia).
  replace (1 + Z.of_nat k) with (Z.of_nat (length (pre ++ [last_of first u]))) by lia.
  replace (first :: u ++ drop k post) with ((pre ++ [last_of first u]) ++ drop k post) by (by rewrite <- Hpre).
  rewrite (decode_slow_spec deltaDiff bnu (drop k post) pre (last_of first u) _ _ _ p (slow_first p Hp Hlt)), length_drop, <- Hpre.
  - cbn [app]. by rewrite <- app_assoc.
  - unfold slow_width. destruct (Z.le_gt_cases bnu 57); [left; lia|right]. destruct Hw as [->|]; [|lia]. split; [lia|done].
Qed.
End fields.

(** * The decoder reads the fields *)

(** The reference decoder: the fields that are in the data, one after the other; the rest of the slice as it was *)
Definition reference_decode (deltas packed : list Z) (deltaDiff : bool) : list Z :=
  match deltas with
  | [] => []
  | _ :: post =>
      if Z.of_nat (length packed) <? 9 then deltas
      else
        let first := be_combine (take 8 packed) in
        let bits := drop 8 packed in
        let w := field bits 0 6 in
        if w =? 0 then first :: post
        else
          let k := fields_left bits (length post) w 6 in
          first :: unpack bits deltaDiff w 6 first k ++ drop k post
  end.

Lemma header_width bits : Forall is_byte bits -> bits <> [] -> Z.land (Z.shiftr (field bits 0 8) 2) 0x3F = field bits 0 6.
Proof.
  intros Hb Hne. assert (1 <= Z.of_nat (length bits)) by (destruct bits; [done|cbn [length]; lia]).
  apply Z.bits_inj'. intros j Hj. change 0x3F with (Z.ones 6).
  rewrite land_ones_bits, Z.shiftr_spec, !field_bits by lia.
  replace (0 + 8 - 1 - (j + 2)) with (0 + 6 - 1 - j) by lia.
  destruct (Z.ltb_spec j 6), (Z.ltb_spec (j + 2) 8); try lia; done.
Qed.

(** The steps before the fields are read *)
Lemma decode_start deltaDiff x post packed :
  Forall is_byte packed -> 9 <= Z.of_nat (length packed) ->
  let bits := drop 8 packed in
  let first := be_combine (take 8 packed) in
  let w := field bits 0 6 in
  decodeReusable (x :: post) packed deltaDiff
  = if (Z.of_nat (length (x :: post)) =? 1) || (w =? 0) then Ok (first :: post)
    else if w <=? 32 then decode_narrow (Z.of_nat (S (length post))) deltaDiff bits w (first :: post)
    else decode_wide (Z.of_nat (S (length post))) deltaDiff bits w (first :: post).
Proof.
  intros Hb Hlen bits first w. unfold decodeReusable. rewrite (proj2 (Z.ltb_ge _ _)) by lia.
  rewrite (proj2 (Z.eqb_neq _ 0)) by (cbn [length]; lia). unfold load. change (0 <? 0) with false. rewrite (proj2 (Z.ltb_ge _ _)) by lia. cbn [orb obind].
  change (Z.to_nat 0) with 0%nat. rewrite drop_0. fold first.
  change (set_index (x :: post) 0 first) with (set_index ([] ++ x :: post) (Z.of_nat (length (@nil Z))) first). rewrite set_here. cbn [obind app].
  destruct (Z.of_nat (length (x :: post)) =? 1); cbn [orb]; [done|].
  assert (Hne : bits <> []) by (intros E; apply (f_equal length) in E; unfold bits in E; rewrite length_drop in E; cbn in E; lia).
  assert (Hbb : Forall is_byte bits) by (by apply Forall_drop).
  assert (Hat : at_index packed 8 = Ok (field bits 0 8)).
  { change (field bits 0 8) with (field bits (8 * 0) 8). rewrite <- (byte_field bits Hbb 0) by (destruct bits; [done|cbn [length]; lia]). unfold at_index, bits. change (Z.to_nat 8) with 8%nat.
    change (Z.to_nat 0) with 0%nat. rewrite lookup_drop. done. }
  rewrite Hat. cbn [obind]. rewrite (header_width bits Hbb Hne). fold w.
  pose proof (field_range bits 0 6 ltac:(lia)) as Hw. fold w in Hw. rewrite (proj2 (Z.ltb_ge 64 _)) by lia. rewrite orb_false_r. done.
Qed.

Lemma decode_reference deltaDiff deltas packed :
  Forall is_byte packed -> field (drop 8 packed) 0 6 <= 58 ->
  decodeReusable deltas packed deltaDiff = Ok (reference_decode deltas packed deltaDiff).
Proof.
  intros Hb Hw. destruct (Z.lt_ge_cases (Z.of_nat (length packed)) 9) as [Hlt|Hge].
  { unfold decodeReusable, reference_decode. rewrite (proj2 (Z.ltb_lt _ _)) by lia. by destruct deltas. }
  destruct deltas as [|x post]; [unfold decodeReusable; rewrite (proj2 (Z.ltb_ge _ _)) by lia; done|].
  rewrite decode_start by done. unfold reference_decode. rewrite (proj2 (Z.ltb_ge _ _)) by lia.
  set (bits := drop 8 packed) in *. set (w := field bits 0 6) in *. pose proof (field_range bits 0 6 ltac:(lia)) as Hr. fold w in Hr.
  assert (Hbb : Forall is_byte bits) by (by apply Forall_drop).
  assert (Hne : bits <> []) by (intros E; apply (f_equal length) in E; unfold bits in E; rewrite length_drop in E; cbn in E; lia).
  destruct (Z.eqb_spec w 0); [by rewrite orb_true_r|]. rewrite orb_false_r.
  destruct (Z.eqb_spec (Z.of_nat (length (x :: post))) 1) as [E1|_].
  { destruct post; cbn [length] in E1; [|lia]. unfold fields_left. cbn [length]. by rewrite Nat.min_0_l. }
  destruct (Z.leb_spec w 32); [apply decode_narrow_spec|apply decode_wide_spec]; (done || lia).
Qed.

(** ** No input makes it panic *)

Lemma at_index_ok b i : 0 <= i < Z.of_nat (length b) -> exists x, at_index b i = Ok x.
Proof.
  intros Hi. unfold at_index. rewrite (proj2 (Z.ltb_ge _ _)) by lia.
  destruct (lookup_lt_is_Some_2 b (Z.to_nat i)) as [x ->]; [lia|]. by exists x.
Qed.

Lemma set_index_ok b i v : 0 <= i < Z.of_nat (length b) -> exists b', set_index b i v = Ok b' /\ length b' = length b.
Proof.
  intros Hi. unfold set_index. rewrite (proj2 (Z.ltb_ge _ _)), (proj2 (Z.leb_gt _ _)) by lia. cbn [orb].
  eexists. split; [done|]. apply length_insert.
Qed.

Lemma fill_slow_total bits bnu turns : forall buf left0 pos,
  0 <= pos -> bnu <= left0 + 8 * Z.of_nat turns ->
  fill_slow turns bits bnu buf left0 pos = Ok None \/
  exists buf' left' pos', fill_slow turns bits bnu buf left0 pos = Ok (Some (buf', left', pos')) /\ bnu <= left' /\ 0 <= pos'.
Proof.
  induction turns as [|turns IH]; intros buf left0 pos Hp Ht; cbn [fill_slow];
    (destruct (Z.ltb_spec left0 bnu); [|right; by exists buf, left0, pos]); [lia|].
  destruct (Z.leb_spec (Z.of_nat (length bits)) pos); [by left|].
  destruct (at_index_ok bits pos) as [b ->]; [lia|]. cbn [obind]. apply IH; lia.
Qed.

Lemma decode_slow_total deltaDiff bits bnu turns : forall deltas i buf left0 pos,
  0 <= pos -> 0 <= left0 -> bnu <= 64 -> 1 <= i -> i + Z.of_nat turns <= Z.of_nat (length deltas) ->
  exists out, decode_slow turns deltaDiff bits bnu deltas i buf left0 pos = Ok out /\ length out = length deltas.
Proof.
  induction turns as [|turns IH]; intros deltas i buf left0 pos Hp Hl Hb Hi Hin; cbn [decode_slow]; [by exists deltas|].
  destruct (fill_slow_total bits bnu 8 buf left0 pos Hp) as [->|(buf' & left' & pos' & -> & Hl' & Hp')]; [lia|by exists deltas|]. cbn [obind].
  set (d := Z.land _ _). destruct (set_index_ok deltas i d) as (d1 & -> & H1); [lia|]. cbn [obind].
  assert (Hd : exists d2, (if deltaDiff then let! prev := at_index d1 (i - 1) in set_index d1 i (u64 (d + prev)) else Ok d1) = Ok d2 /\ length d2 = length deltas).
  { destruct deltaDiff; [|by exists d1]. destruct (at_index_ok d1 (i - 1)) as [x ->]; [lia|]. cbn [obind].
    destruct (set_index_ok d1 i (u64 (d + x))) as (d2 & -> & H2); [lia|]. exists d2. split; [done|lia]. }
  destruct Hd as (d2 & -> & H2). cbn [obind]. rewrite <- H2. apply IH; lia.
Qed.

Lemma length_reference_decode deltas packed deltaDiff : length (reference_decode deltas packed deltaDiff) = length deltas.
Proof.
  unfold reference_decode. destruct deltas as [|x post]; [done|]. destruct (_ <? 9); [done|]. destruct (_ =? 0); [done|].
  cbn [length]. f_equal. rewrite length_app, length_unpack, length_drop. unfold fields_left. lia.
Qed.

Lemma decode_total deltaDiff deltas packed :
  Forall is_byte packed -> exists out, decodeReusable deltas packed deltaDiff = Ok out /\ length out = length deltas.
Proof.
  intros Hb. destruct (Z.le_gt_cases (field (drop 8 packed) 0 6) 58) as [Hw|Hw].
  { rewrite decode_reference by done. eexists. split; [done|]. apply length_reference_decode. }
  destruct (Z.lt_ge_cases (Z.of_nat (length packed)) 9) as [Hlt|Hge].
  { unfold decodeReusable. rewrite (proj2 (Z.ltb_lt _ _)) by lia. by exists deltas. }
  destruct deltas as [|x post]; [unfold decodeReusable; rewrite (proj2 (Z.ltb_ge _ _)) by lia; by exists []|].
  rewrite decode_start by done. set (bits := drop 8 packed) in *. set (w := field bits 0 6) in *.
  pose proof (field_range bits 0 6 ltac:(lia)) as Hr. fold w in Hr. destruct (_ || _); [by eexists|].
  rewrite (proj2 (Z.leb_gt _ _)) by lia. unfold decode_wide, fast_end. rewrite (proj2 (Z.leb_gt w 57)) by lia. cbn [andb].
  set (first := be_combine (take 8 packed)). change (at_index (first :: post) 0) with (Ok (E := Empty_set) first). cbn [obind].
  change (Z.to_nat (1 - 1)) with 0%nat. cbn [decode_fast obind]. destruct (_ <=? 1); [by eexists|].
  change (Z.shiftr 6 3) with 0. change (Z.land 6 7) with 6. assert (0 < Z.of_nat (length bits)) by (unfold bits; rewrite length_drop; lia).
  rewrite (proj2 (Z.leb_gt _ _)) by lia. destruct (at_index_ok bits 0) as [b ->]; [lia|]. cbn [obind].
  change (length (x :: post)) with (length (first :: post)). apply decode_slow_total; cbn [length]; lia.
Qed.

(** * The encoder writes the fields *)

Section writing.
Context (start : list Z).
Hypothesis Hstart : length start = 8%nat.

(** After the first value the buffer holds the number [v] of [n] bits, the last of them in the byte under construction;
    there is room for [room] bits more. *)
Record holds (v n room : Z) (w : writer) (full rest : list Z) : Prop := {
  h_packed : w_packed w = (start ++ full) ++ rest;
  h_index : w_index w = 8 + Z.of_nat (length full);
  h_bits : n = 8 * Z.of_nat (length full) + w_bitPos w;
  h_bytes : Forall is_byte full;
  h_pos : 0 <= w_bitPos w <= 8;
  h_byte : 0 <= w_byte w < 256;
  h_low : w_byte w mod 2 ^ (8 - w_bitPos w) = 0;
  h_value : v = be_combine full * 2 ^ w_bitPos w + w_byte w / 2 ^ (8 - w_bitPos w);
  h_room : room = 8 * Z.of_nat (length rest) - w_bitPos w }.

Lemma lor_disjoint a b q : 0 <= q -> a mod 2 ^ q = 0 -> 0 <= b < 2 ^ q -> Z.lor a b = a + b.
Proof.
  intros Hq Ha Hb. assert (Hl : Z.land a b = 0).
  { apply Z.bits_inj'. intros j Hj. rewrite Z.land_spec, Z.bits_0. destruct (Z.lt_ge_cases j q).
    - rewrite <- (Z.mod_pow2_bits_low a q j), Ha by lia. by rewrite Z.bits_0.
    - rewrite <- (Z.mod_small b (2 ^ q)), Z.mod_pow2_bits_high by lia. apply andb_false_r. }
  rewrite Z.add_nocarry_lxor by done. by rewrite Z.lxor_lor.
Qed.

Lemma write_flush v n room w full rest :
  holds v n room w full rest -> w_bitPos w = 8 -> 0 < room ->
  exists packed rest', set_index (w_packed w) (w_index w) (w_byte w) = Ok packed /\
    holds v n room (Writer packed 0 (w_index w + 1) 0) (full ++ [w_byte w]) rest'.
Proof.
  intros [H1 H2 H3 H4 H5 H6 H7 H8 H9] Hp Hr. rewrite Hp in *. destruct rest as [|x rest]; [cbn in H9; lia|].
  exists ((start ++ full ++ [w_byte w]) ++ rest), rest. split.
  - rewrite H1, H2. replace (8 + Z.of_nat (length full)) with (Z.of_nat (length (start ++ full))) by (rewrite length_app; lia).
    rewrite set_here. by rewrite <- !app_assoc.
  - split; cbn [w_packed w_index w_bitPos w_byte]; rewrite ?length_app; cbn [length] in *; try lia; try done.
    + apply Forall_app. split; [done|]. constructor; [done|constructor].
    + rewrite be_combine_app. cbn [length]. change (8 - 8) with 0 in H8. change (2 ^ 0) with 1 in H8. rewrite Z.div_1_r in H8. unfold be_combine at 2. cbn [rev app le_combine]. change (256 ^ Z.of_nat 1) with 256. change (2 ^ 8) with 256 in H8. change (2 ^ 0) with 1. rewrite Z.div_0_l by done. lia.
Qed.

Lemma write_chunk v n room w full rest k c :
  holds v n room w full rest -> 0 < k <= 8 - w_bitPos w -> 0 <= c < 2 ^ k ->
  holds (v * 2 ^ k + c) (n + k) (room - k)
    (Writer (w_packed w) (Z.lor (w_byte w) (u8 (Z.shiftl c (8 - w_bitPos w - k)))) (w_index w) (w_bitPos w + k)) full rest.
Proof.
  intros [H1 H2 H3 H4 H5 H6 H7 H8 H9] Hk Hc. set (q := 8 - w_bitPos w) in *.
  assert (Hpow : 2 ^ q = 2 ^ k * 2 ^ (q - k)) by (rewrite <- Z.pow_add_r by lia; f_equal; lia).
  assert (0 < 2 ^ (q - k)) by (apply Z.pow_pos_nonneg; lia). assert (0 < 2 ^ k) by (apply Z.pow_pos_nonneg; lia).
  assert (2 ^ q <= 2 ^ 8) by (apply Z.pow_le_mono_r; lia). change (2 ^ 8) with 256 in *.
  assert (Hs : u8 (Z.shiftl c (q - k)) = c * 2 ^ (q - k)) by (rewrite Z.shiftl_mul_pow2 by lia; unfold u8; apply Z.mod_small; nia).
  rewrite Hs, (lor_disjoint _ _ q) by (try lia; nia).
  pose proof (Z.div_mod (w_byte w) (2 ^ q) ltac:(lia)) as Hdm. rewrite H7, Z.add_0_r in Hdm. set (B := w_byte w / 2 ^ q) in *.
  assert (Hb' : w_byte w + c * 2 ^ (q - k) = (B * 2 ^ k + c) * 2 ^ (q - k)) by (rewrite Hdm, Hpow; ring).
  assert (HB : B < 2 ^ (8 - q)) by (apply Z.div_lt_upper_bound; [lia|]; rewrite <- Z.pow_add_r by lia; replace (q + (8 - q)) with 8 by lia; lia).
  split; cbn [w_packed w_index w_bitPos w_byte]; try lia; try done.
  - rewrite Hb'. assert (B * 2 ^ k + c < 2 ^ (8 - q) * 2 ^ k) by nia.
    assert (H256 : 2 ^ (8 - q) * 2 ^ k * 2 ^ (q - k) = 256) by (rewrite <- !Z.pow_add_r by lia; by replace (8 - q + k + (q - k)) with 8 by lia).
    assert (0 <= B) by (apply Z.div_pos; lia). split; [nia|]. rewrite <- H256. apply Z.mul_lt_mono_pos_r; lia.
  - rewrite Hb'. replace (8 - (w_bitPos w + k)) with (q - k) by lia. apply Z.mod_mul. lia.
  - rewrite Hb'. replace (8 - (w_bitPos w + k)) with (q - k) by lia. rewrite Z.div_mul, Z.pow_add_r, H8 by lia. ring.
Qed.

Lemma chunk_value d bn k : 0 <= d -> 0 < k <= 8 -> k <= bn -> u8 (Z.land (Z.shiftr d (bn - k)) (Z.ones k)) = (d / 2 ^ (bn - k)) mod 2 ^ k.
Proof.
  intros Hd Hk Hb. rewrite Z.land_ones, Z.shiftr_div_pow2 by lia. unfold u8. apply Z.mod_small.
  pose proof (Z.mod_pos_bound (d / 2 ^ (bn - k)) (2 ^ k) ltac:(apply Z.pow_pos_nonneg; lia)).
  assert (2 ^ k <= 2 ^ 8) by (apply Z.pow_le_mono_r; lia). lia.
Qed.

Lemma mod_pow_split d a b : 0 <= a -> 0 <= b -> d mod 2 ^ (a + b) = (d / 2 ^ b) mod 2 ^ a * 2 ^ b + d mod 2 ^ b.
Proof.
  intros Ha Hb. rewrite (Z.add_comm a), Z.pow_add_r by lia. rewrite Z.rem_mul_r by (try apply Z.pow_nonzero; try apply Z.pow_pos_nonneg; lia). ring.
Qed.

Lemma write_bits_spec d turns : forall bn v n room w full rest,
  holds v n room w full rest -> 0 < w_bitPos w -> 0 <= d -> 0 <= bn <= room -> bn <= Z.of_nat turns ->
  exists w' full' rest', write_bits turns d bn w = Ok w' /\ 0 < w_bitPos w' /\
    holds (v * 2 ^ bn + d mod 2 ^ bn) (n + bn) (room - bn) w' full' rest'.
Proof.
  induction turns as [|turns IH]; intros bn v n room w full rest Hh Hp Hd Hb Ht; cbn [write_bits];
    (destruct (Z.leb_spec bn 0); [replace bn with 0 by lia; change (2 ^ 0) with 1; rewrite Z.mod_1_r, Z.mul_1_r, !Z.add_0_r, Z.sub_0_r; by exists w, full, rest|]); [lia|].
  assert (Hfl : exists w1 full1 rest1, (if w_bitPos w =? 8 then
      let! packed := set_index (w_packed w) (w_index w) (w_byte w) in Ok (Writer packed 0 (w_index w + 1) 0) else Ok w) = Ok (E := Empty_set) w1 /\
    holds v n room w1 full1 rest1 /\ 0 <= w_bitPos w1 < 8).
  { destruct (Z.eqb_spec (w_bitPos w) 8) as [E|E].
    - destruct (write_flush v n room w full rest Hh E ltac:(lia)) as (packed & rest1 & -> & H1). cbn [obind]. do 3 eexists. split_and!; [done|exact H1|cbn; lia..].
    - pose proof (h_pos _ _ _ _ _ _ Hh). exists w, full, rest. split_and!; [done|done|lia..]. }
  destruct Hfl as (w1 & full1 & rest1 & -> & Hh1 & Hp1). cbn [obind]. set (k := Z.min bn (8 - w_bitPos w1)).
  rewrite chunk_value by lia. set (c := (d / 2 ^ (bn - k)) mod 2 ^ k).
  assert (Hc : 0 <= c < 2 ^ k) by (apply Z.mod_pos_bound, Z.pow_pos_nonneg; lia).
  pose proof (write_chunk _ _ _ _ _ _ k c Hh1 ltac:(lia) Hc) as Hh2. set (w2 := Writer _ _ _ _) in *.
  destruct (IH (bn - k) _ _ _ w2 full1 rest1 Hh2) as (w3 & full3 & rest3 & E3 & Hp3 & Hh3); [unfold w2; cbn [w_bitPos]; lia|lia|lia|lia|].
  exists w3, full3, rest3. split_and!; [done|done|]. replace (n + bn) with (n + k + (bn - k)) by lia. replace (room - bn) with (room - k - (bn - k)) by lia.
  replace bn with (k + (bn - k)) at 1 2 by lia. rewrite mod_pow_split, Z.pow_add_r by lia. fold c.
  replace (v * (2 ^ k * 2 ^ (bn - k)) + (c * 2 ^ (bn - k) + d mod 2 ^ (bn - k))) with ((v * 2 ^ k + c) * 2 ^ (bn - k) + d mod 2 ^ (bn - k)) by ring. done.
Qed.

(** The fields as one number *)
Definition stream (bn v : Z) (ds : list Z) : Z := foldl (fun v d => v * 2 ^ bn + d) v ds.

Lemma write_all_spec bn ds : forall v n room w full rest,
  holds v n room w full rest -> 0 < w_bitPos w -> 0 < bn <= 64 -> Forall (fun d => 0 <= d < 2 ^ bn) ds -> Z.of_nat (length ds) * bn <= room ->
  exists w' full' rest', write_all ds bn w = Ok w' /\ 0 < w_bitPos w' /\
    holds (stream bn v ds) (n + Z.of_nat (length ds) * bn) (room - Z.of_nat (length ds) * bn) w' full' rest'.
Proof.
  induction ds as [|d ds IH]; intros v n room w full rest Hh Hp Hb Hds Hr; cbn [write_all stream foldl].
  { rewrite Z.mul_0_l, Z.add_0_r, Z.sub_0_r. by exists w, full, rest. }
  apply Forall_cons in Hds as [Hd Hds]. cbn [length] in *. 
  destruct (write_bits_spec d 64 bn v n room w full rest Hh Hp) as (w1 & f1 & r1 & -> & Hp1 & Hh1); [lia|nia|lia|]. cbn [obind].
  rewrite Z.mod_small in Hh1 by done. destruct (IH _ _ _ w1 f1 r1 Hh1 Hp1 Hb Hds ltac:(lia)) as (w2 & f2 & r2 & E2 & Hp2 & Hh2).
  exists w2, f2, r2. split_and!; [done|done|]. unfold stream in Hh2.
  replace (n + Z.of_nat (S (length ds)) * bn) with (n + bn + Z.of_nat (length ds) * bn) by lia.
  by replace (room - Z.of_nat (S (length ds)) * bn) with (room - bn - Z.of_nat (length ds) * bn) by lia.
Qed.
End writing.

(** ** Reading back what was written *)

Lemma stream_split bn u ds : 0 < bn -> Forall (fun d => 0 <= d < 2 ^ bn) ds ->
  exists r, stream bn u ds = u * 2 ^ (Z.of_nat (length ds) * bn) + r /\ 0 <= r < 2 ^ (Z.of_nat (length ds) * bn).
Proof.
  intros Hb Hds. revert u. induction Hds as [|d ds Hd _ IH]; intros u; [exists 0; unfold stream; cbn [foldl length]; rewrite Z.mul_0_l; lia|]. unfold stream in *. cbn [foldl length].
  destruct (IH (u * 2 ^ bn + d)) as (r & -> & Hr). set (m := Z.of_nat (length ds) * bn) in *.
  replace (Z.of_nat (S (length ds)) * bn) with (bn + m) by lia. rewrite Z.pow_add_r by lia. exists (d * 2 ^ m + r). split; [ring|nia].
Qed.

Lemma stream_field bits bn u ds p w pad :
  0 < bn -> 0 <= pad -> 0 <= w -> Forall (fun d => 0 <= d < 2 ^ bn) ds ->
  be_combine bits = stream bn u ds * 2 ^ pad -> 8 * Z.of_nat (length bits) = p + w + Z.of_nat (length ds) * bn + pad -> field bits p w = u mod 2 ^ w.
Proof.
  intros Hb Hpad Hw Hds E Hl. unfold field. rewrite E. destruct (stream_split bn u ds Hb Hds) as (r & -> & Hr).
  set (m := Z.of_nat (length ds) * bn) in *. assert (0 <= m) by lia. replace (8 * Z.of_nat (length bits) - p - w) with (m + pad) by lia.
  rewrite Z.pow_add_r by lia. rewrite Z.div_mul_cancel_r by (apply Z.pow_nonzero; lia).
  rewrite Z.add_comm, Z.div_add by lia. by rewrite (Z.div_small r) by lia.
Qed.

Lemma emit_packed deltaDiff prev v : 0 <= v < 2 ^ 64 -> emit deltaDiff prev (if deltaDiff then u64 (v - prev) else v) = v.
Proof.
  intros Hv. unfold emit. destruct deltaDiff; [|done]. unfold u64. rewrite Z.add_mod_idemp_r by lia.
  replace (prev + (v - prev)) with v by lia. by apply Z.mod_small.
Qed.

Lemma unpack_stream deltaDiff bits bn pad values : forall prev p u,
  0 < bn -> 0 <= pad -> Forall (fun v => 0 <= v < 2 ^ 64) values ->
  let ds := packed_values deltaDiff prev values in
  Forall (fun d => 0 <= d < 2 ^ bn) ds -> be_combine bits = stream bn u ds * 2 ^ pad ->
  8 * Z.of_nat (length bits) = p + Z.of_nat (length ds) * bn + pad ->
  unpack bits deltaDiff bn p prev (length values) = values.
Proof.
  induction values as [|v values IH]; intros prev p u Hb Hpad Hv ds Hds E Hl; [done|]. apply Forall_cons in Hv as [Hv Hvs].
  subst ds. cbn [packed_values length] in *. apply Forall_cons in Hds as [Hd Hds]. set (d := if deltaDiff then _ else _) in *.
  cbn [unpack]. rewrite (stream_field bits bn (u * 2 ^ bn + d) (packed_values deltaDiff v values) p bn pad) by (try done; lia).
  rewrite Z.add_comm, Z.mod_add, Z.mod_small by (try apply Z.pow_nonzero; lia). unfold d at 1 2. rewrite !emit_packed by done.
  f_equal. eapply (IH v (p + bn) (u * 2 ^ bn + d)); try done. lia.
Qed.

(** ** The width *)

Lemma Len64_bound x : 0 <= x < 2 ^ 64 -> 0 <= Len64 x <= 64 /\ x < 2 ^ Len64 x.
Proof.
  intros Hx. unfold Len64. destruct (Z.eqb_spec x 0) as [->|]; [done|].
  pose proof (Z.log2_spec x ltac:(lia)). pose proof (Z.log2_nonneg x). assert (Z.log2 x < 64) by (apply Z.log2_lt_pow2; lia).
  rewrite Z.add_1_r. lia.
Qed.

Definition wider (b d : Z) : Z := if b <? Len64 d then Len64 d else b.

Lemma fold_wider ds : forall b, 0 <= b <= 64 -> Forall (fun d => 0 <= d < 2 ^ 64) ds ->
  b <= foldl wider b ds <= 64 /\ Forall (fun d => Len64 d <= foldl wider b ds) ds.
Proof.
  induction ds as [|d ds IH]; intros b Hb Hds; cbn [foldl]; [split; [lia|constructor]|]. apply Forall_cons in Hds as [Hd Hds].
  pose proof (proj1 (Len64_bound d Hd)). assert (Hw : b <= wider b d <= 64 /\ Len64 d <= wider b d) by (unfold wider; destruct (Z.ltb_spec b (Len64 d)); lia).
  destruct (IH (wider b d) ltac:(lia) Hds) as [H1 H2]. split; [lia|]. constructor; [lia|done].
Qed.

Lemma width_of_spec ds : Forall (fun d => 0 <= d < 2 ^ 64) ds -> 0 < width_of ds <= 64 /\ Forall (fun d => 0 <= d < 2 ^ width_of ds) ds.
Proof.
  intros Hds. destruct (fold_wider ds 0 ltac:(lia) Hds) as [H1 H2]. unfold width_of. fold wider. set (b := foldl wider 0 ds) in *.
  change (foldl (fun b d => if b <? Len64 d then Len64 d else b) 0 ds) with b.
  assert (Hb : b <= (if b =? 0 then 1 else b) /\ 0 < (if b =? 0 then 1 else b) <= 64) by (destruct (Z.eqb_spec b 0); lia).
  set (w := if b =? 0 then 1 else b) in *. split; [lia|]. apply Forall_forall. intros d Hd. rewrite Forall_forall in Hds, H2.
  specialize (Hds d Hd). specialize (H2 d Hd). destruct (Len64_bound d Hds) as [? Hlt]. split; [lia|].
  eapply Z.lt_le_trans; [exact Hlt|]. apply Z.pow_le_mono_r; lia.
Qed.

Lemma packed_values_range deltaDiff values : forall prev, Forall (fun v => 0 <= v < 2 ^ 64) values ->
  Forall (fun d => 0 <= d < 2 ^ 64) (packed_values deltaDiff prev values) /\ length (packed_values deltaDiff prev values) = length values.
Proof.
  induction values as [|v values IH]; intros prev Hv; cbn [packed_values length]; [split; [constructor|done]|].
  apply Forall_cons in Hv as [Hv Hvs]. destruct (IH v Hvs) as [H1 H2]. split; [constructor; [|done]|by rewrite H2].
  destruct deltaDiff; [apply u64_range|done].
Qed.

(** The header has six bits for the width: 64 is kept as 0. *)
Lemma header_byte_width w : 0 <= w <= 64 -> header_byte w = 4 * (w mod 64).
Proof.
  intros Hw. assert (H : forallb (fun k => header_byte (Z.of_nat k) =? 4 * (Z.of_nat k mod 64)) (seq 0 65) = true) by (vm_compute; reflexivity).
  rewrite forallb_forall in H. specialize (H (Z.to_nat w)). rewrite Z2Nat.id in H by lia. apply Z.eqb_eq, H, in_seq. lia.
Qed.

(** What [Encode] returns: the first value, the width and the fields, and zeros up to a whole byte *)
Definition encoded (out : list Z) (first bn : Z) (ds : list Z) : Prop :=
  exists bits pad, out = be_split 8 first ++ bits /\ Forall is_byte bits /\ 0 <= pad < 8 /\
    be_combine bits = stream bn (bn mod 64) ds * 2 ^ pad /\ 8 * Z.of_nat (length bits) = 6 + Z.of_nat (length ds) * bn + pad.

Lemma last_byte start v n room w full rest :
  length start = 8%nat -> holds start v n room w full rest -> 0 < w_bitPos w -> 0 <= room ->
  exists packed rest', set_index (w_packed w) (w_index w) (w_byte w) = Ok packed /\ packed = start ++ (full ++ [w_byte w]) ++ rest' /\
    Forall is_byte (full ++ [w_byte w]) /\ be_combine (full ++ [w_byte w]) = v * 2 ^ (8 - w_bitPos w) /\ w_index w + 1 = Z.of_nat (length (start ++ full ++ [w_byte w])).
Proof.
  intros Hs [H1 H2 H3 H4 H5 H6 H7 H8 H9] Hp Hr. destruct rest as [|x rest]; [cbn in H9; lia|]. exists (start ++ (full ++ [w_byte w]) ++ rest), rest.
  split_and!; [|done| | |].
  - rewrite H1, H2. replace (8 + Z.of_nat (length full)) with (Z.of_nat (length (start ++ full))) by (rewrite length_app; lia).
    rewrite set_here. by rewrite <- !app_assoc.
  - apply Forall_app. split; [done|]. constructor; [exact H6|constructor].
  - rewrite be_combine_app. unfold be_combine at 2. cbn [rev app le_combine length]. change (256 ^ Z.of_nat 1) with (2 ^ 8).
    rewrite H8, Z.mul_add_distr_r, <- Z.mul_assoc, <- Z.pow_add_r by lia. replace (w_bitPos w + (8 - w_bitPos w)) with 8 by lia.
    pose proof (Z.div_mod (w_byte w) (2 ^ (8 - w_bitPos w)) ltac:(apply Z.pow_nonzero; lia)). lia.
  - rewrite !length_app. cbn [length]. lia.
Qed.

Lemma encode_spec deltaDiff first values buf :
  Forall (fun v => 0 <= v < 2 ^ 64) values -> 8 + 8 * Z.of_nat (S (length values)) <= Z.of_nat (length buf) ->
  let ds := packed_values deltaDiff first values in
  exists out, Encode deltaDiff (first :: values) buf = Ok out /\ encoded out first (width_of ds) ds.
Proof.
  intros Hv Hbuf ds. destruct (packed_values_range deltaDiff values first Hv) as [Hds Hlen]. fold ds in Hds, Hlen.
  destruct (width_of_spec ds Hds) as [Hwr Hdw]. set (bn := width_of ds) in *.
  unfold Encode, encodeReusable. rewrite (proj2 (Z.ltb_ge _ _)) by lia. fold ds. fold bn. set (start := be_split 8 first).
  assert (Hs : length start = 8%nat) by apply length_be_split. rewrite header_byte_width by lia.
  pose proof (Z.mod_pos_bound bn 64 ltac:(lia)) as Hm.
  assert (Hh : holds start (bn mod 64) 6 (8 * Z.of_nat (length (drop 8 buf)) - 6) (Writer (start ++ drop 8 buf) (4 * (bn mod 64)) 8 6) [] (drop 8 buf)).
  { split; cbn [w_packed w_index w_bitPos w_byte length]; try lia; try done; try (by rewrite app_nil_r); change (2 ^ (8 - 6)) with 4; rewrite (Z.mul_comm 4).
    - by apply Z.mod_mul. - rewrite Z.div_mul by lia. cbn. lia. }
  assert (Hroom : Z.of_nat (length ds) * bn <= 8 * Z.of_nat (length (drop 8 buf)) - 6) by (rewrite length_drop; nia).
  destruct (write_all_spec start Hs bn ds _ _ _ _ _ _ Hh ltac:(cbn; lia) ltac:(lia) Hdw Hroom) as (w & full & rest & -> & Hp & Hh'). cbn [obind].
  rewrite (proj2 (Z.ltb_lt 0 _)) by done.
  destruct (last_byte start _ _ _ w full rest Hs Hh' Hp) as (packed & rest' & -> & -> & Hb & Hval & Hi); [lia|]. cbn [obind].
  exists (start ++ full ++ [w_byte w]). rewrite Hi, Nat2Z.id. split.
  - by rewrite (app_assoc start (full ++ [w_byte w]) rest'), take_app_length.
  - exists (full ++ [w_byte w]), (8 - w_bitPos w). pose proof (h_pos _ _ _ _ _ _ _ Hh'). pose proof (h_bits _ _ _ _ _ _ _ Hh').
    split_and!; [done|done|lia|lia|done|]. rewrite length_app. cbn [length]. lia.
Qed.

Lemma length_Init n buf : 0 <= n -> 8 + 8 * n <= Z.of_nat (length (Init n buf)).
Proof. intros Hn. unfold Init. destruct (Z.ltb_spec (Z.of_nat (length buf)) (8 + 8 * n)); [rewrite length_replicate|]; lia. Qed.

Lemma decode_encoded deltaDiff first values dst out :
  Forall (fun v => 0 <= v < 2 ^ 64) (first :: values) -> (length (first :: values) <= length dst)%nat ->
  let ds := packed_values deltaDiff first values in
  width_of ds <= 58 -> encoded out first (width_of ds) ds -> exists rest, decodeReusable dst out deltaDiff = Ok ((first :: values) ++ rest).
Proof.
  intros Hv Hdst ds Hw (bits & pad & -> & Hb & Hpad & Hval & Hl). apply Forall_cons in Hv as [Hf Hv].
  destruct (packed_values_range deltaDiff values first Hv) as [Hds Hlen]. fold ds in Hds, Hlen.
  destruct (width_of_spec ds Hds) as [Hwr Hdw]. set (bn := width_of ds) in *.
  assert (Hdrop : drop 8 (be_split 8 first ++ bits) = bits) by (rewrite drop_app_le, drop_ge; rewrite ?length_be_split; by auto).
  assert (Htake : take 8 (be_split 8 first ++ bits) = be_split 8 first) by (rewrite take_app_le, take_ge; rewrite ?length_be_split; by auto).
  assert (Hfield : field bits 0 6 = bn) by (rewrite (stream_field bits bn (bn mod 64) ds 0 6 pad); try done; try lia; rewrite (Z.mod_small bn 64) by lia; apply Z.mod_small; lia).
  rewrite decode_reference; [|apply Forall_app; split; [apply be_split_bytes|done]|rewrite Hdrop; lia].
  unfold reference_decode. destruct dst as [|x post]; cbn [length] in Hdst; [lia|].
  rewrite (proj2 (Z.ltb_ge _ _)) by (rewrite length_app, length_be_split; lia). rewrite Hdrop, Htake, Hfield, be_combine_split by (change (256 ^ Z.of_nat 8) with (2 ^ 64); lia).
  rewrite (proj2 (Z.eqb_neq _ 0)) by lia. rewrite (fields_left_app bits (length values) (length post)) by lia. rewrite unpack_app.
  rewrite (unpack_stream deltaDiff bits bn pad values first 6 (bn mod 64)) by (try done; lia). rewrite <- app_assoc. by eexists.
Qed.

(** A width of 64 is read as 0, and nothing but the first value is restored. *)
Lemma decode_lost deltaDiff first values out x post :
  Forall (fun v => 0 <= v < 2 ^ 64) (first :: values) -> encoded out first 64 (packed_values deltaDiff first values) -> decodeReusable (x :: post) out deltaDiff = Ok (first :: post).
Proof.
  intros Hv (bits & pad & -> & Hb & Hpad & Hval & Hl). apply Forall_cons in Hv as [Hf Hv]. destruct (packed_values_range deltaDiff values first Hv) as [Hds Hlen].
  assert (Hdrop : drop 8 (be_split 8 first ++ bits) = bits) by (rewrite drop_app_le, drop_ge; rewrite ?length_be_split; by auto).
  assert (Htake : take 8 (be_split 8 first ++ bits) = be_split 8 first) by (rewrite take_app_le, take_ge; rewrite ?length_be_split; by auto).
  assert (Hfield : field bits 0 6 = 0) by (rewrite (stream_field bits 64 0 (packed_values deltaDiff first values) 0 6 pad); try done; lia).
  rewrite decode_reference; [|apply Forall_app; split; [apply be_split_bytes|done]|rewrite Hdrop, Hfield; lia].
  unfold reference_decode. rewrite (proj2 (Z.ltb_ge _ _)) by (rewrite length_app, length_be_split; lia). rewrite Hdrop, Htake, Hfield, be_combine_split by (change (256 ^ Z.of_nat 8) with (2 ^ 64); lia). done.
Qed.

(** Differences below [2^k] need at most [k] bits. *)
Lemma width_of_le ds k : 0 < k -> Forall (fun d => 0 <= d < 2 ^ k) ds -> width_of ds <= k.
Proof.
  intros Hk Hds. unfold width_of. change (foldl (fun b d => if b <? Len64 d then Len64 d else b) 0 ds) with (foldl wider 0 ds).
  assert (H : forall b, b <= k -> foldl wider b ds <= k).
  { induction Hds as [|d ds Hd _ IH]; intros b Hb; cbn [foldl]; [done|]. apply IH. unfold wider, Len64. destruct (Z.eqb_spec d 0); [destruct (Z.ltb_spec b 0); lia|].
    assert (Z.log2 d < k) by (apply Z.log2_lt_pow2; lia). destruct (Z.ltb_spec b (Z.log2 d + 1)); lia. }
  specialize (H 0 ltac:(lia)). destruct (_ =? 0); lia.
Qed.

(** C32: what an encoder with a buffer for the block writes, with or without differences, the decoder reads back: when
    the packed values, or the differences of neighbours modulo [2^64], are below [2^58], encoding succeeds and decoding
    into any slice with room for the block gives the block back, the first value being an arbitrary word. *)
Theorem varenc_roundtrip deltaDiff first values buf dst :
  Forall (fun v => 0 <= v < 2 ^ 64) (first :: values) ->
  Forall (fun d => d < 2 ^ 58) (packed_values deltaDiff first values) ->
  (length (first :: values) <= length dst)%nat ->
  exists out rest, Encode deltaDiff (first :: values) (Init (Z.of_nat (length (first :: values))) buf) = Ok out /\
    decodeReusable dst out deltaDiff = Ok ((first :: values) ++ rest).
Proof.
  intros Hv Hd Hdst. pose proof (proj1 (packed_values_range deltaDiff values first (Forall_inv_tail Hv))) as Hr.
  assert (Hw : width_of (packed_values deltaDiff first values) <= 58).
  { apply width_of_le; [lia|]. rewrite Forall_forall in *. intros d Hin. specialize (Hr d Hin). specialize (Hd d Hin). cbn beta in *. lia. }
  destruct (encode_spec deltaDiff first values (Init (Z.of_nat (length (first :: values))) buf)) as (out & Hout & Henc);
    [by inversion Hv|cbn [length]; apply (length_Init (Z.of_nat (S (length values)))); lia|].
  destruct (decode_encoded deltaDiff first values dst out Hv Hdst Hw Henc) as [rest Hrest]. by exists out, rest.
Qed.

Lemma varenc_roundtrip_witness :
  exists out rest, Encode true [2 ^ 63; 2 ^ 63 + 5; 2 ^ 63 + 2 ^ 57] (Init 3 []) = Ok out /\
    decodeReusable (replicate 5 7) out true = Ok ([2 ^ 63; 2 ^ 63 + 5; 2 ^ 63 + 2 ^ 57] ++ rest).
Proof.
  apply (varenc_roundtrip true (2 ^ 63) [2 ^ 63 + 5; 2 ^ 63 + 2 ^ 57] [] (replicate 5 7)).
  - repeat (constructor; [split; vm_compute; congruence|]). constructor.
  - repeat (constructor; [vm_compute; congruence|]). constructor.
  - vm_compute. lia.
Defined.

(** C24: the decoder and the format: on every byte string the decoder returns, without reading or writing out of bounds, with a
    slice as long as it was; and as long as the width in the header is at most 58 its three ways of reading (a 64-bit
    reservoir refilled by words, loads of eight bytes, byte by byte) give what reading field after field gives, up to the last
    field that is whole, the rest of the slice being left alone. *)
Theorem varenc_decode_fields deltas packed deltaDiff :
  Forall is_byte packed ->
  exists out, decodeReusable deltas packed deltaDiff = Ok out /\ length out = length deltas /\
    (field (drop 8 packed) 0 6 <= 58 -> out = reference_decode deltas packed deltaDiff).
Proof.
  intros Hb. destruct (decode_total deltaDiff deltas packed Hb) as (out & E & Hl). exists out. split_and!; [done..|].
  intros Hw. rewrite decode_reference in E by done. congruence.
Qed.

Lemma varenc_decode_fields_witness :
  exists out, decodeReusable [0; 0; 9] [0; 0; 0; 0; 0; 0; 0; 1; 0x0D; 0x80] true = Ok out /\ length out = 3%nat /\
    (field [0x0D; 0x80] 0 6 <= 58 -> out = reference_decode [0; 0; 9] [0; 0; 0; 0; 0; 0; 0; 1; 0x0D; 0x80] true).
Proof.
  apply (varenc_decode_fields [0; 0; 9] [0; 0; 0; 0; 0; 0; 0; 1; 0x0D; 0x80] true). repeat (constructor; [split; vm_compute; congruence|]). constructor.
Defined.

(** C40: a block that needs all 64 bits is lost.  If some packed value, or some difference of neighbours, is at least [2^63], encoding
    succeeds, but the six bits of the header keep the width 64 as 0, and decoding into any slice restores only the first value of the block and leaves
    everything behind it as it was. *)
Theorem varenc_width_64 deltaDiff first values buf x post :
  Forall (fun v => 0 <= v < 2 ^ 64) (first :: values) -> Exists (fun d => 2 ^ 63 <= d) (packed_values deltaDiff first values) ->
  exists out, Encode deltaDiff (first :: values) (Init (Z.of_nat (length (first :: values))) buf) = Ok out /\
    decodeReusable (x :: post) out deltaDiff = Ok (first :: post).
Proof.
  intros Hv (d & Hin & Hd)%Exists_exists. destruct (packed_values_range deltaDiff values first (Forall_inv_tail Hv)) as [Hr Hlen]. destruct (width_of_spec _ Hr) as [Hw Hds].
  assert (Hw64 : width_of (packed_values deltaDiff first values) = 64).
  { pose proof (proj1 (Forall_forall _ _) Hds d Hin) as [_ Hlt]. cbn beta in Hlt. assert (63 < width_of (packed_values deltaDiff first values)) by (apply (Z.pow_lt_mono_r_iff 2); lia). lia. }
  destruct (encode_spec deltaDiff first values (Init (Z.of_nat (length (first :: values))) buf)) as (out & Hout & Henc);
    [by inversion Hv|cbn [length]; apply (length_Init (Z.of_nat (S (length values)))); lia|]. exists out. split; [done|].
  rewrite Hw64 in Henc. by apply (decode_lost deltaDiff first values).
Qed.

Lemma varenc_width_64_witness :
  exists out, Encode true [5; 4; 9] (Init 3 []) = Ok out /\ decodeReusable [0; 7; 8; 1] out true = Ok [5; 7; 8; 1].
Proof.
  apply (varenc_width_64 true 5 [4; 9] [] 0 [7; 8; 1]).
  - repeat (constructor; [lia|]). constructor.
  - left. vm_compute. congruence.
Defined.

(** From 59 to 63 bits the buffer of the byte by byte part is too small for a field and the rest of a byte: some blocks of these widths come back changed. *)
Example varenc_width_limit :
  forallb (fun w =>
    let block := [0; 2 ^ w - 1; 2 ^ (w - 1)] in
    match Encode false block (Init 3 []) with
    | Ok out => match decodeReusable [0; 0; 0] out false with Ok got => negb (bool_decide (got = block)) | _ => false end
    | _ => false
    end) [59; 60; 61; 62; 63] = true.
Proof. vm_compute. reflexivity. Qed.
