(* ===== verification/Sharding.v ===== *)
(** * usecases/sharding: where the shards of a collection live

    [usecases/sharding/state.go], [usecases/sharding/config] and [usecases/cluster/iterator.go]: the sharding
    state of a collection.  A collection without tenants hashes the id of an object onto a ring of virtual shards,
    each assigned to a physical shard; with tenants every tenant is a physical shard.  A physical shard
    belongs to a list of nodes, chosen round robin.

    Random choices are arguments: the names drawn ([name_at]), the shuffle, the order in which a loop over a
    map visits it, and how [sort.Slice] orders equal keys.  [murmur3] is an argument too.  Percentages are
    numerators over [math.MaxUint64]: the code divides by it, in floating point.  A nil map is an empty one. *)

From stdpp Require Import strings sorting gmap.
From S2P Require Import Prelude.

(** ** usecases/cluster: NodeIterator *)

Record NodeIterator : Type := NI { hostnames : list string; it_state : Z }.

(** With [StartAfter], the only strategy in use *)
Definition NewNodeIterator (nodeNames : list string) : NodeIterator := NI nodeNames 0.

Definition wrap (n state : Z) : Z := if state =? n then 0 else state.

Definition SetStartNode (it : NodeIterator) (startNode : string) : NodeIterator :=
  match list_find (fun node => node = startNode) (hostnames it) with
  | Some (i, _) => NI (hostnames it) (wrap (Z.of_nat (length (hostnames it))) (Z.of_nat i + 1))
  | None => it
  end.

Inductive sharding_error : Type :=
| ErrFewNodes | ErrReplFactor | ErrNoNodes | ErrShardMissing (shard : string) | ErrReplicaAlreadyExists (replica : string)
| ErrMinReplicas (factor : Z) | ErrNegativeCount | ErrInconsistentFactors | ErrConfig (field : string).

#[export] Instance sharding_error_eq_dec : EqDecision sharding_error.
Proof. solve_decision. Defined.

Notation result A := (outcome sharding_error A).

Definition Next (it : NodeIterator) : result (string * NodeIterator) :=
  match hostnames it !! Z.to_nat (it_state it) with
  | Some curr => Ok (curr, NI (hostnames it) (wrap (Z.of_nat (length (hostnames it))) (it_state it + 1)))
  | None => Panic
  end.

(** ** config.go *)

Record Config : Type := MkConfig {
  VirtualPerPhysical : Z;
  DesiredCount : Z;
  ActualCount : Z;
  DesiredVirtualCount : Z;
  ActualVirtualCount : Z;
  Key : string;
  Strategy : string;
  Function : string
}.

#[export] Instance Config_eq_dec : EqDecision Config.
Proof. solve_decision. Defined.

(** A value of the map a configuration is parsed from: a [json.Number] with what its [Int64] gives, an int, a float64 by
    what it converts to, a string, or something else *)
Inductive any : Type := JsonNumber (int64 : option Z) | Int (v : Z) | Float64 (v : Z) | Str (s : string) | Other.

Definition s64 (z : Z) : Z := (z + 2 ^ 63) mod 2 ^ 64 - 2 ^ 63.

Definition setDefaults (nodeCount : Z) : Config :=
  MkConfig 128 nodeCount nodeCount (s64 (nodeCount * 128)) (s64 (nodeCount * 128)) "_id" "hash" "murmur3".

Definition validate (c : Config) : option sharding_error :=
  if negb (bool_decide (Key c = "_id")) then Some (ErrConfig "key")
  else if negb (bool_decide (Strategy c = "hash")) then Some (ErrConfig "strategy")
  else if negb (bool_decide (Function c = "murmur3")) then Some (ErrConfig "function")
  else if DesiredCount c <? 0 then Some (ErrConfig "desiredCount")
  else None.

Definition optionalIntFromMap (m : gmap string any) (name : string) (old : Z) : result Z :=
  match m !! name with
  | None => Ok old
  | Some (JsonNumber (Some v)) | Some (Int v) | Some (Float64 v) => Ok v
  | Some (JsonNumber None) => Err (ErrConfig name)
  | Some (Str _) | Some Other => Ok 0
  end.

Definition optionalStringFromMap (m : gmap string any) (name old : string) : result string :=
  match m !! name with None => Ok old | Some (Str s) => Ok s | Some _ => Err (ErrConfig name) end.

(** No input, or a map; an input of another type or a nil map is an error *)
Definition ParseConfig (input : option (option (gmap string any))) (nodeCount : Z) : result Config :=
  let d := setDefaults nodeCount in
  match input with
  | None => Ok d
  | Some None => Err (ErrConfig "input")
  | Some (Some m) =>
      let! vpp := optionalIntFromMap m "virtualPerPhysical" (VirtualPerPhysical d) in
      let! desired := optionalIntFromMap m "desiredCount" (DesiredCount d) in
      let virtual := s64 (desired * vpp) in
      let! key := optionalStringFromMap m "key" (Key d) in
      let! strategy := optionalStringFromMap m "strategy" (Strategy d) in
      let! function := optionalStringFromMap m "function" (Function d) in
      let out := MkConfig vpp desired desired virtual virtual key strategy function in
      match validate out with Some e => Err e | None => Ok out end
  end.

Definition ValidateConfigUpdate (old updated : Config) : option sharding_error :=
  if negb (DesiredCount old =? DesiredCount updated) then Some (ErrConfig "desiredCount")
  else if negb (VirtualPerPhysical old =? VirtualPerPhysical updated) then Some (ErrConfig "virtualPerPhysical")
  else None.

(** ** state.go *)

Record Virtual : Type := MkVirtual { v_Name : string; Upper : Z; v_OwnsPercentage : Z; AssignedToPhysical : string }.

Record Physical : Type := MkPhysical {
  Name : string;
  OwnsVirtual : list string;
  OwnsPercentage : Z;
  LegacyBelongsToNode : string;
  BelongsToNodes : list string;
  Status : string
}.

#[export] Instance Physical_eq_dec : EqDecision Physical.
Proof. solve_decision. Defined.

(** A [Physical] literal with a name and nodes *)
Definition new_physical (name : string) (nodes : list string) (status : string) : Physical := MkPhysical name [] 0 "" nodes status.

Definition set_nodes (p : Physical) (nodes : list string) : Physical :=
  MkPhysical (Name p) (OwnsVirtual p) (OwnsPercentage p) (LegacyBelongsToNode p) nodes (Status p).

Record State : Type := MkState {
  IndexID : string;
  s_Config : Config;
  Physicals : gmap string Physical;
  Virtuals : list Virtual;
  PartitioningEnabled : bool;
  ReplicationFactor : Z;
  localNodeName : string
}.

Definition set_Physicals (s : State) (m : gmap string Physical) : State :=
  MkState (IndexID s) (s_Config s) m (Virtuals s) (PartitioningEnabled s) (ReplicationFactor s) (localNodeName s).
Definition set_Virtuals (s : State) (l : list Virtual) : State :=
  MkState (IndexID s) (s_Config s) (Physicals s) l (PartitioningEnabled s) (ReplicationFactor s) (localNodeName s).
Definition set_ReplicationFactor (s : State) (f : Z) : State :=
  MkState (IndexID s) (s_Config s) (Physicals s) (Virtuals s) (PartitioningEnabled s) f (localNodeName s).

Definition MigrateFromOldFormat (s : State) : State :=
  set_Physicals s ((fun p =>
    if negb (bool_decide (LegacyBelongsToNode p = "")) && bool_decide (BelongsToNodes p = [])
    then MkPhysical (Name p) (OwnsVirtual p) (OwnsPercentage p) "" [LegacyBelongsToNode p] (Status p) else p) <$> Physicals s).

(** A call that returns a value or an error, and cannot panic *)
Notation fallible A := (sharding_error + A)%type.

Definition getShardReplicationFactor (s : State) (shard : string) : fallible Z :=
  match Physicals s !! shard with
  | None => inl (ErrShardMissing shard)
  | Some _ => if ReplicationFactor s <? 1 then inr 1 else inr (ReplicationFactor s)
  end.

(** The loop over the shards; [seen]: the factor of the first one *)
Fixpoint same_factor (s : State) (shards : list string) (seen : option Z) : fallible Z :=
  match shards with
  | [] => inr (default 0 seen)
  | shard :: shards =>
      match getShardReplicationFactor s shard with
      | inl e => inl e
      | inr f =>
          match seen with
          | None => same_factor s shards (Some f)
          | Some f0 => if f =? f0 then same_factor s shards seen else inl ErrInconsistentFactors
          end
      end
  end.

(** [order]: the order in which the loop visits the map of shards *)
Definition MigrateShardingStateReplicationFactor (order : gmap string Physical -> list string) (s : State) : fallible State :=
  if 0 <? ReplicationFactor s then inr s
  else if PartitioningEnabled s then inr (set_ReplicationFactor s 1)
  else match same_factor s (order (Physicals s)) None with inl e => inl e | inr f => inr (set_ReplicationFactor s f) end.

(** ** Replicas of a shard *)

Definition AddReplica (p : Physical) (replica : string) : fallible Physical :=
  if bool_decide (replica ∈ BelongsToNodes p) then inl (ErrReplicaAlreadyExists replica)
  else inr (set_nodes p (BelongsToNodes p ++ [replica])).

Definition DeleteReplica (p : Physical) (replica : string) : Physical :=
  match list_find (fun n => n = replica) (BelongsToNodes p) with
  | None => p
  | Some (idx, _) => set_nodes p (take idx (BelongsToNodes p) ++ drop (idx + 1) (BelongsToNodes p))
  end.

Definition NumberOfReplicas (s : State) (shard : string) : fallible Z :=
  match Physicals s !! shard with
  | None => inl (ErrShardMissing shard)
  | Some p => inr (Z.of_nat (length (BelongsToNodes p)))
  end.

(** Names not in [available] are appended until there are [count]; a map of nodes is the list of its keys. *)
Fixpoint extend_replicas (names : list string) (count : Z) (available : gset string) (nodes : list string) : list string :=
  match names with
  | [] => nodes
  | n :: names =>
      let new := negb (bool_decide (n ∈ available)) in
      let nodes := if new then nodes ++ [n] else nodes in
      let available := {[n]} ∪ available in
      if Z.of_nat (size available) =? count then nodes else extend_replicas names count available nodes
  end.

(** [keys]: the order in which the loop over the map of nodes visits it *)
Definition AdjustReplicas (keys : gset string -> list string) (p : Physical) (count : Z) (candidates : list string) : fallible Physical :=
  if count <? 0 then inl ErrNegativeCount
  else if count =? Z.of_nat (length (BelongsToNodes p)) then inr p
  else
    let available : gset string := list_to_set (BelongsToNodes p) in
    let nodes := if (size available <? length (BelongsToNodes p))%nat then keys available else BelongsToNodes p in
    if count <? Z.of_nat (length nodes) then inr (set_nodes p (take (Z.to_nat count) nodes))
    else if Z.of_nat (length candidates) <? count then inl ErrFewNodes
    else inr (set_nodes p (extend_replicas candidates count available nodes)).

Definition ActivityStatus (status : string) : string := if bool_decide (status = "") then "HOT" else status.

Definition p_IsLocalShard (p : Physical) (nodeName : string) : bool := existsb (fun node => bool_decide (node = nodeName)) (BelongsToNodes p).
Definition IsLocalPhysical (s : State) (p : Physical) : bool := p_IsLocalShard p (localNodeName s).
Definition IsLocalShard (s : State) (name : string) : bool :=
  match Physicals s !! name with Some p => IsLocalPhysical s p | None => false end.

(** ** Placing shards on nodes *)

(** The loop that selects the first node of a shard; it has no bound in the code, the model's is one turn of the ring. *)
Fixpoint select_owner (turns : nat) (nodes : list string) (it : NodeIterator) (nodeSet : gset string) :
    result (string * NodeIterator * gset string) :=
  match turns with
  | O => OutOfFuel
  | S turns =>
      let! (node, it) := Next it in
      let nodeSet := if Z.of_nat (size nodeSet) =? Z.of_nat (length nodes) then ∅ else nodeSet in
      if bool_decide (node ∈ nodeSet) then select_owner turns nodes it nodeSet
      else Ok (node, it, {[node]} ∪ nodeSet)
  end.

Fixpoint take_next (k : nat) (it : NodeIterator) : result (list string * NodeIterator) :=
  match k with
  | O => Ok ([], it)
  | S k => let! (node, it) := Next it in let! (rest, it) := take_next k it in Ok (node :: rest, it)
  end.

(** The nodes of one shard *)
Definition pick_replicas (nodes : list string) (replFactor : Z) (it : NodeIterator) (nodeSet : gset string) :
    result (list string * NodeIterator * gset string) :=
  if replFactor <? 0 then Panic
  else
    let! (owner, it, nodeSet) := select_owner (length nodes) nodes it nodeSet in
    let! (more, it) := take_next (Z.to_nat (replFactor - 1)) it in
    Ok (owner :: more, it, nodeSet).

Definition start_after_last (nodes : list string) : NodeIterator := SetStartNode (NewNodeIterator nodes) (default "" (last nodes)).

Fixpoint init_shards (names nodes : list string) (replFactor : Z) (it : NodeIterator) (nodeSet : gset string)
    (physical : gmap string Physical) : result (gmap string Physical) :=
  match names with
  | [] => Ok physical
  | name :: names =>
      let! (replicas, it, nodeSet) := pick_replicas nodes replFactor it nodeSet in
      init_shards names nodes replFactor it nodeSet (<[name := new_physical name replicas ""]> physical)
  end.

Definition frozen_status (status : string) : bool := bool_decide (status = "FROZEN") || bool_decide (status = "FREEZING").

Fixpoint partition_shards (s : State) (shards nodes : list string) (replFactor : Z) (it : NodeIterator) (nodeSet : gset string)
    (partitions : gmap string (list string)) : result (gmap string (list string)) :=
  match shards with
  | [] => Ok partitions
  | name :: shards =>
      if match Physicals s !! name with Some p => negb (frozen_status (Status p)) | None => false end
      then partition_shards s shards nodes replFactor it nodeSet partitions
      else
        let! (owners, it, nodeSet) := pick_replicas nodes replFactor it nodeSet in
        partition_shards s shards nodes replFactor it nodeSet (<[name := owners]> partitions)
  end.

Definition GetPartitions (s : State) (nodes shards : list string) (replFactor : Z) : result (gmap string (list string)) :=
  match nodes with
  | [] => Err ErrNoNodes
  | _ =>
      if Z.of_nat (length nodes) <? replFactor then Err ErrFewNodes
      else partition_shards s shards nodes replFactor (start_after_last nodes) ∅ ∅
  end.

(** ** The ring *)

Fixpoint virtual_from (l : list Virtual) (token : Z) : option Virtual :=
  match l with [] => None | v :: l => if Upper v <? token then virtual_from l token else Some v end.

Definition virtualByToken (s : State) (token : Z) : result Virtual :=
  match virtual_from (Virtuals s) token with
  | Some v => Ok v
  | None => match Virtuals s with v :: _ => Ok v | [] => Panic end
  end.

Definition VirtualByName (l : list Virtual) (name : string) : option (nat * Virtual) := list_find (fun v => v_Name v = name) l.

(** The token counts of the virtual shards, each from the bound before it *)
Fixpoint token_counts (prev : Z) (l : list Virtual) : list Virtual :=
  match l with
  | [] => []
  | v :: l => MkVirtual (v_Name v) (Upper v) (u64 (Upper v - prev)) (AssignedToPhysical v) :: token_counts (Upper v) l
  end.

Definition owns_percentages (l : list Virtual) : list Virtual :=
  match l with
  | [] => []
  | v :: rest =>
      MkVirtual (v_Name v) (Upper v) (u64 (Upper v + (u64_max - default 0 (Upper <$> last l)))) (AssignedToPhysical v) :: token_counts (Upper v) rest
  end.

Definition assign (v : Virtual) (physical : string) : Virtual := MkVirtual (v_Name v) (Upper v) (v_OwnsPercentage v) physical.
Definition own (p : Physical) (v : Virtual) : Physical :=
  MkPhysical (Name p) (OwnsVirtual p ++ [v_Name v]) (OwnsPercentage p + v_OwnsPercentage v) (LegacyBelongsToNode p) (BelongsToNodes p) (Status p).

Fixpoint distribute (ids physicalIDs : list string) (i : nat) (physical : gmap string Physical) (virtual : list Virtual) :
    result (gmap string Physical * list Virtual) :=
  match ids with
  | [] => Ok (physical, virtual)
  | vid :: ids =>
      match physicalIDs !! (i mod length physicalIDs)%nat, VirtualByName virtual vid with
      | Some picked, Some (j, v) =>
          let p := default (new_physical "" [] "") (physical !! picked) in
          distribute ids physicalIDs (S i) (<[picked := own p v]> physical) (<[j := assign v picked]> virtual)
      | _, _ => Panic
      end
  end.

Section random.
Context (name_at : nat -> string) (shuffle : list string -> list string) (order : gmap string Physical -> list string)
  (sort_upper : list Virtual -> list Virtual) (Sum64 : string -> Z).

Definition drawn (from count : nat) : list string := map name_at (seq from count).

Definition initPhysical (s : State) (nodes : list string) (replFactor : Z) : result State :=
  match nodes with
  | [] => Err ErrNoNodes
  | _ =>
      let! m := init_shards (drawn 0 (Z.to_nat (DesiredCount (s_Config s)))) nodes replFactor (start_after_last nodes) ∅ ∅ in
      Ok (set_Physicals s m)
  end.

Definition initVirtual (s : State) : result State :=
  let count := DesiredVirtualCount (s_Config s) in
  if count <? 0 then Panic
  else
    let virtual := map (fun name => MkVirtual name (Sum64 name) 0 "") (drawn (Z.to_nat (DesiredCount (s_Config s))) (Z.to_nat count)) in
    Ok (set_Virtuals s (owns_percentages (sort_upper virtual))).

Definition distributeVirtualAmongPhysical (s : State) : result State :=
  let ids := shuffle (map v_Name (Virtuals s)) in
  let! (physical, virtual) := distribute ids (order (Physicals s)) 0 (Physicals s) (Virtuals s) in
  Ok (set_Virtuals (set_Physicals s physical) virtual).

Definition InitState (id : string) (config : Config) (nodeLocalName : string) (names : list string) (replFactor : Z)
    (partitioningEnabled : bool) : result State :=
  if replFactor <? 1 then Err ErrReplFactor
  else if Z.of_nat (length names) <? replFactor then Err ErrFewNodes
  else
    let out := MkState id config ∅ [] partitioningEnabled replFactor nodeLocalName in
    if partitioningEnabled then Ok out
    else
      let! out := initPhysical out names replFactor in
      let! out := initVirtual out in
      distributeVirtualAmongPhysical out.

Definition PhysicalShard (s : State) (key : string) : result string :=
  if bool_decide (Physicals s = ∅) then Panic
  else if bool_decide (length (Virtuals s) = 0%nat) then Panic
  else let! virtual := virtualByToken s (Sum64 key) in Ok (AssignedToPhysical virtual).

Definition Shard (s : State) (partitionKey objectID : string) : result string :=
  if PartitioningEnabled s then match Physicals s !! partitionKey with Some _ => Ok partitionKey | None => Ok "" end
  else PhysicalShard s objectID.
End random.

(** ** Changes of a state; an error leaves the state as far as it got *)

Section changes.
Context (order : gmap string Physical -> list string).

(** The steps after a migration that succeeds *)
Definition with_factor {A} (s : State) (k : State -> State * fallible A) : State * fallible A :=
  match MigrateShardingStateReplicationFactor order s with inl e => (s, inl e) | inr s => k s end.

Definition AddReplicaToShard (s : State) (shard replica : string) : State * fallible unit :=
  with_factor s (fun s =>
    match Physicals s !! shard with
    | None => (s, inl (ErrShardMissing shard))
    | Some phys =>
        match AddReplica phys replica with
        | inl e => (s, inl e)
        | inr phys => (set_Physicals s (<[shard := phys]> (Physicals s)), inr tt)
        end
    end).

Definition DeleteReplicaFromShard (s : State) (shard replica : string) : State * fallible unit :=
  with_factor s (fun s =>
    match Physicals s !! shard with
    | None => (s, inl (ErrShardMissing shard))
    | Some phys =>
        match NumberOfReplicas s shard with
        | inl e => (s, inl e)
        | inr numberOfReplicas =>
            if numberOfReplicas <=? ReplicationFactor s then (s, inl (ErrMinReplicas (ReplicationFactor s)))
            else (set_Physicals s (<[shard := DeleteReplica phys replica]> (Physicals s)), inr tt)
        end
    end).

Definition AddPartition (s : State) (name : string) (nodes : list string) (status : string) : State * fallible Physical :=
  with_factor s (fun s =>
    let p := MkPhysical name [] u64_max "" nodes status in
    (set_Physicals s (<[name := p]> (Physicals s)), inr p)).

(** The status of the shard that was deleted, if it existed *)
Definition DeletePartition (s : State) (name : string) : State * fallible (option string) :=
  with_factor s (fun s =>
    match Physicals s !! name with
    | None => (s, inr None)
    | Some t => (set_Physicals s (delete name (Physicals s)), inr (Some (Status t)))
    end).

Definition rename (nodeMapping : gmap string string) (node : string) : string := default node (nodeMapping !! node).

Definition ApplyNodeMapping (s : State) (nodeMapping : gmap string string) : State :=
  if bool_decide (nodeMapping = ∅) then s
  else
    set_Physicals s ((fun v =>
      MkPhysical (Name v) (OwnsVirtual v) (OwnsPercentage v)
        (if bool_decide (LegacyBelongsToNode v = "") then "" else rename nodeMapping (LegacyBelongsToNode v))
        (map (rename nodeMapping) (BelongsToNodes v)) (Status v)) <$> Physicals s).

Definition p_DeepCopy (p : Physical) : Physical := MkPhysical (Name p) (OwnsVirtual p) (OwnsPercentage p) "" (BelongsToNodes p) (Status p).

Definition zero_config : Config := MkConfig 0 0 0 0 0 "" "" "".

Definition DeepCopy (s : State) : State :=
  match MigrateShardingStateReplicationFactor order (set_Physicals s (p_DeepCopy <$> Physicals s)) with
  | inr s => s
  | inl _ => MkState "" zero_config ∅ [] false 0 ""
  end.
End changes.

(** ** Queries *)

Definition AllPhysicalShards (s : State) : list string := merge_sort String.le (map (fun kv => Name kv.2) (map_to_list (Physicals s))).
Definition AllLocalPhysicalShards (s : State) : list string :=
  merge_sort String.le (map (fun kv => Name kv.2) (filter (fun kv => IsLocalPhysical s kv.2 = true) (map_to_list (Physicals s)))).
Definition LocalActivePhysicalShardsCount (s : State) : Z :=
  Z.of_nat (length (filter (fun kv => IsLocalPhysical s kv.2 = true /\ Status kv.2 = "HOT") (map_to_list (Physicals s)))).

(** * Placement *)

Section placement.
Context (nodes : list string).
Hypothesis Hnodup : NoDup nodes.
Hypothesis Hne : nodes <> [].
Local Notation len := (length nodes).

(** The nodes as a ring *)
Definition ring (i : nat) : string := nodes !!! (i mod len)%nat.
Definition window (i k : nat) : list string := map (fun t => ring (i + t)) (seq 0 k).
Definition at_ring (i : nat) : NodeIterator := NI nodes (Z.of_nat (i mod len)).

Lemma nodes_pos : (0 < len)%nat.
Proof. destruct nodes; [done|cbn; lia]. Qed.

Lemma ring_lookup i : nodes !! (i mod len)%nat = Some (ring i).
Proof. apply list_lookup_lookup_total_lt, Nat.mod_upper_bound. pose proof nodes_pos. lia. Qed.

Lemma ring_in i : ring i ∈ nodes.
Proof. apply list_elem_of_lookup. eexists. apply ring_lookup. Qed.

Lemma Next_ring i : Next (at_ring i) = Ok (ring i, at_ring (S i)).
Proof.
  unfold Next, at_ring. cbn [hostnames it_state]. rewrite Nat2Z.id, ring_lookup. do 3 f_equal. unfold wrap.
  pose proof nodes_pos. pose proof (Nat.mod_upper_bound i len ltac:(lia)). pose proof (Nat.div_mod_eq i len) as Hi.
  assert (HS : (S i mod len = if decide (i mod len + 1 = len)%nat then 0 else i mod len + 1)%nat).
  { rewrite <- Nat.add_1_r. destruct (decide (i mod len + 1 = len)%nat) as [E|E].
    - symmetry. apply (Nat.mod_unique _ _ (i / len + 1)); nia.
    - symmetry. apply (Nat.mod_unique _ _ (i / len)); lia. }
  rewrite HS. destruct (decide _); destruct (Z.eqb_spec (Z.of_nat (i mod len) + 1) (Z.of_nat len)); lia.
Qed.

Lemma take_next_window k : forall i, take_next k (at_ring i) = Ok (window i k, at_ring (i + k)).
Proof.
  induction k as [|k IH]; intros i; cbn [take_next]; [by rewrite Nat.add_0_r|].
  rewrite Next_ring. cbn [obind]. rewrite IH. cbn [obind]. unfold window. cbn [seq map]. rewrite Nat.add_0_r, <- seq_shift, map_map.
  replace (S i + k)%nat with (i + S k)%nat by lia. do 3 f_equal. apply map_ext. intros t. f_equal. lia.
Qed.

Lemma window_NoDup i k : (k <= len)%nat -> NoDup (window i k).
Proof.
  intros Hk. unfold window. apply NoDup_fmap_2_strong; [|apply NoDup_seq].
  intros a b Ha%elem_of_seq Hb%elem_of_seq E.
  assert (Hm : ((i + a) mod len = (i + b) mod len)%nat) by (eapply NoDup_lookup; [exact Hnodup|apply ring_lookup|rewrite E; apply ring_lookup]).
  pose proof nodes_pos. pose proof (Nat.div_mod_eq (i + a) len). pose proof (Nat.div_mod_eq (i + b) len).
  destruct (Nat.lt_trichotomy ((i + a) / len) ((i + b) / len)) as [Hq|[Hq|Hq]]; [nia|rewrite Hq in *; lia|nia].
Qed.

Lemma length_window i k : length (window i k) = k.
Proof. unfold window. by rewrite length_map, length_seq. Qed.

Lemma window_sub i k x : x ∈ window i k -> x ∈ nodes.
Proof. intros (t & -> & _)%list_elem_of_fmap. apply ring_in. Qed.

Lemma ring_reaches i x : x ∈ nodes -> exists j, (j < len)%nat /\ ring (i + j) = x.
Proof.
  intros [k Hk]%list_elem_of_lookup. pose proof (lookup_lt_Some _ _ _ Hk). pose proof nodes_pos.
  pose proof (Nat.mod_upper_bound i len ltac:(lia)). pose proof (Nat.div_mod_eq i len).
  exists ((k + len - i mod len) mod len)%nat. split; [apply Nat.mod_upper_bound; lia|]. unfold ring.
  rewrite Nat.Div0.add_mod_idemp_r. replace ((i + (k + len - i mod len)) mod len)%nat with k; [by apply list_lookup_total_correct|].
  apply (Nat.mod_unique _ _ (i / len + 1)); nia.
Qed.

(** ** The first node of a shard *)

Definition new_round (nodeSet : gset string) : gset string := if Z.of_nat (size nodeSet) =? Z.of_nat len then ∅ else nodeSet.

Lemma select_first turns : forall i nodeSet,
  size nodeSet <> len -> (exists j, (j < turns)%nat /\ ring (i + j) ∉ nodeSet) ->
  exists a, select_owner turns nodes (at_ring i) nodeSet = Ok (ring a, at_ring (S a), {[ring a]} ∪ nodeSet) /\ ring a ∉ nodeSet.
Proof.
  induction turns as [|turns IH]; intros i nodeSet Hs (j & Hj & Hin); [lia|]. cbn [select_owner]. rewrite Next_ring. cbn [obind].
  rewrite (proj2 (Z.eqb_neq _ _)) by lia. case_bool_decide as Hi; [|by exists i].
  destruct j as [|j]; [by rewrite Nat.add_0_r in Hin|]. apply (IH (S i)); [done|]. exists j. split; [lia|].
  by replace (S i + j)%nat with (i + S j)%nat by lia.
Qed.

Lemma size_nodes : size (list_to_set nodes : gset string) = len.
Proof. by apply size_list_to_set. Qed.

Lemma missing_node (nodeSet : gset string) : (size nodeSet < len)%nat -> exists x, x ∈ nodes /\ x ∉ nodeSet.
Proof.
  intros Hs. destruct (decide (Forall (fun x => x ∈ nodeSet) nodes)) as [Hall|Hex].
  - assert (Hsub : (list_to_set nodes : gset string) ⊆ nodeSet).
    { intros x Hx%elem_of_list_to_set. by apply (proj1 (Forall_forall _ _) Hall). }
    apply subseteq_size in Hsub. rewrite size_nodes in Hsub. lia.
  - apply not_Forall_Exists in Hex; [|apply _]. apply Exists_exists in Hex as (x & Hx & Hn). by exists x.
Qed.

Lemma select_owner_spec i (nodeSet : gset string) :
  nodeSet ⊆ list_to_set nodes ->
  exists a, select_owner len nodes (at_ring i) nodeSet = Ok (ring a, at_ring (S a), {[ring a]} ∪ new_round nodeSet) /\ ring a ∉ new_round nodeSet.
Proof.
  intros Hsub. pose proof nodes_pos. assert (Hle : (size nodeSet <= len)%nat) by (rewrite <- size_nodes; by apply subseteq_size).
  assert (Hs : (size (new_round nodeSet) < len)%nat).
  { unfold new_round. destruct (Z.eqb_spec (Z.of_nat (size nodeSet)) (Z.of_nat len)); [by rewrite size_empty|lia]. }
  destruct (missing_node _ Hs) as (x & Hx & Hn). destruct (ring_reaches i x Hx) as (j & Hj & E).
  assert (Eq : select_owner len nodes (at_ring i) nodeSet = select_owner len nodes (at_ring i) (new_round nodeSet)).
  { destruct len as [|m] eqn:En; [lia|]. cbn [select_owner]. rewrite Next_ring. cbn [obind]. unfold new_round in *. rewrite En in *.
    destruct (Z.eqb_spec (Z.of_nat (size nodeSet)) (Z.of_nat (S m))) as [E1|E1]; [|rewrite (proj2 (Z.eqb_neq _ _)) by done; done].
    rewrite size_empty. done. }
  rewrite Eq. apply select_first; [lia|]. exists j. by rewrite E.
Qed.

(** ** All the shards *)

(** The nodes of [count] shards, one after the other *)
Fixpoint picks (count : nat) (replFactor : Z) (it : NodeIterator) (nodeSet : gset string) : result (list (list string)) :=
  match count with
  | O => Ok []
  | S count =>
      let! (w, it, nodeSet) := pick_replicas nodes replFactor it nodeSet in
      let! ws := picks count replFactor it nodeSet in Ok (w :: ws)
  end.

Definition good_replicas (replFactor : Z) (w : list string) : Prop :=
  NoDup w /\ Z.of_nat (length w) = Z.max 1 replFactor /\ Forall (fun x => x ∈ nodes) w.

(** How many of the shards have [x] as their first node *)
Definition primaries (x : string) (ws : list (list string)) : nat := length (filter (fun w => head w = Some x) ws).

Lemma primaries_cons x w ws : primaries x (w :: ws) = ((if decide (head w = Some x) then 1 else 0) + primaries x ws)%nat.
Proof. unfold primaries. rewrite filter_cons. by destruct (decide _). Qed.

Lemma pick_replicas_spec replFactor i nodeSet :
  0 <= replFactor <= Z.of_nat len -> nodeSet ⊆ list_to_set nodes ->
  exists a w, pick_replicas nodes replFactor (at_ring i) nodeSet = Ok (w, at_ring (a + length w), {[ring a]} ∪ new_round nodeSet) /\
    w = window a (length w) /\ good_replicas replFactor w /\ head w = Some (ring a) /\ ring a ∉ new_round nodeSet.
Proof.
  intros Hr Hsub. unfold pick_replicas. rewrite (proj2 (Z.ltb_ge _ _)) by lia. destruct (select_owner_spec i nodeSet Hsub) as (a & -> & Ha). cbn [obind].
  rewrite take_next_window. cbn [obind]. set (k := Z.to_nat (replFactor - 1)).
  assert (Hw : ring a :: window (S a) k = window a (S k)).
  { unfold window. cbn [seq map]. rewrite Nat.add_0_r, <- seq_shift, map_map. f_equal. apply map_ext. intros t. f_equal. lia. }
  exists a, (window a (S k)). rewrite Hw, length_window. pose proof nodes_pos. split_and!; [|done| |by rewrite <- Hw|done].
  - do 3 f_equal. f_equal. lia.
  - split_and!; [apply window_NoDup; lia|rewrite length_window; lia|]. apply Forall_forall. intros x. apply window_sub.
Qed.

(** What was placed so far: each node is first as often as any other, once more if it has had its turn in this round *)
Definition fair (count : string -> nat) (nodeSet : gset string) : Prop :=
  nodeSet ⊆ list_to_set nodes /\ exists q, forall x, x ∈ nodes -> count x = (q + if decide (x ∈ nodeSet) then 1 else 0)%nat.

Lemma fair_step count nodeSet x :
  fair count nodeSet -> x ∈ nodes -> x ∉ new_round nodeSet ->
  fair (fun y => count y + if decide (y = x) then 1 else 0)%nat ({[x]} ∪ new_round nodeSet).
Proof.
  intros [Hsub [q Hq]] Hx Hn.
  assert (Hfair : fair count (new_round nodeSet)).
  { unfold new_round in *. destruct (Z.eqb_spec (Z.of_nat (size nodeSet)) (Z.of_nat len)) as [E|E]; [|by split; [|exists q]].
    assert (Hall : nodeSet ≡ list_to_set nodes) by (apply set_subseteq_size_equiv; [done|rewrite size_nodes; lia]).
    split; [set_solver|]. exists (S q). intros y Hy. rewrite Hq by done. rewrite !decide_True by (rewrite Hall; by apply elem_of_list_to_set).
    rewrite decide_False by set_solver. lia. }
  destruct Hfair as [Hsub' [q' Hq']]. split.
  - apply union_subseteq. split; [|done]. apply singleton_subseteq_l. by apply elem_of_list_to_set.
  - exists q'. intros y Hy. rewrite Hq' by done. destruct (decide (y = x)) as [->|Hyx].
    + rewrite (decide_False (P := x ∈ new_round nodeSet)) by done. rewrite decide_True by set_solver. lia.
    + destruct (decide (y ∈ new_round nodeSet)); [rewrite decide_True by set_solver|rewrite decide_False by set_solver]; lia.
Qed.

Lemma picks_spec replFactor count : forall i nodeSet before,
  0 <= replFactor <= Z.of_nat len -> fair before nodeSet ->
  exists ws, picks count replFactor (at_ring i) nodeSet = Ok ws /\ length ws = count /\ Forall (good_replicas replFactor) ws /\
    exists nodeSet', fair (fun x => before x + primaries x ws)%nat nodeSet'.
Proof.
  induction count as [|count IH]; intros i nodeSet before Hr Hf; cbn [picks].
  { exists []. split_and!; [done|done|constructor|]. exists nodeSet. destruct Hf as [Hs [q Hq]]. split; [done|]. exists q. intros x Hx. rewrite Hq by done.
    unfold primaries. cbn. lia. }
  destruct (pick_replicas_spec replFactor i nodeSet Hr (proj1 Hf)) as (a & w & -> & Hw & Hg & Hh & Ha). cbn [obind].
  pose proof (fair_step before nodeSet (ring a) Hf (ring_in a) Ha) as Hf'.
  destruct (IH (a + length w)%nat _ _ Hr Hf') as (ws & -> & Hl & Hgs & nodeSet' & Hs' & q & Hq). cbn [obind].
  exists (w :: ws). split_and!; [done|by rewrite <- Hl|by constructor|]. exists nodeSet'. split; [done|]. exists q. intros x Hx. rewrite <- Hq by done.
  rewrite primaries_cons, Hh. destruct (decide (x = ring a)) as [->|Hne']; [rewrite decide_True by done|rewrite decide_False by congruence]; lia.
Qed.

Lemma start_ring : start_after_last nodes = at_ring 0.
Proof.
  unfold start_after_last, SetStartNode. cbn [hostnames NewNodeIterator]. destruct (last nodes) as [x|] eqn:El; [|by apply last_None in El].
  cbn [default from_option id]. pose proof El as E. rewrite last_lookup in E.
  destruct (list_find _ nodes) as [[i y]|] eqn:Hf.
  - apply list_find_Some in Hf as (Hi & -> & _). pose proof nodes_pos.
    assert (i = Nat.pred len) as -> by (eapply NoDup_lookup; [exact Hnodup|exact Hi|exact E]).
    unfold at_ring. rewrite Nat.Div0.mod_0_l. f_equal. unfold wrap. rewrite (proj2 (Z.eqb_eq _ _)) by lia. done.
  - exfalso. rewrite list_find_None, Forall_forall in Hf. apply list_elem_of_lookup_2 in E. by apply (Hf x E).
Qed.

Lemma picks_start replFactor count :
  0 <= replFactor <= Z.of_nat len ->
  exists ws, picks count replFactor (start_after_last nodes) ∅ = Ok ws /\ length ws = count /\ Forall (good_replicas replFactor) ws /\
    forall x y, x ∈ nodes -> y ∈ nodes -> (primaries x ws <= primaries y ws + 1)%nat.
Proof.
  intros Hr. rewrite start_ring. destruct (picks_spec replFactor count 0 ∅ (fun _ => 0%nat) Hr) as (ws & E & Hl & Hg & set & _ & q & Hq).
  { split; [set_solver|]. exists 0%nat. intros x _. rewrite decide_False by set_solver. done. }
  exists ws. split_and!; [done..|]. intros x y Hx Hy. pose proof (Hq x Hx) as H1. pose proof (Hq y Hy) as H2. cbn in H1, H2.
  destruct (decide (x ∈ set)), (decide (y ∈ set)); lia.
Qed.
End placement.

(** The shards of a request that get new nodes: those that do not exist, and the frozen ones *)
Definition to_place (s : State) (name : string) : bool :=
  match Physicals s !! name with Some p => frozen_status (Status p) | None => true end.

Lemma partition_shards_picks s nodes replFactor shards : forall it nodeSet parts,
  partition_shards s shards nodes replFactor it nodeSet parts
  = let! ws := picks nodes (length (filter (fun x => to_place s x = true) shards)) replFactor it nodeSet in
    Ok (foldl (fun m '(name, w) => <[name := w]> m) parts (zip (filter (fun x => to_place s x = true) shards) ws)).
Proof.
  induction shards as [|name shards IH]; intros it nodeSet parts; [done|]. cbn [partition_shards].
  replace (match Physicals s !! name with Some p => negb (frozen_status (Status p)) | None => false end) with (negb (to_place s name))
    by (unfold to_place; by destruct (Physicals s !! name)).
  rewrite filter_cons. destruct (to_place s name) eqn:Ep; cbn [negb]; [rewrite decide_True by done|rewrite decide_False by done; apply IH].
  cbn [length picks]. destruct (pick_replicas _ _ _ _) as [[[w it'] set']|e| |]; cbn [obind]; try done. rewrite IH. by destruct (picks _ _ _ _ _).
Qed.

Lemma init_shards_picks nodes replFactor names : forall it nodeSet m,
  init_shards names nodes replFactor it nodeSet m
  = let! ws := picks nodes (length names) replFactor it nodeSet in
    Ok (foldl (fun m '(name, w) => <[name := new_physical name w ""]> m) m (zip names ws)).
Proof.
  induction names as [|name names IH]; intros it nodeSet m; [done|]. cbn [init_shards length picks].
  destruct (pick_replicas _ _ _ _) as [[[w it'] set']|e| |]; cbn [obind]; try done. rewrite IH. by destruct (picks _ _ _ _ _).
Qed.

(** A fold of insertions at different keys *)
Lemma foldl_insert_perm {A} (f : string -> list string -> A) (l : list (string * list string)) : forall m : gmap string A,
  NoDup l.*1 -> (forall x, x ∈ l.*1 -> m !! x = None) ->
  map_to_list (foldl (fun m '(name, w) => <[name := f name w]> m) m l) ≡ₚ map (fun '(name, w) => (name, f name w)) l ++ map_to_list m.
Proof.
  induction l as [|[k w] l IH]; intros m Hnd Hm; [done|]. cbn [foldl map fmap list_fmap fst] in *. apply NoDup_cons in Hnd as [Hk Hnd].
  rewrite IH; [|done|].
  - rewrite map_to_list_insert by (apply Hm; by left). by rewrite <- Permutation_middle.
  - intros x Hx. rewrite lookup_insert_ne by (intros ->; done). apply Hm. by right.
Qed.

Lemma foldl_insert_empty {A} (f : string -> list string -> A) l :
  NoDup l.*1 ->
  let m := foldl (fun m '(name, w) => <[name := f name w]> m) (∅ : gmap string A) l in
  map_to_list m ≡ₚ map (fun '(name, w) => (name, f name w)) l /\ (forall k a, m !! k = Some a <-> exists w, (k, w) ∈ l /\ a = f k w).
Proof.
  intros Hnd m. assert (Hp : map_to_list m ≡ₚ map (fun '(name, w) => (name, f name w)) l).
  { unfold m. rewrite (foldl_insert_perm f l ∅ Hnd) by done. by rewrite map_to_list_empty, app_nil_r. }
  split; [done|]. intros k a. rewrite <- elem_of_map_to_list, Hp. rewrite list_elem_of_fmap. split.
  - intros ([k' w] & E & Hin). simplify_eq. by exists w.
  - intros (w & Hin & ->). by exists (k, w).
Qed.

Lemma primaries_perm x ws ws' : ws ≡ₚ ws' -> primaries x ws = primaries x ws'.
Proof. intros Hp. unfold primaries. by rewrite Hp. Qed.

(** What [GetPartitions] gives; its placements are counted by their first nodes *)
Lemma GetPartitions_spec s nodes shards replFactor :
  NoDup nodes -> nodes <> [] -> NoDup shards -> 0 <= replFactor <= Z.of_nat (length nodes) ->
  exists parts, GetPartitions s nodes shards replFactor = Ok parts /\
    (forall x, x ∈ dom parts <-> x ∈ shards /\ to_place s x = true) /\
    (forall x w, parts !! x = Some w -> good_replicas nodes replFactor w) /\
    (forall x y, x ∈ nodes -> y ∈ nodes -> (primaries x (map_to_list parts).*2 <= primaries y (map_to_list parts).*2 + 1)%nat).
Proof.
  intros Hnd Hne Hsh Hr. set (new := filter (fun x => to_place s x = true) shards).
  destruct (picks_start nodes Hnd Hne replFactor (length new) Hr) as (ws & E & Hl & Hg & Hfair).
  assert (Hz1 : (zip new ws).*1 = new) by (apply fst_zip; lia). assert (Hz2 : (zip new ws).*2 = ws) by (apply snd_zip; lia).
  assert (Hnew : NoDup (zip new ws).*1) by (rewrite Hz1; by apply NoDup_filter).
  destruct (foldl_insert_empty (fun _ w => w) (zip new ws) Hnew) as [Hp Hlk].
  set (parts := foldl (fun m '(name, w) => <[name := w]> m) (∅ : gmap string (list string)) (zip new ws)) in *. exists parts.
  assert (Hws : (map_to_list parts).*2 ≡ₚ ws).
  { rewrite Hp. rewrite <- Hz2 at 2. rewrite <- list_fmap_compose. apply Permutation_refl'. apply list_fmap_ext. by intros ? [? ?] ?. }
  split_and!.
  - unfold GetPartitions. destruct nodes; [done|]. rewrite (proj2 (Z.ltb_ge _ _)) by lia. rewrite partition_shards_picks. fold new. by rewrite E.
  - intros x. rewrite elem_of_dom. transitivity (x ∈ new).
    + rewrite <- Hz1, list_elem_of_fmap. split; [intros [w Hw]; apply Hlk in Hw as (w' & Hin & _); by exists (x, w')|].
      intros ([x' w] & -> & Hin). exists w. apply Hlk. by exists w.
    + unfold new. rewrite list_elem_of_filter. tauto.
  - intros x w (w' & Hin & ->)%Hlk. apply (proj1 (Forall_forall _ _) Hg). rewrite <- Hz2. apply list_elem_of_fmap. by exists (x, w').
  - intros x y Hx Hy. rewrite !(primaries_perm _ _ _ Hws). by apply Hfair.
Qed.

(** C15: the placement of new tenants: with different storage nodes and at least as many as replicas are asked for, placement
    succeeds (its loops end). Exactly the requested tenants that do not exist or are frozen get nodes; each gets that many
    different ones of the given nodes; and no node is first for more than one tenant more than any other. *)
Theorem partitions_placed s nodes shards replFactor :
  NoDup nodes -> nodes <> [] -> NoDup shards -> 0 <= replFactor <= Z.of_nat (length nodes) ->
  exists parts, GetPartitions s nodes shards replFactor = Ok parts /\
    (forall x, x ∈ dom parts <-> x ∈ shards /\ to_place s x = true) /\
    (forall x w, parts !! x = Some w -> good_replicas nodes replFactor w) /\
    (forall x y, x ∈ nodes -> y ∈ nodes -> (primaries x (map_to_list parts).*2 <= primaries y (map_to_list parts).*2 + 1)%nat).
Proof. apply GetPartitions_spec. Qed.

(** * The ring of virtual shards *)

Definition total (l : list Z) : Z := foldr Z.add 0 l.

Lemma total_app a b : total (a ++ b) = total a + total b.
Proof. induction a as [|x a IH]; [done|]. cbn [total foldr app] in *. unfold total in *. rewrite IH. lia. Qed.

Lemma total_zero l : Forall (fun z => z = 0) l -> total l = 0.
Proof. unfold total. induction 1; cbn [foldr]; lia. Qed.

#[export] Instance total_perm : Proper (Permutation ==> eq) total.
Proof. intros a b Hp. unfold total. induction Hp; cbn [foldr]; lia. Qed.

(** What an assignment does not change *)
Definition bounds (v : Virtual) : string * Z * Z := (v_Name v, Upper v, v_OwnsPercentage v).

(** The share of a virtual shard, by its name *)
Definition share (l : list Virtual) (name : string) : Z := from_option (fun jv => v_OwnsPercentage jv.2) 0 (VirtualByName l name).

Section distribution.
Context (physicalIDs : list string).
Local Notation p := (length physicalIDs).

(** The virtual shards that go to [x], from the turn [i] on *)
Fixpoint given (x : string) (ids : list string) (i : nat) : list string :=
  match ids with
  | [] => []
  | vid :: ids => (if bool_decide (physicalIDs !! (i mod p)%nat = Some x) then [vid] else []) ++ given x ids (S i)
  end.

Lemma given_sub x ids : forall i y, y ∈ given x ids i -> y ∈ ids.
Proof.
  induction ids as [|vid ids IH]; intros i y; cbn [given]; [done|]. intros [H|H]%elem_of_app; [|right; by apply (IH (S i))].
  case_bool_decide; [|by apply elem_of_nil in H]. apply list_elem_of_singleton in H as ->. left.
Qed.

Lemma VirtualByName_found (l : list Virtual) name : NoDup (v_Name <$> l) -> name ∈ v_Name <$> l ->
  exists j v, VirtualByName l name = Some (j, v) /\ l !! j = Some v /\ v_Name v = name.
Proof.
  intros Hnd (v & -> & [j Hj]%list_elem_of_lookup)%list_elem_of_fmap. unfold VirtualByName.
  destruct (list_find _ l) as [[j' v']|] eqn:E.
  - apply list_find_Some in E as (Hj' & E & _). exists j', v'. by rewrite E.
  - rewrite list_find_None, Forall_forall in E. exfalso. by apply (E v (list_elem_of_lookup_2 _ _ _ Hj)).
Qed.

Lemma names_of_bounds (l : list Virtual) : v_Name <$> l = (fun b => b.1.1) <$> (bounds <$> l).
Proof. rewrite <- list_fmap_compose. by apply list_fmap_ext. Qed.

Lemma bounds_assign (l : list Virtual) j v x : l !! j = Some v -> bounds <$> <[j := assign v x]> l = bounds <$> l.
Proof. intros Hj. rewrite list_fmap_insert. apply list_insert_id. by rewrite list_lookup_fmap, Hj. Qed.

Lemma share_bounds (l l' : list Virtual) name : bounds <$> l = bounds <$> l' -> share l name = share l' name.
Proof.
  intros E. unfold share, VirtualByName. revert l' E. induction l as [|v l IH]; intros [|v' l'] E; try done.
  cbn [fmap list_fmap] in E. injection E as E1 E2 E3 E. cbn [list_find]. rewrite <- E1.
  destruct (decide (v_Name v = name)); [done|]. specialize (IH l' E).
  destruct (list_find _ l) as [[? ?]|], (list_find _ l') as [[? ?]|]; cbn in *; congruence.
Qed.

Lemma total_insert_own (m : gmap string Physical) x q v :
  m !! x = Some q -> total (map (fun kv => OwnsPercentage kv.2) (map_to_list (<[x := own q v]> m)))
  = total (map (fun kv => OwnsPercentage kv.2) (map_to_list m)) + v_OwnsPercentage v.
Proof.
  intros Hx. rewrite <- (insert_delete_id m x q Hx) at 2. rewrite <- insert_delete_eq, !map_to_list_insert by apply lookup_delete_eq.
  cbn [map total foldr snd OwnsPercentage own]. lia.
Qed.

Lemma distribute_spec ids : forall i m (l : list Virtual),
  physicalIDs <> [] -> (forall x, x ∈ physicalIDs -> x ∈ dom m) ->
  NoDup (v_Name <$> l) -> NoDup ids -> (forall y, y ∈ ids -> y ∈ v_Name <$> l) ->
  exists m' l', distribute ids physicalIDs i m l = Ok (m', l') /\ bounds <$> l' = bounds <$> l /\ dom m' = dom m /\
    (forall x q', m' !! x = Some q' -> exists q, m !! x = Some q /\ Name q' = Name q /\ BelongsToNodes q' = BelongsToNodes q /\
      OwnsVirtual q' = OwnsVirtual q ++ given x ids i) /\
    total (map (fun kv => OwnsPercentage kv.2) (map_to_list m')) = total (map (fun kv => OwnsPercentage kv.2) (map_to_list m)) + total (map (share l) ids) /\
    (forall v', v' ∈ l' -> v_Name v' ∉ ids /\ v' ∈ l \/ AssignedToPhysical v' ∈ physicalIDs /\ v_Name v' ∈ given (AssignedToPhysical v') ids i).
Proof.
  induction ids as [|vid ids IH]; intros i m l Hp Hdom Hnd Hids Hsub; cbn [distribute].
  { exists m, l. split_and!; [done..| |cbn; lia|]; [intros x q' Hq; exists q'; by rewrite app_nil_r|]. intros v' Hv'. left. split; [apply not_elem_of_nil|done]. }
  apply NoDup_cons in Hids as [Hvid Hids].
  destruct (lookup_lt_is_Some_2 physicalIDs (i mod p)%nat) as [picked Hpick]; [apply Nat.mod_upper_bound; by destruct physicalIDs|]. rewrite Hpick.
  destruct (VirtualByName_found l vid Hnd ltac:(apply Hsub; by left)) as (j & v & Hby & Hj & Hv). rewrite Hby.
  assert (Hin : picked ∈ physicalIDs) by (by eapply list_elem_of_lookup_2). pose proof (Hdom _ Hin) as [q Hq]%elem_of_dom. rewrite Hq. cbn [default from_option id].
  set (m1 := <[picked := own q v]> m). set (l1 := <[j := assign v picked]> l).
  assert (Hb1 : bounds <$> l1 = bounds <$> l) by (by apply bounds_assign).
  assert (Hn1 : v_Name <$> l1 = v_Name <$> l) by (by rewrite !names_of_bounds, Hb1).
  assert (Hd1 : dom m1 = dom m) by (unfold m1; rewrite dom_insert_L; apply elem_of_dom_2 in Hq; set_solver).
  destruct (IH (S i) m1 l1) as (m' & l' & E & Hb & Hd & Hq' & Ht & Hl'); try done; [by rewrite Hd1|by rewrite Hn1|rewrite Hn1; intros y Hy; apply Hsub; by right|].
  exists m', l'. split_and!; [exact E|by rewrite Hb|by rewrite Hd| | |].
  - intros x q1 (q0 & H0 & HN & HB & HO)%Hq'. cbn [given]. rewrite Hpick. unfold m1 in H0. destruct (decide (picked = x)) as [->|Hne].
    + rewrite lookup_insert_eq in H0. simplify_eq. exists q. rewrite bool_decide_true by done. rewrite HN, HB, HO. cbn [own OwnsVirtual]. by rewrite <- app_assoc.
    + rewrite lookup_insert_ne in H0 by done. exists q0. by rewrite bool_decide_false by congruence.
  - rewrite Ht. unfold m1. rewrite total_insert_own by done. cbn [map]. rewrite (map_ext (share l1) (share l)) by (intros y; by apply share_bounds).
    assert (Hsh : share l vid = v_OwnsPercentage v) by (unfold share; by rewrite Hby). cbn [total foldr]. rewrite Hsh. unfold total. lia.
  - intros v' Hv'. cbn [given]. rewrite Hpick. destruct (Hl' v' Hv') as [[Hni Hold]|[H1 H2]].
    + unfold l1 in Hold. apply list_elem_of_lookup in Hold as [k Hk]. destruct (decide (j = k)) as [<-|Hjk].
      * rewrite list_lookup_insert_eq in Hk by (by eapply lookup_lt_Some). simplify_eq. right. cbn [assign AssignedToPhysical v_Name]. split; [done|].
        rewrite bool_decide_true by done. left.
      * rewrite list_lookup_insert_ne in Hk by done. left. split; [|by eapply list_elem_of_lookup_2]. apply not_elem_of_cons. split; [|done].
        intros En. apply Hjk. eapply NoDup_lookup; [exact Hnd|rewrite list_lookup_fmap, Hj; cbn; by rewrite Hv|rewrite list_lookup_fmap, Hk; cbn; by rewrite En].
    + right. split; [done|]. apply elem_of_app. by right.
Qed.

Lemma given_snoc x ids v : forall i,
  given x (ids ++ [v]) i = given x ids i ++ (if bool_decide (physicalIDs !! ((i + length ids) mod p)%nat = Some x) then [v] else []).
Proof.
  induction ids as [|y ids IH]; intros i; cbn [given app length]; [by rewrite Nat.add_0_r, app_nil_r|].
  rewrite IH, <- app_assoc. do 5 f_equal. replace (S i + length ids)%nat with (i + S (length ids))%nat by lia. done.
Qed.

Lemma given_length x k ids : NoDup physicalIDs -> physicalIDs !! k = Some x ->
  length (given x ids 0) = (length ids / p + if decide (k < length ids mod p) then 1 else 0)%nat.
Proof.
  intros Hnd Hk. pose proof (lookup_lt_Some _ _ _ Hk) as Hlt. induction ids as [|v ids IH] using rev_ind.
  { cbn [given length]. rewrite Nat.Div0.div_0_l, Nat.Div0.mod_0_l. rewrite decide_False by lia. done. }
  rewrite given_snoc, !length_app, IH. clear IH. cbn [length Nat.add]. generalize (length ids) as m. intros m. pose proof (Nat.div_mod_eq m p) as Hm. pose proof (Nat.mod_upper_bound m p ltac:(lia)) as Hb.
  assert (Hpick : bool_decide (physicalIDs !! (m mod p)%nat = Some x) = bool_decide (m mod p = k)%nat).
  { apply bool_decide_ext. split; [|by intros ->]. intros E. by eapply NoDup_lookup. }
  rewrite Hpick. clear Hpick. destruct (decide (m mod p + 1 = p)%nat) as [E|E].
  - assert (Hdiv : ((m + 1) / p = m / p + 1)%nat) by (symmetry; apply (Nat.div_unique _ _ _ 0); nia).
    assert (Hmod : ((m + 1) mod p = 0)%nat) by (symmetry; apply (Nat.mod_unique _ _ (m / p + 1)); nia). rewrite Hdiv, Hmod.
    rewrite (decide_False (P := (k < 0)%nat)) by lia. case_bool_decide; cbn [length]; destruct (decide _); lia.
  - assert (Hdiv : ((m + 1) / p = m / p)%nat) by (symmetry; apply (Nat.div_unique _ _ _ (m mod p + 1)); lia).
    assert (Hmod : ((m + 1) mod p = m mod p + 1)%nat) by (symmetry; apply (Nat.mod_unique _ _ (m / p)); lia). rewrite Hdiv, Hmod.
    case_bool_decide; cbn [length]; destruct (decide _), (decide _); lia.
Qed.

Lemma given_balanced x y ids : NoDup physicalIDs -> x ∈ physicalIDs -> y ∈ physicalIDs -> (length (given x ids 0) <= length (given y ids 0) + 1)%nat.
Proof.
  intros Hnd [k Hk]%list_elem_of_lookup [k' Hk']%list_elem_of_lookup. rewrite (given_length x k), (given_length y k') by done.
  destruct (decide _), (decide _); lia.
Qed.
End distribution.

(** ** The shares of the virtual shards add up to the whole ring *)

Definition le_upper (a b : Virtual) : Prop := Upper a <= Upper b.

Lemma token_counts_total l : forall prev,
  0 <= prev -> StronglySorted le_upper l -> Forall (fun v => prev <= Upper v < 2 ^ 64) l ->
  total (map v_OwnsPercentage (token_counts prev l)) = default prev (Upper <$> last l) - prev.
Proof.
  induction l as [|v l IH]; intros prev Hp Hs Hu; [cbn; lia|]. apply Forall_cons in Hu as [Hv Hu]. apply StronglySorted_inv in Hs as [Hs Hle].
  cbn [token_counts map total foldr v_OwnsPercentage]. fold (total (map v_OwnsPercentage (token_counts (Upper v) l))).
  rewrite IH; [|lia|done|]. 2: { rewrite Forall_forall in *. intros w Hw. specialize (Hle w Hw). specialize (Hu w Hw). unfold le_upper in Hle. lia. }
  unfold u64. rewrite Z.mod_small by lia. rewrite last_cons. destruct (last l); cbn; lia.
Qed.

Lemma owns_total l : l <> [] -> StronglySorted le_upper l -> Forall (fun v => is_u64 (Upper v)) l ->
  total (map v_OwnsPercentage (owns_percentages l)) = u64_max.
Proof.
  intros Hne Hs Hu. destruct l as [|v l]; [done|]. unfold owns_percentages. apply StronglySorted_inv in Hs as [Hs Hle]. apply Forall_cons in Hu as [Hv Hu].
  assert (Hrest : Forall (fun w => Upper v <= Upper w < 2 ^ 64) l).
  { rewrite Forall_forall in *. intros w Hw. specialize (Hle w Hw). specialize (Hu w Hw). unfold le_upper, is_u64 in *. lia. }
  cbn [map total foldr v_OwnsPercentage]. fold (total (map v_OwnsPercentage (token_counts (Upper v) l))).
  rewrite token_counts_total; [|unfold is_u64 in Hv; lia|done|done]. rewrite last_cons.
  assert (Hlast : Upper v <= default (Upper v) (Upper <$> last l) < 2 ^ 64).
  { destruct (last l) as [w|] eqn:E; cbn; [|unfold is_u64 in Hv; lia]. rewrite Forall_forall in Hrest. apply Hrest, last_Some_elem_of, E. }
  unfold u64, u64_max, is_u64 in *. destruct (last l) as [w|]; cbn [fmap option_fmap option_map default from_option id] in *; rewrite Z.mod_small by lia; lia.
Qed.

Lemma bounds_token_counts l : forall prev, (fun v => (v_Name v, Upper v)) <$> token_counts prev l = (fun v => (v_Name v, Upper v)) <$> l.
Proof. induction l as [|v l IH]; intros prev; cbn [token_counts fmap list_fmap]; [done|]. f_equal. apply IH. Qed.

Lemma bounds_owns l : (fun v => (v_Name v, Upper v)) <$> owns_percentages l = (fun v => (v_Name v, Upper v)) <$> l.
Proof. destruct l as [|v l]; [done|]. cbn [owns_percentages fmap list_fmap]. f_equal. apply bounds_token_counts. Qed.

(** ** The successor of a token on the ring *)

Definition successor (l : list Virtual) (token : Z) (v : Virtual) : Prop :=
  v ∈ l /\ ((token <= Upper v /\ forall w, w ∈ l -> token <= Upper w -> Upper v <= Upper w) \/
           ((forall w, w ∈ l -> Upper w < token) /\ forall w, w ∈ l -> Upper v <= Upper w)).

Lemma virtual_from_spec l token : StronglySorted le_upper l ->
  match virtual_from l token with
  | Some v => v ∈ l /\ token <= Upper v /\ forall w, w ∈ l -> token <= Upper w -> Upper v <= Upper w
  | None => forall w, w ∈ l -> Upper w < token
  end.
Proof.
  induction 1 as [|v l Hs IH Hle]; cbn [virtual_from]; [by intros w ?%elem_of_nil|]. rewrite Forall_forall in Hle. unfold le_upper in Hle.
  destruct (Z.ltb_spec (Upper v) token) as [Hlt|Hge].
  - destruct (virtual_from l token) as [u|].
    + destruct IH as (Hin & Ht & Hmin). split_and!; [by right|done|]. intros w [->|Hw]%elem_of_cons Htw; [lia|by apply Hmin].
    + intros w [->|Hw]%elem_of_cons; [done|by apply IH].
  - split_and!; [left|done|]. intros w [->|Hw]%elem_of_cons _; [lia|by apply Hle].
Qed.

Lemma virtualByToken_spec s token : Virtuals s <> [] -> StronglySorted le_upper (Virtuals s) ->
  exists v, virtualByToken s token = Ok v /\ successor (Virtuals s) token v.
Proof.
  intros Hne Hs. unfold virtualByToken. pose proof (virtual_from_spec (Virtuals s) token Hs) as Hv.
  destruct (virtual_from (Virtuals s) token) as [v|]; [destruct Hv as (H1 & H2 & H3); exists v; split; [done|]; split; [done|by left]|].
  destruct (Virtuals s) as [|v l]; [done|]. exists v. split; [done|]. split; [left|right]. split; [done|].
  apply StronglySorted_inv in Hs as [_ Hle]. rewrite Forall_forall in Hle. intros w [->|Hw]%elem_of_cons; [lia|by apply Hle].
Qed.

(** * A new state *)

(** What the code relies on of the random and third-party functions it calls *)
Class InitLaws (shuffle : list string -> list string) (order : gmap string Physical -> list string) (sort_upper : list Virtual -> list Virtual)
    (Sum64 : string -> Z) : Prop := {
  shuffle_perm l : shuffle l ≡ₚ l;
  order_keys m : order m ≡ₚ (map_to_list m).*1;
  sort_perm l : sort_upper l ≡ₚ l;
  sort_sorted l : StronglySorted le_upper (sort_upper l);
  Sum64_range key : is_u64 (Sum64 key)
}.

(** The replicas of every shard, in no particular order *)
Definition replica_lists (s : State) : list (list string) := map (fun kv => BelongsToNodes kv.2) (map_to_list (Physicals s)).

Record initialised (nodes : list string) (replFactor : Z) (names : list string) (s : State) : Prop := {
  in_names : dom (Physicals s) = list_to_set names;
  in_replicas : forall x q, Physicals s !! x = Some q -> Name q = x /\ good_replicas nodes replFactor (BelongsToNodes q);
  in_first : forall x y, x ∈ nodes -> y ∈ nodes -> (primaries x (replica_lists s) <= primaries y (replica_lists s) + 1)%nat;
  in_balance : forall x y q r, Physicals s !! x = Some q -> Physicals s !! y = Some r -> (length (OwnsVirtual q) <= length (OwnsVirtual r) + 1)%nat;
  in_whole : Virtuals s <> [] -> total (map (fun kv => OwnsPercentage kv.2) (map_to_list (Physicals s))) = u64_max;
  in_owner : forall v, v ∈ Virtuals s -> exists q, Physicals s !! AssignedToPhysical v = Some q /\ v_Name v ∈ OwnsVirtual q;
  in_sorted : StronglySorted le_upper (Virtuals s)
}.

Section init.
Context (name_at : nat -> string) (shuffle : list string -> list string) (order : gmap string Physical -> list string)
  (sort_upper : list Virtual -> list Virtual) (Sum64 : string -> Z) `{!InitLaws shuffle order sort_upper Sum64}.

Lemma initPhysical_spec s nodes replFactor :
  let names := drawn name_at 0 (Z.to_nat (DesiredCount (s_Config s))) in
  NoDup nodes -> nodes <> [] -> 0 <= replFactor <= Z.of_nat (length nodes) -> NoDup names ->
  exists m, initPhysical name_at s nodes replFactor = Ok (set_Physicals s m) /\ dom m = list_to_set names /\
    (forall x q, m !! x = Some q -> exists w, q = new_physical x w "" /\ good_replicas nodes replFactor w) /\
    (forall x y, x ∈ nodes -> y ∈ nodes ->
      (primaries x (map (fun kv => BelongsToNodes kv.2) (map_to_list m)) <= primaries y (map (fun kv => BelongsToNodes kv.2) (map_to_list m)) + 1)%nat).
Proof.
  intros names Hnd Hne Hr Hnames. destruct (picks_start nodes Hnd Hne replFactor (length names) Hr) as (ws & E & Hl & Hg & Hfair).
  assert (Hz1 : (zip names ws).*1 = names) by (apply fst_zip; lia). assert (Hz2 : (zip names ws).*2 = ws) by (apply snd_zip; lia).
  destruct (foldl_insert_empty (fun name w => new_physical name w "") (zip names ws)) as [Hp Hlk]; [by rewrite Hz1|].
  set (m := foldl (fun m '(name, w) => <[name := new_physical name w ""]> m) (∅ : gmap string Physical) (zip names ws)) in *. exists m.
  assert (Hws : map (fun kv => BelongsToNodes kv.2) (map_to_list m) ≡ₚ ws).
  { etransitivity; [apply Permutation_map, Hp|]. rewrite <- Hz2 at 2. rewrite map_map. apply Permutation_refl'. apply map_ext. by intros [? ?]. }
  split_and!.
  - unfold initPhysical. destruct nodes; [done|]. rewrite init_shards_picks. fold names. by rewrite E.
  - apply set_eq. intros x. rewrite elem_of_dom, elem_of_list_to_set, <- Hz1, list_elem_of_fmap. split.
    + intros [q Hq]. apply Hlk in Hq as (w & Hin & _). by exists (x, w).
    + intros ([x' w] & -> & Hin). exists (new_physical x' w ""). apply Hlk. by exists w.
  - intros x q (w & Hin & ->)%Hlk. exists w. split; [done|]. apply (proj1 (Forall_forall _ _) Hg). rewrite <- Hz2. apply list_elem_of_fmap. by exists (x, w).
  - intros x y Hx Hy. rewrite !(primaries_perm _ _ _ Hws). by apply Hfair.
Qed.

Lemma sorted_bounds (l l' : list Virtual) : Upper <$> l = Upper <$> l' -> StronglySorted le_upper l -> StronglySorted le_upper l'.
Proof.
  intros E Hs. revert l' E. induction Hs as [|v l Hs IH Hle]; intros [|v' l'] E; try done; [constructor|]. cbn [fmap list_fmap] in E. injection E as E1 E.
  constructor; [by apply IH|]. rewrite Forall_forall in *. intros w Hw. assert (Hw' : Upper w ∈ Upper <$> l') by (apply list_elem_of_fmap; by exists w).
  rewrite <- E in Hw'. apply list_elem_of_fmap in Hw' as (u & Eu & Hu). specialize (Hle u Hu). unfold le_upper in *. lia.
Qed.

Lemma initVirtual_spec s :
  let names := drawn name_at (Z.to_nat (DesiredCount (s_Config s))) (Z.to_nat (DesiredVirtualCount (s_Config s))) in
  0 <= DesiredVirtualCount (s_Config s) -> NoDup names ->
  exists l, initVirtual name_at sort_upper Sum64 s = Ok (set_Virtuals s l) /\ length l = length names /\ NoDup (v_Name <$> l) /\
    StronglySorted le_upper l /\ (l <> [] -> total (map v_OwnsPercentage l) = u64_max).
Proof.
  intros names Hc Hnd. unfold initVirtual. rewrite (proj2 (Z.ltb_ge _ _)) by lia. fold names. set (l0 := sort_upper (map (fun name => MkVirtual name (Sum64 name) 0 "") names)).
  exists (owns_percentages l0). pose proof (bounds_owns l0) as Hb.
  assert (Hp : l0 ≡ₚ map (fun name => MkVirtual name (Sum64 name) 0 "") names) by apply sort_perm.
  assert (Hname : v_Name <$> owns_percentages l0 = v_Name <$> l0).
  { apply (f_equal (fmap fst)) in Hb. rewrite <- !list_fmap_compose in Hb. done. }
  assert (Hupper : Upper <$> owns_percentages l0 = Upper <$> l0).
  { apply (f_equal (fmap snd)) in Hb. rewrite <- !list_fmap_compose in Hb. done. }
  assert (Hlen : length (owns_percentages l0) = length l0) by (apply (f_equal length) in Hname; by rewrite !length_fmap in Hname).
  assert (Hsort : StronglySorted le_upper l0) by apply sort_sorted.
  split_and!; [done|rewrite Hlen, Hp; by rewrite length_map| |by apply (sorted_bounds l0)|].
  - rewrite Hname. rewrite Hp. rewrite <- list_fmap_compose. by rewrite list_fmap_id.
  - intros Hne. apply owns_total; [by intros ->|done|]. rewrite Hp. apply Forall_forall. intros v (name & -> & _)%list_elem_of_fmap. cbn [Upper]. apply Sum64_range.
Qed.


(** The names drawn for a configuration *)
Definition shard_names (c : Config) : list string := drawn name_at 0 (Z.to_nat (DesiredCount c)).
Definition virtual_names (c : Config) : list string := drawn name_at (Z.to_nat (DesiredCount c)) (Z.to_nat (DesiredVirtualCount c)).

Lemma length_drawn a k : length (drawn name_at a k) = k.
Proof. unfold drawn. by rewrite length_map, length_seq. Qed.

Lemma share_total (l : list Virtual) : NoDup (v_Name <$> l) -> map (share l) (v_Name <$> l) = map v_OwnsPercentage l.
Proof.
  intros Hnd. rewrite map_map. apply map_ext_in. intros v Hv%list_elem_of_In. unfold share.
  destruct (VirtualByName_found l (v_Name v) Hnd) as (j & u & -> & Hj & Hu); [apply list_elem_of_fmap; by exists v|]. cbn [from_option snd].
  apply list_elem_of_lookup in Hv as [k Hk]. assert (j = k) as -> by (eapply NoDup_lookup; [exact Hnd|rewrite list_lookup_fmap, Hj; cbn; by rewrite Hu|rewrite list_lookup_fmap, Hk; done]).
  congruence.
Qed.

Lemma distribute_init s nodes replFactor names :
  NoDup (v_Name <$> Virtuals s) -> StronglySorted le_upper (Virtuals s) -> (Virtuals s <> [] -> total (map v_OwnsPercentage (Virtuals s)) = u64_max) ->
  names <> [] -> NoDup names -> dom (Physicals s) = list_to_set names ->
  (forall x q, Physicals s !! x = Some q -> exists w, q = new_physical x w "" /\ good_replicas nodes replFactor w) ->
  (forall x y, x ∈ nodes -> y ∈ nodes -> (primaries x (replica_lists s) <= primaries y (replica_lists s) + 1)%nat) ->
  exists s', distributeVirtualAmongPhysical shuffle order s = Ok s' /\ initialised nodes replFactor names s' /\ length (Virtuals s') = length (Virtuals s) /\
    s_Config s' = s_Config s /\ PartitioningEnabled s' = PartitioningEnabled s /\ ReplicationFactor s' = ReplicationFactor s.
Proof.
  intros Hnd Hs Ht Hne Hnames Hdom Hphys Hfirst. unfold distributeVirtualAmongPhysical.
  set (ids := shuffle (map v_Name (Virtuals s))). set (pids := order (Physicals s)).
  assert (Hids : ids ≡ₚ v_Name <$> Virtuals s) by apply shuffle_perm. assert (Hpids : pids ≡ₚ (map_to_list (Physicals s)).*1) by apply order_keys.
  assert (Hin : forall x, x ∈ pids <-> x ∈ dom (Physicals s)).
  { intros x. rewrite Hpids, elem_of_dom, list_elem_of_fmap. split; [intros ([k q] & -> & Hk); apply elem_of_map_to_list in Hk; by exists q|].
    intros [q Hq]. exists (x, q). split; [done|]. by apply elem_of_map_to_list. }
  assert (Hpn : NoDup pids) by (rewrite Hpids; apply NoDup_fst_map_to_list).
  assert (Hpne : pids <> []).
  { destruct names as [|x names]; [done|]. intros E. assert (Hx : x ∈ pids) by (rewrite Hin, Hdom; set_solver). rewrite E in Hx. by apply elem_of_nil in Hx. }
  destruct (distribute_spec pids ids 0 (Physicals s) (Virtuals s)) as (m' & l' & E & Hb & Hd & Hq & Htot & Hl'); try done.
  { intros x. by rewrite Hin. } { by rewrite Hids. } { intros y. by rewrite Hids. }
  rewrite E. cbn [obind]. eexists. split; [done|].
  assert (Hgiven : forall x q, m' !! x = Some q -> OwnsVirtual q = given pids x ids 0 /\ Name q = x /\ good_replicas nodes replFactor (BelongsToNodes q)).
  { intros x q (q0 & H0 & HN & HB & HO)%Hq. apply Hphys in H0 as (w & -> & Hg). rewrite HO, HN, HB. done. }
  assert (Hup : Upper <$> l' = Upper <$> Virtuals s) by (apply (f_equal (fmap (fun b => b.1.2))) in Hb; by rewrite <- !list_fmap_compose in Hb).
  assert (Hlen : length l' = length (Virtuals s)) by (apply (f_equal length) in Hb; by rewrite !length_fmap in Hb).
  split_and!; [|done..]. split; cbn [Physicals Virtuals set_Virtuals set_Physicals].
  - by rewrite Hd.
  - intros x q H0. apply Hgiven in H0. tauto.
  - intros x y Hx Hy. specialize (Hfirst x y Hx Hy). unfold replica_lists. cbn [Physicals set_Virtuals set_Physicals].
    assert (Hrl : map (fun kv => BelongsToNodes kv.2) (map_to_list m') ≡ₚ replica_lists s).
    { unfold replica_lists. assert (Em : BelongsToNodes <$> m' = BelongsToNodes <$> Physicals s).
      { apply map_eq. intros k. rewrite !lookup_fmap. destruct (m' !! k) as [q'|] eqn:Ek.
        - destruct (Hq k q' Ek) as (q & -> & _ & HB & _). cbn. by rewrite HB.
        - apply not_elem_of_dom in Ek. rewrite Hd in Ek. apply not_elem_of_dom in Ek. by rewrite Ek. }
      apply (f_equal map_to_list) in Em. rewrite !map_to_list_fmap in Em. apply (f_equal (fmap snd)) in Em. rewrite <- !list_fmap_compose in Em.
      apply Permutation_refl'. exact Em. }
    rewrite !(primaries_perm _ _ _ Hrl). done.
  - intros x y q r H1 H2. rewrite (proj1 (Hgiven _ _ H1)), (proj1 (Hgiven _ _ H2)). apply given_balanced; [done|..]; rewrite Hin, <- Hd; by eapply elem_of_dom_2.
  - intros Hl. rewrite Htot. assert (H0 : total (map (fun kv => OwnsPercentage kv.2) (map_to_list (Physicals s))) = 0).
    { assert (Hall : Forall (fun z => z = 0) (map (fun kv => OwnsPercentage kv.2) (map_to_list (Physicals s)))).
      { apply Forall_forall. intros z ([k q] & -> & Hk%elem_of_map_to_list)%list_elem_of_fmap. by destruct (Hphys k q Hk) as (w & -> & _). }
      by apply total_zero. }
    rewrite H0, Z.add_0_l. rewrite (Permutation_map (share (Virtuals s)) Hids), share_total by done. apply Ht. intros El. rewrite El in Hlen. by destruct l'.
  - intros v Hv. destruct (Hl' v Hv) as [[Hn Hold]|[H1 H2]]; [exfalso; apply Hn; rewrite Hids; apply list_elem_of_fmap; by exists v|].
    rewrite Hin, <- Hd in H1. apply elem_of_dom in H1 as [q Hqv]. exists q. split; [done|]. by rewrite (proj1 (Hgiven _ _ Hqv)).
  - by apply (sorted_bounds (Virtuals s)).
Qed.

Lemma InitState_spec id c local nodes replFactor :
  NoDup nodes -> 1 <= replFactor <= Z.of_nat (length nodes) -> 1 <= DesiredCount c -> 0 <= DesiredVirtualCount c ->
  NoDup (shard_names c) -> NoDup (virtual_names c) ->
  exists s, InitState name_at shuffle order sort_upper Sum64 id c local nodes replFactor false = Ok s /\
    initialised nodes replFactor (shard_names c) s /\ Z.of_nat (length (Virtuals s)) = DesiredVirtualCount c /\ ReplicationFactor s = replFactor /\ PartitioningEnabled s = false.
Proof.
  intros Hnd Hr Hc Hv Hn1 Hn2. assert (Hne : nodes <> []) by (intros ->; cbn in Hr; lia).
  unfold InitState. rewrite (proj2 (Z.ltb_ge _ _)), (proj2 (Z.ltb_ge _ _)) by lia. set (s0 := MkState _ _ _ _ _ _ _).
  destruct (initPhysical_spec s0 nodes replFactor Hnd Hne ltac:(lia) Hn1) as (m & -> & Hdom & Hphys & Hfirst). cbn [obind].
  destruct (initVirtual_spec (set_Physicals s0 m) Hv Hn2) as (l & -> & Hl & Hln & Hls & Hlt). cbn [obind].
  destruct (distribute_init (set_Virtuals (set_Physicals s0 m) l) nodes replFactor (shard_names c)) as (s & E & Hi & Hlen & Hcfg & Hpe & Hrf); try done.
  { intros E. apply (f_equal length) in E. unfold shard_names in E. rewrite length_drawn in E. cbn [length] in E. lia. }
  exists s. split_and!; [done|done| |by rewrite Hrf|by rewrite Hpe]. rewrite Hlen. cbn [Virtuals set_Virtuals]. rewrite Hl, length_drawn. cbn [s_Config set_Physicals s0]. lia.
Qed.

Lemma initialised_routes nodes replFactor names s key :
  initialised nodes replFactor names s -> Virtuals s <> [] ->
  exists x q v, PhysicalShard Sum64 s key = Ok x /\ Physicals s !! x = Some q /\ successor (Virtuals s) (Sum64 key) v /\
    AssignedToPhysical v = x /\ v_Name v ∈ OwnsVirtual q.
Proof.
  intros Hi Hne. destruct (virtualByToken_spec s (Sum64 key) Hne (in_sorted _ _ _ _ Hi)) as (v & Ev & Hsucc).
  destruct (in_owner _ _ _ _ Hi v (proj1 Hsucc)) as (q & Hq & Hown). exists (AssignedToPhysical v), q, v. split_and!; try done.
  unfold PhysicalShard. rewrite bool_decide_false by (intros E; by rewrite E, lookup_empty in Hq).
  rewrite bool_decide_false by (by destruct (Virtuals s)). by rewrite Ev.
Qed.
End init.

(** C5: a collection without tenants: with different node names, enough of them, different random names and at least one
    shard and one virtual shard, [InitState] succeeds. Every shard has as many replicas as asked for, on different nodes;
    no node is first for more than one shard more than another; the virtual shards are dealt evenly, their shares add up to the
    whole ring; and every object id belongs to an existing shard, the one that owns the successor of its hash on the ring. *)
Theorem sharding_initialised name_at shuffle order sort_upper Sum64 id c local nodes replFactor :
  InitLaws shuffle order sort_upper Sum64 ->
  NoDup nodes -> 1 <= replFactor <= Z.of_nat (length nodes) -> 1 <= DesiredCount c -> 1 <= DesiredVirtualCount c ->
  NoDup (shard_names name_at c) -> NoDup (virtual_names name_at c) ->
  exists s, InitState name_at shuffle order sort_upper Sum64 id c local nodes replFactor false = Ok s /\
    initialised nodes replFactor (shard_names name_at c) s /\
    forall partitionKey objectID, exists x q v, Shard Sum64 s partitionKey objectID = Ok x /\ Physicals s !! x = Some q /\
      successor (Virtuals s) (Sum64 objectID) v /\ AssignedToPhysical v = x /\ v_Name v ∈ OwnsVirtual q.
Proof.
  intros Hlaws Hnd Hr Hc Hv Hn1 Hn2.
  destruct (InitState_spec name_at shuffle order sort_upper Sum64 id c local nodes replFactor Hnd Hr Hc ltac:(lia) Hn1 Hn2) as (s & E & Hi & Hl & _ & Hpe).
  exists s. split_and!; [done|done|]. intros pk key. unfold Shard. rewrite Hpe.
  apply (initialised_routes Sum64 nodes replFactor (shard_names name_at c)); [done|]. intros E'. rewrite E' in Hl. cbn in Hl. lia.
Qed.

#[export] Instance le_upper_dec : RelDecision le_upper.
Proof. intros a b. unfold le_upper. apply _. Defined.
#[export] Instance le_upper_total : Total le_upper.
Proof. intros a b. unfold le_upper. lia. Qed.
#[export] Instance le_upper_trans : Transitive le_upper.
Proof. intros a b c. unfold le_upper. lia. Qed.

(** Concrete choices: names by number, no shuffle, a hash that is the length *)
Definition toy_names (i : nat) : string := default "" (["A"; "Bb"; "Ccc"; "Dddd"; "Eeeee"; "Ffffff"; "Ggggggg"; "Hhhhhhhh"] !! i).
Definition toy_Sum64 (key : string) : Z := Z.of_nat (String.length key) mod 2 ^ 64.
Definition toy_order (m : gmap string Physical) : list string := (map_to_list m).*1.

#[export] Instance toy_laws : InitLaws id toy_order (merge_sort le_upper) toy_Sum64.
Proof.
  split; intros; [done|done|apply merge_sort_Permutation|apply (StronglySorted_merge_sort le_upper)|]. apply Z.mod_pos_bound. done.
Qed.

Definition toy_config : Config := MkConfig 2 2 2 4 4 "_id" "hash" "murmur3".

Lemma sharding_initialised_witness :
  exists s, InitState toy_names id toy_order (merge_sort le_upper) toy_Sum64 "C" toy_config "n1" ["n1"; "n2"; "n3"] 2 false = Ok s /\
    initialised ["n1"; "n2"; "n3"] 2 (shard_names toy_names toy_config) s /\
    forall partitionKey objectID, exists x q v, Shard toy_Sum64 s partitionKey objectID = Ok x /\ Physicals s !! x = Some q /\
      successor (Virtuals s) (toy_Sum64 objectID) v /\ AssignedToPhysical v = x /\ v_Name v ∈ OwnsVirtual q.
Proof.
  apply (sharding_initialised toy_names id toy_order (merge_sort le_upper) toy_Sum64 "C" toy_config "n1" ["n1"; "n2"; "n3"] 2);
    [apply toy_laws|by apply (bool_decide_unpack _)|cbn [length]; lia|cbn; lia|cbn; lia|by apply (bool_decide_unpack _)|by apply (bool_decide_unpack _)].
Defined.

(** The comment of [initPhysical] promises, for three nodes, two shards and two replicas, the nodes 1, 2 and 2, 3. *)
Example init_skips_neighbour :
  (let! s := InitState toy_names id toy_order (merge_sort le_upper) toy_Sum64 "C" toy_config "n1" ["n1"; "n2"; "n3"] 2 false in
   Ok (BelongsToNodes <$> Physicals s)) = Ok {["A" := ["n1"; "n2"]; "Bb" := ["n3"; "n1"]]}.
Proof. vm_compute. reflexivity. Qed.

Lemma partitions_placed_witness :
  exists parts, GetPartitions (MkState "C" toy_config {["a" := new_physical "a" ["n1"] "HOT"; "f" := new_physical "f" ["n1"] "FROZEN"]} [] true 1 "n1")
      ["n1"; "n2"; "n3"] ["a"; "b"; "f"; "g"] 2 = Ok parts /\
    (forall x, x ∈ dom parts <-> x ∈ ["a"; "b"; "f"; "g"] /\
      to_place (MkState "C" toy_config {["a" := new_physical "a" ["n1"] "HOT"; "f" := new_physical "f" ["n1"] "FROZEN"]} [] true 1 "n1") x = true) /\
    (forall x w, parts !! x = Some w -> good_replicas ["n1"; "n2"; "n3"] 2 w) /\
    (forall x y, x ∈ ["n1"; "n2"; "n3"] -> y ∈ ["n1"; "n2"; "n3"] -> (primaries x (map_to_list parts).*2 <= primaries y (map_to_list parts).*2 + 1)%nat).
Proof.
  apply partitions_placed; [by apply (bool_decide_unpack _)|done|by apply (bool_decide_unpack _)|cbn [length]; lia].
Defined.

(** * Changes of the replicas *)

Lemma delete_replica_filter q replica : NoDup (BelongsToNodes q) -> BelongsToNodes (DeleteReplica q replica) = filter (fun x => x <> replica) (BelongsToNodes q).
Proof.
  unfold DeleteReplica. destruct (list_find _ _) as [[i x]|] eqn:E; intros Hnd.
  - apply list_find_Some in E as (Hi & -> & Hbefore). cbn [BelongsToNodes set_nodes]. rewrite <- (take_drop_middle _ _ _ Hi) in Hnd |- * at 3.
    apply NoDup_app in Hnd as (_ & Hdis & Hnd). apply NoDup_cons in Hnd as [Hni _].
    rewrite filter_app, filter_cons_False by tauto. rewrite Nat.add_1_r. f_equal; symmetry; apply filter_all.
    + intros y Hy ->. apply (Hdis replica Hy). left.
    + by intros y Hy ->.
  - rewrite list_find_None, Forall_forall in E. symmetry. by apply filter_all.
Qed.

Lemma length_filter_ne (replica : string) l : NoDup l -> (length l <= length (filter (fun x => x <> replica) l) + 1)%nat.
Proof.
  induction 1 as [|x l Hx Hnd IH]; [cbn; lia|]. rewrite filter_cons. destruct (decide (x <> replica)) as [Hne|He]; cbn [length]; [lia|].
  apply dec_stable in He as ->. rewrite (filter_all (fun x => x <> replica) l); [lia|]. by intros y Hy ->.
Qed.

Record sharding_inv (s : State) : Prop := {
  si_factor : 1 <= ReplicationFactor s;
  si_shard : forall x q, Physicals s !! x = Some q -> Name q = x /\ NoDup (BelongsToNodes q) /\ BelongsToNodes q <> []
}.

(** The states that commands lead to *)
Inductive sharding_reaches (order : gmap string Physical -> list string) : State -> Prop :=
| reach_init name_at shuffle sort_upper Sum64 id c local nodes replFactor partitioning s :
    InitLaws shuffle order sort_upper Sum64 -> NoDup nodes -> 1 <= DesiredCount c -> 0 <= DesiredVirtualCount c ->
    NoDup (shard_names name_at c) -> NoDup (virtual_names name_at c) ->
    InitState name_at shuffle order sort_upper Sum64 id c local nodes replFactor partitioning = Ok s -> sharding_reaches order s
| reach_add_replica s shard replica : sharding_reaches order s -> sharding_reaches order (AddReplicaToShard order s shard replica).1
| reach_delete_replica s shard replica : sharding_reaches order s -> sharding_reaches order (DeleteReplicaFromShard order s shard replica).1
| reach_add_partition s name nodes status : sharding_reaches order s -> NoDup nodes -> nodes <> [] ->
    sharding_reaches order (AddPartition order s name nodes status).1
| reach_delete_partition s name : sharding_reaches order s -> sharding_reaches order (DeletePartition order s name).1
| reach_node_mapping s nodeMapping : sharding_reaches order s -> (forall a b, rename nodeMapping a = rename nodeMapping b -> a = b) ->
    sharding_reaches order (ApplyNodeMapping s nodeMapping)
| reach_copy s : sharding_reaches order s -> sharding_reaches order (DeepCopy order s).

Lemma migrate_id order s : 1 <= ReplicationFactor s -> MigrateShardingStateReplicationFactor order s = inr s.
Proof. intros Hf. unfold MigrateShardingStateReplicationFactor. by rewrite (proj2 (Z.ltb_lt _ _)) by lia. Qed.

Lemma inv_insert s x q : sharding_inv s -> Name q = x -> NoDup (BelongsToNodes q) -> BelongsToNodes q <> [] ->
  sharding_inv (set_Physicals s (<[x := q]> (Physicals s))).
Proof.
  intros [H1 H2] HN Hnd Hne. split; cbn [ReplicationFactor Physicals set_Physicals]; [done|]. intros y r [[<- <-]|[Hyx Hr]]%lookup_insert_Some; [done|by apply H2].
Qed.

Lemma inv_fmap s f : sharding_inv s ->
  (forall q, Name (f q) = Name q) -> (forall q, NoDup (BelongsToNodes q) -> NoDup (BelongsToNodes (f q))) ->
  (forall q, length (BelongsToNodes (f q)) = length (BelongsToNodes q)) -> sharding_inv (set_Physicals s (f <$> Physicals s)).
Proof.
  intros [H1 H2] HN Hnd Hlen. split; cbn [ReplicationFactor Physicals set_Physicals]; [done|]. intros y r (q & <- & Hq)%lookup_fmap_Some.
  apply H2 in Hq as (E & Hq & Hne). split_and!; [by rewrite HN|by apply Hnd|]. intros El. apply Hne. apply length_zero_iff_nil. rewrite <- Hlen, El. done.
Qed.

Lemma DeleteReplica_name q replica : Name (DeleteReplica q replica) = Name q.
Proof. unfold DeleteReplica. by destruct (list_find _ _) as [[? ?]|]. Qed.

Lemma delete_replica_step order s shard replica :
  sharding_inv s ->
  match DeleteReplicaFromShard order s shard replica with
  | (s', inr _) => exists q q', Physicals s !! shard = Some q /\ Physicals s' = <[shard := q']> (Physicals s) /\ Name q' = Name q /\
      BelongsToNodes q' = filter (fun x => x <> replica) (BelongsToNodes q) /\ ReplicationFactor s <= Z.of_nat (length (BelongsToNodes q')) /\
      ReplicationFactor s' = ReplicationFactor s
  | (s', inl _) => s' = s
  end.
Proof.
  intros [Hf Hs]. unfold DeleteReplicaFromShard, with_factor. rewrite migrate_id by done. unfold NumberOfReplicas.
  destruct (Physicals s !! shard) as [q|] eqn:E; [|done]. destruct (Z.leb_spec (Z.of_nat (length (BelongsToNodes q))) (ReplicationFactor s)); [done|].
  destruct (Hs shard q E) as (_ & Hnd & _). exists q, (DeleteReplica q replica). rewrite DeleteReplica_name, delete_replica_filter by done. split_and!; try done.
  pose proof (length_filter_ne replica _ Hnd). lia.
Qed.

Lemma init_inv name_at shuffle order sort_upper Sum64 id c local nodes replFactor partitioning s :
  InitLaws shuffle order sort_upper Sum64 -> NoDup nodes -> 1 <= DesiredCount c -> 0 <= DesiredVirtualCount c ->
  NoDup (shard_names name_at c) -> NoDup (virtual_names name_at c) ->
  InitState name_at shuffle order sort_upper Sum64 id c local nodes replFactor partitioning = Ok s -> sharding_inv s.
Proof.
  intros Hlaws Hnd Hc Hv Hn1 Hn2 E. destruct (Z.lt_ge_cases replFactor 1) as [Hlt|Hge].
  { unfold InitState in E. by rewrite (proj2 (Z.ltb_lt _ _)) in E by lia. }
  destruct (Z.lt_ge_cases (Z.of_nat (length nodes)) replFactor) as [Hlt|Hge'].
  { unfold InitState in E. rewrite (proj2 (Z.ltb_ge _ _)), (proj2 (Z.ltb_lt _ _)) in E by lia. done. }
  destruct partitioning.
  { unfold InitState in E. rewrite (proj2 (Z.ltb_ge _ _)), (proj2 (Z.ltb_ge _ _)) in E by lia. injection E as <-. by split. }
  destruct (InitState_spec name_at shuffle order sort_upper Sum64 id c local nodes replFactor Hnd ltac:(lia) Hc Hv Hn1 Hn2) as (s' & E' & Hi & _ & Hrf & _).
  rewrite E in E'. injection E' as <-. split; [lia|]. intros x q Hq. destruct (in_replicas _ _ _ _ Hi x q Hq) as (HN & Hg & Hl & _).
  split_and!; [done|done|]. intros E0. rewrite E0 in Hl. cbn in Hl. lia.
Qed.

Lemma reaches_inv order s : sharding_reaches order s -> sharding_inv s.
Proof.
  induction 1 as [name_at shuffle sort_upper Sum64 id c local nodes replFactor partitioning s Hlaws Hnd Hc Hv Hn1 Hn2 E|s shard replica _ IH|s shard replica _ IH|s name nodes status _ IH Hnd Hne|s name _ IH|s nodeMapping _ IH Hinj|s _ IH];
    [exact (init_inv _ _ _ _ _ _ _ _ _ _ _ _ Hlaws Hnd Hc Hv Hn1 Hn2 E)|..].
  - unfold AddReplicaToShard, with_factor. rewrite migrate_id by apply IH. destruct (Physicals s !! shard) as [q|] eqn:E; [|done].
    unfold AddReplica. case_bool_decide as Hin; [done|]. destruct (si_shard s IH shard q E) as (HN & Hnd & Hne).
    apply inv_insert; cbn [Name BelongsToNodes set_nodes]; [done|done| |intros E0; by apply app_eq_nil in E0 as [_ E0]].
    apply NoDup_app. split_and!; [done| |apply NoDup_singleton]. intros x Hx ->%list_elem_of_singleton. done.
  - pose proof (delete_replica_step order s shard replica IH) as Hd. destruct (DeleteReplicaFromShard order s shard replica) as [s' [e|[]]]; [by subst|]. cbn [fst].
    destruct Hd as (q & q' & Eq & Ep & HN & HB & Hl & Hf). destruct (si_shard s IH shard q Eq) as (HNq & Hnd & Hne). pose proof (si_factor s IH).
    pose proof (inv_insert s shard q' IH ltac:(congruence) ltac:(rewrite HB; by apply NoDup_filter) ltac:(intros E0; rewrite E0 in Hl; cbn in Hl; lia)) as [_ Hs'].
    split; [lia|]. rewrite Ep. exact Hs'.
  - unfold AddPartition, with_factor. rewrite migrate_id by apply IH. by apply inv_insert.
  - unfold DeletePartition, with_factor. rewrite migrate_id by apply IH. destruct (Physicals s !! name); [|done]. destruct IH as [H1 H2].
    split; cbn [fst ReplicationFactor Physicals set_Physicals]; [done|]. intros x q [_ Hq]%lookup_delete_Some. by apply H2.
  - unfold ApplyNodeMapping. case_bool_decide; [done|]. apply inv_fmap; cbn [Name BelongsToNodes]; [done|done| |intros q; by rewrite length_map].
    intros q Hnd. apply NoDup_fmap_2_strong; [|done]. intros a b _ _. apply Hinj.
  - unfold DeepCopy. rewrite migrate_id by apply IH. by apply inv_fmap.
Qed.

(** C16: the replicas of shards over the life of a sharding state: from [InitState] on, through additions and deletions of
    replicas and tenants, renamings of nodes and copies, every shard is stored under its name and has at least one replica and no
    node twice; and deleting a replica either changes nothing and says why, or removes exactly that node from that shard and
    leaves at least the replication factor. *)
Theorem replicas_invariant order s shard replica :
  sharding_reaches order s ->
  sharding_inv s /\
  match DeleteReplicaFromShard order s shard replica with
  | (s', inr _) => exists q q', Physicals s !! shard = Some q /\ Physicals s' = <[shard := q']> (Physicals s) /\ Name q' = Name q /\
      BelongsToNodes q' = filter (fun x => x <> replica) (BelongsToNodes q) /\ ReplicationFactor s <= Z.of_nat (length (BelongsToNodes q')) /\
      ReplicationFactor s' = ReplicationFactor s
  | (s', inl _) => s' = s
  end.
Proof. intros Hr. pose proof (reaches_inv order s Hr) as Hi. split; [done|by apply delete_replica_step]. Qed.

Definition toy_tenants : State := (AddPartition toy_order (MkState "C" toy_config ∅ [] true 1 "n1") "t" ["n1"; "n2"] "HOT").1.

Lemma replicas_invariant_witness :
  sharding_inv toy_tenants /\
  match DeleteReplicaFromShard toy_order toy_tenants "t" "n1" with
  | (s', inr _) => exists q q', Physicals toy_tenants !! "t" = Some q /\ Physicals s' = <["t" := q']> (Physicals toy_tenants) /\ Name q' = Name q /\
      BelongsToNodes q' = filter (fun x => x <> "n1") (BelongsToNodes q) /\ ReplicationFactor toy_tenants <= Z.of_nat (length (BelongsToNodes q')) /\
      ReplicationFactor s' = ReplicationFactor toy_tenants
  | (s', inl _) => s' = toy_tenants
  end.
Proof.
  apply (replicas_invariant toy_order toy_tenants "t" "n1"). unfold toy_tenants. apply reach_add_partition; [|by apply (bool_decide_unpack _)|done].
  apply (reach_init toy_order toy_names id (merge_sort le_upper) toy_Sum64 "C" toy_config "n1" ["n1"; "n2"; "n3"] 1 true);
    [apply toy_laws|by apply (bool_decide_unpack _)|cbn; lia|cbn; lia|by apply (bool_decide_unpack _)|by apply (bool_decide_unpack _)|reflexivity].
Defined.

(** ** AdjustReplicas *)

Lemma extend_replicas_spec count names : forall (available : gset string) nodes,
  NoDup nodes -> available = list_to_set nodes -> Z.of_nat (length nodes) < count ->
  NoDup names -> count <= Z.of_nat (size (available ∪ list_to_set names)) ->
  exists added, extend_replicas names count available nodes = nodes ++ added /\ NoDup (nodes ++ added) /\ Z.of_nat (length (nodes ++ added)) = count /\
    Forall (fun x => x ∈ names) added.
Proof.
  induction names as [|n names IH]; intros available nodes Hnd -> Hlt Hnames Hsize; cbn [extend_replicas].
  { cbn [list_to_set] in Hsize. rewrite union_empty_r_L, size_list_to_set in Hsize by done. lia. }
  apply NoDup_cons in Hnames as [Hn Hnames]. case_bool_decide as Hin; cbn [negb].
  - apply elem_of_list_to_set in Hin. replace ({[n]} ∪ list_to_set nodes : gset string) with (list_to_set nodes : gset string) by set_solver.
    rewrite size_list_to_set by done. rewrite (proj2 (Z.eqb_neq _ _)) by lia.
    destruct (IH (list_to_set nodes) nodes) as (added & -> & H1 & H2 & H3); try done.
    { cbn [list_to_set] in Hsize. replace (list_to_set nodes ∪ list_to_set names : gset string) with (list_to_set nodes ∪ ({[n]} ∪ list_to_set names) : gset string) by set_solver. done. }
    exists added. split_and!; try done. eapply Forall_impl; [exact H3|]. intros x Hx. by right.
  - rewrite elem_of_list_to_set in Hin. assert (Hnd' : NoDup (nodes ++ [n])).
    { apply NoDup_app. split_and!; [done| |apply NoDup_singleton]. by intros x Hx ->%list_elem_of_singleton. }
    assert (Eav : ({[n]} ∪ list_to_set nodes : gset string) = list_to_set (nodes ++ [n])) by set_solver. rewrite Eav, size_list_to_set by done.
    rewrite length_app. cbn [length]. destruct (Z.eqb_spec (Z.of_nat (length nodes + 1)) count) as [E|E].
    { exists [n]. split_and!; [done|done|rewrite length_app; cbn; lia|]. constructor; [left|constructor]. }
    destruct (IH (list_to_set (nodes ++ [n])) (nodes ++ [n])) as (added & -> & H1 & H2 & H3); try done; [rewrite length_app; cbn [length]; lia| |].
    { cbn [list_to_set] in Hsize. replace (list_to_set (nodes ++ [n]) ∪ list_to_set names : gset string) with (list_to_set nodes ∪ ({[n]} ∪ list_to_set names) : gset string) by set_solver. done. }
    exists (n :: added). rewrite <- app_assoc in *. split_and!; try done. constructor; [left|]. eapply Forall_impl; [exact H3|]. intros x Hx. by right.
Qed.

(** A shard without duplicate replicas gets exactly [count] of them, as long as there are as many candidates. *)
Lemma adjust_replicas_exact keys q count candidates q' :
  NoDup (BelongsToNodes q) -> NoDup candidates -> AdjustReplicas keys q count candidates = inr q' ->
  Z.of_nat (length (BelongsToNodes q')) = count /\ NoDup (BelongsToNodes q') /\ Forall (fun x => x ∈ BelongsToNodes q ++ candidates) (BelongsToNodes q').
Proof.
  intros Hnd Hc. unfold AdjustReplicas. destruct (Z.ltb_spec count 0); [done|].
  destruct (Z.eqb_spec count (Z.of_nat (length (BelongsToNodes q)))) as [E|E].
  { intros [= <-]. split_and!; [lia|done|]. apply Forall_forall. intros x Hx. apply elem_of_app. by left. }
  rewrite size_list_to_set by done. rewrite Nat.ltb_irrefl. destruct (Z.ltb_spec count (Z.of_nat (length (BelongsToNodes q)))).
  { intros [= <-]. cbn [BelongsToNodes set_nodes]. split_and!; [rewrite length_take; lia|eapply sublist_NoDup; [exact Hnd|apply sublist_take]|]. apply Forall_take, Forall_forall. intros x Hx. apply elem_of_app. by left. }
  destruct (Z.ltb_spec (Z.of_nat (length candidates)) count); [done|]. intros [= <-]. cbn [BelongsToNodes set_nodes].
  destruct (extend_replicas_spec count candidates (list_to_set (BelongsToNodes q)) (BelongsToNodes q)) as (added & -> & Hn & Hl & Ha); try done; [lia| |].
  { pose proof (subseteq_size (list_to_set candidates : gset string) (list_to_set (BelongsToNodes q) ∪ list_to_set candidates) ltac:(set_solver)) as Hs.
    rewrite size_list_to_set in Hs by done. lia. }
  split_and!; [done|done|]. apply Forall_app. split; apply Forall_forall; intros x Hx; apply elem_of_app; [by left|right]. by apply (proj1 (Forall_forall _ _) Ha).
Qed.

(** With a duplicate, one distinct node too many keeps the loop from ever meeting [count]: one replica asked for, three given *)
Example adjust_duplicates_overshoot keys :
  keys {["a"]} = ["a"] -> AdjustReplicas keys (new_physical "s" ["a"; "a"] "") 1 ["b"; "c"] = inr (new_physical "s" ["a"; "b"; "c"] "").
Proof.
  intros Hk. unfold AdjustReplicas, new_physical. cbn [BelongsToNodes length]. change (list_to_set ["a"; "a"] : gset string) with ({["a"]} ∪ ({["a"]} ∪ ∅) : gset string).
  replace ({["a"]} ∪ ({["a"]} ∪ ∅) : gset string) with ({["a"]} : gset string) by set_solver. rewrite Hk. reflexivity.
Qed.

(** ** Migration of the replication factor *)

Lemma same_factor_unset s shards : ReplicationFactor s < 1 -> (forall x, x ∈ shards -> x ∈ dom (Physicals s)) ->
  forall seen, seen = None \/ seen = Some 1 -> same_factor s shards seen = inr (match shards with [] => default 0 seen | _ => 1 end).
Proof.
  intros Hf. induction shards as [|x shards IH]; intros Hin seen Hseen; cbn [same_factor]; [done|].
  unfold getShardReplicationFactor. destruct (Physicals s !! x) as [q|] eqn:E; [|apply not_elem_of_dom in E; exfalso; apply E, Hin; left].
  rewrite (proj2 (Z.ltb_lt _ _)) by lia. assert (Hin' : forall y, y ∈ shards -> y ∈ dom (Physicals s)) by (intros y Hy; apply Hin; by right).
  destruct Hseen as [->| ->]; [|rewrite Z.eqb_refl]; rewrite IH by auto; by destruct shards.
Qed.

(** It never counts replicas and never fails: an unset factor becomes one, or stays zero without shards. *)
Lemma migrate_unset order s :
  (forall m, order m ≡ₚ (map_to_list m).*1) -> ReplicationFactor s < 1 ->
  MigrateShardingStateReplicationFactor order s
  = inr (set_ReplicationFactor s (if PartitioningEnabled s then 1 else match order (Physicals s) with [] => 0 | _ => 1 end)).
Proof.
  intros Ho Hf. unfold MigrateShardingStateReplicationFactor. rewrite (proj2 (Z.ltb_ge _ _)) by lia. destruct (PartitioningEnabled s); [done|].
  rewrite same_factor_unset; [by destruct (order (Physicals s))|done| |by left].
  intros x. rewrite Ho, elem_of_dom, list_elem_of_fmap. intros ([k q] & -> & Hk). apply elem_of_map_to_list in Hk. by exists q.
Qed.

(** ** A configuration nobody checks *)

Definition with_vpp (v : Z) : option (option (gmap string any)) := Some (Some {["virtualPerPhysical" := Int v]}).

(** [virtualPerPhysical] is accepted as it is: with the value 0 the configuration parses, the collection is created, and the
    shard of no object can be computed, every lookup panics; with a negative value the creation itself panics. *)
Lemma virtual_count_unchecked name_at shuffle order sort_upper Sum64 id local nodes replFactor :
  InitLaws shuffle order sort_upper Sum64 -> NoDup nodes -> 1 <= replFactor <= Z.of_nat (length nodes) -> Z.of_nat (length nodes) < 2 ^ 63 ->
  NoDup (drawn name_at 0 (length nodes)) ->
  (exists c s, ParseConfig (with_vpp 0) (Z.of_nat (length nodes)) = Ok c /\
    InitState name_at shuffle order sort_upper Sum64 id c local nodes replFactor false = Ok s /\ forall key, PhysicalShard Sum64 s key = Panic) /\
  (exists c, ParseConfig (with_vpp (-1)) (Z.of_nat (length nodes)) = Ok c /\
    InitState name_at shuffle order sort_upper Sum64 id c local nodes replFactor false = Panic).
Proof.
  intros Hlaws Hnd Hr Hn Hnames. assert (Hne : nodes <> []) by (intros ->; cbn in Hr; lia). set (count := Z.of_nat (length nodes)) in *.
  assert (Hparse : forall v, ParseConfig (with_vpp v) count = Ok (MkConfig v count count (s64 (count * v)) (s64 (count * v)) "_id" "hash" "murmur3")).
  { intros v. unfold ParseConfig, with_vpp, optionalIntFromMap, optionalStringFromMap. rewrite lookup_singleton_eq, !lookup_singleton_ne by done.
    cbn [obind setDefaults DesiredCount Key Strategy Function VirtualPerPhysical]. unfold validate. cbn [Key Strategy Function DesiredCount].
    rewrite !bool_decide_true by done. cbn [negb]. by rewrite (proj2 (Z.ltb_ge count 0)) by lia. }
  assert (Hcount : Z.to_nat count = length nodes) by lia.
  split.
  - set (c := MkConfig 0 count count (s64 (count * 0)) (s64 (count * 0)) "_id" "hash" "murmur3").
    assert (H0 : DesiredVirtualCount c = 0) by (cbn; by rewrite Z.mul_0_r).
    destruct (InitState_spec name_at shuffle order sort_upper Sum64 id c local nodes replFactor) as (s & E & _ & Hl & _); try done; [cbn [DesiredCount c]; lia|rewrite H0; lia| | |].
    { unfold shard_names. cbn [DesiredCount c]. by rewrite Hcount. }
    { unfold virtual_names. rewrite H0. constructor. }
    exists c, s. split_and!; [apply Hparse|done|]. intros key. unfold PhysicalShard. case_bool_decide; [done|].
    rewrite bool_decide_true; [done|]. lia.
  - eexists. split; [apply Hparse|]. unfold InitState. rewrite (proj2 (Z.ltb_ge _ _)), (proj2 (Z.ltb_ge _ _)) by lia. set (s0 := MkState _ _ _ _ _ _ _).
    destruct (initPhysical_spec name_at s0 nodes replFactor Hnd Hne ltac:(lia)) as (m & -> & _); [cbn [s0 s_Config DesiredCount]; by rewrite Hcount|]. cbn [obind].
    unfold initVirtual. cbn [s_Config set_Physicals s0 DesiredVirtualCount]. rewrite (proj2 (Z.ltb_lt _ 0)); [done|]. unfold s64.
    rewrite Z.mod_small by lia. lia.
Qed.

Lemma virtual_count_unchecked_witness :
  (exists c s, ParseConfig (with_vpp 0) 2 = Ok c /\
    InitState toy_names id toy_order (merge_sort le_upper) toy_Sum64 "C" c "n1" ["n1"; "n2"] 1 false = Ok s /\ forall key, PhysicalShard toy_Sum64 s key = Panic) /\
  (exists c, ParseConfig (with_vpp (-1)) 2 = Ok c /\
    InitState toy_names id toy_order (merge_sort le_upper) toy_Sum64 "C" c "n1" ["n1"; "n2"] 1 false = Panic).
Proof.
  apply (virtual_count_unchecked toy_names id toy_order (merge_sort le_upper) toy_Sum64 "C" "n1" ["n1"; "n2"] 1);
    [apply toy_laws|by apply (bool_decide_unpack _)|cbn [length]; lia|cbn [length]; lia|by apply (bool_decide_unpack _)].
Defined.
