(* ===== verification/TenantSchema.v ===== *)
(** * cluster/schema: the tenants of a collection

    [cluster/schema/meta_class.go]: the replicated record of one collection, and the commands of the log that add,
    delete and update its tenants.  Every node applies every command with its own [nodeID]; what it returns to the node's database
    (the filtered request, the counts for a gauge) may depend on it, the record should not.

    [order] is the order in which loops over a map of processes visit it.  A request is a list of tenants, without the nil
    entries protobuf never produces.  [HasActiveReplicationForShard] is the question to the replication state machine. *)

From stdpp Require Import strings sorting gmap.
From S2P Require Import Prelude Sharding.

Definition HOT : string := "HOT".
Definition COLD : string := "COLD".
Definition FROZEN : string := "FROZEN".
Definition FREEZING : string := "FREEZING".
Definition UNFREEZING : string := "UNFREEZING".

(** ** Requests and processes *)

Record Tenant : Type := MkTenant { t_Name : string; t_Status : string }.

(** [TenantsProcess_OP_START] and the two that end a process *)
Inductive Op : Type := OP_UNSPECIFIED | OP_START | OP_DONE | OP_ABORT.
Inductive Action : Type := ACTION_UNSPECIFIED | ACTION_FREEZING | ACTION_UNFREEZING.

#[export] Instance Tenant_eq_dec : EqDecision Tenant.
Proof. solve_decision. Defined.
#[export] Instance Op_eq_dec : EqDecision Op.
Proof. solve_decision. Defined.
#[export] Instance Action_eq_dec : EqDecision Action.
Proof. solve_decision. Defined.

Record TenantsProcess : Type := MkProcess { p_Op : Op; p_Tenant : Tenant }.

Definition NodeShardProcess : Type := gmap string TenantsProcess.

(** [metaClass], with what the commands on tenants read of [Class]: its name, whether tenants are enabled, and the factor of
    [ReplicationConfig], which may be nil *)
Record metaClass : Type := MetaClass {
  mc_Class : string;
  mc_MultiTenancy : bool;
  mc_Factor : option Z;
  ClassVersion : Z;
  Sharding : State;
  ShardVersion : Z;
  ShardProcesses : gmap string NodeShardProcess
}.

Definition set_sharding (m : metaClass) (p : gmap string Physical) : metaClass :=
  MetaClass (mc_Class m) (mc_MultiTenancy m) (mc_Factor m) (ClassVersion m) (set_Physicals (Sharding m) p) (ShardVersion m) (ShardProcesses m).
Definition set_processes (m : metaClass) (p : gmap string NodeShardProcess) : metaClass :=
  MetaClass (mc_Class m) (mc_MultiTenancy m) (mc_Factor m) (ClassVersion m) (Sharding m) (ShardVersion m) p.
Definition set_shard_version (m : metaClass) (v : Z) : metaClass :=
  MetaClass (mc_Class m) (mc_MultiTenancy m) (mc_Factor m) (ClassVersion m) (Sharding m) v (ShardProcesses m).
Definition set_class_version (m : metaClass) (s : State) (v : Z) : metaClass :=
  MetaClass (mc_Class m) (mc_MultiTenancy m) (mc_Factor m) v s (ShardVersion m) (ShardProcesses m).

Notation physicals m := (Physicals (Sharding m)).

(** The counts by status *)
Definition bump (status : string) (d : Z) (sc : gmap string Z) : gmap string Z := <[status := default 0 (sc !! status) + d]> sc.

Definition removeNilTenants (tenants : list Tenant) : list Tenant := filter (fun t => t_Name t <> "") tenants.

(** ** AddTenants *)

Fixpoint add_tenants (nodeID : string) (partitions : gmap string (list string)) (tenants : list Tenant) (p : gmap string Physical) (sc : gmap string Z) :
    gmap string Physical * gmap string Z * list Tenant :=
  match tenants with
  | [] => (p, sc, [])
  | t :: tenants =>
      match p !! t_Name t with
      | Some _ => add_tenants nodeID partitions tenants p sc
      | None =>
          match partitions !! t_Name t with
          | None => let '(p, sc, kept) := add_tenants nodeID partitions tenants p sc in (p, sc, t :: kept)
          | Some part =>
              let '(p, sc, kept) :=
                add_tenants nodeID partitions tenants (<[t_Name t := new_physical (t_Name t) part (t_Status t)]> p) (bump (t_Status t) 1 sc) in
              (p, sc, if bool_decide (nodeID ∈ part) then t :: kept else kept)
          end
      end
  end.

(** The record, the counts and what is left of the request for the database of the node *)
Definition AddTenants (nodeID : string) (tenants : list Tenant) (clusterNodes : list string) (replFactor v : Z) (m : metaClass) :
    result (metaClass * gmap string Z * list Tenant) :=
  let tenants := removeNilTenants tenants in
  let! partitions := GetPartitions (Sharding m) clusterNodes (map t_Name tenants) replFactor in
  let '(p, sc, kept) := add_tenants nodeID partitions tenants (physicals m) ∅ in
  Ok (set_shard_version (set_sharding m p) v, sc, removeNilTenants kept).

(** ** DeleteTenants *)

(** [shardingState] is a copy that shares the map of shards: a migrated factor is not kept, deletions are. *)
Fixpoint delete_tenants (order : gmap string Physical -> list string) (names : list string) (s : State) (count : gmap string Z) :
    State * fallible (gmap string Z) :=
  match names with
  | [] => (s, inr count)
  | name :: names =>
      match DeletePartition order s name with
      | (_, inl e) => (s, inl e)
      | (s', inr status) =>
          delete_tenants order names (set_Physicals s (Physicals s')) (match status with Some st => bump st 1 count | None => count end)
      end
  end.

Definition DeleteTenants (order : gmap string Physical -> list string) (names : list string) (v : Z) (m : metaClass) : metaClass * fallible (gmap string Z) :=
  match delete_tenants order names (Sharding m) ∅ with
  | (s, inl e) => (set_sharding m (Physicals s), inl e)
  | (s, inr count) => (set_shard_version (set_sharding m (Physicals s)) v, inr count)
  end.

Definition mc_AddReplicaToShard (order : gmap string Physical -> list string) (v : Z) (shard replica : string) (m : metaClass) : metaClass * fallible unit :=
  match AddReplicaToShard order (Sharding m) shard replica with
  | (s, inl e) => (set_class_version m s (ClassVersion m), inl e)
  | (s, inr _) => (set_class_version m s v, inr tt)
  end.

Definition mc_DeleteReplicaFromShard (order : gmap string Physical -> list string) (v : Z) (shard replica : string) (m : metaClass) : metaClass * fallible unit :=
  match DeleteReplicaFromShard order (Sharding m) shard replica with
  | (s, inl e) => (set_class_version m s (ClassVersion m), inl e)
  | (s, inr _) => (set_class_version m s v, inr tt)
  end.

(** ** Processes *)

Definition action_name (a : Action) : string :=
  match a with ACTION_UNSPECIFIED => "ACTION_UNSPECIFIED" | ACTION_FREEZING => "ACTION_FREEZING" | ACTION_UNFREEZING => "ACTION_UNFREEZING" end.

Definition shardProcessID (name : string) (action : Action) : string := (name +:+ "-" +:+ action_name action)%string.

(** The process of a tenant, or a new one that is not stored *)
Definition shardProcess (m : metaClass) (name : string) (action : Action) : NodeShardProcess := default ∅ (ShardProcesses m !! shardProcessID name action).

Definition findRequestedStatus (m : metaClass) (nodeID name : string) (action : Action) : string :=
  match ShardProcesses m !! shardProcessID name action with
  | Some processes => match processes !! nodeID with Some p => t_Status (p_Tenant p) | None => "" end
  | None => ""
  end.

Definition ended (p : TenantsProcess) : bool := match p_Op p with OP_DONE | OP_ABORT => true | _ => false end.

Definition allShardProcessExecuted (m : metaClass) (name : string) (action : Action) : bool :=
  let processes := map_to_list (shardProcess m name action) in
  let i := length (filter (fun kv => ended kv.2 = true) processes) in
  negb (i =? 0)%nat && (i =? length processes)%nat.

(** ** UpdateTenants *)

Inductive tenant_error : Type :=
| ErrShardNotFound (name : string)
| ErrTenantTransitionalState (name status : string)
| ErrReplicaMovementInProgress (name status : string).

(** The record, the counts, the errors of single tenants, the filtered request and the statuses before a freeze *)
Record update : Type := Update {
  u_class : metaClass;
  u_sc : gmap string Z;
  u_errs : list tenant_error;
  u_kept : list Tenant;
  u_preFreeze : gmap string string
}.

Definition set_status (p : Physical) (status : string) : Physical :=
  MkPhysical (Name p) (OwnsVirtual p) (OwnsPercentage p) "" (BelongsToNodes p) status.

(** A process of each node for a requested status *)
Definition start_process (name status : string) (nodes : list string) (process : NodeShardProcess) : NodeShardProcess :=
  foldl (fun process node => <[node := MkProcess OP_START (MkTenant name status)]> process) process nodes.

Definition freeze (t : Tenant) (shard : Physical) (m : metaClass) : metaClass :=
  let process := start_process (t_Name t) (t_Status t) (BelongsToNodes shard) (shardProcess m (t_Name t) ACTION_FREEZING) in
  set_processes m (<[shardProcessID (t_Name t) ACTION_FREEZING := process]> (ShardProcesses m)).

(** The request as the database of the node gets it ([None]: nothing to do there), the record and the new nodes *)
Definition unfreeze (nodeID : string) (t : Tenant) (clusterNodes : list string) (shard : Physical) (m : metaClass) :
    result (option Tenant * metaClass * list string) :=
  match mc_Factor m with
  | None => Panic
  | Some factor =>
      let! partitions := GetPartitions (Sharding m) clusterNodes [t_Name t] factor in
      match partitions !! t_Name t with
      | None => Err (ErrShardMissing (t_Name t))
      | Some newNodes =>
          let newNodes := merge_sort String.le newNodes in
          let oldNodes := merge_sort String.le (BelongsToNodes shard) in
          let newToOld := zip newNodes oldNodes in
          let process := start_process (t_Name t) (t_Status t) newToOld.*1 (shardProcess m (t_Name t) ACTION_UNFREEZING) in
          match foldl (fun m '(new, old) => <[new := old]> m) (∅ : gmap string string) newToOld !! nodeID with
          | None => Ok (None, m, newNodes)
          | Some old =>
              Ok (Some (MkTenant (t_Name t +:+ "#" +:+ old)%string UNFREEZING),
                  set_processes m (<[shardProcessID (t_Name t) ACTION_UNFREEZING := process]> (ShardProcesses m)), newNodes)
          end
      end
  end.

Section update.
Context (order : NodeShardProcess -> list (string * TenantsProcess)) (HasActiveReplicationForShard : string -> bool).

(** The status an unfreeze under way aims at, by the process the loop finds first *)
Definition status_in_progress (m : metaClass) (name : string) : string :=
  match ShardProcesses m !! shardProcessID name ACTION_UNFREEZING with
  | Some processes => match order processes with kv :: _ => t_Status (p_Tenant kv.2) | [] => "" end
  | None => ""
  end.

Definition note_error (u : update) (e : tenant_error) : update := Update (u_class u) (u_sc u) (u_errs u ++ [e]) (u_kept u) (u_preFreeze u).

(** The new status is stored and counted, and the request goes to the database of a node of the shard. *)
Definition finish_update (nodeID oldStatus : string) (shard : Physical) (t : Tenant) (u : update) : update :=
  let new := set_status shard (t_Status t) in
  let m := u_class u in
  Update (set_sharding m (<[Name shard := new]> (physicals m)))
    (bump (ActivityStatus (t_Status t)) 1 (bump oldStatus (-1) (u_sc u))) (u_errs u)
    (if bool_decide (nodeID ∈ BelongsToNodes shard) then u_kept u ++ [t] else u_kept u) (u_preFreeze u).

Definition with_class (u : update) (m : metaClass) : update := Update m (u_sc u) (u_errs u) (u_kept u) (u_preFreeze u).

(** One tenant of the request; an error of [unfreeze] ends the loop *)
Definition update_tenant (nodeID : string) (clusterNodes : list string) (t : Tenant) (u : update) : outcome (update * sharding_error) update :=
  let m := u_class u in
  match physicals m !! t_Name t with
  | None => Ok (note_error u (ErrShardNotFound (t_Name t)))
  | Some oldTenant =>
      let oldStatus := ActivityStatus (Status oldTenant) in
      if bool_decide (oldStatus = t_Status t) then Ok u
      else if bool_decide (oldStatus = FREEZING) then
        if bool_decide (t_Status t = FROZEN) then Ok u else Ok (note_error u (ErrTenantTransitionalState (t_Name t) (t_Status t)))
      else if bool_decide (oldStatus = UNFREEZING) then
        if bool_decide (t_Status t = status_in_progress m (t_Name t)) then Ok u
        else Ok (note_error u (ErrTenantTransitionalState (t_Name t) (t_Status t)))
      else
        let frozen := bool_decide (oldStatus = FROZEN) || bool_decide (oldStatus = FREEZING) in
        let toFrozen := bool_decide (t_Status t = FROZEN) in
        if (bool_decide (t_Status t = COLD) || (toFrozen && negb frozen) || (frozen && negb toFrozen)) && HasActiveReplicationForShard (t_Name t)
        then Ok (note_error u (ErrReplicaMovementInProgress (t_Name t) (t_Status t)))
        else if frozen && negb toFrozen then
          match unfreeze nodeID t clusterNodes oldTenant m with
          | Ok (t', m', newNodes) =>
              Ok (finish_update nodeID (Status oldTenant) (set_nodes oldTenant newNodes) (default t t') (with_class u m'))
          | Err e => Err (u, e)
          | Panic => Panic
          | OutOfFuel => OutOfFuel
          end
        else if toFrozen && negb frozen then
          let u := Update (freeze t oldTenant m) (u_sc u) (u_errs u) (u_kept u) (<[t_Name t := oldStatus]> (u_preFreeze u)) in
          Ok (finish_update nodeID (Status oldTenant) oldTenant (MkTenant (t_Name t) FREEZING) u)
        else Ok (finish_update nodeID (Status oldTenant) oldTenant t u)
  end.

Fixpoint update_tenants (nodeID : string) (clusterNodes : list string) (tenants : list Tenant) (u : update) : outcome (update * sharding_error) update :=
  match tenants with
  | [] => Ok u
  | t :: tenants => let! u := update_tenant nodeID clusterNodes t u in update_tenants nodeID clusterNodes tenants u
  end.

Definition UpdateTenants (nodeID : string) (clusterNodes : list string) (tenants : list Tenant) (v : Z) (m : metaClass) : outcome (update * sharding_error) update :=
  let! u := update_tenants nodeID clusterNodes tenants (Update m ∅ [] [] ∅) in
  Ok (with_class u (set_shard_version (u_class u) v)).

(** ** UpdateTenantsProcess *)

Definition with_status (p : Physical) (status : string) : Physical :=
  MkPhysical (Name p) (OwnsVirtual p) (OwnsPercentage p) (LegacyBelongsToNode p) (BelongsToNodes p) status.
Definition process_status (p : TenantsProcess) : string := t_Status (p_Tenant p).
Definition set_process_status (p : TenantsProcess) (status : string) : TenantsProcess := MkProcess (p_Op p) (MkTenant (t_Name (p_Tenant p)) status).

(** The map of processes is shared: an entry is stored where the map is. *)
Definition store_process (m : metaClass) (name : string) (action : Action) (node : string) (p : TenantsProcess) : metaClass :=
  match ShardProcesses m !! shardProcessID name action with
  | Some processes => set_processes m (<[shardProcessID name action := <[node := p]> processes]> (ShardProcesses m))
  | None => m
  end.

Definition first_with (op : Op) (processes : NodeShardProcess) : option TenantsProcess :=
  snd <$> head (filter (fun kv => p_Op kv.2 = op) (order processes)).

(** The status of the last process that is not done, in the order of the loop *)
Definition abort_status (processes : NodeShardProcess) (status : string) : string :=
  foldl (fun st kv => if bool_decide (p_Op kv.2 = OP_DONE) then st else process_status kv.2) status (order processes).

Definition done_count (processes : NodeShardProcess) : Z :=
  foldl (fun c kv => if bool_decide (p_Op kv.2 = OP_DONE) then c + 1 else c - 1) 0 (order processes).

(** The statuses of the shard and of the request *)
Definition applyShardProcess (m : metaClass) (name : string) (action : Action) (req : TenantsProcess) (shard : Physical) :
    metaClass * TenantsProcess * Physical :=
  let processes := shardProcess m name action in
  let removed := set_processes m (delete (shardProcessID name action) (ShardProcesses m)) in
  match action with
  | ACTION_UNFREEZING =>
      match first_with OP_DONE processes with
      | Some sp => (removed, set_process_status req (process_status sp), with_status shard (process_status sp))
      | None => (removed, req, shard)
      end
  | ACTION_FREEZING =>
      if done_count processes =? Z.of_nat (size processes) then (removed, req, with_status shard (process_status req))
      else
        let st := abort_status processes (Status shard) in
        (removed, set_process_status req st, with_status shard st)
  | ACTION_UNSPECIFIED => (m, req, shard)
  end.

(** The request with its status, and the shard if its new status is to be stored; the request is an entry of the map *)
Definition updateShardProcess (m : metaClass) (name : string) (action : Action) (req : TenantsProcess) (shard : Physical) :
    TenantsProcess * option Physical :=
  let processes := shardProcess m name action in
  match action with
  | ACTION_UNFREEZING =>
      match first_with OP_DONE processes with Some sp => (set_process_status req (process_status sp), None) | None => (req, None) end
  | ACTION_FREEZING =>
      match first_with OP_ABORT processes with
      | Some sp => (set_process_status req (process_status sp), Some (with_status shard (process_status req)))
      | None => (req, None)
      end
  | ACTION_UNSPECIFIED => (req, None)
  end.

Record process_update : Type := ProcessUpdate { pu_class : metaClass; pu_sc : gmap string Z; pu_kept : list TenantsProcess }.

Definition process_tenant (nodeID node : string) (action : Action) (v : Z) (tp : TenantsProcess) (u : process_update) :
    outcome (metaClass * string) process_update :=
  let m := pu_class u in
  let name := t_Name (p_Tenant tp) in
  match physicals m !! name with
  | None => Err (m, name)
  | Some shard =>
      let oldStatus := Status shard in
      let tp :=
        if bool_decide (action = ACTION_UNFREEZING) then
          let status := findRequestedStatus m nodeID name action in
          if bool_decide (status = "") then tp else set_process_status tp status
        else tp in
      let newStatus := process_status tp in
      let m := store_process m name action node tp in
      let changed :=
        if allShardProcessExecuted m name action then
          let '(m, tp, shard) := applyShardProcess m name action tp shard in (m, tp, Some shard)
        else
          let '(tp, shard) := updateShardProcess m name action tp shard in (store_process m name action node tp, tp, shard) in
      match changed with
      | (m, _, None) => Ok (ProcessUpdate m (pu_sc u) (pu_kept u))
      | (m, tp, Some shard) =>
          let m := set_shard_version (set_sharding m (<[Name shard := shard]> (physicals m))) v in
          Ok (ProcessUpdate m (bump newStatus 1 (bump oldStatus (-1) (pu_sc u)))
            (if bool_decide (nodeID ∈ BelongsToNodes shard) then pu_kept u ++ [tp] else pu_kept u))
      end
  end.

Fixpoint process_tenants (nodeID node : string) (action : Action) (v : Z) (tps : list TenantsProcess) (u : process_update) :
    outcome (metaClass * string) process_update :=
  match tps with
  | [] => Ok u
  | tp :: tps => let! u := process_tenant nodeID node action v tp u in process_tenants nodeID node action v tps u
  end.

Definition UpdateTenantsProcess (nodeID node : string) (action : Action) (tps : list TenantsProcess) (v : Z) (m : metaClass) :
    outcome (metaClass * string) process_update := process_tenants nodeID node action v tps (ProcessUpdate m ∅ []).
End update.

(** * New tenants *)

Definition first_named (x : string) (tenants : list Tenant) : option Tenant := head (filter (fun t => t_Name t = x) tenants).

Lemma add_tenants_lookup nodeID partitions tenants : forall p sc x,
  (add_tenants nodeID partitions tenants p sc).1.1 !! x
  = match p !! x, first_named x tenants, partitions !! x with
    | Some q, _, _ => Some q
    | None, Some t, Some part => Some (new_physical x part (t_Status t))
    | None, _, _ => None
    end.
Proof.
  induction tenants as [|t tenants IH]; intros p sc x; cbn [add_tenants]; [unfold first_named; cbn; by destruct (p !! x)|].
  unfold first_named. rewrite filter_cons. destruct (p !! t_Name t) as [q0|] eqn:Et.
  { rewrite IH. destruct (decide (t_Name t = x)) as [<-|Hne]; [by rewrite Et|done]. }
  destruct (partitions !! t_Name t) as [part|] eqn:Ep.
  - pose proof (IH (<[t_Name t := new_physical (t_Name t) part (t_Status t)]> p) (bump (t_Status t) 1 sc) x) as Hx.
    destruct (add_tenants _ _ _ _ _) as [[p' sc'] kept]. cbn [fst] in Hx |- *. rewrite Hx. destruct (decide (t_Name t = x)) as [<-|Hne].
    + by rewrite lookup_insert_eq, Et, Ep.
    + by rewrite lookup_insert_ne by done.
  - pose proof (IH p sc x) as Hx. destruct (add_tenants _ _ _ _ _) as [[p' sc'] kept]. cbn [fst] in Hx |- *. rewrite Hx.
    destruct (decide (t_Name t = x)) as [<-|Hne]; [|done]. rewrite Et, Ep. cbn [head]. by destruct (first_named (t_Name t) tenants).
Qed.

(** With different names, the tenants that stay in the request are the new ones that this node holds, and those without nodes. *)
Lemma add_tenants_kept nodeID partitions tenants : forall p sc t,
  NoDup (map t_Name tenants) ->
  t ∈ (add_tenants nodeID partitions tenants p sc).2 <->
  t ∈ tenants /\ p !! t_Name t = None /\ match partitions !! t_Name t with Some part => nodeID ∈ part | None => True end.
Proof.
  induction tenants as [|t0 tenants IH]; intros p sc t Hnd; cbn [add_tenants snd].
  { split; [intros H%elem_of_nil; done|intros [H%elem_of_nil _]; done]. }
  cbn [map] in Hnd. apply NoDup_cons in Hnd as [Hn0 Hnd].
  assert (Hother : t ∈ tenants -> t_Name t <> t_Name t0) by (intros Ht E; apply Hn0; rewrite <- E; apply list_elem_of_fmap; by exists t).
  destruct (p !! t_Name t0) as [q0|] eqn:Et.
  { rewrite IH by done. rewrite elem_of_cons. split; [tauto|]. intros [[->|Ht] [Hp Hpart]]; [congruence|done]. }
  destruct (partitions !! t_Name t0) as [part|] eqn:Ep.
  - pose proof (IH (<[t_Name t0 := new_physical (t_Name t0) part (t_Status t0)]> p) (bump (t_Status t0) 1 sc) t Hnd) as Hx.
    destruct (add_tenants _ _ _ _ _) as [[p' sc'] kept]. cbn [snd] in Hx |- *.
    assert (Hrest : t ∈ kept <-> t ∈ tenants /\ p !! t_Name t = None /\ match partitions !! t_Name t with Some part => nodeID ∈ part | None => True end).
    { rewrite Hx. split; intros (Ht & Hp & Hpart); specialize (Hother Ht); (rewrite lookup_insert_ne in * by done); done. }
    rewrite elem_of_cons. case_bool_decide as Hin; [rewrite elem_of_cons|]; rewrite Hrest; split.
    + intros [->|H]; [rewrite Ep; tauto|tauto].
    + intros [[->|Ht] H]; [by left|right; tauto].
    + tauto.
    + intros [[->|Ht] [Hp Hpart]]; [by rewrite Ep in Hpart|tauto].
  - pose proof (IH p sc t Hnd) as Hx. destruct (add_tenants _ _ _ _ _) as [[p' sc'] kept]. cbn [snd] in Hx |- *.
    rewrite !elem_of_cons, Hx. split; [intros [->|H]; [rewrite Ep; tauto|tauto]|]. intros [[->|Ht] H]; [by left|right; tauto].
Qed.

Lemma first_named_unique tenants t : NoDup (map t_Name tenants) -> t ∈ tenants -> first_named (t_Name t) tenants = Some t.
Proof.
  intros Hnd Ht. unfold first_named. induction tenants as [|t0 tenants IH]; [by apply elem_of_nil in Ht|]. cbn [map] in Hnd. apply NoDup_cons in Hnd as [Hn Hnd].
  rewrite filter_cons. apply elem_of_cons in Ht as [->|Ht]; [by rewrite decide_True|].
  rewrite decide_False; [by apply IH|]. intros E. apply Hn. rewrite E. apply list_elem_of_fmap. by exists t.
Qed.

Lemma first_named_Some x tenants t : first_named x tenants = Some t -> t ∈ tenants /\ t_Name t = x.
Proof. unfold first_named. intros H%head_Some_elem_of. apply list_elem_of_filter in H. tauto. Qed.

(** C6: adding tenants: with different cluster nodes, enough for the replication factor, and different tenant names, the command
    succeeds. Existing tenants stay as they are; each new one is stored under its name with the requested status and as many
    different nodes as the factor asks for; nothing else is added; and the request that is left for the node's database is exactly the
    new tenants it holds. *)
Theorem tenants_added nodeID tenants nodes replFactor v m :
  NoDup nodes -> nodes <> [] -> 0 <= replFactor <= Z.of_nat (length nodes) -> NoDup (map t_Name (removeNilTenants tenants)) ->
  exists m' sc kept, AddTenants nodeID tenants nodes replFactor v m = Ok (m', sc, kept) /\
    (forall x q, physicals m !! x = Some q -> physicals m' !! x = Some q) /\
    (forall x q, physicals m !! x = None -> physicals m' !! x = Some q ->
      exists t w, t ∈ removeNilTenants tenants /\ t_Name t = x /\ good_replicas nodes replFactor w /\ q = new_physical x w (t_Status t) /\
        (t ∈ kept <-> nodeID ∈ w)) /\
    (forall t, t ∈ removeNilTenants tenants -> t_Name t ∈ dom (physicals m')) /\
    (forall t, t ∈ kept -> t ∈ removeNilTenants tenants /\ physicals m !! t_Name t = None) /\
    ShardVersion m' = v /\ ShardProcesses m' = ShardProcesses m.
Proof.
  intros Hnd Hne Hr Hnames. set (ts := removeNilTenants tenants) in *.
  destruct (GetPartitions_spec (Sharding m) nodes (map t_Name ts) replFactor Hnd Hne Hnames Hr) as (parts & E & Hdom & Hgood & _).
  unfold AddTenants. fold ts. rewrite E. cbn [obind]. pose proof (add_tenants_lookup nodeID parts ts (physicals m) ∅) as Hlk.
  pose proof (fun t => add_tenants_kept nodeID parts ts (physicals m) ∅ t Hnames) as Hkept.
  destruct (add_tenants nodeID parts ts (physicals m) ∅) as [[p' sc'] kept]. cbn [fst snd] in *.
  assert (Hk : forall t, t ∈ removeNilTenants kept <-> t ∈ kept).
  { intros t. unfold removeNilTenants. rewrite list_elem_of_filter. split; [tauto|]. intros Ht. split; [|done]. apply Hkept in Ht as (Ht & _).
    unfold ts, removeNilTenants in Ht. apply list_elem_of_filter in Ht. tauto. }
  assert (Hplaced : forall t, t ∈ ts -> physicals m !! t_Name t = None -> exists w, parts !! t_Name t = Some w).
  { intros t Ht Hn. apply elem_of_dom, Hdom. split; [apply list_elem_of_fmap; by exists t|]. unfold to_place. by rewrite Hn. }
  do 3 eexists. split; [done|]. cbn [Sharding set_shard_version set_sharding Physicals set_Physicals ShardVersion ShardProcesses]. split_and!; try done.
  - intros x q Hq. by rewrite Hlk, Hq.
  - intros x q Hn Hx'. rewrite Hlk, Hn in Hx'.
    destruct (first_named x ts) as [t|] eqn:Ef; [|done]. apply first_named_Some in Ef as [Ht <-].
    destruct (parts !! t_Name t) as [w|] eqn:Ep; [|done]. injection Hx' as <-. exists t, w. split_and!; try done; [by apply (Hgood (t_Name t))|].
    rewrite Hk, Hkept, Ep. tauto.
  - intros t Ht. apply elem_of_dom. rewrite Hlk. destruct (physicals m !! t_Name t) as [q|] eqn:En; [by eexists|].
    rewrite (first_named_unique ts t) by done. destruct (Hplaced t Ht En) as [w ->]. by eexists.
  - intros t Ht. rewrite Hk, Hkept in Ht. tauto.
Qed.

(** A collection with three replicas per tenant *)
Definition toy_class (status : string) : metaClass :=
  MetaClass "C" true (Some 3) 1 (MkState "C" toy_config {["t" := new_physical "t" ["n1"; "n2"; "n3"] status]} [] true 3 "n1") 1 ∅.

Lemma tenants_added_witness :
  exists m' sc kept, AddTenants "n1" [MkTenant "t" HOT; MkTenant "u" COLD; MkTenant "" HOT] ["n1"; "n2"; "n3"] 2 5 (toy_class HOT) = Ok (m', sc, kept) /\
    (forall x q, physicals (toy_class HOT) !! x = Some q -> physicals m' !! x = Some q) /\
    (forall x q, physicals (toy_class HOT) !! x = None -> physicals m' !! x = Some q ->
      exists t w, t ∈ removeNilTenants [MkTenant "t" HOT; MkTenant "u" COLD; MkTenant "" HOT] /\ t_Name t = x /\ good_replicas ["n1"; "n2"; "n3"] 2 w /\
        q = new_physical x w (t_Status t) /\ (t ∈ kept <-> "n1" ∈ w)) /\
    (forall t, t ∈ removeNilTenants [MkTenant "t" HOT; MkTenant "u" COLD; MkTenant "" HOT] -> t_Name t ∈ dom (physicals m')) /\
    (forall t, t ∈ kept -> t ∈ removeNilTenants [MkTenant "t" HOT; MkTenant "u" COLD; MkTenant "" HOT] /\ physicals (toy_class HOT) !! t_Name t = None) /\
    ShardVersion m' = 5 /\ ShardProcesses m' = ShardProcesses (toy_class HOT).
Proof.
  apply tenants_added; [by apply (bool_decide_unpack _)|done|cbn [length]; lia|by apply (bool_decide_unpack _)].
Defined.

(** * What a node contributes to the record *)

Section two_nodes.
Context (order1 order2 : NodeShardProcess -> list (string * TenantsProcess)) (HasActive : string -> bool) (node1 node2 : string).

Lemma add_tenants_same partitions tenants : forall p sc,
  (add_tenants node1 partitions tenants p sc).1 = (add_tenants node2 partitions tenants p sc).1.
Proof.
  induction tenants as [|t tenants IH]; intros p sc; cbn [add_tenants]; [done|]. destruct (p !! t_Name t); [apply IH|].
  destruct (partitions !! t_Name t) as [part|]; [specialize (IH (<[t_Name t := new_physical (t_Name t) part (t_Status t)]> p) (bump (t_Status t) 1 sc))|specialize (IH p sc)];
    destruct (add_tenants node1 _ _ _ _) as [[? ?] ?], (add_tenants node2 _ _ _ _) as [[? ?] ?]; done.
Qed.

(** Two nodes with the same record and counts; what they hand to their databases may differ *)
Definition agree (u1 u2 : update) : Prop := u_class u1 = u_class u2 /\ u_sc u1 = u_sc u2.

(** No tenant of the request is frozen and asked to be something else *)
Definition no_unfreeze (tenants : list Tenant) (m : metaClass) : Prop :=
  forall t q, t ∈ tenants -> physicals m !! t_Name t = Some q -> Status q = FROZEN -> t_Status t = FROZEN.

Lemma activity_frozen q : ActivityStatus (Status q) = FROZEN -> Status q = FROZEN.
Proof. unfold ActivityStatus. by case_bool_decide. Qed.

Lemma update_tenant_same nodes t u1 u2 :
  agree u1 u2 -> no_unfreeze [t] (u_class u1) ->
  exists u1' u2', update_tenant order1 HasActive node1 nodes t u1 = Ok u1' /\ update_tenant order2 HasActive node2 nodes t u2 = Ok u2' /\ agree u1' u2' /\
    forall ts, no_unfreeze ts (u_class u1) -> no_unfreeze ts (u_class u1').
Proof.
  destruct u1 as [m sc e1 k1 p1], u2 as [m2 sc2 e2 k2 p2]. intros [Em Es] Hno. cbn [u_class u_sc] in *. subst m2 sc2. unfold update_tenant. cbn [u_class].
  destruct (physicals m !! t_Name t) as [q|] eqn:Eq; [|by do 2 eexists].
  case_bool_decide as H0; [by do 2 eexists|]. case_bool_decide as H1; [case_bool_decide; by do 2 eexists|].
  case_bool_decide as H2; [do 2 case_bool_decide; by do 2 eexists|].
  assert (Hkeep : forall m' key new, Status new <> FROZEN -> physicals m' = <[key := new]> (physicals m) -> forall ts, no_unfreeze ts m -> no_unfreeze ts m').
  { intros m' key new Hnew Ep ts Hts t' q' Ht' Hq' Hf. rewrite Ep in Hq'. apply lookup_insert_Some in Hq' as [[_ <-]|[_ Hq']]; [done|by eapply Hts]. }
  assert (H3 : ActivityStatus (Status q) <> FROZEN).
  { intros H3. apply H0. rewrite H3. symmetry. eapply Hno; [left|exact Eq|by apply activity_frozen]. }
  rewrite (bool_decide_false (ActivityStatus (Status q) = FROZEN)) by done. cbn [orb andb negb].
  destruct (bool_decide (t_Status t = FROZEN)) eqn:Ef; cbn [andb negb]; [|apply bool_decide_eq_false in Ef];
    (destruct (_ && HasActive _); [by do 2 eexists|]); do 2 eexists; (split_and!; [done|done|done|]); (eapply Hkeep; [|done]); done.
Qed.

Lemma update_tenants_same nodes tenants : forall u1 u2,
  agree u1 u2 -> no_unfreeze tenants (u_class u1) ->
  exists u1' u2', update_tenants order1 HasActive node1 nodes tenants u1 = Ok u1' /\ update_tenants order2 HasActive node2 nodes tenants u2 = Ok u2' /\ agree u1' u2'.
Proof.
  induction tenants as [|t tenants IH]; intros u1 u2 Hag Hno; cbn [update_tenants]; [by do 2 eexists|].
  destruct (update_tenant_same nodes t u1 u2 Hag) as (u1' & u2' & -> & -> & Hag' & Hkeep).
  { intros t' q Ht'. apply Hno. apply list_elem_of_singleton in Ht' as ->. left. }
  cbn [obind]. apply IH; [done|]. apply Hkeep. intros t' q Ht'. apply Hno. by right.
Qed.
End two_nodes.

(** C12: the record is the same on every node, as long as nothing is unfrozen: adding tenants, and updating tenants none of which
    is frozen and asked to leave that state, give the same record and the same counts on any two nodes, whatever order their maps
    have; only the filtered request is the node's own. *)
Theorem tenant_record_deterministic order1 order2 HasActive node1 node2 nodes tenants replFactor v m :
  (let! r := AddTenants node1 tenants nodes replFactor v m in Ok r.1) = (let! r := AddTenants node2 tenants nodes replFactor v m in Ok r.1) /\
  (no_unfreeze tenants m -> exists u1 u2,
    UpdateTenants order1 HasActive node1 nodes tenants v m = Ok u1 /\ UpdateTenants order2 HasActive node2 nodes tenants v m = Ok u2 /\ agree u1 u2).
Proof.
  split.
  - unfold AddTenants. destruct (GetPartitions _ _ _ _) as [parts| | |]; cbn [obind]; try done.
    pose proof (add_tenants_same node1 node2 parts (removeNilTenants tenants) (physicals m) ∅) as E.
    destruct (add_tenants node1 _ _ _ _) as [[? ?] ?], (add_tenants node2 _ _ _ _) as [[? ?] ?]. cbn [fst] in E. by simplify_eq.
  - intros Hno. destruct (update_tenants_same order1 order2 HasActive node1 node2 nodes tenants (Update m ∅ [] [] ∅) (Update m ∅ [] [] ∅)) as (u1 & u2 & E1 & E2 & Ec & Es); [done..|].
    unfold UpdateTenants. rewrite E1, E2. cbn [obind]. do 2 eexists. split_and!; [done|done|]. split; cbn [with_class u_class u_sc]; [by rewrite Ec|done].
Qed.

Lemma tenant_record_deterministic_witness :
  (let! r := AddTenants "n1" [MkTenant "t" COLD; MkTenant "u" HOT] ["n1"; "n2"; "n3"] 2 7 (toy_class HOT) in Ok r.1)
  = (let! r := AddTenants "n3" [MkTenant "t" COLD; MkTenant "u" HOT] ["n1"; "n2"; "n3"] 2 7 (toy_class HOT) in Ok r.1) /\
  exists u1 u2, UpdateTenants map_to_list (fun _ => false) "n1" ["n1"; "n2"; "n3"] [MkTenant "t" COLD; MkTenant "u" HOT] 7 (toy_class HOT) = Ok u1 /\
    UpdateTenants (fun p => rev (map_to_list p)) (fun _ => false) "n3" ["n1"; "n2"; "n3"] [MkTenant "t" COLD; MkTenant "u" HOT] 7 (toy_class HOT) = Ok u2 /\ agree u1 u2.
Proof.
  destruct (tenant_record_deterministic map_to_list (fun p => rev (map_to_list p)) (fun _ => false) "n1" "n3" ["n1"; "n2"; "n3"]
    [MkTenant "t" COLD; MkTenant "u" HOT] 2 7 (toy_class HOT)) as [H1 H2].
  split; [exact H1|apply H2]. intros t q _ Hq Hf. cbn in Hq. apply lookup_singleton_Some in Hq as [_ <-]. done.
Defined.

(** * Counts by status *)

Definition count (status : string) (p : gmap string Physical) : Z := Z.of_nat (size (filter (fun kv => Status kv.2 = status) p)).
Definition change (status : string) (sc : gmap string Z) : Z := default 0 (sc !! status).

Lemma change_bump st st' d sc : change st (bump st' d sc) = change st sc + if decide (st' = st) then d else 0.
Proof. unfold change, bump. destruct (decide (st' = st)) as [->|Hne]; [rewrite lookup_insert_eq|rewrite lookup_insert_ne by done]; cbn; lia. Qed.

Lemma tenant_count_insert st x q p : p !! x = None -> count st (<[x := q]> p) = count st p + if decide (Status q = st) then 1 else 0.
Proof.
  intros Hx. unfold count. destruct (decide (Status q = st)) as [E|E].
  - rewrite map_filter_insert_True by done. rewrite map_size_insert_None; [lia|]. apply map_lookup_filter_None. by left.
  - rewrite map_filter_insert_False by done. rewrite delete_id by done. lia.
Qed.

Lemma tenant_count_delete st x q p : p !! x = Some q -> count st (delete x p) = count st p - if decide (Status q = st) then 1 else 0.
Proof. intros Hx. rewrite <- (insert_delete_id p x q Hx) at 2. rewrite tenant_count_insert by apply lookup_delete_eq. lia. Qed.

Lemma tenant_count_replace st x q q' p : p !! x = Some q ->
  count st (<[x := q']> p) = count st p - (if decide (Status q = st) then 1 else 0) + if decide (Status q' = st) then 1 else 0.
Proof. intros Hx. rewrite <- insert_delete_eq, tenant_count_insert by apply lookup_delete_eq. by rewrite (tenant_count_delete st x q). Qed.

Lemma add_tenants_counts nodeID partitions tenants st : forall p sc,
  let r := add_tenants nodeID partitions tenants p sc in count st r.1.1 - change st r.1.2 = count st p - change st sc.
Proof.
  induction tenants as [|t tenants IH]; intros p sc; cbn [add_tenants]; [done|]. destruct (p !! t_Name t) eqn:Et; [apply IH|].
  destruct (partitions !! t_Name t) as [part|].
  - specialize (IH (<[t_Name t := new_physical (t_Name t) part (t_Status t)]> p) (bump (t_Status t) 1 sc)).
    destruct (add_tenants _ _ _ _ _) as [[p' sc'] kept]. cbn [fst snd] in *. rewrite IH, tenant_count_insert, change_bump by done. cbn [Status new_physical]. lia.
  - specialize (IH p sc). by destruct (add_tenants _ _ _ _ _) as [[p' sc'] kept].
Qed.

Lemma delete_tenants_counts order names st : forall s sc,
  (forall m, order m ≡ₚ (map_to_list m).*1) ->
  exists s' sc', delete_tenants order names s sc = (s', inr sc') /\ count st (Physicals s') + change st sc' = count st (Physicals s) + change st sc /\
    forall x, Physicals s' !! x = if decide (x ∈ names) then None else Physicals s !! x.
Proof.
  induction names as [|name names IH]; intros s sc Ho; cbn [delete_tenants].
  { exists s, sc. split_and!; [done|done|]. intros x. by rewrite decide_False by apply not_elem_of_nil. }
  assert (Hm : exists f, MigrateShardingStateReplicationFactor order s = inr (set_ReplicationFactor s f)).
  { destruct (Z.le_gt_cases 1 (ReplicationFactor s)) as [Hf|Hf]; [exists (ReplicationFactor s); rewrite migrate_id by done; by destruct s|].
    eexists. apply migrate_unset; [done|lia]. }
  destruct Hm as [f Hm]. unfold DeletePartition, with_factor. rewrite Hm. cbn [Physicals set_ReplicationFactor].
  destruct (Physicals s !! name) as [q|] eqn:Eq.
  - destruct (IH (set_Physicals s (delete name (Physicals s))) (bump (Status q) 1 sc) Ho) as (s' & sc' & E & Hc & Hl). cbn [Physicals set_Physicals] in *.
    exists s', sc'. split_and!; [exact E| |].
    + rewrite Hc, (tenant_count_delete st name q), change_bump by done. lia.
    + intros x. rewrite Hl. destruct (decide (x ∈ names)); [by rewrite decide_True by (by right)|]. destruct (decide (x = name)) as [->|Hne].
      * rewrite lookup_delete_eq, decide_True by left. done.
      * rewrite lookup_delete_ne by done. rewrite decide_False; [done|]. apply not_elem_of_cons. done.
  - destruct (IH (set_Physicals s (Physicals s)) sc Ho) as (s' & sc' & E & Hc & Hl). cbn [Physicals set_Physicals] in *.
    exists s', sc'. split_and!; [exact E|done|]. intros x. rewrite Hl. destruct (decide (x ∈ names)); [by rewrite decide_True by (by right)|].
    destruct (decide (x = name)) as [->|Hne]; [rewrite decide_True by left; done|]. rewrite decide_False; [done|]. apply not_elem_of_cons. done.
Qed.

(** Every tenant is stored under its name *)
Definition keyed (m : metaClass) : Prop := forall x q, physicals m !! x = Some q -> Name q = x.

(** The tenants counted less the counts of the update *)
Definition settled (st : string) (u : update) : Z := count st (physicals (u_class u)) - change st (u_sc u).

Lemma finish_update_counts nodeID oldStatus shard t u st q :
  keyed (u_class u) -> physicals (u_class u) !! Name shard = Some q -> Status q = oldStatus -> t_Status t <> "" ->
  keyed (u_class (finish_update nodeID oldStatus shard t u)) /\ settled st (finish_update nodeID oldStatus shard t u) = settled st u.
Proof.
  intros Hk Hq Hs Ht. unfold settled. cbn [finish_update u_class u_sc Sharding set_sharding Physicals set_Physicals]. split.
  - intros x q'. cbn [Sharding set_sharding Physicals set_Physicals]. intros [[<- <-]|[_ Hq']]%lookup_insert_Some; [done|by apply Hk].
  - rewrite (tenant_count_replace st _ q), !change_bump by done. unfold ActivityStatus. rewrite bool_decide_false by done. cbn [Status set_status]. rewrite Hs.
    repeat case_decide; lia.
Qed.

Lemma unfreeze_result nodeID t nodes shard m t' m' newNodes :
  unfreeze nodeID t nodes shard m = Ok (t', m', newNodes) ->
  physicals m' = physicals m /\ (t' = None \/ exists name, t' = Some (MkTenant name UNFREEZING)).
Proof.
  unfold unfreeze. destruct (mc_Factor m); [|done]. destruct (GetPartitions _ _ _ _) as [parts| | |]; cbn [obind]; try done.
  destruct (parts !! _); [|done]. destruct (foldl _ _ _ !! nodeID); intros [= <- <- <-]; [|by split; [|left]]. split; [done|]. right. by eexists.
Qed.

Lemma update_tenant_counts order HasActive nodeID nodes t u st :
  keyed (u_class u) -> t_Status t <> "" ->
  match update_tenant order HasActive nodeID nodes t u with
  | Ok u' | Err (u', _) => keyed (u_class u') /\ settled st u' = settled st u
  | _ => True
  end.
Proof.
  intros Hk Ht. unfold update_tenant. destruct (physicals (u_class u) !! t_Name t) as [q|] eqn:Eq; [|done]. pose proof (Hk _ _ Eq) as HN.
  case_bool_decide; [done|]. case_bool_decide; [case_bool_decide; by cbn|]. case_bool_decide; [case_bool_decide; by cbn|].
  set (frozen := bool_decide (ActivityStatus (Status q) = FROZEN) || false). set (toFrozen := bool_decide (t_Status t = FROZEN)). destruct (_ && HasActive _); [done|].
  destruct (frozen && negb toFrozen).
  { destruct (unfreeze nodeID t nodes q (u_class u)) as [[[t' m'] newNodes]|e| |] eqn:Eu; [|split; [exact Hk|reflexivity]|exact I..].
    apply unfreeze_result in Eu as [Ep Ht']. replace (settled st u) with (settled st (with_class u m')) by (unfold settled; cbn [with_class u_class u_sc]; by rewrite Ep).
    apply (finish_update_counts _ _ _ _ _ _ q); cbn [with_class u_class Name set_nodes]; [unfold keyed; by rewrite Ep|by rewrite Ep, HN|done|].
    destruct Ht' as [->|[name ->]]; done. }
  destruct (toFrozen && negb frozen).
  - set (u' := Update _ _ _ _ _). replace (settled st u) with (settled st u') by done. apply (finish_update_counts _ _ _ _ _ _ q); [done|by rewrite HN|done|done].
  - apply (finish_update_counts _ _ _ _ _ _ q); [done|by rewrite HN|done|done].
Qed.

Lemma update_tenants_counts order HasActive nodeID nodes tenants st : forall u,
  keyed (u_class u) -> Forall (fun t => t_Status t <> "") tenants ->
  match update_tenants order HasActive nodeID nodes tenants u with
  | Ok u' | Err (u', _) => keyed (u_class u') /\ settled st u' = settled st u
  | _ => True
  end.
Proof.
  induction tenants as [|t tenants IH]; intros u Hk Hts; cbn [update_tenants]; [done|]. apply Forall_cons in Hts as [Ht Hts].
  pose proof (update_tenant_counts order HasActive nodeID nodes t u st Hk Ht) as Hu.
  destruct (update_tenant order HasActive nodeID nodes t u) as [u1|[u1 e]| |]; cbn [obind]; try done. destruct Hu as [Hk1 Hs1].
  specialize (IH u1 Hk1 Hts). destruct (update_tenants order HasActive nodeID nodes tenants u1) as [u2|[u2 e]| |]; rewrite <- ?Hs1; done.
Qed.

(** The number of tenants with a status changes by what adding tenants reports, *)
Lemma AddTenants_counts nodeID tenants nodes replFactor v m m' sc kept :
  AddTenants nodeID tenants nodes replFactor v m = Ok (m', sc, kept) -> keyed m ->
  keyed m' /\ forall st, count st (physicals m') = count st (physicals m) + change st sc.
Proof.
  unfold AddTenants. destruct (GetPartitions _ _ _ _) as [parts| | |]; cbn [obind]; try done.
  pose proof (fun st => add_tenants_counts nodeID parts (removeNilTenants tenants) st (physicals m) ∅) as Hc.
  pose proof (add_tenants_lookup nodeID parts (removeNilTenants tenants) (physicals m) ∅) as Hl.
  destruct (add_tenants _ _ _ _ _) as [[p' sc'] kept']. cbn [fst snd] in Hc, Hl. intros [= <- <- <-] Hk. split.
  - intros x q. cbn [Sharding set_shard_version set_sharding Physicals set_Physicals]. rewrite Hl.
    destruct (physicals m !! x) as [q0|] eqn:E0; [intros [= <-]; by apply Hk|]. destruct (first_named x _); [|done]. destruct (parts !! x); [|done]. by intros [= <-].
  - intros st. cbn [Sharding set_shard_version set_sharding Physicals set_Physicals]. specialize (Hc st). change (change st ∅) with 0 in Hc. lia.
Qed.

(** drops by what deleting reports, which removes exactly the named tenants, *)
Lemma DeleteTenants_counts porder names v m :
  (forall p, porder p ≡ₚ (map_to_list p).*1) ->
  exists m' sc, DeleteTenants porder names v m = (m', inr sc) /\ (forall st, count st (physicals m') = count st (physicals m) - change st sc) /\
    forall x, physicals m' !! x = if decide (x ∈ names) then None else physicals m !! x.
Proof.
  intros Ho. unfold DeleteTenants. destruct (delete_tenants_counts porder names HOT (Sharding m) ∅ Ho) as (s' & sc & E & _ & Hl). rewrite E.
  do 2 eexists. split; [done|]. cbn [Sharding set_shard_version set_sharding Physicals set_Physicals]. split; [|done]. intros st.
  destruct (delete_tenants_counts porder names st (Sharding m) ∅ Ho) as (s2 & sc2 & E2 & Hc & _). rewrite E in E2. injection E2 as <- <-.
  change (change st ∅) with 0 in Hc. lia.
Qed.

(** and changes by what an update reports, also when it stops half-way. *)
Lemma UpdateTenants_counts order HasActive nodeID nodes tenants v m :
  keyed m -> Forall (fun t => t_Status t <> "") tenants ->
  match UpdateTenants order HasActive nodeID nodes tenants v m with
  | Ok u | Err (u, _) => keyed (u_class u) /\ forall st, count st (physicals (u_class u)) = count st (physicals m) + change st (u_sc u)
  | _ => True
  end.
Proof.
  intros Hk Hts. unfold UpdateTenants. pose proof (fun st => update_tenants_counts order HasActive nodeID nodes tenants st (Update m ∅ [] [] ∅) Hk Hts) as Hu.
  destruct (update_tenants _ _ _ _ _ _) as [u|[u e]| |]; cbn [obind]; try done; (split; [exact (proj1 (Hu HOT))|]); intros st; destruct (Hu st) as [_ Hs];
    unfold settled in Hs; cbn [u_class u_sc with_class Sharding set_shard_version] in *; change (change st ∅) with 0 in Hs; lia.
Qed.

(** * Unfreezing depends on the node *)

Lemma fst_zip_take {A B} (l : list A) (k : list B) : (zip l k).*1 = take (length k) l.
Proof. revert k. induction l as [|x l IH]; intros [|y k]; cbn [zip zip_with fmap list_fmap fst length take]; try done. f_equal. apply IH. Qed.

Lemma foldl_insert_dom (l : list (string * string)) : forall (m : gmap string string) x,
  is_Some (foldl (fun m '(new, old) => <[new := old]> m) m l !! x) <-> x ∈ l.*1 \/ is_Some (m !! x).
Proof.
  induction l as [|[k v] l IH]; intros m x; cbn [foldl fmap list_fmap fst]; [split; [by right|intros [H%elem_of_nil|H]; done]|].
  rewrite IH, elem_of_cons, lookup_insert_is_Some. destruct (decide (x = k)) as [->|Hne]; [tauto|]. split; [intros [H|[H|[_ H]]]; [tauto|congruence|tauto]|].
  intros [[H|H]|H]; [congruence|tauto|]. right. right. split; [congruence|done].
Qed.

Lemma good_replicas_perm nodes factor w w' : w ≡ₚ w' -> good_replicas nodes factor w -> good_replicas nodes factor w'.
Proof. intros Hp (H1 & H2 & H3). split_and!; [by rewrite <- Hp|by rewrite <- Hp|by rewrite <- Hp]. Qed.

(** The record is not the same on every node after an unfreeze: when a frozen tenant is asked to become active, the nodes
    that are to download it, as many of the new nodes as it had old ones, store the status UNFREEZING, every other node the requested
    status itself, although all apply the same command to the same record. *)
Lemma unfreeze_node_dependent order HasActive nodes t v m shard factor :
  physicals m !! t_Name t = Some shard -> Name shard = t_Name t -> Status shard = FROZEN -> t_Status t <> FROZEN ->
  HasActive (t_Name t) = false -> mc_Factor m = Some factor -> NoDup nodes -> nodes <> [] -> 0 <= factor <= Z.of_nat (length nodes) ->
  exists w, good_replicas nodes factor w /\ forall nodeID, exists u q,
    UpdateTenants order HasActive nodeID nodes [t] v m = Ok u /\ physicals (u_class u) !! t_Name t = Some q /\ BelongsToNodes q = w /\
    Status q = if decide (nodeID ∈ take (length (BelongsToNodes shard)) w) then UNFREEZING else t_Status t.
Proof.
  intros Hq HN Hs Ht Ha Hf Hnd Hne Hr.
  destruct (GetPartitions_spec (Sharding m) nodes [t_Name t] factor Hnd Hne (NoDup_singleton _) Hr) as (parts & E & Hdom & Hgood & _).
  assert (Hin : t_Name t ∈ dom parts) by (apply Hdom; split; [left|]; unfold to_place; by rewrite Hq, Hs).
  apply elem_of_dom in Hin as [w0 Hw0]. exists (merge_sort String.le w0). split.
  { apply (good_replicas_perm nodes factor w0); [by rewrite merge_sort_Permutation|by apply (Hgood (t_Name t))]. }
  intros nodeID. unfold UpdateTenants. cbn [update_tenants]. unfold update_tenant. cbn [u_class]. rewrite Hq, Hs.
  change (ActivityStatus FROZEN) with FROZEN. rewrite (bool_decide_false (FROZEN = t_Status t)) by congruence.
  change (bool_decide (FROZEN = FREEZING)) with false. change (bool_decide (FROZEN = UNFREEZING)) with false. change (bool_decide (FROZEN = FROZEN)) with true.
  rewrite (bool_decide_false (t_Status t = FROZEN)) by done. cbn [orb andb negb]. rewrite Ha, andb_false_r. unfold unfreeze. rewrite Hf, E. cbn [obind]. rewrite Hw0.
  set (w := merge_sort String.le w0). set (old := merge_sort String.le (BelongsToNodes shard)).
  assert (Hold : length old = length (BelongsToNodes shard)) by (unfold old; by rewrite merge_sort_Permutation).
  pose proof (foldl_insert_dom (zip w old) ∅ nodeID) as Hd. rewrite fst_zip_take, Hold in Hd.
  destruct (foldl _ ∅ (zip w old) !! nodeID) as [o|] eqn:Eo; cbn [obind]; do 2 eexists; (split; [done|]);
    cbn [u_class with_class finish_update Sharding set_sharding set_shard_version set_processes Physicals set_Physicals Name set_nodes]; rewrite HN, lookup_insert_eq;
    (split; [done|]); (split; [done|]); cbn [Status set_status t_Status default from_option id].
  - rewrite decide_True; [done|]. destruct (proj1 Hd ltac:(done)) as [H|[? H]]; [done|by rewrite lookup_empty in H].
  - rewrite decide_False; [done|]. intros H. destruct (proj2 Hd (or_introl H)). done.
Qed.

Lemma unfreeze_node_dependent_witness :
  exists w, good_replicas ["n1"; "n2"; "n3"; "n4"] 3 w /\ forall nodeID, exists u q,
    UpdateTenants map_to_list (fun _ => false) nodeID ["n1"; "n2"; "n3"; "n4"] [MkTenant "t" HOT] 2 (toy_class FROZEN) = Ok u /\
    physicals (u_class u) !! "t" = Some q /\ BelongsToNodes q = w /\ Status q = if decide (nodeID ∈ take 3 w) then UNFREEZING else HOT.
Proof.
  apply (unfreeze_node_dependent map_to_list (fun _ => false) ["n1"; "n2"; "n3"; "n4"] (MkTenant "t" HOT) 2 (toy_class FROZEN)
    (new_physical "t" ["n1"; "n2"; "n3"] FROZEN) 3); try reflexivity; [done|by apply (bool_decide_unpack _)|done|cbn [length]; lia].
Defined.

(** * A freeze that a node gives up *)

(** The freeze of the tenant of [toy_class HOT], given up by [n1], done by [n2], then by [n3] *)
Definition freeze_run : outcome (metaClass * string) (process_update * process_update * process_update) :=
  match UpdateTenants map_to_list (fun _ => false) "n1" ["n1"; "n2"; "n3"] [MkTenant "t" FROZEN] 2 (toy_class HOT) with
  | Ok u =>
      let! u1 := UpdateTenantsProcess map_to_list "n1" "n1" ACTION_FREEZING [MkProcess OP_ABORT (MkTenant "t" HOT)] 3 (u_class u) in
      let! u2 := UpdateTenantsProcess map_to_list "n1" "n2" ACTION_FREEZING [MkProcess OP_DONE (MkTenant "t" FROZEN)] 4 (pu_class u1) in
      let! u3 := UpdateTenantsProcess map_to_list "n1" "n3" ACTION_FREEZING [MkProcess OP_DONE (MkTenant "t" FROZEN)] 5 (pu_class u2) in
      Ok (u1, u2, u3)
  | _ => Panic
  end.

(** An aborted freeze is reported as a freeze in between, and miscounted: with three replicas, one node gives up and the tenant is
    active again; the next node that is done makes it FROZEN, the last one active; the counts of the last step say that
    the number of frozen tenants did not change, although it drops by one. *)
Lemma aborted_freeze_reported_frozen :
  exists u1 u2 u3, freeze_run = Ok (u1, u2, u3) /\
    (Status <$> physicals (pu_class u1) !! "t") = Some HOT /\
    (Status <$> physicals (pu_class u2) !! "t") = Some FROZEN /\
    (Status <$> physicals (pu_class u3) !! "t") = Some HOT /\
    change FROZEN (pu_sc u3) = 0 /\ count FROZEN (physicals (pu_class u3)) = count FROZEN (physicals (pu_class u2)) - 1.
Proof. do 3 eexists. split; [vm_compute; reflexivity|]. vm_compute. done. Qed.

(** * An unfreeze that every node gives up *)

Lemma list_ascii_app a b : String.list_ascii_of_string (a +:+ b) = String.list_ascii_of_string a ++ String.list_ascii_of_string b.
Proof.
  induction a as [|c a IH]; [done|]. change (String c a +:+ b) with (String c (a +:+ b)).
  cbn [String.list_ascii_of_string app]. by rewrite IH.
Qed.

Lemma shardProcessID_inj n1 a1 n2 a2 : shardProcessID n1 a1 = shardProcessID n2 a2 -> n1 = n2 /\ a1 = a2.
Proof.
  unfold shardProcessID. intros E. apply (f_equal String.list_ascii_of_string) in E. rewrite !list_ascii_app in E. apply (f_equal (@rev _)) in E.
  rewrite (rev_app_distr (String.list_ascii_of_string n1)), (rev_app_distr (String.list_ascii_of_string n2)) in E.
  assert (Ea : a1 = a2) by (destruct a1, a2; try done; cbn in E; discriminate). subst a2. split; [|done]. apply app_inv_head in E.
  apply (f_equal (@rev _)) in E. rewrite !rev_involutive in E. rewrite <- (String.string_of_list_ascii_of_string n1), E. apply String.string_of_list_ascii_of_string.
Qed.

(** Neither a freeze nor an unfreeze of the tenant is under way *)
Definition no_process (name : string) (m : metaClass) : Prop :=
  ShardProcesses m !! shardProcessID name ACTION_FREEZING = None /\ ShardProcesses m !! shardProcessID name ACTION_UNFREEZING = None.

(** The tenant has the status [st] of a process under way, and nobody is on it *)
Record wedged (st name : string) (m : metaClass) : Prop := {
  wd_transitional : st = FREEZING \/ st = UNFREEZING;
  wd_status : exists q, physicals m !! name = Some q /\ Status q = st;
  wd_process : no_process name m;
  wd_keyed : keyed m
}.

(** The commands on tenants, but for deleting them *)
Inductive tenant_step (order : NodeShardProcess -> list (string * TenantsProcess)) : metaClass -> metaClass -> Prop :=
| step_add nodeID tenants nodes replFactor v m m' sc kept :
    AddTenants nodeID tenants nodes replFactor v m = Ok (m', sc, kept) -> tenant_step order m m'
| step_update HasActive nodeID nodes tenants v m u :
    UpdateTenants order HasActive nodeID nodes tenants v m = Ok u -> tenant_step order m (u_class u)
| step_update_stopped HasActive nodeID nodes tenants v m u e :
    UpdateTenants order HasActive nodeID nodes tenants v m = Err (u, e) -> tenant_step order m (u_class u)
| step_process nodeID node action tps v m u :
    UpdateTenantsProcess order nodeID node action tps v m = Ok u -> tenant_step order m (pu_class u)
| step_process_stopped nodeID node action tps v m m' x :
    UpdateTenantsProcess order nodeID node action tps v m = Err (m', x) -> tenant_step order m m'.

(** A change of another tenant *)
Lemma wedged_other st name m m' other q :
  wedged st name m -> other <> name -> Name q = other -> physicals m' = <[other := q]> (physicals m) ->
  (forall x a, x <> other -> ShardProcesses m' !! shardProcessID x a = ShardProcesses m !! shardProcessID x a) -> wedged st name m'.
Proof.
  intros [Ht (q0 & Hq0 & Hs) [Hf Hu] Hk] Hne HN Hp Hpr. split; [done|..].
  - exists q0. split; [|done]. by rewrite Hp, lookup_insert_ne.
  - split; rewrite Hpr by done; done.
  - intros x q'. rewrite Hp. intros [[<- <-]|[_ Hq']]%lookup_insert_Some; [done|by apply Hk].
Qed.

Lemma other_process (ps : gmap string NodeShardProcess) name a v x b : x <> name -> <[shardProcessID name a := v]> ps !! shardProcessID x b = ps !! shardProcessID x b.
Proof. intros Hne. apply lookup_insert_ne. intros [E _]%shardProcessID_inj. done. Qed.

Lemma unfreeze_processes nodeID t nodes shard m t' m' w x b :
  unfreeze nodeID t nodes shard m = Ok (t', m', w) -> x <> t_Name t -> ShardProcesses m' !! shardProcessID x b = ShardProcesses m !! shardProcessID x b.
Proof.
  unfold unfreeze. destruct (mc_Factor m); [|done]. destruct (GetPartitions _ _ _ _) as [parts| | |]; cbn [obind]; try done.
  destruct (parts !! _); [|done]. destruct (foldl _ _ _ !! nodeID); intros [= <- <- <-] Hne; [|done]. cbn [ShardProcesses set_processes]. by apply other_process.
Qed.

Lemma wedged_update_tenant st order HasActive nodeID nodes t u name :
  wedged st name (u_class u) ->
  match update_tenant order HasActive nodeID nodes t u with Ok u' | Err (u', _) => wedged st name (u_class u') | _ => True end.
Proof.
  intros Hw. unfold update_tenant. destruct (physicals (u_class u) !! t_Name t) as [q|] eqn:Eq; [|done]. pose proof (wd_keyed _ _ _ Hw _ _ Eq) as HN.
  case_bool_decide as H0; [done|]. case_bool_decide as H1; [case_bool_decide; done|]. case_bool_decide as H2; [case_bool_decide; done|].
  assert (Hne : t_Name t <> name).
  { intros E. destruct (wd_status _ _ _ Hw) as (q0 & Hq0 & Hs). rewrite <- E, Eq in Hq0. injection Hq0 as <-. destruct (wd_transitional _ _ _ Hw) as [Et|Et]; [apply H1|apply H2]; by rewrite Hs, Et. }
  set (frozen := bool_decide (ActivityStatus (Status q) = FROZEN) || false). set (toFrozen := bool_decide (t_Status t = FROZEN)). destruct (_ && HasActive _); [done|].
  destruct (frozen && negb toFrozen).
  { destruct (unfreeze nodeID t nodes q (u_class u)) as [[[t' m'] w]|e| |] eqn:Eu; [|done..].
    apply (wedged_other st name (u_class u) _ (t_Name t) (set_status (set_nodes q w) (t_Status (default t t')))); try done.
    - cbn. rewrite HN. destruct (unfreeze_result _ _ _ _ _ _ _ _ Eu) as [-> _]. done.
    - intros x a Hx. exact (unfreeze_processes _ _ _ _ _ _ _ _ _ _ Eu Hx). }
  destruct (toFrozen && negb frozen).
  - apply (wedged_other st name (u_class u) _ (t_Name t) (set_status q FREEZING)); try done; [cbn; by rewrite HN|].
    intros x a Hx. cbn. by apply other_process.
  - apply (wedged_other st name (u_class u) _ (t_Name t) (set_status q (t_Status t))); try done. cbn. by rewrite HN.
Qed.

Lemma wedged_update_tenants st order HasActive nodeID nodes tenants name : forall u,
  wedged st name (u_class u) ->
  match update_tenants order HasActive nodeID nodes tenants u with Ok u' | Err (u', _) => wedged st name (u_class u') | _ => True end.
Proof.
  induction tenants as [|t tenants IH]; intros u Hw; cbn [update_tenants]; [done|].
  pose proof (wedged_update_tenant st order HasActive nodeID nodes t u name Hw) as Hu.
  destruct (update_tenant order HasActive nodeID nodes t u) as [u1|[u1 e]| |]; cbn [obind]; try done. by apply IH.
Qed.

(** What a step of a process leaves alone *)
Definition touches_only (name : string) (m m' : metaClass) : Prop :=
  physicals m' = physicals m /\ forall x b, x <> name -> ShardProcesses m' !! shardProcessID x b = ShardProcesses m !! shardProcessID x b.

Lemma store_process_touches m name action node tp : touches_only name m (store_process m name action node tp).
Proof. unfold store_process. destruct (ShardProcesses m !! _); split; try done. intros x b Hx. cbn [ShardProcesses set_processes]. by apply other_process. Qed.

Lemma touches_trans name m1 m2 m3 : touches_only name m1 m2 -> touches_only name m2 m3 -> touches_only name m1 m3.
Proof. intros [H1 H2] [H3 H4]. split; [by rewrite H3|]. intros x b Hx. by rewrite H4, H2. Qed.

Lemma applyShardProcess_touches order m name action tp q :
  touches_only name m (applyShardProcess order m name action tp q).1.1 /\ Name (applyShardProcess order m name action tp q).2 = Name q.
Proof.
  assert (Hdel : touches_only name m (set_processes m (delete (shardProcessID name action) (ShardProcesses m)))).
  { split; [done|]. intros x b Hx. cbn [ShardProcesses set_processes]. apply lookup_delete_ne. intros [E _]%shardProcessID_inj. done. }
  unfold applyShardProcess. destruct action; [done| |].
  - destruct (_ =? _); done.
  - destruct (first_with _ _ _); done.
Qed.

Lemma updateShardProcess_name order m name action tp q q' : (updateShardProcess order m name action tp q).2 = Some q' -> Name q' = Name q.
Proof. unfold updateShardProcess. destruct action; [done| |]; destruct (first_with _ _ _); try done. by intros [= <-]. Qed.

Section wedge.
Context (order : NodeShardProcess -> list (string * TenantsProcess)).
Hypothesis order_perm : forall p, order p ≡ₚ map_to_list p.

Lemma order_empty : order ∅ = [].
Proof. apply Permutation_nil_r. by rewrite order_perm. Qed.

Lemma wedged_same st name m m' : wedged st name m -> physicals m' = physicals m ->
  (forall b, b <> ACTION_UNSPECIFIED -> ShardProcesses m' !! shardProcessID name b = ShardProcesses m !! shardProcessID name b) -> wedged st name m'.
Proof. intros [H0 H1 [H2 H3] H4] Hp Hpr. split; [done|by rewrite Hp|split; by rewrite Hpr|]. unfold keyed. by rewrite Hp. Qed.

Lemma wedged_process_self st nodeID node action v tp u name :
  wedged st name (pu_class u) -> t_Name (p_Tenant tp) = name ->
  exists u', process_tenant order nodeID node action v tp u = Ok u' /\ wedged st name (pu_class u').
Proof.
  intros Hw Hn. unfold process_tenant. rewrite Hn. destruct (wd_status _ _ _ Hw) as (q & Hq & Hs). rewrite Hq. pose proof (wd_keyed _ _ _ Hw _ _ Hq) as HN.
  set (tp' := if bool_decide (action = ACTION_UNFREEZING) then _ else tp). set (m := pu_class u) in *.
  assert (Hcase : action = ACTION_UNSPECIFIED \/ action <> ACTION_UNSPECIFIED /\ ShardProcesses m !! shardProcessID name action = None).
  { destruct (wd_process _ _ _ Hw). destruct action; [by left|by right..]. }
  destruct Hcase as [->|[Ha Hnone]].
  - set (m1 := store_process m name ACTION_UNSPECIFIED node tp').
    assert (Hu : forall m2 tp2, m2 = store_process m1 name ACTION_UNSPECIFIED node tp2 \/ m2 = m1 -> physicals m2 = physicals m /\
      forall b, b <> ACTION_UNSPECIFIED -> ShardProcesses m2 !! shardProcessID name b = ShardProcesses m !! shardProcessID name b).
    { assert (Hst : forall m0 tp0, physicals (store_process m0 name ACTION_UNSPECIFIED node tp0) = physicals m0 /\
        forall b, b <> ACTION_UNSPECIFIED -> ShardProcesses (store_process m0 name ACTION_UNSPECIFIED node tp0) !! shardProcessID name b = ShardProcesses m0 !! shardProcessID name b).
      { intros m0 tp0. unfold store_process. destruct (ShardProcesses m0 !! _); split; try done. intros b Hb. cbn [ShardProcesses set_processes].
        apply lookup_insert_ne. intros [_ E]%shardProcessID_inj. done. }
      intros m2 tp2 [->| ->]; [|apply Hst]. destruct (Hst m1 tp2) as [-> H2]. destruct (Hst m tp') as [H3 H4]. split; [exact H3|]. intros b Hb. rewrite H2 by done. by apply H4. }
    destruct (allShardProcessExecuted m1 name ACTION_UNSPECIFIED); cbn [applyShardProcess updateShardProcess]; eexists; (split; [done|]); cbn [pu_class].
    + destruct (Hu m1 tp' (or_intror eq_refl)) as [Hp1 Hp2]. apply (wedged_same st name m); [done| |exact Hp2].
      cbn [Sharding set_shard_version set_sharding Physicals set_Physicals]. rewrite Hp1, HN. by apply insert_id.
    + destruct (Hu (store_process m1 name ACTION_UNSPECIFIED node tp') tp' (or_introl eq_refl)) as [Hp1 Hp2]. by apply (wedged_same st name m).
  - assert (Hst : forall tp0, store_process m name action node tp0 = m) by (intros tp0; unfold store_process; by rewrite Hnone). rewrite Hst.
    assert (Hempty : shardProcess m name action = ∅) by (unfold shardProcess; by rewrite Hnone).
    assert (Hex : allShardProcessExecuted m name action = false) by (unfold allShardProcessExecuted; rewrite Hempty; reflexivity). rewrite Hex.
    assert (Hup : (updateShardProcess order m name action tp' q).2 = None).
    { unfold updateShardProcess, first_with. rewrite Hempty, order_empty. by destruct action. }
    destruct (updateShardProcess order m name action tp' q) as [tp2 sh]. cbn [snd] in Hup. subst sh. rewrite Hst. by eexists.
Qed.

Lemma wedged_process_tenant st nodeID node action v tp u name :
  wedged st name (pu_class u) ->
  match process_tenant order nodeID node action v tp u with Ok u' => wedged st name (pu_class u') | Err (m', _) => wedged st name m' | _ => True end.
Proof.
  intros Hw. destruct (decide (t_Name (p_Tenant tp) = name)) as [E|Hne].
  { destruct (wedged_process_self st nodeID node action v tp u name Hw E) as (u' & -> & Hw'). done. }
  unfold process_tenant. set (other := t_Name (p_Tenant tp)) in *. destruct (physicals (pu_class u) !! other) as [q|] eqn:Eq; [|done].
  pose proof (wd_keyed _ _ _ Hw _ _ Eq) as HN. set (tp' := if bool_decide (action = ACTION_UNFREEZING) then _ else tp). set (m := pu_class u) in *.
  pose proof (store_process_touches m other action node tp') as H1. set (m1 := store_process m other action node tp') in *.
  assert (Hend : forall m2 (q2 : option Physical), touches_only other m m2 -> (forall q', q2 = Some q' -> Name q' = other) ->
    match q2 with None => wedged st name m2 | Some q' => wedged st name (set_shard_version (set_sharding m2 (<[Name q' := q']> (physicals m2))) v) end).
  { intros m2 q2 [Hp Hpr] HN2. destruct q2 as [q'|].
    - apply (wedged_other st name m _ other q'); [done|done|by apply HN2| |]; cbn [Sharding ShardProcesses set_shard_version set_sharding Physicals set_Physicals]; [by rewrite Hp, (HN2 q')|exact Hpr].
    - destruct Hw as [W0 W1 [W2 W3] W4]. split; [done|by rewrite Hp|split; by rewrite Hpr|]. unfold keyed. by rewrite Hp. }
  destruct (allShardProcessExecuted m1 other action).
  - destruct (applyShardProcess_touches order m1 other action tp' q) as [H2 H3]. destruct (applyShardProcess order m1 other action tp' q) as [[m2 tp2] q2]. cbn [fst snd] in *.
    apply (Hend m2 (Some q2)); [by eapply touches_trans|]. intros q' [= <-]. by rewrite H3.
  - pose proof (updateShardProcess_name order m1 other action tp' q) as H3. destruct (updateShardProcess order m1 other action tp' q) as [tp2 q2]. cbn [snd] in H3.
    specialize (Hend (store_process m1 other action node tp2) q2). destruct q2 as [q2|]; apply Hend;
      (eapply touches_trans; [exact H1|apply store_process_touches]) || (intros q' [= <-]; rewrite (H3 q2) by done; done) || done.
Qed.

Lemma wedged_process_tenants st nodeID node action v tps name : forall u,
  wedged st name (pu_class u) ->
  match process_tenants order nodeID node action v tps u with Ok u' => wedged st name (pu_class u') | Err (m', _) => wedged st name m' | _ => True end.
Proof.
  induction tps as [|tp tps IH]; intros u Hw; cbn [process_tenants]; [done|]. pose proof (wedged_process_tenant st nodeID node action v tp u name Hw) as Hu.
  destruct (process_tenant order nodeID node action v tp u) as [u1|[m1 e]| |]; cbn [obind]; try done. by apply IH.
Qed.

Lemma wedged_add st nodeID tenants nodes replFactor v m m' sc kept name :
  AddTenants nodeID tenants nodes replFactor v m = Ok (m', sc, kept) -> wedged st name m -> wedged st name m'.
Proof.
  unfold AddTenants. destruct (GetPartitions _ _ _ _) as [parts| | |]; cbn [obind]; try done. pose proof (add_tenants_lookup nodeID parts (removeNilTenants tenants) (physicals m) ∅) as Hl.
  destruct (add_tenants _ _ _ _ _) as [[p sc'] kept']. cbn [fst] in Hl. intros [= <- _ _] [Htr (q & Hq & Hs) Hp Hk].
  split; [done|exists q; split; [|done]; cbn; by rewrite Hl, Hq|done|].
  intros x q'. cbn [Sharding set_shard_version set_sharding Physicals set_Physicals]. rewrite Hl.
  destruct (physicals m !! x) as [q0|] eqn:E0; [intros [= <-]; by apply Hk|].
  destruct (first_named x _); [|done]. destruct (parts !! x); [|done]. by intros [= <-].
Qed.

Lemma wedged_step st name m m' : tenant_step order m m' -> wedged st name m -> wedged st name m'.
Proof.
  destruct 1 as [? ? ? ? ? ? ? ? ? E|HA nodeID nodes tenants v m u E|HA nodeID nodes tenants v m u e E|nodeID node action tps v m u E|nodeID node action tps v m m' x E]; intros Hw.
  - by eapply wedged_add.
  - unfold UpdateTenants in E. pose proof (wedged_update_tenants st order HA nodeID nodes tenants name (Update m ∅ [] [] ∅) Hw) as H.
    destruct (update_tenants _ _ _ _ _ _) as [u1|[u1 e]| |]; try done. injection E as <-. cbn [u_class with_class]. destruct H as [H0 H1 H2 H3]. by split.
  - unfold UpdateTenants in E. pose proof (wedged_update_tenants st order HA nodeID nodes tenants name (Update m ∅ [] [] ∅) Hw) as H.
    destruct (update_tenants _ _ _ _ _ _) as [u1|[u1 e1]| |]; try done. by injection E as <- <-.
  - pose proof (wedged_process_tenants st nodeID node action v tps name (ProcessUpdate m ∅ []) Hw) as H. unfold UpdateTenantsProcess in E. by rewrite E in H.
  - pose proof (wedged_process_tenants st nodeID node action v tps name (ProcessUpdate m ∅ []) Hw) as H. unfold UpdateTenantsProcess in E. by rewrite E in H.
Qed.

Lemma wedged_steps st name m m' : rtc (tenant_step order) m m' -> wedged st name m -> wedged st name m'.
Proof. induction 1 as [|m1 m2 m3 H1 _ IH]; [done|]. intros Hw. apply IH. by eapply wedged_step. Qed.

(** The last node gives up *)
Lemma last_abort nodeID node status v m name q ps :
  physicals m !! name = Some q -> Status q = UNFREEZING -> keyed m ->
  ShardProcesses m !! shardProcessID name ACTION_FREEZING = None -> ShardProcesses m !! shardProcessID name ACTION_UNFREEZING = Some ps ->
  (forall k p, ps !! k = Some p -> k <> node -> p_Op p = OP_ABORT) ->
  exists u, UpdateTenantsProcess order nodeID node ACTION_UNFREEZING [MkProcess OP_ABORT (MkTenant name status)] v m = Ok u /\ wedged UNFREEZING name (pu_class u).
Proof.
  intros Hq Hs Hk Hf Hps Hab. unfold UpdateTenantsProcess. cbn [process_tenants]. unfold process_tenant. cbn [pu_class p_Tenant t_Name]. rewrite Hq.
  set (tp := if bool_decide (ACTION_UNFREEZING = ACTION_UNFREEZING) then _ else _).
  assert (Htp : p_Op tp = OP_ABORT) by (unfold tp; rewrite bool_decide_true by done; by case_bool_decide).
  set (ps1 := <[node := tp]> ps). set (m1 := set_processes m (<[shardProcessID name ACTION_UNFREEZING := ps1]> (ShardProcesses m))).
  assert (Hst : store_process m name ACTION_UNFREEZING node tp = m1) by (unfold store_process; by rewrite Hps). rewrite Hst.
  assert (Hps1 : shardProcess m1 name ACTION_UNFREEZING = ps1) by (unfold shardProcess, m1; cbn [ShardProcesses set_processes]; by rewrite lookup_insert_eq).
  assert (Hall : forall kv, kv ∈ map_to_list ps1 -> p_Op kv.2 = OP_ABORT).
  { intros [k p] Hkv%elem_of_map_to_list. unfold ps1 in Hkv. apply lookup_insert_Some in Hkv as [[_ <-]|[Hne Hkv]]; [done|]. cbn [snd]. by apply (Hab k). }
  assert (Hex : allShardProcessExecuted m1 name ACTION_UNFREEZING = true).
  { unfold allShardProcessExecuted. rewrite Hps1. rewrite filter_all by (intros kv Hkv; unfold ended; by rewrite (Hall kv Hkv)). rewrite Nat.eqb_refl, andb_true_r.
    destruct (map_to_list ps1) eqn:El; [|done]. apply map_to_list_empty_iff in El. exfalso. exact (insert_non_empty ps node tp El). }
  assert (Hno : first_with order OP_DONE ps1 = None).
  { unfold first_with. rewrite filter_none; [done|]. intros kv Hkv E. rewrite order_perm in Hkv. by rewrite (Hall kv Hkv) in E. }
  assert (Hap : applyShardProcess order m1 name ACTION_UNFREEZING tp q = (set_processes m1 (delete (shardProcessID name ACTION_UNFREEZING) (ShardProcesses m1)), tp, q)).
  { unfold applyShardProcess. by rewrite Hps1, Hno. }
  rewrite Hex, Hap. cbn [obind]. eexists. split; [done|]. cbn [pu_class]. split; [by right|..].
  - exists q. split; [|done]. cbn. rewrite (Hk _ _ Hq). apply lookup_insert_eq.
  - split; cbn; [|apply lookup_delete_eq]. rewrite lookup_delete_ne by (intros [_ E]%shardProcessID_inj; done). rewrite lookup_insert_ne by (intros [_ E]%shardProcessID_inj; done). done.
  - intros x q'. cbn. rewrite (Hk _ _ Hq). intros [[<- <-]|[_ H]]%lookup_insert_Some; by apply Hk.
Qed.
End wedge.

(** C19: an unfreeze that every node gives up leaves the tenant unusable: when the last of its nodes reports that it gave up, the
    status stays UNFREEZING and the process is forgotten; no further command, of updating tenants, reporting processes or adding tenants, in
    any number and with any arguments, changes that status; only deleting the tenant does. *)
Theorem aborted_unfreeze_wedges order nodeID node status v m name q ps :
  (forall p, order p ≡ₚ map_to_list p) ->
  physicals m !! name = Some q -> Status q = UNFREEZING -> keyed m ->
  ShardProcesses m !! shardProcessID name ACTION_FREEZING = None -> ShardProcesses m !! shardProcessID name ACTION_UNFREEZING = Some ps ->
  (forall k p, ps !! k = Some p -> k <> node -> p_Op p = OP_ABORT) ->
  exists u, UpdateTenantsProcess order nodeID node ACTION_UNFREEZING [MkProcess OP_ABORT (MkTenant name status)] v m = Ok u /\
    forall m', rtc (tenant_step order) (pu_class u) m' -> exists q', physicals m' !! name = Some q' /\ Status q' = UNFREEZING.
Proof.
  intros Ho Hq Hs Hk Hf Hps Hab. destruct (last_abort order Ho nodeID node status v m name q ps Hq Hs Hk Hf Hps Hab) as (u & E & Hw).
  exists u. split; [done|]. intros m' Hsteps. exact (wd_status _ _ _ (wedged_steps order Ho UNFREEZING name (pu_class u) m' Hsteps Hw)).
Qed.

(** The tenant of one replica that its node is to download *)
Definition toy_unfreezing : metaClass :=
  set_processes (toy_class UNFREEZING) {[shardProcessID "t" ACTION_UNFREEZING := {["n1" := MkProcess OP_START (MkTenant "t" HOT)]}]}.

Lemma aborted_unfreeze_wedges_witness :
  exists u, UpdateTenantsProcess map_to_list "n1" "n1" ACTION_UNFREEZING [MkProcess OP_ABORT (MkTenant "t" "")] 4 toy_unfreezing = Ok u /\
    forall m', rtc (tenant_step map_to_list) (pu_class u) m' -> exists q', physicals m' !! "t" = Some q' /\ Status q' = UNFREEZING.
Proof.
  apply (aborted_unfreeze_wedges map_to_list "n1" "n1" "" 4 toy_unfreezing "t" (new_physical "t" ["n1"; "n2"; "n3"] UNFREEZING)
    {["n1" := MkProcess OP_START (MkTenant "t" HOT)]}); try reflexivity.
  - intros x q Hq. cbn in Hq. apply lookup_singleton_Some in Hq as [<- <-]. reflexivity.
  - intros k p Hp Hk. apply lookup_singleton_Some in Hp as [E _]. congruence.
Defined.
