(* ===== verification/SchemaState.v ===== *)
(** * cluster/schema: the schema of a cluster

    [cluster/schema/schema.go]: the collections of the cluster and their aliases as every node keeps them, with the counts it
    publishes: collections by namespace, shards by status.  Parsing a class of a snapshot and comparing names without case are
    arguments; a snapshot is the value its JSON stands for.  A gauge without a series for a label reads zero. *)

From stdpp Require Import strings sorting gmap.
From S2P Require Import Prelude Sharding TenantSchema.

(** ** Namespaces *)

(** [schema.NamespaceSeparator], a colon *)
Definition separator : Ascii.ascii := Ascii.ascii_of_nat 58.

(** [strings.Cut(name, ":")]: what is before the first separator *)
Fixpoint before_separator (name : string) : option string :=
  match name with
  | "" => None
  | String c rest => if bool_decide (c = separator) then Some "" else String c <$> before_separator rest
  end.

Definition NamespaceFromQualified (name : string) : string := default "" (before_separator name).

Record schema : Type := Schema {
  nodeID : string;
  classes : gmap string metaClass;
  aliases : gmap string string;
  classCountByNamespace : gmap string Z;
  collectionsCount : gmap string Z;
  shardsCount : gmap string Z
}.

Inductive schema_error : Type :=
| ErrClassExists | ErrClassNotFound | ErrAliasExists | ErrAliasNotFound | ErrMTDisabled | ErrParse (class : string)
| ErrSharding (e : sharding_error) | ErrPartial (errs : list tenant_error).

Definition NewSchema (nodeID : string) : schema := Schema nodeID ∅ ∅ ∅ {["" := 0]} ∅.

Definition set_class (s : schema) (class : string) (m : metaClass) : schema :=
  Schema (nodeID s) (<[class := m]> (classes s)) (aliases s) (classCountByNamespace s) (collectionsCount s) (shardsCount s).
Definition set_shardsCount (s : schema) (g : gmap string Z) : schema :=
  Schema (nodeID s) (classes s) (aliases s) (classCountByNamespace s) (collectionsCount s) g.
Definition set_aliases (s : schema) (a : gmap string string) : schema :=
  Schema (nodeID s) (classes s) a (classCountByNamespace s) (collectionsCount s) (shardsCount s).

(** The counts of a command on a gauge *)
Definition add_counts (sign : Z) (sc gauge : gmap string Z) : gmap string Z := foldr (fun '(status, c) g => bump status (sign * c) g) gauge (map_to_list sc).

(** Every shard of a collection counted by its status *)
Definition count_shards (d : Z) (p : gmap string Physical) (gauge : gmap string Z) : gmap string Z :=
  foldr (fun '(_, shard) g => bump (Status shard) d g) gauge (map_to_list p).

(** ** Collections *)

Definition addClass (cls : metaClass) (ss : State) (v : Z) (s : schema) : schema * option schema_error :=
  match classes s !! mc_Class cls with
  | Some _ => (s, Some ErrClassExists)
  | None =>
      let ns := NamespaceFromQualified (mc_Class cls) in
      (Schema (nodeID s)
         (<[mc_Class cls := MetaClass (mc_Class cls) (mc_MultiTenancy cls) (mc_Factor cls) v ss v ∅]> (classes s)) (aliases s)
         (if bool_decide (ns = "") then classCountByNamespace s else bump ns 1 (classCountByNamespace s))
         (bump ns 1 (collectionsCount s)) (count_shards 1 (Physicals ss) (shardsCount s)), None)
  end.

Definition updateClass (name : string) (f : metaClass -> metaClass * option schema_error) (s : schema) : schema * option schema_error :=
  match classes s !! name with
  | None => (s, Some ErrClassNotFound)
  | Some m => let (m, e) := f m in (set_class s name m, e)
  end.

Definition deleteClass (name : string) (s : schema) : schema * bool :=
  match classes s !! name with
  | None => (s, false)
  | Some class =>
      let ns := NamespaceFromQualified name in
      let sc := count_shards 1 (physicals class) ∅ in
      let counts := bump ns (-1) (classCountByNamespace s) in
      let empty := bool_decide (counts !! ns = Some 0) in
      let collections := bump ns (-1) (collectionsCount s) in
      (Schema (nodeID s) (delete name (classes s)) (aliases s)
         (if bool_decide (ns = "") then classCountByNamespace s else if empty then delete ns counts else counts)
         (if bool_decide (ns = "") then collections else if empty then delete ns collections else collections)
         (add_counts (-1) sc (shardsCount s)), true)
  end.

Definition countClassesByNamespace (classes : gmap string metaClass) : gmap string Z :=
  foldr (fun '(name, _) counts => let ns := NamespaceFromQualified name in if bool_decide (ns = "") then counts else bump ns 1 counts) ∅ (map_to_list classes).

(** One series for each namespace, one for the classes without, none for the namespaces that are gone *)
Definition republishCollectionsCount (counts previous : gmap string Z) (classes : gmap string metaClass) (gauge : gmap string Z) : gmap string Z :=
  let gauge := foldr (fun '(ns, count) g => <[ns := count]> g) gauge (map_to_list counts) in
  let namespaced := foldr (fun '(_, count) n => count + n) 0 (map_to_list counts) in
  let gauge := <["" := Z.of_nat (size classes) - namespaced]> gauge in
  foldr (fun '(ns, _) g => match counts !! ns with Some _ => g | None => delete ns g end) gauge (map_to_list previous).

Definition replaceClasses (new : gmap string metaClass) (s : schema) : schema :=
  let gauge := foldr (fun '(_, m) g => count_shards (-1) (physicals m) g) (shardsCount s) (map_to_list (classes s)) in
  let counts := countClassesByNamespace new in
  Schema (nodeID s) new (aliases s) counts (republishCollectionsCount counts (classCountByNamespace s) new (collectionsCount s))
    (foldr (fun '(_, m) g => count_shards 1 (physicals m) g) gauge (map_to_list new)).

Definition CollectionsCount (namespace : string) (s : schema) : Z :=
  if bool_decide (namespace = "") then Z.of_nat (size (classes s)) else default 0 (classCountByNamespace s !! namespace).

(** ** Tenants *)

(** [multiTenancyEnabled] with the replication factor of [ClassInfo] *)
Definition multiTenancyEnabled (class : string) (s : schema) : schema_error + (metaClass * Z) :=
  match classes s !! class with
  | None => inl ErrClassNotFound
  | Some m =>
      if mc_MultiTenancy m then inr (m, match mc_Factor m with Some f => if 1 <? f then f else 1 | None => 1 end) else inl ErrMTDisabled
  end.

Definition addTenants (class : string) (v : Z) (tenants : list Tenant) (clusterNodes : list string) (s : schema) : outcome schema_error (schema * list Tenant) :=
  match multiTenancyEnabled class s with
  | inl e => Err e
  | inr (meta, factor) =>
      let! (m, sc, kept) := omap_err ErrSharding (AddTenants (nodeID s) (removeNilTenants tenants) clusterNodes factor v meta) in
      Ok (set_shardsCount (set_class s class m) (add_counts 1 sc (shardsCount s)), kept)
  end.

Definition tenantCapUsage (class : string) (incoming : list string) (s : schema) : option (Z * Z) :=
  m ← classes s !! class;
  Some (Z.of_nat (size (physicals m)), Z.of_nat (length (filter (fun name => physicals m !! name = None) incoming))).

Section schema.
Context (porder : gmap string Physical -> list string) (order : NodeShardProcess -> list (string * TenantsProcess)) (HasActive : string -> string -> bool)
  (EqualFold : string -> string -> bool) (uppercase : string -> string) (class_order : gmap string metaClass -> list string)
  (alias_order : gmap string string -> list string).

Definition deleteTenants (class : string) (v : Z) (names : list string) (s : schema) : schema * option schema_error :=
  match multiTenancyEnabled class s with
  | inl e => (s, Some e)
  | inr (meta, _) =>
      match DeleteTenants porder names v meta with
      | (m, inl e) => (set_class s class m, Some (ErrSharding e))
      | (m, inr sc) => (set_shardsCount (set_class s class m) (add_counts (-1) sc (shardsCount s)), None)
      end
  end.

(** The schema, the request that is left and the statuses before a freeze; an error that stopped the update keeps what was done *)
Definition updateTenants (class : string) (v : Z) (tenants : list Tenant) (clusterNodes : list string) (s : schema) :
    outcome Empty_set (schema * option schema_error * list Tenant * gmap string string) :=
  match multiTenancyEnabled class s with
  | inl e => Ok (s, Some e, tenants, ∅)
  | inr (meta, _) =>
      let finish u e := Ok (set_shardsCount (set_class s class (u_class u)) (add_counts 1 (u_sc u) (shardsCount s)), e, u_kept u, u_preFreeze u) in
      match UpdateTenants order (HasActive (mc_Class meta)) (nodeID s) clusterNodes tenants v meta with
      | Ok u => finish u (match u_errs u with [] => None | errs => Some (ErrPartial errs) end)
      | Err (u, e) => finish u (Some (ErrSharding e))
      | Panic => Panic
      | OutOfFuel => OutOfFuel
      end
  end.

Definition updateTenantsProcess (class : string) (v : Z) (node : string) (action : Action) (tps : list TenantsProcess) (s : schema) :
    outcome Empty_set (schema * option schema_error * list TenantsProcess) :=
  match multiTenancyEnabled class s with
  | inl e => Ok (s, Some e, tps)
  | inr (meta, _) =>
      match UpdateTenantsProcess order (nodeID s) node action tps v meta with
      | Ok u => Ok (set_shardsCount (set_class s class (pu_class u)) (add_counts 1 (pu_sc u) (shardsCount s)), None, pu_kept u)
      | Err (m, name) => Ok (set_class s class m, Some (ErrSharding (ErrShardMissing name)), tps)
      | Panic => Panic
      | OutOfFuel => OutOfFuel
      end
  end.

Definition addReplicaToShard (class : string) (v : Z) (shard replica : string) : schema -> schema * option schema_error :=
  updateClass class (fun m => match mc_AddReplicaToShard porder v shard replica m with (m, inl e) => (m, Some (ErrSharding e)) | (m, inr _) => (m, None) end).

Definition deleteReplicaFromShard (class : string) (v : Z) (shard replica : string) : schema -> schema * option schema_error :=
  updateClass class (fun m => match mc_DeleteReplicaFromShard porder v shard replica m with (m, inl e) => (m, Some (ErrSharding e)) | (m, inr _) => (m, None) end).

Definition getTenants (class : string) (tenants : list string) (s : schema) : schema_error + list (string * string) :=
  match multiTenancyEnabled class s with
  | inl e => inl e
  | inr (meta, _) =>
      inr (match tenants with
           | [] => map (fun kv => (kv.1, ActivityStatus (Status kv.2))) (map_to_list (physicals meta))
           | _ => omap (fun name => (fun p => (name, ActivityStatus (Status p))) <$> physicals meta !! name) tenants
           end)
  end.

Definition hasFrozenTenant (class : string) (s : schema) : bool :=
  match getTenants class [] s with inl _ => false | inr tenants => existsb (fun t => frozen_status t.2) tenants end.

(** ** Snapshots *)

(** What a snapshot holds of the collections *)
Definition MetaClasses (s : schema) : gmap string metaClass :=
  (fun m => MetaClass (mc_Class m) (mc_MultiTenancy m) (mc_Factor m) (ClassVersion m) (DeepCopy porder (Sharding m)) (ShardVersion m) ∅) <$> classes s.

Definition SetLocalName (name : string) (m : metaClass) : metaClass :=
  let ss := Sharding m in
  MetaClass (mc_Class m) (mc_MultiTenancy m) (mc_Factor m) (ClassVersion m)
    (MkState (IndexID ss) (s_Config ss) (Physicals ss) (Virtuals ss) (PartitioningEnabled ss) (ReplicationFactor ss) name) (ShardVersion m) (ShardProcesses m).

Definition droppedBy (incoming : gmap string metaClass) (s : schema) : gmap string bool :=
  map_imap (fun name _ => if bool_decide (is_Some (incoming !! name)) then None else Some (hasFrozenTenant name s)) (classes s).

(** [parses]: whether a class of the snapshot is accepted *)
Definition restore (parses : metaClass -> bool) (incoming : gmap string metaClass) (s : schema) : schema_error + (gmap string bool * schema) :=
  match filter (fun kv => parses kv.2 = false) (map_to_list incoming) with
  | (name, _) :: _ => inl (ErrParse name)
  | [] => let incoming := SetLocalName (nodeID s) <$> incoming in inr (droppedBy incoming s, replaceClasses incoming s)
  end.

(** ** The name of the only node *)

(** Without a replication configuration the code dereferences nil *)
Definition replaceStatesNodeName (new : string) (s : schema) : outcome Empty_set schema :=
  let rename m :=
    if match mc_Factor m with Some f => 1 <? f | None => false end then m
    else set_sharding m ((fun p => set_nodes (p_DeepCopy p) [new]) <$> physicals m) in
  if forallb (fun kv => match mc_Factor kv.2 with Some _ => true | None => false end) (map_to_list (classes s))
  then Ok (Schema (nodeID s) (rename <$> classes s) (aliases s) (classCountByNamespace s) (collectionsCount s) (shardsCount s))
  else Panic.

(** ** Aliases *)

Definition unsafeAliasExists (alias : string) (s : schema) : bool := existsb (fun kv => EqualFold kv.1 alias) (map_to_list (aliases s)).

(** The alias, or else the class, that only differs in case: the first one the loops find, and whether it is an alias *)
Definition unsafeClassEqual (name : string) (s : schema) : string * bool :=
  match filter (fun k => EqualFold k name = true) (alias_order (aliases s)) with
  | alias :: _ => (alias, true)
  | [] =>
      match filter (fun k => EqualFold k name = true) (class_order (classes s)) with
      | class :: _ => (class, false)
      | [] => ("", false)
      end
  end.

Definition createAlias (class alias : string) (s : schema) : schema * option schema_error :=
  let alias := uppercase alias in
  if unsafeAliasExists alias s then (s, Some ErrAliasExists)
  else
    match classes s !! class with
    | None => (s, Some ErrClassNotFound)
    | Some _ =>
        let (other, isAlias) := unsafeClassEqual alias s in
        if bool_decide (other = alias) then (s, Some (if isAlias then ErrAliasExists else ErrClassExists))
        else (set_aliases s (<[alias := class]> (aliases s)), None)
    end.

Definition replaceAlias (newClass alias : string) (s : schema) : schema * option schema_error :=
  match classes s !! newClass with
  | None => (s, Some ErrClassNotFound)
  | Some _ => if unsafeAliasExists alias s then (set_aliases s (<[alias := newClass]> (aliases s)), None) else (s, Some ErrAliasNotFound)
  end.

Definition deleteAlias (alias : string) (s : schema) : schema := set_aliases s (delete (uppercase alias) (aliases s)).

Definition GetAliasesForClass (class : string) (s : schema) : gmap string string :=
  if bool_decide (class = "") then ∅ else filter (fun kv => kv.2 = class) (aliases s).

(** [None] is the nil map: nothing was found *)
Definition getAliases (alias class : string) (s : schema) : option (gmap string string) :=
  match (if bool_decide (alias = "") then None else aliases s !! alias) with
  | Some className => Some {[alias := className]}
  | None =>
      if negb (bool_decide (class = "")) then Some (filter (fun kv => kv.2 = class) (aliases s))
      else if bool_decide (alias = "") then Some (aliases s) else None
  end.

Definition ResolveAlias (alias : string) (s : schema) : string := default "" (aliases s !! uppercase alias).
End schema.

(** * The published counts *)

Lemma change_foldr (sign : Z) (l : list (string * Z)) g st :
  NoDup l.*1 -> change st (foldr (fun '(status, c) g => bump status (sign * c) g) g l) = change st g + sign * default 0 ((list_to_map l : gmap string Z) !! st).
Proof.
  induction l as [|[k c] l IH]; cbn [foldr fmap list_fmap fst list_to_map]; intros Hnd; [rewrite lookup_empty; cbn; lia|].
  apply NoDup_cons in Hnd as [Hk Hnd]. rewrite change_bump, IH by done. destruct (decide (k = st)) as [->|Hne].
  - rewrite lookup_insert_eq, (not_elem_of_list_to_map_1 l st) by done. cbn. lia.
  - rewrite lookup_insert_ne by done. lia.
Qed.

Lemma change_add_counts sign sc g st : change st (add_counts sign sc g) = change st g + sign * change st sc.
Proof. unfold add_counts. rewrite change_foldr by apply NoDup_fst_map_to_list. by rewrite list_to_map_to_list. Qed.

(** How many entries of a map have a property, as a sum *)
Definition tally {A} (P : string * A -> Prop) `{!forall x, Decision (P x)} (m : gmap string A) : Z :=
  total (map (fun kv => if decide (P kv) then 1 else 0) (map_to_list m)).

Lemma tally_insert {A} (P : string * A -> Prop) `{!forall x, Decision (P x)} (m : gmap string A) k a :
  m !! k = None -> tally P (<[k := a]> m) = tally P m + if decide (P (k, a)) then 1 else 0.
Proof. intros Hk. unfold tally. rewrite (Permutation_map _ (map_to_list_insert m k a Hk)). cbn [map total foldr]. unfold total. lia. Qed.

Lemma tally_size {A} (P : string * A -> Prop) `{!forall x, Decision (P x)} (m : gmap string A) : Z.of_nat (size (filter P m)) = tally P m.
Proof.
  induction m as [|k a m Hk IH] using map_ind; [done|]. rewrite tally_insert by done. rewrite <- IH. destruct (decide (P (k, a))).
  - rewrite map_filter_insert_True by done. rewrite map_size_insert_None; [lia|]. apply map_lookup_filter_None. by left.
  - rewrite map_filter_insert_False by done. rewrite delete_id by done. lia.
Qed.

Lemma change_count_shards d p g st : change st (count_shards d p g) = change st g + d * count st p.
Proof.
  unfold count. rewrite tally_size. unfold tally, count_shards. induction (map_to_list p) as [|[k q] l IH]; cbn [foldr map total snd]; [lia|].
  rewrite change_bump, IH. unfold total. destruct (decide (Status q = st)); lia.
Qed.

(** Sums over the collections *)
Definition sum_classes (f : metaClass -> Z) (cs : gmap string metaClass) : Z := total (map (fun kv => f kv.2) (map_to_list cs)).

Lemma sum_classes_insert f cs c m : cs !! c = None -> sum_classes f (<[c := m]> cs) = sum_classes f cs + f m.
Proof. intros Hc. unfold sum_classes. rewrite (Permutation_map _ (map_to_list_insert cs c m Hc)). cbn [map total foldr snd]. unfold total. lia. Qed.

Lemma sum_classes_delete f cs c m : cs !! c = Some m -> sum_classes f (delete c cs) = sum_classes f cs - f m.
Proof. intros Hc. rewrite <- (insert_delete_id cs c m Hc) at 2. rewrite sum_classes_insert by apply lookup_delete_eq. lia. Qed.

Lemma sum_classes_replace f cs c m m' : cs !! c = Some m -> sum_classes f (<[c := m']> cs) = sum_classes f cs - f m + f m'.
Proof. intros Hc. rewrite <- insert_delete_eq, sum_classes_insert by apply lookup_delete_eq. by rewrite (sum_classes_delete f cs c m). Qed.

Lemma change_all_shards d cs g st :
  change st (foldr (fun '(_, m) g => count_shards d (physicals m) g) g (map_to_list cs)) = change st g + d * sum_classes (fun m => count st (physicals m)) cs.
Proof.
  unfold sum_classes. induction (map_to_list cs) as [|[k m] l IH]; cbn [foldr map total snd]; [lia|]. rewrite change_count_shards, IH. unfold total. lia.
Qed.

(** ** Namespaces *)

Definition in_namespace (ns : string) (kv : string * metaClass) : Prop := NamespaceFromQualified kv.1 = ns.
#[export] Instance in_namespace_dec ns kv : Decision (in_namespace ns kv).
Proof. unfold in_namespace. apply _. Defined.

Notation namespace_count ns cs := (tally (in_namespace ns) cs).

Lemma tally_nonneg {A} (P : string * A -> Prop) `{!forall x, Decision (P x)} (m : gmap string A) : 0 <= tally P m.
Proof. rewrite <- tally_size. lia. Qed.

Lemma tally_delete {A} (P : string * A -> Prop) `{!forall x, Decision (P x)} (m : gmap string A) k a :
  m !! k = Some a -> tally P (delete k m) = tally P m - if decide (P (k, a)) then 1 else 0.
Proof. intros Hk. rewrite <- (insert_delete_id m k a Hk) at 2. rewrite tally_insert by apply lookup_delete_eq. lia. Qed.

Lemma tally_replace {A} (P : string * A -> Prop) `{!forall x, Decision (P x)} (m : gmap string A) k a a' :
  m !! k = Some a -> (P (k, a') <-> P (k, a)) -> tally P (<[k := a']> m) = tally P m.
Proof.
  intros Hk HP. rewrite <- insert_delete_eq, tally_insert, (tally_delete P m k a) by (done || apply lookup_delete_eq).
  rewrite (decide_ext (P (k, a')) (P (k, a)) (1 : Z) 0) by done. lia.
Qed.

(** The value a namespace has in the map of counts: no entry instead of zero *)
Definition entry (n : Z) : option Z := if n =? 0 then None else Some n.

Lemma bump_entry ns d (counts : gmap string Z) n : counts !! ns = entry n -> bump ns d counts !! ns = Some (n + d).
Proof. intros E. unfold bump. rewrite lookup_insert_eq, E. unfold entry. destruct (Z.eqb_spec n 0) as [->|]; done. Qed.

Lemma total_cons z l : total (z :: l) = z + total l.
Proof. done. Qed.

Lemma bump_other k d (g : gmap string Z) st : k <> st -> bump k d g !! st = g !! st.
Proof. intros Hne. unfold bump. by rewrite lookup_insert_ne. Qed.

Lemma countClasses_lookup cs ns : countClassesByNamespace cs !! ns = if decide (ns = "") then None else entry (namespace_count ns cs).
Proof.
  unfold countClassesByNamespace, tally.
  assert (Hpos : forall l : list (string * metaClass), 0 <= total (map (fun kv => if decide (in_namespace ns kv) then 1 else 0) l)).
  { induction l as [|kv l IH]; cbn [map total foldr]; [lia|]. unfold total in IH. destruct (decide _); lia. }
  induction (map_to_list cs) as [|[k m] l IH]; cbn [foldr map]; [rewrite lookup_empty; by destruct (decide _)|].
  specialize (Hpos l). rewrite total_cons. set (rest := foldr (fun '(name, _) counts => _) _ l) in *. set (n := total _) in *.
  case_bool_decide as H0.
  - rewrite IH. destruct (decide (ns = "")) as [->|Hne]; [done|]. rewrite (decide_False (P := in_namespace ns (k, m))) by (unfold in_namespace; cbn [fst]; congruence). done.
  - destruct (decide (NamespaceFromQualified k = ns)) as [E|E].
    + subst ns. rewrite decide_False in IH |- * by done. rewrite (bump_entry _ _ _ n IH). rewrite decide_True by done. unfold entry.
      rewrite (proj2 (Z.eqb_neq _ _)) by lia. f_equal. lia.
    + rewrite bump_other, IH by done. rewrite (decide_False (P := in_namespace ns (k, m))) by done. done.
Qed.

Definition sum_values (g : gmap string Z) : Z := total (map snd (map_to_list g)).

Lemma sum_values_bump k d g : sum_values (bump k d g) = sum_values g + d.
Proof.
  assert (Hins : forall (m : gmap string Z) z, m !! k = None -> sum_values (<[k := z]> m) = sum_values m + z).
  { intros m z Hk. unfold sum_values. rewrite (Permutation_map _ (map_to_list_insert m k z Hk)). cbn [map snd]. rewrite total_cons. lia. }
  unfold bump. destruct (g !! k) as [n|] eqn:E; cbn [default from_option id]; [|rewrite Hins by done; lia].
  rewrite <- insert_delete_eq, Hins by apply lookup_delete_eq. rewrite <- (insert_delete_id g k n E) at 2. rewrite Hins by apply lookup_delete_eq. lia.
Qed.

Lemma countClasses_sum cs : foldr (fun '(_, count) n => count + n) 0 (map_to_list (countClassesByNamespace cs)) = Z.of_nat (size cs) - namespace_count "" cs.
Proof.
  assert (Hs : forall g : gmap string Z, foldr (fun '(_, count) n => count + n) 0 (map_to_list g) = sum_values g).
  { intros g. unfold sum_values. induction (map_to_list g) as [|[k c] l IH]; cbn [foldr map snd]; [done|]. by rewrite IH, total_cons. }
  rewrite Hs, <- length_map_to_list. unfold countClassesByNamespace, tally. induction (map_to_list cs) as [|[k m] l IH]; [done|]. cbn [foldr map length]. rewrite total_cons.
  case_bool_decide as H0; [rewrite IH, decide_True by done; lia|]. rewrite sum_values_bump, IH, decide_False by done. lia.
Qed.

Lemma foldr_set_lookup (l : list (string * Z)) (g : gmap string Z) ns :
  foldr (fun '(k, c) g => <[k := c]> g) g l !! ns = match (list_to_map l : gmap string Z) !! ns with Some c => Some c | None => g !! ns end.
Proof.
  induction l as [|[k c] l IH]; cbn [foldr list_to_map fst snd]; [by rewrite lookup_empty|].
  destruct (decide (k = ns)) as [->|Hne]; [by rewrite !lookup_insert_eq|]. by rewrite !lookup_insert_ne.
Qed.

Lemma foldr_drop_lookup (counts : gmap string Z) (l : list (string * Z)) (g : gmap string Z) ns :
  foldr (fun '(k, _) g => match counts !! k with Some _ => g | None => delete k g end) g l !! ns
  = if decide (ns ∈ l.*1 /\ counts !! ns = None) then None else g !! ns.
Proof.
  induction l as [|[k c] l IH]; cbn [foldr fmap list_fmap fst]; [rewrite decide_False by (intros [H%elem_of_nil _]; done); done|].
  destruct (counts !! k) as [n|] eqn:E.
  - rewrite IH. destruct (decide (ns ∈ l.*1 /\ counts !! ns = None)) as [[H1 H2]|H]; [rewrite decide_True by (split; [by right|done]); done|].
    rewrite decide_False; [done|]. intros [[->|H1]%elem_of_cons H2]; [congruence|tauto].
  - destruct (decide (k = ns)) as [->|Hne]; [rewrite lookup_delete_eq, decide_True by (split; [by left|done]); done|]. rewrite lookup_delete_ne, IH by done.
    destruct (decide (ns ∈ l.*1 /\ counts !! ns = None)) as [[H1 H2]|H]; [rewrite decide_True by (split; [by right|done]); done|].
    rewrite decide_False; [done|]. intros [[->|H1]%elem_of_cons H2]; [congruence|tauto].
Qed.

(** The counts are those of the collections and shards there are *)
Record schema_inv (s : schema) : Prop := {
  sv_shards : forall st, change st (shardsCount s) = sum_classes (fun m => count st (physicals m)) (classes s);
  sv_namespaces : forall ns, classCountByNamespace s !! ns = if decide (ns = "") then None else entry (namespace_count ns (classes s));
  sv_collections : forall ns, change ns (collectionsCount s) = namespace_count ns (classes s);
  sv_keyed : forall c m, classes s !! c = Some m -> keyed m
}.

Lemma entry_default n : default 0 (entry n) = n.
Proof. unfold entry. by destruct (Z.eqb_spec n 0) as [->|]. Qed.

Lemma replaceClasses_inv new s : schema_inv s -> (forall c m, new !! c = Some m -> keyed m) -> schema_inv (replaceClasses new s).
Proof.
  intros [H1 H2 H3 H4] Hk. split; cbn [replaceClasses shardsCount classes classCountByNamespace collectionsCount]; [|apply countClasses_lookup| |done].
  - intros st. rewrite !change_all_shards, H1. lia.
  - intros ns. unfold change, republishCollectionsCount. rewrite countClasses_sum, foldr_drop_lookup.
    assert (Hprev : ns ∈ (map_to_list (classCountByNamespace s)).*1 <-> is_Some (classCountByNamespace s !! ns)).
    { rewrite list_elem_of_fmap. split; [intros ([k c] & -> & Hin%elem_of_map_to_list); by exists c|]. intros [c Hc]. exists (ns, c). by rewrite elem_of_map_to_list. }
    rewrite H2 in Hprev. pose proof (countClasses_lookup new ns) as Hc. specialize (H3 ns). unfold change in H3.
    destruct (decide (ns = "")) as [->|Hns].
    + destruct (decide (_ /\ _)) as [[Hin%Hprev _]|_]; [by destruct Hin|]. rewrite lookup_insert_eq. cbn. lia.
    + destruct (decide (_ /\ _)) as [[Hin%Hprev Hno]|Hno].
      * rewrite Hno in Hc. cbn. rewrite <- (entry_default (namespace_count ns new)), <- Hc. done.
      * rewrite lookup_insert_ne by done. rewrite foldr_set_lookup, list_to_map_to_list, Hc. unfold entry in *.
        destruct (Z.eqb_spec (namespace_count ns new) 0) as [E0|E0]; [|done].
        destruct (Z.eqb_spec (namespace_count ns (classes s)) 0) as [E1|E1]; [by rewrite H3, E1, E0|].
        exfalso. apply Hno. split; [by apply Hprev|done].
Qed.

Lemma addClass_inv cls ss v s : schema_inv s -> (forall x q, Physicals ss !! x = Some q -> Name q = x) -> schema_inv (addClass cls ss v s).1.
Proof.
  intros Hs Hk. unfold addClass. destruct (classes s !! mc_Class cls) eqn:E; [done|]. destruct Hs as [H1 H2 H3 H4]. set (ns0 := NamespaceFromQualified (mc_Class cls)).
  assert (Hcount : forall ns m, namespace_count ns (<[mc_Class cls := m]> (classes s)) = namespace_count ns (classes s) + if decide (ns0 = ns) then 1 else 0)
    by (intros ns m; by rewrite tally_insert).
  split; cbn [fst shardsCount classes classCountByNamespace collectionsCount].
  - intros st. rewrite sum_classes_insert, change_count_shards, H1 by done. cbn [Sharding]. lia.
  - intros ns. rewrite Hcount. pose proof (tally_nonneg (in_namespace ns) (classes s)). case_bool_decide as H0.
    + rewrite H2. destruct (decide (ns = "")) as [->|Hne]; [done|]. rewrite (decide_False (P := ns0 = ns)) by congruence. by rewrite Z.add_0_r.
    + destruct (decide (ns0 = ns)) as [<-|Hne].
      * rewrite (bump_entry _ _ _ (namespace_count ns0 (classes s))) by (rewrite H2, decide_False by done; done). rewrite decide_False by done. unfold entry.
        by rewrite (proj2 (Z.eqb_neq _ _)) by lia.
      * rewrite bump_other, H2 by done. by rewrite Z.add_0_r.
  - intros ns. rewrite change_bump, H3, Hcount. done.
  - intros c m [[<- <-]|[_ Hc]]%lookup_insert_Some; [exact Hk|by apply (H4 c)].
Qed.

Lemma deleteClass_inv name s : schema_inv s -> schema_inv (deleteClass name s).1.
Proof.
  intros Hs. unfold deleteClass. destruct (classes s !! name) as [m|] eqn:E; [|done]. destruct Hs as [H1 H2 H3 H4]. set (ns0 := NamespaceFromQualified name).
  assert (Hcount : forall ns, namespace_count ns (delete name (classes s)) = namespace_count ns (classes s) - if decide (ns0 = ns) then 1 else 0)
    by (intros ns; by rewrite (tally_delete _ _ _ m)).
  set (n := namespace_count ns0 (classes s)). assert (Hn : ns0 <> "" -> bump ns0 (-1) (classCountByNamespace s) !! ns0 = Some (n - 1))
    by (intros Hne; rewrite (bump_entry _ _ _ n) by (rewrite H2, decide_False by done; done); done).
  split; cbn [fst shardsCount classes classCountByNamespace collectionsCount].
  - intros st. rewrite (sum_classes_delete _ _ _ m), change_add_counts, change_count_shards, H1 by done. change (change st ∅) with 0. lia.
  - intros ns. rewrite Hcount. case_bool_decide as H0.
    + rewrite H2. destruct (decide (ns = "")) as [->|Hne]; [done|]. rewrite (decide_False (P := ns0 = ns)) by congruence. by rewrite Z.sub_0_r.
    + rewrite Hn by done. destruct (decide (ns0 = ns)) as [<-|Hne].
      * rewrite decide_False by done. fold n. case_bool_decide as Hz; [rewrite lookup_delete_eq|rewrite Hn by done]; unfold entry;
          destruct (Z.eqb_spec (n - 1) 0); congruence.
      * case_bool_decide; [rewrite lookup_delete_ne by done|]; rewrite bump_other, H2 by done; by rewrite Z.sub_0_r.
  - intros ns. rewrite Hcount. case_bool_decide as H0; [rewrite change_bump, H3; destruct (decide _); lia|]. rewrite Hn by done.
    case_bool_decide as Hz; [|rewrite change_bump, H3; destruct (decide _); lia]. destruct (decide (ns0 = ns)) as [<-|Hne].
    + fold n. unfold change. rewrite lookup_delete_eq. cbn. injection Hz. lia.
    + unfold change. rewrite lookup_delete_ne by done. fold (change ns (bump ns0 (-1) (collectionsCount s))). rewrite change_bump, H3, decide_False by done. lia.
  - intros c m' [_ Hc]%lookup_delete_Some. by apply (H4 c).
Qed.

(** ** The commands on tenants and replicas *)

Lemma set_class_inv s class m m' sign sc :
  schema_inv s -> classes s !! class = Some m -> keyed m' -> (forall st, count st (physicals m') = count st (physicals m) + sign * change st sc) ->
  schema_inv (set_shardsCount (set_class s class m') (add_counts sign sc (shardsCount s))).
Proof.
  intros [H1 H2 H3 H4] Hc Hk Hcount.
  assert (Hns : forall ns, namespace_count ns (<[class := m']> (classes s)) = namespace_count ns (classes s)) by (intros ns; by apply (tally_replace _ _ _ m)).
  split; cbn [shardsCount classes classCountByNamespace collectionsCount set_shardsCount set_class].
  - intros st. rewrite (sum_classes_replace _ _ _ m), change_add_counts, H1, Hcount by done. lia.
  - intros ns. by rewrite Hns.
  - intros ns. by rewrite Hns.
  - intros c m0 [[<- <-]|[_ H]]%lookup_insert_Some; [done|by apply (H4 c)].
Qed.

(** A class in which shards keep their names and statuses *)
Lemma set_class_same s class m m' :
  schema_inv s -> classes s !! class = Some m -> keyed m' -> (forall st, count st (physicals m') = count st (physicals m)) -> schema_inv (set_class s class m').
Proof.
  intros Hs Hc Hk Hcount. pose proof (set_class_inv s class m m' 1 ∅ Hs Hc Hk) as H. unfold add_counts in H. rewrite map_to_list_empty in H. cbn [foldr] in H.
  replace (set_class s class m') with (set_shardsCount (set_class s class m') (shardsCount s)) by done. apply H. intros st. rewrite Hcount. change (change st ∅) with 0. lia.
Qed.

Lemma replica_change_same (porder : gmap string Physical -> list string) (ss : State) (shard : string) (q q' : Physical) st :
  Physicals ss !! shard = Some q -> Status q' = Status q -> count st (<[shard := q']> (Physicals ss)) = count st (Physicals ss).
Proof. intros Hq Hs. rewrite (tenant_count_replace st shard q) by done. rewrite Hs. lia. Qed.

Lemma with_factor_physicals {A} porder ss (k : State -> State * fallible A) :
  (forall ss', Physicals ss' = Physicals ss -> exists r, k ss' = r /\ (Physicals r.1 = Physicals ss \/
     exists x q q', Physicals ss !! x = Some q /\ Physicals r.1 = <[x := q']> (Physicals ss) /\ Status q' = Status q /\ Name q' = Name q)) ->
  let r := with_factor porder ss k in
  Physicals r.1 = Physicals ss \/ exists x q q', Physicals ss !! x = Some q /\ Physicals r.1 = <[x := q']> (Physicals ss) /\ Status q' = Status q /\ Name q' = Name q.
Proof.
  intros Hk. unfold with_factor. destruct (MigrateShardingStateReplicationFactor porder ss) as [e|ss'] eqn:E; [by left|].
  assert (Hp : Physicals ss' = Physicals ss).
  { unfold MigrateShardingStateReplicationFactor in E. destruct (0 <? _); [by injection E as <-|]. destruct (PartitioningEnabled ss); [by injection E as <-|].
    destruct (same_factor _ _ _); [done|by injection E as <-]. }
  destruct (Hk ss' Hp) as (r & -> & H). done.
Qed.

Lemma AddReplica_effect porder ss shard replica :
  let r := AddReplicaToShard porder ss shard replica in
  Physicals r.1 = Physicals ss \/ exists x q q', Physicals ss !! x = Some q /\ Physicals r.1 = <[x := q']> (Physicals ss) /\ Status q' = Status q /\ Name q' = Name q.
Proof.
  apply with_factor_physicals. intros ss' Hp. eexists. split; [done|]. rewrite Hp. destruct (Physicals ss !! shard) as [q|] eqn:E; [|by left].
  unfold AddReplica. case_bool_decide; [by left|right]. exists shard, q. eexists. split_and!; [done|cbn [fst set_Physicals Physicals]; done|done|done].
Qed.

Lemma DeleteReplica_effect porder ss shard replica :
  let r := DeleteReplicaFromShard porder ss shard replica in
  Physicals r.1 = Physicals ss \/ exists x q q', Physicals ss !! x = Some q /\ Physicals r.1 = <[x := q']> (Physicals ss) /\ Status q' = Status q /\ Name q' = Name q.
Proof.
  apply with_factor_physicals. intros ss' Hp. eexists. split; [done|]. unfold NumberOfReplicas. rewrite Hp. destruct (Physicals ss !! shard) as [q|] eqn:E; [|by left].
  destruct (_ <=? _); [by left|right]. exists shard, q, (DeleteReplica q replica). split_and!; [done|cbn [fst set_Physicals Physicals]; done| |apply DeleteReplica_name].
  unfold DeleteReplica. by destruct (list_find _ _) as [[? ?]|].
Qed.

Lemma replica_inv s class m m' :
  schema_inv s -> classes s !! class = Some m ->
  (physicals m' = physicals m \/ exists x q q', physicals m !! x = Some q /\ physicals m' = <[x := q']> (physicals m) /\ Status q' = Status q /\ Name q' = Name q) ->
  schema_inv (set_class s class m').
Proof.
  intros Hs Hc Heff. pose proof (sv_keyed s Hs class m Hc) as Hk. apply (set_class_same s class m); [done|done|..].
  - destruct Heff as [E|(x & q & q' & Hq & E & _ & HN)]; unfold keyed; rewrite E; [done|]. intros y r [[<- <-]|[_ H]]%lookup_insert_Some; [rewrite HN; by apply Hk|by apply Hk].
  - intros st. destruct Heff as [E|(x & q & q' & Hq & E & Hst & _)]; rewrite E; [done|]. rewrite (tenant_count_replace st x q) by done. rewrite Hst. lia.
Qed.

(** Every collection changed, statuses and names apart *)
Lemma tally_fmap {A} (P : string * A -> Prop) `{!forall x, Decision (P x)} (f : A -> A) (m : gmap string A) :
  (forall k a, P (k, f a) <-> P (k, a)) -> tally P (f <$> m) = tally P m.
Proof.
  intros HP. unfold tally. rewrite map_to_list_fmap, map_map. f_equal. apply map_ext. intros [k a]. cbn [prod_map fst snd id].
  specialize (HP k a). destruct (decide (P (k, f a))) as [Ha|Ha], (decide (P (k, a))) as [Hb|Hb]; [done|by apply HP in Ha|by apply HP in Hb|done].
Qed.

Lemma fmap_classes_inv s f :
  schema_inv s -> (forall m, keyed m -> keyed (f m)) -> (forall m st, count st (physicals (f m)) = count st (physicals m)) ->
  schema_inv (Schema (nodeID s) (f <$> classes s) (aliases s) (classCountByNamespace s) (collectionsCount s) (shardsCount s)).
Proof.
  intros [H1 H2 H3 H4] Hk Hc. assert (Hns : forall ns, namespace_count ns (f <$> classes s) = namespace_count ns (classes s)) by (intros ns; by apply tally_fmap).
  split; cbn [shardsCount classes classCountByNamespace collectionsCount].
  - intros st. rewrite H1. unfold sum_classes. rewrite map_to_list_fmap, map_map. f_equal. apply map_ext. intros [k m]. symmetry. apply Hc.
  - intros ns. by rewrite Hns.
  - intros ns. by rewrite Hns.
  - intros c m (m0 & <- & Hm0)%lookup_fmap_Some. apply Hk. exact (H4 c m0 Hm0).
Qed.

Lemma status_count_fmap st (f : Physical -> Physical) p : (forall q, Status (f q) = Status q) -> count st (f <$> p) = count st p.
Proof. intros Hf. unfold count. rewrite !tally_size. apply tally_fmap. intros k q. cbn [snd]. by rewrite Hf. Qed.

Lemma replaceStatesNodeName_inv new s s' : replaceStatesNodeName new s = Ok s' -> schema_inv s -> schema_inv s'.
Proof.
  unfold replaceStatesNodeName. destruct (forallb _ _); [|done]. intros [= <-] Hs. apply fmap_classes_inv; [done|..].
  - intros m Hk. destruct (match mc_Factor m with Some _ => _ | None => _ end); [done|]. intros x q. cbn [Sharding set_sharding Physicals set_Physicals].
    intros (q0 & <- & Hq0)%lookup_fmap_Some. exact (Hk x q0 Hq0).
  - intros m st. destruct (match mc_Factor m with Some _ => _ | None => _ end); [done|]. by apply status_count_fmap.
Qed.

(** Any sequence of commands on collections, tenants, replicas and aliases, and restored snapshots; not the reports of processes *)
Inductive schema_reaches (porder : gmap string Physical -> list string) : schema -> Prop :=
| reach_new id : schema_reaches porder (NewSchema id)
| reach_add_class cls ss v s : schema_reaches porder s -> (forall x q, Physicals ss !! x = Some q -> Name q = x) -> schema_reaches porder (addClass cls ss v s).1
| reach_delete_class name s : schema_reaches porder s -> schema_reaches porder (deleteClass name s).1
| reach_restore parses incoming dropped s s' : schema_reaches porder s -> (forall c m, incoming !! c = Some m -> keyed m) ->
    restore parses incoming s = inr (dropped, s') -> schema_reaches porder s'
| reach_add_tenants class v tenants nodes s s' kept : schema_reaches porder s -> addTenants class v tenants nodes s = Ok (s', kept) -> schema_reaches porder s'
| reach_delete_tenants class v names s : schema_reaches porder s -> schema_reaches porder (deleteTenants porder class v names s).1
| reach_update_tenants order HasActive class v tenants nodes s s' e kept pre : schema_reaches porder s -> Forall (fun t => t_Status t <> "") tenants ->
    updateTenants order HasActive class v tenants nodes s = Ok (s', e, kept, pre) -> schema_reaches porder s'
| reach_add_shard_replica class v shard replica s : schema_reaches porder s -> schema_reaches porder (addReplicaToShard porder class v shard replica s).1
| reach_delete_shard_replica class v shard replica s : schema_reaches porder s -> schema_reaches porder (deleteReplicaFromShard porder class v shard replica s).1
| reach_node_name new s s' : schema_reaches porder s -> replaceStatesNodeName new s = Ok s' -> schema_reaches porder s'
| reach_aliases a s : schema_reaches porder s -> schema_reaches porder (set_aliases s a).

Lemma tenants_enabled class s meta f : multiTenancyEnabled class s = inr (meta, f) -> classes s !! class = Some meta.
Proof. unfold multiTenancyEnabled. destruct (classes s !! class) as [m|]; [|done]. destruct (mc_MultiTenancy m); [|done]. by intros [= <- _]. Qed.

Lemma schema_reaches_inv porder s : (forall p, porder p ≡ₚ (map_to_list p).*1) -> schema_reaches porder s -> schema_inv s.
Proof.
  intros Ho. induction 1 as [id|cls ss v s _ IH Hk|name s _ IH|parses incoming dropped s s' _ IH Hk E|class v tenants nodes s s' kept _ IH E|class v names s _ IH
    |order HasActive class v tenants nodes s s' e kept pre _ IH Hts E|class v shard replica s _ IH|class v shard replica s _ IH|new s s' _ IH E|a s _ IH].
  - split; cbn [NewSchema shardsCount classes classCountByNamespace collectionsCount]; [done|by intros ns; destruct (decide _)| |done].
    intros ns. unfold change. destruct (decide (ns = "")) as [->|Hne]; [by rewrite lookup_singleton_eq|by rewrite lookup_singleton_ne].
  - by apply addClass_inv.
  - by apply deleteClass_inv.
  - unfold restore in E. destruct (filter _ _) as [|[name m] l]; [|done]. injection E as <- <-. apply replaceClasses_inv; [done|].
    intros c m (m0 & <- & Hm0)%lookup_fmap_Some. exact (Hk c m0 Hm0).
  - unfold addTenants in E. destruct (multiTenancyEnabled class s) as [e|[meta f]] eqn:Em; [done|]. apply tenants_enabled in Em.
    destruct (AddTenants _ _ _ _ _ _) as [[[m sc] kept']| | |] eqn:Ea; cbn [omap_err obind] in E; try done. injection E as <- <-.
    destruct (AddTenants_counts _ _ _ _ _ _ _ _ _ Ea (sv_keyed s IH _ _ Em)) as [Hk Hc]. apply (set_class_inv s class meta); [done|done|done|]. intros st. rewrite Hc. lia.
  - unfold deleteTenants. destruct (multiTenancyEnabled class s) as [e|[meta f]] eqn:Em; [done|]. apply tenants_enabled in Em.
    destruct (DeleteTenants_counts porder names v meta Ho) as (m & sc & -> & Hc & Hl). apply (set_class_inv s class meta); [done|done| |intros st; rewrite Hc; lia].
    intros x q Hq. rewrite Hl in Hq. destruct (decide _); [done|]. by apply (sv_keyed s IH _ _ Em).
  - unfold updateTenants in E. destruct (multiTenancyEnabled class s) as [e0|[meta f]] eqn:Em; [by injection E as <- _ _ _|]. apply tenants_enabled in Em.
    pose proof (UpdateTenants_counts order (HasActive (mc_Class meta)) (nodeID s) nodes tenants v meta (sv_keyed s IH _ _ Em) Hts) as Hu.
    destruct (UpdateTenants _ _ _ _ _ _ _) as [u|[u e1]| |]; try done; injection E as <- _ _ _; destruct Hu as [Hk Hc];
      (apply (set_class_inv s class meta); [done|done|done|]); intros st; rewrite Hc; lia.
  - unfold addReplicaToShard, updateClass. destruct (classes s !! class) as [m|] eqn:Em; [|done]. unfold mc_AddReplicaToShard.
    pose proof (AddReplica_effect porder (Sharding m) shard replica) as He. destruct (AddReplicaToShard porder (Sharding m) shard replica) as [ss [e|[]]]; by apply (replica_inv s class m).
  - unfold deleteReplicaFromShard, updateClass. destruct (classes s !! class) as [m|] eqn:Em; [|done]. unfold mc_DeleteReplicaFromShard.
    pose proof (DeleteReplica_effect porder (Sharding m) shard replica) as He. destruct (DeleteReplicaFromShard porder (Sharding m) shard replica) as [ss [e|[]]]; by apply (replica_inv s class m).
  - by apply (replaceStatesNodeName_inv new s).
  - destruct IH as [H1 H2 H3 H4]. by split.
Qed.

(** C17: the counts a node publishes are right: after any sequence of commands that add and delete collections, add and delete tenants, update tenants to statuses that
    are not empty, add and delete replicas, rename the node, change aliases and restore snapshots, where shards are stored under their names, the gauge of shards has for every status the number of shards with it,
    the gauge of collections and the count that limits a namespace have for every namespace the number of its collections, and an
    empty namespace has no entry.  The reports of freeze and unfreeze processes are not among these commands: they can make the counts wrong
    ([aborted_freeze_reported_frozen]). *)
Theorem schema_counts_exact porder s :
  (forall p, porder p ≡ₚ (map_to_list p).*1) -> schema_reaches porder s ->
  schema_inv s /\ forall ns, ns <> "" -> CollectionsCount ns s = namespace_count ns (classes s).
Proof.
  intros Ho Hr. pose proof (schema_reaches_inv porder s Ho Hr) as Hi. split; [done|]. intros ns Hne. unfold CollectionsCount. rewrite bool_decide_false by done.
  rewrite (sv_namespaces s Hi), decide_False by done. apply entry_default.
Qed.

(** A namespaced collection with tenants *)
Definition toy_schema : schema := (addClass (MetaClass "ns:C" true (Some 2) 0 (MkState "C" toy_config ∅ [] true 2 "n1") 0 ∅) (Sharding (toy_class HOT)) 1 (NewSchema "n1")).1.

Lemma schema_counts_exact_witness :
  schema_inv toy_schema /\ forall ns, ns <> "" -> CollectionsCount ns toy_schema = namespace_count ns (classes toy_schema).
Proof.
  apply (schema_counts_exact toy_order toy_schema); [intros p; reflexivity|]. apply reach_add_class; [apply reach_new|].
  intros x q Hq. cbn in Hq. apply lookup_singleton_Some in Hq as [<- <-]. reflexivity.
Defined.

(** ** A snapshot taken during a freeze *)

Lemma snapshot_class porder s class m :
  classes s !! class = Some m -> 1 <= ReplicationFactor (Sharding m) ->
  exists m', MetaClasses porder s !! class = Some m' /\ physicals m' = p_DeepCopy <$> physicals m /\ ShardProcesses m' = ∅.
Proof.
  intros Hc Hf. unfold MetaClasses. eexists. rewrite lookup_fmap, Hc. split; [done|]. cbn [Sharding ShardProcesses]. split; [|done].
  unfold DeepCopy. by rewrite migrate_id.
Qed.

Lemma restored_class parses incoming s dropped s' class m :
  restore parses incoming s = inr (dropped, s') -> incoming !! class = Some m -> classes s' !! class = Some (SetLocalName (nodeID s) m).
Proof. unfold restore. destruct (filter _ _) as [|[k m0] l]; [|done]. intros [= _ <-] Hm. cbn [replaceClasses classes]. by rewrite lookup_fmap, Hm. Qed.

(** A snapshot forgets the freezes and unfreezes that are under way: on a node that restores one taken while a tenant was
    FREEZING or UNFREEZING the tenant keeps that status through every sequence of commands that add and update tenants and of reports by
    the nodes, the reports that complete the process on the nodes that did not restore among them. *)
Lemma snapshot_forgets_processes porder order parses s s0 dropped s' class m name q :
  (forall p, order p ≡ₚ map_to_list p) ->
  classes s !! class = Some m -> keyed m -> 1 <= ReplicationFactor (Sharding m) ->
  physicals m !! name = Some q -> Status q = FREEZING \/ Status q = UNFREEZING ->
  restore parses (MetaClasses porder s) s0 = inr (dropped, s') ->
  exists m', classes s' !! class = Some m' /\
    forall m'', rtc (tenant_step order) m' m'' -> exists q', physicals m'' !! name = Some q' /\ Status q' = Status q.
Proof.
  intros Ho Hc Hk Hf Hq Hst Hr. destruct (snapshot_class porder s class m Hc Hf) as (m1 & Hm1 & Hp & Hs).
  exists (SetLocalName (nodeID s0) m1). split; [by apply (restored_class parses (MetaClasses porder s) s0 dropped)|].
  intros m'' Hsteps. refine (wd_status _ _ _ (wedged_steps order Ho (Status q) name _ m'' Hsteps _)).
  assert (Hp' : physicals (SetLocalName (nodeID s0) m1) = p_DeepCopy <$> physicals m) by done.
  split; [done| | |].
  - exists (p_DeepCopy q). rewrite Hp', lookup_fmap, Hq. by split.
  - split; cbn [SetLocalName ShardProcesses]; by rewrite Hs.
  - intros x q'. rewrite Hp'. intros (q0 & <- & Hq0)%lookup_fmap_Some. exact (Hk x q0 Hq0).
Qed.

(** A freeze under way on the only collection *)
Definition toy_freezing : metaClass :=
  set_processes (toy_class FREEZING) {[shardProcessID "t" ACTION_FREEZING := {["n1" := MkProcess OP_START (MkTenant "t" FROZEN)]}]}.
Definition toy_snapshot : schema := Schema "n1" {["C" := toy_freezing]} ∅ ∅ ∅ ∅.

(** The report of its node ends the freeze where the process is known and is ignored where the snapshot was restored *)
Example snapshot_diverges :
  let report m := match UpdateTenantsProcess map_to_list "n1" "n1" ACTION_FREEZING [MkProcess OP_DONE (MkTenant "t" FROZEN)] 4 m with
                  | Ok u => Status <$> physicals (pu_class u) !! "t" | _ => None end in
  report toy_freezing = Some FROZEN /\
  match restore (fun _ => true) (MetaClasses toy_order toy_snapshot) (NewSchema "n2") with
  | inr (_, s') => report <$> classes s' !! "C" = Some (Some FREEZING)
  | inl _ => False
  end.
Proof. by vm_compute. Qed.

Lemma snapshot_forgets_processes_witness :
  exists dropped s' m', restore (fun _ => true) (MetaClasses toy_order toy_snapshot) (NewSchema "n2") = inr (dropped, s') /\ classes s' !! "C" = Some m' /\
    forall m'', rtc (tenant_step map_to_list) m' m'' -> exists q', physicals m'' !! "t" = Some q' /\ Status q' = FREEZING.
Proof.
  set (incoming := SetLocalName "n2" <$> MetaClasses toy_order toy_snapshot).
  exists (droppedBy incoming (NewSchema "n2")), (replaceClasses incoming (NewSchema "n2")).
  destruct (snapshot_forgets_processes toy_order map_to_list (fun _ => true) toy_snapshot (NewSchema "n2") (droppedBy incoming (NewSchema "n2"))
    (replaceClasses incoming (NewSchema "n2")) "C" toy_freezing "t" (new_physical "t" ["n1"; "n2"; "n3"] FREEZING)) as (m' & H1 & H2).
  - reflexivity.
  - reflexivity.
  - intros x q Hq. cbn in Hq. apply lookup_singleton_Some in Hq as [<- <-]. reflexivity.
  - vm_compute. discriminate.
  - reflexivity.
  - left. reflexivity.
  - reflexivity.
  - exists m'. split; [reflexivity|]. split; [exact H1|exact H2].
Defined.

(** ** Aliases *)

Section aliases.
Context (EqualFold : string -> string -> bool) (uppercase : string -> string) (class_order : gmap string metaClass -> list string)
  (alias_order : gmap string string -> list string) (EqualFold_sym : forall a b, EqualFold a b = EqualFold b a).

(** No two aliases that only differ in case *)
Definition aliases_distinct (s : schema) : Prop :=
  forall a b, is_Some (aliases s !! a) -> is_Some (aliases s !! b) -> EqualFold a b = true -> a = b.

Lemma createAlias_correct class alias s s' :
  aliases_distinct s -> createAlias EqualFold uppercase class_order alias_order class alias s = (s', None) ->
  aliases_distinct s' /\ ResolveAlias uppercase alias s' = class /\ is_Some (classes s' !! class) /\
  forall other, uppercase other <> uppercase alias -> ResolveAlias uppercase other s' = ResolveAlias uppercase other s.
Proof.
  intros Hd. unfold createAlias. destruct (unsafeAliasExists EqualFold (uppercase alias) s) eqn:Ee; [done|].
  destruct (classes s !! class) as [m|] eqn:Em; [|done]. destruct (unsafeClassEqual _ _ _ _ _) as [other isAlias]. case_bool_decide; [done|]. intros [= <-].
  assert (Hnew : forall b, is_Some (aliases s !! b) -> EqualFold b (uppercase alias) = false).
  { intros b [c Hb]. destruct (EqualFold b (uppercase alias)) eqn:Ef; [|done]. rewrite <- not_true_iff_false in Ee. exfalso. apply Ee.
    unfold unsafeAliasExists. apply existsb_exists. exists (b, c). split; [by apply list_elem_of_In, elem_of_map_to_list|done]. }
  split_and!.
  - intros a b. cbn [set_aliases aliases]. rewrite !lookup_insert_is_Some. intros [<-|[_ Ha]] [<-|[_ Hb]] Ef; [done|..].
    + by rewrite EqualFold_sym, Hnew in Ef.
    + by rewrite Hnew in Ef.
    + by apply Hd.
  - unfold ResolveAlias. cbn [set_aliases aliases]. by rewrite lookup_insert_eq.
  - by exists m.
  - intros other' Hne. unfold ResolveAlias. cbn [set_aliases aliases]. by rewrite lookup_insert_ne.
Qed.
End aliases.
