(* ===== verification/PriorityQueue.v ===== *)
(** * Priority queues

    [adapters/repos/db/priorityqueue/queue.go]: the binary heap in a slice that searches keep their best results in.  An
    index out of range panics.  A distance is any type with the comparisons of Go's floats other than NaN. *)

From S2P Require Import Prelude.

Notation run A := (outcome Empty_set A) (only parsing).

(** The comparisons [<] and [==] *)
Class Distance (D : Type) : Type := { flt : D -> D -> bool; feq : D -> D -> bool }.

Class DistanceLaws (D : Type) `{Distance D} : Prop := {
  flt_asym a b : flt a b = true -> flt b a = false;
  flt_cotrans a b c : flt a c = true -> flt a b = true \/ flt b c = true;
  feq_flt a b : feq a b = negb (flt a b) && negb (flt b a)
}.

Record Item (D T : Type) : Type := MkItem { ID : Z; Dist : D; Rescored : bool; Value : T }.
Arguments MkItem {D T}.
Arguments ID {D T}.
Arguments Dist {D T}.
Arguments Rescored {D T}.
Arguments Value {D T}.

(** [less items i j] of the code only looks at the items [i] and [j]. *)
Record Queue (D T : Type) : Type := MkQueue { items : list (Item D T); less : Item D T -> Item D T -> bool }.
Arguments MkQueue {D T}.
Arguments items {D T}.
Arguments less {D T}.

Section queue.
Context {D T : Type} `{Distance D}.
Implicit Types (q : Queue D T) (its : list (Item D T)) (item : Item D T).

Definition NewMin : Queue D T := MkQueue [] (fun a b => flt (Dist a) (Dist b)).
Definition NewMinWithId : Queue D T :=
  MkQueue [] (fun a b => if feq (Dist a) (Dist b) then ID b <? ID a else flt (Dist a) (Dist b)).
Definition NewMax : Queue D T := MkQueue [] (fun a b => flt (Dist b) (Dist a)).

Definition with_items q its : Queue D T := MkQueue its (less q).

Definition Len q : Z := Z.of_nat (length (items q)).

Definition Top q : run (Item D T) := match items q with [] => Panic | item :: _ => Ok item end.

Definition ShouldEnqueue q (distance : D) (limit : Z) : run bool :=
  if Len q <? limit then Ok true else let! item := Top q in Ok (flt (Dist item) distance).

Definition Reset q : Queue D T := with_items q [].

(** A new slice; the capacity only matters for allocations. *)
Definition ResetCap q (capacity : Z) : run (Queue D T) := if capacity <? 0 then Panic else Ok (with_items q []).

(** ** Indices *)

Definition heap_left (i : nat) : nat := 2 * i + 1.
Definition heap_right (i : nat) : nat := 2 * i + 2.
Definition heap_parent (i : nat) : nat := (i - 1) / 2.

Definition less_at (less : Item D T -> Item D T -> bool) its (i j : nat) : run bool :=
  match its !! i, its !! j with Some a, Some b => Ok (less a b) | _, _ => Panic end.

Definition swap its (i j : nat) : run (list (Item D T)) :=
  match its !! i, its !! j with Some a, Some b => Ok (<[j := a]> (<[i := b]> its)) | _, _ => Panic end.

(** The first of two items, the second when it is there and less *)
Definition lesser (less : Item D T -> Item D T -> bool) its (i child : nat) : run nat :=
  if (child <? length its)%nat then let! b := less_at less its child i in Ok (if b then child else i) else Ok i.

Fixpoint heapify (fuel : nat) (less : Item D T -> Item D T -> bool) its (i : nat) : run (list (Item D T)) :=
  match fuel with
  | O => OutOfFuel
  | S fuel =>
      let! smallest := lesser less its i (heap_left i) in
      let! smallest := lesser less its smallest (heap_right i) in
      if (smallest =? i)%nat then Ok its
      else
        let! its := swap its i smallest in
        heapify fuel less its smallest
  end.

(** The loop of [insert] *)
Fixpoint sift_up (fuel : nat) (less : Item D T -> Item D T -> bool) its (i : nat) : run (list (Item D T) * nat) :=
  match fuel with
  | O => OutOfFuel
  | S fuel =>
      if (i =? 0)%nat then Ok (its, i)
      else
        let! b := less_at less its i (heap_parent i) in
        if b then let! its := swap its i (heap_parent i) in sift_up fuel less its (heap_parent i) else Ok (its, i)
  end.

(** ** Operations *)

Definition insert_item q item : run (Queue D T * nat) :=
  let its := items q ++ [item] in
  let! (its, i) := sift_up (length its) (less q) its (length its - 1) in
  Ok (with_items q its, i).

Definition InsertWithValue q (id : Z) (distance : D) (val : T) : run (Queue D T * nat) := insert_item q (MkItem id distance false val).

(** The value is the zero value of its type. *)
Definition Insert (zero : T) q (id : Z) (distance : D) : run (Queue D T * nat) := insert_item q (MkItem id distance false zero).

(** The item [i] is overwritten with the last one, which is cut off. *)
Definition overwrite_with_last its (i : nat) : run (list (Item D T)) :=
  match last its with None => Panic | Some l => if (i <? length its)%nat then Ok (take (length its - 1) (<[i := l]> its)) else Panic end.

Definition Pop q : run (Item D T * Queue D T) :=
  let! out := Top q in
  let! its := overwrite_with_last (items q) 0 in
  let! its := heapify (S (length its)) (less q) its 0 in
  Ok (out, with_items q its).

(** [for q.Len() > limit { q.Pop() }] *)
Fixpoint pop_to (fuel : nat) q (limit : Z) : run (Queue D T) :=
  match fuel with
  | O => OutOfFuel
  | S fuel => if limit <? Len q then let! (_, q) := Pop q in pop_to fuel q limit else Ok q
  end.

(** The queue and the worst distance, which only a full queue changes *)
Definition InsertAndPop q (id : Z) (score : D) (limit : Z) (worstDist : D) (val : T) : run (Queue D T * D) :=
  let! (q, _) := InsertWithValue q id score val in
  let! q := pop_to (S (length (items q))) q limit in
  if limit <=? Len q then let! top := Top q in Ok (q, Dist top) else Ok (q, worstDist).

Definition DeleteItem q (matches : Item D T -> bool) : run (Queue D T * bool) :=
  match list_find (fun item => matches item = true) (items q) with
  | None => Ok (q, false)
  | Some (O, _) => let! (_, q) := Pop q in Ok (q, true)
  | Some (i, _) =>
      let! its := overwrite_with_last (items q) i in
      let! its := heapify (S (length its)) (less q) its 0 in
      Ok (with_items q its, true)
  end.
End queue.

(** * The heap *)

(** A strict weak order *)
Class StrictWeak {A : Type} (lt : A -> A -> bool) : Prop := {
  sw_asym a b : lt a b = true -> lt b a = false;
  sw_cotrans a b c : lt a c = true -> lt a b = true \/ lt b c = true
}.

Section order.
Context {A : Type} (lt : A -> A -> bool) `{!StrictWeak lt}.

(** [no_less a b]: [a] may come before [b] *)
Definition no_less (a b : A) : Prop := lt b a = false.

Lemma no_less_refl a : no_less a a.
Proof. unfold no_less. destruct (lt a a) eqn:E; [|done]. by rewrite (sw_asym a a E) in E. Qed.

Lemma no_less_trans a b c : no_less a b -> no_less b c -> no_less a c.
Proof. unfold no_less. intros Hab Hbc. destruct (lt c a) eqn:E; [|done]. apply (sw_cotrans c b a) in E as [E|E]; congruence. Qed.

Lemma no_less_of_less a b : lt a b = true -> no_less a b.
Proof. apply sw_asym. Qed.

Lemma no_less_total a b : no_less a b \/ no_less b a.
Proof. unfold no_less. destruct (lt b a) eqn:E; [right; by apply sw_asym|by left]. Qed.
End order.

Lemma parent_left i : heap_parent (heap_left i) = i.
Proof. unfold heap_parent, heap_left. replace (2 * i + 1 - 1)%nat with (i * 2)%nat by lia. by apply Nat.div_mul. Qed.

Lemma parent_right i : heap_parent (heap_right i) = i.
Proof. unfold heap_parent, heap_right. replace (2 * i + 2 - 1)%nat with (1 + i * 2)%nat by lia. rewrite Nat.div_add by done. by change (1 / 2)%nat with 0%nat. Qed.

Lemma parent_lt i : (0 < i)%nat -> (heap_parent i < i)%nat.
Proof. intros Hi. unfold heap_parent. apply Nat.Div0.div_lt_upper_bound. lia. Qed.

Lemma child_cases c i : (0 < c)%nat -> heap_parent c = i -> c = heap_left i \/ c = heap_right i.
Proof.
  unfold heap_parent, heap_left, heap_right. intros Hc Hp. pose proof (Nat.div_mod_eq (c - 1) 2) as E. pose proof (Nat.mod_upper_bound (c - 1) 2 ltac:(done)). lia.
Qed.

Lemma heap_left_lt i : (i < heap_left i)%nat.
Proof. unfold heap_left. lia. Qed.
Lemma heap_right_lt i : (i < heap_right i)%nat.
Proof. unfold heap_right. lia. Qed.

Section heap.
Context {D T : Type} (lt : Item D T -> Item D T -> bool) `{!StrictWeak lt}.
Implicit Types its : list (Item D T).

(** The item [c] does not come before its parent. *)
Definition ordered its (c : nat) : Prop :=
  forall a b, (0 < c)%nat -> its !! heap_parent c = Some a -> its !! c = Some b -> no_less lt a b.

Definition heap its : Prop := forall c, ordered its c.

(** A heap but for the item [k], which may be too large for its place *)
Definition heap_but_down its (k : nat) : Prop :=
  (forall c, heap_parent c <> k -> ordered its c) /\
  (forall c a b, (0 < k)%nat -> (0 < c)%nat -> heap_parent c = k -> its !! heap_parent k = Some a -> its !! c = Some b -> no_less lt a b).

(** A heap but for the item [k], which may be too small for its place *)
Definition heap_but_up its (k : nat) : Prop :=
  (forall c, c <> k -> ordered its c) /\
  (forall c a b, (0 < k)%nat -> (0 < c)%nat -> heap_parent c = k -> its !! heap_parent k = Some a -> its !! c = Some b -> no_less lt a b).

(** An exchange of two items *)
Lemma swapped_lookup its i j a b : its !! i = Some a -> its !! j = Some b -> i <> j ->
  let its' := <[j := a]> (<[i := b]> its) in
  its' !! i = Some b /\ its' !! j = Some a /\ (forall c, c <> i -> c <> j -> its' !! c = its !! c).
Proof.
  intros Hi Hj Hne. apply lookup_lt_Some in Hi as Li, Hj as Lj. cbn zeta. split_and!.
  - by rewrite list_lookup_insert_ne, list_lookup_insert_eq.
  - apply list_lookup_insert_eq. by rewrite length_insert.
  - intros c Hci Hcj. by rewrite !list_lookup_insert_ne.
Qed.

Lemma swapped_perm its i j a b : its !! i = Some a -> its !! j = Some b -> <[j := a]> (<[i := b]> its) ≡ₚ its.
Proof.
  intros Hi Hj. apply Permutation_inj. rewrite !length_insert. split; [done|].
  apply lookup_lt_Some in Hi as Li, Hj as Lj. exists (fun c => if decide (c = i) then j else if decide (c = j) then i else c). split.
  - intros x y. repeat destruct (decide _); congruence.
  - intros c. destruct (decide (c = i)) as [->|Hi']; [|destruct (decide (c = j)) as [->|Hj']].
    + destruct (decide (i = j)) as [->|Hne]; [rewrite list_lookup_insert_eq; [congruence|by rewrite length_insert]|].
      by rewrite list_lookup_insert_ne, list_lookup_insert_eq.
    + rewrite list_lookup_insert_eq by (by rewrite length_insert). done.
    + by rewrite !list_lookup_insert_ne.
Qed.

(** ** Sifting down *)

Lemma lesser_spec its i c : (i < length its)%nat ->
  exists s, lesser lt its i c = Ok s /\ (s < length its)%nat /\
    ((s = i /\ forall a b, its !! i = Some a -> its !! c = Some b -> no_less lt a b) \/ (s = c /\ exists a b, its !! i = Some a /\ its !! c = Some b /\ lt b a = true)).
Proof.
  intros Hi. unfold lesser. destruct (Nat.ltb_spec c (length its)) as [Hc|Hc].
  - destruct (lookup_lt_is_Some_2 its i Hi) as [a Ha], (lookup_lt_is_Some_2 its c Hc) as [b Hb]. unfold less_at. rewrite Ha, Hb. cbn [obind].
    destruct (lt b a) eqn:E; eexists; (split; [done|]); (split; [done|]); [right; eauto 6|left]. split; [done|]. intros ? ? [= <-] [= <-]. exact E.
  - eexists. split; [done|]. split; [done|]. left. split; [done|]. intros a b _ Hb. apply lookup_lt_Some in Hb. lia.
Qed.

(** The least of an item and its children *)
Lemma smallest_spec its i : (i < length its)%nat ->
  exists s, (let! s := lesser lt its i (heap_left i) in lesser lt its s (heap_right i)) = Ok s /\
    ((s = i /\ forall c, heap_parent c = i -> ordered its c) \/
     ((s = heap_left i \/ s = heap_right i) /\ exists a b, its !! i = Some a /\ its !! s = Some b /\ lt b a = true /\
        forall c b', (0 < c)%nat -> heap_parent c = i -> its !! c = Some b' -> no_less lt b b')).
Proof.
  intros Hi. destruct (lesser_spec its i (heap_left i) Hi) as (s1 & -> & L1 & Hs1). cbn [obind].
  destruct (lesser_spec its s1 (heap_right i) L1) as (s & -> & L & Hs). exists s. split; [done|].
  destruct (lookup_lt_is_Some_2 its i Hi) as [a Ha]. destruct Hs1 as [[-> Hl]|[-> (a0 & l & Ha0 & Hl & Hlt)]].
  - destruct Hs as [[-> Hr]|[-> (a1 & r & Ha1 & Hr & Hlt)]].
    + left. split; [done|]. intros c Hp x y Hc0 Hx Hy. rewrite Hp in Hx. destruct (child_cases c i Hc0 Hp) as [->| ->]; eauto.
    + rewrite Ha in Ha1. injection Ha1 as <-. right. split; [by right|]. exists a, r. split_and!; [done..|]. intros c b' Hc0 Hp Hb'.
      destruct (child_cases c i Hc0 Hp) as [->| ->]; [|rewrite Hr in Hb'; injection Hb' as <-; by apply no_less_refl].
      apply (no_less_trans lt r a b'); [by apply no_less_of_less|by apply Hl].
  - rewrite Ha in Ha0. injection Ha0 as <-. right. destruct Hs as [[-> Hr]|[-> (a1 & r & Ha1 & Hr & Hlt2)]].
    + split; [by left|]. exists a, l. split_and!; [done..|]. intros c b' Hc0 Hp Hb'. destruct (child_cases c i Hc0 Hp) as [->| ->]; [|by apply Hr].
      rewrite Hl in Hb'. injection Hb' as <-. by apply no_less_refl.
    + rewrite Hl in Ha1. injection Ha1 as <-. split; [by right|]. exists a, r. split_and!; [done|done| |].
      * destruct (sw_cotrans r a l Hlt2) as [E|E]; [done|]. by rewrite (sw_asym _ _ Hlt) in E.
      * intros c b' Hc0 Hp Hb'. destruct (child_cases c i Hc0 Hp) as [->| ->]; [rewrite Hl in Hb'; injection Hb' as <-; by apply no_less_of_less|].
        rewrite Hr in Hb'. injection Hb' as <-. by apply no_less_refl.
Qed.

Lemma swap_down its i s a b : heap_but_down its i -> (0 < s)%nat -> heap_parent s = i -> its !! i = Some a -> its !! s = Some b -> lt b a = true ->
  (forall c b', (0 < c)%nat -> heap_parent c = i -> its !! c = Some b' -> no_less lt b b') -> heap_but_down (<[s := a]> (<[i := b]> its)) s.
Proof.
  intros [H1 H2] Hs0 Hp Ha Hb Hlt Hmin. assert (Hne : i <> s) by (pose proof (parent_lt s Hs0); lia).
  destruct (swapped_lookup its i s a b Ha Hb Hne) as (Li & Ls & Lo). set (its' := <[s := a]> (<[i := b]> its)) in *. split.
  - intros c Hcs x y Hc0 Hx Hy. pose proof (parent_lt c Hc0). destruct (decide (c = s)) as [->|Hc].
    { rewrite Hp, Li in Hx. rewrite Ls in Hy. injection Hx as <-. injection Hy as <-. by apply no_less_of_less. }
    destruct (decide (c = i)) as [->|Hci].
    { rewrite Li in Hy. injection Hy as <-. rewrite Lo in Hx by lia. by apply (H2 s x b). }
    rewrite Lo in Hy by done. destruct (decide (heap_parent c = i)) as [Hpc|Hpc].
    { rewrite Hpc, Li in Hx. injection Hx as <-. by apply (Hmin c y). }
    rewrite Lo in Hx by done. by apply (H1 c Hpc x y).
  - intros c x y _ Hc0 Hpc Hx Hy. rewrite Hp, Li in Hx. injection Hx as <-. pose proof (parent_lt c Hc0). rewrite Lo in Hy by (rewrite <- ?Hp in *; pose proof (parent_lt s Hs0); lia).
    apply (H1 c) with (a := b) (b := y); [congruence|done|by rewrite Hpc|done].
Qed.

Lemma heapify_correct fuel : forall its i, (length its <= fuel + i)%nat -> (0 < fuel)%nat ->
  exists its', heapify fuel lt its i = Ok its' /\ its' ≡ₚ its /\ (heap_but_down its i -> heap its').
Proof.
  induction fuel as [|fuel IH]; intros its i Hf Hf0; [lia|]. cbn [heapify]. destruct (decide (i < length its)%nat) as [Hi|Hi].
  - destruct (smallest_spec its i Hi) as (s & Es & Hs). destruct (lesser lt its i (heap_left i)) as [s1| | |]; cbn [obind] in *; try done. rewrite Es. cbn [obind].
    destruct Hs as [[-> Hch]|[Hchild (a & b & Ha & Hb & Hlt & Hmin)]].
    + rewrite Nat.eqb_refl. exists its. split; [done|]. split; [done|]. intros Hh c. destruct (decide (heap_parent c = i)); [by apply Hch|by apply Hh].
    + pose proof (heap_left_lt i). pose proof (heap_right_lt i). assert (Hs0 : (i < s)%nat) by (destruct Hchild; lia).
      assert (Hp : heap_parent s = i) by (destruct Hchild as [->| ->]; [apply parent_left|apply parent_right]). rewrite (proj2 (Nat.eqb_neq s i)) by lia.
      unfold swap. rewrite Ha, Hb. cbn [obind]. apply lookup_lt_Some in Hb as Ls.
      destruct (IH (<[s := a]> (<[i := b]> its)) s) as (its' & -> & Hperm & Hheap); [rewrite !length_insert; lia|lia|].
      exists its'. split; [done|]. split; [rewrite Hperm; by apply swapped_perm|]. intros Hh. apply Hheap, swap_down; [done|lia|done..].
  - assert (Hn : forall c, (i < c)%nat -> lesser lt its i c = Ok i) by (intros c Hc; unfold lesser; by rewrite (proj2 (Nat.ltb_ge c (length its))) by lia).
    rewrite Hn by apply heap_left_lt. cbn [obind]. rewrite Hn by apply heap_right_lt. cbn [obind]. rewrite Nat.eqb_refl. exists its. split; [done|]. split; [done|].
    intros Hh c a b Hc Ha Hb. destruct (decide (heap_parent c = i)) as [<-|Hne]; [apply lookup_lt_Some in Ha; lia|by apply (proj1 Hh c Hne)].
Qed.

(** ** Sifting up *)

Lemma swap_up its k a b : heap_but_up its k -> (0 < k)%nat -> its !! k = Some b -> its !! heap_parent k = Some a -> lt b a = true ->
  heap_but_up (<[heap_parent k := b]> (<[k := a]> its)) (heap_parent k).
Proof.
  intros [H1 H2] Hk Hb Ha Hlt. pose proof (parent_lt k Hk) as Hpk. assert (Hne : k <> heap_parent k) by lia.
  destruct (swapped_lookup its k (heap_parent k) b a Hb Ha Hne) as (Lk & Lp & Lo). set (its' := <[heap_parent k := b]> _) in *.
  assert (Hsib : forall c y, (0 < c)%nat -> c <> k -> heap_parent c = heap_parent k -> its !! c = Some y -> no_less lt a y).
  { intros c y Hc0 Hc Hp Hy. apply (H1 c Hc) with (a := a) (b := y); [done|by rewrite Hp|done]. }
  split.
  - intros c Hc x y Hc0 Hx Hy. pose proof (parent_lt c Hc0). destruct (decide (c = k)) as [->|Hck].
    { rewrite Lp in Hx. rewrite Lk in Hy. injection Hx as <-. injection Hy as <-. by apply no_less_of_less. }
    rewrite Lo in Hy by done. destruct (decide (heap_parent c = heap_parent k)) as [Hp|Hp].
    { rewrite Hp, Lp in Hx. injection Hx as <-. apply (no_less_trans lt b a y); [by apply no_less_of_less|by apply (Hsib c)]. }
    destruct (decide (heap_parent c = k)) as [Hp2|Hp2].
    { rewrite Hp2, Lk in Hx. injection Hx as <-. by apply (H2 c a y). }
    rewrite Lo in Hx by done. by apply (H1 c Hck x y).
  - intros c x y Hp0 Hc0 Hp Hx Hy. pose proof (parent_lt (heap_parent k) Hp0). rewrite Lo in Hx by lia.
    assert (Hxa : no_less lt x a) by (by apply (H1 (heap_parent k)); [lia|..]). destruct (decide (c = k)) as [->|Hck].
    + rewrite Lk in Hy. by injection Hy as <-.
    + pose proof (parent_lt c Hc0). rewrite Lo in Hy by lia. apply (no_less_trans lt x a y); [done|by apply (Hsib c)].
Qed.

Lemma sift_up_correct fuel : forall its k item, (k < fuel)%nat -> its !! k = Some item -> heap_but_up its k ->
  exists its' i, sift_up fuel lt its k = Ok (its', i) /\ its' ≡ₚ its /\ heap its' /\ its' !! i = Some item.
Proof.
  induction fuel as [|fuel IH]; intros its k item Hf Hk Hh; [lia|]. cbn [sift_up]. destruct (Nat.eqb_spec k 0) as [->|Hk0].
  - exists its, 0%nat. split_and!; [done|done| |done]. intros c. destruct (decide (c = 0%nat)) as [->|Hne]; [intros ? ? ?; lia|by apply Hh].
  - assert (Hk0' : (0 < k)%nat) by lia. pose proof (parent_lt k Hk0') as Hp. destruct (lookup_lt_is_Some_2 its (heap_parent k)) as [a Ha]; [apply lookup_lt_Some in Hk; lia|].
    unfold less_at. rewrite Hk, Ha. cbn [obind]. destruct (lt item a) eqn:E.
    + unfold swap. rewrite Hk, Ha. cbn [obind]. destruct (IH (<[heap_parent k := item]> (<[k := a]> its)) (heap_parent k) item) as (its' & i & -> & Hperm & Hheap & Hi).
      * lia.
      * apply list_lookup_insert_eq. rewrite length_insert. by apply lookup_lt_Some in Ha.
      * by apply swap_up.
      * exists its', i. split_and!; [done| |done|done]. rewrite Hperm. by apply swapped_perm.
    + exists its, k. split_and!; [done|done| |done]. intros c. destruct (decide (c = k)) as [->|Hne]; [|by apply Hh].
      intros x y _ Hx Hy. rewrite Ha in Hx. rewrite Hk in Hy. injection Hx as <-. injection Hy as <-. exact E.
Qed.

(** ** The first item *)

Lemma heap_root_least its a : heap its -> its !! 0%nat = Some a -> forall i b, its !! i = Some b -> no_less lt a b.
Proof.
  intros Hh Ha i. induction (Nat.lt_wf_0 i) as [i _ IH]. intros b Hb. destruct (decide (i = 0%nat)) as [->|Hi].
  - rewrite Ha in Hb. injection Hb as <-. by apply no_less_refl.
  - assert (Hi0 : (0 < i)%nat) by lia. pose proof (parent_lt i Hi0) as Hp. destruct (lookup_lt_is_Some_2 its (heap_parent i)) as [p Hpa]; [apply lookup_lt_Some in Hb; lia|].
    apply (no_less_trans lt a p b); [by apply (IH (heap_parent i))|by apply (Hh i)].
Qed.
End heap.

(** * The operations *)

Section operations.
Context {D T : Type} `{Distance D}.
Implicit Types (q : Queue D T) (its : list (Item D T)) (item : Item D T).

(** A queue in order *)
Record queue_ok q : Prop := {
  qo_order : StrictWeak (less q);
  qo_heap : heap (less q) (items q)
}.

Lemma snoc_heap_but (lt : Item D T -> Item D T -> bool) its item : heap lt its -> heap_but_up lt (its ++ [item]) (length its).
Proof.
  intros Hh. split.
  - intros c Hc a b Hc0 Ha Hb. apply lookup_lt_Some in Hb as L. rewrite length_app in L. cbn [length] in L. pose proof (parent_lt c Hc0).
    rewrite lookup_app_l in Ha, Hb by lia. by apply (Hh c).
  - intros c a b _ Hc0 Hp _ Hb. apply lookup_lt_Some in Hb as L. rewrite length_app in L. cbn [length] in L. pose proof (parent_lt c Hc0). lia.
Qed.

Lemma insert_correct q item : queue_ok q ->
  exists q' i, insert_item q item = Ok (q', i) /\ less q' = less q /\ items q' ≡ₚ item :: items q /\ queue_ok q' /\ items q' !! i = Some item.
Proof.
  intros [Ho Hh]. unfold insert_item. rewrite length_app. cbn [length]. replace (length (items q) + 1 - 1)%nat with (length (items q)) by lia.
  destruct (sift_up_correct (less q) (length (items q) + 1) (items q ++ [item]) (length (items q)) item) as (its' & i & -> & Hperm & Hheap & Hi).
  - lia.
  - by rewrite lookup_app_r, Nat.sub_diag by lia.
  - by apply snoc_heap_but.
  - exists (with_items q its'), i. cbn [obind]. split_and!; [done|done| |by split|done]. cbn [items with_items]. rewrite Hperm. by rewrite Permutation_app_comm.
Qed.

(** ** Removing an item *)

Lemma overwrite_spec its i item : its !! i = Some item ->
  exists its', overwrite_with_last its i = Ok its' /\ its ≡ₚ item :: its' /\ length its' = (length its - 1)%nat /\
    forall c, c <> i -> (c < length its')%nat -> its' !! c = its !! c.
Proof.
  intros Hi. apply lookup_lt_Some in Hi as L. unfold overwrite_with_last. destruct (last its) as [l|] eqn:El; [|by apply last_None in El as ->].
  rewrite (proj2 (Nat.ltb_lt _ _) L). apply last_Some in El as [pre ->]. rewrite length_app in *. cbn [length] in *. replace (length pre + 1 - 1)%nat with (length pre) by lia.
  eexists. split; [done|]. destruct (decide (i < length pre)%nat) as [Hlt|Hge].
  - rewrite insert_app_l, take_app_length' by (rewrite ?length_insert; done). rewrite lookup_app_l in Hi by done. split_and!.
    + rewrite Permutation_app_comm. cbn [app]. destruct (list_elem_of_split_length pre i item Hi) as (p1 & p2 & -> & ->). rewrite insert_app_r_alt, Nat.sub_diag by lia.
      change (<[0%nat := l]> (item :: p2)) with (l :: p2). rewrite <- !Permutation_middle. apply Permutation_swap.
    + by rewrite length_insert.
    + intros c Hc Lc. rewrite length_insert in Lc. by rewrite list_lookup_insert_ne, lookup_app_l.
  - assert (i = length pre) as -> by lia. rewrite lookup_app_r, Nat.sub_diag in Hi by lia. injection Hi as <-.
    rewrite insert_app_r_alt, Nat.sub_diag, take_app_length' by done. split_and!; [by rewrite Permutation_app_comm|done|].
    intros c _ Lc. by rewrite lookup_app_l.
Qed.

Lemma Pop_correct q : queue_ok q -> items q <> [] ->
  exists out q', Pop q = Ok (out, q') /\ less q' = less q /\ items q ≡ₚ out :: items q' /\ queue_ok q' /\ Forall (no_less (less q) out) (items q).
Proof.
  intros [Ho Hh] Hne. destruct (items q) as [|out rest] eqn:Eq; [done|]. unfold Pop, Top. rewrite Eq. cbn [obind].
  destruct (overwrite_spec (out :: rest) 0 out eq_refl) as (its & -> & Hperm & Hlen & Hl). cbn [obind].
  destruct (heapify_correct (less q) (S (length its)) its 0) as (its' & -> & Hperm' & Hheap); [lia|lia|].
  exists out, (with_items q its'). cbn [obind]. split_and!; [done|done| | |].
  - cbn [items with_items]. by rewrite Hperm, Hperm'.
  - split; [done|]. apply Hheap. split; [|intros; lia]. intros c Hp a b Hc0 Ha Hb. apply lookup_lt_Some in Hb as L. pose proof (parent_lt c Hc0). rewrite Hl in Ha, Hb by lia. by apply (Hh c).
  - apply Forall_forall. intros x Hx. apply list_elem_of_lookup in Hx as [i Hx]. by apply (heap_root_least (less q) (out :: rest) out Hh eq_refl i).
Qed.

Lemma Pop_empty q : items q = [] -> Pop q = Panic.
Proof. intros E. unfold Pop, Top. by rewrite E. Qed.

Lemma pop_to_correct fuel : forall q limit, queue_ok q -> 0 <= limit -> (length (items q) < fuel)%nat ->
  exists q' dropped, pop_to fuel q limit = Ok q' /\ less q' = less q /\ queue_ok q' /\ items q ≡ₚ dropped ++ items q' /\ Len q' = Z.min (Len q) limit /\
    forall d x, d ∈ dropped -> x ∈ items q' -> no_less (less q) d x.
Proof.
  induction fuel as [|fuel IH]; intros q limit Hq Hl Hf; [lia|]. cbn [pop_to]. destruct (Z.ltb_spec limit (Len q)) as [Hlt|Hge].
  - assert (Hne : items q <> []) by (intros E; unfold Len in Hlt; rewrite E in Hlt; cbn in Hlt; lia).
    destruct (Pop_correct q Hq Hne) as (out & q1 & -> & Hless & Hperm & Hq1 & Hmin). cbn [obind]. apply Permutation_length in Hperm as Hlen. cbn [length] in Hlen.
    destruct (IH q1 limit Hq1 Hl ltac:(lia)) as (q' & dropped & -> & Hless' & Hq' & Hperm' & Hn & Hd). exists q', (out :: dropped).
    split_and!; [done|congruence|done| | |].
    + cbn [app]. by rewrite <- Hperm'.
    + rewrite Hn. unfold Len in *. lia.
    + rewrite <- Hless. intros d x [->|Hdd]%elem_of_cons Hx; [|by apply Hd]. rewrite Hless. apply (proj1 (Forall_forall _ _) Hmin). rewrite Hperm, Hperm'. set_solver.
  - exists q, []. split_and!; [done|done|done|done|lia|]. intros d x Hd. by apply not_elem_of_nil in Hd.
Qed.

Lemma Top_correct q : queue_ok q -> items q <> [] -> exists top, Top q = Ok top /\ top ∈ items q /\ Forall (no_less (less q) top) (items q).
Proof.
  intros [Ho Hh] Hne. unfold Top. destruct (items q) as [|top rest] eqn:E; [done|]. exists top. split_and!; [done|set_solver|].
  apply Forall_forall. intros x Hx. apply list_elem_of_lookup in Hx as [i Hx]. by apply (heap_root_least (less q) (top :: rest) top Hh eq_refl i).
Qed.

(** A full queue drops its least item, which is the new worst distance. *)
Lemma InsertAndPop_correct q id score limit worst v : queue_ok q -> 1 <= limit ->
  exists q' worst' dropped, InsertAndPop q id score limit worst v = Ok (q', worst') /\ less q' = less q /\ queue_ok q' /\
    MkItem id score false v :: items q ≡ₚ dropped ++ items q' /\ Len q' = Z.min (Len q + 1) limit /\
    (forall d x, d ∈ dropped -> x ∈ items q' -> no_less (less q) d x) /\
    if limit <=? Len q' then exists top, top ∈ items q' /\ Forall (no_less (less q) top) (items q') /\ worst' = Dist top else worst' = worst.
Proof.
  intros Hq Hl. unfold InsertAndPop, InsertWithValue. destruct (insert_correct q (MkItem id score false v) Hq) as (q1 & i & -> & Hless1 & Hperm1 & Hq1 & _). cbn [obind].
  destruct (pop_to_correct (S (length (items q1))) q1 limit Hq1 ltac:(lia) ltac:(lia)) as (q2 & dropped & -> & Hless2 & Hq2 & Hperm2 & Hn & Hd). cbn [obind].
  assert (Hlen : Len q1 = Len q + 1) by (unfold Len; apply Permutation_length in Hperm1; cbn [length] in Hperm1; lia).
  rewrite Hless1 in Hd. destruct (Z.leb_spec limit (Len q2)) as [Hfull|Hnot].
  - destruct (Top_correct q2 Hq2) as (top & -> & Hin & Hmin); [intros E; unfold Len in Hfull; rewrite E in Hfull; cbn in Hfull; lia|]. cbn [obind].
    exists q2, (Dist top), dropped. split_and!; [done|congruence|done|by rewrite <- Hperm1|by rewrite Hn, Hlen|done|]. rewrite (proj2 (Z.leb_le _ _)) by done.
    exists top. rewrite Hless2, Hless1 in Hmin. done.
  - exists q2, worst, dropped. split_and!; [done|congruence|done|by rewrite <- Hperm1|by rewrite Hn, Hlen|done|]. by rewrite (proj2 (Z.leb_gt _ _)).
Qed.

(** [for q.Len() > 0 { append(q.Pop()) }] *)
Fixpoint drain (fuel : nat) q : run (list (Item D T)) :=
  match fuel with
  | O => OutOfFuel
  | S fuel => if 0 <? Len q then let! (out, q) := Pop q in let! rest := drain fuel q in Ok (out :: rest) else Ok []
  end.

Lemma drain_correct fuel : forall q, queue_ok q -> (length (items q) < fuel)%nat ->
  exists out, drain fuel q = Ok out /\ out ≡ₚ items q /\ StronglySorted (no_less (less q)) out.
Proof.
  induction fuel as [|fuel IH]; intros q Hq Hf; [lia|]. cbn [drain]. unfold Len. destruct (items q) as [|x rest] eqn:E.
  - exists []. split_and!; [done|done|constructor].
  - assert (Hne : items q <> []) by by rewrite E. rewrite <- E in *. rewrite (proj2 (Z.ltb_lt _ _)) by (rewrite E; cbn [length]; lia).
    destruct (Pop_correct q Hq Hne) as (out & q1 & -> & Hless & Hperm & Hq1 & Hmin). cbn [obind]. apply Permutation_length in Hperm as Hlen. cbn [length] in Hlen.
    destruct (IH q1 Hq1 ltac:(lia)) as (outs & -> & Hperm' & Hs). cbn [obind]. exists (out :: outs). split_and!; [done|by rewrite Hperm', Hperm|].
    constructor; [by rewrite <- Hless|]. rewrite Hperm' . apply Forall_forall. intros y Hy. apply (proj1 (Forall_forall _ _) Hmin). rewrite Hperm. set_solver.
Qed.
End operations.

(** * The three orders *)

Section orders.
Context {D T : Type} `{DistanceLaws D}.

#[export] Instance less_min : StrictWeak (less (NewMin : Queue D T)).
Proof. split; cbn; [intros a b; apply flt_asym|intros a b c; apply flt_cotrans]. Qed.

#[export] Instance less_max : StrictWeak (less (NewMax : Queue D T)).
Proof. split; cbn; [intros a b; apply flt_asym|]. intros a b c E. destruct (flt_cotrans (Dist c) (Dist b) (Dist a) E); auto. Qed.

(** With ids: smaller first, and of equal distances the larger id *)
Lemma less_min_id_spec (a b : Item D T) :
  less NewMinWithId a b = true <-> flt (Dist a) (Dist b) = true \/ (flt (Dist a) (Dist b) = false /\ flt (Dist b) (Dist a) = false /\ ID b < ID a).
Proof.
  cbn. rewrite feq_flt. destruct (flt (Dist a) (Dist b)) eqn:E1; cbn.
  - split; [by left|done].
  - destruct (flt (Dist b) (Dist a)) eqn:E2; cbn; [split; [done|intros [|(_ & ? & _)]; done]|]. rewrite Z.ltb_lt. naive_solver.
Qed.

#[export] Instance less_min_id : StrictWeak (less (NewMinWithId : Queue D T)).
Proof.
  split.
  - intros a b. rewrite <- not_true_iff_false, !less_min_id_spec. intros [E|(E1 & E2 & E3)] [F|(F1 & F2 & F3)]; try congruence; [|lia]. by rewrite (flt_asym _ _ E) in F.
  - intros a b c. rewrite !less_min_id_spec. intros [E|(E1 & E2 & E3)].
    + destruct (flt_cotrans _ (Dist b) _ E) as [F|F]; [by left; left|by right; left].
    + destruct (flt (Dist a) (Dist b)) eqn:Fab; [by left; left|]. destruct (flt (Dist b) (Dist c)) eqn:Fbc; [by right; left|].
      destruct (flt (Dist b) (Dist a)) eqn:Fba.
      { destruct (flt_cotrans _ (Dist c) _ Fba); congruence. }
      destruct (flt (Dist c) (Dist b)) eqn:Fcb.
      { destruct (flt_cotrans _ (Dist a) _ Fcb); congruence. }
      destruct (Z.lt_ge_cases (ID b) (ID a)); [left; right; done|right; right]. split_and!; [done|done|lia].
Qed.

Lemma new_queue_ok (q : Queue D T) : q = NewMin \/ q = NewMinWithId \/ q = NewMax -> queue_ok q.
Proof. intros [->|[->| ->]]; (split; [apply _|intros c a b _ _ Hb; done]). Qed.
End orders.

(** * Claims *)

(** What a client that inserts, pops and resets has put in and not got out yet *)
Inductive queue_reaches {D T} `{Distance D} : Queue D T -> list (Item D T) -> Prop :=
| qr_new q : q = NewMin \/ q = NewMinWithId \/ q = NewMax -> queue_reaches q []
| qr_insert q bag item q' i : queue_reaches q bag -> insert_item q item = Ok (q', i) -> queue_reaches q' (item :: bag)
| qr_pop q bag out bag' q' : queue_reaches q bag -> Pop q = Ok (out, q') -> bag ≡ₚ out :: bag' -> queue_reaches q' bag'
| qr_insert_pop q bag id score limit worst v q' worst' bag' : queue_reaches q bag -> 1 <= limit ->
    InsertAndPop q id score limit worst v = Ok (q', worst') -> bag' ≡ₚ items q' -> queue_reaches q' bag'
| qr_reset q bag : queue_reaches q bag -> queue_reaches (Reset q) [].

Lemma queue_reaches_ok {D T} `{DistanceLaws D} (q : Queue D T) bag : queue_reaches q bag -> queue_ok q /\ items q ≡ₚ bag.
Proof.
  induction 1 as [q Hq|q bag item q' i _ [IH Hb] E|q bag out bag' q' _ [IH Hb] E Hp|q bag id score limit worst v q' worst' bag' _ [IH Hb] Hl E Hb'|q bag _ [IH Hb]].
  - split; [by apply new_queue_ok|]. by destruct Hq as [->|[->| ->]].
  - destruct (insert_correct q item IH) as (q1 & j & E1 & _ & Hperm & Hq1 & _). rewrite E in E1. injection E1 as <- <-. split; [done|]. by rewrite Hperm, Hb.
  - destruct (items q) as [|x rest] eqn:Ei; [by rewrite Pop_empty in E|]. destruct (Pop_correct q IH ltac:(by rewrite Ei)) as (o & q1 & E1 & _ & Hperm & Hq1 & _).
    rewrite E in E1. injection E1 as <- <-. split; [done|]. apply (Permutation_cons_inv (a := out)). by rewrite <- Hp, <- Hb, <- Hperm, Ei.
  - destruct (InsertAndPop_correct q id score limit worst v IH Hl) as (q1 & w1 & dropped & E1 & _ & Hq1 & _). rewrite E in E1. injection E1 as <- <-. by split.
  - split; [|done]. destruct IH as [Ho Hh]. split; [exact Ho|]. intros c a b _ _ Hb0. done.
Qed.

(** C23: a queue gives its items back in order: after any sequence of inserts, pops and resets, popping until it is empty
    returns exactly the items that are in it, sorted by its order; and [InsertAndPop] with a limit keeps the best items, up to that many, and drops
    only items that do not come after any it keeps. *)
Theorem queue_orders {D T} `{DistanceLaws D} (q : Queue D T) bag :
  queue_reaches q bag ->
  (exists out, drain (S (length bag)) q = Ok out /\ out ≡ₚ bag /\ StronglySorted (no_less (less q)) out) /\
  (forall id score limit worst v, 1 <= limit ->
    exists q' worst' dropped, InsertAndPop q id score limit worst v = Ok (q', worst') /\ MkItem id score false v :: bag ≡ₚ dropped ++ items q' /\
      Len q' = Z.min (Z.of_nat (length bag) + 1) limit /\ forall d x, d ∈ dropped -> x ∈ items q' -> no_less (less q) d x).
Proof.
  intros Hr. destruct (queue_reaches_ok q bag Hr) as [Hq Hb]. apply Permutation_length in Hb as Hlen. split.
  - destruct (drain_correct (S (length bag)) q Hq ltac:(lia)) as (out & E & Hp & Hs). exists out. split_and!; [done|by rewrite <- Hb|done].
  - intros id score limit worst v Hl. destruct (InsertAndPop_correct q id score limit worst v Hq Hl) as (q' & worst' & dropped & E & _ & _ & Hp & Hn & Hd & _).
    exists q', worst', dropped. split_and!; [done|by rewrite <- Hb| |done]. rewrite Hn. unfold Len. by rewrite Hlen.
Qed.

#[export] Instance Z_distance : Distance Z := {| flt := Z.ltb; feq := Z.eqb |}.
#[export] Instance Z_distance_laws : DistanceLaws Z.
Proof.
  split; cbn.
  - intros a b. rewrite Z.ltb_lt, Z.ltb_ge. lia.
  - intros a b c. rewrite !Z.ltb_lt. lia.
  - intros a b. destruct (Z.eqb_spec a b), (Z.ltb_spec a b), (Z.ltb_spec b a); cbn; lia || done.
Qed.

(** Items inserted one after the other *)
Fixpoint insert_all (q : Queue Z unit) (l : list Z) : run (Queue Z unit) :=
  match l with [] => Ok q | x :: l => let! (q, _) := Insert tt q x x in insert_all q l end.

Lemma insert_all_reaches q l : forall bag q', queue_reaches q bag -> insert_all q l = Ok q' -> queue_reaches q' (rev (map (fun x => MkItem x x false tt) l) ++ bag).
Proof.
  revert q. induction l as [|x l IH]; intros q bag q' Hr E; cbn [insert_all] in E; [injection E as <-; exact Hr|]. apply obind_Ok_inv in E as ([q1 i] & E1 & E).
  cbn [map rev]. rewrite <- app_assoc. cbn [app]. apply (IH q1); [|done]. by apply (qr_insert q bag _ q1 i).
Qed.

Definition queue_of (l : list Z) : Queue Z unit := match insert_all NewMin l with Ok q => q | _ => NewMin end.

Lemma queue_orders_witness :
  exists out, drain 5 (queue_of [3; 1; 2; 1]) = Ok out /\ map ID out = [1; 1; 2; 3].
Proof.
  destruct (queue_orders (queue_of [3; 1; 2; 1]) (rev (map (fun x => MkItem x x false tt) [3; 1; 2; 1]) ++ [])) as [(out & E & _) _].
  - apply (insert_all_reaches NewMin); [apply qr_new; left; reflexivity|vm_compute; reflexivity].
  - exists out. split; [exact E|]. revert E. vm_compute. intros E. injection E as <-. reflexivity.
Defined.

(** What [DeleteItem] removes *)
Lemma DeleteItem_correct {D T} `{Distance D} (q : Queue D T) matches : queue_ok q ->
  exists q', DeleteItem q matches = Ok (q', existsb matches (items q)) /\ less q' = less q /\
    if existsb matches (items q) then exists x, matches x = true /\ items q ≡ₚ x :: items q' else q' = q.
Proof.
  intros Hq. unfold DeleteItem. destruct (list_find _ (items q)) as [[i x]|] eqn:E.
  - apply list_find_Some in E as (Hi & Hx & _). assert (existsb matches (items q) = true) as ->.
    { apply existsb_exists. exists x. split; [|done]. apply list_elem_of_In. by eapply list_elem_of_lookup_2. }
    destruct i as [|i].
    + destruct (Pop_correct q Hq) as (out & q' & E & Hless & Hperm & _); [intros E; by rewrite E in Hi|]. rewrite E. cbn [obind]. exists q'. split_and!; [done|done|].
      unfold Pop, Top in E. destruct (items q) as [|y rest]; [done|]. injection Hi as ->. cbn [obind] in E. repeat (apply obind_Ok_inv in E as (? & _ & E)). injection E as <- _. by exists x.
    + destruct (overwrite_spec (items q) (S i) x Hi) as (its & -> & Hperm & Hlen & _). cbn [obind]. pose proof (qo_order q Hq).
      destruct (heapify_correct (less q) (S (length its)) its 0) as (its' & -> & Hperm' & _); [lia|lia|]. cbn [obind]. eexists. split_and!; [done|done|].
      exists x. split; [done|]. cbn [items with_items]. by rewrite Hperm'.
  - apply list_find_None in E. exists q. assert (existsb matches (items q) = false) as ->; [|done]. apply not_true_iff_false. intros (x & Hx & Hm)%existsb_exists.
    apply list_elem_of_In in Hx. by apply (proj1 (Forall_forall _ _) E x Hx).
Qed.

(** [DeleteItem] loses the order of the queue: of the queue of the distances 0, 1, 5, 2, 3, 6, 7 inserted in that order
    it removes the item 1 and no other, and popping the rest gives 5 before 3 and 2. *)
Lemma delete_item_breaks_order :
  exists bag q', queue_reaches (queue_of [0; 1; 5; 2; 3; 6; 7]) bag /\ map ID bag ≡ₚ [0; 1; 2; 3; 5; 6; 7] /\
    DeleteItem (queue_of [0; 1; 5; 2; 3; 6; 7]) (fun item => ID item =? 1) = Ok (q', true) /\
    (map ID <$> match drain 7 q' with Ok out => Some out | _ => None end) = Some [0; 5; 3; 2; 6; 7].
Proof.
  exists (rev (map (fun x => MkItem x x false tt) [0; 1; 5; 2; 3; 6; 7]) ++ []). eexists. split_and!.
  - apply (insert_all_reaches NewMin); [apply qr_new; by left|by vm_compute].
  - apply (bool_decide_unpack _). by vm_compute.
  - vm_compute. reflexivity.
  - by vm_compute.
Qed.
