(* ===== verification/Bm25Terms.v ===== *)
(** * The terms of a keyword search

    [adapters/repos/db/inverted/terms/terms.go]: the documents a word occurs in, merged from the segments of a bucket, and the
    list of the words of a query with their positions.  Go's floats are the rational numbers [Qc], so that sums and quotients are
    exact and there is no NaN; [sort.Sort] is any function that sorts. *)

From Stdlib Require Import QArith Qcanon.
From stdpp Require Import strings numbers sorting.
From S2P Require Import Prelude PriorityQueue.

#[local] Open Scope Z_scope.

Notation max_u64 := u64_max (only parsing).

#[export] Instance Qc_distance : Distance Qc := {| flt a b := bool_decide (a < b)%Qc; feq a b := bool_decide (a = b) |}.

#[export] Instance Qc_distance_laws : DistanceLaws Qc.
Proof.
  split; cbn.
  - intros a b. rewrite bool_decide_eq_true, bool_decide_eq_false. intros Hab Hba. exact (irreflexivity Qclt a (Qclt_trans _ _ _ Hab Hba)).
  - intros a b c. rewrite !bool_decide_eq_true. intros Hac. destruct (decide (a < b)%Qc) as [Hab|Hab]; [by left|right]. apply Qcle_ngt in Hab. by eapply Qcle_lt_trans.
  - intros a b. destruct (decide (a = b)) as [->|Hne].
    + rewrite (bool_decide_true (b = b)) by done. rewrite bool_decide_false by apply irreflexivity, _. done.
    + rewrite (bool_decide_false (a = b)) by done. destruct (Qc_le_total a b) as [Hl|Hl]; apply Qcle_lt_or_eq in Hl as [Hl| ->]; try done.
      * by rewrite (bool_decide_true _ Hl).
      * rewrite (bool_decide_true _ Hl). by destruct (bool_decide (a < b)%Qc).
Qed.

(** ** Documents of a word *)

Record DocPointerWithScore : Type := MkDoc { Id : Z; Frequency : Qc; PropLength : Qc }.

Inductive terms_error : Type := ErrShortInput | ErrKeyLength | ErrCancelled | ErrObjects | ErrPostings | ErrInternal.
Notation run_t A := (outcome terms_error A) (only parsing).

Section bytes.
Context (Float32frombits : Z -> Qc).

Definition FromKeyVal (d : DocPointerWithScore) (key value : list Z) (isTombstone : bool) (boost : Qc) : run_t DocPointerWithScore :=
  if negb (length key =? 8)%nat then Err ErrKeyLength
  else
    let id := be_combine key in
    if isTombstone || (length value <? 8)%nat then Ok (MkDoc id (Frequency d) (PropLength d))
    else Ok (MkDoc id (Float32frombits (le_combine (take 4 value)) * boost)%Qc (Float32frombits (le_combine (take 4 (drop 4 value))))).

Definition FromBytes (d : DocPointerWithScore) (input : list Z) (isTombstone : bool) (boost : Qc) : run_t DocPointerWithScore :=
  if (length input <? 12)%nat then Err ErrShortInput else FromKeyVal d (take 8 (drop 2 input)) (drop 12 input) isTombstone boost.
End bytes.

(** ** Merging segments *)

Record merger : Type := Merger { m_input : list (list DocPointerWithScore); m_offsets : list nat }.

Definition merger_init (segments : list (list DocPointerWithScore)) : merger := Merger segments (replicate (length segments) 0%nat).

Definition offset_of (offsets : list nat) (segmentID : nat) : nat := default 0%nat (offsets !! segmentID).

(** The loop over the segments; the best segment and its key, and the offsets, in which superseded versions are skipped *)
Fixpoint scan_segments (rest : list (list DocPointerWithScore)) (segmentID : nat) (offsets : list nat) (best : option (nat * Z)) : list nat * option (nat * Z) :=
  match rest with
  | [] => (offsets, best)
  | data :: rest =>
      match data !! offset_of offsets segmentID with
      | None => scan_segments rest (S segmentID) offsets best
      | Some d =>
          match best with
          | None => scan_segments rest (S segmentID) offsets (Some (segmentID, Id d))
          | Some (bestSeg, bestKey) =>
              if bestKey <? Id d then scan_segments rest (S segmentID) offsets best
              else if Id d <? bestKey then scan_segments rest (S segmentID) offsets (Some (segmentID, Id d))
              else scan_segments rest (S segmentID) (alter S bestSeg offsets) (Some (segmentID, Id d))
          end
      end
  end.

Definition findSegmentWithLowestKey (s : merger) : run_t (merger * option DocPointerWithScore) :=
  match scan_segments (m_input s) 0 (m_offsets s) None with
  | (offsets, None) => Ok (Merger (m_input s) offsets, None)
  | (offsets, Some (bestSeg, _)) =>
      match m_input s !! bestSeg ≫= (fun data => data !! offset_of offsets bestSeg) with
      | None => Panic
      | Some d => Ok (Merger (m_input s) (alter S bestSeg offsets), Some d)
      end
  end.

(** [cancelled i]: whether the context is done when [i] documents have been found *)
Fixpoint merge_loop (cancelled : nat -> bool) (fuel : nat) (s : merger) (output : list DocPointerWithScore) : run_t (list DocPointerWithScore) :=
  match fuel with
  | O => OutOfFuel
  | S fuel =>
      let! (s, m) := findSegmentWithLowestKey s in
      match m with
      | None => Ok output
      | Some d =>
          if bool_decide (Frequency d = 0%Qc) then merge_loop cancelled fuel s output
          else
            let output := output ++ [d] in
            if (length output mod 100 =? 0)%nat && cancelled (length output) then Err ErrCancelled else merge_loop cancelled fuel s output
      end
  end.

Definition merger_Do (cancelled : nat -> bool) (segments : list (list DocPointerWithScore)) : run_t (list DocPointerWithScore) :=
  merge_loop cancelled (S (sum_list (length <$> segments))) (merger_init segments) [].

(** ** One word *)

Record BM25Config : Type := MkBM25 { K1 : Qc; B : Qc }.

Record Term : Type := MkTerm {
  idf : Qc; idPointer : Z; posPointer : Z; Data : list DocPointerWithScore; exhausted : bool;
  queryTerm : string; queryTermIndex : nat; propertyBoost : Qc; config : BM25Config
}.

Definition NewTerm (queryTerm : string) (queryTermIndex : nat) (propertyBoost : Qc) (config : BM25Config) : Term :=
  MkTerm 0 0 0 [] false queryTerm queryTermIndex propertyBoost config.

Definition at_position (t : Term) (idPointer posPointer : Z) (exhausted : bool) : Term :=
  MkTerm (idf t) idPointer posPointer (Data t) exhausted (queryTerm t) (queryTermIndex t) (propertyBoost t) (config t).

Definition term_Count (t : Term) : Z := Z.of_nat (length (Data t)).

(** The document at a position, [None] past the end *)
Definition doc_at (t : Term) (pos : Z) : option DocPointerWithScore := if pos <? 0 then None else Data t !! Z.to_nat pos.

(** How much an occurrence counts *)
Definition tf (c : BM25Config) (averagePropLength : Qc) (p : DocPointerWithScore) : Qc :=
  (Frequency p / (Frequency p + K1 c * (1 - B c + B c * PropLength p / averagePropLength)))%Qc.

Definition Score (t : Term) (averagePropLength : Qc) (additionalExplanations : bool) : run_t (Z * Qc * option DocPointerWithScore) :=
  match doc_at t (posPointer t) with
  | None => Panic
  | Some p =>
      Ok (idPointer t, (tf (config t) averagePropLength p * idf t * propertyBoost t)%Qc, if additionalExplanations then Some p else None)
  end.

Definition Advance (t : Term) : Term :=
  let pos := u64 (posPointer t + 1) in
  match doc_at t pos with None => at_position t max_u64 pos true | Some d => at_position t (Id d) pos (exhausted t) end.

(** One turn per document left *)
Fixpoint advance_loop (fuel : nat) (t : Term) (minID : Z) : run_t Term :=
  match fuel with
  | O => OutOfFuel
  | S fuel =>
      if idPointer t <? minID then
        let pos := u64 (posPointer t + 1) in
        match doc_at t pos with
        | None => Ok (at_position t max_u64 pos true)
        | Some d => advance_loop fuel (at_position t (Id d) pos (exhausted t)) minID
        end
      else Ok t
  end.

Definition AdvanceAtLeast (t : Term) (minID : Z) : run_t Term := advance_loop (S (S (length (Data t)))) t minID.

Definition AdvanceAtLeastShallow (t : Term) (minID : Z) : run_t Term :=
  let! t := AdvanceAtLeast t minID in
  let pos := u64 (posPointer t - 1) in
  match doc_at t pos with None => Panic | Some d => Ok (at_position t (Id d) pos false) end.

Definition CurrentBlockImpact (t : Term) : Qc := (idf t * propertyBoost t)%Qc.

(** ** The words of a query *)

Record Terms : Type := MkTerms { terms_T : list Term; terms_Count : nat }.

Definition CompletelyExhausted (t : Terms) : bool := forallb exhausted (terms_T t).

(** The loop of [FindMinIDWand] *)
Fixpoint find_min_wand (l : list Term) (i : nat) (cumScore minScore : Qc) : option (Z * nat) :=
  match l with
  | [] => None
  | term :: l =>
      if exhausted term then find_min_wand l (S i) cumScore minScore
      else
        let cumScore := (cumScore + CurrentBlockImpact term)%Qc in
        if bool_decide (minScore ≤ cumScore)%Qc then Some (idPointer term, i) else find_min_wand l (S i) cumScore minScore
  end.

(** [None]: abort *)
Definition FindMinIDWand (t : Terms) (minScore : Qc) : option (Z * nat) := find_min_wand (terms_T t) 0 0 minScore.

Fixpoint advance_all (l : list Term) (minID : Z) : run_t (list Term) :=
  match l with [] => Ok [] | t :: l => let! t := AdvanceAtLeast t minID in let! l := advance_all l minID in Ok (t :: l) end.

Definition AdvanceAllAtLeast (t : Terms) (minID : Z) (pivot : Z) : run_t Terms :=
  if (pivot <? 0) || (Z.of_nat (length (terms_T t)) <? pivot) then Panic
  else
    let! first := advance_all (take (Z.to_nat pivot) (terms_T t)) minID in
    Ok (MkTerms (first ++ drop (Z.to_nat pivot) (terms_T t)) (terms_Count t)).

(** The loop of [SortFirst]: the least id and its index *)
Fixpoint min_index (l : list Term) (i : nat) (best : option (Z * nat)) : option (Z * nat) :=
  match l with
  | [] => best
  | t :: l =>
      min_index l (S i) (match best with
        | None => Some (idPointer t, i)
        | Some (m, _) => if (idPointer t <? m) && negb (exhausted t) then Some (idPointer t, i) else best
        end)
  end.

Definition SortFirst (t : Terms) : Terms :=
  match min_index (terms_T t) 0 None with
  | Some (_, S k) =>
      match terms_T t !! 0%nat, terms_T t !! S k with
      | Some a, Some b => MkTerms (<[S k := a]> (<[0%nat := b]> (terms_T t))) (terms_Count t)
      | _, _ => t
      end
  | _ => t
  end.

(** Whether to stop *)
Definition Pivot (t : Terms) (minScore : Qc) : run_t (Terms * bool) :=
  match FindMinIDWand t minScore with
  | None => Ok (t, true)
  | Some (minID, pivotPoint) =>
      if (pivotPoint =? 0)%nat then Ok (t, false)
      else
        let! t := AdvanceAllAtLeast t minID (Z.of_nat (length (terms_T t)) - 1) in
        Ok (SortFirst t, false)
  end.

Fixpoint first_non_exhausted (l : list Term) (i : nat) : option nat :=
  match l with [] => None | t :: l => if exhausted t then first_non_exhausted l (S i) else Some i end.
Definition FindFirstNonExhausted (t : Terms) : option nat := first_non_exhausted (terms_T t) 0.

(** What the scoring of a document adds up *)
Record scoring : Type := Scoring { s_score : Qc; s_matched : Z; s_docs : list (option DocPointerWithScore) }.

Section score.
Context (averagePropLength : Qc) (additionalExplanations : bool).

(** The terms at a document are scored and advanced. *)
Fixpoint score_terms (l : list Term) (id : Z) (s : scoring) : run_t (list Term * scoring) :=
  match l with
  | [] => Ok ([], s)
  | t :: l =>
      if negb (idPointer t =? id) || exhausted t then let! (l, s) := score_terms l id s in Ok (t :: l, s)
      else
        let! (_, score, docInfo) := Score t averagePropLength additionalExplanations in
        let! docs :=
          if additionalExplanations
          then if (queryTermIndex t <? length (s_docs s))%nat then Ok (<[queryTermIndex t := docInfo]> (s_docs s)) else Panic
          else Ok (s_docs s) in
        let! (l, s) := score_terms l id (Scoring (s_score s + score)%Qc (s_matched s + 1) docs) in
        Ok (Advance t :: l, s)
  end.

(** The terms, the document with its score and explanations, and whether it counts *)
Definition ScoreNext (t : Terms) (minimumOrTokensMatch : Z) : run_t (Terms * (Z * Qc * list (option DocPointerWithScore) * bool)) :=
  match FindFirstNonExhausted t with
  | None => Ok (t, (0, 0%Qc, [], false))
  | Some pos =>
      match terms_T t !! pos with
      | None => Panic
      | Some first =>
          let id := idPointer first in
          let docInfos := if additionalExplanations then replicate (terms_Count t) None else [] in
          let! (rest, s) := score_terms (drop pos (terms_T t)) id (Scoring 0 0 docInfos) in
          let t := MkTerms (take pos (terms_T t) ++ rest) (terms_Count t) in
          if s_matched s <? minimumOrTokensMatch then Ok (t, (0, 0%Qc, s_docs s, false)) else Ok (t, (id, s_score s, s_docs s, true))
      end
  end.
End score.

Definition SortFull (sort : list Term -> list Term) (t : Terms) : Terms := MkTerms (sort (terms_T t)) (terms_Count t).

(** * Positions of a term *)

(** The documents are sorted, their ids are not the largest number, and the pointers are those of one position. *)
Record term_ok (t : Term) : Prop := {
  to_sorted : StronglySorted Z.lt (map Id (Data t));
  to_ids : Forall (fun d => 0 <= Id d < max_u64) (Data t);
  to_length : Z.of_nat (length (Data t)) < 2 ^ 63;
  to_pos : 0 <= posPointer t <= Z.of_nat (length (Data t));
  to_at : match doc_at t (posPointer t) with Some d => idPointer t = Id d /\ exhausted t = false | None => idPointer t = max_u64 /\ exhausted t = true end
}.

(** What a term keeps when it is advanced *)
Definition core (t : Term) : Term := at_position t 0 0 false.

(** Every document below [f] is behind the position and the others are not. *)
Record frontier (f : Z) (t : Term) : Prop := {
  fr_behind i d : doc_at t i = Some d -> i < posPointer t -> Id d < f;
  fr_pointer : f <= idPointer t
}.

Lemma StronglySorted_at {A} (R : A -> A -> Prop) l : StronglySorted R l -> forall i j a b, l !! i = Some a -> l !! j = Some b -> (i < j)%nat -> R a b.
Proof.
  induction 1 as [|x l _ IH Hx]; intros i j a b Hi Hj Hij; [done|]. destruct i as [|i], j as [|j]; try lia; cbn in Hi, Hj.
  - injection Hi as <-. by apply (Forall_lookup_1 _ _ _ _ Hx Hj).
  - by apply (IH i j); [..|lia].
Qed.

Lemma doc_at_range t i d : doc_at t i = Some d -> 0 <= i < Z.of_nat (length (Data t)).
Proof. unfold doc_at. destruct (Z.ltb_spec i 0); [done|]. intros E%lookup_lt_Some. lia. Qed.

Lemma doc_at_None t i : 0 <= i -> doc_at t i = None -> Z.of_nat (length (Data t)) <= i.
Proof. unfold doc_at. destruct (Z.ltb_spec i 0); [lia|]. intros _ E%lookup_ge_None. lia. Qed.

Lemma doc_at_lt t i j d e : term_ok t -> doc_at t i = Some d -> doc_at t j = Some e -> i < j -> Id d < Id e.
Proof.
  intros Ht Hi Hj Hij. pose proof (doc_at_range t i d Hi). unfold doc_at in *. destruct (Z.ltb_spec i 0), (Z.ltb_spec j 0); try done.
  apply (StronglySorted_at Z.lt (Id <$> Data t) (to_sorted t Ht) (Z.to_nat i) (Z.to_nat j)); [by rewrite list_lookup_fmap, Hi|by rewrite list_lookup_fmap, Hj|lia].
Qed.

Lemma doc_at_id t i d : term_ok t -> doc_at t i = Some d -> 0 <= Id d < max_u64.
Proof. intros Ht Hi. unfold doc_at in Hi. destruct (Z.ltb_spec i 0); [done|]. exact (Forall_lookup_1 _ _ _ _ (to_ids t Ht) Hi). Qed.

Lemma not_exhausted t : term_ok t -> exhausted t = false -> exists d, doc_at t (posPointer t) = Some d /\ idPointer t = Id d.
Proof. intros Ht He. pose proof (to_at t Ht) as Ha. destruct (doc_at t (posPointer t)) as [d|]; destruct Ha; [by exists d|congruence]. Qed.

Lemma exhausted_pointer t : term_ok t -> exhausted t = false <-> idPointer t < max_u64.
Proof.
  intros Ht. pose proof (to_at t Ht) as Ha. destruct (doc_at t (posPointer t)) as [d|] eqn:E.
  - destruct Ha as [-> ->]. pose proof (doc_at_id t _ d Ht E). split; [lia|done].
  - destruct Ha as [-> ->]. split; [done|lia].
Qed.

Lemma pointer_max t : term_ok t -> 0 <= idPointer t <= max_u64.
Proof.
  intros Ht. pose proof (to_at t Ht) as Ha. destruct (doc_at t (posPointer t)) as [d|] eqn:E; destruct Ha as [-> _]; [|done].
  pose proof (doc_at_id t _ d Ht E). lia.
Qed.

(** One position on *)
Definition step (t : Term) : Term :=
  let pos := u64 (posPointer t + 1) in
  match doc_at t pos with None => at_position t max_u64 pos true | Some d => at_position t (Id d) pos (exhausted t) end.

Lemma step_core t : core (step t) = core t.
Proof. unfold step. by destruct (doc_at t _). Qed.

Lemma step_ok t : term_ok t -> exhausted t = false -> term_ok (step t) /\ frontier (idPointer t + 1) (step t) /\ posPointer (step t) = posPointer t + 1.
Proof.
  intros Ht He. destruct (not_exhausted t Ht He) as (d & Hd & Hid). pose proof (doc_at_range t _ d Hd) as Hr. pose proof (to_length t Ht) as Hlen.
  assert (Hu : u64 (posPointer t + 1) = posPointer t + 1) by (apply u64_small; unfold is_u64; lia).
  assert (Hpos : posPointer (step t) = posPointer t + 1) by (unfold step; cbv zeta; rewrite Hu; by destruct (doc_at t (posPointer t + 1))).
  assert (Hdoc : forall i, doc_at (step t) i = doc_at t i) by (intros i; unfold step; cbv zeta; by destruct (doc_at t (u64 (posPointer t + 1)))).
  assert (Hdata : Data (step t) = Data t) by (unfold step; cbv zeta; by destruct (doc_at t (u64 (posPointer t + 1)))).
  assert (Hat : match doc_at t (posPointer t + 1) with Some e => idPointer (step t) = Id e /\ exhausted (step t) = false | None => idPointer (step t) = max_u64 /\ exhausted (step t) = true end).
  { unfold step. cbv zeta. rewrite Hu. destruct (doc_at t (posPointer t + 1)); cbn; auto. }
  split_and!; [|split|done].
  - split; rewrite ?Hdata, ?Hpos; [apply Ht|apply Ht|done|lia|]. by rewrite Hdoc.
  - intros i e Hi Hlt. rewrite Hdoc in Hi. rewrite Hpos in Hlt. destruct (decide (i = posPointer t)) as [->|Hne]; [rewrite Hd in Hi; injection Hi as <-; lia|].
    pose proof (doc_at_lt t i (posPointer t) e d Ht Hi Hd ltac:(lia)). lia.
  - destruct (doc_at t (posPointer t + 1)) as [e|] eqn:E; destruct Hat as [-> _].
    + pose proof (doc_at_lt t (posPointer t) _ d e Ht Hd E ltac:(lia)). lia.
    + pose proof (doc_at_id t _ d Ht Hd). lia.
Qed.

Lemma Advance_step t : Advance t = step t.
Proof. done. Qed.

Lemma frontier_raise f g t : frontier f t -> f <= g -> g <= idPointer t -> frontier g t.
Proof. intros [H1 H2] Hfg Hg. split; [|done]. intros i d Hi Hlt. specialize (H1 i d Hi Hlt). lia. Qed.

Lemma advance_loop_correct minID f fuel : forall t, term_ok t -> frontier f t -> f <= minID <= max_u64 -> Z.of_nat (length (Data t)) - posPointer t < Z.of_nat fuel ->
  exists t', advance_loop fuel t minID = Ok t' /\ term_ok t' /\ core t' = core t /\ posPointer t <= posPointer t' /\ (idPointer t < minID -> frontier minID t') /\ (minID <= idPointer t -> t' = t).
Proof.
  revert f. induction fuel as [|fuel IH]; intros f t Ht Hf Hm Hfuel; [pose proof (to_pos t Ht); lia|]. cbn [advance_loop]. destruct (Z.ltb_spec (idPointer t) minID) as [Hlt|Hge].
  - assert (He : exhausted t = false) by (apply exhausted_pointer; [done|lia]). destruct (step_ok t Ht He) as (Hs & Hfs & Hps). pose proof (step_core t) as Hcore.
    unfold step in *. destruct (doc_at t (u64 (posPointer t + 1))) as [d|] eqn:Ed.
    + set (t1 := at_position t (Id d) (u64 (posPointer t + 1)) (exhausted t)) in *. assert (Hd1 : Data t1 = Data t) by done.
      destruct (IH (idPointer t + 1) t1 Hs Hfs ltac:(lia) ltac:(rewrite Hd1; lia)) as (t' & -> & Ht' & Hc' & Hp' & Hf1 & Hf2). exists t'. split_and!; [done|done|congruence|lia| |lia].
      intros _. destruct (Z.lt_ge_cases (idPointer t1) minID) as [H1|H1]; [by apply Hf1|]. rewrite (Hf2 H1). apply (frontier_raise (idPointer t + 1)); [done|lia|done].
    + eexists. split_and!; [done|done|done|lia| |lia]. intros _. apply (frontier_raise (idPointer t + 1)); [done|lia|cbn; lia].
  - exists t. split_and!; done || lia.
Qed.

Lemma AdvanceAtLeast_correct minID f t : term_ok t -> frontier f t -> f <= minID <= max_u64 ->
  exists t', AdvanceAtLeast t minID = Ok t' /\ term_ok t' /\ core t' = core t /\ posPointer t <= posPointer t' /\ frontier minID t' /\ (minID <= idPointer t -> t' = t).
Proof.
  intros Ht Hf Hm. pose proof (to_pos t Ht). destruct (advance_loop_correct minID f (S (S (length (Data t)))) t Ht Hf Hm ltac:(lia)) as (t' & E & H1 & H2 & H3 & H4 & H5).
  exists t'. split_and!; [done..| |done]. destruct (Z.lt_ge_cases (idPointer t) minID) as [Hlt|Hge]; [by apply H4|].
  rewrite (H5 Hge). apply (frontier_raise f); [done|lia|done].
Qed.

(** * Scores of documents *)

(** Where a document is in the list of a term *)
Definition posting (t : Term) (d : Z) : option DocPointerWithScore := snd <$> list_find (fun x => Id x = d) (Data t).

Definition term_score (avg : Qc) (t : Term) (d : Z) : Qc :=
  match posting t d with Some p => (tf (config t) avg p * idf t * propertyBoost t)%Qc | None => 0%Qc end.

Definition qsum (l : list Qc) : Qc := foldr Qcplus 0%Qc l.

(** The score of a document and how many of the terms it has, by looking at every list *)
Definition doc_score (avg : Qc) (T : list Term) (d : Z) : Qc := qsum (map (fun t => term_score avg t d) T).
Definition matched (T : list Term) (d : Z) : Z := Z.of_nat (length (filter (fun t => is_Some (posting t d)) T)).

(** Parameters for which a score is at most the weight of its term *)
Record term_valid (t : Term) : Prop := {
  tv_idf : (0 ≤ idf t)%Qc;
  tv_boost : (0 ≤ propertyBoost t)%Qc;
  tv_K1 : (0 ≤ K1 (config t))%Qc;
  tv_B : (0 ≤ B (config t) /\ B (config t) ≤ 1)%Qc;
  tv_docs : Forall (fun p => 0 < Frequency p /\ 0 ≤ PropLength p)%Qc (Data t)
}.

Lemma qsum_perm l1 l2 : l1 ≡ₚ l2 -> qsum l1 = qsum l2.
Proof. induction 1 as [|x l l' _ IH|x y l|l l' l'' _ IH1 _ IH2]; unfold qsum in *; cbn [foldr]; [done|by rewrite IH|ring|by rewrite IH1]. Qed.

Lemma qsum_le {A} (f g : A -> Qc) l : (forall x, x ∈ l -> (f x ≤ g x)%Qc) -> (qsum (map f l) ≤ qsum (map g l))%Qc.
Proof.
  unfold qsum. induction l as [|x l IH]; cbn [map foldr]; intros Hl; [apply Qcle_refl|]. apply Qcplus_le_compat; [apply Hl; set_solver|]. apply IH. intros y Hy. apply Hl. set_solver.
Qed.

Lemma qsum_app l1 l2 : qsum (l1 ++ l2) = (qsum l1 + qsum l2)%Qc.
Proof. unfold qsum. induction l1 as [|x l1 IH]; cbn [app foldr]; [by rewrite Qcplus_0_l|]. rewrite IH. ring. Qed.

Lemma doc_score_core avg T d : doc_score avg (map core T) d = doc_score avg T d.
Proof. unfold doc_score. by rewrite map_map. Qed.

Lemma matched_core T d : matched (map core T) d = matched T d.
Proof. unfold matched. induction T as [|t T IH]; [done|]. cbn [map]. rewrite !filter_cons. change (posting (core t) d) with (posting t d). destruct (decide _); cbn [length]; lia. Qed.

Lemma same_core_score avg T T' d : map core T' ≡ₚ map core T -> doc_score avg T' d = doc_score avg T d /\ matched T' d = matched T d.
Proof.
  intros Hp. rewrite <- (doc_score_core avg T), <- (doc_score_core avg T'), <- (matched_core T), <- (matched_core T'). split.
  - apply qsum_perm. by apply Permutation_map.
  - unfold matched. by rewrite Hp.
Qed.

Lemma tf_bounds c avg p : (0 ≤ K1 c)%Qc -> (0 ≤ B c /\ B c ≤ 1)%Qc -> (0 < Frequency p)%Qc -> (0 ≤ PropLength p)%Qc -> (0 < avg)%Qc ->
  (0 ≤ tf c avg p /\ tf c avg p ≤ 1)%Qc.
Proof.
  intros HK [HB0 HB1] Hf Hl Ha. unfold tf. set (x := (K1 c * (1 - B c + B c * PropLength p / avg))%Qc).
  assert (Hx : (0 ≤ x)%Qc).
  { apply Qcmult_nonneg_nonneg; [done|]. apply Qcplus_nonneg_nonneg.
    - apply (Qcplus_le_mono_r _ _ (B c)). by ring_simplify.
    - unfold Qcdiv. apply Qcmult_nonneg_nonneg; [by apply Qcmult_nonneg_nonneg|]. apply Qclt_le_weak, Qcinv_pos. done. }
  assert (Hd : (0 < Frequency p + x)%Qc) by by apply Qcplus_pos_nonneg.
  assert (Hi : (0 < / (Frequency p + x))%Qc) by (by apply Qcinv_pos). unfold Qcdiv. split.
  - apply Qcmult_nonneg_nonneg; by apply Qclt_le_weak.
  - apply (Qcmult_lt_0_le_reg_r _ _ (Frequency p + x)); [done|]. rewrite <- Qcmult_assoc, Qcmult_inv_l, Qcmult_1_r, Qcmult_1_l by (by apply not_eq_sym, Qclt_not_eq).
    rewrite <- (Qcplus_0_r (Frequency p)) at 1. by apply Qcplus_le_mono_l.
Qed.

Lemma posting_Some t d p : term_ok t -> posting t d = Some p <-> Id p = d /\ exists i, doc_at t i = Some p.
Proof.
  intros Ht. unfold posting. split.
  - intros ([i x] & (Hi & Hx & _)%list_find_Some & ->)%fmap_Some. split; [done|]. exists (Z.of_nat i). unfold doc_at. rewrite (proj2 (Z.ltb_ge _ _)) by lia. by rewrite Nat2Z.id.
  - intros [Hp [i Hi]]. pose proof (doc_at_range t i p Hi) as Hr. unfold doc_at in Hi. rewrite (proj2 (Z.ltb_ge _ _)) in Hi by lia.
    destruct (list_find (fun x => Id x = d) (Data t)) as [[j x]|] eqn:E.
    + apply list_find_Some in E as (Hj & Hx & _). cbn. f_equal. destruct (decide (Z.to_nat i = j)) as [<-|Hne]; [congruence|].
      assert (Hl : forall n y, Data t !! n = Some y -> (Id <$> Data t) !! n = Some (Id y)) by (intros n y Hn; by rewrite list_lookup_fmap, Hn).
      destruct (Nat.lt_gt_cases (Z.to_nat i) j) as [Hc _]. destruct (Hc Hne) as [Hlt|Hlt];
        [pose proof (StronglySorted_at Z.lt _ (to_sorted t Ht) _ _ _ _ (Hl _ _ Hi) (Hl _ _ Hj) Hlt)|pose proof (StronglySorted_at Z.lt _ (to_sorted t Ht) _ _ _ _ (Hl _ _ Hj) (Hl _ _ Hi) Hlt)]; lia.
    + apply list_find_None in E. exfalso. exact (Forall_lookup_1 _ _ _ _ E Hi Hp).
Qed.

Lemma frontier_posting f t d p : term_ok t -> frontier f t -> f <= d -> posting t d = Some p ->
  exhausted t = false /\ idPointer t <= d /\ (idPointer t = d -> doc_at t (posPointer t) = Some p).
Proof.
  intros Ht Hf Hd [Hp [i Hi]]%posting_Some; [|done]. assert (Hpos : posPointer t <= i). { destruct (Z.le_gt_cases (posPointer t) i); [done|]. pose proof (fr_behind f t Hf i p Hi ltac:(lia)). lia. }
  pose proof (to_at t Ht) as Ha. pose proof (doc_at_range t i p Hi). pose proof (to_pos t Ht). destruct (doc_at t (posPointer t)) as [e|] eqn:Ee; [|pose proof (doc_at_None t (posPointer t) ltac:(lia) Ee); lia].
  destruct Ha as [Ha1 Ha2]. split; [done|]. destruct (decide (posPointer t = i)) as [E|Hne]; [rewrite E, Hi in Ee; injection Ee as <-; split; [lia|done]|].
  pose proof (doc_at_lt t _ _ e p Ht Ee Hi ltac:(lia)). split; lia.
Qed.

Lemma pointer_posting t : term_ok t -> exhausted t = false -> exists p, doc_at t (posPointer t) = Some p /\ posting t (idPointer t) = Some p.
Proof. intros Ht He. destruct (not_exhausted t Ht He) as (p & Hp & Hid). exists p. split; [done|]. apply posting_Some; eauto. Qed.

Lemma term_score_bounds avg t d : term_valid t -> (0 < avg)%Qc -> (0 ≤ term_score avg t d /\ term_score avg t d ≤ CurrentBlockImpact t)%Qc.
Proof.
  intros Hv Ha. assert (Hi : (0 ≤ CurrentBlockImpact t)%Qc) by (apply Qcmult_nonneg_nonneg; apply Hv). unfold term_score. destruct (posting t d) as [p|] eqn:E; [|split; [apply Qcle_refl|done]].
  unfold posting in E. apply fmap_Some in E as ([i x] & (Hx & _)%list_find_Some & ->). cbn [snd]. pose proof (Forall_lookup_1 _ _ _ _ (tv_docs t Hv) Hx) as [Hfr Hpl].
  destruct (tf_bounds (config t) avg x (tv_K1 t Hv) (tv_B t Hv) Hfr Hpl Ha) as [H0 H1]. rewrite <- Qcmult_assoc. fold (CurrentBlockImpact t). split.
  - by apply Qcmult_nonneg_nonneg.
  - rewrite <- (Qcmult_1_l (CurrentBlockImpact t)) at 2. by apply Qcmult_le_mono_nonneg_r.
Qed.

(** * The list of terms *)

Record good (f : Z) (t : Term) : Prop := { g_ok : term_ok t; g_valid : term_valid t; g_frontier : frontier f t }.

(** The weight of a term that is not exhausted *)
Definition live_impact (t : Term) : Qc := if exhausted t then 0%Qc else CurrentBlockImpact t.

Lemma exhausted_impact l : Forall (fun t => exhausted t = true) l -> qsum (map live_impact l) = 0%Qc.
Proof. induction 1 as [|t l Ht _ IH]; [done|]. unfold qsum in *. cbn [map foldr]. rewrite IH. unfold live_impact. rewrite Ht. apply Qcplus_0_l. Qed.

Lemma qsum_cons x l : qsum (x :: l) = (x + qsum l)%Qc.
Proof. done. Qed.

(** A document that only the first terms can have *)
Lemma prefix_score avg f T1 T2 d : (0 < avg)%Qc -> Forall (good f) (T1 ++ T2) -> f <= d -> Forall (fun t => d < idPointer t) T2 ->
  (doc_score avg (T1 ++ T2) d ≤ qsum (map live_impact T1))%Qc.
Proof.
  intros Ha [Hg1 Hg2]%Forall_app Hd H2. unfold doc_score. rewrite map_app, qsum_app. rewrite <- (Qcplus_0_r (qsum (map live_impact T1))). apply Qcplus_le_compat.
  - apply qsum_le. intros t Ht. destruct (proj1 (Forall_forall _ _) Hg1 t Ht) as [Ho Hv Hf]. unfold live_impact. destruct (exhausted t) eqn:He; [|by apply term_score_bounds].
    unfold term_score. destruct (posting t d) as [p|] eqn:E; [|apply Qcle_refl]. destruct (frontier_posting f t d p Ho Hf Hd E). congruence.
  - rewrite <- (exhausted_impact []) by done. induction T2 as [|t T2 IH]; [apply Qcle_refl|]. cbn [map]. rewrite qsum_cons. apply Forall_cons in Hg2 as [[Ho Hv Hf] Hg2]. apply Forall_cons in H2 as [Hlt H2].
    assert (term_score avg t d = 0%Qc) as ->; [|rewrite Qcplus_0_l; by apply IH]. unfold term_score. destruct (posting t d) as [p|] eqn:E; [|done].
    destruct (frontier_posting f t d p Ho Hf Hd E) as (_ & ? & _). lia.
Qed.

Lemma find_min_wand_spec minScore l : forall i cum,
  match find_min_wand l i cum minScore with
  | Some (minID, j) => exists l1 t l2, l = l1 ++ t :: l2 /\ j = (i + length l1)%nat /\ exhausted t = false /\ minID = idPointer t /\
      (Forall (fun t => exhausted t = true) l1 \/ (cum + qsum (map live_impact l1) < minScore)%Qc)
  | None => Forall (fun t => exhausted t = true) l \/ (cum + qsum (map live_impact l) < minScore)%Qc
  end.
Proof.
  induction l as [|t l IH]; intros i cum; cbn [find_min_wand]; [by left|]. destruct (exhausted t) eqn:He.
  - specialize (IH (S i) cum). destruct (find_min_wand l (S i) cum minScore) as [[minID j]|].
    + destruct IH as (l1 & t' & l2 & -> & -> & Ht' & -> & Hb). exists (t :: l1), t', l2. split_and!; [done|cbn [length]; lia|done|done|].
      destruct Hb as [Hb|Hb]; [left; by constructor|right]. cbn [map]. rewrite qsum_cons. unfold live_impact at 1. by rewrite He, Qcplus_0_l.
    + destruct IH as [Hb|Hb]; [left; by constructor|right]. cbn [map]. rewrite qsum_cons. unfold live_impact at 1. by rewrite He, Qcplus_0_l.
  - case_bool_decide as Hc; [by exists [], t, l; split_and!; [done|cbn; lia|done|done|left; constructor]|]. apply Qclt_nge in Hc.
    assert (Hlive : live_impact t = CurrentBlockImpact t) by (unfold live_impact; by rewrite He).
    assert (Hstep : forall l', Forall (fun t => exhausted t = true) l' \/ (cum + CurrentBlockImpact t + qsum (map live_impact l') < minScore)%Qc -> (cum + qsum (map live_impact (t :: l')) < minScore)%Qc).
    { intros l' Hl'. cbn [map]. rewrite qsum_cons, Hlive, Qcplus_assoc. destruct Hl' as [Hl'|Hl']; [by rewrite exhausted_impact, Qcplus_0_r|done]. }
    specialize (IH (S i) (cum + CurrentBlockImpact t)%Qc). destruct (find_min_wand l (S i) _ minScore) as [[minID j]|].
    + destruct IH as (l1 & t' & l2 & -> & -> & Ht' & -> & Hb). exists (t :: l1), t', l2. split_and!; [done|cbn [length]; lia|done|done|right; by apply Hstep].
    + right. by apply Hstep.
Qed.

(** ** Moving the terms *)

Definition by_id (a b : Term) : Prop := idPointer a <= idPointer b.

(** How many documents are left *)
Definition remaining (T : list Term) : Z := foldr (fun t n => Z.of_nat (length (Data t)) - posPointer t + n) 0 T.

Lemma remaining_perm T T' : T ≡ₚ T' -> remaining T = remaining T'.
Proof. unfold remaining. induction 1; cbn [foldr]; lia. Qed.

Lemma remaining_app T1 T2 : remaining (T1 ++ T2) = remaining T1 + remaining T2.
Proof. unfold remaining. induction T1 as [|t T1 IH]; cbn [foldr app]; lia. Qed.

Lemma remaining_nonneg T : Forall term_ok T -> 0 <= remaining T.
Proof. unfold remaining. induction 1 as [|t T Ht _ IH]; cbn [foldr]; [done|]. pose proof (to_pos t Ht). lia. Qed.

Lemma core_data t t' : core t = core t' -> Data t = Data t'.
Proof. intros E. change (Data (core t) = Data (core t')). by rewrite E. Qed.

Lemma core_valid t t' : core t = core t' -> term_valid t -> term_valid t'.
Proof.
  destruct t, t'. unfold core, at_position. cbn. intros [= -> -> -> -> -> ->] [H1 H2 H3 H4 H5]. by split.
Qed.

Lemma advance_all_correct minID f l : Forall (good f) l -> f <= minID <= max_u64 ->
  exists l', advance_all l minID = Ok l' /\ Forall (good minID) l' /\ map core l' = map core l /\ remaining l' <= remaining l /\ (forall t, t ∈ l -> minID <= idPointer t -> t ∈ l').
Proof.
  intros Hl Hm. induction Hl as [|t l [Ho Hv Hf] _ IH]; cbn [advance_all]; [exists []; split_and!; done|].
  destruct (AdvanceAtLeast_correct minID f t Ho Hf Hm) as (t' & -> & Ho' & Hc & Hp & Hf' & Hs). cbn [obind]. destruct IH as (l' & -> & Hg & Hcl & Hr & Hin). cbn [obind].
  exists (t' :: l'). split_and!.
  - done.
  - constructor; [|done]. split; [done|by apply (core_valid t)|done].
  - cbn [map]. by rewrite Hc, Hcl.
  - unfold remaining in *. cbn [foldr]. rewrite (core_data t' t Hc). lia.
  - intros u [->|Hu]%elem_of_cons Hid; [rewrite (Hs Hid); set_solver|]. apply list_elem_of_further. by apply Hin.
Qed.

(** ** The least id first *)

Lemma min_index_spec l : Forall term_ok l -> forall i m k,
  exists m' k', min_index l i (Some (m, k)) = Some (m', k') /\ m' <= m /\ (m <= max_u64 -> Forall (fun u => m' <= idPointer u) l) /\
    ((m' = m /\ k' = k) \/ exists j u, l !! j = Some u /\ k' = (i + j)%nat /\ idPointer u = m').
Proof.
  induction 1 as [|t l Ht _ IH]; intros i m k; cbn [min_index]; [exists m, k; split_and!; [done|lia|done|by left]|]. pose proof (pointer_max t Ht) as Hmax.
  destruct ((idPointer t <? m) && negb (exhausted t)) eqn:E.
  - apply andb_prop in E as [Hlt%Z.ltb_lt _]. destruct (IH (S i) (idPointer t) i) as (m' & k' & -> & Hm & Hall & Hw). exists m', k'. split_and!; [done|lia| |].
    + intros _. constructor; [done|apply Hall; lia].
    + right. destruct Hw as [[-> ->]|(j & u & Hj & -> & Hu)]; [exists 0%nat, t; split_and!; [done|lia|done]|exists (S j), u; split_and!; [done|lia|done]].
  - destruct (IH (S i) m k) as (m' & k' & -> & Hm & Hall & Hw). exists m', k'. split_and!; [done|done| |].
    + intros Hmm. constructor; [|by apply Hall]. apply andb_false_iff in E as [Hge%Z.ltb_ge|He]; [lia|]. apply negb_false_iff in He. destruct (exhausted_pointer t Ht) as [_ Hx].
      destruct (Z.lt_ge_cases (idPointer t) max_u64) as [Hc|Hc]; [rewrite (Hx Hc) in He; done|lia].
    + destruct Hw as [Hw|(j & u & Hj & -> & Hu)]; [by left|right]. exists (S j), u. split_and!; [done|lia|done].
Qed.

Lemma SortFirst_correct T c : Forall term_ok T -> Exists (fun t => exhausted t = false) T ->
  exists t rest, SortFirst (MkTerms T c) = MkTerms (t :: rest) c /\ t :: rest ≡ₚ T /\ exhausted t = false /\ Forall (by_id t) (t :: rest).
Proof.
  intros Hok Hex. destruct T as [|x T]; [by apply Exists_nil in Hex|]. unfold SortFirst. cbn [terms_T terms_Count min_index]. pose proof (Forall_inv Hok) as Hx. pose proof (Forall_inv_tail Hok) as HT.
  destruct (min_index_spec T HT 1 (idPointer x) 0) as (m & k & -> & Hm & Hall & Hw). specialize (Hall (proj2 (pointer_max x Hx))).
  assert (Hleast : forall t, t ∈ x :: T -> idPointer t = m -> exhausted t = false).
  { intros t Ht E. apply exhausted_pointer; [by apply (proj1 (Forall_forall _ _) Hok)|]. apply Exists_exists in Hex as (u & Hu & He). pose proof (proj1 (Forall_forall _ _) Hok u Hu) as Hou.
    apply (exhausted_pointer u Hou) in He. rewrite E. apply elem_of_cons in Hu as [->|Hu]; [lia|]. pose proof (proj1 (Forall_forall _ _) Hall u Hu) as Hmu. cbn beta in Hmu. lia. }
  assert (Hmin : Forall (fun u => m <= idPointer u) (x :: T)) by (by constructor).
  destruct Hw as [[-> ->]|(j & u & Hj & -> & <-)].
  - exists x, T. split_and!; [done|done|apply Hleast; [set_solver|done]|exact Hmin].
  - cbn [Nat.add]. change ((x :: T) !! 0%nat) with (Some x). change ((x :: T) !! S j) with (T !! j). rewrite Hj. cbn [terms_Count].
    change (<[S j := x]> (<[0%nat := u]> (x :: T))) with (u :: <[j := x]> T). assert (Hperm : u :: <[j := x]> T ≡ₚ x :: T).
    { destruct (list_elem_of_split_length T j u Hj) as (p1 & p2 & -> & ->). rewrite insert_app_r_alt, Nat.sub_diag by lia. change (<[0%nat := x]> (u :: p2)) with (x :: p2).
      rewrite <- !Permutation_middle. apply Permutation_swap. }
    exists u, (<[j := x]> T). split_and!; [done|done|apply Hleast; [|done]|].
    + apply elem_of_cons. right. by eapply list_elem_of_lookup_2.
    + unfold by_id. by rewrite Hperm.
Qed.

(** ** Skipping *)

(** Documents below the id that is returned are skipped; they cannot reach the score asked for. *)
Lemma Pivot_correct avg f T c minScore : (0 < avg)%Qc -> Forall (good f) T -> StronglySorted by_id T -> Exists (fun t => exhausted t = false) T ->
  exists T' stop, Pivot (MkTerms T c) minScore = Ok (MkTerms T' c, stop) /\
    if stop then forall d, f <= d -> (doc_score avg T d < minScore)%Qc
    else exists g t rest, T' = t :: rest /\ f <= g /\ Forall (good g) T' /\ map core T' ≡ₚ map core T /\ remaining T' <= remaining T /\ exhausted t = false /\ Forall (by_id t) T' /\
      forall d, f <= d < g -> (doc_score avg T d < minScore)%Qc.
Proof.
  intros Ha Hg Hs Hex. unfold Pivot, FindMinIDWand. cbn [terms_T]. pose proof (find_min_wand_spec minScore T 0 0%Qc) as Hspec.
  destruct (find_min_wand T 0 0 minScore) as [[minID j]|].
  - destruct Hspec as (l1 & t & l2 & -> & -> & He & -> & Hb). cbn [Nat.add]. rewrite Qcplus_0_l in Hb. pose proof Hg as [Hg1 [Hgt Hg2]%Forall_cons]%Forall_app.
    apply StronglySorted_app in Hs as (H12 & Hs1 & Hs2). pose proof (proj1 (exhausted_pointer t (g_ok f t Hgt)) He) as Hid.
    assert (Hlate : Forall (fun u => idPointer t <= idPointer u) (t :: l2)). { constructor; [done|]. inversion_clear Hs2 as [|? ? _ Hall]. exact Hall. }
    destruct l1 as [|a l1].
    + cbn [length Nat.eqb app]. exists (t :: l2), false. split; [done|]. exists f, t, l2. split_and!; [done|lia|done|done|lia|done|exact Hlate|lia].
    + cbn [length Nat.eqb]. set (T := (a :: l1) ++ t :: l2) in *.
      assert (Hlen : length T = (S (length l1) + S (length l2))%nat) by (unfold T; rewrite length_app; done).
      unfold AdvanceAllAtLeast. cbn [terms_T terms_Count]. rewrite (proj2 (orb_false_iff _ _)) by (split; [apply Z.ltb_ge|apply Z.ltb_ge]; lia).
      set (n := Z.to_nat (Z.of_nat (length T) - 1)). assert (Hn : (n = S (length l1) + length l2)%nat) by lia.
      assert (Hfid : f <= idPointer t) by apply Hgt. destruct (advance_all_correct (idPointer t) f (take n T) (Forall_take _ n T Hg) ltac:(lia)) as (l' & -> & Hg' & Hc' & Hr' & Hin').
      cbn [obind]. set (T1 := l' ++ drop n T).
      assert (Hdrop : forall u, u ∈ drop n T -> idPointer t <= idPointer u).
      { intros u Hu. apply (proj1 (Forall_forall _ _) Hlate). unfold T in Hu. rewrite drop_app_ge in Hu by (cbn; lia). eapply elem_of_submseteq; [exact Hu|]. apply sublist_submseteq, sublist_drop. }
      assert (Hg1' : Forall (good (idPointer t)) T1).
      { apply Forall_app. split; [done|]. apply Forall_forall. intros u Hu. pose proof (proj1 (Forall_forall _ _) (Forall_drop _ n T Hg) u Hu) as [Ho Hv Hf]. split; [done|done|].
        apply (frontier_raise f); [done|lia|by apply Hdrop]. }
      assert (Hcore : map core T1 = map core T) by (unfold T1; rewrite map_app, Hc', <- map_app, take_drop; done).
      assert (Ht1 : t ∈ T1).
      { apply elem_of_app. assert (Ht : t ∈ take n T ++ drop n T) by (rewrite take_drop; unfold T; set_solver). apply elem_of_app in Ht as [Ht|Ht]; [left; by apply Hin'|by right]. }
      destruct (SortFirst_correct T1 c) as (t0 & rest & -> & Hp & He0 & Hmin).
      { eapply Forall_impl; [exact Hg1'|]. by intros u [Hu _ _]. }
      { apply Exists_exists. by exists t. }
      exists (t0 :: rest), false. split; [done|]. exists (idPointer t), t0, rest. split_and!; [done|done|by rewrite Hp| | |done|done|].
      * rewrite <- Hcore. by apply Permutation_map.
      * rewrite (remaining_perm _ _ Hp). unfold T1. rewrite <- (take_drop n T) at 2. rewrite !remaining_app. lia.
      * intros d Hd. assert (Hlow : (qsum (map live_impact (a :: l1)) < minScore)%Qc).
        { destruct Hb as [Hb|Hb]; [|done]. exfalso. apply Forall_cons in Hb as [Hb _]. apply Forall_cons in Hg1 as [Hga _]. assert (Hle : by_id a t) by (apply H12; set_solver).
          unfold by_id in Hle. assert (E : exhausted a = false) by (apply exhausted_pointer; [apply Hga|lia]). congruence. }
        eapply Qcle_lt_trans; [|exact Hlow]. apply (prefix_score avg f); [done|done|lia|]. eapply Forall_impl; [exact Hlate|]. intros u Hu. cbn in Hu. lia.
  - exists T, true. split; [done|]. intros d Hd. destruct Hspec as [Hall|Hlow].
    { exfalso. apply Exists_exists in Hex as (u & Hu & He). pose proof (proj1 (Forall_forall _ _) Hall u Hu). congruence. }
    rewrite Qcplus_0_l in Hlow. eapply Qcle_lt_trans; [|exact Hlow]. rewrite <- (app_nil_r T) at 1. apply (prefix_score avg f); [done|by rewrite app_nil_r|done|constructor].
Qed.

(** ** Scoring a document *)

Lemma matched_cons t T d : matched (t :: T) d = (if decide (is_Some (posting t d)) then 1 else 0) + matched T d.
Proof. unfold matched. rewrite filter_cons. destruct (decide _); cbn [length]; lia. Qed.

Lemma matched_nonneg T d : 0 <= matched T d.
Proof. unfold matched. lia. Qed.

Lemma matched_posting T d : Forall term_ok T -> 1 <= matched T d -> 0 <= d < max_u64 /\ exists t, t ∈ T /\ d ∈ map Id (Data t).
Proof.
  intros Hok Hm. unfold matched in Hm. destruct (filter (fun t => is_Some (posting t d)) T) as [|t l] eqn:E; [cbn in Hm; lia|].
  assert (Ht : t ∈ filter (fun t => is_Some (posting t d)) T) by (rewrite E; set_solver). apply list_elem_of_filter in Ht as [[p Hp] Ht].
  pose proof (proj1 (Forall_forall _ _) Hok t Ht) as Hot. apply (posting_Some t d p Hot) in Hp as [<- [i Hi]]. split; [by apply (doc_at_id t i)|]. exists t. split; [done|].
  apply list_elem_of_fmap_2. unfold doc_at in Hi. destruct (i <? 0); [done|]. by eapply list_elem_of_lookup_2.
Qed.

Lemma score_terms_correct avg explain g id l : g <= id -> Forall (good g) l -> Forall (fun t => id <= idPointer t) l -> id < max_u64 -> forall s,
  (explain = true -> Forall (fun t => (queryTermIndex t < length (s_docs s))%nat) l) ->
  exists l' docs, score_terms avg explain l id s = Ok (l', Scoring (s_score s + doc_score avg l id) (s_matched s + matched l id) docs) /\
    Forall (good (id + 1)) l' /\ map core l' = map core l /\ remaining l' = remaining l - matched l id.
Proof.
  intros Hgid Hl Hid Hmax. induction Hl as [|t l [Ho Hv Hf] _ IH]; intros s Hdocs; cbn [score_terms].
  { exists [], (s_docs s). destruct s. cbn. rewrite Qcplus_0_r, Z.add_0_r. by split_and!. }
  apply Forall_cons in Hid as [Hidt Hid]. specialize (IH Hid). unfold doc_score. cbn [map]. rewrite qsum_cons. fold (doc_score avg l id). rewrite matched_cons. unfold remaining. cbn [foldr]. fold (remaining l).
  destruct (negb (idPointer t =? id) || exhausted t) eqn:E.
  - assert (Hnone : posting t id = None).
    { destruct (posting t id) as [p|] eqn:Ep; [|done]. destruct (frontier_posting g t id p Ho Hf Hgid Ep) as (He & Hle & _). rewrite He, orb_false_r in E.
      apply negb_true_iff, Z.eqb_neq in E. lia. }
    destruct (IH s) as (l' & docs & -> & Hg' & Hc & Hr). { intros He. specialize (Hdocs He). by apply Forall_cons in Hdocs as [_ ?]. }
    cbn [obind]. exists (t :: l'), docs. unfold term_score. rewrite Hnone, Qcplus_0_l. split_and!.
    + done.
    + constructor; [|done]. split; [done|done|]. apply (frontier_raise g); [done|lia|]. apply orb_true_iff in E as [E|E]; [apply negb_true_iff, Z.eqb_neq in E; lia|].
      destruct (exhausted_pointer t Ho) as [_ Hx]. destruct (Z.lt_ge_cases (idPointer t) max_u64) as [Hc'|Hc']; [rewrite (Hx Hc') in E; done|lia].
    + cbn [map]. by rewrite Hc.
    + unfold remaining in *. cbn [foldr]. destruct (decide _) as [[p Hp]|_]; [done|]. lia.
  - apply orb_false_iff in E as [E1 He]. apply negb_false_iff, Z.eqb_eq in E1. destruct (pointer_posting t Ho He) as (p & Hp & Hpost). unfold Score. rewrite Hp. cbn [obind].
    destruct (step_ok t Ho He) as (Hos & Hfs & Hps). rewrite E1 in Hpost, Hfs.
    assert (Hd : exists docs1, (if explain then if (queryTermIndex t <? length (s_docs s))%nat then Ok (<[queryTermIndex t := if explain then Some p else None]> (s_docs s)) else Panic
      else Ok (s_docs s)) = (Ok docs1 : outcome terms_error _) /\ length docs1 = length (s_docs s)).
    { destruct explain; [|by eexists]. specialize (Hdocs eq_refl). apply Forall_cons in Hdocs as [Hi _]. rewrite (proj2 (Nat.ltb_lt _ _) Hi). eexists. split; [done|]. apply length_insert. }
    destruct Hd as (docs1 & -> & Hlen). cbn [obind].
    destruct (IH (Scoring (s_score s + tf (config t) avg p * idf t * propertyBoost t)%Qc (s_matched s + 1) docs1)) as (l' & docs & -> & Hg' & Hc & Hr).
    { intros Hexp. cbn [s_docs]. rewrite Hlen. specialize (Hdocs Hexp). by apply Forall_cons in Hdocs as [_ ?]. }
    cbn [obind s_score s_matched]. rewrite Advance_step. exists (step t :: l'), docs. unfold term_score. rewrite Hpost. split_and!.
    + destruct (decide _) as [_|Hn]; [|by destruct Hn]. by rewrite Qcplus_assoc, Z.add_assoc.
    + constructor; [|done]. split; [done|by apply (core_valid t); [rewrite step_core|]|done].
    + cbn [map]. by rewrite Hc, step_core.
    + unfold remaining in *. cbn [foldr]. rewrite (core_data (step t) t (step_core t)), Hps. destruct (decide _) as [_|Hn]; [|by destruct Hn]. lia.
Qed.

Lemma ScoreNext_correct avg explain g t rest c minMatch : let T := t :: rest in
  Forall (good g) T -> exhausted t = false -> Forall (by_id t) T -> (explain = true -> Forall (fun t => (queryTermIndex t < c)%nat) T) ->
  exists T' docs, ScoreNext avg explain (MkTerms T c) minMatch =
      Ok (MkTerms T' c, if matched T (idPointer t) <? minMatch then (0, 0%Qc, docs, false) else (idPointer t, doc_score avg T (idPointer t), docs, true)) /\
    Forall (good (idPointer t + 1)) T' /\ map core T' = map core T /\ remaining T' < remaining T /\ g <= idPointer t < max_u64 /\ 1 <= matched T (idPointer t).
Proof.
  intros T Hg He Hmin Hidx. pose proof (Forall_inv Hg) as [Ho Hv Hf]. pose proof (proj1 (exhausted_pointer t Ho) He) as Hmax. pose proof (fr_pointer g t Hf) as Hgid.
  unfold ScoreNext, FindFirstNonExhausted. cbn [terms_T]. unfold T at 1. cbn [first_non_exhausted]. rewrite He. change (T !! 0%nat) with (Some t). change (drop 0 T) with T. change (take 0 T) with (@nil Term). cbn [app terms_Count].
  destruct (score_terms_correct avg explain g (idPointer t) T Hgid Hg Hmin Hmax (Scoring 0 0 (if explain then replicate c None else []))) as (T' & docs & -> & Hg' & Hc & Hr).
  { intros ->. cbn [s_docs]. rewrite length_replicate. by apply Hidx. }
  assert (Hm : 1 <= matched T (idPointer t)).
  { unfold T. rewrite matched_cons. destruct (pointer_posting t Ho He) as (p & _ & Hp). rewrite Hp. destruct (decide _) as [_|Hn]; [|by destruct Hn]. pose proof (matched_nonneg rest (idPointer t)). lia. }
  cbn [obind s_score s_matched s_docs]. rewrite Z.add_0_l, Qcplus_0_l. exists T', docs. split_and!; try done; try lia. by destruct (matched T (idPointer t) <? minMatch).
Qed.
