(* ===== verification/PostingMerge.v ===== *)
(** * Merging the documents of a word

    The merger of Bm25Terms.v, [SortedDocPointerWithScoreMerger] of [adapters/repos/db/inverted/terms/terms.go]: the sorted lists of the segments become
    one sorted list in which the newest version of every document is kept, or none if that is a tombstone. *)

From Stdlib Require Import QArith Qcanon.
From stdpp Require Import numbers sorting.
From S2P Require Import Prelude PriorityQueue Bm25Terms.

#[local] Open Scope Z_scope.

Notation sorted_docs l := (StronglySorted Z.lt (map Id l)).

Section merge.
Context (input : list (list DocPointerWithScore)) (input_sorted : Forall (fun l => sorted_docs l) input).

(** What is left of segment [i] *)
Definition left_of (offsets : list nat) (i : nat) : list DocPointerWithScore := drop (offset_of offsets i) (default [] (input !! i)).

(** The version of a document that the last of the first [n] segments that have one has *)
Definition newest (n : nat) (rem : nat -> list DocPointerWithScore) (d : DocPointerWithScore) : Prop :=
  exists i, (i < n)%nat /\ d ∈ rem i /\ forall j e, (i < j < n)%nat -> e ∈ rem j -> Id e <> Id d.

Lemma segment_sorted i : sorted_docs (default [] (input !! i)).
Proof. destruct (input !! i) as [l|] eqn:E; [exact (Forall_lookup_1 _ _ _ _ input_sorted E)|constructor]. Qed.

Lemma left_sorted offsets i : sorted_docs (left_of offsets i).
Proof. unfold left_of. rewrite <- skipn_map. pose proof (segment_sorted i) as Hs. rewrite <- (take_drop (offset_of offsets i) (map Id _)) in Hs. by apply StronglySorted_app in Hs as (_ & _ & ?). Qed.

Lemma left_head offsets i data d : input !! i = Some data -> data !! offset_of offsets i = Some d -> left_of offsets i = d :: drop (S (offset_of offsets i)) data.
Proof. intros Hi Hd. unfold left_of. rewrite Hi. cbn. by apply drop_S. Qed.

Lemma left_nil offsets i data : input !! i = Some data -> data !! offset_of offsets i = None -> left_of offsets i = [].
Proof. intros Hi Hd. unfold left_of. rewrite Hi. cbn. apply drop_ge. by apply lookup_ge_None. Qed.

Lemma offset_alter offsets b i : (b < length offsets)%nat -> offset_of (alter S b offsets) i = if decide (i = b) then S (offset_of offsets b) else offset_of offsets i.
Proof.
  intros Hb. unfold offset_of. destruct (decide (i = b)) as [->|Hne].
  - rewrite list_lookup_alter_eq. destruct (lookup_lt_is_Some_2 offsets b Hb) as [x Hx]. by rewrite Hx.
  - by rewrite list_lookup_alter_ne.
Qed.

Lemma left_alter offsets b i : (b < length offsets)%nat -> left_of (alter S b offsets) i = if decide (i = b) then tail (left_of offsets b) else left_of offsets i.
Proof.
  intros Hb. unfold left_of. rewrite offset_alter by done. destruct (decide (i = b)) as [->|]; [|done]. generalize (default [] (input !! b)). intros l.
  generalize (offset_of offsets b). intros n. revert n. induction l as [|x l IH]; intros [|n]; cbn; done.
Qed.

(** The document taken off a sorted list *)
Lemma tail_docs l d rest : sorted_docs l -> l = d :: rest -> tail l = rest /\ forall e, e ∈ rest -> Id d < Id e.
Proof.
  intros Hs ->. split; [done|]. inversion_clear Hs as [|? ? _ Hall]. intros e He. apply (proj1 (Forall_forall _ _) Hall). by apply list_elem_of_fmap_2.
Qed.

(** ** One scan over the segments *)

Record scanned (offsets0 : list nat) (n : nat) (offsets : list nat) (best : option (nat * Z)) : Prop := {
  sc_length : length offsets = length input;
  sc_rest i : (n <= i)%nat -> left_of offsets i = left_of offsets0 i;
  sc_newest d : newest n (left_of offsets) d <-> newest n (left_of offsets0) d;
  sc_less i : (length (left_of offsets i) <= length (left_of offsets0 i))%nat;
  sc_best : match best with
    | None => forall i, (i < n)%nat -> left_of offsets i = []
    | Some (b, k) => (b < n)%nat /\ (exists d l, left_of offsets b = d :: l /\ Id d = k) /\ forall i e, (i < n)%nat -> i <> b -> e ∈ left_of offsets i -> k < Id e
    end
}.

(** Segment [n] joins the scanned ones without a change of the offsets. *)
Lemma newest_grow n rem rem0 : rem n = rem0 n -> (forall d, newest n rem d <-> newest n rem0 d) -> forall d, newest (S n) rem d <-> newest (S n) rem0 d.
Proof.
  intros Hn Heq. assert (Hdir : forall r r0, r n = r0 n -> (forall d, newest n r d -> newest n r0 d) -> forall d, newest (S n) r d -> newest (S n) r0 d).
  { intros r r0 Hr Hrr d (i & Hi & Hd & Hlast). destruct (decide (i = n)) as [->|Hne].
    - exists n. split; [lia|]. rewrite <- Hr. split; [done|]. intros j e Hj. lia.
    - destruct (Hrr d) as (i' & Hi' & Hd' & Hlast'); [exists i; split_and!; [lia|done|intros j e Hj; apply Hlast; lia]|].
      exists i'. split_and!; [lia|done|]. intros j e Hj He. destruct (decide (j = n)) as [->|Hjn]; [rewrite <- Hr in He; apply (Hlast n); [lia|done]|apply (Hlast' j); [lia|done]]. }
  intros d. split; apply Hdir; try done; intros; by apply Heq.
Qed.

Lemma scan_step offsets0 n offsets best data : length offsets0 = length input -> scanned offsets0 n offsets best -> input !! n = Some data ->
  forall rest, exists offsets' best', scan_segments (data :: rest) n offsets best = scan_segments rest (S n) offsets' best' /\ scanned offsets0 (S n) offsets' best'.
Proof.
  intros H0 [Hlen Hrest Hnew Hless Hbest] Hdata rest. cbn [scan_segments].
  assert (Hn : (n < length input)%nat) by by apply lookup_lt_Some in Hdata.
  assert (Hsame : forall d, newest (S n) (left_of offsets) d <-> newest (S n) (left_of offsets0) d) by (apply newest_grow; [by apply Hrest|done]).
  assert (Hkeep : forall best', (match best' with None => forall i, (i < S n)%nat -> left_of offsets i = []
      | Some (b, k) => (b < S n)%nat /\ (exists d l, left_of offsets b = d :: l /\ Id d = k) /\ forall i e, (i < S n)%nat -> i <> b -> e ∈ left_of offsets i -> k < Id e end) -> scanned offsets0 (S n) offsets best').
  { intros best' Hb. split; [done|intros i Hi; apply Hrest; lia|done|done|done]. }
  destruct (data !! offset_of offsets n) as [d|] eqn:Ed.
  2:{ pose proof (left_nil offsets n data Hdata Ed) as Hnil. exists offsets, best. split; [done|]. apply Hkeep. destruct best as [[b k]|].
      - destruct Hbest as (Hb & Hhd & Hall). split_and!; [lia|done|]. intros i e Hi Hne He. destruct (decide (i = n)) as [->|]; [rewrite Hnil in He; by apply not_elem_of_nil in He|]. by apply (Hall i e); [lia|..].
      - intros i Hi. destruct (decide (i = n)) as [->|]; [done|]. apply Hbest. lia. }
  pose proof (left_head offsets n data d Hdata Ed) as Hhead. set (l := drop (S (offset_of offsets n)) data) in *. destruct (tail_docs _ d l (left_sorted offsets n) Hhead) as [_ Htail].
  assert (Hmine : forall e, e ∈ left_of offsets n -> Id d <= Id e). { rewrite Hhead. intros e [->|He]%elem_of_cons; [lia|]. specialize (Htail e He). lia. }
  destruct best as [[b k]|].
  2:{ exists offsets, (Some (n, Id d)). split; [done|]. apply Hkeep. split_and!; [lia|by exists d, l|]. intros i e Hi Hne He. rewrite Hbest in He by lia. by apply not_elem_of_nil in He. }
  destruct Hbest as (Hb & (db & lb & Hhb & Hk) & Hall). destruct (Z.ltb_spec k (Id d)) as [Hlt|Hge].
  { exists offsets, (Some (b, k)). split; [done|]. apply Hkeep. split_and!; [lia|by exists db, lb|]. intros i e Hi Hne He. destruct (decide (i = n)) as [->|]; [specialize (Hmine e He); lia|]. by apply (Hall i e); [lia|..]. }
  destruct (tail_docs _ db lb (left_sorted offsets b) Hhb) as [Htb Htailb]. destruct (Z.ltb_spec (Id d) k) as [Hlt|Hge2].
  { exists offsets, (Some (n, Id d)). split; [done|]. apply Hkeep. split_and!; [lia|by exists d, l|]. intros i e Hi Hne He. destruct (decide (i = b)) as [->|Hib].
    - rewrite Hhb in He. apply elem_of_cons in He as [->|He]; [lia|]. specialize (Htailb e He). lia.
    - pose proof (Hall i e ltac:(lia) Hib He). lia. }
  assert (Hkd : Id d = k) by lia. exists (alter S b offsets), (Some (n, Id d)). split; [done|].
  assert (Hbl : (b < length offsets)%nat) by lia. assert (Hl : forall i, left_of (alter S b offsets) i = if decide (i = b) then lb else left_of offsets i) by (intros i; rewrite left_alter by done; by rewrite Htb).
  split.
  - by rewrite length_alter.
  - intros i Hi. rewrite Hl, decide_False by lia. apply Hrest. lia.
  - intros x. rewrite <- Hsame. split.
    + intros (i & Hi & Hx & Hlast). exists i. split; [done|]. rewrite Hl in Hx. split; [destruct (decide (i = b)) as [->|]; [rewrite Hhb; set_solver|done]|].
      intros j e Hj He. destruct (decide (j = b)) as [->|Hjb]; [|apply (Hlast j e Hj); by rewrite Hl, decide_False].
      rewrite Hhb in He. apply elem_of_cons in He as [->|He]; [|apply (Hlast b e Hj); by rewrite Hl, decide_True].
      intros E. apply (Hlast n d); [lia|rewrite Hl, decide_False, Hhead by lia; set_solver|lia].
    + intros (i & Hi & Hx & Hlast). assert (Hxk : i = b -> x ∈ lb).
      { intros ->. rewrite Hhb in Hx. apply elem_of_cons in Hx as [->|Hx]; [|done]. exfalso. apply (Hlast n d); [lia|rewrite Hhead; set_solver|lia]. }
      exists i. split; [done|]. rewrite Hl. split; [destruct (decide (i = b)); auto|]. intros j e Hj He. rewrite Hl in He. apply (Hlast j e Hj). destruct (decide (j = b)) as [->|]; [rewrite Hhb; set_solver|done].
  - intros i. rewrite Hl. destruct (decide (i = b)) as [->|]; [|done]. etrans; [|apply Hless]. rewrite Hhb. cbn [length]. lia.
  - split_and!; [lia|exists d, l; by rewrite Hl, decide_False by lia|]. intros i e Hi Hne He. rewrite Hl in He. destruct (decide (i = b)) as [->|Hib]; [specialize (Htailb e He); lia|].
    pose proof (Hall i e ltac:(lia) Hib He). lia.
Qed.

Lemma scan_segments_all offsets0 : length offsets0 = length input -> forall rest n offsets best, drop n input = rest -> scanned offsets0 n offsets best ->
  exists offsets' best', scan_segments rest n offsets best = (offsets', best') /\ scanned offsets0 (length input) offsets' best'.
Proof.
  intros H0. induction rest as [|data rest IH]; intros n offsets best Hd Hs.
  - exists offsets, best. split; [done|]. assert (Hn : (length input <= n)%nat) by (apply (f_equal length) in Hd; rewrite length_drop in Hd; cbn [length] in Hd; lia).
    assert (Hout : forall o i, (length input <= i)%nat -> left_of o i = []) by (intros o i Hi; unfold left_of; rewrite lookup_ge_None_2 by done; cbn; by rewrite drop_nil).
    destruct Hs as [H1 H2 H3 H4 H5]. split; [done|intros i Hi; by rewrite !Hout| |done|].
    + assert (Hw : forall o d, newest n (left_of o) d <-> newest (length input) (left_of o) d).
      { intros o d. split; intros (i & Hi & Hin & Hlast); (exists i; split_and!; [|done|]).
        - destruct (decide (i < length input)%nat); [done|]. rewrite Hout in Hin by lia. by apply not_elem_of_nil in Hin.
        - intros j e Hj. apply Hlast. lia.
        - lia.
        - intros j e Hj He. destruct (decide (j < length input)%nat); [by apply (Hlast j); [lia|]|]. rewrite Hout in He by lia. by apply not_elem_of_nil in He. }
      intros d. by rewrite <- !Hw.
    + destruct best as [[b k]|]; [|intros i Hi; apply H5; lia]. destruct H5 as (Hb & (d & l & Hl & Hk) & Hall). split_and!; [|by exists d, l|intros i e Hi; apply Hall; lia].
      destruct (decide (b < length input)%nat); [done|]. by rewrite Hout in Hl by lia.
  - assert (Hdata : input !! n = Some data) by (rewrite <- (Nat.add_0_r n), <- lookup_drop, Hd; done).
    destruct (scan_step offsets0 n offsets best data H0 Hs Hdata rest) as (offsets1 & best1 & -> & Hs1). apply (IH (S n)); [|done].
    rewrite <- Nat.add_1_r, <- drop_drop, Hd. done.
Qed.

(** How many documents are left in all segments *)
Definition all_left (offsets : list nat) : nat := sum_list (map (fun i => length (left_of offsets i)) (seq 0 (length input))).

Lemma sum_list_le (f g : nat -> nat) l : (forall i, i ∈ l -> (f i <= g i)%nat) -> (sum_list (map f l) <= sum_list (map g l))%nat.
Proof. induction l as [|x l IH]; cbn [map sum_list sum_list_with]; intros Hl; [done|]. apply Nat.add_le_mono; [apply Hl; set_solver|apply IH; intros i Hi; apply Hl; set_solver]. Qed.

Lemma sum_list_lt (f g : nat -> nat) l x : (forall i, i ∈ l -> (f i <= g i)%nat) -> x ∈ l -> (f x < g x)%nat -> (sum_list (map f l) < sum_list (map g l))%nat.
Proof.
  intros Hl (l1 & l2 & ->)%list_elem_of_split Hx. rewrite !map_app, !sum_list_with_app. cbn [map sum_list sum_list_with].
  pose proof (sum_list_le f g l1 ltac:(intros i Hi; apply Hl; set_solver)). pose proof (sum_list_le f g l2 ltac:(intros i Hi; apply Hl; set_solver)). unfold id in *. lia.
Qed.

Lemma find_correct offsets0 : length offsets0 = length input ->
  exists offsets' m, findSegmentWithLowestKey (Merger input offsets0) = Ok (Merger input offsets', m) /\ length offsets' = length input /\
    match m with
    | None => forall d, ~ newest (length input) (left_of offsets0) d
    | Some d => newest (length input) (left_of offsets0) d /\
        (forall e, newest (length input) (left_of offsets') e <-> newest (length input) (left_of offsets0) e /\ Id e <> Id d) /\
        (forall i e, e ∈ left_of offsets' i -> Id d < Id e) /\ (all_left offsets' < all_left offsets0)%nat
    end.
Proof.
  intros H0. assert (Hinit : scanned offsets0 0 offsets0 None) by (split; [done..|intros i Hi; lia]). unfold findSegmentWithLowestKey. cbn [m_input m_offsets].
  destruct (scan_segments_all offsets0 H0 input 0 offsets0 None eq_refl Hinit) as (offsets & best & -> & [Hlen _ Hnew Hless Hbest]). destruct best as [[b k]|].
  2:{ exists offsets, None. split_and!; [done|done|]. intros d (i & Hi & Hd & _)%Hnew. rewrite Hbest in Hd by done. by apply not_elem_of_nil in Hd. }
  destruct Hbest as (Hb & (d & l & Hl & Hk) & Hall). destruct (lookup_lt_is_Some_2 input b Hb) as [data Hdata].
  assert (Hat : data !! offset_of offsets b = Some d).
  { unfold left_of in Hl. rewrite Hdata in Hl. cbn in Hl. rewrite <- (Nat.add_0_r (offset_of offsets b)), <- lookup_drop, Hl. done. }
  rewrite Hdata. cbn [mbind option_bind]. rewrite Hat. exists (alter S b offsets), (Some d). split; [done|]. split; [by rewrite length_alter|].
  assert (Hbl : (b < length offsets)%nat) by lia. destruct (tail_docs _ d l (left_sorted offsets b) Hl) as [Htl Htail].
  assert (Hl' : forall i, left_of (alter S b offsets) i = if decide (i = b) then l else left_of offsets i) by (intros i; rewrite left_alter by done; by rewrite Htl).
  assert (Hsub : forall i e, e ∈ left_of (alter S b offsets) i -> e ∈ left_of offsets i) by (intros i e; rewrite Hl'; destruct (decide (i = b)) as [->|]; [rewrite Hl; set_solver|done]).
  assert (Hgt : forall i e, e ∈ left_of (alter S b offsets) i -> Id d < Id e).
  { intros i e He. rewrite Hl' in He. destruct (decide (i = b)) as [->|Hib]; [by apply Htail|]. destruct (decide (i < length input)%nat); [rewrite Hk; by apply (Hall i e)|].
    unfold left_of in He. rewrite lookup_ge_None_2 in He by lia. cbn in He. rewrite drop_nil in He. by apply not_elem_of_nil in He. }
  assert (Hrest : forall i e, e ∈ left_of offsets i -> Id e <> Id d -> e ∈ left_of (alter S b offsets) i).
  { intros i e He Hne. rewrite Hl'. destruct (decide (i = b)) as [->|]; [|done]. rewrite Hl in He. apply elem_of_cons in He as [->|He]; done. }
  split_and!.
  - apply Hnew. exists b. split_and!; [done|rewrite Hl; set_solver|]. intros j e Hj He. pose proof (Hall j e ltac:(lia) ltac:(lia) He). lia.
  - intros e. rewrite <- Hnew. split.
    + intros (i & Hi & He & Hlast). pose proof (Hgt i e He). split; [|lia]. exists i. split_and!; [done|by apply Hsub|]. intros j x Hj Hx E. apply (Hlast j x Hj); [|done]. apply Hrest; [done|lia].
    + intros [(i & Hi & He & Hlast) Hne]. exists i. split_and!; [done|by apply Hrest|]. intros j x Hj Hx. apply (Hlast j x Hj). by apply Hsub.
  - exact Hgt.
  - apply (sum_list_lt _ _ _ b); [|apply elem_of_seq; lia|].
    + intros i _. rewrite Hl'. etrans; [|apply Hless]. destruct (decide (i = b)) as [->|]; [rewrite Hl; cbn [length]; lia|done].
    + rewrite Hl', decide_True by done. eapply Nat.lt_le_trans; [|apply Hless]. rewrite Hl. cbn [length]. lia.
Qed.

(** ** The loop *)

Lemma sorted_same_id l d e : sorted_docs l -> d ∈ l -> e ∈ l -> Id d = Id e -> d = e.
Proof.
  intros Hs [i Hi]%list_elem_of_lookup [j Hj]%list_elem_of_lookup E. assert (Hl : forall n y, l !! n = Some y -> (Id <$> l) !! n = Some (Id y)) by (intros n y Hn; by rewrite list_lookup_fmap, Hn).
  destruct (lt_eq_lt_dec i j) as [[Hlt| ->]|Hlt]; [|congruence|].
  - pose proof (StronglySorted_at Z.lt _ Hs _ _ _ _ (Hl _ _ Hi) (Hl _ _ Hj) Hlt). lia.
  - pose proof (StronglySorted_at Z.lt _ Hs _ _ _ _ (Hl _ _ Hj) (Hl _ _ Hi) Hlt). lia.
Qed.

Lemma newest_unique offsets n d e : newest n (left_of offsets) d -> newest n (left_of offsets) e -> Id e = Id d -> e = d.
Proof.
  intros (i & Hi & Hd & Hdl) (j & Hj & He & Hel) E. destruct (lt_eq_lt_dec i j) as [[Hlt| ->]|Hlt].
  - by destruct (Hdl j e ltac:(lia) He).
  - by apply (sorted_same_id (left_of offsets j)); [apply left_sorted|..].
  - by destruct (Hel i d ltac:(lia) Hd).
Qed.

Lemma merge_loop_correct cancelled (target : DocPointerWithScore -> Prop) : (forall i, cancelled i = false) -> forall fuel offsets output,
  length offsets = length input -> (all_left offsets < fuel)%nat -> sorted_docs output -> (forall o i e, o ∈ output -> e ∈ left_of offsets i -> Id o < Id e) ->
  (forall e, e ∈ output \/ (newest (length input) (left_of offsets) e /\ Frequency e <> 0%Qc) <-> target e) ->
  exists out, merge_loop cancelled fuel (Merger input offsets) output = Ok out /\ sorted_docs out /\ forall e, e ∈ out <-> target e.
Proof.
  intros Hc. induction fuel as [|fuel IH]; intros offsets output Hlen Hf Hs Hlow Ht; [lia|]. cbn [merge_loop].
  destruct (find_correct offsets Hlen) as (offsets' & m & -> & Hlen' & Hm). cbn [obind]. destruct m as [d|].
  - destruct Hm as (Hd & Hnew & Hgt & Hless). assert (Hdin : exists i, d ∈ left_of offsets i) by (destruct Hd as (i & _ & Hi & _); by exists i).
    destruct Hdin as [i0 Hdin]. case_bool_decide as Hz.
    + apply IH; [done|lia|done| |].
      * intros o i e Ho He. pose proof (Hlow o i0 d Ho Hdin). specialize (Hgt i e He). lia.
      * intros e. rewrite <- Ht, Hnew. split; [intros [|[[? ?] ?]]; auto|]. intros [|[Hn Hfr]]; [by left|right]. split; [|done]. split; [done|]. intros E.
        by rewrite (newest_unique offsets _ d e Hd Hn E) in Hfr.
    + rewrite Hc, andb_false_r. apply IH; [done|lia| | |].
      * rewrite map_app. apply StronglySorted_app. split_and!; [|done|repeat constructor]. intros a b0 (o & -> & Ho)%list_elem_of_fmap Hb0. apply list_elem_of_singleton in Hb0 as ->. by apply (Hlow o i0 d).
      * intros o i e [Ho|Ho]%elem_of_app He; [pose proof (Hlow o i0 d Ho Hdin); specialize (Hgt i e He); lia|]. apply list_elem_of_singleton in Ho as ->. by apply (Hgt i).
      * intros e. rewrite <- Ht, Hnew, elem_of_app, list_elem_of_singleton. split; [intros [[?| ->]|[[? ?] ?]]; auto|].
        intros [|[Hn Hfr]]; [by left; left|]. destruct (decide (Id e = Id d)) as [E|]; [left; right|by right]. by apply (newest_unique offsets _ d e Hd Hn).
  - exists output. split_and!; [done|done|]. intros e. rewrite <- Ht. split; [by left|]. intros [|[Hn _]]; [done|]. by apply Hm in Hn.
Qed.
End merge.

(** * The merge *)

Lemma start_left segments i : left_of segments (replicate (length segments) 0%nat) i = default [] (segments !! i).
Proof. unfold left_of, offset_of. destruct (decide (i < length segments)%nat); [by rewrite lookup_replicate_2|]. by rewrite (lookup_ge_None_2 (replicate _ _)) by (rewrite length_replicate; lia). Qed.

Lemma sum_indices (segments : list (list DocPointerWithScore)) :
  sum_list (map (fun i => length (default [] (segments !! i))) (seq 0 (length segments))) = sum_list (length <$> segments).
Proof.
  induction segments as [|l segments IH]; [done|]. cbn [length seq map]. rewrite <- seq_shift, map_map. change (sum_list (length <$> (l :: segments))) with (length l + sum_list (length <$> segments))%nat.
  rewrite <- IH. done.
Qed.

(** A document and the newest segment that has it *)
Definition newest_version (segments : list (list DocPointerWithScore)) (d : DocPointerWithScore) : Prop :=
  exists i l, segments !! i = Some l /\ d ∈ l /\ forall j l' e, (i < j)%nat -> segments !! j = Some l' -> e ∈ l' -> Id e <> Id d.

Lemma newest_start segments d : newest (length segments) (left_of segments (replicate (length segments) 0%nat)) d <-> newest_version segments d.
Proof.
  unfold newest, newest_version. setoid_rewrite start_left. split.
  - intros (i & Hi & Hd & Hlast). destruct (lookup_lt_is_Some_2 segments i Hi) as [l Hl]. exists i, l. rewrite Hl in Hd. split_and!; [done|done|]. intros j l' e Hij Hl' He.
    apply (Hlast j); [apply lookup_lt_Some in Hl'; lia|by rewrite Hl'].
  - intros (i & l & Hl & Hd & Hlast). exists i. rewrite Hl. split_and!; [by apply lookup_lt_Some in Hl|done|]. intros j e Hj He. destruct (lookup_lt_is_Some_2 segments j) as [l' Hl']; [lia|].
    rewrite Hl' in He. by apply (Hlast j l'); [lia|..].
Qed.

(** The documents of a word, merged from the segments of a bucket: with sorted segments the merge ends without an error, its result is sorted by
    id, and it has exactly the newest version of every document, from the last segment that has one, unless that is a tombstone. *)
Lemma merger_Do_correct cancelled segments :
  Forall (fun l => sorted_docs l) segments -> (forall i, cancelled i = false) ->
  exists out, merger_Do cancelled segments = Ok out /\ sorted_docs out /\ forall d, d ∈ out <-> newest_version segments d /\ Frequency d <> 0%Qc.
Proof.
  intros Hs Hc. unfold merger_Do, merger_init. apply (merge_loop_correct segments Hs cancelled); [done|by rewrite length_replicate| |constructor| |].
  - unfold all_left. rewrite (map_ext _ _ (fun i => f_equal length (start_left segments i))), sum_indices. lia.
  - intros o i e Ho. by apply not_elem_of_nil in Ho.
  - intros e. rewrite newest_start. split; [intros [He|?]; [by apply not_elem_of_nil in He|done]|by right].
Qed.
