(* ===== verification/PostingList.v ===== *)
(** * The documents of a word in a bucket

    [docPointerWithScoreListFromConsistentView] and [loadAllTombstones] of [adapters/repos/db/lsmkv/bucket.go] and [getCollectionAndSegments] of
    [segment_group.go]: what a bucket of documents by word, of the strategies "map" and "inverted", answers for a word from its segments and memtables.
    Memtables are the trees of MemtableTree.v; reading a segment file is part of the view.  What a word was written to last decides. *)

From Stdlib Require Import QArith Qcanon.
From stdpp Require Import numbers sorting gmap.
From S2P Require Import Prelude SearchTree DiskTree MemtableTree PriorityQueue Bm25Terms PostingMerge.

#[local] Open Scope Z_scope.

Notation MapPair := Map.MapPair (only parsing).
Notation value := Multi.value (only parsing).

(** ** Views *)

(** A segment: its strategy, the values of the word, [None] without it, the lengths of properties by document, and its tombstones *)
Record disk_segment : Type := DiskSegment {
  ds_inverted : bool;
  ds_collection : list Z -> run_t (option (list value));
  ds_propLengths : run_t (Z -> Z);
  ds_tombstones : run_t (option (gset Z))
}.

Record mem_table : Type := MemTable { mt_keyMap : Map.binarySearchTreeMap; mt_inverted : bool; mt_tombstones : gset Z }.

(** [BucketConsistentView], oldest first *)
Record bucket_view : Type := BucketView { vw_disk : list disk_segment; vw_flushing : option mem_table; vw_active : mem_table }.

(** Where the context is asked *)
Variant list_checkpoint : Type := AtSegment (j : nat) | AtList (i : nat) | AtDocument (n : nat).

Definition zero_doc : DocPointerWithScore := MkDoc 0 0 0.

Section read.
Context (Float32frombits : Z -> Qc) (cancelled : list_checkpoint -> bool).

(** The error of [FromKeyVal] is not looked at. *)
Definition FromBytesInverted (d : DocPointerWithScore) (input : list Z) (boost propLen : Qc) : run_t DocPointerWithScore :=
  if (length input <? 8)%nat then Panic
  else
    match FromKeyVal Float32frombits d (take 8 input) (drop 8 input) (length input =? 8)%nat boost with
    | Ok d => Ok (MkDoc (Id d) (Frequency d) propLen)
    | Panic => Panic
    | _ => Ok (MkDoc (Id d) (Frequency d) propLen)
    end.

(** Every segment of strategy "inverted", and of the others those that have the word *)
Fixpoint getCollectionAndSegments (word : list Z) (segments : list disk_segment) (j : nat) : run_t (list (list value * disk_segment)) :=
  match segments with
  | [] => Ok []
  | segment :: segments =>
      if cancelled (AtSegment j) then Err ErrCancelled
      else
        let! v := ds_collection segment word in
        let! rest := getCollectionAndSegments word segments (S j) in
        Ok (match v with
            | Some plist => (plist, segment) :: rest
            | None => if ds_inverted segment then ([], segment) :: rest else rest
            end)
  end.

Fixpoint segment_tombstones (segments : list disk_segment) : run_t (list (option (gset Z))) :=
  match segments with
  | [] => Ok []
  | segment :: segments =>
      let! t := if ds_inverted segment then ds_tombstones segment else Ok None in
      let! rest := segment_tombstones segments in
      Ok (t :: rest)
  end.

Definition ReadOnlyTombstones (m : mem_table) : run_t (option (gset Z)) := if mt_inverted m then Ok (Some (mt_tombstones m)) else Err ErrPostings.

Definition loadAllTombstones (view : bucket_view) : run_t (list (option (gset Z))) :=
  let! disk := segment_tombstones (vw_disk view) in
  if existsb ds_inverted (vw_disk view) then
    let! flushing := match vw_flushing view with Some m => ReadOnlyTombstones m | None => Ok None end in
    let! active := ReadOnlyTombstones (vw_active view) in
    Ok (disk ++ [flushing; active])
  else Ok (disk ++ [None; None]).

Definition tombstoned (later : list (option (gset Z))) (docId : Z) : bool :=
  existsb (fun t => match t with Some tombstones => bool_decide (docId ∈ tombstones) | None => false end) later.

(** A value of a segment; [later] are the tombstones of the layers after it. *)
Definition decode_value (boost : Qc) (inverted : bool) (propLengths : Z -> Z) (later : list (option (gset Z))) (v : value) : run_t DocPointerWithScore :=
  if inverted then
    if (length (Multi.v_value v) <? 8)%nat then Panic
    else
      let docId := be_combine (take 8 (Multi.v_value v)) in
      let! d := FromBytesInverted zero_doc (Multi.v_value v) boost (Qc_of_Z (propLengths docId)) in
      Ok (if tombstoned later docId then MkDoc (Id d) 0 (PropLength d) else d)
  else FromBytes Float32frombits zero_doc (Multi.v_value v) (Multi.v_tombstone v) boost.

Fixpoint decode_segments (boost : Qc) (allTombstones : list (option (gset Z))) (lists : list (list value * disk_segment)) (i : nat) : run_t (list (list DocPointerWithScore)) :=
  match lists with
  | [] => Ok []
  | (plist, segment) :: lists =>
      if cancelled (AtList i) then Err ErrCancelled
      else
        let! propLengths := if ds_inverted segment then ds_propLengths segment else Ok (fun _ => 0) in
        let! docs := Map.sequence (map (decode_value boost (ds_inverted segment) propLengths (drop (S i) allTombstones)) plist) in
        let! rest := decode_segments boost allTombstones lists (S i) in
        Ok (docs :: rest)
  end.

(** [getMap], where a word that is not there has no documents, and the decoding of its pairs *)
Definition memtable_docs (m : mem_table) (word : list Z) (boost : Qc) : run_t (list DocPointerWithScore) :=
  let! pairs :=
    match Map.map_get (mt_keyMap m) word with
    | Ok pairs => Ok pairs
    | Err NotFound => Ok []
    | Err _ => Err ErrPostings
    | Panic => Panic
    | OutOfFuel => OutOfFuel
    end in
  Map.sequence (map (fun p => FromKeyVal Float32frombits zero_doc (Map.Key p) (Map.Value p) (Map.Tombstone p) boost) pairs).

(** [sort_docs] is [sort.Slice] by id. *)
Definition docPointerWithScoreList (sort_docs : list DocPointerWithScore -> list DocPointerWithScore) (legacyRequireManualSorting : bool) (view : bucket_view) (word : list Z) (boost : Qc) :
    run_t (list DocPointerWithScore) :=
  let! lists := getCollectionAndSegments word (vw_disk view) 0 in
  let! allTombstones := loadAllTombstones view in
  let! disk := decode_segments boost allTombstones lists 0 in
  let! flushing := match vw_flushing view with Some m => let! docs := memtable_docs m word boost in Ok [docs] | None => Ok [] end in
  let! active := memtable_docs (vw_active view) word boost in
  let segments := disk ++ flushing ++ [active] in
  let segments := if legacyRequireManualSorting then map sort_docs segments else segments in
  merger_Do (fun n => cancelled (AtDocument n)) segments.
End read.

(** * Correctness *)

Lemma sequence_ok {A B E} (f : A -> outcome E B) (g : A -> B) l : Forall (fun x => f x = Ok (g x)) l -> Map.sequence (map f l) = Ok (map g l).
Proof. induction 1 as [|x l Hx _ IH]; [done|]. cbn [map Map.sequence]. rewrite Hx. cbn [obind]. rewrite IH. done. Qed.

#[local] Existing Instance Map.same_key_dec.

Section correct.
Context (Float32frombits : Z -> Qc) (boost : Qc) (word : list Z).
Implicit Types (s : disk_segment) (v : value) (d e : DocPointerWithScore).

(** ** Segments *)

(** What the fields of a segment are when they can be read *)
Definition plist_of s : list value := match ds_collection s word with Ok (Some plist) => plist | _ => [] end.
Definition lengths_of s : Z -> Z := match ds_propLengths s with Ok f => f | _ => fun _ => 0 end.
Definition tombstones_of s : option (gset Z) := match ds_tombstones s with Ok t => t | _ => None end.

Definition value_id v : Z := be_combine (take 8 (Multi.v_value v)).

(** A readable segment of strategy "inverted": values of 16 bytes, sorted by document *)
Record segment_ok s : Prop := {
  so_inverted : ds_inverted s = true;
  so_collection : exists r, ds_collection s word = Ok r;
  so_lengths : exists f, ds_propLengths s = Ok f;
  so_tombstones : exists t, ds_tombstones s = Ok t;
  so_values : Forall (fun v => length (Multi.v_value v) = 16%nat) (plist_of s);
  so_sorted : StronglySorted Z.lt (map value_id (plist_of s))
}.

(** The document of a value, as it was written *)
Definition disk_doc s v : DocPointerWithScore :=
  MkDoc (value_id v) (Float32frombits (le_combine (take 4 (drop 8 (Multi.v_value v)))) * boost)%Qc (Qc_of_Z (lengths_of s (value_id v))).

Definition disk_version s d : Prop := exists v, v ∈ plist_of s /\ d = disk_doc s v.

(** A document that later tombstones have deleted *)
Definition masked (later : list (option (gset Z))) d : DocPointerWithScore := if tombstoned later (Id d) then MkDoc (Id d) 0 (PropLength d) else d.

Lemma decode_value_ok s later v : segment_ok s -> v ∈ plist_of s -> decode_value Float32frombits boost true (lengths_of s) later v = Ok (masked later (disk_doc s v)).
Proof.
  intros Hs Hv. pose proof (proj1 (Forall_forall _ _) (so_values s Hs) v Hv) as Hlen. cbn beta in Hlen. unfold decode_value, FromBytesInverted, FromKeyVal. rewrite Hlen. change (16 <? 8)%nat with false. cbv iota.
  rewrite length_take, length_drop, Hlen. done.
Qed.

Lemma getCollectionAndSegments_ok cancelled : (forall c, cancelled c = false) -> forall disk j, Forall segment_ok disk -> getCollectionAndSegments cancelled word disk j = Ok (map (fun s => (plist_of s, s)) disk).
Proof.
  intros Hc. induction disk as [|s disk IH]; intros j Hok; [done|]. apply Forall_cons in Hok as [Hs Hok]. cbn [getCollectionAndSegments map]. rewrite Hc. destruct (so_collection s Hs) as [r Hr]. rewrite Hr. cbn [obind].
  rewrite IH by done. cbn [obind]. assert (Ep : plist_of s = default [] r) by (unfold plist_of; rewrite Hr; by destruct r). rewrite Ep. destruct r as [plist|]; [done|]. by rewrite (so_inverted s Hs).
Qed.

Lemma segment_tombstones_ok disk : Forall segment_ok disk -> segment_tombstones disk = Ok (map tombstones_of disk).
Proof.
  induction 1 as [|s disk Hs _ IH]; [done|]. cbn [segment_tombstones map]. rewrite (so_inverted s Hs), IH. destruct (so_tombstones s Hs) as [t Et]. assert (Eo : tombstones_of s = t) by (unfold tombstones_of; by rewrite Et). by rewrite Eo, Et.
Qed.

Lemma decode_segments_ok cancelled all : (forall c, cancelled c = false) -> forall disk i, Forall segment_ok disk ->
  decode_segments Float32frombits cancelled boost all (map (fun s => (plist_of s, s)) disk) i = Ok (imap (fun j s => map (fun v => masked (drop (S (i + j)) all) (disk_doc s v)) (plist_of s)) disk).
Proof.
  intros Hc. induction disk as [|s disk IH]; intros i Hok; [done|]. apply Forall_cons in Hok as [Hs Hok]. cbn [decode_segments map imap]. rewrite Hc, (so_inverted s Hs). destruct (so_lengths s Hs) as [f Hf]. rewrite Hf. cbn [obind].
  assert (Ef : f = lengths_of s) by (unfold lengths_of; by rewrite Hf). rewrite Ef.
  rewrite (sequence_ok _ (fun v => masked (drop (S i) all) (disk_doc s v))) by (apply Forall_forall; intros v Hv; by apply decode_value_ok). cbn [obind]. rewrite IH by done. cbn [obind]. rewrite Nat.add_0_r. do 2 f_equal.
  apply imap_ext. intros j s' _. cbn. by replace (S (i + j)) with (i + S j)%nat by lia.
Qed.

Lemma map_strict {A B} (R : relation A) (f : B -> A) l : StronglySorted R (map f l) <-> StronglySorted (fun x y => R (f x) (f y)) l.
Proof.
  induction l as [|x l IH]; [split; constructor|]. cbn [map]. split; intros H; inversion_clear H as [|? ? H1 H2]; (constructor; [by apply IH|]).
  - exact (proj1 (List.Forall_map _ _ _) H2).
  - exact (proj2 (List.Forall_map _ _ _) H2).
Qed.

Lemma masked_id later d : Id (masked later d) = Id d.
Proof. unfold masked. by destruct (tombstoned later (Id d)). Qed.

Lemma segment_sorted_docs s later : segment_ok s -> sorted_docs (map (fun v => masked later (disk_doc s v)) (plist_of s)).
Proof. intros Hs. rewrite map_map. rewrite (map_ext _ value_id); [apply so_sorted, Hs|]. intros v. by rewrite masked_id. Qed.

(** ** Memtables *)

(** The pair that was written last for a document of the word *)
Definition mem_version (ops : list (list Z * MapPair)) d : Prop :=
  exists mk p, last (filter (Map.same_key mk) (Map.map_writes word ops)) = Some p /\ FromKeyVal Float32frombits zero_doc (Map.Key p) (Map.Value p) (Map.Tombstone p) boost = Ok d.

(** A memtable after some writes; keys of pairs are ids of 8 bytes *)
Record written (ops : list (list Z * MapPair)) (m : mem_table) : Prop := {
  wr_tree : Map.map_insert_all (E := get_error) bst_empty ops = Ok (mt_keyMap m);
  wr_inverted : mt_inverted m = true;
  wr_keys : Forall (fun p : MapPair => length (Map.Key p) = 8%nat /\ Forall is_byte (Map.Key p)) (Map.map_writes word ops)
}.

Lemma pair_decoded p : length (Map.Key p) = 8%nat -> exists d, FromKeyVal Float32frombits zero_doc (Map.Key p) (Map.Value p) (Map.Tombstone p) boost = Ok d /\ Id d = be_combine (Map.Key p).
Proof. intros Hl. unfold FromKeyVal. rewrite Hl. cbn. destruct (Map.Tombstone p || _); by eexists. Qed.

Lemma lookup_key_sorted (l : list MapPair) p : sorted_keys Map.Key l -> p ∈ l -> lookup_key Map.Key (Map.Key p) l = Some p.
Proof.
  intros Hs. induction Hs as [|q l Hs IH Hq]; [by intros ?%not_elem_of_nil|]. intros [->|Hin]%elem_of_cons; unfold lookup_key; cbn [List.find].
  - by rewrite bool_decide_true.
  - pose proof (proj1 (Forall_forall _ _) Hq p Hin) as Hb. cbn beta in Hb. rewrite bool_decide_false; [by apply IH|]. intros E. apply before_ne in Hb. congruence.
Qed.

Lemma pair_lookup_elem (l : list MapPair) k p : lookup_key Map.Key k l = Some p -> p ∈ l /\ Map.Key p = k.
Proof. unfold lookup_key. intros [Hin Hk]%find_some. by apply bool_decide_eq_true in Hk; split; [apply list_elem_of_In|]. Qed.

Lemma memtable_docs_correct ops m : written ops m ->
  exists docs, memtable_docs Float32frombits m word boost = Ok docs /\ sorted_docs docs /\ forall d, d ∈ docs <-> mem_version ops d.
Proof.
  intros [Ht _ Hk]. destruct (Map.map_tree_last_wins ops) as (t & Et & Hget). rewrite Ht in Et. injection Et as <-. specialize (Hget word). unfold memtable_docs, mem_version.
  destruct (Map.map_writes word ops) as [|w ws] eqn:Ew.
  { rewrite Hget. cbn. exists []. split_and!; [done|constructor|]. intros d. split; [by intros ?%not_elem_of_nil|by intros (mk & p & [=] & _)]. }
  destruct Hget as (out & -> & Hs & Hl). cbn [obind]. rewrite <- Ew in Hk |- *. assert (Hout : forall p, p ∈ out -> length (Map.Key p) = 8%nat /\ Forall is_byte (Map.Key p)).
  { intros p Hp. pose proof (lookup_key_sorted out p Hs Hp) as Hlk. rewrite Hl, <- Ew in Hlk. apply last_Some_elem_of, list_elem_of_filter in Hlk as [_ Hin]. exact (proj1 (Forall_forall _ _) Hk p Hin). }
  set (g := fun p : MapPair => match FromKeyVal Float32frombits zero_doc (Map.Key p) (Map.Value p) (Map.Tombstone p) boost with Ok d => d | _ => zero_doc end).
  assert (Hg : forall p, p ∈ out -> FromKeyVal Float32frombits zero_doc (Map.Key p) (Map.Value p) (Map.Tombstone p) boost = Ok (g p) /\ Id (g p) = be_combine (Map.Key p)).
  { intros p Hp. destruct (pair_decoded p (proj1 (Hout p Hp))) as (d & E & Hid). unfold g. by rewrite E. }
  exists (map g out). split_and!.
  - apply sequence_ok, Forall_forall. intros p Hp. by apply Hg.
  - rewrite map_map. apply map_strict. clear Hl Ht. induction Hs as [|p l Hs IH Hp]; constructor.
    + apply IH; intros q Hq; [apply Hout|apply Hg]; by apply list_elem_of_further.
    + apply Forall_forall. intros q Hq. pose proof (proj1 (Forall_forall _ _) Hp q Hq) as Hb. cbn beta in Hb. destruct (Hout p (list_elem_of_here _ _)) as [Lp Bp], (Hout q (list_elem_of_further _ _ _ Hq)) as [Lq Bq].
      rewrite (proj2 (Hg p (list_elem_of_here _ _))), (proj2 (Hg q (list_elem_of_further _ _ _ Hq))). apply (proj1 (Z.compare_lt_iff _ _)). rewrite be_compare by (done || congruence). exact Hb.
  - intros d. split.
    + intros (p & -> & Hp)%list_elem_of_fmap. exists (Map.Key p), p. rewrite Ew, <- Hl. split; [by apply lookup_key_sorted|by apply Hg].
    + intros (mk & p & Hp & Ed). rewrite Ew, <- Hl in Hp. apply pair_lookup_elem in Hp as [Hin _]. apply list_elem_of_fmap. exists p. split; [|done]. rewrite (proj1 (Hg p Hin)) in Ed. congruence.
Qed.

(** ** Layers *)

(** The tombstones of all layers, in the positions of the code *)
Definition all_tombstones (view : bucket_view) : list (option (gset Z)) :=
  map tombstones_of (vw_disk view) ++ [match vw_flushing view with Some m => Some (mt_tombstones m) | None => None end; Some (mt_tombstones (vw_active view))].

(** The versions of documents that each layer has, oldest first *)
Definition layers (view : bucket_view) (flushed active : list (list Z * MapPair)) : list (DocPointerWithScore -> Prop) :=
  map disk_version (vw_disk view) ++ match vw_flushing view with Some _ => [mem_version flushed] | None => [] end ++ [mem_version active].

(** The last layer that has a document decides; a version of a segment is gone when a later layer has a tombstone for the document. *)
Definition current (view : bucket_view) (flushed active : list (list Z * MapPair)) d : Prop :=
  exists i P, layers view flushed active !! i = Some P /\ P d /\ (forall j Q e, (i < j)%nat -> layers view flushed active !! j = Some Q -> Q e -> Id e <> Id d) /\
    ((i < length (vw_disk view))%nat -> forall j t, (i < j)%nat -> all_tombstones view !! j = Some (Some t) -> Id d ∉ t).

Lemma tombstoned_false all i id : tombstoned (drop (S i) all) id = false <-> forall j t, (i < j)%nat -> all !! j = Some (Some t) -> id ∉ t.
Proof.
  unfold tombstoned. rewrite <- not_true_iff_false, existsb_exists. split.
  - intros Hn j t Hij Hj Hin. apply Hn. exists (Some t). split; [|by apply bool_decide_eq_true]. apply list_elem_of_In, list_elem_of_lookup. exists (j - S i)%nat. rewrite lookup_drop. by replace (S i + (j - S i))%nat with j by lia.
  - intros Hall ([t|] & Hin & Ht); [|done]. apply bool_decide_eq_true in Ht. apply list_elem_of_In, list_elem_of_lookup in Hin as [j Hj]. rewrite lookup_drop in Hj. by apply (Hall (S i + j)%nat t); [lia|..].
Qed.

(** Lists that hold what the layers have, up to deleted versions, have the current documents as their newest versions. *)
Lemma newest_current view flushed active segments :
  length segments = length (layers view flushed active) ->
  (forall i l P, segments !! i = Some l -> layers view flushed active !! i = Some P ->
    forall e, e ∈ l <-> exists e0, P e0 /\ e = if (i <? length (vw_disk view))%nat then masked (drop (S i) (all_tombstones view)) e0 else e0) ->
  forall d, newest_version segments d /\ Frequency d <> 0%Qc <-> current view flushed active d /\ Frequency d <> 0%Qc.
Proof.
  intros Hlen Hlayers. assert (Hlayer : forall i l, segments !! i = Some l -> exists P, layers view flushed active !! i = Some P /\
    forall e, e ∈ l <-> exists e0, P e0 /\ e = if (i <? length (vw_disk view))%nat then masked (drop (S i) (all_tombstones view)) e0 else e0).
  { intros i l Hl. destruct (lookup_lt_is_Some_2 (layers view flushed active) i) as [P HP]; [rewrite <- Hlen; by eapply lookup_lt_Some|]. exists P. split; [done|]. by apply Hlayers. }
  assert (Hseg : forall i P, layers view flushed active !! i = Some P -> exists l, segments !! i = Some l).
  { intros i P HP. apply lookup_lt_is_Some_2. rewrite Hlen. by eapply lookup_lt_Some. }
  assert (Hid : forall i e0, Id (if (i <? length (vw_disk view))%nat then masked (drop (S i) (all_tombstones view)) e0 else e0) = Id e0).
  { intros i e0. destruct (i <? _)%nat; [apply masked_id|done]. }
  intros d. split; intros [Hd Hf]; (split; [|done]).
  - destruct Hd as (i & l & Hl & Hin & Hlast). destruct (Hlayer i l Hl) as (P & HP & Hspec). apply Hspec in Hin as (e0 & He0 & ->).
    assert (Halive : (i < length (vw_disk view))%nat -> tombstoned (drop (S i) (all_tombstones view)) (Id e0) = false).
    { intros Hi. rewrite (proj2 (Nat.ltb_lt _ _) Hi) in Hf. unfold masked in Hf. by destruct (tombstoned _ _). }
    assert (Ee : (if (i <? length (vw_disk view))%nat then masked (drop (S i) (all_tombstones view)) e0 else e0) = e0).
    { destruct (Nat.ltb_spec i (length (vw_disk view))) as [Hi|]; [|done]. unfold masked. by rewrite (Halive Hi). }
    rewrite Ee in Hlast |- *. exists i, P. split_and!; [done|done| |intros Hi; by apply tombstoned_false, Halive].
    intros j Q e Hij HQ He. destruct (Hseg j Q HQ) as [l' Hl']. destruct (Hlayer j l' Hl') as (Q' & HQ' & Hspec'). assert (EQ : Q' = Q) by congruence. rewrite EQ in Hspec'. rewrite <- (Hid j e). apply (Hlast j l'); [done|done|]. apply Hspec'. by exists e.
  - destruct Hd as (i & P & HP & HPd & Hlast & Halive). destruct (Hseg i P HP) as [l Hl]. destruct (Hlayer i l Hl) as (P' & HP' & Hspec). assert (EP : P' = P) by congruence. rewrite EP in Hspec. exists i, l. split_and!; [done| |].
    + apply Hspec. exists d. split; [done|]. destruct (Nat.ltb_spec i (length (vw_disk view))) as [Hi|]; [|done]. unfold masked. by rewrite (proj2 (tombstoned_false _ _ _) (Halive Hi)).
    + intros j l' e Hij Hl' He. destruct (Hlayer j l' Hl') as (Q & HQ & Hspec'). destruct (proj1 (Hspec' e) He) as (e0 & He0 & Ee). rewrite Ee, Hid. by apply (Hlast j Q).
Qed.
End correct.

(** * Claim *)

Lemma loadAllTombstones_ok word view flushed active : Forall (segment_ok word) (vw_disk view) -> written word active (vw_active view) -> (forall m, vw_flushing view = Some m -> written word flushed m) ->
  vw_disk view <> [] -> loadAllTombstones view = Ok (all_tombstones view).
Proof.
  intros Hd Ha Hfl Hne. unfold loadAllTombstones, all_tombstones, ReadOnlyTombstones. rewrite (segment_tombstones_ok word) by done. cbn [obind].
  destruct (vw_disk view) as [|s disk]; [done|]. apply Forall_inv in Hd. cbn [existsb]. rewrite (so_inverted word s Hd). cbn [orb]. rewrite (wr_inverted word active _ Ha).
  destruct (vw_flushing view) as [m|]; [rewrite (wr_inverted word flushed m (Hfl m eq_refl))|]; done.
Qed.

(** C9: a bucket of strategy "inverted" answers for a word with the documents that currently have it: the read ends without an error, its result is sorted by id, and it
    has exactly the versions with a frequency of the last layer (segments, then the memtable being flushed, then the active one) that has
    the document for the word, where a version of a segment only counts if no later layer has a tombstone for the document. *)
Theorem word_documents Float32frombits cancelled sort_docs view flushed active word boost :
  (forall c, cancelled c = false) -> Forall (segment_ok word) (vw_disk view) -> written word active (vw_active view) -> (forall m, vw_flushing view = Some m -> written word flushed m) ->
  exists out, docPointerWithScoreList Float32frombits cancelled sort_docs false view word boost = Ok out /\ sorted_docs out /\
    forall d, d ∈ out <-> current Float32frombits boost word view flushed active d /\ Frequency d <> 0%Qc.
Proof.
  intros Hc Hd Ha Hfl. unfold docPointerWithScoreList. rewrite (getCollectionAndSegments_ok word cancelled Hc) by done. cbn [obind].
  set (disk := imap (fun j s => map (fun v => masked (drop (S j) (all_tombstones view)) (disk_doc Float32frombits boost s v)) (plist_of word s)) (vw_disk view)).
  assert (exists all, loadAllTombstones view = Ok all /\ decode_segments Float32frombits cancelled boost all (map (fun s => (plist_of word s, s)) (vw_disk view)) 0 = Ok disk) as (all & -> & Edisk).
  { destruct (decide (vw_disk view = [])) as [E|Hne]; [|exists (all_tombstones view); by rewrite (loadAllTombstones_ok word view flushed active), decode_segments_ok].
    unfold disk. rewrite E. eexists. split; [|done]. unfold loadAllTombstones. by rewrite E. }
  cbn [obind]. rewrite Edisk. cbn [obind]. destruct (memtable_docs_correct Float32frombits boost word active (vw_active view) Ha) as (adocs & Eactive & Hasorted & Hadocs).
  assert (exists fl, match vw_flushing view with Some m => let! docs := memtable_docs Float32frombits m word boost in Ok [docs] | None => Ok [] end = (Ok fl : run_t (list (list DocPointerWithScore))) /\ Forall (fun l => sorted_docs l) fl /\
    Forall2 (fun l (P : DocPointerWithScore -> Prop) => forall e, e ∈ l <-> P e) fl match vw_flushing view with Some _ => [mem_version Float32frombits boost word flushed] | None => [] end) as (fl & -> & Hflsorted & Hfldocs).
  { destruct (vw_flushing view) as [m|]; [|by exists []]. destruct (memtable_docs_correct Float32frombits boost word flushed m (Hfl m eq_refl)) as (docs & -> & Hs & Hdocs). exists [docs]. split_and!; [done|by apply Forall_singleton|by apply Forall2_cons]. }
  cbn [obind]. rewrite Eactive. cbn [obind]. destruct (merger_Do_correct (fun n => cancelled (AtDocument n)) (disk ++ fl ++ [adocs])) as (out & -> & Hout & Hspec); [|done|].
  { apply Forall_app. split; [|apply Forall_app; split; [done|by apply Forall_singleton]]. apply Forall_forall. intros l (j & s & -> & Hs)%elem_of_lookup_imap. apply segment_sorted_docs. by eapply Forall_lookup_1. }
  exists out. split_and!; [done|done|]. intros d. rewrite Hspec. assert (HF : Forall2 (fun l (P : DocPointerWithScore -> Prop) => forall e, e ∈ l <-> P e) (fl ++ [adocs]) (match vw_flushing view with Some _ => [mem_version Float32frombits boost word flushed] | None => [] end ++ [mem_version Float32frombits boost word active])).
  { apply Forall2_app; [done|by apply Forall2_cons]. }
  assert (Hn : length disk = length (vw_disk view)) by apply length_imap. apply newest_current; unfold layers.
  - rewrite (length_app disk), Hn, (Forall2_length _ _ _ HF), (length_app (map _ _)), length_map. done.
  - intros i l P Hl HP e. destruct (Nat.ltb_spec i (length (vw_disk view))) as [Hi|Hi].
    + rewrite lookup_app_l in Hl by lia. rewrite lookup_app_l in HP by by rewrite length_map. unfold disk in Hl. rewrite list_lookup_imap in Hl. rewrite list_lookup_fmap in HP.
      destruct (vw_disk view !! i) as [s|]; [|done]. cbn in Hl, HP. injection Hl as <-. injection HP as <-. rewrite list_elem_of_fmap. unfold disk_version. naive_solver.
    + rewrite lookup_app_r, Hn in Hl by lia. rewrite lookup_app_r, length_map in HP by by rewrite length_map. pose proof (Forall2_lookup_lr _ _ _ _ _ _ HF Hl HP e) as He. cbn beta in He. naive_solver.
Qed.

(** A segment with the documents 1 and 2; then 2 was deleted and 3 written. *)
Definition toy_value (id frequency : Z) : value := Multi.Val (be_split 8 id ++ le_split 4 frequency ++ le_split 4 0) false.
Definition toy_segment : disk_segment := DiskSegment true (fun _ => Ok (Some [toy_value 1 4; toy_value 2 5])) (Ok (fun _ => 7)) (Ok None).
Definition toy_writes : list (list Z * MapPair) :=
  [([119], Map.Pair (be_split 8 2) [] true); ([119], Map.Pair (be_split 8 3) (le_split 4 6 ++ le_split 4 8) false)].
Definition toy_view : bucket_view :=
  BucketView [toy_segment] None (MemTable (match Map.map_insert_all (E := get_error) bst_empty toy_writes with Ok t => t | _ => bst_empty end) true {[2]}).

Lemma word_documents_witness :
  docPointerWithScoreList Qc_of_Z (fun _ => false) id false toy_view [119] 1%Qc = Ok [MkDoc 1 (Qc_of_Z 4 * 1)%Qc (Qc_of_Z 7); MkDoc 3 (Qc_of_Z 6 * 1)%Qc (Qc_of_Z 8)] /\
  current Qc_of_Z 1%Qc [119] toy_view [] toy_writes (MkDoc 1 (Qc_of_Z 4 * 1)%Qc (Qc_of_Z 7)).
Proof.
  assert (E2 : docPointerWithScoreList Qc_of_Z (fun _ => false) id false toy_view [119] 1%Qc = Ok [MkDoc 1 (Qc_of_Z 4 * 1)%Qc (Qc_of_Z 7); MkDoc 3 (Qc_of_Z 6 * 1)%Qc (Qc_of_Z 8)]) by (vm_compute; reflexivity).
  split; [exact E2|]. destruct (word_documents Qc_of_Z (fun _ => false) id toy_view [] toy_writes [119] 1%Qc) as (out & E & _ & Hspec).
  - reflexivity.
  - apply Forall_cons. split; [|apply Forall_nil; exact I]. split.
    + reflexivity.
    + eexists. reflexivity.
    + eexists. reflexivity.
    + eexists. reflexivity.
    + apply (bool_decide_unpack _). vm_compute. exact I.
    + apply (bool_decide_unpack _). vm_compute. exact I.
  - split; [vm_compute; reflexivity|reflexivity|]. assert (Hb : forall n, length (be_split 8 n) = 8%nat /\ Forall is_byte (be_split 8 n)) by (intros n; split; [apply length_be_split|apply be_split_bytes]).
    change (Map.map_writes [119] toy_writes) with [Map.Pair (be_split 8 2) [] true; Map.Pair (be_split 8 3) (le_split 4 6 ++ le_split 4 8) false].
    apply Forall_cons. split; [apply Hb|]. apply Forall_cons. split; [apply Hb|]. apply Forall_nil. exact I.
  - discriminate.
  - rewrite E in E2. injection E2 as ->. apply (proj1 (Hspec (MkDoc 1 (Qc_of_Z 4 * 1)%Qc (Qc_of_Z 7)))). apply list_elem_of_here.
Defined.
