(* ===== verification/TopK.v ===== *)
(** * The best results of a search

    What the searches of Wand.v, BlockMaxAnd.v and BlockMaxWand.v keep in the queue of PriorityQueue.v: of the candidates below some document the best ones, by score and
    then by id.  The candidates and their scores are arguments. *)

From Stdlib Require Import QArith Qcanon.
From stdpp Require Import strings numbers sorting.
From S2P Require Import Prelude PriorityQueue Bm25Terms.

#[local] Open Scope Z_scope.

Notation heap_item := (Item Qc (list (option DocPointerWithScore))) (only parsing).
Notation heap_of := (Queue Qc (list (option DocPointerWithScore))) (only parsing).

(** The operations of a queue return no error. *)
Definition of_queue {A} (m : outcome Empty_set A) : outcome terms_error A := omap_err (fun e : Empty_set => match e with end) m.

Definition start_worst : Qc := Qc_of_Z (-10000).

(** [for topKHeap.Len() > 0 { topKHeap.Pop() }] *)
Definition popped (topKHeap : heap_of) : outcome terms_error (list heap_item) := of_queue (drain (S (length (items topKHeap))) topKHeap).

(** * Correctness *)

Lemma StronglySorted_rev {A} (R : relation A) l : StronglySorted R l -> StronglySorted (flip R) (rev l).
Proof.
  induction 1 as [|x l _ IH Hx]; cbn [rev]; [constructor|]. apply StronglySorted_app_2; [|done|by repeat constructor].
  intros a b Ha ->%list_elem_of_singleton. apply list_elem_of_In, in_rev, list_elem_of_In in Ha. exact (proj1 (Forall_forall _ _) Hx a Ha).
Qed.

Lemma no_less_id (x y : heap_item) : no_less (less NewMinWithId) x y -> (Dist x < Dist y)%Qc \/ (Dist x = Dist y /\ ID y <= ID x).
Proof.
  unfold no_less. intros E. apply not_true_iff_false in E. rewrite less_min_id_spec in E. cbn in E. destruct (decide (Dist x < Dist y)%Qc) as [Hlt|Hge]; [by left|right].
  destruct (decide (Dist y < Dist x)%Qc) as [Hgt|Hle]; [exfalso; apply E; left; by rewrite bool_decide_true|]. split.
  - apply Qcle_antisym; by apply Qcle_ngt.
  - apply Z.nlt_ge. intros Hid. apply E. right. by rewrite !bool_decide_false.
Qed.

Lemma no_less_dist (x y : heap_item) : no_less (less NewMinWithId) x y -> (Dist x ≤ Dist y)%Qc.
Proof. intros [H|[-> _]]%no_less_id; [by apply Qclt_le_weak|apply Qcle_refl]. Qed.

Section top_k.
Context (limit : Z) (cand : Z -> Prop) (score : Z -> Qc).

(** An item that is better than a document: of a larger score, or of the same score and a smaller id *)
Definition beats (x : heap_item) (d : Z) : Prop := (score d < Dist x)%Qc \/ (score d = Dist x /\ ID x < d).

(** The queue holds the best candidates below [f]. *)
Record top_k (f : Z) (q : heap_of) (worst : Qc) : Prop := {
  tk_ok : queue_ok q;
  tk_less : less q = less NewMinWithId;
  tk_length : Len q <= limit;
  tk_items x : x ∈ items q -> cand (ID x) /\ ID x < f /\ Dist x = score (ID x);
  tk_ids : NoDup (map ID (items q));
  tk_done d : cand d -> d < f -> d ∈ map ID (items q) \/ (Len q = limit /\ forall x, x ∈ items q -> beats x d);
  tk_worst : if limit <=? Len q then exists top, top ∈ items q /\ Forall (no_less (less NewMinWithId) top) (items q) /\ worst = Dist top else worst = start_worst
}.

Lemma top_k_skip f g q worst : top_k f q worst -> f <= g ->
  (forall d, cand d -> f <= d < g -> Len q = limit /\ forall x, x ∈ items q -> beats x d) -> top_k g q worst.
Proof.
  intros [H1 H2 H3 H4 H5 H6 H7] Hfg Hskip. split; [done..| |done| |done].
  - intros x Hx. destruct (H4 x Hx) as (? & ? & ?). split_and!; [done|lia|done].
  - intros d Hc Hd. destruct (Z.lt_ge_cases d f) as [Hlt|Hge]; [by apply H6|]. right. apply Hskip; [done|lia].
Qed.

(** A score below the worst that is kept *)
Lemma top_k_low f q worst d : top_k f q worst -> (0 ≤ score d)%Qc -> (score d < worst)%Qc -> Len q = limit /\ forall x, x ∈ items q -> beats x d.
Proof.
  intros Hk H0 Hlow. pose proof (tk_worst f q worst Hk) as Hw. pose proof (tk_length f q worst Hk) as Hl. destruct (Z.leb_spec limit (Len q)) as [Hfull|_].
  - split; [lia|]. destruct Hw as (top & _ & Hmin & ->). intros x Hx. left. eapply Qclt_le_trans; [exact Hlow|]. apply no_less_dist. exact (proj1 (Forall_forall _ _) Hmin x Hx).
  - exfalso. subst worst. apply (Qclt_not_le _ _ Hlow). apply (Qcle_trans _ 0%Qc); [|done]. by apply (bool_decide_unpack _).
Qed.

(** Of two items that have different ids and scores of their own *)
Lemma dropped_beaten (d x : heap_item) : no_less (less NewMinWithId) d x -> Dist d = score (ID d) -> ID d <> ID x -> beats x (ID d).
Proof. intros [H|[H Hid]]%no_less_id Hd Hne; unfold beats; rewrite <- Hd; [by left|right]. split; [done|lia]. Qed.

Lemma top_k_insert id q worst v : 1 <= limit -> top_k id q worst -> cand id -> (Len q < limit \/ exists top, top ∈ items q /\ (Dist top < score id)%Qc) ->
  exists q' worst', InsertAndPop q id (score id) limit worst v = Ok (q', worst') /\ top_k (id + 1) q' worst'.
Proof.
  intros Hl Hk Hc Hroom. destruct (InsertAndPop_correct q id (score id) limit worst v (tk_ok _ _ _ Hk) Hl) as (q' & worst' & dropped & E & Hless & Hq' & Hperm & Hn & Hd & Hw).
  exists q', worst'. split; [done|]. rewrite (tk_less _ _ _ Hk) in Hd, Hw, Hless. set (new := MkItem id (score id) false v) in *.
  assert (Hall : forall x, x ∈ dropped ++ items q' -> cand (ID x) /\ ID x < id + 1 /\ Dist x = score (ID x)).
  { intros x Hx. rewrite <- Hperm in Hx. apply elem_of_cons in Hx as [->|Hx]; [split_and!; [done|cbn; lia|done]|]. destruct (tk_items _ _ _ Hk x Hx) as (? & ? & ?). split_and!; [done|lia|done]. }
  assert (Hnd : NoDup (map ID (dropped ++ items q'))).
  { rewrite <- Hperm. cbn [map]. apply NoDup_cons. split; [|apply Hk]. intros (x & Hid & Hx)%list_elem_of_fmap. destruct (tk_items _ _ _ Hk x Hx) as (_ & ? & _). cbn in Hid. lia. }
  assert (Hmem : forall d x, x ∈ dropped -> ID x = d -> d ∈ map ID (items q') \/ (Len q' = limit /\ forall y, y ∈ items q' -> beats y d)).
  { intros d x Hx <-. right. split.
    - pose proof (Permutation_length Hperm) as Hlen. rewrite length_app in Hlen. cbn [length] in Hlen. unfold Len in *. destruct dropped; [by apply not_elem_of_nil in Hx|]. cbn [length] in Hlen. lia.
    - intros y Hy. apply dropped_beaten; [by apply Hd|apply Hall; set_solver|]. rewrite map_app in Hnd. apply NoDup_app in Hnd as (_ & Hdis & _). intros Hid. apply (Hdis (ID x)).
      + by apply list_elem_of_fmap_2.
      + rewrite Hid. by apply list_elem_of_fmap_2. }
  assert (Hin : forall d, d ∈ map ID (new :: items q) -> d ∈ map ID (items q') \/ (Len q' = limit /\ forall y, y ∈ items q' -> beats y d)).
  { intros d (x & -> & Hx)%list_elem_of_fmap. rewrite Hperm in Hx. apply elem_of_app in Hx as [Hx|Hx]; [by apply (Hmem _ x)|left]. by apply list_elem_of_fmap_2. }
  split; [done|done|lia| | | |].
  - intros x Hx. apply Hall. set_solver.
  - rewrite map_app in Hnd. by apply NoDup_app in Hnd as (_ & _ & ?).
  - intros d Hcd Hlt. destruct (decide (d = id)) as [->|Hne]; [apply Hin; cbn [map]; set_solver|].
    destruct (tk_done _ _ _ Hk d Hcd ltac:(lia)) as [Hold|[Hfull Hbeat]]; [apply Hin; cbn [map]; set_solver|]. right. split; [unfold Len in *; lia|]. intros x Hx.
    assert (Hx' : x ∈ new :: items q) by (rewrite Hperm; set_solver). apply elem_of_cons in Hx' as [->|Hx']; [|by apply Hbeat]. left. cbn [Dist new].
    destruct Hroom as [?|(top & Htop & Hlt2)]; [lia|]. destruct (Hbeat top Htop) as [H|[H _]]; [by eapply Qclt_trans|by rewrite H].
  - destruct (limit <=? Len q') eqn:Ef; [done|]. rewrite Hw. pose proof (tk_worst _ _ _ Hk) as Hw0. apply Z.leb_gt in Ef. rewrite (proj2 (Z.leb_gt _ _)) in Hw0; [done|]. unfold Len in *. lia.
Qed.

(** Documents from [f] on whose score is not above the worst that is kept *)
Lemma top_k_bounded f q worst top d : top_k f q worst -> limit <= Len q -> Forall (no_less (less NewMinWithId) top) (items q) -> f <= d -> ~ (Dist top < score d)%Qc ->
  Len q = limit /\ forall x, x ∈ items q -> beats x d.
Proof.
  intros Hk Hfull Hmin Hfd Hle. pose proof (tk_length _ _ _ Hk). split; [lia|]. intros x Hx. apply Qcle_ngt in Hle. pose proof (no_less_dist _ _ (proj1 (Forall_forall _ _) Hmin x Hx)) as Hx'. destruct (tk_items _ _ _ Hk x Hx) as (_ & Hid & _).
  destruct (decide (score d < Dist x)%Qc) as [|Hn]; [by left|right]. apply Qcle_ngt in Hn. split; [|lia]. apply Qcle_antisym; [by eapply Qcle_trans|done].
Qed.

(** A document that is not better than the worst *)
Lemma top_k_refuse id q worst top : top_k id q worst -> limit <= Len q -> Forall (no_less (less NewMinWithId) top) (items q) -> ~ (Dist top < score id)%Qc -> top_k (id + 1) q worst.
Proof. intros Hk Hfull Hmin Hle. apply (top_k_skip id); [done|lia|]. intros d _ Hd. assert (d = id) as -> by lia. by apply (top_k_bounded id q worst top). Qed.

(** Whether a score is worth keeping *)
Lemma ShouldEnqueue_top_k f q worst s : 1 <= limit -> top_k f q worst ->
  exists should, of_queue (ShouldEnqueue q s limit) = Ok should /\ (should = true -> Len q < limit \/ exists top, top ∈ items q /\ (Dist top < s)%Qc) /\
    (should = false -> limit <= Len q /\ exists top, Forall (no_less (less NewMinWithId) top) (items q) /\ ~ (Dist top < s)%Qc).
Proof.
  intros Hl Hk. unfold ShouldEnqueue. destruct (Z.ltb_spec (Len q) limit) as [Hlt|Hge]; [exists true; split_and!; [done|by left|done]|].
  destruct (Top_correct q (tk_ok _ _ _ Hk)) as (top & -> & Hin & Hall); [intros E; unfold Len in Hge; rewrite E in Hge; cbn in Hge; lia|]. rewrite (tk_less _ _ _ Hk) in Hall. cbn.
  eexists. split; [done|]. split; [intros Hd%bool_decide_eq_true; right; by exists top|intros Hd%bool_decide_eq_false; split; [done|by exists top]].
Qed.

Lemma empty_top_k : 1 <= limit -> (forall d, cand d -> 0 <= d) -> top_k 0 NewMinWithId start_worst.
Proof.
  intros Hl Hc. split; cbn [items NewMinWithId map].
  - apply new_queue_ok. right. by left.
  - done.
  - unfold Len. cbn. lia.
  - intros x Hx. by apply not_elem_of_nil in Hx.
  - constructor.
  - intros d Hd Hlt. specialize (Hc d Hd). lia.
  - unfold Len. cbn [items NewMinWithId length Z.of_nat]. by rewrite (proj2 (Z.leb_gt _ _)) by lia.
Qed.

Lemma insert_length id q worst v f q' worst' : 1 <= limit -> top_k f q worst -> InsertAndPop q id (score id) limit worst v = Ok (q', worst') -> Len q' = Z.min (Len q + 1) limit.
Proof. intros Hl Hk E. destruct (InsertAndPop_correct q id (score id) limit worst v (tk_ok _ _ _ Hk) Hl) as (q2 & w2 & dropped & E2 & _ & _ & _ & Hn & _). rewrite E in E2. injection E2 as <- <-. exact Hn. Qed.

(** The order of documents, the worse first *)
Definition worse (a b : Z) : Prop := (score a < score b)%Qc \/ (score a = score b /\ b < a).

Lemma sorted_ids (out : list heap_item) : StronglySorted (no_less (less NewMinWithId)) out -> NoDup (map ID out) -> Forall (fun x => Dist x = score (ID x)) out -> StronglySorted worse (map ID out).
Proof.
  induction 1 as [|x out _ IH Hx]; cbn [map]; intros Hnd Hd; [constructor|]. apply NoDup_cons in Hnd as [Hn Hnd]. apply Forall_cons in Hd as [Hdx Hd].
  constructor; [by apply IH|]. apply Forall_fmap, Forall_forall. intros y Hy. cbn. pose proof (proj1 (Forall_forall _ _) Hd y Hy) as Hdy. cbn in Hdy. unfold worse. rewrite <- Hdx, <- Hdy.
  destruct (no_less_id x y (proj1 (Forall_forall _ _) Hx y Hy)) as [?|[? Hid]]; [by left|right]. split; [done|]. assert (ID x <> ID y); [|lia].
  intros E. apply Hn. rewrite E. by apply list_elem_of_fmap_2.
Qed.

Lemma worse_NoDup l : StronglySorted worse l -> NoDup l.
Proof.
  induction 1 as [|x l _ IH Hx]; constructor; [|done]. intros Hin. destruct (proj1 (Forall_forall _ _) Hx x Hin) as [H|[_ H]]; [by apply (irreflexivity Qclt) in H|lia].
Qed.

(** What a search has to find: of the candidates the best ones, each with its score, the worst first *)
Record best_results (out : list heap_item) : Prop := {
  br_scores : map Dist out = map score (map ID out);
  br_wanted : Forall cand (map ID out);
  br_length : Z.of_nat (length (map ID out)) <= limit;
  br_sorted : StronglySorted worse (map ID out);
  br_left_out d : cand d -> d ∉ map ID out -> Z.of_nat (length (map ID out)) = limit /\ Forall (worse d) (map ID out)
}.

(** A queue that has the best of all candidates gives them back in order. *)
Lemma top_k_popped f q worst : top_k f q worst -> (forall d, cand d -> d < f) -> exists out, popped q = Ok out /\ best_results out.
Proof.
  intros Hk Hf. destruct (drain_correct (S (length (items q))) q (tk_ok _ _ _ Hk) ltac:(lia)) as (out & Ed & Hperm & Hsorted). rewrite (tk_less _ _ _ Hk) in Hsorted.
  exists out. split; [unfold popped; by rewrite Ed|]. assert (Hlen : Len q = Z.of_nat (length (map ID out))) by (unfold Len; by rewrite length_map, Hperm).
  assert (Hitems : Forall (fun x => cand (ID x) /\ Dist x = score (ID x)) out).
  { rewrite Hperm. apply Forall_forall. intros x Hx. by destruct (tk_items _ _ _ Hk x Hx) as (? & _ & ?). }
  assert (Hnd : NoDup (map ID out)) by (rewrite Hperm; apply Hk). split.
  - rewrite map_map. apply map_ext_in. intros x Hx%list_elem_of_In. by destruct (proj1 (Forall_forall _ _) Hitems x Hx).
  - apply Forall_fmap. eapply Forall_impl; [exact Hitems|]. by intros x [? _].
  - rewrite <- Hlen. apply Hk.
  - apply sorted_ids; [done|done|]. eapply Forall_impl; [exact Hitems|]. by intros x [_ ?].
  - intros d Hd Hn. rewrite <- Hlen. destruct (tk_done _ _ _ Hk d Hd (Hf d Hd)) as [Hin|[Hfull Hb]]; [by rewrite <- Hperm in Hin|].
    split; [done|]. apply Forall_fmap. rewrite Hperm. apply Forall_forall. intros x Hx. cbn. unfold worse. destruct (tk_items _ _ _ Hk x Hx) as (_ & _ & Hdx). rewrite <- Hdx. exact (Hb x Hx).
Qed.
End top_k.

(** Fewer candidates, among them all that are kept *)
Lemma top_k_restrict limit (cand cand' : Z -> Prop) score f q worst : top_k limit cand score f q worst -> (forall d, cand' d -> cand d) -> (forall x, x ∈ items q -> cand' (ID x)) -> top_k limit cand' score f q worst.
Proof.
  intros [H1 H2 H3 H4 H5 H6 H7] Hsub Hitems. split; [done..| |done| |done].
  - intros x Hx. destruct (H4 x Hx) as (_ & ? & ?). split_and!; [by apply Hitems|done|done].
  - intros d Hd. apply H6. by apply Hsub.
Qed.

(** ** Searches that leave out documents by bounds that may be off *)

Section near.
Context (limit : Z) (cand : Z -> Prop) (score : Z -> Qc) (errors : Qc -> Prop).
Implicit Types (q : heap_of) (out : list heap_item).

(** [worse] up to an error [e] in the score of [a] *)
Definition near_worse (e : Qc) (a b : Z) : Prop := (score a < score b + e)%Qc \/ (score a = score b + e)%Qc /\ b < a.

Lemma near_worse_0 a b : near_worse 0 a b <-> worse score a b.
Proof. unfold near_worse, worse. by rewrite Qcplus_0_r. Qed.

(** Candidates of which one is left out only when [limit] others are found; it is then worse than each of these up to any of the errors. *)
Record near_best out : Prop := {
  nb_scores : map Dist out = map score (map ID out);
  nb_wanted : Forall cand (map ID out);
  nb_length : Z.of_nat (length (map ID out)) <= limit;
  nb_sorted : StronglySorted (worse score) (map ID out);
  nb_left_out d : cand d -> d ∉ map ID out -> Z.of_nat (length (map ID out)) = limit /\ forall e, errors e -> Forall (near_worse e d) (map ID out)
}.

Lemma near_best_exact out : errors 0 -> near_best out -> best_results limit cand score out.
Proof.
  intros H0 [H1 H2 H3 H4 H5]. split; [done..|]. intros d Hd Hn. destruct (H5 d Hd Hn) as [Hl Hall]. split; [done|]. eapply Forall_impl; [exact (Hall 0%Qc H0)|]. intros b. apply near_worse_0.
Qed.

(** The queue holds the best candidates below [f] but for those that were passed over. *)
Definition kept (f : Z) q (worst : Qc) : Prop :=
  exists passed : Z -> bool, top_k limit (fun d => cand d /\ passed d = false) score f q worst /\
    forall d, passed d = true -> d < f /\ limit <= Len q /\ (cand d -> forall e x, errors e -> x ∈ items q -> near_worse e d (ID x)).

Lemma kept_start : 1 <= limit -> (forall d, cand d -> 0 <= d) -> kept 0 NewMinWithId start_worst.
Proof. intros Hl H0. exists (fun _ => false). split; [|done]. apply empty_top_k; [done|]. intros d [Hd _]. by apply H0. Qed.

Lemma kept_later f g q worst : kept f q worst -> f <= g -> (forall d, cand d -> f <= d < g -> False) -> kept g q worst.
Proof.
  intros (passed & Hk & Hp) Hfg Hno. exists passed. split; [|intros d Hd; destruct (Hp d Hd) as (? & ? & ?); split_and!; [lia|done|done]].
  apply (top_k_skip _ _ _ f); [done|done|]. intros d [Hc _] Hd. by destruct (Hno d Hc Hd).
Qed.

Lemma kept_pass f g q worst top : kept f q worst -> f <= g -> limit <= Len q -> Forall (no_less (less NewMinWithId) top) (items q) ->
  (forall d e, cand d -> f <= d < g -> errors e -> (score d ≤ Dist top + e)%Qc) -> kept g q worst.
Proof.
  intros (passed & Hk & Hp) Hfg Hfull Hmin Hle. exists (fun d => passed d || (f <=? d) && (d <? g)). split.
  - apply (top_k_skip _ _ _ f); [|done|].
    + apply (top_k_restrict _ (fun d => cand d /\ passed d = false)); [done| |].
      * by intros d [? [? _]%orb_false_iff].
      * intros x Hx. destruct (tk_items _ _ _ _ _ _ Hk x Hx) as ([Hc Hn] & Hid & _). split; [done|]. rewrite Hn, (proj2 (Z.leb_gt _ _) Hid). done.
    + intros d [_ [_ Hn]%orb_false_iff] Hd. rewrite (proj2 (Z.leb_le _ _) (proj1 Hd)), (proj2 (Z.ltb_lt _ _) (proj2 Hd)) in Hn. done.
  - intros d Hd. apply orb_true_iff in Hd as [Hd|Hd]; [destruct (Hp d Hd) as (? & ? & ?); split_and!; [lia|done|done]|].
    apply andb_true_iff in Hd as [Hd1%Z.leb_le Hd2%Z.ltb_lt]. split_and!; [done|done|]. intros Hc e x He Hx. destruct (tk_items _ _ _ _ _ _ Hk x Hx) as (_ & Hid & Hdist).
    pose proof (no_less_dist _ _ (proj1 (Forall_forall _ _) Hmin x Hx)) as Htop. unfold near_worse. rewrite <- Hdist. assert (Hs : (score d ≤ Dist x + e)%Qc).
    { eapply Qcle_trans; [by apply (Hle d e)|]. apply Qcplus_le_compat; [done|apply Qcle_refl]. }
    apply Qcle_lt_or_eq in Hs as [Hs|Hs]; [by left|right]. split; [done|lia].
Qed.

Lemma kept_insert id q worst v : 1 <= limit -> kept id q worst -> cand id -> (Len q < limit \/ exists top, top ∈ items q /\ (Dist top < score id)%Qc) ->
  exists q' worst', InsertAndPop q id (score id) limit worst v = Ok (q', worst') /\ kept (id + 1) q' worst'.
Proof.
  intros Hl (passed & Hk & Hp) Hc Hroom. assert (Hn : passed id = false) by (destruct (passed id) eqn:E; [destruct (Hp id E); lia|done]).
  destruct (top_k_insert limit _ score id q worst v Hl Hk (conj Hc Hn) Hroom) as (q' & worst' & E & Hk'). exists q', worst'. split; [done|]. exists passed. split; [done|].
  intros d Hd. destruct (Hp d Hd) as (Hid & Hfull & Hnear). pose proof (insert_length limit _ score id q worst v _ q' worst' Hl Hk E) as Hlen. split_and!; [lia|lia|].
  intros Hcd e x He Hx. destruct (InsertAndPop_correct q id (score id) limit worst v (tk_ok _ _ _ _ _ _ Hk) Hl) as (q2 & w2 & dropped & E2 & _ & _ & Hperm & _). rewrite E in E2. injection E2 as <- <-.
  assert (Hx' : x ∈ MkItem id (score id) false v :: items q) by (rewrite Hperm; set_solver). apply elem_of_cons in Hx' as [->|Hx']; [|by apply Hnear]. cbn [ID]. left.
  destruct Hroom as [?|(top & Htop & Hlt)]; [lia|]. destruct (tk_items _ _ _ _ _ _ Hk top Htop) as (_ & _ & Hdist). rewrite Hdist in Hlt.
  assert (Hstep : (score (ID top) + e < score id + e)%Qc) by (apply Qcplus_lt_mono_r; exact Hlt). destruct (Hnear Hcd e top He Htop) as [H|[-> _]]; [by eapply Qclt_trans|done].
Qed.

Lemma kept_refuse id q worst top : kept id q worst -> limit <= Len q -> Forall (no_less (less NewMinWithId) top) (items q) -> ~ (Dist top < score id)%Qc -> kept (id + 1) q worst.
Proof.
  intros (passed & Hk & Hp) Hfull Hmin Hle. exists passed. split; [by apply (top_k_refuse limit _ score id q worst top)|]. intros d Hd. destruct (Hp d Hd) as (? & ? & ?). split_and!; [lia|done|done].
Qed.

Lemma kept_should f q worst s : 1 <= limit -> kept f q worst ->
  exists should, of_queue (ShouldEnqueue q s limit) = Ok should /\ (should = true -> Len q < limit \/ exists top, top ∈ items q /\ (Dist top < s)%Qc) /\
    (should = false -> limit <= Len q /\ exists top, Forall (no_less (less NewMinWithId) top) (items q) /\ ~ (Dist top < s)%Qc).
Proof. intros Hl (passed & Hk & _). exact (ShouldEnqueue_top_k limit _ score f q worst s Hl Hk). Qed.

Lemma kept_popped f q worst : (forall e, errors e -> (0 ≤ e)%Qc) -> kept f q worst -> (forall d, cand d -> d < f) -> exists out, popped q = Ok out /\ near_best out.
Proof.
  intros Hpos (passed & Hk & Hp) Hf. destruct (drain_correct (S (length (items q))) q (tk_ok _ _ _ _ _ _ Hk) ltac:(lia)) as (out' & Ed & Hperm & _).
  destruct (top_k_popped limit _ score f q worst Hk) as (out & E & [H1 H2 H3 H4 H5]); [intros d [Hd _]; by apply Hf|]. unfold popped in E. rewrite Ed in E. injection E as ->.
  exists out. split; [unfold popped; by rewrite Ed|]. split; [done| |done|done|].
  - eapply Forall_impl; [exact H2|]. by intros d [? _].
  - intros d Hd Hn. destruct (passed d) eqn:Ep.
    + destruct (Hp d Ep) as (_ & Hfull & Hnear). assert (Hlen : Len q = Z.of_nat (length (map ID out))) by (unfold Len; by rewrite length_map, Hperm). split; [lia|].
      intros e He. apply Forall_fmap. rewrite Hperm. apply Forall_forall. intros x Hx. by apply Hnear.
    + destruct (H5 d (conj Hd Ep) Hn) as [Hl Hall]. split; [done|]. intros e He. eapply Forall_impl; [exact Hall|].
      intros b Hw. assert (Hb : (score b ≤ score b + e)%Qc) by (rewrite <- (Qcplus_0_r (score b)) at 1; apply Qcplus_le_compat; [apply Qcle_refl|by apply Hpos]).
      unfold near_worse. destruct Hw as [Hlt|[-> Hid]]; [left; by eapply Qclt_le_trans|]. apply Qcle_lt_or_eq in Hb as [Hb|Hb]; [by left|by right].
Qed.
End near.

Lemma near_best_ext limit (cand cand' : Z -> Prop) (score score' : Z -> Qc) (errors errors' : Qc -> Prop) out : (forall d, cand d <-> cand' d) -> (forall d, score d = score' d) -> (forall e, errors' e -> errors e) ->
  near_best limit cand score errors out -> near_best limit cand' score' errors' out.
Proof.
  intros Hc Hs He. assert (Hw : forall a b, worse score a b -> worse score' a b) by (intros a b; unfold worse; by rewrite !Hs). intros [H1 H2 H3 H4 H5]. split; [| |done| |].
  - rewrite H1. apply map_ext. exact Hs.
  - eapply Forall_impl; [exact H2|]. intros d. apply Hc.
  - clear -H4 Hw. induction H4 as [|x l _ IH Hx]; constructor; [done|]. eapply Forall_impl; [exact Hx|]. apply Hw.
  - intros d Hd Hn. destruct (H5 d (proj2 (Hc d) Hd) Hn) as [Hl Hall]. split; [done|]. intros e He'. eapply Forall_impl; [exact (Hall e (He e He'))|]. intros b. unfold near_worse. by rewrite !Hs.
Qed.
