(* ===== verification/Wand.v ===== *)
(** * The best documents of a keyword search

    [DoWand] of [adapters/repos/db/lsmkv/search_segment.go] over the terms of Bm25Terms.v and the queue of PriorityQueue.v, and [getTopKIds] of
    [adapters/repos/db/inverted/bm25_searcher.go].  Documents whose terms cannot add up to the worst score that is kept are skipped;
    the result is nevertheless that of scoring every document. *)

From Stdlib Require Import QArith Qcanon.
From stdpp Require Import strings numbers sorting.
From S2P Require Import Prelude PriorityQueue Bm25Terms TopK.

#[local] Open Scope Z_scope.

Section wand.
Context (sort : list Term -> list Term) (cancelled : Z -> bool)
  (limit : Z) (averagePropLength : Qc) (additionalExplanations : bool) (minimumOrTokensMatch : Z).

(** [cancelled iterations]: whether the context is done then *)
Fixpoint wand_loop (fuel : nat) (iterations : Z) (results : Terms) (topKHeap : heap_of) (worstDist : Qc) : outcome terms_error heap_of :=
  match fuel with
  | O => OutOfFuel
  | S fuel =>
      if CompletelyExhausted results then Ok topKHeap
      else
        let! (results, stop) := Pivot results worstDist in
        if stop then Ok topKHeap
        else
          let! (results, (id, score, additional, ok)) := ScoreNext averagePropLength additionalExplanations results minimumOrTokensMatch in
          let results := SortFull sort results in
          let! should := of_queue (ShouldEnqueue topKHeap score limit) in
          let! (topKHeap, worstDist) :=
            if should && ok then of_queue (InsertAndPop topKHeap id score limit worstDist additional) else Ok (topKHeap, worstDist) in
          if (iterations mod 100000 =? 0) && cancelled iterations then Ok topKHeap
          else wand_loop fuel (iterations + 1) results topKHeap worstDist
  end.

Definition DoWand (results : Terms) : outcome terms_error heap_of :=
  wand_loop (S (sum_list_with (fun t => length (Data t)) (terms_T results))) 1 (SortFull sort results) NewMinWithId start_worst.
End wand.

(** The ids, scores and explanations in the order of the pops; no explanation is the empty list *)
Definition getTopKIds (topKHeap : heap_of) : outcome terms_error (list Z * list Qc * list (list (option DocPointerWithScore))) :=
  let! out := popped topKHeap in
  Ok (map ID out, map Dist out, filter (fun v => v <> []) (map Value out)).

(** * Correctness *)

(** What the code relies on of [sort.Sort] *)
Class SortLaws (sort : list Term -> list Term) : Prop := {
  sort_perm l : sort l ≡ₚ l;
  sort_by_id l : StronglySorted by_id (sort l)
}.

(** The documents that may be returned *)
Definition candidate (minMatch : Z) (T0 : list Term) (d : Z) : Prop := 1 <= matched T0 d /\ minMatch <= matched T0 d.

Lemma some_left T : forallb exhausted T = false -> Exists (fun t => exhausted t = false) T.
Proof. induction T as [|t T IH]; cbn [forallb]; intros E; [done|]. apply andb_false_iff in E as [E|E]; [by apply Exists_cons_hd|by apply Exists_cons_tl, IH]. Qed.

Section loop.
Context (sort : list Term -> list Term) `{!SortLaws sort} (cancelled : Z -> bool) (limit : Z) (avg : Qc) (explain : bool) (minMatch : Z) (T0 : list Term) (c : nat).
Context (limit_pos : 1 <= limit) (avg_pos : (0 < avg)%Qc) (not_cancelled : forall i, cancelled i = false)
  (indices : explain = true -> Forall (fun t => (queryTermIndex t < c)%nat) T0).

(** The state of the search: terms whose documents below [f] are done, sorted, and the best of those *)
Record searching (f : Z) (T : list Term) (q : heap_of) (worst : Qc) : Prop := {
  se_good : Forall (good f) T;
  se_sorted : StronglySorted by_id T;
  se_core : map core T ≡ₚ map core T0;
  se_top : top_k limit (candidate minMatch T0) (doc_score avg T0) f q worst;
  se_bound : f <= max_u64
}.

Lemma scores_nonneg T d : Forall term_valid T -> (0 ≤ doc_score avg T d)%Qc.
Proof.
  unfold doc_score, qsum. induction 1 as [|t T Hv _ IH]; cbn [map foldr]; [apply Qcle_refl|]. apply Qcplus_nonneg_nonneg; [|done]. by apply term_score_bounds.
Qed.

Lemma searching_score f T q worst d : searching f T q worst -> doc_score avg T d = doc_score avg T0 d /\ matched T d = matched T0 d /\ (0 ≤ doc_score avg T0 d)%Qc.
Proof.
  intros Hs. destruct (same_core_score avg T0 T d (se_core _ _ _ _ Hs)) as [E1 E2]. split_and!; [done|done|]. rewrite <- E1. apply scores_nonneg.
  eapply Forall_impl; [apply Hs|]. by intros t [_ Hv _].
Qed.

Lemma core_indices T : map core T ≡ₚ map core T0 -> explain = true -> Forall (fun t => (queryTermIndex t < c)%nat) T.
Proof.
  intros Hc He. assert (Hm : forall l, Forall (fun t => (queryTermIndex t < c)%nat) (map core l) <-> Forall (fun t => (queryTermIndex t < c)%nat) l) by (intros l; exact (Forall_fmap core _ l)).
  rewrite <- Hm, Hc, Hm. by apply indices.
Qed.

(** Nothing left *)
Lemma unmatched f T d : Forall (good f) T -> f <= d -> Forall (fun t => exhausted t = true \/ d < idPointer t) T -> matched T d = 0.
Proof.
  intros Hg Hd Hx. induction Hg as [|t T [Ho _ Hf] _ IH]; [done|]. apply Forall_cons in Hx as [Hx HxT]. rewrite matched_cons, (IH HxT). destruct (decide _) as [[p Hp]|]; [|done].
  destruct (frontier_posting f t d p Ho Hf Hd Hp) as (He & Hle & _). destruct Hx; [congruence|lia].
Qed.

Lemma unmatched_no_candidate f T q worst d : searching f T q worst -> matched T d = 0 -> ~ candidate minMatch T0 d.
Proof. intros Hs Hm [H1 _]. destruct (searching_score f T q worst d Hs) as (_ & E & _). lia. Qed.

(** One turn of the loop *)
Lemma turn_correct f T q worst : searching f T q worst -> Exists (fun t => exhausted t = false) T ->
  exists T1 stop, Pivot (MkTerms T c) worst = Ok (MkTerms T1 c, stop) /\
    if stop then top_k limit (candidate minMatch T0) (doc_score avg T0) max_u64 q worst
    else exists T2 id score docs ok should q' worst' f',
      ScoreNext avg explain (MkTerms T1 c) minMatch = Ok (MkTerms T2 c, (id, score, docs, ok)) /\ of_queue (ShouldEnqueue q score limit) = Ok should /\
      (if should && ok then of_queue (InsertAndPop q id score limit worst docs) else Ok (q, worst)) = Ok (q', worst') /\
      searching f' (sort T2) q' worst' /\ remaining T2 < remaining T.
Proof.
  intros Hs Hex. destruct (Pivot_correct avg f T c worst avg_pos (se_good _ _ _ _ Hs) (se_sorted _ _ _ _ Hs) Hex) as (T1 & stop & EP & Hp). exists T1, stop. split; [done|].
  pose proof (se_top _ _ _ _ Hs) as Hk. pose proof (se_bound _ _ _ _ Hs) as Hb.
  assert (Hlow : forall d, (doc_score avg T d < worst)%Qc -> Len q = limit /\ forall x, x ∈ items q -> beats (doc_score avg T0) x d).
  { intros d Hd. destruct (searching_score f T q worst d Hs) as (E & _ & H0). rewrite E in Hd. by apply (top_k_low limit (candidate minMatch T0) (doc_score avg T0) f q worst d Hk). }
  destruct stop.
  { apply (top_k_skip limit (candidate minMatch T0) (doc_score avg T0) f); [done|done|]. intros d _ Hd. apply Hlow, Hp. lia. }
  destruct Hp as (g & t & rest & -> & Hfg & Hg & Hc & Hr & He & Hmin & Hskip).
  destruct (ScoreNext_correct avg explain g t rest c minMatch Hg He Hmin (core_indices _ ltac:(etrans; [exact Hc|apply Hs]))) as (T2 & docs & ES & Hg2 & Hc2 & Hr2 & Hid & Hm1).
  set (id := idPointer t) in *. assert (Hc1 : map core (t :: rest) ≡ₚ map core T0) by (etrans; [exact Hc|apply Hs]). destruct (same_core_score avg T0 (t :: rest) id Hc1) as [Es Em].
  assert (Hk1 : top_k limit (candidate minMatch T0) (doc_score avg T0) id q worst).
  { apply (top_k_skip limit (candidate minMatch T0) (doc_score avg T0) f); [done|lia|]. intros d Hcd Hd. destruct (Z.lt_ge_cases d g) as [Hlt|Hge]; [apply Hlow, Hskip; lia|]. exfalso.
    destruct (same_core_score avg T0 (t :: rest) d Hc1) as [_ Emd]. destruct Hcd as [Hcd _]. rewrite <- Emd in Hcd. rewrite (unmatched g) in Hcd; [lia|done|done|].
    eapply Forall_impl; [exact Hmin|]. intros u Hu. right. unfold by_id in Hu. fold id in Hu. lia. }
  assert (Hnext : forall q' worst', top_k limit (candidate minMatch T0) (doc_score avg T0) (id + 1) q' worst' -> searching (id + 1) (sort T2) q' worst').
  { intros q' worst' Hk'. split; [by rewrite sort_perm|apply sort_by_id| |done|lia]. rewrite sort_perm, Hc2. exact Hc1. }
  rewrite Em in ES. rewrite Es in ES.
  pose proof (fun score => ShouldEnqueue_top_k limit (candidate minMatch T0) (doc_score avg T0) f q worst score limit_pos Hk) as Hshould.
  destruct (matched T0 id <? minMatch) eqn:Ec.
  - destruct (Hshould 0%Qc) as (should & E1 & _). exists T2, 0, 0%Qc, docs, false, should, q, worst, (id + 1). rewrite andb_false_r. split_and!; [done|done|done| |lia].
    apply Hnext, (top_k_skip limit (candidate minMatch T0) (doc_score avg T0) id); [done|lia|]. intros d [_ Hcd] Hd. assert (d = id) as -> by lia. apply Z.ltb_lt in Ec. lia.
  - apply Z.ltb_ge in Ec. assert (Hcand : candidate minMatch T0 id) by (split; [by rewrite <- Em|done]). destruct (Hshould (doc_score avg T0 id)) as (should & E1 & Hyes & Hno).
    destruct should.
    + destruct (top_k_insert limit (candidate minMatch T0) (doc_score avg T0) id q worst docs limit_pos Hk1 Hcand (Hyes eq_refl)) as (q' & worst' & E2 & Hk').
      exists T2, id, (doc_score avg T0 id), docs, true, true, q', worst', (id + 1). cbn [andb]. split_and!; [done|done|unfold of_queue; by rewrite E2|by apply Hnext|lia].
    + destruct (Hno eq_refl) as (Hfull & top & Hall & Hle). exists T2, id, (doc_score avg T0 id), docs, true, false, q, worst, (id + 1). cbn [andb]. split_and!; [done|done|done| |lia].
      apply Hnext. by apply (top_k_refuse limit (candidate minMatch T0) (doc_score avg T0) id q worst top).
Qed.

Lemma wand_loop_correct fuel : forall iterations f T q worst, searching f T q worst -> remaining T < Z.of_nat fuel ->
  exists q' worst', wand_loop sort cancelled limit avg explain minMatch fuel iterations (MkTerms T c) q worst = Ok q' /\ top_k limit (candidate minMatch T0) (doc_score avg T0) max_u64 q' worst'.
Proof.
  induction fuel as [|fuel IH]; intros iterations f T q worst Hs Hr.
  { assert (0 <= remaining T); [|lia]. apply remaining_nonneg. eapply Forall_impl; [apply Hs|]. by intros t [Ho _ _]. }
  cbn [wand_loop]. unfold CompletelyExhausted. cbn [terms_T]. destruct (forallb exhausted T) eqn:E.
  - exists q, worst. split; [done|]. apply (top_k_skip limit (candidate minMatch T0) (doc_score avg T0) f); [apply Hs|apply Hs|]. intros d Hd Hfd. exfalso.
    apply (unmatched_no_candidate f T q worst d Hs); [|done]. apply (unmatched f); [apply Hs|lia|]. apply Forall_forall. intros t Ht. left. apply (proj1 (forallb_forall _ _) E). by apply list_elem_of_In.
  - apply some_left in E as Hex.
    destruct (turn_correct f T q worst Hs Hex) as (T1 & stop & -> & Hturn). cbn [obind]. destruct stop; [by exists q, worst|].
    destruct Hturn as (T2 & id & score & docs & ok & should & q' & worst' & f' & -> & E1 & E2 & Hs' & Hr'). cbn [obind]. rewrite E1. cbn [obind]. rewrite E2. cbn [obind].
    rewrite not_cancelled, andb_false_r. unfold SortFull. cbn [terms_T terms_Count]. apply (IH (iterations + 1) f'); [done|]. rewrite (remaining_perm _ _ (sort_perm T2)). lia.
Qed.
End loop.

(** * The result of a search *)

(** A term as [createTerm] hands it over: at its first document *)
Record fresh_term (t : Term) : Prop := { ft_ok : term_ok t; ft_valid : term_valid t; ft_start : posPointer t = 0 }.

Lemma fresh_good t : fresh_term t -> good 0 t.
Proof.
  intros [Ho Hv Hp]. split; [done|done|]. split; [|by apply pointer_max]. intros i d Hi Hlt. apply doc_at_range in Hi. lia.
Qed.

Lemma fresh_remaining T : Forall fresh_term T -> remaining T = Z.of_nat (sum_list_with (fun t => length (Data t)) T).
Proof. unfold remaining. induction 1 as [|t T Ht _ IH]; cbn [foldr sum_list_with]; [done|]. rewrite (ft_start t Ht). lia. Qed.

(** The search ends without an error, and what is taken from the queue is what scoring every document of every list gives: no document
    twice, each with its score and with as many of the words as are asked for, from the worst to the best, at most [limit]; and a
    document that is left out while it has enough words is worse than each that is returned, of which there are then [limit]. *)
Lemma wand_correct sort cancelled limit avg explain minMatch T c :
  SortLaws sort -> 1 <= limit -> (0 < avg)%Qc -> (forall i, cancelled i = false) -> Forall fresh_term T -> (explain = true -> Forall (fun t => (queryTermIndex t < c)%nat) T) ->
  exists q out, DoWand sort cancelled limit avg explain minMatch (MkTerms T c) = Ok q /\ popped q = Ok out /\ best_results limit (candidate minMatch T) (doc_score avg T) out.
Proof.
  intros Hsort Hl Ha Hc Hf Hidx. assert (Hgood : Forall (good 0) T) by (eapply Forall_impl; [exact Hf|apply fresh_good]).
  assert (Hok : Forall term_ok T) by (eapply Forall_impl; [exact Hf|by intros t [? _ _]]).
  assert (Hs : searching limit avg minMatch T 0 (sort T) NewMinWithId start_worst).
  { split; [by rewrite sort_perm|apply sort_by_id|apply Permutation_map, sort_perm| |done]. apply empty_top_k; [done|]. intros d [Hm _]. destruct (matched_posting T d Hok Hm). lia. }
  destruct (wand_loop_correct sort cancelled limit avg explain minMatch T c Hl Ha Hc Hidx (S (sum_list_with (fun t => length (Data t)) T)) 1 0 (sort T) NewMinWithId start_worst Hs) as (q & worst & E & Hk).
  { rewrite (remaining_perm _ _ (sort_perm T)), fresh_remaining by done. lia. }
  destruct (top_k_popped limit _ _ max_u64 q worst Hk) as (out & Eo & Hbest); [|by exists q, out]. intros d Hd. exact (proj2 (proj1 (matched_posting T d Hok (proj1 Hd)))).
Qed.
