(* ===== verification/BlockMax.v ===== *)
(** * Iterators over compressed blocks of documents

    [SegmentBlockMax] of [adapters/repos/db/lsmkv/segment_blockmax.go]: the documents of a word in a segment, in blocks that are decoded when they are needed
    and of which the last id and the largest impact are known before.  BlockFile.v loads the blocks from the segment file.
    An iterator stands for the list of the documents that are left, without filtered and deleted ones. *)

From Stdlib Require Import QArith Qcanon.
From stdpp Require Import numbers sorting.
From S2P Require Import Prelude PriorityQueue Bm25Terms.

#[local] Open Scope Z_scope.

Record BlockEntry : Type := MkEntry { MaxId : Z; Offset : Z; MaxImpactTf : Z; MaxImpactPropLength : Z }.

Definition BLOCK_SIZE : Z := 128.
Definition ENCODE_AS_FULL_BYTES : Z := 1.

(** What does not change: the entries and the blocks they describe, each as the decoded ids with their frequencies; the documents that
    pass the filter and are not deleted, [None] when there is neither; the lengths of the property; the constants of the score; and the
    conversion to a float of 32 bits, which bounds of blocks are rounded with *)
Record block_term : Type := BlockTerm {
  bt_entries : list BlockEntry; bt_blocks : list (list (Z * Z)); bt_docCount : Z;
  bt_live : option (Z -> bool); bt_propLength : Z -> Z;
  bt_boost : Qc; bt_k1 : Qc; bt_b : Qc; bt_average : Qc; bt_float32 : Qc -> Qc; bt_index : nat
}.

(** What changes; [s_docIds] and [s_tfs] are the buffers of decoded values. *)
Record SegmentBlockMax : Type := Iter {
  s_idPointer : Z; s_idf : Qc; s_currentBlockMaxId : Z; s_currentBlockImpact : Qc;
  s_exhausted : bool; s_decoded : bool; s_freqDecoded : bool;
  s_blockEntryIdx : nat; s_docIds : list Z; s_tfs : list Z; s_blockDataIdx : nat; s_blockDataSize : nat
}.

Section iterator.
Context (t : block_term).
Implicit Types (s : SegmentBlockMax) (docId : Z).

Definition exhaust s : SegmentBlockMax :=
  Iter max_u64 0 max_u64 0 true (s_decoded s) (s_freqDecoded s) (s_blockEntryIdx s) (s_docIds s) (s_tfs s) (s_blockDataIdx s) (s_blockDataSize s).

(** The share of the frequency in a score *)
Definition block_tf (freq propLength : Qc) : Qc := (freq / (freq + bt_k1 t * (1 - bt_b t + bt_b t * (propLength / bt_average t))))%Qc.

(** [computeCurrentBlockImpact] of an iterator that is at an entry *)
Definition entry_impact (idf : Qc) (e : BlockEntry) : Qc := bt_float32 t (idf * block_tf (Qc_of_Z (MaxImpactTf e)) (Qc_of_Z (MaxImpactPropLength e)) * bt_boost t)%Qc.

(** The size of a block: the last one has what is left of the documents. *)
Definition block_size (idx : nat) : nat :=
  if (idx =? length (bt_entries t) - 1)%nat then Z.to_nat (bt_docCount t - BLOCK_SIZE * Z.of_nat idx) else Z.to_nat BLOCK_SIZE.

(** The first id of the block that is now decoded, with the entry's bounds *)
Definition at_block s (freqDecoded : bool) (ids : list Z) (size : nat) : run_t SegmentBlockMax :=
  match bt_entries t !! s_blockEntryIdx s, ids !! 0%nat with
  | Some e, Some id => Ok (Iter id (s_idf s) (MaxId e) (entry_impact (s_idf s) e) (s_exhausted s) true freqDecoded (s_blockEntryIdx s) ids (s_tfs s) 0 size)
  | _, _ => Panic
  end.

Definition decodeBlock s : run_t SegmentBlockMax :=
  if s_exhausted s then Ok s
  else if (length (bt_entries t) =? 0)%nat then Ok s
  else if (length (bt_entries t) <=? s_blockEntryIdx s)%nat then Ok (exhaust s)
  else if bt_docCount t <=? ENCODE_AS_FULL_BYTES then at_block s true (s_docIds s) (Z.to_nat (bt_docCount t))
  else
    match bt_blocks t !! s_blockEntryIdx s with
    | None => Panic
    | Some docs => at_block s false (take (block_size (s_blockEntryIdx s)) (map fst docs)) (block_size (s_blockEntryIdx s))
    end.

Definition set_id s (id : Z) : SegmentBlockMax :=
  Iter id (s_idf s) (s_currentBlockMaxId s) (s_currentBlockImpact s) (s_exhausted s) (s_decoded s) (s_freqDecoded s) (s_blockEntryIdx s) (s_docIds s) (s_tfs s) (s_blockDataIdx s) (s_blockDataSize s).
Definition set_position s (blockEntryIdx blockDataIdx : nat) (decoded freqDecoded : bool) : SegmentBlockMax :=
  Iter (s_idPointer s) (s_idf s) (s_currentBlockMaxId s) (s_currentBlockImpact s) (s_exhausted s) decoded freqDecoded blockEntryIdx (s_docIds s) (s_tfs s) blockDataIdx (s_blockDataSize s).

(** The loop over documents that do not pass *)
Fixpoint skip_dead (fuel : nat) (live : Z -> bool) s : run_t SegmentBlockMax :=
  match fuel with
  | O => OutOfFuel
  | S fuel =>
      match s_docIds s !! s_blockDataIdx s with
      | None => Panic
      | Some docID =>
          if live docID then Ok (set_id s docID)
          else
            let s := set_position s (s_blockEntryIdx s) (S (s_blockDataIdx s)) (s_decoded s) (s_freqDecoded s) in
            if (s_blockDataSize s - 1 <? s_blockDataIdx s)%nat then
              if (length (bt_entries t) - 1 <=? s_blockEntryIdx s)%nat then Ok (exhaust s)
              else
                let! s := decodeBlock (set_position s (S (s_blockEntryIdx s)) 0 (s_decoded s) (s_freqDecoded s)) in
                skip_dead fuel live s
            else skip_dead fuel live s
      end
  end.

Definition advanceOnTombstoneOrFilter s : run_t SegmentBlockMax :=
  if s_exhausted s then Ok s
  else
    match bt_live t with
    | None => match s_docIds s !! s_blockDataIdx s with Some docID => Ok (set_id s docID) | None => Panic end
    | Some live => skip_dead (S (length (concat (bt_blocks t)))) live s
    end.

(** From the entry at [idx] on, the first one that reaches [docId] *)
Fixpoint skip_blocks (entries : list BlockEntry) (idx : nat) docId : nat :=
  match entries with [] => idx | e :: entries => if MaxId e <? docId then skip_blocks entries (S idx) docId else idx end.

Fixpoint skip_docs (ids : list Z) (j last : nat) docId : nat :=
  match ids with [] => j | id :: ids => if (j <? last)%nat && (id <? docId) then skip_docs ids (S j) last docId else j end.

Definition block_AdvanceAtLeast s docId : run_t SegmentBlockMax :=
  if s_exhausted s then Ok s
  else
    let idx := skip_blocks (drop (s_blockEntryIdx s) (bt_entries t)) (s_blockEntryIdx s) docId in
    let s := if (idx =? s_blockEntryIdx s)%nat then s else set_position s idx (s_blockDataIdx s) false false in
    if (length (bt_entries t) <=? idx)%nat then Ok (exhaust s)
    else
      let! s := if s_decoded s then Ok s else decodeBlock s in
      let j := skip_docs (drop (s_blockDataIdx s) (s_docIds s)) (s_blockDataIdx s) (s_blockDataSize s - 1) docId in
      advanceOnTombstoneOrFilter (set_position s (s_blockEntryIdx s) j (s_decoded s) (s_freqDecoded s)).

(** Moves to the block that [docId] may be in without decoding it; the id is then the last one of the block before. *)
Definition block_AdvanceAtLeastShallow s docId : run_t SegmentBlockMax :=
  if s_exhausted s then Ok s
  else
    match bt_entries t !! s_blockEntryIdx s with
    | None => Panic
    | Some e =>
        if docId <=? MaxId e then Ok s
        else
          let idx := skip_blocks (drop (s_blockEntryIdx s) (bt_entries t)) (s_blockEntryIdx s) docId in
          let s := set_position s idx 0 false false in
          match bt_entries t !! idx, bt_entries t !! (idx - 1)%nat with
          | None, _ => Ok (exhaust s)
          | Some _, None => Panic
          | Some e, Some before =>
              Ok (Iter (MaxId before) (s_idf s) (MaxId e) (entry_impact (s_idf s) e) (s_exhausted s) (s_decoded s) (s_freqDecoded s) idx (s_docIds s) (s_tfs s) (s_blockDataIdx s) (s_blockDataSize s))
          end
    end.

Definition block_Advance s : run_t SegmentBlockMax :=
  if s_exhausted s then Ok s
  else if negb (s_decoded s) then decodeBlock s
  else
    let s := set_position s (s_blockEntryIdx s) (S (s_blockDataIdx s)) (s_decoded s) (s_freqDecoded s) in
    let! s := if (s_blockDataSize s <=? s_blockDataIdx s)%nat then decodeBlock (set_position s (S (s_blockEntryIdx s)) 0 (s_decoded s) (s_freqDecoded s)) else Ok s in
    if s_exhausted s then Ok s else advanceOnTombstoneOrFilter s.

(** Frequencies of the block are decoded when the first score is asked for. *)
Definition block_Score s (additionalExplanation : bool) : run_t (SegmentBlockMax * (Z * Qc * option DocPointerWithScore)) :=
  if s_exhausted s then Ok (s, (0, 0%Qc, None))
  else
    let! s :=
      if s_freqDecoded s then Ok s
      else
        match bt_blocks t !! s_blockEntryIdx s with
        | None => Panic
        | Some docs => Ok (Iter (s_idPointer s) (s_idf s) (s_currentBlockMaxId s) (s_currentBlockImpact s) (s_exhausted s) (s_decoded s) true (s_blockEntryIdx s) (s_docIds s) (take (s_blockDataSize s) (map snd docs)) (s_blockDataIdx s) (s_blockDataSize s))
        end in
    match s_tfs s !! s_blockDataIdx s with
    | None => Panic
    | Some freq =>
        let propLength := Qc_of_Z (bt_propLength t (s_idPointer s)) in
        Ok (s, (s_idPointer s, (block_tf (Qc_of_Z freq) propLength * s_idf s * bt_boost t)%Qc,
          if additionalExplanation then Some (MkDoc (s_idPointer s) (Qc_of_Z freq) propLength) else None))
    end.

(** [reset] of a new iterator: a single document is decoded with the entries. *)
Definition block_reset (idf : Qc) : run_t SegmentBlockMax :=
  let preloaded := if bt_docCount t <=? ENCODE_AS_FULL_BYTES then default [] (bt_blocks t !! 0%nat) else [] in
  let! s := decodeBlock (Iter 0 idf 0 0 false false false 0 (map fst preloaded) (map snd preloaded) 0 0) in
  advanceOnTombstoneOrFilter s.
End iterator.

(** * Correctness *)

(** Blocks that fit their entries: not empty, sorted, of the sizes that the decoder asks for, and ending with the largest id.
    BlockWriter.v shows that written blocks are of this kind. *)
Record term_blocks_ok (t : block_term) : Prop := {
  tb_length : length (bt_blocks t) = length (bt_entries t);
  tb_some : bt_entries t <> [];
  tb_single : bt_docCount t <= ENCODE_AS_FULL_BYTES -> length (bt_entries t) = 1%nat;
  tb_size idx docs : bt_blocks t !! idx = Some docs -> (0 < length docs)%nat /\ length docs = if bt_docCount t <=? ENCODE_AS_FULL_BYTES then Z.to_nat (bt_docCount t) else block_size t idx;
  tb_max idx e docs : bt_entries t !! idx = Some e -> bt_blocks t !! idx = Some docs -> last (map fst docs) = Some (MaxId e);
  tb_sorted : StronglySorted Z.lt (map fst (concat (bt_blocks t)));
  tb_ids : Forall (fun x => 0 <= x.1 < max_u64) (concat (bt_blocks t))
}.

Section correct.
Context (t : block_term) (Ht : term_blocks_ok t) (w : Qc).
Implicit Types (s : SegmentBlockMax) (docs : list (Z * Z)).

Definition alive (x : Z * Z) : Prop := match bt_live t with Some live => live x.1 = true | None => True end.
#[export] Instance alive_dec x : Decision (alive x).
Proof. unfold alive. destruct (bt_live t); apply _. Defined.

(** The documents of block [idx] from position [j] on and those of later blocks *)
Definition docs_from (idx j : nat) : list (Z * Z) := drop j (default [] (bt_blocks t !! idx)) ++ concat (drop (S idx) (bt_blocks t)).

(** The documents that are left *)
Definition left_docs s : list (Z * Z) := if s_exhausted s then [] else filter alive (docs_from (s_blockEntryIdx s) (s_blockDataIdx s)).

(** A block that is decoded, at any of its documents *)
Record at_doc s docs : Prop := {
  ad_live : s_exhausted s = false;
  ad_idf : s_idf s = w;
  ad_decoded : s_decoded s = true;
  ad_block : bt_blocks t !! s_blockEntryIdx s = Some docs;
  ad_ids : s_docIds s = map fst docs;
  ad_tfs : s_freqDecoded s = true -> s_tfs s = map snd docs;
  ad_size : s_blockDataSize s = length docs;
  ad_index : (s_blockDataIdx s < length docs)%nat;
  ad_entry : exists e, bt_entries t !! s_blockEntryIdx s = Some e /\ s_currentBlockMaxId s = MaxId e /\ s_currentBlockImpact s = entry_impact t w e;
  ad_preloaded : bt_docCount t <= ENCODE_AS_FULL_BYTES -> s_tfs s = map snd docs
}.

(** An iterator between two calls: it is at a document that counts, or before a block that is not decoded, or at the end. *)
Inductive iter_ok s : Prop :=
| ok_at docs : at_doc s docs -> s_docIds s !! s_blockDataIdx s = Some (s_idPointer s) -> alive (s_idPointer s, 0) -> iter_ok s
| ok_before e before : s_exhausted s = false -> s_idf s = w -> s_decoded s = false -> s_freqDecoded s = false -> s_blockDataIdx s = 0%nat -> (1 <= s_blockEntryIdx s)%nat ->
    bt_entries t !! s_blockEntryIdx s = Some e -> bt_entries t !! (s_blockEntryIdx s - 1)%nat = Some before -> s_idPointer s = MaxId before -> s_currentBlockMaxId s = MaxId e -> s_currentBlockImpact s = entry_impact t w e -> iter_ok s
| ok_end : s_exhausted s = true -> s_idPointer s = max_u64 -> iter_ok s.

Lemma alive_id x y : x.1 = y.1 -> alive x <-> alive y.
Proof. unfold alive. intros ->. done. Qed.

Lemma block_of_entry idx : is_Some (bt_entries t !! idx) <-> is_Some (bt_blocks t !! idx).
Proof. rewrite !lookup_lt_is_Some. by rewrite (tb_length t Ht). Qed.

Lemma docs_from_block idx j docs : bt_blocks t !! idx = Some docs -> docs_from idx j = drop j docs ++ concat (drop (S idx) (bt_blocks t)).
Proof. intros Hb. unfold docs_from. by rewrite Hb. Qed.

Lemma docs_from_next idx j docs : bt_blocks t !! idx = Some docs -> (length docs <= j)%nat -> docs_from idx j = docs_from (S idx) 0.
Proof.
  intros Hb Hj. rewrite (docs_from_block _ _ _ Hb), drop_ge by done. cbn [app]. destruct (bt_blocks t !! S idx) as [docs'|] eqn:Hn.
  - by rewrite (docs_from_block _ _ _ Hn), (drop_S _ _ _ Hn).
  - unfold docs_from. rewrite Hn. apply lookup_ge_None in Hn. rewrite (drop_ge _ (S idx)), (drop_ge _ (S (S idx))) by lia. done.
Qed.

Lemma docs_from_cons idx j docs x : bt_blocks t !! idx = Some docs -> docs !! j = Some x -> docs_from idx j = x :: docs_from idx (S j).
Proof. intros Hb Hx. by rewrite !(docs_from_block _ _ _ Hb), (drop_S _ _ _ Hx). Qed.

Lemma docs_from_end idx j docs : bt_blocks t !! idx = Some docs -> (length docs <= j)%nat -> (length (bt_entries t) <= S idx)%nat -> docs_from idx j = [].
Proof. intros Hb Hj Hi. rewrite (docs_from_block _ _ _ Hb), drop_ge by done. rewrite drop_ge; [done|]. rewrite (tb_length t Ht). lia. Qed.

Lemma docs_from_length idx j : (length (docs_from idx j) <= length (concat (bt_blocks t)))%nat.
Proof.
  destruct (bt_blocks t !! idx) as [docs|] eqn:Hb.
  - rewrite (docs_from_block _ _ _ Hb). rewrite <- (take_drop_middle _ _ _ Hb) at 2. rewrite concat_app. cbn [concat]. rewrite !length_app, length_drop. lia.
  - unfold docs_from. rewrite Hb. cbn [from_option]. rewrite drop_nil. cbn [app]. pose proof (f_equal (fun l => length (concat l)) (take_drop (S idx) (bt_blocks t))) as E. cbn beta in E. rewrite concat_app, length_app in E. lia.
Qed.

(** Decoding a block *)
Lemma decodeBlock_ok s docs : s_exhausted s = false -> s_idf s = w -> bt_blocks t !! s_blockEntryIdx s = Some docs ->
  (bt_docCount t <= ENCODE_AS_FULL_BYTES -> s_docIds s = map fst docs /\ s_tfs s = map snd docs) ->
  exists s', decodeBlock t s = Ok s' /\ at_doc s' docs /\ s_blockEntryIdx s' = s_blockEntryIdx s /\ s_blockDataIdx s' = 0%nat /\ s_docIds s' !! 0%nat = Some (s_idPointer s').
Proof.
  intros He Hw Hb Hpre. destruct (proj2 (block_of_entry (s_blockEntryIdx s)) ltac:(by eexists)) as [e Ee]. pose proof (lookup_lt_Some _ _ _ Ee) as Hlt. destruct (tb_size t Ht _ _ Hb) as [Hpos Hsize].
  unfold decodeBlock. rewrite He. rewrite (proj2 (Nat.eqb_neq _ _)) by lia. rewrite (proj2 (Nat.leb_gt _ _)) by lia. destruct (lookup_lt_is_Some_2 (map fst docs) 0) as [id0 H0]; [by rewrite length_map|].
  destruct (Z.leb_spec (bt_docCount t) ENCODE_AS_FULL_BYTES) as [Hle|Hgt].
  - destruct (Hpre Hle) as [Hi Htf]. unfold at_block. rewrite Ee, Hi, H0. eexists. split; [done|]. split; [|by split_and!].
    split; cbn; [done|done|done|done|done|done|by rewrite Hsize|lia| |done]. exists e. by rewrite Hw.
  - rewrite Hb. unfold at_block. rewrite Ee. rewrite take_ge by (rewrite length_map; lia). rewrite H0. eexists. split; [done|]. split; [|by split_and!].
    split; cbn; [done|done|done|done|done|done|by rewrite Hsize|lia| |lia]. exists e. by rewrite Hw.
Qed.

(** A decoded block with the position moved in it *)
Lemma at_doc_move s docs j : at_doc s docs -> (j < length docs)%nat -> at_doc (set_position s (s_blockEntryIdx s) j (s_decoded s) (s_freqDecoded s)) docs.
Proof. intros [] Hj. by split. Qed.

Lemma at_doc_set_id s docs id : at_doc s docs -> at_doc (set_id s id) docs.
Proof. intros []. by split. Qed.

Lemma single_block s docs : at_doc s docs -> bt_docCount t <= ENCODE_AS_FULL_BYTES -> (length (bt_entries t) <= S (s_blockEntryIdx s))%nat.
Proof. intros H Hle. rewrite (tb_single t Ht Hle). lia. Qed.

(** The next block that has a document that counts *)
Lemma skip_dead_ok live fuel : forall s docs, bt_live t = Some live -> at_doc s docs -> (length (docs_from (s_blockEntryIdx s) (s_blockDataIdx s)) < fuel)%nat ->
  exists s', skip_dead t fuel live s = Ok s' /\ iter_ok s' /\ (s_exhausted s' = true \/ s_decoded s' = true) /\ left_docs s' = filter alive (docs_from (s_blockEntryIdx s) (s_blockDataIdx s)).
Proof.
  induction fuel as [|fuel IH]; intros s docs Hl Ha Hf; [lia|]. cbn [skip_dead]. destruct (lookup_lt_is_Some_2 docs (s_blockDataIdx s) (ad_index s docs Ha)) as [[id tf] Hx].
  rewrite (ad_ids s docs Ha), list_lookup_fmap, Hx. cbn [fmap option_fmap option_map fst]. pose proof (docs_from_cons _ _ _ _ (ad_block s docs Ha) Hx) as Hcons. rewrite Hcons in Hf |- *. cbn [length] in Hf.
  destruct (live id) eqn:Elive.
  - eexists. split; [done|]. assert (Hal : alive (id, tf)) by (unfold alive; by rewrite Hl). split; [|split; [right; apply Ha|]].
    + apply (ok_at _ docs); [by apply at_doc_set_id| |done]. cbn. by rewrite (ad_ids s docs Ha), list_lookup_fmap, Hx.
    + unfold left_docs. cbn [set_id s_exhausted s_blockEntryIdx s_blockDataIdx]. rewrite (ad_live s docs Ha). exact (f_equal (filter alive) Hcons).
  - assert (Hdead : ~ alive (id, tf)) by (unfold alive; rewrite Hl; cbn; congruence). rewrite filter_cons_False by done. cbn [set_position s_blockDataSize s_blockDataIdx s_blockEntryIdx s_decoded s_freqDecoded].
    rewrite (ad_size s docs Ha). pose proof (ad_index s docs Ha) as Hi. destruct (Nat.ltb_spec (length docs - 1) (S (s_blockDataIdx s))) as [Hend|Hmore].
    + destruct (Nat.leb_spec (length (bt_entries t) - 1) (s_blockEntryIdx s)) as [Hlast|Hnext].
      * eexists. split; [done|]. split; [by apply ok_end|]. split; [by left|]. unfold left_docs. cbn [exhaust s_exhausted]. rewrite (docs_from_end _ _ _ (ad_block s docs Ha)) by lia. done.
      * destruct (proj1 (block_of_entry (S (s_blockEntryIdx s)))) as [docs' Hb']; [apply lookup_lt_is_Some; lia|].
        destruct (decodeBlock_ok (set_position (set_position s (s_blockEntryIdx s) (S (s_blockDataIdx s)) (s_decoded s) (s_freqDecoded s)) (S (s_blockEntryIdx s)) 0 (s_decoded s) (s_freqDecoded s)) docs') as (s' & E & Ha' & Hidx & Hj & _).
        { apply Ha. } { apply Ha. } { exact Hb'. } { intros Hle. pose proof (single_block s docs Ha Hle). lia. }
        cbn [set_position s_blockEntryIdx s_blockDataIdx s_decoded s_freqDecoded] in E, Hidx |- *. rewrite E. cbn [obind]. rewrite (docs_from_next _ _ _ (ad_block s docs Ha)) in Hf |- * by lia.
        pose proof (IH s' docs' Hl Ha') as IH'. rewrite Hidx, Hj in IH'. apply IH'. lia.
    + apply (IH (set_position s (s_blockEntryIdx s) (S (s_blockDataIdx s)) (s_decoded s) (s_freqDecoded s)) docs); [done|apply at_doc_move; [done|lia]|cbn [set_position s_blockEntryIdx s_blockDataIdx]; lia].
Qed.

Lemma advance_live_ok s docs : at_doc s docs ->
  exists s', advanceOnTombstoneOrFilter t s = Ok s' /\ iter_ok s' /\ (s_exhausted s' = true \/ s_decoded s' = true) /\ left_docs s' = filter alive (docs_from (s_blockEntryIdx s) (s_blockDataIdx s)).
Proof.
  intros Ha. unfold advanceOnTombstoneOrFilter. rewrite (ad_live s docs Ha). destruct (bt_live t) as [live|] eqn:El.
  - apply (skip_dead_ok live _ s docs El Ha). pose proof (docs_from_length (s_blockEntryIdx s) (s_blockDataIdx s)). lia.
  - destruct (lookup_lt_is_Some_2 docs (s_blockDataIdx s) (ad_index s docs Ha)) as [[id tf] Hx]. assert (Hid : s_docIds s !! s_blockDataIdx s = Some id) by (by rewrite (ad_ids s docs Ha), list_lookup_fmap, Hx).
    rewrite Hid. eexists. split; [done|]. split; [|split; [right; apply Ha|]].
    + apply (ok_at _ docs); [by apply at_doc_set_id|done|]. unfold alive. by rewrite El.
    + unfold left_docs. cbn [set_id s_exhausted s_blockEntryIdx s_blockDataIdx]. by rewrite (ad_live s docs Ha).
Qed.

(** ** Order *)

(** The documents of a list from an id on *)
Definition from (d : Z) (l : list (Z * Z)) : list (Z * Z) := filter (fun x => d <= x.1) l.

Lemma from_split d l1 l2 : Forall (fun x => x.1 < d) l1 -> Forall (fun x => d <= x.1) l2 -> from d (l1 ++ l2) = l2.
Proof.
  intros H1 H2. unfold from. rewrite filter_app. rewrite (filter_none _ l1), (filter_all _ l2); [done| |].
  - intros x Hx. exact (proj1 (Forall_forall _ _) H2 x Hx).
  - intros x Hx Hd. pose proof (proj1 (Forall_forall _ _) H1 x Hx). cbn in *. lia.
Qed.

Lemma from_app d l1 l2 : from d (l1 ++ l2) = from d l1 ++ from d l2.
Proof. apply filter_app. Qed.

Lemma from_below d l : Forall (fun x => x.1 < d) l -> from d l = [].
Proof. intros H. rewrite <- (app_nil_r l). by apply from_split. Qed.

Lemma from_from d e l : d <= e -> from e (from d l) = from e l.
Proof. intros Hde. unfold from. rewrite list_filter_filter_l; [done|]. intros x Hx. lia. Qed.

Lemma from_alive d l : from d (filter alive l) = filter alive (from d l).
Proof. unfold from. rewrite !list_filter_filter. apply list_filter_iff. intros x. tauto. Qed.

Lemma docs_from_suffix idx j docs : bt_blocks t !! idx = Some docs -> exists l, concat (bt_blocks t) = l ++ docs_from idx j.
Proof.
  intros Hb. exists (concat (take idx (bt_blocks t)) ++ take j docs). rewrite (docs_from_block _ _ _ Hb), <- (take_drop_middle _ _ _ Hb) at 1. rewrite concat_app. cbn [concat].
  rewrite <- (take_drop j docs) at 1. by rewrite <- !app_assoc.
Qed.

Lemma docs_from_sorted idx j docs : bt_blocks t !! idx = Some docs -> StronglySorted Z.lt (map fst (docs_from idx j)).
Proof. intros Hb. destruct (docs_from_suffix idx j docs Hb) as [l Hl]. pose proof (tb_sorted t Ht) as Hs. rewrite Hl, map_app in Hs. by apply StronglySorted_app in Hs as (_ & _ & ?). Qed.

Lemma docs_from_ge idx j docs d : bt_blocks t !! idx = Some docs -> (forall x, docs !! j = Some x -> d <= x.1) -> (j < length docs)%nat -> Forall (fun x => d <= x.1) (docs_from idx j).
Proof.
  intros Hb Hx Hj. destruct (lookup_lt_is_Some_2 docs j Hj) as [x Ex]. specialize (Hx x Ex). pose proof (docs_from_sorted idx j docs Hb) as Hs. rewrite (docs_from_cons _ _ _ _ Hb Ex) in Hs |- *. cbn [map] in Hs. inversion_clear Hs as [|? ? _ Hall].
  constructor; [done|]. apply Forall_forall. intros y Hy. pose proof (proj1 (Forall_forall _ _) Hall y.1 (list_elem_of_fmap_2 fst _ _ Hy)). lia.
Qed.

(** No id of a block is larger than the one of its entry. *)
Lemma block_le_max idx e docs x : bt_entries t !! idx = Some e -> bt_blocks t !! idx = Some docs -> x ∈ docs -> x.1 <= MaxId e.
Proof.
  intros He Hb Hx. pose proof (docs_from_sorted idx 0 docs Hb) as Hs. rewrite (docs_from_block _ _ _ Hb), drop_0, map_app in Hs. apply StronglySorted_app in Hs as (_ & Hs & _).
  pose proof (tb_max t Ht _ _ _ He Hb) as Hm. apply last_Some in Hm as [l Hl]. rewrite Hl in Hs. apply (list_elem_of_fmap_2 fst) in Hx. change (fst <$> docs) with (map fst docs) in Hx. rewrite Hl in Hx.
  apply elem_of_app in Hx as [Hx| ->%list_elem_of_singleton]; [|lia]. pose proof (StronglySorted_app_1_elem_of _ _ _ _ _ Hs Hx (list_elem_of_here _ _)). lia.
Qed.

(** Documents after a block are beyond its entry. *)
Lemma later_gt_max idx e docs : bt_entries t !! idx = Some e -> bt_blocks t !! idx = Some docs -> Forall (fun x => MaxId e < x.1) (concat (drop (S idx) (bt_blocks t))).
Proof.
  intros He Hb. pose proof (docs_from_sorted idx 0 docs Hb) as Hs. rewrite (docs_from_block _ _ _ Hb), drop_0, map_app in Hs. pose proof (tb_max t Ht _ _ _ He Hb) as Hm. apply last_Some_elem_of in Hm.
  apply Forall_forall. intros x Hx. apply (StronglySorted_app_1_elem_of _ _ _ _ _ Hs Hm). by apply (list_elem_of_fmap_2 fst).
Qed.

Lemma docs_below_max idx e docs d j : bt_entries t !! idx = Some e -> bt_blocks t !! idx = Some docs -> MaxId e < d -> Forall (fun x => x.1 < d) (drop j docs).
Proof. intros He Hb Hd. apply Forall_forall. intros x Hx. pose proof (block_le_max idx e docs x He Hb ltac:(apply list_elem_of_lookup in Hx as [i Hi]; rewrite lookup_drop in Hi; by eapply list_elem_of_lookup_2)). lia. Qed.

(** ** Moving over blocks *)

Lemma skip_blocks_spec d : forall n idx, length (bt_entries t) = (idx + n)%nat -> let idx' := skip_blocks (drop idx (bt_entries t)) idx d in
  (idx <= idx' <= length (bt_entries t))%nat /\ (forall j, from d (docs_from idx j) = if (idx' =? idx)%nat then from d (docs_from idx j) else if (length (bt_entries t) <=? idx')%nat then [] else from d (docs_from idx' 0)) /\
  (forall e, bt_entries t !! idx' = Some e -> d <= MaxId e).
Proof.
  induction n as [|n IH]; intros idx Hn idx'; subst idx'.
  { rewrite drop_ge by lia. cbn [skip_blocks]. rewrite Nat.eqb_refl. split_and!; [lia|lia|done|]. intros e He. apply lookup_lt_Some in He. lia. }
  destruct (lookup_lt_is_Some_2 (bt_entries t) idx) as [e Ee]; [lia|]. destruct (proj1 (block_of_entry idx) ltac:(by eexists)) as [docs Hb]. rewrite (drop_S _ _ _ Ee). cbn [skip_blocks]. destruct (Z.ltb_spec (MaxId e) d) as [Hlt|Hge].
  - destruct (IH (S idx) ltac:(lia)) as ([H1 H1'] & H2 & H3). set (idx' := skip_blocks _ _ _) in *. split_and!; [lia|lia| |done]. intros j. rewrite (proj2 (Nat.eqb_neq _ _)) by lia.
    rewrite (docs_from_block _ _ _ Hb), from_app, (from_below d (drop j docs)) by (by eapply docs_below_max). cbn [app]. destruct (Nat.leb_spec (length (bt_entries t)) idx') as [Hend|Hin].
    + destruct (Nat.eqb_spec idx' (S idx)) as [Heq|Hne].
      * rewrite drop_ge; [done|]. rewrite (tb_length t Ht). lia.
      * specialize (H2 0%nat). rewrite <- H2. f_equal.
        rewrite <- (docs_from_next idx (length docs) docs Hb) by done. by rewrite (docs_from_block _ _ _ Hb), drop_all.
    + assert (E : concat (drop (S idx) (bt_blocks t)) = docs_from (S idx) 0) by (rewrite <- (docs_from_next idx (length docs) docs Hb) by done; by rewrite (docs_from_block _ _ _ Hb), drop_all).
      rewrite E. specialize (H2 0%nat). rewrite H2. by destruct (Nat.eqb_spec idx' (S idx)) as [->|].
  - rewrite Nat.eqb_refl. split_and!; [lia|lia|done|]. intros e' He'. rewrite Ee in He'. injection He' as <-. done.
Qed.

Lemma skip_docs_spec docs d last : forall n j, (last + 1 = j + n)%nat -> (last < length docs)%nat -> let j' := skip_docs (drop j (map fst docs)) j last d in
  (j <= j')%nat /\ (j <= last -> j' <= last)%nat /\ Forall (fun x => x.1 < d) (take (j' - j) (drop j docs)) /\ ((j <= last)%nat -> j' = last \/ forall x, docs !! j' = Some x -> d <= x.1).
Proof.
  induction n as [|n IH]; intros j Hn Hlast j'; subst j'; destruct (drop j (map fst docs)) as [|id ids] eqn:Ed.
  - cbn [skip_docs]. rewrite Nat.sub_diag, take_0. split_and!; [lia|lia|constructor|lia].
  - cbn [skip_docs]. rewrite (proj2 (Nat.ltb_ge _ _)) by lia. cbn [andb]. rewrite Nat.sub_diag, take_0. split_and!; [lia|lia|constructor|lia].
  - cbn [skip_docs]. rewrite Nat.sub_diag, take_0. apply (f_equal length) in Ed. rewrite length_drop, length_map in Ed. cbn in Ed. lia.
  - cbn [skip_docs]. assert (Hid : map fst docs !! j = Some id) by (rewrite <- (Nat.add_0_r j), <- lookup_drop, Ed; done). rewrite list_lookup_fmap in Hid. destruct (docs !! j) as [x|] eqn:Ex; [|done]. injection Hid as Hid.
    assert (Eids : drop (S j) (map fst docs) = ids) by (rewrite (drop_S _ id j) in Ed by (by rewrite list_lookup_fmap, Ex; cbn; rewrite Hid); congruence).
    destruct (Nat.ltb_spec j last) as [Hj|Hj]; cbn [andb]; [destruct (Z.ltb_spec id d) as [Hlt|Hge]|].
    + pose proof (IH (S j) ltac:(lia) Hlast) as IH'. cbv zeta in IH'. rewrite Eids in IH'. destruct IH' as (H1 & H2 & H3 & H4). set (j' := skip_docs ids (S j) last d) in *. split_and!; [lia|lia| |intros _; apply H4; lia].
      rewrite (drop_S _ _ _ Ex). replace (j' - j)%nat with (S (j' - S j)) by lia. cbn [take]. constructor; [by rewrite Hid|done].
    + rewrite Nat.sub_diag, take_0. split_and!; [lia|lia|constructor|]. intros _. right. intros y Hy. rewrite Ex in Hy. injection Hy as <-. lia.
    + rewrite Nat.sub_diag, take_0. split_and!; [lia|lia|constructor|]. intros Hjl. left. lia.
Qed.

(** ** The operations *)

Lemma iter_position s : iter_ok s -> s_exhausted s = false -> exists e docs, bt_entries t !! s_blockEntryIdx s = Some e /\ bt_blocks t !! s_blockEntryIdx s = Some docs /\ s_idf s = w /\
  s_currentBlockMaxId s = MaxId e /\ s_currentBlockImpact s = entry_impact t w e /\
  (s_decoded s = true /\ at_doc s docs \/ s_decoded s = false /\ s_blockDataIdx s = 0%nat /\ ENCODE_AS_FULL_BYTES < bt_docCount t).
Proof.
  intros [docs Ha _ _|e before He Hw Hd _ Hj Hi Ee _ _ Hm Hp|He _] Hex; [| |congruence].
  - destruct (ad_entry s docs Ha) as (e & Ee & Hm & Hp). exists e, docs. split_and!; [done|apply Ha|apply Ha|done|done|]. left. split; [apply Ha|done].
  - destruct (proj1 (block_of_entry _) ltac:(by eexists)) as [docs Hb]. exists e, docs. split_and!; [done..|]. right. split_and!; [done|done|]. apply Z.nle_gt. intros Hle. pose proof (tb_single t Ht Hle). apply lookup_lt_Some in Ee. lia.
Qed.

Lemma iter_left_sorted s : iter_ok s -> StronglySorted Z.lt (map fst (left_docs s)).
Proof.
  intros Hok. unfold left_docs. destruct (s_exhausted s) eqn:He; [constructor|]. destruct (iter_position s Hok He) as (e & docs & _ & Hb & _). pose proof (docs_from_sorted _ (s_blockDataIdx s) _ Hb) as Hs.
  induction (docs_from _ _) as [|x l IH]; [constructor|]. cbn [map] in Hs. inversion_clear Hs as [|? ? Hs' Hx]. rewrite filter_cons. destruct (decide (alive x)); [|by apply IH]. cbn [map]. constructor; [by apply IH|].
  apply Forall_forall. intros i (y & -> & [_ Hy]%list_elem_of_filter)%list_elem_of_fmap. exact (proj1 (Forall_forall _ _) Hx _ (list_elem_of_fmap_2 fst _ _ Hy)).
Qed.

(** [AdvanceAtLeast] goes to the first document from [d] on that counts. *)
Lemma block_AdvanceAtLeast_ok s d : iter_ok s ->
  exists s', block_AdvanceAtLeast t s d = Ok s' /\ iter_ok s' /\ (s_exhausted s' = true \/ s_decoded s' = true) /\ left_docs s' = from d (left_docs s).
Proof.
  intros Hok. unfold block_AdvanceAtLeast, left_docs at 2. destruct (s_exhausted s) eqn:He; [exists s; split_and!; [done|done|by left|unfold left_docs; by rewrite He]|].
  destruct (iter_position s Hok He) as (e & docs & Ee & Hb & Hw & _ & _ & Hpos). apply lookup_lt_Some in Ee as Hlt.
  destruct (skip_blocks_spec d (length (bt_entries t) - s_blockEntryIdx s) (s_blockEntryIdx s) ltac:(lia)) as (Hidx & Hskip & Hreach). set (idx := skip_blocks _ _ d) in *. specialize (Hskip (s_blockDataIdx s)). rewrite from_alive.
  destruct (Nat.leb_spec (length (bt_entries t)) idx) as [Hend|Hin].
  { destruct (Nat.eqb_spec idx (s_blockEntryIdx s)); [lia|]. eexists. split; [done|]. split; [by apply ok_end|]. split; [by left|]. rewrite Hskip. done. }
  destruct (lookup_lt_is_Some_2 _ _ Hin) as [e' Ee']. destruct (proj1 (block_of_entry idx) ltac:(by eexists)) as [docs' Hb']. specialize (Hreach e' Ee').
  assert (exists s1, (if s_decoded (if (idx =? s_blockEntryIdx s)%nat then s else set_position s idx (s_blockDataIdx s) false false) then Ok (if (idx =? s_blockEntryIdx s)%nat then s else set_position s idx (s_blockDataIdx s) false false)
      else decodeBlock t (if (idx =? s_blockEntryIdx s)%nat then s else set_position s idx (s_blockDataIdx s) false false)) = Ok s1 /\ at_doc s1 docs' /\ s_blockEntryIdx s1 = idx /\ from d (docs_from (s_blockEntryIdx s) (s_blockDataIdx s)) = from d (docs_from idx (s_blockDataIdx s1))) as (s1 & -> & Ha1 & Hi1 & Hfrom).
  { destruct (Nat.eqb_spec idx (s_blockEntryIdx s)) as [Heq|Hne].
    - rewrite Heq in *. assert (docs' = docs) as -> by congruence. destruct Hpos as [[-> Ha]|(-> & Hj & Hc)]; [by exists s|].
      destruct (decodeBlock_ok s docs He Hw Hb ltac:(lia)) as (s1 & E & Ha & Hi & Hj1 & _). exists s1. split_and!; [done|done|done|]. by rewrite Hj, Hj1.
    - cbn [set_position s_decoded]. destruct (decodeBlock_ok (set_position s idx (s_blockDataIdx s) false false) docs' He Hw Hb') as (s1 & E & Ha & Hi & Hj1 & _).
      { intros Hle. pose proof (tb_single t Ht Hle). lia. }
      exists s1. split_and!; [done|done|done|]. rewrite Hskip, Hj1. done. }
  cbn [obind]. pose proof (ad_index s1 docs' Ha1) as Hj1. rewrite (ad_ids s1 docs' Ha1), (ad_size s1 docs' Ha1). destruct (skip_docs_spec docs' d (length docs' - 1) (length docs' - s_blockDataIdx s1) (s_blockDataIdx s1) ltac:(lia) ltac:(lia)) as (H1 & H2 & H3 & H4).
  set (j := skip_docs _ _ _ d) in *. specialize (H2 ltac:(lia)). specialize (H4 ltac:(lia)).
  destruct (advance_live_ok (set_position s1 (s_blockEntryIdx s1) j (s_decoded s1) (s_freqDecoded s1)) docs') as (s' & E & Hok' & Hd' & Hleft); [apply at_doc_move; [done|lia]|]. exists s'. split_and!; [done|done|done|]. rewrite Hleft, Hfrom.
  cbn [set_position s_blockEntryIdx s_blockDataIdx]. rewrite Hi1. f_equal. rewrite !(docs_from_block idx _ _ Hb').
  assert (Hcut : drop (s_blockDataIdx s1) docs' = take (j - s_blockDataIdx s1) (drop (s_blockDataIdx s1) docs') ++ drop j docs').
  { rewrite <- (take_drop (j - s_blockDataIdx s1) (drop (s_blockDataIdx s1) docs')) at 1. f_equal. rewrite drop_drop. f_equal. lia. }
  rewrite Hcut, <- app_assoc, <- (docs_from_block idx j docs' Hb'). symmetry. apply from_split; [exact H3|]. apply (docs_from_ge idx j docs' d Hb'); [|lia]. intros x Hx. destruct H4 as [Hlast|H4]; [|by apply H4].
  pose proof (tb_max t Ht _ _ _ Ee' Hb') as Hmax. rewrite last_lookup, length_map, list_lookup_fmap in Hmax. replace (Init.Nat.pred (length docs')) with j in Hmax by lia. rewrite Hx in Hmax. injection Hmax as ->. exact Hreach.
Qed.

(** [AdvanceAtLeastShallow] goes to the block that may have a document from [d] on; no such document is lost. *)
Lemma block_AdvanceAtLeastShallow_ok s d : iter_ok s ->
  exists s', block_AdvanceAtLeastShallow t s d = Ok s' /\ iter_ok s' /\ from d (left_docs s') = from d (left_docs s) /\ (s_exhausted s' = false -> d <= s_currentBlockMaxId s') /\ (s_exhausted s' = true -> from d (left_docs s) = []).
Proof.
  intros Hok. unfold block_AdvanceAtLeastShallow. destruct (s_exhausted s) eqn:He.
  { exists s. split_and!; [done|done|done|congruence|]. intros _. unfold left_docs. by rewrite He. }
  destruct (iter_position s Hok He) as (e & docs & Ee & Hb & Hw & Hm & _ & Hpos). rewrite Ee. destruct (Z.leb_spec d (MaxId e)) as [Hle|Hgt].
  { exists s. split_and!; [done|done|done|intros _; by rewrite Hm|congruence]. }
  apply lookup_lt_Some in Ee as Hlt. destruct (skip_blocks_spec d (length (bt_entries t) - s_blockEntryIdx s) (s_blockEntryIdx s) ltac:(lia)) as (Hidx & Hskip & Hreach). set (idx := skip_blocks _ _ d) in *. specialize (Hskip (s_blockDataIdx s)).
  assert (Hne : idx <> s_blockEntryIdx s) by (intros Heq; rewrite Heq in Hreach; pose proof (Hreach e Ee); lia). rewrite (proj2 (Nat.eqb_neq _ _) Hne) in Hskip.
  assert (Hleft : from d (left_docs s) = filter alive (from d (docs_from (s_blockEntryIdx s) (s_blockDataIdx s)))) by (unfold left_docs; rewrite He; apply from_alive).
  destruct (bt_entries t !! idx) as [e'|] eqn:Ee'.
  - destruct (lookup_lt_is_Some_2 (bt_entries t) (idx - 1)) as [before Eb]; [lia|]. rewrite Eb. apply lookup_lt_Some in Ee' as Hlt'. rewrite (proj2 (Nat.leb_gt _ _)) in Hskip by lia.
    eexists. split; [done|]. split; [|split_and!].
    + by apply (ok_before _ e' before); cbn; try done; [lia|by rewrite Hw].
    + rewrite Hleft, Hskip. unfold left_docs. cbn [set_position s_exhausted s_blockEntryIdx s_blockDataIdx]. rewrite He. apply from_alive.
    + intros _. cbn. by apply Hreach.
    + cbn. congruence.
  - apply lookup_ge_None in Ee'. rewrite (proj2 (Nat.leb_le _ _)) in Hskip by lia. eexists. split; [done|]. split; [by apply ok_end|]. rewrite Hleft, Hskip. split_and!; [done|cbn; congruence|done].
Qed.

Lemma iter_head s : iter_ok s -> s_exhausted s = false -> s_decoded s = true ->
  exists docs tf, at_doc s docs /\ docs !! s_blockDataIdx s = Some (s_idPointer s, tf) /\ left_docs s = (s_idPointer s, tf) :: filter alive (docs_from (s_blockEntryIdx s) (S (s_blockDataIdx s))).
Proof.
  intros Hok He Hd. destruct Hok as [docs Ha Hid Hal|? ? ? ? Hd' |]; [|congruence..]. destruct (lookup_lt_is_Some_2 docs (s_blockDataIdx s) (ad_index s docs Ha)) as [[id tf] Hx]. exists docs, tf.
  rewrite (ad_ids s docs Ha), list_lookup_fmap, Hx in Hid. injection Hid as Hid. cbn [fst] in Hid. subst id. split_and!; [done|done|]. unfold left_docs. rewrite He, (docs_from_cons _ _ _ _ (ad_block s docs Ha) Hx). by rewrite filter_cons_True.
Qed.

Lemma block_Advance_ok s : iter_ok s -> s_exhausted s = true \/ s_decoded s = true ->
  exists s', block_Advance t s = Ok s' /\ iter_ok s' /\ (s_exhausted s' = true \/ s_decoded s' = true) /\ left_docs s' = tail (left_docs s).
Proof.
  intros Hok Hst. unfold block_Advance. destruct (s_exhausted s) eqn:He; [exists s; split_and!; [done|done|by left|unfold left_docs; by rewrite He]|]. destruct Hst as [|Hd]; [done|]. rewrite Hd. cbn [negb].
  destruct (iter_head s Hok He Hd) as (docs & tf & Ha & Hx & Hleft). rewrite Hleft. cbn [tail set_position s_blockDataSize s_blockDataIdx s_blockEntryIdx s_decoded s_freqDecoded]. rewrite (ad_size s docs Ha). pose proof (ad_index s docs Ha) as Hi.
  destruct (Nat.leb_spec (length docs) (S (s_blockDataIdx s))) as [Hend|Hmore].
  - rewrite (docs_from_next _ _ _ (ad_block s docs Ha)) by lia. destruct (bt_blocks t !! S (s_blockEntryIdx s)) as [docs'|] eqn:Hb'.
    + destruct (decodeBlock_ok (set_position (set_position s (s_blockEntryIdx s) (S (s_blockDataIdx s)) true (s_freqDecoded s)) (S (s_blockEntryIdx s)) 0 true (s_freqDecoded s)) docs') as (s1 & E & Ha1 & Hi1 & Hj1 & _); [done|apply Ha|done| |].
      { intros Hle. pose proof (single_block s docs Ha Hle). apply lookup_lt_Some in Hb'. rewrite (tb_length t Ht) in Hb'. lia. }
      cbn [set_position s_blockEntryIdx] in E, Hi1. rewrite E. cbn [obind]. rewrite (ad_live s1 docs' Ha1). destruct (advance_live_ok s1 docs' Ha1) as (s' & E' & Hok' & Hd' & Hl'). exists s'. rewrite Hi1, Hj1 in Hl'. by split_and!.
    + apply lookup_ge_None in Hb'. rewrite (tb_length t Ht) in Hb'. pose proof (tb_some t Ht) as Hne. unfold decodeBlock. cbn [set_position s_exhausted s_blockEntryIdx]. rewrite He. destruct (Nat.eqb_spec (length (bt_entries t)) 0) as [E0|_]; [by apply length_zero_iff_nil in E0|].
      rewrite (proj2 (Nat.leb_le _ _)) by lia. cbn [obind exhaust s_exhausted]. eexists. split; [done|]. split; [by apply ok_end|]. split; [by left|]. unfold left_docs at 1. cbn [exhaust s_exhausted]. unfold docs_from.
      rewrite (proj2 (lookup_ge_None (bt_blocks t) (S (s_blockEntryIdx s)))) by (rewrite (tb_length t Ht); lia). cbn [from_option]. rewrite drop_nil, drop_ge; [done|]. rewrite (tb_length t Ht). lia.
  - cbn [obind set_position s_exhausted]. rewrite He. destruct (advance_live_ok (set_position s (s_blockEntryIdx s) (S (s_blockDataIdx s)) true (s_freqDecoded s)) docs) as (s' & E & Hok' & Hd' & Hl'); [rewrite <- Hd; apply at_doc_move; [done|lia]|]. by exists s'.
Qed.

(** The score of a document of the term *)
Definition doc_impact (x : Z * Z) : Qc := (block_tf t (Qc_of_Z x.2) (Qc_of_Z (bt_propLength t x.1)) * w * bt_boost t)%Qc.

Lemma block_Score_ok s explain : iter_ok s -> s_exhausted s = false -> s_decoded s = true ->
  exists s' d x, block_Score t s explain = Ok (s', (s_idPointer s, doc_impact x, d)) /\ iter_ok s' /\ s_exhausted s' = false /\ s_decoded s' = true /\ left_docs s' = left_docs s /\ head (left_docs s) = Some x /\ x.1 = s_idPointer s /\ (d = None <-> explain = false).
Proof.
  intros Hok He Hd. destruct (iter_head s Hok He Hd) as (docs & tf & Ha & Hx & Hleft). unfold block_Score. rewrite He.
  assert (exists s', (if s_freqDecoded s then Ok s else match bt_blocks t !! s_blockEntryIdx s with None => Panic | Some docs => Ok (Iter (s_idPointer s) (s_idf s) (s_currentBlockMaxId s) (s_currentBlockImpact s) false (s_decoded s) true (s_blockEntryIdx s) (s_docIds s) (take (s_blockDataSize s) (map snd docs)) (s_blockDataIdx s) (s_blockDataSize s)) end) = (Ok s' : run_t SegmentBlockMax) /\
    at_doc s' docs /\ s_freqDecoded s' = true /\ s_idPointer s' = s_idPointer s /\ s_blockDataIdx s' = s_blockDataIdx s /\ s_docIds s' = s_docIds s /\ left_docs s' = left_docs s /\ s_idf s' = w) as (s' & -> & Ha' & Hfr & Hp & Hj & Hids & Hl & Hw').
  { destruct (s_freqDecoded s) eqn:Ef; [exists s; split_and!; try done; apply Ha|]. rewrite (ad_block s docs Ha). eexists. split; [done|]. rewrite take_ge by (rewrite length_map, (ad_size s docs Ha); lia). split_and!; try done; [|unfold left_docs; cbn [s_exhausted]; by rewrite He|apply Ha]. destruct Ha. by split. }
  cbn [obind]. rewrite (ad_tfs s' docs Ha' Hfr), Hj, list_lookup_fmap, Hx. cbn [fmap option_fmap option_map snd]. rewrite Hp, Hw'. exists s'. eexists. exists (s_idPointer s, tf). split; [done|]. split.
  { apply (ok_at _ docs); [done|by rewrite Hids, Hj, Hp; destruct Hok; [|congruence..]|]. destruct Hok; [by rewrite Hp|congruence..]. }
  split_and!; [apply Ha'|apply Ha'|done|by rewrite Hleft|done|]. by destruct explain.
Qed.

(** How far the bounds may be off, by the rounding to 32 bits and by entries that were written for another average length: no document scores more than
    the bound of its block and [e], and no sum of bounds loses more than [e]. *)
Record bounds_within (e : Qc) : Prop := {
  bw_error : (0 ≤ e)%Qc;
  bw_round x : (x ≤ bt_float32 t x + e)%Qc;
  bw_impact idx entry docs x : bt_entries t !! idx = Some entry -> bt_blocks t !! idx = Some docs -> x ∈ docs -> (doc_impact x ≤ entry_impact t w entry + e)%Qc
}.

(** Entries of which the frequency and length give the largest share of a block *)
Definition entries_bound : Prop := forall idx entry docs x, bt_entries t !! idx = Some entry -> bt_blocks t !! idx = Some docs -> x ∈ docs ->
  (block_tf t (Qc_of_Z x.2) (Qc_of_Z (bt_propLength t x.1)) ≤ block_tf t (Qc_of_Z (MaxImpactTf entry)) (Qc_of_Z (MaxImpactPropLength entry)))%Qc.

(** Such bounds are exact where rounding is not downwards. *)
Lemma bounds_exact : (0 ≤ w * bt_boost t)%Qc -> (forall x, (x ≤ bt_float32 t x)%Qc) -> entries_bound -> bounds_within 0.
Proof.
  intros Hw Hr Hi. split; [done|intros; rewrite Qcplus_0_r..]; [apply Hr|]. unfold doc_impact, entry_impact. eapply Qcle_trans; [|apply Hr].
  replace (w * block_tf t _ _ * bt_boost t)%Qc with (block_tf t (Qc_of_Z (MaxImpactTf entry)) (Qc_of_Z (MaxImpactPropLength entry)) * (w * bt_boost t))%Qc by ring.
  rewrite <- Qcmult_assoc. apply Qcmult_le_compat_r; [by eapply Hi|done].
Qed.

(** No document of the current block has a score above the bound by more than the error. *)
Lemma iter_impact e0 s x : bounds_within e0 -> iter_ok s -> s_exhausted s = false -> x ∈ left_docs s -> x.1 <= s_currentBlockMaxId s -> (doc_impact x ≤ s_currentBlockImpact s + e0)%Qc.
Proof.
  intros Hh Hok He Hx Hle. destruct (iter_position s Hok He) as (e & docs & Ee & Hb & _ & Hm & -> & _). rewrite Hm in Hle. unfold left_docs in Hx. rewrite He in Hx. apply list_elem_of_filter in Hx as [_ Hx]. rewrite (docs_from_block _ _ _ Hb) in Hx.
  apply elem_of_app in Hx as [Hx|Hx]; [|pose proof (proj1 (Forall_forall _ _) (later_gt_max _ _ _ Ee Hb) x Hx); cbn in *; lia]. assert (Hin : x ∈ docs) by (apply list_elem_of_lookup in Hx as [i Hi]; rewrite lookup_drop in Hi; by eapply list_elem_of_lookup_2).
  exact (bw_impact e0 Hh _ _ _ x Ee Hb Hin).
Qed.

(** A new iterator is at the first document that counts. *)
Lemma block_reset_ok : exists s, block_reset t w = Ok s /\ iter_ok s /\ (s_exhausted s = true \/ s_decoded s = true) /\ left_docs s = filter alive (concat (bt_blocks t)).
Proof.
  unfold block_reset. destruct (bt_blocks t) as [|docs blocks] eqn:Eb; [pose proof (tb_length t Ht) as Hl; rewrite Eb in Hl; destruct (bt_entries t) eqn:E; [by apply (tb_some t Ht) in E|done]|]. rewrite <- Eb.
  assert (Hb : bt_blocks t !! 0%nat = Some docs) by by rewrite Eb. rewrite Hb. set (pre := if bt_docCount t <=? ENCODE_AS_FULL_BYTES then _ else _).
  destruct (decodeBlock_ok (Iter 0 w 0 0 false false false 0 (map fst pre) (map snd pre) 0 0) docs eq_refl eq_refl Hb) as (s & -> & Ha & Hi & Hj & _).
  { intros Hle. unfold pre. by rewrite (proj2 (Z.leb_le _ _) Hle). }
  cbn [obind]. destruct (advance_live_ok s docs Ha) as (s' & E & Hok & Hd & Hl). exists s'. split_and!; [done|done|done|]. rewrite Hl, Hi, Hj. cbn [s_blockEntryIdx]. rewrite (docs_from_block _ _ _ Hb), drop_0, Eb. done.
Qed.
End correct.
