(* ===== verification/BlockFile.v ===== *)
(** * Blocks of documents in a segment file

    The bytes of block entries and block data ([adapters/repos/db/inverted/terms/terms_block.go]), of all blocks of a word
    ([EncodeBlocks] of [adapters/repos/db/inverted/blockenc/blockenc.go]), and how an iterator of [adapters/repos/db/lsmkv/segment_blockmax.go] loads
    them from a segment that is mapped into memory.  BlockWriter.v shows that what is written is loaded. *)

From Stdlib Require Import QArith Qcanon Qround.
From stdpp Require Import numbers sorting.
From S2P Require Import Prelude Varenc MemtableTree PriorityQueue Bm25Terms BlockMax.
Import Map.

#[local] Open Scope Z_scope.

(** The operations of encoders and decoders return no error. *)
Definition coded {A} (m : outcome Empty_set A) : run_t A := omap_err (fun e : Empty_set => match e with end) m.

(** [b[lo:hi]] *)
Definition sub_slice (b : list Z) (lo hi : Z) : run_t (list Z) :=
  if (lo <? 0) || (hi <? lo) || (Z.of_nat (length b) <? hi) then Panic else Ok (take (Z.to_nat (hi - lo)) (drop (Z.to_nat lo) b)).

(** ** Entries and data of blocks *)

Definition entry_Size : Z := 20.
Definition entry_Encode (e : BlockEntry) : list Z := le_split 8 (MaxId e) ++ le_split 4 (Offset e) ++ le_split 4 (MaxImpactTf e) ++ le_split 4 (MaxImpactPropLength e).

Definition DecodeBlockEntryInto (data : list Z) : run_t BlockEntry :=
  if (length data <? 20)%nat then Panic
  else Ok (MkEntry (le_combine (take 8 data)) (le_combine (take 4 (drop 8 data))) (le_combine (take 4 (drop 12 data))) (le_combine (take 4 (drop 16 data)))).

Record BlockData : Type := MkData { DocIds : list Z; Tfs : list Z }.

Definition data_Size (d : BlockData) : Z := 2 * 2 + Z.of_nat (length (DocIds d)) + Z.of_nat (length (Tfs d)).

(** The lengths are cut to 16 bits. *)
Definition data_Encode (d : BlockData) : list Z := le_split 2 (Z.of_nat (length (DocIds d))) ++ le_split 2 (Z.of_nat (length (Tfs d))) ++ DocIds d ++ Tfs d.

(** [data] is a part of a larger slice: [beyond] follows it and is within its capacity. *)
Definition DecodeBlockDataReusable (data beyond : list Z) : run_t BlockData :=
  if (length data <? 4)%nat then Panic
  else
    let docIdsLen := le_combine (take 2 data) in
    let termFreqsLen := le_combine (take 2 (drop 2 data)) in
    let! docIds := sub_slice (data ++ beyond) 4 (u16 (4 + docIdsLen)) in
    let! tfs := sub_slice (data ++ beyond) (u16 (4 + docIdsLen)) (u16 (4 + docIdsLen + termFreqsLen)) in
    Ok (MkData docIds tfs).

(** ** All blocks of a word *)

(** [copy(out[offset:], src)] *)
Definition copy_at (out : list Z) (offset : nat) (src : list Z) : run_t (list Z) :=
  if (length out <? offset)%nat then Panic else Ok (take offset out ++ take (length out - offset) src ++ drop (offset + length src) out).

Fixpoint copy_all (out : list Z) (offset : nat) (l : list (list Z * Z)) : run_t (list Z * nat) :=
  match l with
  | [] => Ok (out, offset)
  | (src, size) :: l => let! out := copy_at out offset src in copy_all out (offset + Z.to_nat size) l
  end.

Fixpoint blocks_length (entries : list BlockEntry) (datas : list BlockData) : run_t Z :=
  match datas, entries with
  | [], _ => Ok 0
  | _ :: _, [] => Panic
  | d :: datas, _ :: entries => let! n := blocks_length entries datas in Ok (data_Size d + entry_Size + n)
  end.

Definition EncodeBlocks (blockEntries : list BlockEntry) (blockDatas : list BlockData) (docCount : Z) : run_t (list Z) :=
  let! length := blocks_length blockEntries blockDatas in
  let out := le_split 8 docCount ++ le_split 8 length ++ replicate (Z.to_nat length) 0 in
  let! (out, offset) := copy_all out 16 (map (fun e => (entry_Encode e, entry_Size)) blockEntries) in
  let! (out, _) := copy_all out offset (map (fun d => (data_Encode d, data_Size d)) blockDatas) in
  Ok out.

(** ** Loading *)

(** [segmentindex.Node] *)
Record file_node : Type := FileNode { fn_Start : Z; fn_End : Z; fn_Key : list Z }.

Section reader.
Context (Float32frombits : Z -> Qc).

(** The conversion of a float that is not negative *)
Definition uint64_of (x : Qc) : Z := u64 (Qfloor (this x)).

Fixpoint fixed_loop (fuel : nat) (data : list Z) (offset : Z) (i : nat) (docIds tfs : list Z) : run_t (list Z * list Z) :=
  match fuel with
  | O => OutOfFuel
  | S fuel =>
      if Z.of_nat (length data) <=? offset then Ok (docIds, tfs)
      else
        let! id := sub_slice data offset (offset + 8) in
        let! tf := sub_slice data (offset + 8) (offset + 12) in
        if (i <? length docIds)%nat && (i <? length tfs)%nat then
          fixed_loop fuel data (offset + 16) (S i) (<[i := be_combine id]> docIds) (<[i := uint64_of (Float32frombits (le_combine tf))]> tfs)
        else Panic
  end.

Definition ConvertFixedLengthFromMemory (data : list Z) (blockSize : Z) : run_t (list Z * list Z) :=
  fixed_loop (S (length data)) data 8 0 (replicate (Z.to_nat blockSize) 0) (replicate (Z.to_nat blockSize) 0).

Fixpoint decode_entries (n : nat) (buf : list Z) : run_t (list BlockEntry) :=
  match n with
  | O => Ok []
  | S n =>
      let! e := DecodeBlockEntryInto (take 20 buf) in
      let! entries := decode_entries n (drop 20 buf) in
      Ok (e :: entries)
  end.

Context (contents : list Z) (node : file_node) (get : Z -> Z).

(** The entries, the number of documents, and a single document with its frequency; [get]: the lengths of the property *)
Definition loadBlockEntries : run_t (list BlockEntry * Z * option (list (Z * Z))) :=
  let! buf := sub_slice contents (fn_Start node) (fn_Start node + (8 + 12 * ENCODE_AS_FULL_BYTES)) in
  let docCount := le_combine (take 8 buf) in
  if docCount <=? ENCODE_AS_FULL_BYTES then
    let! (docIds, tfs) := ConvertFixedLengthFromMemory buf docCount in
    match docIds !! 0%nat, tfs !! 0%nat, last docIds with
    | Some id, Some tf, Some maxId => Ok ([MkEntry maxId 0 (u32 tf) (u32 (get id))], docCount, Some (combine docIds tfs))
    | _, _, _ => Panic
    end
  else
    let blockCount := u64 (docCount + (BLOCK_SIZE - 1)) / BLOCK_SIZE in
    let! buf := sub_slice contents (fn_Start node + 16) (fn_Start node + 16 + blockCount * 20) in
    let! entries := decode_entries (Z.to_nat blockCount) buf in
    Ok (entries, docCount, None).

Context (docIdsBuf tfsBuf : list Z).

(** The block at [idx], as it is decoded into the buffers of the iterator, with what is in these *)
Definition read_block (entries : list BlockEntry) (docCount : Z) (idx : nat) : run_t (list (Z * Z)) :=
  match entries !! idx with
  | None => Panic
  | Some e =>
      let blockDataStartOffset := fn_Start node + 16 + Z.of_nat (length entries) * 20 in
      let startOffset := Offset e + blockDataStartOffset in
      let endOffset := match entries !! S idx with Some e => Offset e + blockDataStartOffset | None => fn_End node - (Z.of_nat (length (fn_Key node)) + 4) end in
      let! data := sub_slice contents startOffset endOffset in
      let! blockData := DecodeBlockDataReusable data (drop (Z.to_nat endOffset) contents) in
      let blockDataSize := if (idx =? length entries - 1)%nat then docCount - BLOCK_SIZE * Z.of_nat idx else BLOCK_SIZE in
      if (blockDataSize <? 0) || (Z.of_nat (length docIdsBuf) <? blockDataSize) || (Z.of_nat (length tfsBuf) <? blockDataSize) then Panic
      else
        let! docIds := coded (decodeReusable (take (Z.to_nat blockDataSize) docIdsBuf) (DocIds blockData) true) in
        let! tfs := coded (decodeReusable (take (Z.to_nat blockDataSize) tfsBuf) (Tfs blockData) false) in
        Ok (combine docIds tfs)
  end.

Fixpoint read_blocks (entries : list BlockEntry) (docCount : Z) (n idx : nat) : run_t (list (list (Z * Z))) :=
  match n with
  | O => Ok []
  | S n =>
      let! docs := read_block entries docCount idx in
      let! blocks := read_blocks entries docCount n (S idx) in
      Ok (docs :: blocks)
  end.

(** What an iterator of BlockMax.v goes over: all that it can get from the file *)
Definition load_term (live : option (Z -> bool)) (boost k1 b average : Qc) (float32 : Qc -> Qc) (index : nat) : run_t block_term :=
  let! (entries, docCount, single) := loadBlockEntries in
  let! blocks := match single with Some docs => Ok [docs] | None => read_blocks entries docCount (length entries) 0 end in
  Ok (BlockTerm entries blocks docCount live get boost k1 b average float32 index).
End reader.

(** * Correctness *)

Lemma sub_slice_ok pre b post lo hi : lo = Z.of_nat (length pre) -> hi = lo + Z.of_nat (length b) -> sub_slice (pre ++ b ++ post) lo hi = Ok b.
Proof.
  intros -> ->. unfold sub_slice. rewrite !length_app, (proj2 (Z.ltb_ge _ _)), (proj2 (Z.ltb_ge _ _)), (proj2 (Z.ltb_ge _ _)) by lia. cbn [orb].
  replace (Z.to_nat _) with (length b) by lia. by rewrite Nat2Z.id, drop_app_length, take_app_length.
Qed.

Lemma sub_slice_exact b a c lo hi : b = a ++ c -> lo = 0 -> hi = Z.of_nat (length a) -> sub_slice b lo hi = Ok a.
Proof. intros -> -> ->. by apply (sub_slice_ok [] a c). Qed.

Record entry_fits (e : BlockEntry) : Prop := { ef_max : is_u64 (MaxId e); ef_offset : is_u32 (Offset e); ef_tf : is_u32 (MaxImpactTf e); ef_length : is_u32 (MaxImpactPropLength e) }.

Lemma length_entry_Encode e : length (entry_Encode e) = 20%nat.
Proof. unfold entry_Encode. by rewrite !length_app, !length_le_split. Qed.

Lemma entry_roundtrip e : entry_fits e -> DecodeBlockEntryInto (entry_Encode e) = Ok e.
Proof.
  intros [H1 H2 H3 H4]. unfold DecodeBlockEntryInto. rewrite length_entry_Encode. cbn [Nat.ltb Nat.leb]. unfold entry_Encode.
  assert (E8 : forall v (l : list Z), take 8 (le_split 8 v ++ l) = le_split 8 v) by (intros v l; by rewrite take_app_le, take_ge by by rewrite length_le_split).
  assert (E4 : forall v (l : list Z), take 4 (le_split 4 v ++ l) = le_split 4 v) by (intros v l; by rewrite take_app_le, take_ge by by rewrite length_le_split).
  assert (D8 : forall v (l : list Z) n, drop (8 + n) (le_split 8 v ++ l) = drop n l) by (intros v l n; rewrite <- drop_drop; f_equal; by rewrite drop_app_length' by by rewrite length_le_split).
  assert (D4 : forall v (l : list Z) n, drop (4 + n) (le_split 4 v ++ l) = drop n l) by (intros v l n; rewrite <- drop_drop; f_equal; by rewrite drop_app_length' by by rewrite length_le_split).
  change (drop 8) with (@drop Z (8 + 0)). change (drop 12) with (@drop Z (8 + (4 + 0))). change (drop 16) with (@drop Z (8 + (4 + (4 + 0)))). rewrite !D8, !D4, !drop_0, E8, !E4, take_ge by by rewrite length_le_split.
  rewrite !le_combine_split by (unfold is_u64, is_u32 in *; try change (256 ^ Z.of_nat 8) with (2 ^ 64); try change (256 ^ Z.of_nat 4) with (2 ^ 32); done). by destruct e.
Qed.

Lemma decode_entries_ok entries post : Forall entry_fits entries -> decode_entries (length entries) (concat (map entry_Encode entries) ++ post) = Ok entries.
Proof.
  induction 1 as [|e entries He _ IH]; cbn [length decode_entries map concat]; [done|]. rewrite <- app_assoc.
  rewrite take_app_le, take_ge by by rewrite length_entry_Encode. rewrite entry_roundtrip by done. cbn [obind]. rewrite drop_app_length' by by rewrite length_entry_Encode. by rewrite IH.
Qed.

Lemma length_data_Encode d : Z.of_nat (length (data_Encode d)) = data_Size d.
Proof. unfold data_Encode, data_Size. rewrite !length_app, !length_le_split. lia. Qed.

Lemma data_roundtrip d beyond : data_Size d < 2 ^ 16 -> DecodeBlockDataReusable (data_Encode d) beyond = Ok d.
Proof.
  intros Hs. pose proof (length_data_Encode d) as Hl. unfold data_Size in *. unfold DecodeBlockDataReusable. rewrite (proj2 (Nat.ltb_ge _ _)) by lia.
  set (n1 := Z.of_nat (length (DocIds d))) in *. set (n2 := Z.of_nat (length (Tfs d))) in *. replace (data_Encode d) with (le_split 2 n1 ++ le_split 2 n2 ++ DocIds d ++ Tfs d) by done.
  rewrite take_app_le, take_ge, drop_app_length', take_app_le, take_ge by (rewrite ?length_le_split; lia). rewrite !le_combine_split by (change (256 ^ Z.of_nat 2) with (2 ^ 16); lia).
  unfold u16. rewrite !Z.mod_small by lia.
  assert (E1 : (le_split 2 n1 ++ le_split 2 n2 ++ DocIds d ++ Tfs d) ++ beyond = (le_split 2 n1 ++ le_split 2 n2) ++ DocIds d ++ (Tfs d ++ beyond)) by by rewrite <- !app_assoc.
  assert (E2 : (le_split 2 n1 ++ le_split 2 n2 ++ DocIds d ++ Tfs d) ++ beyond = (le_split 2 n1 ++ le_split 2 n2 ++ DocIds d) ++ Tfs d ++ beyond) by by rewrite <- !app_assoc.
  rewrite E1 at 1. rewrite (sub_slice_ok (le_split 2 n1 ++ le_split 2 n2) (DocIds d) (Tfs d ++ beyond)) by (rewrite ?length_app, ?length_le_split; lia). cbn [obind].
  rewrite E2, (sub_slice_ok (le_split 2 n1 ++ le_split 2 n2 ++ DocIds d) (Tfs d) beyond) by (rewrite ?length_app, ?length_le_split; lia). by destruct d.
Qed.

(** ** The bytes of all blocks *)

Lemma copy_at_end done src rest : (length src <= length rest)%nat -> copy_at (done ++ rest) (length done) src = Ok ((done ++ src) ++ drop (length src) rest).
Proof.
  intros Hl. unfold copy_at. rewrite length_app, (proj2 (Nat.ltb_ge _ _)) by lia. rewrite take_app_length, take_ge by lia. rewrite <- drop_drop, drop_app_length. by rewrite app_assoc.
Qed.

Lemma copy_all_ok l : forall done rest, Forall (fun x => Z.of_nat (length x.1) = x.2) l -> (length (concat (map fst l)) <= length rest)%nat ->
  copy_all (done ++ rest) (length done) l = Ok ((done ++ concat (map fst l)) ++ drop (length (concat (map fst l))) rest, length (done ++ concat (map fst l))).
Proof.
  induction l as [|[src size] l IH]; intros done rest Hs Hl; cbn [copy_all map concat fst length] in *; [by rewrite app_nil_r, drop_0|]. apply Forall_cons in Hs as [Hs0 Hs]. cbn [fst snd] in Hs0. rewrite length_app in Hl.
  rewrite copy_at_end by lia. cbn [obind]. replace (length done + Z.to_nat size)%nat with (length (done ++ src)) by (rewrite length_app; lia). rewrite IH; [|done|rewrite length_drop; lia].
  rewrite drop_drop, <- !(app_assoc done src), <- (length_app src). done.
Qed.

Definition blocks_bytes (entries : list BlockEntry) (datas : list BlockData) : list Z := concat (map entry_Encode entries) ++ concat (map data_Encode datas).

Lemma blocks_length_ok entries : forall datas, length entries = length datas -> blocks_length entries datas = Ok (Z.of_nat (length (blocks_bytes entries datas))).
Proof.
  unfold blocks_bytes. induction entries as [|e entries IH]; intros [|d datas] Hl; [done|done|done|]. cbn [blocks_length map concat]. rewrite IH by (cbn in Hl; lia). cbn [obind]. f_equal.
  rewrite <- length_data_Encode. unfold entry_Size. rewrite !length_app, length_entry_Encode. lia.
Qed.

Lemma EncodeBlocks_ok entries datas docCount : length entries = length datas ->
  EncodeBlocks entries datas docCount = Ok (le_split 8 docCount ++ le_split 8 (Z.of_nat (length (blocks_bytes entries datas))) ++ blocks_bytes entries datas).
Proof.
  intros Hl. unfold EncodeBlocks. rewrite blocks_length_ok by done. cbn [obind]. set (head := le_split 8 docCount ++ le_split 8 (Z.of_nat (length (blocks_bytes entries datas)))).
  rewrite !(app_assoc (le_split 8 docCount)). fold head. assert (Hh : length head = 16%nat) by (unfold head; by rewrite length_app, !length_le_split). rewrite Nat2Z.id.
  assert (Ee : map fst (map (fun e => (entry_Encode e, entry_Size)) entries) = map entry_Encode entries) by (by rewrite map_map).
  assert (Ed : map fst (map (fun d => (data_Encode d, data_Size d)) datas) = map data_Encode datas) by (by rewrite map_map).
  set (rest := replicate (length (blocks_bytes entries datas)) 0). assert (Hr : length rest = (length (concat (map entry_Encode entries)) + length (concat (map data_Encode datas)))%nat) by (unfold rest, blocks_bytes; by rewrite length_replicate, length_app).
  rewrite <- Hh at 1. rewrite copy_all_ok; [|apply Forall_forall; intros x (e & -> & _)%list_elem_of_fmap; cbn [fst snd]; by rewrite length_entry_Encode|rewrite Ee; lia]. cbn [obind]. rewrite Ee.
  rewrite copy_all_ok; [|apply Forall_forall; intros x (d & -> & _)%list_elem_of_fmap; cbn [fst snd]; by rewrite length_data_Encode|rewrite Ed, length_drop; lia]. cbn [obind]. rewrite Ed, drop_drop, drop_ge, app_nil_r by lia. unfold blocks_bytes. by rewrite app_assoc.
Qed.

(** ** Loading what was encoded *)

(** Data that decodes to the documents, whatever is in the buffers *)
Definition packed (docs : list (Z * Z)) (d : BlockData) : Prop := data_Size d < 2 ^ 16 /\
  forall ids tfs, length ids = length docs -> length tfs = length docs -> decodeReusable ids (DocIds d) true = Ok (map fst docs) /\ decodeReusable tfs (Tfs d) false = Ok (map snd docs).

(** The bytes before the data at [k] *)
Definition data_offset (datas : list BlockData) (k : nat) : Z := Z.of_nat (length (concat (map data_Encode (take k datas)))).

Lemma data_offset_S datas k d : datas !! k = Some d -> data_offset datas (S k) = data_offset datas k + data_Size d.
Proof. intros Hd. unfold data_offset. rewrite (take_S_r _ _ _ Hd), map_app, concat_app, length_app. cbn [map concat]. rewrite app_nil_r, <- length_data_Encode. lia. Qed.

Lemma combine_docs (docs : list (Z * Z)) : combine (map fst docs) (map snd docs) = docs.
Proof. induction docs as [|[i t] docs IH]; cbn [map combine fst snd]; [done|]. by rewrite IH. Qed.

Section loading.
Context (pre head key post : list Z) (entries : list BlockEntry) (datas : list BlockData) (docIdsBuf tfsBuf : list Z).
Context (Hhead : length head = 16%nat) (Hlen : length entries = length datas) (Hoff : forall k e, entries !! k = Some e -> Offset e = data_offset datas k).
Context (Hids : Z.of_nat (length docIdsBuf) = BLOCK_SIZE) (Htfs : Z.of_nat (length tfsBuf) = BLOCK_SIZE).

Notation bytes := (head ++ blocks_bytes entries datas).
Notation contents := (pre ++ bytes ++ le_split 4 (Z.of_nat (length key)) ++ key ++ post).
Notation node := (FileNode (Z.of_nat (length pre)) (Z.of_nat (length pre) + Z.of_nat (length bytes) + 4 + Z.of_nat (length key)) key).

Lemma length_entries_bytes : Z.of_nat (length (concat (map entry_Encode entries))) = Z.of_nat (length entries) * 20.
Proof. clear. induction entries as [|e l IH]; cbn [map concat length]; [done|]. rewrite length_app, length_entry_Encode. lia. Qed.

Lemma read_block_ok docCount idx docs d : datas !! idx = Some d -> packed docs d ->
  Z.of_nat (length docs) = (if (idx =? length entries - 1)%nat then docCount - BLOCK_SIZE * Z.of_nat idx else BLOCK_SIZE) -> Z.of_nat (length docs) <= BLOCK_SIZE ->
  read_block contents node docIdsBuf tfsBuf entries docCount idx = Ok docs.
Proof.
  intros Hd [Hs Hp] Hsize Hmax. apply lookup_lt_Some in Hd as Hlt. destruct (lookup_lt_is_Some_2 entries idx ltac:(lia)) as [e He]. unfold read_block. rewrite He, (Hoff idx e He). cbn [fn_Start fn_End fn_Key].
  pose proof length_entries_bytes as Hel. set (k := Z.of_nat (length entries) * 20) in *.
  set (end_ := match entries !! S idx with Some e => Offset e + _ | None => _ end). assert (Hend : end_ = data_offset datas idx + (Z.of_nat (length pre) + 16 + k) + Z.of_nat (length (data_Encode d))).
  { unfold end_. rewrite length_data_Encode. destruct (entries !! S idx) as [e'|] eqn:E'; [rewrite (Hoff _ _ E'), (data_offset_S datas idx d Hd); lia|].
    apply lookup_ge_None in E'. assert (Hall : data_offset datas (S idx) = Z.of_nat (length (concat (map data_Encode datas)))) by (unfold data_offset; rewrite take_ge by lia; done).
    rewrite (data_offset_S datas idx d Hd) in Hall. unfold blocks_bytes. rewrite !length_app, Hhead. lia. }
  set (before := pre ++ head ++ concat (map entry_Encode entries) ++ concat (map data_Encode (take idx datas))). set (after := concat (map data_Encode (drop (S idx) datas)) ++ le_split 4 (Z.of_nat (length key)) ++ key ++ post).
  assert (Hc : contents = before ++ data_Encode d ++ after).
  { unfold before, after, blocks_bytes. rewrite <- (take_drop_middle datas idx d Hd) at 1. rewrite map_app, concat_app. cbn [map concat]. by rewrite <- !app_assoc. }
  assert (Hb : Z.of_nat (length before) = data_offset datas idx + (Z.of_nat (length pre) + 16 + k)) by (unfold before, data_offset; rewrite !length_app, Hhead; lia).
  rewrite Hc, (sub_slice_ok before (data_Encode d) after) by lia. cbn [obind]. rewrite data_roundtrip by done. cbn [obind]. rewrite <- Hsize. rewrite !(proj2 (Z.ltb_ge _ _)) by lia. cbn [orb]. rewrite Nat2Z.id.
  destruct (Hp (take (length docs) docIdsBuf) (take (length docs) tfsBuf)) as [-> ->]; [rewrite length_take; lia..|]. cbn. by rewrite combine_docs.
Qed.

Lemma read_blocks_ok docCount blocks : Forall2 packed blocks datas ->
  (forall idx docs, blocks !! idx = Some docs -> Z.of_nat (length docs) <= BLOCK_SIZE /\ Z.of_nat (length docs) = if (idx =? length entries - 1)%nat then docCount - BLOCK_SIZE * Z.of_nat idx else BLOCK_SIZE) ->
  read_blocks contents node docIdsBuf tfsBuf entries docCount (length entries) 0 = Ok blocks.
Proof.
  intros HF Hsize. pose proof (Forall2_length _ _ _ HF) as Hn. enough (H : forall n idx, (idx + n = length blocks)%nat -> read_blocks contents node docIdsBuf tfsBuf entries docCount n idx = Ok (drop idx blocks)) by (rewrite (H (length entries) 0%nat) by lia; done).
  induction n as [|n IH]; intros idx Hi; cbn [read_blocks]; [by rewrite drop_ge by lia|]. destruct (lookup_lt_is_Some_2 blocks idx ltac:(lia)) as [docs Hdocs]. destruct (Forall2_lookup_l _ _ _ _ _ HF Hdocs) as (d & Hd & Hp).
  destruct (Hsize idx docs Hdocs) as [Hmax Hs]. rewrite (read_block_ok docCount idx docs d Hd Hp Hs Hmax). cbn [obind]. rewrite IH by lia. cbn [obind]. by rewrite (drop_S _ _ _ Hdocs).
Qed.

(** Entries and blocks of a word with more than one document *)
Lemma load_blocks Float32frombits get docCount : head = le_split 8 docCount ++ le_split 8 (Z.of_nat (length (blocks_bytes entries datas))) -> Forall entry_fits entries ->
  1 < docCount < 2 ^ 63 -> Z.of_nat (length entries) = (docCount + (BLOCK_SIZE - 1)) / BLOCK_SIZE -> loadBlockEntries Float32frombits contents node get = Ok (entries, docCount, None).
Proof.
  clear Hlen Hoff Hids Htfs. intros Eh Hfit Hc Hcount. pose proof length_entries_bytes as Hel. assert (Hn : 1 <= Z.of_nat (length entries)) by (rewrite Hcount; unfold BLOCK_SIZE; apply Z.div_le_lower_bound; lia).
  unfold loadBlockEntries. cbn [fn_Start]. unfold ENCODE_AS_FULL_BYTES. assert (Hsome : (4 <= length (blocks_bytes entries datas))%nat) by (unfold blocks_bytes; rewrite length_app; lia).
  set (tail := le_split 4 (Z.of_nat (length key)) ++ key ++ post). set (B := blocks_bytes entries datas) in *.
  assert (E20 : pre ++ (head ++ B) ++ tail = pre ++ (head ++ take 4 B) ++ (drop 4 B ++ tail)) by (rewrite <- (take_drop 4 B) at 1; by rewrite <- !app_assoc). rewrite E20 at 1.
  rewrite (sub_slice_ok pre (head ++ take 4 B)) by (rewrite ?length_app, ?length_take; lia). cbn [obind]. rewrite Eh, <- !app_assoc, take_app_le, take_ge by (rewrite length_le_split; lia).
  rewrite le_combine_split by (change (256 ^ Z.of_nat 8) with (2 ^ 64); lia). rewrite (proj2 (Z.leb_gt _ _)) by lia. unfold u64. rewrite Z.mod_small by (unfold BLOCK_SIZE; lia). rewrite <- Hcount.
  assert (Ee : pre ++ le_split 8 docCount ++ le_split 8 (Z.of_nat (length B)) ++ B ++ tail = (pre ++ head) ++ concat (map entry_Encode entries) ++ (concat (map data_Encode datas) ++ tail)) by (rewrite Eh; unfold B, blocks_bytes; by rewrite <- !app_assoc).
  rewrite Ee, (sub_slice_ok (pre ++ head)) by (rewrite ?length_app; lia). cbn [obind]. rewrite Nat2Z.id. pose proof (decode_entries_ok entries [] Hfit) as Hde. rewrite app_nil_r in Hde. by rewrite Hde.
Qed.
End loading.
