(* ===== verification/BlockWriter.v ===== *)
(** * Writing blocks

    [createAndEncodeBlocksTest] of [adapters/repos/db/lsmkv/segment_serialization_inverted.go], which flushes and compactions call: a single document is written as it is,
    and more are cut into blocks, each with an entry that has its last id and the frequency and length of its document of the largest impact.  What is written
    is loaded by BlockFile.v as the blocks that the iterators of BlockMax.v rely on; the bounds hold as long as the constants of the score
    stay what they were. *)

From Stdlib Require Import QArith Qcanon Qround.
From stdpp Require Import numbers sorting.
From S2P Require Import Prelude Varenc MemtableTree PriorityQueue Bm25Terms BlockMax BlockFile.
Import Map.

#[local] Open Scope Z_scope.

(** The conversion of a float that is not negative *)
Definition uint32_of (x : Qc) : Z := u32 (Qfloor (this x)).

(** [binary.BigEndian.Uint64] *)
Definition key_id (key : list Z) : run_t Z := if (length key <? 8)%nat then Panic else Ok (be_combine (take 8 key)).

Fixpoint extractTombstones (nodes : list MapPair) : run_t (list Z * list MapPair) :=
  match nodes with
  | [] => Ok ([], [])
  | n :: nodes =>
      let! id := if Tombstone n then (let! id := key_id (Key n) in Ok [id]) else Ok [] in
      let! (out, values) := extractTombstones nodes in
      Ok (id ++ out, if Tombstone n then values else n :: values)
  end.

Section writer.
Context (Float32frombits : Z -> Qc).

Definition value_tf (value : list Z) : Qc := Float32frombits (le_combine (take 4 value)).
Definition value_length (value : list Z) : Qc := Float32frombits (le_combine (take 4 (drop 4 value))).

(** The buffers of the two encoders *)
Notation encoders := (list Z * list Z)%type.

(** [Init] and [Encode]: the bytes in use are copied, and the buffer stays for the next call. *)
Definition encode_next (deltaDiff : bool) (values buf : list Z) : run_t (list Z * list Z) :=
  let! (buf, n) := coded (encodeReusable values (Init (Z.of_nat (length values)) buf) deltaDiff) in
  Ok (take (Z.to_nat n) buf, buf).

Definition PackedEncode (docIds termFreqs : list Z) (enc : encoders) : run_t (BlockData * encoders) :=
  let! (docIdsPacked, deltaBuf) := encode_next true docIds enc.1 in
  let! (termFreqsPacked, tfBuf) := encode_next false termFreqs enc.2 in
  Ok (MkData docIdsPacked termFreqsPacked, (deltaBuf, tfBuf)).

(** Ids and frequencies as they are given to the encoders *)
Fixpoint block_params (nodes : list MapPair) : run_t (list (Z * Z)) :=
  match nodes with
  | [] => Ok []
  | n :: nodes =>
      let! id := key_id (Key n) in
      if (length (Value n) <? 4)%nat then Panic
      else
        let! docs := block_params nodes in
        Ok ((id, uint64_of (value_tf (Value n))) :: docs)
  end.

Definition encodeBlockParam (nodes : list MapPair) (enc : encoders) : run_t (BlockData * encoders) :=
  let! docs := block_params nodes in
  PackedEncode (map fst docs) (map snd docs) enc.

Context (lookup_length : option (Z -> Z)) (k1 b avgPropLen : Qc).

Definition impact_at (tf pl : Qc) : Qc := (tf / (tf + k1 * (1 - b + b * (pl / avgPropLen))))%Qc.

(** The largest impact of a block with its frequency and length; lengths are noted when there were none *)
Fixpoint impact_loop (external : bool) (values : list MapPair) (maxImpact : Qc) (maxTf maxLength : Z) (propLengths : gmap Z Z) : run_t (Z * Z * gmap Z Z) :=
  match values with
  | [] => Ok (maxTf, maxLength, propLengths)
  | v :: values =>
      if (length (Value v) <? 8)%nat then Panic
      else
        let tf := value_tf (Value v) in
        let! docId := key_id (Key v) in
        let '(pl, propLengths) :=
          match lookup_length with
          | Some get => (Qc_of_Z (get docId), propLengths)
          | None =>
              if external then (Qc_of_Z (default 0 (propLengths !! docId)), propLengths)
              else (value_length (Value v), <[docId := uint32_of (value_length (Value v))]> propLengths)
          end in
        let impact := impact_at tf pl in
        if bool_decide (maxImpact < impact)%Qc then impact_loop external values impact (uint32_of tf) (uint32_of pl) propLengths
        else impact_loop external values maxImpact maxTf maxLength propLengths
  end.

Definition block_values (values : list MapPair) (i : nat) : list MapPair := take (Z.to_nat BLOCK_SIZE) (drop (i * Z.to_nat BLOCK_SIZE) values).

Fixpoint block_loop (external : bool) (values : list MapPair) (n i : nat) (offset : Z) (propLengths : gmap Z Z) (enc : encoders) : run_t (list BlockEntry * list BlockData * gmap Z Z * encoders) :=
  match n with
  | O => Ok ([], [], propLengths, enc)
  | S n =>
      let! (maxTf, maxLength, propLengths) := impact_loop external (block_values values i) 0 0 0 propLengths in
      match last (block_values values i) with
      | None => Panic
      | Some v =>
          let! maxId := key_id (Key v) in
          let! (data, enc) := encodeBlockParam (block_values values i) enc in
          let! (entries, datas, propLengths, enc) := block_loop external values n (S i) (u32 (offset + u32 (data_Size data))) propLengths enc in
          Ok (MkEntry maxId offset maxTf maxLength :: entries, data :: datas, propLengths, enc)
      end
  end.

(** [lookup_length]: the lengths of the merged segments in a compaction *)
Definition createBlocks (nodes : list MapPair) (propLengths : gmap Z Z) (enc : encoders) : run_t (list BlockEntry * list BlockData * list Z * gmap Z Z * encoders) :=
  let! (tombstones, values) := extractTombstones nodes in
  let externalPropLengths := negb (bool_decide (propLengths = ∅)) in
  let blockCount := ((length values + (Z.to_nat BLOCK_SIZE - 1)) / Z.to_nat BLOCK_SIZE)%nat in
  let! (entries, datas, propLengths, enc) := block_loop externalPropLengths values blockCount 0 0 propLengths enc in
  Ok (entries, datas, tombstones, propLengths, enc).

(** Keys are copied to eight bytes and values to four. *)
Fixpoint single_values (mapPairs : list MapPair) : run_t (list Z * list Z) :=
  match mapPairs with
  | [] => Ok ([], [])
  | p :: mapPairs =>
      let! id := if Tombstone p then (let! id := key_id (Key p) in Ok [id]) else Ok [] in
      let! (buffer, tombstones) := single_values mapPairs in
      Ok (take 8 (Key p ++ replicate 8 0) ++ take 4 (Value p ++ replicate 4 0) ++ buffer, id ++ tombstones)
  end.

Definition createAndEncodeSingleValue (mapPairs : list MapPair) : run_t (list Z * list Z) :=
  let! (buffer, tombstones) := single_values mapPairs in
  Ok (le_split 8 (Z.of_nat (length mapPairs)) ++ buffer, tombstones).

(** The bytes, the tombstones and the encoders.  The number of documents is that of the nodes. *)
Definition createAndEncodeBlocksTest (nodes : list MapPair) (propLengths : gmap Z Z) (encodeSingleSeparate : Z) (enc : encoders) : run_t (list Z * list Z * encoders) :=
  if Z.of_nat (length nodes) <=? encodeSingleSeparate then
    let! (bytes, tombstones) := createAndEncodeSingleValue nodes in
    Ok (bytes, tombstones, enc)
  else
    let! (blockEntries, blockDatas, tombstones, _, enc) := createBlocks nodes propLengths enc in
    let! bytes := EncodeBlocks blockEntries blockDatas (Z.of_nat (length nodes)) in
    Ok (bytes, tombstones, enc).
End writer.

(** Of a flush and of a compaction *)
Definition createAndEncodeBlocksWithLengths (Float32frombits : Z -> Qc) (nodes : list MapPair) (enc : list Z * list Z) (k1 b avgPropLen : Qc) : run_t (list Z * list Z * (list Z * list Z)) :=
  createAndEncodeBlocksTest Float32frombits None k1 b avgPropLen nodes ∅ ENCODE_AS_FULL_BYTES enc.

Definition createAndEncodeBlocks (Float32frombits : Z -> Qc) (nodes : list MapPair) (lookup_length : Z -> Z) (enc : list Z * list Z) (k1 b avgPropLen : Qc) : run_t (list Z * list Z * (list Z * list Z)) :=
  createAndEncodeBlocksTest Float32frombits (Some lookup_length) k1 b avgPropLen nodes ∅ ENCODE_AS_FULL_BYTES enc.

(** * Correctness *)

Lemma uint32_of_Z n : is_u32 n -> uint32_of (Qc_of_Z n) = n.
Proof. intros Hn. unfold uint32_of. cbn [this Qc_of_Z]. rewrite Qfloor_Z. by apply u32_small. Qed.

Lemma uint64_of_Z n : is_u32 n -> uint64_of (Qc_of_Z n) = n.
Proof. intros Hn. unfold uint64_of. cbn [this Qc_of_Z]. rewrite Qfloor_Z. apply u64_small. unfold is_u32, is_u64 in *. lia. Qed.

Section correct.
Context (Float32frombits : Z -> Qc) (lookup_length : option (Z -> Z)) (k1 b avgPropLen : Qc).

Definition pair_id (v : MapPair) : Z := be_combine (take 8 (Key v)).

(** A pair with a frequency and a length that are integers of 32 bits *)
Record pair_ok (v : MapPair) : Prop := {
  po_key : length (Key v) = 8%nat;
  po_value : (8 <= length (Value v))%nat;
  po_tf : exists n, value_tf Float32frombits (Value v) = Qc_of_Z n /\ is_u32 n;
  po_length : exists n, value_length Float32frombits (Value v) = Qc_of_Z n /\ is_u32 n
}.

Definition pair_tf (v : MapPair) : Z := uint64_of (value_tf Float32frombits (Value v)).
Definition pair_doc (v : MapPair) : Z * Z := (pair_id v, pair_tf v).

(** The length that the writer uses *)
Definition written_length (propLengths : gmap Z Z) (v : MapPair) : Z :=
  match lookup_length with
  | Some get => get (pair_id v)
  | None => if bool_decide (propLengths = ∅) then uint32_of (value_length Float32frombits (Value v)) else default 0 (propLengths !! pair_id v)
  end.

Lemma key_id_ok v : pair_ok v -> key_id (Key v) = Ok (pair_id v).
Proof. intros Hv. unfold key_id. by rewrite (po_key v Hv). Qed.

Lemma pair_tf_ok v : pair_ok v -> value_tf Float32frombits (Value v) = Qc_of_Z (pair_tf v) /\ is_u32 (pair_tf v).
Proof. intros Hv. unfold pair_tf. destruct (po_tf v Hv) as (n & -> & Hn). by rewrite uint64_of_Z. Qed.

Lemma block_params_ok l : Forall pair_ok l -> block_params Float32frombits l = Ok (map pair_doc l).
Proof.
  induction 1 as [|v l Hv _ IH]; cbn [block_params map]; [done|]. rewrite (key_id_ok v Hv). cbn [obind]. rewrite (proj2 (Nat.ltb_ge _ _)) by (pose proof (po_value v Hv); lia). by rewrite IH.
Qed.

(** The largest impact is that of the frequency and length that are kept. *)
Lemma impact_loop_ok propLengths0 : forall l best bestTf bestLength propLengths,
  Forall pair_ok l -> Forall (fun v => is_u32 (written_length propLengths0 v)) l -> (propLengths0 <> ∅ -> propLengths = propLengths0) -> best = impact_at k1 b avgPropLen (Qc_of_Z bestTf) (Qc_of_Z bestLength) -> is_u32 bestTf -> is_u32 bestLength ->
  exists maxTf maxLength propLengths', impact_loop Float32frombits lookup_length k1 b avgPropLen (negb (bool_decide (propLengths0 = ∅))) l best bestTf bestLength propLengths = Ok (maxTf, maxLength, propLengths') /\ (propLengths0 <> ∅ -> propLengths' = propLengths0) /\ is_u32 maxTf /\ is_u32 maxLength /\
    let m := impact_at k1 b avgPropLen (Qc_of_Z maxTf) (Qc_of_Z maxLength) in (best ≤ m)%Qc /\ Forall (fun v => (impact_at k1 b avgPropLen (Qc_of_Z (pair_tf v)) (Qc_of_Z (written_length propLengths0 v)) ≤ m)%Qc) l.
Proof.
  induction l as [|v l IH]; intros best bestTf bestLength propLengths Hok Hlen Hsame Hbest Hbt Hbl; cbn [impact_loop].
  { exists bestTf, bestLength, propLengths. split_and!; [done|done|done|done|rewrite Hbest; apply Qcle_refl|constructor]. }
  apply Forall_cons in Hok as [Hv Hok], Hlen as [Hl Hlen]. rewrite (proj2 (Nat.ltb_ge _ _)) by (pose proof (po_value v Hv); lia). rewrite (key_id_ok v Hv). cbn [obind]. destruct (pair_tf_ok v Hv) as [-> Htf].
  assert (exists propLengths1, (match lookup_length with
          | Some get => (Qc_of_Z (get (pair_id v)), propLengths)
          | None => if negb (bool_decide (propLengths0 = ∅)) then (Qc_of_Z (default 0 (propLengths !! pair_id v)), propLengths)
              else (value_length Float32frombits (Value v), <[pair_id v := uint32_of (value_length Float32frombits (Value v))]> propLengths)
          end) = (Qc_of_Z (written_length propLengths0 v), propLengths1) /\ (propLengths0 <> ∅ -> propLengths1 = propLengths0)) as (propLengths1 & -> & Hsame1).
  { unfold written_length. destruct lookup_length as [get|]; [by exists propLengths|]. case_bool_decide as He; cbn [negb].
    - destruct (po_length v Hv) as (n & -> & Hn). rewrite uint32_of_Z by done. eexists. split; [done|]. intros Hne. by destruct (Hne He).
    - rewrite (Hsame He). by exists propLengths0. }
  rewrite !uint32_of_Z by done. destruct (decide (best < impact_at k1 b avgPropLen (Qc_of_Z (pair_tf v)) (Qc_of_Z (written_length propLengths0 v)))%Qc) as [Hlt|Hlt]; [rewrite (bool_decide_true _ Hlt)|rewrite (bool_decide_false _ Hlt)].
  - destruct (IH _ (pair_tf v) (written_length propLengths0 v) propLengths1 Hok Hlen Hsame1 eq_refl Htf Hl) as (mt & ml & pl' & -> & Hs' & Hmt & Hml & Hge & Hall). exists mt, ml, pl'. split_and!; [done|done|done|done|by apply Qclt_le_weak; eapply Qclt_le_trans|by constructor].
  - destruct (IH best bestTf bestLength propLengths1 Hok Hlen Hsame1 Hbest Hbt Hbl) as (mt & ml & pl' & -> & Hs' & Hmt & Hml & Hge & Hall). exists mt, ml, pl'. split_and!; [done|done|done|done|done|]. constructor; [|done]. apply Qcle_ngt in Hlt. by eapply Qcle_trans.
Qed.

(** An entry that describes its block *)
Record entry_ok (propLengths0 : gmap Z Z) (values : list MapPair) (i : nat) (e : BlockEntry) : Prop := {
  eo_max : last (map pair_id (block_values values i)) = Some (MaxId e);
  eo_impact : Forall (fun v => (impact_at k1 b avgPropLen (Qc_of_Z (pair_tf v)) (Qc_of_Z (written_length propLengths0 v)) ≤ impact_at k1 b avgPropLen (Qc_of_Z (MaxImpactTf e)) (Qc_of_Z (MaxImpactPropLength e)))%Qc) (block_values values i)
}.

Lemma block_values_some values i : (i * Z.to_nat BLOCK_SIZE < length values)%nat -> block_values values i <> [].
Proof. intros Hi E. apply (f_equal length) in E. unfold block_values in E. rewrite length_take, length_drop in E. cbn [length] in E. unfold BLOCK_SIZE in *. lia. Qed.

Lemma block_values_sub {P : MapPair -> Prop} values i : Forall P values -> Forall P (block_values values i).
Proof. intros H. unfold block_values. by apply Forall_take, Forall_drop. Qed.

Lemma block_sorted values i : StronglySorted Z.lt (map pair_id values) -> StronglySorted Z.lt (map pair_id (block_values values i)).
Proof.
  intros Hs. unfold block_values. rewrite <- firstn_map, <- skipn_map. set (l := map pair_id values) in *. set (n := (i * _)%nat). assert (Hd : StronglySorted Z.lt (drop n l)).
  { rewrite <- (take_drop n l) in Hs. by apply StronglySorted_app in Hs as (_ & _ & ?). }
  rewrite <- (take_drop (Z.to_nat BLOCK_SIZE) (drop n l)) in Hd. by apply StronglySorted_app in Hd as (_ & ? & _).
Qed.

(** ** Packing a block *)

Lemma encode_next_ok deltaDiff first values buf : Forall (fun v => 0 <= v < 2 ^ 64) (first :: values) -> Forall (fun d => 0 <= d < 2 ^ 58) (packed_values deltaDiff first values) -> Z.of_nat (length (first :: values)) <= BLOCK_SIZE ->
  exists out buf', encode_next deltaDiff (first :: values) buf = Ok (out, buf') /\ Z.of_nat (length out) <= 1000 /\ forall dst, length dst = length (first :: values) -> decodeReusable dst out deltaDiff = Ok (first :: values).
Proof.
  intros Hv Hd Hn. assert (Hw : width_of (packed_values deltaDiff first values) <= 58) by (by apply width_of_le).
  destruct (encode_spec deltaDiff first values (Init (Z.of_nat (length (first :: values))) buf)) as (out & Hout & Henc); [by inversion Hv|cbn [length]; apply (length_Init (Z.of_nat (S (length values)))); lia|].
  unfold Encode in Hout. apply obind_Ok_inv in Hout as ([buf' n] & Hout & [= <-]). exists (take (Z.to_nat n) buf'), buf'. unfold encode_next. rewrite Hout. split_and!; [done| |].
  - destruct Henc as (bits & pad & -> & _ & Hpad & _ & Hlen). destruct (packed_values_range deltaDiff values first (Forall_inv_tail Hv)) as [Hr Hl]. pose proof (proj1 (width_of_spec _ Hr)). rewrite length_app, length_be_split. rewrite Hl in Hlen. cbn [length] in Hn. unfold BLOCK_SIZE in Hn. nia.
  - intros dst Hdst. destruct (decode_encoded deltaDiff first values dst _ Hv ltac:(lia) Hw Henc) as [rest Hrest]. destruct (decode_total deltaDiff dst (take (Z.to_nat n) buf')) as (out & Hout' & Hlen).
    { destruct Henc as (bits & pad & -> & Hb & _). apply Forall_app. split; [apply be_split_bytes|done]. }
    rewrite Hrest in Hout'. injection Hout' as <-. cbn [length] in Hlen, Hdst. rewrite length_app in Hlen. destruct rest; [by rewrite app_nil_r in Hrest|cbn [length] in Hlen; lia].
Qed.

Lemma deltas_small values : forall first, StronglySorted Z.lt (first :: values) -> Forall (fun v => 0 <= v < 2 ^ 58) (first :: values) -> Forall (fun d => 0 <= d < 2 ^ 58) (packed_values true first values).
Proof.
  induction values as [|v values IH]; intros first Hs Hr; cbn [packed_values]; constructor; inversion_clear Hs as [|? ? Hs' Hlt]; apply Forall_cons in Hr as [Hf Hr].
  - apply Forall_cons in Hlt as [Hlt _], Hr as [Hv _]. cbn beta in *. rewrite u64_small by (unfold is_u64; lia). lia.
  - by apply IH.
Qed.

Lemma values_packed values : forall first, packed_values false first values = values.
Proof. induction values as [|v values IH]; intros first; cbn [packed_values]; [done|]. by rewrite IH. Qed.

Lemma PackedEncode_ok docs enc : docs <> [] -> StronglySorted Z.lt (map fst docs) -> Forall (fun x => 0 <= x.1 < 2 ^ 58 /\ is_u32 x.2) docs -> Z.of_nat (length docs) <= BLOCK_SIZE ->
  exists d enc', PackedEncode (map fst docs) (map snd docs) enc = Ok (d, enc') /\ packed docs d /\ data_Size d <= 2048.
Proof.
  intros Hne Hs Hr Hn. destruct docs as [|[id tf] docs]; [done|]. cbn [map fst snd] in *. assert (Hids : Forall (fun v => 0 <= v < 2 ^ 58) (id :: map fst docs)).
  { change (id :: map fst docs) with (map fst ((id, tf) :: docs)). apply Forall_fmap. eapply Forall_impl; [exact Hr|]. by intros x [? _]. }
  assert (Htfs : Forall is_u32 (tf :: map snd docs)) by (change (tf :: map snd docs) with (map snd ((id, tf) :: docs)); apply Forall_fmap; eapply Forall_impl; [exact Hr|]; by intros x [_ ?]).
  unfold PackedEncode. destruct (encode_next_ok true id (map fst docs) enc.1) as (out1 & buf1 & -> & Hl1 & Hd1); [eapply Forall_impl; [exact Hids|]; cbn beta; lia|by apply deltas_small|cbn [length] in *; by rewrite length_map|]. cbn [obind].
  destruct (encode_next_ok false tf (map snd docs) enc.2) as (out2 & buf2 & -> & Hl2 & Hd2); [eapply Forall_impl; [exact Htfs|]; unfold is_u32; cbn beta; lia| |cbn [length] in *; by rewrite length_map|].
  { rewrite values_packed. apply Forall_cons in Htfs as [_ Htfs]. eapply Forall_impl; [exact Htfs|]. unfold is_u32. cbn beta. lia. }
  cbn [obind]. eexists _, _. split; [done|]. assert (Hsize : data_Size (MkData out1 out2) <= 2048) by (unfold data_Size; cbn [DocIds Tfs]; lia). split; [|done]. split; [lia|]. cbn [DocIds Tfs map fst snd length].
  intros ids tfs Hi Ht. rewrite Hd1, Hd2 by (cbn [length]; by rewrite length_map). done.
Qed.

(** ** The loop over the blocks *)

Definition value_ok (propLengths0 : gmap Z Z) (v : MapPair) : Prop := pair_ok v /\ is_u32 (written_length propLengths0 v) /\ 0 <= pair_id v < 2 ^ 58.

Lemma block_packed propLengths0 values i enc : Forall (value_ok propLengths0) values -> StronglySorted Z.lt (map pair_id values) -> block_values values i <> [] ->
  exists d enc', encodeBlockParam Float32frombits (block_values values i) enc = Ok (d, enc') /\ packed (map pair_doc (block_values values i)) d /\ data_Size d <= 2048.
Proof.
  intros Hok Hs Hne. pose proof (block_values_sub values i Hok) as Hb. unfold encodeBlockParam. rewrite block_params_ok by (eapply Forall_impl; [exact Hb|]; by intros v [? _]). cbn [obind].
  apply PackedEncode_ok; [by intros E%map_eq_nil|rewrite map_map; by apply block_sorted| |rewrite length_map; unfold block_values; rewrite length_take; unfold BLOCK_SIZE; lia].
  apply Forall_fmap. eapply Forall_impl; [exact Hb|]. intros v (Hv & _ & Hid). split; [done|]. apply (pair_tf_ok v Hv).
Qed.

Lemma data_offset_le datas k : Forall (fun d => data_Size d <= 2048) datas -> 0 <= data_offset datas k <= 2048 * Z.of_nat k.
Proof.
  intros Hd. unfold data_offset. split; [lia|]. revert k. induction Hd as [|d datas Hd _ IH]; intros [|k]; cbn [take map concat length]; [lia..|]. rewrite length_app. specialize (IH k). pose proof (length_data_Encode d). lia.
Qed.

Lemma block_loop_ok propLengths0 values : Forall (value_ok propLengths0) values -> StronglySorted Z.lt (map pair_id values) -> forall n i offset propLengths enc,
  (n = 0%nat \/ ((i + n - 1) * Z.to_nat BLOCK_SIZE < length values)%nat) -> (propLengths0 <> ∅ -> propLengths = propLengths0) -> 0 <= offset -> offset + 2048 * Z.of_nat n < 2 ^ 32 ->
  exists entries datas propLengths' enc', block_loop Float32frombits lookup_length k1 b avgPropLen (negb (bool_decide (propLengths0 = ∅))) values n i offset propLengths enc = Ok (entries, datas, propLengths', enc') /\
    length entries = n /\ Forall2 packed (map (fun j => map pair_doc (block_values values j)) (seq i n)) datas /\ Forall (fun d => data_Size d <= 2048) datas /\
    forall k e, entries !! k = Some e -> entry_ok propLengths0 values (i + k) e /\ entry_fits e /\ Offset e = offset + data_offset datas k.
Proof.
  intros Hok Hs. induction n as [|n IH]; intros i offset propLengths enc Hn Hsame H0 Hroom; cbn [block_loop]; [exists [], [], propLengths, enc; by split_and!; [..|constructor|constructor|]|]. destruct Hn as [|Hn]; [done|].
  assert (Hok' : Forall pair_ok values) by (eapply Forall_impl; [exact Hok|]; by intros v [? _]). assert (Hl' : Forall (fun v => is_u32 (written_length propLengths0 v)) values) by (eapply Forall_impl; [exact Hok|]; by intros v (_ & ? & _)).
  destruct (impact_loop_ok propLengths0 (block_values values i) 0%Qc 0 0 propLengths) as (maxTf & maxLength & pl1 & -> & Hsame1 & Hmt & Hml & _ & Hall); [by apply block_values_sub|by apply block_values_sub|done|unfold impact_at; rewrite Z2Qc_inj_0; unfold Qcdiv; ring|done|done|]. cbn [obind].
  assert (Hne : block_values values i <> []) by (apply block_values_some; unfold BLOCK_SIZE in *; nia). destruct (last (block_values values i)) as [v|] eqn:El; [|by apply last_None in El].
  assert (Hv : v ∈ values) by (apply last_Some_elem_of in El; apply (proj1 (Forall_forall (fun v => v ∈ values) (block_values values i))); [apply block_values_sub, Forall_forall; by intros|done]). pose proof (proj1 (Forall_forall _ _) Hok v Hv) as (Hpv & _ & Hid).
  rewrite (key_id_ok v Hpv). cbn [obind]. destruct (block_packed propLengths0 values i enc Hok Hs Hne) as (d & enc1 & -> & Hpd & Hsd). cbn [obind].
  assert (Hdpos : 0 <= data_Size d) by (unfold data_Size; lia). rewrite (u32_small (data_Size d)), (u32_small (offset + data_Size d)) by (unfold is_u32; lia).
  destruct (IH (S i) (offset + data_Size d) pl1 enc1) as (entries & datas & pl' & enc' & -> & Hlen' & HF & Hsizes & He); [destruct n; [by left|right; replace (S i + S n - 1)%nat with (i + S (S n) - 1)%nat by lia; done]|done|lia|lia|].
  cbn [obind seq map]. eexists _, _, pl', enc'. split_and!; [done|cbn [length]; lia|by constructor|by constructor|]. intros [|k] e; cbn [lookup list_lookup].
  - intros [= <-]. rewrite Nat.add_0_r. split_and!; [|split; cbn; unfold is_u64, is_u32 in *; lia|cbn; unfold data_offset; cbn; lia]. split; [|exact Hall]. cbn [MaxId]. change (map pair_id (block_values values i)) with (pair_id <$> block_values values i). by rewrite fmap_last, El.
  - intros Hk. replace (i + S k)%nat with (S i + k)%nat by lia. destruct (He k e Hk) as (H1 & H2 & H3). split_and!; [done|done|]. rewrite H3. unfold data_offset. cbn [take map concat]. rewrite length_app. pose proof (length_data_Encode d). lia.
Qed.

Lemma extractTombstones_live nodes : Forall (fun n => Tombstone n = false) nodes -> extractTombstones nodes = Ok ([], nodes).
Proof. induction 1 as [|n nodes Hn _ IH]; cbn [extractTombstones]; [done|]. by rewrite Hn, IH. Qed.

Lemma blocks_concat (values : list MapPair) n : forall i, concat (map (block_values values) (seq i n)) = take (n * Z.to_nat BLOCK_SIZE) (drop (i * Z.to_nat BLOCK_SIZE) values).
Proof.
  induction n as [|n IH]; intros i; cbn [seq map concat]; [done|]. rewrite IH. unfold block_values. replace (S i * Z.to_nat BLOCK_SIZE)%nat with (i * Z.to_nat BLOCK_SIZE + Z.to_nat BLOCK_SIZE)%nat by lia. rewrite <- drop_drop. generalize (drop (i * Z.to_nat BLOCK_SIZE) values). intros l.
  replace (S n * Z.to_nat BLOCK_SIZE)%nat with (Z.to_nat BLOCK_SIZE + n * Z.to_nat BLOCK_SIZE)%nat by lia. by rewrite take_take_drop.
Qed.

Lemma written_docs values : let n := ((length values + (Z.to_nat BLOCK_SIZE - 1)) / Z.to_nat BLOCK_SIZE)%nat in
  (n = 0%nat \/ ((n - 1) * Z.to_nat BLOCK_SIZE < length values)%nat) /\ (length values <= n * Z.to_nat BLOCK_SIZE)%nat /\ concat (map (fun j => map pair_doc (block_values values j)) (seq 0 n)) = map pair_doc values.
Proof.
  intros n. assert (Hn : (n = 0%nat \/ ((n - 1) * Z.to_nat BLOCK_SIZE < length values)%nat) /\ (length values <= n * Z.to_nat BLOCK_SIZE)%nat).
  { unfold n, BLOCK_SIZE. change (Z.to_nat 128) with 128%nat. pose proof (Nat.div_mod_eq (length values + (128 - 1)) 128). pose proof (Nat.mod_upper_bound (length values + (128 - 1)) 128 ltac:(lia)). lia. }
  split_and!; [apply Hn|apply Hn|]. rewrite <- (map_map (block_values values) (map pair_doc)), <- concat_map, blocks_concat. cbn [Nat.mul]. rewrite drop_0, take_ge by apply Hn. done.
Qed.

Lemma block_values_length values n i : (i < n)%nat -> (length values <= n * Z.to_nat BLOCK_SIZE)%nat -> ((n - 1) * Z.to_nat BLOCK_SIZE < length values)%nat ->
  Z.of_nat (length (block_values values i)) = if (i =? n - 1)%nat then Z.of_nat (length values) - BLOCK_SIZE * Z.of_nat i else BLOCK_SIZE.
Proof. intros Hi Hle Hlt. unfold block_values. rewrite length_take, length_drop. unfold BLOCK_SIZE in *. change (Z.to_nat 128) with 128%nat in *. destruct (Nat.eqb_spec i (n - 1)) as [->|Hne]; nia. Qed.

(** Blocks of written values with entries that describe them *)
Section described.
Context (propLengths0 : gmap Z Z) (values : list MapPair) (n : nat) (entries : list BlockEntry).
Context (Hok : Forall (value_ok propLengths0) values) (Hs : StronglySorted Z.lt (map pair_id values)) (Hlt : ((n - 1) * Z.to_nat BLOCK_SIZE < length values)%nat) (Hle : (length values <= n * Z.to_nat BLOCK_SIZE)%nat).
Context (Hlen : length entries = n) (He : forall k e, entries !! k = Some e -> entry_ok propLengths0 values k e).
Notation blocks := (map (fun j => map pair_doc (block_values values j)) (seq 0 n)).

Lemma blocks_lookup idx docs : blocks !! idx = Some docs -> (idx < n)%nat /\ docs = map pair_doc (block_values values idx).
Proof. clear. intros (j & -> & [-> ?]%lookup_seq)%list_lookup_fmap_Some. split; [lia|done]. Qed.

Lemma blocks_sizes idx docs : blocks !! idx = Some docs -> Z.of_nat (length docs) <= BLOCK_SIZE /\ Z.of_nat (length docs) = if (idx =? length entries - 1)%nat then Z.of_nat (length values) - BLOCK_SIZE * Z.of_nat idx else BLOCK_SIZE.
Proof.
  intros [Hi ->]%blocks_lookup. rewrite length_map, Hlen, <- (block_values_length values n idx Hi Hle Hlt). split; [|done]. unfold block_values. rewrite length_take. unfold BLOCK_SIZE. lia.
Qed.

Lemma blocks_described live lengths boost k1' b' average float32 index : values <> [] -> concat blocks = map pair_doc values ->
  term_blocks_ok (BlockTerm entries blocks (Z.of_nat (length values)) live lengths boost k1' b' average float32 index).
Proof.
  intros Hne Hc. assert (Hn0 : (0 < length values)%nat) by (destruct values; [done|cbn; lia]). assert (Hn : (0 < n)%nat) by nia.
  split; cbn [bt_entries bt_blocks bt_docCount bt_propLength].
  - by rewrite length_map, length_seq.
  - intros ->. cbn in Hlen. lia.
  - intros H1. unfold ENCODE_AS_FULL_BYTES, BLOCK_SIZE in *. change (Z.to_nat 128) with 128%nat in *. nia.
  - intros idx docs [Hi ->]%blocks_lookup. rewrite length_map. pose proof (block_values_length values n idx Hi Hle Hlt) as Hb. unfold block_size. cbn [bt_entries bt_docCount]. rewrite Hlen.
    unfold ENCODE_AS_FULL_BYTES, BLOCK_SIZE in *. change (Z.to_nat 128) with 128%nat in *. destruct (Nat.eqb_spec idx (n - 1)) as [->|Hx]; destruct (Z.leb_spec (Z.of_nat (length values)) 1); nia.
  - intros idx e docs Ee [_ ->]%blocks_lookup. rewrite map_map. apply (eo_max _ _ _ _ (He idx e Ee)).
  - rewrite Hc, map_map. exact Hs.
  - rewrite Hc. apply Forall_fmap. eapply Forall_impl; [exact Hok|]. intros v (_ & _ & Hid). cbn. unfold u64_max. lia.
Qed.

Lemma blocks_bound live lengths boost float32 index docCount : (forall v, v ∈ values -> lengths (pair_id v) = written_length propLengths0 v) ->
  entries_bound (BlockTerm entries blocks docCount live lengths boost k1 b avgPropLen float32 index).
Proof.
  intros Hl idx e docs x. cbn [bt_entries bt_blocks bt_propLength]. intros Ee [Hi ->]%blocks_lookup (v & -> & Hv)%list_elem_of_fmap. pose proof (proj1 (Forall_forall _ _) (eo_impact _ _ _ _ (He idx e Ee)) v Hv) as Hi'. cbn beta in Hi'. assert (Hin : v ∈ values).
  { apply (proj1 (Forall_forall (fun v => v ∈ values) (block_values values idx))); [apply block_values_sub, Forall_forall; by intros|done]. }
  cbn [pair_doc fst snd]. rewrite (Hl v Hin). exact Hi'.
Qed.
End described.

(** ** A single document *)

Lemma load_single v pre key post get : pair_ok v -> let bytes := le_split 8 1 ++ Key v ++ take 4 (Value v) in
  loadBlockEntries Float32frombits (pre ++ bytes ++ post) (FileNode (Z.of_nat (length pre)) (Z.of_nat (length pre) + Z.of_nat (length bytes) + 4 + Z.of_nat (length key)) key) get =
    Ok ([MkEntry (pair_id v) 0 (u32 (pair_tf v)) (u32 (get (pair_id v)))], 1, Some [pair_doc v]).
Proof.
  intros Hv bytes. pose proof (po_key v Hv) as Hk. pose proof (po_value v Hv) as Hval. assert (Ht : length (take 4 (Value v)) = 4%nat) by (rewrite length_take; lia).
  assert (Hb : length bytes = 20%nat) by (unfold bytes; rewrite !length_app, length_le_split; lia). unfold loadBlockEntries. cbn [fn_Start]. unfold ENCODE_AS_FULL_BYTES. rewrite (sub_slice_ok pre bytes post) by lia. cbn [obind].
  replace (take 8 bytes) with (le_split 8 1) by (unfold bytes; by rewrite take_app_le, take_ge by by rewrite length_le_split). change (le_combine (le_split 8 1)) with 1. cbn [Z.leb Z.compare Pos.compare Pos.compare_cont].
  change (Z.to_nat 1) with 1%nat. unfold ConvertFixedLengthFromMemory. rewrite Hb. cbn [fixed_loop]. rewrite Hb. change (Z.of_nat 20 <=? 8) with false. cbv iota.
  assert (E1 : sub_slice bytes 8 (8 + 8) = Ok (Key v)) by (apply (sub_slice_ok (le_split 8 1) (Key v) (take 4 (Value v))); rewrite ?length_le_split; lia).
  assert (E2 : sub_slice bytes (8 + 8) (8 + 12) = Ok (take 4 (Value v))).
  { replace bytes with ((le_split 8 1 ++ Key v) ++ take 4 (Value v) ++ []) by (unfold bytes; by rewrite app_nil_r, <- app_assoc). apply sub_slice_ok; rewrite ?length_app, ?length_le_split; lia. }
  rewrite E1, E2. cbn [obind]. change (Z.to_nat 1) with 1%nat. cbn [replicate length Nat.ltb Nat.leb andb]. change (Z.of_nat 20 <=? 8 + 16) with true. cbv iota. cbn [obind].
  unfold pair_doc, pair_tf, pair_id, value_tf. rewrite (take_ge (Key v) 8) by lia. done.
Qed.

Lemma single_term v get live boost k1' b' average float32 index : (exists propLengths0, value_ok propLengths0 v) ->
  let t := BlockTerm [MkEntry (pair_id v) 0 (u32 (pair_tf v)) (u32 (get (pair_id v)))] [[pair_doc v]] 1 live get boost k1' b' average float32 index in
  term_blocks_ok t /\ (is_u32 (get (pair_id v)) -> entries_bound t).
Proof.
  intros (pl & Hp & _ & Hid) t. split.
  - split; cbn; try done.
    + intros [|idx] docs; [|done]. intros [= <-]. cbn. lia.
    + intros [|idx] e docs; [|done]. by intros [= <-] [= <-].
    + repeat constructor.
    + constructor; [|constructor]. cbn. unfold u64_max. lia.
  - intros Hg [|idx] e docs x; cbn; [|done]. intros [= <-] [= <-] ->%list_elem_of_singleton. cbn [MaxImpactTf MaxImpactPropLength pair_doc fst snd]. rewrite !u32_small by (done || apply (pair_tf_ok v Hp)). apply Qcle_refl.
Qed.
(** What is written, where it is in a file, and what is loaded from there *)
Definition loads (nodes : list MapPair) (propLengths : gmap Z Z) (bytes : list Z) : Prop :=
  forall pre key post docIdsBuf tfsBuf get live boost k1' b' average float32 index,
    Z.of_nat (length docIdsBuf) = BLOCK_SIZE -> Z.of_nat (length tfsBuf) = BLOCK_SIZE ->
    let contents := pre ++ bytes ++ le_split 4 (Z.of_nat (length key)) ++ key ++ post in
    let node := FileNode (Z.of_nat (length pre)) (Z.of_nat (length pre) + Z.of_nat (length bytes) + 4 + Z.of_nat (length key)) key in
    exists t, load_term Float32frombits contents node get docIdsBuf tfsBuf live boost k1' b' average float32 index = Ok t /\
      term_blocks_ok t /\ bt_docCount t = Z.of_nat (length nodes) /\ concat (bt_blocks t) = map pair_doc nodes /\
      ((k1', b', average) = (k1, b, avgPropLen) -> (forall v, v ∈ nodes -> get (pair_id v) = written_length propLengths v) -> entries_bound t).

Lemma single_loads v propLengths : value_ok propLengths v -> loads [v] propLengths (le_split 8 1 ++ Key v ++ take 4 (Value v)).
Proof.
  intros Hv pre key post ids tfs get live boost k1' b' average float32 index _ _ contents node. unfold load_term, contents, node. rewrite (load_single v pre key _ get (proj1 Hv)). cbn [obind]. eexists. split; [done|].
  destruct (single_term v get live boost k1' b' average float32 index) as [Hok Hb]; [by exists propLengths|]. split_and!; [done|done|done|]. intros _ Hget. apply Hb. rewrite Hget by apply list_elem_of_here. apply Hv.
Qed.

Lemma blocks_loads nodes propLengths n entries datas : Forall (value_ok propLengths) nodes -> StronglySorted Z.lt (map pair_id nodes) -> 1 < Z.of_nat (length nodes) < 2 ^ 63 ->
  Z.of_nat n = (Z.of_nat (length nodes) + (BLOCK_SIZE - 1)) / BLOCK_SIZE -> ((n - 1) * Z.to_nat BLOCK_SIZE < length nodes)%nat -> (length nodes <= n * Z.to_nat BLOCK_SIZE)%nat ->
  concat (map (fun j => map pair_doc (block_values nodes j)) (seq 0 n)) = map pair_doc nodes -> length entries = n -> Forall2 packed (map (fun j => map pair_doc (block_values nodes j)) (seq 0 n)) datas ->
  (forall k e, entries !! k = Some e -> entry_ok propLengths nodes k e /\ entry_fits e /\ Offset e = data_offset datas k) ->
  loads nodes propLengths (le_split 8 (Z.of_nat (length nodes)) ++ le_split 8 (Z.of_nat (length (blocks_bytes entries datas))) ++ blocks_bytes entries datas).
Proof.
  intros Hok Hs Hn Hcount Hlt Hle Hc Hlen HF He pre key post ids tfs get live boost k1' b' average float32 index Hids Htfs. set (head := le_split 8 (Z.of_nat (length nodes)) ++ le_split 8 (Z.of_nat (length (blocks_bytes entries datas)))).
  rewrite (app_assoc (le_split 8 _)). fold head. intros contents node. assert (Hh : length head = 16%nat) by (unfold head; by rewrite length_app, !length_le_split).
  assert (Hlen' : length entries = length datas) by (pose proof (Forall2_length _ _ _ HF) as Hl; rewrite length_map, length_seq in Hl; lia). assert (Hoff : forall k e, entries !! k = Some e -> Offset e = data_offset datas k) by (intros k e Hk; apply (He k e Hk)).
  assert (Hent : forall k e, entries !! k = Some e -> entry_ok propLengths nodes k e) by (intros k e Hk; apply (He k e Hk)).
  assert (Hfit : Forall entry_fits entries) by (apply Forall_lookup; intros k e Hk; apply (He k e Hk)).
  unfold load_term, contents, node. rewrite (load_blocks pre head key post entries datas Hh Float32frombits get (Z.of_nat (length nodes)) eq_refl Hfit Hn) by (rewrite Hlen; done). cbn [obind].
  rewrite (read_blocks_ok pre head key post entries datas ids tfs Hh Hlen' Hoff Hids Htfs (Z.of_nat (length nodes)) _ HF (blocks_sizes nodes n entries Hlt Hle Hlen)). cbn [obind]. eexists. split; [done|].
  split_and!; [|done|done|].
  - apply (blocks_described propLengths nodes n entries); try done. intros ->. cbn in Hn. lia.
  - intros [= -> -> ->] Hget. by apply (blocks_bound propLengths nodes n entries).
Qed.

(** C10: what is written for the sorted documents of a word, of which none is a tombstone, can be searched.  Writing succeeds, whatever the buffers of the
    encoders held; and an iterator that is opened on these bytes, anywhere in a file, loads as many documents as were written, exactly these with their
    frequencies, in blocks that have the sizes, last ids and order that the searches rely on, whatever its own buffers hold.  When the search uses
    the constants and lengths that the writer used, no document of a block exceeds the bound of its entry.  A single document goes its own way
    through both.  Frequencies and lengths are integers of 32 bits, ids are below [2^58] and there are at most [2^27] documents. *)
Theorem written_blocks_ok nodes propLengths enc : nodes <> [] -> Forall (fun n => Tombstone n = false) nodes -> Forall (value_ok propLengths) nodes ->
  StronglySorted Z.lt (map pair_id nodes) -> Z.of_nat (length nodes) <= 2 ^ 27 ->
  exists bytes enc', createAndEncodeBlocksTest Float32frombits lookup_length k1 b avgPropLen nodes propLengths ENCODE_AS_FULL_BYTES enc = Ok (bytes, [], enc') /\ loads nodes propLengths bytes.
Proof.
  intros Hne Ht Hok Hs Hmax. unfold createAndEncodeBlocksTest, ENCODE_AS_FULL_BYTES. destruct (Z.leb_spec (Z.of_nat (length nodes)) 1) as [H1|Hmany].
  - destruct nodes as [|v [|]]; [done| |cbn [length] in H1; lia]. apply Forall_cons in Ht as [Ht _], Hok as [Hv _]. pose proof (po_key v (proj1 Hv)) as Hk. pose proof (po_value v (proj1 Hv)) as Hval.
    unfold createAndEncodeSingleValue. cbn [single_values]. rewrite Ht. cbn [obind app]. eexists _, enc. split; [done|]. rewrite app_nil_r, !take_app_le, (take_ge (Key v)) by lia. by apply single_loads.
  - unfold createBlocks. rewrite (extractTombstones_live nodes Ht). cbn [obind]. destruct (written_docs nodes) as (Hn & Hle & Hc). set (n := ((length nodes + _) / _)%nat) in *.
    assert (Hn' : ((n - 1) * Z.to_nat BLOCK_SIZE < length nodes)%nat) by (destruct Hn as [Hn|]; [rewrite Hn in Hle; cbn in Hle; lia|done]).
    assert (Hroom : 2048 * Z.of_nat n < 2 ^ 32) by (unfold BLOCK_SIZE in *; change (Z.to_nat 128) with 128%nat in *; lia).
    destruct (block_loop_ok propLengths nodes Hok Hs n 0 0 propLengths enc Hn ltac:(done) ltac:(done) ltac:(lia)) as (entries & datas & pl' & enc' & -> & Hl & HF & _ & He). cbn [obind].
    assert (Hlen : length entries = length datas) by (pose proof (Forall2_length _ _ _ HF) as Hl2; rewrite length_map, length_seq in Hl2; lia).
    rewrite EncodeBlocks_ok by done. cbn [obind]. eexists _, enc'. split; [done|]. apply (blocks_loads nodes propLengths n); try done; [lia|].
    unfold n. rewrite Nat2Z.inj_div, Nat2Z.inj_add. unfold BLOCK_SIZE. done.
Qed.
End correct.

(** ** Examples *)

(** Three documents and one document; bits of floats are read as integers. *)
Definition toy_pair (id tf pl : Z) : MapPair := Pair [0; 0; 0; 0; 0; 0; 0; id] [tf; 0; 0; 0; pl; 0; 0; 0] false.
Definition toy_nodes : list MapPair := [toy_pair 3 2 4; toy_pair 5 1 7; toy_pair 7 1 9].

Lemma written_blocks_ok_witness : exists bytes enc', createAndEncodeBlocksWithLengths Qc_of_Z toy_nodes ([], []) 1 0 (Qc_of_Z 5) = Ok (bytes, [], enc') /\ loads Qc_of_Z None 1 0 (Qc_of_Z 5) toy_nodes ∅ bytes.
Proof.
  apply (written_blocks_ok Qc_of_Z None 1 0 (Qc_of_Z 5) toy_nodes ∅ ([], [])).
  - done.
  - repeat constructor.
  - assert (H : forall id tf pl, 0 <= id < 256 -> is_u32 tf -> is_u32 pl -> tf < 256 -> pl < 256 -> value_ok Qc_of_Z None ∅ (toy_pair id tf pl)); [|repeat (apply Forall_cons_2; [by apply H|]); apply Forall_nil_2].
    intros id tf pl Hid Htf Hpl _ _. unfold value_ok, written_length. rewrite bool_decide_true by done. split_and!.
    + split; [done|cbn; lia|exists (le_combine [tf; 0; 0; 0])|exists (le_combine [pl; 0; 0; 0])]; (split; [done|]); cbn; unfold is_u32 in *; lia.
    + cbn [toy_pair Value]. unfold value_length. cbn [drop take]. rewrite uint32_of_Z; cbn; unfold is_u32 in *; lia.
    + unfold pair_id, be_combine. cbn. lia.
    + unfold pair_id, be_combine. cbn. lia.
  - by repeat constructor.
  - done.
Defined.

(** Writing and loading, evaluated *)
Example blocks_loaded :
  (let! (bytes, _, _) := createAndEncodeBlocksWithLengths Qc_of_Z toy_nodes ([], []) 1 0 (Qc_of_Z 5) in
   let! t := load_term Qc_of_Z ([9; 9] ++ bytes ++ [1; 0; 0; 0; 97; 5]) (FileNode 2 (2 + Z.of_nat (length bytes) + 4 + 1) [97]) (fun d => if d =? 3 then 4 else if d =? 5 then 7 else 9) (replicate 128 1) (replicate 128 2) None 1 1 0 (Qc_of_Z 5) (fun x => x) 0 in
   Ok (bt_entries t, bt_blocks t)) = Ok ([MkEntry 7 0 2 4], [[(3, 2); (5, 1); (7, 1)]]).
Proof. vm_compute. reflexivity. Qed.
