(* ===== verification/BlockMaxAnd.v ===== *)
(** * Searching for documents with all words

    [DoBlockMaxAnd] of [adapters/repos/db/lsmkv/search_segment.go] over the iterators of BlockMax.v: documents that all terms have, where blocks that cannot
    reach the worst score that is kept are skipped without decoding them.  The result is that of scoring every such document, up to what the bounds are off by. *)

From Stdlib Require Import QArith Qcanon.
From stdpp Require Import numbers sorting.
From S2P Require Import Prelude MemtableTree PriorityQueue Bm25Terms TopK BlockMax BlockFile BlockWriter.
Import Map.

#[local] Open Scope Z_scope.

(** An iterator with what it iterates over *)
Notation block_iter := (block_term * SegmentBlockMax)%type.

(** The shallow advances of the other terms; [None] when one has no documents left *)
Fixpoint shallow_all (l : list block_iter) (pivotID : Z) (upperBound : Qc) : run_t (option (list block_iter * Qc)) :=
  match l with
  | [] => Ok (Some ([], upperBound))
  | (t, s) :: l =>
      let! s := block_AdvanceAtLeastShallow t s pivotID in
      if s_exhausted s then Ok None
      else
        let! r := shallow_all l pivotID (bt_float32 t (upperBound + s_currentBlockImpact s)%Qc) in
        Ok (match r with Some (l, upperBound) => Some ((t, s) :: l, upperBound) | None => None end)
  end.

(** The advances to the document, up to the first term that does not have it; whether all have it *)
Fixpoint align_all (l : list block_iter) (pivotID : Z) : run_t (option (list block_iter * bool)) :=
  match l with
  | [] => Ok (Some ([], true))
  | (t, s) :: l =>
      let! s := block_AdvanceAtLeast t s pivotID in
      if s_exhausted s then Ok None
      else if negb (s_idPointer s =? pivotID) then Ok (Some ((t, s) :: l, false))
      else
        let! r := align_all l pivotID in
        Ok (match r with Some (l, isCandidate) => Some ((t, s) :: l, isCandidate) | None => None end)
  end.

(** The scores of the terms at a document, which they then leave *)
Fixpoint score_all (explain : bool) (l : list block_iter) (score : Qc) (docInfos : list (option DocPointerWithScore)) : run_t (list block_iter * Qc * list (option DocPointerWithScore)) :=
  match l with
  | [] => Ok ([], score, docInfos)
  | (t, s) :: l =>
      let! (s, (_, x, d)) := block_Score t s explain in
      let! docInfos := if explain then if (bt_index t <? length docInfos)%nat then Ok (<[bt_index t := d]> docInfos) else Panic else Ok docInfos in
      let! s := block_Advance t s in
      let! (l, score, docInfos) := score_all explain l (score + x)%Qc docInfos in
      Ok ((t, s) :: l, score, docInfos)
  end.

Definition least_block_max (l : list block_iter) : Z := foldl (fun next '(_, s) => if s_currentBlockMaxId s <? next then s_currentBlockMaxId s else next) max_u64 l.

Section search.
Context (cancelled : Z -> bool) (limit : Z) (additionalExplanations : bool) (termCount : nat).

(** [docInfos] is kept from turn to turn. *)
Fixpoint and_loop (fuel : nat) (iterations : Z) (pivotID : Z) (results : list block_iter) (topKHeap : heap_of) (worstDist : Qc) (docInfos : list (option DocPointerWithScore)) : run_t heap_of :=
  match fuel with
  | O => OutOfFuel
  | S fuel =>
      if (iterations mod 100000 =? 0) && cancelled iterations then Ok topKHeap
      else
        match results with
        | [] => Panic
        | (t, s) :: rest =>
            let! s := block_AdvanceAtLeast t s pivotID in
            if s_idPointer s =? max_u64 then Ok topKHeap
            else
              let pivotID := s_idPointer s in
              let! r := shallow_all rest pivotID (s_currentBlockImpact s) in
              match r with
              | None => Ok topKHeap
              | Some (rest, upperBound) =>
                  let! should := of_queue (ShouldEnqueue topKHeap upperBound limit) in
                  if should then
                    let! r := align_all rest pivotID in
                    match r with
                    | None => Ok topKHeap
                    | Some (rest, true) =>
                        let docInfos := if additionalExplanations then replicate termCount None else docInfos in
                        let! (results, score, docInfos) := score_all additionalExplanations ((t, s) :: rest) 0 docInfos in
                        let! should := of_queue (ShouldEnqueue topKHeap score limit) in
                        let! (topKHeap, worstDist) := if should then of_queue (InsertAndPop topKHeap pivotID score limit worstDist docInfos) else Ok (topKHeap, worstDist) in
                        and_loop fuel (iterations + 1) pivotID results topKHeap worstDist docInfos
                    | Some (rest, false) => and_loop fuel (iterations + 1) (u64 (pivotID + 1)) ((t, s) :: rest) topKHeap worstDist docInfos
                    end
                  else and_loop fuel (iterations + 1) (u64 (least_block_max ((t, s) :: rest) + 1)) ((t, s) :: rest) topKHeap worstDist docInfos
              end
        end
  end.

(** [sort_by_size]: [sort.Sort] of [TermsBySize] *)
Definition DoBlockMaxAnd (sort_by_size : list block_iter -> list block_iter) (resultsByTerm : list block_iter) (minimumOrTokensMatch : Z) : run_t heap_of :=
  let results := sort_by_size resultsByTerm in
  if Z.of_nat (length results) <? minimumOrTokensMatch then Ok NewMinWithId
  else and_loop (S (match results with [] => 0 | (t, _) :: _ => length (concat (bt_blocks t)) end)) 1 0 results NewMinWithId start_worst [].
End search.

(** * Correctness *)

Lemma from_elem d l x : x ∈ from d l <-> d <= x.1 /\ x ∈ l.
Proof. unfold from. by rewrite list_elem_of_filter. Qed.

Lemma from_shorter d e l x : x ∈ l -> d <= x.1 < e -> (length (from e l) < length (from d l))%nat.
Proof.
  unfold from. intros Hx Hd. induction l as [|y l IH]; [by apply not_elem_of_nil in Hx|]. rewrite !filter_cons. apply elem_of_cons in Hx as [->|Hx].
  - rewrite (decide_False (P := e <= y.1)), (decide_True (P := d <= y.1)) by lia. cbn [length]. enough (Nat.le (length (filter (fun x : Z * Z => e <= x.1) l)) (length (filter (fun x : Z * Z => d <= x.1) l))) by lia.
    clear IH. induction l as [|z l IH]; [done|]. rewrite !filter_cons. repeat destruct (decide _); cbn [length]; lia.
  - specialize (IH Hx). repeat destruct (decide _); cbn [length]; lia.
Qed.

(** The documents of a term that count, and what one scores in it *)
Definition posts (t : block_term) : list (Z * Z) := filter (alive t) (concat (bt_blocks t)).
Definition impact_of (t : block_term) (w : Qc) (d : Z) : Qc := match list_find (fun x => x.1 = d) (posts t) with Some (_, x) => doc_impact t w x | None => 0%Qc end.

(** Terms with their weights, the candidates, and their scores *)
Definition all_have (T : list (block_term * Qc)) (d : Z) : Prop := Forall (fun tw => d ∈ map fst (posts tw.1)) T.
Definition total_impact (T : list (block_term * Qc)) (d : Z) : Qc := qsum (map (fun tw => impact_of tw.1 tw.2 d) T).

Lemma posts_sorted t : term_blocks_ok t -> StronglySorted Z.lt (map fst (posts t)).
Proof.
  intros Ht. unfold posts. pose proof (tb_sorted t Ht) as Hs. induction (concat (bt_blocks t)) as [|x l IH]; [constructor|]. cbn [map] in Hs. inversion_clear Hs as [|? ? Hs' Hx]. rewrite filter_cons. destruct (decide (alive t x)); [|by apply IH].
  cbn [map]. constructor; [by apply IH|]. apply Forall_forall. intros i (y & -> & [_ Hy]%list_elem_of_filter)%list_elem_of_fmap. exact (proj1 (Forall_forall _ _) Hx _ (list_elem_of_fmap_2 fst _ _ Hy)).
Qed.

Lemma sorted_unique (l : list (Z * Z)) x y : StronglySorted Z.lt (map fst l) -> x ∈ l -> y ∈ l -> x.1 = y.1 -> x = y.
Proof.
  induction l as [|z l IH]; intros Hs Hx Hy E; [by apply not_elem_of_nil in Hx|]. cbn [map] in Hs. inversion_clear Hs as [|? ? Hs' Hz]. apply elem_of_cons in Hx as [->|Hx], Hy as [->|Hy]; [done| | |by apply IH].
  - pose proof (proj1 (Forall_forall _ _) Hz _ (list_elem_of_fmap_2 fst _ _ Hy)). lia.
  - pose proof (proj1 (Forall_forall _ _) Hz _ (list_elem_of_fmap_2 fst _ _ Hx)). lia.
Qed.

Lemma impact_of_post t w x : term_blocks_ok t -> x ∈ posts t -> impact_of t w x.1 = doc_impact t w x.
Proof.
  intros Ht Hx. unfold impact_of. destruct (list_find (fun y => y.1 = x.1) (posts t)) as [[i y]|] eqn:E.
  - apply list_find_Some in E as (Hi & Hid & _). f_equal. apply (sorted_unique (posts t)); [by apply posts_sorted|by eapply list_elem_of_lookup_2|done|done].
  - apply list_find_None in E. by pose proof (proj1 (Forall_forall _ _) E x Hx).
Qed.

Lemma post_id t x : term_blocks_ok t -> x ∈ posts t -> 0 <= x.1 < max_u64.
Proof. intros Ht [_ Hx]%list_elem_of_filter. exact (proj1 (Forall_forall _ _) (tb_ids t Ht) x Hx). Qed.

(** An iterator that has lost no document from [f] on *)
Definition tracks (f : Z) (tw : block_term * Qc) (it : block_iter) : Prop := it.1 = tw.1 /\ iter_ok tw.1 tw.2 it.2 /\ from f (left_docs tw.1 it.2) = from f (posts tw.1).

Definition term_ok (tw : block_term * Qc) : Prop := term_blocks_ok tw.1.

Lemma tracks_later f g tw it : f <= g -> tracks f tw it -> tracks g tw it.
Proof. intros Hfg (E & Hok & Hf). split_and!; [done|done|]. by rewrite <- (from_from f g (left_docs _ _)), <- (from_from f g (posts _)), Hf by done. Qed.

(** ** The three loops over the terms *)

(** An upper bound of a term's score up to the end of its block *)
Definition bounded (p : Z) (tw : block_term * Qc) (it : block_iter) : Prop :=
  p <= s_currentBlockMaxId it.2 < max_u64 /\
  forall e d, bounds_within tw.1 tw.2 e -> d ∈ map fst (posts tw.1) -> p <= d <= s_currentBlockMaxId it.2 -> (impact_of tw.1 tw.2 d ≤ s_currentBlockImpact it.2 + e)%Qc.

(** Terms whose bounds are off by at most [e] *)
Notation all_within T e := (Forall (fun tw : block_term * Qc => bounds_within tw.1 tw.2 e) T).

Lemma tracks_bounded p tw it : term_ok tw -> tracks p tw it -> s_exhausted it.2 = false -> p <= s_currentBlockMaxId it.2 -> bounded p tw it.
Proof.
  intros Ht (_ & Hok & Hf) He Hp. destruct (iter_position tw.1 Ht tw.2 it.2 Hok He) as (e & docs & Ee & Hb & _ & Hm & _). split.
  - split; [done|]. rewrite Hm. pose proof (tb_max tw.1 Ht _ _ _ Ee Hb) as Hmax. apply last_Some_elem_of, list_elem_of_fmap in Hmax as (x & -> & Hx). assert (Hin : x ∈ concat (bt_blocks tw.1)).
    { apply list_elem_of_In, in_concat. exists docs. split; [by apply list_elem_of_In; eapply list_elem_of_lookup_2|by apply list_elem_of_In]. }
    exact (proj2 (proj1 (Forall_forall _ _) (tb_ids tw.1 Ht) x Hin)).
  - intros e1 d Hw (x & -> & Hx)%list_elem_of_fmap Hd. rewrite (impact_of_post tw.1 tw.2 x Ht Hx). assert (Hleft : x ∈ from p (left_docs tw.1 it.2)) by (rewrite Hf; apply from_elem; split; [lia|done]). apply from_elem in Hleft as [_ Hleft].
    apply (iter_impact tw.1 Ht tw.2 e1 it.2 x Hw Hok He Hleft). lia.
Qed.

Lemma shallow_all_ok p : forall T l upper, Forall term_ok T -> Forall2 (tracks p) T l ->
  exists r, shallow_all l p upper = Ok r /\ match r with
    | None => forall d, p <= d -> ~ all_have T d
    | Some (l', bound) => Forall2 (tracks p) T l' /\ Forall2 (bounded p) T l' /\
        forall e, all_within T e -> (upper + qsum (map (fun it => s_currentBlockImpact it.2) l') ≤ bound + qsum (map (fun _ => e) T))%Qc
    end.
Proof.
  induction T as [|[t w] T IH]; intros l upper Hok HF; inversion_clear HF as [|tw0 [t' s] T1 l' Hh Htl]; cbn [shallow_all].
  { eexists. split; [done|]. split_and!; [constructor|constructor|]. intros e _. apply Qcle_refl. }
  apply Forall_cons in Hok as [Hw Hok]. destruct Hh as (E & Hi & Hf). cbn [fst snd] in E, Hi, Hf. subst t'. destruct (block_AdvanceAtLeastShallow_ok t Hw w s p Hi) as (s1 & -> & Hi1 & Hf1 & Hm1 & Hend). cbn [obind].
  destruct (s_exhausted s1) eqn:He.
  { eexists. split; [done|]. intros d Hd [Hx%list_elem_of_fmap _]%Forall_cons. cbn [fst] in Hx. destruct Hx as (z & -> & Hx). assert (Hin : z ∈ from p (posts t)) by (apply from_elem; by split). rewrite <- Hf, Hend in Hin by done. by apply not_elem_of_nil in Hin. }
  assert (Ht1 : tracks p (t, w) (t, s1)) by (split_and!; [done|done|cbn [fst snd]; by rewrite Hf1]).
  destruct (IH l' (bt_float32 t (upper + s_currentBlockImpact s1)%Qc) Hok Htl) as (r & -> & Hr). cbn [obind]. destruct r as [[l2 bound]|].
  - destruct Hr as (H1 & H2 & H3). eexists. split; [done|]. split_and!; [by constructor|constructor; [apply tracks_bounded; [done|done|done|by apply Hm1]|done]|].
    intros e [Hw1 Hw2]%Forall_cons. cbn [map]. rewrite !qsum_cons. cbn [snd]. rewrite Qcplus_assoc, (Qcplus_comm e), Qcplus_assoc.
    eapply Qcle_trans; [apply Qcplus_le_compat; [apply (bw_round _ _ _ Hw1)|apply Qcle_refl]|]. rewrite <- Qcplus_assoc, (Qcplus_comm e), Qcplus_assoc. apply Qcplus_le_compat; [by apply H3|apply Qcle_refl].
  - eexists. split; [done|]. intros d Hd Hall. apply Forall_cons in Hall as [_ Hall]. by apply (Hr d Hd).
Qed.

(** At a document that counts, all earlier ones passed *)
Definition aligned (p : Z) (tw : block_term * Qc) (it : block_iter) : Prop :=
  it.1 = tw.1 /\ iter_ok tw.1 tw.2 it.2 /\ s_exhausted it.2 = false /\ s_decoded it.2 = true /\ s_idPointer it.2 = p /\ left_docs tw.1 it.2 = from p (posts tw.1).

Lemma align_one p t w s : term_ok (t, w) -> tracks p (t, w) (t, s) ->
  exists s', block_AdvanceAtLeast t s p = Ok s' /\ iter_ok t w s' /\ left_docs t s' = from p (posts t) /\
    (s_exhausted s' = true -> from p (posts t) = [] /\ s_idPointer s' = max_u64) /\ (s_exhausted s' = false -> s_decoded s' = true /\ exists tf rest, from p (posts t) = (s_idPointer s', tf) :: rest).
Proof.
  intros Hw (_ & Hi & Hf). cbn [fst snd] in Hi, Hf. destruct (block_AdvanceAtLeast_ok t Hw w s p Hi) as (s' & E & Hi' & Hd & Hl). exists s'. rewrite Hf in Hl. split_and!; [done|done|done| |].
  - intros He. split; [rewrite <- Hl; unfold left_docs; by rewrite He|]. destruct Hi' as [docs Ha _ _|? ? He' _ _ _ _ _ _ _ _ _ _|_ Hmax]; [|congruence|done]. pose proof (ad_live _ _ _ _ Ha). congruence.
  - intros He. destruct Hd as [Hd|Hd]; [congruence|]. split; [done|]. destruct (iter_head t w s' Hi' He Hd) as (docs & tf & _ & _ & Hleft). rewrite Hl in Hleft. by eexists _, _.
Qed.

Lemma align_all_ok p : forall T l, Forall term_ok T -> Forall2 (tracks p) T l ->
  exists r, align_all l p = Ok r /\ match r with
    | None => forall d, p <= d -> ~ all_have T d
    | Some (l', true) => Forall2 (aligned p) T l'
    | Some (l', false) => Forall2 (tracks p) T l' /\ ~ all_have T p
    end.
Proof.
  induction T as [|[t w] T IH]; intros l Hok HF; inversion_clear HF as [|tw0 [t' s] T1 l' Hh Htl]; cbn [align_all]; [eexists; split; [done|constructor]|].
  apply Forall_cons in Hok as [Hw Hok]. assert (t' = t) as -> by apply Hh. destruct (align_one p t w s Hw Hh) as (s1 & -> & Hi1 & Hl1 & Hend & Hat). cbn [obind]. destruct (s_exhausted s1) eqn:He.
  { eexists. split; [done|]. intros d Hd [Hx%list_elem_of_fmap _]%Forall_cons. cbn [fst] in Hx. destruct Hx as (z & -> & Hx). assert (Hin : z ∈ from p (posts t)) by (apply from_elem; by split). rewrite (proj1 (Hend eq_refl)) in Hin. by apply not_elem_of_nil in Hin. }
  destruct (Hat eq_refl) as [Hd1 (tf & rest & Hhead)]. assert (Ht1 : tracks p (t, w) (t, s1)).
  { split_and!; [done|done|]. cbn [fst snd]. rewrite Hl1. apply from_from. lia. }
  destruct (Z.eqb_spec (s_idPointer s1) p) as [Hid|Hne]; cbn [negb].
  - destruct (IH l' Hok Htl) as (r & -> & Hr). cbn [obind]. assert (Ha1 : aligned p (t, w) (t, s1)) by (unfold aligned; cbn [fst snd]; by split_and!). destruct r as [[l2 []]|]; eexists; (split; [done|]).
    + by constructor.
    + destruct Hr as [Hr1 Hr2]. split; [by constructor|]. intros Hall. apply Forall_cons in Hall as [_ Hall]. done.
    + intros d Hd Hall. apply Forall_cons in Hall as [_ Hall]. by apply (Hr d Hd).
  - eexists. split; [done|]. split; [by constructor|]. intros [Hx%list_elem_of_fmap _]%Forall_cons. cbn [fst] in Hx. destruct Hx as (z & Hx1 & Hx). assert (Hin : z ∈ from p (posts t)) by (apply from_elem; split; [lia|done]).
    assert (Hge : p <= s_idPointer s1) by (assert (Hh2 : (s_idPointer s1, tf) ∈ from p (posts t)) by (rewrite Hhead; apply list_elem_of_here); apply from_elem in Hh2 as [? _]; done).
    pose proof (iter_left_sorted t Hw w s1 Hi1) as Hs. rewrite Hl1, Hhead in Hs. cbn [map] in Hs. inversion_clear Hs as [|? ? _ Hall]. rewrite Hhead in Hin. apply elem_of_cons in Hin as [->|Hin]; [cbn in Hx1; lia|].
    pose proof (proj1 (Forall_forall _ _) Hall _ (list_elem_of_fmap_2 fst _ _ Hin)). cbn in *. lia.
Qed.

Lemma aligned_head p tw it : aligned p tw it -> exists x, x ∈ posts tw.1 /\ x.1 = p /\ head (left_docs tw.1 it.2) = Some x.
Proof.
  intros (_ & Hi & He & Hd & Hp & Hl). destruct (iter_head tw.1 tw.2 it.2 Hi He Hd) as (docs & tf & _ & _ & Hleft). exists (s_idPointer it.2, tf). rewrite Hleft. split_and!; [|done|done].
  assert (Hin : (s_idPointer it.2, tf) ∈ from p (posts tw.1)) by (rewrite <- Hl, Hleft; apply list_elem_of_here). by apply from_elem in Hin as [_ ?].
Qed.

Lemma put_info (explain : bool) (t : block_term) (d : option DocPointerWithScore) docs : (explain = true -> (bt_index t < length docs)%nat) ->
  exists docs', (if explain then if (bt_index t <? length docs)%nat then Ok (<[bt_index t := d]> docs) else Panic else Ok docs) = (Ok docs' : run_t _) /\ length docs' = length docs.
Proof. intros Hidx. destruct explain; [|by exists docs]. rewrite (proj2 (Nat.ltb_lt _ _) (Hidx eq_refl)). eexists. split; [done|]. by rewrite length_insert. Qed.

Lemma score_all_ok explain p : forall T l score docs, Forall term_ok T -> Forall2 (aligned p) T l -> (explain = true -> Forall (fun tw => (bt_index tw.1 < length docs)%nat) T) ->
  exists l' docs', score_all explain l score docs = Ok (l', (score + total_impact T p)%Qc, docs') /\ length docs' = length docs /\
    Forall2 (fun tw it => it.1 = tw.1 /\ iter_ok tw.1 tw.2 it.2 /\ left_docs tw.1 it.2 = from (p + 1) (posts tw.1)) T l'.
Proof.
  induction T as [|[t w] T IH]; intros l score docs Hok HF Hidx; inversion_clear HF as [|tw0 [t' s] T1 l' Hh Htl]; cbn [score_all].
  { exists [], docs. split_and!; [|done|constructor]. do 3 f_equal. unfold total_impact. cbn. ring. }
  apply Forall_cons in Hok as [Hw Hok]. destruct (aligned_head _ _ _ Hh) as (x & Hx & Hxp & Hhead). destruct Hh as (E & Hi & He & Hd & Hp & Hl). cbn [fst snd] in *. subst t'.
  destruct (block_Score_ok t w s explain Hi He Hd) as (s1 & d & y & -> & Hi1 & He1 & Hd1 & Hl1 & Hy & _ & _). cbn [obind]. rewrite Hhead in Hy. injection Hy as <-.
  destruct (put_info explain t d docs) as (docs1 & -> & Hlen1). { intros Hx0. specialize (Hidx Hx0). by apply Forall_cons in Hidx as [Hidx _]. }
  cbn [obind]. destruct (block_Advance_ok t Hw w s1 Hi1 (or_intror Hd1)) as (s2 & -> & Hi2 & _ & Hl2). cbn [obind].
  destruct (IH l' (score + doc_impact t w x)%Qc docs1 Hok Htl) as (l2 & docs2 & -> & Hlen2 & HF2). { intros Hx0. specialize (Hidx Hx0). apply Forall_cons in Hidx as [_ Hidx]. by rewrite Hlen1. }
  cbn [obind]. eexists _, docs2. split_and!; [|congruence|].
  - do 3 f_equal. unfold total_impact. cbn [map]. rewrite qsum_cons. cbn [fst snd]. rewrite <- Hxp, (impact_of_post t w x Hw Hx). ring.
  - constructor; [|done]. cbn [fst snd]. split_and!; [done|done|]. rewrite Hl2, Hl1. pose proof (posts_sorted t Hw) as Hs. rewrite Hl in Hhead |- *.
    destruct (from p (posts t)) as [|x0 rest] eqn:Ef; [done|]. injection Hhead as ->. cbn [tail]. rewrite <- (from_from p (p + 1)) by lia. rewrite Ef. symmetry. apply (from_split (p + 1) [x] rest); [constructor; [lia|constructor]|].
    pose proof (iter_left_sorted t Hw w s Hi) as Hsl. rewrite Hl in Hsl. cbn [map] in Hsl. inversion_clear Hsl as [|? ? _ Hall]. apply Forall_forall. intros z Hz. pose proof (proj1 (Forall_forall _ _) Hall _ (list_elem_of_fmap_2 fst _ _ Hz)). lia.
Qed.

Lemma least_block_max_ok l : Forall (fun it : block_iter => s_currentBlockMaxId it.2 < max_u64) l -> l <> [] -> (exists it, it ∈ l /\ s_currentBlockMaxId it.2 = least_block_max l) /\ Forall (fun it : block_iter => least_block_max l <= s_currentBlockMaxId it.2) l.
Proof.
  unfold least_block_max. enough (H : forall l acc, let m := foldl (fun next '(_, s) => if s_currentBlockMaxId s <? next then s_currentBlockMaxId s else next) acc l in m <= acc /\ (m = acc \/ exists it : block_iter, it ∈ l /\ s_currentBlockMaxId it.2 = m) /\ Forall (fun it : block_iter => m <= s_currentBlockMaxId it.2) l).
  { intros Hmax Hne. destruct (H l max_u64) as (_ & [Hm|Hm] & Hall); [|by split]. exfalso. destruct l as [|it l]; [done|]. apply Forall_inv in Hmax, Hall. cbn beta in *. rewrite Hm in Hall. lia. }
  clear l. induction l as [|[t s] l IH]; intros acc; cbn [foldl]; [split_and!; [lia|by left|constructor]|]. destruct (IH (if s_currentBlockMaxId s <? acc then s_currentBlockMaxId s else acc)) as (H1 & H2 & H3). set (m := foldl _ _ l) in *.
  destruct (Z.ltb_spec (s_currentBlockMaxId s) acc) as [Hlt|Hge]; (split_and!; [lia| |constructor; [cbn; lia|done]]).
  - destruct H2 as [H2|(it & Hit & H2)]; right; [exists (t, s)|exists it]; (split; [|done]); [apply list_elem_of_here|by apply list_elem_of_further].
  - destruct H2 as [H2|(it & Hit & H2)]; [by left|right; exists it; split; [by apply list_elem_of_further|done]].
Qed.

(** ** The search *)

Section loop.
Context (cancelled : Z -> bool) (limit : Z) (explain : bool) (termCount : nat) (t0 : block_term) (w0 : Qc) (T : list (block_term * Qc)).
Notation terms0 := ((t0, w0) :: T).
Context (limit_pos : 1 <= limit) (not_cancelled : forall i, cancelled i = false) (terms_ok : Forall term_ok terms0) (indices : explain = true -> Forall (fun tw => (bt_index tw.1 < termCount)%nat) terms0).

(** The errors of the sum of the bounds: one for each term and one for each addition *)
Definition sum_errors (E : Qc) : Prop := exists e, all_within terms0 e /\ E = (qsum (map (fun _ => e) terms0) + qsum (map (fun _ => e) T))%Qc.
Notation kept := (kept limit (all_have terms0) (total_impact terms0) sum_errors).

(** Everything below [f] is done; the first term has just the documents from [f] on left from the pivot on *)
Record and_state (f pivotID : Z) (results : list block_iter) (q : heap_of) (worst : Qc) : Prop := {
  as_pivot : pivotID <= f;
  as_terms : Forall2 (tracks f) terms0 results;
  as_first it : head results = Some it -> from pivotID (left_docs t0 it.2) = from f (posts t0);
  as_top : kept f q worst;
  as_range : 0 <= f <= max_u64
}.

Lemma have_first d : all_have terms0 d -> exists x, x ∈ posts t0 /\ x.1 = d.
Proof. intros [(x & -> & Hx)%list_elem_of_fmap _]%Forall_cons. by exists x. Qed.

Lemma have_range d : all_have terms0 d -> 0 <= d < max_u64.
Proof. intros (x & Hx & <-)%have_first. apply (post_id t0); [|done]. by apply Forall_cons in terms_ok as [Ht _]. Qed.

(** Nothing is left from [p] on. *)
Lemma and_done p q worst : kept p q worst -> (forall d, p <= d -> ~ all_have terms0 d) -> p <= max_u64 -> kept max_u64 q worst.
Proof. intros Hk Hno Hp. apply (kept_later _ _ _ _ p); [done|done|]. intros d Hd Hr. by apply (Hno d (proj1 Hr)). Qed.

Lemma bounded_total p d e T' l : all_within T' e -> Forall2 (bounded p) T' l -> all_have T' d -> p <= d -> Forall (fun it : block_iter => d <= s_currentBlockMaxId it.2) l ->
  (total_impact T' d ≤ qsum (map (fun it => s_currentBlockImpact it.2) l) + qsum (map (fun _ => e) T'))%Qc.
Proof.
  intros Hw HF. induction HF as [|tw it T' l [_ Hb] _ IH]; intros Hall Hp Hd; [apply Qcle_refl|]. apply Forall_cons in Hall as [Hh Hall], Hd as [Hdh Hd], Hw as [Hwh Hw]. unfold total_impact. cbn [map]. rewrite !qsum_cons.
  match goal with |- (_ ≤ ?a + ?b + (?c + ?d0))%Qc => replace (a + b + (c + d0))%Qc with ((a + c) + (b + d0))%Qc by ring end. apply Qcplus_le_compat; [apply Hb; [done|done|lia]|by apply IH].
Qed.

(** The first term at its next document [p], everything before it done *)
Record at_pivot (p : Z) (s : SegmentBlockMax) (q : heap_of) (worst : Qc) : Prop := {
  ap_aligned : aligned p (t0, w0) (t0, s);
  ap_range : 0 <= p < max_u64;
  ap_top : kept p q worst
}.

Lemma first_advance f pivotID s0 rest q worst : and_state f pivotID ((t0, s0) :: rest) q worst ->
  exists s, block_AdvanceAtLeast t0 s0 pivotID = Ok s /\
    (s_idPointer s = max_u64 /\ kept max_u64 q worst \/
     f <= s_idPointer s /\ at_pivot (s_idPointer s) s q worst /\ forall f', s_idPointer s < f' -> (length (from f' (posts t0)) < length (from f (posts t0)))%nat).
Proof.
  intros [Hpf HF Hfirst Hk H0]. apply Forall2_cons in HF as [(_ & Hi0 & _) _]. cbn [fst snd] in Hi0. specialize (Hfirst _ eq_refl). cbn [snd] in Hfirst. pose proof terms_ok as Hok. apply Forall_cons in Hok as [Hw0 _].
  destruct (block_AdvanceAtLeast_ok t0 Hw0 w0 s0 pivotID Hi0) as (s & E & Hi & Hd & Hl). exists s. split; [done|]. rewrite Hfirst in Hl.
  assert (Hin : forall d, all_have terms0 d -> f <= d -> exists x, x ∈ left_docs t0 s /\ x.1 = d).
  { intros d (x & Hx & <-)%have_first Hfd. exists x. split; [|done]. rewrite Hl. apply from_elem. by split. }
  destruct (s_exhausted s) eqn:He.
  - left. split; [destruct Hi as [docs0 Ha _ _|? ? ? _ _ _ _ _ _ _ _ _ _|_ Hm]; [pose proof (ad_live _ _ _ _ Ha); congruence|congruence|done]|]. apply (and_done f); [done| |lia].
    intros d Hfd Hc. destruct (Hin d Hc Hfd) as (x & Hx & _). unfold left_docs in Hx. rewrite He in Hx. by apply not_elem_of_nil in Hx.
  - destruct Hd as [|Hd]; [congruence|]. right. destruct (iter_head t0 w0 s Hi He Hd) as (docs0 & tf0 & _ & _ & Hhead). set (p := s_idPointer s) in *.
    assert (Hpin : (p, tf0) ∈ from f (posts t0)) by (rewrite <- Hl, Hhead; apply list_elem_of_here). apply from_elem in Hpin as [Hfp Hpin]. cbn [fst] in Hfp. pose proof (post_id t0 _ Hw0 Hpin) as Hprange. cbn [fst] in Hprange.
    assert (Hge : Forall (fun x => p <= x.1) (left_docs t0 s)).
    { pose proof (iter_left_sorted t0 Hw0 w0 s Hi) as Hsl. rewrite Hhead in Hsl |- *. cbn [map fst] in Hsl. inversion_clear Hsl as [|? ? _ Hall]. constructor; [cbn; lia|].
      apply Forall_forall. intros z Hz. pose proof (proj1 (Forall_forall _ _) Hall _ (list_elem_of_fmap_2 fst _ _ Hz)). cbn in *. lia. }
    split_and!; [done| |intros f' Hf'; apply (from_shorter f f' (posts t0) (p, tf0) Hpin); cbn [fst]; lia]. split; [|done|].
    + split_and!; try done. cbn [fst snd]. rewrite <- (from_from f p) by done. rewrite <- Hl. symmetry. rewrite <- (app_nil_l (left_docs t0 s)) at 1. by apply from_split.
    + apply (kept_later _ _ _ _ f); [done|done|]. intros d Hc [Hfd Hdp]. destruct (Hin d Hc Hfd) as (x & Hx & <-). pose proof (proj1 (Forall_forall _ _) Hge x Hx). cbn in *. lia.
Qed.

Lemma pivot_tracks p s q worst : at_pivot p s q worst -> tracks p (t0, w0) (t0, s).
Proof. intros [(_ & Hi & _ & _ & _ & Hl) _ _]. split_and!; [done|done|]. cbn [fst snd] in *. rewrite Hl. by apply from_from. Qed.

Lemma pivot_bounded p s q worst : at_pivot p s q worst -> bounded p (t0, w0) (t0, s).
Proof.
  intros Hp. pose proof terms_ok as Hok. apply Forall_cons in Hok as [Hw0 _]. pose proof (pivot_tracks p s q worst Hp) as Ht. destruct Hp as [(_ & Hi & He & Hd & Hid & _) _ _]. cbn [fst snd] in *. apply tracks_bounded; [done|done|done|]. cbn [snd].
  destruct (iter_head t0 w0 s Hi He Hd) as (docs & tf & Ha & Hx & _). destruct (ad_entry _ _ _ _ Ha) as (e & Ee & -> & _). rewrite <- Hid.
  apply (block_le_max t0 Hw0 _ e docs (s_idPointer s, tf) Ee (ad_block _ _ _ _ Ha)). by eapply list_elem_of_lookup_2.
Qed.

(** The next turn starts behind [p] with no document lost *)
Lemma next_state f' p s q worst rest : at_pivot p s q worst -> p <= f' <= max_u64 -> Forall2 (tracks p) T rest -> kept f' q worst ->
  and_state f' f' ((t0, s) :: rest) q worst.
Proof.
  intros Hp Hf HF Hk. pose proof (pivot_tracks p s q worst Hp) as Ht. pose proof (ap_range _ _ _ _ Hp). split; [done| | |done|lia].
  - constructor; [by apply (tracks_later p); [lia|]|]. eapply Forall2_impl; [exact HF|]. intros tw it. apply tracks_later. lia.
  - intros it [= <-]. by apply (tracks_later p f') in Ht as (_ & _ & Ht); [|lia].
Qed.

(** A block that cannot reach the worst score: its bound is not above it *)
Lemma pruned_turn p s q worst rest upper : at_pivot p s q worst -> Forall2 (tracks p) T rest -> Forall2 (bounded p) T rest ->
  (forall e, all_within T e -> (s_currentBlockImpact s + qsum (map (fun it : block_iter => s_currentBlockImpact it.2) rest) ≤ upper + qsum (map (fun _ => e) T))%Qc) ->
  limit <= Len q /\ (exists top, Forall (no_less (less NewMinWithId) top) (items q) /\ ~ (Dist top < upper)%Qc) ->
  let f' := u64 (least_block_max ((t0, s) :: rest) + 1) in p < f' /\ and_state f' f' ((t0, s) :: rest) q worst.
Proof.
  intros Hp HF HB0 Hupper (Hfull & top & Hmin & Hle%Qcle_ngt). pose proof (pivot_bounded p s q worst Hp) as Hb0. assert (HB : Forall2 (bounded p) terms0 ((t0, s) :: rest)) by by constructor. pose proof (ap_range _ _ _ _ Hp) as Hr.
  assert (HBl : Forall (fun it : block_iter => p <= s_currentBlockMaxId it.2 < max_u64) ((t0, s) :: rest)) by (clear -HB; induction HB as [|tw it T' l [Hb _] _ IH]; by constructor).
  destruct (least_block_max_ok ((t0, s) :: rest)) as [(it & Hit & Hm) Hleast]; [eapply Forall_impl; [exact HBl|]; intros it Hit; apply Hit|done|]. set (m := least_block_max _) in *.
  pose proof (proj1 (Forall_forall _ _) HBl it Hit) as Hmr. cbn beta in Hmr. rewrite Hm in Hmr. rewrite u64_small by (unfold is_u64, u64_max in *; lia). split; [lia|]. apply (next_state _ p); [done|lia|done|].
  apply (kept_pass _ _ _ _ p _ _ _ top); [apply Hp|lia|done|done|]. intros d E Hcd Hd (e & Hw & ->). eapply Qcle_trans.
  - apply (bounded_total p d e terms0 ((t0, s) :: rest) Hw HB Hcd ltac:(lia)). eapply Forall_impl; [exact Hleast|]. intros it' Hit'. cbn beta in Hit'. lia.
  - rewrite (Qcplus_comm (qsum (map _ terms0))), Qcplus_assoc. apply Qcplus_le_compat; [|apply Qcle_refl]. cbn [map]. rewrite qsum_cons. apply Forall_cons in Hw as [_ Hw]. eapply Qcle_trans; [by apply (Hupper e)|].
    apply Qcplus_le_compat; [done|apply Qcle_refl].
Qed.

(** A document that all terms have *)
Lemma matched_turn p s q worst rest docs : at_pivot p s q worst -> Forall2 (aligned p) T rest -> (explain = true -> length docs = termCount) ->
  exists results docs' should q' worst', score_all explain ((t0, s) :: rest) 0 docs = Ok (results, total_impact terms0 p, docs') /\ of_queue (ShouldEnqueue q (total_impact terms0 p) limit) = Ok should /\
    (if should then of_queue (InsertAndPop q p (total_impact terms0 p) limit worst docs') else Ok (q, worst)) = Ok (q', worst') /\ and_state (p + 1) p results q' worst'.
Proof.
  intros Hp HFa Hdocs. pose proof (ap_top _ _ _ _ Hp) as Hk. pose proof (ap_range _ _ _ _ Hp) as Hr. assert (HF : Forall2 (aligned p) terms0 ((t0, s) :: rest)) by (constructor; [apply Hp|done]). assert (Hcand : all_have terms0 p).
  { clear -HF. unfold all_have. induction HF as [|tw it T' l Ha _ IH]; constructor; [|done]. destruct (aligned_head _ _ _ Ha) as (x & Hx & <- & _). by apply (list_elem_of_fmap_2 fst). }
  destruct (score_all_ok explain p terms0 ((t0, s) :: rest) 0 docs terms_ok HF) as (results & docs' & -> & _ & HF'). { intros Hx. rewrite (Hdocs Hx). by apply indices. }
  destruct (kept_should limit _ _ _ p q worst (total_impact terms0 p) limit_pos Hk) as (should & E & Hyes & Hno).
  assert (Hnext : forall q' worst', kept (p + 1) q' worst' -> and_state (p + 1) p results q' worst').
  { intros q' worst' Hk'. split; [lia| | |done|lia].
    - eapply Forall2_impl; [exact HF'|]. intros tw it (E1 & E2 & E3). split_and!; [done|done|]. rewrite E3. by apply from_from.
    - intros it Hit. inversion HF' as [|tw' it' ? ? (_ & _ & E3) _]; subst. injection Hit as <-. cbn [fst] in E3. rewrite E3. unfold from. rewrite list_filter_filter_r; [done|]. intros x Hx. lia. }
  exists results, docs', should. rewrite Qcplus_0_l. destruct should.
  - destruct (kept_insert limit _ _ _ p q worst docs' limit_pos Hk Hcand (Hyes eq_refl)) as (q' & worst' & E2 & Hk'). exists q', worst'. split_and!; [done|done|unfold of_queue; by rewrite E2|by apply Hnext].
  - destruct (Hno eq_refl) as (Hfull & top & Hmin & Hle). exists q, worst. split_and!; [done|done|done|]. apply Hnext. by apply (kept_refuse limit _ _ _ p q worst top).
Qed.

(** A document that some term does not have *)
Lemma missed_turn p s q worst rest : at_pivot p s q worst -> Forall2 (tracks p) T rest -> ~ all_have T p -> let f' := u64 (p + 1) in p < f' /\ and_state f' f' ((t0, s) :: rest) q worst.
Proof.
  intros Hp HF Hnot. pose proof (ap_range _ _ _ _ Hp) as Hr. cbv zeta. rewrite u64_small by (unfold is_u64, u64_max in *; lia). split; [lia|]. apply (next_state _ p); [done|lia|done|].
  apply (kept_later _ _ _ _ p); [apply Hp|lia|]. intros d Hcd Hd. assert (d = p) as -> by lia. apply Forall_cons in Hcd as [_ Hcd]. by destruct (Hnot Hcd).
Qed.

Lemma and_loop_ok fuel : forall iterations f pivotID results q worst docs, and_state f pivotID results q worst -> (length (from f (posts t0)) < fuel)%nat ->
  exists q' worst', and_loop cancelled limit explain termCount fuel iterations pivotID results q worst docs = Ok q' /\ kept max_u64 q' worst'.
Proof.
  induction fuel as [|fuel IH]; intros iterations f pivotID results q worst docs Hs Hf; [lia|]. cbn [and_loop]. rewrite not_cancelled, andb_false_r.
  destruct results as [|[t0' s0] rest]; [pose proof (as_terms _ _ _ _ _ Hs) as HF; by inversion HF|]. pose proof (as_terms _ _ _ _ _ Hs) as HF. apply Forall2_cons in HF as [Hh HFr]. assert (t0' = t0) as -> by apply Hh.
  destruct (first_advance f pivotID s0 rest q worst Hs) as (s & -> & Hs1). cbn [obind]. destruct Hs1 as [[Hmax Hend]|(Hfp & Hp & Hshort)]; [rewrite Hmax, Z.eqb_refl; by exists q, worst|]. set (p := s_idPointer s) in *. pose proof (ap_range _ _ _ _ Hp) as Hr.
  rewrite (proj2 (Z.eqb_neq _ _)) by lia. pose proof terms_ok as Hok. apply Forall_cons in Hok as [_ Hok].
  assert (Hnone : (forall d, p <= d -> ~ all_have T d) -> kept max_u64 q worst) by (intros Hno; apply (and_done p); [apply Hp| |lia]; intros d Hpd [_ Hall]%Forall_cons; by apply (Hno d Hpd)).
  destruct (shallow_all_ok p T rest (s_currentBlockImpact s) Hok) as (r & -> & Hsh). { eapply Forall2_impl; [exact HFr|]. intros tw it. by apply tracks_later. }
  cbn [obind]. destruct r as [[rest1 upper]|]; [|exists q, worst; split; [done|by apply Hnone]]. destruct Hsh as (HF1 & HB1 & Hupper).
  destruct (kept_should limit _ _ _ p q worst upper limit_pos (ap_top _ _ _ _ Hp)) as (should & -> & _ & Hno). cbn [obind]. destruct should.
  - destruct (align_all_ok p T rest1 Hok HF1) as (r & -> & Hal). cbn [obind]. destruct r as [[rest2 []]|]; [| |exists q, worst; split; [done|by apply Hnone]].
    + set (infos := if explain then replicate termCount None else docs). destruct (matched_turn p s q worst rest2 infos Hp Hal) as (results' & docs' & should & q' & worst' & -> & E1 & E2 & Hs'); [intros Hx; unfold infos; by rewrite Hx, length_replicate|].
      cbn [obind]. rewrite E1. cbn [obind]. rewrite E2. cbn [obind]. apply (IH _ (p + 1)); [done|]. pose proof (Hshort (p + 1) ltac:(lia)). lia.
    + destruct Hal as [HF2 Hnot]. destruct (missed_turn p s q worst rest2 Hp HF2 Hnot) as [Hlt Hs']. apply (IH _ _ _ _ _ _ _ Hs'). pose proof (Hshort _ Hlt). lia.
  - destruct (pruned_turn p s q worst rest1 upper Hp HF1 HB1 Hupper (Hno eq_refl)) as [Hlt Hs']. apply (IH _ _ _ _ _ _ _ Hs'). pose proof (Hshort _ Hlt). lia.
Qed.
End loop.

(** ** The whole search *)

(** The iterators of terms with their weights, each at its first document *)
Definition fresh (tw : block_term * Qc) (it : block_iter) : Prop := it.1 = tw.1 /\ block_reset tw.1 tw.2 = Ok it.2.

Lemma fresh_tracks tw it : term_ok tw -> fresh tw it -> tracks 0 tw it /\ left_docs tw.1 it.2 = posts tw.1.
Proof.
  intros Ht [E1 E2]. destruct (block_reset_ok tw.1 Ht tw.2) as (s & E & Hi & _ & Hl). rewrite E2 in E. injection E as <-. fold (posts tw.1) in Hl.
  split; [|done]. split; [done|]. split; [done|]. by rewrite Hl.
Qed.

Lemma and_start limit t0 w0 T s rest : 1 <= limit -> Forall term_ok ((t0, w0) :: T) -> Forall2 fresh ((t0, w0) :: T) ((t0, s) :: rest) ->
  and_state limit t0 w0 T 0 0 ((t0, s) :: rest) NewMinWithId start_worst.
Proof.
  intros Hl Hok HF. pose proof HF as HF0. apply Forall2_cons in HF0 as [Hf0 _]. pose proof Hok as Hw0. apply Forall_cons in Hw0 as [Hw0 _]. split; [done| | | |unfold max_u64; lia].
  - clear -HF Hok. induction HF as [|tw it T' l Hf _ IH]; constructor; apply Forall_cons in Hok as [Hw Hok]; [by apply fresh_tracks|by apply IH].
  - intros it [= <-]. pose proof (proj2 (fresh_tracks _ _ Hw0 Hf0)) as Hleft. cbn [fst snd] in *. by rewrite Hleft.
  - apply kept_start; [done|]. intros d Hd. apply (have_range t0 w0 T Hok d Hd).
Qed.

Lemma posts_fuel f t : (length (from f (posts t)) < S (length (concat (bt_blocks t))))%nat.
Proof. unfold from, posts. pose proof (length_filter (fun x => f <= x.1) (filter (alive t) (concat (bt_blocks t)))). pose proof (length_filter (alive t) (concat (bt_blocks t))). lia. Qed.

Lemma sum_errors_pos t0 w0 T E : sum_errors t0 w0 T E -> (0 ≤ E)%Qc.
Proof.
  intros (e & [Hw _]%Forall_cons & ->). pose proof (bw_error _ _ _ Hw) as He. assert (H : forall l : list (block_term * Qc), (0 ≤ qsum (map (fun _ => e) l))%Qc).
  { induction l as [|x l IH]; [apply Qcle_refl|]. cbn [map]. rewrite qsum_cons, <- (Qcplus_0_r 0%Qc). by apply Qcplus_le_compat. }
  rewrite <- (Qcplus_0_r 0%Qc). by apply Qcplus_le_compat.
Qed.

Lemma all_have_perm T T' d : T ≡ₚ T' -> all_have T d <-> all_have T' d.
Proof. intros Hp. unfold all_have. by rewrite Hp. Qed.

Lemma total_impact_perm T T' d : T ≡ₚ T' -> total_impact T d = total_impact T' d.
Proof. intros Hp. unfold total_impact. apply qsum_perm. by rewrite Hp. Qed.

Lemma Forall2_perm_r {A B} (R : A -> B -> Prop) k l l' : Forall2 R k l -> l ≡ₚ l' -> exists k', k ≡ₚ k' /\ Forall2 R k' l'.
Proof. intros HF Hp. destruct (Permutation_Forall2 Hp (proj2 (Forall2_flip R k l) HF)) as (k' & Hpk & HF'). exists k'. split; [done|by apply (Forall2_flip R) in HF']. Qed.

(** What the upper bound of a turn may be off by: the error of each term's bound and of each addition *)
Definition bound_errors (T : list (block_term * Qc)) (E : Qc) : Prop := exists e, all_within T e /\ E = (Qc_of_Z (2 * Z.of_nat (length T) - 1) * e)%Qc.

Lemma qsum_const {A} (l : list A) e : qsum (map (fun _ => e) l) = (Qc_of_Z (Z.of_nat (length l)) * e)%Qc.
Proof. induction l as [|x l IH]; [symmetry; apply Qcmult_0_l|]. cbn [map length]. rewrite qsum_cons, IH, Nat2Z.inj_succ, <- Z.add_1_r, Z2Qc_inj_add, Z2Qc_inj_1. ring. Qed.

Lemma bound_errors_sum t0 w0 T E : bound_errors ((t0, w0) :: T) E -> sum_errors t0 w0 T E.
Proof.
  intros (e & Hw & ->). exists e. split; [done|]. rewrite !qsum_const. cbn [length]. rewrite <- Qcmult_plus_distr_l, <- Z2Qc_inj_add. do 2 f_equal. lia.
Qed.

Lemma bound_errors_perm T T' E : T ≡ₚ T' -> bound_errors T E -> bound_errors T' E.
Proof. intros Hp (e & Hw & ->). exists e. rewrite <- Hp at 1. split; [done|]. by rewrite Hp. Qed.

Lemma bound_errors_0 T : all_within T 0%Qc -> bound_errors T 0.
Proof. intros Hw. exists 0%Qc. split; [done|]. by rewrite Qcmult_0_r. Qed.


(** ** Examples *)

Lemma one_block_ok t e docs : bt_entries t = [e] -> bt_blocks t = [docs] -> bt_docCount t = Z.of_nat (length docs) -> last (map fst docs) = Some (MaxId e) -> StronglySorted Z.lt (map fst docs) ->
  Forall (fun x => 0 <= x.1 < max_u64) docs -> term_blocks_ok t.
Proof.
  intros Ee Eb En Hlast Hs Hall. assert (Hc : concat (bt_blocks t) = docs) by (rewrite Eb; cbn; apply app_nil_r). split.
  - by rewrite Ee, Eb.
  - by rewrite Ee.
  - by rewrite Ee.
  - rewrite Eb. intros [|idx] docs'; [|done]. intros [= <-]. split; [destruct docs; [done|cbn; lia]|]. rewrite En. unfold block_size. rewrite Ee, En. destruct (_ <=? _); cbn [length Nat.sub Nat.eqb]; lia.
  - rewrite Ee, Eb. by intros [|idx] e' docs' [= <-] [= <-].
  - by rewrite Hc.
  - by rewrite Hc.
Qed.

Lemma one_block_bounds t w e docs : bt_entries t = [e] -> bt_blocks t = [docs] -> (0 ≤ w * bt_boost t)%Qc -> bt_float32 t = (fun x => x) ->
  Forall (fun x => (block_tf t (Qc_of_Z x.2) (Qc_of_Z (bt_propLength t x.1)) ≤ block_tf t (Qc_of_Z (MaxImpactTf e)) (Qc_of_Z (MaxImpactPropLength e)))%Qc) docs -> bounds_within t w 0.
Proof.
  intros Ee Eb Hw Hr Hall. apply bounds_exact; [done|intros x; rewrite Hr; apply Qcle_refl|]. unfold entries_bound. rewrite Ee, Eb. intros [|idx] e' docs' x; [|done]. intros [= <-] [= <-] Hx. exact (proj1 (Forall_forall _ _) Hall x Hx).
Qed.

(** Two words: the second one has document 5 too, which is deleted *)
Definition word_a : block_term := BlockTerm [MkEntry 9 0 4 2] [[(1, 1); (3, 2); (5, 1); (9, 4)]] 4 (Some (fun d => negb (d =? 5))) (fun _ => 2) 1 1 (Qc_of_Z 1) (Qc_of_Z 2) (fun x => x) 0.
Definition word_b : block_term := BlockTerm [MkEntry 9 0 3 2] [[(3, 1); (5, 3); (7, 1); (9, 1)]] 4 (Some (fun d => negb (d =? 5))) (fun _ => 2) 1 1 (Qc_of_Z 1) (Qc_of_Z 2) (fun x => x) 1.

Lemma words_ok : Forall term_ok [(word_a, Qc_of_Z 1); (word_b, Qc_of_Z 1)].
Proof.
  apply Forall_cons_2; [|apply Forall_cons_2; [|apply Forall_nil_2]].
  - by apply (one_block_ok word_a (MkEntry 9 0 4 2) [(1, 1); (3, 2); (5, 1); (9, 4)]); repeat constructor.
  - by apply (one_block_ok word_b (MkEntry 9 0 3 2) [(3, 1); (5, 3); (7, 1); (9, 1)]); repeat constructor.
Qed.

Lemma words_bounds : all_within [(word_a, Qc_of_Z 1); (word_b, Qc_of_Z 1)] 0%Qc.
Proof.
  apply Forall_cons_2; [|apply Forall_cons_2; [|apply Forall_nil_2]].
  - apply (one_block_bounds word_a _ (MkEntry 9 0 4 2) [(1, 1); (3, 2); (5, 1); (9, 4)]); [done|done|by apply (bool_decide_unpack _)|done|]. repeat apply Forall_cons_2; try apply Forall_nil_2; by apply (bool_decide_unpack _).
  - apply (one_block_bounds word_b _ (MkEntry 9 0 3 2) [(3, 1); (5, 3); (7, 1); (9, 1)]); [done|done|by apply (bool_decide_unpack _)|done|]. repeat apply Forall_cons_2; try apply Forall_nil_2; by apply (bool_decide_unpack _).
Qed.

Definition started (t : block_term) (w : Qc) : block_iter := (t, match block_reset t w with Ok s => s | _ => Iter 0 0 0 0 true false false 0 [] [] 0 0 end).


Example block_max_and_example : obind (DoBlockMaxAnd (fun _ => false) 1 false 2 (fun l => l) [started word_a (Qc_of_Z 1); started word_b (Qc_of_Z 1)] 2) popped = Ok [MkItem 9 (total_impact [(word_a, Qc_of_Z 1); (word_b, Qc_of_Z 1)] 9) false []].
Proof. vm_compute. reflexivity. Qed.

(** Entries are written for the average length at the time of the flush.  Two documents, the first of frequency 1 and length 1 and the second of 2 and 4, are written when the
    average is 1: the entry has the first one's impact.  A search for one document when the average is 4 finds the first one, although the second now scores more. *)
Definition two_documents : list MapPair := [Pair [0; 0; 0; 0; 0; 0; 0; 1] [1; 0; 0; 0; 1; 0; 0; 0] false; Pair [0; 0; 0; 0; 0; 0; 0; 2] [2; 0; 0; 0; 4; 0; 0; 0] false].

Example flush_average_loses :
  let half := (Qc_of_Z 1 / Qc_of_Z 2)%Qc in
  let found :=
    let! (bytes, _, _) := createAndEncodeBlocksWithLengths Qc_of_Z two_documents ([], []) 1 half (Qc_of_Z 1) in
    let! t := load_term Qc_of_Z (bytes ++ [1; 0; 0; 0; 97]) (FileNode 0 (Z.of_nat (length bytes) + 4 + 1) [97]) (fun d => if d =? 1 then 1 else 4) (replicate 128 0) (replicate 128 0) None 1 1 half (Qc_of_Z 4) (fun x => x) 0 in
    let! topKHeap := DoBlockMaxAnd (fun _ => false) 1 false 1 (fun l => l) [started t (Qc_of_Z 1)] 1 in
    let! out := popped topKHeap in
    Ok (map ID out, bool_decide (impact_of t (Qc_of_Z 1) 1 < impact_of t (Qc_of_Z 1) 2)%Qc) in
  found = Ok ([1], true).
Proof. vm_compute. reflexivity. Qed.
