(* ===== verification/BlockMaxWand.v ===== *)
(** * Searching for documents with some of the words

    [DoBlockMaxWand] of [adapters/repos/db/lsmkv/search_segment.go] over the iterators of BlockMax.v.  With a limit that all documents fit in, the search
    finds each of them with its score.  With a smaller limit it can miss the best document: a term that ends while blocks are skipped stays in front of the
    others, and the documents that these share are not scored. *)

From Stdlib Require Import QArith Qcanon.
From stdpp Require Import numbers sorting.
From S2P Require Import Prelude PriorityQueue Bm25Terms TopK BlockMax BlockMaxAnd.

#[local] Open Scope Z_scope.

Notation it_id it := (s_idPointer (snd it)) (only parsing).

(** The largest possible score of a term *)
Definition term_weight (it : block_iter) : Qc := (s_idf it.2 * bt_boost it.1)%Qc.

(** ** Order of the terms *)

Fixpoint move_right (cur : block_iter) (l : list block_iter) : list block_iter :=
  match l with [] => [cur] | y :: l => if it_id y <? it_id cur then y :: move_right cur l else cur :: y :: l end.

Definition reinsertRight (l : list block_iter) (i : nat) : run_t (list block_iter) :=
  match drop i l with [] => Panic | cur :: rest => Ok (take i l ++ move_right cur rest) end.

(** From the end of the sorted part, which is given in reverse *)
Fixpoint move_left (cur : block_iter) (before : list block_iter) : list block_iter :=
  match before with [] => [cur] | y :: l => if it_id cur <? it_id y then y :: move_left cur l else cur :: y :: l end.

Definition sortByID (l : list block_iter) : list block_iter := rev (foldl (fun before cur => move_left cur before) [] l).

(** ** The steps of a turn *)

(** The first term that is not exhausted, and the first one at which the weights reach the worst score *)
Fixpoint pivot_scan (worstDist : Qc) (l : list block_iter) (i : nat) (cumScore : Qc) (firstNonExhausted : option nat) : option nat * option (nat * Z) :=
  match l with
  | [] => (firstNonExhausted, None)
  | it :: l =>
      if s_exhausted it.2 then pivot_scan worstDist l (S i) cumScore firstNonExhausted
      else
        let firstNonExhausted := match firstNonExhausted with None => Some i | _ => firstNonExhausted end in
        let cumScore := (cumScore + term_weight it)%Qc in
        if bool_decide (worstDist ≤ cumScore)%Qc then (firstNonExhausted, Some (i, it_id it)) else pivot_scan worstDist l (S i) cumScore firstNonExhausted
  end.

(** The last of the terms from [pivotPoint] on that are at the same document *)
Fixpoint extend_pivot (l : list block_iter) (pivotPoint : nat) (pivotID : Z) : nat :=
  match l with [] => pivotPoint | it :: l => if it_id it =? pivotID then extend_pivot l (S pivotPoint) pivotID else pivotPoint end.

(** The shallow advances of the terms up to the pivot, and the sum of the bounds of their blocks *)
Fixpoint shallow_candidates (candidates : list block_iter) (pivotID : Z) (upperBound : Qc) (needFullSort : bool) : run_t (list block_iter * Qc * bool) :=
  match candidates with
  | [] => Ok ([], upperBound, needFullSort)
  | (t, s) :: l =>
      let! (s, needFullSort) :=
        if s_currentBlockMaxId s <? pivotID then
          let! s' := block_AdvanceAtLeastShallow t s pivotID in
          Ok (s', needFullSort || negb (s_blockEntryIdx s' =? s_blockEntryIdx s)%nat)
        else Ok (s, needFullSort) in
      let! (l, upperBound, needFullSort) := shallow_candidates l pivotID (bt_float32 t (upperBound + s_currentBlockImpact s)%Qc) needFullSort in
      Ok ((t, s) :: l, upperBound, needFullSort)
  end.

(** Scores of the terms in front that are at the document; a score may decode frequencies. *)
Fixpoint score_matched (explain : bool) (l : list block_iter) (pivotID : Z) (score : Qc) (termsMatched : Z) (docInfos : list (option DocPointerWithScore)) :
    run_t (list block_iter * Qc * Z * list (option DocPointerWithScore)) :=
  match l with
  | [] => Ok ([], score, termsMatched, docInfos)
  | (t, s) :: l =>
      if negb (s_idPointer s =? pivotID) then Ok ((t, s) :: l, score, termsMatched, docInfos)
      else
        let! (s, (_, x, d)) := block_Score t s explain in
        let! docInfos := if explain then if (bt_index t <? length docInfos)%nat then Ok (<[bt_index t := d]> docInfos) else Panic else Ok docInfos in
        let! (l, score, termsMatched, docInfos) := score_matched explain l pivotID (score + x)%Qc (termsMatched + 1) docInfos in
        Ok ((t, s) :: l, score, termsMatched, docInfos)
  end.

(** Exhausted terms in front are passed here. *)
Fixpoint advance_matched (l : list block_iter) (pivotID : Z) : run_t (list block_iter * nat) :=
  match l with
  | [] => Ok ([], 0%nat)
  | (t, s) :: l =>
      if negb (s_exhausted s) && negb (s_idPointer s =? pivotID) then Ok ((t, s) :: l, 0%nat)
      else
        let! s := block_Advance t s in
        let! (l, advanced) := advance_matched l pivotID in
        Ok ((t, s) :: l, S advanced)
  end.

(** [for i := advanced - 1; i >= 0; i--] *)
Fixpoint reinsert_prefix (advanced : nat) (l : list block_iter) : run_t (list block_iter) :=
  match advanced with O => Ok l | S i => let! l := reinsertRight l i in reinsert_prefix i l end.

(** [for results[nextList].idPointer == pivotID { nextList-- }] *)
Fixpoint last_other (l : list block_iter) (nextList : nat) (pivotID : Z) : run_t nat :=
  match l !! nextList with
  | None => Panic
  | Some it => if it_id it =? pivotID then match nextList with O => Panic | S i => last_other l i pivotID end else Ok nextList
  end.

Definition advance_at (l : list block_iter) (i : nat) (docId : Z) : run_t (list block_iter) :=
  match l !! i with None => Panic | Some (t, s) => let! s := block_AdvanceAtLeast t s docId in Ok (<[i := (t, s)]> l) end.

(** The heaviest of the candidates before the pivot, if it is heavier than the pivot, and the first end of a block *)
Fixpoint heaviest (candidates : list block_iter) (i pivotPoint nextList : nat) (maxWeight : Qc) (next : Z) : nat * Z :=
  match candidates with
  | [] => (nextList, next)
  | it :: l =>
      let next := if s_currentBlockMaxId it.2 <? next then s_currentBlockMaxId it.2 else next in
      if (i <? pivotPoint)%nat && bool_decide (maxWeight < term_weight it)%Qc then heaviest l (S i) pivotPoint i (term_weight it) next
      else heaviest l (S i) pivotPoint nextList maxWeight next
  end.

Section search.
Context (cancelled : Z -> bool) (limit : Z) (additionalExplanations : bool) (termCount : nat) (minimumOrTokensMatch : Z).

Definition matched_branch (results : list block_iter) (pivotID : Z) (needFullSort : bool) (topKHeap : heap_of) (worstDist : Qc) (docInfos : list (option DocPointerWithScore)) :
    run_t (list block_iter * heap_of * Qc * list (option DocPointerWithScore)) :=
  let docInfos := if additionalExplanations then replicate termCount None else docInfos in
  let! (results, score, termsMatched, docInfos) := score_matched additionalExplanations results pivotID 0 0 docInfos in
  let! should := of_queue (ShouldEnqueue topKHeap score limit) in
  let! (topKHeap, worstDist) := if should && (minimumOrTokensMatch <=? termsMatched) then of_queue (InsertAndPop topKHeap pivotID score limit worstDist docInfos) else Ok (topKHeap, worstDist) in
  let! (results, advanced) := advance_matched results pivotID in
  let! results := if needFullSort then Ok (sortByID results) else reinsert_prefix advanced results in
  Ok (results, topKHeap, worstDist, docInfos).

Definition pruned_branch (results : list block_iter) (pivotPoint : nat) (pivotID : Z) (needFullSort : bool) : run_t (list block_iter) :=
  match results !! pivotPoint with
  | None => Panic
  | Some pivot =>
      let (nextList, next) := heaviest (take (S pivotPoint) results) 0 pivotPoint pivotPoint (term_weight pivot) max_u64 in
      let next := u64 (next + 1) in
      let next := match results !! S pivotPoint with Some it => if it_id it <? next then it_id it else next | None => next end in
      let next := if next <=? pivotID then u64 (pivotID + 1) else next in
      let! results := advance_at results nextList next in
      if needFullSort then Ok (sortByID results) else reinsertRight results nextList
  end.

(** The flag is [true] when the search was cancelled and its queue is partial. *)
Fixpoint block_wand_loop (fuel : nat) (iterations : Z) (results : list block_iter) (needFullSort : bool) (topKHeap : heap_of) (worstDist : Qc) (docInfos : list (option DocPointerWithScore)) : run_t (heap_of * bool) :=
  match fuel with
  | O => OutOfFuel
  | S fuel =>
      if (iterations mod 100000 =? 0) && cancelled iterations then Ok (topKHeap, true)
      else
        match pivot_scan worstDist results 0 0 None with
        | (Some firstNonExhausted, Some (i, pivotID)) =>
            if pivotID =? max_u64 then Ok (topKHeap, false)
            else
              let pivotPoint := extend_pivot (drop (S i) results) i pivotID in
              let! (candidates, upperBound, needFullSort) := shallow_candidates (take (S pivotPoint) results) pivotID 0 needFullSort in
              let results := candidates ++ drop (S pivotPoint) results in
              let! should := of_queue (ShouldEnqueue topKHeap upperBound limit) in
              if should then
                match results !! firstNonExhausted with
                | None => Panic
                | Some firstTerm =>
                    if pivotID =? it_id firstTerm then
                      let! (results, topKHeap, worstDist, docInfos) := matched_branch results pivotID needFullSort topKHeap worstDist docInfos in
                      block_wand_loop fuel (iterations + 1) results false topKHeap worstDist docInfos
                    else
                      let! nextList := last_other results pivotPoint pivotID in
                      let! results := advance_at results nextList pivotID in
                      let! results := reinsertRight results nextList in
                      block_wand_loop fuel (iterations + 1) results needFullSort topKHeap worstDist docInfos
                end
              else
                let! results := pruned_branch results pivotPoint pivotID needFullSort in
                block_wand_loop fuel (iterations + 1) results false topKHeap worstDist docInfos
        | _ => Ok (topKHeap, false)
        end
  end.

Definition DoBlockMaxWand (fuel : nat) (results : list block_iter) : run_t (heap_of * bool) := block_wand_loop fuel 1 (sortByID results) false NewMinWithId start_worst [].
End search.

(** * Correctness *)

(** ** Order *)

Notation ids_sorted := (StronglySorted (fun a b : block_iter => it_id a <= it_id b)).

Lemma move_right_perm cur l : move_right cur l ≡ₚ cur :: l.
Proof. induction l as [|y l IH]; cbn [move_right]; [done|]. destruct (_ <? _); [|done]. rewrite IH. constructor. Qed.

Lemma move_right_sorted cur l : ids_sorted l -> ids_sorted (move_right cur l).
Proof.
  induction 1 as [|y l Hs IH Hy]; cbn [move_right]; [by repeat constructor|]. destruct (Z.ltb_spec (it_id y) (it_id cur)) as [Hlt|Hge].
  - constructor; [done|]. rewrite move_right_perm. constructor; [lia|done].
  - constructor; [by constructor|]. constructor; [done|]. eapply Forall_impl; [exact Hy|]. cbn beta. lia.
Qed.

Lemma reinsert_prefix_ok n : forall l, (n <= length l)%nat -> ids_sorted (drop n l) -> exists l', reinsert_prefix n l = Ok l' /\ l' ≡ₚ l /\ ids_sorted l'.
Proof.
  induction n as [|n IH]; intros l Hn Hs; cbn [reinsert_prefix]; [by exists l|]. destruct (lookup_lt_is_Some_2 l n ltac:(lia)) as [cur Hcur]. unfold reinsertRight. rewrite (drop_S _ _ _ Hcur). cbn [obind].
  assert (Hlen : length (take n l) = n) by (rewrite length_take; lia). destruct (IH (take n l ++ move_right cur (drop (S n) l))) as (l' & -> & Hp & Hs').
  - rewrite length_app. lia.
  - rewrite drop_app_length' by done. by apply move_right_sorted.
  - exists l'. split_and!; [done| |done]. rewrite Hp, move_right_perm, <- (drop_S _ _ _ Hcur). by rewrite take_drop.
Qed.

Lemma move_left_perm cur l : move_left cur l ≡ₚ cur :: l.
Proof. induction l as [|y l IH]; cbn [move_left]; [done|]. destruct (_ <? _); [|done]. rewrite IH. constructor. Qed.

Lemma move_left_sorted cur l : StronglySorted (fun a b : block_iter => it_id b <= it_id a) l -> StronglySorted (fun a b : block_iter => it_id b <= it_id a) (move_left cur l).
Proof.
  induction 1 as [|y l Hs IH Hy]; cbn [move_left]; [by repeat constructor|]. destruct (Z.ltb_spec (it_id cur) (it_id y)) as [Hlt|Hge].
  - constructor; [done|]. rewrite move_left_perm. constructor; [lia|done].
  - constructor; [by constructor|]. constructor; [done|]. eapply Forall_impl; [exact Hy|]. cbn beta. lia.
Qed.

Lemma sortByID_ok l : sortByID l ≡ₚ l /\ ids_sorted (sortByID l).
Proof.
  unfold sortByID. enough (H : forall before, StronglySorted (fun a b : block_iter => it_id b <= it_id a) before -> let r := foldl (fun before cur => move_left cur before) before l in r ≡ₚ before ++ l /\ StronglySorted (fun a b : block_iter => it_id b <= it_id a) r).
  { destruct (H [] ltac:(constructor)) as [Hp Hs]. split; [by rewrite <- Permutation_rev|by apply (StronglySorted_rev (fun a b : block_iter => it_id b <= it_id a))]. }
  induction l as [|x l IH]; intros before Hb; cbn [foldl]; [by rewrite app_nil_r|]. destruct (IH _ (move_left_sorted x before Hb)) as [Hp Hs]. split; [|done]. rewrite Hp, move_left_perm. apply Permutation_middle.
Qed.

(** ** Terms at their next documents *)

(** An iterator with just the documents from [f] on left *)
Definition at_from (f : Z) (tw : block_term * Qc) (it : block_iter) : Prop :=
  it.1 = tw.1 /\ iter_ok tw.1 tw.2 it.2 /\ (s_exhausted it.2 = true \/ s_decoded it.2 = true) /\ left_docs tw.1 it.2 = from f (posts tw.1).

Lemma at_from_end f tw it : at_from f tw it -> s_exhausted it.2 = true -> it_id it = max_u64 /\ from f (posts tw.1) = [].
Proof.
  intros (_ & Hi & _ & Hl) He. split; [|rewrite <- Hl; unfold left_docs; by rewrite He]. destruct Hi as [docs Ha _ _|? ? He' _ _ _ _ _ _ _ _ _ _|_ Hm]; [pose proof (ad_live _ _ _ _ Ha); congruence|congruence|done].
Qed.

Lemma at_from_live f tw it : term_ok tw -> at_from f tw it -> s_exhausted it.2 = false ->
  exists tf rest, from f (posts tw.1) = (it_id it, tf) :: rest /\ Forall (fun x => it_id it < x.1) rest /\ f <= it_id it < max_u64 /\ it_id it <= s_currentBlockMaxId it.2 /\ s_idf it.2 = tw.2.
Proof.
  intros Ht (_ & Hi & Hd & Hl) He. destruct Hd as [|Hd]; [congruence|]. destruct (iter_head tw.1 tw.2 it.2 Hi He Hd) as (docs & tf & Ha & Hx & Hhead). rewrite Hl in Hhead. exists tf. eexists. split; [exact Hhead|].
  assert (Hin : (it_id it, tf) ∈ from f (posts tw.1)) by (rewrite Hhead; apply list_elem_of_here). apply from_elem in Hin as [Hf Hin]. split_and!; [|done|exact (proj2 (post_id tw.1 _ Ht Hin))| |apply Ha].
  - pose proof (iter_left_sorted tw.1 Ht tw.2 it.2 Hi) as Hs. rewrite Hl, Hhead in Hs. cbn [map fst] in Hs. inversion_clear Hs as [|? ? _ Hall]. apply Forall_forall. intros x Hx'. exact (proj1 (Forall_forall _ _) Hall _ (list_elem_of_fmap_2 fst _ _ Hx')).
  - destruct (ad_entry _ _ _ _ Ha) as (e & Ee & -> & _). apply (block_le_max tw.1 Ht _ e docs (it_id it, tf) Ee (ad_block _ _ _ _ Ha)). by eapply list_elem_of_lookup_2.
Qed.

(** No document that is left is before the iterator. *)
Lemma at_from_least f tw it x : term_ok tw -> at_from f tw it -> x ∈ from f (posts tw.1) -> it_id it <= x.1.
Proof.
  intros Hw Ha Hx. destruct (s_exhausted it.2) eqn:He; [rewrite (proj2 (at_from_end f tw it Ha He)) in Hx; by apply not_elem_of_nil in Hx|].
  destruct (at_from_live f tw it Hw Ha He) as (tf & rest & Hhead & Hall & _). rewrite Hhead in Hx. apply elem_of_cons in Hx as [->|Hx]; [done|]. pose proof (proj1 (Forall_forall _ _) Hall x Hx). cbn in *. lia.
Qed.

Lemma at_from_later f g tw it : term_ok tw -> at_from f tw it -> f <= g <= it_id it -> at_from g tw it.
Proof.
  intros Hw Ha Hg. pose proof Ha as (E & Hi & Hd & Hl). split_and!; [done|done|done|]. rewrite Hl, <- (from_from f g) by lia. rewrite <- (app_nil_l (from f (posts tw.1))) at 2. symmetry. apply from_split; [constructor|].
  apply Forall_forall. intros x Hx. pose proof (at_from_least f tw it x Hw Ha Hx). lia.
Qed.

(** ** The documents of a search and how many terms have them *)

Definition count_has (T : list (block_term * Qc)) (d : Z) : nat := length (filter (fun tw => d ∈ map fst (posts tw.1)) T).
Definition enough (minimumOrTokensMatch : Z) (T : list (block_term * Qc)) (d : Z) : Prop := (0 < count_has T d)%nat /\ minimumOrTokensMatch <= Z.of_nat (count_has T d).
Definition postings (f : Z) (T : list (block_term * Qc)) : Z := foldr (fun tw n => Z.of_nat (length (from f (posts tw.1))) + n) 0 T.

Lemma postings_perm f T T' : T ≡ₚ T' -> postings f T = postings f T'.
Proof. unfold postings. induction 1; cbn [foldr]; lia. Qed.

Lemma count_has_perm T T' d : T ≡ₚ T' -> count_has T d = count_has T' d.
Proof. intros Hp. unfold count_has. by rewrite Hp. Qed.

Lemma count_has_cons tw T d : count_has (tw :: T) d = ((if decide (d ∈ map fst (posts tw.1)) then 1 else 0) + count_has T d)%nat.
Proof. unfold count_has. rewrite filter_cons. by destruct (decide _). Qed.

Lemma count_has_elem T d : (0 < count_has T d)%nat -> exists tw, tw ∈ T /\ d ∈ map fst (posts tw.1).
Proof.
  unfold count_has. destruct (filter (fun tw => d ∈ map fst (posts tw.1)) T) as [|tw l] eqn:E; cbn [length]; [lia|]. intros _. exists tw. assert (Hin : tw ∈ filter (fun tw => d ∈ map fst (posts tw.1)) T) by (rewrite E; apply list_elem_of_here). by apply list_elem_of_filter in Hin as [? ?].
Qed.

Lemma impact_of_none t w d : d ∉ map fst (posts t) -> impact_of t w d = 0%Qc.
Proof.
  intros Hn. unfold impact_of. destruct (list_find (fun x => x.1 = d) (posts t)) as [[i x]|] eqn:E; [|done]. exfalso. apply list_find_Some in E as (Hi & <- & _). apply Hn. apply (list_elem_of_fmap_2 fst). by eapply list_elem_of_lookup_2.
Qed.

Lemma not_yet f p tw it : term_ok tw -> at_from f tw it -> f <= p < it_id it -> p ∉ map fst (posts tw.1).
Proof. intros Hw Ha Hp (x & -> & Hx)%list_elem_of_fmap. assert (Hin : x ∈ from f (posts tw.1)) by (apply from_elem; split; [lia|done]). pose proof (at_from_least f tw it x Hw Ha Hin). lia. Qed.

Lemma none_at f p T l : Forall term_ok T -> Forall2 (at_from f) T l -> f <= p -> Forall (fun it : block_iter => p < it_id it) l -> total_impact T p = 0%Qc /\ count_has T p = 0%nat.
Proof.
  intros Hok HF Hp. induction HF as [|tw it T l Ha HF IH]; intros Hl; [done|]. apply Forall_cons in Hok as [Hw Hok], Hl as [Hi Hl]. destruct (IH Hok Hl) as [E1 E2]. cbn beta in Hi. pose proof (not_yet f p tw it Hw Ha ltac:(lia)) as Hn.
  rewrite count_has_cons, (decide_False (P := p ∈ map fst (posts tw.1))) by done. split; [|lia]. unfold total_impact in *. cbn [map]. rewrite qsum_cons, E1, impact_of_none by done. ring.
Qed.

Lemma postings_less f p T : f <= p -> (0 < count_has T p)%nat -> postings (p + 1) T < postings f T.
Proof.
  intros Hp. enough (H : postings (p + 1) T <= postings f T /\ ((0 < count_has T p)%nat -> postings (p + 1) T < postings f T)) by apply H. induction T as [|tw T [IH1 IH2]]; [split; [done|cbn; lia]|].
  rewrite count_has_cons. cbn [postings foldr]. fold (postings (p + 1) T). fold (postings f T). assert (Hle : (length (from (p + 1) (posts tw.1)) <= length (from f (posts tw.1)))%nat) by (rewrite <- (from_from f (p + 1)) by lia; apply length_filter).
  split; [lia|]. destruct (decide _) as [(x & -> & Hx)%list_elem_of_fmap|_]; [|lia]. intros _. pose proof (from_shorter f (x.1 + 1) (posts tw.1) x Hx ltac:(lia)). lia.
Qed.

(** ** A turn that finds the next document *)

Lemma head_least it l : ids_sorted (it :: l) -> Forall (fun it' : block_iter => it_id it <= it_id it') (it :: l).
Proof. intros Hs. inversion_clear Hs as [|? ? _ Hall]. by constructor. Qed.

Lemma beyond p it l : ids_sorted (it :: l) -> p <= it_id it -> it_id it <> p -> Forall (fun it' : block_iter => p < it_id it') (it :: l).
Proof. intros Hs Hp Hne. eapply Forall_impl; [by apply head_least|]. cbn beta. lia. Qed.

Lemma at_from_id f tw it it' : term_ok tw -> at_from f tw it -> at_from f tw it' -> s_exhausted it.2 = false -> s_exhausted it'.2 = false -> it_id it = it_id it'.
Proof. intros Hw Ha Ha' He He'. destruct (at_from_live f tw it Hw Ha He) as (tf & rest & E & _), (at_from_live f tw it' Hw Ha' He') as (tf' & rest' & E' & _). congruence. Qed.

(** One term leaves the document, or is at its end. *)
Lemma advance_one f p t w t' s : term_ok (t, w) -> at_from f (t, w) (t', s) -> f <= p -> p < max_u64 -> p <= s_idPointer s -> s_exhausted s = true \/ s_idPointer s = p -> exists s', block_Advance t' s = Ok s' /\ at_from (p + 1) (t, w) (t', s').
Proof.
  intros Hw Ha Hf Hpm Hp Hst. pose proof Ha as (E & Hi & Hd & Hl). cbn [fst snd] in *. subst t'. destruct (block_Advance_ok t Hw w s Hi Hd) as (s' & Es & Hi' & Hd' & Hl'). exists s'. split; [done|].
  destruct (s_exhausted s) eqn:He.
  - unfold block_Advance in Es. rewrite He in Es. injection Es as <-. apply (at_from_later f); [done|done|]. pose proof (proj1 (at_from_end f _ _ Ha He)) as Hm. cbn [snd] in *. lia.
  - destruct Hst as [|Hst]; [done|]. destruct (at_from_live f _ _ Hw Ha He) as (tf & rest & Hhead & Hall & _). cbn [fst snd] in *. split_and!; [done|done|done|]. cbn [fst snd]. rewrite Hl', Hl, <- (from_from f (p + 1)) by lia. rewrite Hhead. cbn [tail]. symmetry.
    apply (from_split (p + 1) [(s_idPointer s, tf)] rest); [constructor; [cbn; lia|constructor]|]. eapply Forall_impl; [exact Hall|]. cbn beta. lia.
Qed.

Lemma score_matched_ok explain f p : forall T l score m docs, f <= p -> p < max_u64 -> Forall term_ok T -> Forall2 (at_from f) T l -> ids_sorted l -> Forall (fun it : block_iter => p <= it_id it) l ->
  (explain = true -> Forall (fun tw => (bt_index tw.1 < length docs)%nat) T) ->
  exists l' docs', score_matched explain l p score m docs = Ok (l', (score + total_impact T p)%Qc, m + Z.of_nat (count_has T p), docs') /\ Forall2 (at_from f) T l' /\ map (fun it : block_iter => it_id it) l' = map (fun it : block_iter => it_id it) l /\ length docs' = length docs.
Proof.
  induction T as [|[t w] T IH]; intros l score m docs Hf Hpm Hok HF Hs Hl Hidx; inversion HF as [|tw0 [t' s] T1 l' Hh Htl]; subst; cbn [score_matched].
  { exists [], docs. split_and!; [|constructor|done|done]. rewrite Z.add_0_r. do 4 f_equal. unfold total_impact. cbn. ring. }
  pose proof Hok as Hok0. apply Forall_cons in Hok as [Hw Hok]. destruct (Z.eqb_spec (s_idPointer s) p) as [Hid|Hne]; cbn [negb].
  - assert (He : s_exhausted s = false) by (destruct (s_exhausted s) eqn:He; [|done]; pose proof (proj1 (at_from_end f _ _ Hh He)) as Hm; cbn [snd] in Hm; lia).
    destruct (at_from_live f _ _ Hw Hh He) as (tf & rest & Hhead & _). pose proof Hh as (E & Hi & Hd & Hleft). cbn [fst snd] in *. subst t'. destruct Hd as [|Hd]; [congruence|].
    destruct (block_Score_ok t w s explain Hi He Hd) as (s1 & d & y & -> & Hi1 & He1 & Hd1 & Hl1 & Hy & Hy1 & _). cbn [obind]. rewrite Hleft, Hhead in Hy. injection Hy as <-.
    assert (Hpost : (s_idPointer s, tf) ∈ posts t) by (assert (Hin : (s_idPointer s, tf) ∈ from f (posts t)) by (rewrite Hhead; apply list_elem_of_here); by apply from_elem in Hin as [_ ?]).
    destruct (put_info explain t d docs) as (docs1 & -> & Hlen1). { intros Hx0. specialize (Hidx Hx0). by apply Forall_cons in Hidx as [Hidx _]. }
    cbn [obind]. inversion_clear Hs as [|? ? Hs' _]. apply Forall_cons in Hl as [_ Hl].
    destruct (IH l' (score + doc_impact t w (s_idPointer s, tf))%Qc (m + 1) docs1 Hf Hpm Hok Htl Hs' Hl) as (l2 & docs2 & -> & HF2 & Hids & Hlen2). { intros Hx. specialize (Hidx Hx). apply Forall_cons in Hidx as [_ Hidx]. by rewrite Hlen1. }
    cbn [obind]. eexists _, docs2. assert (Ha1 : at_from f (t, w) (t, s1)) by (split_and!; [done|done|by right|]; cbn [fst snd]; by rewrite Hl1).
    split_and!; [|by constructor|cbn [map snd]; rewrite Hids; f_equal; exact (at_from_id f _ _ _ Hw Ha1 Hh He1 He)|congruence].
    rewrite count_has_cons, decide_True by (cbn [fst]; rewrite <- Hid; by apply (list_elem_of_fmap_2 fst _ (s_idPointer s, tf))). do 3 f_equal; [|lia]. f_equal. unfold total_impact. cbn [map]. rewrite qsum_cons. cbn [fst snd].
    pose proof (impact_of_post t w (s_idPointer s, tf) Hw Hpost) as Himp. cbn [fst] in Himp. rewrite Hid in Himp at 1. rewrite Himp. ring.
  - destruct (none_at f p ((t, w) :: T) ((t', s) :: l') Hok0 HF Hf) as [-> ->]; [apply Forall_cons in Hl as [Hl _]; by apply beyond|]. eexists _, docs. rewrite Z.add_0_r, Qcplus_0_r. by split_and!.
Qed.

Lemma all_later f g T l : Forall term_ok T -> Forall2 (at_from f) T l -> f <= g -> Forall (fun it : block_iter => g <= it_id it) l -> Forall2 (at_from g) T l.
Proof. intros Hok HF Hg. induction HF as [|tw it T l Ha _ IH]; intros Hl; constructor; apply Forall_cons in Hok as [Hw Hok], Hl as [Hi Hl]; [by apply (at_from_later f)|by apply IH]. Qed.

Lemma advance_matched_ok f p : forall T l, f <= p -> p < max_u64 -> Forall term_ok T -> Forall2 (at_from f) T l -> ids_sorted l -> Forall (fun it : block_iter => p <= it_id it) l ->
  exists l' n, advance_matched l p = Ok (l', n) /\ Forall2 (at_from (p + 1)) T l' /\ (n <= length l')%nat /\ ids_sorted (drop n l').
Proof.
  induction T as [|[t w] T IH]; intros l Hf Hpm Hok HF Hs Hl; inversion HF as [|tw0 [t' s] T1 l' Hh Htl]; subst; cbn [advance_matched]; [exists [], 0%nat; by split_and!|].
  pose proof Hok as Hok0. apply Forall_cons in Hok as [Hw Hok]. pose proof Hl as Hl0. apply Forall_cons in Hl as [Hp Hl]. cbn [snd] in Hp. destruct (negb (s_exhausted s) && negb (s_idPointer s =? p)) eqn:Eb.
  - apply andb_true_iff in Eb as [_ Hne%negb_true_iff%Z.eqb_neq]. exists ((t', s) :: l'), 0%nat. split_and!; [done| |lia|done]. apply (all_later f); [done|done|lia|]. eapply Forall_impl; [exact (beyond p _ _ Hs Hp Hne)|]. cbn beta. lia.
  - destruct (advance_one f p t w t' s) as (s1 & -> & Ha1); [done|done|done|done|lia|by apply andb_false_iff in Eb as [?%negb_false_iff|?%negb_false_iff%Z.eqb_eq]; [left|right]|]. cbn [obind].
    inversion_clear Hs as [|? ? Hs' _]. destruct (IH l' Hf Hpm Hok Htl Hs' Hl) as (l2 & n & -> & HF2 & Hn & Hs2). cbn [obind]. exists ((t', s1) :: l2), (S n). split_and!; [done|by constructor|cbn [length]; lia|done].
Qed.

Lemma scan_exhausted worst l : Forall (fun it : block_iter => s_exhausted it.2 = true) l -> forall i cum, pivot_scan worst l i cum None = (None, None).
Proof. induction 1 as [|it l He _ IH]; intros i cum; cbn [pivot_scan]; [done|]. by rewrite He, IH. Qed.

Lemma extend_pivot_ok p l : forall i, exists k, extend_pivot l i p = (i + k)%nat /\ Forall (fun it : block_iter => it_id it = p) (take k l).
Proof.
  induction l as [|it l IH]; intros i; cbn [extend_pivot]; [exists 0%nat; split; [lia|constructor]|]. destruct (Z.eqb_spec (it_id it) p) as [E|_]; [|exists 0%nat; split; [lia|constructor]].
  destruct (IH (S i)) as (k & -> & Hk). exists (S k). split; [lia|by constructor].
Qed.

(** Nothing moves when the blocks reach the pivot. *)
Lemma shallow_candidates_still p b l : Forall (fun it : block_iter => p <= s_currentBlockMaxId it.2) l -> forall u, exists u', shallow_candidates l p u b = Ok (l, u', b).
Proof.
  induction 1 as [|[t s] l Hm _ IH]; intros u; cbn [shallow_candidates]; [by eexists|]. cbn [snd] in Hm. rewrite (proj2 (Z.ltb_ge _ _) Hm). cbn [obind]. destruct (IH (bt_float32 t (u + s_currentBlockImpact s)%Qc)) as (u' & ->). by eexists.
Qed.

Lemma Forall2_elem_r {A B} (R : A -> B -> Prop) k l y : Forall2 R k l -> y ∈ l -> exists x, R x y /\ x ∈ k.
Proof. intros HF (i & Hi)%list_elem_of_lookup. destruct (Forall2_lookup_r _ _ _ _ _ HF Hi) as (x & Hx & Hr). exists x. split; [done|by eapply list_elem_of_lookup_2]. Qed.

(** Lists of terms with the same ids *)
Lemma ids_elem (l l' : list block_iter) x : map (fun it : block_iter => it_id it) l' = map (fun it : block_iter => it_id it) l -> x ∈ l' -> exists y, y ∈ l /\ it_id y = it_id x.
Proof. intros E Hx. pose proof (list_elem_of_fmap_2 (fun it : block_iter => it_id it) _ _ Hx) as Hin. change (it_id x ∈ map (fun it : block_iter => it_id it) l') in Hin. rewrite E in Hin. apply list_elem_of_fmap in Hin as (y & Ey & Hy). by exists y. Qed.

Lemma least_of_ids p (l l' : list block_iter) : map (fun it : block_iter => it_id it) l' = map (fun it : block_iter => it_id it) l -> Forall (fun it : block_iter => p <= it_id it) l -> Forall (fun it : block_iter => p <= it_id it) l'.
Proof. intros E Hl. apply Forall_forall. intros x (y & Hy & <-)%(ids_elem l l' x E). exact (proj1 (Forall_forall _ _) Hl y Hy). Qed.

Lemma sorted_of_ids (l l' : list block_iter) : map (fun it : block_iter => it_id it) l' = map (fun it : block_iter => it_id it) l -> ids_sorted l -> ids_sorted l'.
Proof. intros E Hs. revert l' E. induction Hs as [|it l _ IH Hx]; intros [|it' l'] E; try done; [constructor|]. injection E as Ei E. constructor; [by apply IH|]. rewrite Ei. by apply (least_of_ids _ l). Qed.

Lemma postings_nonneg f T : 0 <= postings f T.
Proof. unfold postings. induction T as [|tw T IH]; cbn [foldr]; lia. Qed.

Section all_documents.
Context (cancelled : Z -> bool) (limit : Z) (explain : bool) (termCount : nat) (minimumOrTokensMatch : Z) (T : list (block_term * Qc)).
Context (limit_pos : 1 <= limit) (not_cancelled : forall i, cancelled i = false) (terms_ok : Forall term_ok T) (weights_pos : Forall (fun tw => (0 ≤ tw.2 * bt_boost tw.1)%Qc) T) (indices : explain = true -> Forall (fun tw => (bt_index tw.1 < termCount)%nat) T).
Notation found := (top_k limit (enough minimumOrTokensMatch T) (total_impact T)).

(** The documents below [f] are in the queue, and there is room for all others. *)
Record wand_state (f : Z) (results : list block_iter) (q : heap_of) (worst : Qc) : Prop := {
  ws_terms : exists T', T ≡ₚ T' /\ Forall2 (at_from f) T' results;
  ws_sorted : ids_sorted results;
  ws_top : found f q worst;
  ws_room : Len q + postings f T <= limit;
  ws_range : 0 <= f <= max_u64
}.

Lemma enough_range d : enough minimumOrTokensMatch T d -> 0 <= d < max_u64.
Proof. intros [(tw & Hin & (x & -> & Hx)%list_elem_of_fmap)%count_has_elem _]. apply (post_id tw.1); [|done]. apply (proj1 (Forall_forall _ _) terms_ok tw Hin). Qed.

(** Before the first iterator no term has a document. *)
Lemma nothing_before f T' results p d : T ≡ₚ T' -> Forall2 (at_from f) T' results -> Forall (fun it : block_iter => p <= it_id it) results -> f <= d < p -> ~ enough minimumOrTokensMatch T d.
Proof.
  intros Hp HF Hl Hd [Hc _]. rewrite (count_has_perm _ _ _ Hp) in Hc. destruct (none_at f d T' results) as [_ E]; [by rewrite <- Hp|done|lia| |lia]. eapply Forall_impl; [exact Hl|]. cbn beta. lia.
Qed.

(** A document that is first for some terms *)
Lemma matched_ok f results q worst docs it rest : wand_state f results q worst -> results = it :: rest -> s_exhausted it.2 = false -> Len q < limit -> let p := it_id it in
  exists results' q' worst' docs', matched_branch limit explain termCount minimumOrTokensMatch results p false q worst docs = Ok (results', q', worst', docs') /\ wand_state (p + 1) results' q' worst' /\ postings (p + 1) T < postings f T.
Proof.
  intros [(T' & Hp & HF) Hs Hk Hroom Hr] -> He Hq p. pose proof (head_least _ _ Hs) as Hl. fold p in Hl. assert (Hok : Forall term_ok T') by by rewrite <- Hp. pose proof HF as HF0. inversion HF0 as [|tw ? T1 ? Hh _]; subst.
  destruct (at_from_live f tw it) as (tf & rest0 & Hhead & _ & Hpr & _); [by apply Forall_cons in Hok as [? _]|done|done|]. fold p in Hpr, Hhead. unfold matched_branch. set (infos := if explain then replicate termCount None else docs).
  destruct (score_matched_ok explain f p (tw :: T1) (it :: rest) 0 0 infos) as (l1 & docs1 & -> & HF1 & Hids & _); [lia|lia|done|done|done|done|intros Hx; unfold infos; rewrite Hx, length_replicate, <- Hp; by apply indices|].
  assert (Hcount : (0 < count_has T p)%nat). { rewrite (count_has_perm _ _ _ Hp), count_has_cons, decide_True; [lia|]. assert (Hin : (p, tf) ∈ from f (posts tw.1)) by (rewrite Hhead; apply list_elem_of_here). apply from_elem in Hin as [_ Hin]. by apply (list_elem_of_fmap_2 fst _ (p, tf)). }
  cbn [obind]. rewrite Qcplus_0_l, Z.add_0_l, <- (total_impact_perm _ _ p Hp), <- (count_has_perm _ _ p Hp). unfold ShouldEnqueue. rewrite (proj2 (Z.ltb_lt _ _) Hq). cbn [of_queue omap_err obind andb]. pose proof (postings_less f p T ltac:(lia) Hcount) as Hless.
  assert (Hskip : found p q worst) by (apply (top_k_skip _ _ _ f); [done|lia|]; intros d Hc Hd; exfalso; by apply (nothing_before f (tw :: T1) (it :: rest) p d)).
  assert (exists q' worst', (if minimumOrTokensMatch <=? Z.of_nat (count_has T p) then of_queue (InsertAndPop q p (total_impact T p) limit worst docs1) else Ok (q, worst)) = Ok (q', worst') /\ found (p + 1) q' worst' /\ Len q' <= Len q + 1) as (q' & worst' & -> & Hk' & Hlen).
  { destruct (Z.leb_spec minimumOrTokensMatch (Z.of_nat (count_has T p))) as [Hm|Hm].
    - destruct (top_k_insert limit _ _ p q worst docs1 limit_pos Hskip (conj Hcount Hm) (or_introl Hq)) as (q' & worst' & E & Hk'). exists q', worst'. split_and!; [unfold of_queue; by rewrite E|done|].
      destruct (InsertAndPop_correct q p (total_impact T p) limit worst docs1 (tk_ok _ _ _ _ _ _ Hk) limit_pos) as (q2 & worst2 & dropped & E2 & _ & _ & Hperm & _). rewrite E in E2. injection E2 as <- <-. apply Permutation_length in Hperm. rewrite length_app in Hperm. cbn [length] in Hperm. unfold Len. lia.
    - exists q, worst. split_and!; [done| |lia]. apply (top_k_skip _ _ _ p); [done|lia|]. intros d [_ Hc] Hd. assert (d = p) as -> by lia. lia. }
  cbn [obind]. assert (Hs1 : ids_sorted l1) by (apply (sorted_of_ids _ _ Hids Hs)). assert (Hl1 : Forall (fun it' : block_iter => p <= it_id it') l1) by (apply (least_of_ids p _ _ Hids Hl)).
  destruct (advance_matched_ok f p (tw :: T1) l1) as (l2 & n & -> & HF2 & Hn & Hs2); [lia|lia|done..|]. cbn [obind]. destruct (reinsert_prefix_ok n l2 Hn Hs2) as (l3 & -> & Hp3 & Hs3). cbn [obind].
  exists l3, q', worst', docs1. split_and!; [done| |done]. destruct (Forall2_perm_r _ _ _ _ HF2 (symmetry Hp3)) as (T3 & HpT & HF3). split; [exists T3; split; [by rewrite Hp|done]|done|done|lia|lia].
Qed.

(** Either all terms are at their ends, and the search is over, or there is a next document. *)
Lemma wand_turn f results q worst : wand_state f results q worst ->
  (Forall (fun it : block_iter => s_exhausted it.2 = true) results /\ found max_u64 q worst) \/ (exists it rest, results = it :: rest /\ s_exhausted it.2 = false /\ Len q < limit).
Proof.
  intros [(T' & Hp & HF) Hs Hk Hroom Hr]. assert (Hok : Forall term_ok T') by by rewrite <- Hp. destruct results as [|it rest].
  { left. split; [constructor|]. apply (top_k_skip _ _ _ f); [done|lia|]. intros d Hc Hd. exfalso. by apply (nothing_before f T' [] max_u64 d). }
  pose proof HF as HF0. inversion HF0 as [|tw ? T1 ? Hh _]; subst. destruct (s_exhausted it.2) eqn:He.
  - left. pose proof (head_least _ _ Hs) as Hl. rewrite (proj1 (at_from_end f _ _ Hh He)) in Hl. split.
    + clear -HF Hok Hl. induction HF as [|tw' it' T2 l Ha _ IH]; constructor; apply Forall_cons in Hok as [Hw Hok], Hl as [Hm Hl]; [|by apply IH]. destruct (s_exhausted it'.2) eqn:He; [done|]. destruct (at_from_live f _ _ Hw Ha He) as (_ & _ & _ & _ & Hlt & _). cbn beta in Hm. lia.
    + apply (top_k_skip _ _ _ f); [done|lia|]. intros d Hc Hd. exfalso. by apply (nothing_before f (tw :: T1) (it :: rest) max_u64 d).
  - right. exists it, rest. split_and!; [done|done|]. destruct (at_from_live f tw it) as (tf & rest0 & Hhead & _); [by apply Forall_cons in Hok as [? _]|done|done|]. rewrite (postings_perm _ _ _ Hp) in Hroom. cbn [postings foldr] in Hroom. fold (postings f T1) in Hroom. rewrite Hhead in Hroom. cbn [length] in Hroom. pose proof (postings_nonneg f T1). lia.
Qed.

(** With room in the queue, the first term is the pivot and no block has to be skipped. *)
Lemma turn_start f it rest q worst : wand_state f (it :: rest) q worst -> s_exhausted it.2 = false -> Len q < limit ->
  exists k u, pivot_scan worst (it :: rest) 0 0 None = (Some 0%nat, Some (0%nat, it_id it)) /\ extend_pivot rest 0 (it_id it) = k /\ shallow_candidates (take (S k) (it :: rest)) (it_id it) 0 false = Ok (take (S k) (it :: rest), u, false) /\ it_id it < max_u64.
Proof.
  intros [(T' & Hp & HF) Hs Hk Hroom Hr] He Hq. assert (Hok : Forall term_ok T') by by rewrite <- Hp. pose proof (tk_worst _ _ _ _ _ _ Hk) as Hw. rewrite (proj2 (Z.leb_gt _ _)) in Hw by lia.
  assert (Hlive : forall it', it' ∈ it :: rest -> s_exhausted it'.2 = false -> it_id it' <= s_currentBlockMaxId it'.2 /\ it_id it' < max_u64 /\ (0 ≤ term_weight it')%Qc).
  { intros it' Hin He'. destruct (Forall2_elem_r _ _ _ _ HF Hin) as (tw & Ha & Hin'). pose proof (proj1 (Forall_forall _ _) Hok tw Hin') as Hwo. rewrite <- Hp in Hin'. destruct (at_from_live f tw it' Hwo Ha He') as (_ & _ & _ & _ & ? & ? & Hidf). split_and!; [done|lia|]. unfold term_weight. rewrite Hidf, (proj1 Ha). exact (proj1 (Forall_forall _ _) weights_pos tw Hin'). }
  destruct (Hlive it ltac:(apply list_elem_of_here) He) as (Hm & Hmax & Hpos). destruct (extend_pivot_ok (it_id it) rest 0) as (k & Hext & Heq). cbn [Nat.add] in Hext. exists k.
  destruct (shallow_candidates_still (it_id it) false (take (S k) (it :: rest))) with (u := 0%Qc) as (u & Hu).
  { cbn [take]. constructor; [done|]. apply Forall_forall. intros it' Hin. pose proof (proj1 (Forall_forall _ _) Heq it' Hin) as E. cbn beta in E. rewrite <- E. apply list_elem_of_lookup in Hin as [i Hi]. apply lookup_take_Some in Hi as [Hi _]. apply list_elem_of_lookup_2 in Hi.
    apply Hlive; [by apply list_elem_of_further|]. destruct (s_exhausted it'.2) eqn:He'; [|done]. destruct (Forall2_elem_r _ _ _ _ HF (list_elem_of_further _ _ _ Hi)) as (tw & Ha & _). pose proof (proj1 (at_from_end f _ _ Ha He')). lia. }
  exists u. split_and!; [|done|done|done]. cbn [pivot_scan]. rewrite He, Qcplus_0_l, bool_decide_true; [done|]. rewrite Hw. apply (Qcle_trans _ 0%Qc); [by apply (bool_decide_unpack _)|done].
Qed.

Lemma block_wand_loop_ok fuel : forall iterations f results q worst docs, wand_state f results q worst -> postings f T < Z.of_nat fuel ->
  exists q' worst', block_wand_loop cancelled limit explain termCount minimumOrTokensMatch fuel iterations results false q worst docs = Ok (q', false) /\ found max_u64 q' worst'.
Proof.
  induction fuel as [|fuel IH]; intros iterations f results q worst docs Hs Hf; [pose proof (postings_nonneg f T); lia|]. cbn [block_wand_loop]. rewrite not_cancelled, andb_false_r. destruct (wand_turn f results q worst Hs) as [[Hend Hk]|(it & rest & -> & He & Hq)].
  - rewrite (scan_exhausted worst results Hend). by exists q, worst.
  - destruct (turn_start f it rest q worst Hs He Hq) as (k & u & Hscan & Hext & Hsh & Hpm). rewrite Hscan. rewrite (proj2 (Z.eqb_neq _ _)) by lia. cbv zeta. change (drop 1 (it :: rest)) with rest. rewrite Hext, Hsh. cbn [obind]. rewrite take_drop.
    unfold ShouldEnqueue at 1. rewrite (proj2 (Z.ltb_lt _ _) Hq). cbn [of_queue omap_err obind lookup list_lookup]. rewrite Z.eqb_refl.
    destruct (matched_ok f (it :: rest) q worst docs it rest Hs eq_refl He Hq) as (results' & q' & worst' & docs' & -> & Hs' & Hless). cbn [obind]. apply (IH _ _ _ _ _ _ Hs'). lia.
Qed.
End all_documents.

(** ** The whole search *)

Lemma fresh_at_from tw it : term_ok tw -> fresh tw it -> at_from 0 tw it.
Proof.
  intros Hw Hf. pose proof (fresh_tracks tw it Hw Hf) as [(E & Hi & _) Hl]. destruct Hf as [_ Er]. destruct (block_reset_ok tw.1 Hw tw.2) as (s & Es & _ & Hd & _). rewrite Er in Es. injection Es as <-.
  split_and!; [done|done|done|]. rewrite Hl. symmetry. rewrite <- (app_nil_l (posts tw.1)) at 1. apply from_split; [constructor|]. apply Forall_forall. intros x Hx. apply (post_id tw.1 x Hw Hx).
Qed.

(** All documents of the terms, one for each term that has it *)
Definition all_posts (T : list (block_term * Qc)) : list Z := concat (map (fun tw => map fst (posts tw.1)) T).

Lemma postings_all f T : postings f T <= Z.of_nat (length (all_posts T)).
Proof.
  unfold postings, all_posts. induction T as [|tw T IH]; cbn [foldr map concat]; [done|]. rewrite length_app, length_map. assert (length (from f (posts tw.1)) <= length (posts tw.1))%nat by apply length_filter. lia.
Qed.

Lemma enough_posts m T d : enough m T d -> d ∈ all_posts T.
Proof. intros [(tw & Hin & Hd)%count_has_elem _]. unfold all_posts. apply list_elem_of_In, in_concat. eexists. split; [apply in_map_iff; exists tw; split; [done|by apply list_elem_of_In]|by apply list_elem_of_In]. Qed.

(** With room for every document none is left out. *)
Lemma room_for_all limit m T out d : Z.of_nat (length (all_posts T)) <= limit -> best_results limit (enough m T) (total_impact T) out -> enough m T d <-> d ∈ map ID out.
Proof.
  intros Hroom Hb. split; [|by apply (proj1 (Forall_forall _ _) (br_wanted _ _ _ _ Hb) d)]. intros Hd. destruct (decide (d ∈ map ID out)) as [|Hn]; [done|exfalso]. destruct (br_left_out _ _ _ _ Hb d Hd Hn) as [Hfull _].
  assert (Hle : (length (d :: map ID out) <= length (all_posts T))%nat); [|cbn [length] in Hle; lia]. apply submseteq_length, NoDup_submseteq.
  - constructor; [done|]. exact (worse_NoDup _ _ (br_sorted _ _ _ _ Hb)).
  - intros x Hx. apply (enough_posts m). apply elem_of_cons in Hx as [->|Hx]; [done|]. exact (proj1 (Forall_forall _ _) (br_wanted _ _ _ _ Hb) x Hx).
Qed.

(** A term whose weight is not negative *)
Definition weight_ok (tw : block_term * Qc) : Prop := term_ok tw /\ (0 ≤ tw.2 * bt_boost tw.1)%Qc.

(** C11: a block-max search that is asked for as many documents as the terms have at most, as a search without a limit is, returns without a panic
    after no more turns than there are documents; what is popped from its queue are exactly the documents that at least [minimumOrTokensMatch] terms have,
    each with the sum of the impacts of all these terms, ordered by score and then by id. *)
Theorem block_max_wand_all fuel cancelled limit explain termCount minimumOrTokensMatch T results :
  Forall weight_ok T -> Forall2 fresh T results -> 1 <= limit -> Z.of_nat (length (all_posts T)) <= limit -> (length (all_posts T) < fuel)%nat ->
  (forall i, cancelled i = false) -> (explain = true -> Forall (fun tw => (bt_index tw.1 < termCount)%nat) T) ->
  exists topKHeap out, DoBlockMaxWand cancelled limit explain termCount minimumOrTokensMatch fuel results = Ok (topKHeap, false) /\ popped topKHeap = Ok out /\
    best_results limit (enough minimumOrTokensMatch T) (total_impact T) out /\ forall d, enough minimumOrTokensMatch T d <-> d ∈ map ID out.
Proof.
  intros Hok0 HF Hl Hroom Hfuel Hc Hidx. assert (Hok : Forall term_ok T) by (eapply Forall_impl; [exact Hok0|]; by intros tw [? _]). assert (Hw0 : Forall (fun tw => (0 ≤ tw.2 * bt_boost tw.1)%Qc) T) by (eapply Forall_impl; [exact Hok0|]; by intros tw [_ ?]).
  destruct (sortByID_ok results) as [Hp Hs]. assert (HF0 : Forall2 (at_from 0) T results).
  { clear -HF Hok. induction HF as [|tw it T' l Hf _ IH]; constructor; apply Forall_cons in Hok as [Hw Hok]; [by apply fresh_at_from|by apply IH]. }
  destruct (Forall2_perm_r _ _ _ _ HF0 (symmetry Hp)) as (T' & HpT & HF'). pose proof (postings_all 0 T) as Hall.
  destruct (block_wand_loop_ok cancelled limit explain termCount minimumOrTokensMatch T Hl Hc Hok Hw0 Hidx fuel 1 0 (sortByID results) NewMinWithId start_worst []) as (q & worst & E & Hk); [|lia|].
  - split; [by exists T'|done| |unfold Len; cbn [items NewMinWithId length Z.of_nat]; lia|unfold max_u64; lia]. apply empty_top_k; [done|]. intros d Hd. apply (enough_range minimumOrTokensMatch T Hok d Hd).
  - destruct (top_k_popped limit _ _ max_u64 q worst Hk) as (out & Eo & Hbest); [intros d Hd; apply (enough_range minimumOrTokensMatch T Hok d Hd)|].
    exists q, out. split_and!; [exact E|done|done|]. intros d. by apply (room_for_all limit).
Qed.

Lemma block_max_wand_all_witness : exists topKHeap out,
  DoBlockMaxWand (fun _ => false) 10 true 2 1 7 [started word_a (Qc_of_Z 1); started word_b (Qc_of_Z 1)] = Ok (topKHeap, false) /\ popped topKHeap = Ok out /\
  best_results 10 (enough 1 [(word_a, Qc_of_Z 1); (word_b, Qc_of_Z 1)]) (total_impact [(word_a, Qc_of_Z 1); (word_b, Qc_of_Z 1)]) out /\
  forall d, enough 1 [(word_a, Qc_of_Z 1); (word_b, Qc_of_Z 1)] d <-> d ∈ map ID out.
Proof.
  apply (block_max_wand_all 7); [pose proof words_ok as Hok; repeat (apply Forall_cons in Hok as [? Hok]); repeat apply Forall_cons_2; [split; [done|by apply (bool_decide_unpack _)]..|apply Forall_nil_2]|repeat constructor|done|by apply (bool_decide_unpack _)|by apply (bool_decide_unpack _)|done|intros _; repeat constructor].
Defined.

(** ** A document that is missed *)

(** The document that B and C share is the best one; A ends on the way to it. *)
Definition lost_a : block_term := BlockTerm [MkEntry 10 0 1 2] [[(1, 1); (10, 1)]] 2 None (fun _ => 2) 1 1 0 (Qc_of_Z 2) (fun x => x) 0.
Definition lost_b : block_term := BlockTerm [MkEntry 20 0 9 2] [[(1, 1); (15, 1); (20, 9)]] 3 None (fun _ => 2) 1 1 0 (Qc_of_Z 2) (fun x => x) 1.
Definition lost_c : block_term := BlockTerm [MkEntry 20 0 9 2] [[(1, 1); (20, 9)]] 2 None (fun _ => 2) 1 1 0 (Qc_of_Z 2) (fun x => x) 2.
Definition lost_terms : list (block_term * Qc) := [(lost_a, Qc_of_Z 1); (lost_b, Qc_of_Z 1); (lost_c, Qc_of_Z 4)].

Lemma lost_terms_ok : Forall term_ok lost_terms.
Proof.
  repeat apply Forall_cons_2; try apply Forall_nil_2.
  - by apply (one_block_ok lost_a (MkEntry 10 0 1 2) [(1, 1); (10, 1)]); repeat constructor.
  - by apply (one_block_ok lost_b (MkEntry 20 0 9 2) [(1, 1); (15, 1); (20, 9)]); repeat constructor.
  - by apply (one_block_ok lost_c (MkEntry 20 0 9 2) [(1, 1); (20, 9)]); repeat constructor.
Qed.

(** With a limit that is reached, the search can lose the best document.  Three well-formed terms and the limit 1: A ends in a shallow
    advance and stays in front of B and C, which then are at document 20; the loop that adds up the scores stops at A, so that the document is not scored,
    while the loop that advances the terms passes A.  The search completes with document 1 of score 3 although document 20 has the score 9/2. *)
Example block_max_wand_misses : Forall term_ok lost_terms /\ Forall2 fresh lost_terms (map (fun tw => started tw.1 tw.2) lost_terms) /\
  (exists topKHeap out, DoBlockMaxWand (fun _ => false) 1 false 3 1 10 (map (fun tw => started tw.1 tw.2) lost_terms) = Ok (topKHeap, false) /\ popped topKHeap = Ok out /\ map ID out = [1]) /\
  enough 1 lost_terms 20 /\ (total_impact lost_terms 1 < total_impact lost_terms 20)%Qc.
Proof.
  split; [exact lost_terms_ok|]. split; [repeat constructor|]. split; [|split; [split; apply (bool_decide_unpack _); vm_compute; exact I|apply (bool_decide_unpack _); vm_compute; exact I]].
  eexists _, _. split; [vm_compute; reflexivity|]. split; [vm_compute; reflexivity|reflexivity].
Qed.

(** An iterator that is at a document or at its end *)
Definition settled (tw : block_term * Qc) (it : block_iter) : Prop := it.1 = tw.1 /\ iter_ok tw.1 tw.2 it.2 /\ (s_exhausted it.2 = true \/ s_decoded it.2 = true).

(** The document is not among those that are left to the iterator. *)
Definition has_left (p : Z) (results : list block_iter) (it : block_iter) : Prop := exists s, (it.1, s) ∈ results /\ p ∉ map fst (left_docs it.1 s).

Lemma advance_leaves p tw it : term_ok tw -> settled tw it -> s_exhausted it.2 = true \/ s_idPointer it.2 = p -> exists s, block_Advance it.1 it.2 = Ok s /\ p ∉ map fst (left_docs it.1 s).
Proof.
  intros Hw (E & Hi & Hd) Hp. destruct it as [t s]. cbn [fst snd] in *. subst t. destruct (block_Advance_ok tw.1 Hw tw.2 s Hi Hd) as (s' & -> & _ & _ & Hl). exists s'. split; [done|]. rewrite Hl.
  destruct (s_exhausted s) eqn:He; [unfold left_docs; rewrite He; apply not_elem_of_nil|]. destruct Hp as [|<-]; [done|]. destruct Hd as [|Hd]; [done|]. destruct (iter_head tw.1 tw.2 s Hi He Hd) as (docs & tf & _ & _ & Hhead).
  pose proof (iter_left_sorted tw.1 Hw tw.2 s Hi) as Hs. rewrite Hhead in Hs |- *. cbn [map fst tail] in *. inversion_clear Hs as [|? ? _ Hall]. intros Hin. pose proof (proj1 (Forall_forall _ _) Hall _ Hin). cbn in *. lia.
Qed.

Lemma advance_matched_leaves p rest : forall T front, Forall term_ok T -> Forall2 settled T (front ++ rest) -> Forall (fun it : block_iter => s_exhausted it.2 = true \/ it_id it = p) front ->
  exists l n, advance_matched (front ++ rest) p = Ok (l, n) /\ (n <= length l)%nat /\ Forall (has_left p l) front.
Proof.
  assert (H : forall l T, Forall term_ok T -> Forall2 settled T l -> exists l' n, advance_matched l p = Ok (l', n) /\ (n <= length l')%nat /\
      forall front back, l = front ++ back -> Forall (fun it : block_iter => s_exhausted it.2 = true \/ it_id it = p) front -> Forall (has_left p l') front).
  { induction l as [|[t s] l IH]; intros T Hok HF; inversion HF as [|tw ? T' ? Hh Htl]; subst; cbn [advance_matched].
    { exists [], 0%nat. split_and!; [done|done|]. intros [|] back [=] _. constructor. }
    apply Forall_cons in Hok as [Hw Hok]. destruct (negb (s_exhausted s) && negb (s_idPointer s =? p)) eqn:Eb.
    - exists ((t, s) :: l), 0%nat. split_and!; [done|lia|]. intros [|it front] back Heq Hall; [constructor|]. injection Heq as <- _. apply andb_true_iff in Eb as [He%negb_true_iff Hne%negb_true_iff%Z.eqb_neq].
      apply Forall_cons in Hall as [[Hx|Hx] _]; cbn [snd] in Hx; [congruence|done].
    - destruct (advance_leaves p tw (t, s) Hw Hh) as (s1 & E1 & Hleft). { cbn [snd]. by apply andb_false_iff in Eb as [?%negb_false_iff|?%negb_false_iff%Z.eqb_eq]; [left|right]. }
      cbn [fst snd] in E1. rewrite E1. cbn [obind]. destruct (IH T' Hok Htl) as (l2 & n & -> & Hn & Hfront). cbn [obind]. exists ((t, s1) :: l2), (S n). split_and!; [done|cbn [length]; lia|].
      intros [|it front] back Heq Hall; [constructor|]. injection Heq as <- Heq. apply Forall_cons in Hall as [_ Hall]. constructor; [exists s1; split; [apply list_elem_of_here|done]|].
      eapply Forall_impl; [exact (Hfront front back Heq Hall)|]. intros it (s2 & Hin & Hs2). exists s2. split; [by apply list_elem_of_further|done]. }
  intros T front Hok HF Hall. destruct (H (front ++ rest) T Hok HF) as (l & n & E & Hn & Hfront). exists l, n. split_and!; [done|done|]. by apply (Hfront front rest).
Qed.

Lemma reinsert_prefix_perm n : forall l, (n <= length l)%nat -> exists l', reinsert_prefix n l = Ok l' /\ l' ≡ₚ l.
Proof.
  induction n as [|n IH]; intros l Hn; cbn [reinsert_prefix]; [by exists l|]. destruct (lookup_lt_is_Some_2 l n ltac:(lia)) as [cur Hcur]. unfold reinsertRight. rewrite (drop_S _ _ _ Hcur). cbn [obind].
  destruct (IH (take n l ++ move_right cur (drop (S n) l))) as (l' & -> & Hp); [rewrite length_app, length_take; lia|]. exists l'. split; [done|]. rewrite Hp, move_right_perm, <- (drop_S _ _ _ Hcur). by rewrite take_drop.
Qed.

Lemma ShouldEnqueue_some (q : heap_of) s limit : queue_ok q -> 1 <= limit -> exists should, of_queue (ShouldEnqueue q s limit) = Ok should.
Proof.
  intros Hq Hl. unfold ShouldEnqueue. destruct (Z.ltb_spec (Len q) limit) as [|Hge]; [by eexists|]. destruct (Top_correct q Hq) as (top & -> & _); [intros E; unfold Len in Hge; rewrite E in Hge; cbn in Hge; lia|]. by eexists.
Qed.


(** The turn of the example in which document 20 is dropped: A has ended, B and C are at the document, and document 1 is in the queue. *)
Definition moved (t : block_term) (w : Qc) (d : Z) : block_iter := (t, match block_AdvanceAtLeast t (started t w).2 d with Ok s => s | _ => (started t w).2 end).
Definition full_heap : heap_of := match InsertAndPop NewMinWithId 1 (total_impact lost_terms 1) 1 start_worst [] with Ok (q, _) => q | _ => NewMinWithId end.

Lemma moved_settled t w d : term_blocks_ok t -> settled (t, w) (moved t w d).
Proof.
  intros Ht. destruct (block_reset_ok t Ht w) as (s0 & E0 & Hi0 & _). destruct (block_AdvanceAtLeast_ok t Ht w s0 d Hi0) as (s1 & E1 & Hi1 & Hd1 & _).
  unfold settled, moved, started. cbn [fst snd]. rewrite E0. cbn [snd]. rewrite E1. by split_and!.
Qed.

