(* ===== verification/CreateTerm.v ===== *)
(** * Building the term of a word

    [createTerm] of [adapters/repos/db/inverted/bm25_searcher.go]: the documents of a word in every searched property, read concurrently from
    buckets and handed over here as lists, are filtered and added up to the one list that Wand.v searches.  [math.Log] is an argument. *)

From Stdlib Require Import QArith Qcanon.
From stdpp Require Import strings numbers sorting.
From S2P Require Import Prelude PriorityQueue Bm25Terms PostingMerge Wand.

#[local] Open Scope Z_scope.

(** ** Adding up the properties *)

(** The loop over the properties: the least id that is not consumed, of the first property that has it *)
Fixpoint pick_min (ms : list (list DocPointerWithScore)) (indices : list nat) (ti : nat) (best : option (nat * Z)) : option (nat * Z) :=
  match ms with
  | [] => best
  | m :: ms =>
      pick_min ms indices (S ti)
        (match m !! offset_of indices ti with
         | None => best
         | Some d => match best with Some (_, minId) => if Id d <? minId then Some (ti, Id d) else best | None => Some (ti, Id d) end
         end)
  end.

Definition add_doc (a b : DocPointerWithScore) : DocPointerWithScore := MkDoc (Id a) (Frequency a + Frequency b)%Qc (PropLength a + PropLength b)%Qc.

(** One document put into the pairs; the index of a first pair is its position [k] in its list. *)
Definition put_pair (val : DocPointerWithScore) (k : nat) (docMapPairs : list DocPointerWithScore) (docMapPairsIndices : gmap Z nat) : list DocPointerWithScore * gmap Z nat :=
  match docMapPairs with
  | [] => ([val], {[Id val := k]})
  | _ =>
      match docMapPairsIndices !! Id val with
      | Some ind =>
          match docMapPairs !! ind with
          | None => (docMapPairs, docMapPairsIndices)
          | Some p => if Id p =? Id val then (<[ind := add_doc p val]> docMapPairs, docMapPairsIndices) else (docMapPairs, docMapPairsIndices)
          end
      | None => (docMapPairs ++ [val], <[Id val := length docMapPairs]> docMapPairsIndices)
      end
  end.

Fixpoint combine_loop (fuel : nat) (ms : list (list DocPointerWithScore)) (indices : list nat) (pairs : list DocPointerWithScore) (index : gmap Z nat) : run_t (list DocPointerWithScore) :=
  match fuel with
  | O => OutOfFuel
  | S fuel =>
      match pick_min ms indices 0 None with
      | None => Ok pairs
      | Some (i, _) =>
          match ms !! i ≫= (fun m => m !! offset_of indices i) with
          | None => Panic
          | Some val => let (pairs, index) := put_pair val (offset_of indices i) pairs index in combine_loop fuel ms (alter S i indices) pairs index
          end
      end
  end.

Definition combine_properties (ms : list (list DocPointerWithScore)) : run_t (list DocPointerWithScore) :=
  combine_loop (S (sum_list (length <$> ms))) ms (replicate (length ms) 0%nat) [] ∅.

(** ** The term *)

Section create.
Context (Log : Qc -> Qc) (cfg : BM25Config).

Definition half : Qc := (1 / 2)%Qc.

Definition Idf (n N : Qc) : Qc :=
  let N := if bool_decide (N < n)%Qc then n else N in
  Log (1 + (N - n + half) / (n + half))%Qc.

(** [SetIdf], [SetPosPointer] and [SetIdPointer] *)
Definition start_term (t : Term) (data : list DocPointerWithScore) (idf : Qc) : run_t (option Term) :=
  match data with
  | [] => Ok None
  | d :: _ => Ok (Some (MkTerm idf (Id d) 0 data (exhausted t) (queryTerm t) (queryTermIndex t) (propertyBoost t) (config t)))
  end.

Definition allowed (filterDocIds : option (gset Z)) (d : DocPointerWithScore) : bool :=
  match filterDocIds with None => true | Some ids => bool_decide (Id d ∈ ids) end.

(** [filterDocIds]: the ids that are allowed, or [None] *)
Definition createTerm (N : Qc) (filterDocIds : option (gset Z)) (query : string) (queryTermIndex : nat) (lists : list (list DocPointerWithScore)) (duplicateTextBoost : Z) : run_t (option Term) :=
  let termResult := NewTerm query queryTermIndex 1 cfg in
  let all := map (filter (fun d => allowed filterDocIds d = true)) lists in
  let filteredOut := Z.of_nat (size (list_to_set (map Id (filter (fun d => allowed filterDocIds d = false) (concat lists))) : gset Z)) in
  let nonEmpty := filter (fun m : list DocPointerWithScore => m <> []) all in
  let finish data := start_term termResult data (Idf (Qc_of_Z (Z.of_nat (length data) + filteredOut)) N * Qc_of_Z duplicateTextBoost)%Qc in
  match nonEmpty with
  | [] => Ok None
  | [m] => finish m
  | _ => let! data := combine_properties nonEmpty in finish data
  end.
End create.

(** * Correctness *)

(** What the documents of an id add up to *)
Definition sum_of (f : DocPointerWithScore -> Qc) (l : list DocPointerWithScore) (id : Z) : Qc := qsum (map f (filter (fun d => Id d = id) l)).

Lemma sum_of_cons f d l id : sum_of f (d :: l) id = ((if decide (Id d = id) then f d else 0) + sum_of f l id)%Qc.
Proof. unfold sum_of. rewrite filter_cons. destruct (decide _); cbn [map]; [done|by rewrite Qcplus_0_l]. Qed.

Lemma sum_of_perm f l l' id : l ≡ₚ l' -> sum_of f l id = sum_of f l' id.
Proof. intros Hp. apply qsum_perm. by rewrite Hp. Qed.

Lemma sum_of_app f l1 l2 id : sum_of f (l1 ++ l2) id = (sum_of f l1 id + sum_of f l2 id)%Qc.
Proof. unfold sum_of. rewrite filter_app, map_app. apply qsum_app. Qed.

Section combine.
Context (ms : list (list DocPointerWithScore)) (ms_sorted : Forall (fun l => sorted_docs l) ms).

Lemma pick_min_spec indices : forall rest n best, drop n ms = rest ->
  match best with
  | None => forall i, (i < n)%nat -> left_of ms indices i = []
  | Some (b, k) => (b < n)%nat /\ (exists d l, left_of ms indices b = d :: l /\ Id d = k) /\ forall i e, (i < n)%nat -> e ∈ left_of ms indices i -> k <= Id e
  end ->
  match pick_min rest indices n best with
  | None => forall i, (i < length ms)%nat -> left_of ms indices i = []
  | Some (b, k) => (b < length ms)%nat /\ (exists d l, left_of ms indices b = d :: l /\ Id d = k) /\ forall i e, (i < length ms)%nat -> e ∈ left_of ms indices i -> k <= Id e
  end.
Proof.
  induction rest as [|m rest IH]; intros n best Hd Hb; cbn [pick_min].
  - assert (Hn : (length ms <= n)%nat) by (apply (f_equal length) in Hd; rewrite length_drop in Hd; cbn [length] in Hd; lia).
    destruct best as [[b k]|]; [|intros i Hi; apply Hb; lia]. destruct Hb as (Hbn & (d & l & Hl & Hk) & Hall). split_and!; [|by exists d, l|intros i e Hi; apply Hall; lia].
    destruct (decide (b < length ms)%nat); [done|]. unfold left_of in Hl. rewrite lookup_ge_None_2 in Hl by lia. cbn in Hl. by rewrite drop_nil in Hl.
  - assert (Hm : ms !! n = Some m) by (rewrite <- (Nat.add_0_r n), <- lookup_drop, Hd; done). apply IH; [by rewrite <- Nat.add_1_r, <- drop_drop, Hd|].
    destruct (m !! offset_of indices n) as [d|] eqn:Ed.
    + pose proof (left_head ms indices n m d Hm Ed) as Hhead. destruct (tail_docs _ d _ (left_sorted ms ms_sorted indices n) Hhead) as [_ Htail].
      assert (Hmine : forall e, e ∈ left_of ms indices n -> Id d <= Id e). { rewrite Hhead. intros e [->|He]%elem_of_cons; [lia|]. specialize (Htail e He). lia. }
      destruct best as [[b k]|].
      * destruct Hb as (Hbn & (db & lb & Hlb & Hk) & Hall). destruct (Z.ltb_spec (Id d) k) as [Hlt|Hge]; (split_and!; [lia| |]).
        -- eauto.
        -- intros i e Hi He. destruct (decide (i = n)) as [->|]; [by apply Hmine|]. pose proof (Hall i e ltac:(lia) He). lia.
        -- eauto.
        -- intros i e Hi He. destruct (decide (i = n)) as [->|]; [specialize (Hmine e He); lia|]. apply (Hall i e); [lia|done].
      * split_and!; [lia|eauto|]. intros i e Hi He. destruct (decide (i = n)) as [->|]; [by apply Hmine|]. rewrite Hb in He by lia. by apply not_elem_of_nil in He.
    + pose proof (left_nil ms indices n m Hm Ed) as Hnil. destruct best as [[b k]|].
      * destruct Hb as (Hbn & Hhd & Hall). split_and!; [lia|done|]. intros i e Hi He. destruct (decide (i = n)) as [->|]; [rewrite Hnil in He; by apply not_elem_of_nil in He|]. apply (Hall i e); [lia|done].
      * intros i Hi. destruct (decide (i = n)) as [->|]; [done|]. apply Hb. lia.
Qed.

(** The documents that are not consumed *)
Definition rest_docs (indices : list nat) : list DocPointerWithScore := concat (map (left_of ms indices) (seq 0 (length ms))).

Lemma rest_elem indices e : e ∈ rest_docs indices <-> exists i, (i < length ms)%nat /\ e ∈ left_of ms indices i.
Proof.
  unfold rest_docs. rewrite list_elem_of_In, in_concat. split.
  - intros (l & (i & <- & Hi)%in_map_iff & He). exists i. apply in_seq in Hi. split; [lia|by apply list_elem_of_In].
  - intros (i & Hi & He). exists (left_of ms indices i). split; [apply in_map_iff; exists i; split; [done|apply in_seq; lia]|by apply list_elem_of_In].
Qed.

Lemma rest_take indices b d l : length indices = length ms -> (b < length ms)%nat -> left_of ms indices b = d :: l -> rest_docs indices ≡ₚ d :: rest_docs (alter S b indices).
Proof.
  intros Hlen Hb Hl. unfold rest_docs. replace (length ms) with (b + S (length ms - S b))%nat by lia. rewrite seq_app. cbn [seq]. rewrite !map_app, !concat_app. cbn [map concat Nat.add].
  assert (Hsame : forall i, i <> b -> left_of ms (alter S b indices) i = left_of ms indices i) by (intros i Hi; by rewrite left_alter, decide_False by lia).
  rewrite (left_alter ms indices b b), decide_True, Hl by (done || lia). cbn [tail].
  rewrite (map_ext_in (left_of ms (alter S b indices)) (left_of ms indices) (seq 0 b)) by (intros i Hi%in_seq; apply Hsame; lia).
  rewrite (map_ext_in (left_of ms (alter S b indices)) (left_of ms indices) (seq (S b) _)) by (intros i Hi%in_seq; apply Hsame; lia).
  symmetry. apply Permutation_middle.
Qed.

Record combining (indices : list nat) (pairs : list DocPointerWithScore) (index : gmap Z nat) : Prop := {
  cb_length : length indices = length ms;
  cb_sorted : sorted_docs pairs;
  cb_low p e : p ∈ pairs -> e ∈ rest_docs indices -> Id p <= Id e;
  cb_index id ind : index !! id = Some ind <-> exists p, pairs !! ind = Some p /\ Id p = id;
  cb_sum f id : (forall a b, f (add_doc a b) = f a + f b)%Qc -> (sum_of f pairs id + sum_of f (rest_docs indices) id)%Qc = sum_of f (concat ms) id;
  cb_ids id : id ∈ map Id pairs \/ id ∈ map Id (rest_docs indices) <-> id ∈ map Id (concat ms);
  cb_start : pairs = [] -> index = ∅ /\ forall i, offset_of indices i = 0%nat
}.

(** Adding to a pair *)
Lemma put_existing f pairs ind p val id : (forall a b, f (add_doc a b) = f a + f b)%Qc -> pairs !! ind = Some p -> Id p = Id val ->
  map Id (<[ind := add_doc p val]> pairs) = map Id pairs /\ sum_of f (<[ind := add_doc p val]> pairs) id = ((if decide (Id val = id) then f val else 0) + sum_of f pairs id)%Qc.
Proof.
  intros Hf Hp Hid. destruct (list_elem_of_split_length pairs ind p Hp) as (p1 & p2 & -> & ->). rewrite insert_app_r_alt, Nat.sub_diag by lia. change (<[0%nat := add_doc p val]> (p :: p2)) with (add_doc p val :: p2).
  split; [by rewrite !map_app|]. rewrite !sum_of_app, !sum_of_cons. change (Id (add_doc p val)) with (Id p). rewrite Hid, Hf. destruct (decide (Id val = id)); ring.
Qed.

Lemma put_pair_correct indices pairs index b val l : combining indices pairs index -> (b < length ms)%nat -> left_of ms indices b = val :: l -> (forall e, e ∈ rest_docs indices -> Id val <= Id e) ->
  let (pairs', index') := put_pair val (offset_of indices b) pairs index in combining (alter S b indices) pairs' index'.
Proof.
  intros Hc Hb Hl Hmin. destruct Hc as [Hlen Hsort Hlow Hidx Hsum Hids Hstart]. pose proof (rest_take indices b val l Hlen Hb Hl) as Hperm.
  assert (Hlen' : length (alter S b indices) = length ms) by by rewrite length_alter.
  assert (Hsub : forall e, e ∈ rest_docs (alter S b indices) -> e ∈ rest_docs indices) by (intros e He; rewrite Hperm; set_solver).
  assert (Hsum' : forall f id, (forall a b, f (add_doc a b) = f a + f b)%Qc -> (sum_of f pairs id + ((if decide (Id val = id) then f val else 0) + sum_of f (rest_docs (alter S b indices)) id))%Qc = sum_of f (concat ms) id).
  { intros f id Hf. rewrite <- (Hsum f id Hf), (sum_of_perm f _ _ id Hperm), sum_of_cons. done. }
  assert (Hids' : forall id, id ∈ map Id pairs \/ id = Id val \/ id ∈ map Id (rest_docs (alter S b indices)) <-> id ∈ map Id (concat ms)).
  { intros id. rewrite <- Hids, Hperm. cbn [map]. by rewrite elem_of_cons. }
  assert (Happ : Id val ∉ map Id pairs -> combining (alter S b indices) (pairs ++ [val]) (<[Id val := length pairs]> index)).
  { intros Hnew. split; [done|..].
    - rewrite map_app. apply StronglySorted_app. split_and!; [|done|repeat constructor]. intros x y Hx Hy. apply list_elem_of_singleton in Hy as ->.
      assert (x <> Id val) by (intros ->; done). apply list_elem_of_fmap in Hx as (p & -> & Hp). pose proof (Hlow p val Hp ltac:(rewrite Hperm; set_solver)). lia.
    - intros p e [Hp|Hp]%elem_of_app He; [by apply Hlow; [|apply Hsub]|]. apply list_elem_of_singleton in Hp as ->. by apply Hmin, Hsub.
    - intros id ind. destruct (decide (id = Id val)) as [->|Hne].
      + rewrite lookup_insert_eq. split.
        * intros [= <-]. exists val. by rewrite lookup_app_r, Nat.sub_diag by lia.
        * intros (p & Hp & Hid). destruct (decide (ind < length pairs)%nat) as [Hlt|Hge].
          -- rewrite lookup_app_l in Hp by done. exfalso. apply Hnew. rewrite <- Hid. apply list_elem_of_fmap_2. by eapply list_elem_of_lookup_2.
          -- apply lookup_lt_Some in Hp as Hb'. rewrite length_app in Hb'. cbn [length] in Hb'. f_equal. lia.
      + rewrite lookup_insert_ne by done. rewrite Hidx. split; intros (p & Hp & Hid); exists p; (split; [|done]).
        * rewrite lookup_app_l; [done|by apply lookup_lt_Some in Hp].
        * destruct (decide (ind < length pairs)%nat) as [Hlt|Hge]; [by rewrite lookup_app_l in Hp|]. rewrite lookup_app_r in Hp by lia. destruct (ind - length pairs)%nat; cbn in Hp; [|done]. injection Hp as <-. done.
    - intros f id Hf. rewrite sum_of_app, sum_of_cons, <- (Hsum' f id Hf). unfold sum_of at 2. cbn. ring.
    - intros id. rewrite <- Hids', map_app, elem_of_app. cbn [map]. rewrite list_elem_of_singleton. tauto.
    - intros E. by destruct pairs. }
  unfold put_pair. destruct pairs as [|p0 pairs0] eqn:Ep.
  - destruct (Hstart eq_refl) as [-> Hz]. rewrite Hz. apply (Happ ltac:(by apply not_elem_of_nil)).
  - rewrite <- Ep in *. destruct (index !! Id val) as [ind|] eqn:Ei.
    + apply Hidx in Ei as (p & Hp & Hid). rewrite Hp. rewrite (proj2 (Z.eqb_eq _ _) Hid). pose proof (fun f id Hf => put_existing f pairs ind p val id Hf Hp Hid) as Hput.
      assert (Hmap : map Id (<[ind := add_doc p val]> pairs) = map Id pairs) by (by apply (Hput Frequency 0)).
      assert (Hin : Id val ∈ map Id pairs) by (rewrite <- Hid; apply list_elem_of_fmap_2; by eapply list_elem_of_lookup_2).
      split; [done|by rewrite Hmap|..].
      * intros x e Hx He. assert (Hx' : Id x ∈ map Id pairs) by (rewrite <- Hmap; by apply list_elem_of_fmap_2). apply list_elem_of_fmap in Hx' as (y & -> & Hy). apply Hlow; [done|by apply Hsub].
      * intros id i. rewrite Hidx. assert (Hl2 : forall (l : list DocPointerWithScore) (i : nat), (exists q, l !! i = Some q /\ Id q = id) <-> map Id l !! i = Some id).
        { intros l1 i1. change (map Id l1) with (Id <$> l1). rewrite list_lookup_fmap. destruct (l1 !! i1) as [q|]; cbn; [|split; [intros (? & ? & _); done|done]]. split; [intros (? & [= ->] & ->); done|intros [= <-]; by exists q]. }
        by rewrite !Hl2, Hmap.
      * intros f id Hf. rewrite (proj2 (Hput f id Hf)), <- (Hsum' f id Hf). ring.
      * intros id. rewrite <- Hids', Hmap. split; [tauto|]. intros [?|[->|?]]; auto.
      * intros E. apply (f_equal length) in E. rewrite length_insert, Ep in E. done.
    + apply Happ. intros Hin. apply list_elem_of_fmap in Hin as (p & Hid & [i Hi]%list_elem_of_lookup). assert (Hs : index !! Id val = Some i) by (apply Hidx; exists p; done). congruence.
Qed.
End combine.

(** ** The whole loop *)

Record combined (ms : list (list DocPointerWithScore)) (out : list DocPointerWithScore) : Prop := {
  co_sorted : sorted_docs out;
  co_sum f id : (forall a b, f (add_doc a b) = f a + f b)%Qc -> sum_of f out id = sum_of f (concat ms) id;
  co_ids id : id ∈ map Id out <-> id ∈ map Id (concat ms)
}.

Lemma combine_loop_correct ms : Forall (fun l => sorted_docs l) ms -> forall fuel indices pairs index, combining ms indices pairs index -> (length (rest_docs ms indices) < fuel)%nat ->
  exists out, combine_loop fuel ms indices pairs index = Ok out /\ combined ms out.
Proof.
  intros Hms. induction fuel as [|fuel IH]; intros indices pairs index Hc Hf; [lia|]. cbn [combine_loop].
  pose proof (pick_min_spec ms Hms indices ms 0 None eq_refl ltac:(intros i Hi; lia)) as Hp. destruct (pick_min ms indices 0 None) as [[b k]|].
  - destruct Hp as (Hb & (val & l & Hl & Hk) & Hall). destruct (lookup_lt_is_Some_2 ms b Hb) as [m Hm]. rewrite Hm. cbn [mbind option_bind].
    assert (Hat : m !! offset_of indices b = Some val). { unfold left_of in Hl. rewrite Hm in Hl. cbn in Hl. rewrite <- (Nat.add_0_r (offset_of indices b)), <- lookup_drop, Hl. done. }
    rewrite Hat. pose proof (put_pair_correct ms Hms indices pairs index b val l Hc Hb Hl) as Hput.
    destruct (put_pair val (offset_of indices b) pairs index) as [pairs' index']. apply IH.
    + apply Hput. intros e (i & Hi & He)%rest_elem. rewrite Hk. by apply (Hall i).
    + pose proof (rest_take ms indices b val l (cb_length _ _ _ _ Hc) Hb Hl) as Hperm. apply Permutation_length in Hperm. cbn [length] in Hperm. lia.
  - exists pairs. split; [done|]. assert (Hnil : rest_docs ms indices = []).
    { destruct (rest_docs ms indices) as [|e l] eqn:E; [done|]. assert (He : e ∈ rest_docs ms indices) by (rewrite E; set_solver). apply rest_elem in He as (i & Hi & He). rewrite Hp in He by done. by apply not_elem_of_nil in He. }
    destruct Hc as [_ Hsort _ _ Hsum Hids _]. rewrite Hnil in Hsum, Hids. split; [done|..].
    + intros f id Hfa. rewrite <- (Hsum f id Hfa). unfold sum_of at 3. cbn. by rewrite Qcplus_0_r.
    + intros id. rewrite <- Hids. cbn [map]. split; [by left|]. intros [?|He]; [done|]. by apply not_elem_of_nil in He.
Qed.

Lemma rest_start ms : rest_docs ms (replicate (length ms) 0%nat) = concat ms.
Proof.
  unfold rest_docs. f_equal. rewrite (map_ext _ _ (start_left ms)). apply list_eq. intros i. change (map (fun j => default [] (ms !! j)) (seq 0 (length ms))) with ((fun j => default [] (ms !! j)) <$> seq 0 (length ms)).
  rewrite list_lookup_fmap. destruct (decide (i < length ms)%nat) as [Hi|Hi].
  - rewrite lookup_seq_lt by done. cbn. by destruct (lookup_lt_is_Some_2 ms i Hi) as [l ->].
  - rewrite lookup_seq_ge by lia. symmetry. apply lookup_ge_None. lia.
Qed.

Lemma concat_length (ms : list (list DocPointerWithScore)) : length (concat ms) = sum_list (length <$> ms).
Proof. induction ms as [|m ms IH]; [done|]. cbn [concat]. rewrite length_app, IH. done. Qed.

Lemma combine_correct ms : Forall (fun l => sorted_docs l) ms -> exists out, combine_properties ms = Ok out /\ combined ms out.
Proof.
  intros Hms. unfold combine_properties. apply combine_loop_correct; [done| |].
  - split; [by rewrite length_replicate|constructor| | | | |].
    + intros p e Hp. by apply not_elem_of_nil in Hp.
    + intros id ind. rewrite lookup_empty. split; [done|intros (p & Hp & _); done].
    + intros f id _. rewrite rest_start. unfold sum_of at 1. cbn. by rewrite Qcplus_0_l.
    + intros id. rewrite rest_start. split; [intros [He|?]; [by apply not_elem_of_nil in He|done]|by right].
    + intros _. split; [done|]. intros i. unfold offset_of. destruct (replicate (length ms) 0%nat !! i) as [x|] eqn:E; [by apply lookup_replicate in E as [-> _]|done].
  - rewrite rest_start, concat_length. lia.
Qed.

(** ** A created term *)

Lemma single_id f out p : sorted_docs out -> p ∈ out -> sum_of f out (Id p) = f p.
Proof.
  intros Hs (l1 & l2 & ->)%list_elem_of_split. rewrite map_app in Hs. cbn [map] in Hs. apply StronglySorted_app in Hs as (H1 & _ & Hs). inversion_clear Hs as [|? ? _ Hall].
  assert (Hnone : forall l, (forall x, x ∈ l -> Id x <> Id p) -> sum_of f l (Id p) = 0%Qc).
  { induction l as [|x l IHl]; [done|]. intros Hl. rewrite sum_of_cons, decide_False by (apply Hl; set_solver). rewrite IHl by (intros y Hy; apply Hl; set_solver). apply Qcplus_0_l. }
  rewrite sum_of_app, sum_of_cons, decide_True, (Hnone l1), (Hnone l2); [ring| | |done].
  - intros x Hx. pose proof (proj1 (Forall_forall _ _) Hall (Id x) ltac:(by apply list_elem_of_fmap_2)). lia.
  - intros x Hx. pose proof (H1 (Id x) (Id p) ltac:(by apply list_elem_of_fmap_2) ltac:(set_solver)). lia.
Qed.

Lemma sum_of_nonneg f l id : Forall (fun d => 0 ≤ f d)%Qc l -> (0 ≤ sum_of f l id)%Qc.
Proof.
  induction 1 as [|d l Hd _ IH]; [apply Qcle_refl|]. rewrite sum_of_cons. apply Qcplus_nonneg_nonneg; [|done]. destruct (decide _); [done|apply Qcle_refl].
Qed.

Lemma sum_of_pos f l id : Forall (fun d => 0 < f d)%Qc l -> id ∈ map Id l -> (0 < sum_of f l id)%Qc.
Proof.
  intros Hl (d & -> & (l1 & l2 & ->)%list_elem_of_split)%list_elem_of_fmap. assert (Hn : forall l, Forall (fun d => 0 < f d)%Qc l -> (0 ≤ sum_of f l (Id d))%Qc).
  { intros l Hl0. apply sum_of_nonneg. eapply Forall_impl; [exact Hl0|]. intros x. apply Qclt_le_weak. }
  apply Forall_app in Hl as [H1 [Hd H2]%Forall_cons]. rewrite sum_of_app, sum_of_cons, decide_True by done. apply Qcplus_nonneg_pos; [by apply Hn|]. apply Qcplus_pos_nonneg; [done|by apply Hn].
Qed.

Lemma concat_nonempty (ms : list (list DocPointerWithScore)) : concat (filter (fun m : list DocPointerWithScore => m <> []) ms) = concat ms.
Proof. induction ms as [|m ms IH]; [done|]. rewrite filter_cons. cbn [concat]. destruct (decide (m <> [])) as [_|Hn]; cbn [concat]; rewrite IH; [done|]. by destruct m; [|destruct Hn]. Qed.

Lemma concat_filter (P : DocPointerWithScore -> Prop) `{!forall d, Decision (P d)} ms : concat (map (filter P) ms) = filter P (concat ms).
Proof. induction ms as [|m ms IH]; [done|]. cbn [map concat]. by rewrite filter_app, IH. Qed.

Lemma docs_sorted_filter (P : DocPointerWithScore -> Prop) `{!forall d, Decision (P d)} l : sorted_docs l -> sorted_docs (filter P l).
Proof.
  induction l as [|d l IH]; [done|]. cbn [map]. intros Hs. inversion_clear Hs as [|? ? Hl Hall]. rewrite filter_cons. destruct (decide (P d)); [|by apply IH].
  cbn [map]. constructor; [by apply IH|]. apply Forall_forall. intros x (e & -> & [_ He]%list_elem_of_filter)%list_elem_of_fmap. apply (proj1 (Forall_forall _ _) Hall). by apply list_elem_of_fmap_2.
Qed.

Lemma docs_NoDup l : StronglySorted Z.lt l -> NoDup l.
Proof. induction 1 as [|x l _ IH Hx]; constructor; [|done]. intros Hin. pose proof (proj1 (Forall_forall _ _) Hx x Hin). lia. Qed.

Section created.
Context (Log : Qc -> Qc) (cfg : BM25Config) (N : Qc) (filterDocIds : option (gset Z)).
Context (Log_nonneg : forall x, (1 ≤ x)%Qc -> (0 ≤ Log x)%Qc) (cfg_K1 : (0 ≤ K1 cfg)%Qc) (cfg_B : (0 ≤ B cfg /\ B cfg ≤ 1)%Qc).

Record lists_ok (lists : list (list DocPointerWithScore)) : Prop := {
  lo_sorted : Forall (fun l => sorted_docs l) lists;
  lo_docs : Forall (fun d => 0 <= Id d < max_u64 /\ (0 < Frequency d)%Qc /\ (0 ≤ PropLength d)%Qc) (concat lists);
  lo_length : Z.of_nat (length (concat lists)) < 2 ^ 63
}.

(** The documents of a word that the filter allows, in all properties *)
Definition docs_of (lists : list (list DocPointerWithScore)) : list DocPointerWithScore := filter (fun d => allowed filterDocIds d = true) (concat lists).

(** How many different documents a list has *)
Definition ids_count (l : list DocPointerWithScore) : Z := Z.of_nat (size (list_to_set (map Id l) : gset Z)).

Definition word_idf (lists : list (list DocPointerWithScore)) (duplicateTextBoost : Z) : Qc :=
  (Idf Log (Qc_of_Z (ids_count (docs_of lists) + ids_count (filter (fun d => allowed filterDocIds d = false) (concat lists)))) N * Qc_of_Z duplicateTextBoost)%Qc.

Lemma Qc_of_Z_nonneg z : 0 <= z -> (0 ≤ Qc_of_Z z)%Qc.
Proof. intros Hz. rewrite <- Z2Qc_inj_0. exact (proj1 (Z2Qc_inj_le 0 z) Hz). Qed.

Lemma Idf_nonneg n : (0 ≤ n)%Qc -> (0 ≤ Idf Log n N)%Qc.
Proof.
  intros Hn. unfold Idf. set (M := if bool_decide (N < n)%Qc then n else N). assert (HM : (n ≤ M)%Qc) by (unfold M; case_bool_decide as H; [apply Qcle_refl|by apply Qcle_ngt]).
  assert (Hh : (0 < half)%Qc) by (by apply (bool_decide_unpack _)). apply Log_nonneg. rewrite <- (Qcplus_0_r 1) at 1. apply Qcplus_le_mono_l. unfold Qcdiv.
  apply Qcmult_nonneg_nonneg.
  - apply Qcplus_nonneg_nonneg; [|by apply Qclt_le_weak]. apply (Qcplus_le_mono_r _ _ n). by ring_simplify.
  - apply Qclt_le_weak, Qcinv_pos. by apply Qcplus_nonneg_pos.
Qed.

Lemma combined_count docs data : combined [docs] data -> Z.of_nat (length data) = ids_count docs.
Proof.
  intros [Hs _ Hids]. cbn [concat] in Hids. unfold ids_count. assert (list_to_set (map Id docs) =@{gset Z} list_to_set (map Id data)) as ->.
  { apply set_eq. intros id. rewrite !elem_of_list_to_set, Hids, app_nil_r. done. }
  rewrite size_list_to_set by by apply docs_NoDup. by rewrite length_map.
Qed.

(** A term over what was added up is one that can be searched. *)
Lemma start_term_correct query index docs data idf0 : Forall (fun d => 0 <= Id d < max_u64 /\ (0 < Frequency d)%Qc /\ (0 ≤ PropLength d)%Qc) docs -> Z.of_nat (length docs) < 2 ^ 63 ->
  combined [docs] data -> (0 ≤ idf0)%Qc ->
  exists r, start_term (NewTerm query index 1 cfg) data idf0 = Ok r /\
    match r with
    | None => docs = []
    | Some t => fresh_term t /\ data <> [] /\ Data t = data /\ idf t = idf0 /\ propertyBoost t = 1%Qc /\ config t = cfg /\ queryTermIndex t = index
    end.
Proof.
  intros Hdocs Hlen Hc Hidf. destruct Hc as [Hs Hsum Hids]. cbn [concat] in Hsum, Hids. rewrite app_nil_r in Hids. destruct data as [|d0 data0] eqn:Ed.
  { exists None. split; [done|]. destruct docs as [|x docs]; [done|]. assert (Hin : Id x ∈ map Id ([] : list DocPointerWithScore)) by (apply Hids; set_solver). by apply not_elem_of_nil in Hin. }
  rewrite <- Ed in *. assert (Hstart : start_term (NewTerm query index 1 cfg) data idf0 = Ok (Some (MkTerm idf0 (Id d0) 0 data false query index 1 cfg))) by (by rewrite Ed).
  eexists. split; [exact Hstart|]. cbn [Data idf propertyBoost config queryTermIndex]. split; [|split; [by rewrite Ed|done]].
  assert (Hin : forall p, p ∈ data -> exists x, x ∈ docs /\ Id x = Id p).
  { intros p Hp. assert (Hp' : Id p ∈ map Id docs) by (apply Hids; by apply list_elem_of_fmap_2). apply list_elem_of_fmap in Hp' as (x & E & Hx). by exists x. }
  assert (Hval : forall f p, (forall a b, f (add_doc a b) = f a + f b)%Qc -> p ∈ data -> f p = sum_of f docs (Id p)).
  { intros f p Hf Hp. rewrite <- (single_id f data p Hs Hp), (Hsum f (Id p) Hf). by rewrite app_nil_r. }
  assert (Hbound : Z.of_nat (length data) < 2 ^ 63).
  { apply Z.le_lt_trans with (Z.of_nat (length docs)); [|done]. apply Nat2Z.inj_le. rewrite <- (length_map Id data), <- (length_map Id docs).
    apply submseteq_length, NoDup_submseteq; [by apply docs_NoDup|]. intros id. by rewrite Hids. }
  split; [|split|done]; cbn [Data idf propertyBoost config posPointer idPointer exhausted].
  - split; cbn [Data posPointer idPointer exhausted]; [done| |done|lia|].
    + apply Forall_forall. intros p Hp. destruct (Hin p Hp) as (x & Hx & <-). by apply (proj1 (Forall_forall _ _) Hdocs x Hx).
    + unfold doc_at. cbn [Data]. rewrite Ed. done.
  - done.
  - by apply (bool_decide_unpack _).
  - done.
  - done.
  - apply Forall_forall. intros p Hp. rewrite (Hval Frequency p), (Hval PropLength p) by done. split.
    + apply sum_of_pos; [eapply Forall_impl; [exact Hdocs|]; by intros x (_ & ? & _)|]. apply Hids. by apply list_elem_of_fmap_2.
    + apply sum_of_nonneg. eapply Forall_impl; [exact Hdocs|]. by intros x (_ & _ & ?).
Qed.
Lemma createTerm_correct query index lists dup : lists_ok lists -> 0 <= dup ->
  exists r, createTerm Log cfg N filterDocIds query index lists dup = Ok r /\
    match r with
    | None => docs_of lists = []
    | Some t => fresh_term t /\ Data t <> [] /\ combined [docs_of lists] (Data t) /\ idf t = word_idf lists dup /\ propertyBoost t = 1%Qc /\ config t = cfg /\ queryTermIndex t = index
    end.
Proof.
  intros [Hs Hd Hlen] Hdup. unfold createTerm. set (all := map (filter _) lists). set (nonEmpty := filter _ all). set (finish := fun data => start_term _ data _).
  assert (Hconcat : concat nonEmpty = docs_of lists) by (unfold nonEmpty, all, docs_of; by rewrite concat_nonempty, concat_filter).
  assert (Hdocs : Forall (fun d => 0 <= Id d < max_u64 /\ (0 < Frequency d)%Qc /\ (0 ≤ PropLength d)%Qc) (docs_of lists)).
  { apply Forall_forall. intros d [_ Hin]%list_elem_of_filter. by apply (proj1 (Forall_forall _ _) Hd d Hin). }
  assert (Hlen' : Z.of_nat (length (docs_of lists)) < 2 ^ 63) by (unfold docs_of; pose proof (length_filter (fun d => allowed filterDocIds d = true) (concat lists)); lia).
  assert (Hsorted : Forall (fun l => sorted_docs l) nonEmpty).
  { apply Forall_forall. intros l [_ Hl]%list_elem_of_filter. apply list_elem_of_fmap in Hl as (l0 & -> & Hl0). apply docs_sorted_filter. exact (proj1 (Forall_forall _ _) Hs l0 Hl0). }
  assert (Hidf : (0 ≤ word_idf lists dup)%Qc).
  { apply Qcmult_nonneg_nonneg; [|by apply Qc_of_Z_nonneg]. apply Idf_nonneg, Qc_of_Z_nonneg. unfold ids_count. lia. }
  assert (Hfinish : forall data, combined [docs_of lists] data -> exists r, finish data = Ok r /\
    match r with
    | None => docs_of lists = []
    | Some t => fresh_term t /\ Data t <> [] /\ combined [docs_of lists] (Data t) /\ idf t = word_idf lists dup /\ propertyBoost t = 1%Qc /\ config t = cfg /\ queryTermIndex t = index
    end).
  { intros data Hc. unfold finish. rewrite (combined_count (docs_of lists) data Hc). fold (ids_count (filter (fun d => allowed filterDocIds d = false) (concat lists))). fold (word_idf lists dup).
    destruct (start_term_correct query index (docs_of lists) data (word_idf lists dup) Hdocs Hlen' Hc Hidf) as (r & -> & Hr). exists r. split; [done|].
    destruct r as [t|]; [|done]. destruct Hr as (H1 & Hne & -> & H2 & H3 & H4 & H5). by split_and!. }
  assert (Hsame : forall ms out, concat ms = docs_of lists -> combined ms out -> combined [docs_of lists] out).
  { intros ms out E [H1 H2 H3]. split; [done|intros f id Hf; rewrite (H2 f id Hf), E; cbn [concat]; by rewrite app_nil_r|intros id; rewrite H3, E; cbn [concat]; by rewrite app_nil_r]. }
  destruct nonEmpty as [|m [|m2 ms]] eqn:En.
  - exists None. split; [done|]. by rewrite <- Hconcat.
  - apply Hfinish. cbn [concat] in Hconcat. rewrite app_nil_r in Hconcat. rewrite <- Hconcat. split; [by inversion_clear Hsorted|intros f id _|intros id]; cbn [concat]; by rewrite app_nil_r.
  - rewrite <- En in *. destruct (combine_correct nonEmpty Hsorted) as (out & -> & Hout). cbn [obind]. apply Hfinish. by apply (Hsame nonEmpty).
Qed.
End created.
