(* ===== verification/SearchResults.v ===== *)
(** * Results of a keyword search

    What [adapters/repos/db/inverted] does with the documents that were found: [getTopKObjects] of [bm25_searcher.go], and [combineResults],
    [combineResultsForMultiProp], [getObjectsAndScores] and the two sorters of [bm25_searcher_block.go].  Reading objects from their bucket,
    [sort.Sort] and the order of Go's maps are arguments. *)

From Stdlib Require Import QArith Qcanon OrderedTypeEx.
From stdpp Require Import strings numbers sorting.
From S2P Require Import Prelude PriorityQueue Bm25Terms TopK Wand.

#[local] Open Scope Z_scope.

Notation explanation := (list (option DocPointerWithScore)) (only parsing).
Notation entry := (Z * Qc * list (option DocPointerWithScore))%type (only parsing).

(** ** The sorters *)

(** Lower scores first; [tie] decides between equal ones *)
Definition by_score {A : Type} (score : A -> Qc) (tie : A -> A -> bool) (a b : A) : bool :=
  if feq (score a) (score b) then tie a b else flt (score a) (score b).

(** [scoreSorter.Less] *)
Definition score_less : entry -> entry -> bool := by_score (fun e => e.1.2) (fun a b => b.1.1 <? a.1.1).

(** What the code relies on of [sort.Sort] *)
Class SorterLaws {A : Type} (less : A -> A -> bool) (sort : list A -> list A) : Prop := {
  sorter_perm l : sort l ≡ₚ l;
  sorter_sorted l : StronglySorted (no_less less) (sort l)
}.

(** ** Objects *)

Section objects.
Context {Obj : Type} (DocID : Obj -> Z) (ObjectID : Obj -> string) (ObjectsByDocIDWithEmpty : list Z -> option (list (option Obj))).
Context (sort_objects : list (Obj * Qc * option explanation) -> list (Obj * Qc * option explanation)).

(** [objectIdsSorter.Less] *)
Definition object_less : Obj * Qc * option explanation -> Obj * Qc * option explanation -> bool :=
  by_score (fun e => e.1.2) (fun a b => String.ltb (ObjectID b.1.1) (ObjectID a.1.1)).

(** The objects that are still there, with what belongs to them *)
Fixpoint present {A : Type} (ids : list Z) (with_ids : list A) (objs : list (option Obj)) : list (Obj * A) :=
  match ids, with_ids, objs with
  | id :: ids, a :: with_ids, o :: objs =>
      match o with
      | Some o => if DocID o =? id then (o, a) :: present ids with_ids objs else present ids with_ids objs
      | None => present ids with_ids objs
      end
  | _, _, _ => []
  end.

(** Scores move up with their objects, explanations do not; an explanation then belongs to its object. *)
Definition getTopKObjects (additionalExplanations : bool) (topKHeap : Queue Qc explanation) : run_t (list (Obj * Qc * option explanation)) :=
  let! out := popped topKHeap in
  match ObjectsByDocIDWithEmpty (map ID out) with
  | None => Err ErrObjects
  | Some objs =>
      if (length objs <? length out)%nat then Panic
      else
        Ok (sort_objects (imap (fun k '(o, score) => (o, score, if additionalExplanations then map Value out !! k else None))
              (present (map ID out) (map Dist out) objs)))
  end.

(** The loop of [getObjectsAndScores] over batches of documents, the best first; the first batch is not longer than the list. *)
Fixpoint object_batches {A : Type} (fuel : nat) (ids : list Z) (with_ids : list A) (limit startAt endAt : nat) (objs : list (Obj * A)) : run_t (list (Obj * A)) :=
  match fuel with
  | O => OutOfFuel
  | S fuel =>
      if (length objs <? limit)%nat && (startAt <? length ids)%nat then
        if (length ids <? endAt)%nat || (endAt <? startAt)%nat then Panic
        else
          let batch := take (endAt - startAt) (drop startAt ids) in
          match ObjectsByDocIDWithEmpty batch with
          | None => Err ErrObjects
          | Some found =>
              object_batches fuel ids with_ids limit endAt (Nat.min (endAt + limit) (length ids))
                (objs ++ present batch (take (endAt - startAt) (drop startAt with_ids)) found)
          end
      else Ok objs
  end.

(** The documents come with the worst first, the objects are returned with the best first. *)
Definition getObjectsAndScores (entries : list (Z * Qc * option explanation)) (limit : nat) : run_t (list (Obj * Qc * option explanation)) :=
  let ids := rev (map (fun e => e.1.1) entries) in
  let rest := rev (map (fun e => (e.1.2, e.2)) entries) in
  let! objs := object_batches (S (length ids)) ids rest limit 0 limit [] in
  Ok (rev (sort_objects (map (fun '(o, (score, x)) => (o, score, x)) objs))).
End objects.

(** ** Results of several segments and properties *)

(** A document that is there more than once gets the scores together, its explanation is replaced or added to. *)
Definition combine_entry (aggregateFn : Qc -> Qc -> Qc) (singleProp : bool) (m : gmap Z (Qc * explanation)) (e : entry) : gmap Z (Qc * explanation) :=
  let '(id, score, explanation) := e in
  match m !! id with
  | None => <[id := (score, explanation)]> m
  | Some (old, oldExplanation) => <[id := (aggregateFn old score, if singleProp then explanation else oldExplanation ++ explanation)]> m
  end.

Section combine_results.
(** [order]: that of Go's map *)
Context (order : gmap Z (Qc * explanation) -> list (Z * (Qc * explanation))).

Definition combineResultsForMultiProp (all : list entry) (aggregateFn : Qc -> Qc -> Qc) (singleProp : bool) : list entry :=
  map (fun '(id, (score, explanation)) => (id, score, explanation)) (order (foldl (combine_entry aggregateFn singleProp) ∅ all)).

(** Of the segments of a property the last one decides, the properties are added. *)
Definition combine_properties_results (all : list (list (list entry))) : list entry :=
  combineResultsForMultiProp (concat (map (fun prop => combineResultsForMultiProp (concat prop) (fun _ b => b) true) all)) Qcplus false.

Context {Obj : Type} (DocID : Obj -> Z) (ObjectsByDocIDWithEmpty : list Z -> option (list (option Obj))).
Context (sort_scores : list entry -> list entry) (sort_objects : list (Obj * Qc * option explanation) -> list (Obj * Qc * option explanation)).

Definition combineResults (all : list (list (list entry))) (limit : nat) : run_t (list (Obj * Qc * option explanation)) :=
  let combined := sort_scores (combine_properties_results all) in
  getObjectsAndScores DocID ObjectsByDocIDWithEmpty sort_objects (map (fun '(id, score, x) => (id, score, Some x)) combined) (Nat.min limit (length combined)).
End combine_results.

(** * The sorters are orders *)

#[export] Instance by_score_weak {A} (score : A -> Qc) tie : StrictWeak tie -> StrictWeak (by_score score tie).
Proof.
  intros Ht. assert (Hspec : forall a b, by_score score tie a b = true <-> (score a < score b)%Qc \/ (score a = score b /\ tie a b = true)).
  { intros a b. unfold by_score, feq, flt, Qc_distance. destruct (bool_decide_reflect (score a = score b)) as [E|E].
    - rewrite E. split; [by right|]. intros [Hlt|[_ ?]]; [by apply (irreflexivity Qclt) in Hlt|done].
    - rewrite bool_decide_eq_true. naive_solver. }
  split.
  - intros a b. rewrite <- not_true_iff_false, !Hspec. intros [H1|[H1 H2]] [H3|[H3 H4]].
    + exact (irreflexivity Qclt _ (Qclt_trans _ _ _ H1 H3)).
    + rewrite H3 in H1. exact (irreflexivity Qclt _ H1).
    + rewrite H1 in H3. exact (irreflexivity Qclt _ H3).
    + by rewrite (sw_asym a b H2) in H4.
  - intros a b c. rewrite !Hspec. intros Hac. destruct (Qc_dec (score a) (score b)) as [[Hab|Hab]|Hab]; [by left; left| |].
    + right; left. destruct Hac as [Hac|[Hac _]]; [by eapply Qclt_trans|by rewrite <- Hac].
    + rewrite <- Hab. destruct Hac as [Hac|[Hac Htie]]; [by right; left|]. destruct (sw_cotrans a b c Htie) as [?|?]; [left|right]; right; auto.
Qed.

#[export] Instance Zgt_weak {A} (f : A -> Z) : StrictWeak (fun a b => f b <? f a).
Proof. split; intros; rewrite ?Z.ltb_lt, ?Z.ltb_ge in *; lia. Qed.

#[export] Instance String_gt_weak {A} (f : A -> string) : StrictWeak (fun a b => String.ltb (f b) (f a)).
Proof.
  assert (Hlt : forall s t, String.ltb s t = true <-> String_as_OT.lt s t).
  { intros s t. rewrite <- String_as_OT.cmp_lt. unfold String.ltb, String_as_OT.cmp. by destruct (s ?= t)%string. }
  split.
  - intros a b. rewrite <- not_true_iff_false, !Hlt. intros H1 H2. exact (String_as_OT.lt_not_eq _ _ (String_as_OT.lt_trans _ _ _ H1 H2) eq_refl).
  - intros a b c. rewrite !Hlt. intros H1. destruct (String_as_OT.compare (f b) (f a)) as [H|H|H]; [by left|right|right].
    + apply String_as_OT.cmp_eq, String_as_OT.cmp_eq in H. by rewrite H.
    + by eapply String_as_OT.lt_trans.
Qed.

#[export] Instance score_less_weak : StrictWeak score_less.
Proof. apply by_score_weak, (Zgt_weak (fun e : entry => e.1.1)). Qed.

#[export] Instance object_less_weak {Obj} (ObjectID : Obj -> string) : StrictWeak (object_less ObjectID).
Proof. apply by_score_weak, (String_gt_weak (fun e : Obj * Qc * option explanation => ObjectID e.1.1)). Qed.

#[export] Instance no_less_dec {A} (less : A -> A -> bool) : RelDecision (no_less less).
Proof. intros a b. unfold no_less. apply _. Defined.

(** Merge sort is such a [sort.Sort]. *)
#[export] Instance merge_sorter {A} (less : A -> A -> bool) : StrictWeak less -> SorterLaws less (merge_sort (no_less less)).
Proof.
  intros Hw. assert (Total (no_less less)) by (intros a b; apply no_less_total, Hw). assert (Transitive (no_less less)) by (intros a b c; apply no_less_trans, Hw).
  split; intros l; [apply merge_sort_Permutation|apply (StronglySorted_merge_sort (no_less less))].
Qed.

(** * Objects that are returned *)

Lemma map_fst_imap {A B C} (f : nat -> C) (l : list (A * B)) : map fst (imap (fun k '(a, b) => (a, b, f k)) l) = l.
Proof. revert f. induction l as [|[a b] l IH]; intros f; [done|]. cbn [imap map fst]. f_equal. exact (IH (f ∘ S)). Qed.

Section found.
Context {Obj : Type} (DocID : Obj -> Z) (object : Z -> option Obj).

(** The object of a document if there is one and it is not another one that has the document's place *)
Definition stored (d : Z) : option Obj := match object d with Some o => if DocID o =? d then Some o else None | None => None end.

Lemma present_stored {E A} (id : E -> Z) (f : E -> A) (l : list E) :
  present DocID (map id l) (map f l) (map object (map id l)) = omap (fun e => (fun o => (o, f e)) <$> stored (id e)) l.
Proof.
  induction l as [|e l IH]; [done|]. cbn [map present omap list_omap]. rewrite IH. unfold stored. destruct (object (id e)) as [o|]; [|done]. by destruct (DocID o =? id e).
Qed.

(** [k] batches of [limit] documents are looked at: one more as long as there are documents left and fewer than [limit] objects were found *)
Definition batches_needed {E} (id : E -> Z) (limit : nat) (l : list E) (k : nat) : Prop :=
  (forall i, (i < k)%nat -> (i * limit < length l)%nat /\ (length (omap (fun e => stored (id e)) (take (i * limit) l)) < limit)%nat) /\
  ((length l <= k * limit)%nat \/ (limit <= length (omap (fun e => stored (id e)) (take (k * limit) l)))%nat).

Lemma length_omap_with {E A} (id : E -> Z) (f : E -> A) l : length (omap (fun e => (fun o => (o, f e)) <$> stored (id e)) l) = length (omap (fun e => stored (id e)) l).
Proof. induction l as [|e l IH]; [done|]. cbn [omap list_omap]. destruct (stored (id e)); cbn [fmap option_fmap option_map length]; [by f_equal|done]. Qed.

Lemma batches_needed_map {E} (id : E -> Z) limit l k : batches_needed id limit l k <-> batches_needed (fun d => d) limit (map id l) k.
Proof.
  unfold batches_needed. rewrite length_map. assert (H : forall n, omap (fun e => stored (id e)) (take n l) = omap (fun d => stored d) (take n (map id l))).
  { intros n. rewrite firstn_map. generalize (take n l). intros l'. induction l' as [|e l' IH]; [done|]. cbn [omap list_omap map]. by rewrite IH. }
  by setoid_rewrite H.
Qed.

Lemma object_batches_stored {E A} fetch (id : E -> Z) (f : E -> A) (l : list E) limit (found := omap (fun e => (fun o => (o, f e)) <$> stored (id e))) : (forall l, fetch l = Some (map object l)) -> (1 <= limit)%nat ->
  forall fuel j, (forall i, (i < j)%nat -> (i * limit < length l)%nat /\ (length (omap (fun e => stored (id e)) (take (i * limit) l)) < limit)%nat) -> (length l - j * limit < fuel)%nat ->
  exists k, batches_needed id limit l k /\
    object_batches DocID fetch fuel (map id l) (map f l) limit (Nat.min (j * limit) (length l)) (Nat.min (S j * limit) (length l)) (found (take (j * limit) l)) = Ok (found (take (k * limit) l)).
Proof.
  intros Hfetch Hl. induction fuel as [|fuel IH]; intros j Hj Hfuel; [lia|]. cbn [object_batches]. rewrite length_map. assert (Hcount : length (found (take (j * limit) l)) = length (omap (fun e => stored (id e)) (take (j * limit) l))) by apply length_omap_with. rewrite Hcount.
  destruct (Nat.ltb_spec (length (omap (fun e => stored (id e)) (take (j * limit) l))) limit) as [Hlt|Hge]; [destruct (Nat.ltb_spec (Nat.min (j * limit) (length l)) (length l)) as [Hs|Hs]|]; cbn [andb].
  - rewrite (proj2 (orb_false_iff _ _)) by (split; apply Nat.ltb_ge; lia). rewrite Hfetch. rewrite !skipn_map, !firstn_map, present_stored. fold found. set (startAt := Nat.min (j * limit) (length l)) in *. set (endAt := Nat.min (S j * limit) (length l)) in *.
    replace (found (take (j * limit) l) ++ found (take (endAt - startAt) (drop startAt l))) with (found (take (S j * limit) l)).
    + replace (Nat.min (endAt + limit) (length l)) with (Nat.min (S (S j) * limit) (length l)) by lia. apply IH; [|lia]. intros i Hi. destruct (decide (i = j)) as [->|Hne]; [split; [lia|done]|]. apply Hj. lia.
    + unfold found. rewrite <- omap_app. f_equal. assert (startAt = j * limit)%nat as -> by lia. replace (take (S j * limit) l) with (take endAt l) by (unfold endAt; destruct (Nat.min_spec (S j * limit) (length l)) as [[_ ->]|[? ->]]; [done|by rewrite !take_ge by lia]).
      rewrite take_take_drop. f_equal. lia.
  - exists j. split; [|done]. split; [done|left; lia].
  - exists j. split; [|done]. split; [done|by right].
Qed.

Context (ObjectID : Obj -> string) (sort_objects : list (Obj * Qc * option explanation) -> list (Obj * Qc * option explanation)).
Context (Hsort : SorterLaws (object_less ObjectID) sort_objects).

(** Every popped document gives its object with its score, if the object is still there. *)
Lemma getTopKObjects_correct fetch explain q out :
  (forall l, fetch l = Some (map object l)) -> popped q = Ok out ->
  exists results, getTopKObjects DocID fetch sort_objects explain q = Ok results /\ StronglySorted (no_less (object_less ObjectID)) results /\
    map fst results ≡ₚ omap (fun x => (fun o => (o, Dist x)) <$> stored (ID x)) out.
Proof.
  intros Hf Hp. unfold getTopKObjects. rewrite Hp. cbn [obind]. rewrite Hf, !length_map, Nat.ltb_irrefl. eexists. split; [done|]. split; [apply sorter_sorted|].
  rewrite (sorter_perm (SorterLaws := Hsort)), present_stored. by rewrite map_fst_imap.
Qed.

Lemma getObjectsAndScores_correct fetch (entries : list (Z * Qc * option explanation)) limit :
  (forall l, fetch l = Some (map object l)) -> (limit <= length entries)%nat -> (entries <> [] -> 1 <= limit)%nat ->
  exists k results, getObjectsAndScores DocID fetch sort_objects entries limit = Ok results /\
    StronglySorted (no_less (object_less ObjectID)) (rev results) /\
    results ≡ₚ omap (fun e => (fun o => (o, e.1.2, e.2)) <$> stored e.1.1) (take (k * limit) (rev entries)) /\ batches_needed (fun e => e.1.1) limit (rev entries) k.
Proof.
  intros Hf Hl Hne. unfold getObjectsAndScores. rewrite <- !map_rev, length_map, length_rev. destruct entries as [|e0 es]; [cbn in Hl; replace limit with 0%nat by lia|].
  - exists 0%nat, (rev (sort_objects [])). split; [done|]. rewrite rev_involutive. split; [apply sorter_sorted|]. split; [|split; [intros i Hi; lia|by left]]. rewrite <- Permutation_rev. apply sorter_perm.
  - set (entries := e0 :: es) in *. assert (H1 : (1 <= limit)%nat) by by apply Hne.
    destruct (object_batches_stored fetch (fun e => e.1.1) (fun e : Z * Qc * option explanation => (e.1.2, e.2)) (rev entries) limit Hf H1 (S (length entries)) 0) as (k & Hk & E); [intros i Hi; lia|rewrite length_rev; lia|].
    cbn [Nat.mul Nat.add] in E. rewrite Nat.add_0_r, Nat.min_0_l, length_rev, Nat.min_l, take_0 in E by done. change (omap _ []) with (@nil (Obj * (Qc * option explanation))) in E. rewrite E. cbn [obind]. exists k. eexists. split; [done|]. rewrite rev_involutive. split; [apply sorter_sorted|]. split; [|exact Hk].
    rewrite <- Permutation_rev, sorter_perm. apply reflexive_eq. generalize (take (k * limit) (rev entries)). intros l. induction l as [|e l IH]; [done|].
    cbn [omap list_omap]. destruct (stored e.1.1); cbn [fmap option_fmap option_map map]; [by rewrite IH|exact IH].
Qed.
End found.

(** ** Segments and properties *)

Section results.
Context (order : gmap Z (Qc * list (option DocPointerWithScore)) -> list (Z * (Qc * list (option DocPointerWithScore)))).
Context (order_perm : forall m, order m ≡ₚ map_to_list m).

(** The scores of a document in the order they come *)
Definition scores_of (all : list entry) (id : Z) : list Qc := map (fun e => e.1.2) (filter (fun e : entry => e.1.1 = id) all).

Definition aggregate (aggregateFn : Qc -> Qc -> Qc) (l : list Qc) : option Qc := match l with [] => None | s :: l => Some (foldl aggregateFn s l) end.

Lemma combine_lookup aggregateFn singleProp all id :
  fst <$> foldl (combine_entry aggregateFn singleProp) ∅ all !! id = aggregate aggregateFn (scores_of all id).
Proof.
  induction all as [|[[i s] x] all IH] using rev_ind; [done|]. rewrite foldl_snoc. unfold combine_entry at 1. unfold scores_of. rewrite filter_app, map_app. fold (scores_of all id). set (m := foldl _ ∅ all) in *.
  destruct (decide (i = id)) as [->|Hne].
  - rewrite filter_cons_True by done. cbn [map filter list_filter fst snd]. destruct (m !! id) as [[old ex]|] eqn:E; rewrite lookup_insert_eq; cbn in IH |- *.
    + destruct (scores_of all id) as [|s0 l]; [done|]. injection IH as ->. cbn [aggregate app]. by rewrite foldl_app.
    + destruct (scores_of all id); [done|done].
  - rewrite filter_cons_False by done. cbn [map filter list_filter]. rewrite app_nil_r, <- IH. destruct (m !! i) as [[old ex]|]; by rewrite lookup_insert_ne.
Qed.

Lemma scores_of_unique (l : list (Z * (Qc * list (option DocPointerWithScore)))) id : NoDup l.*1 ->
  scores_of (map (fun '(i, (s, x)) => (i, s, x)) l) id = option_list (fst <$> (list_to_map l : gmap Z _) !! id).
Proof.
  induction l as [|[i [s x]] l IH]; [done|]. cbn [fmap list_fmap fst]. intros [Hn Hnd]%NoDup_cons. unfold scores_of. cbn [map]. rewrite list_to_map_cons. specialize (IH Hnd). unfold scores_of in IH.
  destruct (decide (i = id)) as [->|Hne].
  - rewrite filter_cons_True, lookup_insert_eq by done. cbn [map]. rewrite IH, not_elem_of_list_to_map_1 by done. done.
  - rewrite filter_cons_False, lookup_insert_ne by done. exact IH.
Qed.

Lemma combined_entries aggregateFn singleProp all :
  NoDup (map (fun e => e.1.1) (combineResultsForMultiProp order all aggregateFn singleProp)) /\
  forall id, scores_of (combineResultsForMultiProp order all aggregateFn singleProp) id = option_list (aggregate aggregateFn (scores_of all id)).
Proof.
  unfold combineResultsForMultiProp. set (m := foldl _ ∅ all). assert (Hnd : NoDup (order m).*1) by (rewrite order_perm; apply NoDup_fst_map_to_list). split.
  - rewrite map_map. rewrite (map_ext _ fst) by (by intros [id [s x]]). exact Hnd.
  - intros id. rewrite scores_of_unique by done. rewrite (list_to_map_proper (M := gmap Z) (order m) (map_to_list m) Hnd (order_perm m)), list_to_map_to_list. unfold m. by rewrite combine_lookup.
Qed.

Lemma scores_of_concat (ls : list (list entry)) id : scores_of (concat ls) id = concat (map (fun l => scores_of l id) ls).
Proof. induction ls as [|l ls IH]; [done|]. cbn [map concat]. rewrite <- IH. unfold scores_of. by rewrite filter_app, map_app. Qed.

Lemma aggregate_last l : aggregate (fun _ b => b) l = last l.
Proof. destruct l as [|s l]; [done|]. cbn [aggregate]. revert s. induction l as [|x l IH]; intros s; [done|]. cbn [foldl]. rewrite IH. by destruct l. Qed.

(** Every document once, with the sum over the properties of the score that the last of the property's segments that has it gives *)
Lemma combine_properties_results_correct all :
  NoDup (map (fun e => e.1.1) (combine_properties_results order all)) /\
  forall id, scores_of (combine_properties_results order all) id = option_list (aggregate Qcplus (omap (fun prop => last (scores_of (concat prop) id)) all)).
Proof.
  unfold combine_properties_results. split; [apply combined_entries|]. intros id. rewrite (proj2 (combined_entries _ _ _)), scores_of_concat. do 2 f_equal. induction all as [|prop all IH]; [done|].
  cbn [map concat omap list_omap]. rewrite (proj2 (combined_entries _ _ _)), aggregate_last, IH. by destruct (last (scores_of (concat prop) id)).
Qed.

(** What a document scores: over the properties, the score that the last of the property's segments that has it gives *)
Definition total_score (all : list (list (list entry))) (id : Z) : option Qc := aggregate Qcplus (omap (fun prop => last (scores_of (concat prop) id)) all).

(** [outranks all a b]: [a] has the higher score, or the same and the smaller id *)
Definition outranks (all : list (list (list entry))) (a b : Z) : Prop :=
  exists s t, total_score all a = Some s /\ total_score all b = Some t /\ ((t < s)%Qc \/ (s = t /\ a < b)).

Lemma combined_score all id score x : (id, score, x) ∈ combine_properties_results order all -> total_score all id = Some score.
Proof.
  intros Hin. destruct (combine_properties_results_correct all) as [_ Hs]. specialize (Hs id). fold (total_score all id) in Hs.
  assert (Hscore : score ∈ scores_of (combine_properties_results order all) id).
  { unfold scores_of. apply list_elem_of_fmap. exists (id, score, x). split; [done|]. by apply list_elem_of_filter. }
  rewrite Hs in Hscore. destruct (total_score all id) as [s|]; [|by apply not_elem_of_nil in Hscore]. by apply list_elem_of_singleton in Hscore as ->.
Qed.

Lemma combined_ids all id : id ∈ map (fun e => e.1.1) (combine_properties_results order all) <-> is_Some (total_score all id).
Proof.
  split; [intros ([[i s] x] & -> & Hin)%list_elem_of_fmap; exists s; by eapply combined_score|]. destruct (combine_properties_results_correct all) as [_ Hs]. specialize (Hs id). fold (total_score all id) in Hs.
  intros [s E]. rewrite E in Hs. assert (Hin : s ∈ scores_of (combine_properties_results order all) id) by (rewrite Hs; apply list_elem_of_here).
  apply list_elem_of_fmap in Hin as (e & _ & [Hid Hin]%list_elem_of_filter). apply list_elem_of_fmap. by exists e.
Qed.

(** Sorted by score and id, the entries are a ranking of the documents. *)
Lemma sorted_outranks all l : Forall (fun e : entry => total_score all e.1.1 = Some e.1.2) l -> NoDup (map (fun e => e.1.1) l) -> StronglySorted (no_less score_less) l ->
  StronglySorted (fun a b => outranks all b a) (map (fun e => e.1.1) l).
Proof.
  intros Hs Hnd Hl. induction Hl as [|e l Hl IH Hle]; cbn [map]; [constructor|]. apply Forall_cons in Hs as [He Hs]. cbn [map] in Hnd. apply NoDup_cons in Hnd as [Hnin Hnd]. constructor; [by apply IH|].
  apply Forall_forall. intros i (f & -> & Hf)%list_elem_of_fmap. pose proof (proj1 (Forall_forall _ _) Hs f Hf) as Hfs. pose proof (proj1 (Forall_forall _ _) Hle f Hf) as Hno. cbn beta in Hfs. exists (f.1.2), (e.1.2). split_and!; [done|done|].
  unfold no_less, score_less, by_score, feq, flt, Qc_distance in Hno. destruct (bool_decide_reflect (f.1.2 = e.1.2)) as [E|E].
  - right. split; [done|]. apply Z.ltb_ge in Hno. assert (f.1.1 <> e.1.1); [|lia]. intros Eid. apply Hnin. rewrite <- Eid. by apply (list_elem_of_fmap_2 (fun e => e.1.1)).
  - left. apply bool_decide_eq_false in Hno. destruct (Qc_dec (f.1.2) (e.1.2)) as [[?|?]|?]; done.
Qed.
End results.

(** * Claims *)

(** The explanations of a keyword search are given to the wrong objects when an object is gone: with the object of the worst document missing, the
    next one is returned with its own score but with the explanation of the missing document. *)
Lemma explanations_shifted {Obj} (DocID : Obj -> Z) ObjectID fetch sort_objects q x y rest o objs :
  SorterLaws (object_less ObjectID) sort_objects ->
  popped q = Ok (x :: y :: rest) -> fetch (map ID (x :: y :: rest)) = Some (None :: Some o :: objs) -> DocID o = ID y -> length objs = length rest ->
  exists results, getTopKObjects DocID fetch sort_objects true q = Ok results /\ (o, Dist y, Some (Value x)) ∈ results.
Proof.
  intros Hs Eq Ef Ho Hlen. unfold getTopKObjects. rewrite Eq. cbn [obind]. rewrite Ef. cbn [length]. rewrite Hlen, Nat.ltb_irrefl. cbn [map present]. rewrite (proj2 (Z.eqb_eq _ _) Ho).
  eexists. split; [done|]. rewrite (sorter_perm (SorterLaws := Hs)). cbn [imap]. apply list_elem_of_here.
Qed.

(** Two documents with an explanation each *)
Definition toy_heap : Queue Qc explanation :=
  MkQueue [MkItem 1 1%Qc false [Some (MkDoc 1 1 1)]; MkItem 2 2%Qc false [Some (MkDoc 2 2 2)]] (less NewMinWithId).

(** Objects named by one string each *)
Definition toy_name (o : Z) : string := if o =? 2 then "b" else "a".
Definition toy_sort : list (Z * Qc * option explanation) -> list (Z * Qc * option explanation) := merge_sort (no_less (object_less toy_name)).

Lemma explanations_shifted_witness :
  exists results, getTopKObjects id (fun _ => Some [None; Some 2]) toy_sort true toy_heap = Ok results /\ (2, 2%Qc, Some [Some (MkDoc 1 1 1)]) ∈ results.
Proof.
  apply (explanations_shifted id toy_name (fun _ => Some [None; Some 2]) toy_sort toy_heap (MkItem 1 1%Qc false [Some (MkDoc 1 1 1)]) (MkItem 2 2%Qc false [Some (MkDoc 2 2 2)]) [] 2 []);
    [apply merge_sorter, object_less_weak|vm_compute; reflexivity..].
Defined.

(** With the scores of the documents, the objects of entries are those of their documents. *)
Lemma scored_objects {Obj} (DocID : Obj -> Z) object all (l : list entry) : Forall (fun e => total_score all e.1.1 = Some e.1.2) l ->
  map fst (omap (fun e => (fun o => (o, e.1.2, e.2)) <$> stored DocID object e.1.1) (map (fun '(id, score, x) => (id, score, Some x)) l)) =
  omap (fun d => (fun o => (o, default 0%Qc (total_score all d))) <$> stored DocID object d) (map (fun e => e.1.1) l).
Proof.
  induction 1 as [|[[i s] x] l Hx _ IH]; [done|]. cbn [map omap list_omap fst snd]. cbn [fst snd] in Hx. rewrite Hx. destruct (stored DocID object i); cbn [fmap option_fmap option_map map fst default]; [by rewrite <- IH|exact IH].
Qed.

(** The batches that are looked at are the same when a limit beyond the number of documents is cut to it. *)
Lemma batches_needed_capped {Obj} (DocID : Obj -> Z) object limit (l : list Z) k : (1 <= limit)%nat -> batches_needed DocID object (fun d => d) (Nat.min limit (length l)) l k ->
  exists k', batches_needed DocID object (fun d => d) limit l k' /\ take (k' * limit) l = take (k * Nat.min limit (length l)) l.
Proof.
  intros Hl Hk. destruct (Nat.le_ge_cases limit (length l)) as [Hle|Hge]; [rewrite Nat.min_l in * by done; by exists k|]. rewrite Nat.min_r in * by done. destruct l as [|d l].
  { exists 0%nat. split; [split; [intros i Hi; lia|left; cbn; lia]|by rewrite !take_nil]. }
  set (ds := d :: l) in *. assert (Hpos : (0 < length ds)%nat) by (cbn; lia). destruct Hk as [Hbefore Hend]. assert (k = 1%nat) as ->.
  { destruct k as [|[|k]]; [|done|pose proof (proj1 (Hbefore 1%nat ltac:(lia))); lia]. destruct Hend as [Hend|Hend]; [lia|]. cbn [Nat.mul] in Hend. rewrite take_0 in Hend. cbn in Hend. lia. }
  exists 1%nat. split; [|by rewrite !take_ge by lia]. split; [|left; lia]. intros i Hi. assert (i = 0)%nat as -> by lia. split; [lia|]. cbn [Nat.mul]. rewrite take_0. cbn. lia.
Qed.

(** C18: the results of several segments and properties are put together to the best objects.  Every document that some segment gives is ranked
    once, by the sum over the properties of the score that the last of the property's segments gives it.  Documents are looked up from the best on in batches of [limit],
    one batch more exactly as long as there are documents left and fewer than [limit] objects have been found; what is returned
    are the objects of all documents that were looked up, with their scores, best first and objects of the same score by their names. *)
Theorem combined_results_best {Obj} order (DocID : Obj -> Z) ObjectID fetch object sort_scores sort_objects all limit :
  (forall m, order m ≡ₚ map_to_list m) -> SorterLaws score_less sort_scores -> SorterLaws (object_less ObjectID) sort_objects -> (forall l, fetch l = Some (map object l)) -> (1 <= limit)%nat ->
  exists ranking k results, combineResults order DocID fetch sort_scores sort_objects all limit = Ok results /\
    (forall d, d ∈ ranking <-> is_Some (total_score all d)) /\ StronglySorted (outranks all) ranking /\ batches_needed DocID object (fun d => d) limit ranking k /\
    map fst results ≡ₚ omap (fun d => (fun o => (o, default 0%Qc (total_score all d))) <$> stored DocID object d) (take (k * limit) ranking) /\
    StronglySorted (no_less (object_less ObjectID)) (rev results).
Proof.
  intros Ho Hss Hso Hf Hl. unfold combineResults. set (sorted := sort_scores _). assert (Hperm : sorted ≡ₚ combine_properties_results order all) by apply sorter_perm.
  set (entries := map (fun '(id, score, x) => (id, score, Some x)) sorted). assert (Hlen : length entries = length sorted) by apply length_map.
  assert (Hscore : Forall (fun e : entry => total_score all e.1.1 = Some e.1.2) sorted) by (apply Forall_forall; intros [[i s] x] Hin; rewrite Hperm in Hin; by apply (combined_score order Ho) in Hin).
  destruct (getObjectsAndScores_correct DocID object ObjectID sort_objects Hso fetch entries (Nat.min limit (length sorted)) Hf) as (k0 & results & E & Hsorted & Hres & Hk).
  { lia. }
  { intros Hne. destruct sorted; [done|]. cbn [length]. lia. }
  set (ranking := rev (map (fun e : entry => e.1.1) sorted)). assert (Hids : map (fun e : Z * Qc * option explanation => e.1.1) (rev entries) = ranking).
  { unfold ranking, entries. rewrite map_rev, map_map. f_equal. apply map_ext. by intros [[i s] x]. }
  rewrite batches_needed_map, Hids in Hk. assert (Hr : length ranking = length sorted) by (unfold ranking; by rewrite length_rev, length_map). rewrite <- Hr in Hk.
  destruct (batches_needed_capped DocID object limit ranking k0 Hl Hk) as (k & Hk' & Htake). exists ranking, k, results. split; [exact E|]. split_and!; [| |exact Hk'| |exact Hsorted].
  - intros d. unfold ranking. rewrite list_elem_of_In, <- in_rev, <- list_elem_of_In, <- (combined_ids order Ho all d). by rewrite Hperm.
  - apply (StronglySorted_rev (fun a b => outranks all b a)), sorted_outranks; [done| |apply sorter_sorted]. rewrite Hperm. apply (combine_properties_results_correct order Ho).
  - rewrite Htake, Hr, Hres. apply reflexive_eq. set (n := (k0 * _)%nat). unfold entries, ranking. rewrite <- !map_rev, !firstn_map. apply scored_objects, Forall_forall. intros e He.
    assert (Hin : e ∈ sorted) by (apply list_elem_of_In, in_rev, list_elem_of_In; rewrite <- (take_drop n (rev sorted)); apply elem_of_app; by left).
    exact (proj1 (Forall_forall _ _) Hscore e Hin).
Qed.

(** Two properties; the second segment of the first one has document 7 again. *)
Definition toy_results : list (list (list entry)) := [[[(7, 2%Qc, []); (8, 1%Qc, [])]; [(7, 1%Qc, [])]]; [[(8, 1%Qc, [])]]].

Lemma combined_results_best_witness :
  exists ranking k results, combineResults map_to_list id (fun l => Some (map Some l)) (merge_sort (no_less score_less)) toy_sort toy_results 2 = Ok results /\
    (forall d, d ∈ ranking <-> is_Some (total_score toy_results d)) /\ StronglySorted (outranks toy_results) ranking /\ batches_needed id Some (fun d => d) 2 ranking k /\
    map fst results ≡ₚ omap (fun d => (fun o => (o, default 0%Qc (total_score toy_results d))) <$> stored id Some d) (take (k * 2) ranking) /\
    StronglySorted (no_less (object_less toy_name)) (rev results).
Proof.
  apply (combined_results_best map_to_list id toy_name (fun l => Some (map Some l)) Some (merge_sort (no_less score_less)) toy_sort toy_results 2).
  - reflexivity.
  - apply merge_sorter, score_less_weak.
  - apply merge_sorter, object_less_weak.
  - reflexivity.
  - lia.
Defined.

Example toy_combined : combineResults map_to_list id (fun l => Some (map Some l)) (merge_sort (no_less score_less)) toy_sort toy_results 2 = Ok [(8, 1 + 1, Some []); (7, 1, Some [])]%Qc.
Proof. by vm_compute. Qed.

(** More objects than the limit: one of the first two documents is gone, and the next batch is kept whole. *)
Example batch_overshoots :
  (let! results := getObjectsAndScores id (fun l => Some (map (fun d => if d =? 4 then None else Some d) l)) toy_sort (map (fun d => (d, Qc_of_Z d, None)) [1; 2; 3; 4]) 2 in Ok (map (fun e => e.1.1) results)) = Ok [3; 2; 1].
Proof. by vm_compute. Qed.

(** The comment on the segments speaks of the highest score; the last one is taken. *)
Example last_segment_wins : combine_properties_results map_to_list [[[(7, 2%Qc, [])]; [(7, 1%Qc, [])]]] = [(7, 1%Qc, [])].
Proof. by vm_compute. Qed.
