(* ===== verification/KeywordSearch.v ===== *)
(** * A keyword search

    [wandFromStats] of [adapters/repos/db/inverted/bm25_searcher.go]: the words that a query asks for, the terms that are built of their documents,
    the search for the best ones, and their objects.  The words, split up by the tokenizers, are given; reading documents and objects from their
    buckets is an argument, and so is the order of Go's maps.  The objects that are returned are those that scoring every document would give. *)

From Stdlib Require Import QArith Qcanon.
From stdpp Require Import strings numbers sorting.
From S2P Require Import Prelude PriorityQueue Bm25Terms PostingMerge TopK Wand CreateTerm SearchResults.

#[local] Open Scope Z_scope.

(** ** The words of a query *)

Definition SearchOperatorAnd : string := "OPERATOR_AND".
Definition SearchOperatorAndCross : string := "OPERATOR_AND_CROSS".
Definition IsAndOperator (operator : string) : bool := bool_decide (operator = SearchOperatorAnd) || bool_decide (operator = SearchOperatorAndCross).

Record queryTerms : Type := MkQueryTerms {
  propNamesByTokenization : gmap string (list string);
  queryTermsByTokenization : gmap string (list string);
  duplicateBoostsByTokenization : gmap string (list Z);
  propertyBoosts : gmap string Qc;
  crossPropQueryTerms : list string;
  crossPropDuplicateBoosts : list Z
}.

(** A word that is asked for, with the properties to look into; its [termId] is its position in the list of requests. *)
Record termListRequest : Type := MkTermRequest { tr_term : string; tr_duplicateTextBoost : Z; tr_propertyNames : list string }.

(** The requests of some words; [duplicateBoosts] is read at the word's index. *)
Fixpoint requests_of (terms : list string) (queryTermIndex : nat) (duplicateBoosts : list Z) (propNames : list string) : run_t (list termListRequest) :=
  match terms with
  | [] => Ok []
  | queryTerm :: terms =>
      match duplicateBoosts !! queryTermIndex with
      | None => Panic
      | Some boost => let! rest := requests_of terms (S queryTermIndex) duplicateBoosts propNames in Ok (MkTermRequest queryTerm boost propNames :: rest)
      end
  end.

Definition MaxInt64 : Z := 2 ^ 63 - 1.

(** [slices.Sort] of names *)
Definition sort_names : list string -> list string := merge_sort (no_less String.ltb).

Section requests.
(** [order]: that of Go's map; [SearchOperator] and [MinimumOrTokensMatch]: what the query asks for *)
Context (order : gmap string (list string) -> list (string * list string)) (SearchOperator : string) (MinimumOrTokensMatch : Z).

(** The loop over the tokenizations: their requests, and the least number of words that one of them wants *)
Fixpoint tokenization_requests (groups : list (string * list string)) (qterms : queryTerms) (allRequests : list termListRequest) (minimumOrTokensMatch : Z) : run_t (list termListRequest * Z) :=
  match groups with
  | [] => Ok (allRequests, minimumOrTokensMatch)
  | (tokenization, propNames) :: groups =>
      if (0 <? length propNames)%nat then
        let tokenTerms := default [] (queryTermsByTokenization qterms !! tokenization) in
        let! requests := requests_of tokenTerms 0 (default [] (duplicateBoostsByTokenization qterms !! tokenization)) propNames in
        let byTokenization := if IsAndOperator SearchOperator then Z.of_nat (length tokenTerms) else MinimumOrTokensMatch in
        tokenization_requests groups qterms (allRequests ++ requests) (if byTokenization <? minimumOrTokensMatch then byTokenization else minimumOrTokensMatch)
      else tokenization_requests groups qterms allRequests minimumOrTokensMatch
  end.

(** All requests and how many of them a document has to match *)
Definition all_requests (qterms : queryTerms) : run_t (list termListRequest * Z) :=
  let groups := order (propNamesByTokenization qterms) in
  if (0 <? length (crossPropQueryTerms qterms))%nat then
    let! requests := requests_of (crossPropQueryTerms qterms) 0 (crossPropDuplicateBoosts qterms) (sort_names (concat (map snd groups))) in
    Ok (requests, Z.of_nat (length (crossPropQueryTerms qterms)))
  else tokenization_requests groups qterms [] MaxInt64.
End requests.

(** ** The search *)

(** Where the context is asked whether it is done *)
Variant checkpoint : Type := AfterLists (termId : nat) | AfterTerms | AtIteration (iterations : Z) | AfterWand.

Section search.
Context (Log : Qc -> Qc) (cfg : BM25Config) (sort : list Term -> list Term) (cancelled : checkpoint -> bool).
(** The documents of a word in a property, with a boost; [None] is an error *)
Context (DocPointerWithScoreList : string -> string -> Qc -> option (list DocPointerWithScore)).

(** The buckets of the properties, read before the term is built; a property without a boost has boost 0 in Go's map. *)
Definition read_properties (boosts : gmap string Qc) (query : string) (propertyNames : list string) : option (list (list DocPointerWithScore)) :=
  mapM (fun propName => DocPointerWithScoreList propName query (default 0%Qc (boosts !! propName))) propertyNames.

(** A panic of the goroutine is returned as an error. *)
Definition recover_panic {A} (m : run_t A) : run_t A := match m with Panic => Err ErrInternal | _ => m end.

(** The term of every request; the one of request [i] has that index. *)
Fixpoint create_terms (N : Qc) (filterDocIds : option (gset Z)) (boosts : gmap string Qc) (requests : list termListRequest) (i : nat) : run_t (list Term) :=
  match requests with
  | [] => Ok []
  | request :: requests =>
      let! t :=
        match read_properties boosts (tr_term request) (tr_propertyNames request) with
        | None => Err ErrPostings
        | Some lists =>
            if cancelled (AfterLists i) then Err ErrCancelled
            else recover_panic (createTerm Log cfg N filterDocIds (tr_term request) i lists (tr_duplicateTextBoost request))
        end in
      let! ts := create_terms N filterDocIds boosts requests (S i) in
      Ok (match t with None => ts | Some t => t :: ts end)
  end.

(** From the requests to the queue; without a limit the sum of the lengths of all lists is one. *)
Definition search_terms (N averagePropLength : Qc) (filterDocIds : option (gset Z)) (boosts : gmap string Qc) (requests : list termListRequest) (limit : Z) (additionalExplanations : bool) (minimumOrTokensMatch : Z) :
    run_t (Queue Qc (list (option DocPointerWithScore))) :=
  let! results := create_terms N filterDocIds boosts requests 0 in
  if cancelled AfterTerms then Err ErrCancelled
  else
    let limit := if limit =? 0 then Z.of_nat (sum_list_with (fun t => length (Data t)) results) else limit in
    let! topKHeap := DoWand sort (fun i => cancelled (AtIteration i)) limit averagePropLength additionalExplanations minimumOrTokensMatch (MkTerms results (length requests)) in
    if cancelled AfterWand then Err ErrCancelled else Ok topKHeap.

Context {Obj : Type} (DocID : Obj -> Z) (ObjectsByDocIDWithEmpty : list Z -> option (list (option Obj))).
Context (sort_objects : list (Obj * Qc * option explanation) -> list (Obj * Qc * option explanation)).
Context (order : gmap string (list string) -> list (string * list string)).

Definition wandFromStats (filterDocIds : option (gset Z)) (SearchOperator : string) (MinimumOrTokensMatch : Z) (additionalExplanations : bool) (limit : Z) (qterms : queryTerms) (N averagePropLength : Qc) :
    run_t (list (Obj * Qc * option explanation)) :=
  let! (allRequests, minimumOrTokensMatch) := all_requests order SearchOperator MinimumOrTokensMatch qterms in
  let! topKHeap := search_terms N averagePropLength filterDocIds (propertyBoosts qterms) allRequests limit additionalExplanations minimumOrTokensMatch in
  getTopKObjects DocID ObjectsByDocIDWithEmpty sort_objects additionalExplanations topKHeap.
End search.

(** ** What a query asks for *)

(** A word with the lists of its documents, one for each property, and how often the query has it *)
Record request : Type := MkRequest { rq_term : string; rq_lists : list (list DocPointerWithScore); rq_boost : Z }.

Section reference.
Context (Log : Qc -> Qc) (cfg : BM25Config) (N avg : Qc) (filterDocIds : option (gset Z)) (minMatch : Z).

(** The ids of the documents that have a word, and the score it gives them: the frequencies and lengths of all properties added up *)
Definition word_ids (rq : request) : list Z := map Id (docs_of filterDocIds (rq_lists rq)).

Definition word_score (rq : request) (d : Z) : Qc :=
  let docs := docs_of filterDocIds (rq_lists rq) in
  if decide (d ∈ word_ids rq) then (tf cfg avg (MkDoc d (sum_of Frequency docs d) (sum_of PropLength docs d)) * word_idf Log N filterDocIds (rq_lists rq) (rq_boost rq))%Qc else 0%Qc.

Definition query_score (requests : list request) (d : Z) : Qc := qsum (map (fun rq => word_score rq d) requests).
Definition query_matched (requests : list request) (d : Z) : Z := Z.of_nat (length (filter (fun rq => d ∈ word_ids rq) requests)).
Definition wanted (requests : list request) (d : Z) : Prop := 1 <= query_matched requests d /\ minMatch <= query_matched requests d.
Definition ranked_below (requests : list request) (a b : Z) : Prop :=
  (query_score requests a < query_score requests b)%Qc \/ (query_score requests a = query_score requests b /\ b < a).

(** What a search for [limit] documents has to find: [ids] are the best ones, the worst first; limit 0 asks for all of them. *)
Record top_documents (requests : list request) (limit : Z) (ids : list Z) : Prop := {
  td_wanted : Forall (wanted requests) ids;
  td_ranked : StronglySorted (ranked_below requests) ids;
  td_limit : 1 <= limit -> Z.of_nat (length ids) <= limit;
  td_left_out d : wanted requests d -> d ∉ ids -> 1 <= limit /\ Z.of_nat (length ids) = limit /\ Forall (ranked_below requests d) ids
}.

Record request_ok (rq : request) : Prop := { ro_lists : lists_ok (rq_lists rq); ro_boost : 0 <= rq_boost rq }.

Context (Log_nonneg : forall x, (1 ≤ x)%Qc -> (0 ≤ Log x)%Qc) (cfg_K1 : (0 ≤ K1 cfg)%Qc) (cfg_B : (0 ≤ B cfg /\ B cfg ≤ 1)%Qc).

Lemma created_score rq t d : fresh_term t -> combined [docs_of filterDocIds (rq_lists rq)] (Data t) -> idf t = word_idf Log N filterDocIds (rq_lists rq) (rq_boost rq) -> propertyBoost t = 1%Qc -> config t = cfg ->
  term_score avg t d = word_score rq d /\ (is_Some (posting t d) <-> d ∈ word_ids rq).
Proof.
  intros Hf [Hs Hsum Hids] Hi Hb Hcfg. cbn [concat] in Hsum, Hids. rewrite app_nil_r in Hids. pose proof (ft_ok t Hf) as Ho. assert (Hdoc : forall p, p ∈ Data t -> posting t (Id p) = Some p).
  { intros p [i Hp]%list_elem_of_lookup. apply (posting_Some t (Id p) p Ho). split; [done|]. exists (Z.of_nat i). unfold doc_at. rewrite (proj2 (Z.ltb_ge _ _)) by lia. by rewrite Nat2Z.id. }
  assert (Hin : is_Some (posting t d) <-> d ∈ word_ids rq).
  { unfold word_ids. rewrite <- Hids. split.
    - intros [p [<- [i Hi']]%(posting_Some t d p Ho)]. apply list_elem_of_fmap_2. unfold doc_at in Hi'. destruct (i <? 0); [done|]. by eapply list_elem_of_lookup_2.
    - intros (p & -> & Hp)%list_elem_of_fmap. exists p. by apply Hdoc. }
  split; [|done]. unfold term_score, word_score. destruct (decide (d ∈ word_ids rq)) as [Hd|Hd].
  - apply Hin in Hd as [p Hp]. rewrite Hp. pose proof (proj1 (posting_Some t d p Ho) Hp) as [Hid [i Hi']]. assert (Hpd : p ∈ Data t) by (unfold doc_at in Hi'; destruct (i <? 0); [done|]; by eapply list_elem_of_lookup_2).
    rewrite Hi, Hb, Hcfg, Qcmult_1_r. f_equal. unfold tf. cbn [Frequency PropLength].
    rewrite <- (app_nil_r (docs_of filterDocIds (rq_lists rq))), <- Hid, <- !Hsum by done. by rewrite !(single_id _ (Data t) p Hs Hpd).
  - destruct (posting t d) as [p|] eqn:E; [|done]. exfalso. apply Hd, Hin. by eexists.
Qed.

(** The documents that the buckets have for a request *)
Context (cancelled : checkpoint -> bool) (read : string -> string -> Qc -> option (list DocPointerWithScore)) (postings : string -> string -> Qc -> list DocPointerWithScore) (boosts : gmap string Qc).
Context (Hcancelled : forall c, cancelled c = false) (Hread : forall p w b, read p w b = Some (postings p w b)).

Definition asked (tr : termListRequest) : request :=
  MkRequest (tr_term tr) (map (fun propName => postings propName (tr_term tr) (default 0%Qc (boosts !! propName))) (tr_propertyNames tr)) (tr_duplicateTextBoost tr).

Lemma read_asked tr : read_properties read boosts (tr_term tr) (tr_propertyNames tr) = Some (rq_lists (asked tr)).
Proof. unfold read_properties, asked. cbn [rq_lists]. induction (tr_propertyNames tr) as [|propName names IH]; [done|]. cbn [mapM map]. rewrite Hread. cbn [mbind option_bind]. by rewrite IH. Qed.

Lemma create_terms_correct : forall trs (requests := map asked trs) i, Forall request_ok requests ->
  exists T, create_terms Log cfg cancelled read N filterDocIds boosts trs i = Ok T /\ Forall fresh_term T /\ Forall (fun t => Data t <> []) T /\ Forall (fun t => (queryTermIndex t < i + length trs)%nat) T /\
    forall d, doc_score avg T d = query_score requests d /\ matched T d = query_matched requests d.
Proof.
  induction trs as [|tr trs IH]; cbn [map]; intros i Hok; cbn [create_terms]; [exists []; split_and!; done|]. set (rq := asked tr) in *. set (requests := map asked trs) in *. apply Forall_cons in Hok as [[Hl Hb] Hok].
  rewrite read_asked, Hcancelled. fold rq. change (tr_term tr) with (rq_term rq). change (tr_duplicateTextBoost tr) with (rq_boost rq).
  destruct (createTerm_correct Log cfg N filterDocIds Log_nonneg cfg_K1 cfg_B (rq_term rq) i (rq_lists rq) (rq_boost rq) Hl Hb) as (r & -> & Hr). cbn [recover_panic obind].
  destruct (IH (S i) Hok) as (T & -> & HT & HD & HI & Hsc). cbn [obind]. assert (HI' : Forall (fun t => (queryTermIndex t < i + length (tr :: trs))%nat) T).
  { eapply Forall_impl; [exact HI|]. intros t Ht. cbn [length]. cbn beta in Ht. lia. }
  assert (Hcons : forall d, query_score (rq :: requests) d = (word_score rq d + query_score requests d)%Qc /\
    query_matched (rq :: requests) d = (if decide (d ∈ word_ids rq) then 1 else 0) + query_matched requests d).
  { intros d. split; [done|]. unfold query_matched. rewrite filter_cons. destruct (decide _); cbn [length]; lia. }
  destruct r as [t|].
  - destruct Hr as (Hf & Hne & Hc & Hi & Hbo & Hcfg & Hidx). exists (t :: T). split; [done|]. split; [by constructor|]. split; [|split].
    + by constructor.
    + constructor; [rewrite Hidx; cbn [length]; lia|done].
    + intros d. destruct (created_score rq t d Hf Hc Hi Hbo Hcfg) as [Es Ep]. destruct (Hsc d) as [E1 E2], (Hcons d) as [-> ->]. rewrite matched_cons, E2. split; [by rewrite <- E1, <- Es|].
      f_equal. destruct (decide (is_Some (posting t d))) as [H1|H1], (decide (d ∈ word_ids rq)) as [H2|H2]; [done| | |done]; exfalso; [apply H2|apply H1]; by apply Ep.
  - exists T. split_and!; [done..|]. intros d. destruct (Hsc d) as [-> ->], (Hcons d) as [-> ->]. assert (Hnil : d ∉ word_ids rq) by (unfold word_ids; rewrite Hr; by apply not_elem_of_nil).
    unfold word_score. rewrite !decide_False by done. by rewrite Qcplus_0_l.
Qed.
End reference.

(** * The search *)

Lemma empty_search sort cancelled limit avg explain minMatch c : SortLaws sort -> DoWand sort cancelled limit avg explain minMatch (MkTerms [] c) = Ok NewMinWithId.
Proof. intros Hs. unfold DoWand, SortFull. cbn [terms_T terms_Count sum_list_with]. assert (sort [] = []) as ->; [|done]. apply Permutation_nil_r. apply sort_perm. Qed.

Lemma ranked_NoDup Log cfg N avg filterDocIds requests ids : StronglySorted (ranked_below Log cfg N avg filterDocIds requests) ids -> NoDup ids.
Proof.
  induction 1 as [|x l _ IH Hx]; constructor; [|done]. intros Hin. destruct (proj1 (Forall_forall _ _) Hx x Hin) as [Hlt|[_ Hlt]]; [|lia]. by apply (irreflexivity Qclt) in Hlt.
Qed.

(** Different documents of some terms are not more than the lists have *)
Lemma ids_bound T l : NoDup l -> (forall d, d ∈ l -> exists t, t ∈ T /\ d ∈ map Id (Data t)) -> (length l <= sum_list_with (fun t => length (Data t)) T)%nat.
Proof.
  intros Hnd Hin. assert (Hlen : length (concat (map (fun t => map Id (Data t)) T)) = sum_list_with (fun t => length (Data t)) T).
  { clear. induction T as [|t T IH]; [done|]. cbn [map concat sum_list_with]. by rewrite length_app, length_map, IH. }
  rewrite <- Hlen. apply submseteq_length, NoDup_submseteq; [done|]. intros d Hd. destruct (Hin d Hd) as (t & Ht & Hdt). apply list_elem_of_In, in_concat. exists (map Id (Data t)).
  split; [apply in_map_iff; exists t; split; [done|by apply list_elem_of_In]|by apply list_elem_of_In].
Qed.

(** The queue has the best documents with their scores. *)
Lemma search_terms_correct Log cfg sort cancelled read postings N avg filterDocIds boosts trs limit explain minMatch (requests := map (asked postings boosts) trs) :
  (forall x, (1 ≤ x)%Qc -> (0 ≤ Log x)%Qc) -> (0 ≤ K1 cfg)%Qc -> (0 ≤ B cfg /\ B cfg ≤ 1)%Qc -> (0 < avg)%Qc ->
  SortLaws sort -> (forall c, cancelled c = false) -> (forall p w b, read p w b = Some (postings p w b)) -> Forall request_ok requests -> 0 <= limit ->
  exists q out, search_terms Log cfg sort cancelled read N avg filterDocIds boosts trs limit explain minMatch = Ok q /\ popped q = Ok out /\
    map Dist out = map (query_score Log cfg N avg filterDocIds requests) (map ID out) /\ top_documents Log cfg N avg filterDocIds minMatch requests limit (map ID out).
Proof.
  intros HLog HK HB Ha Hsort Hc Hr0 Hok Hl. destruct (create_terms_correct Log cfg N avg filterDocIds HLog HK HB cancelled read postings boosts Hc Hr0 trs 0 Hok) as (T & ET & Hfresh & Hne & Hidx & Hsc).
  fold requests in Hsc. unfold search_terms. rewrite ET. cbn [obind]. rewrite Hc. cbn [Nat.add] in Hidx. assert (Hw : forall d, candidate minMatch T d <-> wanted filterDocIds minMatch requests d).
  { intros d. unfold candidate, wanted. by rewrite (proj2 (Hsc d)). }
  assert (Hr : forall a b, worse (doc_score avg T) a b <-> ranked_below Log cfg N avg filterDocIds requests a b).
  { intros a b. unfold worse, ranked_below. by rewrite (proj1 (Hsc a)), (proj1 (Hsc b)). }
  destruct T as [|t0 T0] eqn:EqT.
  { exists NewMinWithId, []. rewrite empty_search by done. cbn [obind map]. rewrite Hc. split_and!; [done|done|done|]. split; [constructor|constructor|cbn [length]; lia|]. intros d [Hd _]%Hw. change (matched [] d) with 0 in Hd. lia. }
  rewrite <- EqT in *. set (limit' := if limit =? 0 then _ else limit). assert (Hl' : 1 <= limit').
  { unfold limit'. destruct (Z.eqb_spec limit 0); [|lia]. rewrite EqT in Hne |- *. apply Forall_inv in Hne. cbn [sum_list_with]. destruct (Data t0); [done|]. cbn [length]. lia. }
  destruct (wand_correct sort (fun i => cancelled (AtIteration i)) limit' avg explain minMatch T (length trs) Hsort Hl' Ha (fun i => Hc (AtIteration i)) Hfresh (fun _ => Hidx)) as (q & out & -> & Ep & [Hd Hcand Hn Hs Hleft]).
  cbn [obind]. rewrite Hc. exists q, out. assert (Hranked : StronglySorted (ranked_below Log cfg N avg filterDocIds requests) (map ID out)) by (rewrite <- (list_fmap_id (map ID out)); by apply (StronglySorted_fmap id (worse (doc_score avg T))); [intros a b; apply Hr|]).
  split_and!; [done|done|rewrite Hd; apply map_ext; intros d; apply Hsc|]. split; [by eapply Forall_impl; [exact Hcand|]; intros d; apply Hw|done| |].
  - intros H1. unfold limit' in Hn. by rewrite (proj2 (Z.eqb_neq _ _)) in Hn by lia.
  - intros d Hwd Hout. destruct (Hleft d (proj2 (Hw d) Hwd) Hout) as [Hfull Hall]. destruct (decide (limit = 0)) as [->|Hnz].
    + exfalso. unfold limit' in Hfull. cbn in Hfull. assert (Hb : (length (d :: map ID out) <= sum_list_with (fun t => length (Data t)) T)%nat).
      { apply ids_bound; [constructor; [done|by eapply ranked_NoDup]|]. assert (Hoks : Forall term_ok T) by (eapply Forall_impl; [exact Hfresh|by intros t [? _ _]]).
        intros x [->|Hx]%elem_of_cons; [apply (matched_posting T d Hoks), Hw, Hwd|]. apply (matched_posting T x Hoks). by apply (proj1 (Forall_forall _ _) Hcand x Hx). }
      cbn [length] in Hb. lia.
    + unfold limit' in Hfull. rewrite (proj2 (Z.eqb_neq _ _)) in Hfull by done. split_and!; [lia|done|]. eapply Forall_impl; [exact Hall|]. intros x. apply Hr.
Qed.

(** * Claims *)

(** C3: a keyword search returns the objects of the best documents: for the words that the query asks for it ends without an error; what it returns are the
    objects that are there of the best documents, each with the score that adding up frequencies and lengths over the properties gives
    for every word of the query; a document that has enough of the words and is left out is ranked below each that was
    found, and then there are as many as the limit; with limit 0 none is left out. *)
Theorem keyword_search_top_k {Obj} Log cfg sort cancelled read postings (DocID : Obj -> Z) ObjectID fetch object sort_objects order N avg filterDocIds operator minMatch qterms trs minimum limit explain
    (requests := map (asked postings (propertyBoosts qterms)) trs) :
  (forall x, (1 ≤ x)%Qc -> (0 ≤ Log x)%Qc) -> (0 ≤ K1 cfg)%Qc -> (0 ≤ B cfg /\ B cfg ≤ 1)%Qc -> (0 < avg)%Qc ->
  SortLaws sort -> SorterLaws (object_less ObjectID) sort_objects -> (forall c, cancelled c = false) -> (forall p w b, read p w b = Some (postings p w b)) -> (forall l, fetch l = Some (map object l)) ->
  all_requests order operator minMatch qterms = Ok (trs, minimum) -> Forall request_ok requests -> 0 <= limit ->
  exists ids results, wandFromStats Log cfg sort cancelled read DocID fetch sort_objects order filterDocIds operator minMatch explain limit qterms N avg = Ok results /\
    top_documents Log cfg N avg filterDocIds minimum requests limit ids /\
    map fst results ≡ₚ omap (fun d => (fun o => (o, query_score Log cfg N avg filterDocIds requests d)) <$> stored DocID object d) ids /\
    StronglySorted (no_less (object_less ObjectID)) results.
Proof.
  intros HLog HK HB Ha Hsort Hso Hc Hr Hf Ereq Hok Hl. destruct (search_terms_correct Log cfg sort cancelled read postings N avg filterDocIds (propertyBoosts qterms) trs limit explain minimum) as (q & out & Eq & Eo & Hd & Htop); try done.
  destruct (getTopKObjects_correct DocID object ObjectID sort_objects Hso fetch explain q out Hf Eo) as (results & Er & Hs & Hp). exists (map ID out), results.
  unfold wandFromStats. rewrite Ereq. cbn [obind]. rewrite Eq. cbn [obind]. split_and!; [done|done| |done]. rewrite Hp. apply reflexive_eq. fold requests in Hd. clear -Hd.
  induction out as [|x out IH]; [done|]. cbn [map omap list_omap] in Hd |- *. injection Hd as Hx Hd. rewrite (IH Hd), <- Hx. done.
Qed.

(** A query for two words; the property "title" is split into words, "sku" is not. *)
#[export] Instance by_id_dec : RelDecision by_id.
Proof. intros a b. unfold by_id. apply _. Defined.
#[export] Instance by_id_total : Total by_id.
Proof. intros a b. unfold by_id. lia. Qed.
#[export] Instance by_id_trans : Transitive by_id.
Proof. intros a b c. unfold by_id. lia. Qed.
#[export] Instance merge_sort_laws : SortLaws (merge_sort by_id).
Proof. split; intros l; [apply merge_sort_Permutation|apply (StronglySorted_merge_sort by_id)]. Qed.

Definition toy_cfg : BM25Config := MkBM25 1 half.
Definition toy_log (x : Qc) : Qc := (x - 1)%Qc.
Definition toy_qterms : queryTerms :=
  MkQueryTerms {["word" := ["title"; "text"]; "field" := ["sku"]]} {["word" := ["red"; "car"]; "field" := ["red car"]]} {["word" := [1; 1]; "field" := [1]]}
    {["title" := 1%Qc; "text" := 1%Qc; "sku" := 1%Qc]} [] [].
Definition toy_postings (propName word : string) (boost : Qc) : list DocPointerWithScore :=
  if bool_decide (propName = "title" /\ word = "red") then [MkDoc 1 boost 1; MkDoc 3 boost 2]
  else if bool_decide (propName = "title" /\ word = "car") then [MkDoc 3 boost 1]
  else if bool_decide (propName = "text" /\ word = "car") then [MkDoc 3 boost 2; MkDoc 5 boost 2] else [].

Notation toy_search operator minMatch limit qterms :=
  (wandFromStats toy_log toy_cfg (merge_sort by_id) (fun _ => false) (fun p w b => Some (toy_postings p w b)) id (fun l => Some (map Some l)) toy_sort map_to_list None operator minMatch false limit qterms (Qc_of_Z 10) 1%Qc).

Example toy_or : (let! results := toy_search "OPERATOR_OR" 1 2 toy_qterms in Ok (map (fun e => e.1.1) results)) = Ok [1; 3].
Proof. by vm_compute. Qed.

(** Only document 3 has both words. *)
Example toy_and : (let! results := toy_search SearchOperatorAnd 0 0 toy_qterms in Ok (map (fun e => e.1.1) results)) = Ok [5; 1; 3].
Proof. by vm_compute. Qed.

(** Without the property "sku" it is the only one that is returned. *)
Example toy_and_words :
  (let! results := toy_search SearchOperatorAnd 0 0 (MkQueryTerms (delete "field" (propNamesByTokenization toy_qterms)) (queryTermsByTokenization toy_qterms) (duplicateBoostsByTokenization toy_qterms) (propertyBoosts toy_qterms) [] []) in
   Ok (map (fun e => e.1.1) results)) = Ok [3].
Proof. by vm_compute. Qed.

Lemma lists_ok_checked lists : bool_decide (Forall (fun l => StronglySorted Z.lt (map Id l)) lists) = true ->
  forallb (fun d => (0 <=? Id d) && (Id d <? max_u64) && bool_decide (0 < Frequency d)%Qc && bool_decide (0 ≤ PropLength d)%Qc) (concat lists) = true -> (length (concat lists) < 100)%nat -> lists_ok lists.
Proof.
  intros H1 H2 H3. split; [exact (bool_decide_unpack _ (proj2 (Is_true_true _) H1))| |lia]. apply Forall_forall. intros d Hd. apply list_elem_of_In in Hd.
  pose proof (proj1 (forallb_forall _ _) H2 d Hd) as Hb. cbn beta in Hb. apply andb_prop in Hb as [Hb Hp]. apply andb_prop in Hb as [Hb Hf]. apply andb_prop in Hb as [Hb1 Hb2].
  apply bool_decide_eq_true in Hp, Hf. apply Z.leb_le in Hb1. apply Z.ltb_lt in Hb2. split; [lia|split; [exact Hf|exact Hp]].
Qed.

Definition toy_trs : list termListRequest := [MkTermRequest "red" 1 ["title"; "text"]; MkTermRequest "car" 1 ["title"; "text"]; MkTermRequest "red car" 1 ["sku"]].

Lemma toy_log_nonneg x : (1 ≤ x)%Qc -> (0 ≤ toy_log x)%Qc.
Proof. intros Hx. unfold toy_log. apply (Qcplus_le_mono_r _ _ 1). ring_simplify. exact Hx. Qed.

Lemma keyword_search_top_k_witness :
  exists ids results, toy_search "OPERATOR_OR" 1 2 toy_qterms = Ok results /\
    top_documents toy_log toy_cfg (Qc_of_Z 10) 1%Qc None 1 (map (asked toy_postings (propertyBoosts toy_qterms)) toy_trs) 2 ids /\ StronglySorted (no_less (object_less toy_name)) results.
Proof.
  destruct (keyword_search_top_k toy_log toy_cfg (merge_sort by_id) (fun _ => false) (fun p w b => Some (toy_postings p w b)) toy_postings id toy_name (fun l => Some (map Some l)) Some toy_sort map_to_list
    (Qc_of_Z 10) 1%Qc None "OPERATOR_OR" 1 toy_qterms toy_trs 1 2 false) as (ids & results & E & Htop & _ & Hs).
  - exact toy_log_nonneg.
  - apply (bool_decide_unpack _). vm_compute. exact I.
  - split; apply (bool_decide_unpack _); vm_compute; exact I.
  - apply (bool_decide_unpack _). vm_compute. exact I.
  - exact merge_sort_laws.
  - apply merge_sorter, object_less_weak.
  - reflexivity.
  - reflexivity.
  - reflexivity.
  - vm_compute. reflexivity.
  - cbn [map toy_trs]. repeat (apply Forall_cons; split); [..|apply Forall_nil; exact I]; (split; [apply lists_ok_checked; [vm_compute; reflexivity|vm_compute; reflexivity|vm_compute; lia]|cbn; lia]).
  - lia.
  - exists ids, results. split; [exact E|]. split; [exact Htop|exact Hs].
Defined.

(** ** Searching for all words *)

Lemma tokenization_minimum operator minMatch : IsAndOperator operator = true -> forall groups qterms trs0 minimum0 trs minimum,
  tokenization_requests operator minMatch groups qterms trs0 minimum0 = Ok (trs, minimum) ->
  minimum <= minimum0 /\ forall tokenization props, (tokenization, props) ∈ groups -> props <> [] -> minimum <= Z.of_nat (length (default [] (queryTermsByTokenization qterms !! tokenization))).
Proof.
  intros Hop. induction groups as [|[tok names] groups IH]; intros qterms trs0 minimum0 trs minimum E; cbn [tokenization_requests] in E.
  { injection E as <- <-. split; [lia|]. intros tokenization props []%not_elem_of_nil. }
  rewrite Hop in E. destruct (Nat.ltb_spec 0 (length names)) as [Hn|Hn].
  - apply obind_Ok_inv in E as (new & _ & E). apply IH in E as [Hm Hall]. revert Hm. destruct (Z.ltb_spec (Z.of_nat (length (default [] (queryTermsByTokenization qterms !! tok)))) minimum0); intros Hm; (split; [lia|]);
      intros tokenization props [[= -> ->]|Hin]%elem_of_cons Hne; first [lia|by apply (Hall tokenization props)].
  - apply IH in E as [Hm Hall]. split; [lia|]. intros tokenization props [[= -> ->]|Hin]%elem_of_cons Hne; [destruct names; [done|cbn [length] in Hn; lia]|by eapply Hall].
Qed.

(** C29: a search for all words is satisfied by one of them when a searched property is not split into words: as soon as one of the searched tokenizations
    makes a single word of the query, a document that has any of the words of any tokenization counts as having all of them. *)
Theorem and_operator_one_word order minMatch qterms trs minimum postings filterDocIds tokenization props word tr d (requests := map (asked postings (propertyBoosts qterms)) trs) :
  crossPropQueryTerms qterms = [] -> (tokenization, props) ∈ order (propNamesByTokenization qterms) -> props <> [] -> queryTermsByTokenization qterms !! tokenization = Some [word] ->
  all_requests order SearchOperatorAnd minMatch qterms = Ok (trs, minimum) -> tr ∈ trs -> d ∈ word_ids filterDocIds (asked postings (propertyBoosts qterms) tr) -> wanted filterDocIds minimum requests d.
Proof.
  intros Hx Hin Hne Hw E Htr Hd. unfold all_requests in E. rewrite Hx in E. cbn [length] in E. change (0 <? 0)%nat with false in E. cbv iota in E.
  apply tokenization_minimum in E as [_ Hall]; [|done]. specialize (Hall tokenization props Hin Hne). rewrite Hw in Hall. change (Z.of_nat _) with 1 in Hall.
  assert (Hm : 1 <= query_matched filterDocIds requests d); [|split; [exact Hm|lia]]. unfold query_matched.
  assert (Hrq : asked postings (propertyBoosts qterms) tr ∈ filter (fun rq => d ∈ word_ids filterDocIds rq) requests) by (apply list_elem_of_filter; split; [done|by apply list_elem_of_fmap_2]).
  destruct (filter _ requests); [by apply not_elem_of_nil in Hrq|cbn [length]; lia].
Qed.

(** Document 1 has the word "red" but not the word "car". *)
Lemma and_operator_one_word_witness :
  wanted None 1 (map (asked toy_postings (propertyBoosts toy_qterms)) toy_trs) 1 /\ bool_decide (1 ∈ word_ids None (asked toy_postings (propertyBoosts toy_qterms) (MkTermRequest "car" 1 ["title"; "text"]))) = false.
Proof.
  split; [|vm_compute; reflexivity].
  apply (and_operator_one_word map_to_list 0 toy_qterms toy_trs 1 toy_postings None "field" ["sku"] "red car" (MkTermRequest "red" 1 ["title"; "text"]) 1).
  - reflexivity.
  - apply (bool_decide_unpack _). vm_compute. exact I.
  - discriminate.
  - vm_compute. reflexivity.
  - vm_compute. reflexivity.
  - apply list_elem_of_here.
  - apply (bool_decide_unpack _). vm_compute. exact I.
Defined.
